(* ===== verification/_CoqProject ===== *)
-Q . S2P
Prelude.v
Base64.v
Stability.v
Segmenter.v
Scrubber.v
Hygiene.v
ChunkedBody.v
HttpRequest.v
Multipart.v
BusyGuard.v
AudioStream.v
CacheSlots.v
VoicePrompts.v
FlowCache.v
KVCache.v
DecodeRing.v
VoiceText.v
VoiceTurn.v
SileroVad.v
SileroRuntime.v
VoiceVad.v
SpeechDecoder.v
ForcedAligner.v
TextChunking.v
Options.v
Json.v
LlmClient.v
Session.v
Subtitle.v
Wav.v
ChatReply.v
ChatVoice.v
ChatTurn.v
ChatStream.v
ChatLive.v
WarmQueue.v
Speculation.v
FileTree.v
FlatJson.v
Character.v
RoleplayModel.v
CharacterStore.v
ActiveCharacter.v
LlmManager.v
SettingsStore.v
VoiceSessions.v
TorchRandom.v
StdSort.v
TalkerPrompt.v
TalkerSampler.v
TalkerCache.v
Talker.v
AudioChunking.v
Thinker.v
AsrEncoder.v
AsrText.v
AlignerSession.v
Recognition.v
