(* ===== verification/Prelude.v ===== *)
(** Verification of a real-time voice server.

    The program under src/ is a C++ server that listens, answers and speaks:
    microphone audio is segmented by a voice-activity network and transcribed
    while it arrives (app/server/voice.cpp), the transcript becomes a turn of a
    conversation with a language model behind a socket (app/server/llm_client.cpp),
    the reply is scrubbed, cut into sentences (app/server/chat_hygiene.cpp,
    segmenter.cpp) and spoken by a text-to-speech model whose sessions, caches
    and decoders live in the library (src/framework, src/models). The paths
    below are relative to src/; "library" is src/src with its headers in
    src/include/engine.

    * How the model is made

    Bytes are integers in 0..255 ([bytes] is [list Z]); C++ integers are [Z] with
    the wrap-around of their width written out ([uwrap], [swrap]); an exception is
    [Throw] of the type [outcome]; a stateful member function is a program in one
    of the monads of this file ([io]: the state survives an exception; [prog]: it
    is abandoned). Threads are steps of a shared state whose schedules are
    arbitrary sequences of steps. [float] and [double] are abstract types with
    the operations the code uses, and with laws only where a theorem says so;
    networks, recognizers, tokenizers, the JSON parser, sockets and clocks are
    parameters. A C++ loop that is not structural is a [Fixpoint] on a fuel that
    its caller computes from the data (the number of bytes left, of samples, of
    entries), so that running out of it cannot happen; where the result of
    running out could be confused with an answer a theorem shows that it is not
    reached (e.g. [segments_conserve], [feed_quiescent], [chunked_roundtrip],
    [turn_settles]).

    * Files, in order

    - Prelude: bytes, strings and the functions of the C and C++ standard
      library the code uses (find, trim, character classes, to_string, stoll),
      the monads, record update, the tactics and the hint database.
    - Base64 (app/server/base64.cpp), Stability (voice_stability.cpp), Segmenter
      (segmenter.cpp), Scrubber and Hygiene (chat_hygiene.cpp): the text
      components.
    - ChunkedBody, HttpRequest (app/server/http.cpp), Multipart (multipart.cpp)
      and BusyGuard (busy_guard.h): the transport. A handler is the interface
      [IHttpHandler].
    - AudioStream (app/streaming): feeding a session; readers are instances of
      [AudioChunkReader] with [ReaderLaws].
    - CacheSlots (cache_slots.h): an LRU cache, its abstract interface [LruCache]
      and the refinement; VoicePrompts (qwen3_tts/session.cpp), its client, is
      proved against the interface.
    - FlowCache, KVCache, DecodeRing (library, framework/runtime): key/value
      caches of the transformers, and decoding on a bounded ring over a graph
      that is the interface [DecodeGraph].
    - VoiceText, VoiceTurn (app/server/voice.cpp): a live voice connection, the
      audio loop and the decode worker as interleaved threads.
    - SileroVad, SileroRuntime (library, models/silero_vad): segmentation by
      voice activity, offline and streaming; VoiceVad joins them to the voice
      turn: [VadContract] is what the turn asks of a session, the Silero session
      its instance.
    - SpeechDecoder (models/qwen3_tts): windowed and streamed decoding of codec
      frames around a network that answers 1920 samples a frame ([SizedNetwork]).
    - ForcedAligner (models/qwen3_forced_aligner): word timestamps, over
      [TimestampArith] and [InterpolationLaws].
    - TextChunking (framework/text), Options (framework/runtime/options.cpp), Json
      (framework/io/json.cpp), LlmClient (app/server/llm_client.cpp), Session
      (framework/runtime/session.cpp, with [CapacityLaws] for what an adapter of a
      graph must provide), Subtitle (framework/text/subtitle.cpp), Wav
      (framework/audio/wav_reader.cpp, wav_writer.cpp).
    - ChatReply, ChatVoice, ChatTurn, ChatStream, ChatLive (app/server/runtime.cpp):
      a chat turn, from the token events of the language model through the sentences
      of the reply to its audio, as threads over shared queues: the operations, the
      turn as a program, what is heard of it, and that it can end.
    - WarmQueue, Speculation (app/server/runtime.cpp): the queue of warm-up requests
      and the speculative answer to a draft.
    - FileTree, FlatJson, Character, RoleplayModel, CharacterStore, ActiveCharacter
      (app/server, the character store): files as a map from paths, the flat JSON of
      a character, its store and library, and the active character over restarts.
    - LlmManager (app/server/llm_manager.cpp), SettingsStore, VoiceSessions
      (app/server/voice.cpp): the sidecar process and its command line, settings, and
      the table of live voice connections.
    - TorchRandom (framework/sampling): counters of the random generator laid out as
      on the reference device; StdSort: [std::sort] as an interface with its laws.
    - TalkerPrompt, TalkerSampler, TalkerCache, Talker (models/qwen3_tts/talker.cpp):
      the prompt of the speech model and what is remembered of it, the choice of a
      code, the rows of the key/value cache, and the runtime around the networks
      ([Networks]) with its kept graphs.
    - AudioChunking (framework/audio/chunking.cpp): recordings cut at a fixed length,
      around speech and at quiet places, and the words of the chunks put together.
    - Thinker, AsrEncoder, AsrText (models/qwen3_asr): the recognizer's language model
      with its kept graphs ([ThinkerNetworks]), the layout of audio for its encoder
      ([EncoderNetwork]), and the text of prompts and answers.
    - AlignerSession (models/qwen3_forced_aligner/session.cpp, processor.cpp): the
      graphs a session of the recognizer or the aligner keeps, and the aligner's
      prompt and session; Recognition (models/qwen3_asr/session.cpp): requests, long
      recordings in chunks and recordings that arrive, with the aligner behind
      [WordAligner], which AlignerSession's session implements.

    * What is proved

    Each file ends in the theorems of its component. In groups:
    - nothing is lost or invented on the way: bodies of chunks and the events of
      a reply ([chunked_sound], [chunked_roundtrip], [chat_delivers],
      [chat_unsliced], [read_http_request_refines]), text through segmenter,
      scrubber and splitter ([segments_conserve], [scrub_language],
      [chunks_keep_text]), audio through readers, decoders, chunks and files
      ([pcm_stream_delivers], [stream_windows], [vad_chunks_cover],
      [slices_join], [wav_roundtrip]), recordings through the recognizer
      ([stream_transcript], [recording_transcript], [alignment_words]), a chat turn as it is heard
      ([direct_turn_heard], [attached_turn_heard]), audio and events of live
      connections ([session_audio], [session_events]);
    - protocols and schedules: voice turns ([turn_protocol],
      [final_is_transcription], [turn_settles], [turn_audio_contiguous]), the
      run guard ([busy_guard_safe], [bounded_caller_answers]), one reply per
      connection ([handle_client_replies]), warm-ups ([warm_queue_safe]), the end of
      a chat turn ([turn_can_end]), the owner of each connection
      ([voice_sessions_owned]), the sidecar ([switch_spec]);
    - state of the engine never shows: key/value caches and the ring
      ([kv_import_export], [kv_bookkeeping], [rolling_cache_holds],
      [decode_ring]), the prompt cache as a recency list ([slots_are_lru],
      [resolve_transparent]), prepared capacities ([run_uses_prepared]), the runtime
      of the speech model ([generation_transparent], [prompts_transparent]) and of the
      recognizer ([thinker_transparent], [audio_encoded], [aligner_refines]) against the networks
      alone;
    - stored data: characters ([active_survives_restart], [activate_reverts],
      [refused_changes_nothing]), round trips of formats ([multipart_roundtrip],
      [command_line_split], [placeholders_exact], [answer_read]);
    - limits, choices and errors: hostile sizes, refused input and bounds on output
      ([wav_data_bounded], [chunks_within_budget], [timestamps_well_formed],
      [aligned_words_accepted], [vad_never_fails], [integers_exact]), what may be
      sampled ([first_code_allowed], [sample_index_best]), random numbers
      ([tensor_iterator_fill], [calls_disjoint]), whole frames ([frames_whole]).
    Other theorems of the files state further behaviour, and where the code
    departs from its documentation a theorem or an example shows the input.

    * What is not modelled

    Vendored libraries (ggml, SentencePiece, the llama tokenizer, cJSON,
    libyaml); the construction of network graphs, their weights, codecs and
    signal processing, whose correctness is numerical; file system access,
    process start and loading of models; a device that fails to allocate or to compute
    a graph, but where a file says otherwise; the command line, file conversion and
    workflows; routes that only put modelled parts together; logging.
    Floating-point rounding is not modelled: what is proved of a comparison or a
    conversion holds for every interpretation that has the stated laws. *)

From stdpp Require Export base option list numbers strings.
From Stdlib Require Export Lia ZArith Bool Sorted.

Export Ascii.AsciiSyntax.

#[global] Arguments Nat.ltb : simpl never.
#[global] Arguments Nat.leb : simpl never.
#[global] Arguments Nat.eqb : simpl never.

(** * Bytes and byte strings

    A [char] or [uint8_t] of the source is its unsigned value, a [Z] in
    [0, 256); a [std::string] is the list of its bytes. *)

Abbreviation bytes := (list Z).

Definition is_byte (c : Z) : Prop := (0 <= c < 256)%Z.

Definition wf_bytes (s : bytes) : Prop := Forall is_byte s.

(** The byte of a character literal, and the bytes of a string literal. *)
Definition ch (c : Ascii.ascii) : Z := Z.of_N (Ascii.N_of_ascii c).

Definition str (s : String.string) : bytes := map ch (String.list_ascii_of_string s).

Arguments ch _%_char_scope.
Arguments str _%_string_scope.

Declare Scope src_scope.
Delimit Scope src_scope with src.
Infix "=b" := Z.eqb (at level 70, no associativity) : src_scope.
Open Scope src_scope.

(** * Exceptions

    A function of the source that can [throw] returns an [outcome]; the
    message is the [what()] of the exception. *)

Inductive outcome (A : Type) : Type :=
| Ok (a : A)
| Throw (msg : bytes).
Arguments Ok {_} _.
Arguments Throw {_} _.

#[export] Instance outcome_ret : MRet outcome := @Ok.
#[export] Instance outcome_bind : MBind outcome := fun A B k m =>
  match m with Ok a => k a | Throw e => Throw e end.
#[export] Instance outcome_fmap : FMap outcome := fun A B f m =>
  match m with Ok a => Ok (f a) | Throw e => Throw e end.

Definition is_ok {A} (m : outcome A) : bool :=
  match m with Ok _ => true | Throw _ => false end.

Lemma outcome_bind_ok {A B} (k : A → outcome B) (m : outcome A) (b : B) :
  m ≫= k = Ok b ↔ ∃ a, m = Ok a ∧ k a = Ok b.
Proof. destruct m; cbn; naive_solver. Qed.

(** * Character classes of the C locale *)

Section classes.
Local Open Scope Z_scope.

Definition is_space (c : Z) : bool := ((9 <=? c) && (c <=? 13)) || (c =? 32).
Definition is_upper (c : Z) : bool := (65 <=? c) && (c <=? 90).
Definition is_lower (c : Z) : bool := (97 <=? c) && (c <=? 122).
Definition is_digit (c : Z) : bool := (48 <=? c) && (c <=? 57).
Definition is_alpha (c : Z) : bool := is_upper c || is_lower c.
Definition is_alnum (c : Z) : bool := is_alpha c || is_digit c.
Definition is_punct (c : Z) : bool := (33 <=? c) && (c <=? 126) && negb (is_alnum c).
Definition to_lower (c : Z) : Z := if is_upper c then c + 32 else c.

End classes.

(** * Searching in strings

    [find_sub n s] is [s.find(n)]; [find_from n s pos] is [s.find(n, pos)];
    [npos] is [None]. *)

Fixpoint is_prefix (n s : bytes) : bool :=
  match n, s with
  | [], _ => true
  | _ :: _, [] => false
  | a :: n', b :: s' => (a =b b) && is_prefix n' s'
  end.

Fixpoint find_sub (n s : bytes) : option nat :=
  if is_prefix n s then Some 0
  else match s with
       | [] => None
       | _ :: s' => S <$> find_sub n s'
       end.

Definition find_from (n s : bytes) (pos : nat) : option nat :=
  if pos <=? length s then Nat.add pos <$> find_sub n (drop pos s) else None.

(** [s.substr(pos, count)] for [pos <= s.size()]. *)
Definition substr (s : bytes) (pos count : nat) : bytes := take count (drop pos s).

Lemma is_prefix_spec n s : is_prefix n s = true ↔ ∃ t, s = n ++ t.
Proof.
  revert s; induction n as [|a n IH]; intros [|b s]; cbn.
  - naive_solver.
  - naive_solver.
  - naive_solver.
  - rewrite andb_true_iff, Z.eqb_eq, IH. naive_solver.
Qed.

Lemma is_prefix_app n t : is_prefix n (n ++ t) = true.
Proof. apply is_prefix_spec; eauto. Qed.

Lemma find_sub_Some n s i :
  find_sub n s = Some i →
  is_prefix n (drop i s) = true ∧ ∀ j, j < i → is_prefix n (drop j s) = false.
Proof.
  revert i; induction s as [|c s IH]; intros i; cbn [find_sub].
  - destruct (is_prefix n []) eqn:E; intros; simplify_eq/=. split; [done|lia].
  - destruct (is_prefix n (c :: s)) eqn:E; intros H; simplify_eq/=.
    + split; [done|lia].
    + apply fmap_Some in H as (k & Hk & ->). apply IH in Hk as [Hp Hm].
      split; [done|]. intros [|j] Hj; cbn; [done|]. apply Hm; lia.
Qed.

Lemma find_sub_None n s : find_sub n s = None → ∀ j, is_prefix n (drop j s) = false.
Proof.
  induction s as [|c s IH]; cbn [find_sub]; intros H j.
  - rewrite drop_nil. by destruct (is_prefix n []).
  - destruct (is_prefix n (c :: s)) eqn:E; [done|].
    apply fmap_None in H. destruct j; cbn; auto.
Qed.

Lemma is_prefix_length n s : is_prefix n s = true → length n <= length s.
Proof. intros [t ->]%is_prefix_spec. rewrite length_app. lia. Qed.

Lemma find_sub_le n s i : find_sub n s = Some i → i + length n <= length s.
Proof.
  revert i; induction s as [|c s IH]; intros i; cbn [find_sub];
    destruct (is_prefix n _) eqn:E; intros H; simplify_eq/=.
  - by apply is_prefix_length in E.
  - by apply is_prefix_length in E.
  - apply fmap_Some in H as (k & Hk & ->). apply IH in Hk. lia.
Qed.

Lemma is_prefix_extend n s t : is_prefix n s = true → is_prefix n (s ++ t) = true.
Proof. rewrite !is_prefix_spec. intros [u ->]. exists (u ++ t). by rewrite app_assoc. Qed.

Lemma is_prefix_short n s t :
  length n <= length s → is_prefix n (s ++ t) = is_prefix n s.
Proof.
  revert s; induction n as [|a n IH]; intros [|b s] H; cbn in *; try done; [lia|].
  by rewrite IH by lia.
Qed.

(** The first occurrence does not depend on what follows it. *)
Lemma find_sub_app n s t i : find_sub n s = Some i → find_sub n (s ++ t) = Some i.
Proof.
  revert i; induction s as [|c s IH]; intros i; cbn [find_sub app].
  - destruct (is_prefix n []) eqn:E; [|done]. intros [= <-]. destruct n; [by destruct t|done].
  - destruct (is_prefix n (c :: s)) eqn:E.
    + intros [= <-]. by rewrite (is_prefix_extend n (c :: s) t E : is_prefix n (c :: s ++ t) = true).
    + intros (k & Hk & ->)%fmap_Some.
      pose proof (find_sub_le _ _ _ Hk) as Hle.
      assert (is_prefix n (c :: s ++ t) = false) as ->.
      { change (c :: s ++ t) with ((c :: s) ++ t). rewrite is_prefix_short; [done|cbn; lia]. }
      by rewrite (IH k Hk).
Qed.

Lemma find_sub_take n s i : find_sub n s = Some i → find_sub n (take (i + length n) s) = Some i.
Proof.
  revert i; induction s as [|c s IH]; intros i; cbn [find_sub].
  - destruct (is_prefix n []) eqn:E; [|done]. intros [= <-]. rewrite take_nil. cbn. by rewrite E.
  - destruct (is_prefix n (c :: s)) eqn:E.
    + intros [= <-]. apply is_prefix_spec in E as [u E]. rewrite E. cbn [Nat.add].
      rewrite take_app_length. destruct n as [|a n]; [done|]. cbn [find_sub].
      by rewrite (proj2 (is_prefix_spec (a :: n) (a :: n))) by (exists []; by rewrite app_nil_r).
    + intros (k & Hk & ->)%fmap_Some. cbn [Nat.add take find_sub].
      pose proof (find_sub_le _ _ _ Hk) as Hle.
      assert (is_prefix n (c :: take (k + length n) s) = false) as ->.
      { rewrite <- (is_prefix_short n _ (drop (k + length n) s)).
        - cbn. by rewrite take_drop.
        - cbn. rewrite length_take. lia. }
      by rewrite (IH k Hk).
Qed.

(** A found occurrence splits the string. *)
Lemma find_sub_split n s i :
  find_sub n s = Some i → s = take i s ++ n ++ drop (i + length n) s.
Proof.
  intros H. pose proof (find_sub_le _ _ _ H) as Hle.
  apply find_sub_Some in H as [Hp _]. apply is_prefix_spec in Hp as [t Ht].
  rewrite <- (take_drop i s) at 1. f_equal.
  rewrite Ht at 1. f_equal. rewrite <- drop_drop, Ht. by rewrite drop_app_length.
Qed.

(** A pattern cannot start inside a text that lacks its first character. *)
Lemma find_sub_absent c n s : Forall (λ x, x ≠ c) s → find_sub (c :: n) s = None.
Proof.
  induction 1 as [|x s Hx _ IH]; cbn [find_sub is_prefix]; [done|].
  rewrite (proj2 (Z.eqb_neq _ _)) by congruence. cbn [andb]. by rewrite IH.
Qed.

Lemma find_sub_first c n s :
  Forall (λ x, x ≠ c) s → find_sub (c :: n) (s ++ c :: n) = Some (length s).
Proof.
  induction 1 as [|x s Hx _ IH]; cbn [app find_sub].
  - by rewrite (is_prefix_app (c :: n) [] : is_prefix _ _ = true) || (rewrite <- (app_nil_r (c :: n)) at 2; by rewrite is_prefix_app).
  - cbn [is_prefix]. rewrite (proj2 (Z.eqb_neq _ _)) by congruence. cbn [andb]. by rewrite IH.
Qed.

(** The pieces of [s] between occurrences of [c]. *)
Fixpoint split_on (c : Z) (s : bytes) : list bytes :=
  match s with
  | [] => [[]]
  | a :: s' =>
      if a =b c then [] :: split_on c s'
      else match split_on c s' with
           | [] => [[a]]
           | p :: ps => (a :: p) :: ps
           end
  end.

Lemma split_on_find c s :
  split_on c s =
  match find_sub [c] s with
  | None => [s]
  | Some i => take i s :: split_on c (drop (S i) s)
  end.
Proof.
  induction s as [|a s IH]; [done|]. cbn [split_on find_sub is_prefix].
  rewrite Z.eqb_sym. destruct (c =b a) eqn:E; cbn [andb]; [done|].
  rewrite IH. destruct (find_sub [c] s) as [i|]; done.
Qed.

Lemma split_on_app c s t :
  split_on c (s ++ c :: t) = split_on c s ++ split_on c t.
Proof.
  induction s as [|a s IH]; cbn [app split_on].
  - by rewrite Z.eqb_refl.
  - rewrite IH. destruct (a =b c); [done|]. rewrite (split_on_find c s).
    by destruct (find_sub [c] s).
Qed.

Lemma find_from_Some n s pos e :
  find_from n s pos = Some e →
  pos <= length s ∧ pos <= e ∧ find_sub n (drop pos s) = Some (e - pos).
Proof.
  unfold find_from. destruct (Nat.leb_spec pos (length s)); [|done].
  intros (k & Hk & ->)%fmap_Some. split; [done|]. split; [lia|]. rewrite Hk. f_equal. lia.
Qed.

Lemma find_from_at n s pos :
  pos <= length s → find_from n s pos = Nat.add pos <$> find_sub n (drop pos s).
Proof. intros H. unfold find_from. by rewrite (proj2 (Nat.leb_le _ _) H). Qed.

(** * Lists *)

Lemma take_drop_eq {A} (n : nat) (l : list A) : take n l ++ drop n l = l.
Proof. apply take_drop. Qed.

(** * Machine words *)

Section words.
Local Open Scope Z_scope.

(** Conversion to an unsigned word of [w] bits. *)
Definition uwrap (w x : Z) : Z := x mod 2 ^ w.

(** [static_cast<int32_t>]. *)
Definition i32 (x : Z) : Z := (uwrap 32 (x + 2 ^ 31) - 2 ^ 31)%Z.

Lemma i32_small x : (0 <= x < 2 ^ 31)%Z → i32 x = x.
Proof. intros H. unfold i32, uwrap. rewrite Z.mod_small; lia. Qed.

Lemma lor_shiftl_add (a n v : Z) :
  0 <= n → 0 <= v < 2 ^ n → Z.lor (Z.shiftl a n) v = a * 2 ^ n + v.
Proof.
  intros Hn Hv. rewrite <- Z.shiftl_mul_pow2 by lia.
  assert (Z.land (Z.shiftl a n) v = 0) as Hz.
  { apply Z.bits_inj'; intros k Hk. rewrite Z.land_spec, Z.bits_0.
    destruct (Z.ltb_spec k n); [by rewrite Z.shiftl_spec_low|].
    rewrite <- (Z.mod_small v (2 ^ n)), Z.mod_pow2_bits_high, andb_false_r by lia. done. }
  rewrite Z.add_nocarry_lxor by done. by rewrite Z.lxor_lor.
Qed.

Lemma land_mask (x n : Z) : 0 <= n → Z.land x (2 ^ n - 1) = x mod 2 ^ n.
Proof. intros. rewrite <- Z.land_ones, Z.ones_equiv by lia. f_equal; lia. Qed.

(** The number a list of digits denotes, most significant digit first. *)
Definition be_value (base : Z) (ds : list Z) : Z :=
  fold_left (λ a d, a * base + d) ds 0.

Lemma be_value_snoc base ds d : be_value base (ds ++ [d]) = be_value base ds * base + d.
Proof. unfold be_value. by rewrite fold_left_app. Qed.

Lemma be_value_app base ds es :
  be_value base (ds ++ es) = be_value base ds * base ^ Z.of_nat (length es) + be_value base es.
Proof.
  induction es as [|e es IH] using rev_ind; [rewrite app_nil_r; cbn; lia|].
  rewrite app_assoc, !be_value_snoc, IH, length_app. cbn [length].
  rewrite Nat2Z.inj_add, Z.pow_add_r, Z.pow_1_r by lia. ring.
Qed.

Lemma be_value_range base ds :
  0 < base → Forall (λ d, 0 <= d < base) ds →
  0 <= be_value base ds < base ^ Z.of_nat (length ds).
Proof.
  intros Hb. induction ds as [|d ds IH] using rev_ind; [cbn; lia|].
  rewrite Forall_app, Forall_singleton. intros [Hds Hd].
  specialize (IH Hds). rewrite be_value_snoc, length_app. cbn [length].
  rewrite Nat2Z.inj_add, Z.pow_add_r by lia. nia.
Qed.

Lemma be_value_inj base ds es :
  0 < base → Forall (λ d, 0 <= d < base) ds → Forall (λ d, 0 <= d < base) es →
  length ds = length es → be_value base ds = be_value base es → ds = es.
Proof.
  intros Hb. revert es. induction ds as [|d ds IH] using rev_ind; intros es.
  { by destruct es. }
  destruct es as [|e es _] using rev_ind; rewrite !length_app; [cbn; lia|].
  rewrite !Forall_app, !Forall_singleton. intros [Hds Hd] [Hes He] Hl.
  rewrite !be_value_snoc. intros Hv.
  destruct (Z.div_mod_unique base (be_value base ds) (be_value base es) d e)
    as [Heq ->]; [lia..|].
  by rewrite (IH es) by (try done; cbn in Hl; lia).
Qed.

End words.

(** Character literals as numbers. *)
Ltac eval_ch :=
  repeat match goal with
  | |- context [ch ?c] => let v := eval vm_compute in (ch c) in change (ch c) with v
  | H : context [ch ?c] |- _ => let v := eval vm_compute in (ch c) in change (ch c) with v in H
  end.

(** Closed powers of two as numbers. *)
Ltac eval_pow2 :=
  repeat match goal with
  | |- context [Z.pow 2 ?n] =>
      let v := eval vm_compute in (Z.pow 2 n) in
      lazymatch v with Z.pos _ => change (Z.pow 2 n) with v end
  end.

(** Well-formedness of a concrete byte string. *)
Ltac wf_concrete :=
  unfold wf_bytes; repeat (apply Forall_cons; split; [unfold is_byte; lia|]); by apply Forall_nil.

(** Case analysis on the boolean tests of a translated function. *)
Ltac case_bool :=
  match goal with
  | |- context [if ?b then _ else _] => let E := fresh "E" in destruct b eqn:E
  | H : context [if ?b then _ else _] |- _ => let E := fresh "E" in destruct b eqn:E
  end.

(** * Trimming white space

    The [trim] helpers of app/server remove [isspace] characters at both ends. *)

Fixpoint trim_left (s : bytes) : bytes :=
  match s with
  | c :: s' => if is_space c then trim_left s' else s
  | [] => []
  end.

Definition trim_right (s : bytes) : bytes := rev (trim_left (rev s)).

Definition trim (s : bytes) : bytes := trim_right (trim_left s).

Definition solid (s : bytes) : bytes := List.filter (λ c, negb (is_space c)) s.

(** [std::to_string] of an integer. *)
Fixpoint to_dec_loop (fuel : nat) (n : Z) (acc : bytes) : bytes :=
  match fuel with
  | O => acc
  | S fuel =>
      let acc := (48 + n mod 10)%Z :: acc in
      if n / 10 =b 0 then acc else to_dec_loop fuel (n / 10) acc
  end.

Definition to_string (n : Z) : bytes :=
  if (n <? 0)%Z then 45%Z :: to_dec_loop (S (Z.to_nat (Z.log2 (- n)))) (- n) []
  else to_dec_loop (S (Z.to_nat (Z.log2 n))) n [].

Lemma to_dec_loop_spec fuel n acc :
  (0 <= n < 2 ^ Z.of_nat fuel)%Z → 0 < fuel →
  ∃ ds, to_dec_loop fuel n acc = map (λ d, 48 + d)%Z ds ++ acc ∧ ds ≠ [] ∧
        Forall (λ d, 0 <= d < 10)%Z ds ∧ be_value 10 ds = n.
Proof.
  revert n acc. induction fuel as [|fuel IH]; intros n acc Hn Hf; [lia|].
  cbn [to_dec_loop]. assert (0 <= n mod 10 < 10)%Z by (apply Z.mod_pos_bound; lia).
  destruct (n / 10 =b 0) eqn:E.
  - exists [(n mod 10)%Z]. split; [done|]. split; [done|]. split; [by apply Forall_singleton|].
    apply Z.eqb_eq in E. unfold be_value. cbn [fold_left]. Z.to_euclidean_division_equations; lia.
  - apply Z.eqb_neq in E. rewrite Nat2Z.inj_succ, Z.pow_succ_r in Hn by lia.
    assert (0 <= n / 10 < 2 ^ Z.of_nat fuel)%Z by (Z.to_euclidean_division_equations; nia).
    destruct (IH (n / 10)%Z ((48 + n mod 10)%Z :: acc)) as (ds & Hl & Hne & Hds & Hv); [done| |].
    { destruct fuel; [cbn in *; lia|lia]. }
    exists (ds ++ [(n mod 10)%Z]). rewrite Hl, map_app, <- app_assoc. split; [done|].
    split; [by destruct ds|]. split; [by apply Forall_app_2; [|apply Forall_singleton]|].
    rewrite be_value_snoc, Hv. pose proof (Z.div_mod n 10). lia.
Qed.

Lemma to_string_spec n :
  (0 <= n)%Z →
  ∃ ds, to_string n = map (λ d, 48 + d)%Z ds ∧ ds ≠ [] ∧ Forall (λ d, 0 <= d < 10)%Z ds ∧
        be_value 10 ds = n.
Proof.
  intros Hn. unfold to_string. rewrite (proj2 (Z.ltb_ge _ _)) by done.
  destruct (to_dec_loop_spec (S (Z.to_nat (Z.log2 n))) n []) as (ds & E & H); [|lia|].
  - rewrite Nat2Z.inj_succ, Z2Nat.id by apply Z.log2_nonneg.
    destruct (decide (n = 0)%Z) as [->|]; [cbn; lia|]. pose proof (Z.log2_spec n). lia.
  - exists ds. by rewrite E, app_nil_r.
Qed.

(** The digits [strtol] reads. *)
Fixpoint leading_digits (s : bytes) : bytes :=
  match s with
  | c :: s' => if is_digit c then c :: leading_digits s' else []
  | [] => []
  end.

(** [std::stoi] and [std::stoll]: leading white space, a sign, digits; the rest
    is ignored. [None] where they throw. *)
Definition read_integer (w : Z) (s : bytes) : option Z :=
  let s := trim_left s in
  let '(sign, s) := match s with
                    | c :: s' => if c =b 45 then ((-1)%Z, s') else if c =b 43 then (1%Z, s') else (1%Z, s)
                    | [] => (1%Z, s)
                    end in
  match leading_digits s with
  | [] => None
  | ds =>
      let v := (sign * be_value 10 (map (λ c, c - 48) ds))%Z in
      if ((- 2 ^ (w - 1) <=? v) && (v <? 2 ^ (w - 1)))%Z then Some v else None
  end.

Definition stoll (s : bytes) : outcome Z :=
  match read_integer 64 s with Some v => Ok v | None => Throw (str "stoll") end.

(** Neither end of [s] is white space. *)
Definition trimmed (s : bytes) : Prop :=
  (∀ c, head s = Some c → is_space c = false) ∧ (∀ c, last s = Some c → is_space c = false).

Lemma solid_app s t : solid (s ++ t) = solid s ++ solid t.
Proof. apply List.filter_app. Qed.

Lemma solid_rev s : solid (rev s) = rev (solid s).
Proof. apply List.filter_rev. Qed.

Lemma trim_left_spec s : ∃ sp, s = sp ++ trim_left s ∧ Forall (λ c, is_space c = true) sp.
Proof.
  induction s as [|c s (sp & E & Hf)]; cbn; [by exists []|].
  destruct (is_space c) eqn:Hc; [|by exists []].
  exists (c :: sp). cbn. by rewrite <- E; auto.
Qed.

Lemma trim_left_head s c : head (trim_left s) = Some c → is_space c = false.
Proof. induction s as [|a s IH]; cbn; [done|]. destruct (is_space a) eqn:E; [done|]. by intros [= <-]. Qed.

Lemma solid_trim_left s : solid (trim_left s) = solid s.
Proof.
  induction s as [|c s IH]; cbn; [done|]. unfold solid in *. cbn.
  destruct (is_space c) eqn:E; cbn; [done|]. by rewrite E.
Qed.

Lemma solid_trim s : solid (trim s) = solid s.
Proof.
  unfold trim, trim_right. by rewrite solid_rev, solid_trim_left, solid_rev, rev_involutive, solid_trim_left.
Qed.

Lemma last_rev {A} (l : list A) : last (rev l) = head l.
Proof. destruct l as [|x l]; cbn; [done|]. apply last_snoc. Qed.

Lemma trim_right_prefix s : ∃ sp, s = trim_right s ++ sp ∧ Forall (λ c, is_space c = true) sp.
Proof.
  unfold trim_right. destruct (trim_left_spec (rev s)) as (sp & E & Hf).
  exists (rev sp). split; [|by apply Forall_rev].
  rewrite <- rev_app_distr, <- E. by rewrite rev_involutive.
Qed.

Lemma trim_trimmed s : trimmed (trim s).
Proof.
  split; intros c Hc.
  - destruct (trim_right_prefix (trim_left s)) as (sp & E & _). unfold trim in Hc.
    apply (trim_left_head s). rewrite E. by destruct (trim_right (trim_left s)).
  - unfold trim, trim_right in Hc. rewrite last_rev in Hc. by apply trim_left_head in Hc.
Qed.

(** Nothing to trim. *)
Lemma trim_left_solid s : Forall (λ c, is_space c = false) s → trim_left s = s.
Proof. destruct 1 as [|c s Hc _]; cbn; [done|]. by rewrite Hc. Qed.

Lemma trim_solid s : Forall (λ c, is_space c = false) s → trim s = s.
Proof.
  intros H. unfold trim, trim_right. rewrite (trim_left_solid s) by done.
  rewrite (trim_left_solid (rev s)) by (by apply Forall_rev). apply rev_involutive.
Qed.

Lemma trim_ends s :
  (∀ c, head s = Some c → is_space c = false) → (∀ c, last s = Some c → is_space c = false) → trim s = s.
Proof.
  assert (∀ l, (∀ c, head l = Some c → is_space c = false) → trim_left l = l) as Hl.
  { intros [|c l] H; [done|]. cbn. by rewrite (H c eq_refl). }
  intros Hh Ht. unfold trim, trim_right. rewrite (Hl s Hh), Hl, rev_involutive; [done|].
  intros c Hc. apply Ht. by rewrite <- (rev_involutive s), last_rev.
Qed.

Lemma trim_idempotent s : trim (trim s) = trim s.
Proof. destruct (trim_trimmed s). by apply trim_ends. Qed.

Lemma trim_split s :
  ∃ l r, s = l ++ trim s ++ r ∧ Forall (λ c, is_space c = true) l ∧ Forall (λ c, is_space c = true) r.
Proof.
  destruct (trim_left_spec s) as (l & E & Hl), (trim_right_prefix (trim_left s)) as (r & E' & Hr).
  exists l, r. split_and!; [|done..]. unfold trim. by rewrite <- E'.
Qed.

(** [s.rfind(c)] and [s.rfind(c, pos)] for one character. *)
Fixpoint rfind_char (c : Z) (s : bytes) : option nat :=
  match s with
  | [] => None
  | a :: s' => match rfind_char c s' with
               | Some i => Some (S i)
               | None => if a =b c then Some 0 else None
               end
  end.

Definition rfind_char_upto (c : Z) (s : bytes) (pos : nat) : option nat :=
  rfind_char c (take (S pos) s).

Lemma rfind_char_lookup c s i : rfind_char c s = Some i → s !! i = Some c.
Proof.
  revert i; induction s as [|a s IH]; intros i; cbn; [done|].
  destruct (rfind_char c s) as [j|]; [intros [= <-]; by apply IH|].
  destruct (a =b c) eqn:E; [|done]. apply Z.eqb_eq in E as ->. by intros [= <-].
Qed.

Lemma rfind_char_none c s : rfind_char c s = None → ∀ j, s !! j ≠ Some c.
Proof.
  induction s as [|a s IH]; cbn; intros H j; [done|].
  destruct (rfind_char c s) as [k|] eqn:E; [done|].
  destruct (a =b c) eqn:Ea; [done|]. destruct j as [|j]; cbn; [|by apply IH].
  intros [= ->]. by rewrite Z.eqb_refl in Ea.
Qed.

Lemma rfind_char_last c s i : rfind_char c s = Some i → ∀ j, i < j → s !! j ≠ Some c.
Proof.
  revert i; induction s as [|a s IH]; intros i; cbn; [done|].
  destruct (rfind_char c s) as [k|] eqn:E.
  - intros [= <-] [|j] Hj; [lia|]. cbn. eapply IH; [done|lia].
  - destruct (a =b c); [|done]. intros [= <-] [|j] Hj; [lia|]. cbn.
    by apply rfind_char_none.
Qed.

(** * Stateful code that can throw

    A member function of an object with state [S] is a [prog S A]; an exception
    discards the state, as no caller of the modelled code reads it again. *)

Definition prog (S A : Type) : Type := S → outcome (A * S).

#[export] Instance prog_ret S : MRet (prog S) := λ A a s, Ok (a, s).
#[export] Instance prog_bind S : MBind (prog S) := λ A B k m s,
  match m s with Ok (a, s') => k a s' | Throw e => Throw e end.

Definition get_state {S} : prog S S := λ s, Ok (s, s).
Definition put_state {S} (s : S) : prog S () := λ _, Ok (tt, s).
Definition throw {S A} (msg : bytes) : prog S A := λ _, Throw msg.

Lemma prog_bind_ok {S A B} (k : A → prog S B) (m : prog S A) (s : S) (r : B * S) :
  (m ≫= k) s = Ok r ↔ ∃ a s', m s = Ok (a, s') ∧ k a s' = Ok r.
Proof.
  unfold mbind, prog_bind. destruct (m s) as [[a s']|e]; [|naive_solver].
  split; [eauto|]. intros (a' & s'' & H & Hk). by simplify_eq.
Qed.

Lemma prog_bind_step {S A B} (k : A → prog S B) (m : prog S A) s a s' :
  m s = Ok (a, s') → (m ≫= k) s = k a s'.
Proof. unfold mbind, prog_bind. by intros ->. Qed.

(** Inverts a successful run, bind by bind. *)
Ltac prog_inv :=
  repeat match goal with
  | H : (mbind _ _) _ = Ok _ |- _ => apply prog_bind_ok in H as (? & ? & ? & ?)
  | H : throw _ _ = Ok _ |- _ => discriminate H
  | H : get_state _ = Ok _ |- _ => unfold get_state in H; simplify_eq
  | H : put_state _ _ = Ok _ |- _ => unfold put_state in H; simplify_eq
  | H : mret _ _ = Ok _ |- _ => unfold mret, prog_ret in H; simplify_eq
  end.

(** [p] relates the states around every successful run by [R]. *)
Definition preserves {S A} (R : S → S → Prop) (p : prog S A) : Prop :=
  ∀ s a s', p s = Ok (a, s') → R s s'.

Section preserves.
Context {S : Type} (R : S → S → Prop) `{!PreOrder R}.

Lemma preserves_ret {A} (a : A) : preserves R (mret a : prog S A).
Proof. intros s b s' [= _ <-]. reflexivity. Qed.

Lemma preserves_get : preserves R get_state.
Proof. intros s b s' [= _ <-]. reflexivity. Qed.

Lemma preserves_throw {A} msg : preserves R (throw msg : prog S A).
Proof. by intros s b s'. Qed.

Lemma preserves_bind {A B} (k : A → prog S B) (m : prog S A) :
  preserves R m → (∀ a, preserves R (k a)) → preserves R (m ≫= k).
Proof.
  intros Hm Hk s b s' H. apply prog_bind_ok in H as (a & s1 & H1 & H2).
  etransitivity; [by eapply Hm|by eapply Hk].
Qed.
End preserves.

Create HintDb preserves.
#[export] Hint Resolve preserves_ret preserves_get preserves_throw : preserves.

(** Walks a program down to the steps the hints know. *)
Ltac preserve :=
  repeat (first [ solve [eauto with preserves typeclass_instances]
                | apply preserves_bind; [| |intros ?]
                | apply preserves_bind; [|intros ?]
                | case_match ]).

(** * Programs with exceptions that are caught

    The state survives a throw, so that a handler can look at it. *)

Definition io (S A : Type) : Type := S → outcome A * S.

#[export] Instance io_ret {S} : MRet (io S) := fun A a s => (Ok a, s).
#[export] Instance io_bind {S} : MBind (io S) := fun A B k m s =>
  match m s with (Ok a, s') => k a s' | (Throw e, s') => (Throw e, s') end.

Definition io_get {S} : io S S := λ s, (Ok s, s).
Definition io_modify {S} (f : S → S) : io S () := λ s, (Ok tt, f s).
Definition io_lift {S A} (m : outcome A) : io S A := λ s, (m, s).
Definition io_catch {S A} (m : io S A) (handler : bytes → io S A) : io S A := λ s,
  match m s with (Ok a, s') => (Ok a, s') | (Throw e, s') => handler e s' end.

(** Running a program step by step. *)
Lemma io_bind_Ok {S A B} (k : A → io S B) (m : io S A) s a s' : m s = (Ok a, s') → (m ≫= k) s = k a s'.
Proof. intros E. unfold mbind, io_bind. by rewrite E. Qed.

Lemma io_bind_Throw {S A B} (k : A → io S B) (m : io S A) s e s' : m s = (Throw e, s') → (m ≫= k) s = (Throw e, s').
Proof. intros E. unfold mbind, io_bind. by rewrite E. Qed.

Lemma io_bind_get {S B} (k : S → io S B) s : (io_get ≫= k) s = k s s.
Proof. done. Qed.

Lemma io_bind_lift {S A B} (k : A → io S B) (a : A) s : (io_lift (Ok a) ≫= k) s = k a s.
Proof. done. Qed.

Lemma io_bind_inv {S A B} (k : A → io S B) (m : io S A) s b s' :
  (m ≫= k) s = (Ok b, s') → ∃ a s1, m s = (Ok a, s1) ∧ k a s1 = (Ok b, s').
Proof. unfold mbind, io_bind. destruct (m s) as [[a|e] s1]; [|done]. intros E. by exists a, s1. Qed.

(** * Programs that run side by side *)

(** Two runs from states in [R] that give the same result and end in [R'], or in [E] with an exception. *)
Definition runs {S T A} (R R' E : S → T → Prop) (m : io S A) (n : io T A) : Prop :=
  ∀ s t, R s t → (m s).1 = (n t).1 ∧ (if is_ok (m s).1 then R' (m s).2 (n t).2 else E (m s).2 (n t).2).

Lemma runs_bind {S T A B} (R R' R'' E : S → T → Prop) (m : io S A) (n : io T A) (k : A → io S B) (l : A → io T B) :
  runs R R' E m n → (∀ a, runs R' R'' E (k a) (l a)) → runs R R'' E (m ≫= k) (n ≫= l).
Proof.
  intros Hm Hk s t HR. unfold mbind, io_bind. destruct (Hm s t HR) as [E1 E2].
  destruct (m s) as [[a|e] s'], (n t) as [r t']; cbn in E1, E2; subst; cbn; [by apply Hk|done].
Qed.

Lemma runs_lift {S T A} (R E : S → T → Prop) (r : outcome A) : (∀ s t, R s t → E s t) → runs R R E (io_lift r) (io_lift r).
Proof. intros HE s t HR. split; [done|]. cbn. destruct r; cbn; auto. Qed.

Lemma runs_ret {S T A} (R E : S → T → Prop) (a : A) : runs R R E (mret a) (mret a).
Proof. intros s t HR. by split. Qed.

(** What a program returns, when it returns. *)
Definition yields {S A} (Q : A → Prop) (m : io S A) : Prop := ∀ s a s', m s = (Ok a, s') → Q a.

Lemma yields_bind {S A B} (Q : A → Prop) (Q' : B → Prop) (m : io S A) (k : A → io S B) :
  yields Q m → (∀ a, Q a → yields Q' (k a)) → yields Q' (m ≫= k).
Proof.
  intros Hm Hk s b s'. unfold mbind, io_bind. destruct (m s) as [[a|e] t] eqn:E; [|done]. eapply Hk, Hm, E.
Qed.

Lemma yields_any {S A} (m : io S A) : yields (λ _, True) m.
Proof. done. Qed.

Lemma yields_ret {S A} (Q : A → Prop) (a : A) : Q a → yields (S := S) Q (mret a).
Proof. by intros H s b s' [= <- _]. Qed.

(** * Record update

    A record names its fields once ([Settable]); [r <| field := v |>] is then the
    record with one field replaced. *)

Class Settable (R : Type) := eta_expand : R → R.

Class Setter {R E : Type} (getter : R → E) := set_field : (E → E) → R → R.
Arguments set_field {R E} getter {_} _ _.

Ltac solve_setter :=
  match goal with |- @Setter ?R ?E ?getter =>
    let inst := constr:(_ : Settable R) in
    let eta := eval hnf in inst in
    let abstracted := eval pattern getter in eta in
    match abstracted with
    | ?body _ =>
        let setter := eval cbv beta in (λ (f : E → E) (r : R), body (λ r', f (getter r')) r) in
        exact setter
    end
  end.
#[export] Hint Extern 1 (Setter _) => solve_setter : typeclass_instances.

Notation "r <| getter := v |>" := (set_field getter (λ _, v) r)
  (at level 12, left associativity, format "r  <| getter  :=  v |>").
