(* ===== verification/Base64.v ===== *)
(** Base64 (app/server/base64.cpp): the encoder, the streaming decoder with its
    32-bit accumulator, and their correctness against big-endian numbers. *)

From S2P Require Import Prelude.
Local Open Scope Z_scope.

(** * Definitions *)

Definition kAlphabet : bytes :=
  str "ABCDEFGHIJKLMNOPQRSTUVWXYZabcdefghijklmnopqrstuvwxyz0123456789+/".

Definition alphabet_at (i : Z) : Z := default 0 (kAlphabet !! Z.to_nat i).

Definition decode_char (c : Z) : Z :=
  if (ch "A" <=? c) && (c <=? ch "Z") then c - ch "A"
  else if (ch "a" <=? c) && (c <=? ch "z") then c - ch "a" + 26
  else if (ch "0" <=? c) && (c <=? ch "9") then c - ch "0" + 52
  else if c =b ch "+" then 62
  else if c =b ch "/" then 63
  else -1.

(** One iteration of the encoder's loop: [b1], [b2] are [None] past the end. *)
Definition encode_group (b0 : Z) (b1 b2 : option Z) : bytes :=
  let chunk := Z.lor (Z.lor (Z.shiftl b0 16) (Z.shiftl (default 0 b1) 8)) (default 0 b2) in
  [ alphabet_at (Z.land (Z.shiftr chunk 18) 63);
    alphabet_at (Z.land (Z.shiftr chunk 12) 63);
    if b1 then alphabet_at (Z.land (Z.shiftr chunk 6) 63) else ch "=";
    if b2 then alphabet_at (Z.land chunk 63) else ch "=" ].

Fixpoint base64_encode (data : bytes) : bytes :=
  match data with
  | [] => []
  | [b0] => encode_group b0 None None
  | [b0; b1] => encode_group b0 (Some b1) None
  | b0 :: b1 :: b2 :: rest => encode_group b0 (Some b1) (Some b2) ++ base64_encode rest
  end.

(** The local variables of the decoder's loop. *)
Record decoder := Decoder { buffer : Z; bits : Z; padding : Z; out : bytes }.

Definition is_blank (c : Z) : bool :=
  (c =b ch " ") || (c =b 9) || (c =b 13) || (c =b 10).

Definition decode_step (st : decoder) (c : Z) : outcome decoder :=
  if is_blank c then Ok st
  else if c =b ch "=" then
    let pad := padding st + 1 in
    if 2 <? pad then Throw (str "malformed base64 payload: excess padding")
    else Ok (Decoder (buffer st) (bits st) pad (out st))
  else if 0 <? padding st then
    Throw (str "malformed base64 payload: data after padding")
  else
    let value := decode_char c in
    if value <? 0 then Throw (str "malformed base64 payload: invalid character")
    else
      let buf := uwrap 32 (Z.lor (Z.shiftl (buffer st) 6) value) in
      let b := bits st + 6 in
      if 8 <=? b then
        let b' := b - 8 in
        Ok (Decoder buf b' (padding st) (out st ++ [Z.land (Z.shiftr buf b') 255]))
      else Ok (Decoder buf b (padding st) (out st)).

Fixpoint decode_loop (st : decoder) (input : bytes) : outcome decoder :=
  match input with
  | [] => Ok st
  | c :: input' => st' ← decode_step st c; decode_loop st' input'
  end.

(** The optional [data:...;base64,] prefix. *)
Definition data_uri_payload (input : bytes) : outcome bytes :=
  if is_prefix (str "data:") input then
    match find_sub (str ",") input, find_sub (str ";base64") input with
    | Some comma, Some _ => Ok (drop (comma + 1) input)
    | _, _ => Throw (str "malformed base64 data URI")
    end
  else Ok input.

Definition decode_payload (input : bytes) : outcome bytes :=
  st ← decode_loop (Decoder 0 0 0 []) input;
  if 6 <=? bits st then Throw (str "malformed base64 payload: truncated quartet")
  else Ok (out st).

Definition base64_decode (input : bytes) : outcome bytes :=
  data_uri_payload input ≫= decode_payload.

(** * The alphabet *)

Definition is_digit64 (d : Z) : Prop := 0 <= d < 64.

Lemma alphabet_table :
  forallb (λ d, let c := alphabet_at d in
    (decode_char c =b d) && negb (is_blank c) && negb (c =b ch "=") && negb (c =b ch ":"))
    (seqZ 0 64) = true.
Proof. vm_compute. reflexivity. Qed.

Lemma alphabet_spec d :
  is_digit64 d →
  decode_char (alphabet_at d) = d ∧ is_blank (alphabet_at d) = false ∧
  (alphabet_at d =b ch "=") = false ∧ (alphabet_at d =b ch ":") = false.
Proof.
  intros Hd. assert (In d (seqZ 0 64)) as Hin.
  { apply list_elem_of_In, elem_of_seqZ. unfold is_digit64 in Hd; lia. }
  pose proof (proj1 (forallb_forall _ _) alphabet_table d Hin) as H.
  cbn beta zeta in H. rewrite !andb_true_iff, !negb_true_iff, Z.eqb_eq in H. tauto.
Qed.

Lemma decode_char_range c : decode_char c < 64.
Proof. unfold decode_char. eval_ch. repeat case_bool; lia. Qed.

Lemma decode_char_inv c : 0 <= decode_char c → alphabet_at (decode_char c) = c.
Proof.
  intros H. assert (In c (seqZ 0 128)) as Hin.
  { apply list_elem_of_In, elem_of_seqZ. revert H. unfold decode_char. eval_ch. repeat case_bool; lia. }
  assert (forallb (λ c, (decode_char c <? 0) || (alphabet_at (decode_char c) =b c))
            (seqZ 0 128) = true) as Ht by (vm_compute; reflexivity).
  pose proof (proj1 (forallb_forall _ _) Ht c Hin) as Hc.
  cbn beta in Hc. rewrite orb_true_iff in Hc. lia.
Qed.

(** * The decoder's invariant *)

(** After the digits [ds], the bytes produced and the bits still held are the
    two parts of the number [ds] denotes, whatever the accumulator has lost. *)
Definition decoded (ds : list Z) (pad : nat) (st : decoder) : Prop :=
  let n := Z.of_nat (length ds) in
  bits st = (6 * n) mod 8 ∧
  padding st = Z.of_nat pad ∧
  Z.of_nat (length (out st)) = 6 * n / 8 ∧
  wf_bytes (out st) ∧
  buffer st = uwrap 32 (be_value 64 ds) ∧
  be_value 256 (out st) = be_value 64 ds / 2 ^ bits st.

Lemma decoded_init : decoded [] 0 (Decoder 0 0 0 []).
Proof. repeat split; cbn; try done. constructor. Qed.

(** The accumulator's wrap-around never reaches the byte being extracted. *)
Lemma accumulator_byte V v b :
  0 <= V → 0 <= v < 64 → b = 2 ∨ b = 4 ∨ b = 6 →
  V / 2 ^ b * 256 + Z.land (Z.shiftr (uwrap 32 (uwrap 32 V * 64 + v)) (b - 2)) 255
  = (V * 64 + v) / 2 ^ (b - 2).
Proof.
  intros HV Hv Hb. change 255 with (2 ^ 8 - 1). rewrite land_mask by lia.
  unfold uwrap. destruct Hb as [->|[->| ->]]; rewrite Z.shiftr_div_pow2 by lia;
    cbn -[Z.div Z.modulo]; Z.to_euclidean_division_equations; lia.
Qed.

Lemma decode_step_digit ds st d :
  is_digit64 d → Forall is_digit64 ds → decoded ds 0 st →
  ∃ st', decode_step st (alphabet_at d) = Ok st' ∧ decoded (ds ++ [d]) 0 st'.
Proof.
  intros Hd Hds (Hb & Hp & Hl & Hw & Hbuf & Hv).
  destruct (alphabet_spec d Hd) as (Hdec & Hbl & Heq & _).
  pose proof (be_value_range 64 ds ltac:(lia) Hds) as HV.
  unfold decode_step. rewrite Hbl, Heq, Hp, Hdec. cbn [Z.of_nat Z.ltb Z.compare].
  unfold is_digit64 in Hd. rewrite (proj2 (Z.ltb_ge d 0)) by lia.
  rewrite (lor_shiftl_add (buffer st) 6 d) by lia.
  assert (bits st = 0 ∨ bits st = 2 ∨ bits st = 4 ∨ bits st = 6) as Hcase
    by (rewrite Hb; Z.to_euclidean_division_equations; lia).
  unfold decoded. rewrite length_app, be_value_snoc. cbn [length].
  destruct Hcase as [H0|H0].
  - rewrite H0. cbn [Z.add Z.leb Z.compare]. eexists; split; [done|]. cbn [out bits padding buffer].
    rewrite Hbuf. change (2 ^ 6) with 64. unfold uwrap.
    repeat split; try done; try (Z.to_euclidean_division_equations; lia).
    rewrite Hv, H0. cbn [Z.pow]. rewrite Z.div_1_r. symmetry.
    rewrite Z.div_add_l, Z.div_small by lia. lia.
  - rewrite (proj2 (Z.leb_le 8 (bits st + 6))) by lia.
    eexists; split; [done|]. cbn [out bits padding buffer]. rewrite length_app. cbn [length].
    rewrite be_value_snoc, Hv, Hbuf. change (2 ^ 6) with 64.
    replace (bits st + 6 - 8) with (bits st - 2) by lia.
    repeat split.
    + Z.to_euclidean_division_equations; lia.
    + rewrite Nat2Z.inj_add, Hl. Z.to_euclidean_division_equations; lia.
    + apply Forall_app; split; [done|]. constructor; [|constructor].
      unfold is_byte. change 255 with (2 ^ 8 - 1). rewrite land_mask by lia.
      apply Z.mod_pos_bound. lia.
    + unfold uwrap. Z.to_euclidean_division_equations; lia.
    + apply accumulator_byte; lia.
Qed.

Lemma decode_step_pad ds pad st :
  decoded ds pad st → (pad < 2)%nat →
  ∃ st', decode_step st (ch "=") = Ok st' ∧ decoded ds (S pad) st'.
Proof.
  intros (Hb & Hp & Hrest) Hpad. unfold decode_step. cbn [is_blank]. rewrite Hp.
  change (is_blank (ch "=")) with false. cbn -[Z.add Z.ltb].
  rewrite (proj2 (Z.ltb_ge 2 _)) by lia.
  eexists; split; [done|]. unfold decoded. cbn [padding bits buffer out].
  split; [done|]. split; [lia|]. done.
Qed.

(** * The decoder's loop *)

Definition strip_blank (s : bytes) : bytes := List.filter (λ c, negb (is_blank c)) s.

Lemma decode_loop_strip st s : decode_loop st s = decode_loop st (strip_blank s).
Proof.
  revert st; induction s as [|c s IH]; intros st; [done|].
  cbn [strip_blank List.filter decode_loop]. fold (strip_blank s).
  destruct (is_blank c) eqn:Hc; cbn [negb decode_loop].
  - unfold decode_step. rewrite Hc. cbn. apply IH.
  - by destruct (decode_step st c); cbn.
Qed.

Lemma decode_loop_app st s t :
  decode_loop st (s ++ t) = (st' ← decode_loop st s; decode_loop st' t).
Proof.
  revert st; induction s as [|c s IH]; intros st; [done|].
  cbn. destruct (decode_step st c); cbn; [apply IH|done].
Qed.

Lemma decode_loop_digits ds0 st ds :
  Forall is_digit64 ds0 → Forall is_digit64 ds → decoded ds0 0 st →
  ∃ st', decode_loop st (map alphabet_at ds) = Ok st' ∧ decoded (ds0 ++ ds) 0 st'.
Proof.
  intros Hds0 Hds. revert ds0 st Hds0. induction Hds as [|d ds Hd Hds IH]; intros ds0 st Hds0 Hst.
  { exists st. by rewrite app_nil_r. }
  destruct (decode_step_digit ds0 st d) as (st1 & Hs & Hst1); [done..|].
  destruct (IH (ds0 ++ [d]) st1) as (st2 & Hl & Hst2); [by apply Forall_app; auto|done|].
  exists st2. cbn. rewrite Hs. cbn. rewrite <- app_assoc in Hst2. done.
Qed.

Lemma decode_loop_pads ds pad st k :
  decoded ds pad st → (pad + k <= 2)%nat →
  ∃ st', decode_loop st (replicate k (ch "=")) = Ok st' ∧ decoded ds (pad + k) st'.
Proof.
  revert pad st; induction k as [|k IH]; intros pad st Hst Hk.
  { exists st. by rewrite Nat.add_0_r. }
  destruct (decode_step_pad ds pad st) as (st1 & Hs & Hst1); [done|lia|].
  destruct (IH (S pad) st1) as (st2 & Hl & Hst2); [done|lia|].
  exists st2. cbn -[decode_step]. rewrite Hs. cbn. rewrite <- Nat.add_succ_comm. done.
Qed.

(** An accepted character is a digit before any padding, or padding. *)
Lemma decode_step_ok ds pad st c st' :
  is_blank c = false → Forall is_digit64 ds → decoded ds pad st → decode_step st c = Ok st' →
  (c = ch "=" ∧ (pad < 2)%nat ∧ decoded ds (S pad) st') ∨
  (pad = 0%nat ∧ ∃ d, c = alphabet_at d ∧ is_digit64 d ∧ decoded (ds ++ [d]) 0 st').
Proof.
  intros Hc Hds Hst H.
  assert (padding st = Z.of_nat pad) as Hp by apply Hst.
  pose proof H as H'. unfold decode_step in H'. rewrite Hc, Hp in H'.
  destruct (c =b ch "=") eqn:Heq.
  - apply Z.eqb_eq in Heq as ->. left.
    destruct (2 <? Z.of_nat pad + 1) eqn:E; [done|].
    destruct (decode_step_pad ds pad st) as (st1 & Hs & Hst1); [done|lia|].
    assert (st1 = st') as -> by congruence. split; [done|]. split; [lia|done].
  - destruct (0 <? Z.of_nat pad) eqn:E; [done|].
    destruct (decode_char c <? 0) eqn:E2; [done|].
    right. assert (pad = 0%nat) as -> by lia. split; [done|].
    assert (is_digit64 (decode_char c)) as Hd by (pose proof (decode_char_range c); unfold is_digit64; lia).
    destruct (decode_step_digit ds st (decode_char c)) as (st1 & Hs & Hst1); [done..|].
    rewrite decode_char_inv in Hs by lia. assert (st1 = st') as -> by congruence.
    exists (decode_char c). by rewrite decode_char_inv by lia.
Qed.

(** The shape of an accepted text, relative to what has been read. *)
Definition accepted (pad : nat) (s : bytes) (ds : list Z) (k : nat) : Prop :=
  s = map alphabet_at ds ++ replicate k (ch "=") ∧
  Forall is_digit64 ds ∧ (pad + k <= 2)%nat ∧ (pad ≠ 0%nat → ds = []).

Lemma decode_loop_ok s ds0 pad st st' :
  Forall (λ c, is_blank c = false) s → Forall is_digit64 ds0 → (pad <= 2)%nat →
  decoded ds0 pad st → decode_loop st s = Ok st' →
  ∃ ds k, accepted pad s ds k ∧ decoded (ds0 ++ ds) (pad + k) st'.
Proof.
  intros Hs. revert ds0 pad st. induction Hs as [|c s Hc Hs IH]; intros ds0 pad st Hds0 Hp Hst H.
  { cbn in H. simplify_eq. exists [], 0%nat. unfold accepted.
    rewrite (app_nil_r ds0), Nat.add_0_r. split; [|done]. repeat split; auto; lia. }
  cbn in H. apply outcome_bind_ok in H as (st1 & H1 & H2).
  destruct (decode_step_ok ds0 pad st c st1) as [(-> & Hlt & Hst1)|(-> & d & -> & Hd & Hst1)];
    [done..| |].
  - destruct (IH ds0 (S pad) st1) as (ds & k & (-> & Hds & Hk & Hnil) & Hst2); [done|lia|done|done|].
    rewrite (Hnil ltac:(done)) in *. exists [], (S k). unfold accepted.
    rewrite Nat.add_succ_r. split; [|done]. repeat split; auto; lia.
  - destruct (IH (ds0 ++ [d]) 0%nat st1) as (ds & k & (-> & Hds & Hk & _) & Hst2);
      [by apply Forall_app; auto|lia|done|done|].
    exists (d :: ds), k. unfold accepted. rewrite <- app_assoc in Hst2.
    split; [|done]. split; [done|]. split; [by constructor|]. split; [lia|done].
Qed.

(** * Specification *)

(** What the decoder promises: the blank-free text is digits, then at most two
    pads, not one digit over a quartet; the bytes are the digits' number with
    the leftover bits dropped. *)
Definition payload_spec (s o : bytes) : Prop :=
  ∃ ds pad,
    strip_blank s = map alphabet_at ds ++ replicate pad (ch "=") ∧
    Forall is_digit64 ds ∧ (pad <= 2)%nat ∧ (length ds mod 4 ≠ 1)%nat ∧
    wf_bytes o ∧ Z.of_nat (length o) = 6 * Z.of_nat (length ds) / 8 ∧
    be_value 256 o = be_value 64 ds / 2 ^ ((6 * Z.of_nat (length ds)) mod 8).

Lemma strip_blank_clean s : Forall (λ c, is_blank c = false) (strip_blank s).
Proof.
  apply Forall_forall. intros c Hc%list_elem_of_In. unfold strip_blank in Hc.
  apply filter_In in Hc as [_ Hc]. by apply negb_true_iff in Hc.
Qed.

Lemma leftover_bits n : (6 * Z.of_nat n) mod 8 < 6 ↔ (n mod 4 ≠ 1)%nat.
Proof.
  assert (Z.of_nat (n mod 4) = Z.of_nat n mod 4) as E by (rewrite Nat2Z.inj_mod; done).
  Z.to_euclidean_division_equations; lia.
Qed.

Lemma payload_spec_unique s o1 o2 : payload_spec s o1 → payload_spec s o2 → o1 = o2.
Proof.
  intros (ds1 & p1 & E1 & H1 & _ & _ & Hw1 & Hl1 & Hv1) (ds2 & p2 & E2 & H2 & _ & _ & Hw2 & Hl2 & Hv2).
  rewrite E1 in E2.
  assert (ds1 = ds2) as ->.
  { clear Hl1 Hv1 Hl2 Hv2 E1. revert ds2 H2 E2. induction H1 as [|d ds1 Hd H1 IH]; intros [|e ds2] H2 E2.
    - done.
    - destruct p1; [done|]. cbn in E2. injection E2 as E2 _. inversion H2; subst.
      destruct (alphabet_spec e) as (_ & _ & He & _); [done|]. rewrite <- E2 in He. done.
    - destruct p2; [done|]. cbn in E2. injection E2 as E2 _.
      destruct (alphabet_spec d) as (_ & _ & He & _); [done|]. rewrite E2 in He. done.
    - cbn in E2. injection E2 as Hh Ht. inversion H2; subst.
      destruct (alphabet_spec d) as [Hd1 _]; [done|]. destruct (alphabet_spec e) as [He1 _]; [done|].
      f_equal; [congruence|]. by apply IH. }
  apply (be_value_inj 256); [lia|done|done|lia|congruence].
Qed.

Lemma decode_payload_sound s o : decode_payload s = Ok o → payload_spec s o.
Proof.
  unfold decode_payload. rewrite decode_loop_strip. intros H.
  apply outcome_bind_ok in H as (st & Hl & Ht).
  destruct (6 <=? bits st) eqn:Hb; [done|]. simplify_eq.
  destruct (decode_loop_ok (strip_blank s) [] 0 (Decoder 0 0 0 []) st) as (ds & k & (Hs & Hds & Hk & _) & Hst);
    [apply strip_blank_clean|constructor|lia|apply decoded_init|done|].
  exists ds, k. destruct Hst as (Hbits & _ & Hlen & Hw & _ & Hv). cbn [app] in *.
  split; [done|]. split; [done|]. split; [lia|]. split; [apply leftover_bits; lia|].
  split; [done|]. split; [done|]. by rewrite <- Hbits.
Qed.

Lemma decode_payload_complete s o : payload_spec s o → decode_payload s = Ok o.
Proof.
  intros Hspec. pose proof Hspec as (ds & k & Hs & Hds & Hk & Hn & _).
  destruct (decode_loop_digits [] (Decoder 0 0 0 []) ds ltac:(constructor) Hds decoded_init) as (st1 & Hl1 & Hst1).
  destruct (decode_loop_pads _ 0 st1 k Hst1) as (st2 & Hl2 & Hst2); [lia|].
  assert (decode_payload s = Ok (out st2)) as E.
  { unfold decode_payload. rewrite decode_loop_strip, Hs, decode_loop_app, Hl1. cbn -[replicate].
    rewrite Hl2. cbn. destruct Hst2 as [Hbits _]. cbn [app] in Hbits.
    apply leftover_bits in Hn. by rewrite (proj2 (Z.leb_gt 6 (bits st2))) by lia. }
  rewrite E. f_equal. eapply payload_spec_unique; [by apply decode_payload_sound|done].
Qed.

(** * The encoder *)

Definition padded (data : bytes) (ds : list Z) (pad : nat) : Prop :=
  base64_encode data = map alphabet_at ds ++ replicate pad (ch "=") ∧
  Forall is_digit64 ds ∧ (pad <= 2)%nat ∧ (length ds mod 4 ≠ 1)%nat ∧
  Z.of_nat (length data) = 6 * Z.of_nat (length ds) / 8 ∧
  be_value 64 ds = be_value 256 data * 2 ^ ((6 * Z.of_nat (length ds)) mod 8).

(** The four digits of a 24-bit chunk. *)
Definition chunk_digits (x : Z) : list Z :=
  [x / 2 ^ 18; x / 2 ^ 12 mod 64; x / 2 ^ 6 mod 64; x mod 64].

Lemma chunk_digits_spec x :
  0 <= x < 2 ^ 24 → Forall is_digit64 (chunk_digits x) ∧ be_value 64 (chunk_digits x) = x.
Proof.
  intros Hx. unfold chunk_digits, be_value. cbn [fold_left].
  split; [repeat constructor; unfold is_digit64|];
    cbn in *; Z.to_euclidean_division_equations; lia.
Qed.

Lemma encode_group_digits b0 b1 b2 :
  is_byte b0 → from_option is_byte True b1 → from_option is_byte True b2 →
  let x := be_value 256 [b0; default 0 b1; default 0 b2] in
  0 <= x < 2 ^ 24 ∧
  encode_group b0 b1 b2 =
    [ alphabet_at (x / 2 ^ 18); alphabet_at (x / 2 ^ 12 mod 64);
      if b1 then alphabet_at (x / 2 ^ 6 mod 64) else ch "=";
      if b2 then alphabet_at (x mod 64) else ch "=" ].
Proof.
  intros H0 H1 H2 x.
  assert (is_byte (default 0 b1)) as H1' by (destruct b1; cbn in *; unfold is_byte in *; [done|lia]).
  assert (is_byte (default 0 b2)) as H2' by (destruct b2; cbn in *; unfold is_byte in *; [done|lia]).
  unfold is_byte in *.
  assert (0 <= x < 2 ^ 24) as Hx by (unfold x, be_value; cbn -[default]; lia).
  split; [done|]. unfold encode_group.
  assert (Z.lor (Z.lor (Z.shiftl b0 16) (Z.shiftl (default 0 b1) 8)) (default 0 b2) = x) as E.
  { replace (Z.shiftl b0 16) with (Z.shiftl (Z.shiftl b0 8) 8) by (rewrite Z.shiftl_shiftl; [done|lia]).
    rewrite <- Z.shiftl_lor, (lor_shiftl_add b0 8), lor_shiftl_add by (cbn; lia).
    unfold x, be_value. cbn -[default]. lia. }
  rewrite E. change 63 with (2 ^ 6 - 1). rewrite !land_mask, !Z.shiftr_div_pow2 by lia.
  rewrite (Z.mod_small (x / 2 ^ 18)); [done|]. Z.to_euclidean_division_equations; lia.
Qed.

Lemma list3_ind (P : bytes → Prop) :
  P [] → (∀ a, P [a]) → (∀ a b, P [a; b]) → (∀ a b c l, P l → P (a :: b :: c :: l)) →
  ∀ l, P l.
Proof.
  intros H0 H1 H2 H3. assert (∀ n l, (length l <= n)%nat → P l) as H; [|intros l; by apply (H (length l))].
  induction n as [|n IH]; intros [|a [|b [|c l]]]; cbn; auto; try lia.
  intros. apply H3, IH. lia.
Qed.

Lemma base64_encode_padded data : wf_bytes data → ∃ ds pad, padded data ds pad.
Proof.
  unfold wf_bytes. induction data as [|a|a b|a b c l IH] using list3_ind; intros Hw.
  - exists [], 0%nat. split; [done|]. split; [constructor|]. split; [lia|]. done.
  - apply Forall_cons in Hw as [Ha _].
    destruct (encode_group_digits a None None Ha I I) as [Hx E]. cbn [from_option] in *. unfold id in *.
    set (x := be_value 256 [_; _; _]) in *. destruct (chunk_digits_spec x Hx) as [Hd Hv].
    exists (take 2 (chunk_digits x)), 2%nat. unfold padded.
    split; [exact E|]. split; [by apply Forall_take|].
    split; [lia|]. split; [cbn; lia|]. split; [done|].
    unfold x, be_value; cbn -[Z.div Z.modulo Z.mul Z.add Z.pow].
    unfold is_byte in *. eval_pow2. Z.to_euclidean_division_equations; lia.
  - apply Forall_cons in Hw as [Ha Hw]. apply Forall_cons in Hw as [Hb _].
    destruct (encode_group_digits a (Some b) None Ha Hb I) as [Hx E]. cbn [from_option] in *. unfold id in *.
    set (x := be_value 256 [_; _; _]) in *. destruct (chunk_digits_spec x Hx) as [Hd Hv].
    exists (take 3 (chunk_digits x)), 1%nat. unfold padded.
    split; [exact E|]. split; [by apply Forall_take|].
    split; [lia|]. split; [cbn; lia|]. split; [done|].
    unfold x, be_value; cbn -[Z.div Z.modulo Z.mul Z.add Z.pow].
    unfold is_byte in *. eval_pow2. Z.to_euclidean_division_equations; lia.
  - repeat apply Forall_cons in Hw as [?H Hw]. destruct (IH Hw) as (ds & pad & E & Hds & Hp & Hn & Hl & Hv).
    destruct (encode_group_digits a (Some b) (Some c)) as [Hx Eg]; [done..|]. cbn [from_option] in *. unfold id in *.
    set (x := be_value 256 [_; _; _]) in *. destruct (chunk_digits_spec x Hx) as [Hd Hvx].
    exists (chunk_digits x ++ ds), pad. unfold padded. rewrite map_app, <- app_assoc.
    assert (length (chunk_digits x ++ ds) = length ds + 1 * 4)%nat as El by (rewrite length_app; cbn; lia).
    rewrite El, Nat.Div0.mod_add, be_value_app, Hvx.
    split; [cbn [base64_encode]; by rewrite Eg, E|]. split; [by apply Forall_app|].
    split; [lia|]. split; [done|].
    split; [cbn [length]; Z.to_euclidean_division_equations; lia|].
    change (a :: b :: c :: l) with ([a; b; c] ++ l). rewrite be_value_app. fold x.
    replace ((6 * Z.of_nat (length ds + 1 * 4)) mod 8) with ((6 * Z.of_nat (length ds)) mod 8)
      by (Z.to_euclidean_division_equations; lia).
    rewrite Hv, Z.mul_add_distr_r. f_equal. rewrite <- Z.mul_assoc. f_equal.
    change 64 with (2 ^ 6). change 256 with (2 ^ 8).
    rewrite <- !Z.pow_mul_r, <- Z.pow_add_r by (try lia; apply Z.mod_pos_bound; lia).
    f_equal. Z.to_euclidean_division_equations; lia.
Qed.

Lemma encode_no_blank ds pad :
  Forall is_digit64 ds →
  strip_blank (map alphabet_at ds ++ replicate pad (ch "=")) = map alphabet_at ds ++ replicate pad (ch "=").
Proof.
  unfold strip_blank. induction 1 as [|d ds Hd Hds IH]; cbn.
  - induction pad as [|pad IH]; cbn; [done|]. by rewrite IH.
  - destruct (alphabet_spec d Hd) as (_ & -> & _). cbn. by rewrite IH.
Qed.

(** An encoding is never taken for a data URI: it has no colon. *)
Lemma encode_not_uri ds pad :
  Forall is_digit64 ds →
  is_prefix (str "data:") (map alphabet_at ds ++ replicate pad (ch "=")) = false.
Proof.
  intros Hds. apply not_true_iff_false. intros [t E]%is_prefix_spec.
  assert (In (ch ":") (map alphabet_at ds ++ replicate pad (ch "="))) as Hin
    by (rewrite E; apply in_app_iff; left; vm_compute; tauto).
  apply in_app_iff in Hin as [Hin|Hin].
  - apply in_map_iff in Hin as (d & Hd & Hin%list_elem_of_In).
    destruct (alphabet_spec d) as (_ & _ & _ & Hc); [by eapply Forall_forall in Hds|].
    rewrite Hd in Hc. done.
  - apply list_elem_of_In, elem_of_replicate in Hin as [Hin _]. done.
Qed.

(** * Properties *)

(** Decoding an encoding gives the original bytes back: the round trip of
    every byte sequence, through the padding and the 32-bit accumulator. *)
Theorem base64_roundtrip data :
  wf_bytes data → base64_decode (base64_encode data) = Ok data.
Proof.
  intros Hw. destruct (base64_encode_padded data Hw) as (ds & pad & E & Hds & Hp & Hn & Hl & Hv).
  unfold base64_decode, data_uri_payload. rewrite E, encode_not_uri by done. cbn.
  apply decode_payload_complete. exists ds, pad. rewrite encode_no_blank by done.
  repeat (split; [done|]). rewrite Hv, Z.div_mul; [done|].
  apply Z.pow_nonzero; [lia|]. apply Z.mod_pos_bound. lia.
Qed.

Lemma base64_roundtrip_witness :
  wf_bytes [77; 97; 110; 255; 0] ∧
  base64_decode (base64_encode [77; 97; 110; 255; 0]) = Ok [77; 97; 110; 255; 0].
Proof.
  assert (wf_bytes [77; 97; 110; 255; 0]) as H by wf_concrete.
  split; [exact H | exact (base64_roundtrip _ H)].
Defined.

(** The decoder accepts a text exactly when, blanks aside, it is base64
    digits followed by at most two pads with no lone trailing digit, and it then
    returns exactly the big-endian bytes of the digits' number; every other text
    is an exception. *)
Theorem base64_decode_spec s o : decode_payload s = Ok o ↔ payload_spec s o.
Proof. split; [apply decode_payload_sound | apply decode_payload_complete]. Qed.
