(* ===== verification/Stability.v ===== *)
(** The stable-prefix tracker of streaming transcription
    (app/server/voice_stability.h, app/server/voice_stability.cpp): the
    tokenizer, the commit rule over the retained hypotheses, and what the
    committed prefix promises to its consumer. *)

From S2P Require Import Prelude.

(** * Data *)

Record StabilityParams := {
  stable_hypothesis_count : Z;
  min_stable_chars : Z;
}.

Record Token := { normalized : bytes; raw_end : nat }.

Record StableTracker := {
  params_ : StabilityParams;
  history_ : list (list Token);
  committed_tokens_ : nat;
  stable_ : bytes;
  tentative_ : bytes;
  hypothesis_ : bytes;
}.

(** The constructor: the count is at least one. *)
Definition make_tracker (p : StabilityParams) : StableTracker :=
  {| params_ := {| stable_hypothesis_count :=
                     if (stable_hypothesis_count p <? 1)%Z then 1%Z
                     else stable_hypothesis_count p;
                   min_stable_chars := min_stable_chars p |};
     history_ := []; committed_tokens_ := 0; stable_ := []; tentative_ := [];
     hypothesis_ := [] |}.

Definition reset (t : StableTracker) : StableTracker :=
  {| params_ := params_ t; history_ := []; committed_tokens_ := 0; stable_ := [];
     tentative_ := []; hypothesis_ := [] |}.

(** * The tokenizer *)

Definition is_cjk_lead (byte : Z) : bool := (227 <=? byte)%Z && (byte <=? 233)%Z.

(** The length of the UTF-8 sequence a lead byte announces. *)
Definition sequence_length (byte : Z) : nat :=
  if Z.land byte 248 =b 240 then 4
  else if Z.land byte 240 =b 224 then 3
  else if Z.land byte 224 =b 192 then 2
  else 1.

Definition flush (tokens : list Token) (current : bytes) (e : nat) : list Token :=
  match current with
  | [] => tokens
  | _ => tokens ++ [{| normalized := current; raw_end := e |}]
  end.

(** [text[i]]; past the end, the terminator of a [std::string]. *)
Definition at_ (text : bytes) (i : nat) : Z := default 0%Z (text !! i).

Definition ends_word (text : bytes) (i : nat) : bool :=
  (i =? length text) || is_space (at_ text i).

(** One iteration of the loop at [i < text.size()]: the next index, the word
    being built, and the tokens. *)
Definition tokenize_step (text : bytes) (i : nat) (current : bytes) (tokens : list Token)
    : nat * bytes * list Token :=
  let byte := at_ text i in
  if (byte <? 128)%Z then
    if is_space byte then (S i, [], flush tokens current i)
    else
      let current := if is_alnum byte || (byte =b ch "'") then current ++ [to_lower byte]
                     else current in
      if ends_word text (S i) then (S i, [], flush tokens current (S i))
      else (S i, current, tokens)
  else
    let len := sequence_length byte in
    let e := Nat.min (length text) (i + len) in
    if (len =? 3) && is_cjk_lead byte then
      let tokens := flush tokens current i in
      let c := substr text i (e - i) in
      if (at_ c 0 =b 227) && (at_ c 1 =b 128) then (e, [], tokens)
      else (e, [], tokens ++ [{| normalized := c; raw_end := e |}])
    else if (len =? 3) && (byte =b 239) then (e, [], flush tokens current i)
    else
      let current := current ++ substr text i (e - i) in
      if e =? length text then (e, [], flush tokens current e)
      else (e, current, tokens).

(** The loop; [None] is out of fuel. *)
Fixpoint tokenize_loop (fuel : nat) (text : bytes) (i : nat) (current : bytes)
    (tokens : list Token) : option (list Token) :=
  if i <? length text then
    match fuel with
    | O => None
    | S fuel =>
        let '(i, current, tokens) := tokenize_step text i current tokens in
        tokenize_loop fuel text i current tokens
    end
  else Some (flush tokens current (length text)).

Definition tokenize (text : bytes) : list Token :=
  default [] (tokenize_loop (length text) text 0 [] []).

(** * Updating *)

(** Drops the oldest hypotheses while more than [count] are retained. *)
Fixpoint retain (count : Z) (history : list (list Token)) : list (list Token) :=
  match history with
  | [] => []
  | _ :: rest => if (count <? Z.of_nat (length history))%Z then retain count rest else history
  end.

Definition normalized_at (h : list Token) (k : nat) : bytes :=
  from_option normalized [] (h !! k).

(** Every retained hypothesis spells token [k] like the oldest one. *)
Definition all_agree (history : list (list Token)) (k : nat) : bool :=
  match history with
  | [] => true
  | first :: _ =>
      forallb (λ h, bool_decide (normalized_at h k = normalized_at first k)) history
  end.

(** The [while (common < limit)] loop, from [limit - n]. *)
Fixpoint agree_loop (history : list (list Token)) (n common : nat) : nat :=
  match n with
  | O => common
  | S n => if all_agree history common then agree_loop history n (S common) else common
  end.

Definition token_limit (history : list (list Token)) : nat :=
  match history with
  | [] => 0
  | first :: _ => fold_left (λ limit h, Nat.min limit (length h)) history (length first)
  end.

Definition common_tokens (history : list (list Token)) : nat :=
  agree_loop history (token_limit history) 0.

Fixpoint drop_spaces (s : bytes) : bytes :=
  match s with
  | c :: s' => if c =b ch " " then drop_spaces s' else s
  | [] => []
  end.

Definition update (t : StableTracker) (hypothesis : bytes) : StableTracker * bool :=
  let tokens := tokenize hypothesis in
  let count := stable_hypothesis_count (params_ t) in
  let history := retain count (history_ t ++ [tokens]) in
  let agreed :=
    if (Z.of_nat (length history) =b count)
    then Nat.max (committed_tokens_ t) (common_tokens history)
    else committed_tokens_ t in
  let grew := committed_tokens_ t <? agreed in
  let keep stable tentative :=
    {| params_ := params_ t; history_ := history; committed_tokens_ := agreed;
       stable_ := stable; tentative_ := tentative; hypothesis_ := hypothesis |} in
  let rolled_back :=
    (keep (stable_ t) (if bool_decide (stable_ t = []) then hypothesis else tentative_ t), false) in
  if (0 <? agreed) && (agreed <=? length tokens) then
    let e := from_option raw_end 0 (tokens !! (agreed - 1)) in
    if (uwrap 64 (min_stable_chars (params_ t)) <=? Z.of_nat e)%Z then
      (keep (take e hypothesis) (drop_spaces (drop (Nat.min (length hypothesis) e) hypothesis)), grew)
    else rolled_back
  else rolled_back.

Definition run_updates (t : StableTracker) (hs : list bytes) : StableTracker :=
  fold_left (λ t h, (update t h).1) hs t.

(** * Tokenizer: termination and well-formed spans *)

Definition spans_below (tokens : list Token) (b : nat) : Prop :=
  Forall (λ t, raw_end t <= b) tokens.

(** Every token is a non-empty word with a non-empty span ending after the
    previous one's. *)
Definition tokens_wf (tokens : list Token) : Prop :=
  StronglySorted lt (map raw_end tokens) ∧
  Forall (λ t, normalized t ≠ [] ∧ 0 < raw_end t) tokens.

Definition scan_inv (i : nat) (current : bytes) (tokens : list Token) : Prop :=
  tokens_wf tokens ∧ spans_below tokens i ∧
  (current ≠ [] → 0 < i ∧ Forall (λ t, raw_end t < i) tokens).

Lemma tokens_wf_snoc tokens w e :
  tokens_wf tokens → Forall (λ t, raw_end t < e) tokens → w ≠ [] → 0 < e →
  tokens_wf (tokens ++ [{| normalized := w; raw_end := e |}]).
Proof.
  intros [Hs Hf] Hlt Hw He. split.
  - rewrite map_app. cbn. induction tokens as [|t tokens IH]; cbn in *.
    + repeat constructor.
    + inversion Hs as [|? ? Hss Hall]; subst. inversion Hlt; subst. inversion Hf; subst.
      constructor; [by apply IH|]. apply Forall_app; split; [done|]. by repeat constructor.
  - apply Forall_app; split; [done|]. by repeat constructor.
Qed.

Lemma spans_below_mono tokens a b : spans_below tokens a → a <= b → spans_below tokens b.
Proof. intros H Hab. eapply Forall_impl; [exact H|]. cbn; lia. Qed.

(** Flushing at or after the current position keeps the invariant. *)
Lemma flush_wf tokens current i e :
  scan_inv i current tokens → i <= e →
  tokens_wf (flush tokens current e) ∧ spans_below (flush tokens current e) e.
Proof.
  intros (Hwf & Hb & Hc) Hie. destruct current as [|c current]; cbn.
  - split; [done|by eapply spans_below_mono].
  - destruct (Hc ltac:(done)) as [Hi Hlt]. split.
    + apply tokens_wf_snoc; [done| |done|lia]. eapply Forall_impl; [exact Hlt|]. cbn; lia.
    + apply Forall_app; split; [by eapply spans_below_mono|]. by repeat constructor.
Qed.

Lemma scan_inv_flushed tokens current i e e' :
  scan_inv i current tokens → i <= e → e <= e' → scan_inv e' [] (flush tokens current e).
Proof.
  intros Hinv Hie Hee. destruct (flush_wf _ _ _ e Hinv Hie) as [Hwf Hb].
  split; [done|]. split; [by eapply spans_below_mono|done].
Qed.

Lemma scan_inv_skip tokens current current' i e :
  scan_inv i current tokens → i < e → scan_inv e current' tokens.
Proof.
  intros (Hwf & Hb & _) Hie. split; [done|]. split; [eapply spans_below_mono; [done|lia]|].
  intros _. split; [lia|]. eapply Forall_impl; [exact Hb|]. cbn; lia.
Qed.

Lemma sequence_length_pos byte : 1 <= sequence_length byte <= 4.
Proof. unfold sequence_length. repeat case_bool; lia. Qed.

Lemma substr_nonempty text i e : i < length text → i < e → substr text i (e - i) ≠ [].
Proof.
  intros Hi He H. apply (f_equal length) in H. unfold substr in H.
  rewrite length_take, length_drop in H. cbn in H. lia.
Qed.

Lemma tokenize_step_inv text i current tokens i' current' tokens' :
  i < length text → scan_inv i current tokens →
  tokenize_step text i current tokens = (i', current', tokens') →
  i < i' <= length text ∧ scan_inv i' current' tokens'.
Proof.
  intros Hi Hinv. unfold tokenize_step. pose proof (sequence_length_pos (at_ text i)) as Hlen.
  set (e := Nat.min (length text) (i + sequence_length (at_ text i))).
  assert (i < e <= length text) as He by (unfold e; lia).
  destruct (at_ text i <? 128)%Z.
  - destruct (is_space (at_ text i)).
    { intros [= <- <- <-]. split; [lia|]. eapply scan_inv_flushed; [done|lia..]. }
    set (cur := if _ || _ then _ else _).
    assert (scan_inv (S i) cur tokens) as Hskip by (eapply scan_inv_skip; [done|lia]).
    destruct (ends_word text (S i)); intros [= <- <- <-]; (split; [lia|]); [|done].
    eapply scan_inv_flushed; [done|lia..].
  - destruct ((sequence_length (at_ text i) =? 3) && is_cjk_lead (at_ text i)).
    { destruct ((at_ _ 0 =b 227) && _); intros [= <- <- <-]; (split; [lia|]).
      - eapply scan_inv_flushed; [done|lia..].
      - destruct (flush_wf _ _ _ i Hinv ltac:(lia)) as [Hwf Hb].
        assert (Forall (λ t, raw_end t < e) (flush tokens current i)) as Hlt
          by (eapply Forall_impl; [exact Hb|]; cbn; lia).
        split; [apply tokens_wf_snoc; [done..| |lia]; apply substr_nonempty; lia|].
        split; [|done]. apply Forall_app; split; [eapply spans_below_mono; [done|lia]|].
        by repeat constructor. }
    destruct ((sequence_length (at_ text i) =? 3) && _).
    { intros [= <- <- <-]. split; [lia|]. eapply scan_inv_flushed; [done|lia..]. }
    set (cur := current ++ _).
    assert (scan_inv e cur tokens) as Hskip by (eapply scan_inv_skip; [done|lia]).
    destruct (e =? length text); intros [= <- <- <-]; (split; [lia|]); [|done].
    eapply scan_inv_flushed; [done|lia..].
Qed.

Lemma tokenize_loop_ok fuel text i current tokens :
  i <= length text → length text - i <= fuel → scan_inv i current tokens →
  ∃ toks, tokenize_loop fuel text i current tokens = Some toks ∧
          tokens_wf toks ∧ spans_below toks (length text).
Proof.
  revert i current tokens. induction fuel as [|fuel IH]; intros i current tokens Hi Hf Hinv;
    cbn [tokenize_loop]; destruct (Nat.ltb_spec i (length text)); try lia.
  1, 3: eexists; split; [done|]; eapply flush_wf; [done|lia].
  destruct (tokenize_step text i current tokens) as [[i' current'] tokens'] eqn:E.
  apply tokenize_step_inv in E as [Hi' Hinv']; [|done..]. apply IH; [lia..|done].
Qed.

Lemma scan_inv_init : scan_inv 0 [] [].
Proof. repeat split; try constructor; done. Qed.

Lemma tokenize_loop_total text : tokenize_loop (length text) text 0 [] [] = Some (tokenize text).
Proof.
  destruct (tokenize_loop_ok (length text) text 0 [] []) as (toks & H & _);
    [lia..|apply scan_inv_init|].
  unfold tokenize. by rewrite H.
Qed.

Lemma tokenize_wf text :
  tokens_wf (tokenize text) ∧ spans_below (tokenize text) (length text).
Proof.
  destruct (tokenize_loop_ok (length text) text 0 [] []) as (toks & H & Hwf);
    [lia..|apply scan_inv_init|].
  unfold tokenize. by rewrite H.
Qed.

(** * Tokenizer: what an ASCII text tokenizes to *)

(** The specification: split at white space, keep letters, digits and
    apostrophes in lower case, forget the words this empties. *)
Definition keep_char (c : Z) : bool := is_alnum c || (c =b ch "'").

Definition clean (w : bytes) : bytes := map to_lower (List.filter keep_char w).

Fixpoint split_spaces (word : bytes) (s : bytes) : list bytes :=
  match s with
  | [] => [word]
  | c :: s' => if is_space c then word :: split_spaces [] s' else split_spaces (word ++ [c]) s'
  end.

Definition nonempty (w : bytes) : bool := negb (bool_decide (w = [])).

Definition words_from (word s : bytes) : list bytes :=
  List.filter nonempty (map clean (split_spaces word s)).

Definition ascii_words (s : bytes) : list bytes := words_from [] s.

Definition is_ascii (s : bytes) : Prop := Forall (λ c, (c < 128)%Z) s.

Lemma map_flush tokens current e :
  map normalized (flush tokens current e) = map normalized tokens ++ List.filter nonempty [current].
Proof. destruct current; cbn; [by rewrite app_nil_r|]. by rewrite map_app. Qed.

Lemma clean_snoc word c :
  clean (word ++ [c]) = if keep_char c then clean word ++ [to_lower c] else clean word.
Proof.
  unfold clean. rewrite List.filter_app, map_app. cbn.
  destruct (keep_char c); cbn; [done|]. by rewrite app_nil_r.
Qed.

Lemma words_from_break word s :
  (s = [] ∨ ∃ c s', s = c :: s' ∧ is_space c = true) →
  words_from word s = List.filter nonempty [clean word] ++ words_from [] s.
Proof.
  intros [->|(c & s' & -> & Hc)]; unfold words_from; cbn [split_spaces map List.filter].
  - by rewrite app_nil_r.
  - rewrite Hc. cbn. by destruct (nonempty (clean word)).
Qed.

Lemma words_from_space word c s :
  is_space c = true → words_from word (c :: s) = List.filter nonempty [clean word] ++ words_from [] s.
Proof.
  intros Hc. unfold words_from. cbn [split_spaces]. rewrite Hc. cbn.
  by destruct (nonempty (clean word)).
Qed.

Lemma ends_word_spec text i :
  i <= length text → ends_word text i = true →
  drop i text = [] ∨ ∃ c s', drop i text = c :: s' ∧ is_space c = true.
Proof.
  unfold ends_word, at_. intros Hi [H%Nat.eqb_eq|H]%orb_true_iff.
  - left. by rewrite drop_ge by lia.
  - destruct (text !! i) as [c|] eqn:E; [|done]. right. exists c, (drop (S i) text).
    split; [by apply drop_S|done].
Qed.

(** A step on an ASCII text, as a step of [words_from]. *)
Lemma tokenize_step_ascii text i word tokens i' current' tokens' :
  is_ascii text → i < length text →
  tokenize_step text i (clean word) tokens = (i', current', tokens') →
  i' = S i ∧ ∃ word', current' = clean word' ∧
    map normalized tokens' ++ words_from word' (drop (S i) text) =
    map normalized tokens ++ words_from word (drop i text).
Proof.
  intros Ha Hi. destruct (lookup_lt_is_Some_2 text i Hi) as [c Hc].
  assert (at_ text i = c) as Hat by (unfold at_; by rewrite Hc).
  unfold tokenize_step. rewrite Hat.
  rewrite (proj2 (Z.ltb_lt c 128)) by (by eapply Forall_lookup in Ha).
  rewrite (drop_S text c i Hc). destruct (is_space c) eqn:Hs.
  - intros [= <- <- <-]. split; [done|]. exists []. split; [done|].
    by rewrite map_flush, words_from_space, app_assoc.
  - assert (words_from word (c :: drop (S i) text) = words_from (word ++ [c]) (drop (S i) text)) as ->
      by (unfold words_from; cbn; by rewrite Hs).
    change (is_alnum c || (c =b ch "'")) with (keep_char c). rewrite <- clean_snoc.
    destruct (ends_word text (S i)) eqn:He; intros [= <- <- <-]; (split; [done|]).
    + exists []. split; [done|]. apply ends_word_spec in He; [|lia].
      by rewrite map_flush, (words_from_break (word ++ [c])), app_assoc.
    + by exists (word ++ [c]).
Qed.

Lemma tokenize_loop_ascii fuel text i word tokens toks :
  is_ascii text → i <= length text →
  tokenize_loop fuel text i (clean word) tokens = Some toks →
  map normalized toks = map normalized tokens ++ words_from word (drop i text).
Proof.
  intros Ha. revert i word tokens. induction fuel as [|fuel IH]; intros i word tokens Hi;
    cbn [tokenize_loop]; destruct (Nat.ltb_spec i (length text)); try done.
  1, 3: intros [= <-]; rewrite map_flush, drop_ge by lia; by rewrite words_from_break, app_nil_r by auto.
  destruct (tokenize_step text i (clean word) tokens) as [[i' current'] tokens'] eqn:E.
  apply tokenize_step_ascii in E as (-> & word' & -> & Heq); [|done..].
  intros H'. apply IH in H'; [|lia]. by rewrite H', Heq.
Qed.

Lemma tokenize_ascii_words text :
  is_ascii text → map normalized (tokenize text) = ascii_words text.
Proof.
  intros Ha. apply (tokenize_loop_ascii (length text) text 0 [] [] _ Ha ltac:(lia)).
  apply tokenize_loop_total.
Qed.

(** * Agreement *)

Lemma agree_loop_spec history n common :
  let r := agree_loop history n common in
  common <= r <= common + n ∧
  (∀ k, common <= k < r → all_agree history k = true) ∧
  (r < common + n → all_agree history r = false).
Proof.
  revert common. induction n as [|n IH]; intros common; cbn.
  { repeat split; intros; lia. }
  destruct (all_agree history common) eqn:E.
  - destruct (IH (S common)) as (Hr & Hk & Hs). split; [lia|]. split.
    + intros k Hk'. destruct (decide (k = common)) as [->|]; [done|]. apply Hk; lia.
    + intros Hlt. apply Hs. lia.
  - repeat split; intros; try lia. done.
Qed.

Lemma fold_min_le (l : list (list Token)) (a : nat) :
  fold_left (λ limit h, Nat.min limit (length h)) l a <= a ∧
  ∀ h, In h l → fold_left (λ limit h, Nat.min limit (length h)) l a <= length h.
Proof.
  revert a. induction l as [|x l IH]; intros a; cbn; [naive_solver lia|].
  destruct (IH (Nat.min a (length x))) as [H1 H2]. split; [lia|].
  intros h [->|Hh]; [lia|]. by apply H2.
Qed.

Lemma token_limit_le history h : In h history → token_limit history <= length h.
Proof. destruct history as [|f r]; [done|]. intros Hin. by apply fold_min_le. Qed.

(** The agreed prefix: every token of it is present in every retained
    hypothesis and normalizes to the same word. *)
Lemma common_tokens_agree history k h g :
  k < common_tokens history → In h history → In g history →
  k < length h ∧ normalized_at h k = normalized_at g k.
Proof.
  intros Hk Hh Hg. unfold common_tokens in Hk.
  destruct (agree_loop_spec history (token_limit history) 0) as (Hr & Ha & _).
  pose proof (token_limit_le _ _ Hh). split; [lia|].
  specialize (Ha k ltac:(lia)). unfold all_agree in Ha. destruct history as [|f r]; [done|].
  rewrite forallb_forall in Ha.
  pose proof (Ha h Hh) as H1. pose proof (Ha g Hg) as H2.
  apply bool_decide_eq_true in H1, H2. congruence.
Qed.

Lemma retain_length count history :
  (1 <= count)%Z → (Z.of_nat (length (retain count history)) <= count)%Z.
Proof.
  intros Hc. induction history as [|h rest IH]; cbn [retain]; [cbn; lia|].
  destruct (Z.ltb_spec count (Z.of_nat (length (h :: rest)))); [done|lia].
Qed.

Lemma retain_drop count history :
  (1 <= count)%Z → retain count history = drop (length history - Z.to_nat count) history.
Proof.
  intros Hc. induction history as [|h rest IH]; cbn [retain]; [done|].
  destruct (Z.ltb_spec count (Z.of_nat (length (h :: rest)))) as [Hlt|Hge]; cbn [length] in *.
  - replace (S (length rest) - Z.to_nat count) with (S (length rest - Z.to_nat count)) by lia. done.
  - by replace (S (length rest) - Z.to_nat count) with 0 by lia.
Qed.

(** The newest hypothesis is always retained. *)
Lemma retain_last count history tokens :
  (1 <= count)%Z → In tokens (retain count (history ++ [tokens])).
Proof.
  intros Hc. rewrite retain_drop by done. rewrite length_app. cbn [length].
  rewrite drop_app_le by lia. apply in_app_iff. right. by left.
Qed.

(** * Updating: the fields it leaves *)

Definition count_of (t : StableTracker) : Z := stable_hypothesis_count (params_ t).

Definition next_history (t : StableTracker) (h : bytes) : list (list Token) :=
  retain (count_of t) (history_ t ++ [tokenize h]).

Definition next_committed (t : StableTracker) (h : bytes) : nat :=
  if (Z.of_nat (length (next_history t h)) =b count_of t)
  then Nat.max (committed_tokens_ t) (common_tokens (next_history t h))
  else committed_tokens_ t.

Lemma update_fields t h :
  let t' := (update t h).1 in
  params_ t' = params_ t ∧ history_ t' = next_history t h ∧
  committed_tokens_ t' = next_committed t h ∧ hypothesis_ t' = h.
Proof.
  unfold update. fold (count_of t). fold (next_history t h). fold (next_committed t h).
  cbn zeta. repeat case_bool; repeat split.
Qed.

Lemma drop_spaces_spec s :
  ∃ sp, s = sp ++ drop_spaces s ∧ Forall (λ c, c = ch " ") sp ∧ head (drop_spaces s) ≠ Some (ch " ").
Proof.
  induction s as [|c s IH]; cbn [drop_spaces].
  - exists []. repeat split; [constructor|done].
  - destruct (c =b ch " ") eqn:E.
    + apply Z.eqb_eq in E as ->. destruct IH as (sp & Heq & Hf & Hh).
      exists (ch " " :: sp). cbn. rewrite <- Heq. repeat split; [by constructor|done].
    + exists []. repeat split; [constructor|]. cbn. intros [= ->]. by rewrite Z.eqb_refl in E.
Qed.

(** [stable_] and [tentative_] split the hypothesis at byte [e], up to the
    spaces the tentative tail loses. *)
Definition split_at (t : StableTracker) (h : bytes) (e : nat) : Prop :=
  stable_ t = take e h ∧
  ∃ sp, h = stable_ t ++ sp ++ tentative_ t ∧ Forall (λ c, c = ch " ") sp ∧
        head (tentative_ t) ≠ Some (ch " ").

Lemma split_at_take h e :
  e <= length h →
  ∃ sp, h = take e h ++ sp ++ drop_spaces (drop (Nat.min (length h) e) h) ∧
        Forall (λ c, c = ch " ") sp ∧
        head (drop_spaces (drop (Nat.min (length h) e) h)) ≠ Some (ch " ").
Proof.
  intros He. destruct (drop_spaces_spec (drop (Nat.min (length h) e) h)) as (sp & Heq & Hf & Hh).
  exists sp. split; [|done]. rewrite <- Heq, Nat.min_r by lia. by rewrite take_drop.
Qed.

Lemma committed_span h k tok :
  tokenize h !! k = Some tok → raw_end tok <= length h.
Proof. intros Hk. destruct (tokenize_wf h) as [_ Hb]. by eapply Forall_lookup in Hb. Qed.

(** Either the texts are expressed in the newest hypothesis, cut after its
    last committed token, or the committed text is kept as it was. *)
Lemma update_texts t h :
  let t' := (update t h).1 in
  let c := next_committed t h in
  (∃ tok, 0 < c ∧ tokenize h !! (c - 1) = Some tok ∧
     (uwrap 64 (min_stable_chars (params_ t)) <= Z.of_nat (raw_end tok))%Z ∧
     split_at t' h (raw_end tok) ∧ (update t h).2 = (committed_tokens_ t <? c)) ∨
  (stable_ t' = stable_ t ∧ (update t h).2 = false ∧ (stable_ t = [] → tentative_ t' = h)).
Proof.
  unfold update. fold (count_of t). fold (next_history t h). fold (next_committed t h).
  cbn zeta. set (c := next_committed t h).
  destruct ((0 <? c) && (c <=? length (tokenize h))) eqn:E;
    [|right; cbn; split; [done|]; split; [done|]; by intros ->].
  apply andb_true_iff in E as [E1%Nat.ltb_lt E2%Nat.leb_le].
  destruct (lookup_lt_is_Some_2 (tokenize h) (c - 1)) as [tok Htok]; [lia|].
  rewrite Htok. cbn [from_option].
  destruct (Z.leb_spec (uwrap 64 (min_stable_chars (params_ t))) (Z.of_nat (raw_end tok)));
    [left|right; cbn; split; [done|]; split; [done|]; by intros ->].
  exists tok. split; [done|]. split; [done|]. split; [done|]. split; [|done].
  split; [done|]. cbn. apply split_at_take. by eapply committed_span.
Qed.

Lemma next_committed_grows t h : committed_tokens_ t <= next_committed t h.
Proof. unfold next_committed. case_bool; lia. Qed.

(** * Runs from a fresh tracker *)

Lemma run_updates_snoc t hs h :
  run_updates t (hs ++ [h]) = (update (run_updates t hs) h).1.
Proof. unfold run_updates. by rewrite fold_left_app. Qed.

Lemma run_updates_params t hs : params_ (run_updates t hs) = params_ t.
Proof.
  induction hs as [|h hs IH] using rev_ind; [done|].
  rewrite run_updates_snoc. by destruct (update_fields (run_updates t hs) h) as (-> & _).
Qed.

Lemma make_tracker_count p : (1 <= count_of (make_tracker p))%Z.
Proof. unfold count_of, make_tracker. cbn. case_bool; lia. Qed.

Lemma drop_map_snoc {A B} (f : A → B) (n : nat) (l : list A) (x : A) :
  drop (length (drop (length l - n) (map f l) ++ [f x]) - n) (drop (length l - n) (map f l) ++ [f x])
  = drop (length (l ++ [x]) - n) (map f (l ++ [x])).
Proof.
  rewrite map_app. cbn [map]. rewrite !length_app, length_drop, length_map. cbn [length].
  destruct (decide (n = 0)) as [->|Hn].
  { rewrite !drop_ge; [done|rewrite length_app, length_map; cbn; lia|].
    rewrite length_app, length_drop, length_map. cbn. lia. }
  destruct (decide (length l < n)) as [Hlt|Hge].
  - replace (length l - n) with 0 by lia. rewrite drop_0.
    f_equal. lia.
  - rewrite !drop_app_le by (rewrite ?length_drop, ?length_map; lia).
    rewrite drop_drop. do 2 f_equal. lia.
Qed.

Lemma run_history p hs :
  let t := run_updates (make_tracker p) hs in
  let n := Z.to_nat (count_of (make_tracker p)) in
  history_ t = map tokenize (drop (length hs - n) hs).
Proof.
  cbn zeta. pose proof (make_tracker_count p) as Hc.
  induction hs as [|h hs IH] using rev_ind; [done|].
  rewrite run_updates_snoc.
  destruct (update_fields (run_updates (make_tracker p) hs) h) as (_ & -> & _).
  unfold next_history, count_of. rewrite run_updates_params. fold (count_of (make_tracker p)).
  rewrite retain_drop by done. rewrite IH, <- !skipn_map. apply (drop_map_snoc tokenize).
Qed.

Lemma all_agree_replicate n x k : all_agree (replicate n x) k = true.
Proof.
  destruct n; [done|]. cbn [replicate all_agree]. apply forallb_forall. intros h Hh.
  apply list_elem_of_In in Hh. change (x :: replicate n x) with (replicate (S n) x) in Hh.
  apply elem_of_replicate in Hh as [-> _]. by apply bool_decide_eq_true.
Qed.

Lemma common_tokens_replicate n x : n ≠ 0 → common_tokens (replicate n x) = length x.
Proof.
  intros Hn. unfold common_tokens.
  destruct (agree_loop_spec (replicate n x) (token_limit (replicate n x)) 0) as (Hr & _ & Hs).
  assert (token_limit (replicate n x) = length x) as Hl.
  { destruct n; [done|]. cbn. rewrite Nat.min_id. clear. induction n; cbn; [done|].
    by rewrite Nat.min_id. }
  rewrite Hl in *. destruct (decide (agree_loop (replicate n x) (length x) 0 < length x)); [|lia].
  specialize (Hs ltac:(lia)). by rewrite all_agree_replicate in Hs.
Qed.

Lemma run_same_history p h k :
  history_ (run_updates (make_tracker p) (replicate k h)) =
  replicate (Nat.min k (Z.to_nat (count_of (make_tracker p)))) (tokenize h).
Proof.
  rewrite run_history, length_replicate, drop_replicate.
  change (map ?f ?l) with (f <$> l). rewrite fmap_replicate. f_equal. lia.
Qed.

Lemma run_same_committed p h k :
  committed_tokens_ (run_updates (make_tracker p) (replicate k h)) =
  if (Z.of_nat k <? count_of (make_tracker p))%Z then 0 else length (tokenize h).
Proof.
  pose proof (make_tracker_count p) as Hc. induction k as [|k IH].
  { by rewrite (proj2 (Z.ltb_lt _ _)) by lia. }
  pose proof (run_same_history p h (S k)) as Hh.
  rewrite replicate_S_end, run_updates_snoc in Hh |- *.
  set (t := run_updates (make_tracker p) (replicate k h)) in *.
  destruct (update_fields t h) as (_ & Hn & -> & _). rewrite Hn in Hh.
  assert (count_of t = count_of (make_tracker p)) as Ht
    by (unfold count_of, t; by rewrite run_updates_params).
  unfold next_committed. rewrite Ht, Hh, length_replicate, IH.
  destruct (Z.ltb_spec (Z.of_nat (S k)) (count_of (make_tracker p))) as [Hlt|Hge].
  - rewrite (proj2 (Z.eqb_neq _ _)) by lia. by rewrite (proj2 (Z.ltb_lt _ _)) by lia.
  - rewrite (proj2 (Z.eqb_eq _ _)) by lia. rewrite common_tokens_replicate by lia.
    case_bool; lia.
Qed.

(** * Properties *)

(** Tokenizing terminates on every text, and the tokens are non-empty words
    whose spans end at strictly increasing byte offsets inside the text. *)
Theorem tokenize_total text :
  ∃ toks, tokenize_loop (length text) text 0 [] [] = Some toks ∧ tokenize text = toks ∧
    StronglySorted lt (map raw_end toks) ∧
    Forall (λ t, normalized t ≠ [] ∧ 0 < raw_end t <= length text) toks.
Proof.
  exists (tokenize text). destruct (tokenize_wf text) as [[Hs Hf] Hb].
  split; [apply tokenize_loop_total|]. split; [done|]. split; [done|].
  apply Forall_forall. intros t Ht.
  pose proof (proj1 (Forall_forall _ _) Hf t Ht). pose proof (proj1 (Forall_forall _ _) Hb t Ht).
  cbn in *. naive_solver.
Qed.

(** On an ASCII hypothesis the tokens are its white-space separated words,
    lower-cased with punctuation removed and empty words forgotten: two
    hypotheses that differ only in case and punctuation agree token by token. *)
Theorem tokenize_ascii text :
  is_ascii text → map normalized (tokenize text) = ascii_words text.
Proof. apply tokenize_ascii_words. Qed.

Lemma tokenize_ascii_witness :
  is_ascii (str "Turn the Lights, -- now!") ∧
  map normalized (tokenize (str "Turn the Lights, -- now!")) =
    ascii_words (str "Turn the Lights, -- now!").
Proof.
  assert (is_ascii (str "Turn the Lights, -- now!")) as H by (repeat constructor).
  split; [exact H | exact (tokenize_ascii _ H)].
Defined.

(** An update never takes a committed token back, and a token it commits is
    present in all of the last [stable_hypothesis_count] hypotheses, the newest
    included, with the same normalized word. *)
Theorem update_commits t h :
  (1 <= count_of t)%Z →
  let t' := (update t h).1 in
  committed_tokens_ t <= committed_tokens_ t' ∧
  ∀ k, committed_tokens_ t <= k < committed_tokens_ t' →
    Z.of_nat (length (history_ t')) = count_of t ∧
    ∀ g, In g (history_ t') →
      k < length g ∧ k < length (tokenize h) ∧
      normalized_at g k = normalized_at (tokenize h) k.
Proof.
  intros Hc. destruct (update_fields t h) as (_ & Hh & Hcm & _). cbn zeta. rewrite Hh, Hcm.
  split; [apply next_committed_grows|]. intros k Hk. unfold next_committed in Hk.
  destruct (Z.eqb_spec (Z.of_nat (length (next_history t h))) (count_of t)) as [Hl|]; [|lia].
  split; [done|]. intros g Hg.
  assert (In (tokenize h) (next_history t h)) as Hin by by apply retain_last.
  destruct (common_tokens_agree (next_history t h) k g (tokenize h)) as [H1 H2]; [lia|done..|].
  destruct (common_tokens_agree (next_history t h) k (tokenize h) g) as [H3 _]; [lia|done..].
Qed.

Lemma update_commits_witness :
  let p := {| stable_hypothesis_count := 2; min_stable_chars := 2 |} in
  let t := (update (make_tracker p) (str "turn the light")).1 in
  (1 <= count_of t)%Z ∧
  committed_tokens_ t <= committed_tokens_ (update t (str "Turn the lights")).1.
Proof.
  intros p t. assert (1 <= count_of t)%Z as H by (vm_compute; discriminate).
  split; [exact H | exact (proj1 (update_commits t (str "Turn the lights") H))].
Defined.

(** When an update reports growth, the committed prefix is longer than
    before, and the hypothesis is the stable text, then spaces, then the
    tentative text, cut at the end of the last committed token. *)
Theorem update_reports_split t h :
  (update t h).2 = true →
  let t' := (update t h).1 in
  committed_tokens_ t < committed_tokens_ t' ∧
  ∃ tok, tokenize h !! (committed_tokens_ t' - 1) = Some tok ∧ split_at t' h (raw_end tok).
Proof.
  intros Hg. destruct (update_fields t h) as (_ & _ & Hc & _). cbn zeta. rewrite Hc.
  destruct (update_texts t h) as [(tok & _ & Ht & _ & Hs & He)|(_ & He & _)]; rewrite Hg in He.
  - split; [by apply Nat.ltb_lt|]. eauto.
  - done.
Qed.

Lemma update_reports_split_witness :
  let p := {| stable_hypothesis_count := 2; min_stable_chars := 2 |} in
  let t := (update (make_tracker p) (str "turn the light")).1 in
  (update t (str "Turn the lights")).2 = true ∧
  committed_tokens_ t < committed_tokens_ (update t (str "Turn the lights")).1.
Proof.
  intros p t. assert ((update t (str "Turn the lights")).2 = true) as H by (vm_compute; reflexivity).
  split; [exact H | exact (proj1 (update_reports_split t (str "Turn the lights") H))].
Defined.

(** From a fresh tracker, whatever hypotheses are fed, exactly the tokens of
    the last [stable_hypothesis_count] of them are retained; and feeding the
    same hypothesis that many times commits all of it, not before. *)
Theorem tracker_runs p hs h k :
  let n := Z.to_nat (count_of (make_tracker p)) in
  1 <= n ∧
  history_ (run_updates (make_tracker p) hs) = map tokenize (drop (length hs - n) hs) ∧
  committed_tokens_ (run_updates (make_tracker p) (replicate k h)) =
    if k <? n then 0 else length (tokenize h).
Proof.
  cbn zeta. pose proof (make_tracker_count p) as Hc. split; [lia|].
  split; [apply run_history|]. rewrite run_same_committed.
  destruct (Z.ltb_spec (Z.of_nat k) (count_of (make_tracker p))), (Nat.ltb_spec k (Z.to_nat (count_of (make_tracker p)))); try done; lia.
Qed.

(** The committed text is not a promise the tracker keeps: a hypothesis that
    rewrites committed words replaces the stable text by words no two
    hypotheses agreed on; and a commit shorter than [min_stable_chars] is never
    reported, not even by the later update that makes the stable text appear. *)
Theorem stable_text_rewritten :
  let p := {| stable_hypothesis_count := 2; min_stable_chars := 2 |} in
  let t := run_updates (make_tracker p) [str "turn the"; str "turn the"] in
  let i := run_updates (make_tracker p) [str "I"; str "I"] in
  stable_ t = str "turn the" ∧
  stable_ (update t (str "burn a")).1 = str "burn a" ∧
  committed_tokens_ i = 1 ∧ stable_ i = [] ∧
  stable_ (update i (str "I, am")).1 = str "I," ∧ (update i (str "I, am")).2 = false.
Proof. vm_compute. repeat split. Qed.
