(* ===== verification/Segmenter.v ===== *)
(** The sentence segmenter between the language model and the synthesizer
    (app/server/segmenter.h, app/server/segmenter.cpp): which text it cuts, that
    it loses none, and the markup it strips before speech. *)

From S2P Require Import Prelude.

(** * Sentence and clause boundaries *)

Definition text_at (text : bytes) (i : nat) : Z := default 0%Z (text !! i).

Definition is_ender (c : Z) : bool := (c =b ch ".") || (c =b ch "!") || (c =b ch "?").

(** The length of the run of [. ! ?] at the start of [s]. *)
Fixpoint ender_run (s : bytes) : nat :=
  match s with
  | c :: s' => if is_ender c then S (ender_run s') else 0
  | [] => 0
  end.

Definition closes_sentence (c : Z) : bool :=
  is_space c || (c =b 34) || (c =b ch "'") || (c =b ch ")") || (c =b ch "*").

(** The three-byte sequences of the source's [kCjk] tables. *)
Definition cjk_enders : list bytes :=
  [[227; 128; 130]; [239; 188; 129]; [239; 188; 159]; [239; 188; 155]; [226; 128; 166]]%Z.
Definition cjk_commas : list bytes := [[227; 128; 129]; [239; 188; 140]]%Z.
Definition cjk_terminals : list bytes :=
  [[227; 128; 130]; [239; 188; 129]; [239; 188; 159]; [226; 128; 166]]%Z.

Definition sentence_end_length (text : bytes) (index : nat) : nat :=
  let c := text_at text index in
  if is_ender c then
    let e := index + ender_run (drop (S index) text) in
    let after := S e in
    if length text <=? after then 0
    else if closes_sentence (text_at text after) then e - index + 1
    else 0
  else if c =b 10 then 1
  else if existsb (λ ender, is_prefix ender (drop index text)) cjk_enders then 3
  else 0.

Definition is_clause_mark (c : Z) : bool := (c =b ch ",") || (c =b ch ";") || (c =b ch ":").

Definition is_clause_break (text : bytes) (index : nat) : bool :=
  if is_clause_mark (text_at text index) then
    (length text <=? S index) || is_space (text_at text (S index))
  else existsb (λ br, is_prefix br (drop index text)) cjk_commas.

(** * The segmenter *)

Record Options := {
  first_segment_min_chars : nat;
  first_segment_word_cut_chars : nat;
  max_segment_chars : nat;
}.

Definition default_options : Options :=
  {| first_segment_min_chars := 28; first_segment_word_cut_chars := 40;
     max_segment_chars := 300 |}.

Record SentenceSegmenter := {
  options_ : Options;
  pending_ : bytes;
  first_segment_emitted_ : bool;
}.

(** [for (index = 0; index < pending.size(); ++index)]: the first completed sentence. *)
Fixpoint sentence_cut (text : bytes) (index n : nat) : option nat :=
  match n with
  | O => None
  | S n =>
      let len := sentence_end_length text index in
      if 0 <? len then Some (index + len) else sentence_cut text (S index) n
  end.

Definition kMinClauseChars : nat := 14.

(** [for (index = pending.size(); index-- > kMinClauseChars;)]: the last clause break. *)
Fixpoint clause_cut (text : bytes) (index : nat) : option nat :=
  match index with
  | O => None
  | S i =>
      if kMinClauseChars <? index then
        if is_clause_break text i
        then Some (i + (if is_clause_mark (text_at text i) then 1 else 3))
        else clause_cut text i
      else None
  end.

Definition word_cut (text : bytes) : option nat :=
  match rfind_char (ch " ") text with
  | Some space => if kMinClauseChars <=? space then Some space else None
  | None => None
  end.

Definition force_cut (o : Options) (text : bytes) : nat :=
  match rfind_char_upto (ch " ") text (max_segment_chars o) with
  | Some space => if 0 <? space then space else max_segment_chars o
  | None => max_segment_chars o
  end.

(** Where one iteration of [take_ready] cuts. *)
Definition find_cut (s : SentenceSegmenter) : option nat :=
  let text := pending_ s in
  let o := options_ s in
  let first := negb (first_segment_emitted_ s) in
  let cut := sentence_cut text 0 (length text) in
  let cut := match cut with
             | None => if first && (first_segment_min_chars o <=? length text)
                       then clause_cut text (length text) else None
             | c => c
             end in
  let cut := match cut with
             | None => if first && (first_segment_word_cut_chars o <=? length text)
                       then word_cut text else None
             | c => c
             end in
  match cut with
  | None => if max_segment_chars o <=? length text then Some (force_cut o text) else None
  | c => c
  end.

Definition emit_segment (s : SentenceSegmenter) (cut : nat) : SentenceSegmenter * list bytes :=
  let segment := trim (take cut (pending_ s)) in
  match segment with
  | [] => ({| options_ := options_ s; pending_ := drop cut (pending_ s);
              first_segment_emitted_ := first_segment_emitted_ s |}, [])
  | _ => ({| options_ := options_ s; pending_ := drop cut (pending_ s);
             first_segment_emitted_ := true |}, [segment])
  end.

(** The loop; [None] is out of fuel. *)
Fixpoint take_ready (fuel : nat) (s : SentenceSegmenter) : option (SentenceSegmenter * list bytes) :=
  match find_cut s with
  | None => Some (s, [])
  | Some cut =>
      match fuel with
      | O => None
      | S fuel =>
          let '(s, segment) := emit_segment s cut in
          r ← take_ready fuel s; Some (r.1, segment ++ r.2)
      end
  end.

Definition feed (s : SentenceSegmenter) (delta : bytes) : option (SentenceSegmenter * list bytes) :=
  let s := {| options_ := options_ s; pending_ := pending_ s ++ delta;
              first_segment_emitted_ := first_segment_emitted_ s |} in
  take_ready (length (pending_ s)) s.

Definition flush (s : SentenceSegmenter) : SentenceSegmenter * bytes :=
  ({| options_ := options_ s; pending_ := [];
      first_segment_emitted_ := first_segment_emitted_ s |}, trim (pending_ s)).

(** A whole reply: every delta in turn, then the end of the stream. *)
Fixpoint feed_all (s : SentenceSegmenter) (deltas : list bytes)
    : option (SentenceSegmenter * list bytes) :=
  match deltas with
  | [] => Some (s, [])
  | d :: ds => r ← feed s d; q ← feed_all r.1 ds; Some (q.1, r.2 ++ q.2)
  end.

(** * Text helpers of the speech path *)

Fixpoint skip_closers (rs : bytes) : bytes :=
  match rs with
  | c :: rs' => if closes_sentence c then skip_closers rs' else rs
  | [] => []
  end.

(** [end] is found from the back, so the text is walked reversed. *)
Definition ends_with_sentence_terminal (text : bytes) : bool :=
  match skip_closers (rev text) with
  | [] => false
  | last :: _ as rs =>
      if is_ender last then true
      else existsb (λ ender, is_prefix (rev ender) rs) cjk_terminals
  end.

Definition is_markup (c : Z) : bool := (c =b ch "*") || (c =b ch "#") || (c =b 96).

(** The loop of [strip_speech_markup]: [skip] bytes are being jumped over. *)
Fixpoint strip_loop (skip : nat) (in_action : bool) (text : bytes) : bytes * bool :=
  match text with
  | [] => ([], in_action)
  | c :: rest =>
      match skip with
      | S skip => strip_loop skip in_action rest
      | O =>
          if c =b ch "*" then strip_loop 0 (negb in_action) rest
          else if in_action then strip_loop 0 in_action rest
          else if (c =b ch "#") || (c =b 96) then strip_loop 0 in_action rest
          else if (240 <=? c)%Z then strip_loop 3 in_action rest
          else if (c =b 226) && (2 <=? length rest) &&
                  (152 <=? text_at rest 0)%Z && (text_at rest 0 <=? 158)%Z
          then strip_loop 2 in_action rest
          else if (c =b 239) && (2 <=? length rest) && (text_at rest 0 =b 184)
          then strip_loop 2 in_action rest
          else let '(out, a) := strip_loop 0 in_action rest in (c :: out, a)
      end
  end.

Definition unmarked (text : bytes) : bytes := List.filter (λ c, negb (is_markup c)) text.

Definition strip_speech_markup (text : bytes) : bytes :=
  let '(out, in_action) := strip_loop 0 false text in
  let out := if in_action && (length out * 2 <? length (unmarked text))
             then unmarked text else out in
  trim out.

(** * Cuts make progress *)

Lemma sentence_cut_some text i n cut : sentence_cut text i n = Some cut → i < cut.
Proof.
  revert i; induction n as [|n IH]; intros i; cbn; [done|].
  destruct (0 <? sentence_end_length text i) eqn:E.
  - intros [= <-]. apply Nat.ltb_lt in E. lia.
  - intros H%IH. lia.
Qed.

Lemma sentence_cut_none text i n :
  sentence_cut text i n = None → ∀ j, i <= j < i + n → sentence_end_length text j = 0.
Proof.
  revert i; induction n as [|n IH]; intros i; cbn; [lia|].
  destruct (0 <? sentence_end_length text i) eqn:E; [done|]. apply Nat.ltb_ge in E.
  intros H j Hj. destruct (decide (j = i)) as [->|]; [lia|]. apply (IH (S i)); [done|lia].
Qed.

Lemma clause_cut_some text i cut : clause_cut text i = Some cut → kMinClauseChars < cut.
Proof.
  induction i as [|i IH]; cbn -[kMinClauseChars]; [done|].
  destruct (kMinClauseChars <? S i) eqn:E; [|done]. apply Nat.ltb_lt in E.
  destruct (is_clause_break text i); [|done]. intros [= <-]. case_bool; lia.
Qed.

Lemma word_cut_some text cut : word_cut text = Some cut → kMinClauseChars <= cut.
Proof.
  unfold word_cut. destruct (rfind_char _ _); [|done].
  destruct (kMinClauseChars <=? n) eqn:E; [|done]. intros [= <-]. by apply Nat.leb_le.
Qed.

Lemma force_cut_pos o text : 0 < max_segment_chars o → 0 < force_cut o text.
Proof.
  intros Ho. unfold force_cut. destruct (rfind_char_upto _ _ _) as [n|]; [|done].
  destruct (0 <? n) eqn:E; [by apply Nat.ltb_lt|done].
Qed.

Lemma find_cut_pos s cut :
  0 < max_segment_chars (options_ s) → find_cut s = Some cut → 0 < cut.
Proof.
  intros Ho. unfold find_cut.
  destruct (sentence_cut _ _ _) as [c|] eqn:E1; [intros [= <-]; by apply sentence_cut_some in E1|].
  set (o1 := if _ && _ then clause_cut _ _ else None).
  assert (∀ c, o1 = Some c → 0 < c) as H1.
  { intros c. unfold o1. destruct (_ && _); [|done]. intros H%clause_cut_some. lia. }
  destruct o1 as [c|]; [intros [= <-]; by apply H1|].
  set (o2 := if _ && _ then word_cut _ else None).
  assert (∀ c, o2 = Some c → 0 < c) as H2.
  { intros c. unfold o2. destruct (_ && _); [|done].
    intros H%word_cut_some. unfold kMinClauseChars in H. lia. }
  destruct o2 as [c|]; [intros [= <-]; by apply H2|].
  destruct (_ <=? _); [|done]. intros [= <-]. by apply force_cut_pos.
Qed.

Lemma find_cut_empty s :
  0 < max_segment_chars (options_ s) → pending_ s = [] → find_cut s = None.
Proof.
  intros Ho Hp. unfold find_cut. rewrite Hp. cbn.
  rewrite (proj2 (Nat.leb_gt (max_segment_chars (options_ s)) 0)) by lia. by repeat case_bool.
Qed.

(** When nothing is cut, no sentence is complete, the pending text is short, and
    an opener past the word limit has no late word boundary. *)
Definition quiescent (s : SentenceSegmenter) : Prop :=
  let o := options_ s in
  (∀ i, i < length (pending_ s) → sentence_end_length (pending_ s) i = 0) ∧
  length (pending_ s) < max_segment_chars o ∧
  (first_segment_emitted_ s = false → first_segment_word_cut_chars o <= length (pending_ s) →
   ∀ i, kMinClauseChars <= i → pending_ s !! i ≠ Some (ch " ")).

Lemma word_cut_none text i :
  word_cut text = None → kMinClauseChars <= i → text !! i ≠ Some (ch " ").
Proof.
  unfold word_cut. destruct (rfind_char (ch " ") text) as [n|] eqn:E; intros H Hi.
  - destruct (kMinClauseChars <=? n) eqn:En; [done|]. apply Nat.leb_gt in En.
    eapply rfind_char_last; [done|lia].
  - by apply rfind_char_none.
Qed.

Lemma find_cut_none s : find_cut s = None → quiescent s.
Proof.
  unfold find_cut, quiescent. destruct (sentence_cut _ _ _) as [c|] eqn:E1; [done|].
  intros H. split; [intros i Hi; eapply sentence_cut_none; [done|lia]|]. revert H.
  destruct (if _ && _ then clause_cut _ _ else None) as [c|]; [done|].
  destruct (if _ && _ then word_cut _ else None) as [c|] eqn:E2; [done|].
  destruct (max_segment_chars (options_ s) <=? length (pending_ s)) eqn:E3; [done|]. intros _.
  apply Nat.leb_gt in E3. split; [lia|]. intros Hf Hw i Hi.
  rewrite Hf, (proj2 (Nat.leb_le _ _) Hw) in E2. cbn [negb andb] in E2.
  by apply word_cut_none.
Qed.

(** * The loop *)

Definition segment_ok (seg : bytes) : Prop := seg ≠ [] ∧ trimmed seg.

Lemma emit_segment_spec s cut s' segs :
  emit_segment s cut = (s', segs) →
  options_ s' = options_ s ∧ pending_ s' = drop cut (pending_ s) ∧ Forall segment_ok segs ∧
  solid (concat segs) ++ solid (pending_ s') = solid (pending_ s).
Proof.
  unfold emit_segment. pose proof (solid_trim (take cut (pending_ s))) as Hs.
  pose proof (trim_trimmed (take cut (pending_ s))) as Ht.
  destruct (trim (take cut (pending_ s))) as [|c w] eqn:E; intros [= <- <-]; cbn [options_ pending_ concat].
  - split; [done|]. split; [done|]. split; [constructor|].
    rewrite <- (take_drop cut (pending_ s)) at 2. rewrite solid_app, <- Hs. done.
  - split; [done|]. split; [done|]. split; [constructor; [by split|constructor]|].
    rewrite app_nil_r, Hs, <- solid_app, take_drop. done.
Qed.

Lemma take_ready_spec fuel s :
  0 < max_segment_chars (options_ s) → length (pending_ s) <= fuel →
  ∃ s' segs, take_ready fuel s = Some (s', segs) ∧
    options_ s' = options_ s ∧ quiescent s' ∧ Forall segment_ok segs ∧
    solid (concat segs) ++ solid (pending_ s') = solid (pending_ s).
Proof.
  revert s. induction fuel as [|fuel IH]; intros s Ho Hlen; cbn [take_ready];
    destruct (find_cut s) as [cut|] eqn:E.
  - rewrite find_cut_empty in E; [done..|]. by apply nil_length_inv; lia.
  - exists s, []. apply find_cut_none in E. auto.
  - destruct (emit_segment s cut) as [s1 seg] eqn:Ee.
    apply emit_segment_spec in Ee as (Ho1 & Hp1 & Hok & Hs1).
    pose proof (find_cut_pos s cut Ho E) as Hcut.
    destruct (decide (pending_ s = [])) as [Hnil|Hnil]; [by rewrite find_cut_empty in E|].
    assert (length (pending_ s) ≠ 0) by (by destruct (pending_ s)).
    destruct (IH s1) as (s2 & segs & Hr & Ho2 & Hq & Hok2 & Hs2);
      [by rewrite Ho1|rewrite Hp1, length_drop; lia|].
    exists s2, (seg ++ segs). rewrite Hr. cbn. split; [done|].
    split; [congruence|]. split; [done|]. split; [by apply Forall_app|].
    by rewrite concat_app, solid_app, <- app_assoc, Hs2.
  - exists s, []. apply find_cut_none in E. auto.
Qed.

Lemma feed_spec s delta :
  0 < max_segment_chars (options_ s) →
  ∃ s' segs, feed s delta = Some (s', segs) ∧
    options_ s' = options_ s ∧ quiescent s' ∧ Forall segment_ok segs ∧
    solid (concat segs) ++ solid (pending_ s') = solid (pending_ s) ++ solid delta.
Proof.
  intros Ho. unfold feed. rewrite <- solid_app.
  apply (take_ready_spec _ {| options_ := options_ s; pending_ := pending_ s ++ delta;
                              first_segment_emitted_ := first_segment_emitted_ s |}); [done|].
  cbn. lia.
Qed.

Lemma feed_all_spec s deltas :
  0 < max_segment_chars (options_ s) →
  ∃ s' segs, feed_all s deltas = Some (s', segs) ∧ Forall segment_ok segs ∧
    (deltas ≠ [] → quiescent s') ∧
    solid (concat segs) ++ solid (pending_ s') = solid (pending_ s) ++ solid (concat deltas).
Proof.
  revert s. induction deltas as [|d ds IH]; intros s Ho; cbn [feed_all].
  { exists s, []. by rewrite app_nil_r. }
  destruct (feed_spec s d Ho) as (s1 & seg1 & -> & Ho1 & Hq1 & Hok1 & Hs1).
  destruct (IH s1) as (s2 & seg2 & Hr & Hok2 & Hq2 & Hs2); [by rewrite Ho1|].
  exists s2, (seg1 ++ seg2). cbn. rewrite Hr. cbn. split; [done|].
  split; [by apply Forall_app|]. split.
  - intros _. destruct ds; [cbn in Hr; by simplify_eq|]. by apply Hq2.
  - by rewrite concat_app, !solid_app, <- app_assoc, Hs2, !app_assoc, Hs1.
Qed.

(** * Stripping markup *)

Lemma strip_loop_unmarked skip a text :
  Forall (λ c, is_markup c = false) (strip_loop skip a text).1.
Proof.
  revert skip a. induction text as [|c text IH]; intros skip a; cbn [strip_loop]; [constructor|].
  destruct skip; [|apply IH]. destruct (c =b ch "*") eqn:E1; [apply IH|].
  destruct a; [apply IH|]. destruct ((c =b ch "#") || (c =b 96)) eqn:E2; [apply IH|].
  destruct (240 <=? c)%Z; [apply IH|].
  destruct (_ && (text_at text 0 <=? 158)%Z); [apply IH|].
  destruct (_ && (text_at text 0 =b 184)); [apply IH|].
  specialize (IH 0 false). destruct (strip_loop 0 false text) as [o b]. cbn in *.
  constructor; [|done]. unfold is_markup. by rewrite E1.
Qed.

Lemma unmarked_unmarked text : Forall (λ c, is_markup c = false) (unmarked text).
Proof.
  apply Forall_forall. intros c Hc%list_elem_of_In. unfold unmarked in Hc.
  apply filter_In in Hc as [_ Hc]. by apply negb_true_iff in Hc.
Qed.

Lemma Forall_trim (P : Z → Prop) s : Forall P s → Forall P (trim s).
Proof.
  intros H. unfold trim, trim_right.
  assert (∀ l, Forall P l → Forall P (trim_left l)) as Hl.
  { intros l Hf. destruct (trim_left_spec l) as (sp & E & _). rewrite E in Hf.
    by apply Forall_app in Hf as [_ Hf]. }
  apply Forall_rev, Hl, Forall_rev, Hl, H.
Qed.

(** Bytes that are neither markup nor the lead of a pictograph. *)
Definition plain (c : Z) : Prop := is_markup c = false ∧ (c < 226)%Z.

Lemma plain_tests c :
  plain c → (c =b ch "*") = false ∧ (c =b ch "#") || (c =b 96) = false ∧ (240 <=? c)%Z = false ∧
            (c =b 226) = false ∧ (c =b 239) = false.
Proof. unfold plain, is_markup. intros [H Hc]. eval_ch. repeat split; lia. Qed.

Lemma strip_loop_plain s t :
  Forall plain s → strip_loop 0 false (s ++ t) = (s ++ (strip_loop 0 false t).1, (strip_loop 0 false t).2).
Proof.
  induction 1 as [|c s Hc Hs IH]; cbn [app strip_loop].
  { by destruct (strip_loop 0 false t). }
  destruct (plain_tests c Hc) as (-> & -> & -> & -> & ->). cbn [andb].
  rewrite IH. by destruct (strip_loop 0 false t).
Qed.

Lemma strip_loop_action s t :
  Forall (λ c, c ≠ ch "*") s → strip_loop 0 true (s ++ t) = strip_loop 0 true t.
Proof.
  induction 1 as [|c s Hc Hs IH]; cbn [app strip_loop]; [done|].
  by rewrite (proj2 (Z.eqb_neq _ _) Hc).
Qed.

(** * Properties *)

(** C33. Segmenting a reply terminates for every chunking of it and loses
    nothing: the segments and the flushed tail spell the reply, white space
    aside, in order; and every segment is non-empty with no white space at
    either end. *)
Theorem segments_conserve s deltas :
  0 < max_segment_chars (options_ s) → pending_ s = [] →
  ∃ s' segs, feed_all s deltas = Some (s', segs) ∧ Forall segment_ok segs ∧
    solid (concat segs ++ (flush s').2) = solid (concat deltas).
Proof.
  intros Ho Hp. destruct (feed_all_spec s deltas Ho) as (s' & segs & Hf & Hok & _ & Hs).
  exists s', segs. split; [done|]. split; [done|].
  unfold flush. cbn. rewrite solid_app, solid_trim, Hs, Hp. done.
Qed.

Definition fresh_segmenter : SentenceSegmenter :=
  {| options_ := default_options; pending_ := []; first_segment_emitted_ := false |}.

Lemma segments_conserve_witness :
  ∃ s' segs, feed_all fresh_segmenter [str "Hello the"; str "re. How are you?"] = Some (s', segs) ∧
    Forall segment_ok segs ∧
    solid (concat segs ++ (flush s').2) = solid (concat [str "Hello the"; str "re. How are you?"]).
Proof.
  apply (segments_conserve fresh_segmenter [str "Hello the"; str "re. How are you?"]);
    [cbn; lia | reflexivity].
Defined.

(** Feeding a delta leaves no speakable text behind: no complete sentence is
    pending, less than [max_segment_chars] bytes are, and until the first
    segment is out no word boundary past the fourteenth byte remains once
    [first_segment_word_cut_chars] bytes have accumulated. *)
Theorem feed_quiescent s delta :
  0 < max_segment_chars (options_ s) →
  ∃ s' segs, feed s delta = Some (s', segs) ∧ quiescent s'.
Proof.
  intros Ho. destruct (feed_spec s delta Ho) as (s' & segs & Hf & _ & Hq & _). eauto.
Qed.

Lemma feed_quiescent_witness :
  ∃ s' segs, feed fresh_segmenter (str "One. Two") = Some (s', segs) ∧ quiescent s'.
Proof. apply (feed_quiescent fresh_segmenter (str "One. Two")). cbn; lia. Defined.

(** The text handed to the synthesizer never contains an asterisk, a hash or
    a backquote, balanced or not, and no white space at either end; plain text
    passes unchanged but for trimming, and a closed [*action*] between plain
    texts is dropped whole. *)
Theorem speech_markup_stripped text :
  Forall (λ c, is_markup c = false) (strip_speech_markup text) ∧
  trimmed (strip_speech_markup text) ∧
  (Forall plain text → strip_speech_markup text = trim text) ∧
  (∀ a b c, text = a ++ [ch "*"] ++ b ++ [ch "*"] ++ c → Forall plain a → Forall plain c →
     Forall (λ x, x ≠ ch "*") b → strip_speech_markup text = trim (a ++ c)).
Proof.
  unfold strip_speech_markup. split; [|split; [|split]].
  - pose proof (strip_loop_unmarked 0 false text) as H.
    destruct (strip_loop 0 false text) as [o b]. apply Forall_trim.
    case_bool; [apply unmarked_unmarked|done].
  - destruct (strip_loop 0 false text) as [o b]. apply trim_trimmed.
  - intros Hp. rewrite <- (app_nil_r text) at 1. rewrite strip_loop_plain by done. cbn.
    by rewrite app_nil_r.
  - intros a b c -> Ha Hc Hb. rewrite strip_loop_plain by done. cbn [app strip_loop].
    rewrite Z.eqb_refl. cbn [negb]. rewrite strip_loop_action by done. cbn [strip_loop].
    rewrite Z.eqb_refl. cbn [negb]. rewrite <- (app_nil_r c), strip_loop_plain by done. cbn.
    by rewrite !app_nil_r.
Qed.

(** The zero-width joiner of a compound emoji survives the stripping that is
    meant to leave nothing of it behind. *)
Theorem compound_emoji_residue :
  strip_speech_markup [240; 159; 145; 169; 226; 128; 141; 240; 159; 146; 187]%Z = [226; 128; 141]%Z.
Proof. reflexivity. Qed.
