(* ===== verification/Scrubber.v ===== *)
(** The token-stream scrubber (class [StreamScrubber] of
    app/server/chat_hygiene.h and app/server/chat_hygiene.cpp): a state machine
    over the bytes of the model's reply, its invariant, and what it emits. *)

From S2P Require Import Prelude.

(** * Data *)

Inductive State := Clean | Star | FullParen | AngleOpen | Dead.

#[export] Instance State_eq_dec : EqDecision State.
Proof. solve_decision. Defined.

Record StreamScrubber := { state_ : State; held_ : bytes; pending_ : bytes }.

Definition fresh_scrubber : StreamScrubber :=
  {| state_ := Clean; held_ := []; pending_ := [] |}.

Definition full_open : bytes := [239; 188; 136]%Z.
Definition full_close : bytes := [239; 188; 137]%Z.

(** * Operations *)

(** One byte in [State::Clean]. *)
Definition step_clean (s : StreamScrubber) (c : Z) : StreamScrubber * bytes :=
  if c =b ch "*" then ({| state_ := Star; held_ := [c]; pending_ := pending_ s |}, [])
  else if c =b ch "<" then ({| state_ := AngleOpen; held_ := [c]; pending_ := pending_ s |}, [])
  else if c =b 239 then ({| state_ := FullParen; held_ := [c]; pending_ := pending_ s |}, [])
  else (s, [c]).

Definition step_star (s : StreamScrubber) (c : Z) : StreamScrubber * bytes :=
  let held := held_ s ++ [c] in
  if c =b ch "*" then ({| state_ := Clean; held_ := []; pending_ := pending_ s |}, [])
  else if (c =b 10) || (120 <? length held)
  then ({| state_ := Clean; held_ := []; pending_ := pending_ s |}, held)
  else ({| state_ := Star; held_ := held; pending_ := pending_ s |}, []).

Definition step_full_paren (s : StreamScrubber) (c : Z) : StreamScrubber * bytes :=
  let held := held_ s ++ [c] in
  if length held =? 3 then
    if bool_decide (held = full_open)
    then ({| state_ := FullParen; held_ := held; pending_ := [] |}, [])
    else ({| state_ := Clean; held_ := []; pending_ := pending_ s |}, held)
  else if 3 <? length held then
    let pending := pending_ s ++ [c] in
    if find_sub full_close pending
    then ({| state_ := Clean; held_ := []; pending_ := [] |}, [])
    else if 120 <? length pending
    then ({| state_ := Clean; held_ := []; pending_ := [] |}, held)
    else ({| state_ := FullParen; held_ := held; pending_ := pending |}, [])
  else ({| state_ := FullParen; held_ := held; pending_ := pending_ s |}, []).

Definition step_angle (s : StreamScrubber) (c : Z) : StreamScrubber * bytes :=
  if c =b ch "|" then ({| state_ := Dead; held_ := []; pending_ := pending_ s |}, [])
  else if c =b ch "*" then ({| state_ := Star; held_ := [c]; pending_ := pending_ s |}, held_ s)
  else if c =b ch "<" then ({| state_ := AngleOpen; held_ := [c]; pending_ := pending_ s |}, held_ s)
  else ({| state_ := Clean; held_ := []; pending_ := pending_ s |}, held_ s ++ [c]).

Definition scrub_step (s : StreamScrubber) (c : Z) : StreamScrubber * bytes :=
  match state_ s with
  | Dead => (s, [])
  | Clean => step_clean s c
  | Star => step_star s c
  | FullParen => step_full_paren s c
  | AngleOpen => step_angle s c
  end.

Fixpoint feed (s : StreamScrubber) (delta : bytes) : StreamScrubber * bytes :=
  match delta with
  | [] => (s, [])
  | c :: delta =>
      let '(s, out) := scrub_step s c in
      let '(s, rest) := feed s delta in (s, out ++ rest)
  end.

Definition flush (s : StreamScrubber) : StreamScrubber * bytes :=
  (fresh_scrubber, if decide (state_ s = AngleOpen) then held_ s else []).

(** A whole reply, delta by delta, then the end of the stream. *)
Fixpoint scrub_all (s : StreamScrubber) (deltas : list bytes) : bytes :=
  match deltas with
  | [] => (flush s).2
  | d :: ds => let '(s, out) := feed s d in out ++ scrub_all s ds
  end.

(** * Feeding *)

Lemma feed_app s a b :
  feed s (a ++ b) = ((feed (feed s a).1 b).1, (feed s a).2 ++ (feed (feed s a).1 b).2).
Proof.
  revert s. induction a as [|c a IH]; intros s; cbn.
  { by destruct (feed s b). }
  destruct (scrub_step s c) as [s1 o1]. rewrite IH.
  destruct (feed s1 a) as [s2 o2]. cbn. destruct (feed s2 b). cbn. by rewrite app_assoc.
Qed.

Lemma feed_cons s c d :
  feed s (c :: d) = ((feed (scrub_step s c).1 d).1, (scrub_step s c).2 ++ (feed (scrub_step s c).1 d).2).
Proof. cbn. destruct (scrub_step s c) as [s1 o1]. cbn. by destruct (feed s1 d). Qed.

(** The stream is scrubbed as a whole, however it was cut into deltas. *)
Lemma scrub_all_concat s deltas :
  scrub_all s deltas = (feed s (concat deltas)).2 ++ (flush (feed s (concat deltas)).1).2.
Proof.
  revert s. induction deltas as [|d ds IH]; intros s; cbn [scrub_all concat]; [done|].
  rewrite feed_app. destruct (feed s d) as [s1 o1] eqn:E. cbn. by rewrite IH, app_assoc.
Qed.

(** * The invariant of reachable states *)

(** What each state holds back, and how much of it. *)
Definition scrub_inv (s : StreamScrubber) : Prop :=
  match state_ s with
  | Clean | Dead => held_ s = []
  | Star => 1 <= length (held_ s) <= 120 ∧ head (held_ s) = Some (ch "*") ∧
            Forall (λ c, c ≠ 10%Z) (held_ s) ∧ Forall (λ c, c ≠ ch "*") (tail (held_ s))
  | FullParen =>
      head (held_ s) = Some 239%Z ∧
      (1 <= length (held_ s) <= 2 ∨
       held_ s = full_open ++ pending_ s ∧ length (pending_ s) <= 120 ∧
       find_sub full_close (pending_ s) = None)
  | AngleOpen => held_ s = [ch "<"]
  end.

Lemma scrub_step_inv s c : scrub_inv s → scrub_inv (scrub_step s c).1.
Proof.
  intros H. unfold scrub_inv in H. unfold scrub_step.
  destruct (state_ s) eqn:Es; [| | | |cbn; unfold scrub_inv; by rewrite Es].
  - unfold step_clean. destruct (c =b ch "*") eqn:E1; [|destruct (c =b ch "<") eqn:E2; [|destruct (c =b 239) eqn:E3]].
    + apply Z.eqb_eq in E1 as ->. cbn. repeat split; try lia; repeat constructor; done.
    + apply Z.eqb_eq in E2 as ->. done.
    + apply Z.eqb_eq in E3 as ->. cbn. split; [done|]. left; lia.
    + cbn. unfold scrub_inv. by rewrite Es.
  - destruct H as (Hl & Hh & Hn & Ht). unfold step_star.
    destruct (c =b ch "*") eqn:E1; [done|].
    destruct ((c =b 10) || _) eqn:E2; [done|]. apply orb_false_iff in E2 as [E2 E3].
    apply Nat.ltb_ge in E3. rewrite length_app in E3. cbn in *.
    destruct (held_ s) as [|h held]; [done|]. cbn in *.
    split; [rewrite length_app; cbn; lia|]. split; [done|].
    split; [apply (Forall_app_2 _ (h :: held)); [done|]|apply Forall_app_2; [done|]];
      (constructor; [|constructor]); [lia|by apply Z.eqb_neq].
  - destruct H as [Hh Hl]. unfold step_full_paren. rewrite length_app. cbn [length].
    destruct (length (held_ s) + 1 =? 3) eqn:E1.
    { case_bool_decide as E2; [|done]. cbn. rewrite E2. split; [done|]. right. cbn.
      split; [done|]. split; [lia|done]. }
    apply Nat.eqb_neq in E1. destruct (3 <? length (held_ s) + 1) eqn:E2.
    + apply Nat.ltb_lt in E2. destruct Hl as [Hl|(Hheld & Hp & Hf)]; [lia|].
      destruct (find_sub full_close (pending_ s ++ [c])) eqn:E3; [done|].
      destruct (120 <? length (pending_ s ++ [c])) eqn:E4; [done|]. apply Nat.ltb_ge in E4.
      split; [cbn; by rewrite Hheld|]. right.
      cbn. rewrite Hheld. split; [by rewrite <- app_assoc|]. split; [done|done].
    + apply Nat.ltb_ge in E2. destruct (held_ s) as [|h held]; [done|]. cbn in *.
      split; [done|]. left. rewrite length_app. cbn. lia.
  - unfold step_angle. destruct (c =b ch "|"); [done|].
    destruct (c =b ch "*") eqn:E1; [|destruct (c =b ch "<") eqn:E2]; [| |done].
    + apply Z.eqb_eq in E1 as ->. cbn. repeat split; try lia; repeat constructor; done.
    + by apply Z.eqb_eq in E2 as ->.
Qed.

Lemma feed_inv s d : scrub_inv s → scrub_inv (feed s d).1.
Proof.
  revert s. induction d as [|c d IH]; intros s H; [done|].
  rewrite feed_cons. cbn. by apply IH, scrub_step_inv.
Qed.

Lemma scrub_inv_length s : scrub_inv s → length (held_ s) <= 123.
Proof.
  unfold scrub_inv. destruct (state_ s); [intros ->; cbn; lia|lia| |intros ->; cbn; lia|intros ->; cbn; lia].
  intros [_ [H|(-> & H & _)]]; [lia|]. cbn. lia.
Qed.

(** * Only deletions *)

Lemma scrub_step_sublist s c :
  scrub_inv s → (scrub_step s c).2 ++ held_ (scrub_step s c).1 `sublist_of` held_ s ++ [c].
Proof.
  intros H. unfold scrub_inv in H. unfold scrub_step.
  destruct (state_ s); [rewrite H| | |rewrite H|rewrite H; cbn; rewrite H; apply sublist_nil_l].
  - unfold step_clean. destruct (c =b ch "*"); [done|]. destruct (c =b ch "<"); [done|].
    destruct (c =b 239); [done|]. cbn. by rewrite H.
  - unfold step_star. destruct (c =b ch "*"); [apply sublist_nil_l|].
    destruct (_ || _); cbn; [by rewrite app_nil_r|done].
  - unfold step_full_paren. destruct (length _ =? 3); [case_bool_decide; cbn; by rewrite ?app_nil_r|].
    destruct (3 <? length _); [|done]. destruct (find_sub full_close (pending_ s ++ [c])); [apply sublist_nil_l|].
    destruct (120 <? length (pending_ s ++ [c])); cbn; by rewrite ?app_nil_r.
  - unfold step_angle. destruct (c =b ch "|"); [apply sublist_nil_l|].
    destruct (c =b ch "*"); [by rewrite H|]. destruct (c =b ch "<"); [by rewrite H|].
    cbn. by rewrite app_nil_r, H.
Qed.

Lemma feed_sublist s d :
  scrub_inv s → (feed s d).2 ++ held_ (feed s d).1 `sublist_of` held_ s ++ d.
Proof.
  revert s. induction d as [|c d IH]; intros s H; [cbn; by rewrite app_nil_r|].
  rewrite feed_cons. cbn [fst snd]. rewrite <- app_assoc.
  pose proof (scrub_step_sublist s c H) as H1.
  pose proof (IH _ (scrub_step_inv s c H)) as H2.
  etransitivity; [apply sublist_app; [reflexivity|exact H2]|].
  rewrite app_assoc. change (c :: d) with ([c] ++ d). rewrite (app_assoc (held_ s)).
  by apply sublist_app.
Qed.

(** * What a whole reply says

    The reply at once, without a state: spans are found by looking ahead. *)

(** The longest beginning of at most [limit] bytes without a [stop], and the rest. *)
Fixpoint until (stop : Z → bool) (limit : nat) (text : bytes) : bytes * bytes :=
  match limit, text with
  | S limit, c :: rest => if stop c then ([], text) else let '(body, rest) := until stop limit rest in (c :: body, rest)
  | _, _ => ([], text)
  end.

Definition ends_action (c : Z) : bool := (c =b ch "*") || (c =b 10).

(** Behind a [*]: what is said of the span, and what follows it; nothing if the reply ends. *)
Definition action (text : bytes) : option (bytes * bytes) :=
  let '(body, rest) := until ends_action 119 text in
  match rest with
  | [] => None
  | c :: rest => Some (if c =b ch "*" then [] else [ch "*"] ++ body ++ [c], rest)
  end.

(** Behind a full-width parenthesis, in the same way. *)
Definition aside (text : bytes) : option (bytes * bytes) :=
  match find_sub full_close (take 121 text) with
  | Some i => Some ([], drop (i + 3) text)
  | None => if length text <? 121 then None else Some (full_open ++ take 121 text, drop 121 text)
  end.

Fixpoint said (fuel : nat) (text : bytes) : bytes :=
  match fuel, text with
  | S fuel, c :: rest =>
      let span r := match r with Some (out, rest) => out ++ said fuel rest | None => [] end in
      if c =b ch "*" then span (action rest)
      else if c =b ch "<" then
        match rest with
        | [] => [c]
        | d :: after => if d =b ch "|" then [] else if (d =b ch "*") || (d =b ch "<") then c :: said fuel rest else c :: d :: said fuel after
        end
      else if c =b 239 then
        match rest with
        | x :: y :: after => if bool_decide ([c; x; y] = full_open) then span (aside after) else c :: x :: y :: said fuel after
        | _ => []
        end
      else c :: said fuel rest
  | _, _ => []
  end.

(** Each turn takes a byte at least. *)
Definition said_of (reply : bytes) : bytes := said (length reply) reply.

(** What a state makes of the rest of a reply. *)
Definition emitted (s : StreamScrubber) (text : bytes) : bytes := (feed s text).2 ++ (flush (feed s text).1).2.

#[local] Notation clean p := {| state_ := Clean; held_ := []; pending_ := p |}.

Lemma emitted_cons s c text : emitted s (c :: text) = (scrub_step s c).2 ++ emitted (scrub_step s c).1 text.
Proof. unfold emitted. rewrite feed_cons. cbn [fst snd]. by rewrite app_assoc. Qed.

Lemma emitted_dead s text : state_ s = Dead → emitted s text = [].
Proof.
  intros Hs. induction text as [|c text IH]; [unfold emitted, flush; cbn; by rewrite Hs|].
  rewrite emitted_cons. unfold scrub_step. by rewrite Hs.
Qed.

Lemma emitted_star p text : ∀ held, 1 <= length held <= 120 →
  emitted {| state_ := Star; held_ := held; pending_ := p |} text =
  let '(body, rest) := until ends_action (120 - length held) text in
  match rest with
  | [] => []
  | c :: rest => (if c =b ch "*" then [] else held ++ body ++ [c]) ++ emitted (clean p) rest
  end.
Proof.
  induction text as [|c text IH]; intros held Hl; [by destruct (120 - length held)|].
  rewrite emitted_cons. unfold scrub_step, step_star. cbn [state_ held_ pending_]. rewrite length_app. cbn [length].
  destruct (Nat.ltb_spec 120 (length held + 1)) as [Hfull|Hroom].
  - replace (120 - length held) with 0 by lia. cbn [until app]. rewrite orb_true_r. by destruct (c =b ch "*").
  - destruct (120 - length held) as [|limit] eqn:El; [lia|]. cbn [until]. unfold ends_action at 1. rewrite orb_false_r.
    destruct (c =b ch "*") eqn:Es; cbn [orb]; [by rewrite Es|]. destruct (c =b 10); [by rewrite Es|]. cbn [fst snd app].
    rewrite IH by (rewrite length_app; cbn; lia). rewrite length_app. cbn [length]. replace (120 - (length held + 1)) with limit by lia.
    destruct (until ends_action limit text) as [body [|d rest]]; [done|]. cbn [app]. by rewrite <- app_assoc.
Qed.

Lemma emitted_action p text :
  emitted {| state_ := Star; held_ := [ch "*"]; pending_ := p |} text =
  match action text with Some (out, rest) => out ++ emitted (clean p) rest | None => [] end.
Proof.
  rewrite emitted_star by (cbn; lia). cbn [length]. change (120 - 1) with 119. unfold action.
  by destruct (until ends_action 119 text) as [body [|c rest]].
Qed.

(** An occurrence that the last byte completes is at the end. *)
Lemma find_sub_completed n p c i : find_sub n p = None → find_sub n (p ++ [c]) = Some i → i + length n = length (p ++ [c]).
Proof.
  intros Hn Hs. pose proof (find_sub_le _ _ _ Hs) as Hle. destruct (Nat.le_gt_cases (length (p ++ [c])) (i + length n)); [lia|].
  pose proof (find_sub_Some _ _ _ Hs) as [Hp _]. rewrite length_app in *. cbn [length] in *.
  rewrite drop_app_le, is_prefix_short in Hp by (rewrite ?length_drop; lia). by rewrite (find_sub_None _ _ Hn i) in Hp.
Qed.

Lemma emitted_paren text : ∀ p, length p <= 120 → find_sub full_close p = None →
  emitted {| state_ := FullParen; held_ := full_open ++ p; pending_ := p |} text =
  match aside (p ++ text) with Some (out, rest) => out ++ emitted (clean []) rest | None => [] end.
Proof.
  unfold aside. induction text as [|c text IH]; intros p Hl Hp.
  { rewrite app_nil_r, take_ge, Hp, (proj2 (Nat.ltb_lt _ _)) by lia. done. }
  rewrite emitted_cons. unfold scrub_step, step_full_paren. cbn [state_ held_ pending_]. rewrite !length_app.
  change (length full_open) with 3. cbn [length]. rewrite (proj2 (Nat.eqb_neq _ 3)), (proj2 (Nat.ltb_lt 3 _)) by lia.
  change (p ++ c :: text) with (p ++ [c] ++ text). rewrite app_assoc.
  assert (length (p ++ [c]) = length p + 1) as Hlen by by rewrite length_app.
  destruct (find_sub full_close (p ++ [c])) as [i|] eqn:Hf.
  - pose proof (find_sub_completed _ _ _ _ Hp Hf) as Hi. change (length full_close) with 3 in Hi. cbn [fst snd].
    rewrite take_app_ge, (find_sub_app _ _ _ _ Hf), Hi, drop_app_length by lia. done.
  - destruct (Nat.ltb_spec 120 (length p + 1)) as [Hfull|Hroom]; cbn [fst snd].
    + assert (length (p ++ [c]) = 121) as H121 by lia.
      rewrite take_app_length', drop_app_length', Hf, (proj2 (Nat.ltb_ge _ _)) by (rewrite ?length_app; cbn; lia). by rewrite <- !app_assoc.
    + replace (length p + S (length text)) with (length ((p ++ [c]) ++ text)) by (rewrite !length_app; cbn; lia). rewrite <- (app_assoc full_open). apply IH; [lia|done].
Qed.

Lemma emitted_wide p x y text :
  emitted {| state_ := FullParen; held_ := [239%Z]; pending_ := p |} (x :: y :: text) =
  if bool_decide ([239%Z; x; y] = full_open) then emitted {| state_ := FullParen; held_ := full_open; pending_ := [] |} text
  else 239%Z :: x :: y :: emitted (clean p) text.
Proof.
  rewrite !emitted_cons.
  assert (scrub_step {| state_ := FullParen; held_ := [239%Z]; pending_ := p |} x = ({| state_ := FullParen; held_ := [239%Z; x]; pending_ := p |}, [])) as -> by done.
  cbn [fst snd]. assert (scrub_step {| state_ := FullParen; held_ := [239%Z; x]; pending_ := p |} y =
    if bool_decide ([239%Z; x; y] = full_open) then ({| state_ := FullParen; held_ := [239%Z; x; y]; pending_ := [] |}, [])
    else (clean p, [239%Z; x; y])) as -> by done.
  case_bool_decide as Eo; [by rewrite Eo|done].
Qed.

Lemma until_rest stop limit text : length (until stop limit text).2 <= length text.
Proof.
  revert text. induction limit as [|limit IH]; intros [|c text]; cbn; [lia..|]. destruct (stop c); [done|].
  specialize (IH text). destruct (until stop limit text). cbn in *. lia.
Qed.

Lemma action_rest text out rest : action text = Some (out, rest) → length rest <= length text.
Proof.
  unfold action. pose proof (until_rest ends_action 119 text) as H. destruct (until ends_action 119 text) as [body [|c after]]; [done|].
  cbn in H. intros [= _ <-]. lia.
Qed.

Lemma aside_rest text out rest : aside text = Some (out, rest) → length rest <= length text.
Proof. unfold aside. destruct (find_sub _ _); [|destruct (_ <? _); [done|]]; intros [= _ <-]; rewrite length_drop; lia. Qed.

(** The state machine says what the reply says. *)
Lemma emitted_said fuel : ∀ text p, length text <= fuel → emitted (clean p) text = said fuel text.
Proof.
  induction fuel as [|fuel IH]; intros [|c text] p Hl; cbn [length said] in *; [done|lia|done|].
  rewrite emitted_cons. unfold scrub_step, step_clean. cbn [state_ held_ pending_].
  destruct (c =b ch "*") eqn:E1; [apply Z.eqb_eq in E1 as ->|destruct (c =b ch "<") eqn:E2; [apply Z.eqb_eq in E2 as ->|destruct (c =b 239) eqn:E3; [apply Z.eqb_eq in E3 as ->|]]]; cbn [fst snd app].
  - rewrite emitted_action. destruct (action text) as [[out rest]|] eqn:E; [|done]. apply action_rest in E. by rewrite (IH rest p) by lia.
  - destruct text as [|d text]; [done|]. cbn [length] in Hl. rewrite emitted_cons. unfold scrub_step, step_angle. cbn [state_ held_ pending_].
    destruct (d =b ch "|") eqn:F1; [by rewrite emitted_dead|]. rewrite <- (IH (d :: text) p) by (cbn; lia). rewrite emitted_cons. unfold scrub_step, step_clean. cbn [state_ held_ pending_].
    destruct (d =b ch "*") eqn:F2; cbn [orb]; [done|]. destruct (d =b ch "<") eqn:F3; [done|]. cbn [fst snd app]. by rewrite (IH text p) by lia.
  - destruct text as [|x [|y text]]; [done|done|]. cbn [length] in Hl. rewrite emitted_wide. case_bool_decide as Eo.
    + pose proof (emitted_paren text [] ltac:(cbn; lia) eq_refl) as Hparen. rewrite app_nil_r in Hparen. cbn [app] in Hparen. rewrite Hparen.
      destruct (aside text) as [[out rest]|] eqn:E; [|done]. apply aside_rest in E. by rewrite (IH rest []) by lia.
    + by rewrite (IH text p) by lia.
  - by rewrite (IH text p) by lia.
Qed.

Lemma said_enough f g text : length text <= f → length text <= g → said f text = said g text.
Proof. intros Hf Hg. by rewrite <- (emitted_said f text []), <- (emitted_said g text []). Qed.

Definition span_said (r : option (bytes * bytes)) : bytes := match r with Some (out, rest) => out ++ said_of rest | None => [] end.

Lemma said_cons c rest :
  said_of (c :: rest) =
  if c =b ch "*" then span_said (action rest)
  else if c =b ch "<" then
    match rest with
    | [] => [c]
    | d :: after => if d =b ch "|" then [] else if (d =b ch "*") || (d =b ch "<") then c :: said_of rest else c :: d :: said_of after
    end
  else if c =b 239 then
    match rest with
    | x :: y :: after => if bool_decide ([c; x; y] = full_open) then span_said (aside after) else c :: x :: y :: said_of after
    | _ => []
    end
  else c :: said_of rest.
Proof.
  unfold said_of at 1. cbn [length said]. unfold span_said.
  destruct (c =b ch "*"); [destruct (action rest) as [[out after]|] eqn:E; [|done]; apply action_rest in E; f_equal; apply said_enough; lia|].
  destruct (c =b ch "<"); [destruct rest as [|d after]; [done|]; destruct (d =b ch "|"); [done|]; destruct (_ || _); do 2 f_equal; apply said_enough; cbn; lia|].
  destruct (c =b 239); [|done]. destruct rest as [|x [|y after]]; [done..|].
  case_bool_decide; [destruct (aside after) as [[out rest]|] eqn:E; [|done]; apply aside_rest in E; f_equal|do 3 f_equal]; apply said_enough; cbn; lia.
Qed.

(** ** Replies of the intended form

    Plain text, [*actions*] and full-width asides. A lone [<], other full-width characters,
    and spans that are not closed in time are plain text too. *)
Inductive piece := Plain (s : bytes) | Action (body : bytes) | Aside (body : bytes).

Inductive plain_text : bytes → Prop :=
| plain_end : plain_text []
| plain_byte c t : c ≠ ch "*" → c ≠ ch "<" → c ≠ 239%Z → plain_text t → plain_text (c :: t)
| plain_wide x y t : [239%Z; x; y] ≠ full_open → plain_text t → plain_text (239%Z :: x :: y :: t)
| plain_less d t : d ≠ ch "|" → d ≠ ch "*" → d ≠ ch "<" → plain_text t → plain_text (ch "<" :: d :: t)
| plain_lesses t : plain_text (ch "<" :: t) → plain_text (ch "<" :: ch "<" :: t)
| plain_line body t : Forall (λ c, ends_action c = false) body → length body <= 119 → plain_text t → plain_text (ch "*" :: body ++ 10%Z :: t)
| plain_star body c t : Forall (λ c, ends_action c = false) body → length body = 119 → c ≠ ch "*" → plain_text t → plain_text (ch "*" :: body ++ c :: t)
| plain_paren body t : length body = 121 → find_sub full_close body = None → plain_text t → plain_text (full_open ++ body ++ t).

Definition piece_ok (p : piece) : Prop :=
  match p with
  | Plain s => plain_text s
  | Action b => Forall (λ c, ends_action c = false) b ∧ length b <= 119
  | Aside b => find_sub full_close (b ++ take 2 full_close) = None ∧ length b <= 118
  end.

Definition render (p : piece) : bytes :=
  match p with
  | Plain s => s
  | Action b => [ch "*"] ++ b ++ [ch "*"]
  | Aside b => full_open ++ b ++ full_close
  end.

Definition spoken (p : piece) : bytes := match p with Plain s => s | _ => [] end.

Lemma until_body stop body c t limit :
  Forall (λ c, stop c = false) body → length body <= limit → (stop c = true ∨ length body = limit) → until stop limit (body ++ c :: t) = (body, c :: t).
Proof.
  intros Hb. revert limit. induction Hb as [|x body Hx _ IH]; intros limit Hl Hc; cbn [app length] in *.
  - destruct limit; cbn; [done|]. destruct Hc as [->|?]; [done|lia].
  - destruct limit as [|limit]; [lia|]. cbn [until]. rewrite Hx, IH; [done|lia|]. destruct Hc; [by left|right; lia].
Qed.

Lemma said_action body c t :
  Forall (λ c, ends_action c = false) body → length body <= 119 → (ends_action c = true ∨ length body = 119) →
  said_of (ch "*" :: body ++ c :: t) = (if c =b ch "*" then [] else ch "*" :: body ++ [c]) ++ said_of t.
Proof. intros Hb Hl Hc. rewrite said_cons. cbn [Z.eqb]. rewrite Z.eqb_refl. unfold span_said, action. by rewrite until_body. Qed.

Lemma said_open t : said_of (full_open ++ t) = span_said (aside t).
Proof. unfold full_open. cbn [app]. by rewrite said_cons. Qed.

(** The close that ends an aside is the first. *)
Lemma find_close b t : find_sub full_close (b ++ take 2 full_close) = None → find_sub full_close (b ++ full_close ++ t) = Some (length b).
Proof.
  induction b as [|c b IH]; intros H; [by cbn|]. cbn [app find_sub] in *.
  destruct (is_prefix full_close (c :: b ++ take 2 full_close)) eqn:E; [done|]. apply fmap_None in H.
  assert (is_prefix full_close (c :: b ++ full_close ++ t) = false) as ->.
  { assert (c :: b ++ full_close ++ t = (c :: b ++ take 2 full_close) ++ 137%Z :: t) as -> by (cbn [app]; by rewrite <- app_assoc).
    rewrite is_prefix_short; [done|]. cbn [length]. rewrite length_app. cbn. lia. }
  by rewrite IH.
Qed.

Lemma said_aside b t : find_sub full_close (b ++ take 2 full_close) = None → length b <= 118 → said_of (full_open ++ b ++ full_close ++ t) = said_of t.
Proof.
  intros Hb Hl. rewrite said_open. unfold aside.
  assert (take 121 (b ++ full_close ++ t) = b ++ full_close ++ take (118 - length b) t) as ->.
  { rewrite !take_app, !(take_ge b), !(take_ge full_close) by (cbn; lia). cbn [length full_close]. do 3 f_equal. lia. }
  rewrite find_close by done. cbn [span_said app]. f_equal. rewrite app_assoc.
  by rewrite drop_app_length' by (rewrite length_app; cbn; lia).
Qed.

Lemma said_wide x y t :
  said_of (239%Z :: x :: y :: t) = if bool_decide ([239%Z; x; y] = full_open) then span_said (aside t) else 239%Z :: x :: y :: said_of t.
Proof. exact (said_cons 239 (x :: y :: t)). Qed.

Lemma said_less d t :
  said_of (ch "<" :: d :: t) = if d =b ch "|" then [] else if (d =b ch "*") || (d =b ch "<") then ch "<" :: said_of (d :: t) else ch "<" :: d :: said_of t.
Proof. exact (said_cons (ch "<") (d :: t)). Qed.

Lemma said_plain s u : plain_text s → said_of (s ++ u) = s ++ said_of u.
Proof.
  induction 1 as [|c t H1 H2 H3 _ IH|x y t H1 _ IH|d t H1 H2 H3 _ IH|t _ IH|body t H1 H2 _ IH|body c t H1 H2 H3 _ IH|body t H1 H2 _ IH]; [done|..].
  - cbn [app]. by rewrite said_cons, (proj2 (Z.eqb_neq _ _) H1), (proj2 (Z.eqb_neq _ _) H2), (proj2 (Z.eqb_neq _ _) H3), IH.
  - cbn [app]. by rewrite said_wide, bool_decide_false, IH by done.
  - cbn [app]. by rewrite said_less, (proj2 (Z.eqb_neq _ _) H1), (proj2 (Z.eqb_neq _ _) H2), (proj2 (Z.eqb_neq _ _) H3), IH.
  - cbn [app] in *. by rewrite said_less, IH.
  - cbn [app]. rewrite <- app_assoc. cbn [app]. rewrite said_action by (try done; by left). rewrite IH. change (10 =b ch "*") with false. cbn [app]. by rewrite <- !app_assoc.
  - cbn [app]. rewrite <- app_assoc. cbn [app]. rewrite said_action by first [done|lia|by right].
    rewrite (proj2 (Z.eqb_neq _ _) H3), IH. cbn [app]. by rewrite <- !app_assoc.
  - rewrite <- !app_assoc, said_open. unfold aside. rewrite take_app_length', drop_app_length', H2 by done.
    rewrite (proj2 (Nat.ltb_ge _ _)) by (rewrite length_app; lia). cbn [span_said]. by rewrite <- app_assoc, IH.
Qed.

Lemma said_pieces ps leak :
  Forall piece_ok ps → leak = [] ∨ (∃ rest, leak = [ch "<"; ch "|"] ++ rest) → said_of (concat (map render ps) ++ leak) = concat (map spoken ps).
Proof.
  intros Hps Hleak. induction Hps as [|p ps Hp _ IH]; cbn [map concat app]; [by destruct Hleak as [->|[rest ->]]|].
  rewrite <- app_assoc. destruct p as [t|b|b]; cbn [render spoken app].
  - by rewrite said_plain, IH.
  - rewrite <- app_assoc. destruct Hp as [Hb Hl]. cbn [app]. rewrite said_action by (try done; by left). by rewrite IH.
  - destruct Hp as [Hb Hl]. rewrite <- !app_assoc. by rewrite said_aside, IH.
Qed.

(** * Properties *)

(** C25. A reply is spoken as what is said of it at once, looking ahead for the end of each
    span, whatever deltas it arrives in. For replies of plain text (with lone [<]s, other
    full-width characters and spans that are not closed in time), starred actions and
    full-width asides, possibly cut by a special-token opener, that is exactly the plain
    text: nothing of an action, an aside or the leaked tokens, and no plain text is lost. *)
Theorem scrub_language deltas :
  scrub_all fresh_scrubber deltas = said_of (concat deltas) ∧
  ∀ ps leak, Forall piece_ok ps → leak = [] ∨ (∃ rest, leak = [ch "<"; ch "|"] ++ rest) →
    concat deltas = concat (map render ps) ++ leak → scrub_all fresh_scrubber deltas = concat (map spoken ps).
Proof.
  assert (scrub_all fresh_scrubber deltas = said_of (concat deltas)) as E by (rewrite scrub_all_concat; by apply emitted_said).
  split; [exact E|]. intros ps leak Hps Hleak Hd. by rewrite E, Hd, said_pieces.
Qed.

Lemma scrub_language_witness :
  let ps := [Plain (str "Hi" ++ [239; 188; 129; 32]%Z); Action (str "waves"); Aside (str "aside" ++ [239; 188; 129]%Z); Plain (str "a <b, *or" ++ [10; 239; 188; 159]%Z)] in
  scrub_all fresh_scrubber [str "Hi" ++ [239; 188]%Z; [129; 32]%Z ++ str "*wa"; str "ves*" ++ full_open ++ str "as"; str "ide" ++ [239]%Z; [188; 129]%Z ++ full_close ++ str "a <b, *or" ++ [10; 239; 188; 159]%Z ++ str "<"; str "|im_end|>"] =
  concat (map spoken ps).
Proof.
  intros ps. apply (proj2 (scrub_language _) ps (str "<|im_end|>")).
  - repeat apply Forall_cons_2; [| | | |apply Forall_nil_2]; cbn [piece_ok].
    + do 2 (apply plain_byte; [done..|]). apply plain_wide; [done|]. apply plain_byte; [done..|]. constructor.
    + split; [by repeat constructor|cbn; lia].
    + split; [by vm_compute|cbn; lia].
    + do 2 (apply plain_byte; [done..|]). apply plain_less; [done..|]. do 2 (apply plain_byte; [done..|]).
      apply (plain_line (str "or")); [by repeat constructor|cbn; lia|]. apply plain_wide; [done|]. constructor.
  - right. exists (str "im_end|>"). reflexivity.
  - reflexivity.
Defined.

(** Whatever the model writes, the scrubber only deletes: the emitted text is
    a subsequence of the reply, and at any time at most 123 bytes are held back,
    in one of the five shapes of [scrub_inv]. *)
Theorem scrub_only_deletes deltas :
  scrub_all fresh_scrubber deltas `sublist_of` concat deltas ∧
  scrub_inv (feed fresh_scrubber (concat deltas)).1 ∧
  length (held_ (feed fresh_scrubber (concat deltas)).1) <= 123.
Proof.
  assert (scrub_inv fresh_scrubber) as H0 by done.
  pose proof (feed_inv fresh_scrubber (concat deltas) H0) as Hi.
  split; [|split; [done|by apply scrub_inv_length]].
  rewrite scrub_all_concat. pose proof (feed_sublist fresh_scrubber (concat deltas) H0) as Hs.
  etransitivity; [|exact Hs]. apply sublist_app; [done|].
  unfold flush. cbn. case_decide; [done|apply sublist_nil_l].
Qed.

(** Two leaks: an action held past a line break is released with the
    special-token opener inside it, and an aside right after a [<] is emitted. *)
Theorem scrub_leaks :
  scrub_all fresh_scrubber [ [ch "*"] ++ str "<|im_end|>" ++ [10%Z] ] =
    [ch "*"] ++ str "<|im_end|>" ++ [10%Z] ∧
  scrub_all fresh_scrubber [ [ch "<"] ++ render (Aside (str "waves")) ] =
    [ch "<"] ++ render (Aside (str "waves")).
Proof. vm_compute. split; reflexivity. Qed.
