(* ===== verification/Hygiene.v ===== *)
(** Reply hygiene (app/server/chat_hygiene.cpp without the stream scrubber): the
    cleaning of a reply before it re-enters the conversation, and the steering
    note of a turn with its tests on the conversation. *)

From stdpp Require Import sorting.
From S2P Require Import Prelude.

(** * UTF-8 *)

Definition byte_at (text : bytes) (i : nat) : Z := default 0%Z (text !! i).

(** The lead byte of a sequence: its length and payload. *)
Definition lead_byte (first : Z) : option (nat * Z) :=
  if Z.land first 0xE0 =b 0xC0 then Some (2, Z.land first 0x1F)
  else if Z.land first 0xF0 =b 0xE0 then Some (3, Z.land first 0x0F)
  else if Z.land first 0xF8 =b 0xF0 then Some (4, Z.land first 0x07)
  else None.

Fixpoint continuation (text : bytes) (at_ n : nat) (value : Z) : option Z :=
  match n with
  | O => Some value
  | S n =>
      let c := byte_at text at_ in
      if Z.land c 0xC0 =b 0x80
      then continuation text (S at_) n (Z.lor (Z.shiftl value 6) (Z.land c 0x3F))
      else None
  end.

Definition decode_utf8 (text : bytes) (index : nat) : Z * nat :=
  let first := byte_at text index in
  if (first <? 0x80)%Z then (first, index + 1)
  else
    let bad := (0xFFFD%Z, index + 1) in
    match lead_byte first with
    | None => bad
    | Some (length, value) =>
        if List.length text <? index + length then bad
        else match continuation text (index + 1) (length - 1) value with
             | Some value => (value, index + length)
             | None => bad
             end
    end.

(** The code points a loop over [decode_utf8] sees, each with its bytes. *)
Fixpoint codepoints (fuel : nat) (text : bytes) (index : nat) : list (Z * bytes) :=
  match fuel with
  | O => []
  | S fuel =>
      if index <? length text then
        let '(cp, next) := decode_utf8 text index in
        (cp, substr text index (next - index)) :: codepoints fuel text next
      else []
  end.

Definition is_cjk (cp : Z) : bool :=
  ((0x3400 <=? cp) && (cp <=? 0x9FFF))%Z || ((0xF900 <=? cp) && (cp <=? 0xFAFF))%Z ||
  ((0x20000 <=? cp) && (cp <=? 0x2FA1F))%Z.

Definition is_ascii_letter (cp : Z) : bool :=
  ((ch "A" <=? cp) && (cp <=? ch "Z"))%Z || ((ch "a" <=? cp) && (cp <=? ch "z"))%Z.

(** * Cleaning a reply *)

Fixpoint strip_spans_loop (fuel : nat) (text open close : bytes) (max_span position : nat) (out : bytes) : bytes :=
  match fuel with
  | O => out
  | S fuel =>
      if position <? length text then
        match find_from open text position with
        | None => out ++ drop position text
        | Some begin =>
            let out := out ++ substr text position (begin - position) in
            let body := begin + length open in
            match find_from close text body with
            | None => if max_span <? length text - body then out ++ drop begin text else out
            | Some e =>
                if max_span <? e - body
                then strip_spans_loop fuel text open close max_span (e + length close)
                       (out ++ substr text begin ((e + length close) - begin))
                else strip_spans_loop fuel text open close max_span (e + length close) (out ++ [32%Z])
            end
        end
      else out
  end.

Definition strip_spans (text open close : bytes) (max_span : nat) : bytes :=
  strip_spans_loop (length text) text open close max_span 0 [].

Fixpoint first_not_of (set : bytes) (s : bytes) : option nat :=
  match s with
  | [] => None
  | c :: s => if existsb (Z.eqb c) set then S <$> first_not_of set s else Some 0
  end.

Fixpoint last_not_of (set : bytes) (s : bytes) : option nat :=
  match s with
  | [] => None
  | c :: s => match last_not_of set s with
              | Some i => Some (S i)
              | None => if existsb (Z.eqb c) set then None else Some 0
              end
  end.

Definition blanks : bytes := [32; 10; 13; 9]%Z.

Fixpoint collapse (in_space : bool) (text : bytes) : bytes :=
  match text with
  | [] => []
  | c :: text =>
      if (c =b 32) || (c =b 9)
      then (if in_space then [] else [32%Z]) ++ collapse true text
      else c :: collapse false text
  end.

Definition collapse_spaces (text : bytes) : bytes :=
  let out := collapse false text in
  match first_not_of blanks out, last_not_of blanks out with
  | Some begin, Some e => substr out begin (e - begin + 1)
  | _, _ => []
  end.

Definition kQuoteMarks : list (bytes * bytes) :=
  [([34], [34]); ([0xe2; 0x80; 0x9c], [0xe2; 0x80; 0x9d]); ([0xe3; 0x80; 0x8c], [0xe3; 0x80; 0x8d])]%Z.

(** The spans between [open] and [close] of at least two bytes. *)
Fixpoint quoted_spans (fuel : nat) (text open close : bytes) (position : nat) : list bytes :=
  match fuel with
  | O => []
  | S fuel =>
      match find_from open text position with
      | None => []
      | Some begin =>
          let body := begin + length open in
          match find_from close text body with
          | None => []
          | Some e =>
              (if 2 <=? e - body then [substr text body (e - body)] else []) ++
              quoted_spans fuel text open close (e + length close)
          end
      end
  end.

Definition total_size (spans : list bytes) : nat := foldl (λ total s, total + length s) 0 spans.

Definition join_spaces (spans : list bytes) : bytes :=
  foldl (λ joined span, match joined with [] => span | _ => joined ++ [32%Z] ++ span end) [] spans.

Definition recover_quoted_dialogue (text : bytes) : bytes :=
  let spans := concat (map (λ '(open, close), quoted_spans (S (length text)) text open close 0) kQuoteMarks) in
  match spans with
  | [] => text
  | _ => if total_size spans <? length text * 2 / 5 then text else join_spaces spans
  end.

(** [out.substr(0, out.find(marker))]. *)
Definition cut_at (marker text : bytes) : bytes :=
  match find_sub marker text with Some i => take i text | None => text end.

Definition cut_stray_action (out : bytes) : bytes :=
  match rfind_char (ch "*") out with
  | Some stray => if length out - stray <=? 120 then take stray out else out
  | None => out
  end.

Definition unwrap (mark : bytes * bytes) (out : bytes) : bytes :=
  let '(open, close) := mark in
  if (length open + length close <? length out) && bool_decide (take (length open) out = open) &&
     bool_decide (drop (length out - length close) out = close)
  then substr out (length open) (length out - length open - length close)
  else out.

Definition special_token : bytes := str "<|".
Definition paragraph_break : bytes := [10; 10]%Z.
Definition aside_open : bytes := [0xef; 0xbc; 0x88]%Z.
Definition aside_close : bytes := [0xef; 0xbc; 0x89]%Z.

Definition sanitize_assistant_text (text : bytes) : bytes :=
  let out := cut_at special_token text in
  let out := cut_at paragraph_break out in
  let out := strip_spans out (str "*") (str "*") 120 in
  let out := cut_stray_action out in
  let out := strip_spans out aside_open aside_close 80 in
  let out := recover_quoted_dialogue out in
  let out := collapse_spaces out in
  collapse_spaces (foldl (λ out mark, unwrap mark out) out kQuoteMarks).

(** * Tests on a message *)

(** [std::search] up to [tolower]. *)
Definition contains_ci (haystack needle : bytes) : bool :=
  if find_sub (map to_lower needle) (map to_lower haystack) then true else false.

Definition contains (haystack needle : bytes) : bool := if find_sub needle haystack then true else false.

Fixpoint contains_word_loop (fuel : nat) (text word : bytes) (position : nat) : bool :=
  match fuel with
  | O => false
  | S fuel =>
      match find_sub (map to_lower word) (map to_lower (drop position text)) with
      | None => false
      | Some offset =>
          let at_ := position + offset in
          let left_ok := (at_ =? 0) || negb (is_alnum (byte_at text (at_ - 1))) in
          let after := at_ + length word in
          let right_ok := (length text <=? after) || negb (is_alnum (byte_at text after)) in
          if left_ok && right_ok then true else contains_word_loop fuel text word (at_ + 1)
      end
  end.

Definition contains_word_ci (text word : bytes) : bool := contains_word_loop (S (length text)) text word 0.

Definition aiya : bytes := [0xe5; 0x93; 0x8e; 0xe5; 0x91; 0x80]%Z.
Definition aya : bytes := [0xe5; 0x95; 0x8a; 0xe5; 0x91; 0x80]%Z.
Definition robot_zh : bytes := [0xe6; 0x9c; 0xba; 0xe5; 0x99; 0xa8; 0xe4; 0xba; 0xba]%Z.
Definition artificial_intelligence_zh : bytes := [0xe4; 0xba; 0xba; 0xe5; 0xb7; 0xa5; 0xe6; 0x99; 0xba; 0xe8; 0x83; 0xbd]%Z.
Definition model_zh : bytes := [0xe6; 0xa8; 0xa1; 0xe5; 0x9e; 0x8b]%Z.
Definition i_said_zh : bytes := [0xe6; 0x88; 0x91; 0xe8; 0xaf; 0xb4; 0xe8; 0xbf; 0x87]%Z.
Definition still_remember_zh : bytes := [0xe8; 0xbf; 0x98; 0xe8; 0xae; 0xb0; 0xe5; 0xbe; 0x97]%Z.
Definition quiz_you_zh : bytes := [0xe8; 0x80; 0x83; 0xe8; 0x80; 0x83; 0xe4; 0xbd; 0xa0]%Z.
Definition third_person_zh : bytes := [0xe7; 0xac; 0xac; 0xe4; 0xb8; 0x89; 0xe4; 0xba; 0xba; 0xe7; 0xa7; 0xb0]%Z.

Definition has_filler (text : bytes) : bool :=
  contains text aiya || contains text aya || contains_ci text (str "aiya").

Definition mentions_ai (text : bytes) : bool :=
  contains_word_ci text (str "AI") || contains text robot_zh || contains text artificial_intelligence_zh.

Definition is_ai_probe (text : bytes) : bool :=
  mentions_ai text || contains_word_ci text (str "bot") || contains_word_ci text (str "robot") ||
  contains_word_ci text (str "model") || contains text model_zh.

Definition is_memory_check (text : bytes) : bool :=
  contains_ci text (str "what did i") || contains_ci text (str "did i tell") || contains_ci text (str "quiz") ||
  contains_ci text (str "test me") || contains_ci text (str "remember when") ||
  contains_ci text (str "what was my") || contains_ci text (str "what month") ||
  contains text i_said_zh || contains text still_remember_zh || contains text quiz_you_zh.

Definition ends_with_question (reply : bytes) : bool :=
  match last_not_of [32; 9; 13; 10]%Z reply with
  | None => false
  | Some e =>
      if byte_at reply e =b ch "?" then true
      else (2 <=? e) && bool_decide (substr reply (e - 2) 3 = [0xef; 0xbc; 0x9f]%Z)
  end.

(** * Words of a reply *)

Definition is_word_char (cp : Z) : bool := is_ascii_letter cp || (cp =b ch "'").

Fixpoint first_word_loop (cps : list (Z * bytes)) (word : bytes) (cjk_count : nat) : bytes :=
  match cps with
  | [] => word
  | (cp, s) :: cps =>
      if is_word_char cp
      then if 0 <? cjk_count then word else first_word_loop cps (word ++ s) cjk_count
      else if is_cjk cp
      then if 2 <=? S cjk_count then word ++ s else first_word_loop cps (word ++ s) (S cjk_count)
      else word
  end.

Definition first_word (text : bytes) : bytes :=
  let index := length text - length (trim_left text) in
  first_word_loop (codepoints (length text) text index) [] 0.

Definition flush_word (tokens : list bytes) (word : bytes) : list bytes :=
  match word with [] => tokens | _ => tokens ++ [word] end.

Fixpoint loop_tokens_loop (cps : list (Z * bytes)) (tokens : list bytes) (word previous_cjk : bytes) : list bytes :=
  match cps with
  | [] => flush_word tokens word
  | (cp, one) :: cps =>
      if is_word_char cp
      then loop_tokens_loop cps tokens (word ++ [to_lower (if (cp <=? 0x7F)%Z then cp else ch "a")]) []
      else if is_cjk cp
      then
        let tokens := flush_word tokens word in
        let tokens := match previous_cjk with [] => tokens | _ => tokens ++ [previous_cjk ++ one] end in
        loop_tokens_loop cps tokens [] one
      else loop_tokens_loop cps (flush_word tokens word) [] []
  end.

Definition loop_tokens (text : bytes) : list bytes :=
  loop_tokens_loop (codepoints (length text) text 0) [] [] [].

Fixpoint grams (words : list bytes) : list bytes :=
  match words with
  | a :: (b :: c :: _) as rest => (a ++ str " " ++ b ++ str " " ++ c) :: grams rest
  | _ => []
  end.

Fixpoint bump (gram : bytes) (counts : list (bytes * nat)) : list (bytes * nat) :=
  match counts with
  | [] => [(gram, 1)]
  | (g, n) :: counts => if bool_decide (g = gram) then (g, S n) :: counts else (g, n) :: bump gram counts
  end.

Fixpoint count_reply (gs seen : list bytes) (counts : list (bytes * nat)) : list (bytes * nat) :=
  match gs with
  | [] => counts
  | gram :: gs =>
      if bool_decide (gram ∈ seen) then count_reply gs seen counts
      else count_reply gs (seen ++ [gram]) (bump gram counts)
  end.

Definition phrase_counts (replies : list bytes) : list (bytes * nat) :=
  foldl (λ counts reply, count_reply (grams (loop_tokens reply)) [] counts) [] replies.

(** [std::stable_sort], most used first. *)
Fixpoint insert_sorted (x : bytes * nat) (l : list (bytes * nat)) : list (bytes * nat) :=
  match l with
  | [] => [x]
  | y :: l => if y.2 <? x.2 then x :: y :: l else y :: insert_sorted x l
  end.

Definition stable_sort (l : list (bytes * nat)) : list (bytes * nat) :=
  foldl (λ sorted x, insert_sorted x sorted) [] l.

Fixpoint worst (l : list (bytes * nat)) (offenders : list bytes) : list bytes :=
  match l with
  | [] => offenders
  | (gram, count) :: l =>
      if count <? 2 then offenders
      else
        let offenders := offenders ++ [gram] in
        if length offenders =? 2 then offenders else worst l offenders
  end.

Definition repeated_phrases (replies : list bytes) : list bytes := worst (stable_sort (phrase_counts replies)) [].

(** * The steering note *)

Fixpoint utf8_cut (text : bytes) (e : nat) : nat :=
  match e with
  | O => O
  | S e' => if Z.land (byte_at text e) 0xC0 =b 0x80 then utf8_cut text e' else e
  end.

Definition utf8_prefix (text : bytes) (max_bytes : nat) : bytes :=
  if length text <=? max_bytes then text else take (utf8_cut text max_bytes) text.

(** [cjk / letters >= threshold] in double arithmetic, for the thresholds 3/10
    and 1/2 of the program and fewer than 2^50 letters. *)
Definition mostly_cjk_at (num den : nat) (text : bytes) : bool :=
  let cps := codepoints (length text) text 0 in
  let '(letters, cjk) :=
    foldl (λ '(letters, cjk) '(cp, _),
             if is_cjk cp then (S letters, S cjk)
             else if is_ascii_letter cp || ((0xC0 <=? cp) && (cp <? 0x3000))%Z then (S letters, cjk)
             else (letters, cjk)) (0, 0) cps in
  if letters =? 0 then false else num * letters <=? den * cjk.

Definition mostly_cjk (text : bytes) : bool := mostly_cjk_at 3 10 text.

Definition probe_extra : bytes := str (
  "They are teasing that you might be artificial: brush it off in" ++
  " one short playful sentence WITHOUT using the words AI, bot, or" ++
  " robot yourself, then change the subject.").
Definition third_person_extra : bytes := str (
  "They asked for third person: playfully refuse and keep speaking as I.").
Definition memory_extra : bytes := str (
  "This is a memory check. Search the conversation above for what" ++
  " THEY said and answer with their detail, speaking of it as" ++
  " theirs; if it is not in the conversation any more, playfully" ++
  " admit that you lost it -- never claim they did not tell you," ++
  " never guess.").
Definition filler_ban : bytes := str "Do not use aiya or " ++ aiya ++ str " this turn.".
Definition ai_ban : bytes := str "Do not mention AI, bots, or robots this turn.".
Definition question_ban : bytes := str "End this reply with a warm statement, not a question.".
Definition opener_ban (opener : bytes) : bytes := str "Do not begin your reply with '" ++ opener ++ str "'.".
Definition phrase_ban (gram : bytes) : bytes :=
  str "Never say '" ++ gram ++ str "' again; find fresh wording and fresh ideas.".

(** What the latest message asks for. *)
Definition message_extras (latest_user : bytes) : list bytes :=
  (if is_ai_probe latest_user then [probe_extra] else []) ++
  (if contains_ci latest_user (str "third person") || contains latest_user third_person_zh
   then [third_person_extra] else []) ++
  (if is_memory_check latest_user then [memory_extra] else []).

(** One ban, if [bans < 3] and its condition holds. *)
Definition add_ban (condition : bool) (ban : bytes) (bans : list bytes) : list bytes :=
  if condition && (length bans <? 3) then bans ++ [ban] else bans.

(** The last reply and the one before it. *)
Definition last_two (replies : list bytes) : option (bytes * bytes) :=
  match rev replies with last :: previous :: _ => Some (last, previous) | _ => None end.

(** [bans] counts the bans in [extras], which are the bans after the message's own. *)
Definition turn_bans (recent : list bytes) : list bytes :=
  let recent_filler := existsb has_filler (drop (length recent - min (length recent) 4) recent) in
  let bans := add_ban recent_filler filler_ban [] in
  let bans := add_ban (match last recent with Some r => mentions_ai r | None => false end) ai_ban bans in
  let bans :=
    add_ban (match last_two recent with
             | Some (r, p) => ends_with_question r && ends_with_question p
             | None => false
             end) question_ban bans in
  let bans :=
    match last_two recent with
    | Some (r, p) =>
        let last_opener := first_word r in
        add_ban (negb (bool_decide (last_opener = [])) && bool_decide (last_opener = first_word p))
          (opener_ban last_opener) bans
    | None => bans
    end in
  foldl (λ bans gram, add_ban true (phrase_ban gram) bans) bans (repeated_phrases recent).

Definition zh_pin : bytes := [0xe8; 0xbf; 0x99; 0xe4; 0xb8; 0x80; 0xe8; 0xbd; 0xae; 0xe5; 0xbf; 0x85; 0xe9; 0xa1; 0xbb; 0xe7; 0x94; 0xa8; 0xe4; 0xb8; 0xad; 0xe6; 0x96; 0x87; 0xe5; 0x9b; 0x9e; 0xe7; 0xad; 0x94; 0xe3; 0x80; 0x82]%Z.
Definition zh_newest : bytes := [0xe5; 0xaf; 0xb9; 0xe6; 0x96; 0xb9; 0xe5; 0x88; 0x9a; 0xe5; 0x88; 0x9a; 0xe8; 0xaf; 0xb4; 0xe7; 0x9a; 0x84; 0xe6; 0x98; 0xaf; 0xef; 0xbc; 0x9a; 0xe3; 0x80; 0x8c]%Z.
Definition zh_answer : bytes := [0xe3; 0x80; 0x8d; 0xe3; 0x80; 0x82; 0xe7; 0x9b; 0xb4; 0xe6; 0x8e; 0xa5; 0xe5; 0x9b; 0x9e; 0xe5; 0xba; 0x94; 0xe8; 0xbf; 0x99; 0xe5; 0x8f; 0xa5; 0xe8; 0xaf; 0x9d; 0xe3; 0x80; 0x82]%Z.
Definition english_pin : bytes := str (
  " This reply MUST be written in English sentences only -- no" ++ " Chinese sentences and no pinyin.").
Definition quiet_pin : bytes := str "Reply in English sentences only, with no pinyin.".
Definition english_newest : bytes := str "Their newest message is: '".
Definition english_answer : bytes := str "' -- answer exactly that.".
Definition switch_note : bytes := str (
  " The conversation just switched: even though your last" ++ " reply was in Chinese, this message is in English --" ++
  " switch back to English NOW.").

Definition replace_char (old new : Z) (s : bytes) : bytes := map (λ c, if c =b old then new else c) s.

Definition snippet_of (latest_user : bytes) : bytes :=
  replace_char 34 (ch "'") (replace_char 10 32 (utf8_prefix latest_user 160)).

Definition turn_anchor (latest_user : bytes) (recent_assistant : list bytes) : bytes :=
  let zh := mostly_cjk latest_user in
  let extras := message_extras latest_user ++ turn_bans recent_assistant in
  let switched := negb zh && match last recent_assistant with Some r => mostly_cjk_at 1 2 r | None => false end in
  if bool_decide (extras = []) && negb switched
  then if zh then zh_pin else quiet_pin
  else
    (if zh then zh_newest ++ snippet_of latest_user ++ zh_answer
     else english_newest ++ snippet_of latest_user ++ english_answer) ++
    concat (map (λ extra, str " " ++ extra) extras) ++
    (if zh then str " " ++ zh_pin
     else (if switched then switch_note else []) ++ english_pin).

(** * UTF-8 texts *)

(** The encoding of a code point. *)
Definition encode_utf8 (cp : Z) : bytes :=
  if (cp <? 0x80)%Z then [cp]
  else if (cp <? 0x800)%Z then [0xC0 + cp / 64; 0x80 + cp mod 64]%Z
  else if (cp <? 0x10000)%Z then [0xE0 + cp / 4096; 0x80 + (cp / 64) mod 64; 0x80 + cp mod 64]%Z
  else [0xF0 + cp / 262144; 0x80 + (cp / 4096) mod 64; 0x80 + (cp / 64) mod 64; 0x80 + cp mod 64]%Z.

Definition encode_all (cps : list Z) : bytes := concat (map encode_utf8 cps).

Definition is_code_point (cp : Z) : Prop := (0 <= cp < 0x110000)%Z.

(** A test on the numbers below [n], decided by trying them all. *)
Lemma all_below (P : Z → bool) (n : nat) :
  forallb P (map Z.of_nat (seq 0 n)) = true → ∀ k, (0 <= k < Z.of_nat n)%Z → P k = true.
Proof.
  rewrite forallb_forall. intros H k Hk. apply H, in_map_iff. exists (Z.to_nat k).
  split; [lia|]. apply in_seq. lia.
Qed.

Lemma lead2 k : (0 <= k < 32)%Z → lead_byte (0xC0 + k) = Some (2, k).
Proof.
  intros Hk. pose proof (all_below (λ k, bool_decide (lead_byte (0xC0 + k) = Some (2, k))) 32 eq_refl k Hk) as H.
  by apply bool_decide_eq_true in H.
Qed.

Lemma lead3 k : (0 <= k < 16)%Z → lead_byte (0xE0 + k) = Some (3, k).
Proof.
  intros Hk. pose proof (all_below (λ k, bool_decide (lead_byte (0xE0 + k) = Some (3, k))) 16 eq_refl k Hk) as H.
  by apply bool_decide_eq_true in H.
Qed.

Lemma lead4 k : (0 <= k < 8)%Z → lead_byte (0xF0 + k) = Some (4, k).
Proof.
  intros Hk. pose proof (all_below (λ k, bool_decide (lead_byte (0xF0 + k) = Some (4, k))) 8 eq_refl k Hk) as H.
  by apply bool_decide_eq_true in H.
Qed.

Lemma continuation_byte k : (0 <= k < 64)%Z → Z.land (0x80 + k) 0xC0 = 0x80%Z ∧ Z.land (0x80 + k) 0x3F = k.
Proof.
  intros Hk.
  pose proof (all_below (λ k, bool_decide (Z.land (0x80 + k) 0xC0 = 0x80%Z ∧ Z.land (0x80 + k) 0x3F = k)) 64 eq_refl k Hk) as H.
  by apply bool_decide_eq_true in H.
Qed.

Lemma byte_at_app pre l i : byte_at (pre ++ l) (length pre + i) = byte_at l i.
Proof. unfold byte_at. rewrite lookup_app_r by lia. by rewrite Nat.add_comm, Nat.add_sub. Qed.

Lemma byte_at_head pre x l : byte_at (pre ++ x :: l) (length pre) = x.
Proof. rewrite <- (Nat.add_0_r (length pre)) at 1. by rewrite byte_at_app. Qed.

(** A continuation loop reads the 6-bit digits that follow. *)
Lemma continuation_digits pre ds rest value :
  (0 <= value)%Z → Forall (λ d, 0 <= d < 64)%Z ds →
  continuation (pre ++ map (λ d, 0x80 + d)%Z ds ++ rest) (length pre) (length ds) value =
  Some (fold_left (λ v d, v * 64 + d)%Z ds value).
Proof.
  intros Hv Hds. revert pre value Hv. induction Hds as [|d ds Hd Hds IH]; intros pre value Hv; [done|].
  cbn [map length continuation app fold_left]. rewrite byte_at_head.
  destruct (continuation_byte d Hd) as [-> ->]. rewrite Z.eqb_refl.
  rewrite (lor_shiftl_add value 6 d) by lia. change (2 ^ 6)%Z with 64%Z.
  specialize (IH (pre ++ [0x80 + d]%Z) (value * 64 + d)%Z ltac:(lia)).
  rewrite length_app in IH. cbn in IH. rewrite Nat.add_1_r, <- app_assoc in IH. exact IH.
Qed.

(** Decoding a sequence of a lead byte and its digits. *)
Lemma decode_sequence pre first k ds rest :
  (0x80 <= first)%Z → lead_byte first = Some (S (length ds), k) → (0 <= k)%Z → Forall (λ d, 0 <= d < 64)%Z ds →
  decode_utf8 (pre ++ (first :: map (λ d, 0x80 + d)%Z ds) ++ rest) (length pre) =
  (fold_left (λ v d, v * 64 + d)%Z ds k, length pre + S (length ds)).
Proof.
  intros Hf Hl Hk Hds. unfold decode_utf8. cbn [app]. rewrite byte_at_head.
  rewrite (proj2 (Z.ltb_ge _ _)) by done. rewrite Hl.
  assert (length (pre ++ first :: map (λ d, (0x80 + d)%Z) ds ++ rest) <? length pre + S (length ds) = false) as ->.
  { apply Nat.ltb_ge. rewrite length_app. cbn. rewrite length_app, length_map. lia. }
  pose proof (continuation_digits (pre ++ [first]) ds rest k Hk Hds) as H.
  rewrite length_app, <- app_assoc in H. cbn [length app] in H.
  replace (S (length ds) - 1) with (length ds) by lia. by rewrite H.
Qed.

Lemma decode_encode pre cp rest :
  is_code_point cp →
  decode_utf8 (pre ++ encode_utf8 cp ++ rest) (length pre) = (cp, length pre + length (encode_utf8 cp)).
Proof.
  intros Hcp. unfold is_code_point in Hcp. unfold encode_utf8.
  destruct (Z.ltb_spec cp 0x80); [|destruct (Z.ltb_spec cp 0x800); [|destruct (Z.ltb_spec cp 0x10000)]].
  - unfold decode_utf8. cbn [app]. rewrite byte_at_head. by rewrite (proj2 (Z.ltb_lt _ _)).
  - rewrite (decode_sequence pre (0xC0 + cp / 64) (cp / 64) [cp mod 64]%Z).
    + cbn. f_equal. Z.to_euclidean_division_equations; lia.
    + Z.to_euclidean_division_equations; lia.
    + apply lead2. Z.to_euclidean_division_equations; lia.
    + Z.to_euclidean_division_equations; lia.
    + repeat constructor; Z.to_euclidean_division_equations; lia.
  - rewrite (decode_sequence pre (0xE0 + cp / 4096) (cp / 4096) [(cp / 64) mod 64; cp mod 64]%Z).
    + cbn. f_equal. Z.to_euclidean_division_equations; lia.
    + Z.to_euclidean_division_equations; lia.
    + apply lead3. Z.to_euclidean_division_equations; lia.
    + Z.to_euclidean_division_equations; lia.
    + repeat constructor; Z.to_euclidean_division_equations; lia.
  - rewrite (decode_sequence pre (0xF0 + cp / 262144) (cp / 262144) [(cp / 4096) mod 64; (cp / 64) mod 64; cp mod 64]%Z).
    + cbn. f_equal. Z.to_euclidean_division_equations; lia.
    + Z.to_euclidean_division_equations; lia.
    + apply lead4. Z.to_euclidean_division_equations; lia.
    + Z.to_euclidean_division_equations; lia.
    + repeat constructor; Z.to_euclidean_division_equations; lia.
Qed.

Lemma encode_utf8_nonempty cp : 1 <= length (encode_utf8 cp) <= 4.
Proof. unfold encode_utf8. repeat case_bool; cbn; lia. Qed.

Lemma codepoints_app pre cps fuel :
  Forall is_code_point cps → length (encode_all cps) <= fuel →
  codepoints fuel (pre ++ encode_all cps) (length pre) = map (λ cp, (cp, encode_utf8 cp)) cps.
Proof.
  intros Hcps. revert pre fuel. induction Hcps as [|cp cps Hcp _ IH]; intros pre fuel Hf.
  - destruct fuel; cbn; [done|]. by rewrite app_nil_r, (proj2 (Nat.ltb_ge _ _)).
  - unfold encode_all in *. cbn [map concat] in *. rewrite length_app in Hf.
    pose proof (encode_utf8_nonempty cp). destruct fuel as [|fuel]; [lia|]. cbn [codepoints].
    rewrite (proj2 (Nat.ltb_lt _ _)) by (rewrite !length_app; lia).
    rewrite decode_encode by done. f_equal.
    + f_equal. unfold substr. rewrite drop_app_length. rewrite Nat.add_comm, Nat.add_sub. apply take_app_length.
    + rewrite app_assoc. rewrite <- (length_app pre). apply IH. lia.
Qed.

Lemma decode_utf8_next text index :
  index < length text → index < (decode_utf8 text index).2 <= length text.
Proof.
  intros Hi. unfold decode_utf8. cbv zeta. destruct (byte_at text index <? 0x80)%Z; cbn; [lia|].
  destruct (lead_byte _) as [[len v]|] eqn:Hl; cbn; [|lia].
  assert (2 <= len) as Hlen by (unfold lead_byte in Hl; repeat case_bool; simplify_eq; lia).
  destruct (Nat.ltb_spec (length text) (index + len)); cbn; [lia|].
  destruct (continuation _ _ _ _); cbn; lia.
Qed.

Lemma codepoints_concat fuel text index :
  length text - index <= fuel → concat (map snd (codepoints fuel text index)) = drop index text.
Proof.
  revert index. induction fuel as [|fuel IH]; intros index Hf; cbn [codepoints].
  - symmetry. apply drop_ge. lia.
  - destruct (Nat.ltb_spec index (length text)) as [Hi|Hi]; [|by rewrite drop_ge by lia].
    pose proof (decode_utf8_next text index Hi) as Hn.
    destruct (decode_utf8 text index) as [cp next]. cbn [map concat snd] in *. rewrite IH by lia.
    unfold substr. rewrite <- (take_drop (next - index) (drop index text)) at 2. f_equal.
    rewrite drop_drop. f_equal. lia.
Qed.

Definition is_continuation (c : Z) : bool := Z.land c 0xC0 =b 0x80.

Lemma encode_utf8_shape cp :
  is_code_point cp → ∃ c tail, encode_utf8 cp = c :: tail ∧ is_continuation c = false ∧ Forall (λ c, is_continuation c = true) tail.
Proof.
  assert (∀ k, (0 <= k < 64)%Z → is_continuation (0x80 + k) = true) as Hc.
  { intros k Hk. unfold is_continuation. by destruct (continuation_byte k Hk) as [-> _]. }
  assert (∀ k, (0 <= k < 128 ∨ 0xC0 <= k < 0xF8)%Z → is_continuation k = false) as Hl.
  { intros k Hk. pose proof (all_below (λ k, negb (is_continuation k) || negb ((k <? 128) || (0xC0 <=? k)))%Z 248 eq_refl k ltac:(lia)) as H.
    cbn beta in H. destruct (is_continuation k); [|done]. cbn in H. apply negb_true_iff, orb_false_iff in H. lia. }
  intros Hcp. unfold is_code_point in Hcp. unfold encode_utf8.
  destruct (Z.ltb_spec cp 0x80); [|destruct (Z.ltb_spec cp 0x800); [|destruct (Z.ltb_spec cp 0x10000)]];
    (eexists _, _; split; [done|]; split; [apply Hl; Z.to_euclidean_division_equations; lia|]);
    repeat (apply Forall_cons; split; [apply Hc; apply Z.mod_pos_bound; lia|]); by apply Forall_nil.
Qed.

Lemma utf8_cut_inside pre c tail j rest :
  is_continuation c = false → Forall (λ c, is_continuation c = true) tail → j <= length tail →
  utf8_cut (pre ++ (c :: tail) ++ rest) (length pre + j) = length pre.
Proof.
  intros Hc Ht. induction j as [|j IH]; intros Hj.
  - rewrite Nat.add_0_r. destruct pre as [|x pre]; [done|]. cbn [length utf8_cut].
    pose proof (byte_at_head (x :: pre) c (tail ++ rest)) as Hb. cbn [length] in Hb. cbn [app] in *. rewrite Hb.
    unfold is_continuation in Hc. by rewrite Hc.
  - rewrite Nat.add_succ_r. cbn [utf8_cut]. rewrite <- Nat.add_succ_r.
    rewrite byte_at_app. unfold byte_at. cbn [app]. rewrite lookup_cons_ne_0 by lia. cbn [Nat.pred].
    rewrite lookup_app_l by lia. destruct (lookup_lt_is_Some_2 tail j) as [d Hd]; [lia|]. rewrite Hd. change (default 0%Z (Some d)) with d.
    rewrite Forall_lookup in Ht. specialize (Ht _ _ Hd). unfold is_continuation in Ht. rewrite Ht. apply IH. lia.
Qed.

(** A position inside an encoded text is inside one of its characters. *)
Lemma position_split cps e :
  e < length (encode_all cps) →
  ∃ l cp r j, cps = l ++ cp :: r ∧ e = length (encode_all l) + j ∧ j < length (encode_utf8 cp).
Proof.
  revert e. induction cps as [|cp cps IH]; intros e He; [cbn in He; lia|].
  unfold encode_all in *. cbn [map concat] in He. rewrite length_app in He.
  destruct (Nat.ltb_spec e (length (encode_utf8 cp))) as [Hl|Hl].
  - by exists [], cp, cps, e.
  - destruct (IH (e - length (encode_utf8 cp))) as (l & cp' & r & j & -> & He' & Hj); [lia|].
    exists (cp :: l), cp', r, j. cbn [map concat]. rewrite length_app. split_and!; [done|lia|done].
Qed.

Lemma encode_all_app l r : encode_all (l ++ r) = encode_all l ++ encode_all r.
Proof. unfold encode_all. by rewrite map_app, concat_app. Qed.

(** * What cleaning cannot create

    Every step of the cleaning keeps pieces of the text and separates them by
    spaces: two characters that are adjacent afterwards were adjacent before. *)

Definition adjacent (a b : Z) (s : bytes) : Prop := ∃ u v, s = u ++ a :: b :: v.

Lemma adjacent_infix a b p s q : adjacent a b s → adjacent a b (p ++ s ++ q).
Proof. intros (u & v & ->). exists (p ++ u), (v ++ q). by rewrite <- !app_assoc. Qed.

Lemma adjacent_prefix a b s q : adjacent a b s → adjacent a b (s ++ q).
Proof. apply (adjacent_infix a b []). Qed.

Lemma adjacent_suffix a b p s : adjacent a b s → adjacent a b (p ++ s).
Proof. intros H. rewrite <- (app_nil_r s). by apply adjacent_infix. Qed.

Lemma adjacent_take a b n s : adjacent a b (take n s) → adjacent a b s.
Proof. intros H. rewrite <- (take_drop n s). by apply adjacent_prefix. Qed.

Lemma adjacent_drop a b n s : adjacent a b (drop n s) → adjacent a b s.
Proof. intros H. rewrite <- (take_drop n s). by apply adjacent_suffix. Qed.

Lemma adjacent_substr a b s i n : adjacent a b (substr s i n) → adjacent a b s.
Proof. intros H. by eapply adjacent_drop, adjacent_take. Qed.

Lemma adjacent_nil a b : ¬ adjacent a b [].
Proof. by intros ([|] & v & H). Qed.

Lemma adjacent_cons a b c s : adjacent a b (c :: s) ↔ (c = a ∧ head s = Some b) ∨ adjacent a b s.
Proof.
  split.
  - intros ([|x u] & v & H); simplify_eq/=; [by left|right; by exists u, v].
  - intros [[-> Hb]|(u & v & ->)]; [|by exists (c :: u), v].
    destruct s as [|y s]; simplify_eq/=. by exists [], s.
Qed.

Lemma adjacent_app_sep a b c p q :
  a ≠ c → b ≠ c → adjacent a b (p ++ c :: q) → adjacent a b p ∨ adjacent a b q.
Proof.
  intros Ha Hb. induction p as [|x p IH]; cbn [app]; rewrite adjacent_cons.
  - intros [[-> _]|H]; [done|]. by right.
  - intros [[-> Hh]|H].
    + left. apply adjacent_cons. left. split; [done|]. destruct p; cbn in *; congruence.
    + destruct (IH H) as [?|?]; [left|by right]. apply adjacent_cons. by right.
Qed.

Lemma find_sub_adjacent a b s : find_sub [a; b] s = None ↔ ¬ adjacent a b s.
Proof.
  split.
  - intros H (u & v & ->). pose proof (find_sub_None _ _ H (length u)) as Hp. rewrite drop_app_length in Hp.
    change (a :: b :: v) with ([a; b] ++ v) in Hp. by rewrite is_prefix_app in Hp.
  - intros H. destruct (find_sub [a; b] s) as [i|] eqn:E; [|done]. exfalso. apply H.
    apply find_sub_split in E. by exists (take i s), (drop (i + 2) s).
Qed.

Lemma cut_at_adjacent a b s : ¬ adjacent a b (cut_at [a; b] s).
Proof.
  unfold cut_at. destruct (find_sub [a; b] s) as [i|] eqn:E; [|by apply find_sub_adjacent].
  intros (u & v & Hu). apply find_sub_Some in E as [_ E].
  assert (length u + 2 <= i) as Hi.
  { pose proof (length_take_le s i) as Hl. pose proof (f_equal length Hu) as Hlen.
    rewrite length_app in Hlen. cbn in Hlen. rewrite length_take in Hlen. lia. }
  specialize (E (length u) ltac:(lia)).
  rewrite <- (take_drop i s), Hu, <- app_assoc, drop_app_length in E.
  change ((a :: b :: v) ++ drop i s) with ([a; b] ++ (v ++ drop i s)) in E. by rewrite is_prefix_app in E.
Qed.

Lemma substr_step (text : bytes) (i j : nat) :
  i <= j → substr text i (j - i) ++ drop j text = drop i text.
Proof.
  intros H. unfold substr. rewrite <- (take_drop (j - i) (drop i text)) at 2. f_equal.
  rewrite drop_drop. f_equal. lia.
Qed.

Section cleaning.
Context (a b : Z) (Ha : a ≠ 32%Z) (Hb : b ≠ 32%Z).

Lemma strip_spans_adjacent_loop fuel text open close max_span position out :
  1 <= length open →
  ¬ adjacent a b (out ++ drop position text) →
  ¬ adjacent a b (strip_spans_loop fuel text open close max_span position out).
Proof.
  intros Ho. revert position out. induction fuel as [|fuel IH]; intros position out H; cbn [strip_spans_loop].
  { intros Hadj. by apply H, adjacent_prefix. }
  destruct (position <? length text); [|intros Hadj; by apply H, adjacent_prefix].
  destruct (find_from open text position) as [begin|] eqn:Eo; [|done].
  apply find_from_Some in Eo as (_ & Hbegin & _).
  assert (out ++ drop position text = (out ++ substr text position (begin - position)) ++ drop begin text) as Hsplit.
  { by rewrite <- app_assoc, substr_step. }
  rewrite Hsplit in H.
  destruct (find_from close text (begin + length open)) as [e|] eqn:Ec.
  - apply find_from_Some in Ec as (_ & He & _). case_bool; apply IH.
    + rewrite <- app_assoc, substr_step by lia. exact H.
    + rewrite <- app_assoc. cbn [app]. intros [Hadj|Hadj]%adjacent_app_sep; [| |done..].
      * by apply H, adjacent_prefix.
      * apply H, adjacent_suffix. rewrite <- (substr_step text begin (e + length close)) by lia. by apply adjacent_suffix.
  - case_bool; [exact H|]. intros Hadj. by apply H, adjacent_prefix.
Qed.

Lemma strip_spans_adjacent text open close max_span :
  1 <= length open → adjacent a b (strip_spans text open close max_span) → adjacent a b text.
Proof.
  intros Ho H. destruct (find_sub [a; b] text) as [i|] eqn:E.
  - apply find_sub_split in E. by exists (take i text), (drop (i + 2) text).
  - apply find_sub_adjacent in E. by apply strip_spans_adjacent_loop in H.
Qed.

Lemma quoted_spans_infix fuel text open close position s :
  s ∈ quoted_spans fuel text open close position → ∃ i n, s = substr text i n.
Proof.
  revert position. induction fuel as [|fuel IH]; intros position; cbn [quoted_spans]; [by intros ?%elem_of_nil|].
  destruct (find_from open text position) as [begin|]; [|by intros ?%elem_of_nil].
  destruct (find_from close text _) as [e|]; [|by intros ?%elem_of_nil].
  rewrite elem_of_app. intros [H|H]; [|by eapply IH].
  case_bool; [|by apply elem_of_nil in H]. apply list_elem_of_singleton in H as ->. by eexists _, _.
Qed.

Lemma join_spaces_adjacent spans :
  adjacent a b (join_spaces spans) → ∃ s, s ∈ spans ∧ adjacent a b s.
Proof.
  unfold join_spaces. induction spans as [|s spans IH] using rev_ind.
  - by intros ([|] & v & H).
  - rewrite foldl_app. cbn [foldl]. destruct (foldl _ _ _) as [|x joined] eqn:E.
    + intros H. exists s. split; [|done]. apply elem_of_app. right. by apply list_elem_of_singleton.
    + intros [H|H]%adjacent_app_sep; [| |done..].
      * destruct (IH H) as (s' & Hin & Hadj). exists s'. split; [|done]. apply elem_of_app. by left.
      * exists s. split; [|done]. apply elem_of_app. right. by apply list_elem_of_singleton.
Qed.

Lemma recover_adjacent text : adjacent a b (recover_quoted_dialogue text) → adjacent a b text.
Proof.
  unfold recover_quoted_dialogue. cbv zeta. set (spans := concat _). intros H.
  assert (∀ s, s ∈ spans → ∃ i n, s = substr text i n) as Hs.
  { intros s Hin. apply list_elem_of_In, in_concat in Hin as (l & Hl & Hin).
    apply in_map_iff in Hl as ([o c] & <- & _). by eapply quoted_spans_infix, list_elem_of_In. }
  assert (adjacent a b text ∨ adjacent a b (join_spaces spans)) as [?|Hj].
  { destruct spans; [by left|]. case_bool; [by left|by right]. }
  - done.
  - apply join_spaces_adjacent in Hj as (s & Hin & Hadj). destruct (Hs s Hin) as (i & n & ->).
    by eapply adjacent_substr.
Qed.

Lemma unwrap_adjacent mark text : adjacent a b (unwrap mark text) → adjacent a b text.
Proof. unfold unwrap. destruct mark. case_bool; [|done]. apply adjacent_substr. Qed.

Lemma cut_adjacent marker text : adjacent a b (cut_at marker text) → adjacent a b text.
Proof. unfold cut_at. case_match; [apply adjacent_take|done]. Qed.

Lemma cut_stray_adjacent text : adjacent a b (cut_stray_action text) → adjacent a b text.
Proof. unfold cut_stray_action. case_match; [|done]. case_bool; [apply adjacent_take|done]. Qed.

Lemma collapse_head in_space s c : head (collapse in_space s) = Some c → c ≠ 32%Z →
  ∃ t, s = t ∧ if in_space then True else head s = Some c.
Proof.
  intros H Hc. exists s. split; [done|]. destruct in_space; [done|].
  destruct s as [|x s]; [done|]. cbn [collapse] in H. case_bool; [|done]. by simplify_eq/=.
Qed.

Lemma collapse_adjacent in_space s : adjacent a b (collapse in_space s) → adjacent a b s.
Proof.
  revert in_space. induction s as [|c s IH]; intros in_space; [done|]. cbn [collapse]. case_bool.
  - destruct in_space; cbn [app]; [intros H%IH; apply adjacent_cons; by right|].
    rewrite adjacent_cons. intros [[Hc _]|H%IH]; [congruence|]. apply adjacent_cons. by right.
  - rewrite !adjacent_cons. intros [[-> Hh]|H%IH]; [|by right]. left. split; [done|].
    by apply collapse_head in Hh as (t & _ & Hh).
Qed.

Lemma collapse_spaces_adjacent s : adjacent a b (collapse_spaces s) → adjacent a b s.
Proof.
  unfold collapse_spaces. cbv zeta. intros H. apply (collapse_adjacent false).
  destruct (first_not_of blanks _); [|by apply adjacent_nil in H].
  destruct (last_not_of blanks _); [by eapply adjacent_substr|by apply adjacent_nil in H].
Qed.

Lemma clean_adjacent text :
  adjacent a b (sanitize_assistant_text text) → adjacent a b (cut_at paragraph_break (cut_at special_token text)).
Proof.
  unfold sanitize_assistant_text. cbv zeta. intros H%collapse_spaces_adjacent.
  assert (∀ marks out, adjacent a b (foldl (λ out mark, unwrap mark out) out marks) → adjacent a b out) as Hu.
  { induction marks as [|m marks IH]; intros out; cbn; [done|]. intros Hm%IH. by eapply unwrap_adjacent. }
  apply Hu, collapse_spaces_adjacent, recover_adjacent, strip_spans_adjacent, cut_stray_adjacent, strip_spans_adjacent in H;
    [done|cbn; lia..].
Qed.
End cleaning.

(** * Where a reply ends *)

Lemma first_not_of_Some set s i :
  first_not_of set s = Some i → ∃ c, s !! i = Some c ∧ existsb (Z.eqb c) set = false.
Proof.
  revert i. induction s as [|x s IH]; intros i; cbn [first_not_of]; [done|]. case_bool.
  - intros (j & Hj & ->)%fmap_Some. by apply IH.
  - intros [= <-]. by exists x.
Qed.

Lemma last_not_of_Some set s i :
  last_not_of set s = Some i → ∃ c, s !! i = Some c ∧ existsb (Z.eqb c) set = false.
Proof.
  revert i. induction s as [|x s IH]; intros i; cbn [last_not_of]; [done|].
  destruct (last_not_of set s) as [j|]; [intros [= <-]; by apply IH|]. case_bool; [done|].
  intros [= <-]. by exists x.
Qed.

Lemma first_le_last set s i j : first_not_of set s = Some i → last_not_of set s = Some j → i <= j.
Proof.
  revert i j. induction s as [|x s IH]; intros i j; cbn [first_not_of last_not_of]; [done|].
  destruct (existsb (Z.eqb x) set); [|intros [= <-]; lia].
  intros (i' & Hi & ->)%fmap_Some. destruct (last_not_of set s) as [j'|]; [|done]. intros [= <-].
  specialize (IH i' j' Hi eq_refl). lia.
Qed.

Definition not_blank (c : Z) : Prop := existsb (Z.eqb c) blanks = false.

Lemma collapse_spaces_ends text :
  (∀ c, head (collapse_spaces text) = Some c → not_blank c) ∧
  (∀ c, last (collapse_spaces text) = Some c → not_blank c).
Proof.
  unfold collapse_spaces. cbv zeta.
  destruct (first_not_of _ _) as [i|] eqn:Ei; [|done]. destruct (last_not_of _ _) as [j|] eqn:Ej; [|done].
  pose proof (first_le_last _ _ _ _ Ei Ej) as Hij.
  apply first_not_of_Some in Ei as (x & Hx & Hbx). apply last_not_of_Some in Ej as (y & Hy & Hby).
  split; intros c Hc.
  - rewrite head_lookup in Hc. unfold substr in Hc. rewrite lookup_take_lt, lookup_drop, Nat.add_0_r, Hx in Hc by lia.
    by injection Hc as <-.
  - rewrite last_lookup in Hc. unfold substr in Hc. pose proof (lookup_lt_Some _ _ _ Hy).
    rewrite length_take, length_drop in Hc. rewrite lookup_take_lt, lookup_drop in Hc by lia.
    replace (i + Nat.pred (min (j - i + 1) (length (collapse false text) - i))) with j in Hc by lia.
    rewrite Hy in Hc. by injection Hc as <-.
Qed.

(** * Counting phrases *)

(** The number of replies that use a phrase. *)
Definition uses (replies : list bytes) (gram : bytes) : nat :=
  length (List.filter (λ reply, bool_decide (gram ∈ grams (loop_tokens reply))) replies).

Fixpoint count_of (gram : bytes) (counts : list (bytes * nat)) : nat :=
  match counts with
  | [] => 0
  | (g, n) :: counts => if bool_decide (g = gram) then n else count_of gram counts
  end.

Lemma count_of_bump gram g counts :
  count_of gram (bump g counts) = count_of gram counts + (if bool_decide (g = gram) then 1 else 0).
Proof.
  induction counts as [|[g' n] counts IH]; cbn [bump count_of]; [by repeat case_bool_decide|].
  destruct (decide (g' = g)) as [->|Hne].
  - rewrite (bool_decide_true (g = g)) by done. cbn [count_of]. case_bool_decide; lia.
  - rewrite (bool_decide_false (g' = g)) by done. cbn [count_of]. rewrite IH.
    destruct (decide (g' = gram)) as [->|?]; [rewrite !(bool_decide_true (gram = gram)) by done|].
    + rewrite (bool_decide_false (g = gram)) by congruence. lia.
    + by rewrite !(bool_decide_false (g' = gram)) by done.
Qed.

Lemma bump_keys g counts : NoDup counts.*1 → NoDup (bump g counts).*1 ∧ ∀ k, k ∈ (bump g counts).*1 → k = g ∨ k ∈ counts.*1.
Proof.
  induction counts as [|[g' n] counts IH]; cbn [bump].
  - intros _. split; [apply NoDup_singleton|]. intros k ->%list_elem_of_singleton. by left.
  - cbn [fmap list_fmap fst]. intros [Hn Hd]%NoDup_cons. case_bool_decide; cbn [fmap list_fmap fst].
    + split; [by apply NoDup_cons|]. auto.
    + destruct (IH Hd) as [IHd IHk]. split.
      * apply NoDup_cons. split; [|done]. intros [->|?]%IHk; done.
      * intros k [->|Hk]%elem_of_cons; [right; left|]. destruct (IHk k Hk); [by left|right; by right].
Qed.

Lemma count_reply_count gram gs seen counts :
  count_of gram (count_reply gs seen counts) =
  count_of gram counts + (if bool_decide (gram ∈ gs ∧ gram ∉ seen) then 1 else 0).
Proof.
  revert seen counts. induction gs as [|g gs IH]; intros seen counts; cbn [count_reply].
  - rewrite bool_decide_false; [lia|]. intros [H _]. by apply elem_of_nil in H.
  - destruct (decide (g ∈ seen)) as [Hs|Hs].
    + rewrite (bool_decide_true (g ∈ seen)) by done. rewrite IH. f_equal.
      rewrite (bool_decide_ext (gram ∈ g :: gs ∧ gram ∉ seen) (gram ∈ gs ∧ gram ∉ seen)); [done|].
      rewrite elem_of_cons. naive_solver.
    + rewrite (bool_decide_false (g ∈ seen)) by done. rewrite IH, count_of_bump.
      destruct (decide (g = gram)) as [->|Hne].
      * rewrite (bool_decide_true (gram = gram)), (bool_decide_true (gram ∈ gram :: gs ∧ gram ∉ seen)) by first [done|split; [by left|done]].
        rewrite bool_decide_false; [lia|]. intros [_ Hn]. apply Hn, elem_of_app. right. by apply list_elem_of_singleton.
      * rewrite (bool_decide_false (g = gram)) by done.
        rewrite (bool_decide_ext (gram ∈ g :: gs ∧ gram ∉ seen) (gram ∈ gs ∧ gram ∉ seen ++ [g])); [lia|].
        rewrite elem_of_cons, elem_of_app, list_elem_of_singleton. naive_solver.
Qed.

Lemma count_reply_nodup gs seen counts : NoDup counts.*1 → NoDup (count_reply gs seen counts).*1.
Proof.
  revert seen counts. induction gs as [|g gs IH]; intros seen counts H; cbn [count_reply]; [done|].
  case_bool; [by apply IH|]. by apply IH, bump_keys.
Qed.

Lemma phrase_counts_spec replies :
  NoDup (phrase_counts replies).*1 ∧ ∀ gram, count_of gram (phrase_counts replies) = uses replies gram.
Proof.
  unfold phrase_counts. induction replies as [|reply replies [IHd IHc]] using rev_ind; [split; [constructor|done]|].
  rewrite foldl_app. cbn [foldl]. split; [by apply count_reply_nodup|]. intros gram.
  rewrite count_reply_count, IHc. unfold uses. rewrite List.filter_app, length_app. f_equal. cbn [List.filter].
  rewrite (bool_decide_ext (gram ∈ grams (loop_tokens reply) ∧ gram ∉ []) (gram ∈ grams (loop_tokens reply))).
  - by case_bool_decide.
  - split; [by intros [? _]|]. intros H. split; [done|]. by intros ?%elem_of_nil.
Qed.

Lemma count_of_elem gram n counts : NoDup counts.*1 → (gram, n) ∈ counts → count_of gram counts = n.
Proof.
  induction counts as [|[g m] counts IH]; intros Hd Hin; [by apply elem_of_nil in Hin|].
  cbn [fmap list_fmap fst] in Hd. apply NoDup_cons in Hd as [Hn Hd]. cbn [count_of].
  apply elem_of_cons in Hin as [[= -> ->]|Hin]; [by rewrite bool_decide_true|].
  rewrite bool_decide_false; [by apply IH|]. intros ->. apply Hn. by apply (list_elem_of_fmap_2 fst counts (gram, n)).
Qed.

Lemma elem_count_of gram counts : 0 < count_of gram counts → (gram, count_of gram counts) ∈ counts.
Proof.
  induction counts as [|[g m] counts IH]; cbn [count_of]; [lia|]. case_bool_decide as Hg; intros Hpos; [by subst; left|].
  right. by apply IH.
Qed.

Definition more_used (x y : bytes * nat) : Prop := y.2 <= x.2.

Lemma insert_sorted_perm x l : insert_sorted x l ≡ₚ x :: l.
Proof.
  induction l as [|y l IH]; cbn [insert_sorted]; [done|]. case_bool; [done|]. rewrite IH. apply Permutation_swap.
Qed.

Lemma insert_sorted_sorted x l : StronglySorted more_used l → StronglySorted more_used (insert_sorted x l).
Proof.
  induction 1 as [|y l Hl IH Hy]; cbn [insert_sorted]; [by repeat constructor|].
  destruct (Nat.ltb_spec y.2 x.2).
  - constructor; [by constructor|]. constructor; [unfold more_used; lia|].
    eapply Forall_impl; [exact Hy|]. unfold more_used. intros z. cbn. lia.
  - constructor; [done|]. rewrite insert_sorted_perm. by constructor.
Qed.

Lemma stable_sort_spec l : stable_sort l ≡ₚ l ∧ StronglySorted more_used (stable_sort l).
Proof.
  unfold stable_sort. induction l as [|x l [IHp IHs]] using rev_ind; [split; constructor|].
  rewrite foldl_app. cbn [foldl]. split; [|by apply insert_sorted_sorted].
  rewrite insert_sorted_perm, IHp. apply Permutation_cons_append.
Qed.

Definition twice (x : bytes * nat) : bool := 2 <=? x.2.

Lemma worst_spec l offenders :
  StronglySorted more_used l → length offenders < 2 →
  worst l offenders = offenders ++ (take (2 - length offenders) (List.filter twice l)).*1.
Proof.
  intros Hs. revert offenders. induction Hs as [|[gram count] l Hl IH Hx]; intros offenders Ho; cbn [worst List.filter].
  { by rewrite take_nil, app_nil_r. }
  unfold twice at 1. cbn [snd]. destruct (Nat.ltb_spec count 2).
  - rewrite (proj2 (Nat.leb_gt _ _)) by lia.
    assert (List.filter twice l = []) as ->; [|by rewrite take_nil, app_nil_r].
    clear -Hx H. induction Hx as [|y l Hy _ IH]; [done|]. cbn. unfold twice, more_used in *. cbn in Hy.
    by rewrite (proj2 (Nat.leb_gt _ _)) by lia.
  - rewrite (proj2 (Nat.leb_le _ _)) by lia. rewrite length_app. cbn [length].
    destruct (Nat.eqb_spec (length offenders + 1) 2) as [E|E].
    + by replace (2 - length offenders) with 1 by lia.
    + rewrite IH by (rewrite length_app; cbn; lia). rewrite length_app. cbn [length].
      replace (2 - length offenders) with (S (2 - (length offenders + 1))) by lia.
      cbn [take fmap list_fmap fst]. by rewrite <- app_assoc.
Qed.

Lemma elem_of_filter_list {A} (P : A → bool) x l : x ∈ List.filter P l ↔ x ∈ l ∧ P x = true.
Proof. by rewrite !list_elem_of_In, filter_In. Qed.

Lemma filter_sorted P l : StronglySorted more_used l → StronglySorted more_used (List.filter P l).
Proof.
  induction 1 as [|x l Hl IH Hx]; [constructor|]. cbn. case_bool; [|done].
  constructor; [done|]. apply Forall_forall. intros y [Hy _]%elem_of_filter_list. by rewrite Forall_forall in Hx; apply Hx.
Qed.

Lemma filter_keys (P : bytes * nat → bool) l : NoDup l.*1 → NoDup (List.filter P l).*1.
Proof.
  induction l as [|[g m] l IH]; intros H; [constructor|]. cbn in H. apply NoDup_cons in H as [Hn Hd].
  cbn. case_bool; [|by apply IH].
  cbn. apply NoDup_cons. split; [|by apply IH]. intros ([y n] & Hg & [Hy _]%elem_of_filter_list)%list_elem_of_fmap.
  apply Hn. cbn in Hg. subst. by apply (list_elem_of_fmap_2 fst l (y, n)).
Qed.

(** * The steering note *)

Lemma add_ban_le condition ban bans : length bans <= 3 → length (add_ban condition ban bans) <= 3.
Proof.
  intros H. unfold add_ban. destruct (Nat.ltb_spec (length bans) 3); rewrite ?andb_false_r; [|done].
  case_bool; [rewrite length_app; cbn; lia|done].
Qed.

Lemma turn_bans_le recent : length (turn_bans recent) <= 3.
Proof.
  unfold turn_bans. cbv zeta.
  assert (∀ phrases bans, length bans <= 3 → length (foldl (λ bans gram, add_ban true (phrase_ban gram) bans) bans phrases) <= 3) as Hf.
  { induction phrases as [|g gs IH]; intros bans H; cbn; [done|]. by apply IH, add_ban_le. }
  apply Hf. destruct (last_two recent) as [[r p]|]; repeat apply add_ban_le; cbn; lia.
Qed.

Lemma utf8_cut_le text e : utf8_cut text e <= e.
Proof. induction e as [|e IH]; cbn [utf8_cut]; [done|]. case_bool; lia. Qed.

Lemma utf8_prefix_le text n : length (utf8_prefix text n) <= n.
Proof.
  unfold utf8_prefix. destruct (Nat.leb_spec (length text) n); [done|].
  rewrite length_take. pose proof (utf8_cut_le text n). lia.
Qed.

(** The loop over [decode_utf8] sees the code points of a text: of any bytes
    it makes consecutive, non-overlapping pieces that cover them, and of an
    encoded text exactly its code points. *)
Theorem codepoints_spec text :
  concat (map snd (codepoints (length text) text 0)) = text ∧
  ∀ cps, Forall is_code_point cps → text = encode_all cps →
    codepoints (length text) text 0 = map (λ cp, (cp, encode_utf8 cp)) cps.
Proof.
  split; [by rewrite codepoints_concat by lia|]. intros cps Hcps ->. by apply (codepoints_app []).
Qed.

(** The quoted prefix of a message is cut between characters: of an encoded
    text it is the encoding of a prefix, at most [max_bytes] long, and longer by
    the next character would be too long. *)
Theorem utf8_prefix_spec cps max_bytes :
  Forall is_code_point cps →
  ∃ l r, cps = l ++ r ∧ utf8_prefix (encode_all cps) max_bytes = encode_all l ∧
    length (encode_all l) <= max_bytes ∧
    match r with [] => True | cp :: _ => max_bytes < length (encode_all l) + length (encode_utf8 cp) end.
Proof.
  intros Hcps. unfold utf8_prefix. destruct (Nat.leb_spec (length (encode_all cps)) max_bytes) as [Hl|Hl].
  { exists cps, []. by rewrite app_nil_r. }
  destruct (position_split cps max_bytes Hl) as (l & cp & r & j & -> & -> & Hj).
  exists l, (cp :: r). rewrite encode_all_app. unfold encode_all at 2 4. cbn [map concat].
  apply Forall_app in Hcps as [_ Hcps]. apply Forall_cons in Hcps as [Hcp _].
  destruct (encode_utf8_shape cp Hcp) as (c & tail & E & Hc & Ht). rewrite E in *. cbn [length] in Hj.
  rewrite (utf8_cut_inside (encode_all l) c tail j) by (try done; lia). rewrite take_app_length.
  split_and!; [done|done|lia|cbn; lia].
Qed.

(** A cleaned reply cannot restart the model's bad habits: it contains no
    special-token opener and no paragraph break, not even one put together by the
    removal of something between, and neither end is blank. *)
Theorem sanitize_clean text :
  find_sub special_token (sanitize_assistant_text text) = None ∧
  find_sub paragraph_break (sanitize_assistant_text text) = None ∧
  (∀ c, head (sanitize_assistant_text text) = Some c → not_blank c) ∧
  (∀ c, last (sanitize_assistant_text text) = Some c → not_blank c).
Proof.
  split; [|split; [|apply collapse_spaces_ends]].
  - apply (find_sub_adjacent (ch "<") (ch "|")). intros H%clean_adjacent; [|done..].
    apply cut_adjacent in H. by apply (cut_at_adjacent (ch "<") (ch "|")) in H.
  - apply (find_sub_adjacent 10 10). intros H%clean_adjacent; [|done..]. by apply cut_at_adjacent in H.
Qed.

(** The phrases banned as repeated are the most used ones: at most two,
    different, each used in two or more distinct replies; and a phrase used
    that often is only left out when two are banned that are used at least as
    often. *)
Theorem repeated_phrases_spec replies :
  length (repeated_phrases replies) <= 2 ∧ NoDup (repeated_phrases replies) ∧
  ∀ gram,
    (gram ∈ repeated_phrases replies → 2 <= uses replies gram) ∧
    (2 <= uses replies gram → gram ∉ repeated_phrases replies →
     length (repeated_phrases replies) = 2 ∧
     ∀ banned, banned ∈ repeated_phrases replies → uses replies gram <= uses replies banned).
Proof.
  destruct (phrase_counts_spec replies) as [Hd Hc]. destruct (stable_sort_spec (phrase_counts replies)) as [Hp Hs].
  unfold repeated_phrases. rewrite worst_spec by (try done; cbn; lia). cbn [app length].
  set (l := stable_sort (phrase_counts replies)) in *. set (f := List.filter twice l). change (2 - 0) with 2.
  assert (∀ gram n, (gram, n) ∈ f ↔ n = uses replies gram ∧ 2 <= n) as Hf.
  { intros gram n. unfold f. rewrite elem_of_filter_list. unfold twice. cbn [snd]. rewrite Nat.leb_le, Hp. split.
    - intros [Hin Hn]. split; [|done]. rewrite <- Hc. by rewrite (count_of_elem _ _ _ Hd Hin).
    - intros [-> Hn]. split; [|done]. rewrite <- Hc in *. apply elem_count_of. lia. }
  assert (StronglySorted more_used f) as Hsf by by apply filter_sorted.
  assert (NoDup f.*1) as Hdf by (apply filter_keys; rewrite Hp; done).
  assert (∀ x, x ∈ take 2 f → x ∈ f) as Htake.
  { intros x Hx. rewrite <- (take_drop 2 f). apply elem_of_app. by left. }
  clearbody f. split; [rewrite length_fmap, length_take; lia|]. split.
  { rewrite <- (take_drop 2 f), fmap_app in Hdf. by apply NoDup_app in Hdf as [? _]. }
  intros gram. split.
  - intros ([g n] & -> & Hin)%list_elem_of_fmap. by apply Htake, Hf in Hin as [-> ?].
  - intros Hu Hn. assert ((gram, uses replies gram) ∈ drop 2 f) as Hin.
    { assert ((gram, uses replies gram) ∈ take 2 f ++ drop 2 f) as H by (rewrite take_drop; by apply Hf).
      apply elem_of_app in H as [H|H]; [|done]. destruct Hn. by apply (list_elem_of_fmap_2 fst _ _ H). }
    split.
    { rewrite length_fmap, length_take. destruct (Nat.le_gt_cases 2 (length f)); [lia|].
      rewrite drop_ge in Hin by lia. by apply elem_of_nil in Hin. }
    intros banned ([b n] & -> & Hb)%list_elem_of_fmap. cbn [fst].
    rewrite <- (take_drop 2 f) in Hsf.
    pose proof (StronglySorted_app_1_elem_of _ _ _ _ _ Hsf Hb Hin) as Hm. unfold more_used in Hm. cbn in Hm.
    by apply Htake, Hf in Hb as [-> _].
Qed.

Lemma infix_between {A} (h u e v t : list A) : h ++ (u ++ e ++ v) ++ t = (h ++ u) ++ e ++ (v ++ t).
Proof. by rewrite <- !app_assoc. Qed.

Lemma infix_front {A} (a e b m t : list A) : (a ++ e ++ b) ++ m ++ t = a ++ e ++ (b ++ m ++ t).
Proof. by rewrite <- !app_assoc. Qed.

Lemma suffix_last {A} (h m a t : list A) : h ++ m ++ (a ++ t) = (h ++ m ++ a) ++ t.
Proof. by rewrite <- !app_assoc. Qed.

#[local] Opaque zh_pin zh_newest zh_answer english_pin english_newest english_answer quiet_pin switch_note.

(** Whatever the conversation, the note quotes at most 160 bytes of the
    message, without line breaks or double quotes, carries every extra
    instruction with at most three bans, and ends with the language pin of the
    newest message. *)
Theorem turn_anchor_shape latest_user recent :
  let extras := message_extras latest_user ++ turn_bans recent in
  let anchor := turn_anchor latest_user recent in
  length (turn_bans recent) <= 3 ∧
  length (snippet_of latest_user) <= 160 ∧ Forall (λ c, c ≠ 10 ∧ c ≠ 34)%Z (snippet_of latest_user) ∧
  (∀ extra, extra ∈ extras → ∃ u v, anchor = u ++ extra ++ v) ∧
  (extras ≠ [] → ∃ u v, anchor = u ++ snippet_of latest_user ++ v) ∧
  ∃ u, anchor = u ++ (if mostly_cjk latest_user then zh_pin else
                      if bool_decide (anchor = quiet_pin) then quiet_pin else english_pin).
Proof.
  cbv zeta. split; [apply turn_bans_le|]. split.
  { unfold snippet_of, replace_char. rewrite !length_map. apply utf8_prefix_le. }
  split.
  { unfold snippet_of, replace_char. rewrite map_map. apply Forall_forall. intros c (x & <- & _)%list_elem_of_In%in_map_iff.
    destruct (x =b 10) eqn:E1; [split; vm_compute; discriminate|].
    destruct (x =b 34) eqn:E2; [split; vm_compute; discriminate|]. lia. }
  unfold turn_anchor. cbv zeta. set (extras := message_extras latest_user ++ turn_bans recent).
  assert (∀ extra, extra ∈ extras → ∃ u v, concat (map (λ extra, str " " ++ extra) extras) = u ++ extra ++ v) as He.
  { clearbody extras. induction extras as [|x extras IH]; intros extra Hin; [by apply elem_of_nil in Hin|].
    cbn [map concat]. apply elem_of_cons in Hin as [->|Hin].
    - eexists (str " "), _. by rewrite <- app_assoc.
    - destruct (IH extra Hin) as (u & v & ->). exists ((str " " ++ x) ++ u), v. by rewrite <- !app_assoc. }
  destruct (bool_decide (extras = []) && _) eqn:Hq.
  - apply andb_true_iff in Hq as [->%bool_decide_eq_true _]. split; [by intros ? ?%elem_of_nil|]. split; [done|].
    exists []. destruct (mostly_cjk latest_user); [done|]. by rewrite bool_decide_true.
  - set (head := if mostly_cjk latest_user then _ else _). set (tail := if mostly_cjk latest_user then str " " ++ _ else _).
    split; [|split].
    + intros extra Hin. destruct (He extra Hin) as (u & v & ->). exists (head ++ u), (v ++ tail). apply infix_between.
    + intros _. subst head. destruct (mostly_cjk latest_user); eexists _, _; apply infix_front.
    + subst tail. destruct (mostly_cjk latest_user); [eexists; apply suffix_last|].
      rewrite bool_decide_false; [eexists; apply suffix_last|]. rewrite suffix_last.
      intros Ha%(f_equal (λ s, drop (length s - length english_pin) s)).
      rewrite length_app, Nat.add_sub, drop_app_length in Ha. by vm_compute in Ha.
Qed.

Definition sample_message : list Z := [104; 105; 0x4F60; 0x597D; 33]%Z.

Lemma utf8_prefix_spec_witness :
  utf8_prefix (encode_all sample_message) 6 = encode_all [104; 105; 0x4F60]%Z ∧
  ∃ l r, sample_message = l ++ r ∧ utf8_prefix (encode_all sample_message) 6 = encode_all l ∧
    length (encode_all l) <= 6 ∧
    match r with [] => True | cp :: _ => 6 < length (encode_all l) + length (encode_utf8 cp) end.
Proof.
  split; [by vm_compute|]. apply (utf8_prefix_spec sample_message 6).
  repeat (apply Forall_cons; split; [unfold is_code_point; lia|]); by apply Forall_nil.
Defined.
