(* ===== verification/ChunkedBody.v ===== *)
(** The incremental request body (class [ChunkedSocketStreambuf] of
    app/server/http.cpp) and the chunked response writer
    ([ChunkedHttpStreamWriter]): de-framing of HTTP/1.1 chunks off a socket,
    bounded in time and size, and its round trip with the writer. *)

From S2P Require Import Prelude.

(** * Chunk sizes *)

Section sizes.
Local Open Scope Z_scope.

Definition hex_value (digit : Z) : option Z :=
  if (ch "0" <=? digit) && (digit <=? ch "9") then Some (digit - ch "0")
  else if (ch "a" <=? digit) && (digit <=? ch "f") then Some (digit - ch "a" + 10)
  else if (ch "A" <=? digit) && (digit <=? ch "F") then Some (digit - ch "A" + 10)
  else None.

(** The digit loop of [next_chunk], on 64-bit unsigned words; [field] is quoted
    in the error. *)
Fixpoint parse_digits (field : bytes) (cap size : Z) (header : bytes) : outcome Z :=
  match header with
  | [] => Ok size
  | digit :: header' =>
      match hex_value digit with
      | None => Throw (str "chunked request body: invalid chunk size " ++ 34 :: field ++ [34])
      | Some value =>
          if cap / 16 <? size
          then Throw (str "chunked request body: chunk size exceeds the maximum")
          else
            let size := uwrap 64 (size * 16) in
            if uwrap 64 (cap - size) <? value
            then Throw (str "chunked request body: chunk size exceeds the maximum")
            else parse_digits field cap (uwrap 64 (size + value)) header'
      end
  end.

(** The writer's [std::hex << data.size()]. *)
Definition hex_digit (d : Z) : Z := if d <? 10 then ch "0" + d else ch "a" + (d - 10).

Fixpoint to_hex_loop (fuel : nat) (n : Z) (acc : bytes) : bytes :=
  match fuel with
  | O => acc
  | S fuel =>
      let acc := hex_digit (n mod 16) :: acc in
      if n / 16 =b 0 then acc else to_hex_loop fuel (n / 16) acc
  end.

(** Sixteen digits spell every 64-bit size. *)
Definition to_hex (n : Z) : bytes := to_hex_loop 16 n [].

(** The number a header's digits denote. *)
Definition hex_number (header : bytes) (v : Z) : Prop :=
  ∃ ds, map hex_value header = map Some ds ∧ be_value 16 ds = v.

End sizes.

(** * The stream buffer *)

Record LiveIngestLimits := {
  idle_timeout_ms : Z;
  total_timeout_ms : Z;
  max_body_bytes : Z;
  max_chunk_bytes : Z;
  send_timeout_ms : Z;
}.

Definition default_limits : LiveIngestLimits :=
  {| idle_timeout_ms := 30000; total_timeout_ms := 600000;
     max_body_bytes := 512 * 1024 * 1024; max_chunk_bytes := 8 * 1024 * 1024;
     send_timeout_ms := 30000 |}.

(** What the socket does when the body asks it for more: [poll] times out, the
    peer has closed, or [recv] delivers bytes. *)
Inductive net_event := Silent | Closed | Delivered (data : bytes).

(** [gptr() .. egptr()] is [window]; [ticks] and [recvs] count the clock readings
    and the receives so far. *)
Record streambuf := {
  pending_ : bytes;
  pending_pos_ : nat;
  chunk_ : bytes;
  chunk_pos_ : nat;
  window : bytes;
  received_bytes_ : Z;
  finished_ : bool;
  ticks : nat;
  recvs : nat;
}.

Definition make_streambuf (prefetched : bytes) : streambuf :=
  {| pending_ := prefetched; pending_pos_ := 0; chunk_ := []; chunk_pos_ := 0; window := [];
     received_bytes_ := Z.of_nat (length prefetched); finished_ := false; ticks := 0; recvs := 0 |}.

Definition kMaxLineBytes : nat := 8 * 1024.
Definition kMaxTrailerBytes : nat := 8 * 1024.
Definition kWindowBytes : nat := 64 * 1024.
(** The literal of [next_chunk]'s compaction test. *)
Definition kCompactBytes : nat := 64 * 1024.
#[global] Opaque kMaxLineBytes kMaxTrailerBytes kWindowBytes kCompactBytes.

Definition crlf : bytes := [13; 10]%Z.

Section reader.
(** [clock n] is the [n]-th reading of the milliseconds since the stream was
    opened, [net n] the outcome of the [n]-th receive. *)
Context (clock : nat → Z) (net : nat → net_event) (limits_ : LiveIngestLimits).

Notation run A := (prog streambuf A).

Definition read_clock : run Z := λ s,
  Ok (clock (ticks s),
      {| pending_ := pending_ s; pending_pos_ := pending_pos_ s; chunk_ := chunk_ s;
         chunk_pos_ := chunk_pos_ s; window := window s; received_bytes_ := received_bytes_ s;
         finished_ := finished_ s; ticks := S (ticks s); recvs := recvs s |}).

Definition next_event : run net_event := λ s,
  Ok (net (recvs s),
      {| pending_ := pending_ s; pending_pos_ := pending_pos_ s; chunk_ := chunk_ s;
         chunk_pos_ := chunk_pos_ s; window := window s; received_bytes_ := received_bytes_ s;
         finished_ := finished_ s; ticks := ticks s; recvs := S (recvs s) |}).

Definition append_received (data : bytes) : run () := λ s,
  Ok (tt,
      {| pending_ := pending_ s ++ data; pending_pos_ := pending_pos_ s; chunk_ := chunk_ s;
         chunk_pos_ := chunk_pos_ s; window := window s;
         received_bytes_ := received_bytes_ s + Z.of_nat (length data);
         finished_ := finished_ s; ticks := ticks s; recvs := recvs s |}).

Definition set_pos (pos : nat) : run () := λ s,
  Ok (tt,
      {| pending_ := pending_ s; pending_pos_ := pos; chunk_ := chunk_ s;
         chunk_pos_ := chunk_pos_ s; window := window s; received_bytes_ := received_bytes_ s;
         finished_ := finished_ s; ticks := ticks s; recvs := recvs s |}).

Definition set_finished : run () := λ s,
  Ok (tt,
      {| pending_ := pending_ s; pending_pos_ := pending_pos_ s; chunk_ := chunk_ s;
         chunk_pos_ := chunk_pos_ s; window := window s; received_bytes_ := received_bytes_ s;
         finished_ := true; ticks := ticks s; recvs := recvs s |}).

Definition set_window (pos : nat) (w : bytes) : run () := λ s,
  Ok (tt,
      {| pending_ := pending_ s; pending_pos_ := pending_pos_ s; chunk_ := chunk_ s;
         chunk_pos_ := pos; window := w; received_bytes_ := received_bytes_ s;
         finished_ := finished_ s; ticks := ticks s; recvs := recvs s |}).

(** [chunk_.assign(...)], skipping the trailing CRLF and compacting. *)
Definition take_chunk (size : nat) : run () := λ s,
  let pos := pending_pos_ s + (size + 2) in
  let compact := kCompactBytes <? pos in
  Ok (tt,
      {| pending_ := if compact then drop pos (pending_ s) else pending_ s;
         pending_pos_ := if compact then 0 else pos;
         chunk_ := substr (pending_ s) (pending_pos_ s) size;
         chunk_pos_ := 0; window := []; received_bytes_ := received_bytes_ s;
         finished_ := finished_ s; ticks := ticks s; recvs := recvs s |}).

Definition require_within_body_cap : run () :=
  s ← get_state;
  if ((0 <? max_body_bytes limits_) && (max_body_bytes limits_ <? received_bytes_ s))%Z
  then throw (str "live request body exceeded its maximum size") else mret tt.

Definition require_within_deadline : run () :=
  if (total_timeout_ms limits_ <=? 0)%Z then mret tt
  else
    elapsed ← read_clock;
    if (total_timeout_ms limits_ <=? elapsed)%Z
    then throw (str "live request body exceeded its total deadline") else mret tt.

(** [recv] follows a successful wait at once: one event answers both. *)
Definition wait_readable : run (bool * net_event) :=
  let poll (wait_ms : Z) : run (bool * net_event) :=
    e ← next_event;
    if (wait_ms <=? 0)%Z then mret (true, e)
    else mret (match e with Silent => false | _ => true end, e) in
  if (0 <? total_timeout_ms limits_)%Z then
    elapsed ← read_clock;
    let remaining := (total_timeout_ms limits_ - elapsed)%Z in
    if (remaining <=? 0)%Z then mret (false, Silent)
    else poll (if (idle_timeout_ms limits_ <=? 0)%Z then remaining
               else Z.min (idle_timeout_ms limits_) remaining)
  else poll (idle_timeout_ms limits_).

Definition receive_more : run bool :=
  require_within_deadline;;
  r ← wait_readable;
  if negb r.1 then
    require_within_deadline;;
    throw (str "live request body stalled: no data within the idle timeout")
  else
    require_within_deadline;;
    match r.2 with
    | Delivered (c :: data) =>
        append_received (c :: data);; require_within_body_cap;; mret true
    | _ => mret false
    end.

(** [while (pending_.size() - pending_pos_ < count)]; [count] receives suffice. *)
Fixpoint ensure_available_loop (fuel count : nat) : run bool :=
  s ← get_state;
  if length (pending_ s) - pending_pos_ s <? count then
    match fuel with
    | O => throw (str "out of fuel")
    | S fuel =>
        more ← receive_more;
        if more : bool then ensure_available_loop fuel count else mret false
    end
  else mret true.

Definition ensure_available (count : nat) : run bool := ensure_available_loop count count.

(** The [for (;;)] of [read_line]: [None] is [return false]. *)
Fixpoint read_line_loop (fuel : nat) : run (option bytes) :=
  s ← get_state;
  match find_from crlf (pending_ s) (pending_pos_ s) with
  | Some eol =>
      if kMaxLineBytes <? eol - pending_pos_ s
      then throw (str "chunked request body: oversized chunk header")
      else
        let line := substr (pending_ s) (pending_pos_ s) (eol - pending_pos_ s) in
        set_pos (eol + 2);; mret (Some line)
  | None =>
      if kMaxLineBytes <? length (pending_ s) - pending_pos_ s
      then throw (str "chunked request body: oversized chunk header")
      else
        match fuel with
        | O => throw (str "out of fuel")
        | S fuel =>
            more ← receive_more;
            if more : bool then read_line_loop fuel else mret None
        end
  end.

Definition read_line : run (option bytes) := read_line_loop (S kMaxLineBytes).

(** The trailer section; a non-empty line costs at least one of its 8192 bytes. *)
Fixpoint skip_trailers (fuel trailer_bytes : nat) : run () :=
  line ← read_line;
  match line with
  | None => throw (str "chunked request body: connection closed inside the trailer")
  | Some [] => mret tt
  | Some trailer =>
      let trailer_bytes := trailer_bytes + length trailer in
      if kMaxTrailerBytes <? trailer_bytes
      then throw (str "chunked request body: trailer section too large")
      else match fuel with
           | O => throw (str "out of fuel")
           | S fuel => skip_trailers fuel trailer_bytes
           end
  end.

Definition publish_window : run bool :=
  s ← get_state;
  if length (chunk_ s) <=? chunk_pos_ s then mret false
  else
    require_within_deadline;;
    let n := Nat.min kWindowBytes (length (chunk_ s) - chunk_pos_ s) in
    set_window (chunk_pos_ s + n) (substr (chunk_ s) (chunk_pos_ s) n);; mret true.

Definition chunk_cap : Z :=
  if (0 <? max_chunk_bytes limits_)%Z then max_chunk_bytes limits_
  else max_chunk_bytes default_limits.

(** The size line without its extension, trimmed. *)
Definition size_field (header : bytes) : bytes :=
  trim (match find_sub (str ";") header with
        | Some extension => take extension header
        | None => header
        end).

Definition parse_size (header : bytes) : outcome Z :=
  match size_field header with
  | [] => Throw (str "chunked request body: empty chunk size")
  | digits => parse_digits digits chunk_cap 0 digits
  end.

Definition next_chunk : run bool :=
  s ← get_state;
  if finished_ s then mret false
  else
    require_within_deadline;;
    line ← read_line;
    match line with
    | None => throw (str "chunked request body: connection closed before the terminating chunk")
    | Some header =>
        match parse_size header with
        | Throw e => throw e
        | Ok size =>
            if size =b 0 then set_finished;; skip_trailers kMaxTrailerBytes 0;; mret false
            else
              let size := Z.to_nat size in
              available ← ensure_available (size + 2);
              if negb available then throw (str "chunked request body: connection closed mid-chunk")
              else
                s ← get_state;
                if bool_decide (substr (pending_ s) (pending_pos_ s + size) 2 = crlf)
                then take_chunk size;; publish_window;; mret true
                else throw (str "chunked request body: chunk data not terminated by CRLF")
        end
    end.

(** [underflow]: whether bytes are available, or the body has ended. *)
Definition underflow : run bool :=
  s ← get_state;
  match window s with
  | _ :: _ => mret true
  | [] =>
      require_within_body_cap;;
      published ← publish_window;
      if published : bool then mret true else next_chunk
  end.

(** A consumer that drains the stream window by window; [None] is out of fuel. *)
Fixpoint read_all (fuel : nat) : run (option bytes) :=
  match fuel with
  | O => mret None
  | S fuel =>
      more ← underflow;
      if more : bool then
        s ← get_state;
        set_window (chunk_pos_ s) [];;
        rest ← read_all fuel;
        mret (app (window s) <$> rest)
      else mret (Some [])
  end.

End reader.

(** * The writer *)

(** [ChunkedHttpStreamWriter::write] and [finish], as the bytes they send. *)
Definition write (data : bytes) : bytes :=
  match data with
  | [] => []
  | _ => to_hex (Z.of_nat (length data)) ++ crlf ++ data ++ crlf
  end.

Definition finish : bytes := str "0" ++ crlf ++ crlf.

(** * Chunk sizes are read exactly *)

Section size_facts.
Local Open Scope Z_scope.

Lemma hex_value_range c v : hex_value c = Some v → 0 <= v < 16.
Proof. unfold hex_value. eval_ch. repeat case_bool; intros; simplify_eq; lia. Qed.

Lemma parse_digits_cons field cap size digit header :
  0 <= size <= cap → cap < 2 ^ 64 →
  parse_digits field cap size (digit :: header) =
    match hex_value digit with
    | None => Throw (str "chunked request body: invalid chunk size " ++ 34 :: field ++ [34])
    | Some v => if size * 16 + v <=? cap then parse_digits field cap (size * 16 + v) header
                else Throw (str "chunked request body: chunk size exceeds the maximum")
    end.
Proof.
  intros Hs Hc. cbn [parse_digits]. destruct (hex_value digit) as [v|] eqn:Hv; [|done].
  apply hex_value_range in Hv. unfold uwrap.
  destruct (Z.ltb_spec (cap / 16) size).
  { rewrite (proj2 (Z.leb_gt _ _)); [done|]. Z.to_euclidean_division_equations; lia. }
  assert (size * 16 <= cap) by (Z.to_euclidean_division_equations; lia).
  rewrite !(Z.mod_small (size * 16)) by lia. rewrite (Z.mod_small (cap - size * 16)) by lia.
  destruct (Z.ltb_spec (cap - size * 16) v).
  { by rewrite (proj2 (Z.leb_gt _ _)) by lia. }
  rewrite (proj2 (Z.leb_le _ _)), Z.mod_small by lia. done.
Qed.

(** Exactly the digit strings whose number is within the cap are accepted. *)
Lemma parse_digits_ok field cap size header v :
  0 <= size <= cap → cap < 2 ^ 64 →
  parse_digits field cap size header = Ok v ↔
  ∃ ds, map hex_value header = map Some ds ∧
        v = size * 16 ^ Z.of_nat (length ds) + be_value 16 ds ∧ v <= cap.
Proof.
  revert size. induction header as [|c header IH]; intros size Hs Hc.
  - cbn. split.
    + intros [= <-]. exists []. cbn. repeat split; lia.
    + intros (ds & E & -> & _). destruct ds; [|done]. cbn. f_equal. lia.
  - rewrite parse_digits_cons by done. cbn [map]. destruct (hex_value c) as [d|] eqn:Hd.
    2: { split; [done|]. intros (ds & E & _). by destruct ds. }
    pose proof (hex_value_range _ _ Hd) as Hr.
    assert (∀ ds, size * 16 ^ Z.of_nat (length (d :: ds)) + be_value 16 (d :: ds) =
            (size * 16 + d) * 16 ^ Z.of_nat (length ds) + be_value 16 ds) as Heq.
    { intros ds. change (d :: ds) with ([d] ++ ds). rewrite be_value_app. cbn [app length].
      rewrite Nat2Z.inj_succ, Z.pow_succ_r by lia. change (be_value 16 [d]) with d. ring. }
    destruct (Z.leb_spec (size * 16 + d) cap) as [Hle|Hgt].
    + rewrite IH by lia. split.
      * intros (ds & E & -> & Hv). exists (d :: ds). rewrite Heq. cbn. by rewrite E.
      * intros (ds & E & -> & Hv). destruct ds as [|d' ds]; [done|]. injection E as -> E.
        exists ds. rewrite Heq in *. auto.
    + split; [done|]. intros (ds & E & -> & Hv). destruct ds as [|d' ds]; [done|].
      injection E as -> E. rewrite Heq in Hv. exfalso.
      assert (Forall (λ x, 0 <= x < 16) ds) as Hf.
      { clear -E. revert header E. induction ds as [|x ds IH]; intros [|c header] E; try done.
        injection E as E1 E2. constructor; [by eapply hex_value_range|by eapply IH]. }
      pose proof (be_value_range 16 ds ltac:(lia) Hf). 
      assert (0 < 16 ^ Z.of_nat (length ds)) by (apply Z.pow_pos_nonneg; lia).
      nia.
Qed.

Lemma hex_value_digit d : 0 <= d < 16 → hex_value (hex_digit d) = Some d.
Proof.
  intros Hd. unfold hex_digit, hex_value. eval_ch.
  destruct (Z.ltb_spec d 10); repeat case_bool; f_equal; lia.
Qed.

(** What printing in base 16 produces. *)
Lemma to_hex_loop_spec fuel n acc :
  0 <= n < 16 ^ Z.of_nat fuel → (0 < fuel)%nat →
  ∃ ds, to_hex_loop fuel n acc = map hex_digit ds ++ acc ∧ ds ≠ [] ∧
        Forall (λ d, 0 <= d < 16) ds ∧ be_value 16 ds = n.
Proof.
  revert n acc. induction fuel as [|fuel IH]; intros n acc Hn Hf; [lia|].
  cbn [to_hex_loop]. assert (0 <= n mod 16 < 16) by (apply Z.mod_pos_bound; lia).
  destruct (n / 16 =b 0) eqn:E.
  - exists [n mod 16]. split; [done|]. split; [done|]. split; [by apply Forall_singleton|].
    apply Z.eqb_eq in E. unfold be_value. cbn [fold_left].
    Z.to_euclidean_division_equations; lia.
  - apply Z.eqb_neq in E. rewrite Nat2Z.inj_succ, Z.pow_succ_r in Hn by lia.
    assert (0 <= n / 16 < 16 ^ Z.of_nat fuel) by (Z.to_euclidean_division_equations; nia).
    destruct (IH (n / 16) (hex_digit (n mod 16) :: acc)) as (ds & Hl & Hne & Hds & Hv); [done| |].
    { destruct fuel; [cbn in *; lia|lia]. }
    exists (ds ++ [n mod 16]). rewrite Hl, map_app, <- app_assoc. split; [done|].
    split; [by destruct ds|]. split; [by apply Forall_app; rewrite Forall_singleton|].
    rewrite be_value_snoc, Hv. pose proof (Z.div_mod n 16). lia.
Qed.

Lemma to_hex_spec n :
  0 <= n < 2 ^ 64 →
  ∃ ds, to_hex n = map hex_digit ds ∧ ds ≠ [] ∧ Forall (λ d, 0 <= d < 16) ds ∧ be_value 16 ds = n.
Proof.
  intros Hn. destruct (to_hex_loop_spec 16 n []) as (ds & E & H); [cbn; cbn in Hn; lia|lia|].
  exists ds. unfold to_hex. by rewrite E, app_nil_r.
Qed.

Lemma to_hex_length n : (length (to_hex n) <= 16)%nat.
Proof.
  unfold to_hex. assert (∀ fuel n acc, (length (to_hex_loop fuel n acc) <= fuel + length acc)%nat) as H.
  { induction fuel as [|fuel IH]; intros m acc; cbn [to_hex_loop]; [lia|]. destruct (_ =b 0); [cbn; lia|].
    etrans; [apply IH|]. cbn. lia. }
  etrans; [apply H|]. cbn. lia.
Qed.

End size_facts.

(** * The framing of a body *)

(** A line is read up to its first CRLF and is at most [kMaxLineBytes] long. *)
Definition line_ok (line : bytes) : Prop :=
  find_sub crlf (line ++ crlf) = Some (length line) ∧ length line <= kMaxLineBytes.

(** The bytes of a complete body and the chunks it carries. *)
Inductive frames (limits : LiveIngestLimits) : bytes → list bytes → Prop :=
| frames_end header trailers :
    line_ok header → parse_size limits header = Ok 0%Z →
    Forall (λ t, line_ok t ∧ t ≠ []) trailers →
    frames limits (header ++ crlf ++ concat (map (λ t, t ++ crlf) trailers) ++ crlf) []
| frames_chunk header data wire chunks :
    line_ok header → parse_size limits header = Ok (Z.of_nat (length data)) → data ≠ [] →
    frames limits wire chunks →
    frames limits (header ++ crlf ++ data ++ crlf ++ wire) (data :: chunks).

Section facts.
Context (clock : nat → Z) (net : nat → net_event) (limits : LiveIngestLimits).

Definition event_data (e : net_event) : bytes :=
  match e with Delivered d => d | _ => [] end.

(** Everything the first [n] receives delivered. *)
Definition delivered (n : nat) : bytes := concat (map (event_data ∘ net) (seq 0 n)).

Definition unread (s : streambuf) : bytes := drop (pending_pos_ s) (pending_ s).

(** From [s] to [s'] exactly [used] was consumed from the connection. *)
Definition advances (s : streambuf) (used : bytes) (s' : streambuf) : Prop :=
  ∃ fresh, delivered (recvs s') = delivered (recvs s) ++ fresh ∧
           unread s ++ fresh = used ++ unread s'.

(** The part of the state that de-framing alone does not touch. *)
Definition same_body (s s' : streambuf) : Prop :=
  chunk_ s' = chunk_ s ∧ chunk_pos_ s' = chunk_pos_ s ∧ window s' = window s ∧
  finished_ s' = finished_ s.

Lemma delivered_S n : delivered (S n) = delivered n ++ event_data (net n).
Proof.
  unfold delivered. rewrite seq_S, map_app, concat_app. cbn. by rewrite app_nil_r.
Qed.

Lemma advances_refl s : advances s [] s.
Proof. exists []. by rewrite !app_nil_r. Qed.

Lemma advances_trans s u s1 v s2 :
  advances s u s1 → advances s1 v s2 → advances s (u ++ v) s2.
Proof.
  intros (f1 & D1 & E1) (f2 & D2 & E2). exists (f1 ++ f2).
  rewrite D2, D1, app_assoc. split; [done|].
  by rewrite app_assoc, E1, <- !app_assoc, E2.
Qed.

Lemma advances_more s s1 v s2 : advances s [] s1 → advances s1 v s2 → advances s v s2.
Proof. intros H1 H2. change v with ([] ++ v). by eapply advances_trans. Qed.

Lemma same_body_trans s s1 s2 : same_body s s1 → same_body s1 s2 → same_body s s2.
Proof. intros (?&?&?&?) (?&?&?&?). repeat split; congruence. Qed.

(** A step that only reads the clock. *)
Definition idle (s s' : streambuf) : Prop :=
  pending_ s' = pending_ s ∧ pending_pos_ s' = pending_pos_ s ∧ recvs s' = recvs s ∧
  received_bytes_ s' = received_bytes_ s ∧ same_body s s'.

Lemma idle_refl s : idle s s.
Proof. repeat split. Qed.

Lemma idle_advances s s' : idle s s' → advances s [] s'.
Proof.
  intros (Hp & Hq & Hr & _). exists []. unfold unread. rewrite Hp, Hq, Hr. by rewrite !app_nil_r.
Qed.

Lemma idle_trans s s1 s2 : idle s s1 → idle s1 s2 → idle s s2.
Proof.
  unfold idle. intros (?&?&?&?&Hb) (?&?&?&?&Hb').
  pose proof (same_body_trans _ _ _ Hb Hb'). split_and!; congruence || done.
Qed.

Lemma deadline_ok s u s' :
  require_within_deadline clock limits s = Ok (u, s') →
  idle s s' ∧ ((0 < total_timeout_ms limits)%Z → ∃ n, (clock n < total_timeout_ms limits)%Z ∧ ticks s <= n < ticks s').
Proof.
  unfold require_within_deadline. destruct (Z.leb_spec (total_timeout_ms limits) 0) as [Hz|Hz]; intros H.
  - prog_inv. split; [apply idle_refl|lia].
  - prog_inv. unfold read_clock in *. simplify_eq. cbn in *.
    destruct (Z.leb_spec (total_timeout_ms limits) (clock (ticks s))); [done|]. prog_inv.
    split; [repeat split|]. intros _. exists (ticks s). cbn. lia.
Qed.

Lemma body_cap_ok s u s' :
  require_within_body_cap limits s = Ok (u, s') →
  s' = s ∧ ((0 < max_body_bytes limits)%Z → (received_bytes_ s <= max_body_bytes limits)%Z).
Proof.
  unfold require_within_body_cap. intros H. prog_inv.
  destruct (_ && _) eqn:E; [done|]. prog_inv. split; [done|]. lia.
Qed.

(** One event is taken off the connection. *)
Definition bumped (s s' : streambuf) : Prop :=
  pending_ s' = pending_ s ∧ pending_pos_ s' = pending_pos_ s ∧ recvs s' = S (recvs s) ∧
  received_bytes_ s' = received_bytes_ s ∧ same_body s s'.

Lemma next_event_ok s e s' :
  next_event net s = Ok (e, s') → bumped s s' ∧ e = net (recvs s).
Proof. unfold next_event. intros [= <- <-]. repeat split. Qed.

Lemma wait_ok s b e s' :
  wait_readable clock net limits s = Ok ((b, e), s') →
  (idle s s' ∧ b = false) ∨ (bumped s s' ∧ e = net (recvs s) ∧ (b = false → e = Silent)).
Proof.
  assert (∀ w s0, (e' ← next_event net;
             if (w <=? 0)%Z then mret (true, e')
             else mret (match e' with Silent => false | _ => true end, e')) s0 = Ok ((b, e), s') →
           bumped s0 s' ∧ e = net (recvs s0) ∧ (b = false → e = Silent)) as Hpoll.
  { intros w s0 H. prog_inv.
    match goal with H : next_event _ _ = Ok _ |- _ => apply next_event_ok in H as [Hb ->] end.
    destruct (w <=? 0)%Z; prog_inv; (split; [done|]; split; [done|]); [done|].
    by destruct (net (recvs s0)). }
  unfold wait_readable. intros H. destruct (0 <? total_timeout_ms limits)%Z.
  - apply prog_bind_ok in H as (el & s1 & H1 & H).
    assert (idle s s1) as Hidle by (unfold read_clock in H1; simplify_eq; repeat split).
    destruct (total_timeout_ms limits - el <=? 0)%Z; [prog_inv; by left|]. right. apply Hpoll in H as (Hb & -> & Hs).
    destruct Hidle as (I1 & I2 & I3 & I4 & I5), Hb as (B1 & B2 & B3 & B4 & B5).
    rewrite <- I3. split; [|done]. pose proof (same_body_trans _ _ _ I5 B5).
    unfold bumped. split_and!; congruence || done.
  - right. by apply Hpoll in H.
Qed.

(** A receive keeps what was buffered and appends what was delivered. *)
Lemma receive_more_ok s b s' :
  pending_pos_ s <= length (pending_ s) →
  receive_more clock net limits s = Ok (b, s') →
  advances s [] s' ∧ same_body s s' ∧ pending_pos_ s' = pending_pos_ s ∧
  (∃ d, pending_ s' = pending_ s ++ d ∧ (b = true → d ≠ [])) ∧
  (b = true → (0 < max_body_bytes limits)%Z → (received_bytes_ s' <= max_body_bytes limits)%Z).
Proof.
  unfold receive_more. intros Hpos H.
  apply prog_bind_ok in H as (u1 & s1 & H1 & H). apply deadline_ok in H1 as [I1 _].
  apply prog_bind_ok in H as ([b' e] & s2 & H2 & H). cbn [fst snd] in H.
  apply wait_ok in H2. destruct b'; cbn [negb] in H; [|prog_inv].
  destruct H2 as [[_ [=]]|(B2 & He & _)].
  apply prog_bind_ok in H as (u3 & s3 & H3 & H). apply deadline_ok in H3 as [I3 _].
  destruct I1 as (P1 & Q1 & R1 & V1 & S1), B2 as (P2 & Q2 & R2 & V2 & S2), I3 as (P3 & Q3 & R3 & V3 & S3).
  pose proof (same_body_trans _ _ _ (same_body_trans _ _ _ S1 S2) S3) as S13.
  rewrite R1 in *. assert (event_data e = event_data (net (recvs s))) as Hd by (by rewrite He).
  destruct e as [| |[|c d]]; prog_inv; cbn in Hd.
  1-3: split_and!; try done; [exists []; unfold unread; rewrite R3, R2, delivered_S, <- Hd, P3, P2, P1, Q3, Q2, Q1, !app_nil_r; done
                    |congruence|exists []; rewrite app_nil_r; split; [congruence|done]].
  match goal with H : append_received _ _ = Ok _ |- _ => unfold append_received in H; simplify_eq end.
  match goal with H : require_within_body_cap _ _ = Ok _ |- _ => apply body_cap_ok in H as [-> Hcap] end.
  cbn in *. split_and!; [|apply S13|congruence|exists (c :: d); split; [congruence|done]|done].
  exists (c :: d). unfold unread. cbn [recvs pending_ pending_pos_]. rewrite R3, R2, delivered_S, <- Hd. split; [done|].
  rewrite P3, P2, P1, Q3, Q2, Q1, drop_app_le by done. done.
Qed.

(** * Every accepted body is framed *)

Definition in_range (s : streambuf) : Prop := pending_pos_ s <= length (pending_ s).

Lemma receive_more_range s b s' :
  in_range s → receive_more clock net limits s = Ok (b, s') → in_range s'.
Proof.
  unfold in_range. intros Hr H. apply receive_more_ok in H as (_ & _ & -> & (d & -> & _) & _); [|done].
  rewrite length_app. lia.
Qed.

(** What a successful read of a line has consumed. *)
Lemma take_line s eol :
  find_from crlf (pending_ s) (pending_pos_ s) = Some eol →
  eol - pending_pos_ s <= kMaxLineBytes →
  let line := substr (pending_ s) (pending_pos_ s) (eol - pending_pos_ s) in
  line_ok line ∧ eol + 2 <= length (pending_ s) ∧
  unread s = line ++ crlf ++ drop (eol + 2) (pending_ s).
Proof.
  intros (Hp & He & Hf)%find_from_Some Hmax. cbn zeta. unfold substr, unread.
  pose proof (find_sub_le _ _ _ Hf) as Hle. rewrite length_drop in Hle. change (length crlf) with 2 in Hle.
  pose proof (find_sub_split _ _ _ Hf) as Hs. change (length crlf) with 2 in Hs.
  rewrite drop_drop in Hs. replace (pending_pos_ s + (eol - pending_pos_ s + 2)) with (eol + 2) in Hs by lia.
  split; [|split; [lia|done]].
  assert (length (take (eol - pending_pos_ s) (drop (pending_pos_ s) (pending_ s))) = eol - pending_pos_ s) as Hlen
    by (rewrite length_take, length_drop; lia).
  split; [|by rewrite Hlen]. rewrite Hlen.
  apply find_sub_take in Hf. change (length crlf) with 2 in Hf.
  rewrite Hs in Hf at 1. rewrite app_assoc, take_app_le, take_ge in Hf;
    [done|rewrite length_app, Hlen; cbn; lia..].
Qed.

Lemma read_line_loop_ok fuel s line s' :
  in_range s → read_line_loop clock net limits fuel s = Ok (Some line, s') →
  line_ok line ∧ advances s (line ++ crlf) s' ∧ same_body s s' ∧ in_range s'.
Proof.
  revert s. induction fuel as [|fuel IH]; intros s Hr H; cbn [read_line_loop] in H;
    apply prog_bind_ok in H as (s0 & s1 & H0 & H); unfold get_state in H0; injection H0 as <- <-;
    destruct (find_from crlf (pending_ s) (pending_pos_ s)) as [eol|] eqn:Hf.
  1, 3: destruct (Nat.ltb_spec kMaxLineBytes (eol - pending_pos_ s)); [done|];
    apply take_line in Hf as (Hl & Hle & Hu); [|done];
    prog_inv; unfold set_pos in *; simplify_eq;
    (split; [done|]); (split; [|split; [done|unfold in_range; cbn; lia]]);
    exists []; rewrite !app_nil_r; (split; [done|]); by rewrite Hu, <- app_assoc.
  - by destruct (_ <? _).
  - destruct (_ <? _); [done|].
    apply prog_bind_ok in H as (more & s1 & H1 & H). destruct more; [|prog_inv].
    pose proof (receive_more_range _ _ _ Hr H1) as Hr1.
    apply receive_more_ok in H1 as (Ha & Hb & _); [|done].
    destruct (IH s1 Hr1 H) as (Hl & Ha' & Hb' & Hr').
    split; [done|]. split; [by eapply advances_more|]. split; [by eapply same_body_trans|done].
Qed.

Lemma ensure_ok fuel count s s' :
  in_range s → ensure_available_loop clock net limits fuel count s = Ok (true, s') →
  advances s [] s' ∧ same_body s s' ∧ in_range s' ∧ count <= length (unread s').
Proof.
  revert s. induction fuel as [|fuel IH]; intros s Hr H; cbn [ensure_available_loop] in H;
    apply prog_bind_ok in H as (s0 & s1 & H0 & H); unfold get_state in H0; injection H0 as <- <-;
    destruct (Nat.ltb_spec (length (pending_ s) - pending_pos_ s) count); try done.
  1, 3: prog_inv; (split; [apply advances_refl|]); (split; [done|]); (split; [done|]);
    unfold unread; by rewrite length_drop.
  apply prog_bind_ok in H as (more & s1 & H1 & H). destruct more; [|prog_inv].
  pose proof (receive_more_range _ _ _ Hr H1) as Hr1.
  apply receive_more_ok in H1 as (Ha & Hb & _); [|done].
  destruct (IH s1 Hr1 H) as (Ha' & Hb' & Hr' & Hl).
  split; [by eapply advances_more|]. split; [by eapply same_body_trans|done].
Qed.

Lemma skip_trailers_ok fuel n s s' :
  in_range s → skip_trailers clock net limits fuel n s = Ok (tt, s') →
  ∃ ts, Forall (λ t, line_ok t ∧ t ≠ []) ts ∧
        advances s (concat (map (λ t, t ++ crlf) ts) ++ crlf) s' ∧ same_body s s' ∧ in_range s'.
Proof.
  revert n s. induction fuel as [|fuel IH]; intros n s Hr H; cbn [skip_trailers] in H;
    apply prog_bind_ok in H as (line & s1 & H1 & H);
    (destruct line as [[|c t]|]; [| |done]);
    apply (read_line_loop_ok _ _ _ _ Hr) in H1 as (Hl & Ha & Hb & Hr1).
  1, 3: prog_inv; exists []; (split; [constructor|]); done.
  - by destruct (_ <? _).
  - destruct (_ <? _); [done|]. apply IH in H as (ts & Hts & Ha' & Hb' & Hr'); [|done].
    exists ((c :: t) :: ts). split; [by constructor|]. cbn [map concat]. rewrite <- app_assoc.
    split; [by eapply advances_trans|]. split; [by eapply same_body_trans|done].
Qed.

(** The bytes of the current chunk the consumer has not been given. *)
Definition todo (s : streambuf) : bytes := window s ++ drop (chunk_pos_ s) (chunk_ s).

Lemma publish_window_ok s b s' :
  window s = [] → publish_window clock limits s = Ok (b, s') →
  advances s [] s' ∧ finished_ s' = finished_ s ∧ (in_range s → in_range s') ∧
  todo s' = todo s ∧ (if b then True else todo s = []) ∧
  (b = true → (0 < total_timeout_ms limits)%Z →
   ∃ n, (clock n < total_timeout_ms limits)%Z ∧ ticks s <= n < ticks s').
Proof.
  intros Hw H. unfold publish_window in H.
  apply prog_bind_ok in H as (s0 & s1 & H0 & H); unfold get_state in H0; injection H0 as <- <-.
  unfold todo. rewrite Hw. destruct (Nat.leb_spec (length (chunk_ s)) (chunk_pos_ s)).
  { prog_inv. split; [apply advances_refl|]. rewrite Hw, drop_ge by lia. done. }
  apply prog_bind_ok in H as (u & s1 & H1 & H). apply deadline_ok in H1 as [Hi Hclk].
  prog_inv. unfold set_window in *. simplify_eq. cbn [window chunk_ chunk_pos_ finished_ ticks].
  pose proof (idle_advances _ _ Hi) as Ha. destruct Hi as (P & Q & R & V & C1 & C2 & C3 & C4).
  split; [exact Ha|]. split; [done|]. split; [unfold in_range; cbn; by rewrite P, Q|].
  split; [|done]. rewrite C1. unfold substr. cbn [app]. rewrite <- drop_drop. apply take_drop.
Qed.

Lemma parse_digits_nonneg field cap size header v :
  (0 <= size)%Z → parse_digits field cap size header = Ok v → (0 <= v)%Z.
Proof.
  revert size. induction header as [|c header IH]; intros size Hs; cbn [parse_digits]; [by intros [= <-]|].
  destruct (hex_value c); [|done]. destruct (cap / 16 <? size)%Z; [done|]. cbn zeta.
  destruct (_ <? z)%Z; [done|]. apply IH. unfold uwrap. by apply Z.mod_pos_bound.
Qed.

Lemma parse_size_nonneg header v : parse_size limits header = Ok v → (0 <= v)%Z.
Proof.
  unfold parse_size. destruct (size_field header); [done|]. by apply parse_digits_nonneg.
Qed.

(** Taking the chunk consumes its data and its CRLF. *)
Lemma take_chunk_ok size s s' :
  take_chunk size s = Ok (tt, s') → size + 2 <= length (unread s) →
  substr (pending_ s) (pending_pos_ s + size) 2 = crlf →
  let d := take size (unread s) in
  length d = size ∧ advances s (d ++ crlf) s' ∧ todo s' = d ∧ window s' = [] ∧
  finished_ s' = finished_ s ∧ in_range s'.
Proof.
  unfold take_chunk, unread. intros H Hlen Hc. simplify_eq. cbn zeta.
  rewrite length_drop in Hlen.
  assert (drop (pending_pos_ s) (pending_ s) =
          take size (drop (pending_pos_ s) (pending_ s)) ++ crlf ++ drop (pending_pos_ s + (size + 2)) (pending_ s)) as E.
  { rewrite <- Hc. unfold substr.
    rewrite <- (take_drop size (drop _ _)) at 1. f_equal. rewrite drop_drop.
    rewrite <- (take_drop 2 (drop _ _)) at 1. f_equal. rewrite drop_drop. f_equal. lia. }
  split; [rewrite length_take, length_drop; lia|]. split; [|split_and!; [done..|]].
  - exists []. unfold unread. cbn [recvs pending_ pending_pos_]. rewrite !app_nil_r. split; [done|].
    rewrite E at 1. rewrite <- app_assoc. do 2 f_equal. by destruct (kCompactBytes <? _).
  - unfold in_range. cbn [pending_ pending_pos_]. destruct (kCompactBytes <? _); lia.
Qed.

Lemma next_chunk_ok s b s' :
  in_range s → finished_ s = false → next_chunk clock net limits s = Ok (b, s') →
  if b then
    ∃ header data, line_ok header ∧ parse_size limits header = Ok (Z.of_nat (length data)) ∧
      data ≠ [] ∧ advances s (header ++ crlf ++ data ++ crlf) s' ∧ todo s' = data ∧
      finished_ s' = false ∧ in_range s' 
  else
    ∃ header ts, line_ok header ∧ parse_size limits header = Ok 0%Z ∧
      Forall (λ t, line_ok t ∧ t ≠ []) ts ∧
      advances s (header ++ crlf ++ concat (map (λ t, t ++ crlf) ts) ++ crlf) s'.
Proof.
  intros Hr Hf H. unfold next_chunk in H.
  apply prog_bind_ok in H as (s0 & s1 & H0 & H); unfold get_state in H0; injection H0 as <- <-.
  rewrite Hf in H. apply prog_bind_ok in H as (u & s1 & H1 & H). apply deadline_ok in H1 as [Hi _].
  apply prog_bind_ok in H as (line & s2 & H2 & H). destruct line as [header|]; [|done].
  assert (in_range s1) as Hr1 by (destruct Hi as (P & Q & _); unfold in_range; by rewrite P, Q).
  apply (read_line_loop_ok _ _ _ _ Hr1) in H2 as (Hl & Ha2 & Hb2 & Hr2).
  pose proof (advances_more _ _ _ _ (idle_advances _ _ Hi) Ha2) as Ha.
  destruct (parse_size limits header) as [size|] eqn:Hsize; [|done].
  destruct (Z.eqb_spec size 0) as [->|Hnz].
  - prog_inv. unfold set_finished in *. simplify_eq.
    match goal with H : skip_trailers _ _ _ _ _ _ = Ok (?u, _) |- _ => destruct u; apply skip_trailers_ok in H as (ts & Hts & At & _); [|done] end.
    exists header, ts. split_and!; [done..|].
    assert (advances s2 (concat (map (λ t, t ++ crlf) ts) ++ crlf) s') as At' by exact At.
    pose proof (advances_trans _ _ _ _ _ Ha At') as A. by rewrite <- app_assoc in A.
  - apply prog_bind_ok in H as (av & s3 & H3 & H). destruct av; [|done]. cbn [negb] in H.
    apply ensure_ok in H3 as (Ha3 & Hb3 & Hr3 & Hlen); [|done].
    apply prog_bind_ok in H as (s0 & s4 & H0 & H); unfold get_state in H0; injection H0 as <- <-.
    case_bool_decide as Hcr; [|done].
    apply prog_bind_ok in H as ([] & s5 & H5 & H).
    apply take_chunk_ok in H5 as (Hd & Ha5 & Ht5 & Hw5 & Hf5 & Hr5); [|done..].
    apply prog_bind_ok in H as (pub & s6 & H6 & H). prog_inv.
    apply publish_window_ok in H6 as (Ha6 & Hf6 & Hr6 & Ht6 & _); [|done].
    exists header, (take (Z.to_nat size) (unread s3)).
    pose proof (parse_size_nonneg _ _ Hsize). rewrite Hd, Hsize.
    destruct Hi as (_ & _ & _ & _ & _ & _ & _ & F1), Hb2 as (_ & _ & _ & F2), Hb3 as (_ & _ & _ & F3).
    split_and!; [done|f_equal; lia| | |congruence|congruence|by apply Hr6].
    + intros E. apply (f_equal length) in E. rewrite Hd in E. cbn in E. lia.
    + pose proof (advances_trans _ _ _ _ _ Ha (advances_more _ _ _ _ Ha3 (advances_trans _ _ _ _ _ Ha5 Ha6))) as A.
      by rewrite app_nil_r, <- app_assoc in A.
Qed.

(** Giving the window to the consumer. *)
Lemma consume_window s :
  let s' := {| pending_ := pending_ s; pending_pos_ := pending_pos_ s; chunk_ := chunk_ s;
               chunk_pos_ := chunk_pos_ s; window := []; received_bytes_ := received_bytes_ s;
               finished_ := finished_ s; ticks := ticks s; recvs := recvs s |} in
  set_window (chunk_pos_ s) [] s = Ok (tt, s') ∧ todo s = window s ++ todo s' ∧
  advances s [] s' ∧ (in_range s → in_range s') ∧ finished_ s' = finished_ s.
Proof. split_and!; try done. exists []. by rewrite !app_nil_r. Qed.

Lemma read_all_sound fuel s body s' :
  in_range s → finished_ s = false →
  read_all clock net limits fuel s = Ok (Some body, s') →
  ∃ wire chunks, frames limits wire chunks ∧ advances s wire s' ∧ body = todo s ++ concat chunks.
Proof.
  revert s body. induction fuel as [|fuel IH]; intros s body Hr Hf H; cbn [read_all] in H; [prog_inv|].
  apply prog_bind_ok in H as (more & s1 & H1 & H).
  assert (if more then in_range s1 ∧ finished_ s1 = false ∧
            ((todo s1 = todo s ∧ advances s [] s1) ∨
             (todo s = [] ∧ ∃ header, line_ok header ∧ parse_size limits header = Ok (Z.of_nat (length (todo s1))) ∧
                todo s1 ≠ [] ∧ advances s (header ++ crlf ++ todo s1 ++ crlf) s1))
          else todo s = [] ∧ ∃ wire, frames limits wire [] ∧ advances s wire s1) as Hstep.
  { unfold underflow in H1.
    apply prog_bind_ok in H1 as (s0 & s2 & H0 & H1); unfold get_state in H0; injection H0 as <- <-.
    destruct (window s) as [|w ws] eqn:Hw; [|prog_inv; split_and!; [done..|left; split; [done|apply advances_refl]]].
    apply prog_bind_ok in H1 as (u & s2 & H2 & H1). apply body_cap_ok in H2 as [-> _].
    apply prog_bind_ok in H1 as (pub & s3 & H3 & H1).
    apply publish_window_ok in H3 as (Ha3 & Hf3 & Hr3 & Ht3 & He3 & _); [|done].
    destruct pub; [prog_inv; split_and!; [by apply Hr3|congruence|by left]|].
    apply next_chunk_ok in H1; [|by apply Hr3|congruence]. destruct more.
    - destruct H1 as (header & data & Hl & Hp & Hd & Ha & <- & Hf' & Hr'). split_and!; [done..|].
      right. split; [done|]. exists header. split_and!; [done..|]. by eapply advances_more.
    - destruct H1 as (header & ts & Hl & Hp & Hts & Ha). split; [done|].
      eexists; split; [by apply frames_end|]. by eapply advances_more. }
  destruct more.
  - destruct Hstep as (Hr1 & Hf1 & Hstep).
    apply prog_bind_ok in H as (s0 & s2 & H0 & H); unfold get_state in H0; injection H0 as <- <-.
    prog_inv.
    destruct (consume_window s1) as (Hset & Htodo & Ha & Hr2 & Hf2).
    rewrite Hset in H. injection H as <- <-. destruct x1 as [rest|]; [|done].
    cbn in H2. injection H2 as <-.
    destruct (IH _ rest (Hr2 Hr1) Hf1 H0) as (wire & chunks & Hfr & Haw & ->).
    destruct Hstep as [(Ht & A)|(Ht & header & Hl & Hp & Hne & A)].
    + exists wire, chunks. split; [done|]. split.
      * eapply advances_more; [exact A|]. by eapply advances_more.
      * by rewrite app_assoc, <- Htodo, Ht.
    + exists (header ++ crlf ++ todo s1 ++ crlf ++ wire), (todo s1 :: chunks). split; [by apply frames_chunk|].
      split.
      * pose proof (advances_trans _ _ _ _ _ A (advances_more _ _ _ _ Ha Haw)) as A2.
        by rewrite <- !app_assoc in A2.
      * rewrite Ht. cbn [concat app]. by rewrite app_assoc, <- Htodo.
  - prog_inv. destruct Hstep as (Ht & wire & Hfr & A). exists wire, []. rewrite Ht. done.
Qed.

End facts.

(** * A connection that delivers *)

Section progress.
Context (clock : nat → Z) (net : nat → net_event) (limits : LiveIngestLimits) (N : nat).
Hypothesis on_time : ∀ n, (total_timeout_ms limits <= 0)%Z ∨ (clock n < total_timeout_ms limits)%Z.
Hypothesis delivering : ∀ n, n < N → event_data (net n) ≠ [].

(** What the first [N] receives have still to deliver. *)
Definition future (s : streambuf) : bytes :=
  concat (map (event_data ∘ net) (seq (recvs s) (N - recvs s))).

Definition supply (s : streambuf) : bytes := unread s ++ future s.

Definition good (s : streambuf) : Prop :=
  in_range s ∧ recvs s <= N ∧
  ((0 < max_body_bytes limits)%Z →
   (received_bytes_ s + Z.of_nat (length (future s)) <= max_body_bytes limits)%Z).

Lemma idle_good s s' : idle s s' → good s → good s' ∧ supply s' = supply s.
Proof.
  unfold good, supply, future, unread, in_range. intros (P & Q & R & V & _).
  by rewrite P, Q, R, V.
Qed.

Lemma deadline_passes s : ∃ s', require_within_deadline clock limits s = Ok (tt, s') ∧ idle s s'.
Proof.
  unfold require_within_deadline. destruct (Z.leb_spec (total_timeout_ms limits) 0).
  - exists s. split; [done|apply idle_refl].
  - eexists. unfold mbind, prog_bind, read_clock.
    destruct (on_time (ticks s)); [lia|]. rewrite (proj2 (Z.leb_gt _ _)) by done.
    split; [done|]. repeat split.
Qed.

Lemma wait_passes s :
  recvs s < N → ∃ s', wait_readable clock net limits s = Ok ((true, net (recvs s)), s') ∧ bumped s s'.
Proof.
  intros Hn. pose proof (delivering _ Hn) as Hd.
  assert (∀ w s0, idle s s0 → ∃ s', (e ← next_event net;
             if (w <=? 0)%Z then mret (true, e)
             else mret (match e with Silent => false | _ => true end, e)) s0 =
           Ok ((true, net (recvs s)), s') ∧ bumped s s') as Hpoll.
  { intros w s0 (P & Q & R & V & S). unfold mbind, prog_bind, next_event. rewrite R.
    destruct (w <=? 0)%Z, (net (recvs s)); try done;
      (eexists; split; [done|]; unfold bumped, same_body in *; cbn; split_and!; try done; apply S). }
  unfold wait_readable. destruct (Z.ltb_spec 0 (total_timeout_ms limits)).
  - rewrite (prog_bind_step _ _ _ _ _ (eq_refl : read_clock clock s = Ok _)).
    destruct (on_time (ticks s)); [lia|]. rewrite (proj2 (Z.leb_gt _ _)) by lia.
    apply Hpoll. repeat split.
  - apply Hpoll, idle_refl.
Qed.

Lemma future_step s s' :
  recvs s < N → recvs s' = S (recvs s) → future s = event_data (net (recvs s)) ++ future s'.
Proof.
  intros Hn E. unfold future. rewrite E.
  replace (N - recvs s) with (S (N - S (recvs s))) by lia. done.
Qed.

Lemma receive_passes s :
  good s → recvs s < N →
  ∃ s', receive_more clock net limits s = Ok (true, s') ∧ good s' ∧ supply s' = supply s ∧
        same_body s s' ∧ length (unread s) < length (unread s').
Proof.
  intros (Hr & HN & Hcap) Hn. unfold receive_more.
  destruct (deadline_passes s) as (s1 & E1 & I1). rewrite (prog_bind_step _ _ _ _ _ E1).
  destruct I1 as (P1 & Q1 & R1 & V1 & S1).
  destruct (wait_passes s1) as (s2 & E2 & P2 & Q2 & R2 & V2 & S2); [congruence|].
  rewrite (prog_bind_step _ _ _ _ _ E2). cbn [fst snd negb].
  destruct (deadline_passes s2) as (s3 & E3 & P3 & Q3 & R3 & V3 & S3).
  rewrite (prog_bind_step _ _ _ _ _ E3). rewrite R1.
  pose proof (delivering _ Hn) as Hd. destruct (net (recvs s)) as [| |d] eqn:He; [done..|].
  destruct d as [|c d]; [done|].
  pose proof (same_body_trans _ _ _ (same_body_trans _ _ _ S1 S2) S3) as S13.
  unfold mbind, prog_bind, append_received, require_within_body_cap, get_state.
  unfold mbind, prog_bind. cbn [received_bytes_].
  assert (received_bytes_ s3 = received_bytes_ s) as -> by congruence.
  assert (recvs s3 = S (recvs s)) as R4 by congruence.
  pose proof (future_step s s3 Hn R4) as Hf. rewrite He in Hf. cbn [event_data] in Hf.
  rewrite Hf, length_app in Hcap.
  assert (((0 <? max_body_bytes limits)%Z &&
           (max_body_bytes limits <? received_bytes_ s + Z.of_nat (length (c :: d)))%Z) = false) as -> by lia.
  eexists. split; [done|]. unfold good, supply, unread, in_range, same_body in *.
  cbn [recvs pending_ pending_pos_ received_bytes_ chunk_ chunk_pos_ window finished_] in *.
  rewrite P3, P2, P1, Q3, Q2, Q1, drop_app_le by done.
  match goal with |- context [future (Build_streambuf ?a ?b ?c ?d ?e ?f ?g ?h ?i)] =>
    change (future (Build_streambuf a b c d e f g h i)) with (future s3) end.
  rewrite Hf, <- app_assoc, !length_app. cbn [length].
  cbn [length] in Hcap. split_and!; try apply S13; try done; try lia.
Qed.

Lemma find_crlf s line rest :
  in_range s → supply s = line ++ crlf ++ rest → line_ok line →
  match find_from crlf (pending_ s) (pending_pos_ s) with
  | Some eol => eol = pending_pos_ s + length line
  | None => length (unread s) < length line + 2
  end.
Proof.
  intros Hr Hs [Hl _]. unfold find_from. rewrite (proj2 (Nat.leb_le _ _)) by done.
  fold (unread s). destruct (find_sub crlf (unread s)) as [e|] eqn:He; cbn [fmap option_fmap option_map].
  - apply (find_sub_app _ _ (future s)) in He. fold (supply s) in He.
    apply (find_sub_app _ _ rest) in Hl. rewrite <- app_assoc, <- Hs, He in Hl.
    by simplify_eq.
  - apply Nat.nle_gt. intros Hlen.
    assert (∃ u, unread s = line ++ crlf ++ u) as [u Hu].
    { exists (drop (length line + 2) (unread s)). unfold supply in Hs.
      rewrite <- (take_drop (length line + 2) (unread s)) at 1. rewrite app_assoc. f_equal.
      apply (f_equal (take (length line + 2))) in Hs.
      rewrite take_app_le in Hs by done. rewrite Hs, app_assoc, take_app_length'; [done|].
      rewrite length_app. cbn. lia. }
    apply (find_sub_app _ _ u) in Hl. by rewrite <- app_assoc, <- Hu, He in Hl.
Qed.

(** What is already buffered is the front of the supply. *)
Lemma unread_front s used rest :
  supply s = used ++ rest → length used <= length (unread s) →
  take (length used) (unread s) = used ∧ drop (length used) (unread s) ++ future s = rest.
Proof.
  unfold supply. intros Hs Hl. split.
  - apply (f_equal (take (length used))) in Hs. by rewrite take_app_le, take_app_length in Hs.
  - apply (f_equal (drop (length used))) in Hs. by rewrite drop_app_le, drop_app_length in Hs.
Qed.

(** Moving the read position over bytes that are buffered. *)
Lemma set_pos_passes s used rest :
  good s → supply s = used ++ rest → length used <= length (unread s) →
  ∃ s', set_pos (pending_pos_ s + length used) s = Ok (tt, s') ∧ good s' ∧ supply s' = rest ∧
        same_body s s'.
Proof.
  intros (Hr & HN & Hcap) Hs Hl. eexists. split; [done|].
  pose proof (unread_front _ _ _ Hs Hl) as [_ Hrest].
  unfold good, in_range, supply, unread, future in *. cbn [recvs pending_ pending_pos_ received_bytes_].
  rewrite length_drop in Hl. rewrite <- drop_drop. split_and!; try done; lia.
Qed.

(** Enough fuel for the receives the line still needs reads it. *)
Lemma read_line_passes fuel s line rest :
  good s → supply s = line ++ crlf ++ rest → line_ok line → length line < kMaxLineBytes →
  length line + 2 - length (unread s) <= fuel →
  ∃ s', read_line_loop clock net limits fuel s = Ok (Some line, s') ∧ good s' ∧
        supply s' = rest ∧ same_body s s'.
Proof.
  revert s. induction fuel as [|fuel IH]; intros s Hg Hs Hl Hlt Hfuel; cbn [read_line_loop];
    rewrite (prog_bind_step _ _ _ _ _ (eq_refl : get_state s = Ok _));
    pose proof (find_crlf s line rest (proj1 Hg) Hs Hl) as Hf;
    destruct (find_from crlf (pending_ s) (pending_pos_ s)) as [eol|] eqn:Hfind; [|lia| |].
  1, 2: apply find_from_Some in Hfind as (_ & _ & Hfind); apply find_sub_le in Hfind;
    fold (unread s) in Hfind; change (length crlf) with 2 in Hfind; subst eol;
    replace (pending_pos_ s + length line - pending_pos_ s) with (length line) in * by lia;
    rewrite (proj2 (Nat.ltb_ge _ _)) by lia;
    assert (length (line ++ crlf) = length line + 2) as Hlen by (by rewrite length_app);
    rewrite app_assoc in Hs;
    destruct (set_pos_passes s (line ++ crlf) rest Hg Hs ltac:(lia)) as (s' & E & Hg' & Hs' & Hb');
    rewrite Hlen, Nat.add_assoc in E; rewrite <- app_assoc in Hs;
    destruct (unread_front s line (crlf ++ rest) Hs ltac:(lia)) as [Hline _];
    exists s'; cbn zeta; rewrite (prog_bind_step _ _ _ _ _ E); unfold substr;
    fold (unread s); rewrite Hline; done.
  rewrite (proj2 (Nat.ltb_ge _ _)) by (unfold unread in Hf; rewrite length_drop in Hf; lia).
  assert (recvs s < N) as Hn.
  { apply Nat.nle_gt. intros Hge. unfold supply, future in Hs.
    replace (N - recvs s) with 0 in Hs by lia. cbn in Hs. rewrite app_nil_r in Hs.
    apply (f_equal length) in Hs. rewrite length_app in Hs. cbn in Hs. lia. }
  destruct (receive_passes s Hg Hn) as (s1 & E1 & Hg1 & Hs1 & Hb1 & Hlen1).
  rewrite (prog_bind_step _ _ _ _ _ E1).
  destruct (IH s1) as (s' & E' & Hg' & Hs' & Hb'); [done|by rewrite Hs1|done..|lia|].
  exists s'. split_and!; try done. by eapply same_body_trans.
Qed.

Lemma ensure_passes fuel count s rest used :
  good s → supply s = used ++ rest → length used = count → count - length (unread s) <= fuel →
  ∃ s', ensure_available_loop clock net limits fuel count s = Ok (true, s') ∧ good s' ∧
        supply s' = supply s ∧ same_body s s' ∧ count <= length (unread s').
Proof.
  revert s. induction fuel as [|fuel IH]; intros s Hg Hs Hc Hfuel; cbn [ensure_available_loop];
    rewrite (prog_bind_step _ _ _ _ _ (eq_refl : get_state s = Ok _)); 
    rewrite <- (length_drop (pending_ s)); fold (unread s);
    destruct (Nat.ltb_spec (length (unread s)) count); try lia.
  1, 3: exists s; split_and!; done.
  assert (recvs s < N) as Hn.
  { apply Nat.nle_gt. intros Hge. unfold supply, future in Hs.
    replace (N - recvs s) with 0 in Hs by lia. cbn in Hs. rewrite app_nil_r in Hs.
    apply (f_equal length) in Hs. rewrite length_app in Hs. lia. }
  destruct (receive_passes s Hg Hn) as (s1 & E1 & Hg1 & Hs1 & Hb1 & Hlen1).
  rewrite (prog_bind_step _ _ _ _ _ E1).
  destruct (IH s1) as (s' & E' & Hg' & Hs' & Hb' & Hl'); [done|by rewrite Hs1|done..|lia|].
  exists s'. split_and!; try done; [congruence|by eapply same_body_trans].
Qed.

(** A chunk with bytes left is offered to the consumer. *)
Lemma publish_passes s :
  good s → window s = [] → todo s ≠ [] →
  ∃ s', publish_window clock limits s = Ok (true, s') ∧ good s' ∧ supply s' = supply s ∧
        finished_ s' = finished_ s ∧ todo s' = todo s ∧ window s' ≠ [].
Proof.
  intros Hg Hw Ht. unfold todo in Ht. rewrite Hw in Ht. cbn [app] in Ht. unfold publish_window.
  rewrite (prog_bind_step _ _ _ _ _ (eq_refl : get_state s = Ok _)).
  destruct (Nat.leb_spec (length (chunk_ s)) (chunk_pos_ s)); [by rewrite drop_ge in Ht|].
  destruct (deadline_passes s) as (s1 & E1 & I1). rewrite (prog_bind_step _ _ _ _ _ E1).
  destruct (idle_good _ _ I1 Hg) as [Hg1 Hs1]. destruct I1 as (P1 & Q1 & R1 & V1 & C1 & C2 & C3 & C4).
  eexists. unfold mbind, prog_bind, set_window. cbv zeta. split; [done|].
  unfold todo, good, supply, future, unread, in_range in *.
  cbn [recvs pending_ pending_pos_ received_bytes_ finished_ window chunk_ chunk_pos_].
  split; [exact Hg1|]. split; [exact Hs1|]. split; [exact C4|].
  assert (0 < kWindowBytes) by (apply Nat.ltb_lt; vm_compute; done).
  split.
  - rewrite Hw, C1. unfold substr. rewrite <- drop_drop. apply take_drop.
  - unfold substr. intros E. apply (f_equal length) in E. rewrite length_take, length_drop in E. cbn in E. lia.
Qed.

Lemma next_chunk_passes s d rest :
  good s → finished_ s = false → supply s = write d ++ rest → d ≠ [] →
  let header := to_hex (Z.of_nat (length d)) in
  line_ok header → length header < kMaxLineBytes →
  parse_size limits header = Ok (Z.of_nat (length d)) →
  ∃ s', next_chunk clock net limits s = Ok (true, s') ∧ good s' ∧ supply s' = rest ∧
        finished_ s' = false ∧ todo s' = d ∧ window s' ≠ [].
Proof.
  cbn zeta. intros Hg Hf Hs Hd Hl Hlt Hp. unfold next_chunk.
  rewrite (prog_bind_step _ _ _ _ _ (eq_refl : get_state s = Ok _)), Hf.
  destruct (deadline_passes s) as (s1 & E1 & I1). rewrite (prog_bind_step _ _ _ _ _ E1).
  destruct (idle_good _ _ I1 Hg) as [Hg1 Hs1]. destruct I1 as (_ & _ & _ & _ & _ & _ & _ & F1).
  assert (supply s1 = to_hex (Z.of_nat (length d)) ++ crlf ++ (d ++ crlf ++ rest)) as Hs1'.
  { rewrite Hs1, Hs. unfold write. destruct d; [done|]. by rewrite <- !app_assoc. }
  destruct (read_line_passes (S kMaxLineBytes) s1 _ _ Hg1 Hs1' Hl Hlt ltac:(lia)) as (s2 & E2 & Hg2 & Hs2 & _ & _ & _ & F2).
  rewrite (prog_bind_step _ _ _ _ _ E2), Hp.
  assert (length d ≠ 0) as Hn by (destruct d; [done|cbn; lia]).
  rewrite (proj2 (Z.eqb_neq _ _)) by lia. cbv zeta. rewrite Nat2Z.id. rewrite app_assoc in Hs2.
  destruct (ensure_passes (length d + 2) (length d + 2) s2 rest (d ++ crlf) Hg2 Hs2)
    as (s3 & E3 & Hg3 & Hs3 & (_ & _ & _ & F3) & Hlen); [by rewrite length_app|lia|].
  unfold ensure_available. rewrite (prog_bind_step _ _ _ _ _ E3). cbn [negb].
  rewrite (prog_bind_step _ _ _ _ _ (eq_refl : get_state s3 = Ok _)).
  rewrite Hs2 in Hs3. destruct (unread_front s3 (d ++ crlf) rest) as [Hfr Hrest]; [done|by rewrite length_app|].
  rewrite length_app in Hfr, Hrest. change (length crlf) with 2 in Hfr, Hrest.
  assert (take (length d) (unread s3) = d) as Hfd.
  { apply (f_equal (take (length d))) in Hfr. by rewrite take_take, Nat.min_l, take_app_length in Hfr by lia. }
  rewrite bool_decide_true.
  2: { unfold substr. rewrite <- drop_drop. fold (unread s3).
       apply (f_equal (drop (length d))) in Hfr. rewrite drop_app_length in Hfr.
       by rewrite skipn_firstn_comm, Nat.add_comm, Nat.add_sub in Hfr. }
  rewrite (prog_bind_step _ _ _ _ _ (eq_refl : take_chunk (length d) s3 = Ok _)).
  match goal with |- ∃ s', (_ ≫= _) ?st = _ ∧ _ => set (s4 := st) end.
  destruct Hg3 as (Hr3 & HN3 & Hcap3).
  assert (supply s4 = rest ∧ good s4) as [Hs4 Hg4].
  { unfold supply in *. unfold good, in_range, future, unread, s4 in *.
    cbn [recvs pending_ pending_pos_ received_bytes_].
    rewrite length_drop in Hlen. rewrite drop_drop in Hrest.
    destruct (kCompactBytes <? _); split; try done; split_and!; try done; cbn; lia. }
  assert (todo s4 = d) as Ht4 by (unfold todo, s4, substr; cbn; exact Hfd).
  destruct (publish_passes s4 Hg4 eq_refl ltac:(by rewrite Ht4)) as (s5 & E5 & Hg5 & Hs5 & Hf5 & Ht5 & Hw5).
  exists s5. rewrite (prog_bind_step _ _ _ _ _ E5). split_and!; try done; try congruence.
  rewrite Hf5. unfold s4. cbn [finished_]. congruence.
Qed.

(** Sizes the writer may print. *)
Definition printable (d : bytes) : Prop :=
  (Z.of_nat (length d) <= chunk_cap limits)%Z ∧ (Z.of_nat (length d) < 2 ^ 64)%Z.

Hypothesis cap_fits : (chunk_cap limits < 2 ^ 64)%Z.

Lemma hex_header d :
  printable d → let header := to_hex (Z.of_nat (length d)) in
  line_ok header ∧ length header < kMaxLineBytes ∧
  parse_size limits header = Ok (Z.of_nat (length d)).
Proof.
  intros [Hc Hw]. cbn zeta.
  destruct (to_hex_spec (Z.of_nat (length d))) as (ds & E & Hne & Hds & Hv); [lia|].
  assert (Forall (λ c, is_space c = false ∧ c ≠ 13%Z ∧ c ≠ ch ";") (to_hex (Z.of_nat (length d)))) as Hall.
  { rewrite E. apply Forall_map. eapply Forall_impl; [exact Hds|]. intros x Hx. cbn in Hx.
    unfold hex_digit, is_space. eval_ch. destruct (Z.ltb_spec x 10); lia. }
  assert (length (to_hex (Z.of_nat (length d))) <= 16) as Hlen by apply to_hex_length.
  assert (16 < kMaxLineBytes) by (apply Nat.ltb_lt; vm_compute; done).
  assert (find_sub (str ";") (to_hex (Z.of_nat (length d))) = None) as Hsemi.
  { apply find_sub_absent. eapply Forall_impl; [exact Hall|]. cbn. intros x (_ & _ & Hx). congruence. }
  split; [split; [|lia]|split; [lia|]].
  - apply find_sub_first. eapply Forall_impl; [exact Hall|]. cbn. intros x (_ & Hx & _). congruence.
  - unfold parse_size, size_field. rewrite Hsemi, trim_solid by (eapply Forall_impl; [exact Hall|]; by intros ? []).
    rewrite E. assert (map hex_digit ds ≠ []) as Hne' by (by destruct ds).
    destruct (map hex_digit ds) eqn:Em; [done|]. rewrite <- Em.
    apply parse_digits_ok; [lia|done|]. exists ds. split; [|split; [|lia]]; [|rewrite Hv; lia].
    rewrite map_map. apply map_ext_Forall. eapply Forall_impl; [exact Hds|]. apply hex_value_digit.
Qed.

Lemma last_chunk_passes s rest :
  good s → finished_ s = false → supply s = finish ++ rest →
  ∃ s', next_chunk clock net limits s = Ok (false, s') ∧ good s' ∧ supply s' = rest.
Proof.
  intros Hg Hf Hs. unfold next_chunk.
  rewrite (prog_bind_step _ _ _ _ _ (eq_refl : get_state s = Ok _)), Hf.
  destruct (deadline_passes s) as (s1 & E1 & I1). rewrite (prog_bind_step _ _ _ _ _ E1).
  destruct (idle_good _ _ I1 Hg) as [Hg1 Hs1].
  assert (supply s1 = str "0" ++ crlf ++ ([] ++ crlf ++ rest)) as Hs1' by (by rewrite Hs1, Hs).
  assert (1 < kMaxLineBytes) by (apply Nat.ltb_lt; vm_compute; done).
  assert (line_ok (str "0") ∧ line_ok []) as [Hl0 Hl1] by (split; (split; [done|cbn; lia])).
  destruct (read_line_passes (S kMaxLineBytes) s1 _ _ Hg1 Hs1' Hl0) as (s2 & E2 & Hg2 & Hs2 & _);
    [cbn; lia|cbn; lia|].
  rewrite (prog_bind_step _ _ _ _ _ E2).
  assert (parse_size limits (str "0") = Ok 0%Z) as ->.
  { change (parse_digits (str "0") (chunk_cap limits) 0 (str "0") = Ok 0%Z). apply parse_digits_ok; [|done|].
    - unfold chunk_cap in *. destruct (Z.ltb_spec 0 (max_chunk_bytes limits)); [lia|]. by cbn.
    - exists [0%Z]. split_and!; [done|done|]. unfold chunk_cap. destruct (Z.ltb_spec 0 (max_chunk_bytes limits)); [lia|]. by cbn. }
  cbn [Z.eqb]. rewrite (prog_bind_step _ _ _ _ _ (eq_refl : set_finished s2 = Ok _)).
  match goal with |- ∃ s', (_ ≫= _) ?st = _ ∧ _ => set (s3 := st) end.
  assert (good s3 ∧ supply s3 = [] ++ crlf ++ rest) as [Hg3 Hs3] by done.
  destruct (read_line_passes (S kMaxLineBytes) s3 _ _ Hg3 Hs3 Hl1) as (s4 & E4 & Hg4 & Hs4 & _);
    [cbn; lia|cbn; lia|].
  change (read_line clock net limits s3 = Ok (Some [], s4)) in E4.
  assert (∀ f, skip_trailers clock net limits f 0 s3 = Ok (tt, s4)) as Hsk
    by (intros []; cbn [skip_trailers]; by rewrite (prog_bind_step _ _ _ _ _ E4)).
  exists s4. by rewrite (prog_bind_step _ _ _ _ _ (Hsk _)).
Qed.

(** A body the writer framed is read back whole. *)
Lemma read_all_passes fuel ds s rest :
  good s → finished_ s = false → Forall (λ d, printable d ∧ d ≠ []) ds →
  supply s = concat (map write ds) ++ finish ++ rest →
  length (todo s) + length (concat ds) < fuel →
  ∃ s', read_all clock net limits fuel s = Ok (Some (todo s ++ concat ds), s').
Proof.
  revert s ds. induction fuel as [|fuel IH]; intros s ds Hg Hf Hds Hs Hfuel; [lia|].
  assert ((∃ s1, underflow clock net limits s = Ok (false, s1) ∧ todo s = [] ∧ ds = []) ∨
          (∃ s1 ds1, underflow clock net limits s = Ok (true, s1) ∧ good s1 ∧ finished_ s1 = false ∧
             window s1 ≠ [] ∧ Forall (λ d, printable d ∧ d ≠ []) ds1 ∧
             supply s1 = concat (map write ds1) ++ finish ++ rest ∧
             todo s ++ concat ds = todo s1 ++ concat ds1)) as [(s1 & E1 & -> & ->)|(s1 & ds1 & E1 & Hg1 & Hf1 & Hw1 & Hds1 & Hs1 & Ht1)].
  { unfold underflow. rewrite (prog_bind_step _ _ _ _ _ (eq_refl : get_state s = Ok _)).
    destruct (window s) as [|w ws] eqn:Hw; [|right; exists s, ds; rewrite Hw; by split_and!].
    assert (require_within_body_cap limits s = Ok (tt, s)) as E0.
    { unfold require_within_body_cap, get_state, mbind, prog_bind. destruct Hg as (_ & _ & Hcap).
      destruct (_ && _) eqn:E; [lia|done]. }
    rewrite (prog_bind_step _ _ _ _ _ E0).
    destruct (decide (todo s = [])) as [Ht|Ht].
    - assert (publish_window clock limits s = Ok (false, s)) as E2.
      { unfold publish_window. rewrite (prog_bind_step _ _ _ _ _ (eq_refl : get_state s = Ok _)).
        unfold todo in Ht. rewrite Hw in Ht. cbn in Ht. apply (f_equal length) in Ht.
        rewrite length_drop in Ht. cbn in Ht. by rewrite (proj2 (Nat.leb_le _ _)) by lia. }
      rewrite (prog_bind_step _ _ _ _ _ E2). destruct Hds as [|d ds [Hp Hd] Hds].
      + left. destruct (last_chunk_passes s rest Hg Hf Hs) as (s1 & E1 & _). by exists s1.
      + right. cbn [map concat] in Hs. rewrite <- app_assoc in Hs.
        destruct (hex_header d Hp) as (Hl & Hlt & Hps).
        destruct (next_chunk_passes s d _ Hg Hf Hs Hd Hl Hlt Hps) as (s1 & E1 & Hg1 & Hs1 & Hf1 & Ht1 & Hw1).
        exists s1, ds. split_and!; try done. by rewrite Ht1, Ht.
    - right. destruct (publish_passes s Hg Hw Ht) as (s1 & E1 & Hg1 & Hs1 & Hf1 & Ht1 & Hw1).
      exists s1, ds. rewrite (prog_bind_step _ _ _ _ _ E1), Ht1, Hs1, Hf1. by split_and!. }
  - exists s1. cbn [read_all]. by rewrite (prog_bind_step _ _ _ _ _ E1).
  - destruct (consume_window net s1) as (Hset & Htodo & _ & Hr2 & _). cbn [read_all].
    rewrite (prog_bind_step _ _ _ _ _ E1), (prog_bind_step _ _ _ _ _ (eq_refl : get_state s1 = Ok _)).
    rewrite (prog_bind_step _ _ _ _ _ Hset).
    match goal with |- ∃ s', (read_all _ _ _ _ ≫= _) ?st = _ => set (s2 := st) in * end.
    apply (f_equal length) in Ht1 as Hlen. rewrite Htodo in Hlen. rewrite !length_app in Hlen.
    assert (0 < length (window s1)) by (destruct (window s1); [done|cbn; lia]).
    destruct (IH s2 ds1) as (s' & E'); [done|done|done|exact Hs1|lia|].
    exists s'. rewrite (prog_bind_step _ _ _ _ _ E'), Ht1, Htodo. unfold mret, prog_ret. cbn.
    by rewrite app_assoc.
Qed.

End progress.

(** * Limits *)

Section limits.
Context (clock : nat → Z) (net : nat → net_event) (limits : LiveIngestLimits).

Definition within_cap (s : streambuf) : Prop :=
  (0 < max_body_bytes limits)%Z → (received_bytes_ s <= max_body_bytes limits)%Z.

(** Time moves on and the size cap is kept. *)
Definition paced (s s' : streambuf) : Prop :=
  ticks s <= ticks s' ∧ (within_cap s → within_cap s').

#[local] Instance paced_preorder : PreOrder paced.
Proof. split; [by intros s|]. intros s s1 s2 [? ?] [? ?]. split; [lia|auto]. Qed.

Lemma read_clock_paced : preserves paced (read_clock clock).
Proof. intros s a s' [= _ <-]. split; cbn; [lia|done]. Qed.
Lemma next_event_paced : preserves paced (next_event net).
Proof. intros s a s' [= _ <-]. by split. Qed.
Lemma set_pos_paced pos : preserves paced (set_pos pos).
Proof. intros s a s' [= _ <-]. by split. Qed.
Lemma set_finished_paced : preserves paced set_finished.
Proof. intros s a s' [= _ <-]. by split. Qed.
Lemma set_window_paced pos w : preserves paced (set_window pos w).
Proof. intros s a s' [= _ <-]. by split. Qed.
Lemma take_chunk_paced size : preserves paced (take_chunk size).
Proof. intros s a s' [= _ <-]. by split. Qed.
Lemma append_paced d :
  preserves paced (append_received d;; require_within_body_cap limits;; mret true).
Proof.
  intros s a s' H. apply prog_bind_ok in H as (u & s1 & [= <- <-] & H).
  apply prog_bind_ok in H as (u & s2 & H1 & H). apply body_cap_ok in H1 as [-> Hc].
  injection H as <- <-. split; cbn; [lia|]. intros _. exact Hc.
Qed.

#[local] Hint Resolve read_clock_paced next_event_paced set_pos_paced set_finished_paced
  set_window_paced take_chunk_paced append_paced : preserves.

Lemma body_cap_paced : preserves paced (require_within_body_cap limits).
Proof. unfold require_within_body_cap. preserve. Qed.
Lemma deadline_paced : preserves paced (require_within_deadline clock limits).
Proof. unfold require_within_deadline. preserve. Qed.
#[local] Hint Resolve body_cap_paced deadline_paced : preserves.

Lemma wait_paced : preserves paced (wait_readable clock net limits).
Proof. unfold wait_readable. preserve. Qed.
#[local] Hint Resolve wait_paced : preserves.

Lemma receive_more_paced : preserves paced (receive_more clock net limits).
Proof. unfold receive_more. preserve. Qed.
#[local] Hint Resolve receive_more_paced : preserves.

Lemma ensure_paced fuel count : preserves paced (ensure_available_loop clock net limits fuel count).
Proof. induction fuel; cbn [ensure_available_loop]; preserve. Qed.
Lemma read_line_paced fuel : preserves paced (read_line_loop clock net limits fuel).
Proof. induction fuel; cbn [read_line_loop]; cbv zeta; preserve. Qed.
#[local] Hint Resolve ensure_paced read_line_paced : preserves.

Lemma skip_trailers_paced fuel n : preserves paced (skip_trailers clock net limits fuel n).
Proof. revert n. induction fuel; intros n; cbn [skip_trailers]; unfold read_line; cbv zeta; preserve. Qed.
Lemma publish_paced : preserves paced (publish_window clock limits).
Proof. unfold publish_window. cbv zeta. preserve. Qed.
#[local] Hint Resolve skip_trailers_paced publish_paced : preserves.

Lemma next_chunk_paced : preserves paced (next_chunk clock net limits).
Proof. unfold next_chunk, read_line, ensure_available. cbv zeta. preserve. Qed.

(** Bytes are only handed over in time and within the body cap: when
    [underflow] offers a new window, the clock was read during the call and
    was below the total deadline, and no more than [max_body_bytes] bytes have
    been received. *)
Theorem underflow_bounded s s' :
  window s = [] →
  underflow clock net limits s = Ok (true, s') →
  ((0 < total_timeout_ms limits)%Z →
   ∃ n, ticks s <= n < ticks s' ∧ (clock n < total_timeout_ms limits)%Z) ∧
  ((0 < max_body_bytes limits)%Z → (received_bytes_ s' <= max_body_bytes limits)%Z).
Proof.
  intros Hw H. unfold underflow in H.
  apply prog_bind_ok in H as (s0 & s1 & [= <- <-] & H). rewrite Hw in H.
  apply prog_bind_ok in H as (u & s1 & H1 & H). apply body_cap_ok in H1 as [-> Hcap].
  apply prog_bind_ok in H as (pub & s1 & H1 & H).
  pose proof (publish_paced _ _ _ H1) as [Ht1 Hc1]. destruct pub.
  - injection H as <-. split; [|intros; by apply (Hc1 Hcap)].
    intros Htot. apply (publish_window_ok clock net) in H1 as (A1 & A2 & A3 & A4 & A5 & Hn); [|done].
    destruct (Hn eq_refl Htot) as (n & ? & ?). by exists n.
  - pose proof (next_chunk_paced _ _ _ H) as [Ht2 Hc2]. split; [|intros; by apply (Hc2 (Hc1 Hcap))].
    intros Htot. unfold next_chunk in H.
    apply prog_bind_ok in H as (s0 & s2 & [= <- <-] & H). destruct (finished_ s1); [done|].
    apply prog_bind_ok in H as (u2 & s2 & H2 & H). apply deadline_ok in H2 as [_ Hn].
    match type of H with ?p s2 = _ => assert (preserves paced p) as Hp
      by (unfold read_line, ensure_available; cbv zeta; preserve) end.
    apply Hp in H as [Hle _].
    destruct (Hn Htot) as (n & Hn1 & Hn2). exists n. split; [lia|done].
Qed.
End limits.

(** The body "5 CRLF hello CRLF 0 CRLF CRLF", in three segments. *)
Definition sample_net (n : nat) : net_event :=
  match n with
  | 0 => Delivered (str "llo" ++ [13%Z])
  | 1 => Delivered ([10%Z] ++ str "0" ++ crlf ++ crlf)
  | _ => Closed
  end.
Definition sample_prefetch : bytes := str "5" ++ crlf ++ str "he".

Lemma underflow_bounded_witness :
  ∃ s', underflow (λ n, Z.of_nat n) sample_net default_limits (make_streambuf sample_prefetch) = Ok (true, s') ∧
    ((0 < max_body_bytes default_limits)%Z → (received_bytes_ s' <= max_body_bytes default_limits)%Z).
Proof.
  eexists. split; [vm_compute; reflexivity|].
  eapply (underflow_bounded (λ n, Z.of_nat n) sample_net default_limits (make_streambuf sample_prefetch));
    [reflexivity|vm_compute; reflexivity].
Defined.

(** C1. A body is only accepted whole: whatever the network does, if draining
    the stream reaches a clean end, then what the connection delivered begins
    with a complete chunked body (well-formed size lines, every chunk closed by
    CRLF, a zero-size chunk, trailers and a blank line) and the consumer got
    exactly its chunks. *)
Theorem chunked_sound clock net limits fuel prefetched body s' :
  read_all clock net limits fuel (make_streambuf prefetched) = Ok (Some body, s') →
  ∃ wire chunks, frames limits wire chunks ∧ body = concat chunks ∧
    prefetched ++ delivered net (recvs s') = wire ++ unread s'.
Proof.
  intros H. apply read_all_sound in H as (wire & chunks & Hf & (fresh & Hd & Hu) & ->);
    [|unfold in_range; cbn; lia|done].
  exists wire, chunks. split_and!; [done..|]. cbn in Hd. by rewrite Hd, <- Hu.
Qed.

Lemma chunked_sound_witness :
  ∃ s', read_all (λ n, Z.of_nat n) sample_net default_limits 3 (make_streambuf sample_prefetch) =
        Ok (Some (str "hello"), s') ∧
  ∃ wire chunks, frames default_limits wire chunks ∧ str "hello" = concat chunks ∧
    sample_prefetch ++ delivered sample_net (recvs s') = wire ++ unread s'.
Proof.
  eexists. split; [vm_compute; reflexivity|].
  eapply (chunked_sound (λ n, Z.of_nat n) sample_net default_limits 3). vm_compute. reflexivity.
Defined.

(** C17. Round trip with the response writer: whatever the segmentation, a
    connection that stays up, in time and under the caps, and delivers what
    [write] and [finish] send (and possibly more) is drained to exactly the
    written data; one step per body byte is enough. *)
Theorem chunked_roundtrip clock net limits N ds prefetched rest fuel :
  (∀ n, (total_timeout_ms limits <= 0)%Z ∨ (clock n < total_timeout_ms limits)%Z) →
  (∀ n, n < N → event_data (net n) ≠ []) →
  (chunk_cap limits < 2 ^ 64)%Z →
  Forall (λ d, (Z.of_nat (length d) <= chunk_cap limits)%Z) ds →
  prefetched ++ delivered net N = concat (map write ds) ++ finish ++ rest →
  ((0 < max_body_bytes limits)%Z →
   (Z.of_nat (length prefetched + length (delivered net N)) <= max_body_bytes limits)%Z) →
  length (concat ds) < fuel →
  ∃ s', read_all clock net limits fuel (make_streambuf prefetched) = Ok (Some (concat ds), s').
Proof.
  intros Hclock Hnet Hcap Hds Hwire Hmax Hfuel.
  set (ne := λ d : bytes, match d with [] => false | _ => true end).
  assert (concat (List.filter ne ds) = concat ds ∧
          concat (map write (List.filter ne ds)) = concat (map write ds)) as [Hc Hw].
  { clear. induction ds as [|[|c d] ds [IH1 IH2]]; cbn; [done|done|]. by rewrite IH1, IH2. }
  assert (future net N (make_streambuf prefetched) = delivered net N) as Hfut
    by (unfold future; cbn [recvs make_streambuf]; by rewrite Nat.sub_0_r).
  destruct (read_all_passes clock net limits N Hclock Hnet Hcap fuel (List.filter ne ds)
              (make_streambuf prefetched) rest) as (s' & E).
  - split_and!; [unfold in_range; cbn; lia|cbn; lia|]. rewrite Hfut. intros H. apply Hmax in H.
    cbn [received_bytes_ make_streambuf]. lia.
  - done.
  - apply Forall_forall. intros d Hd. apply list_elem_of_In, filter_In in Hd as [Hd Hne].
    rewrite Forall_forall in Hds. apply list_elem_of_In, Hds in Hd.
    split; [split; lia|by destruct d].
  - unfold supply. by rewrite Hfut, Hw.
  - by rewrite Hc.
  - exists s'. by rewrite Hc in E.
Qed.

Lemma chunked_roundtrip_witness :
  ∃ s', read_all (λ _, 0%Z) sample_net default_limits 6 (make_streambuf sample_prefetch) =
        Ok (Some (concat [str "hello"]), s').
Proof.
  apply (chunked_roundtrip (λ _, 0%Z) sample_net default_limits 2 [str "hello"] sample_prefetch []).
  - intros n. right. reflexivity.
  - intros [|[|n]] Hn; [discriminate..|lia].
  - reflexivity.
  - constructor; [vm_compute; discriminate|constructor].
  - vm_compute. reflexivity.
  - intros _. vm_compute. discriminate.
  - cbn. lia.
Defined.

(** Chunk sizes are read exactly: the 64-bit digit loop accepts a size line
    exactly when its trimmed size field is a non-empty string of hexadecimal
    digits whose number is within the chunk cap, and it returns that number:
    the overflow guards reject nothing else and let nothing wrap. *)
Theorem chunk_size_exact limits header v :
  (chunk_cap limits < 2 ^ 64)%Z →
  parse_size limits header = Ok v ↔
  size_field header ≠ [] ∧ hex_number (size_field header) v ∧ (v <= chunk_cap limits)%Z.
Proof.
  intros Hc. assert (0 <= chunk_cap limits)%Z as Hp.
  { unfold chunk_cap. destruct (Z.ltb_spec 0 (max_chunk_bytes limits)); [lia|by cbn]. }
  assert (parse_digits (size_field header) (chunk_cap limits) 0 (size_field header) = Ok v ↔
          hex_number (size_field header) v ∧ (v <= chunk_cap limits)%Z) as H.
  { rewrite parse_digits_ok by lia. unfold hex_number. split.
    - intros (ds & E & -> & Hle). split; [exists ds; split; [done|lia]|done].
    - intros [(ds & E & <-) Hle]. exists ds. split_and!; [done|lia|done]. }
  unfold parse_size. destruct (size_field header); [|by rewrite H; naive_solver].
  split; [done|]. naive_solver.
Qed.

Lemma chunk_size_exact_witness :
  parse_size default_limits (str " 1aF;name=value") = Ok 431%Z.
Proof.
  apply chunk_size_exact; [by vm_compute|]. split; [by vm_compute|]. split; [|by vm_compute].
  exists [1; 10; 15]%Z. by vm_compute.
Defined.

(** The header cap depends on the segmentation: a size line of exactly
    [kMaxLineBytes] bytes is accepted when its CRLF is already buffered and
    rejected when only the CR is. *)
Theorem header_cap_segmentation clock net limits line :
  line_ok line → length line = kMaxLineBytes →
  (∃ s', read_line clock net limits (make_streambuf (line ++ crlf)) = Ok (Some line, s')) ∧
  is_ok (read_line clock net limits (make_streambuf (line ++ [13%Z]))) = false.
Proof.
  intros [Hl _] Hlen. unfold read_line. split.
  - cbn [read_line_loop]. rewrite (prog_bind_step _ _ _ _ _ (eq_refl : get_state _ = Ok _)).
    cbn [make_streambuf pending_ pending_pos_]. rewrite find_from_at, drop_0, Hl by lia.
    cbn [fmap option_fmap option_map]. rewrite (proj2 (Nat.ltb_ge _ _)) by lia.
    eexists. unfold mbind, prog_bind, set_pos, mret, prog_ret, substr. rewrite drop_0.
    change (0 + length line - 0) with (length line - 0). by rewrite Nat.sub_0_r, take_app_length.
  - cbn [read_line_loop]. rewrite (prog_bind_step _ _ _ _ _ (eq_refl : get_state _ = Ok _)).
    cbn [make_streambuf pending_ pending_pos_]. rewrite find_from_at, drop_0 by lia.
    destruct (find_sub crlf (line ++ [13%Z])) as [e|] eqn:E; cbn [fmap option_fmap option_map].
    + pose proof (find_sub_le _ _ _ E) as Hle. apply (find_sub_app _ _ [10%Z]) in E.
      rewrite <- app_assoc in E. cbn [app] in E. rewrite length_app in Hle. change (length crlf) with 2 in Hle.
      assert (Some e = Some (length line)) as [= ->] by (rewrite <- E; exact Hl). cbn in Hle. lia.
    + by rewrite (proj2 (Nat.ltb_lt _ _)) by (rewrite length_app; cbn; lia).
Qed.

Lemma header_cap_segmentation_witness :
  let line := repeat (ch "0") kMaxLineBytes in
  is_ok (read_line (λ _, 0%Z) (λ _, Closed) default_limits (make_streambuf (line ++ [13%Z]))) = false.
Proof.
  cbn zeta. eapply (header_cap_segmentation (λ _, 0%Z) (λ _, Closed) default_limits).
  - split; [|rewrite repeat_length; lia]. apply find_sub_first. apply Forall_forall.
    intros x Hx%list_elem_of_In%repeat_spec. by subst.
  - apply repeat_length.
Defined.
