(* ===== verification/HttpRequest.v ===== *)
(** The blocking HTTP transport of app/server/http.cpp: reading a request off a
    connection ([read_http_request]), deciding whether its body is incremental,
    serializing responses, and [handle_client], which composes them with the
    handler (an [IHttpHandler]). *)

From stdpp Require Import gmap.
From S2P Require Import Prelude ChunkedBody.

(** * Requests and responses *)

Record HttpRequest := {
  method : bytes;
  path : bytes;
  query : bytes;
  headers : gmap bytes bytes;
  body : bytes;
}.

(** [stream_body] is what the callback writes and the exception it ends with;
    [response_headers] lists the map in its iteration order. *)
Record HttpResponse := {
  status : Z;
  content_type : bytes;
  response_body : bytes;
  response_headers : list (bytes * bytes);
  stream_body : option (list bytes * option bytes);
}.

Definition lower_ascii (value : bytes) : bytes := map to_lower value.

Definition status_text (status : Z) : bytes :=
  if status =b 200 then str "OK"
  else if status =b 202 then str "Accepted"
  else if status =b 204 then str "No Content"
  else if status =b 400 then str "Bad Request"
  else if status =b 403 then str "Forbidden"
  else if status =b 404 then str "Not Found"
  else if status =b 405 then str "Method Not Allowed"
  else if status =b 413 then str "Payload Too Large"
  else if status =b 500 then str "Internal Server Error"
  else if status =b 503 then str "Service Unavailable"
  else str "Error".

(** * Incremental bodies *)

Definition kLiveIngestPath : bytes := str "/v1/audio/transcriptions/live".

(** The loop over the comma-separated codings. *)
Fixpoint is_chunked_loop (fuel : nat) (value : bytes) (start : nat) (saw_coding : bool) : bool :=
  match fuel with
  | O => saw_coding
  | S fuel =>
      if start <=? length value then
        let comma := find_from (str ",") value start in
        let end_ := default (length value) comma in
        let coding := trim (substr value start (end_ - start)) in
        let next saw :=
          match comma with
          | None => saw
          | Some comma => is_chunked_loop fuel value (comma + 1) saw
          end in
        match coding with
        | [] => next saw_coding
        | _ =>
            if saw_coding || negb (bool_decide (lower_ascii coding = str "chunked")) then false
            else next true
        end
      else saw_coding
  end.

Definition is_chunked_only (value : bytes) : bool :=
  is_chunked_loop (S (length value)) value 0 false.

Definition wants_incremental_body (request : HttpRequest) : bool :=
  if bool_decide (path request ≠ kLiveIngestPath) && bool_decide (path request ≠ str "/v1/voice/live")
  then false
  else
    match headers request !! str "transfer-encoding" with
    | None => false
    | Some value => is_chunked_only value
    end.

(** * The request head *)

(** The lines [std::getline] yields. *)
Fixpoint lines (s : bytes) : list bytes :=
  match s with
  | [] => []
  | c :: s' =>
      if c =b 10 then [] :: lines s'
      else match lines s' with
           | [] => [[c]]
           | l :: ls => (c :: l) :: ls
           end
  end.

(** [if (!line.empty() && line.back() == '\r') line.pop_back();] *)
Definition drop_cr (line : bytes) : bytes :=
  match last line with
  | Some c => if c =b 13 then take (length line - 1) line else line
  | None => line
  end.

(** [stream >> word]: the next word and what follows it. *)
Fixpoint read_word (s : bytes) : bytes * bytes :=
  match s with
  | [] => ([], [])
  | c :: s' => if is_space c then ([], s) else let '(w, rest) := read_word s' in (c :: w, rest)
  end.

Definition next_word (s : bytes) : bytes * bytes := read_word (trim_left s).

Definition add_header (headers : gmap bytes bytes) (line : bytes) : gmap bytes bytes :=
  let line := drop_cr line in
  match find_sub (str ":") line with
  | None => headers
  | Some pos =>
      let name := lower_ascii (trim (take pos line)) in
      let value := trim (drop (pos + 1) line) in
      if bool_decide (name = str "transfer-encoding") then
        let slot := default [] (headers !! name) in
        let slot := match slot with [] => slot | _ => slot ++ str ", " end in
        <[name := slot ++ value]> headers
      else <[name := value]> headers
  end.

(** From the text before the blank line to the request without its body. *)
Definition parse_head (head : bytes) : outcome HttpRequest :=
  match lines head with
  | [] => Throw (str "empty HTTP request")
  | line :: rest =>
      let '(method, after) := next_word (drop_cr line) in
      let '(path, _) := next_word after in
      match method, path with
      | [], _ | _, [] => Throw (str "invalid HTTP request line")
      | _, _ =>
          let query := find_sub (str "?") path in
          Ok {| method := method;
                path := match query with Some q => take q path | None => path end;
                query := match query with Some q => drop (q + 1) path | None => [] end;
                headers := foldl add_header ∅ rest;
                body := [] |}
      end
  end.

(** [std::from_chars] on an [unsigned long long] that must use the whole text. *)
Definition parse_ull (raw : bytes) : option Z :=
  match raw with
  | [] => None
  | _ =>
      if forallb is_digit raw then
        let v := be_value 10 (map (λ c, c - 48)%Z raw) in
        if (v <? 2 ^ 64)%Z then Some v else None
      else None
  end.

Definition content_length_of (max_request_body_bytes : Z)
    (request : HttpRequest) : outcome Z :=
  match headers request !! str "content-length" with
  | None => Ok 0%Z
  | Some raw =>
      match parse_ull raw with
      | None => Throw (str "invalid Content-Length header")
      | Some parsed =>
          if (max_request_body_bytes <? parsed)%Z
          then Throw (str "request body exceeds the maximum of " ++ to_string max_request_body_bytes ++ str " bytes")
          else if (2 ^ 64 - 1 <? parsed)%Z
          then Throw (str "request body exceeds the maximum addressable size")
          else Ok parsed
      end
  end.

(** * Receiving *)

(** A connection is the list of segments [recv] will deliver; an empty or missing
    one is [received <= 0]. *)

Definition kMaxHeaderBytes : nat := 1024 * 1024.
#[global] Opaque kMaxHeaderBytes.

Definition blank_line : bytes := crlf ++ crlf.

(** [while (header_end == npos)]: where the head ends, everything received and
    what the connection still holds. *)
Fixpoint receive_head (net : list bytes) (data : bytes) : outcome (nat * bytes * list bytes) :=
  match net with
  | (c :: d) :: net' =>
      let data := data ++ c :: d in
      match find_sub blank_line data with
      | Some header_end => Ok (header_end, data, net')
      | None =>
          if kMaxHeaderBytes <? length data then Throw (str "HTTP headers exceed 1 MiB")
          else receive_head net' data
      end
  | _ => Throw (str "socket receive failed before HTTP headers")
  end.

(** [while (request.body.size() < content_length)]. *)
Fixpoint receive_body (content_length : Z) (net : list bytes) (body : bytes) :
    outcome (bytes * list bytes) :=
  if (Z.of_nat (length body) <? content_length)%Z then
    match net with
    | (c :: d) :: net' => receive_body content_length net' (body ++ c :: d)
    | _ => Throw (str "socket receive failed while reading HTTP body")
    end
  else Ok (body, net).

Definition set_body (request : HttpRequest) (body : bytes) : HttpRequest :=
  {| method := method request; path := path request; query := query request;
     headers := headers request; body := body |}.

(** The request, [leftover] and the rest of the connection. *)
Definition read_http_request (net : list bytes) (max_request_body_bytes : Z) :
    outcome (HttpRequest * bytes * list bytes) :=
  '(header_end, data, net) ← receive_head net [];
  request ← parse_head (take header_end data);
  if wants_incremental_body request then
    Ok (request, drop (header_end + 4) data, net)
  else
    content_length ← content_length_of max_request_body_bytes request;
    '(body, net) ← receive_body content_length net (drop (header_end + 4) data);
    let body := if (content_length <? Z.of_nat (length body))%Z
                then take (Z.to_nat content_length) body else body in
    Ok (set_body request body, [], net).

(** * Sending *)

(** The connection as the server writes to it: what was sent, the results of the
    next [send] calls, the send timeout, the standard error stream, and
    [request_label]. *)
Record wire := {
  sent : bytes;
  sends : list Z;
  send_timeout : option Z;
  log : list bytes;
  request_label : bytes;
}.

Definition fresh_wire (sends : list Z) : wire :=
  {| sent := []; sends := sends; send_timeout := None; log := [];
     request_label := str "(request not read)" |}.

(** [while (offset < data.size())]; one [send] per element of [sends]. *)
Fixpoint send_loop (sends : list Z) (data sent : bytes) : outcome () * bytes * list Z :=
  match data with
  | [] => (Ok tt, sent, sends)
  | _ =>
      match sends with
      | [] => (Throw (str "socket send failed"), sent, [])
      | written :: sends' =>
          if (written <=? 0)%Z then (Throw (str "socket send failed"), sent, sends')
          else send_loop sends' (drop (Z.to_nat written) data) (sent ++ take (Z.to_nat written) data)
      end
  end.

Definition send_all (data : bytes) : io wire () := λ w,
  let '(r, sent', sends') := send_loop (sends w) data (sent w) in
  (r, {| sent := sent'; sends := sends'; send_timeout := send_timeout w; log := log w;
         request_label := request_label w |}).

Definition set_label (label : bytes) : io wire () := io_modify (λ w,
  {| sent := sent w; sends := sends w; send_timeout := send_timeout w; log := log w;
     request_label := label |}).

Definition set_send_timeout (ms : Z) : io wire () := io_modify (λ w,
  {| sent := sent w; sends := sends w; send_timeout := Some ms; log := log w;
     request_label := request_label w |}).

Definition cerr (line : bytes) : io wire () := io_modify (λ w,
  {| sent := sent w; sends := sends w; send_timeout := send_timeout w; log := log w ++ [line];
     request_label := request_label w |}).

Definition header_line (kv : bytes * bytes) : bytes := kv.1 ++ str ": " ++ kv.2 ++ crlf.

Definition serialize_response (response : HttpResponse) : bytes :=
  str "HTTP/1.1 " ++ to_string (status response) ++ str " " ++ status_text (status response) ++ crlf ++
  str "Content-Type: " ++ content_type response ++ crlf ++
  str "Content-Length: " ++ to_string (Z.of_nat (length (response_body response))) ++ crlf ++
  str "Connection: close" ++ crlf ++
  concat (map header_line (response_headers response)) ++
  crlf ++ response_body response.

Definition serialize_stream_headers (response : HttpResponse) : bytes :=
  str "HTTP/1.1 " ++ to_string (status response) ++ str " " ++ status_text (status response) ++ crlf ++
  str "Content-Type: " ++ content_type response ++ crlf ++
  str "Transfer-Encoding: chunked" ++ crlf ++
  str "Cache-Control: no-cache" ++ crlf ++
  str "Connection: close" ++ crlf ++
  concat (map header_line (response_headers response)) ++
  crlf.

(** A character of JSON syntax that a Rocq string cannot show. *)
Definition quote : bytes := [34%Z].

Definition json_response (body : bytes) (status : Z) : HttpResponse :=
  {| status := status; content_type := str "application/json"; response_body := body;
     response_headers := []; stream_body := None |}.

(** [HttpStreamWriter::write] and [finish] are three sends and one. *)
Definition writer_write (data : bytes) : io wire () :=
  match data with
  | [] => mret tt
  | _ =>
      send_all (to_hex (Z.of_nat (length data)) ++ crlf);;
      send_all data;;
      send_all crlf
  end.

Definition writer_finish : io wire () := send_all finish.

(** What the transport asks of the application: the handler reads the request and,
    for an incremental body, its stream (limits, what is buffered, the connection). *)
Class IHttpHandler := {
  live_ingest_limits : HttpRequest → outcome LiveIngestLimits;
  handle : HttpRequest → option (LiveIngestLimits * bytes * list bytes) → outcome HttpResponse;
}.

Section client.
(** [json_quote] is the JSON library's string printer. *)
Context (json_quote : bytes → bytes) `{handler : IHttpHandler}.

Definition error_response (status : Z) (message type : bytes) : HttpResponse :=
  json_response
    (str "{" ++ quote ++ str "error" ++ quote ++ str ":{" ++ quote ++ str "message" ++ quote ++ str ":" ++
     json_quote message ++ str "," ++ quote ++ str "type" ++ quote ++ str ":" ++ json_quote type ++ str "}}")
    status.

(** The event a failing SSE stream ends with. *)
Definition error_event (what : bytes) : bytes :=
  str "data: {" ++ quote ++ str "type" ++ quote ++ str ":" ++ quote ++ str "error" ++ quote ++ str "," ++
  quote ++ str "error" ++ quote ++ str ":{" ++ quote ++ str "message" ++ quote ++ str ":" ++
  json_quote what ++ str "}}" ++ [10; 10]%Z.

(** [response.stream_body(writer)]: its writes, then its exception. *)
Fixpoint run_stream_body (writes : list bytes) (failure : option bytes) : io wire () :=
  match writes with
  | [] => match failure with Some what => io_lift (Throw what) | None => mret tt end
  | data :: writes => writer_write data;; run_stream_body writes failure
  end.

(** The response, ordinary or streamed. *)
Definition send_response (response : HttpResponse) : io wire () :=
  match stream_body response with
  | Some (writes, failure) =>
      send_all (serialize_stream_headers response);;
      io_catch (run_stream_body writes failure)
        (λ what,
          w ← io_get;
          cerr (str "audiocpp_server streaming response failed: " ++ request_label w ++ str ": " ++ what);;
          if is_prefix (str "text/event-stream") (content_type response)
          then writer_write (error_event what) else mret tt);;
      writer_finish
  | None => send_all (serialize_response response)
  end.

(** The outer [catch]. *)
Definition report_failure (what : bytes) : io wire () :=
  w ← io_get;
  cerr (str "audiocpp_server request failed: " ++ request_label w ++ str ": " ++ what);;
  io_catch (send_all (serialize_response (error_response 500 what (str "server_error"))))
    (λ what', cerr (str "  (could not report it to the client: " ++ what' ++ str ")")).

Definition handle_client (net : list bytes) (max_request_body_bytes : Z) : io wire () :=
  io_catch
    ('(request, leftover, net) ← io_lift (read_http_request net max_request_body_bytes);
     set_label (method request ++ str " " ++ path request);;
     let incremental_body := wants_incremental_body request in
     limits ← (if incremental_body then io_lift (live_ingest_limits request) else mret default_limits);
     (if incremental_body && (0 <? send_timeout_ms limits)%Z
      then set_send_timeout (send_timeout_ms limits) else mret tt);;
     response ← io_lift (handle request (if incremental_body then Some (limits, leftover, net) else None));
     send_response response)
    report_failure.
End client.

(** * Codings *)

Definition nonempty (s : bytes) : bool := match s with [] => false | _ => true end.

(** The transfer-codings a header value names, in lower case. *)
Definition codings (value : bytes) : list bytes :=
  List.filter nonempty (map (lower_ascii ∘ trim) (split_on (ch ",") value)).

Lemma lower_ascii_empty s : lower_ascii s = [] ↔ s = [].
Proof. by destruct s. Qed.

Lemma is_chunked_loop_spec fuel value start saw :
  start <= length value → length value - start < fuel →
  is_chunked_loop fuel value start saw =
  bool_decide ((if saw then [str "chunked"] else []) ++ codings (drop start value) = [str "chunked"]).
Proof.
  revert start saw. induction fuel as [|fuel IH]; intros start saw Hs Hf; [lia|].
  cbn [is_chunked_loop]. rewrite (proj2 (Nat.leb_le _ _)) by done. cbv zeta.
  rewrite find_from_at by done. unfold codings. rewrite split_on_find.
  change (str ",") with [ch ","].
  set (k := λ saw0 : bool, match find_sub [ch ","] (drop start value) with
                    | None => saw0
                    | Some i => is_chunked_loop fuel value (start + i + 1) saw0 end).
  set (piece := match find_sub [ch ","] (drop start value) with
                | Some i => take i (drop start value) | None => drop start value end).
  set (others := match find_sub [ch ","] (drop start value) with
                 | Some i => codings (drop (S i) (drop start value)) | None => [] end).
  assert (∀ saw0 : bool, k saw0 = bool_decide ((if saw0 then [str "chunked"] else []) ++ others = [str "chunked"])) as Hk.
  { intros saw0. unfold k, others. destruct (find_sub _ _) as [i|] eqn:E.
    - pose proof (find_sub_le _ _ _ E) as Hle. rewrite length_drop in Hle. cbn in Hle.
      rewrite IH by lia. rewrite drop_drop. by replace (start + i + 1) with (start + S i) by lia.
    - rewrite app_nil_r. by destruct saw0. }
  transitivity (match trim piece with
                | [] => k saw
                | _ => if saw || negb (bool_decide (lower_ascii (trim piece) = str "chunked")) then false else k true
                end).
  { unfold k, piece, substr. destruct (find_sub _ _) as [i|] eqn:E; cbn [fmap option_fmap option_map default from_option]; unfold id.
    - by replace (start + i - start) with i by lia.
    - by rewrite take_ge by (rewrite length_drop; lia). }
  transitivity (bool_decide ((if saw then [str "chunked"] else []) ++
      List.filter nonempty [lower_ascii (trim piece)] ++ others = [str "chunked"])).
  2: { unfold piece, others, codings. destruct (find_sub _ _) as [i|]; cbn [map List.filter compose app].
       - by destruct (nonempty _).
       - by rewrite app_nil_r. }
  destruct (trim piece) as [|c t] eqn:Ep; [apply Hk|]. rewrite Hk.
  assert (nonempty (lower_ascii (c :: t)) = true) as Hne by done. cbn [List.filter]. rewrite Hne.
  cbn [app]. destruct saw; cbn [orb app].
  - symmetry. apply bool_decide_eq_false. congruence.
  - destruct (decide (lower_ascii (c :: t) = str "chunked")) as [->|Hn].
    + by rewrite bool_decide_true.
    + rewrite (bool_decide_false (lower_ascii _ = _)) by done. symmetry. apply bool_decide_eq_false. congruence.
Qed.

Lemma is_chunked_only_codings value :
  is_chunked_only value = bool_decide (codings value = [str "chunked"]).
Proof. unfold is_chunked_only. rewrite is_chunked_loop_spec by lia. done. Qed.

Lemma codings_join s t : codings (s ++ str ", " ++ t) = codings s ++ codings t.
Proof.
  unfold codings. change (str ", " ++ t) with (ch "," :: ch " " :: t).
  rewrite split_on_app, map_app, List.filter_app. f_equal.
  rewrite !(split_on_find _ (_ :: _)), (split_on_find _ t).
  replace (find_sub [ch ","] (ch " " :: t)) with (S <$> find_sub [ch ","] t) by done.
  by destruct (find_sub [ch ","] t).
Qed.

(** * Header lines *)

Definition te : bytes := str "transfer-encoding".

(** The name and value a header line carries. *)
Definition header_field (line : bytes) : option (bytes * bytes) :=
  let line := drop_cr line in
  pos ← find_sub (str ":") line;
  Some (lower_ascii (trim (take pos line)), trim (drop (pos + 1) line)).

(** The codings all the Transfer-Encoding lines of a head name together. *)
Definition declared_codings (ls : list bytes) : list bytes :=
  concat (map (λ l, match header_field l with
                    | Some (name, value) => if bool_decide (name = te) then codings value else []
                    | None => []
                    end) ls).

Lemma add_header_codings h line :
  codings (default [] (add_header h line !! te)) =
  codings (default [] (h !! te)) ++ declared_codings [line].
Proof.
  unfold add_header, declared_codings, header_field. cbn [map concat].
  destruct (find_sub (str ":") (drop_cr line)) as [pos|]; cbn [mbind option_bind];
    [|by rewrite !app_nil_r].
  set (name := lower_ascii _). set (value := trim (drop _ _)). rewrite app_nil_r.
  change (str "transfer-encoding") with te.
  case_bool_decide as Hn; cbn [from_option default].
  - rewrite Hn, lookup_insert_eq. cbn [from_option default]. unfold id.
    destruct (h !! te) as [[|c slot]|]; cbn [from_option default app]; unfold id; try done.
    rewrite <- codings_join. cbn [app]. by rewrite <- app_assoc.
  - by rewrite lookup_insert_ne, app_nil_r by done.
Qed.

Lemma add_headers_codings h ls :
  codings (default [] (foldl add_header h ls !! te)) =
  codings (default [] (h !! te)) ++ declared_codings ls.
Proof.
  revert h. induction ls as [|l ls IH]; intros h; cbn [foldl].
  - by rewrite app_nil_r.
  - rewrite IH, add_header_codings, <- app_assoc. f_equal.
    unfold declared_codings. cbn [map concat]. by rewrite app_nil_r.
Qed.

Lemma parse_head_headers head request :
  parse_head head = Ok request → headers request = foldl add_header ∅ (tail (lines head)).
Proof.
  unfold parse_head. destruct (lines head) as [|l ls]; [done|].
  destruct (next_word _) as [m after], (next_word after) as [p ?].
  destruct m, p; try done. by intros [= <-].
Qed.

(** A body is handed to the handler unread exactly when its route is one of
    the two live ones and the Transfer-Encoding lines of the head, read together
    as one comma-separated list, name the single coding "chunked": no split over
    lines, chain of codings, case or spacing changes that. *)
Theorem incremental_iff_chunked head request :
  parse_head head = Ok request →
  wants_incremental_body request = true ↔
  (path request = kLiveIngestPath ∨ path request = str "/v1/voice/live") ∧
  declared_codings (tail (lines head)) = [str "chunked"].
Proof.
  intros Hp. apply parse_head_headers in Hp as Hh.
  pose proof (add_headers_codings ∅ (tail (lines head))) as Hc. rewrite <- Hh in Hc.
  rewrite lookup_empty in Hc. cbn [from_option default] in Hc. unfold id in Hc.
  change (codings []) with (@nil bytes) in Hc. cbn [app] in Hc. rewrite <- Hc.
  unfold wants_incremental_body. change (str "transfer-encoding") with te.
  destruct (decide (path request = kLiveIngestPath)) as [Ha|Ha];
    [rewrite (bool_decide_false (_ ≠ kLiveIngestPath)) by tauto
    |rewrite (bool_decide_true (_ ≠ kLiveIngestPath)) by done];
    (destruct (decide (path request = str "/v1/voice/live")) as [Hb|Hb];
      [rewrite (bool_decide_false (_ ≠ str _)) by tauto
      |rewrite (bool_decide_true (_ ≠ str _)) by done]); cbn [andb].
  4: { split; [done|]. tauto. }
  all: destruct (headers request !! te) as [v|]; cbn [from_option default]; unfold id;
    [rewrite is_chunked_only_codings, bool_decide_eq_true; tauto|];
    (split; [done|]); by intros [_ [=]].
Qed.

Definition sample_head : bytes :=
  str "POST /v1/voice/live?model=a HTTP/1.1" ++ crlf ++ str "Transfer-Encoding: ," ++ crlf ++
  str "transfer-encoding:  Chunked".

Lemma incremental_iff_chunked_witness :
  match parse_head sample_head with Ok r => wants_incremental_body r = true | Throw _ => False end.
Proof.
  destruct (parse_head sample_head) as [r|] eqn:E.
  - apply (incremental_iff_chunked _ _ E). split; [right|vm_compute; reflexivity].
    assert (path <$> parse_head sample_head = Ok (str "/v1/voice/live")) as H by (vm_compute; reflexivity).
    rewrite E in H. injection H as H. exact H.
  - assert (is_ok (parse_head sample_head) = true) as H by (vm_compute; reflexivity).
    rewrite E in H. discriminate.
Defined.

(** * Reading a request off a connection *)

(** The request a byte stream carries, and for an incremental body the bytes
    after its head. *)
Definition request_of_stream (stream : bytes) (max_request_body_bytes : Z) :
    outcome (HttpRequest * bytes) :=
  match find_sub blank_line stream with
  | None => Throw (str "socket receive failed before HTTP headers")
  | Some header_end =>
      request ← parse_head (take header_end stream);
      let rest := drop (header_end + 4) stream in
      if wants_incremental_body request then Ok (request, rest)
      else
        content_length ← content_length_of max_request_body_bytes request;
        if (Z.of_nat (length rest) <? content_length)%Z
        then Throw (str "socket receive failed while reading HTTP body")
        else Ok (set_body request (take (Z.to_nat content_length) rest), [])
  end.

Lemma receive_head_spec net data :
  Forall (λ d, d ≠ []) net → find_sub blank_line data = None →
  length (data ++ concat net) <= kMaxHeaderBytes →
  match find_sub blank_line (data ++ concat net) with
  | None => receive_head net data = Throw (str "socket receive failed before HTTP headers")
  | Some header_end =>
      ∃ data' net', receive_head net data = Ok (header_end, data', net') ∧
        Forall (λ d, d ≠ []) net' ∧
        data' ++ concat net' = data ++ concat net ∧ header_end + 4 <= length data'
  end.
Proof.
  intros Hne. revert data. induction Hne as [|d net Hd Hne IH]; intros data Hf Hlen; cbn [receive_head concat].
  - rewrite app_nil_r in *. by rewrite Hf.
  - destruct d as [|c d]; [done|]. destruct (find_sub blank_line (data ++ c :: d)) as [e|] eqn:E.
    + rewrite app_assoc, (find_sub_app _ _ (concat net) _ E). exists (data ++ c :: d), net.
      split_and!; [done..|]. by apply find_sub_le in E.
    + cbn [concat] in Hlen. rewrite app_assoc in *.
      rewrite (proj2 (Nat.ltb_ge _ _)) by (rewrite length_app in Hlen; lia). by apply IH.
Qed.

Lemma receive_body_spec n net body :
  Forall (λ d, d ≠ []) net →
  if (Z.of_nat (length (body ++ concat net)) <? n)%Z
  then receive_body n net body = Throw (str "socket receive failed while reading HTTP body")
  else ∃ body' net', receive_body n net body = Ok (body', net') ∧
         body' ++ concat net' = body ++ concat net ∧ (n <= Z.of_nat (length body'))%Z.
Proof.
  intros Hne. revert body. induction Hne as [|d net Hd Hne IH]; intros body; cbn [receive_body concat].
  - rewrite app_nil_r. destruct (Z.ltb_spec (Z.of_nat (length body)) n); [done|].
    exists body, []. cbn. by rewrite app_nil_r.
  - destruct (Z.ltb_spec (Z.of_nat (length body)) n).
    + destruct d as [|c d]; [done|]. rewrite app_assoc. apply IH.
    + rewrite (proj2 (Z.ltb_ge _ _)) by (rewrite length_app; lia).
      exists body, (d :: net). by split_and!.
Qed.

(** What is read does not depend on how the connection is segmented: a
    stream of at most 1 MiB yields the request (or the error) its bytes denote,
    an ordinary body is exactly its declared length, and no byte of an
    incremental body is lost between [leftover] and the connection. *)
Theorem read_http_request_refines net max :
  Forall (λ d, d ≠ []) net → length (concat net) <= kMaxHeaderBytes →
  match request_of_stream (concat net) max with
  | Throw e => read_http_request net max = Throw e
  | Ok (request, rest) =>
      ∃ leftover net', read_http_request net max = Ok (request, leftover, net') ∧
        (wants_incremental_body request = true → leftover ++ concat net' = rest)
  end.
Proof.
  intros Hne Hlen. unfold request_of_stream, read_http_request.
  pose proof (receive_head_spec net [] Hne eq_refl Hlen) as Hh. cbn [app] in Hh.
  destruct (find_sub blank_line (concat net)) as [he|] eqn:Ef; [|by rewrite Hh].
  destruct Hh as (data & net' & -> & Hne' & Hd & Hle). cbn [mbind outcome_bind].
  rewrite <- Hd, take_app_le by lia.
  destruct (parse_head (take he data)) as [req|e] eqn:Ep; cbn [mbind outcome_bind]; [|done].
  rewrite drop_app_le by lia.
  destruct (wants_incremental_body req) eqn:Ew; [by exists (drop (he + 4) data), net'|].
  destruct (content_length_of max req) as [n|e]; cbn [mbind outcome_bind]; [|done].
  pose proof (receive_body_spec n net' (drop (he + 4) data) Hne') as Hb.
  destruct (Z.ltb_spec (Z.of_nat (length (drop (he + 4) data ++ concat net'))) n) as [Hs|Hs]; [by rewrite Hb|].
  destruct Hb as (body & net2 & -> & Hb & Hn). cbn [mbind outcome_bind].
  exists [], net2. split; [|intros H; change (wants_incremental_body req = true) in H; congruence].
  f_equal. f_equal. f_equal. f_equal. rewrite <- Hb.
  destruct (Z.ltb_spec n (Z.of_nat (length body))).
  - by rewrite take_app_le by lia.
  - rewrite take_app_ge, (proj2 (Nat.sub_0_le _ _)) by lia. by rewrite take_0, app_nil_r.
Qed.

Definition sample_post : list bytes :=
  [str "POST /v1/x HTTP/1.1" ++ [13%Z]; [10%Z] ++ str "content-Length: 3 " ++ crlf ++ [13%Z];
   [10%Z] ++ str "ab"; str "cd"].

Lemma read_http_request_refines_witness :
  (body ∘ fst ∘ fst) <$> read_http_request sample_post 100 = Ok (str "abc").
Proof.
  assert (Forall (λ d, d ≠ []) sample_post) as H by (repeat constructor; discriminate).
  pose proof (read_http_request_refines sample_post 100 H
    ltac:(apply Nat.leb_le; vm_compute; reflexivity)) as R.
  assert ((body ∘ fst) <$> request_of_stream (concat sample_post) 100 = Ok (str "abc")) as Hs
    by (vm_compute; reflexivity).
  destruct (request_of_stream (concat sample_post) 100) as [[req rest]|e]; [|discriminate].
  destruct R as (leftover & net' & E & _). rewrite E. exact Hs.
Defined.

(** * What goes out *)

(** [n] more sends will each take at least a byte. *)
Definition ample (n : nat) (w : wire) : Prop :=
  Forall (λ z, 0 < z)%Z (sends w) ∧ n <= length (sends w).

Lemma send_loop_ample sends data sent :
  Forall (λ z, 0 < z)%Z sends → length data <= length sends →
  ∃ sends', send_loop sends data sent = (Ok tt, sent ++ data, sends') ∧
            Forall (λ z, 0 < z)%Z sends' ∧ length sends <= length sends' + length data.
Proof.
  intros Hp. revert data sent. induction Hp as [|z sends Hz Hp IH]; intros data sent Hl.
  - destruct data; [|cbn in Hl; lia]. exists []. by rewrite app_nil_r.
  - destruct data as [|c data]; [exists (z :: sends); rewrite app_nil_r; split_and!; [done|by constructor|cbn; lia]|].
    cbn [send_loop]. rewrite (proj2 (Z.leb_gt _ _)) by done.
    assert (length (drop (Z.to_nat z) (c :: data)) <= length data)
      by (rewrite length_drop; cbn [length]; lia).
    cbn [length] in *.
    destruct (IH (drop (Z.to_nat z) (c :: data)) (sent ++ take (Z.to_nat z) (c :: data)))
      as (sends' & E & Hp' & Hl'); [lia|].
    exists sends'. rewrite E, <- app_assoc, take_drop. split_and!; [done..|lia].
Qed.

(** [send_all] sends everything or fails having sent a proper prefix. *)
Lemma send_loop_sound sends data sent :
  let '(r, sent', _) := send_loop sends data sent in
  ∃ k, sent' = sent ++ take k data ∧ (r = Ok tt → take k data = data) ∧
       (r ≠ Ok tt → k < length data).
Proof.
  revert data sent. induction sends as [|z sends IH]; intros data sent; destruct data as [|c data]; cbn [send_loop].
  1, 3: exists 0; rewrite app_nil_r; split_and!; done.
  - exists 0. rewrite app_nil_r. split_and!; [done..|]. cbn. lia.
  - destruct (Z.leb_spec z 0); [exists 0; rewrite app_nil_r; split_and!; [done..|cbn; lia]|].
    specialize (IH (drop (Z.to_nat z) (c :: data)) (sent ++ take (Z.to_nat z) (c :: data))).
    destruct (send_loop _ _ _) as [[r sent'] sends']. destruct IH as (k & -> & Hok & Hko).
    exists (Z.to_nat z + k). rewrite <- app_assoc.
    assert (take (Z.to_nat z) (c :: data) ++ take k (drop (Z.to_nat z) (c :: data)) =
            take (Z.to_nat z + k) (c :: data)) as ->.
    { rewrite <- (take_take_drop (c :: data)) by lia. done. }
    split_and!; [done| |].
    + intros Hr. rewrite <- take_take_drop, (Hok Hr) by lia. apply take_drop.
    + intros Hr. apply Hko in Hr. rewrite length_drop in Hr. lia.
Qed.

(** [m] ends with [r] having sent exactly [out], if the peer keeps reading. *)
Definition emits {A} (m : io wire A) (r : outcome A) (out : bytes) : Prop :=
  ∀ n w, ample (length out + n) w →
         ∃ w', m w = (r, w') ∧ sent w' = sent w ++ out ∧ ample n w'.

Lemma emits_send data : emits (send_all data) (Ok tt) data.
Proof.
  intros n w [Hp Hl]. unfold send_all.
  destruct (send_loop_ample (sends w) data (sent w)) as (sends' & E & Hp' & Hl'); [done|lia|].
  rewrite E. eexists. split; [done|]. split; [done|]. split; [done|]. cbn. lia.
Qed.

Lemma emits_modify f :
  (∀ w, sent (f w) = sent w ∧ sends (f w) = sends w) → emits (io_modify f) (Ok tt) [].
Proof.
  intros Hf n w Ha. destruct (Hf w) as [H1 H2]. eexists. split; [done|]. rewrite H1, app_nil_r.
  split; [done|]. unfold ample in *. by rewrite H2.
Qed.

Lemma emits_lift {A} (r : outcome A) : emits (io_lift r) r [].
Proof. intros n w Ha. exists w. by rewrite app_nil_r. Qed.

Lemma emits_ret {A} (a : A) : emits (mret a) (Ok a) [].
Proof. apply (emits_lift (Ok a)). Qed.

Lemma emits_bind {A B} (k : A → io wire B) m a r out1 out2 :
  emits m (Ok a) out1 → emits (k a) r out2 → emits (m ≫= k) r (out1 ++ out2).
Proof.
  intros Hm Hk n w Ha. rewrite length_app, <- Nat.add_assoc in Ha.
  destruct (Hm _ _ Ha) as (w1 & E1 & S1 & A1). destruct (Hk _ _ A1) as (w2 & E2 & S2 & A2).
  exists w2. unfold mbind, io_bind. rewrite E1, E2, S2, S1, app_assoc. done.
Qed.

Lemma emits_step {A B} (k : A → io wire B) m a r out :
  emits m (Ok a) [] → emits (k a) r out → emits (m ≫= k) r out.
Proof. apply (emits_bind k m a r []). Qed.

Lemma emits_bind_throw {A B} (k : A → io wire B) m e out :
  emits m (Throw e) out → emits (m ≫= k) (Throw e) out.
Proof.
  intros Hm n w Ha. destruct (Hm _ _ Ha) as (w1 & E1 & S1 & A1). exists w1.
  unfold mbind, io_bind. by rewrite E1.
Qed.

Lemma emits_get {B} (k : wire → io wire B) r out :
  (∀ w, emits (k w) r out) → emits (io_get ≫= k) r out.
Proof. intros Hk n w Ha. apply (Hk w n w Ha). Qed.

Lemma emits_catch_ok {A} (m : io wire A) h a out : emits m (Ok a) out → emits (io_catch m h) (Ok a) out.
Proof.
  intros Hm n w Ha. destruct (Hm _ _ Ha) as (w1 & E1 & S1 & A1). exists w1.
  unfold io_catch. by rewrite E1.
Qed.

Lemma emits_catch_throw {A} (m : io wire A) h e r out1 out2 :
  emits m (Throw e) out1 → emits (h e) r out2 → emits (io_catch m h) r (out1 ++ out2).
Proof.
  intros Hm Hh n w Ha. rewrite length_app, <- Nat.add_assoc in Ha.
  destruct (Hm _ _ Ha) as (w1 & E1 & S1 & A1). destruct (Hh _ _ A1) as (w2 & E2 & S2 & A2).
  exists w2. unfold io_catch. rewrite E1, E2, S2, S1, app_assoc. done.
Qed.

Lemma emits_write data : emits (writer_write data) (Ok tt) (write data).
Proof.
  unfold writer_write, write. destruct data as [|c data]; [apply emits_ret|].
  set (d := c :: data). rewrite (app_assoc (to_hex _)).
  eapply emits_bind; [apply emits_send|]. eapply emits_bind; apply emits_send.
Qed.

Lemma emits_stream_body writes failure :
  emits (run_stream_body writes failure)
    (match failure with Some what => Throw what | None => Ok tt end) (concat (map write writes)).
Proof.
  induction writes as [|data writes IH]; cbn [run_stream_body map concat].
  - destruct failure; [apply emits_lift|apply emits_ret].
  - eapply emits_bind; [apply emits_write|exact IH].
Qed.

Section served.
Context (json_quote : bytes → bytes) `{handler : IHttpHandler}.

(** The reply the handler's outcome calls for. *)
Definition reply_of (response : outcome HttpResponse) : bytes :=
  match response with
  | Throw what => serialize_response (error_response json_quote 500 what (str "server_error"))
  | Ok response =>
      match stream_body response with
      | None => serialize_response response
      | Some (writes, failure) =>
          serialize_stream_headers response ++ concat (map write writes) ++
          match failure with
          | Some what =>
              if is_prefix (str "text/event-stream") (content_type response)
              then write (error_event json_quote what) else []
          | None => []
          end ++ finish
      end
  end.

Lemma emits_failure what : emits (report_failure json_quote what) (Ok tt) (reply_of (Throw what)).
Proof.
  apply emits_get. intros w. eapply emits_step; [by apply emits_modify|].
  apply emits_catch_ok, emits_send.
Qed.

Lemma emits_response response :
  emits (send_response json_quote response) (Ok tt) (reply_of (Ok response)).
Proof.
  unfold send_response, reply_of. destruct (stream_body response) as [[writes failure]|]; [|apply emits_send].
  eapply emits_bind; [apply emits_send|]. rewrite app_assoc.
  eapply emits_bind; [|apply emits_send]. pose proof (emits_stream_body writes failure) as Hb.
  destruct failure as [what|]; [|rewrite app_nil_r; by apply emits_catch_ok].
  eapply emits_catch_throw; [exact Hb|]. apply emits_get. intros w.
  eapply emits_step; [by apply emits_modify|].
  destruct (is_prefix _ _); [apply emits_write|apply emits_ret].
Qed.

(** What the handler is given for a connection. *)
Definition dispatch (net : list bytes) (max_request_body_bytes : Z) : outcome HttpResponse :=
  '(request, leftover, net) ← read_http_request net max_request_body_bytes;
  if wants_incremental_body request then
    limits ← live_ingest_limits request;
    handle request (Some (limits, leftover, net))
  else handle request None.

(** The outer [catch] turns a failure into its 500. *)
Lemma emits_guarded m r :
  emits m (match r with Ok _ => Ok tt | Throw e => Throw e end)
    (match r with Ok response => reply_of (Ok response) | Throw _ => [] end) →
  emits (io_catch m (report_failure json_quote)) (Ok tt) (reply_of r).
Proof.
  destruct r as [response|e]; intros Hm; [by apply emits_catch_ok|].
  exact (emits_catch_throw _ _ _ _ [] _ Hm (emits_failure e)).
Qed.

(** One connection, one complete reply: as long as the peer keeps reading,
    [handle_client] ends normally and has sent exactly one response, whatever
    fails on the way: the handler's response, its chunked stream closed by the
    terminating chunk even when the stream callback throws, or a 500. *)
Theorem handle_client_replies net max sends :
  let reply := reply_of (dispatch net max) in
  Forall (λ z, 0 < z)%Z sends → length reply <= length sends →
  ∃ w, handle_client json_quote net max (fresh_wire sends) = (Ok tt, w) ∧ sent w = reply.
Proof.
  cbn zeta. intros Hp Hl.
  enough (emits (handle_client json_quote net max) (Ok tt) (reply_of (dispatch net max))) as H.
  { destruct (H 0 (fresh_wire sends)) as (w & E & S & _); [split; [done|cbn; lia]|]. by exists w. }
  unfold handle_client, dispatch. apply emits_guarded.
  destruct (read_http_request net max) as [[[request leftover] net']|e]; cbn [mbind outcome_bind];
    [|apply emits_bind_throw, emits_lift].
  eapply emits_step; [apply emits_lift|]. cbv beta iota zeta.
  eapply emits_step; [by apply emits_modify|].
  assert (∀ limits r,
    emits ((if wants_incremental_body request && (0 <? send_timeout_ms limits)%Z
            then set_send_timeout (send_timeout_ms limits) else mret tt);;
           response ← io_lift r; send_response json_quote response)
      (match r with Ok _ => Ok tt | Throw e => Throw e end)
      (match r with Ok response => reply_of (Ok response) | Throw _ => [] end)) as Hrest.
  { intros limits r. eapply emits_step.
    - destruct (_ && _); [by apply emits_modify|apply emits_ret].
    - destruct r as [response|e]; [|apply emits_bind_throw, emits_lift].
      eapply emits_step; [apply emits_lift|apply emits_response]. }
  destruct (wants_incremental_body request).
  - destruct (live_ingest_limits request) as [limits|e]; cbn [mbind outcome_bind];
      [|apply emits_bind_throw, emits_lift].
    eapply emits_step; [apply emits_lift|apply Hrest].
  - eapply emits_step; [apply emits_ret|apply Hrest].
Qed.
End served.

(** A handler that streams two pieces and fails, over a peer that takes the reply
    in uneven pieces. *)
Definition sample_handler : IHttpHandler := {|
  live_ingest_limits := λ _, Ok default_limits;
  handle := λ request _,
    Ok {| status := 200; content_type := str "text/event-stream"; response_body := [];
          response_headers := []; stream_body := Some ([body request; []; str "!"], Some (str "busy")) |};
|}.

Lemma handle_client_replies_witness :
  ∃ w, handle_client (handler := sample_handler) id sample_post 100 (fresh_wire (7%Z :: repeat 1%Z 400)) = (Ok tt, w) ∧
       sent w = reply_of id (dispatch (handler := sample_handler) sample_post 100).
Proof.
  apply (handle_client_replies id (handler := sample_handler)).
  - constructor; [lia|]. apply Forall_forall. intros z Hz%list_elem_of_In%repeat_spec. subst. lia.
  - apply Nat.leb_le. vm_compute. reflexivity.
Defined.

(** * Sizes in headers *)


(** [Content-Length] is read exactly and capped: the text is accepted only if
    it is all digits with a value within the configured maximum and 64 bits, and
    the declared length is that value; what [serialize_response] prints for a
    body is read back as its size. *)
Theorem content_length_exact max request n :
  (content_length_of max request = Ok n ↔
   match headers request !! str "content-length" with
   | None => n = 0%Z
   | Some raw => raw ≠ [] ∧ forallb is_digit raw = true ∧
                 n = be_value 10 (map (λ c, c - 48)%Z raw) ∧ (n < 2 ^ 64)%Z ∧ (n <= max)%Z
   end) ∧
  ((0 <= n < 2 ^ 64)%Z → parse_ull (to_string n) = Some n).
Proof.
  split.
  - unfold content_length_of. destruct (headers request !! _) as [raw|]; [|naive_solver].
    assert (parse_ull raw = (if forallb is_digit raw && nonempty raw
              then let v := be_value 10 (map (λ c, c - 48)%Z raw) in if (v <? 2 ^ 64)%Z then Some v else None
              else None)) as ->
      by (destruct raw; [done|]; unfold parse_ull, nonempty; by rewrite andb_true_r).
    assert (nonempty raw = true ↔ raw ≠ []) as Hne by (by destruct raw).
    destruct (forallb is_digit raw), (nonempty raw); cbn [andb]; try naive_solver.
    cbv zeta. destruct (Z.ltb_spec (be_value 10 (map (λ c, c - 48)%Z raw)) (2 ^ 64)); [|naive_solver lia].
    destruct (Z.ltb_spec max (be_value 10 (map (λ c, c - 48)%Z raw))); [naive_solver lia|].
    rewrite (proj2 (Z.ltb_ge _ _)) by lia. naive_solver.
  - intros Hn. destruct (to_string_spec n) as (ds & -> & Hds & Hr & Hv); [lia|].
    assert (forallb is_digit (map (λ d, 48 + d)%Z ds) = true) as Hd.
    { apply forallb_forall. intros c (d & <- & Hin)%in_map_iff. rewrite Forall_forall in Hr.
      apply list_elem_of_In, Hr in Hin. unfold is_digit. lia. }
    assert (map (λ c, c - 48)%Z (map (λ d, 48 + d)%Z ds) = ds) as Hm.
    { rewrite map_map. transitivity (map id ds); [apply map_ext; unfold id; lia|apply map_id]. }
    unfold parse_ull. destruct ds as [|d ds]; [done|]. cbn [map] in *.
    rewrite Hd, Hm, Hv, (proj2 (Z.ltb_lt _ _)) by lia. done.
Qed.
