(* ===== verification/Multipart.v ===== *)
(** Multipart form bodies (app/server/multipart.cpp): the boundary of a content
    type, the parts of a body, the parameters of a header. *)

From S2P Require Import Prelude.

(** * Data *)

Record MultipartPart := { name : bytes; filename : bytes; data : bytes }.

Definition empty_part : MultipartPart := {| name := []; filename := []; data := [] |}.

Definition lower_ascii (value : bytes) : bytes := map to_lower value.

Definition quote : Z := 34.
Definition crlf : bytes := [13; 10]%Z.

(** * Header parameters *)

(** The position of a whole parameter name. *)
Fixpoint find_param (fuel : nat) (header_value lowered needle : bytes) (pos : nat) : option nat :=
  match fuel with
  | O => None
  | S fuel =>
      match find_from needle lowered pos with
      | None => None
      | Some pos =>
          if (pos =? 0) ||
             match header_value !! (pos - 1) with Some c => (c =b ch " ") || (c =b ch ";") | None => false end
          then Some pos
          else find_param fuel header_value lowered needle (pos + length needle)
      end
  end.

Definition extract_header_param (header_value key : bytes) : bytes :=
  let needle := key ++ str "=" in
  match find_param (S (length header_value)) header_value (lower_ascii header_value) needle 0 with
  | None => []
  | Some pos =>
      let start := pos + length needle in
      if bool_decide (header_value !! start = Some quote) then
        match find_from [quote] header_value (start + 1) with
        | None => drop (start + 1) header_value
        | Some e => substr header_value (start + 1) (e - start - 1)
        end
      else
        let e := default (length header_value) (find_from (str ";") header_value start) in
        trim (substr header_value start (e - start))
  end.

(** * Parts *)

Definition strip_trailing_newline (value : bytes) : bytes :=
  if (2 <=? length value) && bool_decide (drop (length value - 2) value = crlf) then take (length value - 2) value
  else if bool_decide (last value = Some 10%Z) then take (length value - 1) value
  else value.

(** The lines [std::getline] gives. *)
Definition lines (text : bytes) : list bytes :=
  let pieces := split_on 10 text in
  if bool_decide (last pieces = Some []) then removelast pieces else pieces.

Definition header_line (part : MultipartPart) (line : bytes) : MultipartPart :=
  let line := if bool_decide (last line = Some 13%Z) then removelast line else line in
  match find_sub (str ":") line with
  | None => part
  | Some colon =>
      let key := lower_ascii (trim (take colon line)) in
      let value := trim (drop (colon + 1) line) in
      if bool_decide (key = str "content-disposition")
      then {| name := extract_header_param value (str "name");
              filename := extract_header_param value (str "filename"); data := data part |}
      else part
  end.

Definition parse_part (segment : bytes) : MultipartPart :=
  let header_end :=
    match find_sub (crlf ++ crlf) segment with
    | Some e => Some (e, 4)
    | None => (λ e, (e, 2)) <$> find_sub [10; 10]%Z segment
    end in
  match header_end with
  | None => empty_part
  | Some (header_end, separator_len) =>
      foldl header_line {| name := []; filename := []; data := drop (header_end + separator_len) segment |}
        (lines (take header_end segment))
  end.

(** * Bodies *)

Definition extract_multipart_boundary (content_type : bytes) : option bytes :=
  let lowered := lower_ascii content_type in
  if negb (is_prefix (str "multipart/") lowered) then None
  else
    let key := str "boundary=" in
    match find_sub key lowered with
    | None => None
    | Some pos =>
        let value := drop (pos + length key) content_type in
        let value := match find_sub (str ";") value with Some semicolon => take semicolon value | None => value end in
        let value := trim value in
        let value :=
          if (2 <=? length value) && bool_decide (head value = Some quote) && bool_decide (last value = Some quote)
          then substr value 1 (length value - 2) else value in
        match value with [] => None | _ => Some value end
    end.

Fixpoint parts_loop (fuel : nat) (body delimiter : bytes) (pos : nat) (parts : list MultipartPart) :
    list MultipartPart :=
  match fuel with
  | O => parts
  | S fuel =>
      if bool_decide (substr body pos 2 = str "--") then parts
      else
        let pos :=
          if bool_decide (substr body pos 2 = crlf) then pos + 2
          else if bool_decide (body !! pos = Some 10%Z) then pos + 1 else pos in
        match find_from delimiter body pos with
        | None => parts
        | Some next_delim =>
            let segment := strip_trailing_newline (substr body pos (next_delim - pos)) in
            parts_loop fuel body delimiter (next_delim + length delimiter) (parts ++ [parse_part segment])
        end
  end.

Definition parse_multipart_body (body boundary : bytes) : list MultipartPart :=
  let delimiter := str "--" ++ boundary in
  match find_sub delimiter body with
  | None => []
  | Some pos => parts_loop (length body) body delimiter (pos + length delimiter) []
  end.

(** * Writing a form *)

Definition parameter (key value : bytes) : bytes := str "; " ++ key ++ str "=" ++ [quote] ++ value ++ [quote].

Definition disposition (part : MultipartPart) : bytes :=
  str "form-data" ++ parameter (str "name") (name part) ++
  match filename part with [] => [] | f => parameter (str "filename") f end.

Definition part_text (part : MultipartPart) : bytes :=
  str "Content-Disposition: " ++ disposition part ++ crlf ++ crlf ++ data part.

Definition form_body (boundary : bytes) (parts : list MultipartPart) : bytes :=
  concat (map (λ part, str "--" ++ boundary ++ crlf ++ part_text part ++ crlf) parts) ++
  str "--" ++ boundary ++ str "--" ++ crlf.

(** What a form needs to be read back: a field name without quotes, line breaks,
    or a [filename=] of its own; a file name without quotes or line breaks; no
    delimiter inside a part. *)
Definition plain (value : bytes) : Prop := Forall (λ c, c ≠ quote ∧ c ≠ 13 ∧ c ≠ 10)%Z value.

Definition part_ok (boundary : bytes) (part : MultipartPart) : Prop :=
  plain (name part) ∧ plain (filename part) ∧
  find_sub (str "filename=") (lower_ascii (name part)) = None ∧
  find_sub (str "--" ++ boundary) (part_text part) = None.

(** * Lemmas *)

(** A pattern is searched on either side of a character it does not contain. *)
Lemma find_sub_over n s c t :
  n ≠ [] → Forall (λ x, x ≠ c) n →
  find_sub n (s ++ c :: t) =
  match find_sub n s with Some i => Some i | None => (λ i, length s + S i) <$> find_sub n t end.
Proof.
  intros Hn Hc. induction s as [|x s IH]; cbn [app find_sub].
  - assert (is_prefix n (c :: t) = false) as ->.
    { destruct n as [|y n]; [done|]. cbn. apply Forall_cons in Hc as [Hy _].
      by rewrite (proj2 (Z.eqb_neq _ _)) by done. }
    destruct n as [|y n]; [done|]. cbn [is_prefix find_sub]. by destruct (find_sub (y :: n) t).
  - destruct (is_prefix n (x :: s)) eqn:E.
    + by rewrite (is_prefix_extend n (x :: s) (c :: t) E : is_prefix n (x :: s ++ c :: t) = true).
    + assert (is_prefix n (x :: s ++ c :: t) = false) as ->.
      { clear IH Hn. revert x s E. induction n as [|y n IHn]; intros x s E; [done|]. apply Forall_cons in Hc as [Hy Hc].
        cbn in *. destruct (y =b x); [|done]. cbn in *. destruct s as [|z s]; cbn [app].
        - destruct n as [|w n]; [done|]. cbn. apply Forall_cons in Hc as [Hw _]. by rewrite (proj2 (Z.eqb_neq _ _)).
        - apply IHn; [done|]. exact E. }
      rewrite IH. destruct (find_sub n s) as [i|]; [done|]. cbn [fmap option_fmap option_map].
      destruct (find_sub n t) as [i|]; [|done]. cbn. done.
Qed.

Lemma find_sub_here n t : find_sub n (n ++ t) = Some 0.
Proof. pose proof (is_prefix_app n t) as H. destruct (n ++ t); cbn [find_sub]; by rewrite H. Qed.

Lemma substr_middle (p s q : bytes) n m : n = length p → m = length s → substr (p ++ s ++ q) n m = s.
Proof. intros -> ->. unfold substr. by rewrite drop_app_length, take_app_length. Qed.

(** A quoted parameter is read up to its closing quote. *)
Lemma param_value hv A key value B :
  plain value → hv = A ++ (key ++ str "=") ++ quote :: value ++ quote :: B →
  find_param (S (length hv)) hv (lower_ascii hv) (key ++ str "=") 0 = Some (length A) →
  extract_header_param hv key = value.
Proof.
  intros Hv Hhv Hp. unfold extract_header_param. rewrite Hp. cbv zeta.
  set (n := key ++ str "=") in *.
  assert (hv !! (length A + length n) = Some quote) as Hq.
  { rewrite Hhv, app_assoc, <- length_app. apply list_lookup_middle. done. }
  rewrite bool_decide_true by done.
  assert (drop (length A + length n + 1) hv = value ++ quote :: B) as Hd.
  { replace hv with (((A ++ n) ++ [quote]) ++ (value ++ quote :: B)) by (rewrite Hhv, <- !app_assoc; done).
    apply drop_app_length'. rewrite !length_app. cbn. lia. }
  assert (find_sub [quote] (value ++ quote :: B) = Some (length value)) as Hf.
  { change (value ++ quote :: B) with (value ++ [quote] ++ B). rewrite app_assoc. apply find_sub_app.
    apply find_sub_first. eapply Forall_impl; [exact Hv|]. by intros c [? _]. }
  rewrite find_from_at, Hd, Hf.
  - cbn [fmap option_fmap option_map]. unfold substr. rewrite Hd.
    replace (length A + length n + 1 + length value - (length A + length n) - 1) with (length value) by lia.
    apply take_app_length.
  - pose proof (f_equal length Hd) as Hl. rewrite length_drop, length_app in Hl. cbn in Hl. lia.
Qed.

Lemma find_param_here fuel hv lowered n pos :
  find_from n lowered 0 = Some pos → (hv !! (pos - 1) = Some (ch " ")) → find_param (S fuel) hv lowered n 0 = Some pos.
Proof.
  intros Hf Hc. cbn [find_param]. rewrite Hf, Hc. rewrite (Z.eqb_refl (ch " ")), orb_true_r. done.
Qed.

Lemma lower_ascii_app s t : lower_ascii (s ++ t) = lower_ascii s ++ lower_ascii t.
Proof. apply map_app. Qed.

Lemma find_from_0 n s : find_from n s 0 = find_sub n s.
Proof. rewrite find_from_at by lia. rewrite drop_0. by destruct (find_sub n s). Qed.

Lemma disposition_eq p :
  disposition p = str "form-data; name=" ++ quote :: name p ++ quote ::
    match filename p with [] => [] | f => str "; filename=" ++ quote :: f ++ [quote] end.
Proof. unfold disposition, parameter. destruct (filename p); repeat first [rewrite <- app_assoc | progress cbn]; done. Qed.

Lemma disposition_name p : plain (name p) → extract_header_param (disposition p) (str "name") = name p.
Proof.
  intros Hp. rewrite disposition_eq. set (rest := match filename p with [] => _ | _ => _ end).
  apply (param_value _ (str "form-data; ") (str "name") (name p) rest); [done|done|].
  apply find_param_here.
  - rewrite find_from_0, lower_ascii_app. by apply find_sub_app.
  - done.
Qed.

Lemma disposition_filename p :
  plain (filename p) → find_sub (str "filename=") (lower_ascii (name p)) = None →
  extract_header_param (disposition p) (str "filename") = filename p.
Proof.
  intros Hp Hn. rewrite disposition_eq. set (n := str "filename" ++ str "=").
  assert (n ≠ []) as Hne by done.
  assert (Forall (λ x, x ≠ quote) n) as Hq by (repeat (apply Forall_cons; split; [done|]); by apply Forall_nil).
  assert (∀ t, find_sub n (lower_ascii (str "form-data; name=" ++ quote :: name p ++ quote :: t)) =
               (λ i, length (str "form-data; name=" ++ quote :: name p ++ [quote]) + i) <$> find_sub n (lower_ascii t)) as Hskip.
  { intros t. rewrite lower_ascii_app. cbn [lower_ascii map]. change (to_lower quote) with quote.
    rewrite (find_sub_over n _ quote _ Hne Hq). change (find_sub n (lower_ascii (str "form-data; name="))) with (@None nat).
    fold (lower_ascii (name p ++ quote :: t)). rewrite lower_ascii_app. cbn [lower_ascii map]. change (to_lower quote) with quote.
    rewrite (find_sub_over n _ quote _ Hne Hq). change n with (str "filename=") at 1. rewrite Hn.
    fold (lower_ascii t). destruct (find_sub n (lower_ascii t)); [|done]. cbn [fmap option_fmap option_map].
    f_equal. rewrite !length_app. cbn [length]. rewrite length_app. unfold lower_ascii. rewrite !length_map. cbn [length]. lia. }
  destruct (filename p) as [|x f] eqn:Hf.
  - unfold extract_header_param. fold n. cbn [find_param]. by rewrite find_from_0, Hskip.
  - rewrite <- Hf. set (rest := str "; filename=" ++ quote :: filename p ++ [quote]).
    apply (param_value _ (str "form-data; name=" ++ quote :: name p ++ quote :: str "; ") (str "filename") (filename p) []).
    + by rewrite Hf.
    + subst rest. change (str "; filename=") with (str "; " ++ str "filename" ++ str "=").
      repeat (rewrite <- ?app_assoc; cbn [app]). done.
    + apply find_param_here.
      * rewrite find_from_0. rewrite Hskip. subst rest. rewrite lower_ascii_app.
        rewrite (find_sub_app n (lower_ascii (str "; filename=")) _ 2) by done. cbn [fmap option_fmap option_map].
        f_equal. rewrite !length_app. cbn [length]. rewrite !length_app. cbn [length].
        change (length (str "; ")) with 2. lia.
      * set (front := str "form-data; name=" ++ quote :: name p ++ quote :: str ";").
        assert (str "form-data; name=" ++ quote :: name p ++ quote :: rest =
                front ++ ch " " :: (str "filename=" ++ quote :: filename p ++ [quote])) as ->.
        { subst front rest. change (str "; filename=") with (str ";" ++ ch " " :: str "filename=").
          repeat (rewrite <- ?app_assoc; cbn [app]). done. }
        apply list_lookup_middle. subst front. rewrite !length_app. cbn [length]. rewrite !length_app. cbn [length].
        change (length (str "; ")) with 2. change (length (str ";")) with 1. lia.
Qed.

(** The header line of a part. *)
Definition header_of (p : MultipartPart) : bytes := str "Content-Disposition: " ++ disposition p.

Lemma part_text_eq p : part_text p = header_of p ++ crlf ++ crlf ++ data p.
Proof. unfold part_text, header_of. by rewrite <- app_assoc. Qed.

Lemma plain_without c value : plain value → (c = 13 ∨ c = 10)%Z → Forall (λ x, x ≠ c) value.
Proof. intros H Hc. eapply Forall_impl; [exact H|]. intros x (? & ? & ?). destruct Hc; congruence. Qed.

Lemma str_without c s : forallb (λ x, negb (x =b c)) (str s) = true → Forall (λ x, x ≠ c) (str s).
Proof.
  intros H. apply Forall_forall. intros x Hx. rewrite forallb_forall in H.
  apply list_elem_of_In, H, negb_true_iff, Z.eqb_neq in Hx. done.
Qed.

Lemma header_without c p :
  plain (name p) → plain (filename p) → (c = 13 ∨ c = 10)%Z → Forall (λ x, x ≠ c) (header_of p).
Proof.
  intros Hn Hf Hc. assert (quote ≠ c) as Hq by (destruct Hc; subst; done).
  assert (∀ s, forallb (λ x, negb (x =b 13) && negb (x =b 10)) (str s) = true → Forall (λ x, x ≠ c) (str s)) as Hs.
  { intros s H. apply str_without. rewrite forallb_forall in *. intros x Hx%H. apply andb_true_iff in Hx as [? ?]. by destruct Hc as [-> | ->]. }
  unfold header_of. rewrite disposition_eq. apply Forall_app_2; [by apply Hs|]. apply Forall_app_2; [by apply Hs|].
  apply Forall_cons. split; [done|]. apply Forall_app_2; [by apply plain_without|]. apply Forall_cons. split; [done|].
  destruct (filename p) eqn:E; [by apply Forall_nil|]. rewrite <- E in *. apply Forall_app_2; [by apply Hs|].
  apply Forall_cons. split; [done|]. apply Forall_app_2; [by apply plain_without|]. by apply Forall_singleton.
Qed.

Lemma disposition_last p : last (disposition p) = Some quote.
Proof.
  rewrite disposition_eq. destruct (filename p) as [|x f].
  - change (str "form-data; name=" ++ quote :: name p ++ [quote]) with (str "form-data; name=" ++ (quote :: name p) ++ [quote]).
    rewrite app_assoc. apply last_snoc.
  - change (quote :: name p ++ quote :: str "; filename=" ++ quote :: (x :: f) ++ [quote])
      with ((quote :: name p) ++ (quote :: str "; filename=") ++ (quote :: x :: f) ++ [quote]).
    rewrite !app_assoc. apply last_snoc.
Qed.

Lemma parse_part_text p :
  plain (name p) → plain (filename p) → find_sub (str "filename=") (lower_ascii (name p)) = None →
  parse_part (part_text p) = p.
Proof.
  intros Hn Hf Hnf. unfold parse_part. rewrite part_text_eq.
  assert (find_sub (crlf ++ crlf) (header_of p ++ crlf ++ crlf ++ data p) = Some (length (header_of p))) as ->.
  { rewrite (app_assoc crlf crlf), (app_assoc (header_of p)). apply find_sub_app. apply (find_sub_first 13).
    apply header_without; auto. }
  rewrite take_app_length.
  assert (drop (length (header_of p) + 4) (header_of p ++ crlf ++ crlf ++ data p) = data p) as ->.
  { rewrite (app_assoc crlf crlf), (app_assoc (header_of p)). apply drop_app_length'. rewrite length_app. cbn. lia. }
  assert (lines (header_of p) = [header_of p]) as ->.
  { unfold lines. rewrite split_on_find, find_sub_absent by (apply header_without; auto).
    rewrite bool_decide_false; [done|]. unfold header_of. done. }
  cbn [foldl]. unfold header_line. rewrite bool_decide_false.
  2: { unfold header_of. rewrite last_app, disposition_last. done. }
  unfold header_of. rewrite (find_sub_app (str ":") (str "Content-Disposition: ") (disposition p) 19) by done.
  change (take 19 (str "Content-Disposition: " ++ disposition p)) with (str "Content-Disposition").
  change (drop (19 + 1) (str "Content-Disposition: " ++ disposition p)) with (32%Z :: disposition p).
  cbv zeta. rewrite (bool_decide_true (lower_ascii _ = _)) by (vm_compute; done).
  assert (trim (32%Z :: disposition p) = disposition p) as ->.
  { change (trim (32%Z :: disposition p)) with (trim (disposition p)). apply trim_ends.
    - rewrite disposition_eq. intros c. by intros [= <-].
    - rewrite disposition_last. by intros c [= <-]. }
  rewrite disposition_name, disposition_filename by done. cbn [data]. by destruct p.
Qed.

Lemma strip_crlf s : strip_trailing_newline (s ++ crlf) = s.
Proof.
  unfold strip_trailing_newline. rewrite length_app. cbn [length crlf].
  rewrite (proj2 (Nat.leb_le _ _)) by lia. rewrite Nat.add_sub. rewrite drop_app_length, bool_decide_true by done.
  cbn [andb]. apply take_app_length.
Qed.

(** The rest of a form after its first delimiter. *)
Definition form_rest (delimiter : bytes) (parts : list MultipartPart) : bytes :=
  concat (map (λ part, crlf ++ part_text part ++ crlf ++ delimiter) parts) ++ str "--" ++ crlf.

Lemma form_body_eq boundary parts :
  form_body boundary parts = (str "--" ++ boundary) ++ form_rest (str "--" ++ boundary) parts.
Proof.
  unfold form_body, form_rest. set (d := str "--" ++ boundary).
  change (str "--" ++ boundary ++ str "--" ++ crlf) with (str "--" ++ boundary ++ (str "--" ++ crlf)).
  rewrite (app_assoc (str "--") boundary). fold d. generalize (str "--" ++ crlf). intros tail.
  induction parts as [|p parts IH]; cbn [map concat app]; [done|].
  rewrite (app_assoc (str "--") boundary). fold d. rewrite <- !app_assoc in *. rewrite IH. by rewrite <- ?app_assoc.
Qed.

Lemma find_delimiter boundary text rest :
  let d := str "--" ++ boundary in
  Forall (λ c, c ≠ 13 ∧ c ≠ 10)%Z boundary → find_sub d text = None →
  find_sub d (text ++ crlf ++ d ++ rest) = Some (length text + 2).
Proof.
  cbv zeta. set (d := str "--" ++ boundary). intros Hb Ht.
  assert (Forall (λ c, c ≠ 13 ∧ c ≠ 10)%Z d) as Hd.
  { apply Forall_app_2; [|done]. repeat (apply Forall_cons; split; [done|]). by apply Forall_nil. }
  assert (d ≠ []) as Hne by done.
  cbn [crlf app]. rewrite find_sub_over, Ht; [|done|eapply Forall_impl; [exact Hd|]; by intros c [? _]].
  change (10%Z :: d ++ rest) with ([] ++ 10%Z :: (d ++ rest)).
  rewrite find_sub_over; [|done|eapply Forall_impl; [exact Hd|]; by intros c [_ ?]].
  change (find_sub d []) with (@None nat).
  rewrite find_sub_here.
  done.
Qed.

Lemma parts_loop_form boundary parts fuel pre acc :
  let d := str "--" ++ boundary in
  Forall (λ c, c ≠ 13 ∧ c ≠ 10)%Z boundary → Forall (part_ok boundary) parts → length parts < fuel →
  parts_loop fuel (pre ++ form_rest d parts) d (length pre) acc = acc ++ parts.
Proof.
  cbv zeta. set (d := str "--" ++ boundary). intros Hb Hp. revert fuel pre acc.
  induction Hp as [|p parts (Hn & Hf & Hnf & Hd) _ IH]; intros [|fuel] pre acc Hfuel; [lia| |cbn in Hfuel; lia|].
  { cbn [parts_loop]. unfold form_rest. cbn [map concat app].
    rewrite bool_decide_true; [by rewrite app_nil_r|]. unfold substr. by rewrite drop_app_length. }
  cbn [parts_loop length] in *. set (rest := form_rest d parts).
  assert (pre ++ form_rest d (p :: parts) = pre ++ crlf ++ part_text p ++ crlf ++ d ++ rest) as Hbody.
  { subst rest. unfold form_rest. cbn [map concat]. by rewrite <- !app_assoc. }
  rewrite Hbody.
  assert (substr (pre ++ crlf ++ part_text p ++ crlf ++ d ++ rest) (length pre) 2 = crlf) as ->.
  { by apply (substr_middle pre crlf). }
  rewrite bool_decide_false by done. rewrite bool_decide_true by done. cbv zeta.
  assert (drop (length pre + 2) (pre ++ crlf ++ part_text p ++ crlf ++ d ++ rest) = part_text p ++ crlf ++ d ++ rest) as Hdrop.
  { rewrite app_assoc. apply drop_app_length'. rewrite length_app. cbn. lia. }
  rewrite find_from_at by (rewrite !length_app; cbn; lia). rewrite Hdrop.
  rewrite (find_delimiter boundary) by done. cbn [fmap option_fmap option_map].
  assert (substr (pre ++ crlf ++ part_text p ++ crlf ++ d ++ rest) (length pre + 2)
            (length pre + 2 + (length (part_text p) + 2) - (length pre + 2)) = part_text p ++ crlf) as ->.
  { unfold substr. rewrite Hdrop, app_assoc. apply take_app_length'. rewrite length_app. cbn. lia. }
  rewrite strip_crlf, parse_part_text by done.
  specialize (IH fuel (pre ++ crlf ++ part_text p ++ crlf ++ d) (acc ++ [p]) ltac:(lia)).
  rewrite <- !app_assoc in IH. cbn [app] in IH.
  replace (length pre + 2 + (length (part_text p) + 2) + length d) with (length (pre ++ crlf ++ part_text p ++ crlf ++ d))
    by (rewrite !length_app; cbn; lia).
  exact IH.
Qed.

Lemma form_rest_length d parts : length parts < length (form_rest d parts).
Proof.
  unfold form_rest. rewrite length_app. change (length (str "--" ++ crlf)) with 4.
  assert (length parts <= length (concat (map (λ part, crlf ++ part_text part ++ crlf ++ d) parts))); [|lia].
  induction parts; cbn [map concat length]; [lia|]. rewrite !length_app. change (length crlf) with 2. lia.
Qed.

(** * Theorems *)

(** C39. A form is read back exactly as it was written: for every list of parts
    whose names a form can carry, whatever bytes their data hold (line breaks and
    blank lines included) as long as the delimiter is not among them, parsing the
    written body gives the same parts, and the boundary is recovered from the
    content type that announces it. *)
Theorem multipart_roundtrip boundary parts :
  Forall (λ c, is_space c = false ∧ c ≠ ch ";" ∧ c ≠ quote)%Z boundary → boundary ≠ [] →
  Forall (part_ok boundary) parts →
  extract_multipart_boundary (str "multipart/form-data; boundary=" ++ boundary) = Some boundary ∧
  parse_multipart_body (form_body boundary parts) boundary = parts.
Proof.
  intros Hb Hne Hp. split.
  - unfold extract_multipart_boundary. cbv zeta. rewrite lower_ascii_app.
    change (is_prefix (str "multipart/") (lower_ascii (str "multipart/form-data; boundary=") ++ lower_ascii boundary)) with true.
    cbn [negb]. rewrite (find_sub_app (str "boundary=") _ _ 21) by done.
    change (drop (21 + length (str "boundary=")) (str "multipart/form-data; boundary=" ++ boundary)) with boundary.
    change (str ";") with [ch ";"].
    rewrite find_sub_absent by (eapply Forall_impl; [exact Hb|]; by intros c (_ & ? & _)).
    rewrite trim_solid by (eapply Forall_impl; [exact Hb|]; by intros c (? & _)).
    destruct boundary as [|x boundary]; [done|]. apply Forall_cons in Hb as [(_ & _ & Hx) _].
    rewrite (bool_decide_false (head _ = _)) by (cbn; congruence). by rewrite andb_false_r.
  - unfold parse_multipart_body. rewrite form_body_eq. set (d := str "--" ++ boundary). rewrite find_sub_here.
    rewrite Nat.add_0_l. apply parts_loop_form; [|done|].
    + eapply Forall_impl; [exact Hb|]. intros c (Hc & _). split; intros ->; done.
    + rewrite length_app. pose proof (form_rest_length d parts) as Hl. fold d. lia.
Qed.

Definition sample_parts : list MultipartPart :=
  [{| name := str "model"; filename := []; data := str "qwen3" |};
   {| name := str "file"; filename := str "clip.wav"; data := [0; 255; 13; 10; 13; 10; 45; 45; 7; 10]%Z |}].

Lemma multipart_roundtrip_witness :
  extract_multipart_boundary (str "multipart/form-data; boundary=" ++ str "XyZ") = Some (str "XyZ") ∧
  parse_multipart_body (form_body (str "XyZ") sample_parts) (str "XyZ") = sample_parts.
Proof.
  apply (multipart_roundtrip (str "XyZ") sample_parts).
  - repeat (apply Forall_cons; split; [by vm_compute|]). by apply Forall_nil.
  - done.
  - repeat (apply Forall_cons; split).
    + split_and!; [repeat (apply Forall_cons; split; [by vm_compute|]); by apply Forall_nil
                  |by apply Forall_nil|by vm_compute|by vm_compute].
    + split_and!; [repeat (apply Forall_cons; split; [by vm_compute|]); by apply Forall_nil
                  |repeat (apply Forall_cons; split; [by vm_compute|]); by apply Forall_nil
                  |by vm_compute|by vm_compute].
    + by apply Forall_nil.
Defined.

(** A parameter name is also found inside the quoted value of another one. *)
Lemma param_inside_quotes :
  extract_header_param
    (str "form-data; filename=" ++ [quote] ++ str "a; name=b" ++ [quote] ++ str "; name=" ++ [quote] ++ str "file" ++ [quote])
    (str "name") = str "b" ++ [quote].
Proof. by vm_compute. Qed.
