(* ===== verification/BusyGuard.v ===== *)
(** The guard that serializes the runs of one model (app/server/busy_guard.h):
    the timeout a run gets, and [BusyGuard] as a state machine of callers over a
    timed mutex and the time stamp of the run in progress. *)

From stdpp Require Import gmap.
From S2P Require Import Prelude.

Local Open Scope Z_scope.

(** * Timeouts *)

Definition model_run_has_overrun (busy_since_ms now_ms timeout_ms : Z) : bool :=
  if (timeout_ms <=? 0) || (busy_since_ms =b 0) then false
  else timeout_ms <? now_ms - busy_since_ms.

Definition resolve_busy_timeout_ms (ceiling : Z) (requested : option Z) : Z :=
  match requested with
  | None => ceiling
  | Some value =>
      if value <=? 0 then ceiling
      else if ceiling <=? 0 then value
      else if value <? ceiling then value else ceiling
  end.

(** * The guard *)

(** Where a call of [acquire], and the [Lock] it returns, is: before the load of
    [busy_since_ms_]; between the load and the read of the clock; waiting for the
    mutex, with the instant [try_lock_for] gives up; owning the mutex, before the
    time stamp; running; in the destructor of [Lock], between the store and the
    unlock; done; or with [ServerBusyError] thrown. *)
Inductive caller :=
| Checking (timeout_ms : Z)
| Loaded (timeout_ms since : Z)
| Waiting (deadline : option (Z * Z))      (* give up at, timeout *)
| Acquired
| Running (since : Z)
| Releasing
| Released
| Rejected (message : bytes).

Record BusyGuard := {
  now : Z;                                 (* [steady_now_ms()] *)
  busy_since_ms_ : Z;
  owner : option nat;                      (* of [mutex_] *)
  callers : gmap nat caller;
}.

#[local] Instance busy_guard_settable : Settable BusyGuard := λ g,
  {| now := now g; busy_since_ms_ := busy_since_ms_ g; owner := owner g; callers := callers g |}.

Definition idle_guard (t0 : Z) : BusyGuard := {| now := t0; busy_since_ms_ := 0; owner := None; callers := ∅ |}.

Section guard.
Context (label : bytes).                   (* of the model *)

Definition overrun_message (ran timeout_ms : Z) : bytes :=
  str "model '" ++ label ++ str "' is busy: current inference has run " ++ to_string ran ++
  str " ms (busy_timeout_ms=" ++ to_string timeout_ms ++
  str "); the previous request has likely wedged and cannot be cancelled".

Definition timeout_message (timeout_ms : Z) : bytes :=
  str "model '" ++ label ++ str "' is busy: timed out after " ++ to_string timeout_ms ++
  str " ms waiting for the inference lock".

Definition goto (t : nat) (c : caller) (g : BusyGuard) : BusyGuard := g <| callers := <[t := c]> (callers g) |>.

Inductive action :=
| Acquire (t : nat) (timeout_ms : Z)       (* [acquire] is called *)
| Load (t : nat)
| Decide (t : nat)                         (* fail fast, or start to wait *)
| Lock (t : nat)
| GiveUp (t : nat)                         (* [try_lock_for] returns false *)
| Stamp (t : nat)
| Finish (t : nat)                         (* the run ends, by return or exception *)
| Unlock (t : nat)
| Elapse (d : Z).

Definition step (a : action) (g : BusyGuard) : option BusyGuard :=
  match a with
  | Acquire t timeout_ms =>
      match callers g !! t with
      | None => Some (goto t (if timeout_ms <=? 0 then Waiting None else Checking timeout_ms) g)
      | Some _ => None
      end
  | Load t =>
      match callers g !! t with
      | Some (Checking timeout_ms) => Some (goto t (Loaded timeout_ms (busy_since_ms_ g)) g)
      | _ => None
      end
  | Decide t =>
      match callers g !! t with
      | Some (Loaded timeout_ms since) =>
          Some (goto t (if model_run_has_overrun since (now g) timeout_ms
                        then Rejected (overrun_message (now g - since) timeout_ms)
                        else Waiting (Some (now g + timeout_ms, timeout_ms))) g)
      | _ => None
      end
  | Lock t =>
      match callers g !! t, owner g with
      | Some (Waiting _), None => Some (goto t Acquired (g <| owner := Some t |>))
      | _, _ => None
      end
  | GiveUp t =>
      match callers g !! t with
      | Some (Waiting (Some (deadline, timeout_ms))) =>
          if deadline <=? now g then Some (goto t (Rejected (timeout_message timeout_ms)) g) else None
      | _ => None
      end
  | Stamp t =>
      match callers g !! t with
      | Some Acquired => Some (goto t (Running (now g)) (g <| busy_since_ms_ := now g |>))
      | _ => None
      end
  | Finish t =>
      match callers g !! t with
      | Some (Running _) => Some (goto t Releasing (g <| busy_since_ms_ := 0 |>))
      | _ => None
      end
  | Unlock t =>
      match callers g !! t with
      | Some Releasing => Some (goto t Released (g <| owner := None |>))
      | _ => None
      end
  | Elapse d => if 0 <=? d then Some (g <| now := now g + d |>) else None
  end.

Definition run (actions : list action) (g : BusyGuard) : option BusyGuard :=
  foldl (λ g a, g ≫= step a) (Some g) actions.

(** The clock starts after the epoch. *)
Inductive reachable : BusyGuard → Prop :=
| reach_idle t0 : 0 < t0 → reachable (idle_guard t0)
| reach_step a g g' : reachable g → step a g = Some g' → reachable g'.

(** * Invariant *)

Definition holds (c : caller) : bool :=
  match c with Acquired | Running _ | Releasing => true | _ => false end.

Record invariant (g : BusyGuard) : Prop := {
  inv_clock : 0 < now g;
  inv_owner : ∀ t c, callers g !! t = Some c → holds c = true ↔ owner g = Some t;
  inv_owned : ∀ t, owner g = Some t → is_Some (callers g !! t);
  inv_stamp : match owner g ≫= λ t, callers g !! t with
              | Some (Running since) => busy_since_ms_ g = since ∧ 0 < since <= now g
              | _ => busy_since_ms_ g = 0
              end;
  inv_loaded : ∀ t timeout_ms since, callers g !! t = Some (Loaded timeout_ms since) →
               0 < timeout_ms ∧ 0 <= since <= now g;
  inv_checking : ∀ t timeout_ms, callers g !! t = Some (Checking timeout_ms) → 0 < timeout_ms;
  inv_waiting : ∀ t deadline timeout_ms, callers g !! t = Some (Waiting (Some (deadline, timeout_ms))) →
                0 < timeout_ms ∧ deadline <= now g + timeout_ms;
}.

Lemma invariant_idle t0 : 0 < t0 → invariant (idle_guard t0).
Proof. by split. Qed.

(** A caller moves on without touching the mutex. *)
Lemma invariant_goto t c c' g :
  invariant g → callers g !! t = Some c ∨ (callers g !! t = None ∧ c = Released) →
  holds c = false → holds c' = false →
  (∀ timeout_ms since, c' = Loaded timeout_ms since → 0 < timeout_ms ∧ 0 <= since <= now g) →
  (∀ timeout_ms, c' = Checking timeout_ms → 0 < timeout_ms) →
  (∀ deadline timeout_ms, c' = Waiting (Some (deadline, timeout_ms)) → 0 < timeout_ms ∧ deadline <= now g + timeout_ms) →
  invariant (goto t c' g).
Proof.
  intros Hi Hc Hh Hh' Hl Hk Hw.
  assert (owner g ≠ Some t) as Ho.
  { intros Ho. destruct Hc as [Hc|[Hc _]].
    - apply (inv_owner _ Hi _ _ Hc) in Ho. congruence.
    - destruct (inv_owned _ Hi _ Ho). congruence. }
  split; cbn.
  - apply Hi.
  - intros t' d. rewrite lookup_insert. case_decide; subst; [intros [= <-]; rewrite Hh'; naive_solver|apply Hi].
  - intros t' Ht'. apply lookup_insert_is_Some'. right. by apply Hi.
  - pose proof (inv_stamp _ Hi) as Hs. destruct (owner g) as [o|]; cbn in *; [|done].
    rewrite lookup_insert_ne by congruence. exact Hs.
  - intros t' timeout_ms since. rewrite lookup_insert. case_decide; [intros [= ?]; auto|apply Hi].
  - intros t' timeout_ms. rewrite lookup_insert. case_decide; [intros [= ?]; auto|apply Hi].
  - intros t' deadline timeout_ms. rewrite lookup_insert. case_decide; [intros [= ?]; auto|apply Hi].
Qed.

(** The owner moves on, or a caller becomes the owner, or stops to be it. *)
Lemma invariant_own t c c' o stamp g :
  invariant g → callers g !! t = Some c → owner g = (if holds c then Some t else None) →
  o = (if holds c' then Some t else None) → holds c || holds c' = true →
  match c' with Running since => stamp = since ∧ 0 < since <= now g | Checking _ | Loaded _ _ | Waiting _ => False | _ => stamp = 0 end →
  invariant (goto t c' (g <| owner := o |> <| busy_since_ms_ := stamp |>)).
Proof.
  intros Hi Hc Ho Ho' Hh Hs. split; cbn.
  - apply Hi.
  - intros t' d. rewrite lookup_insert. case_decide; subst.
    + intros [= <-]. destruct (holds c'); naive_solver.
    + intros Hd. pose proof (inv_owner _ Hi _ _ Hd) as Hx. rewrite Ho in Hx.
      destruct (holds c), (holds c'); naive_solver.
  - intros t' Ht'. rewrite Ho' in Ht'. destruct (holds c'); [|done]. injection Ht' as <-. rewrite lookup_insert_eq. done.
  - rewrite Ho'. destruct c'; cbn in *; try done; by rewrite ?lookup_insert_eq.
  - intros t' timeout_ms since. rewrite lookup_insert. case_decide; [intros [= ->]; done|apply Hi].
  - intros t' timeout_ms. rewrite lookup_insert. case_decide; [intros [= ->]; done|apply Hi].
  - intros t' deadline timeout_ms. rewrite lookup_insert. case_decide; [intros [= ->]; done|apply Hi].
Qed.

Lemma owned g t c : invariant g → callers g !! t = Some c → holds c = true → owner g = Some t.
Proof. intros Hi Hc Hh. by apply (inv_owner _ Hi t c). Qed.

Lemma guard_step_invariant a g g' : step a g = Some g' → invariant g → invariant g'.
Proof.
  intros Hs Hi. destruct a as [t timeout_ms|t|t|t|t|t|t|t|d]; cbn in Hs.
  - destruct (callers g !! t) eqn:Hc; [done|]. injection Hs as <-.
    apply (invariant_goto t Released); [done|by right|done|..]; destruct (Z.leb_spec timeout_ms 0); try done; naive_solver.
  - destruct (callers g !! t) as [[]|] eqn:Hc; try done. injection Hs as <-.
    eapply invariant_goto; [done|by left|done|done| |done|done]. intros ?? [= <- <-].
    split; [by eapply inv_checking|]. pose proof (inv_stamp _ Hi) as Hst. pose proof (inv_clock _ Hi).
    destruct (_ ≫= _) as [[]|] in Hst; lia.
  - destruct (callers g !! t) as [[]|] eqn:Hc; try done. injection Hs as <-.
    pose proof (inv_loaded _ Hi _ _ _ Hc) as [Ht _].
    eapply invariant_goto; [done|by left|done|..]; case_bool; try done. intros ?? [= <- <-]. lia.
  - destruct (callers g !! t) as [[]|] eqn:Hc; try done. destruct (owner g) eqn:Ho; [done|]. injection Hs as <-.
    pose proof (inv_stamp _ Hi) as Hst. rewrite Ho in Hst. cbn in Hst.
    apply (invariant_own t _ Acquired (Some t) (busy_since_ms_ g) g Hi Hc); done.
  - destruct (callers g !! t) as [[| |[[]|]| | | | |]|] eqn:Hc; try done. case_bool; [|done]. injection Hs as <-.
    by eapply invariant_goto; [|by left|..].
  - destruct (callers g !! t) as [[]|] eqn:Hc; try done. injection Hs as <-.
    pose proof (owned g t _ Hi Hc eq_refl) as Ho. pose proof (inv_clock _ Hi).
    pose proof (invariant_own t _ (Running (now g)) (Some t) (now g) g Hi Hc Ho eq_refl eq_refl ltac:(cbn; lia)) as H'.
    rewrite <- Ho in H'. by destruct g.
  - destruct (callers g !! t) as [[]|] eqn:Hc; try done. injection Hs as <-.
    pose proof (owned g t _ Hi Hc eq_refl) as Ho.
    pose proof (invariant_own t _ Releasing (Some t) 0 g Hi Hc Ho eq_refl eq_refl eq_refl) as H'.
    rewrite <- Ho in H'. by destruct g.
  - destruct (callers g !! t) as [[]|] eqn:Hc; try done. injection Hs as <-.
    pose proof (owned g t _ Hi Hc eq_refl) as Ho. pose proof (inv_stamp _ Hi) as Hst. rewrite Ho in Hst. cbn in Hst. rewrite Hc in Hst.
    apply (invariant_own t _ Released None (busy_since_ms_ g) g Hi Hc Ho eq_refl eq_refl Hst).
  - destruct (Z.leb_spec 0 d); [|done]. injection Hs as <-. destruct Hi as [H1 H2 H3 H4 H5 H6 H7]. split; cbn; [lia|done|done| | |done|].
    + destruct (_ ≫= _) as [[]|] in H4 |- *; try done. lia.
    + intros t timeout_ms since Hc. apply H5 in Hc. lia.
    + intros t deadline timeout_ms Hc. apply H7 in Hc. lia.
Qed.

Lemma guard_reachable_invariant g : reachable g → invariant g.
Proof. induction 1 as [t0|a g g' _ IH Hs]; [by apply invariant_idle|by eapply guard_step_invariant]. Qed.

Lemma run_cons a actions g g1 : step a g = Some g1 → run (a :: actions) g = run actions g1.
Proof. intros H. unfold run. cbn. by rewrite H. Qed.

(** * Theorems *)

(** The callers an action is of. *)
Definition own_action (t : nat) (a : action) : bool :=
  match a with
  | Acquire t' _ | Load t' | Decide t' | Lock t' | GiveUp t' | Stamp t' | Finish t' | Unlock t' => Nat.eqb t t'
  | Elapse _ => true
  end.

(** How long a caller may still wait. *)
Definition patience (c : caller) : option Z :=
  match c with
  | Checking timeout_ms | Loaded timeout_ms _ | Waiting (Some (_, timeout_ms)) => Some timeout_ms
  | _ => None
  end.

(** C22. One run at a time, and an honest time stamp: in every reachable state at
    most one caller owns the mutex; [busy_since_ms_] is not 0 exactly when a
    caller is running, and then it is the instant its run began, not in the
    future; when no caller holds the guard the mutex is free and the stamp is 0,
    whatever way the runs ended. *)
Theorem busy_guard_safe g :
  reachable g →
  (∀ t t' c c', callers g !! t = Some c → callers g !! t' = Some c' → holds c = true → holds c' = true → t = t') ∧
  (∀ t since, callers g !! t = Some (Running since) → busy_since_ms_ g = since ∧ 0 < since <= now g) ∧
  (busy_since_ms_ g ≠ 0 → ∃ t, callers g !! t = Some (Running (busy_since_ms_ g))) ∧
  ((∀ t c, callers g !! t = Some c → holds c = false) → owner g = None ∧ busy_since_ms_ g = 0).
Proof.
  intros Hr. pose proof (guard_reachable_invariant g Hr) as Hi. pose proof (inv_stamp _ Hi) as Hs. split_and!.
  - intros t t' c c' Hc Hc' Hh Hh'. apply (owned g t c) in Hh; [|done..]. apply (owned g t' c') in Hh'; [|done..]. congruence.
  - intros t since Hc. rewrite (owned g t _ Hi Hc eq_refl) in Hs. cbn in Hs. by rewrite Hc in Hs.
  - intros Hb. destruct (owner g) as [t|] eqn:Ho; cbn in Hs; [|done].
    destruct (callers g !! t) as [[]|] eqn:Hc; try done. exists t. destruct Hs as [-> _]. done.
  - intros Hn. assert (owner g = None) as Ho.
    { destruct (owner g) as [t|] eqn:Ho; [|done]. destruct (inv_owned _ Hi t Ho) as [c Hc].
      apply (inv_owner _ Hi t c Hc) in Ho. specialize (Hn t c Hc). congruence. }
    by rewrite Ho in Hs.
Qed.

(** Failing fast is justified: the stamp a caller loads is 0 or the instant at
    which a run then in progress began, and the caller is refused without waiting
    exactly when that run, timed by the clock it reads afterwards, has lasted
    longer than the caller's timeout; the message says how long. *)
Theorem fail_fast_justified g t timeout_ms since :
  reachable g →
  (∀ g', step (Load t) g = Some g' → callers g' !! t = Some (Loaded timeout_ms since) →
     since = 0 ∨ ∃ runner, owner g = Some runner ∧ callers g !! runner = Some (Running since)) ∧
  (callers g !! t = Some (Loaded timeout_ms since) →
     ∃ g', step (Decide t) g = Some g' ∧
       (callers g' !! t = Some (Rejected (overrun_message (now g - since) timeout_ms)) ↔
          since ≠ 0 ∧ timeout_ms < now g - since) ∧
       (callers g' !! t = Some (Waiting (Some (now g + timeout_ms, timeout_ms))) ↔
          since = 0 ∨ now g - since <= timeout_ms)).
Proof.
  intros Hr. pose proof (guard_reachable_invariant g Hr) as Hi. split.
  - intros g' Hl Hc. cbn in Hl. destruct (callers g !! t) as [[]|] eqn:E; try done. injection Hl as <-.
    cbn in Hc. rewrite lookup_insert_eq in Hc. injection Hc as <- <-.
    pose proof (inv_stamp _ Hi) as Hs. destruct (owner g) as [r|] eqn:Ho; cbn in Hs; [|by left].
    destruct (callers g !! r) as [[]|] eqn:Hc; try (by left). right. exists r. by destruct Hs as [-> _].
  - intros Hc. pose proof (inv_loaded _ Hi _ _ _ Hc) as [Ht _]. cbn [step]. rewrite Hc. eexists. split; [done|].
    cbn. rewrite lookup_insert_eq. unfold model_run_has_overrun.
    rewrite (proj2 (Z.leb_gt _ _)) by done. cbn [orb].
    destruct (Z.eqb_spec since 0); [split; split; naive_solver lia|].
    destruct (Z.ltb_spec timeout_ms (now g - since)); split; split; naive_solver lia.
Qed.

(** A bounded caller is never stuck behind a wedged run: from every reachable
    state, with no step of any other caller and at most its timeout of waiting,
    [acquire] throws [ServerBusyError]; and whenever the mutex is free a waiting
    caller can take it. *)
Theorem bounded_caller_answers g t c timeout_ms :
  reachable g → callers g !! t = Some c → patience c = Some timeout_ms →
  (∃ actions g' message,
     Forall (λ a, own_action t a = true) actions ∧ run actions g = Some g' ∧
     now g' <= now g + timeout_ms ∧ callers g' !! t = Some (Rejected message)) ∧
  (owner g = None → ∀ deadline, c = Waiting deadline → is_Some (step (Lock t) g)).
Proof.
  intros Hr Hc Hp. pose proof (guard_reachable_invariant g Hr) as Hi. split.
  2: { intros Ho deadline ->. cbn. by rewrite Hc, Ho. }
  assert (∀ g since, invariant g → callers g !! t = Some (Loaded timeout_ms since) → ∃ actions g' message,
     Forall (λ a, own_action t a = true) actions ∧ run actions g = Some g' ∧
     now g' <= now g + timeout_ms ∧ callers g' !! t = Some (Rejected message)) as Hloaded.
  { clear g c Hr Hc Hp Hi. intros g since Hi Hc. pose proof (inv_loaded _ Hi _ _ _ Hc) as [Ht _].
    destruct (model_run_has_overrun since (now g) timeout_ms) eqn:Hov.
    - eexists [Decide t], _, _. split; [by repeat constructor; cbn; rewrite Nat.eqb_refl|].
      split; [unfold run; cbn; rewrite Hc, Hov; done|]. split; [cbn; lia|]. apply lookup_insert_eq.
    - eexists [Decide t; Elapse timeout_ms; GiveUp t], _, _.
      split; [repeat constructor; cbn; by rewrite ?Nat.eqb_refl|]. split.
      + unfold run. cbn. rewrite Hc, Hov. cbn. rewrite (proj2 (Z.leb_le 0 timeout_ms)) by lia. cbn.
        rewrite lookup_insert_eq, Z.leb_refl. done.
      + split; [cbn; lia|]. apply lookup_insert_eq. }
  destruct c as [?|? since|[[deadline ?]|]| | | | |]; simplify_eq/=.
  - pose proof (guard_step_invariant (Load t) g (goto t (Loaded timeout_ms (busy_since_ms_ g)) g)) as Hstep. cbn in Hstep.
    rewrite Hc in Hstep. specialize (Hstep eq_refl Hi).
    destruct (Hloaded _ (busy_since_ms_ g) Hstep (lookup_insert_eq _ _ _)) as (actions & g' & m & Ha & Hrun & Hn & Hrej).
    exists (Load t :: actions), g', m. split; [constructor; [cbn; apply Nat.eqb_refl|done]|].
    split; [|done]. rewrite (run_cons _ _ g (goto t (Loaded timeout_ms (busy_since_ms_ g)) g)); [done|]. cbn. by rewrite Hc.
  - by eapply Hloaded.
  - destruct (inv_waiting _ Hi _ _ _ Hc) as [Ht Hd].
    eexists [Elapse timeout_ms; GiveUp t], _, _. split; [repeat constructor; cbn; by rewrite ?Nat.eqb_refl|]. split.
    + unfold run. cbn. rewrite (proj2 (Z.leb_le 0 timeout_ms)) by lia. cbn. rewrite Hc.
      rewrite (proj2 (Z.leb_le deadline _)) by lia. done.
    + split; [cbn; lia|]. apply lookup_insert_eq.
Qed.
End guard.

(** A timeout as a bound: 0 and below mean none. *)
Definition bound (timeout_ms : Z) : option Z := if timeout_ms <=? 0 then None else Some timeout_ms.

Definition tighter (a b : option Z) : option Z :=
  match a, b with Some x, Some y => Some (Z.min x y) | Some x, None => Some x | None, b => b end.

(** A request can tighten the policy and never weaken it: the resolved timeout
    is the smaller of the two bounds, where no bound is infinite. *)
Theorem resolve_tightest ceiling requested :
  bound (resolve_busy_timeout_ms ceiling requested) = tighter (bound ceiling) (requested ≫= bound).
Proof.
  unfold resolve_busy_timeout_ms, bound, tighter. destruct requested as [value|]; cbn; repeat case_bool; try f_equal; try lia; try done.
Qed.

(** * A wedged run *)

Definition wedged_actions : list action :=
  [Acquire 1 1000; Load 1; Decide 1; Lock 1; Stamp 1; Elapse 400; Acquire 2 1000; Load 2; Decide 2; Elapse 700; Acquire 3 1000; Load 3].

Definition wedged : BusyGuard := default (idle_guard 5) (run (str "m") wedged_actions (idle_guard 5)).

Lemma wedged_reachable : reachable (str "m") wedged.
Proof.
  assert (∀ actions g g', reachable (str "m") g → run (str "m") actions g = Some g' → reachable (str "m") g') as Hrun.
  { induction actions as [|a actions IH]; intros g g' Hr H; [by injection H as <-|].
    destruct (step (str "m") a g) as [g1|] eqn:E.
    - apply (IH g1 g'); [by eapply reach_step|]. by rewrite <- (run_cons _ a actions g g1 E).
    - change (foldl (λ g a, g ≫= step (str "m") a) (step (str "m") a g) actions = Some g') in H.
      rewrite E in H. exfalso. clear -H. induction actions; cbn in H; [done|auto]. }
  assert (is_Some (run (str "m") wedged_actions (idle_guard 5))) as [g Hg].
  { apply not_eq_None_Some. by vm_compute. }
  apply (Hrun wedged_actions (idle_guard 5)); [by constructor|]. unfold wedged. by rewrite Hg.
Qed.

Lemma busy_guard_safe_witness :
  (∀ t t' c c', callers wedged !! t = Some c → callers wedged !! t' = Some c' → holds c = true → holds c' = true → t = t') ∧
  (∀ t since, callers wedged !! t = Some (Running since) → busy_since_ms_ wedged = since ∧ 0 < since <= now wedged) ∧
  (busy_since_ms_ wedged ≠ 0 → ∃ t, callers wedged !! t = Some (Running (busy_since_ms_ wedged))) ∧
  ((∀ t c, callers wedged !! t = Some c → holds c = false) → owner wedged = None ∧ busy_since_ms_ wedged = 0).
Proof. apply (busy_guard_safe (str "m")), wedged_reachable. Defined.

Lemma fail_fast_justified_witness :
  callers wedged !! 3%nat = Some (Loaded 1000 5) ∧
  ((∀ g', step (str "m") (Load 3) wedged = Some g' → callers g' !! 3%nat = Some (Loaded 1000 5) →
     5 = 0 ∨ ∃ runner, owner wedged = Some runner ∧ callers wedged !! runner = Some (Running 5)) ∧
   (callers wedged !! 3%nat = Some (Loaded 1000 5) →
     ∃ g', step (str "m") (Decide 3) wedged = Some g' ∧
       (callers g' !! 3%nat = Some (Rejected (overrun_message (str "m") (now wedged - 5) 1000)) ↔
          5 ≠ 0 ∧ 1000 < now wedged - 5) ∧
       (callers g' !! 3%nat = Some (Waiting (Some (now wedged + 1000, 1000))) ↔ 5 = 0 ∨ now wedged - 5 <= 1000))).
Proof. split; [done|]. apply (fail_fast_justified (str "m")), wedged_reachable. Defined.

Lemma bounded_caller_answers_witness :
  (∃ actions g' message,
     Forall (λ a, own_action 2 a = true) actions ∧ run (str "m") actions wedged = Some g' ∧
     now g' <= now wedged + 1000 ∧ callers g' !! 2%nat = Some (Rejected message)) ∧
  (owner wedged = None → ∀ deadline, Waiting (Some (1405, 1000)) = Waiting deadline → is_Some (step (str "m") (Lock 2) wedged)).
Proof. by apply (bounded_caller_answers (str "m") wedged 2 (Waiting (Some (1405, 1000))) 1000 wedged_reachable). Defined.
