(* ===== verification/AudioStream.v ===== *)
(** Feeding audio to a streaming session (app/streaming/pcm_source.cpp and
    app/streaming/streaming.cpp): the readers of raw PCM and of a buffer, behind
    the interface the feeding loop uses, and the run of one streaming task. *)

From S2P Require Import Prelude.

(** * Data *)

Record AudioStreamFormat := { sample_rate : Z; channels : Z }.

Inductive PcmSampleFormat := S16LE | F32LE.

#[export] Instance PcmSampleFormat_eq_dec : EqDecision PcmSampleFormat.
Proof. solve_decision. Defined.

Inductive StreamingInputKind := NoInput | AudioChunks.
Inductive StreamingOutputKind := FinalResult | PullEvents.

(** [AudioChunkReader], with the state its closure captures: at most
    [max_samples] samples, and whether more may follow. *)
Class AudioChunkReader (Float Source : Type) :=
  read_chunk : Z → Source → outcome (bool * list Float) * Source.

(** What a reader promises for blocks of [max_samples]: it hands over the
    samples that remain, in order and without loss, in blocks of whole frames; and
    it ends. *)
Class ReaderLaws (Float Source : Type) `{AudioChunkReader Float Source} (frame : nat) (max_samples : Z) := {
  valid : Source → Prop;
  remaining : Source → list Float;
  patience : Source → nat;
  read_spec s :
    valid s →
    ∃ more block s', read_chunk max_samples s = (Ok (more, block), s') ∧ valid s' ∧
      remaining s = block ++ remaining s' ∧ (∃ k, length block = k * frame) ∧
      (Z.of_nat (length block) <= max_samples)%Z ∧
      (more = false → remaining s' = []) ∧ (more = true → patience s' < patience s);
}.
#[global] Hint Mode ReaderLaws - + - - - : typeclass_instances.

Section stream.
Context {Float : Type}.

Record AudioChunk := {
  chunk_sample_rate : Z; chunk_channels : Z; start_sample : Z; samples : list Float
}.

(** An event of a session: its fields, each as the list or option it is, the
    entries of a type of the session's. *)
Context {Entry Result Request Seconds : Type}.
Record StreamEvent := {
  voice_activity : list Entry;
  partial_text : option Entry;
  audio_output : option Entry;
  named_audio_outputs : list Entry;
  speaker_turns : list Entry;
  word_timestamps : list Entry;
  output_artifacts : list Entry;
  is_final : bool;
}.

Record StreamingPolicy := {
  input : StreamingInputKind;
  output : StreamingOutputKind;
  preferred_audio_chunk_samples : Z;
  preferred_audio_chunk_seconds : Seconds;
}.

(** * Raw PCM *)

(** [static_cast<float>(x) / 32768.0F], and the [float] of 32 bits. *)
Context (scale_s16 : Z → Float) (float_of_bits : Z → Float).

Definition byte_at (bytes : list Z) (i : nat) : Z := default 0%Z (bytes !! i).

(** The 16-bit word as [int16_t]. *)
Definition int16_of (raw : Z) : Z := if (raw <? 2 ^ 15)%Z then raw else (raw - 2 ^ 16)%Z.

Definition decode_s16le (bytes : list Z) : Float :=
  scale_s16 (int16_of (uwrap 16 (Z.lor (byte_at bytes 0) (Z.shiftl (byte_at bytes 1) 8)))).

Definition decode_f32le (bytes : list Z) : Float :=
  float_of_bits (Z.lor (Z.lor (Z.lor (byte_at bytes 0) (Z.shiftl (byte_at bytes 1) 8))
                              (Z.shiftl (byte_at bytes 2) 16)) (uwrap 32 (Z.shiftl (byte_at bytes 3) 24))).

Definition pcm_sample_format_bytes (f : PcmSampleFormat) : nat := match f with S16LE => 2 | F32LE => 4 end.

Definition decode (f : PcmSampleFormat) : list Z → Float :=
  match f with S16LE => decode_s16le | F32LE => decode_f32le end.

Definition parse_pcm_sample_format (name : bytes) : outcome PcmSampleFormat :=
  if bool_decide (name = str "s16le") then Ok S16LE
  else if bool_decide (name = str "f32le") then Ok F32LE
  else Throw (str "unsupported raw PCM sample format '" ++ name ++ str "' (expected s16le or f32le)").

Definition format_to_string (f : PcmSampleFormat) : bytes :=
  match f with S16LE => str "s16le" | F32LE => str "f32le" end.

(** [count] samples from the front of the bytes. *)
Fixpoint decode_samples (f : PcmSampleFormat) (count : nat) (bytes : list Z) : list Float :=
  match count with
  | O => []
  | S count => decode f bytes :: decode_samples f count (drop (pcm_sample_format_bytes f) bytes)
  end.

(** The closure of [make_pcm_chunk_stream]: the bytes the input still holds. *)
Record PcmSource := { pcm_format : PcmSampleFormat; frame_bytes : nat; source : list Z }.

Definition make_pcm_chunk_stream (source : list Z) (format : AudioStreamFormat) (sample_format : PcmSampleFormat) :
    outcome PcmSource :=
  if (sample_rate format <=? 0)%Z || (channels format <=? 0)%Z
  then Throw (str "raw PCM input requires a positive sample rate and channel count")
  else Ok {| pcm_format := sample_format;
             frame_bytes := pcm_sample_format_bytes sample_format * Z.to_nat (channels format); source := source |}.

Definition pcm_read (max_samples : Z) (s : PcmSource) : outcome (bool * list Float) * PcmSource :=
  if (max_samples <=? 0)%Z then (Throw (str "raw PCM read requires a positive sample count"), s)
  else
    let sample_bytes := pcm_sample_format_bytes (pcm_format s) in
    let size := Z.to_nat max_samples * sample_bytes in
    let received := take size (source s) in
    let usable := length received / frame_bytes s * frame_bytes s in
    (Ok (length received =? size, decode_samples (pcm_format s) (usable / sample_bytes) received),
     {| pcm_format := pcm_format s; frame_bytes := frame_bytes s; source := drop size (source s) |}).

#[local] Instance pcm_reader : AudioChunkReader Float PcmSource := pcm_read.

(** * A buffer as a stream *)

Record AudioBuffer := { buffer_rate : Z; buffer_channels : Z; buffer_samples : list Float }.

Record BufferSource := { whole : list Float; offset : nat }.

Definition buffer_audio_stream (audio : AudioBuffer) : outcome (AudioStreamFormat * BufferSource) :=
  if (buffer_channels audio <=? 0)%Z || negb (Nat.modulo (length (buffer_samples audio)) (Z.to_nat (buffer_channels audio)) =? 0)
  then Throw (str "streaming audio input sample count must be divisible by channels")
  else Ok ({| sample_rate := buffer_rate audio; channels := buffer_channels audio |},
           {| whole := buffer_samples audio; offset := 0 |}).

Definition buffer_read (max_samples : Z) (s : BufferSource) : outcome (bool * list Float) * BufferSource :=
  let available := Nat.min (Z.to_nat max_samples) (length (whole s) - offset s) in
  let offset' := offset s + available in
  (Ok (offset' <? length (whole s), take available (drop (offset s) (whole s))),
   {| whole := whole s; offset := offset' |}).

#[local] Instance buffer_reader : AudioChunkReader Float BufferSource := buffer_read.

(** * Running a task *)

(** [IStreamingVoiceTaskSession]. *)
Record SessionOps (Session : Type) := {
  streaming_policy : Session → StreamingPolicy;
  set_stream_event_sink : bool → Session → Session;    (* a sink, or [nullptr] *)
  start_stream : Request → io Session ();
  process_audio_chunk : AudioChunk → io Session StreamEvent;
  next_stream_event : io Session (option StreamEvent);
  finish_stream : io Session Result;
}.
Arguments streaming_policy {Session}.
Arguments set_stream_event_sink {Session}.
Arguments start_stream {Session}.
Arguments process_audio_chunk {Session}.
Arguments next_stream_event {Session}.
Arguments finish_stream {Session}.

Context {Session Source : Type} (ops : SessionOps Session) `{reader : AudioChunkReader Float Source}.

(** The session, whether the task's sink is installed in it, what the reader has
    left, and the events handed to the sink. *)
Record world := { session : Session; sink_set : bool; stream : Source; emitted : list StreamEvent }.

Definition in_session {A} (m : io Session A) : io world A := λ w,
  let '(r, s) := m (session w) in
  (r, {| session := s; sink_set := sink_set w; stream := stream w; emitted := emitted w |}).

Definition set_sink (on : bool) : io world () :=
  io_modify (λ w, {| session := set_stream_event_sink ops on (session w); sink_set := on; stream := stream w;
                     emitted := emitted w |}).

Definition read_block (max_samples : Z) : io world (bool * list Float) := λ w,
  let '(r, s) := read_chunk max_samples (stream w) in
  (r, {| session := session w; sink_set := sink_set w; stream := s; emitted := emitted w |}).

Definition is_nil {A} (l : list A) : bool := match l with [] => true | _ => false end.
Definition is_none {A} (o : option A) : bool := match o with None => true | _ => false end.

Definition emit_if_nonempty (e : StreamEvent) : io world () :=
  if is_nil (voice_activity e) && is_none (partial_text e) && is_none (audio_output e) &&
     is_nil (named_audio_outputs e) && is_nil (speaker_turns e) && is_nil (word_timestamps e) &&
     is_nil (output_artifacts e) && negb (is_final e)
  then mret tt
  else io_modify (λ w, {| session := session w; sink_set := sink_set w; stream := stream w; emitted := emitted w ++ [e] |}).

(** [seconds > 0.0] and [llround(seconds * rate)]. *)
Context (seconds_positive : Seconds → bool) (round_samples : Seconds → Z → Z).

Definition resolve_chunk_samples (policy : StreamingPolicy) (format : AudioStreamFormat) : Z :=
  if seconds_positive (preferred_audio_chunk_seconds policy)
  then (round_samples (preferred_audio_chunk_seconds policy) (sample_rate format) * channels format)%Z
  else preferred_audio_chunk_samples policy.

Definition process (format : AudioStreamFormat) (start_sample : Z) (samples : list Float) : io world () :=
  event ← in_session (process_audio_chunk ops
    {| chunk_sample_rate := sample_rate format; chunk_channels := channels format;
       start_sample := start_sample; samples := samples |});
  emit_if_nonempty event.

(** [false]: the fuel is used up. *)
Fixpoint feed_loop (fuel : nat) (format : AudioStreamFormat) (chunk_samples start_sample : Z) : io world bool :=
  match fuel with
  | O => mret false
  | S fuel =>
      '(has_more, samples) ← read_block chunk_samples;
      if negb (Nat.modulo (length samples) (Z.to_nat (channels format)) =? 0)
      then io_lift (Throw (str "streaming audio input sample count must be divisible by channels"))
      else
        (if is_nil samples then mret tt else process format start_sample samples);;
        if has_more : bool
        then feed_loop fuel format chunk_samples (start_sample + Z.of_nat (length samples))
        else mret true
  end.

Definition feed_audio_stream (fuel : nat) (format : AudioStreamFormat) (chunk_samples : Z) : io world bool :=
  if (chunk_samples <=? 0)%Z then io_lift (Throw (str "streaming audio chunk size must be positive"))
  else if (sample_rate format <=? 0)%Z || (channels format <=? 0)%Z
  then io_lift (Throw (str "streaming audio input requires positive sample rate and channels"))
  else feed_loop fuel format chunk_samples 0.

Fixpoint pull_stream_events (fuel : nat) : io world bool :=
  match fuel with
  | O => mret false
  | S fuel =>
      event ← in_session (next_stream_event ops);
      match event with
      | None => mret true
      | Some event => emit_if_nonempty event;; pull_stream_events fuel
      end
  end.

Definition run_stream (fuel : nat) (request : Request) (format : option AudioStreamFormat) : io world (option Result) :=
  w ← io_get;
  let policy := streaming_policy ops (session w) in
  set_sink true;;
  io_catch
    (in_session (start_stream ops request);;
     fed ← match input policy, format with
           | AudioChunks, None =>
               io_lift (Throw (str ("streaming audio input mode requires samples in audio_input, or an " ++
                                    "AudioChunkStream for a live source")))
           | AudioChunks, Some format => feed_audio_stream fuel format (resolve_chunk_samples policy format)
           | NoInput, _ => mret true
           end;
     pulled ← match output policy with PullEvents => pull_stream_events fuel | FinalResult => mret true end;
     if negb (fed && pulled) then mret None
     else
       result ← in_session (finish_stream ops);
       set_sink false;;
       mret (Some result))
    (λ message, set_sink false;; io_lift (Throw message)).

(** * Lemmas *)

Lemma io_bind_ok {S A B} (k : A → io S B) (m : io S A) s a s' : m s = (Ok a, s') → (m ≫= k) s = k a s'.
Proof. unfold mbind, io_bind. by intros ->. Qed.

Lemma io_bind_throw {S A B} (k : A → io S B) (m : io S A) s e s' : m s = (Throw e, s') → (m ≫= k) s = (Throw e, s').
Proof. unfold mbind, io_bind. by intros ->. Qed.

(** Everything of a world but the reader. *)
Definition at_stream (st : Source) (w : world) : world :=
  {| session := session w; sink_set := sink_set w; stream := st; emitted := emitted w |}.

(** Processing does not touch the reader. *)
Lemma process_at_stream format start block st w :
  process format start block (at_stream st w) =
  let '(r, w') := process format start block w in (r, at_stream st w').
Proof.
  unfold process, mbind, io_bind, in_session. cbn [session at_stream].
  destruct (process_audio_chunk ops _ (session w)) as [[e|m] s]; [|done].
  unfold emit_if_nonempty. by case_bool.
Qed.

Fixpoint process_all (format : AudioStreamFormat) (start : Z) (blocks : list (list Float)) : io world () :=
  match blocks with
  | [] => mret tt
  | block :: blocks => process format start block;; process_all format (start + Z.of_nat (length block)) blocks
  end.

(** The same outcome, session and events. *)
Definition agrees (m : outcome bool * world) (m' : outcome () * world) : Prop :=
  m.1 = (λ _, true) <$> m'.1 ∧ ∀ st, at_stream st m.2 = at_stream st m'.2.

Section feeding.
Context (format : AudioStreamFormat) (max_samples : Z).
Context `{laws : !ReaderLaws Float Source (Z.to_nat (channels format)) max_samples}.

(** The non-empty blocks a reader hands over. *)
Fixpoint blocks_of (fuel : nat) (st : Source) : list (list Float) :=
  match fuel with
  | O => []
  | S fuel =>
      match read_chunk max_samples st with
      | (Ok (more, block), st) =>
          (if is_nil block then [] else [block]) ++ (if more : bool then blocks_of fuel st else [])
      | (Throw _, _) => []
      end
  end.

Definition block_ok (block : list Float) : Prop :=
  block ≠ [] ∧ (∃ k, length block = k * Z.to_nat (channels format)) ∧ (Z.of_nat (length block) <= max_samples)%Z.

Lemma blocks_of_spec fuel st :
  valid st → patience st < fuel →
  concat (blocks_of fuel st) = remaining st ∧
  Forall block_ok (blocks_of fuel st).
Proof.
  revert st. induction fuel as [|fuel IH]; intros st Hv Hf; [lia|].
  destruct (read_spec st Hv) as (more & block & st' & Hread & Hv' & Hrem & Hk & Hmax & Hlast & Hmore).
  cbn [blocks_of]. rewrite Hread.
  assert (concat (if more then blocks_of fuel st' else []) = remaining st' ∧
    Forall block_ok (if more then blocks_of fuel st' else []))
    as [Hc Hb].
  { destruct more; [apply IH; [done|specialize (Hmore eq_refl); lia]|]. rewrite Hlast by done. by split; [|apply Forall_nil]. }
  rewrite concat_app, Hc, Hrem. destruct block as [|x block]; cbn [is_nil]; [done|].
  split; [cbn [concat]; by rewrite app_nil_r|]. apply Forall_cons. by split.
Qed.

Lemma feed_loop_agrees fuel start w st :
  valid st → patience st < fuel →
  agrees (feed_loop fuel format max_samples start (at_stream st w)) (process_all format start (blocks_of fuel st) w) ∧
  (is_ok (process_all format start (blocks_of fuel st) w).1 = true →
   remaining (stream (feed_loop fuel format max_samples start (at_stream st w)).2) = []).
Proof.
  revert start w st. induction fuel as [|fuel IH]; intros start w st Hv Hf; [lia|].
  destruct (read_spec st Hv) as (more & block & st' & Hread & Hv' & Hrem & [k Hk] & Hmax & Hlast & Hmore).
  cbn [feed_loop blocks_of].
  rewrite (io_bind_ok _ _ (at_stream st w) (more, block) (at_stream st' w)) by (unfold read_block; cbn [stream at_stream]; by rewrite Hread).
  rewrite Hread, (Hk : length block = _), Nat.Div0.mod_mul, Nat.eqb_refl. cbn [negb]. rewrite <- Hk. clear k Hk.
  assert (∀ start w, agrees ((if more then feed_loop fuel format max_samples start else mret true) (at_stream st' w))
      (process_all format start (if more then blocks_of fuel st' else []) w) ∧
    (is_ok (process_all format start (if more then blocks_of fuel st' else []) w).1 = true →
     remaining (stream ((if more then feed_loop fuel format max_samples start else mret true) (at_stream st' w)).2) = [])) as Hrest.
  { intros start' w'. destruct more; [apply IH; [done|specialize (Hmore eq_refl); lia]|]. split; [done|]. intros _. by apply Hlast. }
  destruct block as [|x block]; cbn [is_nil].
  - rewrite (io_bind_ok _ _ _ tt (at_stream st' w)) by done. cbn [length app]. rewrite Z.add_0_r. apply Hrest.
  - cbn [app process_all]. pose proof (process_at_stream format start (x :: block) st' w) as Hp.
    destruct (process format start (x :: block) w) as [[[]|m] w1] eqn:E.
    + rewrite (io_bind_ok _ _ _ _ _ Hp), (io_bind_ok _ _ _ _ _ E). apply Hrest.
    + rewrite (io_bind_throw _ _ _ _ _ Hp), (io_bind_throw _ _ _ _ _ E). by split.
Qed.
End feeding.

Lemma run_stream_sink fuel request format w r w' :
  run_stream fuel request format w = (r, w') → r ≠ Ok None → sink_set w' = false.
Proof.
  unfold run_stream. rewrite (io_bind_ok _ _ w w w) by done. cbv zeta.
  set (body := (in_session (start_stream ops request);; _) : io world (option Result)).
  unfold set_sink. rewrite (io_bind_ok _ _ w tt _) by (unfold io_modify; done).
  set (w1 := {| session := _; sink_set := true; stream := _; emitted := _ |}). unfold io_catch.
  destruct (body w1) as [[result|m] w2] eqn:E.
  2: { unfold mbind, io_bind, io_modify, io_lift. by intros [= <- <-]. }
  intros [= <- <-]. intros Hr. revert E. subst body. unfold mbind at 1, io_bind at 1.
  destruct (in_session _ w1) as [[[]|m] w3]; [|done]. unfold mbind at 1, io_bind at 1.
  match goal with |- (let '_ := ?m w3 in _) = _ → _ => destruct (m w3) as [[fed|e] w4] end; [|done].
  unfold mbind at 1, io_bind at 1.
  match goal with |- (let '_ := ?m w4 in _) = _ → _ => destruct (m w4) as [[pulled|e] w5] end; [|done].
  destruct (negb (fed && pulled)); [by intros [= <- <-]|].
  unfold mbind at 1, io_bind at 1. destruct (in_session _ w5) as [[res|e] w6]; [|done].
  unfold mbind, io_bind, io_modify, mret, io_ret. by intros [= <- <-].
Qed.
End stream.

(** * The readers keep their promise *)

Section readers.
Context {Float : Type} (scale_s16 float_of_bits : Z → Float).

Notation decode_samples := (decode_samples scale_s16 float_of_bits).
Notation decode := (decode scale_s16 float_of_bits).

Lemma bytes_pos f : 0 < pcm_sample_format_bytes f.
Proof. destruct f; cbn; lia. Qed.

Lemma decode_app f a b : pcm_sample_format_bytes f <= length a → decode f (a ++ b) = decode f a.
Proof.
  intros H. destruct f; cbn in *; unfold decode_s16le, decode_f32le, byte_at; by rewrite !lookup_app_l by lia.
Qed.

Lemma decode_samples_front f n a b :
  n * pcm_sample_format_bytes f <= length a → decode_samples f n (a ++ b) = decode_samples f n a.
Proof.
  revert a. induction n as [|n IH]; intros a Hn; cbn [decode_samples]; [done|].
  rewrite decode_app by (cbn in Hn; lia). f_equal. rewrite drop_app_le by (cbn in Hn; lia).
  apply IH. rewrite length_drop. cbn in Hn. lia.
Qed.

Lemma decode_samples_add f n m l :
  decode_samples f (n + m) l = decode_samples f n l ++ decode_samples f m (drop (n * pcm_sample_format_bytes f) l).
Proof.
  revert l. induction n as [|n IH]; intros l; cbn [decode_samples Nat.add app]; [by rewrite drop_0|].
  rewrite IH, drop_drop. by replace (pcm_sample_format_bytes f + n * pcm_sample_format_bytes f)
    with (S n * pcm_sample_format_bytes f) by (cbn; lia).
Qed.

Lemma length_decode_samples f n l : length (decode_samples f n l) = n.
Proof. revert l. induction n as [|n IH]; intros l; cbn; [done|]. by rewrite IH. Qed.

#[local] Existing Instance pcm_reader.
#[local] Existing Instance buffer_reader.

Context (frame : nat) (k : nat) (Hframe : 0 < frame) (Hk : 0 < k).

(** The samples of the whole frames in the input. *)
Definition pcm_remaining (s : PcmSource) : list Float :=
  decode_samples (pcm_format s) (length (source s) / frame_bytes s * frame) (source s).

#[export] Instance pcm_laws :
  @ReaderLaws Float PcmSource (pcm_reader scale_s16 float_of_bits) frame (Z.of_nat (k * frame)).
Proof.
  refine {| valid s := frame_bytes s = pcm_sample_format_bytes (pcm_format s) * frame;
            remaining := pcm_remaining; patience s := length (source s) |}.
  intros s Hv. unfold read_chunk, pcm_reader, pcm_read.
  rewrite (proj2 (Z.leb_gt _ _)) by nia. rewrite Nat2Z.id. cbv zeta.
  pose proof (bytes_pos (pcm_format s)) as Hb. set (sb := pcm_sample_format_bytes (pcm_format s)) in *.
  set (size := k * frame * sb). assert (size = k * frame_bytes s) as Hsize by (subst size; rewrite Hv; lia).
  assert (∀ q, q * frame_bytes s / sb = q * frame) as Hdiv.
  { intros q. rewrite Hv. replace (q * (sb * frame)) with (q * frame * sb) by lia. apply Nat.div_mul. lia. }
  eexists _, _, _. split; [done|]. split; [done|]. rewrite Hdiv. unfold pcm_remaining. cbn [pcm_format frame_bytes source].
  assert (0 < frame_bytes s) as Hfb by (rewrite Hv; nia).
  split; [|split; [exists (length (take size (source s)) / frame_bytes s); apply length_decode_samples|]].
  - destruct (Nat.le_gt_cases size (length (source s))) as [Hl|Hl].
    + rewrite length_take, Nat.min_l, length_drop by done.
      assert (length (source s) / frame_bytes s = k + (length (source s) - size) / frame_bytes s) as ->.
      { replace (length (source s)) with (length (source s) - size + k * frame_bytes s) at 1 by lia.
        rewrite Nat.div_add by lia. lia. }
      assert (size / frame_bytes s = k) as -> by (rewrite Hsize; apply Nat.div_mul; lia).
      rewrite Nat.mul_add_distr_r, decode_samples_add. f_equal.
      * rewrite <- (take_drop size (source s)) at 1. apply decode_samples_front. rewrite length_take. fold sb. lia.
    + rewrite take_ge, drop_ge by lia. replace (length (@nil Z) / frame_bytes s) with 0 by (symmetry; apply Nat.Div0.div_0_l).
      cbn [Nat.mul]. cbn [decode_samples]. by rewrite app_nil_r.
  - rewrite length_decode_samples, length_take, length_drop. split.
    { pose proof (Nat.Div0.div_le_mono (Nat.min size (length (source s))) size (frame_bytes s) ltac:(lia)) as Hle.
      replace (size / frame_bytes s) with k in Hle by (rewrite Hsize, Nat.div_mul; lia). nia. }
    split.
    + intros Hne%Nat.eqb_neq. replace (length (source s) - size) with 0 by lia.
      by replace (0 / frame_bytes s) with 0 by (symmetry; apply Nat.Div0.div_0_l).
    + intros He%Nat.eqb_eq. nia.
Defined.

#[export] Instance buffer_laws : @ReaderLaws Float BufferSource buffer_reader frame (Z.of_nat (k * frame)).
Proof.
  refine {| valid s := (∃ n, length (whole s) = n * frame) ∧ ∃ m, offset s = m * frame;
            remaining s := drop (offset s) (whole s); patience s := length (whole s) - offset s |}.
  intros s ((n & Hn) & (m & Hm)). unfold read_chunk, buffer_reader, buffer_read. rewrite Nat2Z.id. cbv zeta.
  assert (∃ q, Nat.min (k * frame) (length (whole s) - offset s) = q * frame) as [q Hq].
  { exists (Nat.min k (n - m)). rewrite Hn, Hm, <- Nat.mul_sub_distr_r, Nat.mul_min_distr_r. done. }
  eexists _, _, _. split; [done|]. cbn [whole offset]. split.
  { split; [by exists n|]. exists (m + q). rewrite Hq, Hm. lia. }
  split; [rewrite <- drop_drop; by rewrite take_drop|]. split.
  { exists q. rewrite length_take, length_drop. lia. }
  split; [rewrite length_take; lia|]. split.
  - intros Hne%Nat.ltb_ge. by rewrite drop_ge by lia.
  - intros Hlt%Nat.ltb_lt. assert (0 < k * frame) by nia. lia.
Defined.
End readers.

(** * The tasks *)

Section tasks.
Context {Float Entry Result Request Seconds Session : Type}.
Context (ops : @SessionOps Float Entry Result Request Seconds Session).
Context (seconds_positive : Seconds → bool) (round_samples : Seconds → Z → Z).

(** The stream of a buffer is created for the run. *)
Definition set_stream {Source} (source : Source) : io (@world Entry Session Source) () :=
  io_modify (at_stream source).

(** [run_streaming_task(session, request, sink)], for a request with this
    [audio_input]. *)
Definition run_streaming_task (fuel : nat) (request : Request) (audio_input : option (@AudioBuffer Float)) :
    io (@world Entry Session (@BufferSource Float)) (option Result) :=
  match audio_input with
  | Some audio =>
      if is_nil (buffer_samples audio)
      then run_stream (reader := buffer_reader) ops seconds_positive round_samples fuel request None
      else
        '(format, source) ← io_lift (buffer_audio_stream audio);
        set_stream source;;
        run_stream (reader := buffer_reader) ops seconds_positive round_samples fuel request (Some format)
  | None => run_stream (reader := buffer_reader) ops seconds_positive round_samples fuel request None
  end.

(** [run_streaming_task(session, request, sink, stream)], for a stream of raw
    PCM. *)
Definition run_streaming_task_live (scale_s16 float_of_bits : Z → Float) (fuel : nat) (request : Request)
    (source : list Z) (format : AudioStreamFormat) (sample_format : PcmSampleFormat) :
    io (@world Entry Session PcmSource) (option Result) :=
  source ← io_lift (make_pcm_chunk_stream source format sample_format);
  set_stream source;;
  run_stream (reader := pcm_reader scale_s16 float_of_bits) ops seconds_positive round_samples fuel request (Some format).

(** However a streaming task ends - with a result, or with an error from the
    session, the reader, the format or the policy - the sink it installed in the
    session has been removed again. *)
Theorem stream_task_releases fuel request audio_input w r w' :
  sink_set w = false →
  run_streaming_task fuel request audio_input w = (r, w') → r ≠ Ok None → sink_set w' = false.
Proof.
  intros Hw. unfold run_streaming_task. destruct audio_input as [audio|]; [|by apply run_stream_sink].
  destruct (is_nil _); [by apply run_stream_sink|]. unfold mbind, io_bind, io_lift.
  destruct (buffer_audio_stream audio) as [[format source]|e]; [|by intros [= <- <-]].
  cbn. by apply run_stream_sink.
Qed.
End tasks.

Section delivery.
Context {Float Entry Result Request Seconds Session : Type}.
Context (ops : @SessionOps Float Entry Result Request Seconds Session).

(** The samples of [xs], little-endian. *)
Definition s16_bytes (x : Z) : list Z := [Z.land x 255; Z.land (Z.shiftr x 8) 255].

Lemma decode_s16_bytes scale rest (x : Z) :
  (- 2 ^ 15 <= x < 2 ^ 15)%Z → decode_s16le (Float := Float) scale (s16_bytes x ++ rest) = scale x.
Proof.
  intros Hx. unfold decode_s16le, s16_bytes, byte_at. cbn [app lookup list_lookup default].
  change 255%Z with (Z.ones 8). rewrite !Z.land_ones, Z.shiftr_div_pow2, Z.lor_comm by lia. cbn [default from_option id].
  pose proof (Z.mod_pos_bound x (2 ^ 8) ltac:(lia)). rewrite lor_shiftl_add by lia.
  unfold uwrap, int16_of. change (2 ^ 8)%Z with 256%Z in *. change (2 ^ 16)%Z with 65536%Z. change (2 ^ 15)%Z with 32768%Z in *.
  f_equal. case_bool; Z.div_mod_to_equations; lia.
Qed.

Lemma decode_samples_s16 scale_s16 float_of_bits (xs : list Z) rest :
  Forall (λ x, - 2 ^ 15 <= x < 2 ^ 15)%Z xs →
  decode_samples (Float := Float) scale_s16 float_of_bits S16LE (length xs) (concat (s16_bytes <$> xs) ++ rest) =
  scale_s16 <$> xs.
Proof.
  induction 1 as [|x xs Hx _ IH]; [done|].
  change (concat (s16_bytes <$> x :: xs)) with (s16_bytes x ++ concat (s16_bytes <$> xs)).
  cbn [length decode_samples decode]. rewrite <- app_assoc, decode_s16_bytes by done.
  exact (f_equal (cons (scale_s16 x)) IH).
Qed.

Lemma length_s16_bytes (xs : list Z) : length (concat (s16_bytes <$> xs)) = length xs * 2.
Proof.
  induction xs as [|x xs IH]; [done|].
  change (concat (s16_bytes <$> x :: xs)) with (s16_bytes x ++ concat (s16_bytes <$> xs)). rewrite length_app, IH. done.
Qed.

(** A world at the start of a stream. *)
Notation feed_pcm scale_s16 float_of_bits := (feed_audio_stream (reader := pcm_reader scale_s16 float_of_bits) ops).

(** Feeding a stream hands the session exactly the samples the reader holds,
    in order, each once and at its own position, in blocks that are not empty, not
    longer than asked and of whole frames, and the outcome, the state of the
    session and the events passed on are those of processing these blocks one after
    the other; when no block fails, the reader is exhausted. This holds of every reader
    that keeps its promise. *)
Lemma feed_delivers {Source} {reader : AudioChunkReader Float Source} format max_samples
    {laws : ReaderLaws Float Source (Z.to_nat (channels format)) max_samples} fuel
    (w : @world Entry Session Source) :
  (0 < max_samples)%Z → (0 < sample_rate format)%Z → (0 < channels format)%Z →
  valid (stream w) → patience (stream w) < fuel →
  ∃ blocks, concat blocks = remaining (stream w) ∧ Forall (block_ok format max_samples) blocks ∧
    agrees (feed_audio_stream ops fuel format max_samples w) (process_all ops format 0 blocks w) ∧
    (is_ok (process_all ops format 0 blocks w).1 = true →
     remaining (stream (feed_audio_stream ops fuel format max_samples w).2) = []).
Proof.
  intros Hmax Hrate Hch Hv Hf. exists (blocks_of max_samples fuel (stream w)).
  destruct (blocks_of_spec format max_samples fuel (stream w) Hv Hf) as [Hc Hb]. split; [done|]. split; [done|].
  unfold feed_audio_stream.
  rewrite (proj2 (Z.leb_gt _ _) Hmax), (proj2 (Z.leb_gt _ _) Hrate), (proj2 (Z.leb_gt _ _) Hch). cbn [orb].
  pose proof (feed_loop_agrees ops format max_samples fuel 0 w (stream w) Hv Hf) as H.
  replace (at_stream (stream w) w) with w in H by (by destruct w). exact H.
Qed.

(** Raw 16-bit PCM round-trips: the little-endian bytes of samples, with a
    partial frame after them or not, are fed to the session as exactly these
    samples, scaled, in order, and the incomplete frame at the end is the only thing
    dropped. *)
Theorem pcm_stream_delivers scale_s16 float_of_bits format (k n : nat) (xs tail : list Z) fuel
    (w : @world Entry Session PcmSource) :
  (0 < sample_rate format)%Z → (0 < channels format)%Z → 0 < k →
  Forall (λ x, - 2 ^ 15 <= x < 2 ^ 15)%Z xs → length xs = n * Z.to_nat (channels format) →
  length tail < 2 * Z.to_nat (channels format) →
  make_pcm_chunk_stream (concat (s16_bytes <$> xs) ++ tail) format S16LE = Ok (stream w) →
  length xs * 2 + length tail < fuel →
  let max_samples := Z.of_nat (k * Z.to_nat (channels format)) in
  ∃ blocks, concat blocks = scale_s16 <$> xs ∧ Forall (block_ok format max_samples) blocks ∧
    agrees (feed_pcm scale_s16 float_of_bits fuel format max_samples w) (process_all ops format 0 blocks w).
Proof.
  intros Hrate Hch Hk Hxs Hlen Htail Hmake Hfuel max_samples. set (frame := Z.to_nat (channels format)) in *.
  assert (0 < frame) as Hframe by lia.
  unfold make_pcm_chunk_stream in Hmake.
  rewrite (proj2 (Z.leb_gt _ _) Hrate), (proj2 (Z.leb_gt _ _) Hch) in Hmake. cbn [orb] in Hmake.
  injection Hmake as Hmake.
  destruct (feed_delivers (reader := pcm_reader scale_s16 float_of_bits) format max_samples
    (laws := pcm_laws scale_s16 float_of_bits frame k Hframe Hk) fuel w) as (blocks & Hc & Hb & Hagree & _).
  - lia.
  - done.
  - done.
  - cbn. by rewrite <- Hmake.
  - cbn. rewrite <- Hmake. cbn. rewrite length_app, length_s16_bytes. lia.
  - exists blocks. split; [|by split]. rewrite Hc. cbn. unfold pcm_remaining. rewrite <- Hmake. cbn [source frame_bytes pcm_format].
    rewrite length_app, length_s16_bytes.
    match goal with |- context [?a / ?b] => assert (a / b = n) as -> end.
    { symmetry. apply (Nat.div_unique _ _ _ (length tail)); fold frame; nia. }
    fold frame. rewrite <- Hlen. by apply decode_samples_s16.
Qed.
End delivery.

(** * A concrete session *)

Module Recorder.

(** A session that keeps its chunks, and refuses one that starts at a negative
    sample. *)
Definition chunks : Type := list (Z * list Z).

Definition quiet : @StreamEvent unit :=
  {| voice_activity := []; partial_text := None; audio_output := None; named_audio_outputs := []; speaker_turns := [];
     word_timestamps := []; output_artifacts := []; is_final := false |}.

Definition ops : @SessionOps Z unit chunks () Z chunks := {|
  streaming_policy _ := {| input := AudioChunks; output := FinalResult; preferred_audio_chunk_samples := 2;
                           preferred_audio_chunk_seconds := 0%Z |};
  set_stream_event_sink _ s := s;
  start_stream _ := mret tt;
  process_audio_chunk c := λ s,
    if (start_sample c <? 0)%Z then (Throw (str "before the start"), s)
    else (Ok quiet, s ++ [(start_sample c, samples c)]);
  next_stream_event := mret None;
  finish_stream := io_get;
|}.

Definition start {Source} (source : Source) : @world unit chunks Source :=
  {| session := []; sink_set := false; stream := source; emitted := [] |}.

Definition positive (s : Z) : bool := (0 <? s)%Z.

(** Five stereo samples are refused before the session is touched; four go through
    in blocks of two. *)
Example four_samples :
  (run_streaming_task ops positive Z.mul 9 tt (Some {| buffer_rate := 16; buffer_channels := 2; buffer_samples := [1; 2; 3; 4]%Z |})
    (start {| whole := []; offset := 0 |})).1 = Ok (Some [(0, [1; 2]); (2, [3; 4])]%Z).
Proof. reflexivity. Qed.

Example five_samples :
  run_streaming_task ops positive Z.mul 9 tt (Some {| buffer_rate := 16; buffer_channels := 2; buffer_samples := [1; 2; 3; 4; 5]%Z |})
    (start {| whole := []; offset := 0 |}) =
  (Throw (str "streaming audio input sample count must be divisible by channels"), start {| whole := []; offset := 0 |}).
Proof. reflexivity. Qed.

Definition four_run :=
  run_streaming_task ops positive Z.mul 9 tt
    (Some {| buffer_rate := 16; buffer_channels := 2; buffer_samples := [1; 2; 3; 4]%Z |})
    (start {| whole := []; offset := 0 |}).

Lemma stream_task_releases_witness : four_run.1 = Ok (Some [(0, [1; 2]); (2, [3; 4])]%Z) ∧ sink_set four_run.2 = false.
Proof.
  split; [reflexivity|].
  apply (stream_task_releases ops positive Z.mul 9 tt
    (Some {| buffer_rate := 16; buffer_channels := 2; buffer_samples := [1; 2; 3; 4]%Z |})
    (start {| whole := []; offset := 0 |}) four_run.1); [reflexivity|apply surjective_pairing|discriminate].
Defined.

(** Two stereo frames and a byte of a third, in blocks of one frame. *)
Lemma pcm_stream_delivers_witness :
  ∃ blocks, concat blocks = [1; -2; 300; -32768]%Z ∧
    Forall (block_ok {| sample_rate := 16; channels := 2 |} 2) blocks ∧
    agrees
      (feed_audio_stream (reader := pcm_reader id id) ops 20 {| sample_rate := 16; channels := 2 |} 2
        (start {| pcm_format := S16LE; frame_bytes := 4; source := [1; 0; 254; 255; 44; 1; 0; 128; 7]%Z |}))
      (process_all ops {| sample_rate := 16; channels := 2 |} 0 blocks
        (start {| pcm_format := S16LE; frame_bytes := 4; source := [1; 0; 254; 255; 44; 1; 0; 128; 7]%Z |})).
Proof.
  apply (pcm_stream_delivers ops id id {| sample_rate := 16; channels := 2 |} 1 2 [1; -2; 300; -32768]%Z [7]%Z 20
    (start {| pcm_format := S16LE; frame_bytes := 4; source := [1; 0; 254; 255; 44; 1; 0; 128; 7]%Z |})).
  - reflexivity.
  - reflexivity.
  - lia.
  - repeat (apply Forall_cons; split; [lia|]). by apply Forall_nil.
  - reflexivity.
  - cbn. lia.
  - reflexivity.
  - cbn. lia.
Defined.
End Recorder.
