(* ===== verification/CacheSlots.v ===== *)
(** The slot cache of include/engine/framework/runtime/cache_slots.h (class
    template [CacheSlots]): a vector of entries stamped with a 64-bit use
    counter, shown to implement a list of entries in order of last use; and its
    client [Qwen3TTSSession::resolve_voice_prompt], proved against the
    interface [LruCache] alone. *)

From stdpp Require Import sorting.
From S2P Require Import Prelude.

Section slots.
Context {Key Value : Type} (equal_ : Key → Key → bool).

Record Entry := { key : Key; value : Value; last_used : Z }.

Record CacheSlots := {
  capacity_ : nat;
  tick_ : Z;
  entries_ : list Entry;
}.

Definition make_slots (capacity : nat) : CacheSlots :=
  {| capacity_ := capacity; tick_ := 0; entries_ := [] |}.

Definition next_tick (s : CacheSlots) : Z := uwrap 64 (tick_ s + 1).

(** [for (auto & entry : entries_) if (equal_(entry.key, key))]: the first match. *)
Fixpoint index_of (k : Key) (es : list Entry) : option nat :=
  match es with
  | [] => None
  | e :: es => if equal_ (key e) k then Some 0 else S <$> index_of k es
  end.

Definition with_use (now : Z) (e : Entry) : Entry :=
  {| key := key e; value := value e; last_used := now |}.

(** The non-const [find]: a hit is stamped with a new tick. *)
Definition find (k : Key) (s : CacheSlots) : option Value * CacheSlots :=
  match index_of k (entries_ s) with
  | Some i =>
      let now := next_tick s in
      (value <$> entries_ s !! i,
       {| capacity_ := capacity_ s; tick_ := now;
          entries_ := alter (with_use now) i (entries_ s) |})
  | None => (None, s)
  end.

(** The const [find]. *)
Definition peek (k : Key) (s : CacheSlots) : option Value :=
  i ← index_of k (entries_ s); value <$> entries_ s !! i.

Definition used_at (es : list Entry) (i : nat) : Z :=
  match es !! i with Some e => last_used e | None => 0%Z end.

(** [for (i = 1; i < size; ++i) if (last_used[i] < last_used[oldest]) oldest = i;] *)
Definition oldest_of (es : list Entry) : nat :=
  foldl (λ oldest i, if (used_at es i <? used_at es oldest)%Z then i else oldest)
    0 (seq 1 (length es - 1)).

Definition erase_lru (es : list Entry) : list Entry :=
  match es with [] => [] | _ => delete (oldest_of es) es end.

(** [while (entries_.size() > capacity_)]; each turn removes one entry. *)
Fixpoint evict_loop (fuel capacity : nat) (es : list Entry) : list Entry :=
  match fuel with
  | O => es
  | S fuel => if capacity <? length es then evict_loop fuel capacity (erase_lru es) else es
  end.

Definition set_capacity (capacity : nat) (s : CacheSlots) : CacheSlots :=
  {| capacity_ := capacity; tick_ := tick_ s;
     entries_ := evict_loop (length (entries_ s)) capacity (entries_ s) |}.

Definition put (k : Key) (v : Value) (s : CacheSlots) : CacheSlots :=
  if capacity_ s =? 0 then {| capacity_ := capacity_ s; tick_ := tick_ s; entries_ := [] |}
  else
    let now := next_tick s in
    let e := {| key := k; value := v; last_used := now |} in
    match index_of k (entries_ s) with
    | Some i => {| capacity_ := capacity_ s; tick_ := now; entries_ := <[i := e]> (entries_ s) |}
    | None =>
        let es := if capacity_ s <=? length (entries_ s) then erase_lru (entries_ s) else entries_ s in
        {| capacity_ := capacity_ s; tick_ := now; entries_ := es ++ [e] |}
    end.

Definition clear (s : CacheSlots) : CacheSlots :=
  {| capacity_ := capacity_ s; tick_ := tick_ s; entries_ := [] |}.

(** * The abstract cache: entries from the most to the least recently used *)

Definition others (k : Key) (l : list (Key * Value)) : list (Key * Value) :=
  List.filter (λ kv, negb (equal_ kv.1 k)) l.

Fixpoint recall (k : Key) (l : list (Key * Value)) : option (Key * Value) :=
  match l with
  | [] => None
  | kv :: l => if equal_ kv.1 k then Some kv else recall k l
  end.

Definition refresh (k : Key) (l : list (Key * Value)) : list (Key * Value) :=
  match recall k l with Some kv => kv :: others k l | None => l end.

Definition remember (capacity : nat) (k : Key) (v : Value) (l : list (Key * Value)) : list (Key * Value) :=
  take capacity ((k, v) :: others k l).

(** * The slots implement the abstract cache *)

Context {equal_equiv : Equivalence (λ x y, equal_ x y = true)}.

Definition pair_of (e : Entry) : Key * Value := (key e, value e).
Definition newer (e1 e2 : Entry) : Prop := (last_used e2 < last_used e1)%Z.
Definition distinct (l : list (Key * Value)) : Prop :=
  ForallOrdPairs (λ x y, equal_ x.1 y.1 = false) l.

(** [l] lists the entries newest first, and the counter has room for [n] more uses. *)
Definition represents (n : nat) (s : CacheSlots) (l : list (Key * Value)) : Prop :=
  ∃ es, es ≡ₚ entries_ s ∧ StronglySorted newer es ∧ map pair_of es = l ∧
        Forall (λ e, 0 <= last_used e <= tick_ s)%Z es ∧ distinct l ∧
        length l <= capacity_ s ∧ (0 <= tick_ s)%Z ∧ (tick_ s + Z.of_nat n < 2 ^ 64)%Z.

Lemma equal_comm x y : equal_ x y = equal_ y x.
Proof.
  destruct (equal_ x y) eqn:E1, (equal_ y x) eqn:E2; try done.
  - pose proof (@Equivalence_Symmetric _ _ equal_equiv x y E1). cbn in *. congruence.
  - pose proof (@Equivalence_Symmetric _ _ equal_equiv y x E2). cbn in *. congruence.
Qed.

Lemma equal_trans x y k : equal_ x y = false → equal_ x k = true → equal_ y k = false.
Proof.
  intros E1 E2. destruct (equal_ y k) eqn:E; [|done].
  rewrite equal_comm in E. pose proof (@Equivalence_Transitive _ _ equal_equiv x k y E2 E). cbn in *. congruence.
Qed.

Lemma index_of_Some k es i :
  index_of k es = Some i → ∃ e, es !! i = Some e ∧ equal_ (key e) k = true.
Proof.
  revert i. induction es as [|e es IH]; intros i; cbn; [done|].
  destruct (equal_ (key e) k) eqn:E; [intros [= <-]; eauto|].
  intros (j & Hj & ->)%fmap_Some. cbn. eauto.
Qed.

Lemma index_of_None k es : index_of k es = None → Forall (λ e, equal_ (key e) k = false) es.
Proof.
  induction es as [|e es IH]; cbn; [constructor|]. destruct (equal_ (key e) k) eqn:E; [done|].
  intros H%fmap_None. auto.
Qed.

Lemma others_absent k l : Forall (λ kv : Key * Value, equal_ kv.1 k = false) l → others k l = l.
Proof. induction 1 as [|kv l H _ IH]; cbn; [done|]. rewrite H. cbn. by f_equal. Qed.

Lemma recall_absent k l : Forall (λ kv : Key * Value, equal_ kv.1 k = false) l → recall k l = None.
Proof. induction 1 as [|kv l H _ IH]; cbn; [done|]. by rewrite H. Qed.

(** A stored key occurs once: the list splits around it. *)
Lemma distinct_split k kv l1 l2 :
  distinct (l1 ++ kv :: l2) → equal_ kv.1 k = true →
  recall k (l1 ++ kv :: l2) = Some kv ∧ others k (l1 ++ kv :: l2) = l1 ++ l2 ∧ distinct (l1 ++ l2).
Proof.
  intros Hd Hk. unfold distinct in *. induction l1 as [|x l1 IH]; cbn [app] in *.
  - inversion Hd as [|? ? Hx Hd']; subst. cbn. rewrite Hk. cbn.
    split; [done|]. split; [|done]. apply others_absent. eapply Forall_impl; [exact Hx|].
    cbn. intros y Hy. by eapply equal_trans.
  - inversion Hd as [|? ? Hx Hd']; subst. destruct (IH Hd') as (H1 & H2 & H3).
    assert (equal_ x.1 k = false) as Hxk.
    { rewrite Forall_app, Forall_cons in Hx. destruct Hx as (_ & Hx & _).
      rewrite equal_comm in Hx. by eapply equal_trans. }
    cbn. rewrite Hxk. cbn. split; [done|]. split; [by f_equal|].
    constructor; [|done]. rewrite Forall_app, Forall_cons in Hx. rewrite Forall_app. tauto.
Qed.

Lemma others_distinct k l :
  distinct l → distinct (others k l) ∧ Forall (λ kv : Key * Value, equal_ kv.1 k = false) (others k l).
Proof.
  unfold distinct. induction 1 as [|x l Hx _ [IH1 IH2]]; cbn; [by split; constructor|].
  destruct (equal_ x.1 k) eqn:E; cbn; [done|]. split; [|by constructor].
  constructor; [|done]. rewrite Forall_forall in *. intros y Hy. apply Hx.
  apply list_elem_of_In, filter_In in Hy as [Hy _]. by apply list_elem_of_In.
Qed.

Lemma oldest_loop es js o :
  o < length es → Forall (λ j, j < length es) js →
  let r := foldl (λ oldest i, if (used_at es i <? used_at es oldest)%Z then i else oldest) o js in
  r < length es ∧ (used_at es r <= used_at es o)%Z ∧ Forall (λ j, used_at es r <= used_at es j)%Z js.
Proof.
  intros Ho Hjs. cbn zeta. revert o Ho. induction Hjs as [|j js Hj Hjs IH]; intros o Ho; cbn [foldl].
  - split_and!; [done|lia|constructor].
  - destruct (Z.ltb_spec (used_at es j) (used_at es o)).
    + destruct (IH j Hj) as (H1 & H2 & H3). split_and!; [done|lia|by constructor].
    + destruct (IH o Ho) as (H1 & H2 & H3). split_and!; [done|lia|constructor; [lia|done]].
Qed.

(** [erase_lru] removes an entry no other entry is older than. *)
Lemma erase_lru_spec es :
  es ≠ [] → ∃ e, es ≡ₚ e :: erase_lru es ∧ Forall (λ e', last_used e <= last_used e')%Z es.
Proof.
  intros Hne. assert (0 < length es) as Hl by (destruct es; [done|cbn; lia]).
  destruct (oldest_loop es (seq 1 (length es - 1)) 0 Hl) as (H1 & H2 & H3).
  { apply Forall_forall. intros j Hj. apply elem_of_seq in Hj. lia. }
  fold (oldest_of es) in *. apply lookup_lt_is_Some in H1 as [e He]. exists e. split.
  - unfold erase_lru. destruct es; [done|]. by apply delete_Permutation.
  - apply Forall_lookup. intros j e' Hj. assert (used_at es (oldest_of es) <= used_at es j)%Z as Hle.
    { destruct j as [|j]; [done|]. rewrite Forall_forall in H3. apply H3, elem_of_seq.
      apply lookup_lt_Some in Hj. lia. }
    unfold used_at in Hle. by rewrite He, Hj in Hle.
Qed.

Lemma alter_as_insert {A} (f : A → A) (l : list A) i x :
  l !! i = Some x → alter f i l = <[i := f x]> l.
Proof. revert i. induction l as [|y l IH]; intros [|i]; cbn; [done..|by intros [= ->]|]. intros H. f_equal. by apply IH. Qed.

Lemma insert_perm {A} (l : list A) i x y :
  l !! i = Some x → <[i := y]> l ≡ₚ y :: delete i l.
Proof.
  intros H. rewrite insert_take_drop by (by eapply lookup_lt_Some). rewrite delete_take_drop.
  by rewrite Permutation_middle.
Qed.

(** An entry of the vector, with what surrounds it in order of use. *)
Lemma pick (es entries : list Entry) i e :
  es ≡ₚ entries → entries !! i = Some e → ∃ a b, es = a ++ e :: b ∧ a ++ b ≡ₚ delete i entries.
Proof.
  intros Hp He. assert (e ∈ es) as (a & b & ->)%list_elem_of_split
    by (rewrite Hp; by eapply list_elem_of_lookup_2).
  exists a, b. split; [done|]. apply (Permutation_cons_inv (a := e)).
  rewrite Permutation_middle, Hp. by apply delete_Permutation.
Qed.

(** Using an entry again moves it to the front. *)
Lemma renew_sorted a e b t e' :
  StronglySorted newer (a ++ e :: b) → Forall (λ e, 0 <= last_used e <= t)%Z (a ++ e :: b) →
  last_used e' = (t + 1)%Z → (0 <= t)%Z →
  StronglySorted newer (e' :: a ++ b) ∧ Forall (λ e, 0 <= last_used e <= t + 1)%Z (e' :: a ++ b).
Proof.
  intros Hs Hb He' Ht.
  assert (Forall (λ e, 0 <= last_used e <= t)%Z (a ++ b)) as Hb'
    by (rewrite Forall_app, Forall_cons in Hb; rewrite Forall_app; tauto).
  split.
  - constructor.
    + rewrite StronglySorted_app, StronglySorted_cons in Hs. rewrite StronglySorted_app.
      destruct Hs as (H1 & H2 & H3 & H4). split_and!; [|done..].
      intros x1 x2 Hx1 Hx2. apply H1; [done|]. by right.
    + eapply Forall_impl; [exact Hb'|]. intros x Hx. unfold newer. cbn in Hx. lia.
  - constructor; [lia|]. eapply Forall_impl; [exact Hb'|]. cbn. lia.
Qed.

Lemma next_tick_eq n s l : represents (S n) s l → next_tick s = (tick_ s + 1)%Z.
Proof.
  intros (es & _ & _ & _ & _ & _ & _ & H0 & H1). unfold next_tick, uwrap. apply Z.mod_small. lia.
Qed.

Lemma missing k (es entries : list Entry) : es ≡ₚ entries → index_of k entries = None →
  Forall (λ kv : Key * Value, equal_ kv.1 k = false) (map pair_of es).
Proof.
  intros Hp H%index_of_None. apply Forall_map. rewrite Hp. exact H.
Qed.

Lemma find_represents n k s l :
  represents (S n) s l →
  (find k s).1 = snd <$> recall k l ∧ represents n (find k s).2 (refresh k l).
Proof.
  intros Hrep. pose proof (next_tick_eq _ _ _ Hrep) as Hnow.
  destruct Hrep as (es & Hp & Hs & Hl & Hb & Hd & Hc & Ht & Hn). unfold find, refresh.
  destruct (index_of k (entries_ s)) as [i|] eqn:Hi; cbn [fst snd].
  - apply index_of_Some in Hi as (e & He & Hk).
    destruct (pick _ _ _ _ Hp He) as (a & b & -> & Hab).
    rewrite map_app in Hl. cbn [map] in Hl. rewrite <- Hl in *.
    destruct (distinct_split k (pair_of e) _ _ Hd Hk) as (Hr & Ho & Hd').
    rewrite Hr, Ho, He. split; [done|].
    exists (with_use (tick_ s + 1) e :: a ++ b). cbn [entries_ tick_ capacity_]. rewrite Hnow.
    destruct (renew_sorted a e b (tick_ s) (with_use (tick_ s + 1) e) Hs Hb eq_refl Ht) as [Hs' Hb'].
    split_and!; [|done|by rewrite map_cons, map_app|done| | |lia|lia].
    + rewrite (alter_as_insert _ _ _ e He), (insert_perm _ _ e) by done. by constructor.
    + assert (distinct (pair_of e :: others k (map pair_of a ++ pair_of e :: map pair_of b))) as Hd2.
      { constructor; [|apply others_distinct, Hd].
        eapply Forall_impl; [apply (proj2 (others_distinct k _ Hd))|]. cbn. intros x Hx.
        rewrite equal_comm. rewrite equal_comm in Hk. 
        destruct (equal_ x.1 (key e)) eqn:E; [|done].
        pose proof (@Equivalence_Transitive _ _ equal_equiv _ _ _ E (eq_trans (equal_comm _ _) Hk)). cbn in *. congruence. }
      by rewrite Ho in Hd2.
    + cbn [length] in *. rewrite length_app in *. cbn [length] in *. lia.
  - rewrite <- Hl. rewrite recall_absent by (by eapply missing). split; [done|].
    exists es. rewrite Hl. split_and!; try done. lia.
Qed.

(** Evicting the oldest entry drops the last of the list. *)
Lemma erase_represents es entries t :
  es ≡ₚ entries → StronglySorted newer es → Forall (λ e, 0 <= last_used e <= t)%Z es →
  distinct (map pair_of es) → es ≠ [] →
  ∃ es', es' ≡ₚ erase_lru entries ∧ es' = take (length es - 1) es.
Proof.
  intros Hp Hs Hb Hd Hne.
  assert (entries ≠ []) as Hne' by (intros ->; by apply Permutation_nil_r in Hp).
  destruct (erase_lru_spec entries Hne') as (o & Ho & Hmin).
  destruct es as [|e es _] using rev_ind; [done|].
  exists es. rewrite length_app. cbn [length]. rewrite Nat.add_sub, take_app_length. split; [|done].
  assert (o = e) as ->.
  { assert (o ∈ es ++ [e]) as Hin by (rewrite Hp, Ho; left).
    apply elem_of_app in Hin as [Hin|Hin]; [|by apply list_elem_of_singleton in Hin].
    rewrite StronglySorted_app in Hs. destruct Hs as (Hlt & _).
    specialize (Hlt o e Hin ltac:(left)). unfold newer in Hlt.
    rewrite <- Hp, Forall_app, Forall_singleton in Hmin. lia. }
  apply (Permutation_cons_inv (a := e)). rewrite Permutation_cons_append, Hp. done.
Qed.

Lemma distinct_take n l : distinct l → distinct (take n l).
Proof.
  unfold distinct. intros H. revert n. induction H as [|x l Hx _ IH]; intros [|n]; cbn; try constructor; auto.
  by apply Forall_take.
Qed.

Lemma sorted_take n es : StronglySorted newer es → StronglySorted newer (take n es).
Proof. intros H. rewrite <- (take_drop n es) in H. by apply StronglySorted_app in H as (_ & ? & _). Qed.

Lemma put_represents n k v s l :
  represents (S n) s l → represents n (put k v s) (remember (capacity_ s) k v l).
Proof.
  intros Hrep. pose proof (next_tick_eq _ _ _ Hrep) as Hnow.
  destruct Hrep as (es & Hp & Hs & Hl & Hb & Hd & Hc & Ht & Hn). unfold put, remember.
  set (e' := {| key := k; value := v; last_used := next_tick s |}).
  assert (∀ l', Forall (λ kv : Key * Value, equal_ kv.1 k = false) l' → distinct l' → distinct ((k, v) :: l')) as Hcons.
  { intros l' Hf Hd'. constructor; [|done]. eapply Forall_impl; [exact Hf|]. cbn. intros x Hx.
    by rewrite equal_comm. }
  destruct (Nat.eqb_spec (capacity_ s) 0) as [H0|H0].
  { rewrite H0. exists []. cbn. split_and!; try done; try constructor; lia. }
  destruct (index_of k (entries_ s)) as [i|] eqn:Hi.
  - apply index_of_Some in Hi as (e & He & Hk).
    destruct (pick _ _ _ _ Hp He) as (a & b & -> & Hab).
    rewrite map_app in Hl. cbn [map] in Hl. rewrite <- Hl in *.
    destruct (distinct_split k (pair_of e) _ _ Hd Hk) as (_ & Ho & _).
    destruct (renew_sorted a e b (tick_ s) e' Hs Hb Hnow Ht) as [Hs' Hb'].
    assert (length ((k, v) :: others k (map pair_of a ++ pair_of e :: map pair_of b)) <= capacity_ s) as Hlen.
    { rewrite Ho. cbn [length]. rewrite length_app in *. cbn [length] in *. lia. }
    rewrite take_ge by done. exists (e' :: a ++ b). cbn [entries_ tick_ capacity_].
    split_and!; [|done| | | |done|lia|lia].
    + rewrite (insert_perm _ _ e) by done. by constructor.
    + rewrite Ho. cbn [map]. by rewrite map_app.
    + rewrite Hnow. exact Hb'.
    + apply Hcons; apply others_distinct; exact Hd.
  - pose proof (missing _ _ _ Hp Hi) as Hmiss. rewrite Hl in Hmiss. rewrite others_absent by done.
    set (kept := if capacity_ s <=? length (entries_ s) then erase_lru (entries_ s) else entries_ s).
    assert (∃ es', es' ≡ₚ kept ∧ es' = take (capacity_ s - 1) es) as (es' & Hp' & He').
    { assert (length es = length (entries_ s)) as Hlen by (by rewrite Hp).
      rewrite <- Hl, length_map in Hc. unfold kept.
      destruct (Nat.leb_spec (capacity_ s) (length (entries_ s))).
      - replace (capacity_ s - 1) with (length es - 1) by lia.
        eapply erase_represents; [done..|by rewrite Hl|]. intros ->. cbn in *. lia.
      - exists es. split; [done|]. by rewrite take_ge by lia. }
    destruct (capacity_ s) as [|c] eqn:Hcap; [done|]. cbn [take]. 
    replace (S c - 1) with c in He' by lia.
    exists (e' :: es'). cbn [entries_ tick_ capacity_]. rewrite Hnow. subst es'.
    split_and!; [| | | | | |lia|lia].
    + rewrite <- Permutation_cons_append. by constructor.
    + constructor; [by apply sorted_take|]. apply Forall_take. eapply Forall_impl; [exact Hb|].
      cbn. intros x Hx. unfold newer. cbn. lia.
    + cbn [map]. by rewrite <- Hl, !firstn_map.
    + constructor; [cbn; lia|]. apply Forall_take. eapply Forall_impl; [exact Hb|]. cbn. lia.
    + apply Hcons; [by apply Forall_take|by apply distinct_take].
    + cbn [length]. rewrite length_take. lia.
Qed.

Lemma evict_represents fuel cap es entries t :
  es ≡ₚ entries → StronglySorted newer es → Forall (λ e, 0 <= last_used e <= t)%Z es →
  distinct (map pair_of es) → length es <= fuel + cap →
  take cap es ≡ₚ evict_loop fuel cap entries.
Proof.
  revert es entries. induction fuel as [|fuel IH]; intros es entries Hp Hs Hb Hd Hf; cbn [evict_loop].
  - by rewrite take_ge by lia.
  - assert (length es = length entries) as Hlen by (by rewrite Hp).
    destruct (Nat.ltb_spec cap (length entries)); [|by rewrite take_ge by lia].
    destruct (erase_represents es entries t Hp Hs Hb Hd) as (es' & Hp' & ->).
    { intros ->. cbn in *. lia. }
    rewrite <- (IH (take (length es - 1) es)).
    + by rewrite take_take, Nat.min_l by lia.
    + done.
    + by apply sorted_take.
    + by apply Forall_take.
    + rewrite <- firstn_map. by apply distinct_take.
    + rewrite length_take. lia.
Qed.

Lemma set_capacity_represents n c s l :
  represents n s l → represents n (set_capacity c s) (take c l).
Proof.
  intros (es & Hp & Hs & Hl & Hb & Hd & Hc & Ht & Hn). exists (take c es). cbn [entries_ tick_ capacity_ set_capacity].
  assert (length es = length (entries_ s)) as Hlen by (by rewrite Hp).
  split_and!; try done.
  - eapply evict_represents; try done; [by rewrite Hl|lia].
  - by apply sorted_take.
  - by rewrite <- firstn_map, Hl.
  - by apply Forall_take.
  - by apply distinct_take.
  - rewrite length_take. lia.
Qed.

Lemma peek_represents n k s l : represents n s l → peek k s = snd <$> recall k l.
Proof.
  intros (es & Hp & Hs & Hl & Hb & Hd & _). unfold peek.
  destruct (index_of k (entries_ s)) as [i|] eqn:Hi; cbn [mbind option_bind].
  - apply index_of_Some in Hi as (e & He & Hk).
    destruct (pick _ _ _ _ Hp He) as (a & b & -> & _).
    rewrite map_app in Hl. cbn [map] in Hl. subst l.
    destruct (distinct_split k (pair_of e) _ _ Hd Hk) as (-> & _). by rewrite He.
  - subst l. by rewrite recall_absent by (by eapply missing).
Qed.

Lemma make_represents n c : (Z.of_nat n < 2 ^ 64)%Z → represents n (make_slots c) [].
Proof. intros Hn. exists []. cbn. split_and!; try done; try constructor; lia. Qed.

Lemma clear_represents n s l : represents n s l → represents n (clear s) [].
Proof.
  intros (es & _ & _ & _ & _ & _ & _ & Ht & Hn). exists []. cbn. split_and!; try done; try constructor; lia.
Qed.

(** * Sequences of operations *)

Inductive op := OFind (k : Key) | OPut (k : Key) (v : Value) | OSetCapacity (c : nat) | OClear.

Definition step (o : op) (s : CacheSlots) : option Value * CacheSlots :=
  match o with
  | OFind k => find k s
  | OPut k v => (None, put k v s)
  | OSetCapacity c => (None, set_capacity c s)
  | OClear => (None, clear s)
  end.

Fixpoint run (os : list op) (s : CacheSlots) : list (option Value) * CacheSlots :=
  match os with
  | [] => ([], s)
  | o :: os => let '(r, s) := step o s in let '(rs, s) := run os s in (r :: rs, s)
  end.

(** The same operations on a capacity and a list in order of last use. *)
Definition spec_step (o : op) (cl : nat * list (Key * Value)) : option Value * (nat * list (Key * Value)) :=
  match o with
  | OFind k => (snd <$> recall k cl.2, (cl.1, refresh k cl.2))
  | OPut k v => (None, (cl.1, remember cl.1 k v cl.2))
  | OSetCapacity c => (None, (c, take c cl.2))
  | OClear => (None, (cl.1, []))
  end.

Fixpoint spec_run (os : list op) (cl : nat * list (Key * Value)) :
    list (option Value) * (nat * list (Key * Value)) :=
  match os with
  | [] => ([], cl)
  | o :: os => let '(r, cl) := spec_step o cl in let '(rs, cl) := spec_run os cl in (r :: rs, cl)
  end.

Lemma represents_weaken m n s l : m <= n → represents n s l → represents m s l.
Proof.
  intros Hm (es & Hp & Hs & Hl & Hb & Hd & Hc & Ht & Hn). exists es. split_and!; try done. lia.
Qed.

Lemma put_capacity k v s : capacity_ (put k v s) = capacity_ s.
Proof. unfold put. by destruct (_ =? 0), (index_of k (entries_ s)). Qed.

Lemma find_capacity k s : capacity_ (find k s).2 = capacity_ s.
Proof. unfold find. by destruct (index_of k (entries_ s)). Qed.

Lemma step_refines n o s l :
  represents (S n) s l →
  (step o s).1 = (spec_step o (capacity_ s, l)).1 ∧
  (spec_step o (capacity_ s, l)).2.1 = capacity_ (step o s).2 ∧
  represents n (step o s).2 (spec_step o (capacity_ s, l)).2.2.
Proof.
  intros H. destruct o as [k|k v|c|]; cbn [step spec_step fst snd].
  - destruct (find_represents n k s l H). by rewrite find_capacity.
  - rewrite put_capacity. split_and!; [done..|by apply put_represents].
  - split_and!; [done..|]. eapply represents_weaken; [|by apply set_capacity_represents]. lia.
  - split_and!; [done..|]. eapply represents_weaken; [|by eapply clear_represents]. lia.
Qed.

Lemma run_refines os s l :
  represents (length os) s l →
  let r := run os s in
  r.1 = (spec_run os (capacity_ s, l)).1 ∧
  represents 0 r.2 (spec_run os (capacity_ s, l)).2.2.
Proof.
  cbn zeta. revert s l. induction os as [|o os IH]; intros s l H; cbn [run spec_run length].
  - done.
  - apply step_refines with (o := o) in H as (H1 & H2 & H3).
    destruct (step o s) as [r s1], (spec_step o (capacity_ s, l)) as [r' [c1 l1]]. cbn [fst snd] in *.
    subst. destruct (IH s1 l1 H3) as [IH1 IH2].
    destruct (run os s1) as [rs s2], (spec_run os (capacity_ s1, l1)) as [rs' [c2 l2]]. cbn [fst snd] in *.
    by subst.
Qed.

(** C36. The slots are a least-recently-used cache: from a fresh cache every
    sequence of fewer than 2^64 operations answers like a list kept in order of
    last use (a hit moves its entry to the front, an insertion drops the oldest
    entries beyond the capacity), and holds at most [capacity_] entries. *)
Theorem slots_are_lru capacity os :
  (Z.of_nat (length os) < 2 ^ 64)%Z →
  let r := run os (make_slots capacity) in
  r.1 = (spec_run os (capacity, [])).1 ∧ length (entries_ r.2) <= capacity_ r.2.
Proof.
  intros Hn. cbn zeta. destruct (run_refines os (make_slots capacity) []) as [H1 H2].
  { by apply make_represents. }
  split; [done|]. destruct H2 as (es & Hp & _ & Hl & _ & _ & Hc & _). rewrite <- Hp.
  by rewrite <- Hl, length_map in Hc.
Qed.
End slots.
Arguments Entry : clear implicits.
Arguments CacheSlots : clear implicits.

#[export] Instance eqb_equivalence {A} `{EqDecision A} : Equivalence (λ x y : A, bool_decide (x = y) = true).
Proof.
  split; repeat intros ?; rewrite ?bool_decide_eq_true in *; congruence.
Qed.

Definition sample_ops : list (@op Z Z) :=
  [OPut 1 10; OPut 2 20; OFind 1; OPut 3 30; OFind 2; OFind 1]%Z.

Lemma slots_are_lru_witness :
  (run (λ x y, bool_decide (x = y :> Z)) sample_ops (make_slots 2)).1 =
    [None; None; Some 10%Z; None; None; Some 10%Z].
Proof.
  rewrite (proj1 (slots_are_lru (λ x y, bool_decide (x = y :> Z)) 2 sample_ops eq_refl)).
  vm_compute. reflexivity.
Defined.

(** * The interface *)

(** What a client relies on: a state of use order [l] that has [n] more uses. *)
Class LruCache (Key Value St : Type) (equal_ : Key → Key → bool) := {
  lru_holds : nat → St → list (Key * Value) → Prop;
  lru_capacity : St → nat;
  lru_size : St → nat;
  lru_find : Key → St → option Value * St;
  lru_put : Key → Value → St → St;
  lru_weaken m n s l : m <= n → lru_holds n s l → lru_holds m s l;
  lru_find_spec n k s l :
    lru_holds (S n) s l →
    (lru_find k s).1 = snd <$> recall equal_ k l ∧
    lru_capacity (lru_find k s).2 = lru_capacity s ∧
    lru_holds n (lru_find k s).2 (refresh equal_ k l);
  lru_put_spec n k v s l :
    lru_holds (S n) s l →
    lru_capacity (lru_put k v s) = lru_capacity s ∧
    lru_holds n (lru_put k v s) (remember equal_ (lru_capacity s) k v l);
}.

#[export] Instance slots_lru {Key Value} (equal_ : Key → Key → bool)
    {equal_equiv : Equivalence (λ x y, equal_ x y = true)} :
  LruCache Key Value (CacheSlots Key Value) equal_ := {|
  lru_holds := represents equal_;
  lru_capacity := capacity_;
  lru_size s := length (entries_ s);
  lru_find := find equal_;
  lru_put := put equal_;
  lru_weaken := represents_weaken equal_;
  lru_find_spec n k s l H := conj (proj1 (find_represents equal_ n k s l H))
    (conj (find_capacity equal_ k s) (proj2 (find_represents equal_ n k s l H)));
  lru_put_spec n k v s l H := conj (put_capacity equal_ k v s) (put_represents equal_ n k v s l H);
|}.
