(* ===== verification/VoicePrompts.v ===== *)
(** The voice-clone prompt cache of the Qwen3 TTS session
    (src/models/qwen3_tts/session.cpp, [resolve_voice_prompt]): prompts are
    looked up by a key that stands for the reference audio by its size and its
    FNV-1a hash. Proved against the cache interface [LruCache]. *)

From stdpp Require Import sets.
From S2P Require Import Prelude CacheSlots.

(** * Keys *)

(** [float] samples as their 32-bit patterns. *)
Record AudioBuffer := { sample_rate : Z; channels : Z; samples : list Z }.

Inductive Qwen3VoiceCloneMode := Icl | SpeakerEmbeddingOnly.

Record Qwen3VoiceCloneInput := {
  reference_audio : AudioBuffer;
  reference_text : bytes;
  clone_mode : Qwen3VoiceCloneMode;
}.

Record VoicePromptCacheKey := {
  key_reference_text : bytes;
  key_mode : Qwen3VoiceCloneMode;
  key_sample_rate : Z;
  key_channels : Z;
  key_sample_count : Z;
  key_sample_hash : Z;
}.

#[export] Instance mode_eq_dec : EqDecision Qwen3VoiceCloneMode.
Proof. solve_decision. Defined.

(** [VoicePromptCacheKeyEqual]. *)
Definition key_equal (lhs rhs : VoicePromptCacheKey) : bool :=
  bool_decide (key_reference_text lhs = key_reference_text rhs) &&
  bool_decide (key_mode lhs = key_mode rhs) &&
  (key_sample_rate lhs =b key_sample_rate rhs) &&
  (key_channels lhs =b key_channels rhs) &&
  (key_sample_count lhs =b key_sample_count rhs) &&
  (key_sample_hash lhs =b key_sample_hash rhs).

Section hash.
Local Open Scope Z_scope.

Definition fnv_prime : Z := 1099511628211.

(** One turn of the loop, on 64-bit words. *)
Definition fnv1a_step (hash byte : Z) : Z := uwrap 64 (Z.lxor hash byte * fnv_prime).

Definition fnv1a_mix (hash : Z) (data : bytes) : Z := foldl fnv1a_step hash data.

(** The little-endian bytes of a 32-bit word. *)
Definition word_bytes (w : Z) : bytes :=
  [Z.land w 255; Z.land (Z.shiftr w 8) 255; Z.land (Z.shiftr w 16) 255; Z.land (Z.shiftr w 24) 255].

Definition hash_audio_samples (audio : AudioBuffer) : Z :=
  fnv1a_mix 1469598103934665603 (concat (map word_bytes (samples audio))).
End hash.

Definition voice_prompt_key (input : Qwen3VoiceCloneInput) : VoicePromptCacheKey :=
  {| key_reference_text := reference_text input;
     key_mode := clone_mode input;
     key_sample_rate := sample_rate (reference_audio input);
     key_channels := channels (reference_audio input);
     key_sample_count := uwrap 64 (Z.of_nat (length (samples (reference_audio input))));
     key_sample_hash := hash_audio_samples (reference_audio input) |}.

Lemma key_equal_spec k1 k2 : key_equal k1 k2 = true ↔ k1 = k2.
Proof.
  destruct k1, k2. unfold key_equal. cbn.
  rewrite !andb_true_iff, !bool_decide_eq_true, !Z.eqb_eq. naive_solver.
Qed.

#[export] Instance key_equal_equivalence : Equivalence (λ x y, key_equal x y = true).
Proof. split; repeat intros ?; rewrite ?key_equal_spec in *; congruence. Qed.

(** * The session's cache *)

Section resolve.
(** [build_voice_prompt] runs the models; it may throw. *)
Context {Prompt St : Type} (build_voice_prompt : Qwen3VoiceCloneInput → outcome Prompt).
Context `{cache : !LruCache VoicePromptCacheKey Prompt St key_equal}.

Record session := { voice_prompt_cache_ : St; uncached_voice_prompt_ : option Prompt }.

Definition set_cache (c : St) : io session () := io_modify (λ s,
  {| voice_prompt_cache_ := c; uncached_voice_prompt_ := uncached_voice_prompt_ s |}).

Definition set_uncached (p : Prompt) : io session () := io_modify (λ s,
  {| voice_prompt_cache_ := voice_prompt_cache_ s; uncached_voice_prompt_ := Some p |}).

Definition resolve_voice_prompt (input : Qwen3VoiceCloneInput) : io session Prompt :=
  let key := voice_prompt_key input in
  s ← io_get;
  let '(cached, c) := lru_find key (voice_prompt_cache_ s) in
  set_cache c;;
  match cached with
  | Some prompt => mret prompt
  | None =>
      prompt ← io_lift (build_voice_prompt input);
      if lru_capacity c =? 0 then
        set_uncached prompt;;
        mret prompt
      else
        let c := lru_put key prompt c in
        let '(cached, c) := lru_find key c in
        set_cache c;;
        match cached with
        | None => io_lift (Throw (str "Qwen3 TTS voice prompt cache insert failed"))
        | Some prompt => mret prompt
        end
  end.

(** The requests of a session, one after the other; a failed one does not end it. *)
Fixpoint resolve_all (inputs : list Qwen3VoiceCloneInput) (s : session) : list (outcome Prompt) * session :=
  match inputs with
  | [] => ([], s)
  | i :: inputs =>
      let '(r, s) := resolve_voice_prompt i s in
      let '(rs, s) := resolve_all inputs s in (r :: rs, s)
  end.

(** * Correctness *)

(** Every stored prompt was built from one of the inputs, and is filed under its key. *)
Definition sound (inputs : list Qwen3VoiceCloneInput) (l : list (VoicePromptCacheKey * Prompt)) : Prop :=
  Forall (λ kp, ∃ i, i ∈ inputs ∧ voice_prompt_key i = kp.1 ∧ build_voice_prompt i = Ok kp.2) l.

Definition no_collision (inputs : list Qwen3VoiceCloneInput) : Prop :=
  ∀ i j, i ∈ inputs → j ∈ inputs → voice_prompt_key i = voice_prompt_key j →
         build_voice_prompt i = build_voice_prompt j.

Lemma recall_sound inputs k l p :
  sound inputs l → recall key_equal k l = Some p →
  ∃ i, i ∈ inputs ∧ voice_prompt_key i = k ∧ build_voice_prompt i = Ok p.2.
Proof.
  induction 1 as [|kp l (i & Hi & Hk & Hb) _ IH]; cbn; [done|].
  destruct (key_equal kp.1 k) eqn:E; [|done]. apply key_equal_spec in E. intros [= <-].
  exists i. split_and!; congruence.
Qed.

Lemma others_sound inputs k l : sound inputs l → sound inputs (others key_equal k l).
Proof.
  unfold sound, others. rewrite !Forall_forall. intros H x Hx%list_elem_of_In.
  apply filter_In in Hx as [Hx _]. by apply H, list_elem_of_In.
Qed.

Lemma refresh_sound inputs k l : sound inputs l → sound inputs (refresh key_equal k l).
Proof.
  intros H. unfold refresh. destruct (recall key_equal k l) as [kp|] eqn:E; [|done].
  constructor; [|by apply others_sound].
  assert (kp ∈ l) as Hin.
  { clear -E. induction l as [|x l IH]; [done|]. cbn in E. destruct (key_equal x.1 k); [simplify_eq; left|right; auto]. }
  unfold sound in H. rewrite Forall_forall in H. by apply H.
Qed.

Lemma resolve_step inputs n input s l :
  no_collision inputs → input ∈ inputs → sound inputs l →
  lru_holds (3 + n) (voice_prompt_cache_ s) l →
  ∃ s' l', resolve_voice_prompt input s = (build_voice_prompt input, s') ∧
           sound inputs l' ∧ lru_holds n (voice_prompt_cache_ s') l'.
Proof.
  intros Hnc Hin Hs Hh. unfold resolve_voice_prompt. cbv zeta.
  set (k := voice_prompt_key input).
  destruct (lru_find_spec (2 + n) k _ l Hh) as (Hf & Hcap & Hh1).
  unfold mbind, io_bind, io_get. destruct (lru_find k (voice_prompt_cache_ s)) as [cached c].
  cbn [fst snd] in *. subst cached.
  destruct (recall key_equal k l) as [kp|] eqn:Er; cbn [fmap option_fmap option_map].
  - destruct (recall_sound _ _ _ _ Hs Er) as (i & Hi & Hk & Hb).
    eexists _, (refresh key_equal k l). unfold set_cache, io_modify, mret, io_ret.
    rewrite (Hnc input i Hin Hi), Hb by done.
    split; [done|]. split; [by apply refresh_sound|]. cbn. eapply lru_weaken; [|exact Hh1]. lia.
  - unfold refresh in Hh1. rewrite Er in Hh1.
    destruct (build_voice_prompt input) as [prompt|e] eqn:Eb; unfold set_cache, io_modify, io_lift.
    2: { eexists _, l. split; [done|]. split; [done|]. cbn. eapply lru_weaken; [|exact Hh1]. lia. }
    destruct (Nat.eqb_spec (lru_capacity c) 0) as [H0|H0].
    { eexists _, l. split; [done|]. split; [done|]. cbn. eapply lru_weaken; [|exact Hh1]. lia. }
    destruct (lru_put_spec (1 + n) k prompt c l Hh1) as (Hcap2 & Hh2).
    set (l2 := remember key_equal (lru_capacity c) k prompt l) in *.
    assert (recall key_equal k l2 = Some (k, prompt) ∧ sound inputs l2) as [Er2 Hs2].
    { unfold l2, remember. destruct (lru_capacity c) as [|m]; [done|]. cbn [take recall fst].
      rewrite (proj2 (key_equal_spec k k)) by done. split; [done|].
      constructor; [by exists input|]. apply Forall_take, others_sound, Hs. }
    destruct (lru_find_spec n k _ l2 Hh2) as (Hf3 & _ & Hh3).
    destruct (lru_find k (lru_put k prompt c)) as [cached c3]. cbn [fst snd] in *. subst cached.
    rewrite Er2. cbn [fmap option_fmap option_map snd].
    eexists _, (refresh key_equal k l2). split; [done|]. split; [by apply refresh_sound|]. done.
Qed.

Lemma resolve_all_ok all inputs s l :
  no_collision all → inputs ⊆ all → sound all l →
  lru_holds (3 * length inputs) (voice_prompt_cache_ s) l →
  (resolve_all inputs s).1 = map build_voice_prompt inputs.
Proof.
  intros Hnc. revert s l. induction inputs as [|i inputs IH]; intros s l Hsub Hs Hh; [done|].
  cbn [resolve_all map]. cbn [length] in Hh.
  replace (3 * S (length inputs)) with (3 + 3 * length inputs) in Hh by lia.
  destruct (resolve_step all _ i s l Hnc ltac:(apply Hsub; left) Hs Hh) as (s' & l' & -> & Hs' & Hh').
  specialize (IH s' l' ltac:(set_solver) Hs' Hh'). destruct (resolve_all inputs s'). cbn in *. by rewrite IH.
Qed.
End resolve.

(** Caching voice prompts is transparent: for every number of slots and every
    sequence of requests, each request gets exactly what building its prompt
    afresh gives (its exception included), provided requests with the same key
    (text, mode, format, sample count and sample hash) build the same prompt. *)
Theorem resolve_transparent {Prompt} (build : Qwen3VoiceCloneInput → outcome Prompt) slots inputs :
  no_collision build inputs → (Z.of_nat (3 * length inputs) < 2 ^ 64)%Z →
  (resolve_all build inputs
     {| voice_prompt_cache_ := make_slots slots; uncached_voice_prompt_ := None |}).1 =
  map build inputs.
Proof.
  intros Hnc Hn. apply (resolve_all_ok build inputs inputs _ []); [done|done|constructor|].
  by apply make_represents.
Qed.

Definition sample_input (w : list Z) : Qwen3VoiceCloneInput :=
  {| reference_audio := {| sample_rate := 24000; channels := 1; samples := w |};
     reference_text := str "hello"; clone_mode := Icl |}.

(** A builder that fails on silence. *)
Definition sample_build (i : Qwen3VoiceCloneInput) : outcome VoicePromptCacheKey :=
  let key := voice_prompt_key i in
  if key_sample_count key =b 0 then Throw (str "silent") else Ok key.

Lemma resolve_transparent_witness :
  (resolve_all sample_build (map sample_input [[5]; []; [5]; [6]]%Z)
     {| voice_prompt_cache_ := make_slots 1; uncached_voice_prompt_ := None |}).1 =
  map sample_build (map sample_input [[5]; []; [5]; [6]]%Z).
Proof.
  apply resolve_transparent; [|reflexivity].
  intros i j _ _ E. unfold sample_build. rewrite E. reflexivity.
Defined.

(** * The hash *)

Section hash_facts.
Local Open Scope Z_scope.

Definition word64 (x : Z) : Prop := 0 <= x < 2 ^ 64.

Lemma lxor_word64 h b : word64 h → is_byte b → word64 (Z.lxor h b).
Proof.
  unfold word64, is_byte. intros Hh Hb. split; [apply Z.lxor_nonneg; lia|].
  destruct (decide (Z.lxor h b = 0)) as [->|Hz]; [lia|].
  assert (0 < Z.lxor h b) by (assert (0 <= Z.lxor h b) by (apply Z.lxor_nonneg; lia); lia).
  apply Z.log2_lt_pow2; [done|]. eapply Z.le_lt_trans; [apply Z.log2_lxor; lia|].
  apply Z.max_lub_lt; apply (Z.le_lt_trans _ (Z.log2 (2 ^ 64 - 1))); try (by vm_compute);
    apply Z.log2_le_mono; lia.
Qed.

Lemma uwrap_range x : word64 (uwrap 64 x).
Proof. unfold word64, uwrap. apply Z.mod_pos_bound. lia. Qed.

(** The prime is odd, so multiplication by it loses nothing. *)
Lemma prime_inj x y :
  word64 x → word64 y → uwrap 64 (x * fnv_prime) = uwrap 64 (y * fnv_prime) → x = y.
Proof.
  unfold word64, uwrap. intros Hx Hy E. apply (f_equal (λ z, (z * 14886173955864302971) mod 2 ^ 64)) in E.
  rewrite !Z.mul_mod_idemp_l, <- !Z.mul_assoc in E by lia.
  assert (∀ z, (z * (fnv_prime * 14886173955864302971)) mod 2 ^ 64 = z mod 2 ^ 64) as H.
  { intros z. rewrite <- Z.mul_mod_idemp_r by lia.
    change ((fnv_prime * 14886173955864302971) mod 2 ^ 64) with 1. by rewrite Z.mul_1_r. }
  rewrite !H, !Z.mod_small in E by lia. done.
Qed.

Lemma fnv1a_mix_inj data h1 h2 :
  wf_bytes data → word64 h1 → word64 h2 → fnv1a_mix h1 data = fnv1a_mix h2 data → h1 = h2.
Proof.
  intros Hd. revert h1 h2. induction Hd as [|b data Hb Hd IH]; intros h1 h2 H1 H2 E; [done|].
  apply IH in E; [|apply uwrap_range..]. apply prime_inj in E; [|by apply lxor_word64..].
  apply (f_equal (λ z, Z.lxor z b)) in E. by rewrite !Z.lxor_assoc, Z.lxor_nilpotent, !Z.lxor_0_r in E.
Qed.

(** The hash that stands for the reference audio sees every single change:
    two byte strings of the same length that differ in one byte only never
    collide (whatever the starting value). *)
Theorem fnv1a_single_change h pre x y post :
  word64 h → wf_bytes (pre ++ [x] ++ post) → wf_bytes (pre ++ [y] ++ post) →
  fnv1a_mix h (pre ++ [x] ++ post) = fnv1a_mix h (pre ++ [y] ++ post) → x = y.
Proof.
  unfold fnv1a_mix. rewrite !foldl_app. intros Hh Hx Hy E.
  apply Forall_app in Hx as [Hpre [Hx Hpost]%Forall_app]. apply Forall_app in Hy as [_ [Hy _]%Forall_app].
  rewrite Forall_singleton in Hx, Hy.
  assert (word64 (foldl fnv1a_step h pre)) as Hw.
  { clear -Hh. revert h Hh. induction pre as [|b pre IH]; intros h Hh; [done|]. apply IH, uwrap_range. }
  apply fnv1a_mix_inj in E; [|done|apply uwrap_range..]. cbn [foldl] in E.
  apply prime_inj in E; [|by apply lxor_word64..].
  apply (f_equal (Z.lxor (foldl fnv1a_step h pre))) in E.
  by rewrite <- !Z.lxor_assoc, Z.lxor_nilpotent, !Z.lxor_0_l in E.
Qed.
End hash_facts.

Lemma fnv1a_single_change_witness :
  fnv1a_mix 1469598103934665603 ([1; 2] ++ [3] ++ [4])%Z ≠ fnv1a_mix 1469598103934665603 ([1; 2] ++ [5] ++ [4])%Z.
Proof.
  intros E. apply (fnv1a_single_change 1469598103934665603 [1; 2]%Z 3 5 [4%Z]) in E.
  - discriminate.
  - split; [discriminate|reflexivity].
  - repeat (constructor; [split; [discriminate|reflexivity]|]). constructor.
  - repeat (constructor; [split; [discriminate|reflexivity]|]). constructor.
Defined.
