(* ===== verification/FlowCache.v ===== *)
(** The rolling key/value cache of the flow models
    (src/framework/runtime/flow_kv_cache.cpp, class [RollingFlowKVCache]):
    right-aligned byte buffers per layer, shown to hold exactly the most recent
    steps appended. *)

From S2P Require Import Prelude.

Inductive ggml_type := GGML_TYPE_F32 | GGML_TYPE_F16 | GGML_TYPE_BF16 | GGML_TYPE_OTHER (id : Z).

Record FlowKVLayerCache := {
  type : ggml_type;
  key_bytes : bytes;
  value_bytes : bytes;
  valid_steps : Z;
  capacity_steps : Z;
  step_values : Z;
  step_bytes : Z;
}.

Definition default_layer : FlowKVLayerCache :=
  {| type := GGML_TYPE_F32; key_bytes := []; value_bytes := []; valid_steps := 0;
     capacity_steps := 0; step_values := 0; step_bytes := 0 |}.

Section flow.
(** [ggml_type_size] and the row conversions of the ggml library; [Float] is a
    [float]. *)
Context {Float : Type} (ggml_type_size : ggml_type → Z) (to_bytes : ggml_type → list Float → bytes).

(** [layers_]. *)
Definition RollingFlowKVCache : Type := list FlowKVLayerCache.
Notation run A := (io RollingFlowKVCache A).

Definition validate_cache_type (t : ggml_type) : outcome () :=
  match t with
  | GGML_TYPE_F32 | GGML_TYPE_F16 | GGML_TYPE_BF16 => Ok tt
  | _ => Throw (str "RollingFlowKVCache supports only f32/f16/bf16 cache storage")
  end.

Definition float_values_to_bytes (values : list Float) (t : ggml_type) : outcome bytes :=
  validate_cache_type t;; Ok (to_bytes t values).

Definition zeros (n : Z) : bytes := replicate (Z.to_nat n) 0%Z.

Fixpoint reset_loop (step_values : Z) (t : ggml_type) (capacities : list Z) (i : nat) : run () :=
  match capacities with
  | [] => mret tt
  | capacity :: capacities =>
      if (capacity <=? 0)%Z
      then io_lift (Throw (str "RollingFlowKVCache requires positive layer capacity"))
      else
        let step_bytes := uwrap 64 (step_values * ggml_type_size t) in
        let buffer := zeros (uwrap 64 (capacity * step_bytes)) in
        io_modify (λ layers,
          <[i := {| type := t; key_bytes := buffer; value_bytes := buffer; valid_steps := 0;
                    capacity_steps := capacity; step_values := step_values;
                    step_bytes := step_bytes |}]> layers);;
        reset_loop step_values t capacities (S i)
  end.

Definition reset (layer_capacities : list Z) (step_values : Z) (t : ggml_type) : run () :=
  io_lift (validate_cache_type t);;
  if (step_values <=? 0)%Z
  then io_lift (Throw (str "RollingFlowKVCache requires positive step values"))
  else
    io_modify (resize (length layer_capacities) default_layer);;
    reset_loop step_values t layer_capacities 0.

Definition clear_layer (l : FlowKVLayerCache) : FlowKVLayerCache :=
  {| type := type l; key_bytes := replicate (length (key_bytes l)) 0%Z;
     value_bytes := replicate (length (value_bytes l)) 0%Z; valid_steps := 0;
     capacity_steps := capacity_steps l; step_values := step_values l; step_bytes := step_bytes l |}.

Definition clear_valid_steps : run () := io_modify (map clear_layer).

Definition layer (index : nat) : run FlowKVLayerCache := λ layers,
  match layers !! index with
  | Some l => (Ok l, layers)
  | None => (Throw (str "RollingFlowKVCache layer index is out of range"), layers)
  end.

Definition slice (buffer : bytes) (offset count : Z) : bytes :=
  substr buffer (Z.to_nat offset) (Z.to_nat count).

(** [for (step = start; step < capacity_steps; ++step)]: the stored steps in order. *)
Definition stored_steps (l : FlowKVLayerCache) (buffer : bytes) : bytes :=
  let start := (capacity_steps l - valid_steps l)%Z in
  concat (map (λ step, slice buffer (step * step_bytes l) (step_bytes l))
              (seqZ start (capacity_steps l - start))).

(** [std::fill] with zeros, then [std::copy] of the last [copy_bytes]. *)
Definition store_tail (buffer logical : bytes) (copy_bytes : nat) : bytes :=
  replicate (length buffer - copy_bytes) 0%Z ++ drop (length logical - copy_bytes) logical.

Definition append_tail_bytes (layer_index : nat) (current_key current_value : bytes)
    (current_steps append_steps : Z) (label : bytes) : run () :=
  cache ← layer layer_index;
  if ((current_steps <=? 0) || (append_steps <=? 0) || (current_steps <? append_steps))%Z
  then io_lift (Throw (label ++ str " received invalid KV append size"))
  else
    let current_bytes := uwrap 64 (current_steps * step_bytes cache) in
    if negb (Z.of_nat (length current_key) =b current_bytes) ||
       negb (Z.of_nat (length current_value) =b current_bytes)
    then io_lift (Throw (label ++ str " current KV shape mismatch"))
    else
      let logical_key := stored_steps cache (key_bytes cache) ++
                         slice current_key 0 (append_steps * step_bytes cache) in
      let logical_value := stored_steps cache (value_bytes cache) ++
                           slice current_value 0 (append_steps * step_bytes cache) in
      let new_valid := Z.min (capacity_steps cache) (Z.of_nat (length logical_key) / step_bytes cache) in
      let copy_bytes := Z.to_nat (new_valid * step_bytes cache) in
      io_modify (λ layers,
        <[layer_index := {| type := type cache;
             key_bytes := store_tail (key_bytes cache) logical_key copy_bytes;
             value_bytes := store_tail (value_bytes cache) logical_value copy_bytes;
             valid_steps := new_valid; capacity_steps := capacity_steps cache;
             step_values := step_values cache; step_bytes := step_bytes cache |}]> layers).

Definition append_tail (layer_index : nat) (current_key current_value : list Float)
    (current_steps append_steps : Z) (label : bytes) : run () :=
  cache ← layer layer_index;
  key ← io_lift (float_values_to_bytes current_key (type cache));
  value ← io_lift (float_values_to_bytes current_value (type cache));
  append_tail_bytes layer_index key value current_steps append_steps label.

(** * What the cache holds *)

(** The last [cap] bytes of a history that is preceded by zeros. *)
Definition window (cap : nat) (hist : bytes) : bytes :=
  drop (length hist) (replicate cap 0%Z ++ hist).

(** The layer holds the most recent steps of the histories [hk] and [hv], each
    a whole number of steps of [sb] bytes. *)
Definition holds (cap sb : nat) (hk hv : bytes) (l : FlowKVLayerCache) : Prop :=
  0 < cap ∧ 0 < sb ∧
  capacity_steps l = Z.of_nat cap ∧ step_bytes l = Z.of_nat sb ∧
  length hk = length hv ∧ (sb | length hk) ∧
  key_bytes l = window (cap * sb) hk ∧ value_bytes l = window (cap * sb) hv ∧
  valid_steps l = Z.of_nat (Nat.min cap (length hk / sb)).
End flow.

(** * Lemmas on the buffers *)

Lemma window_length C h : length (window C h) = C.
Proof. unfold window. rewrite length_drop, length_app, length_replicate. lia. Qed.

Lemma window_short C h : length h <= C → window C h = replicate (C - length h) 0%Z ++ h.
Proof.
  intros H. unfold window. rewrite drop_app_le by (by rewrite length_replicate).
  by rewrite drop_replicate.
Qed.

Lemma window_long C h : C <= length h → window C h = drop (length h - C) h.
Proof.
  intros H. unfold window. rewrite drop_app_ge by (by rewrite length_replicate).
  by rewrite length_replicate.
Qed.

(** The step loop copies a contiguous range. *)
Lemma steps_contiguous (b : bytes) sb s n :
  concat (map (λ i, take sb (drop (i * sb) b)) (seq s n)) = take (n * sb) (drop (s * sb) b).
Proof.
  revert s. induction n as [|n IH]; intros s; cbn [seq map concat]; [done|].
  rewrite IH. cbn [Nat.mul]. rewrite <- (take_take_drop (drop (s * sb) b) sb (n * sb)), drop_drop.
  by rewrite (Nat.add_comm (s * sb) sb).
Qed.

Lemma stored_steps_spec l buffer cap sb v :
  capacity_steps l = Z.of_nat cap → step_bytes l = Z.of_nat sb → valid_steps l = Z.of_nat v →
  v <= cap → length buffer = cap * sb →
  stored_steps l buffer = drop ((cap - v) * sb) buffer.
Proof.
  intros Hc Hs Hv Hle Hlen. unfold stored_steps. rewrite Hc, Hs, Hv.
  replace (Z.of_nat cap - (Z.of_nat cap - Z.of_nat v))%Z with (Z.of_nat v) by lia.
  unfold seqZ. rewrite Nat2Z.id.
  transitivity (concat (map (λ i, take sb (drop (i * sb) buffer)) (seq (cap - v) v))).
  - f_equal. replace (seq (cap - v) v) with (Nat.add (cap - v) <$> seq 0 v)
      by (by rewrite fmap_add_seq, Nat.add_0_r).
    change (@map Z bytes) with (@fmap list _ Z bytes). change (@map nat bytes) with (@fmap list _ nat bytes).
    rewrite <- !list_fmap_compose. apply list_fmap_ext. intros _ i _. cbn. unfold slice, substr.
    rewrite Nat2Z.id. do 2 f_equal. nia.
  - rewrite steps_contiguous. apply take_ge. rewrite length_drop, Hlen. nia.
Qed.

(** Storing the tail of the logical buffer extends the history. *)
Lemma store_tail_window cap sb t a hk new :
  0 < sb → length hk = t * sb → length new = a * sb →
  let v := Nat.min cap t in
  let logical := drop ((cap - v) * sb) (window (cap * sb) hk) ++ new in
  let nv := Nat.min cap (v + a) in
  length logical = (v + a) * sb ∧ nv = Nat.min cap (t + a) ∧
  store_tail (window (cap * sb) hk) logical (nv * sb) = window (cap * sb) (hk ++ new).
Proof.
  intros Hsb Hk Hn. cbn zeta. set (v := Nat.min cap t).
  assert (length (drop ((cap - v) * sb) (window (cap * sb) hk) ++ new) = (v + a) * sb) as Hlen.
  { rewrite length_app, length_drop, window_length, Hn. nia. }
  split; [done|]. split; [lia|]. unfold store_tail. rewrite Hlen, window_length.
  destruct (Nat.le_gt_cases t cap) as [Htc|Htc].
  - assert (v = t) as -> by lia.
    assert (drop ((cap - t) * sb) (window (cap * sb) hk) = hk) as ->.
    { rewrite window_short by nia. rewrite drop_app_ge by (rewrite length_replicate; nia).
      rewrite length_replicate. replace ((cap - t) * sb - (cap * sb - length hk)) with 0 by nia. done. }
    destruct (Nat.le_gt_cases (t + a) cap).
    + rewrite window_short by (rewrite length_app; nia). rewrite length_app.
      replace (Nat.min cap (t + a)) with (t + a) by lia. rewrite Nat.sub_diag, drop_0.
      f_equal. f_equal. nia.
    + rewrite window_long by (rewrite length_app; nia). rewrite length_app.
      replace (Nat.min cap (t + a)) with cap by lia. rewrite Nat.sub_diag. cbn [replicate app].
      f_equal. nia.
  - assert (v = cap) as -> by lia. rewrite Nat.sub_diag. cbn [Nat.mul]. rewrite drop_0.
    replace (Nat.min cap (cap + a)) with cap by lia. rewrite Nat.sub_diag. cbn [replicate app].
    rewrite (window_long _ hk) by nia. rewrite window_long by (rewrite length_app; nia).
    rewrite <- drop_app_le by nia. rewrite drop_drop. f_equal. rewrite length_app. nia.
Qed.

Section flow_facts.
Context {Float : Type} (ggml_type_size : ggml_type → Z) (to_bytes : ggml_type → list Float → bytes).

Lemma divides_length sb n : 0 < sb → (sb | n) → ∃ t, n = t * sb ∧ n / sb = t.
Proof. intros Hs [t ->]. exists t. split; [done|]. by rewrite Nat.div_mul by lia. Qed.

(** An append extends the history: with arguments the checks accept, the
    layer afterwards holds the most recent steps of the old history followed by
    the first [append_steps] steps of the new data, right-aligned over zeros;
    the other layers are untouched. *)
Lemma append_extends layers index l cap sb hk hv key value current append label :
  layers !! index = Some l → holds cap sb hk hv l →
  (0 < append <= current)%Z → (current * Z.of_nat sb < 2 ^ 64)%Z →
  Z.of_nat (length key) = (current * Z.of_nat sb)%Z → length value = length key →
  ∃ l', append_tail_bytes index key value current append label layers = (Ok tt, <[index := l']> layers) ∧
        holds cap sb (hk ++ take (Z.to_nat append * sb) key) (hv ++ take (Z.to_nat append * sb) value) l'.
Proof.
  intros Hl (Hcap & Hsb & Hc & Hs & Hkv & Hdiv & Hkb & Hvb & Hvalid) Ha Hcur Hkey Hval.
  destruct (divides_length _ _ Hsb Hdiv) as (t & Ht & Htd). rewrite Htd in Hvalid.
  unfold append_tail_bytes, mbind, io_bind, layer. rewrite Hl.
  assert (((current <=? 0) || (append <=? 0) || (current <? append))%Z = false) as -> by lia.
  rewrite Hs. unfold uwrap. rewrite Z.mod_small by lia. rewrite Hval, Hkey, Z.eqb_refl. cbn [negb orb].
  set (a := Z.to_nat append).
  assert (∀ b, slice b 0 (append * Z.of_nat sb) = take (a * sb) b) as Hslice.
  { intros b. unfold slice, substr. cbn [Z.to_nat]. rewrite drop_0. f_equal. unfold a. nia. }
  rewrite !Hslice.
  rewrite (stored_steps_spec l (key_bytes l) cap sb (Nat.min cap t)) by first [done|lia|by rewrite Hkb, window_length].
  rewrite (stored_steps_spec l (value_bytes l) cap sb (Nat.min cap t)) by first [done|lia|by rewrite Hvb, window_length].
  assert (length (take (a * sb) key) = a * sb ∧ length (take (a * sb) value) = a * sb) as [Hka Hva]
    by (rewrite !length_take; unfold a; nia).
  destruct (store_tail_window cap sb t a hk (take (a * sb) key) Hsb Ht Hka) as (Hlen & Hnv & Hsk).
  destruct (store_tail_window cap sb t a hv (take (a * sb) value) Hsb ltac:(lia) Hva) as (_ & _ & Hsv).
  rewrite Hkb, Hvb, Hlen, Hc.
  assert (Z.min (Z.of_nat cap) (Z.of_nat ((Nat.min cap t + a) * sb) / Z.of_nat sb) =
          Z.of_nat (Nat.min cap (Nat.min cap t + a))) as Hnew.
  { rewrite <- Nat2Z.inj_div, Nat.div_mul by lia. lia. }
  rewrite Hnew. replace (Z.to_nat (Z.of_nat (Nat.min cap (Nat.min cap t + a)) * Z.of_nat sb))
    with (Nat.min cap (Nat.min cap t + a) * sb) by lia.
  rewrite Hsk, Hsv. eexists. split; [done|].
  unfold holds. cbn. rewrite !length_app, Hka, Hva, Hkv. split_and!; try done.
  - rewrite <- Hkv, Ht, <- Nat.mul_add_distr_r. by exists (t + a).
  - rewrite Hnv, <- Hkv, Ht, <- Nat.mul_add_distr_r, Nat.div_mul by lia. done.
Qed.

Lemma window_nil C : window C [] = replicate C 0%Z.
Proof. unfold window. by rewrite app_nil_r. Qed.

Lemma reset_loop_ok sv t caps i layers sb :
  Forall (λ c, 0 < c)%Z caps → i + length caps = length layers →
  uwrap 64 (sv * ggml_type_size t) = Z.of_nat sb → 0 < sb →
  Forall (λ c, c * Z.of_nat sb < 2 ^ 64)%Z caps →
  ∃ layers', reset_loop ggml_type_size sv t caps i layers = (Ok tt, layers') ∧
    length layers' = length layers ∧ (∀ j, j < i → layers' !! j = layers !! j) ∧
    ∀ j c, caps !! j = Some c →
      ∃ l, layers' !! (i + j) = Some l ∧ holds (Z.to_nat c) sb [] [] l ∧ type l = t.
Proof.
  intros Hc Hi Hsb Hpos Hsz. revert i layers Hi.
  induction Hc as [|c caps Hc0 Hc IH]; intros i layers Hi; cbn [reset_loop].
  { exists layers. by split_and!. }
  apply Forall_cons in Hsz as [Hcs Hsz]. cbn [length] in Hi.
  rewrite (proj2 (Z.leb_gt _ _)) by done. cbv zeta. unfold mbind, io_bind, io_modify. rewrite Hsb.
  match goal with |- context [<[i:=?x]> layers] => set (l := x) end.
  destruct (IH Hsz (S i) (<[i:=l]> layers)) as (layers' & E & Hlen & Hbelow & Hat);
    [rewrite length_insert; lia|]. rewrite length_insert in Hlen.
  exists layers'. split; [done|]. split; [done|]. split.
  - intros j Hj. rewrite Hbelow by lia. by rewrite list_lookup_insert_ne by lia.
  - intros [|j] c'; cbn [lookup list_lookup].
    + intros [= <-]. rewrite Nat.add_0_r, Hbelow, list_lookup_insert_eq by lia.
      exists l. split; [done|]. split; [|done]. unfold holds, l. cbn [capacity_steps step_bytes key_bytes value_bytes valid_steps length]. rewrite window_nil.
      unfold zeros, uwrap. rewrite Z.mod_small by lia.
      split_and!; try lia; try (by exists 0); try (f_equal; lia). by rewrite Nat.Div0.div_0_l, Nat.min_0_r.
    + intros Hj. destruct (Hat _ _ Hj) as (l' & ? & ?). exists l'. by replace (i + S j) with (S i + j) by lia.
Qed.

(** One append that the checks accept, to a layer of steps of [sb] bytes. *)
Record append := {
  at_layer : nat; new_key : bytes; new_value : bytes; current_steps : Z; append_steps : Z;
}.

Definition accepted (layers sb : nat) (a : append) : Prop :=
  at_layer a < layers ∧ (0 < append_steps a <= current_steps a)%Z ∧
  (current_steps a * Z.of_nat sb < 2 ^ 64)%Z ∧
  Z.of_nat (length (new_key a)) = (current_steps a * Z.of_nat sb)%Z ∧
  length (new_value a) = length (new_key a).

Fixpoint run_appends (label : bytes) (appends : list append) : io RollingFlowKVCache () :=
  match appends with
  | [] => mret tt
  | a :: appends =>
      append_tail_bytes (at_layer a) (new_key a) (new_value a) (current_steps a) (append_steps a) label;;
      run_appends label appends
  end.

(** Everything appended to one layer, in order. *)
Definition history (sb index : nat) (field : append → bytes) (appends : list append) : bytes :=
  concat (map (λ a, if at_layer a =? index then take (Z.to_nat (append_steps a) * sb) (field a) else [])
              appends).

Lemma run_appends_ok sb caps label appends layers hk hv :
  Forall (accepted (length caps) sb) appends → length layers = length caps →
  (∀ j c, caps !! j = Some c → ∃ l, layers !! j = Some l ∧ holds c sb (hk j) (hv j) l) →
  ∃ layers', run_appends label appends layers = (Ok tt, layers') ∧
    ∀ j c, caps !! j = Some c → ∃ l, layers' !! j = Some l ∧
      holds c sb (hk j ++ history sb j new_key appends) (hv j ++ history sb j new_value appends) l.
Proof.
  intros Ha. revert layers hk hv. induction Ha as [|a appends (Hj & Hsteps & Hsz & Hk & Hv) Ha IH];
    intros layers hk hv Hlen Hat; cbn [run_appends].
  - exists layers. split; [done|]. intros j c Hc. destruct (Hat j c Hc) as (l & ? & ?). exists l.
    unfold history. cbn. by rewrite !app_nil_r.
  - apply lookup_lt_is_Some in Hj as [c Hc]. destruct (Hat _ _ Hc) as (l & Hl & Hh).
    destruct (append_extends layers _ l c sb _ _ _ _ _ _ label Hl Hh Hsteps Hsz Hk Hv) as (l' & E & Hh').
    unfold mbind, io_bind. rewrite E.
    set (k := Z.to_nat (append_steps a) * sb).
    destruct (IH (<[at_layer a:=l']> layers)
      (λ j, hk j ++ (if at_layer a =? j then take k (new_key a) else []))
      (λ j, hv j ++ (if at_layer a =? j then take k (new_value a) else []))) as (layers' & E' & Hat').
    + by rewrite length_insert.
    + intros j c' Hc'. destruct (Nat.eqb_spec (at_layer a) j) as [<-|Hne].
      * rewrite list_lookup_insert_eq by (by eapply lookup_lt_Some). exists l'. by simplify_eq.
      * rewrite list_lookup_insert_ne, !app_nil_r by done. by apply Hat.
    + exists layers'. split; [done|]. intros j c' Hc'. destruct (Hat' j c' Hc') as (l2 & ? & Hh2).
      exists l2. split; [done|]. unfold history. cbn [map concat]. by rewrite <- !app_assoc in Hh2.
Qed.

(** The rolling cache holds exactly the most recent steps: after [reset]
    with positive capacities and any sequence of accepted appends, every layer's
    key and value buffers are the last [capacity] steps of everything appended
    to that layer, right-aligned over zeros, with their number. *)
Theorem rolling_cache_holds layer_capacities step_values t layers0 sb label appends :
  is_ok (validate_cache_type t) = true → (0 < step_values)%Z →
  (step_values * ggml_type_size t)%Z = Z.of_nat sb → 0 < sb → (Z.of_nat sb < 2 ^ 64)%Z →
  Forall (λ c, 0 < c ∧ c * Z.of_nat sb < 2 ^ 64)%Z layer_capacities →
  Forall (accepted (length layer_capacities) sb) appends →
  ∃ layers, (reset ggml_type_size layer_capacities step_values t;; run_appends label appends) layers0 = (Ok tt, layers) ∧
    ∀ j c, layer_capacities !! j = Some c →
      ∃ l, layers !! j = Some l ∧
        key_bytes l = window (Z.to_nat c * sb) (history sb j new_key appends) ∧
        value_bytes l = window (Z.to_nat c * sb) (history sb j new_value appends) ∧
        valid_steps l = Z.min c (Z.of_nat (length (history sb j new_key appends) / sb)).
Proof.
  intros Ht Hsv Hsb Hpos Hsb64 Hcaps Happ. apply Forall_and in Hcaps as [Hcaps Hsz].
  unfold reset. destruct (validate_cache_type t) as [[]|] eqn:Et; [|done].
  destruct (reset_loop_ok step_values t layer_capacities 0
              (resize (length layer_capacities) default_layer layers0) sb) as (layers1 & E1 & Hlen & _ & Hat);
    [done|by rewrite length_resize|unfold uwrap; rewrite Hsb; by apply Z.mod_small; lia|done..|].
  rewrite length_resize in Hlen.
  destruct (run_appends_ok sb (map Z.to_nat layer_capacities) label appends layers1 (λ _, []) (λ _, []))
    as (layers2 & E2 & Hat2).
  - by rewrite length_map.
  - by rewrite length_map.
  - intros j c Hc. change (@map Z nat) with (@fmap list _ Z nat) in Hc.
    apply list_lookup_fmap_Some in Hc as (z & -> & Hz) || (rewrite list_lookup_fmap in Hc; apply fmap_Some in Hc as (z & Hz & ->)).
    destruct (Hat j z Hz) as (l & ? & ? & _). by exists l.
  - exists layers2. unfold mbind, io_bind, io_lift, io_modify.
    rewrite (proj2 (Z.leb_gt _ _)) by done. rewrite E1, E2. split; [done|].
    intros j c Hc. destruct (Hat2 j (Z.to_nat c)) as (l & Hl & Hh).
    { change (@map Z nat) with (@fmap list _ Z nat). by rewrite list_lookup_fmap, Hc. }
    exists l. split; [done|]. destruct Hh as (_ & _ & Hcap & _ & _ & _ & Hk & Hv & Hvalid).
    cbn [app] in *. split_and!; [done..|]. rewrite Hvalid.
    assert (0 < c)%Z by (rewrite Forall_forall in Hcaps; eapply Hcaps, list_elem_of_lookup_2, Hc). lia.
Qed.
End flow_facts.

(** Two layers of two-byte steps; the first keeps one step, the second two. *)
Definition sample_appends : list append :=
  [{| at_layer := 1; new_key := [1; 2; 3; 4]%Z; new_value := [5; 6; 7; 8]%Z; current_steps := 2; append_steps := 1 |};
   {| at_layer := 1; new_key := [9; 10; 11; 12]%Z; new_value := [0; 0; 0; 0]%Z; current_steps := 2; append_steps := 2 |}].

Definition sample_size (t : ggml_type) : Z :=
  match t with GGML_TYPE_F32 => 4 | GGML_TYPE_F16 | GGML_TYPE_BF16 => 2 | GGML_TYPE_OTHER _ => 1 end.

Lemma rolling_cache_holds_witness :
  ∃ layers, (reset sample_size [1; 2]%Z 1 GGML_TYPE_F16;; run_appends [] sample_appends) [] = (Ok tt, layers) ∧
    (key_bytes <$> layers !! 1) = Some [9; 10; 11; 12]%Z.
Proof.
  destruct (rolling_cache_holds sample_size [1; 2]%Z 1 GGML_TYPE_F16 [] 2 [] sample_appends) as (layers & E & H).
  1, 3, 5: reflexivity.
  1, 2: lia.
  - repeat (constructor; [lia|]). constructor.
  - repeat (constructor; [unfold accepted; cbn; lia|]). constructor.
  - exists layers. split; [exact E|].
    destruct (H 1 2%Z eq_refl) as (l & Hl & Hk & _). rewrite Hl. cbn [fmap option_fmap option_map].
    rewrite Hk. vm_compute. reflexivity.
Defined.
