(* ===== verification/KVCache.v ===== *)
(** The transformer key/value caches of src/framework/runtime/kv_cache.cpp
    ([TransformerKVCache] and [TransformerBatchedKVCache]): host bookkeeping over
    device tensors, with import and export of the host state. *)

From stdpp Require Import gmap.
From S2P Require Import Prelude FlowCache.

(** * Tensors *)

(** A [core::TensorValue]: the device buffer it names, its name,
    [shape.num_elements()] and the element type. *)
Record TensorValue := {
  buffer : nat; tensor_name : bytes; num_elements : Z; tensor_type : ggml_type;
}.

Record TransformerKVCacheOptions := { allow_f16_storage : bool; allow_bf16_storage : bool }.

Section kv.
(** A [float], its zero, and the value an element of each tensor type gives back
    after a write (the ggml conversions). *)
Context {Float : Type} (zero : Float) (stored : ggml_type → Float → Float).

(** The contents of the device buffers. *)
Notation device := (gmap nat (list Float)).

Definition validate_cache_tensor (tensor : TensorValue) (options : TransformerKVCacheOptions) : outcome () :=
  let refuse :=
    Throw (if allow_f16_storage options || allow_bf16_storage options
           then str "TransformerKVCache supports only f32/f16/bf16 cache tensors when enabled"
           else str "TransformerKVCache requires f32 cache tensors") in
  match tensor_type tensor with
  | GGML_TYPE_F32 => Ok tt
  | GGML_TYPE_F16 => if allow_f16_storage options then Ok tt else refuse
  | GGML_TYPE_BF16 => if allow_bf16_storage options then Ok tt else refuse
  | _ => refuse
  end.

(** [core::write_tensor_f32], [_f16] and [_bf16], which differ in the element type. *)
Definition write_tensor (tensor : TensorValue) (values : list Float) (d : device) : outcome device :=
  if num_elements tensor =b Z.of_nat (length values)
  then Ok (<[buffer tensor := map (stored (tensor_type tensor)) values]> d)
  else Throw (str "write_tensor_" ++
              match tensor_type tensor with
              | GGML_TYPE_F16 => str "f16" | GGML_TYPE_BF16 => str "bf16" | _ => str "f32"
              end ++ str " value count does not match tensor shape for tensor '" ++
              tensor_name tensor ++ str "': expected " ++ to_string (num_elements tensor) ++
              str ", got " ++ to_string (Z.of_nat (length values))).

Definition read_tensor (tensor : TensorValue) (d : device) : list Float := default [] (d !! buffer tensor).

Definition write_cache_tensor (tensor : TensorValue) (values : list Float)
    (options : TransformerKVCacheOptions) (d : device) : outcome device :=
  validate_cache_tensor tensor options;; write_tensor tensor values d.

Definition read_cache_tensor (tensor : TensorValue) (options : TransformerKVCacheOptions)
    (d : device) : outcome (list Float) :=
  validate_cache_tensor tensor options;; Ok (read_tensor tensor d).

(** * State and cache *)

Record KVLayerState := { valid_steps : Z; key : list Float; value : list Float }.

Record TransformerKVState := { current_end : Z; layers : list KVLayerState }.

Record LayerCache := {
  key_tensor : TensorValue;
  value_tensor : TensorValue;
  import_key_scratch : list Float;
  import_value_scratch : list Float;
}.

Record TransformerKVCache := {
  cache_steps_ : Z;
  step_elems_ : Z;
  valid_steps_ : Z;
  current_end_ : Z;
  options_ : TransformerKVCacheOptions;
  layers_ : list LayerCache;
  memory : device;
}.

Notation run A := (io TransformerKVCache A).

Definition set_steps (valid end_ : Z) : run () := io_modify (λ c,
  {| cache_steps_ := cache_steps_ c; step_elems_ := step_elems_ c; valid_steps_ := valid;
     current_end_ := end_; options_ := options_ c; layers_ := layers_ c; memory := memory c |}).

Definition set_layer (i : nat) (l : LayerCache) : run () := io_modify (λ c,
  {| cache_steps_ := cache_steps_ c; step_elems_ := step_elems_ c; valid_steps_ := valid_steps_ c;
     current_end_ := current_end_ c; options_ := options_ c; layers_ := <[i := l]> (layers_ c);
     memory := memory c |}).

(** Writing a cache tensor on the device. *)
Definition write_cache (tensor : TensorValue) (values : list Float) : run () := λ c,
  match write_cache_tensor tensor values (options_ c) (memory c) with
  | Ok d => (Ok tt,
      {| cache_steps_ := cache_steps_ c; step_elems_ := step_elems_ c; valid_steps_ := valid_steps_ c;
         current_end_ := current_end_ c; options_ := options_ c; layers_ := layers_ c; memory := d |})
  | Throw e => (Throw e, c)
  end.

Fixpoint make_layers (cache_elems : Z) (options : TransformerKVCacheOptions)
    (keys values : list TensorValue) : outcome (list LayerCache) :=
  match keys, values with
  | k :: keys, v :: values =>
      validate_cache_tensor k options;;
      validate_cache_tensor v options;;
      let scratch := replicate (Z.to_nat cache_elems) zero in
      rest ← make_layers cache_elems options keys values;
      Ok ({| key_tensor := k; value_tensor := v; import_key_scratch := scratch;
             import_value_scratch := scratch |} :: rest)
  | _, _ => Ok []
  end.

Definition make_cache (cache_steps step_elems : Z) (keys values : list TensorValue)
    (options : TransformerKVCacheOptions) (d : device) : outcome TransformerKVCache :=
  let cache_steps := Z.max 0 cache_steps in
  let step_elems := Z.max 0 step_elems in
  if (step_elems <=? 0)%Z then Throw (str "TransformerKVCache requires positive step_elems")
  else if negb (length keys =? length values)
  then Throw (str "TransformerKVCache key/value layer counts must match")
  else
    layers ← make_layers (uwrap 64 (cache_steps * step_elems)) options keys values;
    Ok {| cache_steps_ := cache_steps; step_elems_ := step_elems; valid_steps_ := 0; current_end_ := 0;
          options_ := options; layers_ := layers; memory := d |}.

(** [std::fill] with zeros, then [std::copy] to the front. *)
Definition fill_copy (scratch source : list Float) : list Float :=
  source ++ replicate (length scratch - length source) zero.

Fixpoint import_layers (state_steps : Z) (sources : list KVLayerState) (i : nat) : run () :=
  match sources with
  | [] => mret tt
  | source :: sources =>
      c ← io_get;
      match layers_ c !! i with
      | None => mret tt
      | Some cache =>
          if negb (valid_steps source =b state_steps)
          then io_lift (Throw (str "TransformerKVCache requires consistent valid_steps across all layers"))
          else
            let keep_elems := uwrap 64 (valid_steps source * step_elems_ c) in
            if negb (length (key source) =? length (value source))
            then io_lift (Throw (str "TransformerKVCache source key/value sizes must match"))
            else if negb (Z.of_nat (length (key source)) =b keep_elems)
            then io_lift (Throw (str "TransformerKVCache source tensors do not match valid_steps * step_elems"))
            else
              (if (0 <? cache_steps_ c)%Z then
                let key_scratch := fill_copy (import_key_scratch cache) (key source) in
                let value_scratch := fill_copy (import_value_scratch cache) (value source) in
                set_layer i {| key_tensor := key_tensor cache; value_tensor := value_tensor cache;
                               import_key_scratch := key_scratch; import_value_scratch := value_scratch |};;
                write_cache (key_tensor cache) key_scratch;;
                write_cache (value_tensor cache) value_scratch
              else mret tt);;
              import_layers state_steps sources (S i)
      end
  end.

Definition state_steps_of (state : TransformerKVState) : Z :=
  match layers state with [] => 0 | l :: _ => valid_steps l end.

Definition import_state (state : TransformerKVState) : run () :=
  c ← io_get;
  set_steps (valid_steps_ c) (current_end state);;
  match layers_ c with
  | [] => set_steps 0 (current_end state)
  | _ =>
      if negb (length (layers state) =? length (layers_ c))
      then io_lift (Throw (str "TransformerKVCache state layer count does not match cache layer count"))
      else
        let state_steps := state_steps_of state in
        if (cache_steps_ c <? state_steps)%Z
        then io_lift (Throw (str "TransformerKVCache state valid_steps exceeds cache capacity"))
        else
          set_steps state_steps (current_end state);;
          import_layers state_steps (layers state) 0
  end.

Definition export_layer (c : TransformerKVCache) (l : LayerCache) : outcome KVLayerState :=
  let keep_elems := uwrap 64 (valid_steps_ c * step_elems_ c) in
  if keep_elems =b 0 then Ok {| valid_steps := valid_steps_ c; key := []; value := [] |}
  else
    key_values ← read_cache_tensor (key_tensor l) (options_ c) (memory c);
    value_values ← read_cache_tensor (value_tensor l) (options_ c) (memory c);
    Ok {| valid_steps := valid_steps_ c; key := take (Z.to_nat keep_elems) key_values;
          value := take (Z.to_nat keep_elems) value_values |}.

(** Runs [f] over a list, left to right, up to the first exception. *)
Fixpoint traverse {A B} (f : A → outcome B) (l : list A) : outcome (list B) :=
  match l with
  | [] => Ok []
  | a :: l => b ← f a; bs ← traverse f l; Ok (b :: bs)
  end.

Definition export_state (c : TransformerKVCache) : outcome TransformerKVState :=
  ls ← traverse (export_layer c) (layers_ c);
  Ok {| current_end := current_end_ c; layers := ls |}.

Definition advance_after_direct_append (steps : Z) : run () :=
  if (steps <=? 0)%Z then mret tt
  else
    c ← io_get;
    if (cache_steps_ c <? valid_steps_ c + steps)%Z
    then io_lift (Throw (str "TransformerKVCache direct append exceeds cache capacity"))
    else set_steps (valid_steps_ c + steps) (current_end_ c + steps).

Definition retain_prefix (prefix_steps : Z) : run () :=
  c ← io_get;
  if (prefix_steps <? 0)%Z || (valid_steps_ c <? prefix_steps)%Z
  then io_lift (Throw (str "TransformerKVCache prefix length exceeds current state"))
  else set_steps prefix_steps prefix_steps.

Definition mark_device_import (steps : Z) : run () :=
  c ← io_get;
  if (steps <? 0)%Z || (cache_steps_ c <? steps)%Z
  then io_lift (Throw (str "TransformerKVCache device import exceeds cache capacity"))
  else set_steps steps steps.
End kv.

(** * Facts *)

Section kv_facts.
Context {Float : Type} (zero : Float) (stored : ggml_type → Float → Float).

Lemma traverse_ok {A B} (f : A → outcome B) l bs :
  Forall2 (λ a b, f a = Ok b) l bs → traverse f l = Ok bs.
Proof.
  induction 1 as [|a b l bs Hf _ IH]; cbn [traverse]; [done|]. rewrite Hf. cbn [mbind outcome_bind].
  rewrite IH. done.
Qed.

Definition tensors (ls : list (@LayerCache Float)) : list (TensorValue * TensorValue) :=
  map (λ l, (key_tensor l, value_tensor l)) ls.

Definition buffers (ts : list (TensorValue * TensorValue)) : list nat :=
  concat (map (λ kv, [buffer kv.1; buffer kv.2]) ts).

(** Tensors of the declared shape and type. *)
Definition fits (options : TransformerKVCacheOptions) (elems : nat) (kv : TensorValue * TensorValue) : Prop :=
  ∀ t, t = kv.1 ∨ t = kv.2 →
       num_elements t = Z.of_nat elems ∧ validate_cache_tensor t options = Ok tt.

(** The cache is well-formed: its tensors are distinct buffers of
    [cache_steps * step_elems] elements. *)
Definition well_formed (c : @TransformerKVCache Float) : Prop :=
  ∃ elems, (cache_steps_ c * step_elems_ c)%Z = Z.of_nat elems ∧ (Z.of_nat elems < 2 ^ 64)%Z ∧
  (0 <= cache_steps_ c)%Z ∧ (0 < step_elems_ c)%Z ∧
  NoDup (buffers (tensors (layers_ c))) ∧ Forall (fits (options_ c) elems) (tensors (layers_ c)) ∧
  Forall (λ l, length (import_key_scratch l) = elems ∧ length (import_value_scratch l) = elems) (layers_ c).

(** The bookkeeping agrees with the capacity. *)
Definition bounded (c : @TransformerKVCache Float) : Prop :=
  (0 <= valid_steps_ c <= cache_steps_ c)%Z.

(** A layer state of [n] steps. *)
Definition good_layer (step_elems n : Z) (l : @KVLayerState Float) : Prop :=
  valid_steps l = n ∧ Z.of_nat (length (key l)) = (n * step_elems)%Z ∧
  Z.of_nat (length (value l)) = (n * step_elems)%Z.

(** The same cache up to the device contents. *)
Definition same_cache (c c' : @TransformerKVCache Float) : Prop :=
  cache_steps_ c' = cache_steps_ c ∧ step_elems_ c' = step_elems_ c ∧
  valid_steps_ c' = valid_steps_ c ∧ current_end_ c' = current_end_ c ∧
  options_ c' = options_ c ∧ tensors (layers_ c') = tensors (layers_ c).

Lemma same_cache_trans c1 c2 c3 : same_cache c1 c2 → same_cache c2 c3 → same_cache c1 c3.
Proof. unfold same_cache. intros (?&?&?&?&?&?) (?&?&?&?&?&?). split_and!; congruence. Qed.

Lemma lookup_tensors ls i l :
  ls !! i = Some l → tensors ls !! i = Some (key_tensor l, value_tensor l).
Proof.
  intros H. unfold tensors. change (@map LayerCache (TensorValue * TensorValue)) with
    (@fmap list _ (@LayerCache Float) (TensorValue * TensorValue)). by rewrite list_lookup_fmap, H.
Qed.

Lemma tensors_insert ls i l l' :
  ls !! i = Some l → key_tensor l' = key_tensor l → value_tensor l' = value_tensor l →
  tensors (<[i:=l']> ls) = tensors ls.
Proof.
  intros Hl Hk Hv. unfold tensors. apply list_eq. intros j.
  change (@map LayerCache (TensorValue * TensorValue)) with
    (@fmap list _ (@LayerCache Float) (TensorValue * TensorValue)).
  rewrite !list_lookup_fmap. destruct (decide (i = j)) as [<-|].
  - rewrite list_lookup_insert_eq, Hl by (by eapply lookup_lt_Some). cbn. by rewrite Hk, Hv.
  - by rewrite list_lookup_insert_ne.
Qed.

Lemma write_cache_ok tensor values c elems :
  fits (options_ c) elems (tensor, tensor) → length values = elems →
  write_cache stored tensor values c =
    (Ok tt, {| cache_steps_ := cache_steps_ c; step_elems_ := step_elems_ c; valid_steps_ := valid_steps_ c;
               current_end_ := current_end_ c; options_ := options_ c; layers_ := layers_ c;
               memory := <[buffer tensor := map (stored (tensor_type tensor)) values]> (memory c) |}).
Proof.
  intros Hf Hl. destruct (Hf tensor (or_introl eq_refl)) as [Hn Hv].
  unfold write_cache, write_cache_tensor. rewrite Hv. cbn [mbind outcome_bind].
  unfold write_tensor. by rewrite Hn, Hl, Z.eqb_refl.
Qed.

(** What the device holds for one imported layer. *)
Definition imported (elems : nat) (t : TensorValue) (source : list Float) (d : gmap nat (list Float)) : Prop :=
  d !! buffer t = Some (map (stored (tensor_type t)) (source ++ replicate (elems - length source) zero)).

Lemma buffers_at ts i k v :
  ts !! i = Some (k, v) → buffers (drop i ts) = buffer k :: buffer v :: buffers (drop (S i) ts).
Proof. intros H. by rewrite (drop_S _ (k, v)). Qed.

Lemma buffers_apart ts i k v :
  NoDup (buffers ts) → ts !! i = Some (k, v) →
  buffer k ≠ buffer v ∧ buffer k ∉ buffers (drop (S i) ts) ∧ buffer v ∉ buffers (drop (S i) ts).
Proof.
  intros Hnd H. assert (NoDup (buffers (drop i ts))) as Hd.
  { rewrite <- (take_drop i ts) in Hnd. unfold buffers in *. rewrite map_app, concat_app in Hnd.
    by apply NoDup_app in Hnd as (_ & _ & ?). }
  rewrite (buffers_at _ _ _ _ H), !NoDup_cons, not_elem_of_cons in Hd. tauto.
Qed.

Lemma fill_copy_length scratch source :
  length source <= length scratch → length (fill_copy zero scratch source) = length scratch.
Proof. intros H. unfold fill_copy. rewrite length_app, length_replicate. lia. Qed.

Lemma import_layers_ok n sources i c :
  well_formed c → i + length sources = length (layers_ c) →
  (0 <= n <= cache_steps_ c)%Z → Forall (good_layer (step_elems_ c) n) sources →
  ∃ c', import_layers zero stored n sources i c = (Ok tt, c') ∧ well_formed c' ∧ same_cache c c' ∧
    (∀ b, b ∉ buffers (drop i (tensors (layers_ c))) → memory c' !! b = memory c !! b) ∧
    ((0 < cache_steps_ c)%Z → ∀ j source k v,
      sources !! j = Some source → tensors (layers_ c) !! (i + j) = Some (k, v) →
      imported (Z.to_nat (cache_steps_ c * step_elems_ c)) k (key source) (memory c') ∧
      imported (Z.to_nat (cache_steps_ c * step_elems_ c)) v (value source) (memory c')).
Proof.
  revert i c. induction sources as [|source sources IH]; intros i c Hwf Hi Hn Hs; cbn [import_layers].
  { exists c. split; [done|]. split; [done|]. split; [by split_and!|]. by split. }
  apply Forall_cons in Hs as [(Hv & Hk & Hva) Hs]. cbn [length] in Hi.
  destruct (lookup_lt_is_Some_2 (layers_ c) i) as [cache Hc]; [lia|].
  pose proof (lookup_tensors _ _ _ Hc) as Ht.
  pose proof Hwf as (elems & He & Hlt & Hcs & Hse & Hnd & Hfit & Hscr).
  destruct (buffers_apart _ _ _ _ Hnd Ht) as (Hkv & Hknot & Hvnot).
  assert (n * step_elems_ c <= cache_steps_ c * step_elems_ c)%Z as Hle by nia.
  unfold mbind, io_bind, io_get. rewrite Hc, Hv, Z.eqb_refl. cbn [negb].
  rewrite (proj2 (Nat.eqb_eq _ _)) by lia. cbn [negb]. unfold uwrap. rewrite Z.mod_small by nia.
  rewrite Hk, Z.eqb_refl. cbn [negb]. cbv zeta.
  destruct (Z.ltb_spec 0 (cache_steps_ c)) as [Hpos|Hzero].
  2: { destruct (IH (S i) c Hwf ltac:(lia) Hn Hs) as (c' & E & Hwf' & Hsame & Hmem & _).
       exists c'. unfold mret, io_ret. rewrite E. split_and!; [done..| |lia].
       intros b Hb. apply Hmem. rewrite (buffers_at _ _ _ _ Ht), !not_elem_of_cons in Hb. tauto. }
  rewrite Forall_lookup in Hscr. destruct (Hscr _ _ Hc) as [Hsk Hsv].
  rewrite Forall_lookup in Hfit. pose proof (Hfit _ _ Ht) as Hf.
  assert (length (fill_copy zero (import_key_scratch cache) (key source)) = elems ∧
          length (fill_copy zero (import_value_scratch cache) (value source)) = elems) as [Hlk Hlv]
    by (rewrite !fill_copy_length; lia).
  unfold set_layer, io_modify.
  rewrite (write_cache_ok _ _ _ elems); [|intros t [-> | ->]; apply Hf; by left|done].
  rewrite (write_cache_ok _ _ _ elems); [|intros t [-> | ->]; apply Hf; by right|done].
  cbn [cache_steps_ step_elems_ valid_steps_ current_end_ options_ layers_ memory].
  match goal with |- context [import_layers _ _ _ _ _ ?x] => set (c3 := x) end.
  assert (tensors (layers_ c3) = tensors (layers_ c)) as Ht3 by (by eapply tensors_insert).
  destruct (IH (S i) c3) as (c' & E & Hwf' & Hsame & Hmem & Himp).
  { exists elems. rewrite Ht3. unfold c3. cbn. split_and!; try done; [by apply Forall_lookup|].
    apply Forall_insert; [by apply Forall_lookup|by split]. }
  { unfold c3. cbn [layers_]. rewrite length_insert. lia. }
  { done. }
  { done. }
  exists c'. rewrite E. rewrite Ht3 in *.
  assert (memory c' !! buffer (key_tensor cache) = memory c3 !! buffer (key_tensor cache) ∧
          memory c' !! buffer (value_tensor cache) = memory c3 !! buffer (value_tensor cache)) as [Hmk Hmv]
    by (split; by apply Hmem).
  split; [done|]. split; [done|]. split; [|split].
  - eapply same_cache_trans; [|exact Hsame]. unfold same_cache. by rewrite Ht3.
  - intros b Hb. rewrite (buffers_at _ _ _ _ Ht), !not_elem_of_cons in Hb. destruct Hb as (Hb1 & Hb2 & Hb3).
    rewrite Hmem by done. unfold c3. cbn [memory]. by rewrite !lookup_insert_ne by done.
  - intros _ [|j] src k v; cbn [lookup list_lookup].
    + intros [= <-] Hkv'. rewrite Nat.add_0_r, Ht in Hkv'. injection Hkv' as <- <-.
      unfold imported. rewrite Hmk, Hmv. unfold c3. cbn [memory]. rewrite He, Nat2Z.id.
      split; [rewrite lookup_insert_ne by done|]; rewrite lookup_insert_eq; unfold fill_copy; by rewrite ?Hsk, ?Hsv.
    + intros Hj Hkv'. apply Himp with (j := j); [done..|]. by replace (S i + j) with (i + S j) by lia.
Qed.

(** * Import and export *)

(** A host state the cache accepts: one layer per cache layer, all of the same
    number of steps, within the capacity. *)
Definition valid_state (c : @TransformerKVCache Float) (state : @TransformerKVState Float) : Prop :=
  length (layers state) = length (layers_ c) ∧
  ∃ n, (0 <= n <= cache_steps_ c)%Z ∧ Forall (good_layer (step_elems_ c) n) (layers state).

(** The state as the tensors hold it: every element through its tensor's type. *)
Definition as_stored (ts : list (TensorValue * TensorValue)) (state : @TransformerKVState Float) :
    @TransformerKVState Float :=
  {| current_end := current_end state;
     layers := zip_with (λ kv l,
       {| valid_steps := valid_steps l;
          key := map (stored (tensor_type kv.1)) (key l);
          value := map (stored (tensor_type kv.2)) (value l) |}) ts (layers state) |}.

Lemma import_ok c state :
  well_formed c → valid_state c state →
  ∃ c' n, import_state zero stored state c = (Ok tt, c') ∧ well_formed c' ∧
    valid_steps_ c' = n ∧ current_end_ c' = current_end state ∧ (0 <= n <= cache_steps_ c)%Z ∧
    cache_steps_ c' = cache_steps_ c ∧ step_elems_ c' = step_elems_ c ∧ options_ c' = options_ c ∧
    tensors (layers_ c') = tensors (layers_ c) ∧ Forall (good_layer (step_elems_ c) n) (layers state) ∧
    ((0 < cache_steps_ c)%Z → ∀ j source k v,
      layers state !! j = Some source → tensors (layers_ c) !! j = Some (k, v) →
      imported (Z.to_nat (cache_steps_ c * step_elems_ c)) k (key source) (memory c') ∧
      imported (Z.to_nat (cache_steps_ c * step_elems_ c)) v (value source) (memory c')).
Proof.
  intros Hwf (Hlen & n & Hn & Hs). unfold import_state, mbind, io_bind, io_get, set_steps, io_modify.
  destruct (layers_ c) as [|l ls] eqn:El.
  - destruct (layers state) as [|? ?] eqn:Es; [|done]. eexists _, 0%Z. split; [done|].
    destruct Hwf as (elems & Hwf). rewrite El in Hwf.
    split; [exists elems; cbn; by rewrite ?El|].
    cbn [valid_steps_ current_end_ cache_steps_ step_elems_ options_ layers_ memory]. rewrite ?El.
    split_and!; try done; lia.
  - rewrite Hlen, Nat.eqb_refl. cbn [negb].
    assert (state_steps_of state = n) as ->.
    { unfold state_steps_of. destruct (layers state) as [|s0 ss]; [done|].
      apply Forall_cons in Hs as [(Hv & _) _]. done. }
    rewrite (proj2 (Z.ltb_ge _ _)) by lia.
    match goal with |- context [import_layers _ _ _ _ _ ?x] => set (c1 := x) end.
    destruct (import_layers_ok n (layers state) 0 c1) as (c' & E & Hwf' & Hsame & _ & Himp).
    + destruct Hwf as (elems & Hwf). exists elems. rewrite El in Hwf. exact Hwf.
    + exact Hlen.
    + done.
    + done.
    + exists c', n. rewrite E. destruct Hsame as (H1 & H2 & H3 & H4 & H5 & H6).
      unfold c1 in *. cbn [cache_steps_ step_elems_ valid_steps_ current_end_ options_ layers_] in *.
      split_and!; try done; lia.
Qed.

Lemma imported_read elems t source d n :
  imported elems t source d → length source = n → n <= elems →
  take n (read_tensor t d) = map (stored (tensor_type t)) source.
Proof.
  unfold imported, read_tensor. intros -> Hs Hn. cbn [default from_option]. unfold id.
  rewrite map_app, take_app_le by (rewrite length_map; lia). apply take_ge. rewrite length_map. lia.
Qed.

(** Tensors that store what is written give the state back. *)
Lemma as_stored_exact ts (state : @TransformerKVState Float) :
  length ts = length (layers state) →
  Forall (λ kv, (∀ x, stored (tensor_type kv.1) x = x) ∧ (∀ x, stored (tensor_type kv.2) x = x)) ts →
  as_stored ts state = state.
Proof.
  intros Hlen Hf. unfold as_stored. destruct state as [e ls]. cbn [layers current_end] in *. f_equal.
  revert ls Hlen. induction Hf as [|kv ts [Hk Hv] _ IH]; intros [|[n k v] ls] Hlen; try done.
  cbn [zip_with valid_steps key value]. rewrite IH by (cbn in Hlen; lia). do 2 f_equal.
  - rewrite (map_ext _ id) by done. apply map_id.
  - rewrite (map_ext _ id) by done. apply map_id.
Qed.

(** C34. Import and export are inverse up to the tensors' precision: a
    well-formed cache accepts every consistent host state within its capacity,
    and exporting then returns that state, each element as its tensor stores it
    (so exactly that state from tensors that store what is written). *)
Theorem kv_import_export c state :
  well_formed c → valid_state c state →
  ∃ c', import_state zero stored state c = (Ok tt, c') ∧ well_formed c' ∧ bounded c' ∧
        export_state c' = Ok (as_stored (tensors (layers_ c)) state) ∧
        (Forall (λ kv, (∀ x, stored (tensor_type kv.1) x = x) ∧ (∀ x, stored (tensor_type kv.2) x = x))
           (tensors (layers_ c)) → export_state c' = Ok state).
Proof.
  intros Hwf Hvalid. pose proof (proj1 Hvalid) as Hlen.
  assert (Forall (λ kv, (∀ x, stored (tensor_type kv.1) x = x) ∧ (∀ x, stored (tensor_type kv.2) x = x))
            (tensors (layers_ c)) → as_stored (tensors (layers_ c)) state = state) as Hexact
    by (apply as_stored_exact; unfold tensors; rewrite length_map; lia).
  enough (∃ c', import_state zero stored state c = (Ok tt, c') ∧ well_formed c' ∧ bounded c' ∧
            export_state c' = Ok (as_stored (tensors (layers_ c)) state)) as (c' & E & Hwf' & Hb & Hx).
  { exists c'. split_and!; [done..|]. intros Hf. by rewrite Hx, Hexact. }
  destruct (import_ok c state Hwf Hvalid) as (c' & n & E & Hwf' & Hv & He & Hn & Hcs & Hse & Ho & Ht & Hg & Himp).
  exists c'. split; [done|]. split; [done|]. split; [unfold bounded; rewrite Hcs, Hv; done|].
  pose proof Hwf as (elems & Hel & Hlt & H0 & Hse0 & _).
  pose proof Hwf' as (elems' & _ & _ & _ & _ & _ & Hfit & _).
  assert (n * step_elems_ c <= cache_steps_ c * step_elems_ c)%Z as Hle by nia.
  assert (0 <= n * step_elems_ c)%Z as Hnn by nia.
  unfold export_state. rewrite (traverse_ok _ _ (layers (as_stored (tensors (layers_ c)) state))); [by rewrite He|].
  cbn [as_stored layers]. rewrite <- Ht. apply Forall2_same_length_lookup_2.
  { rewrite length_zip_with. unfold tensors. rewrite length_map.
    apply (f_equal length) in Ht. unfold tensors in Ht. rewrite !length_map in Ht. lia. }
  intros j l out Hl Hout. apply lookup_zip_with_Some in Hout as ([k v] & source & -> & Hkv & Hsrc).
  pose proof (lookup_tensors _ _ _ Hl) as Hl'. rewrite Hl' in Hkv. injection Hkv as <- <-.
  rewrite Forall_lookup in Hg. rewrite Forall_lookup in Hfit. destruct (Hg _ _ Hsrc) as (Hsv & Hsk & Hsval). pose proof (Hfit _ _ Hl') as Hf.
  unfold export_layer. rewrite Hv, Hse. unfold uwrap. rewrite Z.mod_small by lia. rewrite Hsv.
  destruct (Z.eqb_spec (n * step_elems_ c) 0) as [Hz|Hz].
  - destruct (key source); [|cbn in *; lia]. destruct (value source); [done|cbn in *; lia].
  - unfold read_cache_tensor. destruct (Hf (key_tensor l) (or_introl eq_refl)) as [_ ->].
    destruct (Hf (value_tensor l) (or_intror eq_refl)) as [_ ->]. cbn [mbind outcome_bind].
    rewrite Ht in Hl'. destruct (Himp ltac:(nia) j source _ _ Hsrc Hl') as [Hik Hiv].
    rewrite (imported_read _ _ _ _ _ Hik), (imported_read _ _ _ _ _ Hiv) by lia. done.
Qed.


(** * Bookkeeping *)

Lemma write_cache_steps tensor values c r c' :
  write_cache stored tensor values c = (r, c') →
  cache_steps_ c' = cache_steps_ c ∧ step_elems_ c' = step_elems_ c ∧
  valid_steps_ c' = valid_steps_ c ∧ current_end_ c' = current_end_ c.
Proof. unfold write_cache. destruct (write_cache_tensor _ _ _ _ _); intros [= <- <-]; done. Qed.

(** Importing the layers moves no step counter, whatever happens. *)
Lemma import_layers_steps n sources i c r c' :
  import_layers zero stored n sources i c = (r, c') →
  cache_steps_ c' = cache_steps_ c ∧ step_elems_ c' = step_elems_ c ∧
  valid_steps_ c' = valid_steps_ c ∧ current_end_ c' = current_end_ c.
Proof.
  revert i c. induction sources as [|source sources IH]; intros i c; cbn [import_layers]; [by intros [= <- <-]|].
  unfold mbind, io_bind, io_get. destruct (layers_ c !! i) as [cache|]; [|by intros [= <- <-]].
  unfold io_lift. destruct (negb (_ =b n)); [by intros [= <- <-]|].
  destruct (negb (_ =? _)); [by intros [= <- <-]|]. destruct (negb (_ =b _)); [by intros [= <- <-]|].
  cbv zeta. destruct (0 <? cache_steps_ c)%Z; [|unfold mret, io_ret; apply IH].
  unfold set_layer, io_modify.
  match goal with |- context [write_cache stored ?t ?v ?x] => destruct (write_cache stored t v x) as [[[]|e] c2] eqn:E2 end;
    apply write_cache_steps in E2; cbn in E2; [|intros [= <- <-]; done].
  match goal with |- context [write_cache stored ?t ?v ?x] => destruct (write_cache stored t v x) as [[[]|e] c3] eqn:E3 end;
    apply write_cache_steps in E3; [|intros [= <- <-]; intuition congruence].
  intros H. apply IH in H. intuition congruence.
Qed.

(** The first imported layer passed its size check. *)
Lemma import_layers_first n source sources c c' :
  import_layers zero stored n (source :: sources) 0 c = (Ok tt, c') → layers_ c ≠ [] →
  valid_steps source = n ∧ Z.of_nat (length (key source)) = uwrap 64 (n * step_elems_ c).
Proof.
  cbn [import_layers]. unfold mbind, io_bind, io_get. intros H Hne.
  destruct (layers_ c) as [|l ls] eqn:El; [done|]. cbn [lookup list_lookup] in H.
  destruct (Z.eqb_spec (valid_steps source) n) as [Hv|]; [|done]. cbn [negb] in H.
  destruct (negb (_ =? _)) in H; [done|].
  destruct (Z.eqb_spec (Z.of_nat (length (key source))) (uwrap 64 (valid_steps source * step_elems_ c))); [|done].
  split; [done|]. by rewrite <- Hv.
Qed.

Inductive kv_op :=
| Import (state : @TransformerKVState Float)
| Advance (steps : Z)
| Retain (prefix_steps : Z)
| Mark (steps : Z).

Definition apply (o : kv_op) : io TransformerKVCache () :=
  match o with
  | Import state => import_state zero stored state
  | Advance steps => advance_after_direct_append steps
  | Retain prefix_steps => retain_prefix prefix_steps
  | Mark steps => mark_device_import steps
  end.

(** The products and sizes the C++ computes are in range (a vector has fewer than
    2^63 elements and no signed multiplication overflows). *)
Definition in_int64 (c : @TransformerKVCache Float) (o : kv_op) : Prop :=
  match o with
  | Import state => Forall (λ l, (- 2 ^ 63 <= valid_steps l * step_elems_ c < 2 ^ 63)%Z ∧
                                 (Z.of_nat (length (key l)) < 2 ^ 63)%Z) (layers state)
  | _ => True
  end.

(** The step counters an operation is documented to leave. *)
Definition target (c : @TransformerKVCache Float) (o : kv_op) : Z * Z :=
  match o with
  | Import state => (match layers_ c with [] => 0%Z | _ => state_steps_of state end, current_end state)
  | Advance steps => (valid_steps_ c + Z.max 0 steps, current_end_ c + Z.max 0 steps)%Z
  | Retain n | Mark n => (n, n)
  end.

(** The bookkeeping never leaves the cache: every operation that succeeds
    moves the step counters exactly where it says and keeps
    [0 <= valid_steps <= cache_steps]; an append, truncation or device import
    that is refused changes nothing at all. *)
Theorem kv_bookkeeping c o r c' :
  bounded c → (0 < step_elems_ c)%Z → in_int64 c o → apply o c = (r, c') →
  match r with
  | Ok _ => (valid_steps_ c', current_end_ c') = target c o ∧ bounded c' ∧ cache_steps_ c' = cache_steps_ c
  | Throw _ => match o with Import _ => True | _ => c' = c end
  end.
Proof.
  unfold bounded. intros Hb Hse Hrange H. destruct o as [state|steps|n|n]; cbn [apply target in_int64] in *.
  - destruct r as [[]|e]; [|done]. revert H.
    unfold import_state, mbind, io_bind, io_get, set_steps, io_modify.
    destruct (layers_ c) as [|l ls] eqn:El; [intros [= <-]; cbn; split_and!; [done|lia|lia|done]|].
    destruct (negb _); [done|]. destruct (Z.ltb_spec (cache_steps_ c) (state_steps_of state)); [done|].
    match goal with |- context [import_layers _ _ _ _ _ ?x] => set (c1 := x) end. intros H1.
    pose proof (import_layers_steps _ _ _ _ _ _ H1) as (S1 & S2 & S3 & S4).
    rewrite S1, S3, S4. cbn. split_and!; [done| |lia|done].
    destruct (layers state) as [|source sources] eqn:Els; [unfold state_steps_of; rewrite Els; lia|].
    apply import_layers_first in H1 as [_ Hk]; [|done]. apply Forall_cons in Hrange as [[Hr1 Hr2] _].
    unfold state_steps_of in *. rewrite Els in *. cbn [c1 step_elems_] in Hk. unfold uwrap in Hk.
    apply Z.nlt_ge. intros Hneg.
    assert (valid_steps source * step_elems_ c < 0)%Z by nia.
    rewrite <- (Z.mod_add _ 1), Z.mod_small in Hk by lia. lia.
  - revert H. unfold advance_after_direct_append. destruct (Z.leb_spec steps 0).
    + intros [= <- <-]. rewrite Z.max_l, !Z.add_0_r by lia. split_and!; [done|lia..|done].
    + unfold mbind, io_bind, io_get, set_steps, io_modify, io_lift.
      destruct (Z.ltb_spec (cache_steps_ c) (valid_steps_ c + steps)); intros [= <- <-]; [done|].
      cbn. rewrite Z.max_r by lia. split_and!; [done|lia..|done].
  - revert H. unfold retain_prefix, mbind, io_bind, io_get, set_steps, io_modify, io_lift.
    destruct (_ || _) eqn:E; intros [= <- <-]; [done|]. cbn. split_and!; [done|lia..|done].
  - revert H. unfold mark_device_import, mbind, io_bind, io_get, set_steps, io_modify, io_lift.
    destruct (_ || _) eqn:E; intros [= <- <-]; [done|]. cbn. split_and!; [done|lia..|done].
Qed.
End kv_facts.

(** Two layers of three steps of two elements, kept at full precision. *)
Definition sample_tensor (b : nat) : TensorValue :=
  {| buffer := b; tensor_name := str "kv"; num_elements := 6; tensor_type := GGML_TYPE_F32 |}.

Definition sample_cache : @TransformerKVCache Z :=
  {| cache_steps_ := 3; step_elems_ := 2; valid_steps_ := 0; current_end_ := 0;
     options_ := {| allow_f16_storage := false; allow_bf16_storage := false |};
     layers_ := map (λ bs, {| key_tensor := sample_tensor bs.1; value_tensor := sample_tensor bs.2;
                              import_key_scratch := replicate 6 0%Z;
                              import_value_scratch := replicate 6 0%Z |}) [(0, 1); (2, 3)];
     memory := ∅ |}.

Definition sample_layer (n : Z) (values : list Z) : @KVLayerState Z :=
  {| valid_steps := n; key := values; value := map Z.opp values |}.

Definition sample_state : @TransformerKVState Z :=
  {| current_end := 9; layers := [sample_layer 2 [1; 2; 3; 4]%Z; sample_layer 2 [5; 6; 7; 8]%Z] |}.

Lemma sample_well_formed : well_formed sample_cache.
Proof.
  exists 6. split_and!; try (cbn; lia).
  - cbn. apply (bool_decide_unpack _). vm_compute. exact I.
  - do 2 (apply Forall_cons; split; [by intros t [-> | ->]|]). constructor.
  - do 2 (apply Forall_cons; split; [done|]). constructor.
Qed.

Lemma kv_import_export_witness :
  ∃ c', import_state 0%Z (λ _ x, x) sample_state sample_cache = (Ok tt, c') ∧
        export_state c' = Ok sample_state.
Proof.
  destruct (kv_import_export 0%Z (λ _ x, x) sample_cache sample_state) as (c' & E & _ & _ & _ & Hx).
  - exact sample_well_formed.
  - split; [reflexivity|]. exists 2%Z. split; [cbn; lia|].
    apply Forall_cons. split; [repeat split|]. apply Forall_cons. split; [repeat split|constructor].
  - exists c'. split; [exact E|]. apply Hx.
    do 2 (apply Forall_cons; split; [split; reflexivity|]). constructor.
Defined.

Lemma kv_bookkeeping_witness :
  (valid_steps_ (apply 0%Z (λ _ x, x) (Advance 4) sample_cache).2, 
   (apply 0%Z (λ _ x, x) (Advance 2) sample_cache).1) = (0%Z, Ok tt) ∧
  bounded (apply 0%Z (λ _ x, x) (Advance 2) sample_cache).2.
Proof.
  split; [reflexivity|].
  pose proof (kv_bookkeeping 0%Z (λ _ x, x) sample_cache (Advance 2) (Ok tt)
    (apply 0%Z (λ _ x, x) (Advance 2) sample_cache).2) as H.
  destruct H as (_ & H & _); [split; discriminate|reflexivity|exact I|reflexivity|exact H].
Defined.

(** A refused import is not rolled back: whenever [import_state] throws, the
    end position is already the refused state's; and the step counter can even
    be left out of range: a state whose layers claim -1 steps is refused, yet
    leaves [valid_steps_] at -1. *)
Theorem kv_refused_import {Float} (zero : Float) stored c state e c' :
  import_state zero stored state c = (Throw e, c') →
  current_end_ c' = current_end state ∧
  ∃ state2 e2 c2, import_state 0%Z (λ _ x, x) state2 sample_cache = (Throw e2, c2) ∧
    bounded sample_cache ∧ valid_steps_ c2 = (-1)%Z.
Proof.
  intros H. split.
  - revert H. unfold import_state, mbind, io_bind, io_get, set_steps, io_modify, io_lift.
    destruct (layers_ c) as [|l ls]; [done|]. destruct (negb _); [by intros [= _ <-]|].
    destruct (_ <? _)%Z; [by intros [= _ <-]|].
    intros H%import_layers_steps. cbn in H. tauto.
  - exists {| current_end := 0; layers := [sample_layer (-1) []; sample_layer (-1) []] |}.
    eexists _, _. split; [vm_compute; reflexivity|]. split; [split; discriminate|reflexivity].
Qed.

Lemma kv_refused_import_witness :
  ∃ e c', import_state 0%Z (λ _ x, x) {| current_end := 7; layers := [] |} sample_cache = (Throw e, c') ∧
          current_end_ c' = 7%Z.
Proof.
  eexists _, _. split; [vm_compute; reflexivity|].
  eapply (kv_refused_import 0%Z (λ _ x, x) sample_cache {| current_end := 7; layers := [] |}).
  vm_compute. reflexivity.
Defined.
