(* ===== verification/DecodeRing.v ===== *)
(** Bounded static decoding (include/engine/framework/runtime/cached_decode.h and
    bounded_static_kv_decode.h/.cpp): the sizing of the cache in power-of-two
    buckets up to the sliding window, the ring cursor over it, and
    [CachedDecodeRuntime], a template over the graph, which appears here as the
    interface [DecodeGraph]. *)

From S2P Require Import Prelude KVCache.
Local Open Scope Z_scope.

(** * Sizing *)

Record BoundedStaticKVDecodeConfig := { sliding_window : Z; min_cache_steps : Z; label : bytes }.

(** [while (bucket < target && bucket < config.sliding_window) bucket *= 2;] *)
Fixpoint bucket_loop (fuel : nat) (target window bucket : Z) : Z :=
  match fuel with
  | O => bucket
  | S fuel =>
      if (bucket <? target) && (bucket <? window) then bucket_loop fuel target window (bucket * 2)
      else bucket
  end.

(** 63 doublings reach every 64-bit window. *)
Definition bounded_static_kv_cache_steps_for_required (config : BoundedStaticKVDecodeConfig)
    (required_steps : Z) : outcome Z :=
  if sliding_window config <=? 0 then Throw (label config ++ str " requires a positive sliding_window")
  else if min_cache_steps config <=? 0 then Throw (label config ++ str " requires a positive min_cache_steps")
  else
    let target := Z.min (Z.max required_steps 1) (sliding_window config) in
    let target := Z.max target (Z.min (min_cache_steps config) (sliding_window config)) in
    Ok (Z.min (bucket_loop 63 target (sliding_window config) 1) (sliding_window config)).

(** * The cursor *)

Record CachedDecodeStep := {
  position : Z;
  step_valid_steps : Z;
  step_cache_steps : Z;
  cache_slot : Z;
  logical_start : Z;
  wrapped : bool;
}.

(** [static_cast<int32_t>]. *)
Definition to_int32 (x : Z) : Z := (x + 2 ^ 31) mod 2 ^ 32 - 2 ^ 31.

(** [absolute_end_] counts the steps since the import without a bound; the code's [int64_t]
    would overflow after 2^63 of them. *)
Record Cursor := { valid_steps_ : Z; absolute_end_ : Z; cache_steps_ : Z }.

Definition cursor_reset : Cursor := {| valid_steps_ := 0; absolute_end_ := 0; cache_steps_ := 0 |}.

Section cursor.
Context {Float : Type}.

Definition cursor_import (state : @TransformerKVState Float) (cache_steps : Z) : outcome Cursor :=
  if cache_steps <=? 0 then Throw (str "BoundedStaticKVDecodeCursor requires positive cache_steps")
  else
    let state_steps := state_steps_of state in
    if cache_steps <? state_steps
    then Throw (str "BoundedStaticKVDecodeCursor state exceeds cache capacity")
    else if existsb (λ layer, negb (valid_steps layer =b state_steps)) (layers state)
    then Throw (str "BoundedStaticKVDecodeCursor requires consistent per-layer valid_steps")
    else Ok {| valid_steps_ := state_steps; absolute_end_ := current_end state; cache_steps_ := cache_steps |}.
End cursor.

Definition cursor_reset_to_empty (cache_steps : Z) : outcome Cursor :=
  if cache_steps <=? 0 then Throw (str "BoundedStaticKVDecodeCursor requires positive cache_steps")
  else Ok {| valid_steps_ := 0; absolute_end_ := 0; cache_steps_ := cache_steps |}.

Definition cursor_next_step (c : Cursor) : outcome CachedDecodeStep :=
  if cache_steps_ c <=? 0
  then Throw (str "BoundedStaticKVDecodeCursor requires imported state before decode")
  else Ok {| position := absolute_end_ c; step_valid_steps := valid_steps_ c;
             step_cache_steps := cache_steps_ c;
             cache_slot := to_int32 (if valid_steps_ c <? cache_steps_ c then valid_steps_ c
                                     else Z.rem (absolute_end_ c) (cache_steps_ c));
             logical_start := 0; wrapped := false |}.

Definition cursor_advance (steps : Z) (c : Cursor) : outcome Cursor :=
  if steps <=? 0 then Ok c
  else if cache_steps_ c <=? 0
  then Throw (str "BoundedStaticKVDecodeCursor requires imported state before advance")
  else Ok {| valid_steps_ := if valid_steps_ c <? cache_steps_ c
                             then Z.min (cache_steps_ c) (valid_steps_ c + steps) else valid_steps_ c;
             absolute_end_ := absolute_end_ c + steps; cache_steps_ := cache_steps_ c |}.

Definition should_advance_graph_cache (step : CachedDecodeStep) : bool :=
  step_valid_steps step <? step_cache_steps step.

(** * The runtime over a graph *)

(** What the template asks of [Graph], with the contract it relies on: [view] is
    the number of valid steps and the end position of the graph's cache. The header
    names the operations and leaves the contract implicit; a cache of the kind of KVCache
    keeps it. *)
Class DecodeGraph (Float Graph : Type) := {
  graph_cache_steps : Graph → Z;
  graph_view : Graph → Z * Z;
  graph_export_state : Graph → outcome (@TransformerKVState Float);
  graph_import_state : @TransformerKVState Float → io Graph ();
  graph_reset_state : Graph → Graph;
  graph_advance : Z → io Graph ();
  graph_export_view g :
    0 <= (graph_view g).1 →
    ∃ state, graph_export_state g = Ok state ∧ state_steps_of state = (graph_view g).1 ∧
             current_end state = (graph_view g).2 ∧
             Forall (λ l, valid_steps l = (graph_view g).1) (layers state);
  graph_import_view state g :
    0 <= state_steps_of state <= graph_cache_steps g →
    Forall (λ l, valid_steps l = state_steps_of state) (layers state) →
    ∃ g', graph_import_state state g = (Ok tt, g') ∧ graph_cache_steps g' = graph_cache_steps g ∧
          graph_view g' = (state_steps_of state, current_end state);
  graph_reset_view g :
    graph_cache_steps (graph_reset_state g) = graph_cache_steps g ∧
    graph_view (graph_reset_state g) = (0, 0);
  graph_advance_view steps g :
    0 < steps → (graph_view g).1 + steps <= graph_cache_steps g →
    ∃ g', graph_advance steps g = (Ok tt, g') ∧ graph_cache_steps g' = graph_cache_steps g ∧
          graph_view g' = ((graph_view g).1 + steps, (graph_view g).2 + steps);
}.

Section runtime.
Context `{graph_impl : DecodeGraph Float Graph}.
(** The factory that builds a graph for a number of cache steps. *)
Context (factory : Z → outcome Graph).

Record CachedDecodeRuntime := {
  config_ : BoundedStaticKVDecodeConfig;
  cursor_ : Cursor;
  graph_ : option Graph;
}.

Notation run A := (io CachedDecodeRuntime A).

Definition set_graph (g : Graph) : run () := io_modify (λ r,
  {| config_ := config_ r; cursor_ := cursor_ r; graph_ := Some g |}).
Definition set_cursor (c : Cursor) : run () := io_modify (λ r,
  {| config_ := config_ r; cursor_ := c; graph_ := graph_ r |}).

(** A call on the graph, which keeps what the call changed even if it throws. *)
Definition on_graph (m : io Graph ()) (g : Graph) : run () := λ r,
  let '(a, g) := m g in (a, {| config_ := config_ r; cursor_ := cursor_ r; graph_ := Some g |}).

Definition make_runtime (config : BoundedStaticKVDecodeConfig) : CachedDecodeRuntime :=
  {| config_ := config; cursor_ := cursor_reset; graph_ := None |}.

Definition fails {A} (what : bytes) : run A := λ r, (Throw (label (config_ r) ++ what), r).

Definition target_cache_steps (required_steps : Z) : run Z := λ r,
  (bounded_static_kv_cache_steps_for_required (config_ r) required_steps, r).

Definition prepare_for_prefill (required_steps : Z) : run bool :=
  target_steps ← target_cache_steps required_steps;
  r ← io_get;
  if match graph_ r with Some g => graph_cache_steps g =b target_steps | None => false end
  then mret false
  else
    g ← io_lift (factory target_steps);
    set_graph g;;
    set_cursor cursor_reset;;
    mret true.

Definition import_state (state : @TransformerKVState Float) : run () :=
  r ← io_get;
  match graph_ r with
  | None => fails (str " requires a graph before importing KV state")
  | Some g =>
      on_graph (graph_import_state state) g;;
      r ← io_get;
      let g := default g (graph_ r) in
      c ← io_lift (cursor_import state (graph_cache_steps g));
      set_cursor c
  end.

Definition grow_for_next_step (required_steps : Z) : run bool :=
  target_steps ← target_cache_steps required_steps;
  r ← io_get;
  match graph_ r with
  | Some g =>
      if target_steps <=? graph_cache_steps g then mret false
      else
        state ← io_lift (graph_export_state g);
        g ← io_lift (factory target_steps);
        set_graph g;;
        import_state state;;
        mret true
  | None => fails (str " requires an initialized graph before cache growth")
  end.

Definition reset_to_empty_cache : run () :=
  r ← io_get;
  match graph_ r with
  | None => fails (str " requires a graph before reset")
  | Some g =>
      set_graph (graph_reset_state g);;
      c ← io_lift (cursor_reset_to_empty (graph_cache_steps (graph_reset_state g)));
      set_cursor c
  end.

Definition next_step : run CachedDecodeStep :=
  r ← io_get;
  match graph_ r with
  | None => fails (str " requires an initialized graph before decode")
  | Some g => io_lift (cursor_next_step (cursor_ r))
  end.

Definition advance_after_direct_append (steps : Z) : run () :=
  r ← io_get;
  match graph_ r with
  | None => fails (str " requires an initialized graph before cache advance")
  | Some g =>
      before ← io_lift (cursor_next_step (cursor_ r));
      (if should_advance_graph_cache before
       then on_graph (graph_advance steps) g else mret tt);;
      r ← io_get;
      c ← io_lift (cursor_advance steps (cursor_ r));
      set_cursor c
  end.

(** The decode loop of a caller: make room, take the step's slot, append. *)
Fixpoint decode (n : nat) : run (list CachedDecodeStep) :=
  match n with
  | O => mret []
  | S n =>
      r ← io_get;
      grow_for_next_step (absolute_end_ (cursor_ r) + 1);;
      step ← next_step;
      advance_after_direct_append 1;;
      rest ← decode n;
      mret (step :: rest)
  end.
End runtime.

(** * Sizing is exact *)

Lemma bucket_loop_spec fuel target window k :
  0 <= k → 1 <= target → window <= 2 ^ (k + Z.of_nat fuel) →
  ∃ j, k <= j ∧ bucket_loop fuel target window (2 ^ k) = 2 ^ j ∧
       (target <= 2 ^ j ∨ window <= 2 ^ j) ∧ (j = k ∨ 2 ^ (j - 1) < target ∧ 2 ^ (j - 1) < window).
Proof.
  revert k. induction fuel as [|fuel IH]; intros k Hk Ht Hw; cbn [bucket_loop].
  - exists k. rewrite Z.add_0_r in Hw. split_and!; [lia|done|by right|by left].
  - destruct (Z.ltb_spec (2 ^ k) target); cbn [andb]; [|exists k; split_and!; [lia|done|by left|by left]].
    destruct (Z.ltb_spec (2 ^ k) window); [|exists k; split_and!; [lia|done|by right|by left]].
    rewrite Z.mul_comm, <- Z.pow_succ_r by lia.
    destruct (IH (Z.succ k)) as (j & Hj & E & Hor & Hmin); [lia|done| |].
    { replace (Z.succ k + Z.of_nat fuel) with (k + Z.of_nat (S fuel)) by lia. done. }
    exists j. split_and!; [lia|done|done|]. right.
    destruct Hmin as [->|[H1 H2]]; [|done]. by replace (Z.succ k - 1) with k by lia.
Qed.

(** The cache size is the right one: for every required length it is enough
    for it (up to the window) and for the minimum, never exceeds the window, is
    the window itself or a power of two, and is less than twice what was needed. *)
Theorem cache_steps_for_required_spec config required :
  0 < sliding_window config <= 2 ^ 62 → 0 < min_cache_steps config →
  let need := Z.max (Z.min (Z.max required 1) (sliding_window config))
                    (Z.min (min_cache_steps config) (sliding_window config)) in
  ∃ n, bounded_static_kv_cache_steps_for_required config required = Ok n ∧
       need <= n <= sliding_window config ∧
       (n = sliding_window config ∨ ∃ j, 0 <= j ∧ n = 2 ^ j) ∧ n < 2 * need.
Proof.
  intros Hw Hm. cbn zeta. unfold bounded_static_kv_cache_steps_for_required.
  rewrite !(proj2 (Z.leb_gt _ _)) by lia.
  set (need := Z.max _ _).
  destruct (bucket_loop_spec 63 need (sliding_window config) 0) as (j & Hj & E & Hor & Hmin).
  { lia. } { lia. } { etrans; [apply Hw|]. by vm_compute. }
  change (2 ^ 0) with 1 in E. rewrite E. eexists. split; [done|].
  assert (need <= sliding_window config) by lia.
  assert (j = 0 ∨ 2 ^ j = 2 * 2 ^ (j - 1)) as Hpow.
  { destruct (Z.eq_dec j 0); [by left|right]. rewrite <- Z.pow_succ_r by lia. f_equal. lia. }
  split; [lia|]. split.
  - destruct (Z.le_ge_cases (2 ^ j) (sliding_window config)).
    + right. exists j. lia.
    + left. lia.
  - destruct Hmin as [->|[H1 H2]]; [cbn in *; lia|]. destruct Hpow as [->|Hpow]; [cbn in *; lia|]. lia.
Qed.

Lemma cache_steps_for_required_spec_witness :
  ∃ n, bounded_static_kv_cache_steps_for_required
         {| sliding_window := 5000; min_cache_steps := 256; label := [] |} 700 = Ok n ∧ 700 <= n < 1400.
Proof.
  destruct (cache_steps_for_required_spec {| sliding_window := 5000; min_cache_steps := 256; label := [] |} 700)
    as (n & E & H1 & _ & H2); [cbn; lia|cbn; lia|].
  exists n. cbn [sliding_window min_cache_steps] in *. split; [exact E|]. lia.
Defined.

(** * The ring *)

Section ring.
Context `{graph_impl : DecodeGraph Float Graph} (factory : Z → outcome Graph).
Hypothesis factory_steps : ∀ n, ∃ g, factory n = Ok g ∧ graph_cache_steps g = n.

(** After [k] tokens: the counters, and either every token still has a row of its
    own or the cache has reached the window. *)
Definition ring (W k : Z) (r : @CachedDecodeRuntime Graph) : Prop :=
  0 <= k ∧ sliding_window (config_ r) = W ∧ 0 < min_cache_steps (config_ r) ∧
  ∃ g C, graph_ r = Some g ∧ graph_cache_steps g = C ∧ 0 < C <= W ∧ (k <= C ∨ C = W) ∧
         cursor_ r = {| valid_steps_ := Z.min k C; absolute_end_ := k; cache_steps_ := C |} ∧
         graph_view g = (Z.min k C, Z.min k C).

Definition cache_of (r : @CachedDecodeRuntime Graph) : Z := cache_steps_ (cursor_ r).

Lemma grow_ring W k r :
  0 < W <= 2 ^ 62 → ring W k r →
  ∃ b r', grow_for_next_step factory (k + 1) r = (Ok b, r') ∧ ring W k r' ∧
          Z.min (k + 1) W <= cache_of r' ∧ (b = false → r' = r) ∧ (b = true → k <= cache_of r).
Proof.
  intros HW (Hk & Hw & Hm & g & C & Hg & HC & HCW & Hor & Hc & Hv).
  destruct (cache_steps_for_required_spec (config_ r) (k + 1)) as (T & ET & HT & _); [by rewrite Hw|done|].
  rewrite Hw in HT. unfold grow_for_next_step, target_cache_steps, mbind, io_bind, io_get.
  rewrite ET, Hg, HC. destruct (Z.leb_spec T C) as [Hle|Hgt].
  - exists false, r. split; [done|]. split.
    { split_and!; [done..|]. exists g, C. split_and!; try done; lia. }
    split_and!; [unfold cache_of; rewrite Hc; cbn; lia|done|done].
  - assert (k <= C) as HkC by lia.
    destruct (graph_export_view g) as (state & Ex & Hs1 & Hs2 & Hs3); [rewrite Hv; cbn; lia|].
    rewrite Hv in *. cbn [fst snd] in *. rewrite Z.min_l in * by lia.
    destruct (factory_steps T) as (g2 & Ef & HT2).
    unfold io_lift, set_graph, set_cursor, io_modify, import_state, mbind, io_bind, io_get, on_graph, io_lift.
    rewrite Ex, Ef. cbn [graph_].
    destruct (graph_import_view state g2) as (g3 & E3 & HT3 & Hv3); [lia|by rewrite Hs1|].
    rewrite E3. cbn [graph_ default from_option]. unfold id. rewrite HT3, HT2.
    unfold cursor_import. rewrite (proj2 (Z.leb_gt _ _)), Hs1, (proj2 (Z.ltb_ge _ _)) by lia.
    assert (existsb (λ layer, negb (valid_steps layer =b k)) (layers state) = false) as ->.
    { apply not_true_iff_false. intros (l & Hl & Hne)%existsb_exists.
      rewrite Forall_forall in Hs3. apply list_elem_of_In, Hs3 in Hl. by rewrite Hl, Z.eqb_refl in Hne. }
    rewrite Hs2. unfold io_modify. eexists true, _. split; [done|]. cbn [config_ cursor_ graph_].
    split.
    { split_and!; [done..|]. exists g3, T. cbn [graph_ cursor_]. rewrite Hv3, Hs1, Hs2, Z.min_l by lia.
      split_and!; try done; lia. }
    unfold cache_of. rewrite Hc. cbn. split_and!; [lia|done|lia].
Qed.

(** The slot a token is written to is its position modulo the cache. *)
Lemma slot_is_position W k C :
  0 <= k → 0 < C <= W → W <= 2 ^ 31 →
  to_int32 (if Z.min k C <? C then Z.min k C else Z.rem k C) = k mod C.
Proof.
  intros Hk HC HW. assert ((if Z.min k C <? C then Z.min k C else Z.rem k C) = k mod C) as ->.
  { destruct (Z.ltb_spec (Z.min k C) C).
    - rewrite Z.min_l, Z.mod_small by lia. done.
    - by rewrite Z.rem_mod_nonneg by lia. }
  pose proof (Z.mod_pos_bound k C ltac:(lia)). unfold to_int32. rewrite Z.mod_small by lia. lia.
Qed.

Lemma advance_ring W k r :
  0 < W <= 2 ^ 31 → ring W k r →
  ∃ r', next_step r = (Ok {| position := k; step_valid_steps := Z.min k (cache_of r);
                             step_cache_steps := cache_of r; cache_slot := k mod cache_of r;
                             logical_start := 0; wrapped := false |}, r) ∧
        advance_after_direct_append 1 r = (Ok tt, r') ∧
        (Z.min (k + 1) W <= cache_of r → ring W (k + 1) r' ∧ cache_of r' = cache_of r).
Proof.
  intros HW (Hk & Hw & Hm & g & C & Hg & HC & HCW & Hor & Hc & Hv).
  unfold cache_of, next_step, advance_after_direct_append, mbind, io_bind, io_get, io_lift.
  rewrite Hg, Hc. unfold cursor_next_step. cbn [valid_steps_ absolute_end_ cache_steps_].
  rewrite (proj2 (Z.leb_gt _ _)), (slot_is_position W) by lia.
  unfold should_advance_graph_cache. cbn [step_valid_steps step_cache_steps].
  destruct (Z.ltb_spec (Z.min k C) C) as [Hlt|Hge].
  - destruct (graph_advance_view 1 g) as (g' & E & HC' & Hv'); [lia|rewrite Hv; cbn; lia|].
    unfold on_graph. rewrite E. cbn [cursor_]. rewrite Hc. unfold cursor_advance.
    cbn [valid_steps_ absolute_end_ cache_steps_]. rewrite !(proj2 (Z.leb_gt _ _)) by lia.
    rewrite (proj2 (Z.ltb_lt _ _)) by lia. unfold set_cursor, io_modify. cbn [config_ graph_].
    eexists. split; [done|]. split; [done|]. intros Hroom. cbn [cursor_ cache_steps_].
    split; [|done]. split_and!; [lia|done..|]. exists g', C. cbn [graph_ cursor_].
    rewrite Hv', Hv. cbn [fst snd]. split_and!; try done; try lia; [f_equal; lia|f_equal; lia].
  - unfold mret, io_ret. rewrite Hc. unfold cursor_advance.
    cbn [valid_steps_ absolute_end_ cache_steps_]. rewrite !(proj2 (Z.leb_gt _ _)) by lia.
    rewrite (proj2 (Z.ltb_ge _ _)) by lia. unfold set_cursor, io_modify.
    eexists. split; [done|]. split; [done|]. intros Hroom. cbn [cursor_ cache_steps_].
    split; [|done]. split_and!; [lia|done..|]. exists g, C. cbn [graph_ cursor_]. rewrite Hg, Hv.
    split_and!; try done; try lia; f_equal; lia.
Qed.

(** What one step of the loop at position [k] must be. *)
Definition ring_step (W k : Z) (step : CachedDecodeStep) : Prop :=
  position step = k ∧ cache_slot step = k mod step_cache_steps step ∧
  step_valid_steps step = Z.min k (step_cache_steps step) ∧
  Z.min (k + 1) W <= step_cache_steps step <= W.

(** Consecutive steps use the same cache, or a larger one while no slot has been
    reused, so that every row keeps its slot. *)
Definition keeps_rows (k : Z) (before after : CachedDecodeStep) : Prop :=
  step_cache_steps after = step_cache_steps before ∨ k <= step_cache_steps before.

Fixpoint ring_steps (W k : Z) (steps : list CachedDecodeStep) : Prop :=
  match steps with
  | [] => True
  | step :: rest =>
      ring_step W k step ∧
      match rest with next :: _ => keeps_rows (k + 1) step next | [] => True end ∧
      ring_steps W (k + 1) rest
  end.

Lemma decode_ring_from W n k r :
  0 < W <= 2 ^ 31 → ring W k r →
  ∃ steps r', decode factory n r = (Ok steps, r') ∧ length steps = n ∧ ring_steps W k steps ∧
              ring W (k + Z.of_nat n) r' ∧
              match steps with
              | [] => True
              | s :: _ => step_cache_steps s = cache_of r ∨ k <= cache_of r
              end.
Proof.
  intros HW. revert k r. induction n as [|n IH]; intros k r Hr; cbn [decode].
  - exists [], r. rewrite Z.add_0_r. by split_and!.
  - assert (absolute_end_ (cursor_ r) = k) as Hend by (destruct Hr as (_ & _ & _ & g & C & _ & _ & _ & _ & -> & _); done).
    unfold mbind, io_bind, io_get at 1. rewrite Hend.
    destruct (grow_ring W k r) as (b & r1 & E1 & Hr1 & Hroom & Hb0 & Hb1); [lia|done|]. rewrite E1.
    destruct (advance_ring W k r1 HW Hr1) as (r2 & E2 & E3 & Hr2). rewrite E2, E3.
    destruct (Hr2 Hroom) as [Hring2 Hc2].
    destruct (IH (k + 1) r2 Hring2) as (steps & r3 & E & Hl & Hs & Hr3 & Hfirst). rewrite E.
    eexists _, r3. split; [done|]. cbn [length]. split; [by rewrite Hl|].
    assert (cache_of r1 <= W) as Hcw
      by (destruct Hr1 as (_ & _ & _ & g & C & _ & _ & HC & _ & Hc & _); unfold cache_of; rewrite Hc; cbn; lia).
    split; [|split].
    + cbn [ring_steps]. split; [split_and!; try done; cbn; lia|]. split; [|done].
      destruct steps as [|next steps]; [done|]. unfold keeps_rows. cbn [step_cache_steps].
      by rewrite Hc2 in Hfirst.
    + by replace (k + Z.of_nat (S n)) with (k + 1 + Z.of_nat n) by lia.
    + cbn [step_cache_steps]. destruct b; [right; by apply Hb1|left; by rewrite Hb0].
Qed.

Lemma prepare_ring W required r :
  0 < W <= 2 ^ 62 → sliding_window (config_ r) = W → 0 < min_cache_steps (config_ r) →
  ∃ r', (prepare_for_prefill factory required;; reset_to_empty_cache) r = (Ok tt, r') ∧ ring W 0 r'.
Proof.
  intros HW Hw Hm.
  destruct (cache_steps_for_required_spec (config_ r) required) as (T & ET & HT & _); [by rewrite Hw|done|].
  rewrite Hw in HT. unfold prepare_for_prefill, target_cache_steps, mbind, io_bind, io_get.
  rewrite ET. destruct (factory_steps T) as (g & Ef & HgT).
  assert (∀ r0 g0, graph_ r0 = Some g0 → graph_cache_steps g0 = T → config_ r0 = config_ r →
    ∃ r', reset_to_empty_cache r0 = (Ok tt, r') ∧ ring W 0 r') as Hreset.
  { intros r0 g0 Hg0 HT0 Hcfg. unfold reset_to_empty_cache, mbind, io_bind, io_get, set_graph, io_modify, io_lift.
    destruct (graph_reset_view g0) as [Hc0 Hv0]. rewrite Hg0, Hc0, HT0. unfold cursor_reset_to_empty.
    rewrite (proj2 (Z.leb_gt _ _)) by lia. unfold set_cursor, io_modify. eexists. split; [done|].
    cbn [config_ cursor_ graph_]. rewrite Hcfg. split_and!; [lia|done..|].
    exists (graph_reset_state g0), T. rewrite Hc0, HT0, Hv0, Z.min_l by lia. split_and!; try done; lia. }
  destruct (graph_ r) as [g0|] eqn:Eg.
  - destruct (Z.eqb_spec (graph_cache_steps g0) T) as [HT0|]; [by eapply Hreset|].
    unfold io_lift, set_graph, set_cursor, io_modify. rewrite Ef. by eapply Hreset.
  - unfold io_lift, set_graph, set_cursor, io_modify. rewrite Ef. by eapply Hreset.
Qed.

(** C35. Decoding runs on a ring of the last tokens: for every graph that keeps the
    interface's contract, from an emptied cache any number of steps succeeds;
    the k-th token goes to slot [k mod cache_steps], as many tokens as fit are
    valid, the cache holds every token up to the window, and it only changes
    size while no slot has been reused, so that rows keep their slots. *)
Theorem decode_ring config required n :
  0 < sliding_window config <= 2 ^ 31 → 0 < min_cache_steps config →
  ∃ steps r, (prepare_for_prefill factory required;; reset_to_empty_cache;; decode factory n)
               (make_runtime config) = (Ok steps, r) ∧
    length steps = n ∧ ring_steps (sliding_window config) 0 steps.
Proof.
  intros HW Hm.
  destruct (prepare_ring (sliding_window config) required (make_runtime config)) as (r1 & E1 & Hr1);
    [lia|done..|].
  destruct (decode_ring_from _ n 0 r1 HW Hr1) as (steps & r & E & Hl & Hs & _).
  exists steps, r. split_and!; [|done..].
  unfold mbind, io_bind in *. destruct (prepare_for_prefill factory required (make_runtime config)) as [[b|e] r0]; [|done].
  rewrite E1. exact E.
Qed.
End ring.

(** A graph that is nothing but its counters. *)
Record counter_graph := { cg_steps : Z; cg_valid : Z; cg_end : Z }.

#[export] Program Instance counter_graph_impl : DecodeGraph unit counter_graph := {|
  graph_cache_steps := cg_steps;
  graph_view g := (cg_valid g, cg_end g);
  graph_export_state g := Ok {| current_end := cg_end g;
    layers := [{| valid_steps := cg_valid g; key := []; value := [] |}] |};
  graph_import_state state g := (Ok tt, {| cg_steps := cg_steps g; cg_valid := state_steps_of state;
    cg_end := current_end state |});
  graph_reset_state g := {| cg_steps := cg_steps g; cg_valid := 0; cg_end := 0 |};
  graph_advance steps g := (Ok tt, {| cg_steps := cg_steps g; cg_valid := cg_valid g + steps;
    cg_end := cg_end g + steps |});
|}.
Next Obligation. intros g _. eexists. split; [reflexivity|]. split_and!; try done. by apply Forall_singleton. Qed.
Next Obligation. intros state g _ _. eexists. by split_and!. Qed.
Next Obligation. done. Qed.
Next Obligation. intros steps g _ _. eexists. by split_and!. Qed.

Lemma decode_ring_witness :
  let config := {| sliding_window := 6; min_cache_steps := 1; label := [] |} in
  let make n := Ok {| cg_steps := n; cg_valid := 0; cg_end := 0 |} in
  ∃ steps r, (prepare_for_prefill make 1;; reset_to_empty_cache;; decode make 8) (make_runtime config) = (Ok steps, r) ∧
    length steps = 8%nat ∧ ring_steps 6 0 steps.
Proof.
  cbv zeta. apply (decode_ring (λ n, Ok {| cg_steps := n; cg_valid := 0; cg_end := 0 |})); [|cbn; lia..].
  intros n. eexists. split; reflexivity.
Defined.
