(* ===== verification/VoiceText.v ===== *)
(** The text handling of a live voice connection (app/server/voice.cpp): event
    escaping, the end-of-thought test of a hypothesis, and the connection
    parameters read from the query string. *)

From S2P Require Import Prelude Stability.
From S2P Require ChunkedBody.

(** * Escaping *)

(** One turn of the loop of [json_escape]. *)
Definition escape_char (c : Z) : bytes :=
  if c =b 34 then [92; 34]%Z
  else if c =b 92 then [92; 92]%Z
  else if c =b 10 then str "\n"
  else if c =b 13 then str "\r"
  else if c =b 9 then str "\t"
  else if (c <? 32)%Z then str "\u00" ++ [ChunkedBody.hex_digit (c / 16); ChunkedBody.hex_digit (c mod 16)]
  else [c].

Definition json_escape (text : bytes) : bytes := concat (map escape_char text).

(** * Semantic endpointing *)

(** How many bytes of white space or punctuation [s] ends with: 0, 1 or 3. *)
Definition is_tail_junk (s : bytes) : nat :=
  match last s with
  | None => 0
  | Some back =>
      if (back <? 128)%Z then (if is_punct back || is_space back then 1 else 0)
      else if 3 <=? length s then
        let lead := at_ s (length s - 3) in
        let second := at_ s (length s - 2) in
        if ((lead =b 227) && (second =b 128)) || (lead =b 239) || ((lead =b 226) && (second =b 128))
        then 3 else 0
      else 0
  end.

(** [while (true) ... t.resize(t.size() - n)]; each turn removes a byte at least. *)
Fixpoint strip_tail (fuel : nat) (t : bytes) : bytes :=
  match fuel with
  | O => t
  | S fuel =>
      match is_tail_junk t with
      | O => t
      | n => strip_tail fuel (take (length t - n) t)
      end
  end.

Definition kContinuationWords : list bytes :=
  [str "and"; str "but"; str "or"; str "so"; str "then"; str "because"; str "like"; str "um"; str "uh";
   str "the"; str "a"; str "an"; str "to"; str "of"; str "with"; str "if"; str "when"; str "for"; str "in";
   str "on"; str "at"; str "my"].

(** The UTF-8 bytes of the continuation characters. *)
Definition kContinuationCjk : list bytes :=
  [[231; 154; 132]; [229; 146; 140]; [230; 136; 150]; [232; 183; 159]; [230; 138; 138]; [231; 187; 153];
   [229; 156; 168]; [230; 152; 175]; [229; 176; 177]; [232; 191; 152]; [229; 143; 136];
   [229; 151; 175]; [229; 145; 131]; [233; 130; 163]; [232; 191; 153]; [229; 190; 136]; [229; 164; 170];
   [232; 166; 129]]%Z.

Definition hypothesis_looks_incomplete (text : bytes) : bool :=
  match strip_tail (length text) text with
  | [] => false
  | t =>
      let last_ := match rfind_char (ch " ") t with None => t | Some space => drop (space + 1) t end in
      match last_ with
      | front :: _ =>
          if (front <? 128)%Z then bool_decide (map to_lower last_ ∈ kContinuationWords)
          else if 3 <=? length t then bool_decide (drop (length t - 3) t ∈ kContinuationCjk) else false
      | [] => if 3 <=? length t then bool_decide (drop (length t - 3) t ∈ kContinuationCjk) else false
      end
  end.

(** * Parameters *)

(** [std::stoi]; its exceptions are caught where it is used. *)
Definition stoi (s : bytes) : option Z := read_integer 32 s.

Section params.
(** [float] with [std::stof], and the literals of the defaults as decimal
    mantissa and exponent. *)
Context {Float : Type} (stof : bytes → option Float) (literal : Z → Z → Float).

Record TurnParams := {
  vad_threshold : Float;
  min_speech_ms : Z;
  min_silence_ms : Z;
  endpoint_hold_ms : Z;
  endpoint_hold_incomplete_ms : Z;
  max_utterance_ms : Z;
  partial_interval_ms : Z;
  min_partial_audio_ms : Z;
  speech_pad_ms : Z;
  min_speech_snr : Float;
  min_speech_rms : Float;
  stability : StabilityParams;
  language : bytes;
}.

Definition default_params : TurnParams :=
  {| vad_threshold := literal 5 (-1); min_speech_ms := 100; min_silence_ms := 120;
     endpoint_hold_ms := 110; endpoint_hold_incomplete_ms := 350; max_utterance_ms := 30000;
     partial_interval_ms := 280; min_partial_audio_ms := 700; speech_pad_ms := 240;
     min_speech_snr := literal 3 0; min_speech_rms := literal 12 (-3);
     stability := {| stable_hypothesis_count := 2; min_stable_chars := 2 |}; language := [] |}.

(** One [else if] of the chain: a malformed value leaves the field as it was. *)
Definition field {A} (parse : bytes → option A) (name key value : bytes) (old : A) : A :=
  if bool_decide (key = name) then default old (parse value) else old.

Definition set_param (p : TurnParams) (key value : bytes) : TurnParams :=
  let int name := field stoi (str name) key value in
  let float name := field stof (str name) key value in
  {| vad_threshold := float "vad_threshold" (vad_threshold p);
     min_speech_ms := int "min_speech_ms" (min_speech_ms p);
     min_silence_ms := int "min_silence_ms" (min_silence_ms p);
     endpoint_hold_ms := int "endpoint_hold_ms" (endpoint_hold_ms p);
     endpoint_hold_incomplete_ms := int "endpoint_hold_incomplete_ms" (endpoint_hold_incomplete_ms p);
     max_utterance_ms := int "max_utterance_ms" (max_utterance_ms p);
     partial_interval_ms := int "partial_interval_ms" (partial_interval_ms p);
     min_partial_audio_ms := int "min_partial_audio_ms" (min_partial_audio_ms p);
     speech_pad_ms := int "speech_pad_ms" (speech_pad_ms p);
     min_speech_snr := float "min_speech_snr" (min_speech_snr p);
     min_speech_rms := float "min_speech_rms" (min_speech_rms p);
     stability :=
       {| stable_hypothesis_count := int "stable_hypothesis_count" (stable_hypothesis_count (stability p));
          min_stable_chars := int "min_stable_chars" (min_stable_chars (stability p)) |};
     language := field Some (str "language") key value (language p) |}.

(** [while (start < query.size())]; each turn moves [start] on. *)
Fixpoint query_loop (fuel : nat) (query : bytes) (start : nat) (params : TurnParams) : TurnParams :=
  match fuel with
  | O => params
  | S fuel =>
      if start <? length query then
        let end_ := default (length query) (find_from (str "&") query start) in
        let pair := substr query start (end_ - start) in
        let params :=
          match find_sub (str "=") pair with
          | None => params
          | Some eq => set_param params (take eq pair) (drop (eq + 1) pair)
          end in
        query_loop fuel query (end_ + 1) params
      else params
  end.

Definition turn_params_from_query (query : bytes) : TurnParams :=
  query_loop (S (length query)) query 0 default_params.
End params.
Arguments TurnParams : clear implicits.

(** * Facts *)

(** Reads a JSON string up to its closing quote: the text and what follows. *)
Fixpoint scan_string (s : bytes) : option (bytes * bytes) :=
  let emit (c : Z) (r : option (bytes * bytes)) := (λ tr, (c :: tr.1, tr.2)) <$> r in
  match s with
  | [] => None
  | c :: s =>
      if c =b 34 then Some ([], s)
      else if c =b 92 then
        match s with
        | [] => None
        | e :: s =>
            if e =b 34 then emit 34%Z (scan_string s)
            else if e =b 92 then emit 92%Z (scan_string s)
            else if e =b ch "n" then emit 10%Z (scan_string s)
            else if e =b ch "r" then emit 13%Z (scan_string s)
            else if e =b ch "t" then emit 9%Z (scan_string s)
            else if e =b ch "u" then
              match s with
              | a :: b :: h :: l :: s =>
                  match ChunkedBody.hex_value h, ChunkedBody.hex_value l with
                  | Some h, Some l => if (a =b 48) && (b =b 48) then emit (h * 16 + l)%Z (scan_string s) else None
                  | _, _ => None
                  end
              | _ => None
              end
            else None
        end
      else if (c <? 32)%Z then None
      else emit c (scan_string s)
  end.

(** An escaped text is exactly one JSON string: a reader of the event that
    stops at the closing quote gets the text back byte for byte and resumes
    right after it, so no transcript can add fields to an event. *)
Theorem json_escape_exact text rest :
  wf_bytes text → scan_string (json_escape text ++ 34%Z :: rest) = Some (text, rest).
Proof.
  induction 1 as [|c text Hc _ IH]; [done|].
  unfold json_escape. cbn [map concat]. fold (json_escape text). rewrite <- app_assoc.
  unfold escape_char.
  destruct (Z.eqb_spec c 34) as [->|]; [cbn; by rewrite IH|].
  destruct (Z.eqb_spec c 92) as [->|]; [cbn; by rewrite IH|].
  destruct (Z.eqb_spec c 10) as [->|]; [cbn; by rewrite IH|].
  destruct (Z.eqb_spec c 13) as [->|]; [cbn; by rewrite IH|].
  destruct (Z.eqb_spec c 9) as [->|]; [cbn; by rewrite IH|].
  unfold is_byte in Hc. destruct (Z.ltb_spec c 32).
  - change (str "\u00") with [92; 117; 48; 48]%Z. cbn [app scan_string].
    rewrite !ChunkedBody.hex_value_digit by (Z.to_euclidean_division_equations; lia). cbn [Z.eqb Pos.eqb].
    change (117 =b ch "n") with false. change (117 =b ch "r") with false. change (117 =b ch "t") with false.
    change (117 =b ch "u") with true. cbn [andb]. rewrite IH. cbn. do 3 f_equal.
    Z.to_euclidean_division_equations; lia.
  - cbn [app scan_string]. rewrite !(proj2 (Z.eqb_neq _ _)), (proj2 (Z.ltb_ge _ _)) by lia.
    rewrite IH. done.
Qed.

Lemma json_escape_exact_witness :
  scan_string (json_escape [97; 34; 44; 34; 10; 7; 228; 189; 160]%Z ++ 34%Z :: str "}") =
    Some ([97; 34; 44; 34; 10; 7; 228; 189; 160]%Z, str "}").
Proof. apply json_escape_exact. wf_concrete. Defined.

(** ** The end of a thought *)

Definition ascii_junk (c : Z) : Prop := (c < 128)%Z ∧ is_punct c || is_space c = true.

Lemma is_tail_junk_ascii s c : ascii_junk c → is_tail_junk (s ++ [c]) = 1.
Proof.
  intros [Hc Hj]. unfold is_tail_junk. rewrite last_snoc, (proj2 (Z.ltb_lt _ _)) by done. by rewrite Hj.
Qed.

Lemma strip_tail_stop fuel t : is_tail_junk t = 0 → strip_tail fuel t = t.
Proof. destruct fuel; cbn; [done|]. by intros ->. Qed.

Lemma strip_tail_junk fuel t junk :
  Forall ascii_junk junk → is_tail_junk t = 0 → length junk <= fuel → strip_tail fuel (t ++ junk) = t.
Proof.
  intros Hj Ht. revert fuel. induction junk as [|c junk IH] using rev_ind; intros fuel Hf.
  - rewrite app_nil_r. by apply strip_tail_stop.
  - apply Forall_app in Hj as [Hj Hc]. rewrite Forall_singleton in Hc. rewrite length_app in Hf. cbn in Hf.
    destruct fuel as [|fuel]; [lia|]. rewrite app_assoc. cbn [strip_tail].
    rewrite is_tail_junk_ascii by done. rewrite length_app. cbn [length]. rewrite Nat.add_sub, take_app_length.
    apply IH; [done|lia].
Qed.

Lemma alnum_solid c : is_alnum c = true → (0 <= c < 128)%Z ∧ is_punct c || is_space c = false ∧ c ≠ ch " ".
Proof.
  unfold is_alnum, is_alpha, is_upper, is_lower, is_digit, is_punct, is_space. eval_ch.
  unfold is_alnum, is_alpha, is_upper, is_lower, is_digit. lia.
Qed.

Lemma rfind_char_app c s t :
  Forall (λ x, x ≠ c) t → rfind_char c (s ++ c :: t) = Some (length s).
Proof.
  intros Ht. induction s as [|a s IH]; cbn [app rfind_char length].
  - assert (rfind_char c t = None) as ->.
    { clear -Ht. induction Ht as [|x t Hx _ IH]; cbn; [done|]. rewrite IH. by rewrite (proj2 (Z.eqb_neq _ _)). }
    by rewrite Z.eqb_refl.
  - by rewrite IH.
Qed.

Lemma rfind_char_absent c t : Forall (λ x, x ≠ c) t → rfind_char c t = None.
Proof. induction 1 as [|x t Hx _ IH]; cbn; [done|]. rewrite IH. by rewrite (proj2 (Z.eqb_neq _ _)). Qed.

(** The hold stretches exactly on a continuation word: a hypothesis whose
    last space-separated word is a plain word, whatever its case and the ASCII
    punctuation and white space after it, looks incomplete if and only if that
    word is one of the listed ones. *)
Theorem looks_incomplete_word pre w junk :
  w ≠ [] → Forall (λ c, is_alnum c = true) w → Forall ascii_junk junk →
  (pre = [] ∨ ∃ p, pre = p ++ str " ") →
  hypothesis_looks_incomplete (pre ++ w ++ junk) = bool_decide (map to_lower w ∈ kContinuationWords).
Proof.
  intros Hne Hw Hj Hpre.
  assert (is_tail_junk (pre ++ w) = 0) as Htail.
  { destruct w as [|c w _] using rev_ind; [done|]. apply Forall_app in Hw as [_ Hc].
    rewrite Forall_singleton in Hc. apply alnum_solid in Hc as (Hr & Hp & _).
    unfold is_tail_junk. rewrite app_assoc, last_snoc, (proj2 (Z.ltb_lt _ _)) by lia. by rewrite Hp. }
  unfold hypothesis_looks_incomplete. rewrite app_assoc, strip_tail_junk by (done || rewrite !length_app; lia).
  assert (Forall (λ x, x ≠ ch " ") w) as Hns
    by (eapply Forall_impl; [exact Hw|]; intros x Hx%alnum_solid; tauto).
  assert ((match rfind_char (ch " ") (pre ++ w) with
           | None => pre ++ w | Some space => drop (space + 1) (pre ++ w) end) = w) as Hlast.
  { destruct Hpre as [->|[p ->]]; cbn [app].
    - by rewrite rfind_char_absent.
    - rewrite <- app_assoc. change (str " " ++ w) with (ch " " :: w). rewrite rfind_char_app by done.
      rewrite (cons_middle (ch " ") p w), app_assoc. rewrite drop_app_length'; [done|]. by rewrite length_app. }
  destruct (pre ++ w) as [|a l] eqn:E; [by apply app_eq_nil in E as [_ ->]|].
  cbv zeta. rewrite Hlast.
  destruct w as [|c w]; [done|]. apply Forall_cons in Hw as [Hc _]. apply alnum_solid in Hc as [Hr _].
  by rewrite (proj2 (Z.ltb_lt _ _)) by lia.
Qed.

Lemma looks_incomplete_word_witness :
  hypothesis_looks_incomplete (str "I went home" ++ [44%Z] ++ str " And... ") = true.
Proof.
  change (hypothesis_looks_incomplete ((str "I went home, ") ++ str "And" ++ str "... ") = true).
  rewrite looks_incomplete_word.
  - vm_compute. reflexivity.
  - discriminate.
  - repeat (constructor; [reflexivity|]). constructor.
  - repeat (constructor; [split; reflexivity|]). constructor.
  - right. exists (str "I went home,"). reflexivity.
Defined.

(** ** Parameters *)

Section query.
Context {Float : Type} (stof : bytes → option Float) (literal : Z → Z → Float).

(** The [key=value] pairs of a query; a piece without [=] is none. *)
Definition query_pairs (query : bytes) : list (bytes * bytes) :=
  omap (λ pair, eq ← find_sub (str "=") pair; Some (take eq pair, drop (eq + 1) pair))
       (split_on (ch "&") query).

(** The last well-formed value given for a key. *)
Definition last_value {A} (parse : bytes → option A) (name : bytes) (pairs : list (bytes * bytes)) (d : A) : A :=
  default d (last (omap (λ kv : bytes * bytes, if bool_decide (kv.1 = name) then parse kv.2 else None) pairs)).

Definition set_all (p : TurnParams Float) (pairs : list (bytes * bytes)) : TurnParams Float :=
  foldl (λ p kv, set_param stof p kv.1 kv.2) p pairs.

Lemma query_loop_spec fuel query start p :
  length query < fuel + start →
  query_loop stof fuel query start p = set_all p (query_pairs (drop start query)).
Proof.
  revert start p. induction fuel as [|fuel IH]; intros start p Hf; cbn [query_loop].
  - by rewrite drop_ge by lia.
  - destruct (Nat.ltb_spec start (length query)); [|by rewrite drop_ge by lia].
    cbv zeta. rewrite IH; rewrite find_from_at by lia.
    + unfold query_pairs at 2. rewrite split_on_find. change (str "&") with [ch "&"].
      destruct (find_sub [ch "&"] (drop start query)) as [i|] eqn:E; cbn [fmap option_fmap option_map default from_option];
        unfold id; cbn [omap list_omap].
      * unfold substr. replace (start + i - start) with i by lia.
        replace (drop (start + i + 1) query) with (drop (S i) (drop start query))
          by (rewrite drop_drop; f_equal; lia).
        fold (query_pairs (drop (S i) (drop start query))).
        by destruct (find_sub (str "=") (take i (drop start query))).
      * unfold substr. rewrite (take_ge (drop start query)) by (by rewrite length_drop).
        rewrite (drop_ge query (length query + 1)) by lia.
        by destruct (find_sub (str "=") (drop start query)).
    + destruct (find_sub _ _); cbn [fmap option_fmap option_map default from_option]; unfold id; lia.
Qed.

Lemma last_value_cons {A} (parse : bytes → option A) name kv pairs d :
  last_value parse name (kv :: pairs) d = last_value parse name pairs (field parse name kv.1 kv.2 d).
Proof.
  unfold last_value, field. cbn [omap list_omap].
  set (l := omap _ pairs). destruct (bool_decide (kv.1 = name)); [|done].
  destruct (parse kv.2) as [a|]; [|done]. destruct l as [|b l]; [done|].
  rewrite !last_cons. by destruct (last l).
Qed.

(** Query parameters are read independently: every field is the last
    well-formed value its key was given anywhere in the query, and its default
    if there is none; unknown keys and malformed values have no effect. *)
Theorem turn_params_fields query :
  let p := turn_params_from_query stof literal query in
  let d := default_params literal in
  let int name := last_value stoi (str name) (query_pairs query) in
  let float name := last_value stof (str name) (query_pairs query) in
  vad_threshold p = float "vad_threshold" (vad_threshold d) ∧
  min_speech_ms p = int "min_speech_ms" 100%Z ∧
  min_silence_ms p = int "min_silence_ms" 120%Z ∧
  endpoint_hold_ms p = int "endpoint_hold_ms" 110%Z ∧
  endpoint_hold_incomplete_ms p = int "endpoint_hold_incomplete_ms" 350%Z ∧
  max_utterance_ms p = int "max_utterance_ms" 30000%Z ∧
  partial_interval_ms p = int "partial_interval_ms" 280%Z ∧
  min_partial_audio_ms p = int "min_partial_audio_ms" 700%Z ∧
  speech_pad_ms p = int "speech_pad_ms" 240%Z ∧
  min_speech_snr p = float "min_speech_snr" (min_speech_snr d) ∧
  min_speech_rms p = float "min_speech_rms" (min_speech_rms d) ∧
  stable_hypothesis_count (stability p) = int "stable_hypothesis_count" 2%Z ∧
  min_stable_chars (stability p) = int "min_stable_chars" 2%Z ∧
  language p = last_value Some (str "language") (query_pairs query) [].
Proof.
  cbv zeta. unfold turn_params_from_query. rewrite query_loop_spec, drop_0 by lia.
  assert (∀ p pairs,
    vad_threshold (set_all p pairs) = last_value stof (str "vad_threshold") pairs (vad_threshold p) ∧
    min_speech_ms (set_all p pairs) = last_value stoi (str "min_speech_ms") pairs (min_speech_ms p) ∧
    min_silence_ms (set_all p pairs) = last_value stoi (str "min_silence_ms") pairs (min_silence_ms p) ∧
    endpoint_hold_ms (set_all p pairs) = last_value stoi (str "endpoint_hold_ms") pairs (endpoint_hold_ms p) ∧
    endpoint_hold_incomplete_ms (set_all p pairs) =
      last_value stoi (str "endpoint_hold_incomplete_ms") pairs (endpoint_hold_incomplete_ms p) ∧
    max_utterance_ms (set_all p pairs) = last_value stoi (str "max_utterance_ms") pairs (max_utterance_ms p) ∧
    partial_interval_ms (set_all p pairs) = last_value stoi (str "partial_interval_ms") pairs (partial_interval_ms p) ∧
    min_partial_audio_ms (set_all p pairs) = last_value stoi (str "min_partial_audio_ms") pairs (min_partial_audio_ms p) ∧
    speech_pad_ms (set_all p pairs) = last_value stoi (str "speech_pad_ms") pairs (speech_pad_ms p) ∧
    min_speech_snr (set_all p pairs) = last_value stof (str "min_speech_snr") pairs (min_speech_snr p) ∧
    min_speech_rms (set_all p pairs) = last_value stof (str "min_speech_rms") pairs (min_speech_rms p) ∧
    stable_hypothesis_count (stability (set_all p pairs)) =
      last_value stoi (str "stable_hypothesis_count") pairs (stable_hypothesis_count (stability p)) ∧
    min_stable_chars (stability (set_all p pairs)) =
      last_value stoi (str "min_stable_chars") pairs (min_stable_chars (stability p)) ∧
    language (set_all p pairs) = last_value Some (str "language") pairs (language p)) as H.
  { intros p pairs. revert p. induction pairs as [|kv pairs IH]; intros p; [done|].
    rewrite !last_value_cons. exact (IH (set_param stof p kv.1 kv.2)). }
  apply H.
Qed.
End query.
