(* ===== verification/VoiceTurn.v ===== *)
(** One live voice connection (app/server/voice.cpp, [VoiceLiveRunner::Impl]): the
    audio loop and the decode worker as two threads over a shared state. A step
    of either thread is a function of the state; the audio thread's blocking
    waits, and the points inside one block where the worker can get in between,
    are places of its program counter. The members both threads use without
    [decode_mutex] (the tracker, [speech_started_at], the partial and stable
    timestamps) are shared state as well: [handle_result] is one step, as are the
    critical sections of the audio thread with the code up to the next one. A
    step reads the clock once. An event is a value; [event_json] is its text. *)

From S2P Require Import Prelude Stability VoiceText.

(** * Parameters of the model *)

(** The arithmetic of [float] and [double] the loop uses. *)
Class FloatArith (Float Double : Type) := {
  f_literal : Z → Z → Float;          (* mantissa, decimal exponent *)
  f_add : Float → Float → Float;
  f_mul : Float → Float → Float;
  f_ltb : Float → Float → bool;
  d_of_f : Float → Double;
  f_of_d : Double → Float;
  d_of_Z : Z → Double;
  d_add : Double → Double → Double;
  d_mul : Double → Double → Double;
  d_div : Double → Double → Double;
  d_sqrt : Double → Double;
  d_ltb : Double → Double → bool;
  format_rms : Float → bytes;         (* std::fixed << std::setprecision(5) *)
}.

Record TranscribeResult := { text : bytes; result_language : bytes }.

(** [VoiceActivityEvent::Kind]. *)
Inductive activity := SpeechStart | SpeechEnd | SpeechSegment.

Section turn.
Context `{arith : FloatArith Float Double}.
(** The speech recognizer, and the streaming voice-activity session: its state,
    its answer to one window at a sample position, and [reset]. *)
Context (transcribe : list Float → outcome TranscribeResult).
Context {Vad : Type} (vad_process : Vad → Z → list Float → outcome (list activity) * Vad)
        (vad_reset : Vad → Vad).
Context (params : TurnParams Float).

(** Instants and durations are nanoseconds of the monotonic clock. *)
Definition ms (n : Z) : Z := n * 1000000.
Definition to_ms (ns : Z) : Z := Z.quot ns 1000000.

Definition f_max (a b : Float) : Float := if f_ltb a b then b else a.

Definition rms_of (block : list Float) : Float :=
  match block with
  | [] => f_literal 0 0
  | _ =>
      let sum := foldl (λ sum sample, d_add sum (d_mul (d_of_f sample) (d_of_f sample))) (d_of_Z 0) block in
      f_of_d (d_sqrt (d_div sum (d_of_Z (Z.of_nat (length block)))))
  end.

(** * Events *)

Inductive payload :=
| Started
| Stable (text : bytes)
| Partial (text : bytes)
| EndpointLikely (text : bytes)
| Discarded (peak gate : Float)
| Ended
| Final (result : TranscribeResult) (timings : list (bytes * Z)).

Inductive event :=
| Turn (utterance_id t_ms : Z) (what : payload)
| Error (message : bytes).

(** The text of one server-sent event. *)
Definition quoted (s : bytes) : bytes := [34%Z] ++ s ++ [34%Z].
Definition member (name value : bytes) : bytes := quoted name ++ str ":" ++ value.
Definition members (ms : list bytes) : bytes :=
  match ms with [] => [] | m :: ms => foldl (λ out m, out ++ str "," ++ m) m ms end.

Definition type_and_extra (what : payload) : bytes * list bytes :=
  match what with
  | Started => (str "speech_started", [])
  | Stable text => (str "stable_transcript", [member (str "text") (quoted (json_escape text))])
  | Partial text => (str "partial_transcript", [member (str "text") (quoted (json_escape text))])
  | EndpointLikely text => (str "endpoint_likely", [member (str "text") (quoted (json_escape text))])
  | Discarded peak gate =>
      (str "speech_discarded",
       [member (str "reason") (quoted (str "below_noise_gate"));
        member (str "peak_rms") (format_rms peak); member (str "gate_rms") (format_rms gate)])
  | Ended => (str "speech_ended", [])
  | Final result timings =>
      (str "final_transcript",
       [member (str "text") (quoted (json_escape (text result)));
        member (str "language") (quoted (json_escape (result_language result)));
        member (str "timings") (str "{" ++ members (map (λ t, member t.1 (to_string t.2)) timings) ++ str "}")])
  end.

Definition event_json (e : event) : bytes :=
  match e with
  | Turn utt t_ms what =>
      let '(type, extra) := type_and_extra what in
      str "{" ++ members ([member (str "type") (quoted type); member (str "utterance_id") (to_string utt);
                           member (str "t_ms") (to_string t_ms)] ++ extra) ++ str "}"
  | Error message =>
      str "{" ++ members [member (str "type") (quoted (str "error"));
                          member (str "message") (quoted (json_escape message))] ++ str "}"
  end.

(** * State *)

Record Job := { job_utterance_id : Z; job_final : bool; job_candidate : bool; job_audio : list Float }.

(** Where the audio thread is: about to read a block; in the middle of one block
    (the voice activities left, the second half of [begin_pending_end], the two
    checks at the end of the loop's body); waiting for the worker inside
    [commit_utterance]; or past the loop. *)
Inductive after_commit := Continue | ResetVad | Finish.
Inductive audio_pc :=
| Reading
| Activities (rest : list activity)
| CandidateQueue (rest : list activity)
| HoldCheck
| RunCheck
| CommitWait (k : after_commit)
| FinalQueue (k : after_commit)
| FinalWait (k : after_commit)
| Closed.

Record state := {
  pc : audio_pc;
  speaking : bool;
  utterance_id : Z;
  preroll : list Float;
  utterance : list Float;
  speech_started_at : Z;
  speech_ended_at : Z;
  last_partial_enqueue : Z;
  first_partial : option Z;
  first_stable : option Z;
  pending_end : bool;
  pending_since : Z;
  gap_buffer : list Float;
  candidate : TranscribeResult;
  candidate_valid : bool;
  candidate_decode_ns : Z;
  candidate_samples : nat;
  latest_hypothesis : bytes;
  pending : option Job;
  running : option Job;              (* [worker_busy], with the job the worker holds *)
  quit : bool;
  tracker : StableTracker;
  last_partial_emitted : bytes;
  last_growth_hypothesis : bytes;
  hypothesis_stalls : Z;
  endpoint_likely_utt : Z;
  noise_floor_rms : Float;
  utterance_peak_rms : Float;
  vad : Vad;
  vad_pending : list Float;
  vad_sample : Z;
  events : list event;
}.

#[local] Instance state_settable : Settable state := λ s,
  {| pc := pc s; speaking := speaking s; utterance_id := utterance_id s; preroll := preroll s;
     utterance := utterance s; speech_started_at := speech_started_at s;
     speech_ended_at := speech_ended_at s; last_partial_enqueue := last_partial_enqueue s;
     first_partial := first_partial s; first_stable := first_stable s; pending_end := pending_end s;
     pending_since := pending_since s; gap_buffer := gap_buffer s; candidate := candidate s;
     candidate_valid := candidate_valid s; candidate_decode_ns := candidate_decode_ns s;
     candidate_samples := candidate_samples s; latest_hypothesis := latest_hypothesis s;
     pending := pending s; running := running s; quit := quit s; tracker := tracker s;
     last_partial_emitted := last_partial_emitted s;
     last_growth_hypothesis := last_growth_hypothesis s; hypothesis_stalls := hypothesis_stalls s;
     endpoint_likely_utt := endpoint_likely_utt s; noise_floor_rms := noise_floor_rms s;
     utterance_peak_rms := utterance_peak_rms s; vad := vad s; vad_pending := vad_pending s;
     vad_sample := vad_sample s; events := events s |}.

Definition no_result : TranscribeResult := {| text := []; result_language := [] |}.

Definition initial (v : Vad) : state :=
  {| pc := Reading; speaking := false; utterance_id := 0; preroll := []; utterance := [];
     speech_started_at := 0; speech_ended_at := 0; last_partial_enqueue := 0;
     first_partial := None; first_stable := None; pending_end := false; pending_since := 0;
     gap_buffer := []; candidate := no_result; candidate_valid := false; candidate_decode_ns := 0;
     candidate_samples := 0; latest_hypothesis := []; pending := None; running := None; quit := false;
     tracker := make_tracker (stability params); last_partial_emitted := []; last_growth_hypothesis := [];
     hypothesis_stalls := 0; endpoint_likely_utt := -1; noise_floor_rms := f_literal 4 (-3);
     utterance_peak_rms := f_literal 0 0; vad := v; vad_pending := []; vad_sample := 0; events := [] |}.

(** The clock starts at 0. *)
Definition emit_event (now utt : Z) (what : payload) (s : state) : state :=
  s <| events := events s ++ [Turn utt (to_ms now) what] |>.

Definition emit_error (message : bytes) (s : state) : state :=
  s <| events := events s ++ [Error message] |>.

(** * The decode worker *)

Definition emit_final (now utt : Z) (result : TranscribeResult) (decode_ns : Z) (audio_samples : nat)
    (s : state) : state :=
  emit_event now utt
    (Final result
       [(str "speech_started_ms", to_ms (speech_started_at s));
        (str "speech_ended_ms", to_ms (speech_ended_at s));
        (str "first_partial_ms", from_option to_ms (-1)%Z (first_partial s));
        (str "first_stable_ms", from_option to_ms (-1)%Z (first_stable s));
        (str "eot_to_final_ms", to_ms (now - speech_ended_at s));
        (str "final_decode_ms", to_ms decode_ns);
        (str "audio_ms", Z.quot (1000 * Z.of_nat audio_samples) 16000)]) s.

(** The job's last 100 ms are about as quiet as the room. *)
Definition tail_is_quiet (noise_floor : Float) (audio : list Float) : bool :=
  if 1600 <=? length audio then
    let energy := foldl (λ e sample, d_add e (d_mul (d_of_f sample) (d_of_f sample))) (d_of_Z 0)
                    (drop (length audio - 1600) audio) in
    let quiet_rms := d_of_f (f_max (f_literal 4 (-3)) (f_mul (f_literal 15 (-1)) noise_floor)) in
    d_ltb (d_div energy (d_of_Z 1600)) (d_mul quiet_rms quiet_rms)
  else false.

(** [candidate = result] and its companions. *)
Definition store_candidate (job : Job) (result : TranscribeResult) (decode_ns : Z) (s : state) : state :=
  s <| candidate := result |> <| candidate_valid := true |> <| candidate_decode_ns := decode_ns |>
    <| candidate_samples := length (job_audio job) |>.

Definition report_stable (now : Z) (job : Job) (grew : bool) (s : state) : state :=
  if grew then
    let s := match first_stable s with
             | None => s <| first_stable := Some (now - speech_started_at s)%Z |>
             | Some _ => s
             end in
    emit_event now (job_utterance_id job) (Stable (stable_ (tracker s))) s
  else s.

Definition report_partial (now : Z) (job : Job) (s : state) : state :=
  let tentative := match stable_ (tracker s) with
                   | [] => hypothesis_ (tracker s)
                   | _ => tentative_ (tracker s)
                   end in
  if bool_decide (tentative ≠ [] ∧ tentative ≠ last_partial_emitted s) then
    let s := s <| last_partial_emitted := tentative |> in
    let s := match first_partial s with
             | None => s <| first_partial := Some (now - speech_started_at s)%Z |>
             | Some _ => s
             end in
    emit_event now (job_utterance_id job) (Partial tentative) s
  else s.

Definition anticipate_endpoint (now : Z) (job : Job) (hypothesis : bytes) (s : state) : state :=
  let s :=
    if bool_decide (hypothesis = last_growth_hypothesis s)
    then s <| hypothesis_stalls := (hypothesis_stalls s + 1)%Z |>
    else
      let s := s <| last_growth_hypothesis := hypothesis |> <| hypothesis_stalls := 0%Z |> in
      if endpoint_likely_utt s =b job_utterance_id job then s <| endpoint_likely_utt := (-1)%Z |> else s in
  if (1 <=? hypothesis_stalls s)%Z && negb (endpoint_likely_utt s =b job_utterance_id job) &&
     negb (hypothesis_looks_incomplete hypothesis)
  then emit_event now (job_utterance_id job) (EndpointLikely hypothesis)
         (s <| endpoint_likely_utt := job_utterance_id job |>)
  else s.

Definition handle_result (now : Z) (job : Job) (result : TranscribeResult) (decode_ns : Z) (s : state) : state :=
  if job_final job then emit_final now (job_utterance_id job) result decode_ns (length (job_audio job)) s
  else
    let tail_quiet := job_candidate job || tail_is_quiet (noise_floor_rms s) (job_audio job) in
    let s := if tail_quiet && negb (bool_decide (text result = []))
             then store_candidate job result decode_ns s else s in
    if bool_decide (text result = []) then s
    else
      let s := s <| latest_hypothesis := text result |> in
      let '(t, stable_grew) := update (tracker s) (text result) in
      let s := s <| tracker := t |> in
      anticipate_endpoint now job (text result) (report_partial now job (report_stable now job stable_grew s)).

Definition worker_take (s : state) : option state :=
  match running s, pending s with
  | None, Some job => Some (s <| running := Some job |> <| pending := None |>)
  | _, _ => None
  end.

Definition worker_done (now decode_ns : Z) (s : state) : option state :=
  match running s with
  | None => None
  | Some job =>
      let s := match transcribe (job_audio job) with
               | Ok result => handle_result now job result decode_ns s
               | Throw message => emit_error message s
               end in
      Some (s <| running := None |>)
  end.

Definition idle (s : state) : bool :=
  match running s, pending s with None, None => true | _, _ => false end.

(** * The audio loop *)

Definition make_job (final candidate_job : bool) (s : state) : Job :=
  {| job_utterance_id := utterance_id s; job_final := final; job_candidate := candidate_job;
     job_audio := utterance s |}.

(** [enqueue_decode]; [None] while [idle_cv.wait] blocks. *)
Definition enqueue_decode (final candidate_job : bool) (s : state) : option state :=
  let queued := s <| pending := Some (make_job final candidate_job s) |> in
  if final then match running s with None => Some queued | Some _ => None end
  else if candidate_job then Some queued
  else if idle s then Some queued else Some s.

Definition begin_utterance (now : Z) (s : state) : state :=
  let s := s <| speaking := true |> <| pending_end := false |> <| gap_buffer := [] |>
             <| utterance_id := (utterance_id s + 1)%Z |>
             <| speech_started_at := now |> <| last_partial_enqueue := now |>
             <| first_partial := None |> <| first_stable := None |>
             <| tracker := reset (tracker s) |> <| last_partial_emitted := [] |>
             <| last_growth_hypothesis := [] |> <| hypothesis_stalls := 0%Z |>
             <| endpoint_likely_utt := (-1)%Z |> <| utterance_peak_rms := f_literal 0 0 |>
             <| utterance := preroll s |> <| candidate_valid := false |> <| latest_hypothesis := [] |> in
  emit_event now (utterance_id s) Started s.

(** The candidate covers all but the last 480 ms of the utterance. *)
Definition have_candidate (s : state) : bool :=
  candidate_valid s && (length (utterance s) <=? candidate_samples s + 16 * 480).

Definition begin_pending_end (now : Z) (rest : list activity) (s : state) : state :=
  let s := s <| pending_end := true |> <| pending_since := now |> <| speech_ended_at := now |>
             <| gap_buffer := [] |> in
  s <| pc := if have_candidate s then Activities rest else CandidateQueue rest |>.

Definition resume_from_pending (s : state) : state :=
  s <| pending_end := false |> <| utterance := utterance s ++ gap_buffer s |>
    <| candidate_valid := false |> <| gap_buffer := [] |>.

(** What follows the call of [commit_utterance]: [continue]; [vad->reset()] and
    [continue]; or the end of [run], which tells the worker to quit. *)
Definition after (k : after_commit) (s : state) : state :=
  match k with
  | Continue => s <| pc := Reading |>
  | ResetVad => s <| vad := vad_reset (vad s) |> <| pc := Reading |>
  | Finish => s <| quit := true |> <| pc := Closed |>
  end.

Definition gate_rms (s : state) : Float :=
  f_max (min_speech_rms params) (f_mul (min_speech_snr params) (noise_floor_rms s)).

Definition below_gate (s : state) : bool :=
  f_ltb (f_literal 0 0) (min_speech_snr params) && f_ltb (utterance_peak_rms s) (gate_rms s).

Definition commit_utterance (now : Z) (k : after_commit) (s : state) : state :=
  let s := s <| speaking := false |> <| pending_end := false |> <| gap_buffer := [] |> in
  if below_gate s then
    let s := emit_event now (utterance_id s) (Discarded (utterance_peak_rms s) (gate_rms s)) s in
    after k (s <| utterance := [] |> <| candidate_valid := false |> <| latest_hypothesis := [] |>)
  else emit_event now (utterance_id s) Ended s <| pc := CommitWait k |>.

(** [commit_utterance] once the worker is idle. *)
Definition commit_idle (now : Z) (k : after_commit) (s : state) : state :=
  if have_candidate s then
    let s := s <| candidate_valid := false |> in
    let s := emit_final now (utterance_id s) (candidate s) (candidate_decode_ns s) (length (utterance s)) s in
    after k (s <| utterance := [] |>)
  else s <| pc := FinalQueue k |>.

Definition end_utterance (now : Z) (k : after_commit) (s : state) : state :=
  commit_utterance now k (s <| speech_ended_at := now |>).

(** The session gets windows of exactly 512 samples. *)
Fixpoint feed_windows (fuel : nat) : io state (list activity) :=
  match fuel with
  | O => mret []
  | S fuel =>
      s ← io_get;
      if 512 <=? length (vad_pending s) then
        let window := take 512 (vad_pending s) in
        let '(found, v) := vad_process (vad s) (vad_sample s) window in
        io_modify (λ s, s <| vad_pending := drop 512 (vad_pending s) |>
                          <| vad_sample := (vad_sample s + 512)%Z |> <| vad := v |>);;
        activities ← io_lift found;
        more ← feed_windows fuel;
        mret (activities ++ more)
      else mret []
  end.

Definition track_loudness (block : list Float) (s : state) : state :=
  let block_rms := rms_of block in
  if speaking s then s <| utterance_peak_rms := f_max (utterance_peak_rms s) block_rms |>
  else
    let floor_now := noise_floor_rms s in
    s <| noise_floor_rms :=
           if f_ltb block_rms floor_now
           then f_add (f_mul (f_literal 90 (-2)) floor_now) (f_mul (f_literal 10 (-2)) block_rms)
           else f_add (f_mul (f_literal 995 (-3)) floor_now) (f_mul (f_literal 5 (-3)) block_rms) |>.

(** [size_t] arithmetic on an [int] number of milliseconds. *)
Definition samples_of_ms (n : Z) : Z := uwrap 64 (uwrap 64 n * 16).

Definition keep_audio (block : list Float) (s : state) : state :=
  if speaking s && pending_end s then s <| gap_buffer := gap_buffer s ++ block |>
  else if speaking s then s <| utterance := utterance s ++ block |>
  else
    let all := preroll s ++ block in
    let room := samples_of_ms (speech_pad_ms params) in
    s <| preroll := if (room <? Z.of_nat (length all))%Z
                    then drop (Z.to_nat (Z.of_nat (length all) - room)) all else all |>.

(** An exception ends the loop. *)
Definition fail (message : bytes) (s : state) : state :=
  emit_error message s <| quit := true |> <| pc := Closed |>.

Definition take_block (block : list Float) (s : state) : state :=
  match block with
  | [] => s
  | _ =>
      let s := s <| vad_pending := vad_pending s ++ block |> in
      match feed_windows (length (vad_pending s)) s with
      | (Throw message, s) => fail message s
      | (Ok activities, s) => keep_audio block (track_loudness block s) <| pc := Activities activities |>
      end
  end.

Definition on_activity (now : Z) (what : activity) (rest : list activity) (s : state) : state :=
  let s := s <| pc := Activities rest |> in
  match what with
  | SpeechStart =>
      if negb (speaking s) then begin_utterance now s
      else if pending_end s then resume_from_pending s else s
  | SpeechEnd => if speaking s && negb (pending_end s) then begin_pending_end now rest s else s
  | SpeechSegment => s
  end.

Definition hold_ms (s : state) : Z :=
  if hypothesis_looks_incomplete (latest_hypothesis s)
  then endpoint_hold_incomplete_ms params else endpoint_hold_ms params.

Definition hold_check (now : Z) (s : state) : state :=
  if speaking s && pending_end s && (ms (hold_ms s) <=? now - pending_since s)%Z
  then commit_utterance now Continue s
  else s <| pc := RunCheck |>.

Definition run_check (now : Z) (s : state) : option state :=
  if speaking s && negb (pending_end s) then
    if (ms (max_utterance_ms params) <? now - speech_started_at s)%Z then Some (end_utterance now ResetVad s)
    else
      let s := s <| pc := Reading |> in
      if (ms (partial_interval_ms params) <=? now - last_partial_enqueue s)%Z &&
         (samples_of_ms (min_partial_audio_ms params) <=? Z.of_nat (length (utterance s)))%Z
      then enqueue_decode false false (s <| last_partial_enqueue := now |>)
      else Some s
  else Some (s <| pc := Reading |>).

Definition stream_over (now : Z) (s : state) : state :=
  if speaking s then end_utterance now Finish s else after Finish s.

(** One step of the audio thread that does not read. *)
Definition audio_step (now : Z) (s : state) : option state :=
  match pc s with
  | Reading | Closed => None
  | Activities [] => Some (s <| pc := HoldCheck |>)
  | Activities (what :: rest) => Some (on_activity now what rest s)
  | CandidateQueue rest => enqueue_decode false true (s <| pc := Activities rest |>)
  | HoldCheck => Some (hold_check now s)
  | RunCheck => run_check now s
  | CommitWait k => if idle s then Some (commit_idle now k s) else None
  | FinalQueue k => enqueue_decode true false (s <| pc := FinalWait k |>)
  | FinalWait k => if idle s then Some (after k (s <| utterance := [] |>)) else None
  end.

(** What [stream.read] gives: samples; the end of the stream, or [aborted]; an
    exception. *)
Inductive input := Samples (block : list Float) | StreamOver | ReadError (message : bytes).

Definition read_step (now : Z) (i : input) (s : state) : option state :=
  match pc s with
  | Reading =>
      Some match i with
           | Samples block => take_block block s
           | StreamOver => stream_over now s
           | ReadError message => fail message s
           end
  | _ => None
  end.

(** * Runs *)

Inductive label :=
| Read (now : Z) (i : input)
| Audio (now : Z)
| Take
| Done (now decode_ns : Z).

Definition step (l : label) (s : state) : option state :=
  match l with
  | Read now i => read_step now i s
  | Audio now => audio_step now s
  | Take => worker_take s
  | Done now decode_ns => worker_done now decode_ns s
  end.

Inductive reachable (v : Vad) : state → Prop :=
| reach_initial : reachable v (initial v)
| reach_step s l s' : reachable v s → step l s = Some s' → reachable v s'.

Definition run (ls : list label) (s : state) : option state :=
  foldl (λ o l, o ≫= step l) (Some s) ls.

(** * The conversation seen by the client

    A turn opens with [Started], closes with [Ended] and owes a [Final], unless
    it was discarded; an error while it is owed may have replaced it. With
    [strict], results of a decode name the open or owed turn. *)

Inductive phase := Quiet | Open | Owed (failed : bool).

Definition observe (strict : bool) (p : phase * Z) (e : event) : option (phase * Z) :=
  let '(ph, n) := p in
  match e with
  | Error _ => Some (match ph with Owed _ => Owed true | _ => ph end, n)
  | Turn u _ Started =>
      match ph with
      | Quiet | Owed true => if u =b (n + 1)%Z then Some (Open, u) else None
      | _ => None
      end
  | Turn u _ Ended => match ph with Open => if u =b n then Some (Owed false, n) else None | _ => None end
  | Turn u _ (Discarded _ _) => match ph with Open => if u =b n then Some (Quiet, n) else None | _ => None end
  | Turn u _ (Final _ _) => match ph with Owed _ => if u =b n then Some (Quiet, n) else None | _ => None end
  | Turn u _ (Stable _ | Partial _ | EndpointLikely _) =>
      if strict then
        match ph with Quiet => None | _ => if u =b n then Some p else None end
      else if (u <=? n)%Z then Some p else None
  end.

Definition observe_all (strict : bool) (p : phase * Z) (es : list event) : option (phase * Z) :=
  foldl (λ o e, o ≫= λ p, observe strict p e) (Some p) es.

Definition protocol (strict : bool) (es : list event) : option (phase * Z) :=
  observe_all strict (Quiet, 0%Z) es.

(** * Runs and frames *)

Lemma reachable_run v ls s s' : reachable v s → run ls s = Some s' → reachable v s'.
Proof.
  unfold run. revert s. induction ls as [|l ls IH]; intros s Hr; cbn; [by intros [= <-]|].
  destruct (step l s) as [s1|] eqn:E.
  - apply IH. by eapply reach_step.
  - intros H. exfalso. clear -H. induction ls; cbn in *; [done|auto].
Qed.

(** What a decode result leaves alone. *)
Definition frame (s : state) :=
  (pc s, speaking s, pending_end s, utterance_id s, utterance s, gap_buffer s, pending s, quit s).

(** What the voice-activity session leaves alone. *)
Definition results (s : state) :=
  (running s, events s, candidate_valid s, candidate s, candidate_samples s).

Definition report (id : Z) (e : event) : Prop :=
  match e with
  | Turn u _ (Stable _ | Partial _ | EndpointLikely _) => u = id
  | _ => False
  end.

(** The events [es] are appended and nothing of the frame changes. *)
Definition reports (P : event → Prop) (s s' : state) : Prop :=
  frame s' = frame s ∧ running s' = running s ∧
  ∃ es, events s' = events s ++ es ∧ Forall P es.

#[local] Instance reports_refl P : Reflexive (reports P).
Proof. intros s. split_and!; [done..|]. exists []. by rewrite app_nil_r. Qed.

#[local] Instance reports_trans P : Transitive (reports P).
Proof.
  intros s1 s2 s3 (F1 & R1 & es1 & E1 & H1) (F2 & R2 & es2 & E2 & H2).
  split_and!; [congruence..|]. exists (es1 ++ es2).
  rewrite E2, E1, app_assoc. split; [done|by apply Forall_app].
Qed.

Definition candidate_view (s : state) := (candidate_valid s, candidate s, candidate_samples s).

Lemma report_stable_reports now job grew s :
  reports (report (job_utterance_id job)) s (report_stable now job grew s) ∧
  candidate_view (report_stable now job grew s) = candidate_view s.
Proof.
  unfold report_stable. destruct grew; [|by split].
  destruct (first_stable s); (split; [|done]); split_and!; try done; by eexists [_]; split; [done|constructor].
Qed.

Lemma report_partial_reports now job s :
  reports (report (job_utterance_id job)) s (report_partial now job s) ∧
  candidate_view (report_partial now job s) = candidate_view s.
Proof.
  unfold report_partial. case_bool_decide; [|by split].
  destruct (first_partial s) eqn:E; cbn; rewrite E; (split; [|done]); split_and!; try done;
    by eexists [_]; split; [done|constructor].
Qed.

Lemma anticipate_endpoint_reports now job h s :
  reports (report (job_utterance_id job)) s (anticipate_endpoint now job h s) ∧
  candidate_view (anticipate_endpoint now job h s) = candidate_view s.
Proof.
  unfold anticipate_endpoint.
  set (s1 := if bool_decide _ then _ else _).
  assert (reports (report (job_utterance_id job)) s s1 ∧ candidate_view s1 = candidate_view s) as [H Hc].
  { subst s1. case_bool_decide; [|case_bool]; (split; [|done]); split_and!; try done; exists []; by rewrite app_nil_r. }
  clearbody s1. case_bool; [|done]. split; [|done]. etransitivity; [exact H|].
  split_and!; try done. by eexists [_]; split; [done|constructor].
Qed.

(** What the client learns from one decode. *)
Lemma handle_result_spec now job r d s :
  let s' := handle_result now job r d s in
  frame s' = frame s ∧ running s' = running s ∧
  if job_final job
  then candidate_view s' = candidate_view s ∧
       ∃ ts, events s' = events s ++ [Turn (job_utterance_id job) (to_ms now) (Final r ts)]
  else (candidate_view s' = candidate_view s ∨ candidate_view s' = (true, r, length (job_audio job))) ∧
       ∃ es, events s' = events s ++ es ∧ Forall (report (job_utterance_id job)) es.
Proof.
  cbv zeta. unfold handle_result. destruct (job_final job) eqn:Hf.
  { split_and!; try done. by eexists. }
  set (s1 := if _ && _ then _ else s).
  assert (frame s1 = frame s ∧ running s1 = running s ∧ events s1 = events s ∧
    (candidate_view s1 = candidate_view s ∨ candidate_view s1 = (true, r, length (job_audio job)))) as (F & R & E & C).
  { subst s1. case_bool; split_and!; try done; auto. }
  clearbody s1. case_bool_decide.
  { split_and!; try done. exists []. by rewrite app_nil_r. }
  destruct (update (tracker s1) (text r)) as [t grew] eqn:U. cbn in *. rewrite U.
  match goal with |- context [report_stable _ _ _ ?x] => set (s2 := x) end.
  pose proof (report_stable_reports now job grew s2) as [H1 C1].
  set (s3 := report_stable now job grew s2) in *.
  pose proof (report_partial_reports now job s3) as [H2 C2].
  set (s4 := report_partial now job s3) in *.
  pose proof (anticipate_endpoint_reports now job (text r) s4) as [H3 C3].
  destruct (transitivity (transitivity H1 H2) H3) as (F' & R' & es & E' & Hes).
  split_and!.
  - rewrite F'. exact F.
  - rewrite R'. exact R.
  - rewrite C3, C2, C1. exact C.
  - exists es. split; [|done]. rewrite E'. cbn. by rewrite E.
Qed.

Lemma worker_done_spec now d s s' :
  worker_done now d s = Some s' →
  ∃ job, running s = Some job ∧ running s' = None ∧ frame s' = frame s ∧
  match transcribe (job_audio job) with
  | Throw m => candidate_view s' = candidate_view s ∧ events s' = events s ++ [Error m]
  | Ok r =>
      if job_final job
      then candidate_view s' = candidate_view s ∧
           ∃ ts, events s' = events s ++ [Turn (job_utterance_id job) (to_ms now) (Final r ts)]
      else (candidate_view s' = candidate_view s ∨ candidate_view s' = (true, r, length (job_audio job))) ∧
           ∃ es, events s' = events s ++ es ∧ Forall (report (job_utterance_id job)) es
  end.
Proof.
  unfold worker_done. destruct (running s) as [job|] eqn:Hr; [|done].
  intros H. exists job. destruct (transcribe (job_audio job)) as [r|m]; simplify_eq/=.
  - destruct (handle_result_spec now job r d s) as (F & R & C). split; [done|]. split; [done|].
    split; [exact F|]. destruct (job_final job); exact C.
  - done.
Qed.

Definition window_taken (v : Vad) (s : state) : state :=
  s <| vad_pending := drop 512 (vad_pending s) |> <| vad_sample := (vad_sample s + 512)%Z |> <| vad := v |>.

Lemma feed_windows_S fuel s :
  feed_windows (S fuel) s =
  if 512 <=? length (vad_pending s) then
    match vad_process (vad s) (vad_sample s) (take 512 (vad_pending s)) with
    | (Throw m, v) => (Throw m, window_taken v s)
    | (Ok activities, v) =>
        match feed_windows fuel (window_taken v s) with
        | (Ok more, s') => (Ok (activities ++ more), s')
        | (Throw m, s') => (Throw m, s')
        end
    end
  else (Ok [], s).
Proof.
  cbn [feed_windows]. unfold mbind, io_bind, io_get. destruct (512 <=? _); [|done].
  destruct (vad_process _ _ _) as [[acts|m] v]; cbn [io_modify io_lift]; [|done].
  unfold io_modify, io_lift. fold (window_taken v s).
  by destruct (feed_windows fuel (window_taken v s)) as [[more|m] s'].
Qed.

Lemma feed_windows_frame fuel s :
  frame (feed_windows fuel s).2 = frame s ∧ results (feed_windows fuel s).2 = results s.
Proof.
  revert s. induction fuel as [|fuel IH]; intros s; [done|]. rewrite feed_windows_S.
  case_bool; [|done].
  destruct (vad_process _ _ _) as [[acts|m] v]; [|done].
  specialize (IH (window_taken v s)). destruct (feed_windows fuel _) as [[more|m] s1]; exact IH.
Qed.

(** * Where jobs can be *)

Definition jobs (s : state) : list Job := option_list (running s) ++ option_list (pending s).

Definition committing (p : audio_pc) : bool :=
  match p with CommitWait _ | FinalQueue _ | FinalWait _ => true | _ => false end.

(** A final decode is queued only by a thread that waits for it. *)
Definition well_placed (s : state) : Prop :=
  (committing (pc s) = true → speaking s = false) ∧
  (∀ rest, pc s = CandidateQueue rest → speaking s = true) ∧
  (quit s = true ↔ pc s = Closed) ∧
  match pc s with
  | FinalQueue _ => jobs s = []
  | FinalWait _ => jobs s = [] ∨ jobs s = [make_job true false s]
  | _ => Forall (λ job, job_final job = false) (jobs s)
  end.

Definition turn_phase (s : state) (ph : phase) : Prop :=
  if speaking s then ph = Open
  else match pc s with
       | CommitWait _ | FinalQueue _ => ∃ b, ph = Owed b
       | FinalWait _ => match jobs s with [] => ph = Quiet ∨ ph = Owed true | _ => ∃ b, ph = Owed b end
       | _ => ph = Quiet ∨ ph = Owed true
       end.

(** The noise gate is off. *)
Definition gate_off : bool := negb (f_ltb (f_literal 0 0) (min_speech_snr params)).

(** With the gate off a turn waits for all its decodes. *)
Definition attended (s : state) : Prop :=
  if gate_off
  then (speaking s || committing (pc s) = false → jobs s = []) ∧
       Forall (λ job, job_utterance_id job = utterance_id s ∧ job_audio job `prefix_of` utterance s) (jobs s) ∧
       (speaking s || committing (pc s) = true → candidate_valid s = true →
          candidate_samples s <= length (utterance s) ∧
          transcribe (take (candidate_samples s) (utterance s)) = Ok (candidate s))
  else Forall (λ job, job_utterance_id job <= utterance_id s)%Z (jobs s).

Record invariant (s : state) : Prop := {
  inv_placed : well_placed s;
  inv_attended : attended s;
  inv_observed : ∃ ph, protocol gate_off (events s) = Some (ph, utterance_id s) ∧ turn_phase s ph;
}.

Lemma protocol_snoc strict es e :
  protocol strict (es ++ [e]) = protocol strict es ≫= λ p, observe strict p e.
Proof. unfold protocol, observe_all. by rewrite foldl_app. Qed.

(** Everything the invariant reads. *)
Definition view (s : state) :=
  (pc s, speaking s, utterance_id s, utterance s, quit s, candidate_view s, events s, jobs s).

Ltac split_pairs := repeat match goal with H : (_, _) = (_, _) |- _ => apply pair_equal_spec in H as [? ?] end.

Lemma invariant_view s s' : view s' = view s → invariant s → invariant s'.
Proof.
  unfold view, candidate_view. intros Hv. split_pairs.
  assert (make_job true false s' = make_job true false s) as Hm by (unfold make_job; congruence).
  intros [Hp Ha (ph & Ho & Ht)]. unfold well_placed, turn_phase in *. split.
  - unfold well_placed. rewrite Hm. by repeat match goal with H : _ s' = _ s |- _ => rewrite H; clear H end.
  - unfold attended in *. by repeat match goal with H : _ s' = _ s |- _ => rewrite H; clear H end.
  - exists ph. unfold turn_phase. by repeat match goal with H : _ s' = _ s |- _ => rewrite H; clear H end.
Qed.

Lemma jobs_take s s' : worker_take s = Some s' → view s' = view s.
Proof.
  unfold worker_take, view, jobs. destruct (running s), (pending s); naive_solver.
Qed.

(** The places of the audio thread inside the loop's body. *)
Definition calm (p : audio_pc) : Prop :=
  match p with Reading | Activities _ | CandidateQueue _ | HoldCheck | RunCheck => True | _ => False end.

Lemma calm_not_committing p : calm p → committing p = false.
Proof. by destruct p. Qed.

Lemma placed_calm s : calm (pc s) →
  well_placed s ↔ (∀ rest, pc s = CandidateQueue rest → speaking s = true) ∧ quit s = false ∧
                  Forall (λ job, job_final job = false) (jobs s).
Proof.
  intros Hc. unfold well_placed. destruct (pc s), (quit s); try done; naive_solver.
Qed.

Lemma phase_calm s ph : calm (pc s) →
  turn_phase s ph ↔ (if speaking s then ph = Open else ph = Quiet ∨ ph = Owed true).
Proof. intros Hc. unfold turn_phase. by destruct (pc s). Qed.

(** The audio thread moves on, and may extend the utterance of an open turn or
    drop its candidate. *)
Record moved (s s' : state) : Prop := {
  mv_calm : calm (pc s) ∧ calm (pc s');
  mv_candidate : ∀ rest, pc s' = CandidateQueue rest → speaking s = true;
  mv_same : (speaking s', utterance_id s', events s', quit s') = (speaking s, utterance_id s, events s, quit s);
  mv_utterance : utterance s `prefix_of` utterance s';
  mv_view : candidate_valid s' = true → candidate_view s' = candidate_view s;
}.

Lemma invariant_moved s s' :
  moved s s' →
  (jobs s' = jobs s ∨
   speaking s = true ∧ ∃ c, jobs s' = option_list (running s) ++ [make_job false c s']) →
  invariant s → invariant s'.
Proof.
  intros [[Hc Hc'] Hq Hs Hu Hv] Hj [Hp Ha (ph & Ho & Ht)]. unfold candidate_view in Hv. split_pairs.
  rewrite placed_calm in Hp by done. destruct Hp as (_ & Hquit & Hf).
  assert (Forall (λ job, job_final job = false) (option_list (running s))) as Hfr.
  { by apply Forall_app in Hf as [? _]. }
  split.
  - rewrite placed_calm by done. split_and!; [intros rest Hr; apply Hq in Hr; congruence|congruence|].
    destruct Hj as [->|(_ & c & ->)]; [done|]. by apply Forall_app_2; [|apply Forall_singleton].
  - unfold attended in *. rewrite calm_not_committing in * by done. destruct gate_off.
    + destruct Ha as (Hi & Hjobs & Hcand). split_and!.
      * intros Hsp. destruct Hj as [->|(Hsp' & _)]; [apply Hi; congruence|]. rewrite orb_false_r in Hsp. congruence.
      * assert (∀ l, Forall (λ job, job_utterance_id job = utterance_id s ∧ job_audio job `prefix_of` utterance s) l →
          Forall (λ job, job_utterance_id job = utterance_id s' ∧ job_audio job `prefix_of` utterance s') l) as Hmono.
        { intros l Hl. eapply Forall_impl; [exact Hl|]. intros job [E P]. split; [congruence|by etransitivity]. }
        destruct Hj as [->|(_ & c & ->)]; [by apply Hmono|].
        apply Forall_app in Hjobs as [Hr _]. apply Forall_app_2; [by apply Hmono|]. by apply Forall_singleton.
      * intros Hsp Hcv. specialize (Hv Hcv). split_pairs.
        destruct Hcand as [Hl Ht']; [congruence|congruence|]. destruct Hu as [w Hw].
        replace (candidate_samples s') with (candidate_samples s) by congruence. rewrite Hw, length_app.
        split; [lia|]. rewrite take_app_le by done. congruence.
    + assert (Forall (λ job, job_utterance_id job <= utterance_id s')%Z (option_list (running s))) as Hr.
      { apply Forall_app in Ha as [Ha _]. eapply Forall_impl; [exact Ha|]. cbn. intros. lia. }
      destruct Hj as [->|(_ & c & ->)]; [|apply Forall_app_2; [done|by apply Forall_singleton]].
      eapply Forall_impl; [exact Ha|]. cbn. intros. lia.
  - exists ph. rewrite phase_calm in Ht by done. rewrite phase_calm by done.
    replace (speaking s') with (speaking s) by congruence. split; [congruence|done].
Qed.

Lemma invariant_initial v : invariant (initial v).
Proof.
  split.
  - split_and!; try done. constructor.
  - unfold attended. destruct gate_off; [|constructor]. split_and!; done.
  - exists Quiet. by split; [|left].
Qed.

Lemma begin_utterance_invariant now s :
  calm (pc s) → (∀ rest, pc s ≠ CandidateQueue rest) → speaking s = false →
  invariant s → invariant (begin_utterance now s).
Proof.
  intros Hc Hq Hs [Hp Ha (ph & Ho & Ht)].
  rewrite placed_calm in Hp by done. rewrite phase_calm, Hs in Ht by done. destruct Hp as (_ & Hquit & Hf).
  split.
  - rewrite placed_calm by done. split_and!; [|done..]. done.
  - unfold attended in *. rewrite Hs, calm_not_committing in Ha by done. destruct gate_off.
    + destruct Ha as (Hi & _ & _). specialize (Hi eq_refl).
      change (jobs (begin_utterance now s)) with (jobs s). rewrite Hi. split_and!; done.
    + eapply Forall_impl; [exact Ha|]. cbn. intros. lia.
  - exists Open. rewrite phase_calm by done. split; [|done].
    (etransitivity; [exact (protocol_snoc _ (events s) _)|]); rewrite Ho; cbn. rewrite Z.eqb_refl. by destruct Ht as [-> | ->].
Qed.

(** A turn that leaves no decode behind. *)
Record settled (s : state) : Prop := {
  st_speaking : speaking s = false;
  st_quit : quit s = false;
  st_jobs : Forall (λ job, job_final job = false) (jobs s);
  st_attended : if gate_off then jobs s = [] else Forall (λ job, job_utterance_id job <= utterance_id s)%Z (jobs s);
  st_observed : ∃ ph, protocol gate_off (events s) = Some (ph, utterance_id s) ∧ (ph = Quiet ∨ ph = Owed true);
}.

Lemma after_invariant k s : settled s → invariant (after k s).
Proof.
  intros [Hs Hq Hf Ha (ph & Ho & Ht)].
  assert (speaking (after k s) = false ∧ events (after k s) = events s ∧ jobs (after k s) = jobs s ∧
    utterance_id (after k s) = utterance_id s) as (Es & Ee & Ej & Eu) by by destruct k.
  assert (committing (pc (after k s)) = false) as Ec by by destruct k.
  split.
  - unfold well_placed. rewrite Es, Ej, Ec. destruct k; cbn; rewrite ?Hq; split_and!; try done.
  - unfold attended. rewrite Es, Ec, Ej, Eu. destruct gate_off; [|done].
    rewrite Ha. split_and!; done.
  - exists ph. rewrite Ee, Eu. split; [done|]. unfold turn_phase. rewrite Es. by destruct k.
Qed.

Lemma commit_utterance_invariant now k s :
  calm (pc s) → speaking s = true → invariant s → invariant (commit_utterance now k s).
Proof.
  intros Hc Hs [Hp Ha (ph & Ho & Ht)].
  rewrite placed_calm in Hp by done. rewrite phase_calm, Hs in Ht by done. subst ph.
  destruct Hp as (_ & Hquit & Hf). unfold commit_utterance. cbv zeta.
  match goal with |- context [below_gate ?x] => change (below_gate x) with (below_gate s) end.
  destruct (below_gate s) eqn:Hb.
  - assert (gate_off = false) as Hg.
    { unfold gate_off, below_gate in *. apply andb_true_iff in Hb as [-> _]. done. }
    unfold attended in Ha. rewrite Hg in *.
    apply after_invariant. split; try done; rewrite ?Hg; [done|].
    exists Quiet. split; [|by left]. (etransitivity; [exact (protocol_snoc _ (events s) _)|]); rewrite Ho; cbn. by rewrite Z.eqb_refl.
  - split.
    + split_and!; try done; cbn; rewrite ?Hquit; done.
    + unfold attended in *. rewrite Hs in Ha. destruct gate_off; [|exact Ha].
      destruct Ha as (_ & Hj & Hcand). split_and!; [done|exact Hj|exact Hcand].
    + exists (Owed false). split; [|by exists false]. (etransitivity; [exact (protocol_snoc _ (events s) _)|]); rewrite Ho; cbn. by rewrite Z.eqb_refl.
Qed.

Lemma observe_error es strict ph n m :
  protocol strict es = Some (ph, n) →
  protocol strict (es ++ [Error m]) = Some (match ph with Owed _ => Owed true | _ => ph end, n).
Proof. intros H. by rewrite protocol_snoc, H. Qed.

Lemma fail_invariant m s : calm (pc s) → invariant s → invariant (fail m s).
Proof.
  intros Hc [Hp Ha (ph & Ho & Ht)].
  rewrite placed_calm in Hp by done. rewrite phase_calm in Ht by done. destruct Hp as (_ & Hquit & Hf). split.
  - split_and!; try done.
  - unfold attended in *. rewrite calm_not_committing in Ha by done. cbn. destruct gate_off; exact Ha.
  - eexists. split; [by apply observe_error|]. unfold turn_phase. cbn. destruct (speaking s); [by subst|].
    destruct Ht as [-> | ->]; auto.
Qed.

Lemma idle_jobs s : idle s = true ↔ jobs s = [].
Proof. unfold idle, jobs. by destruct (running s), (pending s). Qed.

Lemma commit_idle_invariant now k s :
  pc s = CommitWait k → idle s = true → invariant s → invariant (commit_idle now k s).
Proof.
  intros Hc Hi [(Hsp & _ & Hq & _) Ha (ph & Ho & Ht)]. apply idle_jobs in Hi.
  rewrite Hc in *. specialize (Hsp eq_refl).
  assert (quit s = false) as Hquit by (destruct (quit s); naive_solver).
  unfold turn_phase in Ht. rewrite Hsp, Hc in Ht. destruct Ht as [b ->].
  unfold commit_idle. case_bool.
  - apply after_invariant. split; try done.
    + change (Forall (λ job, job_final job = false) (jobs s)). rewrite Hi. constructor.
    + change (if gate_off then jobs s = [] else Forall (λ job, job_utterance_id job <= utterance_id s)%Z (jobs s)).
      rewrite Hi. by destruct gate_off.
    + exists Quiet. split; [|by left].
      etransitivity; [exact (protocol_snoc _ (events s) _)|]. rewrite Ho. cbn. by rewrite Z.eqb_refl.
  - split.
    + split_and!; try done; cbn; rewrite Hquit; done.
    + unfold attended in *. rewrite Hc in Ha. exact Ha.
    + exists (Owed b). split; [exact Ho|]. unfold turn_phase. cbn. rewrite Hsp. by exists b.
Qed.

Lemma final_queue_invariant k s s' :
  pc s = FinalQueue k → enqueue_decode true false (s <| pc := FinalWait k |>) = Some s' →
  invariant s → invariant s'.
Proof.
  intros Hc He [(Hsp & _ & Hq & Hj) Ha (ph & Ho & Ht)].
  rewrite Hc in *. specialize (Hsp eq_refl).
  assert (quit s = false) as Hquit by (destruct (quit s); naive_solver).
  unfold turn_phase in Ht. rewrite Hsp, Hc in Ht.
  unfold enqueue_decode in He. cbn in He. destruct (running s) eqn:Hr; [done|]. injection He as <-.
  split.
  - split_and!; try done; cbn; rewrite ?Hquit; try done. right. unfold jobs. cbn. by rewrite Hr.
  - unfold attended in *. unfold jobs at 1 2 3. cbn. rewrite Hr. rewrite Hc in Ha. destruct gate_off.
    + destruct Ha as (_ & _ & Hcand). split_and!; [by rewrite Hsp| |exact Hcand]. by apply Forall_singleton.
    + by apply Forall_singleton.
  - exists ph. split; [exact Ho|]. unfold turn_phase, jobs. cbn. by rewrite Hsp, Hr.
Qed.

Lemma final_done_invariant k s :
  pc s = FinalWait k → idle s = true → invariant s → invariant (after k (s <| utterance := [] |>)).
Proof.
  intros Hc Hi [(Hsp & _ & Hq & _) Ha (ph & Ho & Ht)]. apply idle_jobs in Hi.
  rewrite Hc in *. specialize (Hsp eq_refl).
  assert (quit s = false) as Hquit by (destruct (quit s); naive_solver).
  unfold turn_phase in Ht. rewrite Hsp, Hc, Hi in Ht.
  apply after_invariant. split; try done.
  - change (Forall (λ job, job_final job = false) (jobs s)). rewrite Hi. constructor.
  - change (if gate_off then jobs s = [] else Forall (λ job, job_utterance_id job <= utterance_id s)%Z (jobs s)).
    rewrite Hi. by destruct gate_off.
  - by exists ph.
Qed.

(** Reports of the current turn keep the protocol where it is. *)
Lemma observe_reports es strict ph n id l :
  protocol strict es = Some (ph, n) → Forall (report id) l →
  (if strict then id = n ∧ ph ≠ Quiet else (id <= n)%Z) →
  protocol strict (es ++ l) = Some (ph, n).
Proof.
  intros Ho Hl Hid. revert es Ho. induction Hl as [|e l He _ IH]; intros es Ho; [by rewrite app_nil_r|].
  change (e :: l) with ([e] ++ l). rewrite app_assoc. apply IH. rewrite protocol_snoc, Ho. cbn.
  assert ((if strict then match ph with Quiet => None | _ => if id =b n then Some (ph, n) else None end
           else if (id <=? n)%Z then Some (ph, n) else None) = Some (ph, n)) as Hs.
  { destruct strict; [|by rewrite (proj2 (Z.leb_le _ _))]. destruct Hid as [-> Hph]. rewrite Z.eqb_refl. by destruct ph. }
  destruct e as [u t []|m]; cbn in He; try done; subst u; exact Hs.
Qed.

Lemma jobs_placed s job :
  invariant s → running s = Some job →
  (job_final job = true ∧ (∃ k, pc s = FinalWait k) ∧ job = make_job true false s ∧ pending s = None) ∨
  (job_final job = false ∧ Forall (λ job, job_final job = false) (option_list (pending s)) ∧
   ∀ k, pc s ≠ FinalQueue k ∧ pc s ≠ FinalWait k).
Proof.
  intros [(_ & _ & _ & Hp) _ _] Hr. unfold jobs in Hp. rewrite Hr in Hp.
  destruct (pc s) eqn:Hc; try (right; apply Forall_cons in Hp as [? ?]; split_and!; done).
  - done.
  - destruct Hp as [Hp|Hp]; [done|]. destruct (pending s) eqn:E; [done|].
    injection Hp as ->. left. split_and!; [done|by exists k|done|done].
Qed.

Lemma final_decoded now d s s' job :
  running s = Some job → job_final job = true →
  worker_done now d s = Some s' → invariant s → invariant s'.
Proof.
  intros Hr Hf Hd Hi. apply worker_done_spec in Hd as (job' & Hr2 & Hr' & Hfr & Hev). simplify_eq.
  destruct (jobs_placed _ _ Hi Hr) as [(_ & [k Hk] & Hjob & Hpend)|(? & _)]; [|congruence].
  destruct Hi as [(Hsp & _ & Hq & _) Ha (ph & Ho & Ht)]. unfold frame in Hfr. split_pairs.
  rewrite Hk in *. specialize (Hsp eq_refl).
  assert (pc s' = FinalWait k) as Hk' by congruence. assert (speaking s' = false) as Hsp' by congruence.
  assert (jobs s' = []) as Hj' by (unfold jobs; rewrite Hr'; replace (pending s') with (@None Job) by congruence; done).
  unfold turn_phase, jobs in Ht. rewrite Hsp, Hk, Hr in Ht. destruct Ht as [b ->]. rewrite Hf in Hev.
  assert (candidate_view s' = candidate_view s) as Hcv by (destruct (transcribe _); tauto).
  unfold candidate_view in Hcv. split_pairs.
  split.
  - unfold well_placed. rewrite Hk', Hj', Hsp'. split_and!; [done|done| |by left].
    replace (quit s') with (quit s) by done. exact Hq.
  - unfold attended in *. rewrite Hj'. destruct gate_off; [|constructor].
    destruct Ha as (_ & _ & Hcand). rewrite Hk', Hsp' in *. rewrite Hk, Hsp in Hcand.
    split_and!; [done|constructor|]. intros _ Hcv'.
    replace (candidate_samples s') with (candidate_samples s) by done.
    replace (utterance s') with (utterance s) by done. replace (candidate s') with (candidate s) by done.
    apply Hcand; [done|congruence].
  - unfold turn_phase. rewrite Hsp', Hk', Hj'. replace (utterance_id s') with (utterance_id s) by done.
    destruct (transcribe _) as [r|m].
    + destruct Hev as (_ & ts & ->). exists Quiet. split; [|by left].
      rewrite protocol_snoc, Ho, Hjob. cbn. by rewrite Z.eqb_refl.
    + destruct Hev as (_ & ->). exists (Owed true). split; [|by right]. by rewrite (observe_error _ _ (Owed b) _ _ Ho).
Qed.

Lemma other_attended s s' job es :
  attended s → turn_phase s es → (∀ k, pc s ≠ FinalQueue k ∧ pc s ≠ FinalWait k) →
  jobs s = job :: jobs s' →
  (pc s', speaking s', utterance_id s', utterance s') = (pc s, speaking s, utterance_id s, utterance s) →
  candidate_view s' = candidate_view s ∨
    (∃ r, transcribe (job_audio job) = Ok r ∧ candidate_view s' = (true, r, length (job_audio job))) →
  attended s' ∧
  (if gate_off then job_utterance_id job = utterance_id s ∧ es ≠ Quiet
   else (job_utterance_id job <= utterance_id s)%Z).
Proof.
  unfold attended, candidate_view. intros Ha Ht Hpc Hj Hv Hc. rewrite Hj in Ha. split_pairs.
  replace (pc s') with (pc s) by done. replace (speaking s') with (speaking s) by done.
  replace (utterance_id s') with (utterance_id s) by done. replace (utterance s') with (utterance s) by done.
  destruct gate_off; [|by apply Forall_cons in Ha as [? ?]].
  destruct Ha as (Hact & Hjobs & Hcand). apply Forall_cons in Hjobs as [[Hid [w Hw]] Hjobs].
  assert (speaking s || committing (pc s) = true) as Hon.
  { destruct (speaking s || committing (pc s)); [done|by discriminate Hact]. }
  split; [split_and!|split; [done|]].
  - by rewrite Hon.
  - done.
  - intros _ Hcv. destruct Hc as [Hc|(r & Hr & Hc)]; split_pairs.
    + replace (candidate_samples s') with (candidate_samples s) by done.
      replace (candidate s') with (candidate s) by done. apply Hcand; [done|congruence].
    + replace (candidate_samples s') with (length (job_audio job)) by done.
      replace (candidate s') with r by done. rewrite Hw, take_app_length, length_app. split; [lia|done].
  - intros ->. unfold turn_phase in Ht. destruct (speaking s); [done|].
    destruct (pc s) as [| | | | |k|k|k|]; try done; [by destruct Ht|by destruct (Hpc k)..].
Qed.

Lemma other_decoded now d s s' job :
  running s = Some job → job_final job = false →
  worker_done now d s = Some s' → invariant s → invariant s'.
Proof.
  intros Hr Hf Hd Hi. apply worker_done_spec in Hd as (job' & Hr2 & Hr' & Hfr & Hev). simplify_eq.
  destruct (jobs_placed _ _ Hi Hr) as [(? & _)|(_ & Hpend & Hpc)]; [congruence|].
  destruct Hi as [(Hsp & Hcq & Hq & _) Ha (ph & Ho & Ht)]. unfold frame in Hfr. split_pairs. rewrite Hf in Hev.
  assert (jobs s' = option_list (pending s)) as Hj' by (unfold jobs; rewrite Hr'; cbn; congruence).
  assert (jobs s = job :: jobs s') as Hj by (rewrite Hj'; unfold jobs; by rewrite Hr).
  destruct (other_attended s s' job ph) as [Ha' Hid]; [done..|congruence| |].
  { destruct (transcribe (job_audio job)) as [r|m]; [|left; tauto].
    destruct Hev as [[?|?] _]; [by left|right; by exists r]. }
  assert (∀ ph', turn_phase s ph' → turn_phase s' ph') as Hkeep.
  { intros ph'. unfold turn_phase. replace (speaking s') with (speaking s) by done. replace (pc s') with (pc s) by done.
    destruct (speaking s); [done|]. destruct (pc s) as [| | | | |k|k|k|]; try done. by destruct (Hpc k). }
  split; [|done|].
  - unfold well_placed. rewrite Hj'. replace (pc s') with (pc s) by done. replace (speaking s') with (speaking s) by done.
    replace (quit s') with (quit s) by done. split_and!; try done; try apply Hq.
    destruct (pc s) as [| | | | |k|k|k|]; try done; by destruct (Hpc k).
  - replace (utterance_id s') with (utterance_id s) by done.
    destruct (transcribe _) as [r|m].
    + destruct Hev as (_ & es & -> & Hes). exists ph. split; [by eapply observe_reports|by apply Hkeep].
    + destruct Hev as (_ & ->). eexists. split; [by apply observe_error|]. apply Hkeep.
      unfold turn_phase in *. destruct (speaking s); [by subst|].
      destruct (pc s) as [| | | | |k|k|k|]; try (destruct Ht as [-> | ->]; by auto);
        [destruct Ht as [b ->]; by exists true|..]; by destruct (Hpc k).
Qed.

Lemma placed_settled_turn s : invariant s → calm (pc s) → speaking s = false → settled s.
Proof.
  intros [Hp Ha (ph & Ho & Ht)] Hc Hsp. rewrite placed_calm in Hp by done. rewrite phase_calm, Hsp in Ht by done.
  unfold attended in Ha. rewrite Hsp, calm_not_committing in Ha by done. destruct Hp as (_ & ? & ?).
  split; try done; [|by exists ph]. destruct gate_off; [|done]. by destruct Ha as [Ha _]; apply Ha.
Qed.

Lemma take_block_invariant block s : pc s = Reading → invariant s → invariant (take_block block s).
Proof.
  intros Hc Hi. destruct block as [|x block]; [done|]. cbn [take_block].
  set (s1 := s <| vad_pending := vad_pending s ++ x :: block |>).
  assert (invariant s1) as Hi1 by exact (invariant_view s s1 eq_refl Hi).
  pose proof (feed_windows_frame (length (vad_pending s1)) s1) as [Hf Hr].
  destruct (feed_windows _ s1) as [r s2]. cbn [snd] in *.
  assert (invariant s2 ∧ pc s2 = Reading) as [Hi2 Hc2].
  { unfold frame, results in *. split_pairs. split; [|by transitivity (pc s)]. apply (invariant_view s1); [|done].
    unfold view, candidate_view, jobs. congruence. }
  clearbody s1. destruct r as [acts|m].
  - apply (invariant_moved s2); [|left|done].
    + unfold track_loudness, keep_audio. repeat case_bool; split; cbn in *; rewrite ?Hc2; try done;
        by apply prefix_app_r.
    + unfold track_loudness, keep_audio. by repeat case_bool.
  - apply fail_invariant; [by rewrite Hc2|done].
Qed.

Lemma on_activity_invariant now what rest s :
  pc s = Activities (what :: rest) → invariant s → invariant (on_activity now what rest s).
Proof.
  intros Hc Hi. unfold on_activity. cbv zeta. set (s1 := s <| pc := Activities rest |>).
  assert (invariant s1) as Hi1.
  { apply (invariant_moved s); [|by left|done]. split; cbn; rewrite ?Hc; done. }
  assert (pc s1 = Activities rest) as Hc1 by done. clearbody s1.
  destruct what; [| |done].
  - destruct (speaking s1) eqn:Hsp; cbn [negb].
    + case_bool; [|done]. apply (invariant_moved s1); [|by left|done].
      split; cbn; rewrite ?Hc1; try done. by apply prefix_app_r.
    + apply begin_utterance_invariant; rewrite ?Hc1; done.
  - destruct (speaking s1 && negb (pending_end s1)) eqn:Hsp; [|done].
    apply andb_true_iff in Hsp as [Hsp _]. apply (invariant_moved s1); [|by left|done].
    unfold begin_pending_end. split; cbn; rewrite ?Hc1; try done. by case_bool.
Qed.

Lemma hold_check_invariant now s : pc s = HoldCheck → invariant s → invariant (hold_check now s).
Proof.
  intros Hc Hi. unfold hold_check. case_bool.
  - apply commit_utterance_invariant; [by rewrite Hc| |done]. rewrite !andb_true_iff in E. tauto.
  - apply (invariant_moved s); [|by left|done]. split; cbn; rewrite ?Hc; done.
Qed.

Lemma end_utterance_invariant now k s :
  calm (pc s) → speaking s = true → invariant s → invariant (end_utterance now k s).
Proof.
  intros Hc Hs Hi. apply commit_utterance_invariant; [done..|]. by apply (invariant_view s).
Qed.

Lemma run_check_invariant now s s' : pc s = RunCheck → run_check now s = Some s' → invariant s → invariant s'.
Proof.
  intros Hc Hr Hi. unfold run_check in Hr. destruct (speaking s && _) eqn:Hsp.
  - apply andb_true_iff in Hsp as [Hsp _]. case_bool.
    + injection Hr as <-. apply end_utterance_invariant; by rewrite ?Hc.
    + cbv zeta in Hr. case_bool.
      * unfold enqueue_decode in Hr. cbv zeta in Hr. case_bool; injection Hr as <-; (apply (invariant_moved s); [| |done]).
        -- split; cbn; rewrite ?Hc; done.
        -- right. split; [done|]. exists false. by unfold jobs.
        -- split; cbn; rewrite ?Hc; done.
        -- by left.
      * injection Hr as <-. apply (invariant_moved s); [|by left|done]. split; cbn; rewrite ?Hc; done.
  - injection Hr as <-. apply (invariant_moved s); [|by left|done]. split; cbn; rewrite ?Hc; done.
Qed.

Lemma step_invariant l s s' : step l s = Some s' → invariant s → invariant s'.
Proof.
  intros Hl Hi. destruct l as [now i|now| |now d]; cbn in Hl.
  - unfold read_step in Hl. destruct (pc s) eqn:Hc; try done. injection Hl as <-. destruct i as [block| |m].
    + by apply take_block_invariant.
    + unfold stream_over. case_bool; [apply end_utterance_invariant; by rewrite ?Hc|].
      apply after_invariant, placed_settled_turn; by rewrite ?Hc.
    + apply fail_invariant; by rewrite ?Hc.
  - unfold audio_step in Hl. destruct (pc s) as [|[|what rest]|rest| | |k|k|k|] eqn:Hc; simplify_eq.
    + apply (invariant_moved s); [|by left|done]. split; cbn; rewrite ?Hc; done.
    + by apply on_activity_invariant.
    + unfold enqueue_decode in Hl. injection Hl as <-.
      pose proof (proj1 (proj2 (inv_placed _ Hi)) rest Hc) as Hsp.
      apply (invariant_moved s); [split; cbn; rewrite ?Hc; done| |done]. right. split; [done|]. by exists true.
    + by apply hold_check_invariant.
    + by eapply run_check_invariant.
    + case_bool; [|done]. injection Hl as <-. by apply commit_idle_invariant.
    + by eapply final_queue_invariant.
    + case_bool; [|done]. injection Hl as <-. by eapply final_done_invariant.
  - apply (invariant_view s); [by apply jobs_take|done].
  - pose proof Hl as Hd. unfold worker_done in Hl. destruct (running s) as [job|] eqn:Hr; [|done].
    destruct (job_final job) eqn:Hf; [by eapply final_decoded|by eapply other_decoded].
Qed.

Lemma reachable_invariant v s : reachable v s → invariant s.
Proof. induction 1 as [|s l s' _ IH Hl]; [apply invariant_initial|by eapply step_invariant]. Qed.

(** * Who emits finals *)

Definition final_source (s : state) (u : Z) (r : TranscribeResult) : Prop :=
  (∃ k, pc s = CommitWait k ∧ have_candidate s = true ∧ u = utterance_id s ∧ r = candidate s) ∨
  (∃ job, running s = Some job ∧ job_final job = true ∧ transcribe (job_audio job) = Ok r ∧ u = job_utterance_id job).

(** The events a step adds. *)
Definition adds (s s' : state) : Prop :=
  ∃ es, events s' = events s ++ es ∧ ∀ u t r ts, Turn u t (Final r ts) ∈ es → final_source s u r.

Lemma adds_none s s' : events s' = events s → adds s s'.
Proof. exists []. rewrite app_nil_r. split; [done|]. by intros u t r ts ?%elem_of_nil. Qed.

Lemma adds_one s s' e :
  events s' = events s ++ [e] → (∀ u t r ts, e = Turn u t (Final r ts) → final_source s u r) → adds s s'.
Proof. intros He Hf. exists [e]. split; [done|]. intros u t r ts Hin%list_elem_of_singleton. by eapply Hf. Qed.

Lemma after_events k s : events (after k s) = events s.
Proof. by destruct k. Qed.

Lemma commit_utterance_adds now k s : adds s (commit_utterance now k s).
Proof.
  unfold commit_utterance. cbv zeta. case_bool; [|by eapply adds_one].
  eapply adds_one; [rewrite after_events; done|done].
Qed.

Lemma end_utterance_adds now k s : adds s (end_utterance now k s).
Proof.
  destruct (commit_utterance_adds now k (s <| speech_ended_at := now |>)) as (es & He & Hf).
  exists es. split; [exact He|exact Hf].
Qed.

Lemma audio_step_adds now s s' : audio_step now s = Some s' → adds s s'.
Proof.
  unfold audio_step. destruct (pc s) as [|[|what rest]|rest| | |k|k|k|] eqn:Hc; intros H; simplify_eq.
  - by apply adds_none.
  - unfold on_activity. cbv zeta. destruct what; repeat case_bool; try by apply adds_none. by eapply adds_one.
  - unfold enqueue_decode in H. injection H as <-. by apply adds_none.
  - unfold hold_check. case_bool; [apply commit_utterance_adds|by apply adds_none].
  - unfold run_check, enqueue_decode in H. cbv zeta in H.
    repeat case_bool; simplify_eq; try by apply adds_none. apply end_utterance_adds.
  - case_bool; [|done]. injection H as <-. unfold commit_idle. case_bool; [|by apply adds_none].
    eapply adds_one; [rewrite after_events; done|]. intros ???? [= <- _ <- _]. left. by exists k.
  - unfold enqueue_decode in H. cbn in H. destruct (running s); [done|]. injection H as <-. by apply adds_none.
  - case_bool; [|done]. injection H as <-. apply adds_none. by rewrite after_events.
Qed.

Lemma step_adds l s s' : step l s = Some s' → adds s s'.
Proof.
  destruct l as [now i|now| |now d]; cbn; intros H.
  - unfold read_step in H. destruct (pc s); try done. injection H as <-. destruct i as [block| |m].
    + destruct block as [|x block]; [by apply adds_none|]. cbn [take_block].
      set (s1 := s <| vad_pending := vad_pending s ++ x :: block |>).
      pose proof (feed_windows_frame (length (vad_pending s1)) s1) as [_ Hr].
      destruct (feed_windows _ s1) as [[acts|m] s2]; unfold results in Hr; cbn [snd] in Hr; split_pairs.
      * apply adds_none. unfold track_loudness, keep_audio. by repeat case_bool.
      * eapply (adds_one _ _ (Error m)); [|done].
        change (events s2 ++ [Error m] = events s ++ [Error m]). by f_equal.
    + unfold stream_over. case_bool; [apply end_utterance_adds|by apply adds_none].
    + by eapply adds_one.
  - by eapply audio_step_adds.
  - unfold worker_take in H. destruct (running s), (pending s); simplify_eq. by apply adds_none.
  - apply worker_done_spec in H as (job & Hr & _ & _ & Hev).
    destruct (transcribe (job_audio job)) as [r|m] eqn:Ht; [|by eapply adds_one; [apply Hev|]].
    destruct (job_final job) eqn:Hf.
    + destruct Hev as (_ & ts & He). eapply adds_one; [exact He|].
      intros u t r' ts' [= <- _ <- _]. right. by exists job.
    + destruct Hev as (_ & es & He & Hes). exists es. split; [done|]. intros u t r' ts' Hin.
      rewrite Forall_forall in Hes. by destruct (Hes _ Hin).
Qed.

(** * The audio of a turn *)

Definition heard (l : label) : list Float :=
  match l with Read _ (Samples block) => block | _ => [] end.

Definition turn_audio (s : state) : list Float := utterance s ++ gap_buffer s.

Definition gap_closed (s : state) : Prop := pending_end s = false → gap_buffer s = [].

(** A step either goes on with the turn, opens one, or leaves none open. *)
Definition continues (s s' : state) (block : list Float) : Prop :=
  gap_closed s' ∧ (utterance_id s <= utterance_id s')%Z ∧
  (speaking s' = true → pc s' ≠ Closed →
     (speaking s = true ∧ utterance_id s' = utterance_id s ∧ turn_audio s' = turn_audio s ++ block) ∨
     (speaking s = false ∧ utterance_id s' = utterance_id s + 1)%Z).

Lemma continues_same s s' :
  gap_closed s → (speaking s', utterance_id s', utterance s', gap_buffer s', pending_end s') =
                 (speaking s, utterance_id s, utterance s, gap_buffer s, pending_end s) → continues s s' [].
Proof.
  intros Hg Hv. split_pairs. split; [unfold gap_closed in *; intros; rewrite H1; apply Hg; congruence|].
  split; [lia|]. intros Hs _. destruct (speaking s) eqn:E; [|congruence].
  left. split_and!; try done. rewrite app_nil_r. unfold turn_audio. congruence.
Qed.

Lemma continues_silent s s' block :
  gap_closed s' → speaking s' = false → utterance_id s' = utterance_id s → continues s s' block.
Proof. intros Hg Hs Hu. split; [done|]. split; [lia|]. congruence. Qed.

Lemma commit_utterance_continues now k s : continues s (commit_utterance now k s) [].
Proof.
  unfold commit_utterance. cbv zeta. case_bool; [|by apply continues_silent].
  apply continues_silent; by destruct k.
Qed.

Lemma end_utterance_continues now k s : continues s (end_utterance now k s) [].
Proof.
  destruct (commit_utterance_continues now k (s <| speech_ended_at := now |>)) as (H1 & H2 & H3).
  split; [exact H1|split; [exact H2|exact H3]].
Qed.

Lemma track_loudness_frame block s : frame (track_loudness block s) = frame s.
Proof. unfold track_loudness. by case_bool. Qed.

Lemma keep_audio_continues block p s : gap_closed s → continues s (keep_audio block s <| pc := p |>) block.
Proof.
  unfold continues, gap_closed, turn_audio, keep_audio. intros Hg.
  destruct (speaking s) eqn:Hs, (pending_end s) eqn:Hp; cbn; rewrite ?Hs, ?Hp;
    (split_and!; [by auto|lia|]); try done; intros _ _; left; (split_and!; [done..|]).
  - by rewrite app_assoc.
  - by rewrite Hg, !app_nil_r.
Qed.

Lemma continues_frame s1 s s' block : frame s1 = frame s → continues s1 s' block → continues s s' block.
Proof.
  unfold frame, continues, turn_audio. intros Hf (H1 & H2 & H3). split_pairs.
  split; [done|]. split; [congruence|]. intros Hs Hc. destruct (H3 Hs Hc) as [(?&?&?)|[? ?]]; [left|right]; split_and!; congruence.
Qed.

Lemma take_block_continues block s : pc s = Reading → gap_closed s → continues s (take_block block s) block.
Proof.
  intros Hc Hg. destruct block as [|x block]; [by apply continues_same|]. cbn [take_block].
  set (s1 := s <| vad_pending := vad_pending s ++ x :: block |>).
  pose proof (feed_windows_frame (length (vad_pending s1)) s1) as [Hf _].
  destruct (feed_windows _ s1) as [[acts|m] s2]; cbn [snd] in Hf; change (frame s1) with (frame s) in Hf.
  - apply (continues_frame (track_loudness (x :: block) s2)); [by rewrite track_loudness_frame|].
    apply keep_audio_continues. unfold gap_closed.
    pose proof (track_loudness_frame (x :: block) s2) as Hl. rewrite Hf in Hl. unfold frame in Hl. split_pairs.
    intros. unfold gap_closed in Hg. etransitivity; [eassumption|]. apply Hg. congruence.
  - unfold frame in Hf. split_pairs. split; [|split; [cbn; lia|done]].
    intros Hp. cbn in *. etransitivity; [eassumption|]. apply Hg. congruence.
Qed.

Lemma audio_step_continues now s s' :
  well_placed s → gap_closed s → audio_step now s = Some s' → continues s s' [].
Proof.
  intros (Hsp & _) Hg. unfold audio_step.
  destruct (pc s) as [|[|what rest]|rest| | |k|k|k|]; cbn in Hsp; intros H; simplify_eq.
  - by apply continues_same.
  - unfold on_activity. cbv zeta.
    destruct what; repeat case_bool; cbn in *; try by apply continues_same.
    + apply negb_true_iff in E. split; [done|]. split; [cbn; lia|]. intros _ _. by right.
    + apply negb_false_iff in E. split; [done|]. split; [cbn; lia|]. intros _ _. left. split; [done|split; [done|]].
      unfold turn_audio. cbn. by rewrite !app_nil_r.
    + apply andb_true_iff in E as [Hs Hp%negb_true_iff]. split; [done|]. split; [cbn; lia|].
      intros _ _. left. split; [done|split; [done|]]. unfold turn_audio. cbn. by rewrite (Hg Hp), !app_nil_r.
  - unfold enqueue_decode in H. injection H as <-. by apply continues_same.
  - unfold hold_check. case_bool; [apply commit_utterance_continues|by apply continues_same].
  - unfold run_check, enqueue_decode in H. cbv zeta in H.
    repeat case_bool; simplify_eq; try by apply continues_same. apply end_utterance_continues.
  - case_bool; [|done]. injection H as <-. unfold commit_idle.
    case_bool; [|by apply continues_same]. by apply continues_silent; destruct k; auto.
  - unfold enqueue_decode in H. cbn in H. destruct (running s); [done|]. injection H as <-. by apply continues_same.
  - case_bool; [|done]. injection H as <-. by apply continues_silent; destruct k; auto.
Qed.

Lemma step_continues l s s' :
  well_placed s → gap_closed s → step l s = Some s' → continues s s' (heard l).
Proof.
  intros Hw Hg. destruct l as [now i|now| |now d]; cbn; intros H.
  - unfold read_step in H. destruct (pc s) eqn:Hc; try done. injection H as <-. destruct i as [block| |m].
    + by apply take_block_continues.
    + unfold stream_over. case_bool; [apply end_utterance_continues|by apply continues_silent].
    + split; [exact Hg|]. split; [cbn; lia|done].
  - by eapply audio_step_continues.
  - unfold worker_take in H. destruct (running s), (pending s); simplify_eq. by apply continues_same.
  - apply worker_done_spec in H as (job & _ & _ & Hf & _). unfold frame in Hf. split_pairs.
    apply continues_same; [done|]. congruence.
Qed.

Lemma reachable_gap_closed v s : reachable v s → gap_closed s.
Proof.
  induction 1 as [|s l s' Hr IH Hl]; [done|].
  by destruct (step_continues l s s' (inv_placed _ (reachable_invariant v s Hr)) IH Hl).
Qed.

Lemma run_app ls ls' s : run (ls ++ ls') s = run ls s ≫= run ls'.
Proof.
  unfold run. rewrite foldl_app. destruct (foldl _ (Some s) ls) as [s1|]; [done|].
  cbn. induction ls'; [done|]. cbn. done.
Qed.

Lemma step_closed l s s' : step l s = Some s' → pc s' ≠ Closed → pc s ≠ Closed.
Proof.
  intros H Hn Hc. destruct l as [now i|now| |now d]; cbn in H.
  - unfold read_step in H. by rewrite Hc in H.
  - unfold audio_step in H. by rewrite Hc in H.
  - unfold worker_take in H. by destruct (running s), (pending s); simplify_eq.
  - apply worker_done_spec in H as (job & _ & _ & Hf & _). unfold frame in Hf. split_pairs. congruence.
Qed.

Lemma reachable_continues v l s s' : reachable v s → step l s = Some s' → continues s s' (heard l).
Proof.
  intros Hr. apply step_continues; [by apply inv_placed, (reachable_invariant v)|by apply (reachable_gap_closed v)].
Qed.

Lemma run_id_mono v ls s s' : reachable v s → run ls s = Some s' → (utterance_id s <= utterance_id s')%Z.
Proof.
  intros Hr. revert s'. induction ls as [|l ls IH] using rev_ind; intros s'; [intros [= <-]; lia|].
  rewrite run_app. destruct (run ls s) as [s2|] eqn:E; [|done]. cbn. intros Hl.
  destruct (reachable_continues v l s2 s' (reachable_run v ls s s2 Hr E) Hl) as (_ & Hle & _).
  specialize (IH s2 eq_refl). lia.
Qed.

(** * How much is left to do before the next block *)

Definition pc_work (p : audio_pc) : nat :=
  match p with
  | Reading | Closed => 0
  | FinalWait _ => 1
  | FinalQueue _ => 4
  | CommitWait _ => 5
  | RunCheck => 6
  | HoldCheck => 7
  | Activities rest => 8 + 4 * length rest
  | CandidateQueue rest => 11 + 4 * length rest
  end.

Definition work (s : state) : nat :=
  pc_work (pc s) + (if running s then 1 else 0) + (if pending s then 2 else 0).

(** The steps that do not wait for the client. *)
Definition internal (l : label) : bool := match l with Read _ _ => false | _ => true end.

Lemma after_work k s : work (after k s) = (if running s then 1 else 0) + (if pending s then 2 else 0).
Proof. unfold work. by destruct k. Qed.

Lemma commit_utterance_work now k s :
  work (commit_utterance now k s) <= 5 + (if running s then 1 else 0) + (if pending s then 2 else 0).
Proof. unfold commit_utterance. cbv zeta. case_bool; [rewrite after_work|unfold work]; cbn; lia. Qed.

Lemma on_activity_work now what rest s :
  work (on_activity now what rest s) <=
  11 + 4 * length rest + (if running s then 1 else 0) + (if pending s then 2 else 0).
Proof.
  unfold on_activity. cbv zeta.
  destruct what; [destruct (negb (speaking _)); [|destruct (pending_end _)]|destruct (speaking _ && _)|];
    unfold work; cbn; try lia.
  destruct (have_candidate _); cbn; lia.
Qed.

Lemma run_check_work now s s' :
  run_check now s = Some s' → work s' < 6 + (if running s then 1 else 0) + (if pending s then 2 else 0).
Proof.
  unfold run_check, enqueue_decode. cbv zeta. intros H.
  destruct (speaking s && _); [|injection H as <-; unfold work; cbn; lia].
  destruct (ms (max_utterance_ms params) <? _)%Z.
  - injection H as <-. pose proof (commit_utterance_work now ResetVad (s <| speech_ended_at := now |>)). cbn in *.
    unfold end_utterance. lia.
  - destruct ((ms (partial_interval_ms params) <=? _)%Z && _); [|injection H as <-; unfold work; cbn; lia].
    destruct (idle _); injection H as <-; unfold work; cbn; destruct (pending s); lia.
Qed.

Lemma step_work l s s' : internal l = true → step l s = Some s' → work s' < work s.
Proof.
  destruct l as [now i|now| |now d]; cbn; [done|..]; intros _ H.
  - unfold audio_step in H. unfold work at 2. destruct (pc s) as [|[|what rest]|rest| | |k|k|k|]; simplify_eq; cbn [pc_work].
    + unfold work. cbn. lia.
    + pose proof (on_activity_work now what rest s). cbn. lia.
    + unfold enqueue_decode in H. injection H as <-. unfold work. cbn. destruct (pending s); lia.
    + unfold hold_check.
      destruct (speaking s && _ && _); [pose proof (commit_utterance_work now Continue s); lia|unfold work; cbn; lia].
    + by apply run_check_work in H.
    + destruct (idle s); [|done]. injection H as <-. unfold commit_idle.
      destruct (have_candidate s); [rewrite after_work|unfold work]; cbn; lia.
    + unfold enqueue_decode in H. cbn in H. destruct (running s) eqn:E; [done|]. injection H as <-.
      unfold work. cbn. rewrite E. destruct (pending s); lia.
    + destruct (idle s); [|done]. injection H as <-. rewrite after_work. cbn. lia.
  - unfold worker_take in H. unfold work. destruct (running s), (pending s); simplify_eq. cbn. lia.
  - apply worker_done_spec in H as (job & Hr & Hr' & Hf & _). unfold frame in Hf. split_pairs.
    unfold work. rewrite Hr, Hr'. replace (pc s') with (pc s) by done. replace (pending s') with (pending s) by done. lia.
Qed.

Lemma run_work ls s s' :
  Forall (λ l, internal l = true) ls → run ls s = Some s' → length ls + work s' <= work s.
Proof.
  revert s. induction ls as [|l ls IH]; intros s Hl; [by intros [= <-]|].
  apply Forall_cons in Hl as [Hl Hls]. rewrite (run_app [l] ls). cbn.
  destruct (step l s) as [s1|] eqn:E; [|done]. intros H.
  specialize (IH s1 Hls H). pose proof (step_work l s s1 Hl E). cbn. lia.
Qed.

Lemma stuck_rests s :
  well_placed s → step Take s = None → step (Audio 0) s = None → step (Done 0 0) s = None →
  (pc s = Reading ∨ pc s = Closed) ∧ idle s = true.
Proof.
  intros (_ & _ & _ & Hj) Ht Ha Hd. cbn in Ht, Ha, Hd.
  assert (idle s = true) as Hi.
  { unfold worker_done in Hd. unfold worker_take in Ht. unfold idle. by destruct (running s), (pending s). }
  split; [|done]. unfold audio_step in Ha. rewrite Hi in Ha.
  destruct (pc s) as [|[|what rest]|rest| | |k|k|k|] eqn:Hc; try done; auto.
  - unfold run_check, enqueue_decode in Ha. cbv zeta in Ha. by repeat case_bool.
  - unfold enqueue_decode in Ha. cbn in Ha. unfold idle in Hi. by destruct (running s).
Qed.

(** * Theorems *)

(** C18. At every moment of every run, whatever the interleaving of the audio
    thread and the decode worker, the events sent so far follow the protocol:
    turn ids count up from 1; a turn is opened once, and closed once by
    [speech_ended] or [speech_discarded]; [final_transcript] comes at most once,
    for the turn that just ended and before the next one opens; only an error
    replaces it. Without the noise gate, every decode result names the current
    turn and comes before its final. *)
Theorem turn_protocol v s :
  reachable v s → ∃ ph, protocol gate_off (events s) = Some (ph, utterance_id s).
Proof. intros Hr. destruct (inv_observed s (reachable_invariant v s Hr)) as (ph & H & _). by exists ph. Qed.

(** C19. Without the noise gate, a [final_transcript] is the recognizer's answer,
    for the current turn, to the audio of that turn up to at most its last
    480 ms, whether it comes from a precomputed candidate or from a decode of
    its own. *)
Theorem final_is_transcription v s l s' :
  gate_off = true → reachable v s → step l s = Some s' →
  ∃ es, events s' = events s ++ es ∧
  ∀ u t r ts, Turn u t (Final r ts) ∈ es →
    u = utterance_id s ∧
    ∃ n, n <= length (utterance s) <= n + 16 * 480 ∧ transcribe (take n (utterance s)) = Ok r.
Proof.
  intros Hg Hr Hl. destruct (step_adds _ _ _ Hl) as (es & He & Hes). exists es. split; [done|].
  pose proof (reachable_invariant v s Hr) as Hi. intros u t r ts Hin.
  destruct (Hes u t r ts Hin) as [(k & Hk & Hc & -> & ->)|(job & Hrun & Hf & Ht & ->)].
  - split; [done|]. apply andb_true_iff in Hc as [Hv Hlen%Nat.leb_le].
    pose proof (inv_attended _ Hi) as Ha. unfold attended in Ha. rewrite Hg in Ha. destruct Ha as (_ & _ & Ha).
    destruct Ha as [Hle Ht]; [rewrite Hk; apply orb_true_r|done|].
    exists (candidate_samples s). split; [lia|done].
  - destruct (jobs_placed _ _ Hi Hrun) as [(_ & _ & -> & _)|(? & _)]; [|congruence].
    split; [done|]. exists (length (utterance s)). split; [lia|]. by rewrite firstn_all.
Qed.

(** C20. Between two blocks of audio the threads do a bounded amount of work: a
    schedule of internal steps is no longer than [work], and when none is
    possible any more the audio thread waits for the next block or is past its
    loop, and the worker is idle with nothing queued. No wait of
    [commit_utterance] or [enqueue_decode] lasts forever. *)
Theorem turn_settles v s ls s' :
  reachable v s → Forall (λ l, internal l = true) ls → run ls s = Some s' →
  length ls <= work s ∧
  ((∀ l, internal l = true → step l s' = None) → (pc s' = Reading ∨ pc s' = Closed) ∧ idle s' = true).
Proof.
  intros Hr Hls Hrun. pose proof (run_work ls s s' Hls Hrun). split; [lia|]. intros Hstuck.
  apply stuck_rests; [|by apply Hstuck..].
  by apply inv_placed, (reachable_invariant v), (reachable_run v ls s).
Qed.

(** C21. No audio of a turn is lost or duplicated: from any moment of a turn to
    any later moment of the same turn, the kept audio (the utterance and the
    audio of a hold) grows by exactly the blocks read, in order, through any
    number of holds and resumptions. *)
Theorem turn_audio_contiguous v s ls s' :
  reachable v s → run ls s = Some s' → speaking s = true → speaking s' = true → pc s' ≠ Closed →
  utterance_id s' = utterance_id s →
  turn_audio s' = turn_audio s ++ concat (map heard ls).
Proof.
  intros Hr. revert s'. induction ls as [|l ls IH] using rev_ind; intros s'.
  { intros [= <-] _ _ _ _. by rewrite app_nil_r. }
  rewrite run_app. destruct (run ls s) as [s1|] eqn:E; [|done]. cbn. intros Hl Hs Hs' Hc Hu.
  destruct (reachable_continues v l s1 s' (reachable_run v ls s s1 Hr E) Hl) as (_ & Hle & Hcont).
  pose proof (run_id_mono v ls s s1 Hr E) as Hmono.
  destruct (Hcont Hs' Hc) as [(Hs1 & Hu1 & Ha)|[_ Hu1]]; [|lia].
  rewrite Ha, (IH s1 eq_refl Hs Hs1); [|by eapply step_closed|lia].
  rewrite map_app, concat_app, app_assoc. cbn. by rewrite app_nil_r.
Qed.
End turn.

(** * A room

    Samples are millionths; the recognizer hears one letter per level of
    loudness; the voice-activity session compares windows with a threshold. *)

Module Room.

#[export] Instance micro : FloatArith Z Z := {
  f_literal m e := (m * 10 ^ (e + 6))%Z; f_add := Z.add; f_mul a b := (a * b / 10 ^ 6)%Z; f_ltb := Z.ltb;
  d_of_f x := x; f_of_d x := x; d_of_Z x := (x * 10 ^ 6)%Z; d_add := Z.add; d_mul a b := (a * b / 10 ^ 6)%Z;
  d_div a b := (a * 10 ^ 6 / b)%Z; d_sqrt x := Z.sqrt (x * 10 ^ 6); d_ltb := Z.ltb;
  format_rms x := to_string x }.

Fixpoint letters (previous : Z) (audio : list Z) : bytes :=
  match audio with
  | [] => []
  | x :: audio => if (x =b previous) || (x =b 0) then letters x audio else (97 + x / 10000)%Z :: letters x audio
  end.

Definition transcribe (audio : list Z) : outcome TranscribeResult :=
  Ok {| text := letters 0 audio; result_language := str "en" |}.

Definition vad_process (on : bool) (_ : Z) (window : list Z) : outcome (list activity) * bool :=
  let loud := existsb (λ x, 0 <? x)%Z window in
  (Ok (if loud then if on then [] else [SpeechStart] else if on then [SpeechEnd] else []), loud).

Definition quiet_params : TurnParams Z := default_params f_literal.

(** The same without the noise gate. *)
Definition params : TurnParams Z :=
  {| vad_threshold := vad_threshold quiet_params; min_speech_ms := min_speech_ms quiet_params;
     min_silence_ms := min_silence_ms quiet_params; endpoint_hold_ms := endpoint_hold_ms quiet_params;
     endpoint_hold_incomplete_ms := endpoint_hold_incomplete_ms quiet_params;
     max_utterance_ms := max_utterance_ms quiet_params; partial_interval_ms := partial_interval_ms quiet_params;
     min_partial_audio_ms := min_partial_audio_ms quiet_params; speech_pad_ms := speech_pad_ms quiet_params;
     min_speech_snr := 0%Z; min_speech_rms := min_speech_rms quiet_params;
     stability := stability quiet_params; language := [] |}.

(** A schedule: the audio thread handles one block and goes on as far as it can
    alone; or the worker takes a job, or finishes it. *)
Inductive action := Hear (level : Z) (blocks : nat) | WorkerTakes | WorkerAnswers | AudioGoesOn.

Section play.
Context (params : TurnParams Z).

Notation state := (@state Z bool).
Definition tick (l : label) (s : state) : option state := step transcribe vad_process (λ _, false) params l s.

(** The labels of a schedule are computed along the run. *)
Fixpoint go_on (fuel : nat) (now : Z) (s : state) : list (@label Z) * state :=
  match fuel with
  | O => ([], s)
  | S fuel =>
      match tick (Audio now) s with
      | Some s' => let '(ls, s'') := go_on fuel now s' in (Audio now :: ls, s'')
      | None => ([], s)
      end
  end.

Fixpoint hear (blocks : nat) (level : Z) (now : Z) (s : state) : list (@label Z) * state :=
  match blocks with
  | O => ([], s)
  | S blocks =>
      let now := (now + ms 20)%Z in
      match tick (Read now (Samples (repeat level 320))) s with
      | Some s1 =>
          let '(ls, s2) := go_on 20 now s1 in
          let '(ls', s3) := hear blocks level now s2 in
          ((Read now (Samples (repeat level 320)) :: ls) ++ ls', s3)
      | None => ([], s)
      end
  end.

Definition one (l : label) (s : state) : list (@label Z) * state :=
  match tick l s with Some s' => ([l], s') | None => ([], s) end.

Fixpoint play (script : list action) (now : Z) (s : state) : list (@label Z) * state :=
  match script with
  | [] => ([], s)
  | a :: script =>
      let '(ls, s1, now) :=
        match a with
        | Hear level blocks => (hear blocks level now s, (now + ms 20 * Z.of_nat blocks)%Z)
        | WorkerTakes => (one Take s, now)
        | WorkerAnswers => (one (Done now 0) s, now)
        | AudioGoesOn => (go_on 20 now s, now)
        end in
      let '(ls', s2) := play script now s1 in
      (ls ++ ls', s2)
  end.

Definition finals (s : state) : list (Z * bytes) :=
  omap (λ e, match e with Turn u _ (Final r _) => Some (u, text r) | _ => None end) (events s).

Definition runs (s : state) (r : list (@label Z) * state) : Prop :=
  run transcribe vad_process (λ _, false) params r.1 s = Some r.2.

Lemma runs_app s ls s1 ls' s2 : runs s (ls, s1) → runs s1 (ls', s2) → runs s (ls ++ ls', s2).
Proof. unfold runs. cbn [fst snd]. intros H1 H2. by rewrite run_app, H1. Qed.

Lemma runs_cons s l s1 r : tick l s = Some s1 → runs s1 r → runs s (l :: r.1, r.2).
Proof. intros H1 H2. destruct r as [ls s2]. apply (runs_app s [l] s1 ls s2); [|done]. exact H1. Qed.

Lemma go_on_runs fuel now s : runs s (go_on fuel now s).
Proof.
  revert s. induction fuel as [|fuel IH]; intros s; [done|]. cbn [go_on].
  destruct (tick (Audio now) s) as [s1|] eqn:E; [|done].
  specialize (IH s1). destruct (go_on fuel now s1) as [ls s2]. by apply (runs_cons s _ s1 (ls, s2)).
Qed.

Lemma hear_runs blocks level now s : runs s (hear blocks level now s).
Proof.
  revert now s. induction blocks as [|blocks IH]; intros now s; [done|]. cbn [hear]. cbv zeta.
  destruct (tick (Read _ _) s) as [s1|] eqn:E; [|done].
  pose proof (go_on_runs 20 (now + ms 20) s1) as H1. destruct (go_on 20 _ s1) as [ls s2].
  specialize (IH (now + ms 20)%Z s2). destruct (hear blocks level _ s2) as [ls' s3].
  eapply runs_app; [|exact IH]. by apply (runs_cons s _ s1 (ls, s2)).
Qed.

Lemma one_runs l s : runs s (one l s).
Proof. unfold one. destruct (tick l s) as [s1|] eqn:E; [|done]. exact E. Qed.

Lemma play_runs script now s : runs s (play script now s).
Proof.
  revert now s. induction script as [|a script IH]; intros now s; [done|]. cbn [play].
  assert (∃ ls s1 now1, match a with
    | Hear level blocks => (hear blocks level now s, (now + ms 20 * Z.of_nat blocks)%Z)
    | WorkerTakes => (one Take s, now)
    | WorkerAnswers => (one (Done now 0) s, now)
    | AudioGoesOn => (go_on 20 now s, now)
    end = (ls, s1, now1) ∧ runs s (ls, s1)) as (ls & s1 & now1 & -> & H1).
  { destruct a as [level blocks| | |];
      [pose proof (hear_runs blocks level now s) as H; destruct (hear _ _ _ s)
      |pose proof (one_runs Take s) as H; destruct (one _ s)
      |pose proof (one_runs (Done now 0) s) as H; destruct (one _ s)
      |pose proof (go_on_runs 20 now s) as H; destruct (go_on _ _ s)]; by eauto. }
  specialize (IH now1 s1). destruct (play script now1 s1) as [ls' s2]. by eapply runs_app.
Qed.

(** The first step of a run after which more than [n] finals are out. *)
Fixpoint watch (n : nat) (ls : list (@label Z)) (s : state) : option (state * label * state) :=
  match ls with
  | [] => None
  | l :: ls =>
      match tick l s with
      | Some s' => if n <? length (finals s') then Some (s, l, s') else watch n ls s'
      | None => None
      end
  end.

Lemma watch_sound n ls v s r :
  reachable transcribe vad_process (λ _, false) params v s → watch n ls s = Some r →
  reachable transcribe vad_process (λ _, false) params v r.1.1 ∧ tick r.1.2 r.1.1 = Some r.2.
Proof.
  revert s. induction ls as [|l ls IH]; intros s Hr; cbn [watch]; [done|].
  destruct (tick l s) as [s1|] eqn:E; [|done]. case_bool; [by intros [= <-]|].
  apply IH. by eapply reach_step.
Qed.

(** The final of a scripted conversation, with the audio of its turn. *)
Definition answer (n : nat) (script : list action) : option (bytes * list (Z * bytes)) :=
  r ← watch n (play script 0 (initial params false)).1 (initial params false);
  let '(s, l, s') := r in
  match transcribe (utterance s) with Ok t => Some (text t, finals s') | Throw _ => None end.

Lemma answer_sound n script said out :
  answer n script = Some (said, out) →
  ∃ s l s', reachable transcribe vad_process (λ _, false) params false s ∧ tick l s = Some s' ∧
    text <$> transcribe (utterance s) = Ok said ∧ finals s' = out.
Proof.
  unfold answer. destruct (watch _ _ _) as [[[s l] s']|] eqn:Hw; [|done]. unfold mbind, option_bind.
  destruct (transcribe (utterance s)) as [t|] eqn:Ht; [|done]. intros [= <- <-].
  apply (watch_sound n _ false) in Hw as [Hr Hs]; [|constructor].
  exists s, l, s'. split_and!; [done|done|by rewrite Ht|done].
Qed.
End play.

Definition basic : list action := [Hear 0 5; Hear 100000 15; Hear 0 4; WorkerTakes; WorkerAnswers; Hear 0 20].
Definition discarded : list action :=
  [Hear 0 30; Hear 10000 10; Hear 0 4; WorkerTakes; Hear 0 30; Hear 100000 2; WorkerAnswers; Hear 100000 9;
   Hear 0 20; WorkerTakes; WorkerAnswers; AudioGoesOn].
Definition resumed : list action :=
  [Hear 0 30; Hear 100000 15; Hear 0 4; WorkerTakes; Hear 200000 5; WorkerAnswers; Hear 0 20; WorkerTakes;
   WorkerAnswers; AudioGoesOn].
Definition early_again : list action :=
  [Hear 0 30; Hear 100000 15; Hear 0 4; WorkerTakes; WorkerAnswers; Hear 0 5; Hear 200000 5; Hear 0 4; WorkerTakes;
   WorkerAnswers; Hear 0 20].

(** A turn in progress, and the state a hold later. *)
Definition opening : @state Z bool := (play params [Hear 0 5; Hear 100000 3] 0 (initial params false)).2.
Definition going_on : list action := [Hear 100000 12; Hear 0 4; Hear 200000 2].

Definition at_end : @state Z bool := (play params basic 0 (initial params false)).2.

Lemma played_reachable p script :
  reachable transcribe vad_process (λ _, false) p false (play p script 0 (initial p false)).2.
Proof. eapply reachable_run; [constructor|apply play_runs]. Qed.

Lemma turn_protocol_witness :
  finals at_end = [(1%Z, str "k")] ∧
  ∃ ph, protocol (gate_off params) (events at_end) = Some (ph, utterance_id at_end).
Proof.
  split; [by vm_compute|]. apply (turn_protocol transcribe vad_process (λ _, false) params false at_end).
  apply played_reachable.
Defined.

Lemma basic_final :
  ∃ s l s', reachable transcribe vad_process (λ _, false) params false s ∧ tick params l s = Some s' ∧
    finals s = [] ∧ finals s' = [(1%Z, str "k")].
Proof.
  assert (match watch params 0 (play params basic 0 (initial params false)).1 (initial params false) with
    | Some r => bool_decide (finals r.1.1 = [] ∧ finals r.2 = [(1%Z, str "k")]) | None => false end = true) as Hb
    by (vm_compute; done).
  destruct (watch params 0 _ _) as [[[s l] s']|] eqn:E; [|done]. apply bool_decide_eq_true in Hb as [H1 H2].
  apply (watch_sound params 0 _ false) in E as [Hr Hs]; [|constructor]. by exists s, l, s'.
Qed.

Lemma final_is_transcription_witness :
  ∃ (s s' : @state Z bool) es, finals s = [] ∧ finals s' = [(1%Z, str "k")] ∧ events s' = events s ++ es ∧
  ∀ u t r ts, Turn u t (Final r ts) ∈ es →
    u = utterance_id s ∧
    ∃ n, n <= length (utterance s) <= n + 16 * 480 ∧ transcribe (take n (utterance s)) = Ok r.
Proof.
  destruct basic_final as (s & l & s' & Hr & Hs & H1 & H2).
  assert (gate_off params = true) as Hg by (vm_compute; done).
  destruct (final_is_transcription transcribe vad_process (λ _, false) params false s l s' Hg Hr Hs) as (es & He & Hf).
  exists s, s', es. by split_and!.
Defined.

(** The audio thread waits in [commit_utterance]: the worker still decodes the draft of a
    hold, and the audio of the whole turn is queued behind it. *)
Definition in_commit : @state Z bool :=
  (play params [Hear 0 5; Hear 100000 15; Hear 0 4; WorkerTakes; Hear 200000 40; Hear 0 20] 0 (initial params false)).2.

Definition settling : list (@label Z) := [Done (ms 900) 0; Take; Done (ms 900) 0; Audio (ms 900)].

Definition settled (s : @state Z bool) : bool :=
  bool_decide (finals s = [(1%Z, str "ku")]) && idle s && match pc s with Reading => true | _ => false end.

Lemma observed {A} (o : option A) (f : A → bool) : match o with Some a => f a | None => false end = true → ∃ a, o = Some a ∧ f a = true.
Proof. destruct o as [a|]; [by exists a|done]. Qed.

Lemma settling_settles : ∃ s', run transcribe vad_process (λ _, false) params settling in_commit = Some s' ∧ settled s' = true.
Proof. apply observed. vm_compute. reflexivity. Qed.

Lemma turn_settles_witness :
  ∃ s', run transcribe vad_process (λ _, false) params settling in_commit = Some s' ∧ 4 <= work in_commit ∧
    finals s' = [(1%Z, str "ku")] ∧ (pc s' = Reading ∨ pc s' = Closed) ∧ idle s' = true.
Proof.
  destruct settling_settles as (s' & E & [[Hfinals%bool_decide_eq_true Hidle]%andb_true_iff Hpc]%andb_true_iff). exists s'. split; [exact E|].
  destruct (turn_settles transcribe vad_process (λ _, false) params false in_commit settling s') as [Hwork Hrest].
  - apply played_reachable.
  - by repeat constructor.
  - exact E.
  - split; [exact Hwork|]. split; [exact Hfinals|]. apply Hrest. unfold idle in Hidle.
    clear -Hidle Hpc. destruct (running s') eqn:Hrunning; [done|]. destruct (pending s') eqn:Hpending; [done|]. destruct (pc s') eqn:Epc; try done.
    intros [] ?; [done|..]; cbn; unfold audio_step, worker_take, worker_done; rewrite ?Epc, ?Hrunning, ?Hpending; done.
Defined.

Lemma turn_audio_contiguous_witness :
  turn_audio (play params going_on (ms 160) opening).2 =
  turn_audio opening ++ concat (map heard (play params going_on (ms 160) opening).1).
Proof.
  apply (turn_audio_contiguous transcribe vad_process (λ _, false) params false).
  - apply played_reachable.
  - apply play_runs.
  - by vm_compute.
  - by vm_compute.
  - by vm_compute.
  - by vm_compute.
Defined.

(** A turn can be answered with the words of another: a decode started for
    a turn that the noise gate then discarded is still running when the next
    turn opens, and its result becomes the candidate of that turn. Here turn 1
    is a faint [b], turn 2 a clear [k], and the final of turn 2 says [b]. *)
Theorem discarded_turn_answers :
  ∃ s l s', reachable transcribe vad_process (λ _, false) quiet_params false s ∧ tick quiet_params l s = Some s' ∧
    text <$> transcribe (utterance s) = Ok (str "k") ∧ finals s' = [(2%Z, str "b")].
Proof. apply (answer_sound quiet_params 0 discarded). by vm_compute. Qed.

(** Words said after a hold can be missing from the final: the speculative
    decode of the hold is not cancelled when speech resumes, and its late result
    counts as covering an utterance that is up to 480 ms longer. Here the turn
    says [k], pauses, then [u]; the final says [k]. *)
Theorem resumed_words_dropped :
  ∃ s l s', reachable transcribe vad_process (λ _, false) params false s ∧ tick params l s = Some s' ∧
    text <$> transcribe (utterance s) = Ok (str "ku") ∧ finals s' = [(1%Z, str "k")].
Proof. apply (answer_sound params 0 resumed). by vm_compute. Qed.

(** A turn can begin with the words of the turn before it: the preroll is
    copied into an utterance but never emptied, so that a turn that opens within
    [speech_pad_ms] of the end of another starts with the beginning of that one.
    Here [k] is said in turn 1 only, and turn 2, a [u], is heard as [ku]. *)
Theorem preroll_repeats :
  ∃ s l s', reachable transcribe vad_process (λ _, false) params false s ∧ tick params l s = Some s' ∧
    text <$> transcribe (utterance s) = Ok (str "ku") ∧ finals s' = [(1%Z, str "k"); (2%Z, str "ku")].
Proof. apply (answer_sound params 1 early_again). by vm_compute. Qed.
End Room.
