(* ===== verification/SileroVad.v ===== *)
(** Voice activity (models/silero_vad): the windows handed to the network, the
    segmentation of a whole recording from its speech probabilities, the
    segmentation of a stream, and the session around them. *)

From S2P Require Import Prelude.

Local Open Scope Z_scope.

(** * Data *)

Record SileroSpeechTimestamp := { start : Z; end_ : Z }.

(** Durations in milliseconds are [int]; the arithmetic below does not leave the
    range of [int] for a rate of 16000 and durations of up to 134 seconds. *)
Record SileroVADConfig (Float : Type) := {
  threshold : Float;
  min_speech_duration_ms : Z;
  min_silence_duration_ms : Z;
  speech_pad_ms : Z;
  max_speech_duration_s : Float;
  neg_threshold : Float;
  min_silence_at_max_speech_ms : Z;
  use_max_poss_sil_at_max_speech : bool;
}.
Arguments threshold {Float}.
Arguments min_speech_duration_ms {Float}.
Arguments min_silence_duration_ms {Float}.
Arguments speech_pad_ms {Float}.
Arguments max_speech_duration_s {Float}.
Arguments neg_threshold {Float}.
Arguments min_silence_at_max_speech_ms {Float}.
Arguments use_max_poss_sil_at_max_speech {Float}.

Definition kSampleRate : Z := 16000.
Definition kChunkSamples : nat := 512.
Definition kContextSamples : nat := 64.

Definition samples_of_ms (sample_rate ms : Z) : Z := Z.quot (sample_rate * ms) 1000.

Inductive Kind := SpeechStart | SpeechEnd | SpeechSegment.

Record VoiceActivityEvent (Float : Type) := {
  kind : Kind; sample : Z; probability : Float; segment : option (SileroSpeechTimestamp * Float)
}.
Arguments kind {Float}.
Arguments sample {Float}.
Arguments probability {Float}.
Arguments segment {Float}.

(** The [float] operations used: comparison, [max(threshold - 0.15, 0.01)], the
    sign of the negative threshold, and
    [static_cast<int64_t>(sample_rate * max_speech_duration_s)]. *)
Class ProbabilityArith (Float : Type) := {
  at_least : Float → Float → bool;
  less : Float → Float → bool;
  is_negative : Float → bool;
  default_neg : Float → Float;
  samples_of_s : Z → Float → Z;
  zero : Float;
}.

Section silero.
Context {Float : Type} `{!ProbabilityArith Float}.

Definition neg_threshold_of (config : SileroVADConfig Float) : Float :=
  if is_negative (neg_threshold config) then default_neg (threshold config) else neg_threshold config.

(** * The whole recording *)

Record decode_state := {
  triggered : bool;
  speeches : list SileroSpeechTimestamp;
  current : SileroSpeechTimestamp;
  temp_end : Z;
  prev_end : Z;
  next_start : Z;
  possible_ends : list (Z * Z);
}.
#[local] Instance decode_settable : Settable decode_state := λ s,
  {| triggered := triggered s; speeches := speeches s; current := current s; temp_end := temp_end s;
     prev_end := prev_end s; next_start := next_start s; possible_ends := possible_ends s |}.

Definition no_speech : SileroSpeechTimestamp := {| start := 0; end_ := 0 |}.

Definition decode_init : decode_state :=
  {| triggered := false; speeches := []; current := no_speech; temp_end := 0; prev_end := 0; next_start := 0;
     possible_ends := [] |}.

(** [std::max_element] by the second component: the first of the largest. *)
Fixpoint max_element (best : Z * Z) (l : list (Z * Z)) : Z * Z :=
  match l with
  | [] => best
  | x :: l => max_element (if best.2 <? x.2 then x else best) l
  end.

(** [current.end = e; speeches.push_back(current); current = {}]. *)
Definition push_current (e : Z) (s : decode_state) : decode_state :=
  s <| speeches := speeches s ++ [{| start := start (current s); end_ := e |}] |> <| current := no_speech |>.

(** [prev_end = next_start = temp_end = 0; possible_ends.clear()]. *)
Definition clear_marks (s : decode_state) : decode_state :=
  s <| prev_end := 0 |> <| next_start := 0 |> <| temp_end := 0 |> <| possible_ends := [] |>.

Definition restart_at (at_sample : Z) (s : decode_state) : decode_state :=
  s <| current := {| start := at_sample; end_ := 0 |} |>.

(** Speech again after a silence. *)
Definition resume_speech (min_silence_samples_at_max_speech cur_sample : Z) (s : decode_state) : decode_state :=
  let sil_dur := cur_sample - temp_end s in
  let s := if min_silence_samples_at_max_speech <? sil_dur
           then s <| possible_ends := possible_ends s ++ [(temp_end s, sil_dur)] |> else s in
  let s := s <| temp_end := 0 |> in
  if next_start s <? prev_end s then s <| next_start := cur_sample |> else s.

(** Speech that has lasted too long is split; [true]: [continue]. *)
Definition split_speech (config : SileroVADConfig Float) (cur_sample : Z) (s : decode_state) : decode_state * bool :=
  match (if use_max_poss_sil_at_max_speech config then possible_ends s else []) with
  | e :: ends =>
      let best := max_element e ends in
      let s := push_current best.1 s <| prev_end := best.1 |> in
      let s := s <| next_start := best.1 + best.2 |> in
      let s := if next_start s <? prev_end s + cur_sample then restart_at (next_start s) s
               else s <| triggered := false |> in
      (clear_marks s, false)
  | [] =>
      if negb (prev_end s =? 0) then
        let s := push_current (prev_end s) s in
        let s := if next_start s <? prev_end s then s <| triggered := false |> else restart_at (next_start s) s in
        (clear_marks s, false)
      else (clear_marks (push_current cur_sample s) <| triggered := false |>, true)
  end.

(** Silence while speech is open. *)
Definition silence (config : SileroVADConfig Float)
    (min_speech_samples min_silence_samples min_silence_samples_at_max_speech cur_sample : Z) (s : decode_state) :
    decode_state :=
  let s := if temp_end s =? 0 then s <| temp_end := cur_sample |> else s in
  let sil_dur_now := cur_sample - temp_end s in
  let s := if negb (use_max_poss_sil_at_max_speech config) && (min_silence_samples_at_max_speech <? sil_dur_now)
           then s <| prev_end := temp_end s |> else s in
  if sil_dur_now <? min_silence_samples then s
  else
    let s := if min_speech_samples <? temp_end s - start (current s) then push_current (temp_end s) s
             else s <| current := no_speech |> in
    clear_marks s <| triggered := false |>.

(** One iteration of the loop over the probabilities. *)
Definition decode_step (config : SileroVADConfig Float)
    (min_speech_samples max_speech_samples min_silence_samples min_silence_samples_at_max_speech : Z)
    (cur_sample : Z) (speech_prob : Float) (s : decode_state) : decode_state :=
  let loud := at_least speech_prob (threshold config) in
  let s := if loud && negb (temp_end s =? 0) then resume_speech min_silence_samples_at_max_speech cur_sample s else s in
  if loud && negb (triggered s) then s <| triggered := true |> <| current := {| start := cur_sample; end_ := end_ (current s) |} |>
  else
    let '(s, stop) :=
      if triggered s && (max_speech_samples <? cur_sample - start (current s))
      then split_speech config cur_sample s else (s, false) in
    if stop : bool then s
    else if less speech_prob (neg_threshold_of config) && triggered s
    then silence config min_speech_samples min_silence_samples min_silence_samples_at_max_speech cur_sample s
    else s.

Fixpoint decode_loop (step : Z → Float → decode_state → decode_state) (i : nat) (probs : list Float) (s : decode_state) :
    decode_state :=
  match probs with
  | [] => s
  | p :: probs => decode_loop step (S i) probs (step (Z.of_nat (i * kChunkSamples)) p s)
  end.

(** The padding loop, from a segment whose start is final. *)
Fixpoint pad_loop (speech_pad_samples samples : Z) (speech : SileroSpeechTimestamp) (rest : list SileroSpeechTimestamp) :
    list SileroSpeechTimestamp :=
  match rest with
  | [] => [{| start := start speech; end_ := Z.min samples (end_ speech + speech_pad_samples) |}]
  | next :: rest =>
      let gap := start next - end_ speech in
      if gap <? 2 * speech_pad_samples
      then {| start := start speech; end_ := end_ speech + Z.quot gap 2 |} ::
           pad_loop speech_pad_samples samples
             {| start := Z.max 0 (start next - Z.quot gap 2); end_ := end_ next |} rest
      else {| start := start speech; end_ := Z.min samples (end_ speech + speech_pad_samples) |} ::
           pad_loop speech_pad_samples samples
             {| start := Z.max 0 (start next - speech_pad_samples); end_ := end_ next |} rest
  end.

Definition pad_speeches (speech_pad_samples samples : Z) (l : list SileroSpeechTimestamp) : list SileroSpeechTimestamp :=
  match l with
  | [] => []
  | first :: rest =>
      pad_loop speech_pad_samples samples
        {| start := Z.max 0 (start first - speech_pad_samples); end_ := end_ first |} rest
  end.

Definition max_speech_samples_of (sample_rate : Z) (config : SileroVADConfig Float) : Z :=
  samples_of_s sample_rate (max_speech_duration_s config) - Z.of_nat kChunkSamples -
  2 * samples_of_ms sample_rate (speech_pad_ms config).

Definition decode_speech_timestamps (probs : list Float) (samples sample_rate : Z) (config : SileroVADConfig Float) :
    list SileroSpeechTimestamp :=
  let min_speech_samples := samples_of_ms sample_rate (min_speech_duration_ms config) in
  let step := decode_step config min_speech_samples (max_speech_samples_of sample_rate config)
    (samples_of_ms sample_rate (min_silence_duration_ms config))
    (samples_of_ms sample_rate (min_silence_at_max_speech_ms config)) in
  let s := decode_loop step 0 probs decode_init in
  let s := if triggered s && (min_speech_samples <? samples - start (current s)) then push_current samples s else s in
  pad_speeches (samples_of_ms sample_rate (speech_pad_ms config)) samples (speeches s).

(** * Lemmas on the segmentation of a recording *)

(** Non-empty segments of at most [limit] samples, in order, apart, from [from]
    on. *)
Fixpoint well_spaced (limit from : Z) (l : list SileroSpeechTimestamp) : Prop :=
  match l with
  | [] => True
  | x :: l => from <= start x /\ start x < end_ x /\ end_ x - start x <= limit /\ well_spaced limit (end_ x) l
  end.

Definition last_end (l : list SileroSpeechTimestamp) : Z := from_option end_ 0 (last l).
#[local] Arguments last_end : simpl never.

Lemma well_spaced_snoc limit from l x :
  well_spaced limit from l → from_option end_ from (last l) <= start x → start x < end_ x → end_ x - start x <= limit →
  well_spaced limit from (l ++ [x]).
Proof.
  revert from. induction l as [|y l IH]; intros from; cbn [app well_spaced].
  { cbn. by intros _ ? ? ?. }
  intros (Hf & Hy & Hl & Hr) Hx ? ?. repeat split; [done..|]. apply IH; [done| |done|done].
  rewrite last_cons in Hx. by destruct (last l).
Qed.

Lemma last_end_snoc l x : last_end (l ++ [x]) = end_ x.
Proof. unfold last_end. by rewrite last_snoc. Qed.

Lemma max_element_in e l : In (max_element e l) (e :: l).
Proof.
  revert e. induction l as [|x l IH]; intros e; cbn [max_element]; [by left|].
  destruct (IH (if e.2 <? x.2 then x else e)) as [<-|H]; [case_bool; cbn; auto|]. right. by right.
Qed.

Section decoding.
Context (config : SileroVADConfig Float) (min_speech max_speech min_silence min_at_max : Z).
Context (Hmax : 0 <= max_speech).
Context (Hapart : ∀ p, at_least p (threshold config) = true → less p (neg_threshold_of config) = false).

(** Before the chunk at [c]; marks of resumed speech are at most [u]. *)
Record spoken (u c : Z) (s : decode_state) : Prop := {
  spoken_spaced : well_spaced (max_speech + 512) 0 (speeches s);
  spoken_quiet : triggered s = false → last_end (speeches s) <= Z.max 0 (c - 512) /\ temp_end s = 0 /\ prev_end s = 0 /\ possible_ends s = [];
  spoken_open : triggered s = true →
    last_end (speeches s) <= start (current s) /\ start (current s) <= u /\ c - 512 - start (current s) <= max_speech;
  spoken_floor : 0 <= last_end (speeches s);
  spoken_temp : temp_end s <> 0 → start (current s) + 512 <= temp_end s <= c - 512 /\ next_start s < temp_end s;
  spoken_prev : prev_end s <> 0 →
    start (current s) + 512 <= prev_end s <= c - 512 /\ (next_start s < prev_end s \/ prev_end s + 512 <= next_start s <= u);
  spoken_no_prev : prev_end s = 0 → next_start s = 0;
  spoken_ends e : In e (possible_ends s) → start (current s) + 512 <= e.1 /\ 512 <= e.2 /\ e.1 + e.2 <= u;
}.

Lemma spoken_mono u c u' c' s :
  u <= u' → c <= c' → spoken u c s → (triggered s = true → c' - 512 - start (current s) <= max_speech) → spoken u' c' s.
Proof.
  intros Hu Hc [Hs Hq Ho Hfl Htmp Hp Hnp He] Hlong. constructor; try done; try lia.
  - intros H. destruct (Hq H) as (? & ? & ? & ?). repeat split; try done. lia.
  - intros H. destruct (Ho H) as (? & ? & ?). specialize (Hlong H). lia.
  - intros e Hin. specialize (He e Hin). lia.
Qed.

Lemma resume_speech_spoken c s : triggered s = true → temp_end s <> 0 → spoken (c - 512) c s → spoken c c (resume_speech min_at_max c s).
Proof.
  intros Ht Hte [Hs Hq Ho Hfl Htmp Hp Hnp He]. destruct (Ho Ht) as (Ho1 & Ho2 & Ho3). specialize (Htmp Hte).
  unfold resume_speech. cbv zeta.
  assert (∀ ends, (∀ e, In e ends → start (current s) + 512 <= e.1 /\ 512 <= e.2 /\ e.1 + e.2 <= c) →
    spoken c c (let s := s <| possible_ends := ends |> <| temp_end := 0 |> in
                if next_start s <? prev_end s then s <| next_start := c |> else s)) as Hgo.
  { intros ends Hends. cbn. destruct (next_start s <? prev_end s) eqn:E; constructor; cbn; try done; try congruence.
    all: lia. }
  destruct (min_at_max <? c - temp_end s).
  - apply (Hgo (possible_ends s ++ [(temp_end s, c - temp_end s)])). intros e [H|[<-|[]]]%in_app_or; cbn; [|lia].
    specialize (He e H). lia.
  - replace (s <| temp_end := 0 |>) with (s <| possible_ends := possible_ends s |> <| temp_end := 0 |>) by done.
    apply Hgo. intros e H. specialize (He e H). lia.
Qed.

Lemma push_spoken u c e s :
  spoken u c s → triggered s = true → start (current s) < e → e - start (current s) <= max_speech + 512 →
  well_spaced (max_speech + 512) 0 (speeches (push_current e s)) /\ last_end (speeches (push_current e s)) = e /\
  0 <= start (current s).
Proof.
  intros [Hs _ Ho Hfl _ _ _ _] Ht He Hl. destruct (Ho Ht) as (Ho1 & _). unfold push_current. cbn.
  rewrite last_end_snoc. split; [by apply well_spaced_snoc|]. cbn. lia.
Qed.

(** Nothing is marked. *)
Lemma clear_spoken u c s :
  well_spaced (max_speech + 512) 0 (speeches s) → 0 <= last_end (speeches s) →
  (triggered s = false → last_end (speeches s) <= c - 512) →
  (triggered s = true → last_end (speeches s) <= start (current s) /\ start (current s) <= u /\
                        c - 512 - start (current s) <= max_speech) →
  spoken u c (clear_marks s).
Proof.
  intros ? ? Hl ?. unfold clear_marks. constructor; cbn; try done. intros H'. specialize (Hl H'). split; [lia|done].
Qed.

(** After a split, the open speech is short enough again. *)
Lemma split_speech_spoken u c s s' stop :
  u <= c → spoken u c s → triggered s = true → max_speech < c - start (current s) → split_speech config c s = (s', stop) →
  (stop = true → spoken u (c + 512) s' /\ triggered s' = false) /\
  (stop = false → spoken u c s' /\ (triggered s' = true → c - start (current s') <= max_speech)).
Proof.
  intros Hu Hi Ht Hlong. pose proof Hi as [_ _ Ho _ _ Hp Hnp He]. destruct (Ho Ht) as (Ho1 & Ho2 & Ho3). unfold split_speech.
  destruct (if use_max_poss_sil_at_max_speech config then possible_ends s else []) as [|e ends] eqn:E.
  - destruct (prev_end s =? 0) eqn:Ep; cbn [negb].
    + intros [= <- <-]. split; [|done]. intros _.
      destruct (push_spoken u c c s Hi Ht) as (Hs & Hl & H0); [lia|lia|]. split; [|done].
      change (spoken u (c + 512) (clear_marks (push_current c s <| triggered := false |>))).
      apply clear_spoken; [exact Hs|cbn in *; lia..].
    + apply Z.eqb_neq in Ep. destruct (Hp Ep) as [Hp1 Hp2]. cbv zeta.
      destruct (push_spoken u c (prev_end s) s Hi Ht) as (Hs & Hl & H0); [lia|lia|].
      assert (∀ s2, speeches s2 = speeches (push_current (prev_end s) s) → 
        (triggered s2 = true → prev_end s + 512 <= start (current s2) <= u) →
        spoken u c (clear_marks s2) /\ (triggered (clear_marks s2) = true → c - start (current (clear_marks s2)) <= max_speech)) as Hgo.
      { intros s2 Hs2 Hs3. split; [|intros H; specialize (Hs3 H); cbn; lia].
        apply clear_spoken; rewrite ?Hs2, ?Hl; [done|lia|lia|]. intros H; specialize (Hs3 H); lia. }
      destruct (next_start _ <? prev_end _) eqn:En; cbn in En; intros [= <- <-]; (split; [done|intros _]); apply Hgo; try done.
      intros _. cbn. lia.
  - assert (∀ b, In b (e :: ends) → start (current s) + 512 <= b.1 /\ 512 <= b.2 /\ b.1 + b.2 <= u) as Hends.
    { destruct (use_max_poss_sil_at_max_speech config); [|done]. intros b Hb. apply He. by rewrite E. }
    pose proof (Hends _ (max_element_in e ends)) as Hb. set (b := max_element e ends) in *. cbv zeta.
    destruct (push_spoken u c b.1 s Hi Ht) as (Hs & Hl & H0); [lia|lia|].
    match goal with |- context [if ?t then _ else _] => destruct t end; intros [= <- <-]; (split; [done|intros _]).
    + split; [|cbn; lia]. apply clear_spoken; [exact Hs|cbn in *; lia..].
    + split; [|done]. apply clear_spoken; [exact Hs|cbn in *; lia..].
Qed.

Lemma silence_spoken c s :
  spoken (c - 512) c s → triggered s = true → c - start (current s) <= max_speech →
  spoken c (c + 512) (silence config min_speech min_silence min_at_max c s).
Proof.
  intros Hi Ht Hc. pose proof Hi as [Hs _ Ho Hfl Htmp Hp Hnp He]. destruct (Ho Ht) as (Ho1 & Ho2 & Ho3). unfold silence. cbv zeta.
  set (s1 := if temp_end s =? 0 then s <| temp_end := c |> else s).
  assert (speeches s1 = speeches s /\ current s1 = current s /\ triggered s1 = true /\ prev_end s1 = prev_end s /\
    next_start s1 = next_start s /\ possible_ends s1 = possible_ends s /\
    start (current s) + 512 <= temp_end s1 <= c /\ next_start s < temp_end s1) as (E1 & E2 & E3 & E4 & E5 & E6 & Ht1).
  { subst s1. destruct (temp_end s =? 0) eqn:E; cbn; repeat split; try done; try lia. }
  set (s2 := if _ && _ then _ else s1).
  assert (speeches s2 = speeches s /\ current s2 = current s /\ triggered s2 = true /\ temp_end s2 = temp_end s1 /\
    next_start s2 = next_start s /\ possible_ends s2 = possible_ends s /\ (prev_end s2 = prev_end s \/ prev_end s2 = temp_end s1))
    as (F1 & F2 & F3 & F4 & F5 & F6 & F7).
  { subst s2. case_bool; cbn; repeat split; try done; auto. }
  destruct (c - temp_end s1 <? min_silence).
  - constructor; rewrite ?F1, ?F2, ?F3, ?F4, ?F5, ?F6; try done; try lia.
    intros e Hin. specialize (He e Hin). lia.
  - match goal with |- context [if ?t then _ else _] => destruct t end.
    + destruct (push_spoken (c - 512) c (temp_end s2) s Hi Ht) as (Hs' & Hl & _); [lia|lia|].
      match goal with |- spoken _ _ ?s' => change s' with (clear_marks (push_current (temp_end s2) s2 <| triggered := false |>)) end.
      assert (speeches (push_current (temp_end s2) s2 <| triggered := false |>) = speeches (push_current (temp_end s2) s)) as Es.
      { unfold push_current. cbn. by rewrite F1, F2. }
      apply clear_spoken; rewrite ?Es, ?Hl; [done|lia|lia|done].
    + match goal with |- spoken _ _ ?s' => change s' with (clear_marks (s2 <| current := no_speech |> <| triggered := false |>)) end.
      apply clear_spoken; cbn; rewrite ?F1; [done|done| |done]. lia.
Qed.

Lemma decode_step_spoken c p s :
  0 <= c → spoken (c - 512) c s →
  spoken c (c + 512) (decode_step config min_speech max_speech min_silence min_at_max c p s).
Proof.
  intros Hc0 Hi. unfold decode_step. cbv zeta. set (loud := at_least p (threshold config)).
  set (s1 := if loud && _ then _ else s).
  assert (spoken (if loud then c else c - 512) c s1 /\ (loud = false → s1 = s)) as [Hi1 Hs1].
  { subst s1. destruct loud eqn:El; cbn [andb]; [|by split]. split; [|done].
    destruct (temp_end s =? 0) eqn:Et; cbn [negb].
    - apply (spoken_mono (c - 512) c); [lia|lia|done|]. intros H. destruct Hi as [_ _ Ho]. destruct (Ho H) as (_ & _ & ?). done.
    - apply Z.eqb_neq in Et. apply resume_speech_spoken; [|done|done].
      destruct (triggered s) eqn:E; [done|]. destruct Hi as [_ Hq]. destruct (Hq E) as (_ & ? & _). congruence. }
  clearbody s1. destruct (loud && negb (triggered s1)) eqn:Est.
  - apply andb_true_iff in Est as [El Et]. rewrite El in Hi1. apply negb_true_iff in Et.
    destruct Hi1 as [Hs Hq Ho Hfl Htmp Hp Hnp He]. destruct (Hq Et) as (? & Q1 & Q2 & Q3).
    constructor; cbn; rewrite ?Q1, ?Q2, ?Q3; try done; try lia.
  - assert (∀ s2 stop,
      (if triggered s1 && (max_speech <? c - start (current s1)) then split_speech config c s1 else (s1, false)) = (s2, stop) →
      (stop = true → spoken c (c + 512) s2) /\
      (stop = false → spoken (if loud then c else c - 512) c s2 /\ (triggered s2 = true → c - start (current s2) <= max_speech)))
      as Hsplit.
    { intros s2 stop. destruct (triggered s1) eqn:Et; cbn [andb].
      - destruct (max_speech <? c - start (current s1)) eqn:Em.
        + intros Hsp. destruct (split_speech_spoken (if loud then c else c - 512) c s1 s2 stop) as [H1 H2]; [destruct loud; lia|done|done|lia|done|].
          split; [|done]. intros H. destruct (H1 H) as [Hx Hy].
          apply (spoken_mono (if loud then c else c - 512) (c + 512)); [destruct loud; lia|lia|done|by rewrite Hy].
        + intros [= <- <-]. split; [done|]. intros _. split; [done|]. lia.
      - intros [= <- <-]. split; [done|]. intros _. split; [done|]. by rewrite Et. }
    match goal with |- context [let '(_, _) := ?x in _] => destruct x as [s2 stop] eqn:E2 end.
    destruct (Hsplit s2 stop eq_refl) as [H1 H2]. destruct stop; [by apply H1|]. destruct (H2 eq_refl) as [Hi2 Hc2].
    destruct (less p (neg_threshold_of config) && triggered s2) eqn:El.
    + apply andb_true_iff in El as [El Et]. destruct loud eqn:Elo; [subst loud; rewrite Hapart in El by done; done|].
      apply silence_spoken; auto.
    + apply (spoken_mono (if loud then c else c - 512) c); [destruct loud; lia|lia|done|]. intros H. specialize (Hc2 H). lia.
Qed.

Lemma decode_loop_spoken i probs s :
  spoken (Z.of_nat (i * kChunkSamples) - 512) (Z.of_nat (i * kChunkSamples)) s →
  spoken (Z.of_nat ((i + length probs) * kChunkSamples) - 512) (Z.of_nat ((i + length probs) * kChunkSamples))
    (decode_loop (decode_step config min_speech max_speech min_silence min_at_max) i probs s).
Proof.
  revert i s. induction probs as [|p probs IH]; intros i s Hi; cbn [decode_loop length]; [by rewrite Nat.add_0_r|].
  rewrite <- Nat.add_succ_comm. apply IH.
  replace (Z.of_nat (S i * kChunkSamples)) with (Z.of_nat (i * kChunkSamples) + 512) by (unfold kChunkSamples; lia).
  rewrite Z.add_simpl_r. apply decode_step_spoken; [lia|done].
Qed.

Lemma decoded_speeches probs samples :
  samples <= Z.of_nat (length probs * kChunkSamples) < samples + 512 →
  let s := decode_loop (decode_step config min_speech max_speech min_silence min_at_max) 0 probs decode_init in
  let s := if triggered s && (min_speech <? samples - start (current s)) then push_current samples s else s in
  well_spaced (max_speech + 512) 0 (speeches s) /\ last_end (speeches s) <= Z.max 0 samples.
Proof.
  intros Hn. cbv zeta.
  pose proof (decode_loop_spoken 0 probs decode_init) as Hi. cbn [Nat.add] in Hi.
  set (s := decode_loop _ _ _ _) in *. set (c := Z.of_nat (length probs * kChunkSamples)) in *.
  assert (spoken (c - 512) c s) as Hs by (apply Hi; by constructor). clear Hi.
  destruct (triggered s) eqn:Et; cbn [andb].
  - destruct (spoken_open _ _ _ Hs Et) as (Ho1 & Ho2 & Ho3). case_bool.
    + destruct (push_spoken (c - 512) c samples s Hs Et) as (H1 & H2 & _); [lia|lia|]. split; [done|]. rewrite H2. lia.
    + destruct Hs. split; [done|]. lia.
  - split; [by destruct Hs|]. destruct (spoken_quiet _ _ _ Hs Et) as (? & _). lia.
Qed.
End decoding.

Lemma last_end_le limit from l x :
  well_spaced limit from l → In x l → end_ x <= last_end l.
Proof.
  revert from x. induction l as [|y l IH]; intros from x; [done|]. cbn [well_spaced]. intros (_ & Hy & _ & Hr).
  unfold last_end in *. rewrite last_cons. intros [<-|Hin].
  - destruct l as [|z l]; [done|]. assert (end_ z <= from_option end_ 0 (last (z :: l))) by (eapply IH; [done|by left]).
    destruct Hr as (? & ? & _). destruct (last (z :: l)); cbn in *; lia.
  - specialize (IH _ _ Hr Hin). destruct (last l) eqn:E; [done|]. apply last_None in E. by subst.
Qed.

Lemma pad_loop_spaced limit pad samples from speech rest :
  0 <= pad → from <= start speech → start speech < end_ speech → end_ speech - start speech <= limit + pad →
  well_spaced limit (end_ speech) rest → (∀ x, In x (speech :: rest) → end_ x <= samples) → 0 <= start speech →
  well_spaced (limit + 2 * pad) from (pad_loop pad samples speech rest) /\
  (∀ x, In x (pad_loop pad samples speech rest) → end_ x <= samples).
Proof.
  intros Hpad. revert from speech. induction rest as [|next rest IH]; intros from speech Hf Hlt Hl Hr Hs H0.
  - specialize (Hs speech (or_introl eq_refl)). cbn. split; [lia|]. intros x [<-|[]]. cbn. lia.
  - destruct Hr as (Hn1 & Hn2 & Hn3 & Hn4). pose proof (Hs speech (or_introl eq_refl)) as Hs1.
    pose proof (Hs next (or_intror (or_introl eq_refl))) as Hs2. cbn [pad_loop]. cbv zeta.
    assert (0 <= Z.quot (start next - end_ speech) 2 /\ 2 * Z.quot (start next - end_ speech) 2 <= start next - end_ speech) as Hq.
    { rewrite Z.quot_div_nonneg by lia. Z.div_mod_to_equations. lia. }
    set (half := Z.quot _ 2) in *.
    assert (∀ e st, end_ speech <= e <= samples → e - end_ speech <= pad → e <= st → 0 <= st → st <= start next → start next - st <= pad →
      well_spaced (limit + 2 * pad) from ({| start := start speech; end_ := e |} :: pad_loop pad samples {| start := st; end_ := end_ next |} rest) /\
      (∀ x, In x ({| start := start speech; end_ := e |} :: pad_loop pad samples {| start := st; end_ := end_ next |} rest) → end_ x <= samples))
      as Hgo.
    { intros e st He1 He2 He3 Hst1 Hst2 Hst3. cbn [well_spaced start end_ In].
      destruct (IH e {| start := st; end_ := end_ next |}) as [IH1 IH2]; cbn [start end_]; try lia; try done.
      - intros x [<-|Hx]; [done|]. apply Hs. by right; right.
      - split; [repeat split; try done; lia|]. intros x [<-|Hx]; [cbn; lia|by apply IH2]. }
    case_bool; apply Hgo; lia.
Qed.

Lemma pad_speeches_spaced limit pad samples l :
  0 <= pad → well_spaced limit 0 l → (∀ x, In x l → end_ x <= samples) →
  well_spaced (limit + 2 * pad) 0 (pad_speeches pad samples l) /\
  (∀ x, In x (pad_speeches pad samples l) → end_ x <= samples).
Proof.
  intros Hpad Hl Hs. destruct l as [|first rest]; [done|]. destruct Hl as (H1 & H2 & H3 & H4). cbn [pad_speeches].
  apply pad_loop_spaced; cbn [start end_]; try done; try lia.
  intros x [<-|Hx]; cbn; [|apply Hs; by right]. apply Hs. by left.
Qed.

(** Segmenting a whole recording, whatever the probabilities: the speech
    segments returned are not empty, lie inside the recording, follow one another
    without overlap, padding included, and none of them is longer than the
    configured maximum, provided the two thresholds do not overlap, the padding is
    not negative and the maximum leaves room for a window and the padding. *)
Theorem timestamps_well_formed (probs : list Float) samples sample_rate (config : SileroVADConfig Float) :
  samples <= Z.of_nat (length probs * kChunkSamples) < samples + 512 → 0 <= samples →
  0 <= samples_of_ms sample_rate (speech_pad_ms config) → 0 <= max_speech_samples_of sample_rate config →
  (∀ p, at_least p (threshold config) = true → less p (neg_threshold_of config) = false) →
  let l := decode_speech_timestamps probs samples sample_rate config in
  well_spaced (samples_of_s sample_rate (max_speech_duration_s config)) 0 l /\ (∀ x, In x l → end_ x <= samples).
Proof.
  intros Hn H0 Hpad Hmax Hapart. unfold decode_speech_timestamps.
  destruct (decoded_speeches config (samples_of_ms sample_rate (min_speech_duration_ms config))
    (max_speech_samples_of sample_rate config) (samples_of_ms sample_rate (min_silence_duration_ms config))
    (samples_of_ms sample_rate (min_silence_at_max_speech_ms config)) Hmax Hapart probs samples Hn) as [Hs Hl].
  set (s := if _ && _ then _ else _) in *. cbv zeta.
  destruct (pad_speeches_spaced (max_speech_samples_of sample_rate config + 512)
    (samples_of_ms sample_rate (speech_pad_ms config)) samples (speeches s)) as [H1 H2]; [done|done| |].
  - intros x Hx. pose proof (last_end_le _ _ _ _ Hs Hx). lia.
  - split; [|done]. replace (samples_of_s _ _) with (max_speech_samples_of sample_rate config + 512 +
      2 * samples_of_ms sample_rate (speech_pad_ms config)); [done|]. unfold max_speech_samples_of, kChunkSamples. lia.
Qed.
End silero.

(** * Percentages *)

Module Percent.

#[export] Instance percent : ProbabilityArith Z := {
  at_least p t := t <=? p; less p t := p <? t; is_negative t := t <? 0; default_neg t := Z.max (t - 15) 1;
  samples_of_s rate s := rate * s; zero := 0 }.

(** The defaults of the source, with speech of at most [max_s] seconds. *)
Definition config (max_s : Z) : SileroVADConfig Z :=
  {| threshold := 50; min_speech_duration_ms := 250; min_silence_duration_ms := 100; speech_pad_ms := 30;
     max_speech_duration_s := max_s; neg_threshold := -1; min_silence_at_max_speech_ms := 98;
     use_max_poss_sil_at_max_speech := true |}.

(** Two utterances, and one too short to count; speech of more than a second is
    split at the longest silence in it. *)
Definition talk : list Z := repeat 90 12 ++ repeat 5 8 ++ repeat 80 3 ++ repeat 5 8 ++ repeat 90 20.
Definition speech : list Z := repeat 90 15 ++ repeat 5 4 ++ repeat 90 15 ++ repeat 5 6 ++ repeat 90 60.

Example talk_segments :
  decode_speech_timestamps talk 26000 16000 (config 30) = [{| start := 0; end_ := 6624 |}; {| start := 15392; end_ := 26000 |}].
Proof. reflexivity. Qed.

Lemma timestamps_well_formed_witness :
  let l := decode_speech_timestamps speech 51000 16000 (config 1) in
  map (λ x, (start x, end_ x)) l = [(0, 8160); (9248, 17888); (20000, 35584); (35584, 51000)] /\
  well_spaced (samples_of_s 16000 1) 0 l /\ (∀ x, In x l → end_ x <= 51000).
Proof.
  cbv zeta. split; [vm_compute; reflexivity|].
  apply (timestamps_well_formed speech 51000 16000 (config 1)).
  - vm_compute. split; [discriminate|reflexivity].
  - lia.
  - vm_compute. discriminate.
  - vm_compute. discriminate.
  - intros p. cbn. lia.
Defined.
End Percent.
