(* ===== verification/SileroRuntime.v ===== *)
(** The voice-activity network over windows, the segmentation of a stream and the
    session that offers both (models/silero_vad/runtime.cpp, session.cpp). *)

From S2P Require Import Prelude AudioStream SileroVad.

Local Open Scope Z_scope.

Definition kHiddenSize : nat := 128.

Inductive RunMode := Offline | Streaming.

#[export] Instance RunMode_eq_dec : EqDecision RunMode.
Proof. solve_decision. Defined.

(** A step that always succeeds. *)
Definition io_step {S A} (f : S → A * S) : io S A := λ s, let '(a, s) := f s in (Ok a, s).

Section runtime.
Context {Float : Type} `{!ProbabilityArith Float}.

(** The network: the input window and the recurrent state to the probability and
    the next recurrent state. *)
Context (compute : list Float → list Float → list Float → Float * list Float * list Float).
Context (mixdown_interleaved_to_mono_average : list Float → Z → outcome (list Float)).

Record SileroRuntime := {
  hidden_ : list Float;
  cell_ : list Float;
  context_ : list Float;
  last_batch_size_ : Z;
  last_sample_rate_ : Z;
  triggered_ : bool;
  temp_end_ : Z;
  current_sample_ : Z;
  current_speech_start_ : Z;
  streamed_segments_ : list SileroSpeechTimestamp;
}.
#[local] Instance runtime_settable : Settable SileroRuntime := λ r,
  {| hidden_ := hidden_ r; cell_ := cell_ r; context_ := context_ r; last_batch_size_ := last_batch_size_ r;
     last_sample_rate_ := last_sample_rate_ r; triggered_ := triggered_ r; temp_end_ := temp_end_ r;
     current_sample_ := current_sample_ r; current_speech_start_ := current_speech_start_ r;
     streamed_segments_ := streamed_segments_ r |}.

Notation run A := (io SileroRuntime A).

(** * The network over windows, for a batch of one *)

Definition reset_states (r : SileroRuntime) : SileroRuntime :=
  r <| hidden_ := replicate kHiddenSize zero |> <| cell_ := replicate kHiddenSize zero |>
    <| context_ := replicate kContextSamples zero |> <| last_batch_size_ := 1 |> <| last_sample_rate_ := 0 |>.

Definition reset (r : SileroRuntime) : SileroRuntime :=
  reset_states r <| triggered_ := false |> <| temp_end_ := 0 |> <| current_sample_ := 0 |>
    <| current_speech_start_ := 0 |> <| streamed_segments_ := [] |>.

Definition ensure_state (sample_rate : Z) : run () :=
  if negb (sample_rate =? kSampleRate)
  then io_lift (Throw (str "Silero VAD 16k model only supports sample_rate=16000"))
  else
    io_modify (λ r,
      let r := if negb (last_batch_size_ r =? 1) || negb (last_sample_rate_ r =? sample_rate) || is_nil (hidden_ r)
               then reset_states r else r in
      r <| last_sample_rate_ := sample_rate |>).

Definition infer (chunk : list Float) (r : SileroRuntime) : Float * SileroRuntime :=
  let '(probability, hidden, cell) := compute (context_ r ++ chunk) (hidden_ r) (cell_ r) in
  (probability, r <| hidden_ := hidden |> <| cell_ := cell |>
                  <| context_ := drop (kChunkSamples - kContextSamples) chunk |>).

Definition infer_chunk (chunk : list Float) (sample_rate : Z) : run Float :=
  if negb (length chunk =? kChunkSamples)%nat
  then io_lift (Throw (str "Silero VAD chunk input size mismatch"))
  else
    ensure_state sample_rate;;
    io_step (infer chunk).

(** The chunk loop of [audio_forward], over the padded waveform. *)
Fixpoint forward_loop (chunks : nat) (padded : list Float) (sample_rate : Z) : run (list Float) :=
  match chunks with
  | O => mret []
  | S chunks =>
      probability ← infer_chunk (take kChunkSamples padded) sample_rate;
      probabilities ← forward_loop chunks (drop kChunkSamples padded) sample_rate;
      mret (probability :: probabilities)
  end.

Definition audio_forward (waveform : list Float) (sample_rate : Z) : run (list Float) :=
  if negb (sample_rate =? kSampleRate)
  then io_lift (Throw (str "Silero VAD 16k model only supports sample_rate=16000"))
  else
    io_modify (λ r, reset_states r <| last_sample_rate_ := sample_rate |>);;
    let chunks := ((length waveform + kChunkSamples - 1) / kChunkSamples)%nat in
    forward_loop chunks (waveform ++ replicate (chunks * kChunkSamples - length waveform) zero) sample_rate.

Definition require_mono_audio (audio : @AudioBuffer Float) (context : bytes) : outcome (list Float) :=
  if buffer_rate audio <=? 0 then Throw (context ++ str " requires a positive sample rate")
  else if buffer_channels audio <=? 0 then Throw (context ++ str " requires a positive channel count")
  else if buffer_channels audio =? 1 then Ok (buffer_samples audio)
  else mixdown_interleaved_to_mono_average (buffer_samples audio) (buffer_channels audio).

(** [run_offline] and [build_offline_result]: the segments, of confidence 1. *)
Definition run_offline (audio : @AudioBuffer Float) (config : SileroVADConfig Float) : run (list SileroSpeechTimestamp) :=
  mono ← io_lift (require_mono_audio audio (str "Silero VAD offline run"));
  probabilities ← audio_forward mono (buffer_rate audio);
  mret (decode_speech_timestamps probabilities (Z.of_nat (length mono)) (buffer_rate audio) config).

(** * The stream *)

Definition event_of (activity : list (VoiceActivityEvent Float)) : @StreamEvent (VoiceActivityEvent Float) :=
  {| voice_activity := activity; partial_text := None; audio_output := None; named_audio_outputs := [];
     speaker_turns := []; word_timestamps := []; output_artifacts := []; is_final := false |}.

Definition build_stream_event (p : Float) (config : SileroVADConfig Float) (chunk_start_sample : Z) (r : SileroRuntime) :
    list (VoiceActivityEvent Float) * SileroRuntime :=
  let window_size := Z.of_nat kChunkSamples in
  let speech_pad_samples := samples_of_ms kSampleRate (speech_pad_ms config) in
  let min_silence_samples := samples_of_ms kSampleRate (min_silence_duration_ms config) in
  let r := if at_least p (threshold config) && negb (temp_end_ r =? 0) then r <| temp_end_ := 0 |> else r in
  if at_least p (threshold config) && negb (triggered_ r) then
    let speech_start := Z.max 0 (chunk_start_sample - speech_pad_samples) in
    ([{| kind := SpeechStart; sample := speech_start; probability := p; segment := None |}],
     r <| triggered_ := true |> <| current_speech_start_ := speech_start |>)
  else if less p (neg_threshold_of config) && triggered_ r then
    let r := if temp_end_ r =? 0 then r <| temp_end_ := chunk_start_sample + window_size |> else r in
    if chunk_start_sample + window_size - temp_end_ r <? min_silence_samples then ([], r)
    else
      let speech_end := temp_end_ r + speech_pad_samples - window_size in
      let s := {| start := current_speech_start_ r; end_ := Z.max (current_speech_start_ r) speech_end |} in
      ([{| kind := SpeechEnd; sample := speech_end; probability := p; segment := Some (s, p) |}],
       r <| triggered_ := false |> <| temp_end_ := 0 |> <| current_speech_start_ := 0 |>
         <| streamed_segments_ := streamed_segments_ r ++ [s] |>)
  else ([], r).

Definition process_chunk (chunk : @AudioChunk Float) (config : SileroVADConfig Float) : run (list (VoiceActivityEvent Float)) :=
  if negb (chunk_channels chunk =? 1) then io_lift (Throw (str "Silero VAD streaming currently requires mono audio"))
  else if chunk_sample_rate chunk <=? 0
  then io_lift (Throw (str "Silero VAD streaming requires a positive sample rate"))
  else if negb (length (samples chunk) =? kChunkSamples)%nat
  then io_lift (Throw (str "Silero VAD streaming chunk must contain exactly 512 samples"))
  else
    r ← io_get;
    if negb (current_sample_ r =? 0) && negb (start_sample chunk =? current_sample_ r)
    then io_lift (Throw (str "Silero VAD streaming chunks must be contiguous"))
    else
      p ← infer_chunk (samples chunk) (chunk_sample_rate chunk);
      events ← io_step (build_stream_event p config (start_sample chunk));
      io_modify (λ r, r <| current_sample_ := start_sample chunk + Z.of_nat (length (samples chunk)) |>);;
      mret events.

Definition finalize_stream (config : SileroVADConfig Float) (r : SileroRuntime) : list (SileroSpeechTimestamp * Float) :=
  map (λ s, (s, threshold config)) (streamed_segments_ r) ++
  (if triggered_ r && (samples_of_ms kSampleRate (min_speech_duration_ms config) <? current_sample_ r - current_speech_start_ r)
   then [({| start := current_speech_start_ r; end_ := current_sample_ r |}, threshold config)] else []).

(** * The session *)

Record SileroVADSession := {
  prepared_ : bool; mode : RunMode; default_config_ : SileroVADConfig Float; runtime_ : SileroRuntime
}.

Definition require_prepared (operation : bytes) : io SileroVADSession () := λ s,
  if prepared_ s then (Ok tt, s)
  else (Throw (str "session prepare() must be called before " ++ operation), s).

Definition in_runtime {A} (m : run A) : io SileroVADSession A := λ s,
  let '(a, r) := m (runtime_ s) in
  (a, {| prepared_ := prepared_ s; mode := mode s; default_config_ := default_config_ s; runtime_ := r |}).

(** The rate of the request's audio, if it names one. *)
Definition session_prepare (audio_rate : option Z) : io SileroVADSession () :=
  let sample_rate := match audio_rate with Some rate => if 0 <? rate then rate else 16000 | None => 16000 end in
  in_runtime (ensure_state sample_rate);;
  io_modify (λ s, {| prepared_ := true; mode := mode s; default_config_ := default_config_ s; runtime_ := runtime_ s |}).

Definition session_run (audio_input : option (@AudioBuffer Float)) (config : SileroVADConfig Float) :
    io SileroVADSession (list SileroSpeechTimestamp) :=
  require_prepared (str "Silero VAD run()");;
  s ← io_get;
  if bool_decide (mode s ≠ Offline) then io_lift (Throw (str "Silero VAD offline run called on non-offline session"))
  else match audio_input with
       | None => io_lift (Throw (str "Silero VAD offline run requires audio_input"))
       | Some audio => in_runtime (run_offline audio config)
       end.

Definition session_reset : io SileroVADSession () :=
  require_prepared (str "Silero VAD reset()");;
  in_runtime (io_modify reset).

Definition process_audio_chunk (chunk : @AudioChunk Float) : io SileroVADSession (@StreamEvent (VoiceActivityEvent Float)) :=
  require_prepared (str "Silero VAD process_audio_chunk()");;
  s ← io_get;
  if bool_decide (mode s ≠ Streaming)
  then io_lift (Throw (str "Silero VAD process_audio_chunk called on non-streaming session"))
  else
    events ← in_runtime (process_chunk chunk (default_config_ s));
    mret (event_of events).

Definition finalize : io SileroVADSession (list (SileroSpeechTimestamp * Float)) :=
  require_prepared (str "Silero VAD finalize()");;
  s ← io_get;
  if bool_decide (mode s ≠ Streaming) then io_lift (Throw (str "Silero VAD finalize called on non-streaming session"))
  else mret (finalize_stream (default_config_ s) (runtime_ s)).

(** The chunks of a stream one after the other: the events of each. *)
Fixpoint process_chunks (config : SileroVADConfig Float) (chunks : list (@AudioChunk Float)) :
    run (list (list (VoiceActivityEvent Float))) :=
  match chunks with
  | [] => mret []
  | chunk :: chunks =>
      events ← process_chunk chunk config;
      rest ← process_chunks config chunks;
      mret (events :: rest)
  end.

(** [n] contiguous windows. *)
Fixpoint windows (n : nat) (at_sample : Z) (waveform : list Float) : list (@AudioChunk Float) :=
  match n with
  | O => []
  | S n =>
      {| chunk_sample_rate := kSampleRate; chunk_channels := 1; start_sample := at_sample;
         samples := take kChunkSamples waveform |} ::
      windows n (at_sample + 512) (drop kChunkSamples waveform)
  end.

(** * Lemmas *)

Definition ensured (r : SileroRuntime) : SileroRuntime :=
  (if negb (last_batch_size_ r =? 1) || negb (last_sample_rate_ r =? kSampleRate) || is_nil (hidden_ r)
   then reset_states r else r) <| last_sample_rate_ := kSampleRate |>.

(** The network's part of the state, and the segmentation's. *)
Definition network (r : SileroRuntime) := (hidden_ r, cell_ r, context_ r, last_batch_size_ r, last_sample_rate_ r).
Definition segmentation (r : SileroRuntime) :=
  (triggered_ r, temp_end_ r, current_sample_ r, current_speech_start_ r, streamed_segments_ r).

Lemma ensured_network r r2 : network r = network r2 → network (ensured r) = network (ensured r2).
Proof.
  unfold network, ensured. intros [= H1 H2 H3 H4 H5]. rewrite H1, H4, H5.
  destruct (_ || _); cbn; congruence.
Qed.

Lemma ensured_segmentation r : segmentation (ensured r) = segmentation r.
Proof. unfold segmentation, ensured. by destruct (_ || _). Qed.

Lemma ensured_fresh r r2 : network (ensured (reset r)) = network (ensured (reset_states r2 <| last_sample_rate_ := kSampleRate |>)).
Proof. reflexivity. Qed.

Lemma infer_chunk_ok chunk r :
  length chunk = kChunkSamples → infer_chunk chunk kSampleRate r = (Ok (infer chunk (ensured r)).1, (infer chunk (ensured r)).2).
Proof.
  intros Hl. unfold infer_chunk. rewrite Hl, Nat.eqb_refl. cbn [negb]. unfold ensure_state. rewrite Z.eqb_refl. cbn [negb].
  unfold mbind, io_bind, io_modify, io_step. fold (ensured r). by destruct (infer chunk (ensured r)).
Qed.

Lemma infer_network chunk r r2 :
  network r = network r2 → (infer chunk r).1 = (infer chunk r2).1 /\ network (infer chunk r).2 = network (infer chunk r2).2.
Proof.
  unfold network, infer. intros [= H1 H2 H3 H4 H5]. rewrite H1, H2, H3. destruct (compute _ _ _) as [[p h] c]. cbn. by rewrite H4, H5.
Qed.

Lemma infer_segmentation chunk r : segmentation (infer chunk r).2 = segmentation r.
Proof. unfold infer. by destruct (compute _ _ _) as [[p h] c]. Qed.

(** The segmentation depends on its own part of the state only. *)
Lemma build_independent p config at_sample r r2 :
  segmentation r = segmentation r2 →
  (build_stream_event p config at_sample r).1 = (build_stream_event p config at_sample r2).1 /\
  segmentation (build_stream_event p config at_sample r).2 = segmentation (build_stream_event p config at_sample r2).2 /\
  network (build_stream_event p config at_sample r).2 = network r.
Proof.
  unfold build_stream_event. cbv zeta. set (r1 := if _ && _ then r <| temp_end_ := 0 |> else r).
  set (s1 := if _ && _ then r2 <| temp_end_ := 0 |> else r2). intros H.
  assert (segmentation r1 = segmentation s1 /\ network r1 = network r) as [Hs <-].
  { subst r1 s1. unfold segmentation, network in *. injection H as H1 H2 H3 H4 H5. rewrite H2. destruct (_ && _); cbn; split; congruence. }
  clearbody r1 s1. clear r r2 H. pose proof Hs as Hs'. unfold segmentation in Hs'. injection Hs' as H1 H2 H3 H4 H5. rewrite <- H1.
  destruct (_ && negb (triggered_ r1)); [cbn; unfold segmentation, network; cbn; repeat split; congruence|].
  destruct (_ && triggered_ r1); [|done].
  set (r2 := if _ =? 0 then r1 <| temp_end_ := _ |> else r1). set (s2 := if _ =? 0 then s1 <| temp_end_ := _ |> else s1).
  assert (segmentation r2 = segmentation s2 /\ network r2 = network r1) as [Hr <-].
  { subst r2 s2. rewrite <- H2. destruct (_ =? 0); [|done]. unfold segmentation, network in *. cbn. split; congruence. }
  clearbody r2 s2. clear H1 H2 H3 H4 H5 Hs. pose proof Hr as Hs'. unfold segmentation in Hs'. injection Hs' as H1 H2 H3 H4 H5.
  rewrite <- H2. destruct (_ <? _); [done|]. cbn. unfold segmentation, network. cbn. rewrite <- H4, <- H5. repeat split; congruence.
Qed.

(** A window the stream accepts. *)
Lemma process_chunk_ok chunk config r :
  chunk_channels chunk = 1 → chunk_sample_rate chunk = kSampleRate → length (samples chunk) = kChunkSamples →
  current_sample_ r = 0 \/ start_sample chunk = current_sample_ r →
  let '(p, r1) := infer (samples chunk) (ensured r) in
  let '(events, r2) := build_stream_event p config (start_sample chunk) r1 in
  process_chunk chunk config r = (Ok events, r2 <| current_sample_ := start_sample chunk + 512 |>).
Proof.
  intros Hc Hr Hl Hs. unfold process_chunk. rewrite Hc, Hr, Hl. cbn [Z.eqb Pos.eqb negb]. rewrite Nat.eqb_refl.
  change (kSampleRate <=? 0) with false. cbn [negb].
  unfold mbind at 1, io_bind at 1, io_get at 1.
  assert (negb (current_sample_ r =? 0) && negb (start_sample chunk =? current_sample_ r) = false) as ->.
  { destruct Hs as [->| ->]; [done|]. rewrite Z.eqb_refl. apply andb_false_r. }
  unfold mbind at 1, io_bind at 1. rewrite infer_chunk_ok by done.
  destruct (infer (samples chunk) (ensured r)) as [p r1]. cbn [fst snd].
  unfold mbind, io_bind, io_step, io_modify, mret, io_ret. by destruct (build_stream_event p config (start_sample chunk) r1).
Qed.

(** The segmentation alone, over the probabilities of contiguous windows. *)
Fixpoint build_all (config : SileroVADConfig Float) (at_sample : Z) (probs : list Float) (r : SileroRuntime) :
    list (list (VoiceActivityEvent Float)) :=
  match probs with
  | [] => []
  | p :: probs =>
      let '(events, r) := build_stream_event p config at_sample r in
      events :: build_all config (at_sample + 512) probs (r <| current_sample_ := at_sample + 512 |>)
  end.

Lemma build_all_independent config probs at_sample r r2 :
  segmentation r = segmentation r2 → build_all config at_sample probs r = build_all config at_sample probs r2.
Proof.
  revert at_sample r r2. induction probs as [|p probs IH]; intros at_sample r r2 H; cbn [build_all]; [done|].
  destruct (build_independent p config at_sample r r2 H) as (H1 & H2 & _).
  destruct (build_stream_event p config at_sample r) as [e1 s1], (build_stream_event p config at_sample r2) as [e2 s2].
  cbn in H1, H2. subst e2. f_equal. apply IH. unfold segmentation in *. cbn. congruence.
Qed.

Lemma windows_match config n at_sample waveform r r2 :
  length waveform = (n * kChunkSamples)%nat → 0 <= at_sample → current_sample_ r = at_sample →
  network (ensured r) = network (ensured r2) →
  ∃ es r' probs r2',
    process_chunks config (windows n at_sample waveform) r = (Ok es, r') /\
    forward_loop n waveform kSampleRate r2 = (Ok probs, r2') /\ es = build_all config at_sample probs r.
Proof.
  revert at_sample waveform r r2. induction n as [|n IH]; intros at_sample waveform r r2 Hl H0 Hc Hn.
  { by exists [], r, [], r2. }
  cbn [windows process_chunks forward_loop].
  set (chunk := {| chunk_sample_rate := kSampleRate; chunk_channels := 1; start_sample := at_sample; samples := _ |}).
  assert (length (samples chunk) = kChunkSamples) as Hs by (cbn -[kChunkSamples]; rewrite length_take; lia).
  pose proof (process_chunk_ok chunk config r eq_refl eq_refl Hs) as Hp. specialize (Hp (or_intror (eq_sym Hc))).
  destruct (infer_network (samples chunk) _ _ Hn) as [Hi1 Hi2].
  pose proof (infer_segmentation (samples chunk) (ensured r)) as Hseg. rewrite ensured_segmentation in Hseg.
  rewrite (io_bind_ok _ _ _ _ _ (infer_chunk_ok (take kChunkSamples waveform) r2 Hs)).
  change (samples chunk) with (take kChunkSamples waveform) in *.
  destruct (infer (take kChunkSamples waveform) (ensured r)) as [p r1].
  destruct (infer (take kChunkSamples waveform) (ensured r2)) as [p2 r3]. cbn [fst snd] in *. subst p2.
  destruct (build_independent p config at_sample r1 r Hseg) as (Hb1 & Hb2 & Hb3).
  change (start_sample chunk) with at_sample in Hp.
  destruct (build_stream_event p config at_sample r1) as [events r4] eqn:Eb. cbn [fst snd] in *.
  rewrite (io_bind_ok _ _ _ _ _ Hp).
  destruct (IH (at_sample + 512) (drop kChunkSamples waveform) (r4 <| current_sample_ := at_sample + 512 |>) r3)
    as (es & r' & probs & r2' & E1 & E2 & E3).
  - rewrite length_drop. lia.
  - lia.
  - done.
  - apply ensured_network. unfold network in *. cbn. congruence.
  - exists (events :: es), r', (p :: probs), r2'. rewrite (io_bind_ok _ _ _ _ _ E1), (io_bind_ok _ _ _ _ _ E2).
    split; [done|]. split; [done|]. cbn [build_all].
    destruct (build_stream_event p config at_sample r) as [events' r5] eqn:Eb5. cbn [fst snd] in *. subst events' es.
    f_equal. apply build_all_independent. unfold segmentation in *. cbn. congruence.
Qed.

(** A stream sees what the whole recording would: windows handed to the
    session one by one after a reset are all accepted, and their events are those
    of the probabilities the offline pass computes for the same audio, whatever
    either runtime had processed before. *)
Theorem stream_matches_offline config n waveform r r2 :
  length waveform = (n * kChunkSamples)%nat →
  ∃ es r' probs r2',
    process_chunks config (windows n 0 waveform) (reset r) = (Ok es, r') /\
    audio_forward waveform kSampleRate r2 = (Ok probs, r2') /\ es = build_all config 0 probs (reset r).
Proof.
  intros Hl. unfold audio_forward. rewrite Z.eqb_refl. cbn [negb]. cbv zeta.
  assert (((length waveform + kChunkSamples - 1) / kChunkSamples)%nat = n) as ->.
  { rewrite Hl. symmetry. apply (Nat.div_unique _ _ _ (kChunkSamples - 1)); unfold kChunkSamples; lia. }
  rewrite Hl, Nat.sub_diag. cbn [replicate]. rewrite app_nil_r.
  unfold mbind, io_bind, io_modify. apply windows_match; [done|done|done|]. apply ensured_fresh.
Qed.

(** The speech the events tell of: what is closed, with the segments they carry,
    and where open speech began; [None] if they do not alternate. *)
Fixpoint spoken_by (opened : option Z) (events : list (VoiceActivityEvent Float)) :
    option (list SileroSpeechTimestamp * option Z) :=
  match events with
  | [] => Some ([], opened)
  | e :: events =>
      match kind e, opened, segment e with
      | SpeechStart, None, None => spoken_by (Some (sample e)) events
      | SpeechEnd, Some began, Some (s, _) =>
          if (start s =? began) && (end_ s =? Z.max began (sample e))
          then '(l, opened) ← spoken_by None events; Some (s :: l, opened) else None
      | _, _, _ => None
      end
  end.

Lemma spoken_by_app opened e1 e2 l1 o1 l2 o2 :
  spoken_by opened e1 = Some (l1, o1) → spoken_by o1 e2 = Some (l2, o2) → spoken_by opened (e1 ++ e2) = Some (l1 ++ l2, o2).
Proof.
  revert opened l1. induction e1 as [|e e1 IH]; intros opened l1; cbn [spoken_by app]; [by intros [= <- <-] ->|].
  destruct (kind e), opened as [began|], (segment e) as [[s p]|]; try done; [by intros; eapply IH|].
  destruct (_ && _); [|done]. destruct (spoken_by None e1) as [[l o]|] eqn:E; [|done]. cbn. intros [= <- <-] H2.
  by rewrite (IH _ _ E H2).
Qed.

Definition open_speech (r : SileroRuntime) : option Z := if triggered_ r then Some (current_speech_start_ r) else None.

Lemma build_spoken p config at_sample r events r' :
  build_stream_event p config at_sample r = (events, r') →
  ∃ l, spoken_by (open_speech r) events = Some (l, open_speech r') /\ streamed_segments_ r' = streamed_segments_ r ++ l.
Proof.
  unfold build_stream_event. cbv zeta. set (r1 := if _ && _ then r <| temp_end_ := 0 |> else r).
  assert (open_speech r1 = open_speech r /\ streamed_segments_ r1 = streamed_segments_ r) as [H1 H2].
  { subst r1. by destruct (_ && _). }
  rewrite <- H1, <- H2. clearbody r1. clear H1 H2 r. unfold open_speech.
  destruct (triggered_ r1) eqn:Et; cbn [negb].
  - rewrite andb_false_r. destruct (less _ _); cbn [andb].
    + set (r2 := if _ =? 0 then _ else r1).
      assert (triggered_ r2 = true /\ current_speech_start_ r2 = current_speech_start_ r1 /\
        streamed_segments_ r2 = streamed_segments_ r1) as (H1 & H2 & H3) by (subst r2; by destruct (_ =? 0)).
      clearbody r2. case_bool; intros [= <- <-].
      * exists []. rewrite H1, H2, H3, app_nil_r. done.
      * eexists. cbn. rewrite H2, !Z.eqb_refl, H3. cbn. done.
    + intros [= <- <-]. exists []. rewrite Et, app_nil_r. done.
  - rewrite andb_true_r, andb_false_r. destruct (at_least _ _); intros [= <- <-]; exists [].
    + cbn. by rewrite app_nil_r.
    + rewrite Et, app_nil_r. done.
Qed.

Lemma process_spoken config chunk r events r' :
  process_chunk chunk config r = (Ok events, r') →
  ∃ l, spoken_by (open_speech r) events = Some (l, open_speech r') /\ streamed_segments_ r' = streamed_segments_ r ++ l.
Proof.
  unfold process_chunk. repeat (case_bool; [done|]). unfold mbind, io_bind, io_get, infer_chunk. case_bool; [done|].
  case_bool; [done|]. unfold ensure_state. case_bool; [done|]. unfold mbind, io_bind, io_modify, io_step.
  match goal with |- context [infer _ ?x] => set (r0 := x) end.
  pose proof (infer_segmentation (samples chunk) r0) as Hs. destruct (infer (samples chunk) r0) as [p r1]. cbn [snd] in Hs.
  assert (segmentation r1 = segmentation r) as Hseg by (rewrite Hs; subst r0; by case_bool).
  destruct (build_stream_event p config (start_sample chunk) r1) as [es r2] eqn:Eb. intros [= <- <-].
  destruct (build_spoken _ _ _ _ _ _ Eb) as (l & H1 & H2). exists l. unfold open_speech, segmentation in *. cbn.
  injection Hseg as <- _ _ <- <-. done.
Qed.

(** The events of a stream alternate and tell its result: every SpeechEnd
    closes the speech of the SpeechStart before it and carries that segment, and the
    result of the stream lists exactly these segments, then the speech still open
    if it is long enough. *)
Theorem stream_result_of_events config chunks r es r' :
  process_chunks config chunks (reset r) = (Ok es, r') →
  ∃ closed opened,
    spoken_by None (concat es) = Some (closed, opened) /\
    map fst (finalize_stream config r') =
      closed ++ match opened with
                | Some began =>
                    if samples_of_ms kSampleRate (min_speech_duration_ms config) <? current_sample_ r' - began
                    then [{| start := began; end_ := current_sample_ r' |}] else []
                | None => []
                end.
Proof.
  intros H. assert (∃ l, spoken_by (open_speech (reset r)) (concat es) = Some (l, open_speech r') /\
    streamed_segments_ r' = streamed_segments_ (reset r) ++ l) as (l & H1 & H2).
  { revert H. generalize (reset r) as s. revert es. induction chunks as [|chunk chunks IH]; intros es s; cbn [process_chunks].
    - intros [= <- <-]. exists []. by rewrite app_nil_r.
    - unfold mbind, io_bind. destruct (process_chunk chunk config s) as [[events|e] s1] eqn:E1; [|done].
      destruct (process_chunks config chunks s1) as [[rest|e] s2] eqn:E2; [|done]. intros [= <- <-].
      destruct (process_spoken _ _ _ _ _ E1) as (l1 & H1 & H2). destruct (IH _ _ E2) as (l2 & H3 & H4).
      exists (l1 ++ l2). cbn [concat]. split; [by eapply spoken_by_app|]. by rewrite H4, H2, app_assoc. }
  exists l, (open_speech r'). split; [done|]. unfold finalize_stream. rewrite map_app, map_map, map_id, H2. cbn [reset streamed_segments_].
  f_equal. unfold open_speech. destruct (triggered_ r'); [|done]. cbn [andb]. by case_bool.
Qed.
End runtime.

(** * A network that hears the last sample of its window *)

Module LastSample.
Import Percent.

Definition compute (input hidden cell : list Z) : Z * list Z * list Z := (List.last input 0, hidden, cell).

Definition config : SileroVADConfig Z :=
  {| threshold := 50; min_speech_duration_ms := 30; min_silence_duration_ms := 30; speech_pad_ms := 30;
     max_speech_duration_s := 30; neg_threshold := -1; min_silence_at_max_speech_ms := 98;
     use_max_poss_sil_at_max_speech := true |}.

Definition fresh : @SileroRuntime Z :=
  {| hidden_ := []; cell_ := []; context_ := []; last_batch_size_ := 0; last_sample_rate_ := 0; triggered_ := true;
     temp_end_ := 7; current_sample_ := 9; current_speech_start_ := 3; streamed_segments_ := [] |}.

(** A window of speech, two of silence and one of speech. *)
Definition waveform : list Z := concat (map (λ p, repeat p 512) [90; 0; 0; 80]).

Notation listened := (process_chunks compute config (windows 4 0 waveform) (reset fresh)).

Definition shown (r : outcome (list (list (VoiceActivityEvent Z)))) : option (list (list (Kind * Z))) :=
  match r with Ok es => Some (map (map (λ e, (kind e, sample e))) es) | Throw _ => None end.

Lemma stream_matches_offline_witness :
  shown listened.1 = Some [[(SpeechStart, 0)]; []; [(SpeechEnd, 992)]; [(SpeechStart, 1056)]] /\
  ∃ es r' probs r2', listened = (Ok es, r') /\
    audio_forward compute waveform kSampleRate fresh = (Ok probs, r2') /\ es = build_all config 0 probs (reset fresh).
Proof.
  split; [vm_compute; reflexivity|]. apply (stream_matches_offline compute config 4 waveform fresh fresh). reflexivity.
Defined.

Lemma stream_result_of_events_witness :
  ∃ es r', listened = (Ok es, r') /\
    map fst (finalize_stream config r') = [{| start := 0; end_ := 992 |}; {| start := 1056; end_ := 2048 |}] /\
    ∃ closed opened, spoken_by None (concat es) = Some (closed, opened) /\
      map fst (finalize_stream config r') =
        closed ++ match opened with
                  | Some began => if samples_of_ms kSampleRate (min_speech_duration_ms config) <? current_sample_ r' - began
                                  then [{| start := began; end_ := current_sample_ r' |}] else []
                  | None => []
                  end.
Proof.
  destruct listened as [[es|m] r'] eqn:E.
  - exists es, r'. split; [done|]. split.
    + assert (map fst (finalize_stream config listened.2) = [{| start := 0; end_ := 992 |}; {| start := 1056; end_ := 2048 |}]) as H
        by (vm_compute; reflexivity). by rewrite E in H.
    + exact (stream_result_of_events compute config (windows 4 0 waveform) fresh es r' E).
  - exfalso. assert (shown listened.1 = None) as H by by rewrite E. vm_compute in H. discriminate.
Defined.
End LastSample.
