(* ===== verification/VoiceVad.v ===== *)
(** The voice-activity session in the voice turn: what the turn asks of the session
    it feeds, and that the Silero session offers it. *)

From S2P Require Import Prelude Stability AudioStream SileroVad SileroRuntime VoiceText VoiceTurn.

(** The contract of a streaming voice-activity session: windows of 512 samples,
    one after the other, are accepted, and so they are after a reset. *)
Class VadContract {Float Vad : Type} (vad_process : Vad → Z → list Float → outcome (list activity) * Vad)
    (vad_reset : Vad → Vad) := {
  accepting : Vad → Z → Prop;
  accepts_window v at_sample window :
    accepting v at_sample → length window = 512 →
    ∃ activities v', vad_process v at_sample window = (Ok activities, v') ∧ accepting v' (at_sample + 512)%Z;
  accepts_after_reset v at_sample : accepting v at_sample → accepting (vad_reset v) at_sample;
}.
#[global] Hint Mode VadContract - - - - : typeclass_instances.

(** * The turn keeps to the contract *)

Section client.
Context `{arith : FloatArith Float Double}.
Context (transcribe : list Float → outcome TranscribeResult).
Context {Vad : Type} (vad_process : Vad → Z → list Float → outcome (list activity) * Vad) (vad_reset : Vad → Vad).
Context (params : TurnParams Float).
Context `{contract : !VadContract vad_process vad_reset}.

Notation state := (@state Float Vad).
Notation feed_windows := (feed_windows vad_process).

Definition in_step (s : state) : Prop := accepting (vad s) (vad_sample s).

(** What the other steps do not touch. *)
Definition listening (s : state) : Vad * Z := (vad s, vad_sample s).

Lemma in_step_listening s s' : listening s' = listening s → in_step s → in_step s'.
Proof. unfold listening, in_step. by intros [= -> ->]. Qed.

Lemma feed_windows_accepted fuel s :
  in_step s → ∃ activities s', feed_windows fuel s = (Ok activities, s') ∧ in_step s'.
Proof.
  revert s. induction fuel as [|fuel IH]; intros s Hs; [by exists [], s|]. rewrite feed_windows_S.
  destruct (512 <=? length (vad_pending s)) eqn:El; [|by exists [], s].
  assert (length (take 512 (vad_pending s)) = 512) as Hw by (apply Nat.leb_le in El; rewrite length_take; lia).
  destruct (accepts_window _ _ _ Hs Hw) as (acts & v' & -> & Hv).
  destruct (IH (window_taken v' s) Hv) as (more & s' & -> & Hs'). by exists (acts ++ more), s'.
Qed.

Lemma after_in_step k s : in_step s → in_step (after vad_reset k s).
Proof. destruct k; [done| |done]. intros H. unfold in_step. cbn. by apply accepts_after_reset. Qed.

Lemma commit_utterance_in_step now k s : in_step s → in_step (commit_utterance vad_reset params now k s).
Proof. intros H. unfold commit_utterance. cbv zeta. case_bool; [by apply after_in_step|done]. Qed.

Lemma report_stable_listening now job grew s : listening (report_stable now job grew s) = listening s.
Proof. unfold report_stable. destruct grew; [|done]. cbv zeta. by destruct (first_stable s). Qed.

Lemma report_partial_listening now job s : listening (report_partial now job s) = listening s.
Proof. unfold report_partial. cbv zeta. case_bool; [|done]. match goal with |- context [match ?o with _ => _ end] => by destruct o end. Qed.

Lemma anticipate_listening now job h s : listening (anticipate_endpoint now job h s) = listening s.
Proof.
  unfold anticipate_endpoint. cbv zeta.
  match goal with |- context [if bool_decide ?P then ?a else ?b] => set (s1 := if bool_decide P then a else b) end.
  assert (listening s1 = listening s) as <- by (subst s1; repeat case_bool; done). clearbody s1. by case_bool.
Qed.

Lemma handle_result_listening now job r d s : listening (handle_result now job r d s) = listening s.
Proof.
  unfold handle_result. case_bool; [done|]. cbv zeta.
  match goal with |- context [if ?b then store_candidate ?j ?r ?d ?s else ?s] =>
    set (s1 := if b then store_candidate j r d s else s) end.
  assert (listening s1 = listening s) as <- by (subst s1; by case_bool). clearbody s1.
  case_bool; [done|]. destruct (update _ _) as [t grew].
  by rewrite anticipate_listening, report_partial_listening, report_stable_listening.
Qed.

Lemma worker_listening now d s s' : worker_done transcribe now d s = Some s' → listening s' = listening s.
Proof.
  unfold worker_done. destruct (running s) as [job|]; [|done]. intros [= <-].
  destruct (transcribe _) as [r|m]; [|done]. exact (handle_result_listening now job r d s).
Qed.

Lemma enqueue_listening final candidate_job s s' : enqueue_decode final candidate_job s = Some s' → listening s' = listening s.
Proof. unfold enqueue_decode. repeat case_bool; try done; try (by intros [= <-]). Qed.

Lemma take_block_in_step block s :
  in_step s → block ≠ [] →
  in_step (take_block vad_process params block s) ∧ ∃ activities, pc (take_block vad_process params block s) = Activities activities.
Proof.
  intros Hs Hb. destruct block as [|x block]; [done|]. unfold take_block. cbv zeta.
  set (s0 := s <| vad_pending := _ |>).
  destruct (feed_windows_accepted (length (vad_pending s0)) s0 Hs) as (acts & s1 & -> & Hs1). split; [|by exists acts].
  change (in_step (keep_audio params (x :: block) (track_loudness (x :: block) s1))).
  eapply in_step_listening; [|exact Hs1]. unfold keep_audio, track_loudness. cbv zeta. repeat case_bool; reflexivity.
Qed.

Lemma audio_step_in_step now s s' :
  audio_step vad_reset params now s = Some s' → in_step s → in_step s'.
Proof.
  unfold audio_step. destruct (pc s) as [| [|what rest] | rest | | | k | k | k |]; try done.
  - by intros [= <-].
  - intros [= <-] H. eapply in_step_listening; [|exact H]. unfold on_activity, begin_pending_end. cbv zeta.
    destruct what; repeat case_bool; reflexivity.
  - intros H%enqueue_listening. by apply in_step_listening.
  - intros [= <-] H. unfold hold_check. case_bool; [by apply commit_utterance_in_step|done].
  - unfold run_check. cbv zeta. repeat case_bool; try by intros [= <-].
    + intros [= <-] H. unfold end_utterance. by apply commit_utterance_in_step.
    + intros H%enqueue_listening. by apply in_step_listening.
  - case_bool; [|done]. intros [= <-] H. unfold commit_idle. case_bool; [|done]. by apply after_in_step.
  - intros H%enqueue_listening. by apply in_step_listening.
  - case_bool; [|done]. intros [= <-] H. by apply after_in_step.
Qed.

Lemma step_in_step l s s' : step transcribe vad_process vad_reset params l s = Some s' → in_step s → in_step s'.
Proof.
  destruct l as [now i|now| |now d]; cbn [step].
  - unfold read_step. destruct (pc s); try done. intros [= <-] H. destruct i as [block| |m].
    + destruct block as [|x block]; [done|]. by apply take_block_in_step.
    + unfold stream_over. case_bool; [|by apply after_in_step]. unfold end_utterance. by apply commit_utterance_in_step.
    + done.
  - apply audio_step_in_step.
  - unfold worker_take. destruct (running s), (pending s); try done. by intros [= <-].
  - intros H%worker_listening. by apply in_step_listening.
Qed.

(** A turn never fails for its voice-activity session: with a session that
    keeps the contract - contiguous windows of 512 samples are accepted, also after
    a reset - every block of samples a waiting turn reads, in any reachable state, is
    taken in and its activities handled next; no error is raised and the loop goes on. *)
Theorem vad_never_fails v s block now :
  accepting v 0 → reachable transcribe vad_process vad_reset params v s → pc s = Reading → block ≠ [] →
  ∃ s' activities, step transcribe vad_process vad_reset params (Read now (Samples block)) s = Some s' ∧
    pc s' = Activities activities ∧ events s' = events s.
Proof.
  intros Hv Hr Hpc Hb. assert (in_step s) as Hs.
  { clear Hpc Hb. induction Hr as [|s l s' _ IH Hstep]; [done|]. by eapply step_in_step. }
  destruct (take_block_in_step block s Hs Hb) as [_ [acts Ha]].
  exists (take_block vad_process params block s), acts. split; [cbn [step]; unfold read_step; by rewrite Hpc|]. split; [done|].
  destruct block as [|x block]; [done|]. revert Ha. unfold take_block. cbv zeta.
  set (s0 := s <| vad_pending := _ |>).
  pose proof (feed_windows_frame vad_process (length (vad_pending s0)) s0) as [_ Hres].
  destruct (feed_windows (length (vad_pending s0)) s0) as [[found|m] s1]; cbn in Hres; [|done]. intros _.
  injection Hres as _ He _ _ _. rewrite <- He. unfold keep_audio, track_loudness. cbv zeta. repeat case_bool; reflexivity.
Qed.
End client.

(** * The Silero session keeps the contract *)

Section silero.
Context {Float : Type} `{!ProbabilityArith Float}.
Context (compute : list Float → list Float → list Float → Float * list Float * list Float).

Notation SileroVADSession := (@SileroVADSession Float).

Definition activity_of (k : Kind) : activity :=
  match k with
  | SileroVad.SpeechStart => SpeechStart
  | SileroVad.SpeechEnd => SpeechEnd
  | SileroVad.SpeechSegment => SpeechSegment
  end.

(** A window of the turn, as the chunk it hands to the session. *)
Definition silero_process (s : SileroVADSession) (at_sample : Z) (window : list Float) :
    outcome (list activity) * SileroVADSession :=
  let '(r, s) := process_audio_chunk compute
    {| chunk_sample_rate := 16000; chunk_channels := 1; start_sample := at_sample; samples := window |} s in
  ((λ e, map (λ a, activity_of (kind a)) (voice_activity e)) <$> r, s).

Definition silero_reset (s : SileroVADSession) : SileroVADSession := (session_reset s).2.

(** Prepared for streaming, and at this sample. *)
Definition listening_at (s : SileroVADSession) (at_sample : Z) : Prop :=
  prepared_ s = true ∧ mode s = Streaming ∧
  (current_sample_ (runtime_ s) = 0 ∨ at_sample = current_sample_ (runtime_ s))%Z.

Lemma process_audio_chunk_eq chunk s :
  prepared_ s = true → mode s = Streaming →
  process_audio_chunk compute chunk s =
  let '(events, r) := process_chunk compute chunk (default_config_ s) (runtime_ s) in
  (event_of <$> events, {| prepared_ := true; mode := Streaming; default_config_ := default_config_ s; runtime_ := r |}).
Proof.
  destruct s as [prepared m config r]. cbn [prepared_ mode default_config_ runtime_]. intros -> ->.
  unfold process_audio_chunk, require_prepared, mbind, io_bind, io_get, in_runtime.
  cbn [prepared_ mode default_config_ runtime_]. rewrite bool_decide_eq_false_2 by (intros H; by apply H).
  cbv beta iota. cbn [prepared_ mode default_config_ runtime_]. by destruct (process_chunk compute chunk config r) as [[events|e] r'].
Qed.

#[export] Instance silero_contract : VadContract silero_process silero_reset.
Proof.
  refine {| accepting := listening_at |}.
  - intros s at_sample window (Hp & Hm & Hs) Hw. unfold silero_process.
    set (chunk := {| chunk_sample_rate := _; chunk_channels := _; start_sample := _; samples := _ |}).
    pose proof (process_chunk_ok compute chunk (default_config_ s) (runtime_ s) eq_refl eq_refl Hw Hs) as Hok.
    destruct (infer compute (samples chunk) (ensured (runtime_ s))) as [p r1].
    destruct (build_stream_event p (default_config_ s) (start_sample chunk) r1) as [es r2].
    rewrite process_audio_chunk_eq, Hok by done. cbn.
    eexists _, _. split; [done|]. split; [done|]. split; [done|]. by right.
  - intros s at_sample (Hp & Hm & _). unfold silero_reset, session_reset, mbind, io_bind, require_prepared. rewrite Hp.
    split; [done|]. split; [done|]. by left.
Defined.

(** * Silero behind the streaming tasks *)

Context {Request Seconds : Type} (no_seconds : Seconds).

(** The defaults of [IStreamingVoiceTaskSession] around the session's overrides. *)
Definition silero_ops :
    @SessionOps Float (VoiceActivityEvent Float) (list (SileroSpeechTimestamp * Float)) Request Seconds SileroVADSession := {|
  streaming_policy _ := {| AudioStream.input := AudioChunks; output := FinalResult; preferred_audio_chunk_samples := 512;
                           preferred_audio_chunk_seconds := no_seconds |};
  set_stream_event_sink _ s := s;
  start_stream _ := session_reset;
  AudioStream.process_audio_chunk := process_audio_chunk compute;
  next_stream_event := mret None;
  finish_stream := finalize;
|}.

(** A window is taken only if it is whole. *)
Lemma process_window_whole {Source} format at_sample block (w : @world (VoiceActivityEvent Float) SileroVADSession Source) :
  is_ok (process silero_ops format at_sample block w).1 = true → length block = 512.
Proof.
  unfold process, mbind, io_bind, in_session, silero_ops. cbn [AudioStream.process_audio_chunk].
  unfold process_audio_chunk, require_prepared, mbind, io_bind, io_get, in_runtime, process_chunk.
  destruct (prepared_ (session w)); [|done]. case_bool; [done|]. case_bool; [done|]. case_bool; [done|].
  case_bool; [done|]. intros _. apply negb_false_iff, Nat.eqb_eq in E2. exact E2.
Qed.

Lemma process_all_whole {Source} format at_sample blocks (w : @world (VoiceActivityEvent Float) SileroVADSession Source) :
  is_ok (process_all silero_ops format at_sample blocks w).1 = true → length (concat blocks) mod 512 = 0.
Proof.
  revert at_sample w. induction blocks as [|block blocks IH]; intros at_sample w; [done|]. cbn [process_all concat].
  pose proof (process_window_whole format at_sample block w) as Hw. unfold mbind, io_bind.
  destruct (process silero_ops format at_sample block w) as [[[]|m] w1]; [|done]. intros H%IH.
  rewrite length_app, Hw by done. rewrite Nat.add_comm. rewrite <- (Nat.mul_1_l 512) at 1. by rewrite Nat.Div0.mod_add.
Qed.

(** A streaming voice-activity task over a mono recording fails unless the
    recording is a whole number of windows: the feeding loop hands over a short last
    block, which the session refuses. *)
Theorem short_recording_refused (seconds_positive : Seconds → bool) round_samples fuel (request : Request)
    (audio : @AudioBuffer Float) w :
  seconds_positive no_seconds = false → buffer_channels audio = 1%Z → length (buffer_samples audio) mod 512 ≠ 0 →
  length (buffer_samples audio) < fuel →
  ∃ message, (run_streaming_task silero_ops seconds_positive round_samples fuel request (Some audio) w).1 = Throw message.
Proof.
  intros Hsec Hch Hmod Hfuel. unfold run_streaming_task.
  destruct (buffer_samples audio) as [|x rest] eqn:Es; [done|]. rewrite <- Es in *. clear Es x rest.
  replace (is_nil (buffer_samples audio)) with false by (destruct (buffer_samples audio); [done|done]).
  unfold buffer_audio_stream. rewrite Hch. change (Z.to_nat 1) with 1. rewrite Nat.mod_1_r. change (negb (0 =? 0)) with false. cbn [Z.leb Z.compare orb].
  unfold mbind at 1, io_bind at 1, io_lift at 1. cbv beta iota. unfold mbind at 1, io_bind at 1, set_stream, io_modify at 1. cbv beta iota.
  set (w0 := at_stream {| whole := buffer_samples audio; offset := 0 |} w). unfold run_stream. unfold mbind at 1, io_bind at 1, io_get at 1. cbv beta iota zeta.
  unfold mbind at 1, io_bind at 1, set_sink at 1, io_modify at 1. cbv beta iota.
  match goal with |- context [io_catch ?b ?h ?x] => set (w1 := x); set (body := b) end. unfold io_catch.
  assert (∃ m w', body w1 = (Throw m, w')) as (m & w' & ->); [|by exists m].
  subst body. unfold mbind at 1, io_bind at 1. destruct (in_session _ w1) as [[[]|m] w2] eqn:E2; [|by exists m, w2].
  assert (stream w2 = {| whole := buffer_samples audio; offset := 0 |}) as Hst.
  { revert E2. unfold in_session. destruct (start_stream _ _ _) as [r s2]. by intros [= _ <-]. }
  cbn [streaming_policy silero_ops AudioStream.input output]. unfold resolve_chunk_samples. cbn [preferred_audio_chunk_seconds preferred_audio_chunk_samples].
  rewrite Hsec. unfold mbind at 1, io_bind at 1.
  destruct (decide (0 < buffer_rate audio)%Z) as [Hrate|Hrate].
  2: { unfold feed_audio_stream. cbn [Z.leb Z.compare]. rewrite (proj2 (Z.leb_le _ _)) by (cbn; lia). cbn [orb]. by eexists _, _. }
  destruct (feed_delivers (reader := buffer_reader) silero_ops {| sample_rate := buffer_rate audio; channels := 1 |} 512
    (laws := buffer_laws 1 512 ltac:(lia) ltac:(lia)) fuel w2) as (blocks & Hc & _ & [Ho _] & _); [done|done|done| | |].
  - cbn. rewrite Hst. split; [exists (length (buffer_samples audio)); cbn; lia|by exists 0].
  - cbn. rewrite Hst. cbn. lia.
  - destruct (feed_audio_stream _ _ _ _ w2) as [[fed|m] w3]; [|by exists m, w3]. exfalso. apply Hmod.
    cbn in Hc. rewrite Hst in Hc. cbn in Hc.
    replace (buffer_samples audio) with (concat blocks) by exact Hc.
    apply (process_all_whole {| sample_rate := buffer_rate audio; channels := 1 |} 0 blocks w2).
    cbn [fst] in Ho. by destruct (process_all _ _ _ blocks w2) as [[[]|e] w4].
Qed.
End silero.

(** * Silero in the room *)

Module Ears.
Import Room Percent LastSample.

Definition session : @SileroVADSession Z :=
  {| prepared_ := true; mode := Streaming; default_config_ := LastSample.config; runtime_ := SileroRuntime.reset fresh |}.

Lemma vad_never_fails_witness :
  let s := @initial Z Z micro (@SileroVADSession Z) Room.params session in
  ∃ s' activities,
    step Room.transcribe (silero_process LastSample.compute) silero_reset Room.params (Read 0 (Samples (repeat 90%Z 600))) s = Some s' ∧
    pc s' = Activities activities ∧ events s' = events s.
Proof.
  cbv zeta. apply (vad_never_fails Room.transcribe (silero_process LastSample.compute) silero_reset Room.params session).
  - split; [done|]. split; [done|]. by left.
  - apply reach_initial.
  - done.
  - done.
Defined.

Definition recording (n : nat) : @AudioBuffer Z :=
  {| buffer_rate := 16000; buffer_channels := 1; buffer_samples := repeat 90%Z n |}.

Definition ready : @world (VoiceActivityEvent Z) (@SileroVADSession Z) (@BufferSource Z) :=
  {| AudioStream.session := session; sink_set := false; stream := {| whole := []; offset := 0 |}; emitted := [] |}.

Definition listen (n : nat) :=
  (run_streaming_task (silero_ops LastSample.compute tt) (λ _, false) (λ _ _, 0%Z) (S n) tt (Some (recording n)) ready).1.

Example whole_windows : listen 1024 = Ok (Some [({| start := 0; end_ := 1024 |}, 50)])%Z.
Proof. vm_compute. reflexivity. Qed.

Lemma short_recording_refused_witness : ∃ message, listen 700 = Throw message.
Proof.
  apply (short_recording_refused LastSample.compute tt (λ _, false) (λ _ _, 0%Z) 701 tt (recording 700) ready).
  - reflexivity.
  - reflexivity.
  - vm_compute. discriminate.
  - vm_compute. lia.
Defined.
End Ears.
