(* ===== verification/SpeechDecoder.v ===== *)
(** Codec frames to audio (models/qwen3_tts): the decoder that runs the network
    over windows of a long utterance (tokenizer_speech_decoder.cpp), and the
    streaming decoder around it (stream_decoder.cpp). *)

From S2P Require Import Prelude AudioStream.

Local Open Scope Z_scope.

Record Qwen3SpeechCodes := { codes : list Z; frames : Z; code_groups : Z }.

Record Qwen3TTSStreamDecoderOptions := { chunk_frames : Z; context_frames : Z }.

Definition kChunkCodes : Z := 300.
Definition kLeftContextCodes : Z := 25.
Definition kQwen3TTSSampleRate : Z := 24000.
Definition kQwen3TTSSamplesPerCodecFrame : Z := 1920.
Definition int64_max : Z := 2 ^ 63 - 1.
Definition size_max : Z := 2 ^ 64 - 1.

(** Elements [from, to) of a vector. *)
Definition range {A} (from to : Z) (l : list A) : list A := take (Z.to_nat (to - from)) (drop (Z.to_nat from) l).

Section decoder.
Context {Float : Type}.
(** The number of quantizers of the weights, and the network on a window of
    frames. *)
Context (num_quantizers : Z) (network : Z → list Z → outcome (list Float)).

(** * The whole utterance *)

(** The chunk of frames [start, end), with its left context: the samples it adds. *)
Definition decode_chunk (c : Qwen3SpeechCodes) (start : Z) : outcome (list Float) :=
  let end_ := Z.min (start + kChunkCodes) (frames c) in
  let context := if kLeftContextCodes <? start then kLeftContextCodes else start in
  let chunk_start := start - context in
  let chunk_frames := end_ - chunk_start in
  let chunk := range (chunk_start * code_groups c) ((chunk_start + chunk_frames) * code_groups c) (codes c) in
  decoded ← network chunk_frames chunk;
  let drop := context * kQwen3TTSSamplesPerCodecFrame in
  if Z.of_nat (length decoded) <? drop
  then Throw (str "Qwen3 speech decoder chunk context exceeds decoded waveform")
  else
    let valid_samples := chunk_frames * kQwen3TTSSamplesPerCodecFrame in
    if (valid_samples <? drop) || (Z.of_nat (length decoded) <? valid_samples)
    then Throw (str "Qwen3 speech decoder valid sample range exceeds decoded waveform")
    else Ok (range drop valid_samples decoded).

(** [for (start = 0; start < frames; start += kChunkCodes)]. *)
Fixpoint decode_loop (fuel : nat) (c : Qwen3SpeechCodes) (start : Z) (samples : list Float) : outcome (list Float) :=
  match fuel with
  | O => Ok samples
  | S fuel =>
      if start <? frames c then
        chunk ← decode_chunk c start;
        decode_loop fuel c (start + kChunkCodes) (samples ++ chunk)
      else Ok samples
  end.

Definition decode (c : Qwen3SpeechCodes) : outcome (@AudioBuffer Float) :=
  if (frames c <=? 0) || negb (code_groups c =? num_quantizers)
  then Throw (str "Qwen3 speech decoder received invalid codec shape")
  else if negb (Z.of_nat (length (codes c)) =? frames c * code_groups c)
  then Throw (str "Qwen3 speech decoder codec payload size mismatch")
  else
    samples ← decode_loop (Z.to_nat (frames c)) c 0 [];
    Ok {| buffer_rate := kQwen3TTSSampleRate; buffer_channels := 1; buffer_samples := samples |}.

Definition decode_and_trim_reference (reference generated : Qwen3SpeechCodes) : outcome (@AudioBuffer Float) :=
  if negb (code_groups reference =? code_groups generated)
  then Throw (str "Qwen3 speech decoder reference/generated code group mismatch")
  else if (frames reference <? 0) || (frames generated <? 0) || (code_groups reference <=? 0)
  then Throw (str "Qwen3 speech decoder reference/generated code shape is invalid")
  else if int64_max - frames generated <? frames reference
  then Throw (str "Qwen3 speech decoder combined frame count is too large")
  else
    let combined_frames := frames reference + frames generated in
    if Z.quot int64_max (code_groups reference) <? combined_frames
    then Throw (str "Qwen3 speech decoder combined code count is too large")
    else if size_max <? combined_frames * code_groups reference
    then Throw (str "Qwen3 speech decoder combined code count exceeds host size limits")
    else
      audio ← decode {| codes := codes reference ++ codes generated; frames := combined_frames;
                        code_groups := code_groups reference |};
      if Z.quot int64_max kQwen3TTSSamplesPerCodecFrame <? frames reference
      then Throw (str "Qwen3 speech decoder reference sample count is too large")
      else
        let cut := frames reference * kQwen3TTSSamplesPerCodecFrame in
        if Z.of_nat (length (buffer_samples audio)) <? cut
        then Throw (str "Qwen3 speech decoder reference trim is out of range")
        else Ok {| buffer_rate := buffer_rate audio; buffer_channels := buffer_channels audio;
                   buffer_samples := drop (Z.to_nat cut) (buffer_samples audio) |}.

(** * The stream *)

(** [Qwen3SpeechTokenizerStreamDecoder]; [decode_] is an argument of the
    operations. *)
Record StreamDecoder := {
  groups_ : Z;
  options_ : Qwen3TTSStreamDecoderOptions;
  context_ : Qwen3SpeechCodes;
  pending_ : Qwen3SpeechCodes;
  emitted_frames_ : Z;
}.

Definition validate_codes (c : Qwen3SpeechCodes) (groups : Z) (label : bytes) : outcome () :=
  if (frames c <? 0) || negb (code_groups c =? groups)
  then Throw (str "Qwen3 streaming decoder invalid " ++ label ++ str " shape")
  else if (Z.quot int64_max groups <? frames c) || negb (Z.of_nat (length (codes c)) =? frames c * groups)
  then Throw (str "Qwen3 streaming decoder invalid " ++ label ++ str " payload")
  else Ok tt.

Definition tail_frames (source : Qwen3SpeechCodes) (n : Z) : Qwen3SpeechCodes :=
  let out_frames := Z.min (frames source) n in
  let first_frame := frames source - out_frames in
  {| codes := drop (Z.to_nat (first_frame * code_groups source)) (codes source); frames := out_frames;
     code_groups := code_groups source |}.

Definition no_codes (groups : Z) : Qwen3SpeechCodes := {| codes := []; frames := 0; code_groups := groups |}.

Definition set_reference_context (reference : option Qwen3SpeechCodes) : io StreamDecoder () :=
  match reference with
  | None => mret tt
  | Some reference =>
      s ← io_get;
      io_lift (validate_codes reference (groups_ s) (str "reference codec"));;
      io_modify (λ s, {| groups_ := groups_ s; options_ := options_ s;
                         context_ := tail_frames reference (context_frames (options_ s)); pending_ := pending_ s;
                         emitted_frames_ := emitted_frames_ s |})
  end.

Definition stream_reset (reference : option Qwen3SpeechCodes) : io StreamDecoder () :=
  io_modify (λ s, {| groups_ := groups_ s; options_ := options_ s; context_ := no_codes (groups_ s);
                     pending_ := no_codes (groups_ s); emitted_frames_ := 0 |});;
  set_reference_context reference.

Definition make_stream_decoder (groups : Z) (options : Qwen3TTSStreamDecoderOptions)
    (reference : option Qwen3SpeechCodes) : outcome StreamDecoder :=
  if groups <=? 0 then Throw (str "Qwen3 streaming decoder requires positive code_groups")
  else if chunk_frames options <=? 0 then Throw (str "Qwen3 TTS chunk_frames must be positive")
  else if context_frames options <? 0 then Throw (str "Qwen3 TTS decoder_context_frames must be non-negative")
  else
    match stream_reset reference {| groups_ := groups; options_ := options; context_ := no_codes 0;
                                    pending_ := no_codes 0; emitted_frames_ := 0 |} with
    | (Ok _, s) => Ok s
    | (Throw e, _) => Throw e
    end.

Context (decode_ : Qwen3SpeechCodes → outcome (@AudioBuffer Float)).

Definition decode_pending : io StreamDecoder (option (@AudioBuffer Float)) :=
  s ← io_get;
  if frames (pending_ s) =? 0 then mret None
  else
    let window := {| codes := codes (context_ s) ++ codes (pending_ s);
                     frames := frames (context_ s) + frames (pending_ s); code_groups := groups_ s |} in
    audio ← io_lift (decode_ window);
    let context_samples := frames (context_ s) * kQwen3TTSSamplesPerCodecFrame in
    let emitted_samples := frames (pending_ s) * kQwen3TTSSamplesPerCodecFrame in
    if (context_samples <? 0) || (emitted_samples <? 0) ||
       (Z.of_nat (length (buffer_samples audio)) <? context_samples + emitted_samples)
    then io_lift (Throw (str "Qwen3 streaming decoder sample trim exceeds decoded window"))
    else
      io_modify (λ s, {| groups_ := groups_ s; options_ := options_ s;
                         context_ := tail_frames window (context_frames (options_ s));
                         pending_ := {| codes := []; frames := 0; code_groups := code_groups (pending_ s) |};
                         emitted_frames_ := emitted_frames_ s + frames (pending_ s) |});;
      mret (Some {| buffer_rate := buffer_rate audio; buffer_channels := buffer_channels audio;
                    buffer_samples := range context_samples (context_samples + emitted_samples) (buffer_samples audio) |}).

Definition push_frame (frame : list Z) : io StreamDecoder (option (@AudioBuffer Float)) :=
  s ← io_get;
  if negb (Z.of_nat (length frame) =? groups_ s)
  then io_lift (Throw (str "Qwen3 streaming decoder codec frame width mismatch"))
  else
    io_modify (λ s, {| groups_ := groups_ s; options_ := options_ s; context_ := context_ s;
                       pending_ := {| codes := codes (pending_ s) ++ frame; frames := frames (pending_ s) + 1;
                                      code_groups := code_groups (pending_ s) |};
                       emitted_frames_ := emitted_frames_ s |});;
    s ← io_get;
    if frames (pending_ s) <? chunk_frames (options_ s) then mret None else decode_pending.

Definition flush : io StreamDecoder (option (@AudioBuffer Float)) := decode_pending.
End decoder.

(** * Frames in pieces

    A decoder that makes audio of a row of frames can be asked for a long utterance in
    pieces: each is decoded together with some frames before it, and what the decoder makes
    of those is dropped. Both decoders of the program do this, one inside the other. *)

Local Open Scope nat_scope.

Definition spf : nat := Z.to_nat kQwen3TTSSamplesPerCodecFrame.

Lemma samples_of_frames n : Z.to_nat (Z.of_nat n * kQwen3TTSSamplesPerCodecFrame) = n * spf.
Proof. unfold spf. rewrite Z2Nat.inj_mul by (lia || discriminate). by rewrite Nat2Z.id. Qed.

Lemma samples_of_frames_Z n : (Z.of_nat n * kQwen3TTSSamplesPerCodecFrame = Z.of_nat (n * spf))%Z.
Proof. unfold spf. rewrite Nat2Z.inj_mul, Z2Nat.id by (unfold kQwen3TTSSamplesPerCodecFrame; lia). done. Qed.

Lemma spf_value : Z.of_nat spf = kQwen3TTSSamplesPerCodecFrame ∧ (0 < kQwen3TTSSamplesPerCodecFrame)%Z.
Proof. split; reflexivity. Qed.

#[local] Opaque spf kQwen3TTSSamplesPerCodecFrame kChunkCodes kLeftContextCodes.

Definition lastn {A} (n : nat) (l : list A) : list A := drop (length l - n) l.

Lemma lastn_short {A} n (l : list A) : length l <= n → lastn n l = l.
Proof. intros H. unfold lastn. by replace (length l - n) with 0 by lia. Qed.

Lemma lastn_app {A} n (a b : list A) : n <= length b → lastn n (a ++ b) = lastn n b.
Proof.
  intros H. unfold lastn. rewrite length_app, drop_app_ge by lia. f_equal. lia.
Qed.

Lemma length_lastn {A} n (l : list A) : length (lastn n l) = Nat.min n (length l).
Proof. unfold lastn. rewrite length_drop. lia. Qed.

Lemma lastn_split {A} n (l : list A) : l = take (length l - n) l ++ lastn n l.
Proof. symmetry. apply take_drop. Qed.

Lemma lastn_absorb {A} m n (a b : list A) : m <= n → lastn m (a ++ b) = lastn m (lastn n a ++ b).
Proof.
  intros H. destruct (Nat.le_gt_cases (length a) n) as [Ha|Ha]; [by rewrite (lastn_short n a)|].
  rewrite (lastn_split n a) at 1. rewrite <- app_assoc. apply lastn_app.
  rewrite length_app, length_lastn. lia.
Qed.

Lemma lastn_lastn {A} m n (a : list A) : m <= n → lastn m (lastn n a) = lastn m a.
Proof. intros H. pose proof (lastn_absorb m n a [] H) as E. by rewrite !app_nil_r in E. Qed.

(** A vector of rows of [g] elements. *)
Lemma drop_rows {A} g n (rows : list (list A)) :
  Forall (λ r, length r = g) rows → drop (n * g) (concat rows) = concat (drop n rows).
Proof.
  intros H. revert n. induction H as [|r rows Hr _ IH]; intros n; [cbn [concat]; by rewrite !drop_nil|].
  destruct n as [|n]; [done|]. cbn [concat drop]. rewrite drop_app_ge by (cbn; lia).
  rewrite <- IH. f_equal. cbn. lia.
Qed.

Lemma take_rows {A} g n (rows : list (list A)) :
  Forall (λ r, length r = g) rows → take (n * g) (concat rows) = concat (take n rows).
Proof.
  intros H. revert n. induction H as [|r rows Hr _ IH]; intros n; [cbn [concat]; by rewrite !take_nil|].
  destruct n as [|n]; [done|]. cbn [concat take]. rewrite take_app_ge by (cbn; lia). f_equal.
  rewrite <- IH. f_equal. cbn. lia.
Qed.

Lemma length_rows {A} g (rows : list (list A)) : Forall (λ r, length r = g) rows → length (concat rows) = length rows * g.
Proof. induction 1 as [|r rows Hr _ IH]; [done|]. cbn [concat length]. rewrite length_app, IH. lia. Qed.

Section pieces.
Context {A Float : Type}.

Fixpoint pieces_loop (fuel n : nat) (rows : list A) : list (list A) :=
  match fuel, rows with
  | S fuel, _ :: _ => take n rows :: pieces_loop fuel n (drop n rows)
  | _, _ => []
  end.

(** Pieces of [n], the last one possibly shorter. *)
Definition pieces (n : nat) (rows : list A) : list (list A) := pieces_loop (length rows) n rows.

(** The audio of a piece, decoded behind the frames [before]. *)
Definition behind (make : list A → list Float) (before piece : list A) : list Float :=
  take (length piece * spf) (drop (length before * spf) (make (before ++ piece))).

(** The audio of the pieces, each decoded behind the last [reach] frames before it. *)
Fixpoint in_windows (make : list A → list Float) (reach : nat) (before : list A) (ps : list (list A)) : list (list Float) :=
  match ps with
  | [] => []
  | p :: ps => behind make (lastn reach before) p :: in_windows make reach (before ++ p) ps
  end.

Lemma pieces_loop_enough fuel n rows : 0 < n → length rows <= fuel → pieces_loop fuel n rows = pieces n rows.
Proof.
  intros Hn. unfold pieces. revert rows. cut (∀ f g rows, length rows <= f → length rows <= g → pieces_loop f n rows = pieces_loop g n rows).
  { intros H rows Hf. by apply H. }
  intros f. induction f as [|f IH]; intros [|g] [|x rows] Hf Hg; try done; cbn [length] in *; try lia.
  cbn [pieces_loop]. f_equal. apply IH; rewrite length_drop; cbn [length]; lia.
Qed.

Lemma pieces_step n rows : 0 < n → rows ≠ [] → pieces n rows = take n rows :: pieces n (drop n rows).
Proof.
  intros Hn Hr. destruct rows as [|x rows]; [done|]. unfold pieces at 1. cbn [length pieces_loop]. f_equal.
  apply pieces_loop_enough; [done|]. rewrite length_drop. cbn [length]. lia.
Qed.

Lemma pieces_short n rows : 0 < n → rows ≠ [] → length rows <= n → pieces n rows = [rows].
Proof. intros Hn Hr Hl. by rewrite pieces_step, take_ge, drop_ge. Qed.

Lemma pieces_full n full rest :
  0 < n → Forall (λ p, length p = n) full → pieces n (concat full ++ rest) = full ++ pieces n rest.
Proof.
  intros Hn. induction 1 as [|p full Hp _ IH]; [done|]. cbn [concat]. rewrite <- app_assoc.
  rewrite pieces_step by (done || by destruct p; cbn in Hp; [lia|]).
  rewrite take_app_length', drop_app_length' by done. by rewrite IH.
Qed.

Lemma pieces_exact n full : 0 < n → Forall (λ p, length p = n) full → pieces n (concat full) = full.
Proof. intros Hn Hf. pose proof (pieces_full n full [] Hn Hf) as E. by rewrite !app_nil_r in E. Qed.

Lemma pieces_ind (n : nat) (P : list A → Prop) :
  0 < n → P [] → (∀ rows, rows ≠ [] → P (drop n rows) → P rows) → ∀ rows, P rows.
Proof.
  intros Hn H0 HS rows. remember (length rows) as k eqn:E. revert rows E. induction k as [k IH] using lt_wf_ind. intros rows ->.
  destruct rows as [|x rows]; [done|]. apply HS; [done|]. eapply IH; [|done]. rewrite length_drop. cbn [length]. lia.
Qed.

Lemma concat_pieces n rows : 0 < n → concat (pieces n rows) = rows.
Proof.
  intros Hn. pattern rows. apply (pieces_ind n); [done|done|]. clear rows. intros rows Hr IH.
  rewrite pieces_step by done. cbn [concat]. by rewrite IH, take_drop.
Qed.

Lemma in_windows_app make reach before ps qs :
  in_windows make reach before (ps ++ qs) = in_windows make reach before ps ++ in_windows make reach (before ++ concat ps) qs.
Proof.
  revert before. induction ps as [|p ps IH]; intros before; cbn [in_windows app concat]; [by rewrite app_nil_r|].
  by rewrite IH, <- app_assoc.
Qed.
End pieces.

Section windows.
Context {Float : Type} (groups : nat) (heard : list (list Z) → list Float).

Notation uniform := (Forall (λ row : list Z, length row = groups)).

(** The network answers a window of frames, and with at least 1920 samples for each of
    them; the decoder refuses an answer that is shorter. Nothing is known of how far back
    the frames are that a sample depends on. *)
Class SizedNetwork (network : Z → list Z → outcome (list Float)) := {
  network_answers rows : rows ≠ [] → uniform rows → network (Z.of_nat (length rows)) (concat rows) = Ok (heard rows);
  network_size rows : rows ≠ [] → uniform rows → length rows * spf <= length (heard rows);
}.

Context (network : Z → list Z → outcome (list Float)) `{sized : !SizedNetwork network}.

Definition chunk_rows : nat := Z.to_nat kChunkCodes.
Definition left_rows : nat := Z.to_nat kLeftContextCodes.

(** What the decoder of whole utterances makes of frames. *)
Definition whole (rows : list (list Z)) : list Float := concat (in_windows heard left_rows [] (pieces chunk_rows rows)).

Lemma length_behind (make : list (list Z) → list Float) before piece :
  length (before ++ piece) * spf <= length (make (before ++ piece)) → length (behind make before piece) = length piece * spf.
Proof. intros H. unfold behind. rewrite length_app in H. rewrite length_take, length_drop. nia. Qed.

Lemma length_in_windows (make : list (list Z) → list Float) reach n before rows :
  (∀ rows, rows ≠ [] → uniform rows → length rows * spf <= length (make rows)) → 0 < n → uniform before → uniform rows →
  length (concat (in_windows make reach before (pieces n rows))) = length rows * spf.
Proof.
  intros Hsize Hn. revert before. pattern rows. apply (pieces_ind n); [done|done|]. clear rows. intros rows Hr IH before Hb Hu.
  rewrite pieces_step by done. cbn [in_windows concat]. rewrite length_app.
  assert (0 < length rows) as Hl by (destruct rows; [done|cbn; lia]).
  rewrite length_behind, IH; [| |by apply Forall_drop|].
  - rewrite <- (take_drop n rows) at 3. rewrite length_app. nia.
  - apply Forall_app. split; [done|by apply Forall_take].
  - apply Hsize.
    + intros [_ E]%app_eq_nil. apply (f_equal length) in E. rewrite length_take in E. cbn in E. lia.
    + apply Forall_app. split; [by apply Forall_drop|by apply Forall_take].
Qed.

Lemma chunk_rows_pos : 0 < chunk_rows.
Proof. unfold chunk_rows. assert (0 < kChunkCodes)%Z by done. lia. Qed.

Lemma length_whole rows : uniform rows → length (whole rows) = length rows * spf.
Proof.
  intros Hu. apply length_in_windows; [exact network_size|apply chunk_rows_pos|by apply Forall_nil|done].
Qed.

Definition codes_of (rows : list (list Z)) : Qwen3SpeechCodes :=
  {| codes := concat rows; frames := Z.of_nat (length rows); code_groups := Z.of_nat groups |}.

Lemma range_rows from to rows :
  uniform rows → from <= to →
  range (Z.of_nat from * Z.of_nat groups) (Z.of_nat to * Z.of_nat groups) (concat rows) = concat (take (to - from) (drop from rows)).
Proof.
  intros Hu Hle. unfold range.
  replace (Z.to_nat (Z.of_nat to * Z.of_nat groups - Z.of_nat from * Z.of_nat groups)) with ((to - from) * groups) by nia.
  replace (Z.to_nat (Z.of_nat from * Z.of_nat groups)) with (from * groups) by lia.
  rewrite (drop_rows groups) by done. apply take_rows. by apply Forall_drop.
Qed.

Lemma decode_chunk_rows rows n :
  uniform rows → n < length rows →
  decode_chunk network (codes_of rows) (Z.of_nat n) =
  Ok (behind heard (lastn left_rows (take n rows)) (take chunk_rows (drop n rows))).
Proof.
  intros Hu Hn. unfold decode_chunk. cbn [codes_of frames code_groups codes]. cbv zeta. pose proof chunk_rows_pos as Hchunk. unfold chunk_rows in *.
  assert (0 <= kLeftContextCodes)%Z as Hleft by done. set (before := lastn left_rows (take n rows)). set (p := take (Z.to_nat kChunkCodes) (drop n rows)).
  assert (length before = Nat.min left_rows n) as Hb by (subst before; rewrite length_lastn, length_take; lia).
  assert (length p = Nat.min (Z.to_nat kChunkCodes) (length rows - n)) as Hp by (subst p; by rewrite length_take, length_drop).
  unfold left_rows in *. set (c := length before) in *. set (m := length p) in *.
  assert ((if (kLeftContextCodes <? Z.of_nat n)%Z then kLeftContextCodes else Z.of_nat n) = Z.of_nat c) as ->.
  { case_bool; lia. }
  replace (Z.min (Z.of_nat n + kChunkCodes) (Z.of_nat (length rows)))%Z with (Z.of_nat (n + m)) by lia.
  replace (Z.of_nat n - Z.of_nat c)%Z with (Z.of_nat (n - c)) by lia.
  replace (Z.of_nat (n + m) - Z.of_nat (n - c))%Z with (Z.of_nat (c + m)) by lia.
  rewrite <- Nat2Z.inj_add, range_rows by (done || lia).
  replace (n - c + (c + m) - (n - c)) with (c + m) by lia.
  assert (take (c + m) (drop (n - c) rows) = before ++ p) as Ew.
  { rewrite <- (take_drop n rows) at 1. rewrite drop_app_le by (rewrite length_take; lia).
    assert (drop (n - c) (take n rows) = before) as ->.
    { subst before. unfold lastn. f_equal. rewrite length_take. lia. }
    rewrite take_app_ge by (fold c; lia). fold c. f_equal. replace (c + m - c) with m by lia. subst p.
    destruct (Nat.le_gt_cases (Z.to_nat kChunkCodes) (length (drop n rows))) as [H|H]; rewrite length_drop in H.
    - by replace m with (Z.to_nat kChunkCodes) by lia.
    - rewrite !take_ge by (rewrite length_drop; lia). done. }
  rewrite Ew. assert (length (before ++ p) = c + m) as Hw by by rewrite length_app.
  assert (before ++ p ≠ []) as Hne by (intros E; rewrite E in Hw; cbn in Hw; lia).
  assert (uniform (before ++ p)) as Huw by (apply Forall_app; split; [by apply Forall_drop, Forall_take|by apply Forall_take, Forall_drop]).
  rewrite <- Hw, network_answers by done. pose proof (network_size _ Hne Huw) as Hsize. cbn [mbind outcome_bind].
  rewrite !samples_of_frames_Z, !(proj2 (Z.ltb_ge _ _)) by nia. cbn [orb]. f_equal. unfold range, behind. fold c m.
  rewrite Nat2Z.id. f_equal. rewrite Hw. nia.
Qed.

Lemma decode_loop_rows fuel rows n samples :
  uniform rows → length rows <= n + fuel → n <= length rows →
  decode_loop network fuel (codes_of rows) (Z.of_nat n) samples =
  Ok (samples ++ concat (in_windows heard left_rows (take n rows) (pieces chunk_rows (drop n rows)))).
Proof.
  intros Hu. pose proof chunk_rows_pos as Hchunk.
  assert (∀ fuel n samples, length rows <= n → decode_loop network fuel (codes_of rows) (Z.of_nat n) samples = Ok samples) as Hend.
  { intros [|f] n' s' H'; cbn [decode_loop]; [done|]. cbn [codes_of frames]. by rewrite (proj2 (Z.ltb_ge _ _)) by lia. }
  revert n samples. induction fuel as [|fuel IH]; intros n samples Hf Hn;
    (destruct (decide (n = length rows)) as [->|Hne]; [rewrite Hend by lia; rewrite drop_all; cbn; by rewrite app_nil_r|]); [lia|].
  cbn [decode_loop]. cbn [codes_of frames]. rewrite (proj2 (Z.ltb_lt _ _)) by lia. fold (codes_of rows).
  rewrite decode_chunk_rows by (done || lia). cbn [mbind outcome_bind].
  assert (drop n rows ≠ []) as Hd by (intros E; apply (f_equal length) in E; rewrite length_drop in E; cbn in E; lia).
  rewrite (pieces_step _ (drop n rows)) by done. cbn [in_windows concat]. rewrite app_assoc, drop_drop.
  replace (take n rows ++ take chunk_rows (drop n rows)) with (take (n + chunk_rows) rows) by (by rewrite take_take_drop).
  replace (Z.of_nat n + kChunkCodes)%Z with (Z.of_nat (n + chunk_rows)) by (unfold chunk_rows in *; lia).
  destruct (Nat.le_gt_cases (length rows) (n + chunk_rows)) as [Hl|Hl].
  - rewrite Hend, (drop_ge rows (n + chunk_rows)) by lia. cbn. by rewrite app_nil_r.
  - apply IH; lia.
Qed.

(** An utterance is decoded in pieces of [kChunkCodes] frames behind [kLeftContextCodes]. *)
Lemma decode_rows rows :
  uniform rows → rows ≠ [] →
  decode (Z.of_nat groups) network (codes_of rows) =
  Ok {| buffer_rate := kQwen3TTSSampleRate; buffer_channels := 1; buffer_samples := whole rows |}.
Proof.
  intros Hu Hne. unfold decode. cbn [codes_of frames code_groups codes].
  assert (0 < length rows) by (destruct rows; [done|cbn; lia]).
  rewrite (proj2 (Z.leb_gt _ _)), Z.eqb_refl by lia. cbn [orb negb].
  rewrite (length_rows groups), Nat2Z.inj_mul, Z.eqb_refl by done. cbn [negb].
  rewrite Nat2Z.id. fold (codes_of rows). pose proof (decode_loop_rows (length rows) rows 0 []) as H0.
  change (Z.of_nat 0) with 0%Z in H0. cbn [take app drop] in H0. by rewrite H0 by (done || lia).
Qed.

(** * The stream keeps its place *)

Context (options : Qwen3TTSStreamDecoderOptions) (reference : list (list Z)).
Context (chunk context : nat) (Hchunk : chunk_frames options = Z.of_nat chunk) (Hcontext : context_frames options = Z.of_nat context).
Context (Hpos : 0 < chunk).

Notation decode_ := (decode (Z.of_nat groups) network).

(** After [done], with [waiting] not yet decoded. *)
Definition stream_at (done waiting : list (list Z)) : StreamDecoder :=
  {| groups_ := Z.of_nat groups; options_ := options; context_ := codes_of (lastn context (reference ++ done));
     pending_ := codes_of waiting; emitted_frames_ := Z.of_nat (length done) |}.

Definition audio_of (samples : list Float) : @AudioBuffer Float :=
  {| buffer_rate := kQwen3TTSSampleRate; buffer_channels := 1; buffer_samples := samples |}.

(** The audio of frames that follow the frames [reference ++ before], as one piece. *)
Definition heard_after (before rows : list (list Z)) : list Float := behind whole (lastn context (reference ++ before)) rows.

Lemma length_heard_after before rows :
  uniform reference → uniform before → uniform rows → length (heard_after before rows) = length rows * spf.
Proof.
  intros Hr Hb Hu. apply length_behind. rewrite length_whole; [done|].
  apply Forall_app. split; [by apply Forall_drop, Forall_app|done].
Qed.

Lemma tail_frames_rows rows : uniform rows → tail_frames (codes_of rows) (Z.of_nat context) = codes_of (lastn context rows).
Proof.
  intros Hu. unfold tail_frames. cbn [codes_of frames code_groups codes]. unfold codes_of. f_equal.
  - unfold lastn. rewrite <- (drop_rows groups) by done. f_equal.
    replace (_ - _)%Z with (Z.of_nat (length rows - context)) by lia. by rewrite <- Nat2Z.inj_mul, Nat2Z.id.
  - rewrite length_lastn. lia.
Qed.

Lemma decode_pending_rows done waiting :
  uniform reference → uniform done → uniform waiting → waiting ≠ [] →
  decode_pending decode_ (stream_at done waiting) =
  (Ok (Some (audio_of (heard_after done waiting))), stream_at (done ++ waiting) []).
Proof.
  intros Hur Hud Huw Hne. unfold decode_pending, mbind, io_bind, io_get, io_lift. cbn [stream_at pending_ context_ groups_ codes_of frames codes].
  assert (0 < length waiting) by (destruct waiting; [by destruct Hne|cbn; lia]).
  rewrite (proj2 (Z.eqb_neq _ _)) by lia. set (before := lastn context (reference ++ done)).
  assert (uniform (reference ++ done)) as Hub by by apply Forall_app.
  assert (uniform (before ++ waiting)) as Hu by (apply Forall_app; split; [by apply Forall_drop|done]).
  assert ({| codes := concat before ++ concat waiting; frames := Z.of_nat (length before) + Z.of_nat (length waiting);
             code_groups := Z.of_nat groups |} = codes_of (before ++ waiting)) as Hw.
  { unfold codes_of. by rewrite concat_app, length_app, Nat2Z.inj_add. }
  rewrite Hw, decode_rows; [|done|intros E; destruct before; [by destruct waiting|done]].
  cbn [buffer_samples buffer_rate buffer_channels].
  assert (length (whole (before ++ waiting)) = (length before + length waiting) * spf) as Hl by by rewrite length_whole, length_app.
  rewrite Hl, !samples_of_frames_Z. rewrite !(proj2 (Z.ltb_ge _ _)) by nia. cbn [orb]. unfold io_modify, mret, io_ret. f_equal.
  - do 2 f_equal. unfold audio_of. f_equal. unfold range.
    replace (Z.to_nat _) with (length waiting * spf) by nia. by rewrite Nat2Z.id.
  - unfold stream_at. cbn [groups_ options_ emitted_frames_ code_groups codes_of pending_ frames].
    rewrite Hcontext, tail_frames_rows by done.
    assert (lastn context (before ++ waiting) = lastn context (reference ++ done ++ waiting)) as ->.
    { subst before. rewrite app_assoc. symmetry. by apply lastn_absorb. }
    by rewrite length_app, Nat2Z.inj_add.
Qed.

(** The frames pushed one by one: what each push returns. *)
Fixpoint push_all (rows : list (list Z)) : io StreamDecoder (list (option (@AudioBuffer Float))) :=
  match rows with
  | [] => mret []
  | row :: rows =>
      audio ← push_frame decode_ row;
      rest ← push_all rows;
      mret (audio :: rest)
  end.

Definition samples_heard (outputs : list (option (@AudioBuffer Float))) : list Float :=
  concat (map (λ o, from_option buffer_samples [] o) outputs).

Lemma push_frame_rows done waiting row :
  uniform reference → uniform done → uniform waiting → length row = groups → length waiting < chunk →
  push_frame decode_ row (stream_at done waiting) =
  if S (length waiting) =? chunk
  then (Ok (Some (audio_of (heard_after done (waiting ++ [row])))), stream_at (done ++ waiting ++ [row]) [])
  else (Ok None, stream_at done (waiting ++ [row])).
Proof.
  intros Hur Hud Huw Hrow Hw. unfold push_frame, mbind at 1, io_bind at 1, io_get at 1. cbn [stream_at groups_].
  rewrite Hrow, Z.eqb_refl. cbn [negb]. unfold mbind at 1, io_bind at 1, io_modify.
  match goal with |- context [{| groups_ := _; options_ := _; context_ := _; pending_ := ?p; emitted_frames_ := _ |}] =>
    assert (p = codes_of (waiting ++ [row])) as Ep end.
  { unfold codes_of. cbn [pending_ codes frames code_groups stream_at]. rewrite concat_app, length_app. cbn [concat length].
    by rewrite app_nil_r, Nat2Z.inj_add. }
  rewrite Ep. cbn [groups_ options_ context_ emitted_frames_ stream_at]. fold (stream_at done (waiting ++ [row])).
  unfold mbind, io_bind, io_get. cbn [stream_at options_ pending_ codes_of frames]. rewrite Hchunk, length_app. cbn [length].
  destruct (Nat.eqb_spec (S (length waiting)) chunk) as [Hc|Hc].
  - rewrite (proj2 (Z.ltb_ge _ _)) by lia. fold (codes_of (waiting ++ [row])). fold (stream_at done (waiting ++ [row])).
    apply decode_pending_rows; try done; [|by destruct waiting].
    apply Forall_app. split; [done|]. by apply Forall_singleton.
  - rewrite (proj2 (Z.ltb_lt _ _)) by lia. done.
Qed.

(** A push that returns nothing is not heard. *)
Lemma samples_omap outputs : concat (map buffer_samples (omap id outputs)) = samples_heard outputs.
Proof.
  induction outputs as [|[a|] outputs IH]; [done| |exact IH]. unfold samples_heard in *. cbn. by rewrite IH.
Qed.

Lemma samples_map l : concat (map buffer_samples (map audio_of l)) = concat l.
Proof. rewrite map_map. cbn. by rewrite map_id. Qed.

(** The pieces that are full are decoded, the rest waits. *)
Lemma push_all_rows rows done waiting :
  uniform reference → uniform done → uniform waiting → uniform rows → length waiting < chunk →
  ∃ outputs full waiting', push_all rows (stream_at done waiting) = (Ok outputs, stream_at (done ++ concat full) waiting') ∧
    concat full ++ waiting' = waiting ++ rows ∧ length waiting' < chunk ∧ Forall (λ p, length p = chunk) full ∧
    omap id outputs = map audio_of (in_windows whole context (reference ++ done) full).
Proof.
  intros Hur Hud Huw Hu. revert done waiting Hud Huw. induction Hu as [|row rows Hrow Hu IH]; intros done waiting Hud Huw Hw.
  { exists [], [], waiting. cbn [concat]. rewrite !app_nil_r. by split_and!. }
  assert (uniform (waiting ++ [row])) as Huw' by (apply Forall_app; split; [done|by apply Forall_singleton]).
  cbn [push_all]. pose proof (push_frame_rows done waiting row Hur Hud Huw Hrow Hw) as Hp.
  destruct (Nat.eqb_spec (S (length waiting)) chunk) as [Hc|Hc]; rewrite (io_bind_ok _ _ _ _ _ Hp).
  - destruct (IH (done ++ waiting ++ [row]) []) as (outputs & full & waiting' & Hpush & Happ & Hlen & Hfull & Hs).
    + by apply Forall_app.
    + by apply Forall_nil.
    + cbn. lia.
    + rewrite (io_bind_ok _ _ _ _ _ Hpush). eexists _, ((waiting ++ [row]) :: full), waiting'. cbn [concat].
      split; [by rewrite <- (app_assoc done)|]. split; [rewrite <- app_assoc, Happ, <- app_assoc; done|]. split; [done|].
      split; [apply Forall_cons; split; [rewrite length_app; cbn; lia|done]|].
      cbn [omap list_omap id in_windows map]. by rewrite Hs, (app_assoc reference).
  - destruct (IH done (waiting ++ [row])) as (outputs & full & waiting' & Hpush & Happ & Hrest); [done|done|rewrite length_app; cbn; lia|].
    rewrite (io_bind_ok _ _ _ _ _ Hpush). eexists _, full, waiting'. split; [done|]. split; [by rewrite Happ, <- app_assoc|done].
Qed.

Lemma flush_rows done waiting :
  uniform reference → uniform done → uniform waiting → length waiting < chunk →
  ∃ output, flush decode_ (stream_at done waiting) = (Ok output, stream_at (done ++ waiting) []) ∧
    omap id [output] = map audio_of (in_windows whole context (reference ++ done) (pieces chunk waiting)).
Proof.
  intros Hur Hud Huw Hl. unfold flush. destruct waiting as [|row waiting].
  - exists None. rewrite app_nil_r. done.
  - rewrite decode_pending_rows by done. eexists. split; [done|]. by rewrite pieces_short by (done || lia).
Qed.

(** The prompt of a voice clone, or none. *)
Definition starts_with (o : option Qwen3SpeechCodes) : Prop :=
  (o = Some (codes_of reference) ∧ uniform reference ∧ Z.of_nat (length reference) <= Z.quot int64_max (Z.of_nat groups))%Z ∨
  (o = None ∧ reference = []).

Lemma starts_uniform o : starts_with o → uniform reference.
Proof. intros [(_ & H & _)|[_ ->]]; [done|by apply Forall_nil]. Qed.

Lemma make_stream_rows o :
  0 < groups → starts_with o → make_stream_decoder (Z.of_nat groups) options o = Ok (stream_at [] []).
Proof.
  intros Hg Ho. unfold make_stream_decoder. rewrite (proj2 (Z.leb_gt _ _)) by lia.
  rewrite Hchunk, (proj2 (Z.leb_gt _ _)) by lia. rewrite Hcontext, (proj2 (Z.ltb_ge _ _)) by lia.
  unfold stream_reset, set_reference_context, mbind, io_bind, io_modify, io_get, io_lift, mret, io_ret.
  destruct Ho as [(-> & Hu & Hb)|[-> Href]].
  - unfold validate_codes. cbn [codes_of frames code_groups codes groups_]. rewrite (proj2 (Z.ltb_ge _ _)), Z.eqb_refl by lia. cbn [orb negb].
    rewrite (proj2 (Z.ltb_ge _ _)) by lia. rewrite (length_rows groups), Nat2Z.inj_mul, Z.eqb_refl by done. cbn [orb negb].
    fold (codes_of reference). unfold stream_at. cbn [options_ groups_ emitted_frames_ pending_].
    rewrite Hcontext, tail_frames_rows by done. by rewrite app_nil_r.
  - unfold stream_at. by rewrite Href.
Qed.

(** What a session that does not stream makes of the same frames. *)
Definition offline (o : option Qwen3SpeechCodes) (generated : Qwen3SpeechCodes) : outcome (@AudioBuffer Float) :=
  match o with
  | Some reference => decode_and_trim_reference (Z.of_nat groups) network reference generated
  | None => decode (Z.of_nat groups) network generated
  end.

Lemma offline_rows o rows :
  0 < groups → starts_with o → uniform rows → rows ≠ [] →
  (Z.of_nat (length (reference ++ rows)) * Z.of_nat (groups + spf) <= int64_max)%Z →
  offline o (codes_of rows) = Ok (audio_of (drop (length reference * spf) (whole (reference ++ rows)))).
Proof.
  intros Hg Ho Hu Hne Hbound. pose proof (starts_uniform o Ho) as Hur. rewrite length_app in Hbound.
  destruct Ho as [(-> & _ & _)|[-> Href]]; [|rewrite Href, drop_0; by apply decode_rows].
  unfold offline, decode_and_trim_reference. cbn [codes_of frames code_groups codes]. rewrite Z.eqb_refl. cbn [negb].
  rewrite !(proj2 (Z.ltb_ge _ 0)), (proj2 (Z.leb_gt _ _)) by lia. cbn [orb].
  rewrite (proj2 (Z.ltb_ge _ _)) by nia.
  assert (∀ n m, 0 < m → n * m <= int64_max → n <= Z.quot int64_max m)%Z as Hq.
  { intros n m Hm H. apply Z.quot_le_lower_bound; lia. }
  rewrite (proj2 (Z.ltb_ge _ _)) by (apply Hq; nia).
  assert (int64_max <= size_max)%Z by done.
  rewrite (proj2 (Z.ltb_ge _ _)) by nia.
  assert ({| codes := concat reference ++ concat rows; frames := Z.of_nat (length reference) + Z.of_nat (length rows);
             code_groups := Z.of_nat groups |} = codes_of (reference ++ rows)) as ->.
  { unfold codes_of. by rewrite concat_app, length_app, Nat2Z.inj_add. }
  rewrite decode_rows; [|by apply Forall_app|by destruct reference, rows]. cbn [mbind outcome_bind buffer_samples buffer_rate buffer_channels].
  pose proof spf_value as [Hspf Hspf0].
  rewrite (proj2 (Z.ltb_ge _ _)) by (apply Hq; [done|nia]).
  rewrite samples_of_frames_Z, length_whole, (proj2 (Z.ltb_ge _ _)) by (by apply Forall_app || (rewrite length_app; nia)).
  by rewrite Nat2Z.id.
Qed.

(** C2. What streaming speech sounds like: the buffers a streaming decoder returns for
    frames pushed one by one and a final flush are one for each piece of [chunk] frames,
    decoded behind the last [context] frames before it, those of the reference included;
    the session that does not stream decodes reference and frames in pieces of 300 behind 25,
    and drops the reference. Both make exactly 1920 samples of every frame, nothing stays
    pending, and an utterance of one piece whose reference fits the context sounds the same
    both ways. Nothing is asked of the network but to answer with 1920 samples a frame or
    more; how far back its frames matter decides how alike the two are otherwise. *)
Theorem stream_windows o rows :
  0 < groups → starts_with o → uniform rows → rows ≠ [] →
  (Z.of_nat (length (reference ++ rows)) * Z.of_nat (groups + spf) <= int64_max)%Z →
  ∃ s outputs s' last s'' audio,
    make_stream_decoder (Z.of_nat groups) options o = Ok s ∧ push_all rows s = (Ok outputs, s') ∧
    flush decode_ s' = (Ok last, s'') ∧ offline o (codes_of rows) = Ok audio ∧
    omap id (outputs ++ [last]) = map audio_of (in_windows whole context reference (pieces chunk rows)) ∧
    audio = audio_of (drop (length reference * spf) (whole (reference ++ rows))) ∧
    length (samples_heard (outputs ++ [last])) = length rows * spf ∧ length (buffer_samples audio) = length rows * spf ∧
    (length reference <= context → length rows <= chunk → samples_heard (outputs ++ [last]) = buffer_samples audio) ∧
    frames (pending_ s'') = 0%Z ∧ emitted_frames_ s'' = Z.of_nat (length rows).
Proof.
  intros Hg Ho Hu Hne Hbound. pose proof (starts_uniform o Ho) as Hur.
  destruct (push_all_rows rows [] []) as (outputs & full & waiting & Hpush & Happ & Hw & Hfull & Hs); try done; try by apply Forall_nil.
  cbn [app] in Hpush, Happ. rewrite app_nil_r in Hs.
  assert (uniform (concat full) ∧ uniform waiting) as [Huf Huw] by (apply Forall_app; by rewrite Happ).
  destruct (flush_rows (concat full) waiting) as (last & Hflush & Hl); [done..|]. rewrite Happ in Hflush.
  eexists _, outputs, _, last, _, _. split; [by apply make_stream_rows|]. split; [exact Hpush|]. split; [exact Hflush|].
  split; [by apply offline_rows|].
  assert (omap id (outputs ++ [last]) = map audio_of (in_windows whole context reference (pieces chunk rows))) as Hheard.
  { rewrite omap_app, Hs, Hl, <- map_app, <- Happ, pieces_full, in_windows_app by done. done. }
  rewrite <- samples_omap, Hheard, samples_map. cbn [audio_of buffer_samples]. rewrite length_drop, length_whole, length_app by by apply Forall_app.
  split; [done|]. split; [done|]. split; [apply length_in_windows; try done; intros; by rewrite length_whole|]. split; [lia|]. split; [|done].
  intros Hfit Hone. rewrite pieces_short by done. cbn [in_windows concat]. rewrite app_nil_r. unfold behind. rewrite lastn_short by done.
  apply take_ge. rewrite length_drop, length_whole, length_app by by apply Forall_app. lia.
Qed.

(** The stream lags by less than a chunk: after any number of pushes every frame
    is either decoded or pending, in order, fewer than a chunk are pending, and the
    samples returned so far are those of the decoded frames, 1920 each. *)
Theorem stream_lag_bounded o rows :
  0 < groups → starts_with o → uniform rows →
  ∃ s outputs s', make_stream_decoder (Z.of_nat groups) options o = Ok s ∧ push_all rows s = (Ok outputs, s') ∧
    (emitted_frames_ s' + frames (pending_ s') = Z.of_nat (length rows))%Z ∧
    (0 <= frames (pending_ s') < chunk_frames options)%Z ∧
    codes (pending_ s') = drop (Z.to_nat (emitted_frames_ s') * groups) (concat rows) ∧
    Z.of_nat (length (samples_heard outputs)) = (emitted_frames_ s' * kQwen3TTSSamplesPerCodecFrame)%Z.
Proof.
  intros Hg Ho Hu. pose proof (starts_uniform o Ho) as Hur.
  destruct (push_all_rows rows [] []) as (outputs & full & waiting & Hpush & Happ & Hw & Hfull & Hs); try done; try by apply Forall_nil.
  cbn [app] in Hpush, Happ. subst rows. apply Forall_app in Hu as [Huf Huw]. eexists _, outputs, _. split; [by apply make_stream_rows|]. split; [exact Hpush|].
  cbn [stream_at emitted_frames_ pending_ codes_of frames codes]. split; [rewrite length_app; lia|]. split; [lia|].
  split; [by rewrite Nat2Z.id, (drop_rows groups), drop_app_length by by apply Forall_app|].
  rewrite app_nil_r in Hs. rewrite <- samples_omap, Hs, samples_map, samples_of_frames_Z. f_equal.
  rewrite <- (pieces_exact chunk full) at 1 by done. apply length_in_windows; try done. intros; by rewrite length_whole.
Qed.
End windows.

(** * A network that remembers everything *)

Module Echo.

Definition sum (row : list Z) : Z := foldr Z.add 0%Z row.

(** A frame sounds like all the frames before it added up. *)
Fixpoint echo (before : Z) (codes : list Z) : list Z :=
  match codes with
  | [] => []
  | c :: codes => repeat (before + c)%Z spf ++ echo (before + c) codes
  end.

Definition network (_ : Z) (codes : list Z) : outcome (list Z) := Ok (echo 0 codes ++ [0%Z]).

#[export] Instance sized : SizedNetwork 1 (λ rows, echo 0 (concat rows) ++ [0%Z]) network.
Proof.
  split; [done|]. intros rows _ Hu. rewrite length_app. cut (∀ n, length (echo n (concat rows)) = length rows * spf); [intros H; rewrite H; lia|].
  induction Hu as [|row rows Hrow _ IH]; intros n; [done|]. destruct row as [|x [|y row]]; try done.
  cbn [concat app echo length]. rewrite length_app, repeat_length, IH. done.
Defined.

Definition options : Qwen3TTSStreamDecoderOptions := {| chunk_frames := 2; context_frames := 1 |}.

Definition decoder (rows : list (list Z)) := push_all 1 network rows.

(** The first sample of each frame. *)
Definition frame_values (samples : list Z) : list Z := map (λ i, nth (i * spf) samples 0%Z) (seq 0 (length samples / spf)).

(** Streamed, the third frame is heard behind the second alone. *)
Lemma stream_windows_witness :
  ∃ s outputs s' last s'' audio,
    make_stream_decoder 1 options (Some (codes_of 1 [[7%Z]])) = Ok s ∧ decoder [[1]; [2]; [3]]%Z s = (Ok outputs, s') ∧
    flush (decode 1 network) s' = (Ok last, s'') ∧
    offline 1 network (Some (codes_of 1 [[7%Z]])) (codes_of 1 [[1]; [2]; [3]]%Z) = Ok audio ∧
    frame_values (samples_heard (outputs ++ [last])) = [8; 10; 5]%Z ∧ frame_values (buffer_samples audio) = [8; 10; 13]%Z.
Proof.
  destruct (stream_windows 1 (λ rows, echo 0 (concat rows) ++ [0%Z]) network options [[7%Z]] 2 1) with (o := Some (codes_of 1 [[7%Z]])) (rows := [[1]; [2]; [3]]%Z)
    as (s & outputs & s' & last & s'' & audio & E1 & E2 & E3 & E4 & H1 & -> & _).
  - reflexivity.
  - reflexivity.
  - lia.
  - lia.
  - left. split; [reflexivity|]. split; [by apply Forall_singleton|]. vm_compute. discriminate.
  - repeat (apply Forall_cons; split; [done|]). by apply Forall_nil.
  - done.
  - vm_compute. discriminate.
  - exists s, outputs, s', last, s''. eexists. split_and!; [exact E1|exact E2|exact E3|exact E4| |by vm_compute].
    rewrite <- samples_omap, H1, samples_map. by vm_compute.
Defined.

Lemma stream_lag_bounded_witness :
  ∃ s outputs s', make_stream_decoder 1 options None = Ok s ∧ decoder [[1]; [2]; [3]]%Z s = (Ok outputs, s') ∧
    (emitted_frames_ s' + frames (pending_ s') = Z.of_nat 3)%Z ∧ (0 <= frames (pending_ s') < chunk_frames options)%Z ∧
    codes (pending_ s') = drop (Z.to_nat (emitted_frames_ s') * 1) (concat [[1]; [2]; [3]]%Z) ∧
    Z.of_nat (length (samples_heard outputs)) = (emitted_frames_ s' * kQwen3TTSSamplesPerCodecFrame)%Z.
Proof.
  apply (stream_lag_bounded 1 (λ rows, echo 0 (concat rows) ++ [0%Z]) network options [] 2 1).
  - reflexivity.
  - reflexivity.
  - lia.
  - lia.
  - by right.
  - repeat (apply Forall_cons; split; [done|]). by apply Forall_nil.
Defined.
End Echo.
