(* ===== verification/ForcedAligner.v ===== *)
(** Word timestamps (models/qwen3_forced_aligner/processor.cpp): the words of a
    transcript, the prompt with a pair of timestamp slots per word, and the repair
    of the predicted timestamps into spans. *)

From S2P Require Import Prelude.

(** * UTF-8 characters *)

Record Utf8Char := { codepoint : Z; char_text : bytes }.

(** The length a lead byte announces, and its bits of the code point. *)
Definition lead_of (ch : Z) : option (nat * Z) :=
  if (Z.land ch 128 =? 0)%Z then Some (1, ch)
  else if (Z.land ch 224 =? 192)%Z then Some (2, Z.land ch 31)
  else if (Z.land ch 240 =? 224)%Z then Some (3, Z.land ch 15)
  else if (Z.land ch 248 =? 240)%Z then Some (4, Z.land ch 7)
  else None.

Fixpoint add_tail (cp : Z) (tail : bytes) : outcome Z :=
  match tail with
  | [] => Ok cp
  | t :: tail =>
      if negb (Z.land t 192 =? 128)%Z
      then Throw (str "Qwen3 forced aligner encountered invalid UTF-8 continuation byte")
      else add_tail (Z.lor (Z.shiftl cp 6) (Z.land t 63)) tail
  end.

(** The character in front. *)
Definition first_char (ch : Z) (rest : bytes) : outcome Utf8Char :=
  match lead_of ch with
  | None => Throw (str "Qwen3 forced aligner encountered invalid UTF-8")
  | Some (len, cp) =>
      if S (length rest) <? len then Throw (str "Qwen3 forced aligner encountered truncated UTF-8")
      else
        cp ← add_tail cp (take (len - 1) rest);
        Ok {| codepoint := cp; char_text := ch :: take (len - 1) rest |}
  end.

Fixpoint utf8_loop (fuel : nat) (text : bytes) : outcome (list Utf8Char) :=
  match fuel, text with
  | S fuel, ch :: rest =>
      c ← first_char ch rest;
      more ← utf8_loop fuel (drop (length (char_text c)) text);
      Ok (c :: more)
  | _, _ => Ok []
  end.

Definition utf8_chars (text : bytes) : outcome (list Utf8Char) := utf8_loop (length text) text.

(** * Words *)

Definition between (cp lo hi : Z) : bool := (lo <=? cp)%Z && (cp <=? hi)%Z.

Definition is_cjk (cp : Z) : bool :=
  between cp 0x4E00 0x9FFF || between cp 0x3400 0x4DBF || between cp 0x20000 0x2A6DF || between cp 0x2A700 0x2B73F ||
  between cp 0x2B740 0x2B81F || between cp 0x2B820 0x2CEAF || between cp 0xF900 0xFAFF.

Definition is_ascii_alnum (cp : Z) : bool := between cp 65 90 || between cp 97 122 || between cp 48 57.

Definition is_kept_non_ascii_letter_or_number (cp : Z) : bool :=
  between cp 0xC0 0x2AF || between cp 0x370 0x3FF || between cp 0x400 0x52F || between cp 0xE00 0xE7F ||
  between cp 0x3040 0x30FF || between cp 0xAC00 0xD7AF.

Definition is_kept_char (cp : Z) : bool :=
  (cp =? 39)%Z || is_ascii_alnum cp || is_cjk cp || is_kept_non_ascii_letter_or_number cp.

Definition kept (c : Utf8Char) : bool := is_kept_char (codepoint c).
Definition cjk (c : Utf8Char) : bool := is_cjk (codepoint c).

Definition clean_token (token : bytes) : outcome bytes :=
  chars ← utf8_chars token;
  Ok (concat (map char_text (List.filter kept chars))).

Definition push_nonempty (word : bytes) (words : list bytes) : list bytes :=
  match word with [] => words | _ => words ++ [word] end.

Fixpoint split_loop (chars : list Utf8Char) (buffer : bytes) (out : list bytes) : list bytes :=
  match chars with
  | [] => push_nonempty buffer out
  | c :: chars =>
      if cjk c then split_loop chars [] (push_nonempty buffer out ++ [char_text c])
      else split_loop chars (buffer ++ char_text c) out
  end.

Definition split_segment_with_chinese (segment : bytes) : outcome (list bytes) :=
  chars ← utf8_chars segment;
  Ok (split_loop chars [] []).

Definition is_blank (c : Utf8Char) : bool :=
  (codepoint c =? 32)%Z || (codepoint c =? 9)%Z || (codepoint c =? 10)%Z || (codepoint c =? 13)%Z.

Definition flush_segment (segment : bytes) (words : list bytes) : outcome (list bytes) :=
  match segment with
  | [] => Ok words
  | _ =>
      cleaned ← clean_token segment;
      match cleaned with
      | [] => Ok words
      | _ => split ← split_segment_with_chinese cleaned; Ok (words ++ split)
      end
  end.

Fixpoint space_loop (chars : list Utf8Char) (segment : bytes) (words : list bytes) : outcome (list bytes) :=
  match chars with
  | [] => flush_segment segment words
  | c :: chars =>
      if is_blank c then words ← flush_segment segment words; space_loop chars [] words
      else space_loop chars (segment ++ char_text c) words
  end.

Definition tokenize_space_language (text : bytes) : outcome (list bytes) :=
  chars ← utf8_chars text; space_loop chars [] [].

Definition flush_latin (latin : bytes) (words : list bytes) : outcome (list bytes) :=
  match latin with
  | [] => Ok words
  | _ => cleaned ← clean_token latin; Ok (push_nonempty cleaned words)
  end.

Fixpoint mixed_loop (chars : list Utf8Char) (latin : bytes) (words : list bytes) : outcome (list bytes) :=
  match chars with
  | [] => flush_latin latin words
  | c :: chars =>
      if cjk c then words ← flush_latin latin words; mixed_loop chars [] (words ++ [char_text c])
      else if kept c then mixed_loop chars (latin ++ char_text c) words
      else words ← flush_latin latin words; mixed_loop chars [] words
  end.

Definition tokenize_chinese_mixed (text : bytes) : outcome (list bytes) :=
  chars ← utf8_chars text; mixed_loop chars [] [].

Definition lower_ascii (value : bytes) : bytes := map (λ ch, if between ch 65 90 then (ch + 32)%Z else ch) value.

Definition tokenize_alignable_words (text language : bytes) : outcome (list bytes) :=
  let normalized_language := lower_ascii language in
  if bool_decide (normalized_language = str "chinese" ∨ normalized_language = str "cantonese")
  then tokenize_chinese_mixed text else tokenize_space_language text.

Definition has_alignable_words (text language : bytes) : outcome bool :=
  words ← tokenize_alignable_words text language;
  Ok (match words with [] => false | _ => true end).

(** * Timestamps *)

(** The interpolated timestamp, computed in [double]:
    [int64_t(left + (right - left) / (count + 1) * position)]; and
    [llround(ms * sample_rate / 1000.0)]. *)
Class TimestampArith := {
  interpolate : Z → Z → Z → Z → Z;
  samples_at : Z → Z → Z;
}.

Section timestamps.
Context `{arith : TimestampArith}.

(** The inner loop over [j]: [dp[i]] and [parent[i]]. *)
Fixpoint best_loop (j : nat) (before : list (Z * nat)) (x : Z) (acc : nat * option nat) : nat * option nat :=
  match before with
  | [] => acc
  | (v, d) :: before =>
      best_loop (S j) before x (if (v <=? x)%Z && (acc.1 <? d + 1) then (d + 1, Some j) else acc)
  end.

(** [dp] and [parent], for the data after [before]. *)
Fixpoint lis_table (before : list (Z * nat)) (data : list Z) : list (nat * option nat) :=
  match data with
  | [] => []
  | x :: data =>
      let e := best_loop 0 before x (1, None) in
      e :: lis_table (before ++ [(x, e.1)]) data
  end.

(** [std::max_element] of [dp], as an index. *)
Fixpoint max_index (i best : nat) (best_value : nat) (dp : list nat) : nat :=
  match dp with
  | [] => best
  | d :: dp => if best_value <? d then max_index (S i) i d dp else max_index (S i) best best_value dp
  end.

(** [while (true) normal[index] = true; ...]: the indices marked. *)
Fixpoint marked (fuel : nat) (parent : list (option nat)) (index : nat) : list nat :=
  match fuel with
  | O => []
  | S fuel =>
      index :: match parent !! index with
               | Some (Some p) => marked fuel parent p
               | _ => []
               end
  end.

Definition normal_indices (data : list Z) : list nat :=
  let table := lis_table [] data in
  marked (length data) (map snd table) (max_index 0 0 0 (map fst table)).

(** A run of anomalies, [k - i = o], between the nearest normal values. *)
Definition fill (l_ r_ : option Z) (count o : nat) (x : Z) : Z :=
  match l_, r_ with
  | None, None => x
  | None, Some r_ => r_
  | Some l_, None => l_
  | Some l_, Some r_ =>
      if count <=? 2 then if o + 1 <=? count - o then l_ else r_
      else interpolate l_ r_ (Z.of_nat count) (Z.of_nat (o + 1))
  end.

Fixpoint repair (l_ : option Z) (run : list Z) (items : list (Z * bool)) : list Z :=
  match items with
  | [] => imap (fill l_ None (length run)) run
  | (v, true) :: items => imap (fill l_ (Some v) (length run)) run ++ v :: repair (Some v) [] items
  | (v, false) :: items => repair l_ (run ++ [v]) items
  end.

Definition fix_timestamp (data : list Z) : list Z :=
  match data with
  | [] => []
  | _ =>
      let indices := normal_indices data in
      repair None [] (imap (λ i x, (x, bool_decide (i ∈ indices))) data)
  end.

(** * The spans *)

Record WordTimestamp := { start_sample : Z; end_sample : Z; word : bytes }.

Fixpoint timestamp_ms (segment_time_ms : Z) (ids : list Z) : outcome (list Z) :=
  match ids with
  | [] => Ok []
  | id :: ids =>
      if (id <? 0)%Z then Throw (str "Qwen3 forced aligner produced negative timestamp id")
      else rest ← timestamp_ms segment_time_ms ids; Ok ((id * segment_time_ms)%Z :: rest)
  end.

Fixpoint spans_of (sample_rate : Z) (words : list bytes) (ms : list Z) : list WordTimestamp :=
  match words, ms with
  | w :: words, start_ms :: end_ms :: ms =>
      {| start_sample := samples_at start_ms sample_rate; end_sample := samples_at end_ms sample_rate; word := w |} ::
      spans_of sample_rate words ms
  | _, _ => []
  end.

(** The last loop of [parse_timestamps]. *)
Fixpoint repair_spans (min_span_samples previous_end : Z) (out : list WordTimestamp) : list WordTimestamp :=
  match out with
  | [] => []
  | t :: out =>
      let start := Z.max (start_sample t) previous_end in
      let end_ :=
        if (end_sample t <=? start)%Z then
          let min_end := (start + min_span_samples)%Z in
          match out with
          | next :: _ => if (start <? start_sample next)%Z then Z.min min_end (start_sample next) else min_end
          | [] => min_end
          end
        else end_sample t in
      {| start_sample := start; end_sample := end_; word := word t |} :: repair_spans min_span_samples end_ out
  end.

Definition parse_timestamps (segment_time_ms : Z) (words : list bytes) (timestamp_ids : list Z) (sample_rate : Z) :
    outcome (list WordTimestamp) :=
  if negb (length timestamp_ids =? length words * 2)
  then Throw (str "Qwen3 forced aligner timestamp prediction count mismatch")
  else if (segment_time_ms <=? 0)%Z then Throw (str "Qwen3 forced aligner model is missing timestamp_segment_time")
  else if (sample_rate <=? 0)%Z then Throw (str "Qwen3 forced aligner sample_rate must be positive")
  else
    ms ← timestamp_ms segment_time_ms timestamp_ids;
    let out := spans_of sample_rate words (fix_timestamp ms) in
    Ok (repair_spans (Z.max 1 (samples_at segment_time_ms sample_rate)) 0 out).

(** * Lemmas on the longest ordered subsequence *)

(** Indices of an ordered subsequence, last first. *)
Inductive chain (data : list Z) : list nat → Prop :=
| chain_one j x : data !! j = Some x → chain data [j]
| chain_cons j k x y js :
    k < j → data !! j = Some x → data !! k = Some y → (y <= x)%Z → chain data (k :: js) → chain data (j :: k :: js).

(** Each entry is the length of a longest chain that ends there, and its parent
    is a shorter one. *)
Definition entry_ok (data : list Z) (table : list (nat * option nat)) (j : nat) (e : nat * option nat) : Prop :=
  (∀ js, chain data (j :: js) → length (j :: js) <= e.1) ∧
  match e.2 with
  | None => e.1 = 1
  | Some k => ∃ x y e', k < j ∧ data !! j = Some x ∧ data !! k = Some y ∧ (y <= x)%Z ∧ table !! k = Some e' ∧ e.1 = S e'.1
  end.

Lemma best_loop_spec i before x acc :
  1 <= acc.1 →
  let e := best_loop i before x acc in
  1 <= e.1 ∧ acc.1 <= e.1 ∧ (∀ k v d, before !! k = Some (v, d) → (v <= x)%Z → d + 1 <= e.1) ∧
  (e = acc ∨ ∃ k v d, before !! k = Some (v, d) ∧ (v <= x)%Z ∧ e = (d + 1, Some (i + k))).
Proof.
  revert i acc. induction before as [|[v d] before IH]; intros i acc Ha; cbn [best_loop].
  { repeat split; try done; by left. }
  set (acc' := if (v <=? x)%Z && (acc.1 <? d + 1) then (d + 1, Some i) else acc).
  assert (1 <= acc'.1 ∧ acc.1 <= acc'.1 ∧ ((v <= x)%Z → d + 1 <= acc'.1)) as (H1 & H2 & H3).
  { subst acc'. destruct (Z.leb_spec v x), (Nat.ltb_spec acc.1 (d + 1)); cbn; lia. }
  destruct (IH (S i) acc' H1) as (E1 & E2 & E3 & E4). split; [done|]. split; [lia|]. split.
  - intros [|k] w d' Hk Hw; [injection Hk as <- <-; specialize (H3 Hw); lia|]. by eapply E3.
  - destruct E4 as [->|(k & w & d' & Hk & Hw & ->)].
    + subst acc'. destruct (Z.leb_spec v x), (Nat.ltb_spec acc.1 (d + 1)); cbn; try by left.
      right. exists 0, v, d. replace (i + 0) with i by lia. by split_and!.
    + right. exists (S k), w, d'. replace (i + S k) with (S i + k) by lia. by split_and!.
Qed.

Lemma chain_lookup data j js : chain data (j :: js) → ∃ x, data !! j = Some x.
Proof. inversion 1; eauto. Qed.

Lemma lis_table_spec done data table :
  length table = length done →
  (∀ j e, table !! j = Some e → entry_ok (map fst done ++ data) table j e) →
  (∀ j, snd <$> done !! j = fst <$> table !! j) →
  let all := table ++ lis_table done data in
  length all = length (map fst done ++ data) ∧
  ∀ j e, all !! j = Some e → entry_ok (map fst done ++ data) all j e.
Proof.
  revert done table. induction data as [|x data IH]; intros done table Hl Ht Hd; cbn [lis_table].
  - rewrite !app_nil_r in *. split; [by rewrite length_map|done].
  - set (e := best_loop 0 done x (1, None)). cbv zeta.
    pose proof (best_loop_spec 0 done x (1, None) (le_n 1)) as (E1 & _ & E3 & E4). fold e in E1, E3, E4.
    assert (map fst (done ++ [(x, e.1)]) ++ data = map fst done ++ x :: data) as Edata.
    { rewrite map_app, <- app_assoc. done. }
    assert ((map fst done ++ x :: data) !! length done = Some x) as Hx.
    { rewrite lookup_app_r, length_map, Nat.sub_diag by (rewrite length_map; lia). done. }
    assert (∀ k v d, done !! k = Some (v, d) → (map fst done ++ x :: data) !! k = Some v) as Hold.
    { intros k v d Hk. rewrite lookup_app_l by (rewrite length_map; by eapply lookup_lt_Some).
      rewrite list_lookup_fmap, Hk. done. }
    destruct (IH (done ++ [(x, e.1)]) (table ++ [e])) as [IH1 IH2].
    + rewrite !length_app, Hl. done.
    + rewrite Edata. intros j e' Hj. apply lookup_app_Some in Hj as [Hj|[Hj1 Hj2]].
      * destruct (Ht j e' Hj) as [H1 H2]. split; [done|]. destruct (e'.2) as [k|]; [|done].
        destruct H2 as (x0 & y & e'' & ? & ? & ? & ? & Hk & ?). exists x0, y, e''. repeat split; try done.
        apply lookup_app_l_Some. exact Hk.
      * apply list_lookup_singleton_Some in Hj2 as [Hj3 <-]. assert (j = length done) as -> by lia. split.
        -- intros js Hc. inversion Hc as [|j' k x' y js' Hkj Hjx Hky Hyx Hc']; subst; [cbn; lia|].
           rewrite Hx in Hjx. injection Hjx as <-.
           assert (is_Some (done !! k)) as [[v d] Hk] by by apply lookup_lt_is_Some.
           assert (v = y) as -> by (specialize (Hold k v d Hk); congruence).
           assert (is_Some (table !! k)) as [ek Hek] by (apply lookup_lt_is_Some; lia).
           destruct (Ht k ek Hek) as [Hmax _]. specialize (Hmax _ Hc'). specialize (E3 k y d Hk Hyx).
           specialize (Hd k). rewrite Hk, Hek in Hd. cbn in Hd. injection Hd as ->. cbn in *. lia.
        -- destruct E4 as [Ee|(k & v & d & Hk & Hv & Ee)]; rewrite Ee; cbn; [done|].
           assert (is_Some (table !! k)) as [ek Hek] by (apply lookup_lt_is_Some; apply lookup_lt_Some in Hk; lia).
           exists x, v, ek. apply lookup_lt_Some in Hk as Hlt. repeat split; try done.
           ++ by eapply Hold.
           ++ by apply lookup_app_l_Some.
           ++ specialize (Hd k). rewrite Hk, Hek in Hd. cbn in Hd. injection Hd as ->. lia.
    + intros j. destruct (Nat.lt_ge_cases j (length done)) as [Hj|Hj].
      * rewrite !lookup_app_l by lia. apply Hd.
      * rewrite !lookup_app_r by lia. rewrite Hl. by destruct (j - length done) as [|?].
    + rewrite Edata in IH1, IH2. rewrite <- app_assoc in IH1, IH2. by split.
Qed.

Lemma max_index_spec L i best bv :
  Forall (λ d, 1 <= d) L → L ≠ [] → i <= length L →
  (∀ j d, j < i → L !! j = Some d → d <= bv) → (L !! best = Some bv ∨ i = 0 ∧ bv = 0) →
  ∃ d, L !! max_index i best bv (drop i L) = Some d ∧ ∀ j d', L !! j = Some d' → d' <= d.
Proof.
  intros Hpos Hne. remember (drop i L) as dp eqn:E. revert i best bv E.
  induction dp as [|d dp IH]; intros i best bv E Hi Hbv Hbest; cbn [max_index].
  - assert (i = length L) as -> by (apply (f_equal length) in E; rewrite length_drop in E; cbn in E; lia).
    destruct Hbest as [Hb|[H0 _]]; [|by destruct L]. exists bv. split; [done|]. intros j d' Hj. apply (Hbv j); [|done].
    by eapply lookup_lt_Some.
  - assert (L !! i = Some d) as Hd by (rewrite <- (Nat.add_0_r i), <- lookup_drop, <- E; done).
    assert (dp = drop (S i) L) as E' by (rewrite <- Nat.add_1_r, <- drop_drop, <- E; done).
    apply lookup_lt_Some in Hd as Hlt.
    assert (1 <= d) as Hd1 by (by eapply (Forall_lookup_1 _ _ _ _ Hpos)).
    destruct (Nat.ltb_spec bv d) as [Hb|Hb]; (apply IH; [done|lia| |]).
    + intros j d' Hj Hl. destruct (decide (j = i)) as [->|]; [rewrite Hd in Hl; injection Hl as <-; lia|].
      specialize (Hbv j d' ltac:(lia) Hl). lia.
    + by left.
    + intros j d' Hj Hl. destruct (decide (j = i)) as [->|]; [rewrite Hd in Hl; injection Hl as <-; lia|].
      by apply (Hbv j d'); [lia|].
    + destruct Hbest as [?|[-> ->]]; [by left|lia].
Qed.

Lemma marked_spec data table fuel j e :
  (∀ j e, table !! j = Some e → entry_ok data table j e) → length table = length data →
  table !! j = Some e → j < fuel →
  ∃ js, marked fuel (map snd table) j = j :: js ∧ chain data (j :: js) ∧ length (j :: js) = e.1.
Proof.
  intros Hok Hlen. revert j e. induction fuel as [|fuel IH]; intros j e Hj Hf; [lia|]. cbn [marked].
  rewrite list_lookup_fmap, Hj. cbn [fmap option_fmap option_map]. destruct (Hok j e Hj) as [_ He].
  destruct (e.2) as [k|].
  - destruct He as (x & y & e' & Hkj & Hx & Hy & Hyx & Hk & He). destruct (IH k e' Hk) as (js & -> & Hc & Hl); [lia|].
    exists (k :: js). split; [done|]. split; [by eapply chain_cons|]. cbn in *. lia.
  - exists []. split; [done|]. split; [|cbn; lia]. apply lookup_lt_Some in Hj. rewrite Hlen in Hj.
    apply lookup_lt_is_Some in Hj as [x Hx]. by eapply chain_one.
Qed.

Lemma normal_indices_longest data :
  data ≠ [] →
  chain data (normal_indices data) ∧ ∀ js, chain data js → length js <= length (normal_indices data).
Proof.
  intros Hne. destruct (lis_table_spec [] data []) as [Hlen Hok]; [done|done|done|]. cbn [app map] in Hlen, Hok.
  set (table := lis_table [] data) in *.
  assert (table ≠ []) as Ht by (intros E; rewrite E in Hlen; by destruct data).
  assert (Forall (λ d, 1 <= d) (map fst table)) as Hpos.
  { apply Forall_lookup. intros j d Hj. rewrite list_lookup_fmap in Hj.
    destruct (table !! j) as [e|] eqn:E; [|done]. injection Hj as <-. destruct (Hok j e E) as [_ He].
    destruct (e.2); [|lia]. destruct He as (? & ? & ? & ? & ? & ? & ? & ? & ?). lia. }
  destruct (max_index_spec (map fst table) 0 0 0) as (d & Hd & Hmax); [done|by destruct table|lia|lia|by right|].
  unfold normal_indices. fold table. rewrite drop_0 in Hd. set (m := max_index 0 0 0 (map fst table)) in *.
  rewrite list_lookup_fmap in Hd. destruct (table !! m) as [e|] eqn:Em; [|done]. injection Hd as <-.
  apply lookup_lt_Some in Em as Hm.
  destruct (marked_spec data table (length data) m e) as (js & -> & Hc & Hl); [done|done|done|lia|].
  split; [done|]. intros js' Hc'. rewrite Hl.
  assert (∃ j js0, js' = j :: js0) as (j & js0 & ->) by (inversion Hc'; eauto).
  destruct (chain_lookup _ _ _ Hc') as [x Hx]. apply lookup_lt_Some in Hx.
  assert (is_Some (table !! j)) as [ej Hej] by (apply lookup_lt_is_Some; lia).
  destruct (Hok j ej Hej) as [Hb _]. specialize (Hb js0 Hc'). specialize (Hmax j ej.1). rewrite list_lookup_fmap, Hej in Hmax.
  specialize (Hmax eq_refl). lia.
Qed.

Lemma chain_below data j js : chain data (j :: js) → ∀ x k y, data !! j = Some x → k ∈ js → data !! k = Some y → k < j ∧ (y <= x)%Z.
Proof.
  remember (j :: js) as l eqn:E. intros Hc. revert j js E. induction Hc as [j' x' Hx'|j' k' x' y' js' Hkj Hx' Hy' Hyx Hc IH];
    intros j js [= -> <-] x k y Hx Hk Hy; [by apply elem_of_nil in Hk|].
  rewrite Hx in Hx'. injection Hx' as <-. apply elem_of_cons in Hk as [->|Hk]; [split; [done|congruence]|].
  destruct (IH k' js' eq_refl y' k y Hy' Hk Hy). lia.
Qed.

Lemma chain_ordered data js a b x y :
  chain data js → a ∈ js → b ∈ js → a < b → data !! a = Some x → data !! b = Some y → (x <= y)%Z.
Proof.
  intros Hc. revert a b x y. induction Hc as [j z Hz|j k z w js Hkj Hz Hw Hwz Hc IH]; intros a b x y Ha Hb Hab Hx Hy.
  - apply list_elem_of_singleton in Ha, Hb. lia.
  - assert (chain data (j :: k :: js)) as Hc' by by eapply chain_cons.
    apply elem_of_cons in Ha as [->|Ha], Hb as [->|Hb]; [lia| | |exact (IH a b x y Ha Hb Hab Hx Hy)].
    + destruct (chain_below _ _ _ Hc' x b y Hx Hb Hy). lia.
    + by destruct (chain_below _ _ _ Hc' y a x Hy Ha Hx).
Qed.

(** * Lemmas on the repair *)

Definition nondecreasing (l : list Z) : Prop := ∀ i j x y, i < j → l !! i = Some x → l !! j = Some y → (x <= y)%Z.

Lemma nondecreasing_app a b :
  nondecreasing a → nondecreasing b → (∀ x y, x ∈ a → y ∈ b → (x <= y)%Z) → nondecreasing (a ++ b).
Proof.
  intros Ha Hb Hab i j x y Hij Hx Hy. apply lookup_app_Some in Hx as [Hx|[Hi Hx]], Hy as [Hy|[Hj Hy]].
  - by eapply Ha.
  - apply Hab; by eapply list_elem_of_lookup_2.
  - apply lookup_lt_Some in Hy. lia.
  - eapply (Hb (i - length a) (j - length a)); [lia|done|done].
Qed.

Lemma nondecreasing_cons x l : nondecreasing l → (∀ y, y ∈ l → (x <= y)%Z) → nondecreasing (x :: l).
Proof.
  intros Hl Hx. apply (nondecreasing_app [x] l); [|done|intros z y ->%list_elem_of_singleton; apply Hx].
  intros i j a b Hij Ha Hb. apply lookup_lt_Some in Ha, Hb. cbn in Ha, Hb. lia.
Qed.

Class InterpolationLaws := {
  interpolate_within lo hi n p : (lo <= hi → 1 <= p <= n → lo <= interpolate lo hi n p <= hi)%Z;
  interpolate_mono lo hi n p q : (lo <= hi → 1 <= p → p <= q → q <= n → interpolate lo hi n p <= interpolate lo hi n q)%Z;
}.

Lemma length_repair l_ run items : length (repair l_ run items) = length run + length items.
Proof.
  revert l_ run. induction items as [|[v []] items IH]; intros l_ run; cbn [repair length]; [by rewrite length_imap, Nat.add_0_r| |].
  - rewrite length_app, length_imap. cbn [length]. rewrite IH. cbn. lia.
  - rewrite IH, length_app. cbn. lia.
Qed.

Lemma repair_lookup l_ run items i v :
  items !! i = Some (v, true) → repair l_ run items !! (length run + i) = Some v.
Proof.
  revert l_ run i. induction items as [|[w b] items IH]; intros l_ run i; [done|]. destruct b; cbn [repair].
  - rewrite lookup_app_r, length_imap by (rewrite length_imap; lia). replace (length run + i - length run) with i by lia.
    destruct i as [|i]; [by intros [= ->]|]. intros Hi. cbn. by apply (IH (Some w) []).
  - destruct i as [|i]; [done|]. intros Hi. replace (length run + S i) with (length (run ++ [w]) + i) by (rewrite length_app; cbn; lia).
    by apply IH.
Qed.

Context `{laws : !InterpolationLaws}.

(** The bounds of a run. *)
Definition above (l_ : option Z) (x : Z) : Prop := from_option (λ lo, lo <= x)%Z True l_.
Definition below (r_ : option Z) (x : Z) : Prop := from_option (λ hi, x <= hi)%Z True r_.

Lemma fill_ordered l_ r_ n o1 o2 x1 x2 :
  l_ ≠ None ∨ r_ ≠ None → (∀ lo hi, l_ = Some lo → r_ = Some hi → lo <= hi)%Z → o1 <= o2 → o2 < n →
  above l_ (fill l_ r_ n o1 x1) ∧ below r_ (fill l_ r_ n o1 x1) ∧ (fill l_ r_ n o1 x1 <= fill l_ r_ n o2 x2)%Z.
Proof.
  intros Hor Hle Ho Hn. unfold fill, above, below. destruct l_ as [lo|], r_ as [hi|]; cbn [from_option]; try lia; [|by destruct Hor].
  specialize (Hle lo hi eq_refl eq_refl). destruct (n <=? 2).
  - destruct (Nat.leb_spec (o1 + 1) (n - o1)), (Nat.leb_spec (o2 + 1) (n - o2)); lia.
  - pose proof (interpolate_within lo hi (Z.of_nat n) (Z.of_nat (o1 + 1)) Hle).
    pose proof (interpolate_mono lo hi (Z.of_nat n) (Z.of_nat (o1 + 1)) (Z.of_nat (o2 + 1)) Hle). lia.
Qed.

Lemma run_ordered l_ r_ run :
  l_ ≠ None ∨ r_ ≠ None → (∀ lo hi, l_ = Some lo → r_ = Some hi → lo <= hi)%Z →
  nondecreasing (imap (fill l_ r_ (length run)) run) ∧
  ∀ x, x ∈ imap (fill l_ r_ (length run)) run → above l_ x ∧ below r_ x.
Proof.
  intros Hor Hle. assert (∀ i x, imap (fill l_ r_ (length run)) run !! i = Some x →
    i < length run ∧ ∃ y, x = fill l_ r_ (length run) i y) as Hl.
  { intros i x Hi. rewrite list_lookup_imap in Hi. destruct (run !! i) as [y|] eqn:E; [|done]. injection Hi as <-.
    apply lookup_lt_Some in E. eauto. }
  split.
  - intros i j x y Hij Hx Hy. destruct (Hl i x Hx) as (Hi & x' & ->), (Hl j y Hy) as (Hj & y' & ->).
    by destruct (fill_ordered l_ r_ (length run) i j x' y') as (_ & _ & ?); [..|lia|lia|].
  - intros x (i & Hi)%list_elem_of_lookup. destruct (Hl i x Hi) as (Hn & x' & ->).
    by destruct (fill_ordered l_ r_ (length run) i i x' x') as (? & ? & _); [..|lia|lia|].
Qed.

(** The normal values among the items. *)
Definition normals (items : list (Z * bool)) : list Z := map fst (List.filter snd items).

Lemma repair_ordered l_ run items :
  nondecreasing (normals items) → (∀ x, x ∈ normals items → above l_ x) → l_ ≠ None ∨ normals items ≠ [] →
  nondecreasing (repair l_ run items) ∧ ∀ x, x ∈ repair l_ run items → above l_ x.
Proof.
  revert l_ run. induction items as [|[v []] items IH]; intros l_ run Hs Ha Hor; cbn [repair].
  - destruct (run_ordered l_ None run) as [H1 H2]; [destruct Hor; [by left|done]|done|]. split; [done|]. intros x Hx. by apply H2.
  - change (normals ((v, true) :: items)) with (v :: normals items) in *.
    assert (above l_ v) as Hv by (apply Ha; left).
    destruct (run_ordered l_ (Some v) run) as [H1 H2]; [by right|intros lo hi -> [= <-]; exact Hv|].
    destruct (IH (Some v) []) as [H3 H4].
    + intros i j x y Hij Hx Hy. by apply (Hs (S i) (S j)); [lia|..].
    + intros x (i & Hi)%list_elem_of_lookup. cbn. by apply (Hs 0 (S i)); [lia|..].
    + by left.
    + assert (∀ y, y ∈ v :: repair (Some v) [] items → (v <= y)%Z) as H5.
      { intros y [->|Hy]%elem_of_cons; [done|]. by apply H4. }
      split.
      * apply nondecreasing_app; [done|by apply nondecreasing_cons|]. intros x y Hx Hy.
        destruct (H2 x Hx) as [_ Hb]. cbn in Hb. specialize (H5 y Hy). lia.
      * intros x [Hx|Hx]%elem_of_app; [by apply H2|]. specialize (H5 x Hx). unfold above in *. destruct l_; [|done]. cbn in *. lia.
  - by apply IH.
Qed.

Lemma normals_imap P `{!∀ i, Decision (P i)} data n :
  (∀ i j x y, i < j → P (n + i) → P (n + j) → data !! i = Some x → data !! j = Some y → (x <= y)%Z) →
  nondecreasing (normals (imap (λ i x, (x, bool_decide (P (n + i)))) data)) ∧
  ∀ x, x ∈ normals (imap (λ i x, (x, bool_decide (P (n + i)))) data) → ∃ i, P (n + i) ∧ data !! i = Some x.
Proof.
  revert n. induction data as [|x data IH]; intros n Hs; [split; [intros i j a b _ Ha; done|by intros x ?%elem_of_nil]|].
  cbn [imap]. unfold normals. cbn [List.filter snd].
  assert (imap ((λ i x, (x, bool_decide (P (n + i)))) ∘ S) data = imap (λ i x, (x, bool_decide (P (S n + i)))) data) as Ei.
  { apply imap_ext. intros i y _. cbn. by replace (n + S i) with (S (n + i)) by lia. }
  rewrite Ei. destruct (IH (S n)) as [H1 H2].
  { intros i j a b Hij Hi Hj. apply (Hs (S i) (S j)); [lia|by rewrite Nat.add_succ_r|by rewrite Nat.add_succ_r]. }
  assert (∀ y, y ∈ normals (imap (λ i x, (x, bool_decide (P (S n + i)))) data) → ∃ i, P (n + S i) ∧ data !! i = Some y) as H3.
  { intros y Hy. destruct (H2 y Hy) as (i & Hi & ?). exists i. by rewrite Nat.add_succ_r. }
  case_bool_decide as HP; [|split; [done|]; intros y Hy; destruct (H3 y Hy) as (i & ? & ?); by exists (S i)].
  cbn [map fst]. split.
  - apply nondecreasing_cons; [done|]. intros y Hy. destruct (H3 y Hy) as (i & Hi & Hd). by apply (Hs 0 (S i)); [lia|..].
  - intros y [->|Hy]%elem_of_cons; [by exists 0|]. destruct (H3 y Hy) as (i & ? & ?). by exists (S i).
Qed.

(** Repairing timestamps keeps as many of them as any nondecreasing sequence
    could: the ones kept form a longest ordered subsequence of the predictions and
    are not touched, the others are replaced, and the result is nondecreasing, as
    long as interpolating between two timestamps stays between them in order. *)
Theorem fix_timestamp_longest data :
  data ≠ [] →
  ∃ js, chain data js ∧ (∀ js', chain data js' → length js' <= length js) ∧
    length (fix_timestamp data) = length data ∧ (∀ j, j ∈ js → fix_timestamp data !! j = data !! j) ∧
    nondecreasing (fix_timestamp data).
Proof.
  intros Hne. destruct (normal_indices_longest data Hne) as [Hc Hmax]. exists (normal_indices data).
  split; [done|]. split; [done|].
  assert (fix_timestamp data = repair None [] (imap (λ i x, (x, bool_decide (i ∈ normal_indices data))) data)) as ->.
  { unfold fix_timestamp. by destruct data. }
  set (js := normal_indices data) in *. split; [by rewrite length_repair, length_imap|]. split.
  - intros j Hj. assert (∃ x, data !! j = Some x) as [x Hx].
    { clear Hmax. revert Hj. generalize dependent js. induction 1 as [j' x Hx|j' k x y js' Hkj Hx Hy Hyx Hc IH].
      - intros ->%list_elem_of_singleton. eauto.
      - intros [->|Hj]%elem_of_cons; eauto. }
    rewrite Hx. apply (repair_lookup None []). rewrite list_lookup_imap, Hx. cbn. by rewrite bool_decide_eq_true_2.
  - destruct (normals_imap (λ i, i ∈ js) data 0) as [H1 H2].
    { intros i j x y Hij Hi Hj Hx Hy. by eapply (chain_ordered data js i j). }
    apply repair_ordered; [exact H1|done|]. right. intros E.
    assert (∃ j x, j ∈ js ∧ data !! j = Some x) as (j & x & Hj & Hx) by (inversion Hc; subst; eexists _, _; (split; [left|done])).
    assert (x ∈ normals (imap (λ i x, (x, bool_decide (i ∈ js))) data)) as Hin; [|rewrite E in Hin; by apply elem_of_nil in Hin].
    apply list_elem_of_In. unfold normals. apply in_map_iff. exists (x, true). split; [done|]. apply filter_In. split; [|done].
    apply list_elem_of_In, list_elem_of_lookup. exists j. rewrite list_lookup_imap, Hx. cbn. by rewrite bool_decide_eq_true_2.
Qed.
End timestamps.

(** * Spans *)

Section spans.
Context `{arith : TimestampArith}.

(** Spans that are not empty, in order and apart, from [from] on. *)
Fixpoint spans_ok (from : Z) (l : list WordTimestamp) : Prop :=
  match l with
  | [] => True
  | t :: l => (from <= start_sample t)%Z ∧ (start_sample t < end_sample t)%Z ∧ spans_ok (end_sample t) l
  end.

Lemma repair_spans_ok min_span previous out : (0 < min_span)%Z → spans_ok previous (repair_spans min_span previous out).
Proof.
  intros Hm. revert previous. induction out as [|t out IH]; intros previous; cbn [repair_spans]; [done|]. cbv zeta.
  cbn [spans_ok start_sample end_sample]. split; [lia|]. split; [|apply IH].
  destruct (Z.leb_spec (end_sample t) (Z.max (start_sample t) previous)); [|lia].
  destruct out as [|next out]; [lia|]. case_bool; lia.
Qed.

Lemma repair_spans_same min_span previous out : spans_ok previous out → repair_spans min_span previous out = out.
Proof.
  revert previous. induction out as [|t out IH]; intros previous; [done|]. cbn [spans_ok repair_spans]. intros (H1 & H2 & H3). cbv zeta.
  rewrite Z.max_l by lia. rewrite (proj2 (Z.leb_gt _ _)) by lia. rewrite IH by done. by destruct t.
Qed.

Lemma repair_spans_words min_span previous out : map word (repair_spans min_span previous out) = map word out.
Proof. revert previous. induction out as [|t out IH]; intros previous; [done|]. cbn [repair_spans map word]. by rewrite IH. Qed.

Lemma spans_of_words rate words ms : length ms = length words * 2 → map word (spans_of rate words ms) = words.
Proof.
  revert ms. induction words as [|w words IH]; intros ms Hl; [done|]. destruct ms as [|a [|b ms]]; cbn in Hl; try lia.
  cbn [spans_of map word]. f_equal. apply IH. lia.
Qed.

Lemma timestamp_ms_ok seg ids :
  if forallb (λ id, 0 <=? id)%Z ids then timestamp_ms seg ids = Ok (map (λ id, id * seg)%Z ids)
  else ∃ e, timestamp_ms seg ids = Throw e.
Proof.
  induction ids as [|id ids IH]; [done|]. cbn [forallb timestamp_ms map].
  destruct (Z.leb_spec 0 id); cbn [andb].
  - rewrite (proj2 (Z.ltb_ge _ _)) by lia. destruct (forallb _ ids); [by rewrite IH|]. destruct IH as [e ->]. by exists e.
  - rewrite (proj2 (Z.ltb_lt _ _)) by lia. by eexists.
Qed.

Lemma length_fix_timestamp data : length (fix_timestamp data) = length data.
Proof. destruct data as [|x data]; [done|]. unfold fix_timestamp. by rewrite length_repair, length_imap. Qed.

(** Whatever the model predicts, the words get spans that can be shown: a result
    is returned exactly when there are two non-negative predictions per word (and
    rate and resolution are positive); it has the words in order, no span is empty,
    none starts before the previous one ends; and predictions that are ordered
    already are reported as they are. *)
Theorem aligned_spans seg words ids rate :
  (is_ok (parse_timestamps seg words ids rate) = true ↔
     length ids = length words * 2 ∧ (0 < seg)%Z ∧ (0 < rate)%Z ∧ Forall (λ id, 0 <= id)%Z ids) ∧
  ∀ out, parse_timestamps seg words ids rate = Ok out →
    map word out = words ∧ spans_ok 0 out ∧
    let predicted := spans_of rate words (fix_timestamp (map (λ id, id * seg)%Z ids)) in
    (spans_ok 0 predicted → out = predicted).
Proof.
  assert (Forall (λ id, 0 <= id)%Z ids ↔ forallb (λ id, 0 <=? id)%Z ids = true) as Hall.
  { rewrite forallb_forall, Forall_forall. setoid_rewrite list_elem_of_In. setoid_rewrite Z.leb_le. done. }
  rewrite Hall. unfold parse_timestamps.
  destruct (Nat.eqb_spec (length ids) (length words * 2)) as [Hl|Hl]; cbn [negb]; [|split; [split; [done|by intros (? & _)]|done]].
  destruct (Z.leb_spec seg 0); [split; [split; [done|lia]|done]|].
  destruct (Z.leb_spec rate 0); [split; [split; [done|lia]|done]|].
  pose proof (timestamp_ms_ok seg ids) as Hms. destruct (forallb _ ids).
  - rewrite Hms. cbn [mbind outcome_bind is_ok]. split; [by split|]. intros out [= <-].
    split; [|split; [apply repair_spans_ok; lia|apply repair_spans_same]].
    rewrite repair_spans_words. apply spans_of_words. by rewrite length_fix_timestamp, length_map.
  - destruct Hms as [e ->]. cbn. split; [split; [done|by intros (_ & _ & _ & ?)]|done].
Qed.
End spans.

(** * The words of a transcript *)

Definition texts (chars : list Utf8Char) : bytes := concat (map char_text chars).

(** A character that decodes to itself whatever follows. *)
Definition valid_char (c : Utf8Char) : Prop :=
  ∃ ch tail, char_text c = ch :: tail ∧ ∀ rest, first_char ch (tail ++ rest) = Ok c.

Lemma first_char_valid ch rest c :
  first_char ch rest = Ok c → valid_char c ∧ char_text c ++ drop (length (char_text c)) (ch :: rest) = ch :: rest.
Proof.
  unfold first_char. destruct (lead_of ch) as [[len cp]|] eqn:Hlead; [|done].
  destruct (Nat.ltb_spec (S (length rest)) len) as [|Hl]; [done|].
  destruct (add_tail cp (take (len - 1) rest)) as [cp'|] eqn:Ht; [|done]. cbn [mbind outcome_bind]. intros [= <-]. cbn [char_text].
  assert (length (take (len - 1) rest) = len - 1) as Hlen by (rewrite length_take; lia).
  split; [|cbn [length drop app]; by rewrite Hlen, take_drop].
  exists ch, (take (len - 1) rest). split; [done|]. intros rest'. unfold first_char. rewrite Hlead.
  destruct (Nat.ltb_spec (S (length (take (len - 1) rest ++ rest'))) len) as [Hb|_]; [rewrite length_app in Hb; lia|].
  rewrite take_app_le by lia. rewrite (take_ge (take (len - 1) rest)) by lia. by rewrite Ht.
Qed.

Lemma valid_nonempty c : valid_char c → 0 < length (char_text c).
Proof. intros (ch & tail & -> & _). cbn. lia. Qed.

Lemma utf8_loop_sound fuel text chars :
  length text <= fuel → utf8_loop fuel text = Ok chars → Forall valid_char chars ∧ texts chars = text.
Proof.
  revert text chars. induction fuel as [|fuel IH]; intros [|ch rest] chars Hl; cbn [utf8_loop]; cbn in Hl; try lia;
    try (intros [= <-]; split; [by apply Forall_nil|done]).
  destruct (first_char ch rest) as [c|] eqn:E; [|done]. cbn [mbind outcome_bind].
  destruct (first_char_valid _ _ _ E) as [Hv Hc]. pose proof (valid_nonempty c Hv).
  destruct (utf8_loop fuel (drop (length (char_text c)) (ch :: rest))) as [more|] eqn:E2; [|done]. cbn [mbind outcome_bind]. intros [= <-].
  assert (length (drop (length (char_text c)) (ch :: rest)) <= fuel) as Hd by (rewrite length_drop; cbn; lia).
  destruct (IH _ _ Hd E2) as [Hm Ht]. split; [by apply Forall_cons|].
  change (texts (c :: more)) with (char_text c ++ texts more). by rewrite Ht.
Qed.

Lemma utf8_loop_complete fuel chars :
  Forall valid_char chars → length (texts chars) <= fuel → utf8_loop fuel (texts chars) = Ok chars.
Proof.
  intros Hv. revert fuel. induction Hv as [|c chars Hc _ IH]; intros fuel Hf; [by destruct fuel|].
  change (texts (c :: chars)) with (char_text c ++ texts chars) in *. pose proof (valid_nonempty c Hc).
  rewrite length_app in Hf. destruct fuel as [|fuel]; [lia|].
  destruct Hc as (ch & tail & Htext & Hfirst). rewrite Htext. cbn [utf8_loop app]. rewrite Hfirst. cbn [mbind outcome_bind].
  change (ch :: tail ++ texts chars) with ((ch :: tail) ++ texts chars). rewrite <- Htext, drop_app_length, IH by lia. done.
Qed.

Lemma utf8_chars_texts chars : Forall valid_char chars → utf8_chars (texts chars) = Ok chars.
Proof. intros Hv. by apply utf8_loop_complete. Qed.

Lemma texts_app a b : texts (a ++ b) = texts a ++ texts b.
Proof. unfold texts. by rewrite map_app, concat_app. Qed.

Lemma texts_nil chars : Forall valid_char chars → texts chars = [] → chars = [].
Proof.
  intros [|c chars' Hc _]; [done|]. change (texts (c :: chars')) with (char_text c ++ texts chars').
  destruct Hc as (ch & tail & -> & _). done.
Qed.

Lemma filter_valid f chars : Forall valid_char chars → Forall valid_char (List.filter f chars).
Proof. induction 1 as [|c chars Hc _ IH]; cbn; [by apply Forall_nil|]. destruct (f c); [by apply Forall_cons|done]. Qed.

Lemma clean_token_texts chars : Forall valid_char chars → clean_token (texts chars) = Ok (texts (List.filter kept chars)).
Proof. intros Hv. unfold clean_token. by rewrite utf8_chars_texts. Qed.

(** A word: one CJK character, or characters none of which is. *)
Definition word_ok (w : list Utf8Char) : Prop :=
  w ≠ [] ∧ ((∃ c, w = [c] ∧ cjk c = true) ∨ Forall (λ c, cjk c = false) w).

Definition words_of (words : list bytes) (chars : list Utf8Char) (out : list bytes) : Prop :=
  ∃ ws, out = words ++ map texts ws ∧ concat ws = chars ∧ Forall word_ok ws.

Lemma words_of_refl words : words_of words [] words.
Proof. exists []. rewrite app_nil_r. split; [done|]. split; [done|by apply Forall_nil]. Qed.

Lemma words_of_trans words a mid b out : words_of words a mid → words_of mid b out → words_of words (a ++ b) out.
Proof.
  intros (w1 & -> & <- & H1) (w2 & -> & <- & H2). exists (w1 ++ w2). rewrite map_app, concat_app, app_assoc.
  split; [done|]. split; [done|by apply Forall_app].
Qed.

Lemma words_of_one words w : word_ok w → words_of words w (words ++ [texts w]).
Proof. intros H. exists [w]. split; [done|]. split; [cbn; by rewrite app_nil_r|by apply Forall_singleton]. Qed.

Lemma words_of_cjk words c : cjk c = true → words_of words [c] (words ++ [char_text c]).
Proof.
  intros H. replace (char_text c) with (texts [c]) by (unfold texts; cbn; by rewrite app_nil_r).
  apply words_of_one. split; [done|]. left. by exists c.
Qed.

Lemma push_nonempty_words words w :
  Forall valid_char w → Forall (λ c, cjk c = false) w → words_of words w (push_nonempty (texts w) words).
Proof.
  intros Hv Hw. destruct w as [|c w]; [apply words_of_refl|]. unfold push_nonempty.
  destruct (texts (c :: w)) eqn:E; [by apply texts_nil in E|]. rewrite <- E. apply words_of_one. split; [done|by right].
Qed.

Lemma split_loop_words chars buffer out :
  Forall valid_char chars → Forall valid_char buffer → Forall (λ c, cjk c = false) buffer →
  words_of out (buffer ++ chars) (split_loop chars (texts buffer) out).
Proof.
  intros Hv. revert buffer out. induction Hv as [|c chars Hc Hv IH]; intros buffer out Hb Hn; cbn [split_loop].
  - rewrite app_nil_r. by apply push_nonempty_words.
  - destruct (cjk c) eqn:Ec.
    + eapply words_of_trans; [by apply push_nonempty_words|]. change (c :: chars) with ([c] ++ chars).
      eapply words_of_trans; [by apply words_of_cjk|]. apply (IH []); by apply Forall_nil.
    + change (c :: chars) with ([c] ++ chars). rewrite app_assoc.
      replace (texts buffer ++ char_text c) with (texts (buffer ++ [c])) by (rewrite texts_app; unfold texts; cbn; by rewrite app_nil_r).
      apply IH; apply Forall_app; (split; [done|by apply Forall_singleton]).
Qed.

Lemma flush_segment_words segment words :
  Forall valid_char segment →
  ∃ out, flush_segment (texts segment) words = Ok out ∧ words_of words (List.filter kept segment) out.
Proof.
  intros Hv. unfold flush_segment. destruct (texts segment) eqn:E.
  - apply texts_nil in E as ->; [|done]. exists words. split; [done|apply words_of_refl].
  - rewrite <- E, clean_token_texts by done. cbn [mbind outcome_bind].
    pose proof (filter_valid kept segment Hv) as Hf. destruct (texts (List.filter kept segment)) eqn:E2.
    + apply texts_nil in E2 as ->; [|done]. exists words. split; [done|apply words_of_refl].
    + rewrite <- E2. unfold split_segment_with_chinese. rewrite utf8_chars_texts by done. cbn [mbind outcome_bind].
      eexists. split; [done|]. destruct (split_loop_words (List.filter kept segment) [] []) as (ws & Hws & Hc & Hok); [done|by apply Forall_nil..|].
      exists ws. split; [|by split]. change (texts []) with (@nil Z) in Hws. by rewrite Hws.
Qed.

Lemma blank_not_kept c : is_blank c = true → kept c = false.
Proof.
  unfold is_blank, kept. rewrite !orb_true_iff, !Z.eqb_eq. intros [[[-> | ->] | ->] | ->]; reflexivity.
Qed.

Lemma space_loop_words chars segment words :
  Forall valid_char chars → Forall valid_char segment →
  ∃ out, space_loop chars (texts segment) words = Ok out ∧ words_of words (List.filter kept (segment ++ chars)) out.
Proof.
  intros Hv. revert segment words. induction Hv as [|c chars Hc Hv IH]; intros segment words Hs; cbn [space_loop].
  - rewrite app_nil_r. by apply flush_segment_words.
  - destruct (is_blank c) eqn:Eb.
    + destruct (flush_segment_words segment words Hs) as (mid & -> & Hmid). cbn [mbind outcome_bind].
      destruct (IH [] mid) as (out & Hout & Hw); [by apply Forall_nil|]. exists out. split; [exact Hout|].
      rewrite List.filter_app. cbn [List.filter]. rewrite (blank_not_kept c Eb). by eapply words_of_trans.
    + destruct (IH (segment ++ [c]) words) as (out & Hout & Hw); [apply Forall_app; split; [done|by apply Forall_singleton]|].
      exists out. rewrite <- app_assoc in Hw. split; [|exact Hw]. rewrite <- Hout. f_equal.
      rewrite texts_app. unfold texts. cbn. by rewrite app_nil_r.
Qed.

Lemma cjk_kept c : cjk c = true → kept c = true.
Proof. unfold cjk, kept, is_kept_char. intros ->. by rewrite orb_true_r. Qed.

Lemma filter_kept_all chars : Forall (λ c, kept c = true) chars → List.filter kept chars = chars.
Proof. induction 1 as [|c chars Hc _ IH]; [done|]. cbn. by rewrite Hc, IH. Qed.

Definition latin_char (c : Utf8Char) : Prop := valid_char c ∧ kept c = true ∧ cjk c = false.

Lemma flush_latin_words latin words :
  Forall latin_char latin → ∃ out, flush_latin (texts latin) words = Ok out ∧ words_of words latin out.
Proof.
  intros Hl. assert (Forall valid_char latin) as Hv by (eapply Forall_impl; [exact Hl|]; by intros ? (? & _)).
  unfold flush_latin. destruct (texts latin) eqn:E.
  - apply texts_nil in E as ->; [|done]. exists words. split; [done|apply words_of_refl].
  - rewrite <- E, clean_token_texts by done. rewrite filter_kept_all by (eapply Forall_impl; [exact Hl|]; by intros ? (_ & ? & _)).
    eexists. split; [done|]. apply push_nonempty_words; [done|]. eapply Forall_impl; [exact Hl|]. by intros ? (_ & _ & ?).
Qed.

Lemma mixed_loop_words chars latin words :
  Forall valid_char chars → Forall latin_char latin →
  ∃ out, mixed_loop chars (texts latin) words = Ok out ∧ words_of words (latin ++ List.filter kept chars) out.
Proof.
  intros Hv. revert latin words. induction Hv as [|c chars Hc Hv IH]; intros latin words Hl; cbn [mixed_loop List.filter].
  - rewrite app_nil_r. by apply flush_latin_words.
  - destruct (cjk c) eqn:Ec.
    + rewrite (cjk_kept c Ec). destruct (flush_latin_words latin words Hl) as (mid & -> & Hmid). cbn [mbind outcome_bind].
      destruct (IH [] (mid ++ [char_text c])) as (out & Hout & Hw); [by apply Forall_nil|]. exists out. split; [exact Hout|].
      eapply words_of_trans; [exact Hmid|]. change (c :: ?l) with ([c] ++ l).
      eapply words_of_trans; [by apply words_of_cjk|]. exact Hw.
    + destruct (kept c) eqn:Ek.
      * destruct (IH (latin ++ [c]) words) as (out & Hout & Hw); [apply Forall_app; split; [done|by apply Forall_singleton]|].
        exists out. rewrite <- app_assoc in Hw. split; [|exact Hw]. rewrite <- Hout. f_equal.
        rewrite texts_app. unfold texts. cbn. by rewrite app_nil_r.
      * destruct (flush_latin_words latin words Hl) as (mid & -> & Hmid). cbn [mbind outcome_bind].
        destruct (IH [] mid) as (out & Hout & Hw); [by apply Forall_nil|]. exists out. split; [exact Hout|]. by eapply words_of_trans.
Qed.

(** The alignable words of a transcript, in either language mode, are exactly
    its letters and digits: a transcript that is not valid UTF-8 is refused as such,
    and otherwise the words, one after the other, are the characters that are kept,
    none lost, none moved; no word is empty, and a CJK character is always a word of
    its own. *)
Theorem words_partition text language :
  match utf8_chars text with
  | Throw e => tokenize_alignable_words text language = Throw e
  | Ok chars =>
      texts chars = text ∧
      ∃ ws, tokenize_alignable_words text language = Ok (map texts ws) ∧
        concat ws = List.filter kept chars ∧ Forall word_ok ws
  end.
Proof.
  assert (∀ chars, utf8_chars text = Ok chars → Forall valid_char chars ∧ texts chars = text) as Hsound.
  { intros chars. apply utf8_loop_sound. done. }
  unfold tokenize_alignable_words, tokenize_chinese_mixed, tokenize_space_language. cbv zeta.
  destruct (utf8_chars text) as [chars|e] eqn:E; [|by case_bool_decide].
  destruct (Hsound chars eq_refl) as [Hv Ht]. split; [done|]. cbn [mbind outcome_bind]. case_bool_decide.
  - destruct (mixed_loop_words chars [] []) as (out & Hout & ws & -> & Hc & Hok); [done|by apply Forall_nil|]. by exists ws.
  - destruct (space_loop_words chars [] []) as (out & Hout & ws & -> & Hc & Hok); [done|by apply Forall_nil|]. by exists ws.
Qed.

(** * Whole numbers *)

Module Milliseconds.

#[export] Instance arith : TimestampArith := {
  interpolate lo hi n p := (lo + (hi - lo) * p / (n + 1))%Z;
  samples_at ms rate := ((ms * rate + 500) / 1000)%Z }.

#[export] Instance laws : InterpolationLaws.
Proof.
  split; cbn.
  - intros lo hi n p Hle Hp. split.
    + assert (0 <= (hi - lo) * p / (n + 1))%Z by (apply Z.div_pos; nia). lia.
    + assert ((hi - lo) * p / (n + 1) <= hi - lo)%Z by (apply Z.div_le_upper_bound; nia). lia.
  - intros lo hi n p q Hle Hp Hpq Hq. apply Z.add_le_mono_l, Z.div_le_mono; nia.
Defined.

Lemma fix_timestamp_longest_witness :
  fix_timestamp [80; 160; 5000; 90; 85; 70; 400; 20; 480]%Z = [80; 160; 208; 256; 304; 352; 400; 400; 480]%Z ∧
  ∃ js, chain [80; 160; 5000; 90; 85; 70; 400; 20; 480]%Z js ∧
    (∀ js', chain [80; 160; 5000; 90; 85; 70; 400; 20; 480]%Z js' → length js' <= length js) ∧
    length (fix_timestamp [80; 160; 5000; 90; 85; 70; 400; 20; 480]%Z) = 9 ∧
    (∀ j, j ∈ js → fix_timestamp [80; 160; 5000; 90; 85; 70; 400; 20; 480]%Z !! j =
                   [80; 160; 5000; 90; 85; 70; 400; 20; 480]%Z !! j) ∧
    nondecreasing (fix_timestamp [80; 160; 5000; 90; 85; 70; 400; 20; 480]%Z).
Proof.
  split; [vm_compute; reflexivity|].
  apply (fix_timestamp_longest [80; 160; 5000; 90; 85; 70; 400; 20; 480]%Z). done.
Defined.

Definition spans : outcome (list WordTimestamp) := parse_timestamps 80 [str "one"; str "two"] [3; 3; 2; 9]%Z 16000.

Lemma aligned_spans_witness :
  ∃ out, spans = Ok out ∧ map (λ t, (start_sample t, end_sample t)) out = [(3840, 5120); (5120, 11520)]%Z ∧
    map word out = [str "one"; str "two"] ∧ spans_ok 0 out.
Proof.
  eexists. split; [reflexivity|]. split; [vm_compute; reflexivity|].
  destruct (aligned_spans 80 [str "one"; str "two"] [3; 3; 2; 9]%Z 16000) as [_ H]. by destruct (H _ eq_refl) as (? & ? & _).
Defined.
End Milliseconds.
