(* ===== verification/TextChunking.v ===== *)
(** Cutting a long text into pieces to synthesize one after the other
    (framework/text/chunking.cpp, with framework/text/utf8.h, the trimming of
    framework/io/text.cpp and the option lookup of framework/runtime/options.cpp):
    no text is lost, and the pieces keep to the budget. *)

From stdpp Require Import gmap.
From S2P Require Import Prelude.

(** * UTF-8

    A position of a text is a [nat]; the source reads [text[pos]] below
    [text.size()] only. *)

Definition byte_at (text : bytes) (pos : nat) : Z := text !!! pos.

Definition is_utf8_continuation (c : Z) : bool := Z.land c 0xC0 =b 0x80.

Definition utf8_width (c : Z) : option nat :=
  if (c <=? 0x7F)%Z then Some 1
  else if Z.land c 0xE0 =b 0xC0 then Some 2
  else if Z.land c 0xF0 =b 0xE0 then Some 3
  else if Z.land c 0xF8 =b 0xF0 then Some 4
  else None.

(** The width of the sequence at [pos], checked. *)
Definition sequence_width (label text : bytes) (pos : nat) : outcome nat :=
  match utf8_width (byte_at text pos) with
  | None => Throw (label ++ str " contains invalid UTF-8")
  | Some width =>
      if length text <? pos + width then Throw (label ++ str " contains truncated UTF-8")
      else if forallb (λ i, is_utf8_continuation (byte_at text (pos + i))) (seq 1 (width - 1)) then Ok width
      else Throw (label ++ str " contains invalid UTF-8 continuation byte")
  end.

Fixpoint count_loop (fuel : nat) (label text : bytes) (pos count : nat) : outcome nat :=
  match fuel with
  | O => Ok count
  | S fuel =>
      if pos <? length text then
        width ← sequence_width label text pos;
        count_loop fuel label text (pos + width) (S count)
      else Ok count
  end.

Definition utf8_codepoint_count (text label : bytes) : outcome nat :=
  count_loop (length text) label text 0 0.

Record Utf8Span := mk_span { u_start : nat; u_end : nat; u_text : bytes }.

#[export] Instance Utf8Span_inhabited : Inhabited Utf8Span := populate (mk_span 0 0 []).

Fixpoint spans_loop (fuel : nat) (label text : bytes) (pos : nat) (spans : list Utf8Span) : outcome (list Utf8Span) :=
  match fuel with
  | O => Ok spans
  | S fuel =>
      if pos <? length text then
        width ← sequence_width label text pos;
        spans_loop fuel label text (pos + width) (spans ++ [mk_span pos (pos + width) (substr text pos width)])
      else Ok spans
  end.

Definition split_utf8_spans (text label : bytes) : outcome (list Utf8Span) :=
  _ ← utf8_codepoint_count text label;
  spans_loop (length text) label text 0 [].

(** * Classes of code points *)

Definition is_ascii_space (token : bytes) : bool :=
  match token with [c] => is_space c | _ => false end.

Definition one_of (tokens : list bytes) (token : bytes) : bool := bool_decide (token ∈ tokens).

Definition is_ascii_line_break : bytes → bool := one_of [[10]; [13]]%Z.

Definition is_horizontal_ascii_space : bytes → bool := one_of [[32]; [9]; [12]; [11]]%Z.

Definition is_sentence_break : bytes → bool :=
  one_of [str "."; str "!"; str "?"; [227; 128; 130]; [239; 188; 129]; [239; 188; 159]]%Z.

Definition is_clause_break : bytes → bool :=
  one_of [str ","; str ";"; str ":"; [239; 188; 140]; [227; 128; 129]; [239; 188; 155]; [239; 188; 154]]%Z.

Definition is_tag_open : bytes → bool := one_of [str "["; str "<"].

Definition is_tag_close (token opening : bytes) : bool :=
  (bool_decide (opening = str "[") && bool_decide (token = str "]")) ||
  (bool_decide (opening = str "<") && bool_decide (token = str ">")).

(** [while (pos < limit && p(pos)) ++pos;] with [n] the distance to the limit. *)
Fixpoint skip_loop (p : nat → bool) (n pos : nat) : nat :=
  match n with
  | O => pos
  | S n => if p pos then skip_loop p n (S pos) else pos
  end.

Definition skip_while (p : nat → bool) (limit pos : nat) : nat := skip_loop p (limit - pos) pos.

(** [for (i = hi; i > lo; --i) if (p(i)) { ...; break; }]: the [i] the loop stops at. *)
Fixpoint last_above (p : nat → bool) (lo hi : nat) : option nat :=
  if lo <? hi then
    if p hi then Some hi
    else match hi with O => None | S hi => last_above p lo hi end
  else None.

Section spans.
Context (spans : list Utf8Span).

Definition span_text (i : nat) : bytes := u_text (spans !!! i).
Definition space_at (i : nat) : bool := is_ascii_space (span_text i).

(** * Words *)

Record WordRange := {
  w_span_start : nat;
  w_span_end : nat;
  w_byte_start : nat;
  w_byte_end : nat;
  w_sentence_break : bool;
  w_clause_break : bool;
}.

Definition word_range (word_start word_end : nat) : WordRange := {|
  w_span_start := word_start;
  w_span_end := word_end;
  w_byte_start := u_start (spans !!! word_start);
  w_byte_end := u_end (spans !!! (word_end - 1));
  w_sentence_break := is_sentence_break (span_text (word_end - 1));
  w_clause_break := is_clause_break (span_text (word_end - 1));
|}.

Fixpoint words_loop (fuel span_pos : nat) : list WordRange :=
  match fuel with
  | O => []
  | S fuel =>
      let word_start := skip_while space_at (length spans) span_pos in
      if length spans <=? word_start then []
      else
        let word_end := skip_while (λ i, negb (space_at i)) (length spans) (S word_start) in
        word_range word_start word_end :: words_loop fuel word_end
  end.

Definition split_word_ranges : list WordRange := words_loop (S (length spans)) 0.

(** * Units: words with the tags kept whole *)

Record TextUnit := {
  t_span_start : nat;
  t_span_end : nat;
  t_byte_start : nat;
  t_byte_end : nat;
  t_tag : bool;
  t_sentence_break : bool;
}.

Definition text_unit (unit_start unit_end : nat) (tag : bool) : TextUnit := {|
  t_span_start := unit_start;
  t_span_end := unit_end;
  t_byte_start := u_start (spans !!! unit_start);
  t_byte_end := u_end (spans !!! (unit_end - 1));
  t_tag := tag;
  t_sentence_break := negb tag && is_sentence_break (span_text (unit_end - 1));
|}.

(** Where the unit that starts at [unit_start] ends, and whether it is a tag. *)
Definition unit_end (unit_start : nat) : nat * bool :=
  if is_tag_open (span_text unit_start) then
    let opening := span_text unit_start in
    let close := skip_while (λ i, negb (is_tag_close (span_text i) opening)) (length spans) (S unit_start) in
    if close <? length spans then (S close, true)
    else (skip_while (λ i, negb (space_at i) && negb (is_tag_open (span_text i))) (length spans) (S unit_start), false)
  else
    (skip_while (λ i, negb (space_at i) && negb (is_tag_open (span_text i)) && negb (is_sentence_break (span_text (i - 1))))
       (length spans) (S unit_start), false).

Fixpoint units_loop (fuel span_pos : nat) : list TextUnit :=
  match fuel with
  | O => []
  | S fuel =>
      let unit_start := skip_while space_at (length spans) span_pos in
      if length spans <=? unit_start then []
      else
        let '(e, tag) := unit_end unit_start in
        text_unit unit_start e tag :: units_loop fuel e
  end.

Definition split_tag_aware_units : list TextUnit := units_loop (S (length spans)) 0.

End spans.

#[export] Instance WordRange_inhabited : Inhabited WordRange := populate (word_range [] 0 0).
#[export] Instance TextUnit_inhabited : Inhabited TextUnit := populate (text_unit [] 0 0 false).

(** [if (!chunk.empty()) chunks.push_back(chunk);] in front of the later ones. *)
Definition push_chunk (chunk : bytes) (later : list bytes) : list bytes :=
  match chunk with [] => later | _ => chunk :: later end.

(** * Default mode *)

Definition positive_budget (codepoint_budget : Z) : outcome () :=
  if (codepoint_budget <=? 0)%Z then Throw (str "text chunk budget must be positive") else Ok tt.

Definition fits (codepoint_budget : Z) (n : nat) : bool := (Z.of_nat n <=? codepoint_budget)%Z.

Section words.
Context (trimmed : bytes) (words : list WordRange) (codepoint_budget : Z).

Definition words_fit (first last : nat) : bool :=
  fits codepoint_budget (w_span_end (words !!! last) - w_span_start (words !!! first)).

Definition chunk_end (word_start hard_end : nat) : nat :=
  if (hard_end <? length words) && (S word_start <? hard_end) then
    let e := default hard_end (last_above (λ i, w_sentence_break (words !!! (i - 1))) (S word_start) hard_end) in
    if e =? hard_end then
      default e (last_above (λ i, w_clause_break (words !!! (i - 1))) (S word_start) hard_end)
    else e
  else hard_end.

Fixpoint word_chunks (fuel word_start : nat) : list bytes :=
  match fuel with
  | O => []
  | S fuel =>
      if word_start <? length words then
        let hard_end := skip_while (words_fit word_start) (length words) word_start in
        let hard_end := if hard_end =? word_start then S word_start else hard_end in
        let e := chunk_end word_start hard_end in
        let byte_start := w_byte_start (words !!! word_start) in
        let byte_end := w_byte_end (words !!! (e - 1)) in
        push_chunk (trim (substr trimmed byte_start (byte_end - byte_start))) (word_chunks fuel e)
      else []
  end.

End words.

Definition split_text_chunks_default (text : bytes) (codepoint_budget : Z) : outcome (list bytes) :=
  _ ← positive_budget codepoint_budget;
  let trimmed := trim text in
  match trimmed with
  | [] => Ok []
  | _ =>
      spans ← split_utf8_spans trimmed (str "text chunk");
      if fits codepoint_budget (length spans) then Ok [trimmed]
      else
        let words := split_word_ranges spans in
        match words with
        | [] => Ok []
        | _ => Ok (word_chunks trimmed words codepoint_budget (length words) 0)
        end
  end.

(** * Tag-aware mode *)

Section units.
Context (text : bytes) (units : list TextUnit) (codepoint_budget : Z).

Definition join_units (first limit : nat) : bytes :=
  if limit <=? first then []
  else
    let byte_start := t_byte_start (units !!! first) in
    trim (substr text byte_start (t_byte_end (units !!! (limit - 1)) - byte_start)).

Definition unit_range_codepoints (first limit : nat) : nat :=
  if limit <=? first then 0 else t_span_end (units !!! (limit - 1)) - t_span_start (units !!! first).

Fixpoint append_piece_chunks (fuel first limit : nat) : list bytes :=
  match fuel with
  | O => []
  | S fuel =>
      if first <? limit then
        let hard_end := skip_while (λ e, fits codepoint_budget (unit_range_codepoints first (S e))) limit first in
        let hard_end := if hard_end =? first then S first else hard_end in
        push_chunk (join_units first hard_end) (append_piece_chunks fuel hard_end limit)
      else []
  end.

Fixpoint sentences_loop (n i sentence_start : nat) : list (nat * nat) :=
  match n with
  | O => if sentence_start <? length units then [(sentence_start, length units)] else []
  | S n =>
      if t_sentence_break (units !!! i) then (sentence_start, S i) :: sentences_loop n (S i) (S i)
      else sentences_loop n (S i) sentence_start
  end.

Definition unit_sentences : list (nat * nat) := sentences_loop (length units) 0 0.

Fixpoint sentence_chunks (sentences : list (nat * nat)) (fuel sentence_index : nat) : list bytes :=
  match fuel with
  | O => []
  | S fuel =>
      if sentence_index <? length sentences then
        let '(first, limit) := sentences !!! sentence_index in
        if fits codepoint_budget (unit_range_codepoints first limit) then
          let e := skip_while (λ s, fits codepoint_budget (unit_range_codepoints first (sentences !!! s).2))
                     (length sentences) sentence_index in
          let e := if e =? sentence_index then S sentence_index else e in
          push_chunk (join_units first (sentences !!! (e - 1)).2) (sentence_chunks sentences fuel e)
        else
          append_piece_chunks (length units) first limit ++ sentence_chunks sentences fuel (S sentence_index)
      else []
  end.

End units.

Definition split_tag_aware_body (text : bytes) (codepoint_budget : Z) : outcome (list bytes) :=
  spans ← split_utf8_spans text (str "tag-aware text chunk");
  if fits codepoint_budget (length spans) then Ok [text]
  else
    let units := split_tag_aware_units spans in
    match units with
    | [] => Ok []
    | _ =>
        let sentences := unit_sentences units in
        Ok (sentence_chunks text units codepoint_budget sentences (length sentences) 0)
    end.

Definition split_leading_parenthetical_control (text : bytes) : option (bytes * bytes) :=
  if bool_decide (head text = Some (ch "(")) then
    match find_sub [ch ")"] text with
    | None => None
    | Some close =>
        if length text <=? close + 1 then None
        else
          let prefix := trim (take (close + 1) text) in
          let body := trim (drop (close + 1) text) in
          match prefix, body with
          | [], _ | _, [] => None
          | _, _ => Some (prefix, body)
          end
    end
  else None.

Definition split_text_chunks_tag_aware (text : bytes) (codepoint_budget : Z) : outcome (list bytes) :=
  _ ← positive_budget codepoint_budget;
  let trimmed := trim text in
  match trimmed with
  | [] => Ok []
  | _ =>
      match split_leading_parenthetical_control trimmed with
      | None => split_tag_aware_body trimmed codepoint_budget
      | Some (prefix, body) =>
          prefix_codepoints ← utf8_codepoint_count prefix (str "tag-aware leading text chunk tag");
          let body_budget := Z.max 1 (codepoint_budget - Z.of_nat prefix_codepoints - 1) in
          chunks ← split_tag_aware_body body body_budget;
          Ok (map (λ chunk, prefix ++ str " " ++ chunk) chunks)
      end
  end.

(** * Japanese mode *)

Section japanese.
Context (trimmed : bytes) (spans : list Utf8Span) (codepoint_budget : Z).

Definition span_chunk_end (first hard_end : nat) : nat :=
  if hard_end <? length spans then
    let e := default hard_end (last_above (λ i, is_sentence_break (span_text spans (i - 1))) (S first) hard_end) in
    if e =? hard_end then
      default e (last_above (λ i, is_clause_break (span_text spans (i - 1))) (S first) hard_end)
    else e
  else hard_end.

Definition span_chunk (first limit : nat) : bytes :=
  trim (substr trimmed (u_start (spans !!! first)) (u_end (spans !!! (limit - 1)) - u_start (spans !!! first))).

Fixpoint span_chunks (fuel first : nat) : list bytes :=
  match fuel with
  | O => []
  | S fuel =>
      let first := skip_while (space_at spans) (length spans) first in
      if length spans <=? first then []
      else
        let hard_end := Nat.min (length spans) (first + Z.to_nat codepoint_budget) in
        let e := span_chunk_end first hard_end in
        push_chunk (span_chunk first e) (span_chunks fuel e)
  end.

End japanese.

Definition split_text_chunks_japanese (text : bytes) (codepoint_budget : Z) : outcome (list bytes) :=
  _ ← positive_budget codepoint_budget;
  let trimmed := trim text in
  match trimmed with
  | [] => Ok []
  | _ =>
      spans ← split_utf8_spans trimmed (str "Japanese text chunk");
      if fits codepoint_budget (length spans) then Ok [trimmed]
      else Ok (span_chunks trimmed spans codepoint_budget (S (length spans)) 0)
  end.

(** * End-of-line mode *)

Definition append_endline_chunk (chunk : bytes) (codepoint_budget : Z) (chunks : list bytes) : outcome (list bytes) :=
  match chunk with
  | [] => Ok chunks
  | _ =>
      n ← utf8_codepoint_count chunk (str "endline text chunk");
      if fits codepoint_budget n then Ok (chunks ++ [chunk])
      else
        pieces ← split_text_chunks_japanese chunk codepoint_budget;
        Ok (chunks ++ pieces)
  end.

Section endline.
Context (trimmed : bytes) (spans : list Utf8Span) (codepoint_budget : Z).

Definition followed_by_line_end (i : nat) : bool :=
  let next := skip_while (λ j, is_horizontal_ascii_space (span_text spans j)) (length spans) (S i) in
  (length spans <=? next) || is_ascii_line_break (span_text spans next).

Fixpoint endline_loop (n i chunk_start : nat) (chunks : list bytes) : outcome (nat * list bytes) :=
  match n with
  | O => Ok (chunk_start, chunks)
  | S n =>
      if is_sentence_break (span_text spans i) && followed_by_line_end i then
        chunks ← append_endline_chunk (span_chunk trimmed spans chunk_start (S i)) codepoint_budget chunks;
        endline_loop n (S i) (S i) chunks
      else endline_loop n (S i) chunk_start chunks
  end.

End endline.

Definition split_text_chunks_endline (text : bytes) (codepoint_budget : Z) : outcome (list bytes) :=
  _ ← positive_budget codepoint_budget;
  let trimmed := trim text in
  match trimmed with
  | [] => Ok []
  | _ =>
      spans ← split_utf8_spans trimmed (str "endline text chunk");
      '(chunk_start, chunks) ← endline_loop trimmed spans codepoint_budget (length spans) 0 0 [];
      if chunk_start <? length spans then
        append_endline_chunk (span_chunk trimmed spans chunk_start (length spans)) codepoint_budget chunks
      else Ok chunks
  end.

(** * The entry point and the options of a request *)

Inductive TextChunkMode := Default | TagAware | Japanese | Endline.

#[export] Instance TextChunkMode_eq_dec : EqDecision TextChunkMode.
Proof. solve_decision. Defined.

Definition text_chunk_mode_name (mode : TextChunkMode) : bytes :=
  match mode with
  | Default => str "default"
  | TagAware => str "tag_aware"
  | Japanese => str "japanese"
  | Endline => str "endline"
  end.

Definition split_text_chunks (text : bytes) (codepoint_budget : Z) (mode : TextChunkMode) : outcome (list bytes) :=
  match mode with
  | TagAware => split_text_chunks_tag_aware text codepoint_budget
  | Japanese => split_text_chunks_japanese text codepoint_budget
  | Endline => split_text_chunks_endline text codepoint_budget
  | Default => split_text_chunks_default text codepoint_budget
  end.

Fixpoint find_option_loop (options : gmap bytes bytes) (keys : list bytes) (found : option (bytes * bytes)) :
    outcome (option (bytes * bytes)) :=
  match keys with
  | [] => Ok found
  | key :: keys =>
      match options !! key with
      | None | Some [] => find_option_loop options keys found
      | Some value =>
          match found with
          | Some (found_key, found_value) =>
              if bool_decide (found_value = value) then find_option_loop options keys found
              else Throw (str "conflicting option values for " ++ found_key ++ str " and " ++ key)
          | None => find_option_loop options keys (Some (key, value))
          end
      end
  end.

Definition find_option_match (options : gmap bytes bytes) (keys : list bytes) : outcome (option (bytes * bytes)) :=
  find_option_loop options keys None.

Definition parse_text_chunk_size_override (options : gmap bytes bytes) : outcome (option Z) :=
  found ← find_option_match options [str "text_chunk_size"; str "chunk_size"];
  match found with
  | None => Ok None
  | Some (key, text) =>
      value ← stoll text;
      if (value <=? 0)%Z then Throw (key ++ str " must be positive") else Ok (Some value)
  end.

Definition parse_text_chunk_mode_override (options : gmap bytes bytes) : outcome (option TextChunkMode) :=
  found ← find_option_match options [str "text_chunk_mode"; str "chunk_mode"];
  match found with
  | None => Ok None
  | Some (key, value) =>
      if bool_decide (value = str "default") then Ok (Some Default)
      else if one_of [str "tag_aware"; str "tag-aware"; str "tagaware"] value then Ok (Some TagAware)
      else if one_of [str "japanese"; str "ja"] value then Ok (Some Japanese)
      else if bool_decide (value = str "endline") then Ok (Some Endline)
      else Throw (key ++ str " must be one of default, tag_aware, japanese, endline")
  end.

(** * Sequences of UTF-8 characters *)

(** One well-formed sequence: a lead byte and the continuation bytes it announces. *)
Definition utf8_char (c : bytes) : Prop :=
  ∃ b t, c = b :: t ∧ utf8_width b = Some (length c) ∧ Forall (λ x, is_utf8_continuation x = true) t.

Definition valid_utf8 (text : bytes) : Prop := ∃ cs, Forall utf8_char cs ∧ concat cs = text.

Lemma utf8_width_pos b w : utf8_width b = Some w → 0 < w.
Proof. unfold utf8_width. repeat case_bool; intros; simplify_eq; lia. Qed.

Lemma utf8_char_pos c : utf8_char c → 0 < length c.
Proof. intros (b & t & -> & _). cbn. lia. Qed.

Lemma byte_at_behind p s i : byte_at (p ++ s) (length p + i) = byte_at s i.
Proof. unfold byte_at. by rewrite lookup_total_app_r, Nat.add_sub_swap, Nat.sub_diag by lia. Qed.

Lemma sequence_width_ok label text pos w :
  sequence_width label text pos = Ok w →
  utf8_char (substr text pos w) ∧ pos + w <= length text ∧ length (substr text pos w) = w.
Proof.
  unfold sequence_width. destruct (utf8_width _) as [w'|] eqn:Hw; [|done].
  destruct (Nat.ltb_spec (length text) (pos + w')) as [|Hl]; [done|].
  destruct (forallb _ _) eqn:Hc; [|done]. intros [= <-]. pose proof (utf8_width_pos _ _ Hw).
  assert (length (substr text pos w') = w') as Hlen by (unfold substr; rewrite length_take, length_drop; lia).
  split; [|done]. unfold utf8_char. rewrite Hlen.
  destruct (substr text pos w') as [|b t] eqn:E; [cbn in Hlen; lia|].
  assert (∀ i x, (b :: t) !! i = Some x → byte_at text (pos + i) = x) as Hat.
  { intros i x Hx. rewrite <- E in Hx. unfold substr in Hx. apply lookup_take_Some in Hx as [Hx _].
    rewrite lookup_drop in Hx. by apply list_lookup_total_correct. }
  exists b, t. split; [done|]. split; [by rewrite <- Hw, <- (Hat 0 b), Nat.add_0_r|].
  apply Forall_lookup_2. intros i x Hx. rewrite <- (Hat (S i) x) by done.
  rewrite forallb_forall in Hc. apply Hc. apply in_seq. apply lookup_lt_Some in Hx. cbn in Hlen. lia.
Qed.

Lemma sequence_width_char label p c s : utf8_char c → sequence_width label (p ++ c ++ s) (length p) = Ok (length c).
Proof.
  intros (b & t & -> & Hw & Ht). unfold sequence_width.
  rewrite <- (Nat.add_0_r (length p)) at 1. rewrite byte_at_behind. cbn [app byte_at lookup_total list_lookup_total].
  rewrite Hw. rewrite (proj2 (Nat.ltb_ge _ _)) by (rewrite !length_app; cbn; rewrite length_app; lia).
  rewrite (proj2 (forallb_forall _ _)); [done|]. intros i Hi%in_seq. rewrite byte_at_behind. cbn in Hi.
  destruct i as [|i]; [lia|]. change (byte_at (b :: t ++ s) (S i)) with (byte_at (t ++ s) i).
  destruct (lookup_lt_is_Some_2 t i) as [x Hx]; [lia|]. unfold byte_at.
  rewrite lookup_total_app_l by lia. rewrite (list_lookup_total_correct _ _ _ Hx).
  by eapply Forall_lookup_1 in Ht.
Qed.

(** The spans of a sequence of characters that starts at byte [p]. *)
Fixpoint spans_at (p : nat) (cs : list bytes) : list Utf8Span :=
  match cs with
  | [] => []
  | c :: cs => mk_span p (p + length c) c :: spans_at (p + length c) cs
  end.

Lemma count_loop_chars label p cs fuel n :
  Forall utf8_char cs → length (concat cs) <= fuel →
  count_loop fuel label (p ++ concat cs) (length p) n = Ok (n + length cs).
Proof.
  intros Hcs. revert p fuel n. induction Hcs as [|c cs Hc _ IH]; intros p fuel n; cbn [concat length].
  { rewrite app_nil_r, Nat.add_0_r. destruct fuel; cbn [count_loop]; [done|]. by rewrite (proj2 (Nat.ltb_ge _ _)). }
  rewrite length_app. pose proof (utf8_char_pos _ Hc). destruct fuel as [|fuel]; [lia|]. intros Hf.
  cbn [count_loop]. rewrite (proj2 (Nat.ltb_lt _ _)) by (rewrite !length_app; lia).
  rewrite sequence_width_char by done. cbn [mbind outcome_bind].
  rewrite app_assoc, <- length_app, IH by lia. f_equal. lia.
Qed.

Lemma spans_loop_chars label p cs fuel acc :
  Forall utf8_char cs → length (concat cs) <= fuel →
  spans_loop fuel label (p ++ concat cs) (length p) acc = Ok (acc ++ spans_at (length p) cs).
Proof.
  intros Hcs. revert p fuel acc. induction Hcs as [|c cs Hc _ IH]; intros p fuel acc; cbn [concat spans_at].
  { rewrite !app_nil_r. destruct fuel; cbn [spans_loop]; [done|]. by rewrite (proj2 (Nat.ltb_ge _ _)). }
  rewrite length_app. pose proof (utf8_char_pos _ Hc). destruct fuel as [|fuel]; [lia|]. intros Hf.
  cbn [spans_loop]. rewrite (proj2 (Nat.ltb_lt _ _)) by (rewrite !length_app; lia).
  rewrite sequence_width_char by done. cbn [mbind outcome_bind].
  unfold substr. rewrite drop_app_length, take_app_length.
  rewrite app_assoc, <- length_app, IH by lia. by rewrite <- app_assoc.
Qed.

Lemma count_loop_valid fuel label text pos n r :
  length text - pos <= fuel → count_loop fuel label text pos n = Ok r →
  ∃ cs, Forall utf8_char cs ∧ concat cs = drop pos text.
Proof.
  revert pos n. induction fuel as [|fuel IH]; intros pos n Hf; cbn [count_loop].
  { exists []. by rewrite drop_ge by lia. }
  destruct (Nat.ltb_spec pos (length text)); [|exists []; by rewrite drop_ge by lia].
  destruct (sequence_width label text pos) as [w|] eqn:E; [|done]. cbn [mbind outcome_bind]. intros H1.
  apply sequence_width_ok in E as (Hc & Hw & Hl). pose proof (utf8_char_pos _ Hc).
  destruct (IH (pos + w) (S n)) as (cs & Hcs & Hcat); [lia|done|].
  exists (substr text pos w :: cs). split; [by apply Forall_cons|]. cbn [concat].
  rewrite Hcat. unfold substr. by rewrite <- drop_drop, take_drop.
Qed.

Lemma codepoint_count_chars cs label : Forall utf8_char cs → utf8_codepoint_count (concat cs) label = Ok (length cs).
Proof. intros H. by apply (count_loop_chars label [] cs (length (concat cs)) 0 H). Qed.

Lemma codepoint_count_valid text label n :
  utf8_codepoint_count text label = Ok n → ∃ cs, Forall utf8_char cs ∧ concat cs = text ∧ n = length cs.
Proof.
  intros H. destruct (count_loop_valid (length text) label text 0 0 n) as (cs & Hcs & Hcat); [lia|done|].
  exists cs. rewrite drop_0 in Hcat. split_and!; [done..|]. subst text. rewrite codepoint_count_chars in H by done. congruence.
Qed.

Lemma split_utf8_chars cs label : Forall utf8_char cs → split_utf8_spans (concat cs) label = Ok (spans_at 0 cs).
Proof.
  intros H. unfold split_utf8_spans. rewrite codepoint_count_chars by done. cbn [mbind outcome_bind].
  by apply (spans_loop_chars label [] cs (length (concat cs)) [] H).
Qed.

Lemma split_utf8_valid text label spans :
  split_utf8_spans text label = Ok spans → ∃ cs, Forall utf8_char cs ∧ concat cs = text ∧ spans = spans_at 0 cs.
Proof.
  intros H. pose proof H as H'. apply outcome_bind_ok in H' as (n & Hn & _).
  apply codepoint_count_valid in Hn as (cs & Hcs & <- & _). exists cs. split_and!; [done..|].
  rewrite split_utf8_chars in H by done. congruence.
Qed.

Lemma length_spans_at p cs : length (spans_at p cs) = length cs.
Proof. revert p. induction cs as [|c cs IH]; intros p; cbn; [done|]. by rewrite IH. Qed.

Definition offset (cs : list bytes) (i : nat) : nat := length (concat (take i cs)).

Lemma spans_at_lookup p cs i c :
  cs !! i = Some c → spans_at p cs !!! i = mk_span (p + offset cs i) (p + offset cs (S i)) c.
Proof.
  revert p i. induction cs as [|x cs IH]; intros p [|i] Hi; cbn in Hi; simplify_eq.
  - unfold offset. cbn. rewrite take_0. cbn. by rewrite app_nil_r, Nat.add_0_r.
  - change (spans_at p (x :: cs) !!! S i) with (spans_at (p + length x) cs !!! i). rewrite (IH _ _ Hi).
    unfold offset. change (take (S (S i)) (x :: cs)) with (x :: take (S i) cs). cbn [take concat]. rewrite !length_app. f_equal; lia.
Qed.

(** * Ranges of characters *)

(** The text of the characters [a .. b). *)
Definition piece (cs : list bytes) (a b : nat) : bytes := concat (take (b - a) (drop a cs)).

Lemma take_range {A} (l : list A) a b : a <= b → take b l = take a l ++ take (b - a) (drop a l).
Proof. intros H. replace b with (a + (b - a)) at 1 by lia. by rewrite take_take_drop. Qed.

Lemma piece_split cs a b e : a <= b <= e → piece cs a e = piece cs a b ++ piece cs b e.
Proof.
  intros H. unfold piece. rewrite (take_range _ (b - a) (e - a)) by lia. rewrite concat_app, drop_drop.
  by replace (a + (b - a)) with b by lia; replace (e - a - (b - a)) with (e - b) by lia.
Qed.

Lemma piece_all cs : piece cs 0 (length cs) = concat cs.
Proof. unfold piece. by rewrite Nat.sub_0_r, drop_0, take_ge. Qed.

Lemma offset_piece cs b : offset cs b = length (piece cs 0 b).
Proof. unfold offset, piece. by rewrite Nat.sub_0_r, drop_0. Qed.

Lemma offset_between cs a b : a <= b → offset cs b - offset cs a = length (piece cs a b).
Proof. intros H. rewrite !offset_piece, (piece_split cs 0 a b), length_app by lia. lia. Qed.

Lemma substr_between cs a b :
  a <= b <= length cs → substr (concat cs) (offset cs a) (offset cs b - offset cs a) = piece cs a b.
Proof.
  intros H. rewrite offset_between, offset_piece by lia. unfold substr.
  rewrite <- (piece_all cs), (piece_split cs 0 a (length cs)), drop_app_length by lia.
  by rewrite (piece_split cs a b (length cs)), take_app_length by lia.
Qed.

Lemma span_text_chars cs i : span_text (spans_at 0 cs) i = cs !!! i.
Proof.
  unfold span_text. destruct (decide (i < length cs)) as [Hi|Hi].
  - destruct (lookup_lt_is_Some_2 cs i Hi) as [c Hc]. rewrite (spans_at_lookup 0 cs i c Hc). by rewrite (list_lookup_total_correct _ _ _ Hc).
  - rewrite !list_lookup_total_alt, !lookup_ge_None_2 by (rewrite ?length_spans_at; lia). done.
Qed.

Lemma span_start_chars cs i : i < length cs → u_start (spans_at 0 cs !!! i) = offset cs i.
Proof. intros [c Hc]%lookup_lt_is_Some_2. by rewrite (spans_at_lookup 0 cs i c Hc). Qed.

Lemma span_end_chars cs i : 0 < i <= length cs → u_end (spans_at 0 cs !!! (i - 1)) = offset cs i.
Proof.
  intros H. destruct (lookup_lt_is_Some_2 cs (i - 1)) as [c Hc]; [lia|].
  rewrite (spans_at_lookup 0 cs (i - 1) c Hc). cbn [u_end Nat.add]. by replace (S (i - 1)) with i by lia.
Qed.

Lemma span_chunk_chars cs a b :
  a < b <= length cs → span_chunk (concat cs) (spans_at 0 cs) a b = trim (piece cs a b).
Proof.
  intros H. unfold span_chunk. rewrite span_start_chars, span_end_chars by lia. by rewrite substr_between by lia.
Qed.

(** * Scans *)

Lemma skip_while_spec p limit pos :
  pos <= limit →
  let e := skip_while p limit pos in
  pos <= e <= limit ∧ (∀ j, pos <= j < e → p j = true) ∧ (e < limit → p e = false).
Proof.
  intros H. unfold skip_while. remember (limit - pos) as n eqn:Hn. revert pos H Hn.
  induction n as [|n IH]; intros pos H Hn; cbn [skip_loop]; [split_and!; intros; lia|].
  destruct (p pos) eqn:E; [|split_and!; try done; intros; lia].
  destruct (IH (S pos)) as ((H1 & H2) & H3 & H4); [lia..|]. split_and!; [lia|lia| |done].
  intros j Hj. destruct (decide (j = pos)) as [->|]; [done|]. apply H3. lia.
Qed.

Lemma last_above_spec p lo hi i : last_above p lo hi = Some i → lo < i <= hi ∧ p i = true.
Proof.
  induction hi as [|hi IH]; cbn [last_above].
  - destruct (Nat.ltb_spec lo 0); [lia|done].
  - destruct (Nat.ltb_spec lo (S hi)); [|done]. destruct (p (S hi)) eqn:E; [intros [= <-]; by split; [lia|]|]. intros Hi. destruct (IH Hi). by split; [lia|].
Qed.

(** The cut chosen by a scan backwards stays in the range scanned. *)
Lemma last_above_default p first hard_end d :
  first < d <= hard_end → first < default d (last_above p (S first) hard_end) <= hard_end.
Proof. intros H. destruct (last_above p (S first) hard_end) as [i|] eqn:E; [|done]. apply last_above_spec in E. cbn. unfold id. lia. Qed.

(** * Ranges that leave only gaps between them *)

Section covers.
Context (gap : nat → bool).

Definition blank (a b : nat) : Prop := ∀ j, a <= j < b → gap j = true.

Inductive covers : nat → nat → list (nat * nat) → Prop :=
| covers_end pos limit : pos <= limit → blank pos limit → covers pos limit []
| covers_next pos a b limit rs :
    pos <= a → blank pos a → a < b → covers b limit rs → covers pos limit ((a, b) :: rs).

Lemma blank_app a b d : blank a b → blank b d → blank a d.
Proof. intros H1 H2 j Hj. destruct (decide (j < b)); [apply H1|apply H2]; lia. Qed.

Lemma covers_le pos limit rs : covers pos limit rs → pos <= limit.
Proof. induction 1; lia. Qed.

Lemma covers_app pos mid limit rs1 rs2 :
  covers pos mid rs1 → covers mid limit rs2 → covers pos limit (rs1 ++ rs2).
Proof.
  induction 1 as [pos mid Hp Hb|pos a b mid rs Hp Hb Hab _ IH]; intros H2; cbn [app].
  - pose proof (covers_le _ _ _ H2). destruct H2 as [mid limit|mid a b limit rs]; econstructor; try done; try lia; by eapply blank_app.
  - econstructor; eauto.
Qed.

(** The ranges up to index [e] go as far as the last of them. *)
Lemma covers_step l i e pos limit :
  i < e <= length l → covers pos limit (drop i l) →
  let a := (l !!! i).1 in let d := (l !!! (e - 1)).2 in
  pos <= a ∧ blank pos a ∧ a < d ∧ covers d limit (drop e l).
Proof.
  intros H Hc. cbn zeta. destruct (lookup_lt_is_Some_2 l i) as [[a b] Hab]; [lia|].
  rewrite (list_lookup_total_correct _ _ _ Hab), (drop_S _ _ _ Hab) in *. cbn [fst].
  inversion Hc as [|? ? ? ? ? Hp Hb Hlt Hrest]; subst. cut (a < (l !!! (e - 1)).2 ∧ covers (l !!! (e - 1)).2 limit (drop e l)); [tauto|].
  clear Hp Hb Hc pos. remember (e - S i) as n eqn:Hn. revert i a b H Hab Hlt Hrest Hn. induction n as [|n IH]; intros i a b H Hab Hlt Hrest Hn.
  - replace (e - 1) with i by lia. rewrite (list_lookup_total_correct _ _ _ Hab). by replace e with (S i) by lia.
  - destruct (lookup_lt_is_Some_2 l (S i)) as [[a' b'] Hab']; [lia|]. rewrite (drop_S _ _ _ Hab') in Hrest.
    inversion Hrest as [|? ? ? ? ? ? ? ? Hrest']; subst.
    destruct (IH (S i) a' b') as [? ?]; [lia|done..|lia|]. split; [lia|done].
Qed.

End covers.

(** Ranges with nothing between them. *)
Notation tiles := (covers (λ _, false)).

Lemma tiles_head pos limit a b rs : tiles pos limit ((a, b) :: rs) → a = pos.
Proof. intros H. inversion H as [|? ? ? ? ? Hp Hb]; subst. destruct (decide (a = pos)); [done|]. by specialize (Hb pos ltac:(lia)). Qed.

Lemma push_all_concat chunks : concat (foldr push_chunk [] chunks) = concat chunks.
Proof. induction chunks as [|[|x c] cs IH]; cbn; [done|done|by rewrite IH]. Qed.

Lemma push_all_app chunks1 chunks2 :
  foldr push_chunk [] (chunks1 ++ chunks2) = foldr push_chunk [] chunks1 ++ foldr push_chunk [] chunks2.
Proof. induction chunks1 as [|[|x c] cs IH]; cbn; [done|done|by rewrite IH]. Qed.

Lemma push_all_Forall (P : bytes → Prop) chunks :
  Forall (λ c, c ≠ [] → P c) chunks → Forall (λ c, c ≠ [] ∧ P c) (foldr push_chunk [] chunks).
Proof. induction 1 as [|[|x c] cs Hc _ IH]; cbn; [apply Forall_nil_2|done|]. apply Forall_cons. split; [split; [done|by apply Hc]|done]. Qed.

Section ranges.
Context (cs : list bytes).

Notation space := (λ j, is_ascii_space (cs !!! j)).

Definition range_chunk (r : nat * nat) : bytes := trim (piece cs r.1 r.2).

Definition range_chunks (rs : list (nat * nat)) : list bytes := foldr push_chunk [] (map range_chunk rs).

Lemma solid_blank a b : a <= b <= length cs → blank space a b → solid (piece cs a b) = [].
Proof.
  intros H. remember (b - a) as n eqn:Hn. revert a H Hn. induction n as [|n IH]; intros a H Hn Hb.
  { unfold piece. by rewrite <- Hn, take_0. }
  rewrite (piece_split cs a (S a) b), solid_app, IH, app_nil_r; [|lia|lia|intros j Hj; apply Hb; lia|lia].
  unfold piece. replace (S a - a) with 1 by lia.
  destruct (lookup_lt_is_Some_2 cs a) as [c Hc]; [lia|]. rewrite (drop_S _ _ _ Hc). cbn. rewrite app_nil_r.
  specialize (Hb a ltac:(lia)). cbn beta in Hb. rewrite (list_lookup_total_correct _ _ _ Hc) in Hb.
  destruct c as [|x [|? ?]]; try done. cbn in *. by rewrite Hb.
Qed.

Lemma covers_solid pos limit rs :
  limit <= length cs → covers space pos limit rs → solid (concat (range_chunks rs)) = solid (piece cs pos limit).
Proof.
  unfold range_chunks. rewrite push_all_concat. intros Hl. induction 1 as [pos limit Hp Hb|pos a b limit rs Hp Hb Hab Hc IH].
  - by rewrite solid_blank.
  - pose proof (covers_le _ _ _ _ Hc). cbn [map concat]. rewrite solid_app, IH by done.
    unfold range_chunk. rewrite solid_trim. cbn [fst snd].
    rewrite (piece_split cs pos a limit), (piece_split cs a b limit), !solid_app, (solid_blank pos a) by (done || lia). done.
Qed.

(** What the loops deliver: chunks of ranges that cover the text, each range as [P] says. *)
Definition delivers (P : nat * nat → Prop) (pos limit : nat) (chunks : list bytes) : Prop :=
  ∃ rs, chunks = range_chunks rs ∧ covers space pos limit rs ∧ Forall P rs.

Lemma delivers_nil P pos limit : covers space pos limit [] → delivers P pos limit [].
Proof. intros H. exists []. by split_and!. Qed.

Lemma delivers_cons (P : nat * nat → Prop) pos a b limit chunk chunks :
  pos <= a → blank space pos a → a < b → P (a, b) → chunk = trim (piece cs a b) →
  delivers P b limit chunks → delivers P pos limit (push_chunk chunk chunks).
Proof.
  intros Hp Hb Hab HP -> (rs & -> & Hc & HF). exists ((a, b) :: rs). split_and!; [done| |by apply Forall_cons].
  by econstructor.
Qed.

Lemma delivers_app P pos mid limit chunks1 chunks2 :
  delivers P pos mid chunks1 → delivers P mid limit chunks2 → delivers P pos limit (chunks1 ++ chunks2).
Proof.
  intros (rs1 & -> & H1 & F1) (rs2 & -> & H2 & F2). exists (rs1 ++ rs2). split_and!.
  - unfold range_chunks. by rewrite map_app, push_all_app.
  - by eapply covers_app.
  - by apply Forall_app_2.
Qed.

Lemma delivers_solid P chunks :
  delivers P 0 (length cs) chunks → solid (concat chunks) = solid (concat cs).
Proof. intros (rs & -> & Hc & _). by rewrite (covers_solid 0 (length cs)), piece_all. Qed.

End ranges.

(** * The words cover the text *)

Section chars.
Context (cs : list bytes).

Notation spans := (spans_at 0 cs).
Notation space := (λ j, is_ascii_space (cs !!! j)).

Definition solid_range (a b : nat) : Prop := ∀ j, a <= j < b → is_ascii_space (cs !!! j) = false.

Lemma space_at_chars i : space_at spans i = is_ascii_space (cs !!! i).
Proof. unfold space_at. by rewrite span_text_chars. Qed.

Lemma skip_space pos :
  pos <= length cs →
  let e := skip_while (space_at spans) (length spans) pos in
  pos <= e <= length cs ∧ blank space pos e ∧ (e < length cs → is_ascii_space (cs !!! e) = false).
Proof.
  intros H. cbn zeta. destruct (skip_while_spec (space_at spans) (length spans) pos) as (H1 & H2 & H3); [by rewrite length_spans_at|].
  rewrite length_spans_at in *. split_and!; try lia.
  - intros j Hj. rewrite <- space_at_chars. by apply H2.
  - intros He. rewrite <- space_at_chars. by apply H3.
Qed.

(** The end of a unit that scans on from [S first] over non-space characters. *)
Lemma skip_solid (p : nat → bool) first :
  first < length cs → is_ascii_space (cs !!! first) = false →
  (∀ j, p j = true → is_ascii_space (cs !!! j) = false) →
  let e := skip_while p (length spans) (S first) in first < e <= length cs ∧ solid_range first e.
Proof.
  intros H Hfirst Hp. cbn zeta. destruct (skip_while_spec p (length spans) (S first)) as (H1 & H2 & _); [rewrite length_spans_at; lia|].
  rewrite length_spans_at in *. split; [lia|]. intros j Hj. destruct (decide (j = first)) as [->|]; [done|].
  apply Hp, H2. lia.
Qed.

Definition word_span (w : WordRange) : nat * nat := (w_span_start w, w_span_end w).

Definition good_word (w : WordRange) : Prop :=
  ∃ a b, w = word_range spans a b ∧ a < b <= length cs ∧ solid_range a b.

Lemma words_loop_spec fuel pos :
  length cs - pos < fuel → pos <= length cs →
  covers space pos (length cs) (word_span <$> words_loop spans fuel pos) ∧ Forall good_word (words_loop spans fuel pos).
Proof.
  revert pos. induction fuel as [|fuel IH]; intros pos Hf Hpos; [lia|]. cbn [words_loop].
  destruct (skip_space pos Hpos) as (H1 & Hb & Hs). set (a := skip_while (space_at spans) (length spans) pos) in *.
  destruct (Nat.leb_spec (length spans) a) as [Ha|Ha]; rewrite length_spans_at in Ha.
  { split; [|by apply Forall_nil_2]. replace (length cs) with a by lia. by apply covers_end; [lia|]. }
  destruct (skip_solid (λ i, negb (space_at spans i)) a) as [He Hsol]; [lia|by apply Hs| |].
  { intros j Hj. rewrite space_at_chars in Hj. by apply negb_true_iff. }
  set (e := skip_while _ _ (S a)) in *. destruct (IH e) as [Hc HF]; [lia..|]. split.
  - rewrite fmap_cons. by apply (covers_next _ pos a e); [lia| |lia|].
  - apply Forall_cons. split; [|done]. by exists a, e.
Qed.

Lemma word_chunk a b (w1 w2 : WordRange) :
  good_word w1 → good_word w2 → w_span_start w1 = a → w_span_end w2 = b → a < b ->
  trim (substr (concat cs) (w_byte_start w1) (w_byte_end w2 - w_byte_start w1)) = trim (piece cs a b).
Proof.
  intros (a1 & b1 & -> & H1 & _) (a2 & b2 & -> & H2 & _) <- <- Hab.
  cbn [w_byte_start w_byte_end w_span_start w_span_end word_range] in *.
  rewrite span_start_chars, span_end_chars by lia. by rewrite substr_between by lia.
Qed.

Definition within (budget : Z) (r : nat * nat) : Prop := (Z.of_nat (r.2 - r.1) <= budget)%Z.

Section default.
Context (words : list WordRange) (budget : Z).
Hypothesis good : Forall good_word words.

Notation ranges := (word_span <$> words).

Definition word_range_ok (r : nat * nat) : Prop := within budget r ∨ solid_range r.1 r.2.

Lemma word_lookup i : i < length words → ranges !!! i = word_span (words !!! i) ∧ good_word (words !!! i).
Proof.
  intros [w Hw]%lookup_lt_is_Some_2. rewrite (list_lookup_total_correct ranges i (word_span w)) by (by rewrite list_lookup_fmap, Hw).
  rewrite (list_lookup_total_correct _ _ _ Hw). split; [done|]. by eapply Forall_lookup_1 in good.
Qed.

Lemma chunk_end_range word_start hard_end :
  word_start < hard_end → word_start < chunk_end words word_start hard_end <= hard_end.
Proof.
  intros H. unfold chunk_end. repeat case_bool; [|by apply last_above_default|lia].
  apply last_above_default. rewrite (proj1 (Nat.eqb_eq _ _) E0). lia.
Qed.

Lemma hard_end_range (p : nat → bool) first limit :
  first < limit →
  let h := skip_while p limit first in let h := if h =? first then S first else h in
  first < h <= limit ∧ (∀ j, first <= j < h → p j = true ∨ (j = first ∧ h = S first)).
Proof.
  intros H. cbn zeta. destruct (skip_while_spec p limit first) as (H1 & H2 & H3); [lia|].
  destruct (Nat.eqb_spec (skip_while p limit first) first) as [E|E].
  - split; [lia|]. intros j Hj. right. lia.
  - split; [lia|]. intros j Hj. left. by apply H2.
Qed.

Lemma word_chunks_deliver fuel pos i :
  length words - i <= fuel → i <= length words → covers space pos (length cs) (drop i ranges) →
  delivers cs word_range_ok pos (length cs) (word_chunks (concat cs) words budget fuel i).
Proof.
  revert pos i. induction fuel as [|fuel IH]; intros pos i Hf Hi Hc; cbn [word_chunks].
  { rewrite drop_ge in Hc by (rewrite length_fmap; lia). by apply delivers_nil. }
  destruct (Nat.ltb_spec i (length words)) as [Hlt|]; [|rewrite drop_ge in Hc by (rewrite length_fmap; lia); by apply delivers_nil].
  destruct (hard_end_range (words_fit words budget i) i (length words) Hlt) as (Hh & Hfit).
  set (h := if skip_while _ _ _ =? i then _ else _) in *.
  destruct (chunk_end_range i h) as [He He']; [lia|]. set (e := chunk_end words i h) in *.
  destruct (covers_step space ranges i e pos (length cs)) as (Hp & Hb & Hab & Hrest); [rewrite length_fmap; lia|done|].
  destruct (word_lookup i) as [Hri Hgi]; [lia|]. destruct (word_lookup (e - 1)) as [Hre Hge]; [lia|].
  rewrite Hri, Hre in *. cbn [word_span fst snd] in *.
  eapply delivers_cons; [done|done|done| |by apply word_chunk|by apply IH; [lia|lia|]].
  destruct (Hfit (e - 1)) as [Hw|[Hw Hs]]; [lia| |].
  - left. unfold within. cbn. unfold words_fit, fits in Hw. by apply Z.leb_le in Hw.
  - right. cbn. replace (e - 1) with i by lia. by destruct Hgi as (a & b & -> & _ & ?).
Qed.

End default.

(** * The units cover the text *)

Definition tag_range (a b : nat) : Prop :=
  is_tag_open (cs !!! a) = true ∧ is_tag_close (cs !!! (b - 1)) (cs !!! a) = true.

Definition good_unit (u : TextUnit) : Prop :=
  ∃ a b tag, u = text_unit spans a b tag ∧ a < b <= length cs ∧ (if tag then tag_range a b else solid_range a b).

Definition unit_span (u : TextUnit) : nat * nat := (t_span_start u, t_span_end u).

Lemma unit_end_spec a :
  a < length cs → is_ascii_space (cs !!! a) = false →
  let '(e, tag) := unit_end spans a in a < e <= length cs ∧ (if (tag : bool) then tag_range a e else solid_range a e).
Proof.
  intros H Ha. unfold unit_end. destruct (is_tag_open (span_text spans a)) eqn:Ho; rewrite span_text_chars in Ho.
  - set (p := λ i, negb (is_tag_close (span_text spans i) (span_text spans a))).
    destruct (skip_while_spec p (length spans) (S a)) as (H1 & _ & H3); [rewrite length_spans_at; lia|].
    rewrite length_spans_at in *.
    destruct (Nat.ltb_spec (skip_while p (length cs) (S a)) (length cs)) as [Hc|Hc].
    + split; [lia|]. split; [done|]. specialize (H3 Hc). unfold p in H3 at 1. rewrite !span_text_chars in H3.
      apply negb_false_iff in H3. by rewrite Nat.sub_1_r, Nat.pred_succ.
    + pose proof (skip_solid (λ i, negb (space_at spans i) && negb (is_tag_open (span_text spans i))) a H Ha) as K.
      rewrite length_spans_at in K. apply K. intros j [Hj _]%andb_prop. rewrite space_at_chars in Hj. by apply negb_true_iff.
  - apply skip_solid; [done..|].
    intros j [[Hj _]%andb_prop _]%andb_prop. rewrite space_at_chars in Hj. by apply negb_true_iff.
Qed.

Lemma units_loop_spec fuel pos :
  length cs - pos < fuel → pos <= length cs →
  covers space pos (length cs) (unit_span <$> units_loop spans fuel pos) ∧ Forall good_unit (units_loop spans fuel pos).
Proof.
  revert pos. induction fuel as [|fuel IH]; intros pos Hf Hpos; [lia|]. cbn [units_loop].
  destruct (skip_space pos Hpos) as (H1 & Hb & Hs). set (a := skip_while (space_at spans) (length spans) pos) in *.
  destruct (Nat.leb_spec (length spans) a) as [Ha|Ha]; rewrite length_spans_at in Ha.
  { split; [|by apply Forall_nil_2]. replace (length cs) with a by lia. by apply covers_end; [lia|]. }
  pose proof (unit_end_spec a Ha (Hs Ha)) as He. destruct (unit_end spans a) as [e tag]. destruct He as [He Hr].
  destruct (IH e) as [Hc HF]; [lia..|]. split.
  - rewrite fmap_cons. by apply (covers_next _ pos a e); [lia| |lia|].
  - apply Forall_cons. split; [|done]. by exists a, e, tag.
Qed.

Section units.
Context (units : list TextUnit) (budget : Z).
Hypothesis good : Forall good_unit units.

Notation ranges := (unit_span <$> units).

Definition unit_range_ok (r : nat * nat) : Prop := within budget r ∨ solid_range r.1 r.2 ∨ tag_range r.1 r.2.

Lemma unit_lookup i : i < length units → ranges !!! i = unit_span (units !!! i) ∧ good_unit (units !!! i).
Proof.
  intros [u Hu]%lookup_lt_is_Some_2. rewrite (list_lookup_total_correct ranges i (unit_span u)) by (by rewrite list_lookup_fmap, Hu).
  rewrite (list_lookup_total_correct _ _ _ Hu). split; [done|]. by eapply Forall_lookup_1 in good.
Qed.

(** What the units [first .. limit) joined are, from a cover of the units on. *)
Lemma join_units_step first limit pos :
  first < limit <= length units → covers space pos (length cs) (drop first ranges) →
  let a := t_span_start (units !!! first) in let b := t_span_end (units !!! (limit - 1)) in
  pos <= a ∧ blank space pos a ∧ a < b ∧ covers space b (length cs) (drop limit ranges) ∧
  join_units (concat cs) units first limit = trim (piece cs a b) ∧ unit_range_codepoints units first limit = b - a.
Proof.
  intros H Hc. cbn zeta. destruct (covers_step space ranges first limit pos (length cs)) as (Hp & Hb & Hab & Hrest); [by rewrite length_fmap|done|].
  destruct (unit_lookup first) as [Hrf Hgf]; [lia|]. destruct (unit_lookup (limit - 1)) as [Hrl Hgl]; [lia|].
  rewrite Hrf, Hrl in *. cbn [unit_span fst snd] in *. split_and!; [done..| |].
  - unfold join_units. rewrite (proj2 (Nat.leb_gt _ _)) by lia.
    destruct Hgf as (a1 & b1 & t1 & E1 & H1 & _), Hgl as (a2 & b2 & t2 & E2 & H2 & _). rewrite E1, E2 in Hab |- *.
    cbn [t_byte_start t_byte_end t_span_start t_span_end text_unit] in *.
    rewrite span_start_chars, span_end_chars by lia. by rewrite substr_between by lia.
  - unfold unit_range_codepoints. by rewrite (proj2 (Nat.leb_gt _ _)) by lia.
Qed.

Lemma unit_alone_ok i : i < length units → unit_range_ok (unit_span (units !!! i)).
Proof. intros Hi. destruct (unit_lookup i Hi) as [_ (a & b & [|] & -> & _ & Hr)]; right; [by right|by left]. Qed.

Lemma within_fits n r : fits budget n = true → n = r.2 - r.1 → within budget r.
Proof. unfold fits, within. intros H%Z.leb_le ->. done. Qed.

Lemma append_piece_deliver fuel pos first limit :
  limit - first <= fuel → first < limit <= length units → covers space pos (length cs) (drop first ranges) →
  delivers cs unit_range_ok pos (t_span_end (units !!! (limit - 1))) (append_piece_chunks (concat cs) units budget fuel first limit).
Proof.
  revert pos first. induction fuel as [|fuel IH]; intros pos first Hf Hi Hc; [lia|]. cbn [append_piece_chunks].
  rewrite (proj2 (Nat.ltb_lt _ _)) by lia.
  destruct (hard_end_range (λ e, fits budget (unit_range_codepoints units first (S e))) first limit) as (Hh & Hfit); [lia|].
  set (h := if skip_while _ _ _ =? first then _ else _) in *.
  destruct (join_units_step first h pos) as (Hp & Hb & Hab & Hrest & Hj & Hn); [lia|done|].
  eapply delivers_cons; [done|done|done| |done|].
  - destruct (Hfit (h - 1)) as [Hw|[Hw Hs]]; [lia| |].
    + left. replace (S (h - 1)) with h in Hw by lia. by eapply within_fits.
    + replace (h - 1) with first by lia. apply unit_alone_ok. lia.
  - destruct (decide (h = limit)) as [->|]; [|by apply IH; [lia|lia|]].
    destruct fuel; cbn [append_piece_chunks]; [|rewrite (proj2 (Nat.ltb_ge _ _)) by lia]; apply delivers_nil, covers_end; try lia; intros ? ?; lia.
Qed.

Lemma sentences_loop_tiles n i start :
  n + i = length units → start <= i → tiles start (length units) (sentences_loop units n i start).
Proof.
  revert i start. induction n as [|n IH]; intros i start Hn Hs; cbn [sentences_loop].
  - destruct (Nat.ltb_spec start (length units)).
    + eapply covers_next; [done|intros ? ?; lia|done|]. apply covers_end; [lia|]. intros ? ?. lia.
    + apply covers_end; [lia|]. intros ? ?. lia.
  - case_bool; [|apply IH; lia]. eapply covers_next; [done|intros ? ?; lia|lia|]. apply IH; lia.
Qed.

Lemma sentence_chunks_deliver sentences fuel pos si first :
  length sentences - si <= fuel → si <= length sentences → first <= length units →
  tiles first (length units) (drop si sentences) → covers space pos (length cs) (drop first ranges) →
  delivers cs unit_range_ok pos (length cs) (sentence_chunks (concat cs) units budget sentences fuel si).
Proof.
  revert pos si first. induction fuel as [|fuel IH]; intros pos si first Hf Hsi Hfirst Ht Hc.
  all: assert (si = length sentences → delivers cs unit_range_ok pos (length cs) []) as Hend.
  1, 3: intros ->; rewrite drop_ge in Ht by lia; inversion Ht as [? ? ? Hb|]; subst; destruct (decide (first = length units)) as [->|];
    [rewrite drop_ge in Hc by (rewrite length_fmap; lia); by apply delivers_nil|by specialize (Hb first ltac:(lia))].
  { cbn [sentence_chunks]. apply Hend. lia. }
  cbn [sentence_chunks]. destruct (Nat.ltb_spec si (length sentences)) as [Hlt|]; [|apply Hend; lia]. clear Hend.
  assert (∀ e, si < e <= length sentences → (sentences !!! si).1 = first ∧
    first < (sentences !!! (e - 1)).2 <= length units ∧ tiles (sentences !!! (e - 1)).2 (length units) (drop e sentences)) as Hstep.
  { intros e He. destruct (covers_step (λ _, false) sentences si e first (length units)) as (H1 & H2 & H3 & H4); [lia|done|].
    pose proof (covers_le _ _ _ _ H4). destruct (decide ((sentences !!! si).1 = first)); [split_and!; [done|lia..|done]|].
    by specialize (H2 first ltac:(lia)). }
  destruct (Hstep (S si)) as (Hfst & Hlim & Ht'); [lia|]. rewrite Nat.sub_1_r, Nat.pred_succ in Hlim, Ht'.
  destruct (sentences !!! si) as [f limit] eqn:Es. cbn [fst snd] in *. subst f.
  destruct (fits budget (unit_range_codepoints units first limit)) eqn:Efit.
  - destruct (hard_end_range (λ s, fits budget (unit_range_codepoints units first (sentences !!! s).2)) si (length sentences)) as (Hh & Hfit); [lia|].
    set (e := if skip_while _ _ _ =? si then _ else _) in *. destruct (Hstep e) as (_ & Hl & Ht2); [lia|].
    set (l := (sentences !!! (e - 1)).2) in *.
    destruct (join_units_step first l pos) as (Hp & Hb & Hab & Hrest & Hj & Hn); [lia|done|].
    eapply delivers_cons; [done|done|done| |done|by eapply (IH _ e l); [lia|lia|lia| |]].
    left. assert (fits budget (unit_range_codepoints units first l) = true) as Hw; [|by eapply within_fits].
    destruct (Hfit (e - 1)) as [Hw|[Hw Hs]]; [lia|done|]. unfold l. replace (e - 1) with si by lia. by rewrite Es.
  - destruct (join_units_step first limit pos) as (_ & _ & _ & Hrest & _); [lia|done|].
    eapply delivers_app; [apply append_piece_deliver; [lia|lia|done]|]. by eapply (IH _ (S si) limit); [lia|lia|lia| |].
Qed.

End units.

(** * The spans of Japanese mode *)

Lemma span_chunks_deliver budget fuel pos :
  (0 < budget)%Z → length cs - pos < fuel → pos <= length cs →
  delivers cs (within budget) pos (length cs) (span_chunks (concat cs) spans budget fuel pos).
Proof.
  intros Hbud. revert pos. induction fuel as [|fuel IH]; intros pos Hf Hpos; [lia|]. cbn [span_chunks].
  destruct (skip_space pos Hpos) as (H1 & Hb & Hs). set (a := skip_while (space_at spans) (length spans) pos) in *.
  destruct (Nat.leb_spec (length spans) a) as [Ha|Ha]; rewrite length_spans_at in Ha.
  { apply delivers_nil, covers_end; [lia|]. by replace (length cs) with a by lia. }
  rewrite !length_spans_at. set (h := Nat.min (length cs) (a + Z.to_nat budget)).
  assert (a < span_chunk_end spans a h <= h) as [He He'].
  { unfold span_chunk_end. repeat case_bool; [|apply last_above_default; lia|lia].
    apply last_above_default. rewrite (proj1 (Nat.eqb_eq _ _) E0). lia. }
  set (e := span_chunk_end spans a h) in *.
  eapply (delivers_cons _ _ pos a e); [lia|done|lia| |apply span_chunk_chars; lia|apply IH; lia].
  unfold within. cbn. lia.
Qed.

End chars.

(** * Trimming whole characters *)

Lemma space_cases x : is_space x = true → (x = 9 ∨ x = 10 ∨ x = 11 ∨ x = 12 ∨ x = 13 ∨ x = 32)%Z.
Proof. unfold is_space. lia. Qed.

Lemma continuation_not_space x : is_utf8_continuation x = true → is_space x = false.
Proof. intros Hx. apply not_true_is_false. intros Hs%space_cases. destruct_or!; by subst x. Qed.

Lemma utf8_char_space c : utf8_char c → is_ascii_space c = true ∨ Forall (λ x, is_space x = false) c.
Proof.
  intros (b & t & -> & Hw & Ht). destruct (is_space b) eqn:Hb.
  - left. assert (length (b :: t) = 1) as Hl by (apply space_cases in Hb; destruct_or!; subst b; cbn in Hw |- *; injection Hw; lia).
    destruct t; [|done]. done.
  - right. apply Forall_cons. split; [done|]. eapply Forall_impl; [done|]. apply continuation_not_space.
Qed.

Lemma utf8_char_solid c : utf8_char c → is_ascii_space c = false → Forall (λ x, is_space x = false) c.
Proof. intros Hc Hs. by destruct (utf8_char_space c Hc) as [H|H]; [rewrite Hs in H|]. Qed.

Lemma trim_left_chars cs :
  Forall utf8_char cs → ∃ sp cs', cs = sp ++ cs' ∧ trim_left (concat cs) = concat cs'.
Proof.
  induction 1 as [|c cs Hc _ (sp & cs' & -> & IH)]; [by exists [], []|].
  destruct (utf8_char_space c Hc) as [H|H].
  - destruct c as [|x [|? ?]]; try done. cbn in H. exists ([x] :: sp), cs'. split; [done|]. cbn. by rewrite H.
  - exists [], (c :: sp ++ cs'). split; [done|]. pose proof (utf8_char_pos _ Hc). destruct c as [|x c]; [cbn in *; lia|].
    apply Forall_cons in H as [H _]. cbn [concat app trim_left]. by rewrite H.
Qed.

Lemma trim_right_chars cs :
  Forall utf8_char cs → ∃ cs' sp, cs = cs' ++ sp ∧ trim_right (concat cs) = concat cs'.
Proof.
  unfold trim_right. induction cs as [|c cs IH] using rev_ind; [by exists [], []|].
  intros [Hcs [Hc _]%Forall_cons]%Forall_app. rewrite concat_app, rev_app_distr. cbn [concat]. rewrite app_nil_r.
  destruct (utf8_char_space c Hc) as [H|H].
  - destruct c as [|x [|? ?]]; try done. cbn in H. destruct (IH Hcs) as (cs' & sp & -> & IH').
    exists cs', (sp ++ [[x]]). split; [by rewrite app_assoc|]. cbn. by rewrite H.
  - exists (cs ++ [c]), []. split; [by rewrite app_nil_r|]. pose proof (utf8_char_pos _ Hc).
    destruct c as [|x c] using rev_ind; [cbn in *; lia|]. apply Forall_app in H as [_ [H _]%Forall_cons].
    rewrite rev_app_distr. cbn [rev app trim_left]. rewrite H, concat_app. cbn [concat].
    rewrite app_nil_r, app_comm_cons, rev_app_distr, rev_involutive. cbn [rev]. by rewrite rev_involutive.
Qed.

Lemma trim_chars cs :
  Forall utf8_char cs → ∃ sp cs' sp', cs = sp ++ cs' ++ sp' ∧ trim (concat cs) = concat cs'.
Proof.
  intros H. destruct (trim_left_chars cs H) as (sp & cs1 & -> & E). apply Forall_app in H as [_ H].
  destruct (trim_right_chars cs1 H) as (cs' & sp' & -> & E'). exists sp, cs', sp'. split; [done|].
  unfold trim. by rewrite E.
Qed.

Lemma utf8_char_ascii b : (b <= 0x7F)%Z → utf8_char [b].
Proof. intros H. exists b, []. split_and!; [done| |by apply Forall_nil_2]. unfold utf8_width. by rewrite (proj2 (Z.leb_le _ _)). Qed.

Lemma valid_utf8_app s t : valid_utf8 s → valid_utf8 t → valid_utf8 (s ++ t).
Proof. intros (cs & H & <-) (ds & H' & <-). exists (cs ++ ds). split; [by apply Forall_app_2|by rewrite concat_app]. Qed.

Lemma valid_utf8_spaces sp : Forall (λ c, is_space c = true) sp → valid_utf8 sp.
Proof.
  induction 1 as [|c sp Hc _ IH]; [by exists []|]. apply (valid_utf8_app [c]); [|done].
  exists [[c]]. split; [|done]. apply Forall_singleton, utf8_char_ascii. apply space_cases in Hc. lia.
Qed.

Lemma valid_utf8_trim text : valid_utf8 (trim text) ↔ valid_utf8 text.
Proof.
  split.
  - intros H. destruct (trim_split text) as (l & r & E & Hl & Hr). rewrite E.
    apply valid_utf8_app; [by apply valid_utf8_spaces|]. apply valid_utf8_app; [done|by apply valid_utf8_spaces].
  - intros (cs & Hcs & <-). destruct (trim_chars cs Hcs) as (sp & cs' & sp' & -> & E). exists cs'.
    split; [|done]. by apply Forall_app in Hcs as [_ [? _]%Forall_app].
Qed.

(** A single-byte character is never inside another one. *)
Lemma valid_utf8_at b p s :
  utf8_width b = Some 1 → is_utf8_continuation b = false → valid_utf8 (p ++ b :: s) ↔ valid_utf8 p ∧ valid_utf8 s.
Proof.
  intros Hw Hcont. assert (utf8_char [b]) as Hb by (exists b, []; split_and!; [done..|by apply Forall_nil_2]). split.
  - intros (cs & Hcs & E). revert p E. induction Hcs as [|c cs Hc Hcs IH]; intros p E; [by destruct p|].
    pose proof Hc as (b0 & t & -> & Hw0 & Ht). destruct p as [|x p]; cbn in E; injection E as -> E.
    + rewrite Hw in Hw0. destruct t; [|done]. split; [by exists []|]. by exists cs.
    + apply app_eq_inv in E as [(k & -> & E)|(k & -> & E)].
      * destruct k as [|y k].
        -- destruct (IH [] (eq_sym E)) as [_ ?]. split; [|done]. rewrite app_nil_r in Hc. exists [x :: p].
           split; [by apply Forall_singleton|]. cbn. by rewrite app_nil_r.
        -- injection E as -> _. apply Forall_app in Ht as [_ [Ht _]%Forall_cons]. congruence.
      * destruct (IH k E) as [? ?]. split; [|done]. apply (valid_utf8_app (x :: t)); [|done].
        exists [x :: t]. split; [by apply Forall_singleton|]. cbn. by rewrite app_nil_r.
  - intros [Hp Hs]. apply valid_utf8_app; [done|]. apply (valid_utf8_app [b]); [|done].
    exists [[b]]. split; [by apply Forall_singleton|done].
Qed.

(** * What each mode delivers *)

(** At most [budget] code points. *)
Definition counts (budget : Z) (chunk : bytes) : Prop :=
  ∃ n, utf8_codepoint_count chunk [] = Ok n ∧ (Z.of_nat n <= budget)%Z.

Definition one_word (chunk : bytes) : Prop := Forall (λ x, is_space x = false) chunk.

(** A bracketed tag that was not broken. *)
Definition one_tag (chunk : bytes) : Prop :=
  (head chunk = Some (ch "[") ∧ last chunk = Some (ch "]")) ∨ (head chunk = Some (ch "<") ∧ last chunk = Some (ch ">")).

Lemma positive_budget_ok budget u : positive_budget budget = Ok u → (0 < budget)%Z.
Proof. unfold positive_budget. destruct (Z.leb_spec budget 0); [done|lia]. Qed.

Lemma positive_budget_true budget : (0 < budget)%Z → positive_budget budget = Ok tt.
Proof. intros H. unfold positive_budget. by rewrite (proj2 (Z.leb_gt _ _)). Qed.

Lemma Forall_range {A} (P : A → Prop) (l : list A) a b : Forall P l → Forall P (take (b - a) (drop a l)).
Proof. intros H. by apply Forall_take, Forall_drop. Qed.

Section outcome.
Context (cs : list bytes).
Hypothesis chars : Forall utf8_char cs.

Lemma within_counts budget a b : within budget (a, b) → counts budget (trim (piece cs a b)).
Proof.
  intros Hw. destruct (trim_chars _ (Forall_range _ _ a b chars)) as (sp & cs' & sp' & E & Ht).
  exists (length cs'). unfold piece. rewrite Ht, codepoint_count_chars.
  - split; [done|]. unfold within in Hw. cbn in Hw. assert (length cs' <= b - a); [|lia].
    apply (f_equal length) in E. rewrite length_take, !length_app in E. lia.
  - pose proof (Forall_range _ _ a b chars) as HF. rewrite E in HF. by apply Forall_app in HF as [_ [? _]%Forall_app].
Qed.

Lemma solid_word a b : b <= length cs → solid_range cs a b → one_word (trim (piece cs a b)).
Proof.
  intros Hb Hs. assert (Forall (λ x, is_space x = false) (piece cs a b)) as H; [|unfold one_word; by rewrite trim_solid].
  unfold piece. apply Forall_concat, Forall_lookup_2. intros i c Hc. apply lookup_take_Some in Hc as [Hc Hi]. rewrite lookup_drop in Hc.
  apply utf8_char_solid; [by eapply Forall_lookup_1 in chars|]. rewrite <- (list_lookup_total_correct _ _ _ Hc). apply Hs. lia.
Qed.

Lemma tag_whole a b : a < b <= length cs → tag_range cs a b → one_tag (trim (piece cs a b)).
Proof.
  intros Hab [Ho Hc]. assert (one_tag (piece cs a b)) as H.
  - rewrite (piece_split cs a (b - 1) b) by lia. destruct (decide (a = b - 1)) as [->|].
    { unfold is_tag_close in Hc. exfalso. apply orb_prop in Hc as [[H1 H2]%andb_prop|[H1 H2]%andb_prop];
      apply bool_decide_eq_true in H1, H2; rewrite H1 in H2; done. }
    rewrite (piece_split cs a (S a) (b - 1)) by lia. unfold piece at 1 3.
    destruct (lookup_lt_is_Some_2 cs a) as [c Hc1]; [lia|]. destruct (lookup_lt_is_Some_2 cs (b - 1)) as [d Hd]; [lia|].
    rewrite (list_lookup_total_correct _ _ _ Hc1), (list_lookup_total_correct _ _ _ Hd) in *.
    rewrite (drop_S _ _ _ Hc1), (drop_S _ _ _ Hd). replace (S a - a) with 1 by lia. replace (b - (b - 1)) with 1 by lia.
    cbn [take concat]. rewrite !take_0. cbn [concat]. rewrite !app_nil_r. unfold one_tag.
    unfold is_tag_close in Hc. apply orb_prop in Hc as [[H1 H2]%andb_prop|[H1 H2]%andb_prop];
      apply bool_decide_eq_true in H1, H2; subst c d; [left|right]; rewrite !last_app; done.
  - rewrite trim_ends; [done| |]; intros x Hx; destruct H as [[H1 H2]|[H1 H2]]; rewrite ?H1, ?H2 in Hx; by injection Hx as <-.
Qed.

Lemma delivers_chunks (P : nat * nat → Prop) (Q : bytes → Prop) chunks :
  (∀ a b, a < b <= length cs → P (a, b) → Q (trim (piece cs a b))) →
  delivers cs P 0 (length cs) chunks → Forall (λ c, c ≠ [] ∧ Q c) chunks.
Proof.
  intros HPQ (rs & -> & Hc & HF). apply push_all_Forall.
  cut (∀ pos limit, covers (λ j, is_ascii_space (cs !!! j)) pos limit rs → limit <= length cs → Forall P rs → Forall Q (map (range_chunk cs) rs)).
  { intros H. eapply Forall_impl; [by eapply H|]. done. }
  clear Hc HF. induction 1 as [|pos a b limit rs Hp Hb Hab Hc IH]; intros Hl HF; [by apply Forall_nil_2|].
  apply Forall_cons in HF as [Hr HF]. pose proof (covers_le _ _ _ _ Hc). cbn [map]. apply Forall_cons. split; [|by apply IH].
  apply (HPQ a b); [lia|done].
Qed.

End outcome.

Lemma delivers_whole cs (P : nat * nat → Prop) text :
  trim (concat cs) = text → concat cs = text → P (0, length cs) → text ≠ [] → delivers cs P 0 (length cs) [text].
Proof.
  intros Ht Hcat HP Hne. assert (0 < length cs) by (destruct cs; [by subst text|cbn; lia]).
  exists [(0, length cs)]. split_and!; [|by apply (covers_next _ 0 0 (length cs)); [lia|intros ? ?; lia|lia|apply covers_end; [lia|intros ? ?; lia]]|by apply Forall_singleton].
  unfold range_chunks, range_chunk. cbn [map foldr fst snd]. rewrite piece_all, Ht. by destruct text.
Qed.


(** [m] is a cut of [text]: nothing but white space is lost, and every chunk is
    non-empty, trimmed and as [Q] says. *)
Definition cuts (Q : bytes → Prop) (text : bytes) (m : outcome (list bytes)) : Prop :=
  ∃ chunks, m = Ok chunks ∧ solid (concat chunks) = solid text ∧ Forall (λ c, c ≠ [] ∧ trimmed c ∧ Q c) chunks.

Lemma delivers_cuts cs P (Q : bytes → Prop) text chunks :
  (∀ a b, a < b <= length cs → P (a, b) → Q (trim (piece cs a b))) → solid (concat cs) = solid text →
  delivers cs P 0 (length cs) chunks → cuts Q text (Ok chunks).
Proof.
  intros HPQ Ht Hd. exists chunks. split_and!; [done| |].
  - by rewrite (delivers_solid _ _ _ Hd).
  - eapply (delivers_chunks cs P (λ c, trimmed c ∧ Q c)); [|done]. intros a b Hab HP. split; [apply trim_trimmed|by apply HPQ].
Qed.

Lemma cuts_weaken (Q Q' : bytes → Prop) text m : (∀ c, Q c → Q' c) → cuts Q text m → cuts Q' text m.
Proof. intros HQ (chunks & -> & Hs & HF). exists chunks. split_and!; [done..|]. eapply Forall_impl; [done|]. naive_solver. Qed.

Lemma cuts_empty Q text : trim text = [] → cuts Q text (Ok []).
Proof. intros H. exists []. split_and!; [done| |by apply Forall_nil_2]. by rewrite <- (solid_trim text), H. Qed.

Lemma fits_within budget cs : fits budget (length (spans_at 0 cs)) = true → within budget (0, length cs).
Proof. rewrite length_spans_at. intros H. unfold within. apply Z.leb_le in H. cbn. lia. Qed.

Lemma valid_trim_chars text : valid_utf8 text → ∃ cs, Forall utf8_char cs ∧ concat cs = trim text.
Proof. by intros H%valid_utf8_trim. Qed.

Lemma whole_cuts cs text (P : nat * nat → Prop) Q :
  (∀ a b, a < b <= length cs → P (a, b) → Q (trim (piece cs a b))) → concat cs = trim text → trim text ≠ [] →
  P (0, length cs) → cuts Q text (Ok [trim text]).
Proof.
  intros HPQ Hcat Hne HP. apply (delivers_cuts cs P); [done|by rewrite Hcat, solid_trim|].
  apply delivers_whole; [by rewrite Hcat, trim_idempotent|done..].
Qed.

Lemma default_cuts text budget :
  (0 < budget)%Z → valid_utf8 text →
  cuts (λ c, counts budget c ∨ one_word c) text (split_text_chunks_default text budget).
Proof.
  intros Hb Hv. unfold split_text_chunks_default. rewrite positive_budget_true by done. cbn [mbind outcome_bind].
  destruct (valid_trim_chars text Hv) as (cs & Hcs & Hcat). destruct (trim text) as [|x t] eqn:E; [by apply cuts_empty|].
  rewrite <- E in *. rewrite <- Hcat, split_utf8_chars by done. cbn [mbind outcome_bind].
  assert (∀ a b, a < b <= length cs → word_range_ok cs budget (a, b) →
    counts budget (trim (piece cs a b)) ∨ one_word (trim (piece cs a b))) as HQ.
  { intros a b Hab [H|H]; [left; by apply within_counts|right; by apply solid_word; [|lia|]]. }
  destruct (fits _ _) eqn:Ef.
  - rewrite Hcat. apply (whole_cuts cs _ (word_range_ok cs budget)); [done..|by rewrite E|]. left. by apply fits_within.
  - destruct (words_loop_spec cs (S (length (spans_at 0 cs))) 0) as [Hc Hg]; [rewrite length_spans_at; lia|lia|].
    change (words_loop _ _ 0) with (split_word_ranges (spans_at 0 cs)) in *.
    assert (∀ words : list WordRange, match words with [] => Ok [] | _ => Ok (word_chunks (concat cs) words budget (length words) 0) end =
      Ok (word_chunks (concat cs) words budget (length words) 0)) as -> by (by intros [|? ?]).
    apply (delivers_cuts cs (word_range_ok cs budget)); [done|by rewrite Hcat, solid_trim|]. apply word_chunks_deliver; [done|lia..|by rewrite drop_0].
Qed.

Lemma body_cuts text budget :
  valid_utf8 text → trim text = text → text ≠ [] →
  cuts (λ c, counts budget c ∨ one_word c ∨ one_tag c) text (split_tag_aware_body text budget).
Proof.
  intros (cs & Hcs & Hcat) Ht Hne. unfold split_tag_aware_body. rewrite <- Hcat, split_utf8_chars by done. cbn [mbind outcome_bind].
  assert (∀ a b, a < b <= length cs → unit_range_ok cs budget (a, b) →
    counts budget (trim (piece cs a b)) ∨ one_word (trim (piece cs a b)) ∨ one_tag (trim (piece cs a b))) as HQ.
  { intros a b Hab [H|[H|H]]; [left; by apply within_counts|right; left; by apply solid_word; [|lia|]|right; right; by apply tag_whole]. }
  destruct (fits _ _) eqn:Ef.
  - rewrite Hcat, <- Ht. rewrite <- Ht in Hcat, Hne. rewrite <- (trim_idempotent text) at 2.
    apply (whole_cuts cs _ (unit_range_ok cs budget)); [done|by rewrite trim_idempotent|by rewrite trim_idempotent|]. left. by apply fits_within.
  - destruct (units_loop_spec cs (S (length (spans_at 0 cs))) 0) as [Hc Hg]; [rewrite length_spans_at; lia|lia|].
    change (units_loop _ _ 0) with (split_tag_aware_units (spans_at 0 cs)) in *. set (units := split_tag_aware_units _) in *.
    pose proof (sentences_loop_tiles units (length units) 0 0 ltac:(lia) ltac:(lia)) as Hs.
    change (sentences_loop _ _ 0 0) with (unit_sentences units) in Hs.
    assert (match units with [] => Ok [] | _ => Ok (sentence_chunks (concat cs) units budget (unit_sentences units) (length (unit_sentences units)) 0) end =
      Ok (sentence_chunks (concat cs) units budget (unit_sentences units) (length (unit_sentences units)) 0)) as -> by (by destruct units).
    apply (delivers_cuts cs (unit_range_ok cs budget)); [done|by rewrite Hcat|]. apply (sentence_chunks_deliver cs units budget Hg _ _ 0 0 0); [lia..|by rewrite drop_0|by rewrite drop_0].
Qed.

Lemma japanese_cuts text budget :
  (0 < budget)%Z → valid_utf8 text → cuts (counts budget) text (split_text_chunks_japanese text budget).
Proof.
  intros Hb Hv. unfold split_text_chunks_japanese. rewrite positive_budget_true by done. cbn [mbind outcome_bind].
  destruct (valid_trim_chars text Hv) as (cs & Hcs & Hcat). destruct (trim text) as [|x t] eqn:E; [by apply cuts_empty|].
  rewrite <- E in *. rewrite <- Hcat, split_utf8_chars by done. cbn [mbind outcome_bind].
  assert (∀ a b, a < b <= length cs → within budget (a, b) → counts budget (trim (piece cs a b))) as HQ by (intros; by apply within_counts).
  destruct (fits _ _) eqn:Ef.
  - rewrite Hcat. apply (whole_cuts cs _ (within budget)); [done..|by rewrite E|]. by apply fits_within.
  - apply (delivers_cuts cs (within budget)); [done|by rewrite Hcat, solid_trim|]. apply span_chunks_deliver; [done|rewrite length_spans_at; lia|lia].
Qed.

(** * End-of-line mode *)

Lemma append_endline_ok chunk budget chunks :
  (0 < budget)%Z → valid_utf8 chunk → trim chunk = chunk → Forall (λ c, c ≠ [] ∧ trimmed c ∧ counts budget c) chunks →
  ∃ chunks', append_endline_chunk chunk budget chunks = Ok chunks' ∧
    solid (concat chunks') = solid (concat chunks) ++ solid chunk ∧
    Forall (λ c, c ≠ [] ∧ trimmed c ∧ counts budget c) chunks'.
Proof.
  intros Hb Hv Ht HF. unfold append_endline_chunk. destruct chunk as [|x t]; [exists chunks; split_and!; [done|by rewrite app_nil_r|done]|].
  set (chunk := x :: t) in *. pose proof Hv as (cs & Hcs & Hcat). rewrite <- Hcat, codepoint_count_chars, Hcat by done. cbn [mbind outcome_bind].
  destruct (fits budget (length cs)) eqn:Ef.
  - exists (chunks ++ [chunk]). split_and!; [done|rewrite concat_app, solid_app; cbn [concat]; by rewrite app_nil_r|].
    apply Forall_app_2; [done|]. apply Forall_singleton. split_and!; [done|rewrite <- Ht; apply trim_trimmed|].
    exists (length cs). rewrite <- Hcat, codepoint_count_chars by done. split; [done|]. by apply Z.leb_le.
  - destruct (japanese_cuts chunk budget Hb Hv) as (pieces & -> & Hs & HF'). exists (chunks ++ pieces). cbn [mbind outcome_bind].
    split_and!; [done|by rewrite concat_app, solid_app, Hs|by apply Forall_app_2].
Qed.

Lemma valid_utf8_piece cs a b : Forall utf8_char cs → valid_utf8 (piece cs a b).
Proof. intros H. exists (take (b - a) (drop a cs)). split; [by apply Forall_range|done]. Qed.

Lemma endline_loop_ok cs budget n i start chunks :
  (0 < budget)%Z → Forall utf8_char cs → n + i = length cs → start <= i →
  Forall (λ c, c ≠ [] ∧ trimmed c ∧ counts budget c) chunks → solid (concat chunks) = solid (piece cs 0 start) →
  ∃ start' chunks', endline_loop (concat cs) (spans_at 0 cs) budget n i start chunks = Ok (start', chunks') ∧
    start' <= length cs ∧ solid (concat chunks') = solid (piece cs 0 start') ∧
    Forall (λ c, c ≠ [] ∧ trimmed c ∧ counts budget c) chunks'.
Proof.
  intros Hb Hcs. revert i start chunks. induction n as [|n IH]; intros i start chunks Hn Hi HF Hs; cbn [endline_loop].
  { exists start, chunks. split_and!; [done|lia|done..]. }
  case_bool; [|apply IH; [lia..|done|done]]. rewrite span_chunk_chars by lia.
  destruct (append_endline_ok (trim (piece cs start (S i))) budget chunks Hb) as (chunks' & -> & Hs' & HF');
    [by apply valid_utf8_trim, valid_utf8_piece|apply trim_idempotent|done|]. cbn [mbind outcome_bind].
  apply IH; [lia..|done|]. by rewrite Hs', Hs, solid_trim, (piece_split cs 0 start (S i)), solid_app by lia.
Qed.

Lemma endline_cuts text budget :
  (0 < budget)%Z → valid_utf8 text → cuts (counts budget) text (split_text_chunks_endline text budget).
Proof.
  intros Hb Hv. unfold split_text_chunks_endline. rewrite positive_budget_true by done. cbn [mbind outcome_bind].
  destruct (valid_trim_chars text Hv) as (cs & Hcs & Hcat). destruct (trim text) as [|x t] eqn:E; [by apply cuts_empty|].
  rewrite <- E in *. rewrite <- Hcat, split_utf8_chars by done. cbn [mbind outcome_bind]. rewrite length_spans_at.
  destruct (endline_loop_ok cs budget (length cs) 0 0 []) as (start & chunks & -> & Hstart & Hs & HF); [done|done|lia|lia|by apply Forall_nil_2|done|].
  cbn [mbind outcome_bind]. destruct (Nat.ltb_spec start (length cs)) as [Hlt|].
  - rewrite span_chunk_chars by lia.
    destruct (append_endline_ok (trim (piece cs start (length cs))) budget chunks Hb) as (chunks' & -> & Hs' & HF');
      [by apply valid_utf8_trim, valid_utf8_piece|apply trim_idempotent|done|]. exists chunks'. split_and!; [done| |done].
    by rewrite Hs', Hs, solid_trim, <- solid_app, <- piece_split, piece_all, Hcat, solid_trim by lia.
  - exists chunks. split_and!; [done| |done]. assert (start = length cs) as -> by lia. by rewrite Hs, piece_all, Hcat, solid_trim.
Qed.

(** * Tag-aware mode *)

Lemma control_split text prefix body :
  split_leading_parenthetical_control text = Some (prefix, body) →
  trim prefix = prefix ∧ trim body = body ∧ body ≠ [] ∧ solid (prefix ++ body) = solid text ∧
  (valid_utf8 text ↔ valid_utf8 prefix ∧ valid_utf8 body).
Proof.
  unfold split_leading_parenthetical_control. case_bool; [|done].
  destruct (find_sub [ch ")"] text) as [close|] eqn:Ef; [|done]. case_bool; [done|].
  destruct (trim (take (close + 1) text)) as [|x p] eqn:Ep; [done|].
  destruct (trim (drop (close + 1) text)) as [|y q] eqn:Eq; [done|]. intros [= <- <-]. rewrite <- Ep, <- Eq.
  pose proof (find_sub_split _ _ _ Ef) as Es. cbn [length] in Es.
  assert (take (close + 1) text = take close text ++ [ch ")"]) as Et.
  { rewrite Es at 1. rewrite app_assoc. apply take_app_length'. rewrite length_app, length_take.
    apply find_sub_le in Ef. cbn in *. lia. }
  split_and!; [apply trim_idempotent..|by rewrite Eq|by rewrite solid_app, !solid_trim, <- solid_app, take_drop|].
  rewrite !valid_utf8_trim, Et. change (valid_utf8 text ↔ valid_utf8 (take close text ++ ch ")" :: []) ∧ valid_utf8 (drop (close + 1) text)).
  rewrite Es at 1. cbn [app]. rewrite !valid_utf8_at by done. pose proof (ex_intro (λ cs, Forall utf8_char cs ∧ concat cs = []) [] (conj (Forall_nil_2 _) eq_refl)) as Hn.
  unfold valid_utf8 at 4. naive_solver.
Qed.

(** * All modes *)

(** The bound on a chunk. A word, or in tag-aware mode a tag, longer than the
    budget stays whole. *)
Definition chunk_bounded (mode : TextChunkMode) (budget : Z) (chunk : bytes) : Prop :=
  counts budget chunk ∨
  match mode with
  | Default => one_word chunk
  | TagAware => one_word chunk ∨ one_tag chunk
  | Japanese | Endline => False
  end.

(** The leading [(...)] that tag-aware mode repeats in front of every chunk. *)
Definition leading_control (mode : TextChunkMode) (text : bytes) : option (bytes * bytes) :=
  match mode with TagAware => split_leading_parenthetical_control (trim text) | _ => None end.

Lemma tag_aware_body text budget prefix body :
  (0 < budget)%Z → valid_utf8 text → leading_control TagAware text = Some (prefix, body) →
  ∃ n bodies, utf8_codepoint_count prefix [] = Ok n ∧
    split_text_chunks_tag_aware text budget = Ok (map (λ c, prefix ++ str " " ++ c) bodies) ∧
    solid (prefix ++ body) = solid text ∧
    cuts (chunk_bounded TagAware (Z.max 1 (budget - Z.of_nat n - 1))) body (Ok bodies).
Proof.
  cbn [leading_control]. intros Hb Hv Hc. destruct (control_split _ _ _ Hc) as (Hp & Hbody & Hne & Hs & Hval).
  destruct (proj1 Hval) as [(ps & Hps & Hcat) Hvb]; [by apply valid_utf8_trim|].
  set (b := Z.max 1 (budget - Z.of_nat (length ps) - 1)). destruct (body_cuts body b Hvb Hbody Hne) as (bodies & E & Hsb & HF).
  exists (length ps), bodies. split_and!.
  - by rewrite <- Hcat, codepoint_count_chars.
  - unfold split_text_chunks_tag_aware. rewrite positive_budget_true by done. cbn [mbind outcome_bind].
    destruct (trim text) as [|x t] eqn:Et; [done|]. rewrite Hc. rewrite <- Hcat at 1. rewrite codepoint_count_chars by done.
    cbn [mbind outcome_bind]. fold b. by rewrite E.
  - by rewrite Hs, solid_trim.
  - by exists bodies.
Qed.

Lemma plain_cuts text budget mode :
  (0 < budget)%Z → valid_utf8 text → leading_control mode text = None →
  cuts (chunk_bounded mode budget) text (split_text_chunks text budget mode).
Proof.
  intros Hb Hv Hc. destruct mode; cbn [split_text_chunks leading_control] in *.
  - by apply default_cuts.
  - unfold split_text_chunks_tag_aware. rewrite positive_budget_true by done. cbn [mbind outcome_bind].
    destruct (trim text) as [|x t] eqn:E; [by apply cuts_empty|]. rewrite Hc, <- E.
    destruct (body_cuts (trim text) budget) as (chunks & -> & Hs & HF); [by apply valid_utf8_trim|apply trim_idempotent|by rewrite E|].
    exists chunks. split_and!; [done|by rewrite Hs, solid_trim|done].
  - eapply cuts_weaken; [|by apply japanese_cuts]. by left.
  - eapply cuts_weaken; [|by apply endline_cuts]. by left.
Qed.

Lemma split_ok_valid text budget mode chunks :
  split_text_chunks text budget mode = Ok chunks → (0 < budget)%Z ∧ valid_utf8 text.
Proof.
  assert (∀ text', valid_utf8 text' → text' = trim text → valid_utf8 text) as Ht by (intros ? ? ->; by apply valid_utf8_trim).
  assert (∀ u, positive_budget budget = Ok u → 0 < budget)%Z as Hb by (intros u; apply positive_budget_ok).
  assert (∀ label spans, split_utf8_spans (trim text) label = Ok spans → valid_utf8 text) as Hs.
  { intros label spans (cs & Hcs & Hcat & _)%split_utf8_valid. eapply Ht; [|done]. by exists cs. }
  assert (trim text = [] → valid_utf8 text) as Hnil by (intros H; apply (Ht (trim text)); [rewrite H; by exists []|done]).
  destruct mode; cbn [split_text_chunks];
    unfold split_text_chunks_default, split_text_chunks_tag_aware, split_text_chunks_japanese, split_text_chunks_endline;
    intros (u & Hu & H)%outcome_bind_ok; (split; [by eapply Hb|]);
    (destruct (trim text) as [|x t] eqn:E; [by apply Hnil|]); rewrite <- ?E in *.
  all: try (apply outcome_bind_ok in H as (spans & H & _); by eapply Hs).
  destruct (split_leading_parenthetical_control (trim text)) as [[prefix body]|] eqn:Ec.
  - apply outcome_bind_ok in H as (n & Hn & H). apply outcome_bind_ok in H as (bodies & H & _).
    apply outcome_bind_ok in H as (spans & H & _). apply split_utf8_valid in H as (cs & Hcs & Hcat & _).
    apply codepoint_count_valid in Hn as (ps & Hps & Hpcat & _). apply control_split in Ec as (_ & _ & _ & _ & Hval).
    apply (Ht (trim text)); [|done]. apply Hval. split; [by exists ps|by exists cs].
  - apply outcome_bind_ok in H as (spans & H & _). by eapply Hs.
Qed.

(** Splitting a text succeeds exactly when the budget is positive and the text
    is valid UTF-8, in every mode. *)
Theorem split_text_chunks_succeeds text budget mode :
  is_ok (split_text_chunks text budget mode) = true ↔ (0 < budget)%Z ∧ valid_utf8 text.
Proof.
  split.
  - destruct (split_text_chunks text budget mode) as [chunks|] eqn:E; [intros _; by eapply split_ok_valid|done].
  - intros [Hb Hv]. destruct (leading_control mode text) as [[prefix body]|] eqn:Ec.
    + destruct mode; try done. destruct (tag_aware_body text budget prefix body Hb Hv Ec) as (n & bodies & _ & E & _).
      cbn [split_text_chunks]. by rewrite E.
    + by destruct (plain_cuts text budget mode Hb Hv Ec) as (chunks & -> & _).
Qed.

(** Splitting loses and reorders nothing but white space: the chunks one after
    the other are the text. In tag-aware mode a leading [(...)] is taken off and
    put in front of every chunk of the rest. *)
Theorem chunks_keep_text text budget mode chunks :
  split_text_chunks text budget mode = Ok chunks →
  match leading_control mode text with
  | None => solid (concat chunks) = solid text
  | Some (prefix, body) => ∃ bodies,
      chunks = map (λ c, prefix ++ str " " ++ c) bodies ∧ solid (prefix ++ concat bodies) = solid text
  end.
Proof.
  intros E. destruct (split_ok_valid _ _ _ _ E) as [Hb Hv]. destruct (leading_control mode text) as [[prefix body]|] eqn:Ec.
  - destruct mode; try done. destruct (tag_aware_body text budget prefix body Hb Hv Ec) as (n & bodies & _ & E' & Hs & Hcuts).
    cbn [split_text_chunks] in E. rewrite E' in E. injection E as <-. exists bodies. split; [done|].
    destruct Hcuts as (? & [= <-] & Hsb & _). by rewrite <- Hs, !solid_app, Hsb.
  - destruct (plain_cuts text budget mode Hb Hv Ec) as (chunks' & E' & Hs & _). rewrite E' in E. by injection E as <-.
Qed.

(** Every chunk is non-empty, trimmed, and holds at most the budget of code
    points; only a single word, or in tag-aware mode a single bracketed tag,
    may be longer, as it is never broken. Behind a repeated [(...)] of [n] code
    points the rest of a chunk has [budget - n - 1] of them, at least one. *)
Theorem chunks_within_budget text budget mode chunks :
  split_text_chunks text budget mode = Ok chunks →
  match leading_control mode text with
  | None => Forall (λ c, c ≠ [] ∧ trimmed c ∧ chunk_bounded mode budget c) chunks
  | Some (prefix, body) => ∃ n bodies,
      utf8_codepoint_count prefix [] = Ok n ∧ chunks = map (λ c, prefix ++ str " " ++ c) bodies ∧
      Forall (λ c, c ≠ [] ∧ trimmed c ∧ chunk_bounded mode (Z.max 1 (budget - Z.of_nat n - 1)) c) bodies
  end.
Proof.
  intros E. destruct (split_ok_valid _ _ _ _ E) as [Hb Hv]. destruct (leading_control mode text) as [[prefix body]|] eqn:Ec.
  - destruct mode; try done. destruct (tag_aware_body text budget prefix body Hb Hv Ec) as (n & bodies & Hn & E' & _ & Hcuts).
    cbn [split_text_chunks] in E. rewrite E' in E. injection E as <-. exists n, bodies.
    by destruct Hcuts as (? & [= <-] & _ & HF).
  - destruct (plain_cuts text budget mode Hb Hv Ec) as (chunks' & E' & _ & HF). rewrite E' in E. by injection E as <-.
Qed.

(** A sentence that fits the budget exactly is cut at a comma inside it: the
    search for a clause break runs whenever the cut is still the hard end, also
    when the search for a sentence break has just chosen that end. *)
Theorem fitting_sentence_cut :
  split_text_chunks (str "So I, say. Then") 10 Default = Ok [str "So I,"; str "say. Then"] ∧
  utf8_codepoint_count (str "So I, say.") [] = Ok 10.
Proof. by vm_compute. Qed.

Lemma chunks_keep_text_witness :
  let text := str "(calm) One two. Three four." in
  split_text_chunks text 17 TagAware = Ok [str "(calm) One two."; str "(calm) Three"; str "(calm) four."] ∧
  match leading_control TagAware text with
  | None => solid (concat [str "(calm) One two."; str "(calm) Three"; str "(calm) four."]) = solid text
  | Some (prefix, body) => ∃ bodies,
      [str "(calm) One two."; str "(calm) Three"; str "(calm) four."] = map (λ c, prefix ++ str " " ++ c) bodies ∧
      solid (prefix ++ concat bodies) = solid text
  end.
Proof.
  assert (split_text_chunks (str "(calm) One two. Three four.") 17 TagAware =
    Ok [str "(calm) One two."; str "(calm) Three"; str "(calm) four."]) as E by by vm_compute.
  split; [exact E|]. exact (chunks_keep_text _ _ _ _ E).
Defined.

Lemma chunks_within_budget_witness :
  split_text_chunks (str "One two, three four. Five") 12 Default = Ok [str "One two,"; str "three four."; str "Five"] ∧
  match leading_control Default (str "One two, three four. Five") with
  | None => Forall (λ c, c ≠ [] ∧ trimmed c ∧ chunk_bounded Default 12 c) [str "One two,"; str "three four."; str "Five"]
  | Some (prefix, body) => ∃ n bodies,
      utf8_codepoint_count prefix [] = Ok n ∧
      [str "One two,"; str "three four."; str "Five"] = map (λ c, prefix ++ str " " ++ c) bodies ∧
      Forall (λ c, c ≠ [] ∧ trimmed c ∧ chunk_bounded Default (Z.max 1 (12 - Z.of_nat n - 1)) c) bodies
  end.
Proof.
  assert (split_text_chunks (str "One two, three four. Five") 12 Default =
    Ok [str "One two,"; str "three four."; str "Five"]) as E by by vm_compute.
  split; [exact E|]. exact (chunks_within_budget _ _ _ _ E).
Defined.
