(* ===== verification/Options.v ===== *)
(** Options of requests and sessions (framework/runtime/options.cpp): which of
    several keys counts, and the values as booleans, integers of a width, numbers,
    sizes and storage types; shown to read back exactly what is in range. *)

From stdpp Require Import gmap.
From S2P Require Import Prelude TextChunking.

#[local] Open Scope Z_scope.

(** [std::stoll], [std::stoul] and [std::stoull] with the place where they stop: white
    space, a sign, digits, and what is left. [None] where there are no digits. *)
Definition scan_integer (s : bytes) : option (bool * Z * bytes) :=
  let s := trim_left s in
  let '(negative, s) := match s with
                        | c :: s' => if c =b 45 then (true, s') else if c =b 43 then (false, s') else (false, s)
                        | [] => (false, s)
                        end in
  match leading_digits s with
  | [] => None
  | ds => Some (negative, be_value 10 (map (λ c, c - 48) ds), drop (length ds) s)
  end.

Definition stoll_scan (s : bytes) : outcome (Z * bytes) :=
  match scan_integer s with
  | None => Throw (str "stoll")
  | Some (negative, magnitude, rest) =>
      let v := if negative then - magnitude else magnitude in
      if (- 2 ^ 63 <=? v) && (v <? 2 ^ 63) then Ok (v, rest) else Throw (str "stoll")
  end.

(** A negated value wraps around; the magnitude must fit. *)
Definition stoull_scan (name : bytes) (s : bytes) : outcome (Z * bytes) :=
  match scan_integer s with
  | None => Throw name
  | Some (negative, magnitude, rest) =>
      if magnitude <? 2 ^ 64 then Ok (if negative then uwrap 64 (- magnitude) else magnitude, rest) else Throw name
  end.

Definition nonempty (s : bytes) : bool := match s with [] => false | _ => true end.

Definition parse_int_value (value key : bytes) : outcome Z :=
  scanned ← stoll_scan value;
  if nonempty scanned.2 then Throw (key ++ str " must be an integer")
  else if (scanned.1 <? - 2 ^ 31) || (2 ^ 31 - 1 <? scanned.1) then Throw (key ++ str " is outside int range")
  else Ok scanned.1.

Definition starts_with_minus (value : bytes) : bool := match value with c :: _ => c =b 45 | [] => false end.

Definition parse_u32_value (value key : bytes) : outcome Z :=
  if starts_with_minus value then Throw (key ++ str " must be an unsigned integer")
  else
    scanned ← stoull_scan (str "stoul") value;
    if nonempty scanned.2 then Throw (key ++ str " must be an unsigned integer")
    else if 2 ^ 32 - 1 <? scanned.1 then Throw (key ++ str " is outside uint32 range")
    else Ok scanned.1.

Definition parse_u64_value (value key : bytes) : outcome Z :=
  if starts_with_minus value then Throw (key ++ str " must be an unsigned integer")
  else
    scanned ← stoull_scan (str "stoull") value;
    if nonempty scanned.2 then Throw (key ++ str " must be an unsigned integer")
    else if 2 ^ 64 - 1 <? scanned.1 then Throw (key ++ str " is outside uint64 range")
    else Ok scanned.1.

Definition parse_i64_value (value key : bytes) : outcome Z :=
  scanned ← stoll_scan value;
  if nonempty scanned.2 then Throw (key ++ str " must be an integer") else Ok scanned.1.

Definition checked_mib_to_bytes (mb : Z) (key : bytes) : outcome Z :=
  let kMiB := 1024 * 1024 in
  if (2 ^ 64 - 1) / kMiB <? mb then Throw (key ++ str " is too large") else Ok (uwrap 64 (uwrap 64 mb * kMiB)).

(** * Storage types *)

Inductive TensorStorageType := Native | F32 | F16 | BF16 | I8 | Q4_0 | Q4_1 | Q5_0 | Q5_1 | Q2_K | Q3_K | Q4_K | Q5_K | Q6_K | Q8_0.

#[export] Instance storage_eq_dec : EqDecision TensorStorageType.
Proof. solve_decision. Defined.

Definition tensor_storage_type_name (storage_type : TensorStorageType) : bytes :=
  match storage_type with
  | Native => str "native" | F32 => str "f32" | F16 => str "f16" | BF16 => str "bf16" | I8 => str "i8"
  | Q4_0 => str "q4_0" | Q4_1 => str "q4_1" | Q5_0 => str "q5_0" | Q5_1 => str "q5_1"
  | Q2_K => str "q2_k" | Q3_K => str "q3_k" | Q4_K => str "q4_k" | Q5_K => str "q5_k" | Q6_K => str "q6_k" | Q8_0 => str "q8_0"
  end.

(** [assets::parse_tensor_storage_type]. *)
Definition parse_tensor_storage_type (value : bytes) : outcome TensorStorageType :=
  let normalized := map to_lower value in
  let called names := one_of (map str names) normalized in
  if called ["native"; "source"; "auto"; "orig"; "original"]%string then Ok Native
  else if called ["f32"; "float32"]%string then Ok F32
  else if called ["f16"; "float16"; "fp16"]%string then Ok F16
  else if called ["bf16"; "bfloat16"]%string then Ok BF16
  else if called ["q4_0"]%string then Ok Q4_0
  else if called ["q4_1"]%string then Ok Q4_1
  else if called ["q5_0"]%string then Ok Q5_0
  else if called ["q5_1"]%string then Ok Q5_1
  else if called ["q2_k"]%string then Ok Q2_K
  else if called ["q3_k"]%string then Ok Q3_K
  else if called ["q4_k"]%string then Ok Q4_K
  else if called ["q5_k"]%string then Ok Q5_K
  else if called ["q6_k"]%string then Ok Q6_K
  else if called ["q8_0"]%string then Ok Q8_0
  else Throw (str "unsupported tensor storage type: " ++ value).

Fixpoint join_from (index size : nat) (values : list TensorStorageType) : bytes :=
  match values with
  | [] => []
  | value :: values =>
      (if (index =? 0)%nat then [] else if (index + 1 =? size)%nat then str ", and " else str ", ") ++
      tensor_storage_type_name value ++ join_from (index + 1) size values
  end.

Definition join_tensor_storage_types (values : list TensorStorageType) : bytes := join_from 0 (length values) values.

(** * Options *)

Definition find_option (options : gmap bytes bytes) (keys : list bytes) : outcome (option bytes) :=
  found ← find_option_match options keys; Ok (option_map snd found).

Definition parse_bool_option (value key : bytes) : outcome bool :=
  if one_of [str "true"; str "1"; str "yes"; str "on"] value then Ok true
  else if one_of [str "false"; str "0"; str "no"; str "off"] value then Ok false
  else Throw (key ++ str " must be true/false, yes/no, on/off, or 1/0").

(** The value of the first key that has one, read by [parse]. *)
Definition parse_option {A} (parse : bytes → bytes → outcome A) (options : gmap bytes bytes) (keys : list bytes) : outcome (option A) :=
  found ← find_option_match options keys;
  match found with
  | Some (key, value) => v ← parse value key; Ok (Some v)
  | None => Ok None
  end.

Definition parse_int_option := parse_option parse_int_value.
Definition parse_u32_option := parse_option parse_u32_value.
Definition parse_u64_option := parse_option parse_u64_value.
Definition parse_i64_option := parse_option parse_i64_value.

Definition positive_i64 (value key : bytes) : outcome Z :=
  v ← parse_i64_value value key;
  if v <=? 0 then Throw (key ++ str " must be positive") else Ok v.

Definition parse_positive_i64_option (options : gmap bytes bytes) (keys : list bytes) (fallback : Z) : outcome Z :=
  found ← parse_option positive_i64 options keys; Ok (default fallback found).

Definition parse_size_mb_option (options : gmap bytes bytes) (keys : list bytes) (fallback_bytes : Z) : outcome Z :=
  found ← parse_option (λ value key, mb ← positive_i64 value key; checked_mib_to_bytes mb key) options keys;
  Ok (default fallback_bytes found).

Definition parse_tensor_storage_option (options : gmap bytes bytes) (key : bytes) (fallback : TensorStorageType) (allowed : list TensorStorageType) :
    outcome TensorStorageType :=
  match allowed with
  | [] => Throw (str "tensor storage option allowlist must not be empty")
  | _ =>
      found ← find_option_match options [key];
      match found with
      | None => Ok fallback
      | Some (key, value) =>
          storage_type ← parse_tensor_storage_type value;
          if bool_decide (storage_type ∈ allowed) then Ok storage_type
          else Throw (key ++ str " supports only " ++ join_tensor_storage_types allowed)
      end
  end.

(** The overload with a second key. *)
Definition parse_tensor_storage_option_or (options : gmap bytes bytes) (key fallback_key : bytes) (fallback : TensorStorageType)
    (allowed : list TensorStorageType) : outcome TensorStorageType :=
  found ← find_option_match options [key];
  match found with
  | Some _ => parse_tensor_storage_option options key fallback allowed
  | None => parse_tensor_storage_option options fallback_key fallback allowed
  end.

Section floats.
(** [float] and [std::stof] with the place where it stops. *)
Context {Float : Type} (stof : bytes → outcome (Float * bytes)) (isfinite : Float → bool) (fle : Float → Float → bool) (fzero : Float).

Definition parse_float_value (value key : bytes) : outcome Float :=
  scanned ← stof value;
  if nonempty scanned.2 then Throw (key ++ str " must be a float") else Ok scanned.1.

Definition parse_float_option := parse_option parse_float_value.

Definition finite_float (value key : bytes) : outcome Float :=
  v ← parse_float_value value key;
  if isfinite v then Ok v else Throw (key ++ str " must be a finite float").

Definition parse_finite_float_option := parse_option finite_float.

Definition parse_positive_finite_float_option :=
  parse_option (λ value key, v ← finite_float value key; if fle v fzero then Throw (key ++ str " must be positive") else Ok v).
End floats.

(** * What is read *)

Lemma leading_digits_all ds : Forall (λ d, 0 <= d < 10) ds → leading_digits (map (λ d, 48 + d) ds) = map (λ d, 48 + d) ds.
Proof.
  induction 1 as [|d ds Hd _ IH]; [done|]. cbn [map leading_digits].
  assert (is_digit (48 + d) = true) as -> by (unfold is_digit; apply andb_true_iff; rewrite !Z.leb_le; lia). by rewrite IH.
Qed.

Lemma scan_digits ds :
  ds ≠ [] → Forall (λ d, 0 <= d < 10) ds → ∀ negative,
  match leading_digits (map (λ d, 48 + d) ds) with
  | [] => None
  | l => Some (negative, be_value 10 (map (λ c, c - 48) l), drop (length l) (map (λ d, 48 + d) ds))
  end = Some (negative : bool, be_value 10 ds, []).
Proof.
  intros Hne Hds negative. rewrite leading_digits_all by done.
  assert (map (λ c, c - 48) (map (λ d, 48 + d) ds) = ds) as Hback by (rewrite map_map; rewrite <- (map_id ds) at 2; apply map_ext; lia).
  assert (map (λ d, 48 + d) ds ≠ []) as Hl by (by destruct ds).
  revert Hback Hl. generalize (map (λ d, 48 + d) ds). intros [|c l] Hback Hl; [done|].
  cbv zeta. by rewrite Hback, drop_all.
Qed.

Lemma is_space_small c : 45 <= c → is_space c = false.
Proof. intros H. unfold is_space. repeat rewrite ?orb_false_iff, ?andb_false_iff, ?Z.eqb_neq, ?Z.leb_gt; lia. Qed.

Lemma scan_to_string v : scan_integer (to_string v) = Some (v <? 0, Z.abs v, []).
Proof.
  assert (∀ n, 0 <= n → ∃ ds, to_dec_loop (S (Z.to_nat (Z.log2 n))) n [] = map (λ d, 48 + d) ds ∧ ds ≠ [] ∧ Forall (λ d, 0 <= d < 10) ds ∧ be_value 10 ds = n) as Hdec.
  { intros n Hn. pose proof (to_string_spec n Hn) as H. unfold to_string in H. by rewrite (proj2 (Z.ltb_ge _ _)) in H by done. }
  unfold to_string. destruct (Z.ltb_spec v 0) as [Hneg|Hpos].
  - destruct (Hdec (- v) ltac:(lia)) as (ds & -> & Hne & Hds & Hv). unfold scan_integer. cbn [trim_left].
    rewrite is_space_small by lia. cbn [Z.eqb Pos.eqb]. rewrite scan_digits by done. do 3 f_equal. lia.
  - destruct (Hdec v Hpos) as (ds & -> & Hne & Hds & Hv). unfold scan_integer.
    pose proof (scan_digits ds Hne Hds false) as Hs. destruct ds as [|d ds]; [done|]. apply Forall_cons in Hds as [Hd Hds]. cbn [map] in *.
    cbn [trim_left]. rewrite is_space_small by lia. rewrite (proj2 (Z.eqb_neq (48 + d) 45)), (proj2 (Z.eqb_neq (48 + d) 43)) by lia.
    rewrite Hs. do 3 f_equal. lia.
Qed.

Lemma to_string_minus v : starts_with_minus (to_string v) = (v <? 0).
Proof.
  unfold to_string. destruct (Z.ltb_spec v 0) as [Hneg|Hpos]; [done|].
  pose proof (to_string_spec v Hpos) as (ds & E & Hne & Hds & _). unfold to_string in E. rewrite (proj2 (Z.ltb_ge _ _)) in E by done. rewrite E.
  destruct ds as [|d ds]; [done|]. apply Forall_cons in Hds as [Hd _]. cbn. apply Z.eqb_neq. lia.
Qed.

Lemma uwrap_small v : 0 <= v < 2 ^ 64 → uwrap 64 v = v.
Proof. intros H. by apply Z.mod_small. Qed.

(** Integers are read exactly: a value written in decimal is read as that value when
    it is in the range of the option's type, and refused when it is not; a size in
    mebibytes becomes bytes without wrapping around. *)
Theorem integers_exact v key :
  (if (- 2 ^ 31 <=? v) && (v <? 2 ^ 31) then parse_int_value (to_string v) key = Ok v else is_ok (parse_int_value (to_string v) key) = false) ∧
  (if (- 2 ^ 63 <=? v) && (v <? 2 ^ 63) then parse_i64_value (to_string v) key = Ok v else is_ok (parse_i64_value (to_string v) key) = false) ∧
  (if (0 <=? v) && (v <? 2 ^ 32) then parse_u32_value (to_string v) key = Ok v else is_ok (parse_u32_value (to_string v) key) = false) ∧
  (if (0 <=? v) && (v <? 2 ^ 64) then parse_u64_value (to_string v) key = Ok v else is_ok (parse_u64_value (to_string v) key) = false) ∧
  (∀ options keys fallback, find_option_match options keys = Ok (Some (key, to_string v)) →
     if (0 <? v) && (v <? 2 ^ 44) then parse_size_mb_option options keys fallback = Ok (v * 2 ^ 20)
     else is_ok (parse_size_mb_option options keys fallback) = false).
Proof.
  assert (stoll_scan (to_string v) = if (- 2 ^ 63 <=? v) && (v <? 2 ^ 63) then Ok (v, []) else Throw (str "stoll")) as Hll.
  { unfold stoll_scan. rewrite scan_to_string. destruct (Z.ltb_spec v 0); [|by rewrite Z.abs_eq]. by rewrite Z.abs_neq, Z.opp_involutive by lia. }
  assert (parse_i64_value (to_string v) key = if (- 2 ^ 63 <=? v) && (v <? 2 ^ 63) then Ok v else Throw (str "stoll")) as Hi64.
  { unfold parse_i64_value. rewrite Hll. by destruct (_ && _). }
  assert (∀ name, 0 <= v → stoull_scan name (to_string v) = if v <? 2 ^ 64 then Ok (v, []) else Throw name) as Hull.
  { intros name Hv. unfold stoull_scan. rewrite scan_to_string, (proj2 (Z.ltb_ge v 0)), Z.abs_eq by done. done. }
  split_and!.
  - unfold parse_int_value. rewrite Hll. destruct (Z.leb_spec (- 2 ^ 31) v), (Z.ltb_spec v (2 ^ 31)), (Z.leb_spec (- 2 ^ 63) v), (Z.ltb_spec v (2 ^ 63));
      cbn [andb mbind outcome_bind fst snd nonempty]; try done; try lia;
      destruct (Z.ltb_spec v (- 2 ^ 31)), (Z.ltb_spec (2 ^ 31 - 1) v); try done; lia.
  - rewrite Hi64. by destruct (_ && _).
  - unfold parse_u32_value. rewrite to_string_minus. destruct (Z.ltb_spec v 0); [by rewrite (proj2 (Z.leb_gt 0 v)) by lia|].
    rewrite (proj2 (Z.leb_le 0 v)), Hull by done. cbn [andb].
    destruct (Z.ltb_spec v (2 ^ 32)), (Z.ltb_spec v (2 ^ 64)); try lia; cbn [mbind outcome_bind fst snd nonempty]; try done;
      destruct (Z.ltb_spec (2 ^ 32 - 1) v); try done; lia.
  - unfold parse_u64_value. rewrite to_string_minus. destruct (Z.ltb_spec v 0); [by rewrite (proj2 (Z.leb_gt 0 v)) by lia|].
    rewrite (proj2 (Z.leb_le 0 v)), Hull by done. cbn [andb].
    destruct (Z.ltb_spec v (2 ^ 64)); cbn [mbind outcome_bind fst snd nonempty]; [|done]. by rewrite (proj2 (Z.ltb_ge _ _)) by lia.
  - intros options keys fallback Hf. unfold parse_size_mb_option, parse_option, positive_i64. rewrite Hf. cbn [mbind outcome_bind]. rewrite Hi64.
    destruct (Z.leb_spec (- 2 ^ 63) v), (Z.ltb_spec v (2 ^ 63)), (Z.ltb_spec 0 v), (Z.ltb_spec v (2 ^ 44));
      cbn [andb mbind outcome_bind]; try done; try lia;
      (destruct (Z.leb_spec v 0); cbn [mbind outcome_bind]; [try done; try lia|]); unfold checked_mib_to_bytes;
      destruct (Z.ltb_spec ((2 ^ 64 - 1) / (1024 * 1024)) v) as [Hbig|Hsmall]; cbn [mbind outcome_bind]; try done;
      change ((2 ^ 64 - 1) / (1024 * 1024)) with (2 ^ 44 - 1) in *; try lia.
    rewrite (uwrap_small v), uwrap_small by lia. reflexivity.
Qed.

(** A minus sign behind white space is not seen, and the value wraps around. *)
Example minus_behind_space : parse_u64_value (str " -1") (str "seed") = Ok (2 ^ 64 - 1).
Proof. by vm_compute. Qed.

Example storage_list : join_tensor_storage_types [Native; F32; F16] = str "native, f32, and f16".
Proof. done. Qed.

(** A storage type is known by its name: every type but the eight-bit integers is
    read back from the name that messages give it. *)
Theorem storage_names_read storage_type :
  parse_tensor_storage_type (tensor_storage_type_name storage_type) =
  if bool_decide (storage_type = I8) then Throw (str "unsupported tensor storage type: i8") else Ok storage_type.
Proof. by destruct storage_type; vm_compute. Qed.
