(* ===== verification/Json.v ===== *)
(** JSON values (framework/io/json.cpp, json.h): reading a value out of the tree
    of the cJSON library, the accessors, and the comments and trailing commas of
    configuration files. *)

From S2P Require Import Prelude.

(** * Values *)

Section value.
(** [double]. *)
Context {Double : Type}.

(** An [unordered_map] of fields as an association list without repeated keys:
    only look-ups are modelled. *)
Inductive Value : Type :=
| Null
| Bool (b : bool)
| Number (x : Double)
| String (s : bytes)
| Array (items : list Value)
| Object (fields : list (bytes * Value)).

Definition is_null (v : Value) : bool := match v with Null => true | _ => false end.
Definition is_bool (v : Value) : bool := match v with Bool _ => true | _ => false end.
Definition is_number (v : Value) : bool := match v with Number _ => true | _ => false end.
Definition is_string (v : Value) : bool := match v with String _ => true | _ => false end.
Definition is_array (v : Value) : bool := match v with Array _ => true | _ => false end.
Definition is_object (v : Value) : bool := match v with Object _ => true | _ => false end.

Definition as_bool (v : Value) : outcome bool :=
  match v with Bool b => Ok b | _ => Throw (str "json value is not a bool") end.
Definition as_number (v : Value) : outcome Double :=
  match v with Number x => Ok x | _ => Throw (str "json value is not a number") end.
Definition as_string (v : Value) : outcome bytes :=
  match v with String s => Ok s | _ => Throw (str "json value is not a string") end.
Definition as_array (v : Value) : outcome (list Value) :=
  match v with Array items => Ok items | _ => Throw (str "json value is not an array") end.
Definition as_object (v : Value) : outcome (list (bytes * Value)) :=
  match v with Object fields => Ok fields | _ => Throw (str "json value is not an object") end.

Fixpoint find_field (fields : list (bytes * Value)) (key : bytes) : option Value :=
  match fields with
  | [] => None
  | (k, v) :: fields => if bool_decide (k = key) then Some v else find_field fields key
  end.

Definition find (v : Value) (key : bytes) : option Value :=
  match v with Object fields => find_field fields key | _ => None end.

Definition require (v : Value) (key : bytes) : outcome Value :=
  match find v key with
  | Some field => Ok field
  | None => Throw (str "missing required json key: " ++ key)
  end.

(** [optional_string], [optional_bool] and their [nullable] forms. *)
Definition optional_string (v : Value) (key default_value : bytes) : bytes :=
  match find v key with Some (String s) => s | _ => default_value end.

Definition optional_bool (v : Value) (key : bytes) (default_value : bool) : bool :=
  match find v key with Some (Bool b) => b | _ => default_value end.

Definition optional_nullable_string (v : Value) (key default_value : bytes) : outcome bytes :=
  match find v key with
  | None | Some Null => Ok default_value
  | Some value => as_string value
  end.

Definition optional_nullable_bool (v : Value) (key : bytes) (default_value : bool) : outcome bool :=
  match find v key with
  | None | Some Null => Ok default_value
  | Some value => as_bool value
  end.

Fixpoint strings_of (items : list Value) : outcome (list bytes) :=
  match items with
  | [] => Ok []
  | item :: items => s ← as_string item; rest ← strings_of items; Ok (s :: rest)
  end.

Definition require_string_array (v : Value) (key : bytes) : outcome (list bytes) :=
  value ← require v key;
  items ← as_array value;
  strings_of items.

Definition optional_string_array (v : Value) (key : bytes) : outcome (list bytes) :=
  match find v key with
  | Some (Array items) => strings_of items
  | _ => Ok []
  end.

(** ** Numbers *)

Section numbers.
(** [std::isfinite] with [std::floor], and the casts to [int64_t] and [float]. *)
Context {Float : Type} (integral : Double → bool) (to_i64 : Double → Z) (to_f32 : Double → Float).

Definition as_i64 (v : Value) : outcome Z :=
  value ← as_number v;
  if integral value then Ok (to_i64 value) else Throw (str "json number is not an integer").

Definition as_f32 (v : Value) : outcome Float := value ← as_number v; Ok (to_f32 value).

(** [static_cast<int>]. *)
Definition to_i32 (x : Z) : Z := (uwrap 32 (x + 2 ^ 31) - 2 ^ 31)%Z.

Definition require_string (v : Value) (key : bytes) : outcome bytes := value ← require v key; as_string value.
Definition require_bool (v : Value) (key : bytes) : outcome bool := value ← require v key; as_bool value.
Definition require_i64 (v : Value) (key : bytes) : outcome Z := value ← require v key; as_i64 value.
Definition require_i32 (v : Value) (key : bytes) : outcome Z := value ← require_i64 v key; Ok (to_i32 value).
Definition require_f32 (v : Value) (key : bytes) : outcome Float := value ← require v key; as_f32 value.

Definition optional_i64 (v : Value) (key : bytes) (default_value : Z) : outcome Z :=
  match find v key with Some (Number x) => as_i64 (Number x) | _ => Ok default_value end.

Definition optional_nullable_i64 (v : Value) (key : bytes) (default_value : Z) : outcome Z :=
  match find v key with None | Some Null => Ok default_value | Some value => as_i64 value end.

Definition optional_i32 (v : Value) (key : bytes) (default_value : Z) : outcome Z :=
  value ← optional_i64 v key default_value; Ok (to_i32 value).

Definition optional_f32 (v : Value) (key : bytes) (default_value : Float) : outcome Float :=
  match find v key with Some (Number x) => as_f32 (Number x) | _ => Ok default_value end.

Definition optional_nullable_f32 (v : Value) (key : bytes) (default_value : Float) : outcome Float :=
  match find v key with None | Some Null => Ok default_value | Some value => as_f32 value end.

(** [number_array_as] for [int64_t] and [float]. *)
Fixpoint numbers_of {A} (convert : Value → outcome A) (items : list Value) : outcome (list A) :=
  match items with
  | [] => Ok []
  | item :: items => x ← convert item; rest ← numbers_of convert items; Ok (x :: rest)
  end.

Definition i64_array (v : Value) : outcome (list Z) := items ← as_array v; numbers_of as_i64 items.
Definition f32_array (v : Value) : outcome (list Float) := items ← as_array v; numbers_of as_f32 items.

Definition i64_array_or_scalar (v : Value) : outcome (list Z) :=
  match v with Number _ => x ← as_i64 v; Ok [x] | _ => i64_array v end.

Definition require_i64_array_or_scalar (v : Value) (key : bytes) : outcome (list Z) := value ← require v key; i64_array_or_scalar value.
Definition require_i64_array (v : Value) (key : bytes) : outcome (list Z) := value ← require v key; i64_array value.

Fixpoint i64_fields (fields : list (bytes * Value)) : outcome (list (bytes * Z)) :=
  match fields with
  | [] => Ok []
  | (name, value) :: fields => x ← as_i64 value; rest ← i64_fields fields; Ok ((name, x) :: rest)
  end.

Definition require_i64_object (v : Value) (key : bytes) : outcome (list (bytes * Z)) :=
  value ← require v key; fields ← as_object value; i64_fields fields.

(** [optional_i64_array] without and with a default, and its scalar form. *)
Definition optional_i64_array (v : Value) (key : bytes) : outcome (list Z) :=
  match find v key with Some (Array items) => i64_array (Array items) | _ => Ok [] end.

Definition optional_i64_array_or (v : Value) (key : bytes) (default_value : list Z) : outcome (list Z) :=
  match find v key with None | Some Null => Ok default_value | Some value => i64_array value end.

Definition optional_i64_array_or_scalar (v : Value) (key : bytes) (default_value : list Z) : outcome (list Z) :=
  match find v key with None | Some Null => Ok default_value | Some value => i64_array_or_scalar value end.

Definition optional_f32_array (v : Value) (key : bytes) : outcome (list Float) :=
  match find v key with Some (Array items) => f32_array (Array items) | _ => Ok [] end.

(** A number is read where one stands and is integral; a key of another kind counts
    as missing only for the [optional] forms that are not [nullable]. *)
Lemma optional_i64_spec v key d :
  optional_i64 v key d =
  match find v key with
  | Some (Number x) => if integral x then Ok (to_i64 x) else Throw (str "json number is not an integer")
  | _ => Ok d
  end.
Proof. unfold optional_i64. by destruct (find v key) as [[]|]. Qed.

End numbers.

(** * The tree cJSON parses *)

(** A node as its documented accessors show it: the children of an object carry
    their [string], which may be missing. *)
Inductive cJSON : Type :=
| cNull
| cBool (b : bool)
| cNumber (valuedouble : Double)
| cString (valuestring : option bytes)
| cArray (children : list cJSON)
| cObject (children : list (option bytes * cJSON))
| cRaw.

Definition add_field (key : option bytes) (convert : outcome Value) (out : list (bytes * Value)) : outcome (list (bytes * Value)) :=
  match key with
  | None => Throw (str "json object key is missing")
  | Some key =>
      match find_field out key with
      | Some _ => Throw (str "duplicate json object key: " ++ key)
      | None => v ← convert; Ok (out ++ [(key, v)])
      end
  end.

Fixpoint convert_cjson (node : cJSON) : outcome Value :=
  match node with
  | cNull => Ok Null
  | cBool b => Ok (Bool b)
  | cNumber x => Ok (Number x)
  | cString s => Ok (String (default [] s))
  | cArray children =>
      let fix items (children : list cJSON) (out : list Value) : outcome (list Value) :=
        match children with
        | [] => Ok out
        | child :: children => v ← convert_cjson child; items children (out ++ [v])
        end in
      Array <$> items children []
  | cObject children =>
      let fix fields (children : list (option bytes * cJSON)) (out : list (bytes * Value)) : outcome (list (bytes * Value)) :=
        match children with
        | [] => Ok out
        | (key, child) :: children => out ← add_field key (convert_cjson child) out; fields children out
        end in
      Object <$> fields children []
  | cRaw => Throw (str "unsupported json node type")
  end.

(** [value.c_str()] as a C function reads it. *)
Fixpoint c_str (s : bytes) : bytes :=
  match s with
  | c :: s => if c =b 0 then [] else c :: c_str s
  | [] => []
  end.

(** The tree that is printed, when memory suffices. *)
Fixpoint make_cjson (v : Value) : cJSON :=
  match v with
  | Null => cNull
  | Bool b => cBool b
  | Number x => cNumber x
  | String s => cString (Some (c_str s))
  | Array items => cArray (map make_cjson items)
  | Object fields => cObject (map (λ '(key, child), (Some (c_str key), make_cjson child)) fields)
  end.

End value.
Arguments Value : clear implicits.
Arguments cJSON : clear implicits.

(** * Comments and trailing commas *)

(** The string state after a character of a string. *)
Definition string_step (escaped : bool) (c : Z) : bool * bool :=
  if escaped then (true, false)
  else if c =b ch "\" then (true, true)
  else if c =b 34 then (false, false)
  else (true, false).

(** [while (index < text.size() && text[index] != '\n') ++index;] *)
Fixpoint to_line_end (text : bytes) : bytes :=
  match text with
  | c :: rest => if c =b 10 then text else to_line_end rest
  | [] => []
  end.

Fixpoint comments_loop (fuel : nat) (in_string escaped : bool) (text : bytes) : bytes :=
  match fuel, text with
  | S fuel, c :: rest =>
      if in_string then
        let '(in_string, escaped) := string_step escaped c in
        c :: comments_loop fuel in_string escaped rest
      else if c =b 34 then c :: comments_loop fuel true escaped rest
      else if (c =b ch "/") && bool_decide (head rest = Some (ch "/")) then
        match to_line_end text with
        | _ :: rest => 10%Z :: comments_loop fuel false escaped rest
        | [] => []
        end
      else c :: comments_loop fuel false escaped rest
  | _, _ => []
  end.

Definition strip_jsonc_comments (text : bytes) : bytes := comments_loop (length text) false false text.

(** A comma in front of white space and a closing bracket. *)
Definition trailing_comma (rest : bytes) : bool :=
  match trim_left rest with
  | c :: _ => (c =b ch "}") || (c =b ch "]")
  | [] => false
  end.

Fixpoint commas_loop (in_string escaped : bool) (text : bytes) : bytes :=
  match text with
  | [] => []
  | c :: rest =>
      if in_string then
        let '(in_string, escaped) := string_step escaped c in
        c :: commas_loop in_string escaped rest
      else if c =b 34 then c :: commas_loop true escaped rest
      else if (c =b ch ",") && trailing_comma rest then commas_loop false escaped rest
      else c :: commas_loop false escaped rest
  end.

Definition strip_jsonc_trailing_commas (text : bytes) : bytes := commas_loop false false text.

Section parse.
Context {Double : Type}.

(** [cJSON_ParseWithLengthOpts]: the tree and where it ends, or where the error is. *)
Context (cjson_parse : bytes → cJSON Double * nat + Z).

Definition parse (text : bytes) : outcome (Value Double) :=
  match cjson_parse text with
  | inr error_offset => Throw (str "failed to parse json at byte " ++ to_string error_offset)
  | inl (root, parse_end) =>
      if forallb is_space (drop parse_end text) then convert_cjson root
      else Throw (str "unexpected trailing json content")
  end.

Definition parse_jsonc (text : bytes) : outcome (Value Double) :=
  parse (strip_jsonc_trailing_commas (strip_jsonc_comments text)).

End parse.

(** * Trees and values *)

Section trees.
Context {Double : Type}.

(** Structural induction through the lists of a value. *)
Lemma value_ind (P : Value Double → Prop) :
  P Null → (∀ b, P (Bool b)) → (∀ x, P (Number x)) → (∀ s, P (String s)) →
  (∀ items, Forall P items → P (Array items)) →
  (∀ fields, Forall (λ f, P f.2) fields → P (Object fields)) → ∀ v, P v.
Proof.
  intros HN HB HX HS HA HO. fix IH 1. intros [|b|x|s|items|fields]; [done..| |].
  - apply HA. induction items as [|v items IHi]; [by apply Forall_nil_2|apply Forall_cons; by split].
  - apply HO. induction fields as [|[k v] fields IHf]; [by apply Forall_nil_2|apply Forall_cons; split; [apply IH|done]].
Qed.

Definition no_nul (s : bytes) : Prop := Forall (λ c, c ≠ 0%Z) s.

(** No string holds a NUL, and no object a key twice. *)
Fixpoint printable (v : Value Double) : Prop :=
  match v with
  | String s => no_nul s
  | Array items => foldr (λ v, and (printable v)) True items
  | Object fields => NoDup (map fst fields) ∧ foldr (λ f, and (no_nul f.1 ∧ printable f.2)) True fields
  | _ => True
  end.

Lemma c_str_no_nul s : no_nul s → c_str s = s.
Proof. induction 1 as [|c s Hc _ IH]; cbn; [done|]. by rewrite (proj2 (Z.eqb_neq _ _) Hc), IH. Qed.

Lemma find_field_None fields key : find_field (Double := Double) fields key = None ↔ key ∉ map fst fields.
Proof.
  induction fields as [|[k v] fields IH]; cbn; [split; [intros _; apply not_elem_of_nil|done]|].
  rewrite not_elem_of_cons. case_bool_decide; [naive_solver|]. rewrite IH. naive_solver.
Qed.

Lemma find_field_app (l1 l2 : list (bytes * Value Double)) key :
  find_field (l1 ++ l2) key = match find_field l1 key with Some v => Some v | None => find_field l2 key end.
Proof. induction l1 as [|[k v] l1 IH]; cbn [app find_field]; [done|]. by case_bool_decide. Qed.

Lemma convert_items items out :
  Forall (λ v, convert_cjson (make_cjson v) = Ok v) items →
  (fix items (children : list (cJSON Double)) (out : list (Value Double)) : outcome (list (Value Double)) :=
     match children with
     | [] => Ok out
     | child :: children => v ← convert_cjson child; items children (out ++ [v])
     end) (map make_cjson items) out = Ok (out ++ items).
Proof.
  intros H. revert out. induction H as [|v items Hv _ IH]; intros out; cbn [map]; [by rewrite app_nil_r|].
  rewrite Hv. cbn [mbind outcome_bind]. rewrite IH. by rewrite <- app_assoc.
Qed.

Lemma convert_fields fields out :
  Forall (λ f, no_nul f.1 ∧ convert_cjson (make_cjson f.2) = Ok f.2) fields →
  NoDup (map fst (out ++ fields)) →
  (fix fields (children : list (option bytes * cJSON Double)) (out : list (bytes * Value Double)) : outcome (list (bytes * Value Double)) :=
     match children with
     | [] => Ok out
     | (key, child) :: children => out ← add_field key (convert_cjson child) out; fields children out
     end) (map (λ '(key, child), (Some (c_str key), make_cjson child)) fields) out = Ok (out ++ fields).
Proof.
  intros H. revert out. induction H as [|[k v] fields [Hk Hv] _ IH]; intros out Hnd; cbn [map]; [by rewrite app_nil_r|].
  cbn [fst snd] in *. unfold add_field. rewrite c_str_no_nul by done.
  assert (find_field out k = None) as ->.
  { apply find_field_None. rewrite map_app in Hnd. cbn in Hnd. apply NoDup_app in Hnd as (_ & Hd & _). intros Hin. by eapply Hd; [|left]. }
  rewrite Hv. cbn [mbind outcome_bind]. rewrite IH; [by rewrite <- app_assoc|by rewrite <- app_assoc].
Qed.

Lemma printable_items items : foldr (λ v, and (printable v)) True items → Forall printable items.
Proof. induction items as [|v items IH]; cbn; [intros _; apply Forall_nil_2|intros [? ?]; apply Forall_cons; auto]. Qed.

Lemma printable_fields fields :
  foldr (λ f, and (no_nul f.1 ∧ printable f.2)) True fields → Forall (λ f, no_nul f.1 ∧ printable f.2) fields.
Proof. induction fields as [|v fields IH]; cbn; [intros _; apply Forall_nil_2|intros [? ?]; apply Forall_cons; auto]. Qed.

(** A value read back from the tree that is printed for it is the value
    itself, when its strings hold no NUL and its objects no key twice. *)
Theorem json_tree_roundtrip v : printable v → convert_cjson (make_cjson v) = Ok v.
Proof.
  induction v as [|b|x|s|items IH|fields IH] using value_ind; intros Hp; cbn [convert_cjson make_cjson]; try done.
  - by rewrite c_str_no_nul.
  - cbn [printable] in Hp. apply printable_items in Hp. rewrite convert_items; [done|].
    eapply Forall_impl; [apply Forall_and; split; [exact IH|exact Hp]|]. intros v [? ?]; auto.
  - destruct Hp as [Hnd Hp%printable_fields]. rewrite convert_fields; [done| |done].
    eapply Forall_impl; [apply Forall_and; split; [exact IH|exact Hp]|]. intros f [? [? ?]]; auto.
Qed.

End trees.

Lemma json_tree_roundtrip_witness :
  let v := Object [(str "delta", Object [(str "content", String (str "hi"))]); (str "n", Array [Number 3; Null])] in
  printable (Double := nat) v ∧ convert_cjson (make_cjson v) = Ok v.
Proof.
  assert (printable (Double := nat) (Object [(str "delta", Object [(str "content", String (str "hi"))]); (str "n", Array [Number 3; Null])])) as H.
  { cbn; split_and!; try done; unfold no_nul; repeat (apply Forall_cons; split; [done|]); try apply Forall_nil_2;
      repeat (apply NoDup_cons; split; [by rewrite ?elem_of_cons, ?elem_of_nil; naive_solver|]); try apply NoDup_nil_2. }
  split; [exact H|]. exact (json_tree_roundtrip _ H).
Defined.

(** * Comments are erased, strings are not touched *)

(** A text of a configuration file as a sequence of string literals, comments
    (the last one may end with the file) and other characters. *)
Inductive segment :=
| Quoted (body : bytes)
| Comment (body : bytes)
| EndComment (body : bytes)
| Plain (c : Z).

Definition render (s : segment) : bytes :=
  match s with
  | Quoted body => 34%Z :: body ++ [34%Z]
  | Comment body => str "//" ++ body ++ [10%Z]
  | EndComment body => str "//" ++ body
  | Plain c => [c]
  end.

Definition rendered (segs : list segment) : bytes := concat (map render segs).

(** What is left of a segment. *)
Definition erase (s : segment) : bytes :=
  match s with
  | Comment _ => [10%Z]
  | EndComment _ => []
  | _ => render s
  end.

(** The inside of a string literal: no quote that is not escaped, no escape left open. *)
Fixpoint literal (escaped : bool) (body : bytes) : bool :=
  match body with
  | [] => negb escaped
  | c :: body => let '(in_string, escaped) := string_step escaped c in in_string && literal escaped body
  end.

Fixpoint well_lexed (segs : list segment) : Prop :=
  match segs with
  | [] => True
  | Quoted body :: segs => literal false body = true ∧ well_lexed segs
  | Comment body :: segs => Forall (λ c, c ≠ 10%Z) body ∧ well_lexed segs
  | EndComment body :: segs => Forall (λ c, c ≠ 10%Z) body ∧ segs = []
  | Plain c :: segs => c ≠ 34%Z ∧ (c = ch "/" → head (rendered segs) ≠ Some (ch "/")) ∧ well_lexed segs
  end.

Lemma comments_literal fuel escaped body rest :
  literal escaped body = true → length (body ++ 34%Z :: rest) <= fuel →
  ∃ fuel', length rest <= fuel' ∧
    comments_loop fuel true escaped (body ++ 34%Z :: rest) = body ++ 34%Z :: comments_loop fuel' false false rest.
Proof.
  revert fuel escaped. induction body as [|c body IH]; intros [|fuel] escaped Hl Hf; cbn [app length] in Hf; try lia; cbn [literal] in Hl.
  - apply negb_true_iff in Hl as ->. exists fuel. split; [lia|done].
  - cbn [app comments_loop]. destruct (string_step escaped c) as [i e]. apply andb_prop in Hl as [-> Hl].
    destruct (IH fuel e Hl) as (fuel' & Hf' & E); [lia|]. exists fuel'. by rewrite E.
Qed.

Lemma to_line_end_app body rest : Forall (λ c, c ≠ 10%Z) body → to_line_end (body ++ rest) = to_line_end rest.
Proof. induction 1 as [|c body Hc _ IH]; cbn; [done|]. by rewrite (proj2 (Z.eqb_neq _ _) Hc). Qed.

Lemma comments_loop_segments segs fuel :
  well_lexed segs → length (rendered segs) <= fuel → comments_loop fuel false false (rendered segs) = concat (map erase segs).
Proof.
  unfold rendered. revert fuel. induction segs as [|s segs IH]; intros fuel Hw Hf; [by destruct fuel|].
  destruct s as [body|body|body|c]; cbn [map concat render erase] in *; rewrite length_app in Hf.
  - destruct Hw as [Hl Hw]. destruct fuel as [|fuel]; [cbn in Hf; lia|]. cbn [app comments_loop]. change (34 =b 34) with true.
    rewrite <- !app_assoc. cbn [app length] in *.
    destruct (comments_literal fuel false body (concat (map render segs)) Hl) as (fuel' & Hf' & E); [rewrite length_app in *; cbn in *; lia|].
    rewrite E. by rewrite IH.
  - destruct Hw as [Hl Hw]. change (str "//") with [47; 47]%Z in *. destruct fuel as [|fuel]; [cbn in Hf; lia|].
    rewrite <- !app_assoc. cbn [app]. cbn [comments_loop]. change (47 =b 34) with false. cbn [head].
    change ((47 =b ch "/") && bool_decide (Some 47%Z = Some (ch "/"))) with true.
    assert (to_line_end (47%Z :: 47%Z :: body ++ 10%Z :: concat (map render segs)) = 10%Z :: concat (map render segs)) as ->.
    { change (to_line_end (body ++ 10%Z :: concat (map render segs)) = 10%Z :: concat (map render segs)). by rewrite to_line_end_app. }
    cbn [app] in Hf. f_equal. apply IH; [done|]. cbn [length] in Hf. rewrite length_app in Hf. lia.
  - destruct Hw as [Hl ->]. cbn [map concat]. rewrite app_nil_r. change (str "//") with [47; 47]%Z in *. destruct fuel as [|fuel]; [cbn in Hf; lia|].
    cbn [app comments_loop]. change (47 =b 34) with false. cbn [head].
    change ((47 =b ch "/") && bool_decide (Some 47%Z = Some (ch "/"))) with true.
    change (to_line_end (47%Z :: 47%Z :: body)) with (to_line_end body). rewrite <- (app_nil_r body), to_line_end_app by done. done.
  - destruct Hw as (Hq & Hs & Hw). destruct fuel as [|fuel]; [cbn in Hf; lia|]. cbn [app comments_loop].
    rewrite (proj2 (Z.eqb_neq c 34)) by done. cbn [length] in Hf.
    assert ((c =b ch "/") && bool_decide (head (concat (map render segs)) = Some (ch "/")) = false) as ->.
    { apply andb_false_iff. destruct (c =b ch "/") eqn:E; [right; apply Z.eqb_eq in E|by left]. apply bool_decide_eq_false. by apply Hs. }
    f_equal. apply IH; [done|lia].
Qed.

(** Stripping comments erases every comment outside string literals, up to
    its line feed, and nothing else: string literals, also with [//] or escaped
    quotes inside, come out as they went in. *)
Theorem comments_erased segs :
  well_lexed segs → strip_jsonc_comments (rendered segs) = concat (map erase segs).
Proof. intros H. by apply comments_loop_segments. Qed.

Lemma comments_erased_witness :
  let segs := [Plain (ch "{"); Quoted (str "a//\" ++ [34%Z]); Plain (ch ":"); Plain (ch "1"); Comment (str " one"); Plain (ch "}"); EndComment (str "end")] in
  well_lexed segs ∧ strip_jsonc_comments (rendered segs) = concat (map erase segs).
Proof.
  assert (well_lexed [Plain (ch "{"); Quoted (str "a//\" ++ [34%Z]); Plain (ch ":"); Plain (ch "1"); Comment (str " one"); Plain (ch "}"); EndComment (str "end")]) as H.
  { repeat split; try done; repeat (apply Forall_cons; split; [done|]); apply Forall_nil_2. }
  split; [exact H|]. exact (comments_erased _ H).
Defined.
