(* ===== verification/LlmClient.v ===== *)
(** The client of the language model server (app/server/llm_client.cpp): decoding
    a chunked body and a stream of server-sent events as bytes arrive, and one
    chat request from the socket to the callback. *)

From S2P Require Import Prelude ChunkedBody HttpRequest Json.

(** * The chunked body *)

Inductive decoder_state := Size | SizeLf | Data | DataCr | DataLf | TrailerCr | Done.

#[export] Instance decoder_state_eq_dec : EqDecision decoder_state.
Proof. solve_decision. Defined.

Record ChunkedBodyDecoder := {
  state_ : decoder_state;
  size_line_ : bytes;
  remaining_ : Z;
}.

#[export] Instance ChunkedBodyDecoder_settable : Settable ChunkedBodyDecoder :=
  λ d, {| state_ := state_ d; size_line_ := size_line_ d; remaining_ := remaining_ d |}.

Definition make_decoder : ChunkedBodyDecoder := {| state_ := Size; size_line_ := []; remaining_ := 0 |}.

(** The digits in front of a chunk extension; other characters are skipped. *)
Definition add_digit (remaining digit : Z) : Z :=
  let lower := to_lower digit in
  if ((ch "0" <=? lower) && (lower <=? ch "9"))%Z then uwrap 64 (remaining * 16 + (lower - ch "0"))
  else if ((ch "a" <=? lower) && (lower <=? ch "f"))%Z then uwrap 64 (remaining * 16 + (lower - ch "a" + 10))
  else remaining.

Definition size_of_line (line : bytes) : Z :=
  let digits := match find_sub (str ";") line with None => line | Some semicolon => take semicolon line end in
  fold_left add_digit digits 0%Z.

(** [while (index < size && state_ != State::Done)], from the bytes at [index]. *)
Fixpoint feed_loop (fuel : nat) (data out : bytes) (d : ChunkedBodyDecoder) : ChunkedBodyDecoder * bytes :=
  match fuel, data with
  | S fuel, c :: rest =>
      match state_ d with
      | Size =>
          if c =b 13 then feed_loop fuel rest out (d <| state_ := SizeLf |>)
          else feed_loop fuel rest out (d <| size_line_ := size_line_ d ++ [c] |>)
      | SizeLf =>
          let remaining := size_of_line (size_line_ d) in
          feed_loop fuel rest out
            {| state_ := if remaining =b 0 then TrailerCr else Data; size_line_ := []; remaining_ := remaining |}
      | Data =>
          let count := Nat.min (Z.to_nat (remaining_ d)) (length data) in
          let remaining := (remaining_ d - Z.of_nat count)%Z in
          let d := d <| remaining_ := remaining |> in
          feed_loop fuel (drop count data) (out ++ take count data)
            (if remaining =b 0 then d <| state_ := DataCr |> else d)
      | DataCr => feed_loop fuel rest out (d <| state_ := DataLf |>)
      | DataLf => feed_loop fuel rest out (d <| state_ := Size |>)
      | TrailerCr => feed_loop fuel rest out (if c =b 10 then d <| state_ := Done |> else d)
      | Done => (d, out)
      end
  | _, _ => (d, out)
  end.

Definition finished (d : ChunkedBodyDecoder) : bool := bool_decide (state_ d = Done).

(** The decoder after the bytes, and what it appended to [out]. *)
Definition decoder_feed (data : bytes) (d : ChunkedBodyDecoder) : ChunkedBodyDecoder * bytes :=
  feed_loop (length data) data [] d.

Section client.
(** [double] with the constant [-1] and the test [>= 0], and the JSON library. *)
Context {Double : Type} (minus_one : Double) (nonnegative : Double → bool)
  (json_parse : bytes → outcome (Value Double)).

(** * Server-sent events *)

Record Event := {
  delta : bytes;
  event_finish_reason : bytes;
  done : bool;
  event_error : bytes;
  event_prompt_n : Double;
  event_prompt_ms : Double;
  event_predicted_n : Double;
  event_predicted_ms : Double;
}.

#[export] Instance Event_settable : Settable Event := λ e,
  {| delta := delta e; event_finish_reason := event_finish_reason e; done := done e; event_error := event_error e;
     event_prompt_n := event_prompt_n e; event_prompt_ms := event_prompt_ms e;
     event_predicted_n := event_predicted_n e; event_predicted_ms := event_predicted_ms e |}.

Definition no_event : Event :=
  {| delta := []; event_finish_reason := []; done := false; event_error := []; event_prompt_n := minus_one;
     event_prompt_ms := minus_one; event_predicted_n := minus_one; event_predicted_ms := minus_one |}.

Definition error_text (error : Value Double) : bytes :=
  match find error (str "message") with
  | Some (String message) => message
  | _ => str "LLM stream error"
  end.

Definition number_field (timings : Value Double) (key : bytes) : Double :=
  match find timings key with Some (Number x) => x | _ => minus_one end.

Definition with_timings (value : Value Double) (event : Event) : Event :=
  match find value (str "timings") with
  | None => event
  | Some timings =>
      event <| event_prompt_n := number_field timings (str "prompt_n") |>
            <| event_prompt_ms := number_field timings (str "prompt_ms") |>
            <| event_predicted_n := number_field timings (str "predicted_n") |>
            <| event_predicted_ms := number_field timings (str "predicted_ms") |>
  end.

Definition with_delta (choice : Value Double) (event : Event) : Event :=
  match find choice (str "delta") with
  | None => event
  | Some d =>
      match find d (str "content") with
      | Some (String content) => event <| delta := content |>
      | _ => event
      end
  end.

Definition with_reason (choice : Value Double) (event : Event) : Event :=
  match find choice (str "finish_reason") with
  | Some (String reason) => event <| event_finish_reason := reason |>
  | _ => event
  end.

Definition with_choice (value : Value Double) (event : Event) : Event :=
  match find value (str "choices") with
  | Some (Array (choice :: _)) => with_reason choice (with_delta choice event)
  | _ => event
  end.

Definition parse_payload (payload : bytes) : Event :=
  if bool_decide (payload = str "[DONE]") then no_event <| done := true |>
  else
    match json_parse payload with
    | Throw _ => no_event
    | Ok value =>
        match find value (str "error") with
        | Some error => no_event <| event_error := error_text error |>
        | None => with_choice value (with_timings value no_event)
        end
    end.

Record SseDeltaParser := { buffer_ : bytes; event_data_ : bytes }.

Definition make_parser : SseDeltaParser := {| buffer_ := []; event_data_ := [] |}.

(** One line, its line feed taken off: the data collected so far and the event
    it dispatches. *)
Definition take_line (line event_data : bytes) : bytes * list Event :=
  let line := drop_cr line in
  match line with
  | [] =>
      match event_data with
      | [] => ([], [])
      | _ => ([], [parse_payload event_data])
      end
  | _ =>
      if is_prefix (str "data:") line then
        let payload := drop 5 line in
        let payload := match payload with c :: rest => if c =b 32 then rest else payload | [] => [] end in
        let event_data := match event_data with [] => [] | _ => event_data ++ [10%Z] end in
        (event_data ++ payload, [])
      else (event_data, [])
  end.

(** [while (true)] over the lines of the buffer that are complete. *)
Fixpoint lines_loop (fuel : nat) (buffer event_data : bytes) (events : list Event) : SseDeltaParser * list Event :=
  match fuel with
  | O => ({| buffer_ := buffer; event_data_ := event_data |}, events)
  | S fuel =>
      match find_sub [10%Z] buffer with
      | None => ({| buffer_ := buffer; event_data_ := event_data |}, events)
      | Some newline =>
          let '(event_data, new) := take_line (take newline buffer) event_data in
          lines_loop fuel (drop (newline + 1) buffer) event_data (events ++ new)
      end
  end.

Definition parser_feed (bytes : bytes) (p : SseDeltaParser) : SseDeltaParser * list Event :=
  let buffer := buffer_ p ++ bytes in
  lines_loop (S (length buffer)) buffer (event_data_ p) [].

(** * One chat request *)

Record ChatResult := {
  ok : bool;
  error : bytes;
  finish_reason : bytes;
  prompt_n : Double;
  prompt_ms : Double;
  predicted_n : Double;
  predicted_ms : Double;
}.

#[export] Instance ChatResult_settable : Settable ChatResult := λ r,
  {| ok := ok r; error := error r; finish_reason := finish_reason r; prompt_n := prompt_n r;
     prompt_ms := prompt_ms r; predicted_n := predicted_n r; predicted_ms := predicted_ms r |}.

Definition make_result : ChatResult :=
  {| ok := false; error := []; finish_reason := []; prompt_n := minus_one; prompt_ms := minus_one;
     predicted_n := minus_one; predicted_ms := minus_one |}.

Definition failed (message : bytes) : ChatResult := make_result <| error := message |>.

(** The callback, over the state [T] of its owner: whether to go on. *)
Context {T : Type} (on_delta : bytes → T → bool * T).

Definition note_event (event : Event) (result : ChatResult) : ChatResult :=
  let result := match event_finish_reason event with [] => result | reason => result <| finish_reason := reason |> end in
  if nonnegative (event_prompt_n event) then
    result <| prompt_n := event_prompt_n event |> <| prompt_ms := event_prompt_ms event |>
           <| predicted_n := event_predicted_n event |> <| predicted_ms := event_predicted_ms event |>
  else result.

(** The events of one feed: whether the loop ran to its end. *)
Fixpoint consume_events (events : list Event) (result : ChatResult) (t : T) : bool * ChatResult * T :=
  match events with
  | [] => (true, result, t)
  | event :: events =>
      match event_error event with
      | _ :: _ => (false, result <| error := event_error event |>, t)
      | [] =>
          let result := note_event event result in
          if done event then (false, result, t)
          else
            match delta event with
            | [] => consume_events events result t
            | _ =>
                let '(go_on, t) := on_delta (delta event) t in
                if go_on then consume_events events result t
                else (false, result <| error := str "aborted" |>, t)
            end
      end
  end.

(** [consume]: the decoder, the parser and the result are captured. *)
Definition consume (chunked : bool) (data : bytes) (d : ChunkedBodyDecoder) (p : SseDeltaParser) (result : ChatResult) (t : T) :
    bool * ChunkedBodyDecoder * SseDeltaParser * ChatResult * T :=
  let '(d, payload, final_chunk) :=
    if chunked then let '(d, payload) := decoder_feed data d in (d, payload, finished d)
    else (d, data, false) in
  let '(p, events) := parser_feed payload p in
  let '(ran, result, t) := consume_events events result t in
  (ran && negb final_chunk, d, p, result, t).

(** [while (keep_reading)], one [recv] per element of [net]; its end is a [recv]
    that returns nothing. *)
Fixpoint read_loop (chunked keep_reading : bool) (net : list bytes) (d : ChunkedBodyDecoder) (p : SseDeltaParser)
    (result : ChatResult) (t : T) : ChatResult * T :=
  if keep_reading then
    match net with
    | (c :: data) :: net =>
        let '(keep_reading, d, p, result, t) := consume chunked (c :: data) d p result t in
        read_loop chunked keep_reading net d p result t
    | _ => (result, t)
    end
  else (result, t).

Definition settle (result : ChatResult) : ChatResult :=
  match error result with
  | [] => result <| ok := true |>
  | _ => if bool_decide (error result = str "aborted") then result <| error := [] |> <| ok := false |> else result
  end.

Definition kMaxHeader : nat := 64 * 1024.

(** The head of the response: everything received and what is left to receive. *)
Fixpoint read_headers (net : list bytes) (headers : bytes) : bytes + (bytes * list bytes) :=
  match find_sub blank_line headers with
  | Some _ => inr (headers, net)
  | None =>
      match net with
      | (c :: data) :: net =>
          let headers := headers ++ c :: data in
          if kMaxHeader <? length headers then inl (str "the LLM server sent an oversized response header")
          else read_headers net headers
      | _ => inl (str "the LLM server closed the connection before responding")
      end
  end.

(** [std::atoi], for a number that fits an [int]. *)
Definition atoi (s : bytes) : Z := default 0%Z (read_integer 32 s).

(** [while (body.size() < limit)]. *)
Fixpoint collect (limit : nat) (net : list bytes) (body : bytes) : bytes :=
  if length body <? limit then
    match net with
    | (c :: data) :: net => collect limit net (body ++ c :: data)
    | _ => body
    end
  else body.

Definition status_error (status : Z) (body : bytes) : bytes :=
  str "LLM server answered HTTP " ++ to_string status ++
  match body with [] => [] | _ => str ": " ++ take 512 body end.

(** From the request sent to the result. *)
Definition receive_chat (net : list bytes) (t : T) : ChatResult * T :=
  match read_headers net [] with
  | inl message => (failed message, t)
  | inr (headers, net) =>
      let header_end := default 0 (find_sub blank_line headers) in
      let carry := drop (header_end + 4) headers in
      let headers := take header_end headers in
      let lowered := lower_ascii headers in
      let status := if 12 <? length headers then atoi (drop 9 headers) else 0%Z in
      let chunked := match find_sub (str "transfer-encoding: chunked") lowered with Some _ => true | None => false end in
      if bool_decide (status = 200%Z) then
        let '(keep_reading, d, p, result, t) := consume chunked carry make_decoder make_parser make_result t in
        let '(result, t) := read_loop chunked keep_reading net d p result t in
        (settle result, t)
      else (failed (status_error status (collect 4096 net carry)), t)
  end.

(** What connecting and sending come to; [sends] are the results of [send]. *)
Record connection := {
  socket_created : bool;
  address_valid : bool;
  connected : bool;
  sends : list Z;
  received : list bytes;
}.

Definition chat_request (host : bytes) (port : Z) (body_json : bytes) : bytes :=
  str "POST /v1/chat/completions HTTP/1.1" ++ crlf ++
  str "Host: " ++ host ++ str ":" ++ to_string port ++ crlf ++
  str "Content-Type: application/json" ++ crlf ++
  str "Accept: text/event-stream" ++ crlf ++
  str "Connection: close" ++ crlf ++
  str "Content-Length: " ++ to_string (Z.of_nat (length body_json)) ++ crlf ++
  crlf ++ body_json.

(** [send_all]: whether everything was sent, and what was. *)
Fixpoint client_send (sends : list Z) (data sent : bytes) : bool * bytes :=
  match data with
  | [] => (true, sent)
  | _ =>
      match sends with
      | [] => (false, sent)
      | rc :: sends =>
          if (rc <=? 0)%Z then (false, sent)
          else client_send sends (drop (Z.to_nat rc) data) (sent ++ take (Z.to_nat rc) data)
      end
  end.

(** The result, the callback's state and the bytes sent. *)
Definition stream_chat (c : connection) (host : bytes) (port : Z) (body_json : bytes) (t : T) : ChatResult * T * bytes :=
  if negb (socket_created c) then (failed (str "could not create a socket to the LLM server"), t, [])
  else if negb (address_valid c) then (failed (str "invalid LLM server address: " ++ host), t, [])
  else if negb (connected c) then
    (failed (str "the LLM server is not reachable at " ++ host ++ str ":" ++ to_string port), t, [])
  else
    match client_send (sends c) (chat_request host port body_json) [] with
    | (false, sent) => (failed (str "could not send the request to the LLM server"), t, sent)
    | (true, sent) => let '(result, t) := receive_chat (received c) t in (result, t, sent)
    end.

(** * Status requests *)

Definition status_of (response : bytes) (limit : nat) : Z * bytes :=
  if (length response <? 12) || negb (is_prefix (str "HTTP/") response) then ((-1)%Z, [])
  else
    (atoi (drop 9 response),
     match find_sub blank_line response with
     | Some header_end => substr response (header_end + 4) limit
     | None => []
     end).

Definition get_request (host path : bytes) : bytes :=
  str "GET " ++ path ++ str " HTTP/1.1" ++ crlf ++ str "Host: " ++ host ++ crlf ++ str "Connection: close" ++ crlf ++ crlf.

Definition post_request (host path request_body : bytes) : bytes :=
  str "POST " ++ path ++ str " HTTP/1.1" ++ crlf ++ str "Host: " ++ host ++ crlf ++
  str "Content-Type: application/json" ++ crlf ++
  str "Content-Length: " ++ to_string (Z.of_nat (length request_body)) ++ crlf ++ str "Connection: close" ++ crlf ++ crlf ++
  request_body.

(** The request, and how much of the answer is read at most. *)
Definition http_status (c : connection) (request : bytes) (limit : nat) : Z * bytes :=
  if socket_created c && address_valid c && connected c then
    match client_send (sends c) request [] with
    | (false, _) => ((-1)%Z, [])
    | (true, _) => status_of (collect limit (received c) []) 4096
    end
  else ((-1)%Z, []).

Definition http_get_status (c : connection) (host path : bytes) : Z * bytes :=
  http_status c (get_request host path) (64 * 1024).

Definition http_post_status (c : connection) (host path request_body : bytes) : Z * bytes :=
  http_status c (post_request host path request_body) (256 * 1024).

End client.

(** * The decoder byte by byte *)

Definition byte_step (c : Z) (d : ChunkedBodyDecoder) : ChunkedBodyDecoder * bytes :=
  match state_ d with
  | Size => if c =b 13 then (d <| state_ := SizeLf |>, []) else (d <| size_line_ := size_line_ d ++ [c] |>, [])
  | SizeLf =>
      let remaining := size_of_line (size_line_ d) in
      ({| state_ := if remaining =b 0 then TrailerCr else Data; size_line_ := []; remaining_ := remaining |}, [])
  | Data =>
      let remaining := (remaining_ d - 1)%Z in
      let d := d <| remaining_ := remaining |> in
      (if remaining =b 0 then d <| state_ := DataCr |> else d, [c])
  | DataCr => (d <| state_ := DataLf |>, [])
  | DataLf => (d <| state_ := Size |>, [])
  | TrailerCr => (if c =b 10 then d <| state_ := Done |> else d, [])
  | Done => (d, [])
  end.

Fixpoint byte_steps (data out : bytes) (d : ChunkedBodyDecoder) : ChunkedBodyDecoder * bytes :=
  match data with
  | [] => (d, out)
  | c :: rest => let '(d, o) := byte_step c d in byte_steps rest (out ++ o) d
  end.

(** A decoder inside a chunk has some of it to come. *)
Definition sound (d : ChunkedBodyDecoder) : Prop :=
  (0 <= remaining_ d)%Z ∧ (state_ d = Data → 0 < remaining_ d)%Z.

Lemma add_digit_nonneg r c : (0 <= r)%Z → (0 <= add_digit r c)%Z.
Proof. intros H. unfold add_digit, uwrap. repeat case_bool; try (apply Z.mod_pos_bound; lia). done. Qed.

Lemma size_of_line_nonneg line : (0 <= size_of_line line)%Z.
Proof.
  unfold size_of_line. generalize (match find_sub (str ";") line with None => line | Some semicolon => take semicolon line end).
  intros ds. assert (∀ r, 0 <= r → 0 <= fold_left add_digit ds r)%Z as H; [|by apply H].
  induction ds as [|c ds IH]; intros r Hr; cbn; [done|]. by apply IH, add_digit_nonneg.
Qed.

Lemma byte_step_sound c d : sound d → sound (byte_step c d).1.
Proof.
  intros [H0 H1]. unfold byte_step. destruct (state_ d) eqn:E; repeat case_bool; try (split; cbn; [done|congruence]).
  - split; cbn; [apply size_of_line_nonneg|done].
  - split; cbn; [apply size_of_line_nonneg|]. intros _. pose proof (size_of_line_nonneg (size_line_ d)). apply Z.eqb_neq in E0. lia.
  - specialize (H1 eq_refl). split; cbn; [lia|done].
  - specialize (H1 eq_refl). apply Z.eqb_neq in E0. split; cbn; lia.
Qed.

Lemma byte_steps_app a b out d :
  byte_steps (a ++ b) out d = let '(d1, o1) := byte_steps a out d in byte_steps b o1 d1.
Proof.
  revert out d. induction a as [|c a IH]; intros out d; cbn [app byte_steps]; [done|].
  destruct (byte_step c d) as [d1 o1]. apply IH.
Qed.

Lemma byte_steps_out data out d : byte_steps data out d = let '(d1, o1) := byte_steps data [] d in (d1, out ++ o1).
Proof.
  revert out d. induction data as [|c data IH]; intros out d; cbn [byte_steps]; [by rewrite app_nil_r|].
  destruct (byte_step c d) as [d1 o1]. rewrite (IH (out ++ o1)), (IH ([] ++ o1)). destruct (byte_steps data [] d1). by rewrite <- app_assoc.
Qed.

Lemma byte_steps_sound data out d : sound d → sound (byte_steps data out d).1.
Proof.
  revert out d. induction data as [|c data IH]; intros out d H; cbn [byte_steps]; [done|].
  pose proof (byte_step_sound c d H) as Hs. destruct (byte_step c d) as [d1 o1]. by apply IH.
Qed.

Lemma byte_steps_done data out d : state_ d = Done → byte_steps data out d = (d, out).
Proof.
  intros H. revert out. induction data as [|c data IH]; intros out; cbn [byte_steps]; [done|].
  unfold byte_step. by rewrite H, app_nil_r, IH.
Qed.

(** A run of bytes inside a chunk. *)
Lemma byte_steps_data k data out d :
  state_ d = Data → 0 < k → k <= length data → (Z.of_nat k <= remaining_ d)%Z →
  byte_steps data out d =
  byte_steps (drop k data) (out ++ take k data)
    (let r := (remaining_ d - Z.of_nat k)%Z in
     let d := d <| remaining_ := r |> in if r =b 0 then d <| state_ := DataCr |> else d).
Proof.
  revert data out d. induction k as [|k IH]; intros data out d Hd H0 Hk Hr; [lia|].
  destruct data as [|c data]; [cbn in Hk; lia|]. cbn [byte_steps]. unfold byte_step. rewrite Hd. cbn [drop take] in *.
  destruct (decide (k = 0)) as [->|Hk0].
  - rewrite drop_0, take_0. cbn zeta. by replace (Z.of_nat 1) with 1%Z by lia.
  - rewrite (proj2 (Z.eqb_neq (remaining_ d - 1) 0)) by lia. rewrite IH; cbn in *; [|done|lia|lia|lia].
    rewrite <- app_assoc. cbn [app]. by replace (remaining_ d - 1 - Z.of_nat k)%Z with (remaining_ d - Z.of_nat (S k))%Z by lia.
Qed.

Lemma feed_loop_steps fuel data out d :
  sound d → length data <= fuel → feed_loop fuel data out d = byte_steps data out d.
Proof.
  revert data out d. induction fuel as [|fuel IH]; intros data out d Hs Hf; [by destruct data; [|cbn in Hf; lia]|].
  destruct data as [|c rest]; [done|]. cbn [length] in Hf.
  assert (∀ d', byte_step c d = (d', []) → feed_loop fuel rest out d' = byte_steps (c :: rest) out d) as Hone.
  { intros d' E. cbn [byte_steps]. rewrite E, app_nil_r. apply IH; [|lia].
    pose proof (byte_step_sound c d Hs) as Hd. by rewrite E in Hd. }
  cbn [feed_loop]. destruct (state_ d) eqn:E.
  - destruct (c =b 13) eqn:Ec; apply Hone; unfold byte_step; by rewrite E, Ec.
  - apply Hone. unfold byte_step. by rewrite E.
  - destruct Hs as [Hr Hpos]. specialize (Hpos E). set (count := Nat.min (Z.to_nat (remaining_ d)) (length (c :: rest))).
    assert (0 < count) by (unfold count; cbn; lia). assert (count <= length (c :: rest)) by lia.
    assert (Z.of_nat count <= remaining_ d)%Z by lia.
    rewrite (byte_steps_data count (c :: rest) out d) by done. apply IH; [|rewrite length_drop; cbn in *; lia].
    cbn zeta. destruct (_ =b 0) eqn:E0; split; cbn; [lia|done|lia|]. apply Z.eqb_neq in E0. lia.
  - apply Hone. unfold byte_step. by rewrite E.
  - apply Hone. unfold byte_step. by rewrite E.
  - destruct (c =b 10) eqn:Ec; apply Hone; unfold byte_step; by rewrite E, Ec.
  - by rewrite byte_steps_done.
Qed.

Lemma decoder_feed_steps data d : sound d → decoder_feed data d = byte_steps data [] d.
Proof. intros H. by apply feed_loop_steps. Qed.

Lemma decoder_feed_app a b d :
  sound d →
  decoder_feed (a ++ b) d =
  let '(d1, o1) := decoder_feed a d in let '(d2, o2) := decoder_feed b d1 in (d2, o1 ++ o2).
Proof.
  intros H. rewrite !decoder_feed_steps, byte_steps_app by done. pose proof (byte_steps_sound a [] d H) as Hs.
  destruct (byte_steps a [] d) as [d1 o1]. rewrite decoder_feed_steps by done. by rewrite byte_steps_out.
Qed.

Lemma decoder_feed_sound data d : sound d → sound (decoder_feed data d).1.
Proof. intros H. rewrite decoder_feed_steps by done. by apply byte_steps_sound. Qed.

Lemma make_decoder_sound : sound make_decoder.
Proof. done. Qed.

(** ** Round trip with the writer of the server *)

Lemma add_digit_hex r v : (0 <= v < 16)%Z → add_digit r (hex_digit v) = uwrap 64 (r * 16 + v).
Proof.
  intros Hv. unfold add_digit, hex_digit, to_lower, is_upper. eval_ch. destruct (Z.ltb_spec v 10); repeat case_bool; try lia; f_equal; lia.
Qed.

Lemma fold_add_digit ds r :
  Forall (λ d, 0 <= d < 16)%Z ds → (0 <= r)%Z →
  fold_left add_digit (map hex_digit ds) (uwrap 64 r) = uwrap 64 (fold_left (λ a d, a * 16 + d)%Z ds r).
Proof.
  intros H. revert r. induction H as [|d ds Hd _ IH]; intros r Hr; cbn [map fold_left]; [done|].
  rewrite add_digit_hex by done. rewrite <- IH by lia. f_equal. unfold uwrap.
  rewrite <- (Z.add_mod_idemp_l (r mod 2 ^ 64 * 16)), Z.mul_mod_idemp_l, Z.add_mod_idemp_l by lia. done.
Qed.

Lemma size_of_hex n : (0 <= n < 2 ^ 64)%Z → size_of_line (to_hex n) = n ∧ Forall (λ c, c ≠ 13%Z) (to_hex n).
Proof.
  intros Hn. destruct (to_hex_spec n Hn) as (ds & E & _ & Hds & Hv). split.
  - assert (find_sub (str ";") (to_hex n) = None) as Hs.
    { apply find_sub_absent. rewrite E. apply Forall_map. eapply Forall_impl; [exact Hds|]. intros x Hx. cbn in Hx |- *.
      unfold hex_digit. eval_ch. destruct (Z.ltb_spec x 10); lia. }
    unfold size_of_line. rewrite Hs, E. change 0%Z with (uwrap 64 0). rewrite fold_add_digit by done.
    change (fold_left _ ds 0%Z) with (be_value 16 ds). rewrite Hv. unfold uwrap. by apply Z.mod_small.
  - rewrite E. apply Forall_map. eapply Forall_impl; [exact Hds|]. intros x Hx. cbn in Hx |- *.
    unfold hex_digit. eval_ch. destruct (Z.ltb_spec x 10); lia.
Qed.

Lemma byte_steps_size line out :
  Forall (λ c, c ≠ 13%Z) line → ∀ acc,
  byte_steps line out {| state_ := Size; size_line_ := acc; remaining_ := 0 |} =
  ({| state_ := Size; size_line_ := acc ++ line; remaining_ := 0 |}, out).
Proof.
  induction 1 as [|c line Hc _ IH]; intros acc; cbn [byte_steps]; [by rewrite app_nil_r|].
  unfold byte_step. cbn [state_]. rewrite (proj2 (Z.eqb_neq c 13)) by done. cbn [size_line_].
  rewrite app_nil_r. etransitivity; [apply (IH (acc ++ [c]))|]. by rewrite <- app_assoc.
Qed.

Lemma byte_steps_header line out n :
  Forall (λ c, c ≠ 13%Z) line → size_of_line line = n →
  byte_steps (line ++ crlf) out make_decoder =
  ({| state_ := if n =b 0 then TrailerCr else Data; size_line_ := []; remaining_ := n |}, out).
Proof.
  intros Hl Hn. rewrite byte_steps_app. unfold make_decoder. rewrite byte_steps_size by done.
  rewrite <- Hn. unfold crlf. cbn. by rewrite !app_nil_r.
Qed.

Lemma byte_steps_write d out :
  (Z.of_nat (length d) < 2 ^ 64)%Z → byte_steps (write d) out make_decoder = (make_decoder, out ++ d).
Proof.
  intros Hd. unfold write. destruct d as [|c d]; [by rewrite app_nil_r|]. set (data := c :: d) in *.
  destruct (size_of_hex (Z.of_nat (length data))) as [Hs Hcr]; [lia|]. assert (0 < length data) by (cbn; lia).
  rewrite app_assoc, byte_steps_app, (byte_steps_header _ _ _ Hcr Hs). rewrite (proj2 (Z.eqb_neq _ 0)) by lia.
  rewrite (byte_steps_data (length data)); cbn [remaining_ state_]; [|done|lia|rewrite length_app; lia|lia].
  rewrite drop_app_length, take_app_length. cbn zeta. rewrite Z.sub_diag. cbn. by rewrite !app_nil_r.
Qed.

Lemma decoder_feed_written ds rest :
  Forall (λ d : bytes, (Z.of_nat (length d) < 2 ^ 64)%Z) ds →
  ∃ d, decoder_feed (concat (map write ds) ++ finish ++ rest) make_decoder = (d, concat ds) ∧ finished d = true.
Proof.
  intros H. rewrite decoder_feed_steps by done. rewrite byte_steps_app.
  assert (∀ out, byte_steps (concat (map write ds)) out make_decoder = (make_decoder, out ++ concat ds)) as ->.
  { induction H as [|d ds Hd _ IH]; intros out; cbn [map concat]; [by rewrite app_nil_r|].
    rewrite byte_steps_app, byte_steps_write by done. rewrite IH. by rewrite <- app_assoc. }
  rewrite byte_steps_app. unfold finish. rewrite (app_assoc (str "0")), byte_steps_app, (byte_steps_header (str "0") _ 0%Z) by (try (apply Forall_cons; split; [done|apply Forall_nil_2]); done).
  unfold crlf. cbn. rewrite !app_nil_r. rewrite byte_steps_done by done. eexists. split; [done|]. done.
Qed.

(** * The parser byte by byte *)

Section parser.
Context {Double : Type} (minus_one : Double) (json_parse : bytes → outcome (Value Double)).

Notation line_of := (take_line minus_one json_parse).
Notation feed := (parser_feed minus_one json_parse).
Notation loop := (lines_loop minus_one json_parse).

Definition char_step (c : Z) (p : SseDeltaParser) : SseDeltaParser * list (Event (Double := Double)) :=
  if c =b 10 then
    let '(event_data, new) := line_of (buffer_ p) (event_data_ p) in
    ({| buffer_ := []; event_data_ := event_data |}, new)
  else ({| buffer_ := buffer_ p ++ [c]; event_data_ := event_data_ p |}, []).

Fixpoint char_steps (data : bytes) (p : SseDeltaParser) : SseDeltaParser * list (Event (Double := Double)) :=
  match data with
  | [] => (p, [])
  | c :: data =>
      let '(p, new) := char_step c p in
      let '(p, events) := char_steps data p in (p, new ++ events)
  end.

Lemma char_steps_app a b p :
  char_steps (a ++ b) p =
  let '(p1, e1) := char_steps a p in let '(p2, e2) := char_steps b p1 in (p2, e1 ++ e2).
Proof.
  revert p. induction a as [|c a IH]; intros p; cbn [app char_steps].
  - by destruct (char_steps b p).
  - destruct (char_step c p) as [p1 e1]. rewrite IH. destruct (char_steps a p1) as [p2 e2].
    destruct (char_steps b p2) as [p3 e3]. by rewrite app_assoc.
Qed.

Definition whole_line (line : bytes) : Prop := Forall (λ c, c ≠ 10%Z) line.

Lemma char_steps_line line p :
  whole_line line → char_steps line p = ({| buffer_ := buffer_ p ++ line; event_data_ := event_data_ p |}, []).
Proof.
  intros H. revert p. induction H as [|c line Hc _ IH]; intros p; cbn [char_steps]; [rewrite app_nil_r; by destruct p|].
  unfold char_step. rewrite (proj2 (Z.eqb_neq c 10)) by done. rewrite IH. cbn. by rewrite <- app_assoc.
Qed.

Lemma find_newline_None s : find_sub [10%Z] s = None → whole_line s.
Proof.
  intros H. apply Forall_lookup_2. intros i c Hc ->. pose proof (find_sub_None _ _ H i) as Hp.
  apply lookup_lt_Some in Hc as Hi. rewrite (drop_S s _ i Hc) in Hp. done.
Qed.

Lemma find_newline_Some s i : find_sub [10%Z] s = Some i → whole_line (take i s) ∧ s = take i s ++ 10%Z :: drop (i + 1) s.
Proof.
  intros H. split; [|by apply (find_sub_split _ _ _ H)]. apply find_sub_Some in H as [_ Hn].
  apply Forall_lookup_2. intros j c Hc ->. apply lookup_take_Some in Hc as [Hc Hj]. specialize (Hn j Hj).
  by rewrite (drop_S s _ j Hc) in Hn.
Qed.

Lemma find_newline_line s : whole_line s → find_sub [10%Z] s = None.
Proof. apply find_sub_absent. Qed.

Lemma lines_loop_steps fuel buffer event_data events :
  length buffer < fuel →
  loop fuel buffer event_data events =
  let '(p, new) := char_steps buffer {| buffer_ := []; event_data_ := event_data |} in (p, events ++ new).
Proof.
  revert buffer event_data events. induction fuel as [|fuel IH]; intros buffer event_data events Hf; [lia|].
  cbn [lines_loop]. destruct (find_sub [10%Z] buffer) as [i|] eqn:E.
  - destruct (find_newline_Some _ _ E) as [Hl Hs]. set (line := take i buffer) in *. set (rest := drop (i + 1) buffer) in *.
    rewrite Hs, char_steps_app, char_steps_line by done. cbn [char_steps buffer_ event_data_ app]. unfold char_step. cbn [buffer_ event_data_].
    change (10 =b 10) with true. cbn iota. destruct (line_of line event_data) as [ed new].
    rewrite IH by (apply (f_equal length) in Hs; rewrite length_app in Hs; cbn in Hs; lia).
    destruct (char_steps rest _) as [p e]. by rewrite <- app_assoc.
  - rewrite char_steps_line by (by apply find_newline_None). by rewrite app_nil_r.
Qed.

(** Between two feeds the buffer holds the start of one line. *)
Definition settled (p : SseDeltaParser) : Prop := whole_line (buffer_ p).

Lemma char_step_settled c p : settled p → settled (char_step c p).1.
Proof.
  unfold settled, char_step, whole_line. intros H. destruct (c =b 10) eqn:E.
  - destruct (line_of _ _). apply Forall_nil_2.
  - apply Z.eqb_neq in E. cbn. apply Forall_app_2; [done|]. by apply Forall_singleton.
Qed.

Lemma char_steps_settled data p : settled p → settled (char_steps data p).1.
Proof.
  revert p. induction data as [|c data IH]; intros p H; cbn [char_steps]; [done|].
  pose proof (char_step_settled c p H) as Hs. destruct (char_step c p) as [p1 e1]. specialize (IH p1 Hs).
  by destruct (char_steps data p1).
Qed.

Lemma parser_feed_steps data p : settled p → feed data p = char_steps data p.
Proof.
  intros H. unfold parser_feed. rewrite lines_loop_steps by lia.
  rewrite char_steps_app, char_steps_line by done. cbn [buffer_ event_data_ app].
  replace {| buffer_ := buffer_ p; event_data_ := event_data_ p |} with p by (by destruct p). by destruct (char_steps data p).
Qed.

Lemma parser_feed_app a b p :
  settled p →
  feed (a ++ b) p = let '(p1, e1) := feed a p in let '(p2, e2) := feed b p1 in (p2, e1 ++ e2).
Proof.
  intros H. rewrite !parser_feed_steps, char_steps_app by done. pose proof (char_steps_settled a p H) as Hs.
  destruct (char_steps a p) as [p1 e1]. by rewrite parser_feed_steps.
Qed.

Lemma parser_feed_settled data p : settled p → settled (feed data p).1.
Proof. intros H. rewrite parser_feed_steps by done. by apply char_steps_settled. Qed.

(** The event a server sends for a payload. *)
Definition sse_frame (payload : bytes) : bytes := str "data: " ++ payload ++ [10; 10]%Z.

Definition one_line (payload : bytes) : Prop := payload ≠ [] ∧ whole_line payload ∧ last payload ≠ Some 13%Z.

Lemma parser_feed_frames payloads :
  Forall one_line payloads →
  feed (concat (map sse_frame payloads)) make_parser = (make_parser, map (parse_payload minus_one json_parse) payloads).
Proof.
  intros H. rewrite parser_feed_steps by apply Forall_nil_2. induction H as [|payload payloads (Hne & Hl & Hcr) _ IH]; [done|].
  cbn [map concat]. rewrite char_steps_app. unfold sse_frame at 1. rewrite app_assoc, char_steps_app.
  assert (whole_line (str "data: " ++ payload)) as Hw by (apply Forall_app_2; [repeat (apply Forall_cons; split; [done|]); apply Forall_nil_2|done]).
  rewrite char_steps_line by done. cbn [char_steps buffer_ event_data_ make_parser app]. unfold char_step. change (10 =b 10) with true. cbn [buffer_ event_data_].
  assert (line_of (str "data: " ++ payload) [] = (payload, [])) as ->.
  { unfold take_line. assert (drop_cr (str "data: " ++ payload) = str "data: " ++ payload) as ->.
    { unfold drop_cr. rewrite last_app. destruct (last payload) as [c|] eqn:El; [|by apply last_None in El].
      destruct (c =b 13) eqn:Ec; [|done]. apply Z.eqb_eq in Ec. subst c. done. }
    done. }
  cbn [take_line]. unfold take_line. cbn. destruct payload as [|c payload]; [done|]. change {| buffer_ := []; event_data_ := [] |} with make_parser. by rewrite IH.
Qed.

End parser.

(** * One request, however the response is sliced *)

Section chat.
Context {Double : Type} (minus_one : Double) (nonnegative : Double → bool) (json_parse : bytes → outcome (Value Double)).
Context {T : Type} (on_delta : bytes → T → bool * T).

Notation feed := (parser_feed minus_one json_parse).
Notation events_of := (consume_events nonnegative on_delta).
Notation consume_ := (consume minus_one nonnegative json_parse on_delta).
Notation read_ := (read_loop minus_one nonnegative json_parse on_delta).
Notation receive_ := (receive_chat minus_one nonnegative json_parse on_delta).

Lemma consume_events_app a b r t :
  events_of (a ++ b) r t =
  let '(k, r1, t1) := events_of a r t in if (k : bool) then events_of b r1 t1 else (false, r1, t1).
Proof.
  revert r t. induction a as [|e a IH]; intros r t; cbn [app consume_events]; [done|].
  destruct (event_error e); [|done]. destruct (done e); [done|]. destruct (delta e); [apply IH|].
  destruct (on_delta _ t) as [[|] t1]; [apply IH|done].
Qed.

(** The result and the callback's state after the bytes of a body. *)
Definition body_result (chunked : bool) (data : bytes) (d : ChunkedBodyDecoder) (p : SseDeltaParser) (r : ChatResult) (t : T) :=
  let '(_, _, _, r, t) := consume_ chunked data d p r t in (r, t).

Lemma feed_nothing p : settled p → feed [] p = (p, []).
Proof. intros H. by rewrite parser_feed_steps. Qed.

Lemma feed_done data d : sound d → finished d = true → decoder_feed data d = (d, []).
Proof. intros Hs Hf%bool_decide_eq_true. rewrite decoder_feed_steps by done. by apply byte_steps_done. Qed.

(** A body consumed in two parts. *)
Lemma body_result_app chunked a b d p r t :
  sound d → settled p →
  let '(k, d1, p1, r1, t1) := consume_ chunked a d p r t in
  sound d1 ∧ settled p1 ∧
  body_result chunked (a ++ b) d p r t = if k then body_result chunked b d1 p1 r1 t1 else (r1, t1).
Proof.
  intros Hd Hp. unfold body_result, consume. destruct chunked.
  - rewrite decoder_feed_app by done. pose proof (decoder_feed_sound a d Hd) as Hd1.
    destruct (decoder_feed a d) as [d1 pa] eqn:Ea. cbn [fst] in Hd1.
    destruct (decoder_feed b d1) as [d2 pb] eqn:Eb. rewrite parser_feed_app by done.
    pose proof (parser_feed_settled minus_one json_parse pa p Hp) as Hp1. destruct (feed pa p) as [p1 ea] eqn:Epa. cbn [fst] in Hp1.
    destruct (feed pb p1) as [p2 eb] eqn:Epb. rewrite consume_events_app. destruct (events_of ea r t) as [[k r1] t1] eqn:Ee.
    split; [done|]. split; [done|]. destruct k; [|done]. cbn [andb].
    destruct (finished d1) eqn:Ef; cbn [negb].
    + rewrite feed_done in Eb by done. injection Eb as <- <-. rewrite feed_nothing in Epb by done. by injection Epb as <- <-.
    + rewrite Eb, Epb. by destruct (events_of eb r1 t1) as [[k2 r2] t2].
  - rewrite parser_feed_app by done.
    pose proof (parser_feed_settled minus_one json_parse a p Hp) as Hp1. destruct (feed a p) as [p1 ea] eqn:Epa. cbn [fst] in Hp1.
    destruct (feed b p1) as [p2 eb] eqn:Epb. rewrite consume_events_app. destruct (events_of ea r t) as [[k r1] t1] eqn:Ee.
    split; [done|]. split; [done|]. destruct k; [|done]. cbn [andb negb].
    rewrite Epb. by destruct (events_of eb r1 t1) as [[k2 r2] t2].
Qed.

Lemma body_result_nil chunked d p r t : settled p → body_result chunked [] d p r t = (r, t).
Proof.
  intros Hp. unfold body_result, consume. destruct chunked.
  - change (decoder_feed [] d) with (d, @nil Z). cbn iota beta. by rewrite feed_nothing.
  - by rewrite feed_nothing.
Qed.

Definition blocks (net : list bytes) : Prop := Forall (λ b : bytes, b ≠ []) net.

Lemma read_loop_whole chunked net d p r t :
  sound d → settled p → blocks net → read_ chunked true net d p r t = body_result chunked (concat net) d p r t.
Proof.
  intros Hd Hp Hn. revert d p r t Hd Hp. induction Hn as [|b net Hb _ IH]; intros d p r t Hd Hp; [by rewrite body_result_nil|].
  destruct b as [|c b]; [done|]. cbn [read_loop concat].
  pose proof (body_result_app chunked (c :: b) (concat net) d p r t Hd Hp) as H.
  destruct (consume_ chunked (c :: b) d p r t) as [[[[k d1] p1] r1] t1]. destruct H as (Hd1 & Hp1 & ->).
  destruct k; [by apply IH|by destruct net].
Qed.

(** ** The reference: the whole response at once *)

Definition is_chunked_response (headers : bytes) : bool :=
  match find_sub (str "transfer-encoding: chunked") (lower_ascii headers) with Some _ => true | None => false end.

Definition status_of_headers (headers : bytes) : Z :=
  if 12 <? length headers then atoi (drop 9 headers) else 0%Z.

Definition chat_reference (response : bytes) (t : T) : ChatResult * T :=
  match find_sub blank_line response with
  | None => (failed minus_one (str "the LLM server closed the connection before responding"), t)
  | Some header_end =>
      let headers := take header_end response in
      let body := drop (header_end + 4) response in
      if bool_decide (status_of_headers headers = 200%Z) then
        let '(result, t) := body_result (is_chunked_response headers) body make_decoder make_parser (make_result minus_one) t in
        (settle result, t)
      else (failed minus_one (status_error (status_of_headers headers) body), t)
  end.

Lemma read_headers_found net headers h n :
  blocks net → Forall (λ b, length b <= n) net → find_sub blank_line (headers ++ concat net) = Some h →
  h + 4 + n <= kMaxHeader → length headers <= h + 4 + n →
  ∃ headers' net', read_headers net headers = inr (headers', net') ∧ blocks net' ∧
    headers' ++ concat net' = headers ++ concat net ∧ find_sub blank_line headers' = Some h.
Proof.
  intros Hn. revert headers. induction Hn as [|b net Hb Hn IH]; intros headers Hle Hf Hmax Hlen; cbn [read_headers].
  - cbn [concat] in *. rewrite app_nil_r in *. rewrite Hf. exists headers, []. split_and!; [done|by apply Forall_nil_2|by rewrite app_nil_r|done].
  - destruct (find_sub blank_line headers) as [h'|] eqn:E.
    + exists headers, (b :: net). rewrite (find_sub_app _ _ (concat (b :: net)) _ E) in Hf. injection Hf as ->.
      split_and!; [done|by apply Forall_cons|done|done].
    + apply Forall_cons in Hle as [Hl Hle]. destruct b as [|c b]; [done|]. cbn [concat] in *. rewrite app_assoc in Hf |- *.
      assert (length headers <= h + 3) as Hshort.
      { destruct (decide (length headers <= h + 3)); [done|]. exfalso.
        apply find_sub_take in Hf. rewrite <- app_assoc, take_app_le in Hf by (cbn; lia).
        apply (find_sub_app _ _ (drop (h + length blank_line) headers)) in Hf. rewrite take_drop in Hf. congruence. }
      rewrite (proj2 (Nat.ltb_ge _ _)) by (rewrite length_app; lia).
      apply IH; [done|done|done|rewrite length_app; lia].
Qed.

Lemma find_sub_prefix_None n s t : find_sub n (s ++ t) = None → find_sub n s = None.
Proof. destruct (find_sub n s) as [i|] eqn:E; [|done]. by rewrite (find_sub_app _ _ t _ E). Qed.

Lemma read_headers_none net headers :
  blocks net → find_sub blank_line (headers ++ concat net) = None → length (headers ++ concat net) <= kMaxHeader →
  read_headers net headers = inl (str "the LLM server closed the connection before responding").
Proof.
  intros Hn. revert headers. induction Hn as [|b net Hb Hn IH]; intros headers Hf Hmax; cbn [read_headers];
    rewrite (find_sub_prefix_None _ _ _ Hf); [done|].
  destruct b as [|c b]; [done|]. cbn [concat] in *. rewrite app_assoc in *.
  rewrite (proj2 (Nat.ltb_ge _ _)); [by apply IH|]. rewrite length_app in Hmax. lia.
Qed.

Lemma collect_prefix limit net body :
  blocks net → ∃ rest, body ++ concat net = collect limit net body ++ rest ∧ (rest = [] ∨ limit <= length (collect limit net body)).
Proof.
  intros Hn. revert body. induction Hn as [|b net Hb Hn IH]; intros body; cbn [collect]; destruct (Nat.ltb_spec (length body) limit).
  1, 2: exists []; rewrite !app_nil_r; split; [done|by left].
  - destruct b as [|c b]; [done|]. destruct (IH (body ++ c :: b)) as (rest & E & H'). exists rest. cbn [concat]. by rewrite app_assoc.
  - exists (concat (b :: net)). split; [done|by right].
Qed.

Lemma status_error_collect status net body :
  blocks net → status_error status (collect 4096 net body) = status_error status (body ++ concat net).
Proof.
  intros Hn. destruct (collect_prefix 4096 net body Hn) as (rest & -> & [->|Hl]); [by rewrite app_nil_r|].
  unfold status_error. f_equal. f_equal. destruct (collect 4096 net body) as [|c s] eqn:E; [cbn in Hl; lia|].
  cbn [app]. f_equal. by rewrite app_comm_cons, take_app_le by lia.
Qed.

Lemma chat_reference_equiv net t :
  blocks net → Forall (λ b, length b <= 16384) net →
  match find_sub blank_line (concat net) with
  | Some header_end => header_end + 4 + 16384 <= kMaxHeader
  | None => length (concat net) <= kMaxHeader
  end →
  receive_ net t = chat_reference (concat net) t.
Proof.
  intros Hn Hle Hmax. unfold receive_chat, chat_reference.
  destruct (find_sub blank_line (concat net)) as [h|] eqn:E; [|by rewrite read_headers_none].
  destruct (read_headers_found net [] h 16384 Hn Hle E Hmax) as (headers & net' & -> & Hn' & Hcat & Ef); [cbn; lia|].
  cbn [app] in Hcat. rewrite Ef. cbn [default from_option]. unfold id.
  pose proof (find_sub_le _ _ _ Ef) as Hlen. change (length blank_line) with 4 in Hlen.
  rewrite <- Hcat, take_app_le, drop_app_le by lia.
  fold (status_of_headers (take h headers)). fold (is_chunked_response (take h headers)).
  case_bool_decide as Es; [|by rewrite status_error_collect].
  pose proof (body_result_app (is_chunked_response (take h headers)) (drop (h + 4) headers) (concat net') make_decoder make_parser
    (make_result minus_one) t make_decoder_sound (Forall_nil_2 _)) as H.
  destruct (consume_ _ _ _ _ _ t) as [[[[k d1] p1] r1] t1]. destruct H as (Hd1 & Hp1 & ->).
  destruct k; [by rewrite read_loop_whole|by destruct net'].
Qed.

(** C4. The outcome of a chat request does not depend on how the network slices
    the response: for any non-empty blocks of at most [16384] bytes, the result and
    the calls of the callback are those of the reference that sees the whole
    response at once, unless the head comes close to its limit of 64 KiB. *)
Theorem chat_unsliced net t :
  blocks net → Forall (λ b, length b <= 16384) net →
  match find_sub blank_line (concat net) with
  | Some header_end => header_end + 4 + 16384 <= kMaxHeader
  | None => length (concat net) <= kMaxHeader
  end →
  receive_ net t = chat_reference (concat net) t.
Proof. apply chat_reference_equiv. Qed.

(** C3. From the wire to the callback: a [200] response whose body the server
    writes as chunks, cut anywhere, of one event per payload comes to exactly the
    payloads in order - the callback sees their deltas up to the first end, error
    or refusal, however the network slices the bytes. *)
Theorem chat_delivers net t head ds payloads rest :
  blocks net → Forall (λ b, length b <= 16384) net →
  concat net = head ++ blank_line ++ concat (map write ds) ++ finish ++ rest →
  find_sub blank_line (head ++ blank_line) = Some (length head) → length head + 4 + 16384 <= kMaxHeader →
  status_of_headers head = 200%Z → is_chunked_response head = true →
  Forall (λ d : bytes, (Z.of_nat (length d) < 2 ^ 64)%Z) ds →
  concat ds = concat (map sse_frame payloads) → Forall one_line payloads →
  receive_ net t =
  (let '(_, result, t) := events_of (map (parse_payload minus_one json_parse) payloads) (make_result minus_one) t in (settle result, t)).
Proof.
  intros Hn Hle Hcat Hf Hmax Hst Hch Hds Hbody Hp.
  assert (find_sub blank_line (concat net) = Some (length head)) as E by (rewrite Hcat, app_assoc; by apply find_sub_app).
  rewrite chat_reference_equiv by (try done; by rewrite E). unfold chat_reference. rewrite E, Hcat.
  rewrite take_app_length, Hst, Hch. change (bool_decide (200%Z = 200%Z)) with true. cbn iota.
  assert (drop (length head + 4) (head ++ blank_line ++ concat (map write ds) ++ finish ++ rest) = concat (map write ds) ++ finish ++ rest) as ->.
  { rewrite <- drop_drop, drop_app_length. done. }
  unfold body_result, consume. destruct (decoder_feed_written ds rest Hds) as (d & -> & Hfin). rewrite Hbody, parser_feed_frames by done.
  by destruct (events_of _ _ t) as [[k r] t'].
Qed.

End chat.

(** * A concrete client *)

(** The payload is the delta; the callback collects what it is given. *)
Module Collector.

Definition parse (payload : bytes) : outcome (Value Z) :=
  Ok (Object [(str "choices", Array [Object [(str "delta", Object [(str "content", String payload)])]])]).

Definition collect_delta (delta : bytes) (seen : list bytes) : bool * list bytes := (true, seen ++ [delta]).

Notation chat := (receive_chat (-1)%Z (Z.leb 0) parse collect_delta).

Definition head : bytes := str "HTTP/1.1 200 OK" ++ crlf ++ str "Transfer-Encoding: chunked".
Definition chunks : list bytes := [str "data: Hel" ++ [10; 10]%Z ++ str "da"; str "ta: lo" ++ [10]%Z; [10]%Z ++ str "data: [DONE]" ++ [10; 10]%Z].
Definition net : list bytes := [head ++ [13]%Z; [10; 13; 10]%Z ++ concat (map write chunks); finish].

(** A server error with the message [aborted] is taken for the client's own
    abort: the result is not ok and has no error. *)
Lemma aborted_error_hidden :
  let event := no_event (-1)%Z <| event_error := str "aborted" |> in
  settle (consume_events (Z.leb 0) collect_delta [event] (make_result (-1)%Z) []).1.2 = make_result (-1)%Z.
Proof. reflexivity. Qed.

Lemma net_blocks : blocks net ∧ Forall (λ b, length b <= 16384) net.
Proof.
  split; unfold blocks, net; repeat (apply Forall_cons; split; [|]); try apply Forall_nil_2; try done;
    apply Nat.leb_le; by vm_compute.
Qed.

Lemma chat_unsliced_witness :
  blocks net ∧ chat net [] = chat_reference (-1)%Z (Z.leb 0) parse collect_delta (concat net) [].
Proof.
  destruct net_blocks as [Hb Hl]. split; [exact Hb|].
  apply (chat_unsliced (-1)%Z (Z.leb 0) parse collect_delta net [] Hb Hl).
  assert (find_sub blank_line (concat net) = Some 43) as -> by by vm_compute.
  apply Nat.leb_le. by vm_compute.
Defined.

Lemma chat_delivers_witness :
  blocks net ∧
  chat net [] =
  (let '(_, result, t) := consume_events (Z.leb 0) collect_delta (map (parse_payload (-1)%Z parse) [str "Hel"; str "lo"; str "[DONE]"])
     (make_result (-1)%Z) [] in (settle result, t)) ∧
  (chat net []).2 = [str "Hel"; str "lo"].
Proof.
  destruct net_blocks as [Hb Hl]. split; [exact Hb|]. split; [|by vm_compute].
  apply (chat_delivers (-1)%Z (Z.leb 0) parse collect_delta net [] head chunks [str "Hel"; str "lo"; str "[DONE]"] []); try done.
  - apply Nat.leb_le. by vm_compute.
  - unfold chunks. repeat (apply Forall_cons; split; [done|]). apply Forall_nil_2.
  - repeat (apply Forall_cons; split; [split; [done|split; [repeat (apply Forall_cons; split; [done|]); apply Forall_nil_2|done]]|]). apply Forall_nil_2.
Defined.

End Collector.
