(* ===== verification/Session.v ===== *)
(** The session framework (framework/runtime/session.cpp, session.h,
    session_base.cpp): which graph capacity a run uses, requests cut into
    chunks of text, audio put together, and the names of tasks and modes. *)

From stdpp Require Import gmap sorting.
From S2P Require Import Prelude TextChunking.

(** * Names *)

Inductive VoiceTaskKind :=
| Vad | Asr | Diarization | SourceSeparation | AudioGeneration | Tts | VoiceCloning | VoiceConversion
| SpeechToSpeech | Alignment | VoiceDesign | SpeakerRecognition | Svc | Midi.

Definition task_name (task : VoiceTaskKind) : bytes :=
  match task with
  | Vad => str "vad" | Asr => str "asr" | Diarization => str "diar" | SourceSeparation => str "sep"
  | AudioGeneration => str "gen" | Tts => str "tts" | VoiceCloning => str "clon" | VoiceConversion => str "vc"
  | SpeechToSpeech => str "s2s" | Alignment => str "align" | VoiceDesign => str "vdes"
  | SpeakerRecognition => str "spk" | Svc => str "svc" | Midi => str "midi"
  end.

Definition all_tasks : list VoiceTaskKind :=
  [Vad; Asr; Diarization; SourceSeparation; AudioGeneration; Tts; VoiceCloning; VoiceConversion; SpeechToSpeech;
   Alignment; VoiceDesign; SpeakerRecognition; Svc; Midi].

Fixpoint named {A} (name : A → bytes) (l : list A) (value : bytes) : option A :=
  match l with
  | [] => None
  | x :: l => if bool_decide (value = name x) then Some x else named name l value
  end.

Definition parse_voice_task_kind (value : bytes) : outcome VoiceTaskKind :=
  match named task_name all_tasks value with
  | Some task => Ok task
  | None => Throw (str "unsupported task: " ++ value ++ str " (expected vad, asr, diar, sep, gen, tts, clon, vc, s2s, align, vdes, spk, svc, or midi)")
  end.

Inductive RunMode := Offline | Streaming.

Definition run_mode_name (mode : RunMode) : bytes :=
  match mode with Offline => str "offline" | Streaming => str "streaming" end.

Definition parse_run_mode (value : bytes) : outcome RunMode :=
  match named run_mode_name [Offline; Streaming] value with
  | Some mode => Ok mode
  | None => Throw (str "unsupported run mode: " ++ value)
  end.

Inductive GraphCapacityMode := Fixed | Tiered | Grow | Double | Unsupported.

Definition capacity_mode_name (mode : GraphCapacityMode) : bytes :=
  match mode with
  | Fixed => str "fixed" | Tiered => str "tiered" | Grow => str "grow" | Double => str "double"
  | Unsupported => str "unsupported"
  end.

Definition parse_graph_capacity_mode (value : bytes) : outcome GraphCapacityMode :=
  match named capacity_mode_name [Fixed; Tiered; Grow; Double; Unsupported] value with
  | Some mode => Ok mode
  | None => Throw (str "unsupported graph capacity mode: " ++ value)
  end.

Fixpoint resolve_graph_capacity_mode (options : gmap bytes bytes) (default_mode : GraphCapacityMode) (keys : list bytes) :
    outcome GraphCapacityMode :=
  match keys with
  | [] => Ok default_mode
  | key :: keys =>
      match options !! key with
      | None | Some [] => resolve_graph_capacity_mode options default_mode keys
      | Some value => parse_graph_capacity_mode value
      end
  end.

(** * Capacities of prepared graphs *)

(** [std::sort] and [std::unique] with [erase]. *)
Fixpoint unique (l : list Z) : list Z :=
  match l with
  | x :: l' =>
      match l' with
      | y :: _ => if x =b y then unique l' else x :: unique l'
      | [] => [x]
      end
  | [] => []
  end.

Definition sort_unique (l : list Z) : list Z := unique (merge_sort Z.le l).

(** [IGraphCapacityAdapter], over the state [S] of its owner. *)
Record GraphCapacityAdapter (S : Type) := {
  base_capacity : S → Z;
  fixed_capacity : S → Z;
  canonical_capacity_for_request : S → Z → outcome Z;
  prepared_capacities : S → list Z;
  prepare_capacity : Z → io S ();
}.
Arguments base_capacity {_} _ _.
Arguments fixed_capacity {_} _ _.
Arguments canonical_capacity_for_request {_} _ _ _.
Arguments prepared_capacities {_} _ _.
Arguments prepare_capacity {_} _ _ _.

Definition sorted_prepared_capacities {S} (adapter : GraphCapacityAdapter S) (s : S) : list Z :=
  sort_unique (prepared_capacities adapter s).

Fixpoint select_smallest_prepared_fitting_capacity (prepared : list Z) (request_size : Z) : Z :=
  match prepared with
  | [] => 0%Z
  | capacity :: prepared =>
      if (request_size <=? capacity)%Z then capacity else select_smallest_prepared_fitting_capacity prepared request_size
  end.

Definition int64_max : Z := 2 ^ 63 - 1.

Definition checked_double_capacity_request (request_size : Z) : outcome Z :=
  if (request_size <=? 0)%Z then Throw (str "graph capacity request size must be positive")
  else if (int64_max / 2 <? request_size)%Z then Throw (str "graph capacity request size is too large to double")
  else Ok (request_size * 2)%Z.

(** [prepared.empty() ? otherwise : prepared.back()]. *)
Definition back_or (otherwise : Z) (prepared : list Z) : Z := default otherwise (last prepared).

Section controller.
Context {S : Type} (adapter : GraphCapacityAdapter S).

(** The capacity [ensure_prepared] selects. *)
Definition selected_capacity (mode : GraphCapacityMode) (request_size : Z) (s : S) : outcome Z :=
  let prepared := sorted_prepared_capacities adapter s in
  match mode with
  | Fixed =>
      let capacity := fixed_capacity adapter s in
      if (capacity <=? 0)%Z then Throw (str "fixed graph capacity must be positive")
      else if ((0 <? request_size) && (capacity <? request_size))%Z then Throw (str "request exceeds fixed graph capacity")
      else Ok capacity
  | Tiered =>
      if (request_size <=? 0)%Z then Ok (base_capacity adapter s)
      else
        let capacity := select_smallest_prepared_fitting_capacity prepared request_size in
        if capacity =b 0 then canonical_capacity_for_request adapter s request_size else Ok capacity
  | Grow =>
      if (request_size <=? 0)%Z then Ok (back_or (base_capacity adapter s) prepared)
      else
        let capacity := back_or 0 prepared in
        if (capacity <? request_size)%Z then canonical_capacity_for_request adapter s request_size else Ok capacity
  | Double =>
      if (request_size <=? 0)%Z then Ok (back_or (base_capacity adapter s) prepared)
      else
        let capacity := back_or 0 prepared in
        if (capacity <? request_size)%Z then
          doubled ← checked_double_capacity_request request_size;
          canonical_capacity_for_request adapter s doubled
        else Ok capacity
  | Unsupported => Throw (str "graph capacity mode is unsupported")
  end.

Definition ensure_prepared (mode : GraphCapacityMode) (request_size : Z) : io S Z := λ s,
  let prepared := sorted_prepared_capacities adapter s in
  (selected ← io_lift (selected_capacity mode request_size s);
   if (selected <=? 0)%Z then io_lift (Throw (str "graph capacity selection must be positive"))
   else if bool_decide (selected ∈ prepared) then mret selected
   else prepare_capacity adapter selected;; mret selected) s.

Definition select_capacity_for_run (mode : GraphCapacityMode) (request_size : Z) (s : S) : outcome Z :=
  if (request_size <=? 0)%Z then Throw (str "graph capacity request size must be positive")
  else
    let prepared := sorted_prepared_capacities adapter s in
    match mode with
    | Fixed =>
        let capacity := fixed_capacity adapter s in
        if (capacity <=? 0)%Z then Throw (str "fixed graph capacity must be positive")
        else if (capacity <? request_size)%Z then Throw (str "request exceeds fixed graph capacity")
        else Ok capacity
    | Tiered =>
        let capacity := select_smallest_prepared_fitting_capacity prepared request_size in
        if (0 <? capacity)%Z then Ok capacity else canonical_capacity_for_request adapter s request_size
    | Grow =>
        match last prepared with
        | Some back => if (request_size <=? back)%Z then Ok back else canonical_capacity_for_request adapter s request_size
        | None => canonical_capacity_for_request adapter s request_size
        end
    | Double =>
        let canonical := (doubled ← checked_double_capacity_request request_size;
                          canonical_capacity_for_request adapter s doubled) in
        match last prepared with
        | Some back => if (request_size <=? back)%Z then Ok back else canonical
        | None => canonical
        end
    | Unsupported => Throw (str "graph capacity mode is unsupported")
    end.

End controller.

(** [MappedGraphCapacityAdapter]: two constants and three functions of the owner. *)
Definition mapped_adapter {S} (base fixed : Z) (canonical : S → Z → outcome Z) (prepared : S → list Z) (prepare : Z → io S ()) :
    GraphCapacityAdapter S := {|
  base_capacity := λ _, base;
  fixed_capacity := λ _, fixed;
  canonical_capacity_for_request := canonical;
  prepared_capacities := prepared;
  prepare_capacity := prepare;
|}.

(** [std::lower_bound] on a sorted list: the first element not below. *)
Definition lower_bound (l : list Z) (x : Z) : option Z := head (List.filter (λ c, x <=? c)%Z l).

Definition require_smallest_fitting_capacity (capacities : list Z) (request_size : Z) : outcome Z :=
  if (request_size <=? 0)%Z then Throw (str "graph capacity request size must be positive")
  else
    match capacities with
    | [] => Throw (str "graph capacity list must not be empty")
    | _ =>
        match lower_bound capacities request_size with
        | None => Throw (str "request exceeds configured graph capacity")
        | Some capacity => Ok capacity
        end
    end.

(** [DiscreteGraphCapacityAdapter], its constructor included. *)
Definition discrete_adapter {S} (capacities : list Z) (prepared : S → list Z) (prepare : Z → io S ()) :
    outcome (GraphCapacityAdapter S) :=
  let capacities := sort_unique capacities in
  match capacities with
  | [] => Throw (str "discrete graph capacity list must not be empty")
  | front :: _ =>
      if (front <=? 0)%Z then Throw (str "discrete graph capacities must be positive")
      else Ok {|
        base_capacity := λ _, front;
        fixed_capacity := λ _, front;
        canonical_capacity_for_request := λ _, require_smallest_fitting_capacity capacities;
        prepared_capacities := prepared;
        prepare_capacity := λ capacity,
          if bool_decide (capacity ∈ capacities) then prepare capacity
          else io_lift (Throw (str "selected graph capacity is not configured"));
      |}
  end.

(** * Requests *)

Section requests.
(** [float]; voices, artifacts and options are handed on as they are. *)
Context {Float Voice Artifact : Type}.

Record AudioBuffer := { sample_rate : Z; channels : Z; samples : list Float }.

Record Transcript := { text : bytes; language : bytes }.

Record TaskRequest := {
  text_input : option Transcript;
  audio_input : option AudioBuffer;
  voice : option Voice;
  input_artifacts : list Artifact;
  options : gmap bytes bytes;
}.

Definition with_text (request : TaskRequest) (t : Transcript) (chunk : bytes) : TaskRequest := {|
  text_input := Some {| text := chunk; language := language t |};
  audio_input := audio_input request;
  voice := voice request;
  input_artifacts := input_artifacts request;
  options := options request;
|}.

Definition chunk_text_request (request : TaskRequest) (codepoint_budget : Z) (mode : TextChunkMode) : outcome (list TaskRequest) :=
  match text_input request with
  | None => Ok [request]
  | Some t =>
      chunks ← split_text_chunks (text t) codepoint_budget mode;
      match chunks with
      | [] => Ok [request]
      | _ => Ok (map (with_text request t) chunks)
      end
  end.

Definition append_audio_buffer (dst src : AudioBuffer) : outcome AudioBuffer :=
  if ((sample_rate src <=? 0) || (channels src <=? 0))%Z then Throw (str "audio append requires valid source format")
  else
    dst ← (if sample_rate dst =b 0 then
             Ok {| sample_rate := sample_rate src; channels := channels src; samples := samples dst |}
           else if negb (sample_rate dst =b sample_rate src) || negb (channels dst =b channels src) then
             Throw (str "audio append requires matching audio format")
           else Ok dst);
    Ok {| sample_rate := sample_rate dst; channels := channels dst; samples := samples dst ++ samples src |}.

Record AudioPreparationContract := { prep_sample_rate : Z; prep_channels : Z; max_input_samples : Z }.

Record SessionPreparationRequest := {
  prep_audio : option AudioPreparationContract;
  prep_text : option Transcript;
  prep_voice : option Voice;
  prep_options : gmap bytes bytes;
}.

Definition audio_contract (audio : AudioBuffer) : AudioPreparationContract := {|
  prep_sample_rate := sample_rate audio;
  prep_channels := channels audio;
  max_input_samples := Z.of_nat (length (samples audio));
|}.

Definition build_preparation_request (request : TaskRequest) : SessionPreparationRequest := {|
  prep_audio := audio_contract <$> audio_input request;
  prep_text := text_input request;
  prep_voice := voice request;
  prep_options := options request;
|}.

End requests.

Definition require_prepared (prepared : bool) (operation : bytes) : outcome () :=
  if prepared then Ok tt else Throw (str "session prepare() must be called before " ++ operation).

(** * Sorted capacities *)

Lemma unique_elem x l : x ∈ unique l ↔ x ∈ l.
Proof.
  induction l as [|a l IH]; cbn [unique]; [done|]. destruct l as [|b l]; [done|].
  destruct (a =b b) eqn:E; [apply Z.eqb_eq in E as ->|]; rewrite elem_of_cons in *; rewrite IH; rewrite ?elem_of_cons; naive_solver.
Qed.

Lemma unique_sorted l : StronglySorted Z.le l → StronglySorted Z.lt (unique l).
Proof.
  induction 1 as [|a l Hl IH Ha]; cbn [unique]; [constructor|]. destruct l as [|b l]; [by repeat constructor|].
  destruct (a =b b) eqn:E; [done|]. apply Z.eqb_neq in E. constructor; [done|].
  apply Forall_forall. intros x Hx. rewrite unique_elem in Hx. rewrite Forall_forall in Ha. pose proof (Ha b ltac:(left)) as Hab.
  apply elem_of_cons in Hx as [->|Hx]; [lia|]. inversion Hl as [|? ? _ Hb]; subst. rewrite Forall_forall in Hb. specialize (Hb x Hx). lia.
Qed.

Lemma sort_unique_elem x l : x ∈ sort_unique l ↔ x ∈ l.
Proof. unfold sort_unique. rewrite unique_elem. by rewrite (merge_sort_Permutation Z.le l). Qed.

Lemma sort_unique_sorted l : StronglySorted Z.lt (sort_unique l).
Proof. apply unique_sorted, StronglySorted_merge_sort; apply _. Qed.

Lemma lower_bound_Some l n c :
  StronglySorted Z.lt l → lower_bound l n = Some c → c ∈ l ∧ (n <= c)%Z ∧ ∀ x, x ∈ l → (n <= x)%Z → (c <= x)%Z.
Proof.
  unfold lower_bound. induction 1 as [|a l Hl IH Ha]; cbn; [done|]. destruct (Z.leb_spec n a).
  - intros [= <-]. split_and!; [by left|done|]. intros x [->|Hx]%elem_of_cons Hn; [done|]. rewrite Forall_forall in Ha. specialize (Ha x Hx). lia.
  - intros (Hc & Hn & Hm)%IH. split_and!; [by right|done|]. intros x [->|Hx]%elem_of_cons Hnx; [lia|by apply Hm].
Qed.

Lemma lower_bound_None l n : lower_bound l n = None ↔ ∀ x, x ∈ l → (x < n)%Z.
Proof.
  unfold lower_bound. induction l as [|a l IH]; cbn; [split; [intros _ x Hx; by apply elem_of_nil in Hx|done]|].
  destruct (Z.leb_spec n a); cbn.
  - split; [done|]. intros Hx. specialize (Hx a ltac:(left)). lia.
  - rewrite IH. split; [intros Hx x [->|?]%elem_of_cons; auto|]. intros Hx x ?. apply Hx. by right.
Qed.

Lemma select_smallest_lower_bound l n : select_smallest_prepared_fitting_capacity l n = default 0%Z (lower_bound l n).
Proof. unfold lower_bound. induction l as [|a l IH]; cbn; [done|]. by destruct (n <=? a)%Z. Qed.

Lemma last_max l m : StronglySorted Z.lt l → last l = Some m → m ∈ l ∧ ∀ x, x ∈ l → (x <= m)%Z.
Proof.
  intros Hs Hm. apply last_Some in Hm as [l' ->]. split; [apply elem_of_app; right; by left|].
  intros x [Hx|Hx]%elem_of_app; [|apply list_elem_of_singleton in Hx as ->; done].
  pose proof (StronglySorted_app_1_elem_of Z.lt l' [m] x m Hs Hx ltac:(by left)). lia.
Qed.

(** * What an adapter promises *)

Class CapacityLaws {S} (adapter : GraphCapacityAdapter S) := {
  (** A capacity chosen for a request holds it. *)
  canonical_fits s n c : canonical_capacity_for_request adapter s n = Ok c → (n <= c)%Z;
  (** Preparing adds exactly the capacity asked for. *)
  prepare_adds c s s' : prepare_capacity adapter c s = (Ok tt, s') →
    ∀ x, x ∈ prepared_capacities adapter s' ↔ x = c ∨ x ∈ prepared_capacities adapter s;
  (** The constants and the choice stay what they are. *)
  prepare_stable c s r s' : prepare_capacity adapter c s = (r, s') →
    base_capacity adapter s' = base_capacity adapter s ∧ fixed_capacity adapter s' = fixed_capacity adapter s ∧
    ∀ n, canonical_capacity_for_request adapter s' n = canonical_capacity_for_request adapter s n;
}.

Section controller.
Context {S : Type} (adapter : GraphCapacityAdapter S) {laws : CapacityLaws adapter}.

Notation prepared s := (sorted_prepared_capacities adapter s).

Lemma prepared_elem x s : x ∈ prepared s ↔ x ∈ prepared_capacities adapter s.
Proof. apply sort_unique_elem. Qed.

Lemma prepared_sorted s : StronglySorted Z.lt (prepared s).
Proof. apply sort_unique_sorted. Qed.

(** A successful call: the selection, and the one change of state. *)
Lemma ensure_prepared_ok mode n s c s' :
  ensure_prepared adapter mode n s = (Ok c, s') →
  selected_capacity adapter mode n s = Ok c ∧ (0 < c)%Z ∧
  ((c ∈ prepared s ∧ s' = s) ∨ (c ∉ prepared s ∧ prepare_capacity adapter c s = (Ok tt, s'))).
Proof.
  unfold ensure_prepared, mbind, io_bind, io_lift. destruct (selected_capacity adapter mode n s) as [k|]; [|done].
  destruct (Z.leb_spec k 0); [done|]. case_bool_decide as Hk; [intros [= <- <-]; auto|].
  destruct (prepare_capacity adapter k s) as [[[]|] s1] eqn:E; [|done]. intros [= <- <-]. auto.
Qed.

Lemma ensure_prepared_elem mode n s c s' :
  ensure_prepared adapter mode n s = (Ok c, s') → ∀ x, x ∈ prepared s' ↔ x = c ∨ x ∈ prepared s.
Proof.
  intros (_ & _ & [[Hc ->]|[_ Hp]])%ensure_prepared_ok x; [naive_solver|]. rewrite !prepared_elem. by eapply prepare_adds.
Qed.

Lemma ensure_prepared_stable mode n s c s' :
  ensure_prepared adapter mode n s = (Ok c, s') →
  base_capacity adapter s' = base_capacity adapter s ∧ fixed_capacity adapter s' = fixed_capacity adapter s ∧
  ∀ n, canonical_capacity_for_request adapter s' n = canonical_capacity_for_request adapter s n.
Proof. intros (_ & _ & [[_ ->]|[_ Hp]])%ensure_prepared_ok; [done|]. by eapply prepare_stable. Qed.

Lemma back_or_spec otherwise s :
  (prepared s = [] ∧ back_or otherwise (prepared s) = otherwise) ∨
  (last (prepared s) = Some (back_or otherwise (prepared s)) ∧ back_or otherwise (prepared s) ∈ prepared s ∧
   ∀ x, x ∈ prepared s → (x <= back_or otherwise (prepared s))%Z).
Proof.
  unfold back_or. destruct (last (prepared s)) as [m|] eqn:E; cbn; unfold id.
  - right. split; [done|]. by apply last_max; [apply prepared_sorted|].
  - left. by apply last_None in E as ->.
Qed.

(** The largest capacity once [c], larger than all, is prepared as well. *)
Lemma last_prepared s s' c :
  (∀ x, x ∈ prepared s' ↔ x = c ∨ x ∈ prepared s) → (∀ x, x ∈ prepared s → (x <= c)%Z) → last (prepared s') = Some c.
Proof.
  intros Hadd Hmax. destruct (last (prepared s')) as [m|] eqn:E.
  - apply last_max in E as [Hm Hle]; [|apply prepared_sorted]. f_equal.
    pose proof (Hle c (proj2 (Hadd c) (or_introl eq_refl))). apply Hadd in Hm as [->|Hm]; [done|]. specialize (Hmax m Hm). lia.
  - apply last_None in E. exfalso. pose proof (proj2 (Hadd c) (or_introl eq_refl)) as Hc. rewrite E in Hc. by apply elem_of_nil in Hc.
Qed.

Lemma lower_bound_prepared s s' n c :
  (∀ x, x ∈ prepared s' ↔ x = c ∨ x ∈ prepared s) → (n <= c)%Z → (∀ x, x ∈ prepared s → (n <= x)%Z → (c <= x)%Z) →
  lower_bound (prepared s') n = Some c.
Proof.
  intros Hadd Hn Hmin. destruct (lower_bound (prepared s') n) as [k|] eqn:E.
  - apply lower_bound_Some in E as (Hk & Hnk & Hle); [|apply prepared_sorted]. f_equal.
    pose proof (Hle c (proj2 (Hadd c) (or_introl eq_refl)) Hn). apply Hadd in Hk as [->|Hk]; [done|]. specialize (Hmin k Hk Hnk). lia.
  - pose proof (proj1 (lower_bound_None _ _) E c (proj2 (Hadd c) (or_introl eq_refl))). lia.
Qed.

(** What is selected for a request, in terms of the set of prepared capacities. *)
Lemma selected_tiered n s c :
  (0 < n)%Z → selected_capacity adapter Tiered n s = Ok c →
  (n <= c)%Z ∧ ∀ x, x ∈ prepared s → (n <= x)%Z → (c <= x)%Z.
Proof.
  intros Hn. unfold selected_capacity. rewrite (proj2 (Z.leb_gt n 0)), select_smallest_lower_bound by done.
  destruct (lower_bound (prepared s) n) as [k|] eqn:E; cbn; unfold id.
  - apply lower_bound_Some in E as (Hk & Hnk & Hmin); [|apply prepared_sorted].
    rewrite (proj2 (Z.eqb_neq k 0)) by lia. by intros [= <-].
  - intros Hc%canonical_fits. split; [done|]. intros x Hx Hnx. pose proof (proj1 (lower_bound_None _ _) E x Hx). lia.
Qed.

Lemma selected_grow mode n s c :
  mode = Grow ∨ mode = Double → (0 < n)%Z → selected_capacity adapter mode n s = Ok c →
  (n <= c)%Z ∧ ∀ x, x ∈ prepared s → (x <= c)%Z.
Proof.
  intros Hmode Hn H. assert (∀ d, canonical_capacity_for_request adapter s d = Ok c → (n <= d)%Z →
    (back_or 0 (prepared s) < n)%Z → (n <= c)%Z ∧ ∀ x, x ∈ prepared s → (x <= c)%Z) as Hcan.
  { intros d Hc%canonical_fits Hd Hb. split; [lia|]. intros x Hx.
    destruct (back_or_spec 0 s) as [[E _]|(_ & _ & Hmax)]; [rewrite E in Hx; by apply elem_of_nil in Hx|]. specialize (Hmax x Hx). lia. }
  assert (Ok (back_or 0 (prepared s)) = Ok c → (n <= back_or 0 (prepared s))%Z →
    (n <= c)%Z ∧ ∀ x, x ∈ prepared s → (x <= c)%Z) as Hback.
  { intros [= <-] Hb. split; [done|]. destruct (back_or_spec 0 s) as [[E _]|(_ & _ & Hmax)]; [intros x Hx; rewrite E in Hx; by apply elem_of_nil in Hx|done]. }
  destruct Hmode as [-> | ->]; unfold selected_capacity in H; rewrite (proj2 (Z.leb_gt n 0)) in H by done;
    destruct (Z.ltb_spec (back_or 0 (prepared s)) n); try by apply Hback.
  - by apply (Hcan n).
  - apply outcome_bind_ok in H as (d & Hd & H). apply (Hcan d); [done| |done].
    unfold checked_double_capacity_request in Hd. repeat case_bool; try done. injection Hd as <-. lia.
Qed.

Lemma selected_fixed n s c :
  selected_capacity adapter Fixed n s = Ok c → c = fixed_capacity adapter s ∧ (0 < c)%Z ∧ (0 < n → n <= c)%Z.
Proof.
  unfold selected_capacity. destruct (Z.leb_spec (fixed_capacity adapter s) 0); [done|].
  destruct (Z.ltb_spec 0 n), (Z.ltb_spec (fixed_capacity adapter s) n); cbn; try done; intros [= <-]; split_and!; lia.
Qed.

(** The selection for a non-positive request: the fixed, the base or the
    largest prepared capacity. *)
Lemma selected_default mode n s c :
  (n <= 0)%Z → selected_capacity adapter mode n s = Ok c →
  (mode = Fixed ∧ c = fixed_capacity adapter s ∧ (0 < c)%Z) ∨ (mode = Tiered ∧ c = base_capacity adapter s) ∨
  ((mode = Grow ∨ mode = Double) ∧ c = back_or (base_capacity adapter s) (prepared s)).
Proof.
  intros Hn H. destruct mode; [left; apply selected_fixed in H as (-> & ? & _); done|..|done]; right;
    unfold selected_capacity in H; rewrite (proj2 (Z.leb_le n 0)) in H by done; injection H as <-; auto.
Qed.

Lemma select_again_tiered n s c :
  (0 < n <= c)%Z → lower_bound (prepared s) n = Some c → select_smallest_prepared_fitting_capacity (prepared s) n = c.
Proof. intros _ E. by rewrite select_smallest_lower_bound, E. Qed.

Lemma selected_again mode n s c s' :
  ensure_prepared adapter mode n s = (Ok c, s') → selected_capacity adapter mode n s' = Ok c.
Proof.
  intros H. pose proof (ensure_prepared_elem _ _ _ _ _ H) as Hadd. pose proof (ensure_prepared_stable _ _ _ _ _ H) as (Hbase & Hfix & _).
  apply ensure_prepared_ok in H as (Hsel & Hpos & _). destruct (Z.leb_spec n 0) as [Hn|Hn].
  - destruct (selected_default _ _ _ _ Hn Hsel) as [(-> & Hc & Hpos')|[(-> & Hc)|(Hmode & Hc)]].
    + unfold selected_capacity. rewrite Hfix, <- Hc, (proj2 (Z.leb_gt c 0)) by done.
      rewrite (proj2 (Z.ltb_ge 0 n)) by done. done.
    + unfold selected_capacity. by rewrite (proj2 (Z.leb_le n 0)), Hbase, <- Hc.
    + assert (last (prepared s') = Some c) as Hlast.
      { apply (last_prepared s); [done|]. destruct (back_or_spec (base_capacity adapter s) s) as [[E _]|(_ & _ & Hmax)];
          [intros x Hx; rewrite E in Hx; by apply elem_of_nil in Hx|by rewrite Hc]. }
      destruct Hmode as [-> | ->]; unfold selected_capacity, back_or; by rewrite (proj2 (Z.leb_le n 0)), Hlast.
  - destruct mode.
    + apply selected_fixed in Hsel as (Hc & _ & Hle). unfold selected_capacity. rewrite Hfix, <- Hc, (proj2 (Z.leb_gt c 0)) by done.
      rewrite (proj2 (Z.ltb_ge c n)) by (by apply Hle). by rewrite andb_false_r.
    + apply selected_tiered in Hsel as [Hle Hmin]; [|done]. pose proof (lower_bound_prepared s s' n c Hadd Hle Hmin) as E.
      unfold selected_capacity. rewrite (proj2 (Z.leb_gt n 0)), (select_again_tiered n s' c) by done. by rewrite (proj2 (Z.eqb_neq c 0)) by lia.
    + apply selected_grow in Hsel as [Hle Hmax]; [|by left|done]. pose proof (last_prepared s s' c Hadd Hmax) as E.
      unfold selected_capacity, back_or. rewrite (proj2 (Z.leb_gt n 0)), E by done. cbn. unfold id. by rewrite (proj2 (Z.ltb_ge c n)).
    + apply selected_grow in Hsel as [Hle Hmax]; [|by right|done]. pose proof (last_prepared s s' c Hadd Hmax) as E.
      unfold selected_capacity, back_or. rewrite (proj2 (Z.leb_gt n 0)), E by done. cbn. unfold id. by rewrite (proj2 (Z.ltb_ge c n)).
    + done.
Qed.

(** A graph is prepared once: after [ensure_prepared] succeeds, the same call
    selects the same capacity and prepares nothing. *)
Theorem prepared_once mode n s c s' :
  ensure_prepared adapter mode n s = (Ok c, s') → ensure_prepared adapter mode n s' = (Ok c, s').
Proof.
  intros H. pose proof (selected_again _ _ _ _ _ H) as E. pose proof (proj2 (ensure_prepared_elem _ _ _ _ _ H c) (or_introl eq_refl)) as Hin.
  apply ensure_prepared_ok in H as (_ & Hpos & _). unfold ensure_prepared, mbind, io_bind, io_lift. rewrite E.
  rewrite (proj2 (Z.leb_gt c 0)) by done. by rewrite bool_decide_eq_true_2.
Qed.

(** C37. What is prepared for a request serves its run: after [ensure_prepared]
    succeeds for a positive size, [select_capacity_for_run] picks the very same
    capacity, which is prepared and holds the request, in every mode. *)
Theorem run_uses_prepared mode n s c s' :
  (0 < n)%Z → ensure_prepared adapter mode n s = (Ok c, s') →
  select_capacity_for_run adapter mode n s' = Ok c ∧ (n <= c)%Z ∧ c ∈ prepared_capacities adapter s'.
Proof.
  intros Hn H. pose proof (ensure_prepared_elem _ _ _ _ _ H) as Hadd. pose proof (ensure_prepared_stable _ _ _ _ _ H) as (_ & Hfix & _).
  assert (c ∈ prepared_capacities adapter s') as Hin by (apply prepared_elem, Hadd; by left).
  apply ensure_prepared_ok in H as (Hsel & Hpos & _). unfold select_capacity_for_run. rewrite (proj2 (Z.leb_gt n 0)) by done.
  destruct mode.
  - apply selected_fixed in Hsel as (Hc & _ & Hle). rewrite Hfix, <- Hc, (proj2 (Z.leb_gt c 0)), (proj2 (Z.ltb_ge c n)) by auto. auto.
  - apply selected_tiered in Hsel as [Hle Hmin]; [|done]. pose proof (lower_bound_prepared s s' n c Hadd Hle Hmin) as E.
    rewrite (select_again_tiered n s' c) by done. by rewrite (proj2 (Z.ltb_lt 0 c)).
  - apply selected_grow in Hsel as [Hle Hmax]; [|by left|done]. rewrite (last_prepared s s' c Hadd Hmax). by rewrite (proj2 (Z.leb_le n c)).
  - apply selected_grow in Hsel as [Hle Hmax]; [|by right|done]. rewrite (last_prepared s s' c Hadd Hmax). by rewrite (proj2 (Z.leb_le n c)).
  - done.
Qed.

End controller.

(** * The adapter of a configured list *)

Section discrete.
Context {S : Type} (prepared : S → list Z) (prepare : Z → io S ()).

(** The owner's functions: preparing adds the capacity it is given. *)
Hypothesis owner_adds : ∀ c s s', prepare c s = (Ok tt, s') → ∀ x, x ∈ prepared s' ↔ x = c ∨ x ∈ prepared s.

Lemma smallest_fitting_ok capacities n c :
  StronglySorted Z.lt capacities → require_smallest_fitting_capacity capacities n = Ok c →
  c ∈ capacities ∧ (n <= c)%Z ∧ ∀ x, x ∈ capacities → (n <= x)%Z → (c <= x)%Z.
Proof.
  intros Hs. unfold require_smallest_fitting_capacity. case_bool; [done|]. destruct capacities as [|a l]; [done|].
  destruct (lower_bound (a :: l) n) as [k|] eqn:El; [|done]. intros [= <-]. by apply lower_bound_Some.
Qed.

Lemma discrete_laws capacities adapter :
  discrete_adapter capacities prepared prepare = Ok adapter → CapacityLaws adapter.
Proof.
  unfold discrete_adapter. pose proof (sort_unique_sorted capacities) as Hs. set (cs := sort_unique capacities) in *. clearbody cs.
  destruct cs as [|front cs]; [done|]. case_bool; [done|]. intros [= <-]. split; cbn.
  - intros s n c Hc. by destruct (smallest_fitting_ok _ _ _ Hs Hc) as (_ & ? & _).
  - intros c s s'. case_bool_decide; [apply owner_adds|done].
  - intros c s r s' _. done.
Qed.

(** The capacity of a configured list for a request is the smallest
    configured one that holds it, and a request is refused exactly when it is not
    positive or none does. *)
Theorem discrete_tightest capacities adapter s n :
  discrete_adapter capacities prepared prepare = Ok adapter →
  match canonical_capacity_for_request adapter s n with
  | Ok c => c ∈ capacities ∧ (0 < n <= c)%Z ∧ ∀ x, x ∈ capacities → (n <= x)%Z → (c <= x)%Z
  | Throw _ => (n <= 0)%Z ∨ ∀ x, x ∈ capacities → (x < n)%Z
  end.
Proof.
  unfold discrete_adapter. pose proof (sort_unique_sorted capacities) as Hs.
  pose proof (λ x, sort_unique_elem x capacities) as Hin. set (cs := sort_unique capacities) in *. clearbody cs.
  destruct cs as [|front cs]; [done|]. case_bool; [done|]. intros [= <-]. cbn [canonical_capacity_for_request].
  destruct (require_smallest_fitting_capacity (front :: cs) n) as [c|] eqn:Er.
  - assert (0 < n)%Z by (unfold require_smallest_fitting_capacity in Er; destruct (Z.leb_spec n 0); [done|lia]).
    apply smallest_fitting_ok in Er as (Hc & Hle & Hmin); [|done]. split_and!; [by apply Hin|done|done|].
    intros x Hx. apply Hmin. by apply Hin.
  - unfold require_smallest_fitting_capacity in Er. destruct (Z.leb_spec n 0); [by left|right].
    destruct (lower_bound (front :: cs) n) eqn:El; [done|]. intros x Hx. apply (proj1 (lower_bound_None _ _) El). by apply Hin.
Qed.

End discrete.

(** * Requests cut into chunks *)

Section requests.
Context {Float Voice Artifact : Type}.

Notation request := (TaskRequest (Float := Float) (Voice := Voice) (Artifact := Artifact)).

(** [r'] is [r] but for its text. *)
Definition same_but_text (r r' : request) : Prop :=
  audio_input r' = audio_input r ∧ voice r' = voice r ∧ input_artifacts r' = input_artifacts r ∧ options r' = options r ∧
  (language <$> text_input r') = (language <$> text_input r).

Definition request_text (r : request) : bytes := match text_input r with Some t => text t | None => [] end.

(** A request is never lost by cutting it into chunks: there is at least one
    request, each is the original but for its text, and where no leading [(...)]
    is repeated the texts one after the other are the original text up to white
    space. *)
Theorem chunk_requests_keep r budget mode rs :
  chunk_text_request r budget mode = Ok rs →
  rs ≠ [] ∧ Forall (same_but_text r) rs ∧
  (leading_control mode (request_text r) = None → solid (concat (map request_text rs)) = solid (request_text r)).
Proof.
  unfold chunk_text_request, request_text at 1. destruct (text_input r) as [t|] eqn:Et.
  - intros (chunks & Hc & H)%outcome_bind_ok.
    destruct (split_ok_valid _ _ _ _ Hc) as [Hb Hv].
    assert (rs ≠ [] ∧ Forall (same_but_text r) rs ∧ solid (concat (map request_text rs)) = solid (match chunks with [] => text t | _ => concat chunks end)) as (Hne & Hsame & Htext).
    { destruct chunks as [|c chunks]; injection H as <-.
      - split_and!; [done|by apply Forall_singleton|]. cbn. unfold request_text. by rewrite Et, app_nil_r.
      - split_and!; [done| |].
        + change (Forall (same_but_text r) (map (with_text r t) (c :: chunks))). rewrite Forall_map. apply Forall_forall. intros x _. unfold same_but_text. cbn. by rewrite Et.
        + change (solid (concat (map request_text (map (with_text r t) (c :: chunks)))) = solid (concat (c :: chunks))). by rewrite map_map, map_id. }
    split_and!; [done..|]. intros Hl. rewrite Htext. destruct chunks as [|c chunks]; [unfold request_text; by rewrite Et|].
    destruct (plain_cuts (text t) budget mode Hb Hv Hl) as (chunks' & E & Hs & _). rewrite E in Hc. injection Hc as ->.
    unfold request_text. by rewrite Et.
  - intros [= <-]. split_and!; [done|by apply Forall_singleton|]. intros _. cbn. unfold request_text. by rewrite Et.
Qed.

End requests.

(** * A concrete owner *)

(** It keeps the list of the capacities it prepared. *)
Module Tiers.

Definition prepare (capacity : Z) : io (list Z) () := λ s, (Ok tt, capacity :: s).

Lemma prepare_adds_one c (s s' : list Z) : prepare c s = (Ok tt, s') → ∀ x, x ∈ s' ↔ x = c ∨ x ∈ s.
Proof. intros [= <-] x. apply elem_of_cons. Qed.

Notation made := (discrete_adapter [256; 64; 128; 64]%Z (λ s : list Z, s) prepare).
Notation adapter := (match made with Ok a => a | Throw _ => mapped_adapter 0 0 (λ _ _, Ok 0%Z) (λ s, s) prepare end).

#[export] Instance tiers_laws : CapacityLaws adapter := discrete_laws (λ s : list Z, s) prepare prepare_adds_one [256; 64; 128; 64]%Z adapter eq_refl.

Lemma prepared_once_witness :
  ensure_prepared adapter Tiered 100 [64]%Z = (Ok 128%Z, [128; 64]%Z) ∧
  ensure_prepared adapter Tiered 100 [128; 64]%Z = (Ok 128%Z, [128; 64]%Z).
Proof. split; [reflexivity|]. apply (prepared_once adapter Tiered 100 [64]%Z 128 [128; 64]%Z). reflexivity. Defined.

Lemma run_uses_prepared_witness :
  ensure_prepared adapter Double 100 [64]%Z = (Ok 256%Z, [256; 64]%Z) ∧
  select_capacity_for_run adapter Double 100 [256; 64]%Z = Ok 256%Z ∧ (100 <= 256)%Z ∧
  256%Z ∈ prepared_capacities adapter [256; 64]%Z.
Proof. split; [reflexivity|]. apply (run_uses_prepared adapter Double 100 [64]%Z 256 [256; 64]%Z); [lia|reflexivity]. Defined.

Lemma discrete_tightest_witness :
  made = Ok adapter ∧
  match canonical_capacity_for_request adapter [] 100 with
  | Ok c => c ∈ [256; 64; 128; 64]%Z ∧ (0 < 100 <= c)%Z ∧ ∀ x, x ∈ [256; 64; 128; 64]%Z → (100 <= x)%Z → (c <= x)%Z
  | Throw _ => (100 <= 0)%Z ∨ ∀ x, x ∈ [256; 64; 128; 64]%Z → (x < 100)%Z
  end.
Proof. split; [reflexivity|]. apply (discrete_tightest (λ s : list Z, s) prepare [256; 64; 128; 64]%Z adapter [] 100). reflexivity. Defined.

Definition speech : TaskRequest (Float := Z) (Voice := ()) (Artifact := ()) := {|
  text_input := Some {| text := str "One two, three. Four"; language := str "en" |};
  audio_input := None; voice := Some (); input_artifacts := []; options := ∅;
|}.

Lemma chunk_requests_keep_witness :
  ∃ rs, chunk_text_request speech 10 Default = Ok rs ∧
  rs ≠ [] ∧ Forall (same_but_text speech) rs ∧
  (leading_control Default (request_text speech) = None → solid (concat (map request_text rs)) = solid (request_text speech)).
Proof.
  destruct (chunk_text_request speech 10 Default) as [rs|] eqn:E; [|by vm_compute in E].
  exists rs. split; [reflexivity|]. exact (chunk_requests_keep speech 10 Default rs E).
Defined.

End Tiers.
