(* ===== verification/Subtitle.v ===== *)
(** Subtitles from word timestamps (framework/text/subtitle.cpp): which words
    share a block, how a block is broken into lines, and the times of the SRT
    file. *)

From S2P Require Import Prelude ForcedAligner.

Section subtitle.
(** [double]: the comparisons with zero and
    [std::llround(seconds * sample_rate)]. *)
Context {Double : Type} (positive negative : Double → bool) (seconds_to_samples : Double → Z → Z).

Record SubtitleFormatOptions := {
  sample_rate : Z;
  max_chars_per_line : Z;
  max_lines : Z;
  max_block_seconds : Double;
  max_gap_seconds : Double;
}.

Record SubtitleBlock := { index : Z; span_start : Z; span_end : Z; block_lines : list bytes }.

#[export] Instance WordTimestamp_inhabited : Inhabited WordTimestamp :=
  populate {| start_sample := 0; end_sample := 0; word := [] |}.

Definition validate_options (options : SubtitleFormatOptions) : outcome () :=
  if (sample_rate options <=? 0)%Z then Throw (str "subtitle formatter requires a positive sample_rate")
  else if (max_chars_per_line options <=? 0)%Z then Throw (str "subtitle formatter requires max_chars_per_line > 0")
  else if (max_lines options <=? 0)%Z then Throw (str "subtitle formatter requires max_lines > 0")
  else if negb (positive (max_block_seconds options)) then Throw (str "subtitle formatter requires max_block_seconds > 0")
  else if negative (max_gap_seconds options) then Throw (str "subtitle formatter requires max_gap_seconds >= 0")
  else Ok tt.

Definition validate_word (w : WordTimestamp) (previous_start : Z) : outcome () :=
  if bool_decide (word w = []) then Throw (str "subtitle formatter received an empty word")
  else if bool_decide (10%Z ∈ word w) || bool_decide (13%Z ∈ word w) then
    Throw (str "subtitle formatter received a word containing a newline")
  else if ((start_sample w <? 0) || (end_sample w <? 0))%Z then Throw (str "subtitle formatter received a negative timestamp")
  else if (end_sample w <? start_sample w)%Z then Throw (str "subtitle formatter received an invalid timestamp span")
  else if (start_sample w <? previous_start)%Z then Throw (str "subtitle formatter requires sorted word timestamps")
  else Ok tt.

(** [wrap_words] over the words of a range. *)
Fixpoint wrap_loop (words : list WordTimestamp) (max_chars : Z) (lines : list bytes) (line : bytes) : list bytes :=
  match words with
  | [] => match line with [] => lines | _ => lines ++ [line] end
  | w :: words =>
      match line with
      | [] => wrap_loop words max_chars lines (word w)
      | _ =>
          if (Z.of_nat (length line + 1 + length (word w)) <=? max_chars)%Z
          then wrap_loop words max_chars lines (line ++ str " " ++ word w)
          else wrap_loop words max_chars (lines ++ [line]) (word w)
      end
  end.

Definition word_range (words : list WordTimestamp) (first limit : nat) : list WordTimestamp := take (limit - first) (drop first words).

Definition wrap_words (words : list WordTimestamp) (first limit : nat) (max_chars : Z) : list bytes :=
  wrap_loop (word_range words first limit) max_chars [] [].

Definition would_exceed_text_limit (words : list WordTimestamp) (first candidate_end : nat) (options : SubtitleFormatOptions) : bool :=
  (max_lines options <? Z.of_nat (length (wrap_words words first candidate_end (max_chars_per_line options))))%Z.

Definition make_block (words : list WordTimestamp) (first limit : nat) (options : SubtitleFormatOptions) (blocks : list SubtitleBlock) : SubtitleBlock := {|
  index := Z.of_nat (length blocks) + 1;
  span_start := start_sample (words !!! first);
  span_end := end_sample (words !!! (limit - 1));
  block_lines := wrap_words words first limit (max_chars_per_line options);
|}.

(** Whether a block that starts at [first] ends in front of word [i]. *)
Definition breaks_before (words : list WordTimestamp) (options : SubtitleFormatOptions) (first i : nat) : bool :=
  let max_block_samples := seconds_to_samples (max_block_seconds options) (sample_rate options) in
  let max_gap_samples := seconds_to_samples (max_gap_seconds options) (sample_rate options) in
  (max_gap_samples <? start_sample (words !!! i) - end_sample (words !!! (i - 1)%nat))%Z ||
  (max_block_samples <? end_sample (words !!! i) - start_sample (words !!! first))%Z ||
  would_exceed_text_limit words first (S i) options.

Fixpoint blocks_loop (words : list WordTimestamp) (options : SubtitleFormatOptions) (n i first : nat) (previous_start : Z)
    (blocks : list SubtitleBlock) : outcome (nat * list SubtitleBlock) :=
  match n with
  | O => Ok (first, blocks)
  | S n =>
      _ ← validate_word (words !!! i) previous_start;
      let previous_start := start_sample (words !!! i) in
      if i =? first then blocks_loop words options n (S i) first previous_start blocks
      else if breaks_before words options first i then
        blocks_loop words options n (S i) i previous_start (blocks ++ [make_block words first i options blocks])
      else blocks_loop words options n (S i) first previous_start blocks
  end.

Definition build_subtitle_blocks (words : list WordTimestamp) (options : SubtitleFormatOptions) : outcome (list SubtitleBlock) :=
  _ ← validate_options options;
  match words with
  | [] => Ok []
  | _ =>
      '(first, blocks) ← blocks_loop words options (length words) 0 0 0 [];
      Ok (blocks ++ [make_block words first (length words) options blocks])
  end.

(** * The SRT file *)

(** [std::setw(n)] with the fill ['0']. *)
Definition pad (n : nat) (v : Z) : bytes := let s := to_string v in repeat 48%Z (n - length s) ++ s.

Definition sample_ms (sample rate : Z) : Z := Z.quot (sample * 1000 + Z.quot rate 2) rate.

Definition format_time (sample rate : Z) : bytes :=
  let ms := sample_ms sample rate in
  let hours := Z.quot ms 3600000 in
  let minutes := Z.rem (Z.quot ms 60000) 60 in
  let seconds := Z.rem (Z.quot ms 1000) 60 in
  let millis := Z.rem ms 1000 in
  pad 2 hours ++ str ":" ++ pad 2 minutes ++ str ":" ++ pad 2 seconds ++ str "," ++ pad 3 millis.

Definition format_block (rate : Z) (block : SubtitleBlock) : bytes :=
  to_string (index block) ++ [10%Z] ++
  format_time (span_start block) rate ++ str " --> " ++ format_time (span_end block) rate ++ [10%Z] ++
  concat (map (λ line, line ++ [10%Z]) (block_lines block)) ++ [10%Z].

Definition format_srt (words : list WordTimestamp) (options : SubtitleFormatOptions) : outcome bytes :=
  blocks ← build_subtitle_blocks words options;
  Ok (concat (map (format_block (sample_rate options)) blocks)).

End subtitle.

(** * Lines *)

(** Words with one blank between them. *)
Fixpoint spaced (words : list bytes) : bytes :=
  match words with
  | [] => []
  | [w] => w
  | w :: words => w ++ str " " ++ spaced words
  end.

Lemma spaced_snoc l w : l ≠ [] → spaced (l ++ [w]) = spaced l ++ str " " ++ w.
Proof.
  induction l as [|a l IH]; [done|]. intros _. destruct l as [|b l]; [done|].
  change (a ++ str " " ++ spaced ((b :: l) ++ [w]) = (a ++ str " " ++ spaced (b :: l)) ++ str " " ++ w).
  rewrite IH by done. by rewrite <- !app_assoc.
Qed.

Lemma spaced_nonempty l : l ≠ [] → Forall (λ w, w ≠ []) l → spaced l ≠ [].
Proof. intros Hl H. destruct H as [|w l Hw _]; [done|]. destruct l; [done|]. cbn. by destruct w. Qed.

Definition line_fits (max_chars : Z) (l : list bytes) : Prop :=
  l ≠ [] ∧ ((Z.of_nat (length (spaced l)) <= max_chars)%Z ∨ ∃ w, l = [w]).

Lemma wrap_loop_spec words max_chars done cur :
  Forall (λ w, word w ≠ []) words → Forall (λ w, w ≠ []) cur →
  (cur ≠ [] → line_fits max_chars cur) → Forall (line_fits max_chars) done →
  ∃ ls, concat ls = concat done ++ cur ++ map word words ∧
    wrap_loop words max_chars (map spaced done) (spaced cur) = map spaced ls ∧ Forall (line_fits max_chars) ls.
Proof.
  intros Hw. revert done cur. induction Hw as [|w words Hw _ IH]; intros done cur Hcur Hfit Hdone; cbn [wrap_loop map].
  - destruct cur as [|c cur].
    + exists done. by rewrite app_nil_r.
    + pose proof (spaced_nonempty (c :: cur) ltac:(done) Hcur). destruct (spaced (c :: cur)) as [|x s] eqn:E; [done|].
      exists (done ++ [c :: cur]). rewrite concat_app, map_app. cbn [concat map]. rewrite E, !app_nil_r.
      split_and!; [done..|]. apply Forall_app_2; [done|]. apply Forall_singleton. by apply Hfit.
  - destruct cur as [|c cur].
    + destruct (IH done [word w]) as (ls & E1 & E2 & E3); [by apply Forall_singleton|intros _; split; [done|right; eauto]|done|].
      exists ls. by rewrite E1.
    + pose proof (spaced_nonempty (c :: cur) ltac:(done) Hcur). set (l := c :: cur) in *.
      destruct (spaced l) as [|x s] eqn:E; [done|]. rewrite <- E. destruct (Z.leb_spec (Z.of_nat (length (spaced l) + 1 + length (word w))) max_chars).
      * assert (spaced l ++ str " " ++ word w = spaced (l ++ [word w])) as -> by (by rewrite spaced_snoc).
        destruct (IH done (l ++ [word w])) as (ls & E1 & E2 & E3); [apply Forall_app_2; [done|by apply Forall_singleton]| |done|].
        { intros _. split; [by destruct l|left]. rewrite spaced_snoc, !length_app by done. change (length (str " ")) with 1. lia. }
        exists ls. split_and!; [|done..]. rewrite E1, <- app_assoc. done.
      * assert (map spaced done ++ [spaced l] = map spaced (done ++ [l])) as -> by (by rewrite map_app).
        destruct (IH (done ++ [l]) [word w]) as (ls & E1 & E2 & E3);
          [by apply Forall_singleton|intros _; split; [done|right; eauto]|apply Forall_app_2; [done|apply Forall_singleton; by apply Hfit]|].
        exists ls. split_and!; [|done..]. rewrite E1, concat_app. cbn [concat]. by rewrite app_nil_r, <- !app_assoc.
Qed.

(** * Blocks *)

Section blocks.
Context {Double : Type} (positive negative : Double → bool) (seconds_to_samples : Double → Z → Z).
Context (options : SubtitleFormatOptions (Double := Double)).

Notation max_block := (seconds_to_samples (max_block_seconds options) (sample_rate options)).
Notation max_gap := (seconds_to_samples (max_gap_seconds options) (sample_rate options)).

Definition lines_of (g : list WordTimestamp) : list bytes := wrap_loop g (max_chars_per_line options) [] [].

(** Adding [w] to the block of the words [g] breaks a limit. *)
Definition breaks (g : list WordTimestamp) (w : WordTimestamp) : bool :=
  (max_gap <? start_sample w - default 0 (end_sample <$> last g))%Z ||
  (max_block <? end_sample w - default 0 (start_sample <$> head g))%Z ||
  (max_lines options <? Z.of_nat (length (lines_of (g ++ [w]))))%Z.

Definition block_of (i : nat) (g : list WordTimestamp) : SubtitleBlock := {|
  index := Z.of_nat i + 1;
  span_start := default 0%Z (start_sample <$> head g);
  span_end := default 0%Z (end_sample <$> last g);
  block_lines := lines_of g;
|}.

(** Every word of a block but the first was added without breaking a limit. *)
Definition grown (g : list WordTimestamp) : Prop := ∀ p w q, g = p ++ w :: q → p ≠ [] → breaks p w = false.

(** Every block is followed by a word that would have broken a limit. *)
Definition full (groups : list (list WordTimestamp)) : Prop :=
  ∀ i g w rest, groups !! i = Some g → groups !! S i = Some (w :: rest) → breaks g w = true.

Definition word_ok (previous_start : Z) (w : WordTimestamp) : Prop := ∃ u, validate_word w previous_start = Ok u.

Lemma word_range_snoc words a b w :
  a <= b → words !! b = Some w → word_range words a (S b) = word_range words a b ++ [w].
Proof.
  intros Hab Hw. unfold word_range. replace (S b - a) with (S (b - a)) by lia.
  apply take_S_r. rewrite lookup_drop. by replace (a + (b - a)) with b by lia.
Qed.

Lemma word_range_nil words a : word_range words a a = [].
Proof. unfold word_range. by rewrite Nat.sub_diag, take_0. Qed.

Lemma word_range_head words a b w : a < b → words !! a = Some w → head (word_range words a b) = Some w.
Proof.
  intros Hab Hw. unfold word_range. rewrite (drop_S _ _ _ Hw). replace (b - a) with (S (b - S a)) by lia. done.
Qed.

Lemma word_range_last words a b w : a <= b → words !! b = Some w → last (word_range words a (S b)) = Some w.
Proof. intros Hab Hw. rewrite (word_range_snoc words a b w) by done. by rewrite last_snoc. Qed.

Lemma range_lookup words (i : nat) : i < length words → words !! i = Some (words !!! i : WordTimestamp).
Proof. intros [w Hw]%lookup_lt_is_Some_2. by rewrite (list_lookup_total_correct _ _ _ Hw). Qed.

Lemma breaks_before_range words first i :
  first < i < length words →
  breaks_before seconds_to_samples words options first i = breaks (word_range words first i) (words !!! i).
Proof.
  intros H. unfold breaks_before, breaks, would_exceed_text_limit, wrap_words, lines_of.
  rewrite (word_range_snoc words first i (words !!! i)) by (try lia; by apply range_lookup; lia).
  rewrite (word_range_head words first i (words !!! first)) by (try lia; by apply range_lookup; lia).
  assert (last (word_range words first i) = Some (words !!! (i - 1))) as ->; [|done].
  replace i with (S (i - 1)) at 1 by lia. apply word_range_last; [lia|]. apply range_lookup. lia.
Qed.

Lemma make_block_range words first i blocks :
  first < i <= length words → make_block words first i options blocks = block_of (length blocks) (word_range words first i).
Proof.
  intros H. unfold make_block, block_of. rewrite (word_range_head words first i (words !!! first)) by (try lia; by apply range_lookup; lia).
  assert (last (word_range words first i) = Some (words !!! (i - 1))) as ->; [|done].
  replace i with (S (i - 1)) at 1 by lia. apply word_range_last; [lia|]. apply range_lookup. lia.
Qed.

Lemma grown_singleton w : grown [w].
Proof. intros p x q E Hp. destruct p as [|a [|b p]]; done. Qed.

Lemma grown_snoc g w : grown g → (g ≠ [] → breaks g w = false) → grown (g ++ [w]).
Proof.
  intros Hg Hb p x q E Hp. destruct q as [|y q _] using rev_ind.
  - apply app_inj_tail in E as [-> ->]. by apply Hb.
  - rewrite app_comm_cons, app_assoc in E. apply app_inj_tail in E as [-> _]. by apply (Hg p x q).
Qed.

Lemma full_snoc groups g w rest :
  full (groups ++ [g]) → breaks g w = true → full ((groups ++ [g]) ++ [w :: rest]).
Proof.
  intros Hf Hb i h x r Hi Hsi. destruct (decide (S i < length (groups ++ [g]))) as [Hl|Hl].
  - rewrite lookup_app_l in Hi by lia. rewrite lookup_app_l in Hsi by lia. by eapply Hf.
  - apply lookup_lt_Some in Hsi as Hlt. rewrite length_app in Hlt. cbn in Hlt.
    rewrite lookup_app_r in Hsi by lia. replace (S i - length (groups ++ [g])) with 0 in Hsi by lia. injection Hsi as <- <-.
    rewrite length_app in Hl, Hlt. cbn in Hl, Hlt. rewrite lookup_app_l in Hi by (rewrite length_app; cbn; lia).
    rewrite lookup_app_r in Hi by lia. replace (i - length groups) with 0 in Hi by lia. injection Hi as <-. done.
Qed.

Lemma full_last groups g g' : full (groups ++ [g]) → head g = head g' → full (groups ++ [g']).
Proof.
  intros Hf Hh i h x r Hi Hsi. destruct (decide (S i < length groups)) as [Hl|Hl].
  - rewrite lookup_app_l in Hi by lia. rewrite lookup_app_l in Hsi by lia.
    apply (Hf i h x r); rewrite lookup_app_l by lia; done.
  - apply lookup_lt_Some in Hsi as Hlt. rewrite length_app in Hlt. cbn in Hlt.
    rewrite lookup_app_r in Hsi by lia. replace (S i - length groups) with 0 in Hsi by lia. injection Hsi as ->.
    rewrite lookup_app_l in Hi by lia. destruct g as [|y g]; [done|]. injection Hh as ->.
    apply (Hf i h x g); [by rewrite lookup_app_l by lia|]. rewrite lookup_app_r by lia. by replace (S i - length groups) with 0 by lia.
Qed.

Fixpoint blocks_of (k : nat) (groups : list (list WordTimestamp)) : list SubtitleBlock :=
  match groups with
  | [] => []
  | g :: groups => block_of k g :: blocks_of (S k) groups
  end.

Lemma blocks_of_snoc k groups g : blocks_of k (groups ++ [g]) = blocks_of k groups ++ [block_of (k + length groups) g].
Proof.
  revert k. induction groups as [|h groups IH]; intros k; cbn [app blocks_of length]; [by rewrite Nat.add_0_r|].
  rewrite IH. cbn. by replace (S (k + length groups)) with (k + S (length groups)) by lia.
Qed.

Lemma length_blocks_of k groups : length (blocks_of k groups) = length groups.
Proof. revert k. induction groups as [|g groups IH]; intros k; cbn; [done|]. by rewrite IH. Qed.

(** The state of the loop in front of word [i > 0]. *)
Definition loop_inv (words : list WordTimestamp) (i first : nat) (blocks : list SubtitleBlock) : Prop :=
  ∃ groups, blocks = blocks_of 0 groups ∧ first < i <= length words ∧
    concat groups ++ word_range words first i = take i words ∧
    Forall (λ g, g ≠ [] ∧ grown g) (groups ++ [word_range words first i]) ∧ full (groups ++ [word_range words first i]).

Lemma loop_inv_step words i first blocks :
  loop_inv words i first blocks → i < length words →
  if breaks_before seconds_to_samples words options first i
  then loop_inv words (S i) i (blocks ++ [make_block words first i options blocks])
  else loop_inv words (S i) first blocks.
Proof.
  intros (groups & -> & Hi & Hcat & Hall & Hfull) Hlt. rewrite breaks_before_range by lia.
  pose proof (range_lookup words i Hlt) as Hw. set (w := words !!! i) in *. set (g := word_range words first i) in *.
  assert (take (S i) words = take i words ++ [w]) as Htake by (by apply take_S_r).
  assert (g ≠ []) as Hg by (apply Forall_app in Hall as [_ [[Hg _] _]%Forall_cons]; done).
  destruct (breaks g w) eqn:E.
  - exists (groups ++ [g]). assert (word_range words i (S i) = [w]) as Hs by (rewrite (word_range_snoc words i i w) by done; by rewrite word_range_nil).
    rewrite Hs. split_and!; [|lia|lia| |apply Forall_app_2; [done|apply Forall_singleton; split; [done|apply grown_singleton]]|by apply full_snoc].
    + rewrite make_block_range, blocks_of_snoc, length_blocks_of by lia. done.
    + rewrite concat_app. cbn [concat]. by rewrite app_nil_r, Hcat, Htake.
  - exists groups. rewrite (word_range_snoc words first i w) by (done || lia). fold g. split_and!; [done|lia|lia| | |].
    + by rewrite app_assoc, Hcat, Htake.
    + apply Forall_app in Hall as [Hall [[_ Hgr] _]%Forall_cons]. apply Forall_app_2; [done|]. apply Forall_singleton.
      split; [by destruct g|]. by apply grown_snoc.
    + eapply full_last; [done|]. by destruct g.
Qed.

Lemma blocks_loop_inv words n i first previous blocks first' blocks' :
  n + i = length words → loop_inv words i first blocks →
  blocks_loop seconds_to_samples words options n i first previous blocks = Ok (first', blocks') →
  loop_inv words (length words) first' blocks'.
Proof.
  revert i first previous blocks. induction n as [|n IH]; intros i first previous blocks Hn Hinv; cbn [blocks_loop].
  - intros [= <- <-]. by replace (length words) with i by lia.
  - intros (u & _ & H)%outcome_bind_ok. pose proof (loop_inv_step words i first blocks Hinv ltac:(lia)) as Hs.
    assert (first < i) by (destruct Hinv as (? & _ & ? & _); lia). rewrite (proj2 (Nat.eqb_neq i first)) in H by lia.
    destruct (breaks_before _ words options first i); (eapply IH; [|exact Hs|exact H]; lia).
Qed.

Lemma blocks_loop_words words n i first previous blocks r :
  n + i = length words → blocks_loop seconds_to_samples words options n i first previous blocks = Ok r →
  Forall (λ w, word w ≠ []) (drop i words).
Proof.
  revert i first previous blocks. induction n as [|n IH]; intros i first previous blocks Hn; cbn [blocks_loop].
  - intros _. rewrite drop_ge by lia. apply Forall_nil_2.
  - intros ([] & Hv & H)%outcome_bind_ok. rewrite (drop_S _ _ _ (range_lookup words i ltac:(lia))). apply Forall_cons. split.
    + unfold validate_word in Hv. case_bool_decide; done.
    + destruct (i =? first); [eapply IH; [|exact H]; lia|]. destruct (breaks_before _ _ _ _ _); (eapply IH; [|exact H]; lia).
Qed.

(** The blocks share out the words in order, none lost and none twice: block
    [i] has the number [i + 1], the span from the start of its first to the end of
    its last word, and lines that are its words with one blank between them, at
    most [max_lines] lines, each within [max_chars_per_line] unless it is one word;
    a word joins the block as long as neither gap, duration nor lines break a
    limit, and the next block starts with the word that does. *)
Theorem subtitle_blocks words blocks :
  build_subtitle_blocks positive negative seconds_to_samples words options = Ok blocks →
  ∃ groups, concat groups = words ∧ blocks = blocks_of 0 groups ∧
    Forall (λ g, g ≠ [] ∧ grown g) groups ∧ full groups ∧
    Forall (λ g, (Z.of_nat (length (lines_of g)) <= max_lines options)%Z ∧
      ∃ ls, concat ls = map word g ∧ lines_of g = map spaced ls ∧ Forall (line_fits (max_chars_per_line options)) ls) groups.
Proof.
  intros (u & Hopt & H)%outcome_bind_ok. destruct words as [|w0 words]; [injection H as <-; exists []; split_and!; try apply Forall_nil_2; done|].
  set (ws := w0 :: words) in *. apply outcome_bind_ok in H as ([first bs] & Hl & H). injection H as <-.
  pose proof (blocks_loop_words ws (length ws) 0 0 0 [] _ ltac:(lia) Hl) as Hwords. rewrite drop_0 in Hwords.
  change (length ws) with (S (length words)) in Hl at 1. cbn [blocks_loop] in Hl. apply outcome_bind_ok in Hl as (v & Hv & Hl). change (0 =? 0) with true in Hl. cbn iota in Hl.
  assert (word_range ws 0 1 = [w0]) as H1 by done.
  assert (loop_inv ws 1 0 []) as Hinv.
  { exists []. rewrite H1. split_and!; [done|lia|cbn; lia|done|apply Forall_singleton; split; [done|apply grown_singleton]|].
    intros i g w rest Hi Hsi. by destruct i. }
  apply (blocks_loop_inv ws (length words) 1 0 _ []) in Hl as (groups & -> & Hfirst & Hcat & Hall & Hfull); [|cbn; lia|done].
  set (g := word_range ws first (length ws)) in *.
  assert (concat (groups ++ [g]) = ws) as Hws.
  { rewrite concat_app. cbn [concat]. rewrite app_nil_r, Hcat. by rewrite take_ge. }
  exists (groups ++ [g]). split_and!; [done| |done|done|].
  - change (S (length words)) with (length ws). rewrite make_block_range, length_blocks_of, blocks_of_snoc by lia. done.
  - apply Forall_forall. intros h Hh. rewrite Forall_forall in Hall. destruct (Hall h Hh) as [Hne Hgr].
    assert (Forall (λ w, word w ≠ []) h) as Hwh.
    { apply Forall_forall. intros w Hw. rewrite Forall_forall in Hwords. apply Hwords. rewrite <- Hws.
      apply list_elem_of_In, in_concat. exists h. split; by apply list_elem_of_In. }
    destruct (wrap_loop_spec h (max_chars_per_line options) [] [] Hwh (Forall_nil_2 _) ltac:(done) (Forall_nil_2 _)) as (ls & E1 & E2 & E3).
    split; [|by exists ls]. destruct h as [|a h _] using rev_ind; [done|]. destruct h as [|b h].
    + unfold validate_options in Hopt. repeat case_bool; try done. cbn. destruct (word a); cbn; lia.
    + specialize (Hgr (b :: h) a [] eq_refl ltac:(done)). unfold breaks in Hgr. apply orb_false_iff in Hgr as [_ Hgr]. lia.
Qed.

(** Word timestamps that are in order, apart and not negative, as the aligner
    reports them, of words without line breaks are always accepted. *)
Theorem aligned_words_accepted words :
  validate_options positive negative options = Ok tt → spans_ok 0 words →
  Forall (λ w, word w ≠ [] ∧ 10%Z ∉ word w ∧ 13%Z ∉ word w) words →
  is_ok (build_subtitle_blocks positive negative seconds_to_samples words options) = true.
Proof.
  intros Hopt Hs Hw. unfold build_subtitle_blocks. rewrite Hopt. cbn [mbind outcome_bind]. destruct words as [|w0 words]; [done|].
  set (ws := w0 :: words) in *. clearbody ws.
  cut (∀ n i first previous blocks e, n + i = length ws → (0 <= previous <= e)%Z → spans_ok e (drop i ws) →
    is_ok (blocks_loop seconds_to_samples ws options n i first previous blocks) = true).
  { intros H. specialize (H (length ws) 0 0 0%Z [] 0%Z ltac:(lia) ltac:(lia)). rewrite drop_0 in H. specialize (H Hs).
    destruct (blocks_loop _ ws options _ _ _ _ _) as [[first bs]|]; done. }
  induction n as [|n IH]; intros i first previous blocks e Hn Hp Hi; cbn [blocks_loop]; [done|].
  pose proof (range_lookup ws i ltac:(lia)) as Hwi. set (w := ws !!! i) in *. rewrite (drop_S _ _ _ Hwi) in Hi. cbn [spans_ok] in Hi.
  destruct Hi as (H1 & H2 & H3). eapply Forall_lookup_1 in Hw as Hok; [|exact Hwi]. destruct Hok as (Hne & Hlf & Hcr).
  assert (validate_word w previous = Ok tt) as ->.
  { unfold validate_word. rewrite !bool_decide_eq_false_2 by done. cbn [orb].
    rewrite !(proj2 (Z.ltb_ge _ _)) by lia. done. }
  cbn [mbind outcome_bind]. destruct (i =? first); [|destruct (breaks_before _ _ _ _ _)]; (eapply IH; [lia| |exact H3]; lia).
Qed.

End blocks.

(** * Times *)

(** The number a zero-padded field shows. *)
Definition read_field (s : bytes) : Z := be_value 10 (map (λ c, c - 48)%Z s).

Lemma read_field_zeros n s : read_field (repeat 48%Z n ++ s) = read_field s.
Proof.
  induction n as [|n IH]; [done|]. cbn [repeat app]. unfold read_field in *. cbn [map]. unfold be_value. cbn [fold_left]. exact IH.
Qed.

Lemma read_pad n v : (0 <= v)%Z → read_field (pad n v) = v.
Proof.
  intros Hv. unfold pad. rewrite read_field_zeros. destruct (to_string_spec v Hv) as (ds & -> & _ & _ & Hds).
  unfold read_field. rewrite map_map. rewrite (map_ext _ (λ d, d)) by (intros; lia). by rewrite map_id.
Qed.

Lemma pad_width n v : n = 2 ∧ (0 <= v < 60)%Z ∨ n = 3 ∧ (0 <= v < 1000)%Z → length (pad n v) = n.
Proof.
  assert (∀ n m, forallb (λ v, length (pad n v) =? n) (seqZ 0 m) = true → ∀ v, (0 <= v < m)%Z → length (pad n v) = n) as H.
  { intros k m Hall x Hx. rewrite forallb_forall in Hall. apply Nat.eqb_eq, Hall. apply list_elem_of_In, elem_of_seqZ. lia. }
  intros [[-> Hv]|[-> Hv]]; [apply (H 2 60%Z)|apply (H 3 1000%Z)]; done || by vm_compute.
Qed.

(** A time is shown as [hh:mm:ss,mmm] with fields of at least two and three
    digits, minutes and seconds below 60, whose value is the time of the sample to
    the nearest millisecond. *)
Theorem srt_time_accurate sample rate :
  (0 <= sample)%Z → (0 < rate)%Z →
  ∃ h m s ms, format_time sample rate = h ++ str ":" ++ m ++ str ":" ++ s ++ str "," ++ ms ∧
    (0 <= read_field h)%Z ∧ (0 <= read_field m < 60)%Z ∧ (0 <= read_field s < 60)%Z ∧ (0 <= read_field ms < 1000)%Z ∧
    length m = 2 ∧ length s = 2 ∧ length ms = 3 ∧
    (2 * Z.abs ((((read_field h * 60 + read_field m) * 60 + read_field s) * 1000 + read_field ms) * rate - sample * 1000) <= rate)%Z.
Proof.
  intros Hs Hr. unfold format_time. set (t := sample_ms sample rate).
  assert (0 <= t ∧ 2 * Z.abs (t * rate - sample * 1000) <= rate)%Z as [Ht Hacc].
  { unfold t, sample_ms. rewrite (Z.quot_div_nonneg rate 2), Z.quot_div_nonneg by (Z.to_euclidean_division_equations; nia).
    Z.to_euclidean_division_equations; nia. }
  rewrite !Z.quot_div_nonneg, !Z.rem_mod_nonneg by (try apply Z.div_pos; lia).
  assert (0 <= t / 3600000 ∧ 0 <= t / 60000 mod 60 < 60 ∧ 0 <= t / 1000 mod 60 < 60 ∧ 0 <= t mod 1000 < 1000 ∧
    ((t / 3600000 * 60 + t / 60000 mod 60) * 60 + t / 1000 mod 60) * 1000 + t mod 1000 = t)%Z as (Hh & Hm & Hsec & Hms & Heq)
    by (Z.to_euclidean_division_equations; lia).
  eexists _, _, _, _. split; [reflexivity|]. rewrite !read_pad by lia. rewrite Heq. split_and!; try lia; apply pad_width; auto.
Qed.

(** * A concrete formatter *)

Module Seconds.

(** Whole seconds for [double]. *)
Notation build := (build_subtitle_blocks (Z.ltb 0) (λ s, s <? 0)%Z Z.mul).

Definition options : SubtitleFormatOptions (Double := Z) := {|
  sample_rate := 1000; max_chars_per_line := 8; max_lines := 2; max_block_seconds := 6%Z; max_gap_seconds := 1%Z |}.

Definition spoken (start stop : Z) (w : bytes) : WordTimestamp := {| start_sample := start; end_sample := stop; word := w |}.

Definition words : list WordTimestamp :=
  [spoken 0 400 (str "We"); spoken 500 900 (str "were"); spoken 900 1500 (str "there"); spoken 1500 1900 (str "before");
   spoken 4000 4500 (str "them")].

Lemma two_blocks : build words options = Ok
  [{| index := 1; span_start := 0; span_end := 1500; block_lines := [str "We were"; str "there"] |};
   {| index := 2; span_start := 1500; span_end := 1900; block_lines := [str "before"] |};
   {| index := 3; span_start := 4000; span_end := 4500; block_lines := [str "them"] |}].
Proof. by vm_compute. Qed.

Lemma subtitle_blocks_witness :
  ∃ blocks, build words options = Ok blocks ∧
  ∃ groups, concat groups = words ∧ blocks = blocks_of options 0 groups ∧
    Forall (λ g, g ≠ [] ∧ grown Z.mul options g) groups ∧ full Z.mul options groups ∧
    Forall (λ g, (Z.of_nat (length (lines_of options g)) <= max_lines options)%Z ∧
      ∃ ls, concat ls = map word g ∧ lines_of options g = map spaced ls ∧ Forall (line_fits (max_chars_per_line options)) ls) groups.
Proof.
  eexists. split; [exact two_blocks|]. exact (subtitle_blocks (Z.ltb 0) (λ s, s <? 0)%Z Z.mul options words _ two_blocks).
Defined.

Lemma aligned_words_accepted_witness : spans_ok 0 words ∧ is_ok (build words options) = true.
Proof.
  assert (spans_ok 0 words) as H by (repeat split; cbn; lia). split; [exact H|].
  apply (aligned_words_accepted (Z.ltb 0) (λ s, s <? 0)%Z Z.mul options words); [reflexivity|exact H|].
  unfold words. repeat (apply Forall_cons; split; [split_and!; [done|by apply (bool_decide_eq_false _)|by apply (bool_decide_eq_false _)]|]). apply Forall_nil_2.
Defined.

Lemma srt_time_accurate_witness :
  format_time 3725500 1000 = str "01:02:05,500" ∧
  ∃ h m s ms, format_time 3725500 1000 = h ++ str ":" ++ m ++ str ":" ++ s ++ str "," ++ ms ∧
    (0 <= read_field h)%Z ∧ (0 <= read_field m < 60)%Z ∧ (0 <= read_field s < 60)%Z ∧ (0 <= read_field ms < 1000)%Z ∧
    length m = 2 ∧ length s = 2 ∧ length ms = 3 ∧
    (2 * Z.abs ((((read_field h * 60 + read_field m) * 60 + read_field s) * 1000 + read_field ms) * 1000 - 3725500 * 1000) <= 1000)%Z.
Proof. split; [by vm_compute|]. apply (srt_time_accurate 3725500 1000); lia. Defined.

End Seconds.
