(* ===== verification/Wav.v ===== *)
(** WAV files (framework/audio/wav_reader.cpp, wav_writer.cpp): reading the
    chunks of a file in memory, what a hostile header can cost, and reading back
    what the writer writes. *)

From S2P Require Import Prelude AudioStream.

(** * Little-endian numbers *)

Definition le_value (bs : bytes) : Z := be_value 256 (rev bs).

Fixpoint le_bytes (n : nat) (v : Z) : bytes :=
  match n with
  | O => []
  | S n => (v mod 256)%Z :: le_bytes n (v / 256)%Z
  end.

(** The bit pattern of an [int32_t] with bit 23 extended upwards. *)
Definition int24_of (v : Z) : Z := if negb (Z.land v 0x00800000 =b 0) then (v - 2 ^ 24)%Z else v.

(** A 32-bit word as [int]. *)
Definition int32_of (v : Z) : Z := if (v <? 2 ^ 31)%Z then v else (v - 2 ^ 32)%Z.

Section wav.
(** [float]: [static_cast<float>(v) / 32768.0F] and [/ 8388608.0F], the float of
    a bit pattern, and [static_cast<int16_t>(std::lrint(clamped * 32767.0F))]. *)
Context {Float : Type} (scale_s16 scale_s24 float_of_bits : Z → Float) (quantize : Float → Z).

(** * Reading

    The stream over a text in memory is the bytes it has left; a seek beyond the
    end fails. *)

Definition read_bytes (n : nat) (input : bytes) : option (bytes * bytes) :=
  if length input <? n then None else Some (take n input, drop n input).

Definition read_scalar (n : nat) (input : bytes) : outcome (Z * bytes) :=
  match read_bytes n input with
  | None => Throw (str "failed to read WAV scalar")
  | Some (bs, input) => Ok (le_value bs, input)
  end.

Definition skip_bytes (count : Z) (input : bytes) : outcome bytes :=
  if (Z.of_nat (length input) <? count)%Z then Throw (str "failed to seek inside WAV file")
  else Ok (drop (Z.to_nat count) input).

Record WavData := { sample_rate : Z; channels : Z; samples : list Float }.

(** The fields collected while walking the chunks. *)
Record WavFields := {
  audio_format : Z;
  w_channels : Z;
  w_sample_rate : Z;
  bits_per_sample : Z;
  data : bytes;
}.

Definition no_fields : WavFields :=
  {| audio_format := 0; w_channels := 0; w_sample_rate := 0; bits_per_sample := 0; data := [] |}.

Definition kReadBlock : Z := 2 ^ 20.

(** [while (remaining > 0)]: the data, the rest of the input, and the largest
    size [data] was resized to. *)
Fixpoint read_blocks (fuel : nat) (remaining : Z) (data input : bytes) (peak : Z) : outcome (bytes * bytes) * Z :=
  match fuel with
  | O => (Ok (data, input), peak)
  | S fuel =>
      if (0 <? remaining)%Z then
        let step := Z.min remaining kReadBlock in
        let peak := Z.max peak (Z.of_nat (length data) + step) in
        match read_bytes (Z.to_nat step) input with
        | None => (Throw (str "failed to read WAV data chunk"), peak)
        | Some (block, input) => read_blocks fuel (remaining - step) (data ++ block) input peak
        end
      else (Ok (data, input), peak)
  end.

(** A data chunk; [S (chunk_size / kReadBlock)] blocks suffice. *)
Definition read_data (chunk_size : Z) (input : bytes) : outcome (bytes * bytes) * Z :=
  read_blocks (Z.to_nat (chunk_size / kReadBlock + 1)) chunk_size [] input 0.

Definition read_fmt (chunk_size : Z) (f : WavFields) (input : bytes) : outcome (WavFields * bytes) :=
  '(format, input) ← read_scalar 2 input;
  '(channels, input) ← read_scalar 2 input;
  '(rate, input) ← read_scalar 4 input;
  input ← skip_bytes 6 input;
  '(bits, input) ← read_scalar 2 input;
  input ← (if (16 <? chunk_size)%Z then skip_bytes (chunk_size - 16) input else Ok input);
  Ok ({| audio_format := format; w_channels := channels; w_sample_rate := rate; bits_per_sample := bits; data := data f |}, input).

Definition with_data (f : WavFields) (d : bytes) : WavFields :=
  {| audio_format := audio_format f; w_channels := w_channels f; w_sample_rate := w_sample_rate f;
     bits_per_sample := bits_per_sample f; data := d |}.

(** The body of a chunk, and the padding byte behind an odd one. *)
Definition read_chunk (id : bytes) (chunk_size : Z) (f : WavFields) (input : bytes) : outcome (WavFields * bytes) :=
  '(f, input) ←
    (if bool_decide (id = str "fmt ") then read_fmt chunk_size f input
     else if bool_decide (id = str "data") then
       '(d, input) ← (read_data chunk_size input).1;
       Ok (with_data f d, input)
     else
       input ← skip_bytes chunk_size input;
       Ok (f, input));
  input ← (if (chunk_size mod 2 =b 1) then skip_bytes 1 input else Ok input);
  Ok (f, input).

(** [while (input)]; a chunk takes at least eight bytes. *)
Fixpoint chunks_loop (fuel : nat) (f : WavFields) (input : bytes) : outcome WavFields :=
  match fuel with
  | O => Ok f
  | S fuel =>
      match read_bytes 4 input with
      | None => Ok f
      | Some (id, input) =>
          '(chunk_size, input) ← read_scalar 4 input;
          '(f, input) ← read_chunk id chunk_size f input;
          chunks_loop fuel f input
      end
  end.

(** Whole samples of [n] bytes; bytes left over are ignored. *)
Fixpoint samples_of (fuel n : nat) (decode : bytes → Float) (d : bytes) : list Float :=
  match fuel with
  | O => []
  | S fuel => if length d <? n then [] else decode (take n d) :: samples_of fuel n decode (drop n d)
  end.

Definition decode_samples (f : WavFields) : outcome (list Float) :=
  let d := data f in
  if (audio_format f =b 1) && (bits_per_sample f =b 16) then
    Ok (samples_of (length d) 2 (λ bs, scale_s16 (int16_of (le_value bs))) d)
  else if (audio_format f =b 1) && (bits_per_sample f =b 24) then
    if negb (Nat.modulo (length d) 3 =? 0) then Throw (str "malformed PCM24 WAV data chunk")
    else Ok (samples_of (length d) 3 (λ bs, scale_s24 (int24_of (le_value bs))) d)
  else if (audio_format f =b 3) && (bits_per_sample f =b 32) then
    Ok (samples_of (length d) 4 (λ bs, float_of_bits (le_value bs)) d)
  else Throw (str "unsupported WAV encoding (need PCM16, PCM24, or float32)").

Definition wav_of_fields (f : WavFields) : outcome WavData :=
  if (w_channels f =b 0) || (w_sample_rate f =b 0) || (bits_per_sample f =b 0) || bool_decide (data f = []) then
    Throw (str "incomplete WAV file")
  else
    s ← decode_samples f;
    Ok {| sample_rate := int32_of (w_sample_rate f); channels := w_channels f; samples := s |}.

Definition read_wav_f32 (input : bytes) : outcome WavData :=
  match read_bytes 4 input with
  | Some (riff, input) =>
      if bool_decide (riff = str "RIFF") then
        input ← skip_bytes 4 input;
        match read_bytes 4 input with
        | Some (wave, input) =>
            if bool_decide (wave = str "WAVE") then
              f ← chunks_loop (S (length input)) no_fields input;
              wav_of_fields f
            else Throw (str "invalid WAV WAVE header")
        | None => Throw (str "invalid WAV WAVE header")
        end
      else Throw (str "invalid WAV RIFF header")
  | None => Throw (str "invalid WAV RIFF header")
  end.

(** * Writing

    What a call puts into a file that could be opened. The byte rate, which the reader does
    not look at, is multiplied in [int] by the code, which overflows for rates far above
    any audio; here it is taken modulo 2^32. *)

Definition write_pcm16_wav (sample_rate channel_count : Z) (audio : list Float) : outcome bytes :=
  if (sample_rate <=? 0)%Z then Throw (str "sample rate must be positive")
  else if (channel_count <=? 0)%Z then Throw (str "channel count must be positive")
  else if negb (Z.of_nat (length audio) mod channel_count =b 0) then
    Throw (str "audio sample count must be divisible by channel count")
  else
    let channels := uwrap 16 channel_count in
    let byte_rate := uwrap 32 (Z.quot (sample_rate * channels * 16) 8) in
    let block_align := uwrap 16 (channels * 16 / 8) in
    let data_bytes := uwrap 32 (Z.of_nat (length audio) * 2) in
    let riff_size := uwrap 32 (36 + data_bytes) in
    Ok (str "RIFF" ++ le_bytes 4 riff_size ++ str "WAVE" ++
        str "fmt " ++ le_bytes 4 16 ++ le_bytes 2 1 ++ le_bytes 2 channels ++ le_bytes 4 sample_rate ++
        le_bytes 4 byte_rate ++ le_bytes 2 block_align ++ le_bytes 2 16 ++
        str "data" ++ le_bytes 4 data_bytes ++ concat (map (λ sample, le_bytes 2 (quantize sample)) audio)).

End wav.

(** * Little-endian round trip *)

Lemma length_le_bytes n v : length (le_bytes n v) = n.
Proof. revert v. induction n as [|n IH]; intros v; cbn; [done|]. by rewrite IH. Qed.

Lemma le_value_cons b bs : le_value (b :: bs) = (b + 256 * le_value bs)%Z.
Proof. unfold le_value. cbn [rev]. rewrite be_value_snoc. lia. Qed.

Lemma le_round_trip n v : (0 <= v < 256 ^ Z.of_nat n)%Z → le_value (le_bytes n v) = v.
Proof.
  revert v. induction n as [|n IH]; intros v Hv; cbn [le_bytes]; [cbn in *; lia|].
  rewrite Nat2Z.inj_succ, Z.pow_succ_r in Hv by lia. rewrite le_value_cons, IH.
  - pose proof (Z.div_mod v 256 ltac:(lia)). lia.
  - split; [apply Z.div_pos; lia|]. apply Z.div_lt_upper_bound; lia.
Qed.

Lemma le_mod n v : le_bytes n (v mod 256 ^ Z.of_nat n) = le_bytes n v.
Proof.
  revert v. induction n as [|n IH]; intros v; cbn [le_bytes]; [done|].
  rewrite Nat2Z.inj_succ, Z.pow_succ_r by lia. set (q := (256 ^ Z.of_nat n)%Z). assert (0 < q)%Z by (apply Z.pow_pos_nonneg; lia).
  rewrite Z.rem_mul_r by lia. f_equal.
  - rewrite Z.mul_comm, Z.mod_add, Z.mod_mod by lia. done.
  - rewrite Z.mul_comm, Z.div_add by lia. rewrite (Z.div_small (v mod 256)) by (apply Z.mod_pos_bound; lia). rewrite Z.add_0_l. apply IH.
Qed.

(** A 16-bit sample, negative or not. *)
Lemma s16_round_trip v : (- 2 ^ 15 <= v < 2 ^ 15)%Z → int16_of (le_value (le_bytes 2 v)) = v.
Proof.
  intros Hv. rewrite <- (le_mod 2 v). rewrite le_round_trip by (apply Z.mod_pos_bound; done).
  change (256 ^ Z.of_nat 2)%Z with 65536%Z. unfold int16_of. change (2 ^ 15)%Z with 32768%Z in *. change (2 ^ 16)%Z with 65536%Z.
  case_bool; Z.div_mod_to_equations; lia.
Qed.

(** * A hostile header *)

Lemma read_bytes_app a b : read_bytes (length a) (a ++ b) = Some (a, b).
Proof.
  unfold read_bytes. rewrite (proj2 (Nat.ltb_ge _ _)) by (rewrite length_app; lia). by rewrite take_app_length, drop_app_length.
Qed.

Lemma read_bytes_split n input a b : read_bytes n input = Some (a, b) → input = a ++ b ∧ length a = n.
Proof.
  unfold read_bytes. destruct (Nat.ltb_spec (length input) n); [done|]. intros [= <- <-].
  split; [by rewrite take_drop|]. rewrite length_take. lia.
Qed.

Lemma read_blocks_peak fuel remaining d input peak :
  ((read_blocks fuel remaining d input peak).2 <= Z.max peak (Z.of_nat (length d + length input) + kReadBlock))%Z.
Proof.
  revert remaining d input peak. induction fuel as [|fuel IH]; intros remaining d input peak; cbn [read_blocks snd]; [lia|].
  case_bool; [|cbn; lia]. set (step := Z.min remaining kReadBlock). assert (0 < step <= kReadBlock)%Z by (unfold kReadBlock in *; lia).
  destruct (read_bytes (Z.to_nat step) input) as [[block rest]|] eqn:Er.
  - apply read_bytes_split in Er as [-> Hl]. etransitivity; [apply IH|]. rewrite !length_app. lia.
  - cbn. lia.
Qed.

Lemma read_blocks_data fuel remaining d input peak d' rest :
  (read_blocks fuel remaining d input peak).1 = Ok (d', rest) → d' ++ rest = d ++ input.
Proof.
  revert remaining d input peak. induction fuel as [|fuel IH]; intros remaining d input peak; cbn [read_blocks fst]; [by intros [= <- <-]|].
  case_bool; [|by intros [= <- <-]]. destruct (read_bytes _ input) as [[block rest']|] eqn:Er; [|done].
  apply read_bytes_split in Er as [-> _]. intros H%IH. by rewrite H, <- app_assoc.
Qed.

(** The claim of a header costs no more than the file can back: whatever size
    a data chunk claims, the buffer is never made larger than the bytes that are
    there and one block of 1 MiB, and what is read is what was there. *)
Theorem wav_data_bounded chunk_size input :
  let '(r, peak) := read_data chunk_size input in
  (peak <= Z.of_nat (length input) + kReadBlock)%Z ∧
  match r with Ok (d, rest) => d ++ rest = input | Throw _ => True end.
Proof.
  unfold read_data. pose proof (read_blocks_peak (Z.to_nat (chunk_size / kReadBlock + 1)) chunk_size [] input 0) as Hp.
  pose proof (read_blocks_data (Z.to_nat (chunk_size / kReadBlock + 1)) chunk_size [] input 0) as Hd.
  destruct (read_blocks _ _ _ _ _) as [r peak]. cbn [fst snd length Nat.add] in *. split; [unfold kReadBlock in *; lia|].
  destruct r as [[d rest]|]; [by apply Hd|done].
Qed.

(** * The chunks of a file *)

Definition chunk_bytes (c : bytes * bytes) : bytes :=
  c.1 ++ le_bytes 4 (Z.of_nat (length c.2)) ++ c.2 ++ (if Z.of_nat (length c.2) mod 2 =b 1 then [0%Z] else []).

(** A chunk that can be written: an id of four bytes, a size of 32 bits, and the
    sixteen bytes of a format where it is one. *)
Definition chunk_ok (c : bytes * bytes) : Prop :=
  length c.1 = 4 ∧ (Z.of_nat (length c.2) < 2 ^ 32)%Z ∧ (c.1 = str "fmt " → 16 <= length c.2).

Definition field (n offset : nat) (body : bytes) : Z := le_value (take n (drop offset body)).

(** What a chunk says: the last format and the last data count, others are skipped. *)
Definition chunk_effect (f : WavFields) (c : bytes * bytes) : WavFields :=
  if bool_decide (c.1 = str "fmt ") then
    {| audio_format := field 2 0 c.2; w_channels := field 2 2 c.2; w_sample_rate := field 4 4 c.2;
       bits_per_sample := field 2 14 c.2; data := data f |}
  else if bool_decide (c.1 = str "data") then with_data f c.2
  else f.

Definition riff (size : Z) (chunks : list (bytes * bytes)) : bytes :=
  str "RIFF" ++ le_bytes 4 size ++ str "WAVE" ++ concat (map chunk_bytes chunks).

Lemma read_blocks_all fuel d body rest peak :
  (Z.of_nat (length body) <= Z.of_nat fuel * kReadBlock)%Z →
  (read_blocks fuel (Z.of_nat (length body)) d (body ++ rest) peak).1 = Ok (d ++ body, rest).
Proof.
  assert (0 < kReadBlock)%Z as Hk by done. revert d body peak. induction fuel as [|fuel IH]; intros d body peak Hf; cbn [read_blocks].
  { destruct body; [by rewrite app_nil_r|cbn in *; lia]. }
  destruct (Z.ltb_spec 0 (Z.of_nat (length body))) as [Hpos|Hz]; [|destruct body; [by rewrite app_nil_r|cbn in *; lia]].
  set (step := Z.min (Z.of_nat (length body)) kReadBlock). set (k := Z.to_nat step).
  assert (read_bytes k (body ++ rest) = Some (take k body, drop k body ++ rest)) as ->.
  { assert (length (take k body) = k) as Hl by (rewrite length_take; lia). rewrite <- Hl at 1.
    rewrite <- (take_drop k body) at 2. rewrite <- app_assoc. apply read_bytes_app. }
  assert (Z.of_nat (length body) - step = Z.of_nat (length (drop k body)))%Z as -> by (rewrite length_drop; lia).
  rewrite IH; [by rewrite <- app_assoc, take_drop|]. rewrite length_drop. lia.
Qed.

Lemma read_data_all body rest : (read_data (Z.of_nat (length body)) (body ++ rest)).1 = Ok (body, rest).
Proof.
  assert (0 < kReadBlock)%Z as Hk by done. unfold read_data. rewrite read_blocks_all; [done|].
  pose proof (Z.div_mod (Z.of_nat (length body)) kReadBlock ltac:(lia)). pose proof (Z.mod_pos_bound (Z.of_nat (length body)) kReadBlock Hk).
  pose proof (Z.div_pos (Z.of_nat (length body)) kReadBlock ltac:(lia) Hk). nia.
Qed.

Lemma read_scalar_app n bs rest : length bs = n → read_scalar n (bs ++ rest) = Ok (le_value bs, rest).
Proof. intros <-. unfold read_scalar. by rewrite read_bytes_app. Qed.

Lemma skip_bytes_app n bs rest : Z.of_nat (length bs) = n → skip_bytes n (bs ++ rest) = Ok rest.
Proof.
  intros <-. unfold skip_bytes. rewrite (proj2 (Z.ltb_ge _ _)) by (rewrite length_app; lia).
  by rewrite Nat2Z.id, drop_app_length.
Qed.

(** The pieces of a format body. *)
Lemma read_fmt_all f body rest :
  16 <= length body →
  read_fmt (Z.of_nat (length body)) f (body ++ rest) = Ok (chunk_effect f (str "fmt ", body), rest).
Proof.
  intros Hl. unfold chunk_effect, field. cbn [fst snd]. rewrite bool_decide_eq_true_2 by done.
  assert (∃ b0 b2 b4 b8 b14 b16, body = b0 ++ b2 ++ b4 ++ b8 ++ b14 ++ b16 ∧ length b0 = 2 ∧ length b2 = 2 ∧ length b4 = 4 ∧ length b8 = 6 ∧ length b14 = 2)
    as (b0 & b2 & b4 & b8 & b14 & b16 & -> & H0 & H2 & H4 & H8 & H14).
  { do 16 (destruct body as [|? body]; [cbn in Hl; lia|]).
    match goal with |- context [?a :: ?b :: ?c :: ?d :: ?e :: ?f :: ?g :: ?h :: ?i :: ?j :: ?k :: ?l :: ?m :: ?n :: ?o :: ?p :: body] =>
      exists [a; b], [c; d], [e; f; g; h], [i; j; k; l; m; n], [o; p], body end. done. }
  unfold read_fmt. rewrite <- !app_assoc. rewrite (read_scalar_app 2 b0) by done. cbn [mbind outcome_bind].
  rewrite (read_scalar_app 2 b2) by done. cbn [mbind outcome_bind]. rewrite (read_scalar_app 4 b4) by done. cbn [mbind outcome_bind].
  rewrite (skip_bytes_app 6 b8) by lia. cbn [mbind outcome_bind]. rewrite (read_scalar_app 2 b14) by done. cbn [mbind outcome_bind].
  rewrite !length_app, H0, H2, H4, H8, H14.
  assert ((if (16 <? Z.of_nat (2 + (2 + (4 + (6 + (2 + length b16))))))%Z then skip_bytes (Z.of_nat (2 + (2 + (4 + (6 + (2 + length b16))))) - 16) (b16 ++ rest)
    else Ok (b16 ++ rest)) = Ok rest) as ->.
  { destruct (Z.ltb_spec 16 (Z.of_nat (2 + (2 + (4 + (6 + (2 + length b16))))))); [apply skip_bytes_app; lia|].
    by destruct b16; [|cbn in *; lia]. }
  cbn [mbind outcome_bind]. do 4 f_equal.
  - by rewrite drop_0, take_app_length'.
  - by rewrite drop_app_length', take_app_length'.
  - rewrite app_assoc, drop_app_length' by (rewrite length_app; lia). by rewrite take_app_length'.
  - rewrite !app_assoc, <- (app_assoc _ b14), drop_app_length' by (rewrite !length_app; lia). by rewrite take_app_length'.
Qed.

Lemma read_chunk_all f c rest :
  chunk_ok c →
  read_chunk c.1 (Z.of_nat (length c.2)) f (c.2 ++ (if Z.of_nat (length c.2) mod 2 =b 1 then [0%Z] else []) ++ rest) =
  Ok (chunk_effect f c, rest).
Proof.
  destruct c as [id body]. intros (Hid & Hsize & Hfmt). cbn [fst snd] in *. unfold read_chunk.
  assert (∀ tail, (if Z.of_nat (length body) mod 2 =b 1 then skip_bytes 1 ((if Z.of_nat (length body) mod 2 =b 1 then [0%Z] else []) ++ tail)
    else Ok ((if Z.of_nat (length body) mod 2 =b 1 then [0%Z] else []) ++ tail)) = Ok tail) as Hpad.
  { intros tail. case_bool; [|done]. by apply (skip_bytes_app 1 [0%Z]). }
  unfold chunk_effect. cbn [fst snd]. case_bool_decide as E1; [|case_bool_decide as E2].
  - rewrite read_fmt_all by auto. cbn [mbind outcome_bind]. rewrite Hpad. unfold chunk_effect. cbn [fst snd mbind outcome_bind]. by rewrite bool_decide_eq_true_2.
  - rewrite read_data_all. cbn [mbind outcome_bind]. by rewrite Hpad.
  - rewrite skip_bytes_app by done. cbn [mbind outcome_bind]. by rewrite Hpad.
Qed.

Lemma chunks_loop_all fuel f chunks :
  Forall chunk_ok chunks → length chunks < fuel →
  chunks_loop fuel f (concat (map chunk_bytes chunks)) = Ok (fold_left chunk_effect chunks f).
Proof.
  intros H. revert fuel f. induction H as [|c chunks Hc _ IH]; intros fuel f Hf; (destruct fuel as [|fuel]; [cbn in Hf; lia|]); [done|].
  cbn [chunks_loop map concat fold_left]. unfold chunk_bytes at 1. pose proof Hc as (Hid & Hsize & _). rewrite <- !app_assoc.
  rewrite <- Hid at 1. rewrite read_bytes_app, (read_scalar_app 4) by apply length_le_bytes. cbn [mbind outcome_bind].
  rewrite le_round_trip by (change (256 ^ Z.of_nat 4)%Z with (2 ^ 32)%Z; lia). rewrite read_chunk_all by done. cbn [mbind outcome_bind].
  apply IH. cbn in Hf. lia.
Qed.

Section reader.
Context {Float : Type} (scale_s16 scale_s24 float_of_bits : Z → Float) (quantize : Float → Z).

Notation read := (read_wav_f32 scale_s16 scale_s24 float_of_bits).
Notation result := (wav_of_fields scale_s16 scale_s24 float_of_bits).

Lemma length_concat_chunks chunks : Forall chunk_ok chunks → length chunks <= length (concat (map chunk_bytes chunks)).
Proof.
  induction 1 as [|c chunks (Hid & _) _ IH]; cbn [map concat length]; [lia|]. unfold chunk_bytes at 1. rewrite !length_app, Hid. lia.
Qed.

(** A file of well-formed chunks is read chunk by chunk. *)
Lemma read_riff size chunks : Forall chunk_ok chunks → read (riff size chunks) = result (fold_left chunk_effect chunks no_fields).
Proof.
  intros H. unfold read_wav_f32, riff. change 4 with (length (str "RIFF")) at 1. rewrite read_bytes_app.
  rewrite bool_decide_eq_true_2 by done. rewrite skip_bytes_app by (by rewrite length_le_bytes). cbn [mbind outcome_bind].
  change 4 with (length (str "WAVE")) at 1. rewrite read_bytes_app. rewrite bool_decide_eq_true_2 by done.
  rewrite chunks_loop_all; [done|done|]. pose proof (length_concat_chunks chunks H). lia.
Qed.

Lemma samples_of_s16 xs fuel :
  Forall (λ x, - 2 ^ 15 <= x < 2 ^ 15)%Z xs → length xs < fuel →
  samples_of fuel 2 (λ bs, scale_s16 (int16_of (le_value bs))) (concat (map (le_bytes 2) xs)) = map scale_s16 xs.
Proof.
  intros H. revert fuel. induction H as [|x xs Hx _ IH]; intros fuel Hf; (destruct fuel as [|fuel]; [cbn in Hf; lia|]); [done|].
  cbn [samples_of map concat]. rewrite (proj2 (Nat.ltb_ge _ _)) by (rewrite length_app, length_le_bytes; lia).
  rewrite take_app_length', drop_app_length' by (by rewrite length_le_bytes). rewrite s16_round_trip by done. f_equal. apply IH. cbn in Hf. lia.
Qed.

Lemma length_concat_le2 (xs : list Z) : length (concat (map (le_bytes 2) xs)) = 2 * length xs.
Proof. induction xs as [|x xs IH]; [done|]. cbn [map concat length]. rewrite length_app, IH. cbn. lia. Qed.

(** C40. Reading back what the writer writes yields the rate, the channels and
    exactly the quantized samples, also when chunks of other kinds stand in front
    of the format and the data and behind them. *)
Theorem wav_roundtrip rate channel_count audio before between after file :
  (∀ x, - 2 ^ 15 <= quantize x < 2 ^ 15)%Z →
  (0 < rate < 2 ^ 31)%Z → (0 < channel_count < 2 ^ 16)%Z → (Z.of_nat (length audio) * 2 < 2 ^ 32)%Z → audio ≠ [] →
  write_pcm16_wav quantize rate channel_count audio = Ok file →
  Forall (λ c, chunk_ok c ∧ c.1 ≠ str "fmt " ∧ c.1 ≠ str "data") (before ++ between ++ after) →
  ∃ size format pcm, file = riff size [format; pcm] ∧
    read (riff size (before ++ [format] ++ between ++ [pcm] ++ after)) =
    Ok {| sample_rate := rate; channels := channel_count; samples := map (λ x, scale_s16 (quantize x)) audio |}.
Proof.
  intros Hq Hr Hc Hlen Hne Hw Hother. unfold write_pcm16_wav in Hw. destruct (rate <=? 0)%Z; [done|]. destruct (channel_count <=? 0)%Z; [done|].
  destruct (negb _); [done|]. injection Hw as <-.
  assert (uwrap 16 channel_count = channel_count) as -> by (unfold uwrap; apply Z.mod_small; lia).
  set (body := concat (map (λ x, le_bytes 2 (quantize x)) audio)).
  assert (length body = 2 * length audio) as Hbody by (unfold body; rewrite <- (map_map quantize), length_concat_le2, length_map; done).
  assert (uwrap 32 (Z.of_nat (length audio) * 2) = Z.of_nat (length body)) as -> by (rewrite Hbody; unfold uwrap; rewrite Z.mod_small; lia).
  set (fmt := le_bytes 2 1 ++ le_bytes 2 channel_count ++ le_bytes 4 rate ++
    le_bytes 4 (uwrap 32 (Z.quot (rate * channel_count * 16) 8)) ++ le_bytes 2 (uwrap 16 (channel_count * 16 / 8)) ++ le_bytes 2 16).
  exists (uwrap 32 (36 + Z.of_nat (length body))), (str "fmt ", fmt), (str "data", body).
  assert (length fmt = 16) as Hfmt by (unfold fmt; rewrite !length_app, !length_le_bytes; done).
  assert (Z.of_nat (length body) mod 2 = 0)%Z as Hpar by (rewrite Hbody; Z.div_mod_to_equations; lia).
  split.
  { unfold riff, chunk_bytes. cbn [map concat fst snd]. rewrite Hfmt, Hpar. cbn [Z.eqb]. change (Z.of_nat 16 mod 2 =b 1) with false.
    change (Z.of_nat 16) with 16%Z. rewrite !app_nil_r. unfold fmt. rewrite <- !app_assoc. done. }
  assert (∀ l f, Forall (λ c, chunk_ok c ∧ c.1 ≠ str "fmt " ∧ c.1 ≠ str "data") l → fold_left chunk_effect l f = f) as Hskip.
  { intros l f Hl. induction Hl as [|c l (_ & H1 & H2) _ IH]; [done|]. cbn [fold_left]. unfold chunk_effect at 2.
    by rewrite !bool_decide_eq_false_2 by done. }
  apply Forall_app in Hother as [Hb [Hm Ha]%Forall_app]. rewrite read_riff.
  - rewrite !fold_left_app. rewrite (Hskip before), (Hskip between), (Hskip after) by done. cbn [fold_left].
    assert (chunk_effect no_fields (str "fmt ", fmt) = {| audio_format := 1; w_channels := channel_count; w_sample_rate := rate; bits_per_sample := 16; data := [] |}) as ->.
    { unfold chunk_effect. cbn [fst snd]. rewrite bool_decide_eq_true_2 by done. unfold field, fmt. f_equal.
      - rewrite drop_app_length' by done. rewrite take_app_length' by done. apply (le_round_trip 2). change (256 ^ Z.of_nat 2)%Z with (2 ^ 16)%Z. lia.
      - rewrite app_assoc, drop_app_length' by done. rewrite take_app_length' by done. apply (le_round_trip 4). change (256 ^ Z.of_nat 4)%Z with (2 ^ 32)%Z. lia. }
    unfold chunk_effect. cbn [fst snd]. change (bool_decide (str "data" = str "fmt ")) with false. rewrite bool_decide_eq_true_2 by done.
    unfold wav_of_fields, with_data. cbn [w_channels w_sample_rate bits_per_sample data audio_format].
    rewrite (proj2 (Z.eqb_neq channel_count 0)), (proj2 (Z.eqb_neq rate 0)) by lia. rewrite bool_decide_eq_false_2; [|by destruct audio].
    unfold decode_samples. cbn [data audio_format bits_per_sample]. change (1 =b 1) with true. change (16 =b 16) with true. change (16 =b 0) with false. cbn [orb andb mbind outcome_bind].
    unfold int32_of. rewrite (proj2 (Z.ltb_lt rate _)) by lia. do 2 f_equal. rewrite Hbody. unfold body. rewrite <- (map_map quantize).
    rewrite samples_of_s16; [by rewrite map_map|by apply Forall_map, Forall_true|]. rewrite length_map. destruct audio; [done|cbn; lia].
  - assert (∀ l, Forall (λ c, chunk_ok c ∧ c.1 ≠ str "fmt " ∧ c.1 ≠ str "data") l → Forall chunk_ok l) as Hok by (intros l Hl; eapply Forall_impl; [exact Hl|]; by intros ? [? _]).
    repeat (apply Forall_app_2 || (apply Forall_cons; split) || apply Forall_nil_2); try (by apply Hok).
    + unfold chunk_ok. cbn [fst snd]. rewrite Hfmt. split_and!; [done|done|lia].
    + unfold chunk_ok. cbn [fst snd]. split_and!; [done|rewrite Hbody; lia|done].
Qed.

End reader.

(** * A concrete float *)

(** A sample is its 16-bit value, or its 24-bit value over 256. *)
Module Pcm.

Notation read := (read_wav_f32 (λ x, x) (λ x, x / 256)%Z (λ x, x)).
Definition quantize (x : Z) : Z := Z.max (-32767) (Z.min 32767 x).

Lemma quantize_range : ∀ x, (- 2 ^ 15 <= quantize x < 2 ^ 15)%Z.
Proof. intros x. unfold quantize. change (2 ^ 15)%Z with 32768%Z. lia. Qed.

Notation note := (str "LIST", str "abc").

Lemma note_ok : Forall (λ c, chunk_ok c ∧ c.1 ≠ str "fmt " ∧ c.1 ≠ str "data") ([note] ++ [] ++ [note]).
Proof.
  assert (chunk_ok note ∧ note.1 ≠ str "fmt " ∧ note.1 ≠ str "data") as H by (by repeat split).
  cbn [app]. repeat (apply Forall_cons; split; [exact H|]). apply Forall_nil_2.
Qed.

Lemma wav_roundtrip_witness :
  ∃ file, write_pcm16_wav quantize 24000 2 [5; -7; 40000; -40000]%Z = Ok file ∧
  ∃ size format pcm, file = riff size [format; pcm] ∧
    read (riff size ([note] ++ [format] ++ [] ++ [pcm] ++ [note])) =
    Ok {| sample_rate := 24000; channels := 2; samples := map (λ x, quantize x) [5; -7; 40000; -40000]%Z |}.
Proof.
  destruct (write_pcm16_wav quantize 24000 2 [5; -7; 40000; -40000]%Z) as [file|] eqn:E; [|by vm_compute in E].
  exists file. split; [reflexivity|].
  exact (wav_roundtrip (λ x, x) (λ x, x / 256)%Z (λ x, x) quantize 24000 2 [5; -7; 40000; -40000]%Z [note] [] [note] file
    quantize_range ltac:(lia) ltac:(lia) ltac:(by vm_compute) ltac:(done) E note_ok).
Defined.

(** One 24-bit sample is three bytes: without the padding byte behind it the
    reader in memory refuses the file, though the sample is there; with it the
    sample is read. *)
Lemma missing_padding_refused :
  let format := le_bytes 2 1 ++ le_bytes 2 1 ++ le_bytes 4 8000 ++ le_bytes 4 24000 ++ le_bytes 2 3 ++ le_bytes 2 24 in
  let file := riff 40 [(str "fmt ", format)] ++ str "data" ++ le_bytes 4 3 ++ [0; 2; 1]%Z in
  read file = Throw (str "failed to seek inside WAV file") ∧
  read (file ++ [0%Z]) = Ok {| sample_rate := 8000; channels := 1; samples := [258%Z] |}.
Proof. by vm_compute. Qed.

End Pcm.
