(* ===== verification/ChatReply.v ===== *)
(** The reply of the language model on its way to the speakers
    (app/server/runtime.cpp, [chat_orchestrate] and [start_chat_speculation]):
    what the reader thread of a request makes of the stream, what the worker of a
    speculation leaves in its buffer, and what a reader that attaches to the
    buffer replays. *)

From S2P Require Import Prelude Segmenter Scrubber LlmClient.

(** * Events for the writer *)

Inductive ChatEvent :=
| Token (text : bytes)
| Sentence (text : bytes)
| LlmDone (reason : bytes) (ok : bool) (error : bytes).

(** [SentenceSegmenter::feed]; with a positive maximum it never runs out of fuel
    ([Segmenter.feed_spec]). *)
Definition feed_segmenter (s : SentenceSegmenter) (clean : bytes) : SentenceSegmenter * list bytes :=
  default (s, []) (Segmenter.feed s clean).

Definition segmenter_of (o : Options) : SentenceSegmenter :=
  {| options_ := o; Segmenter.pending_ := []; first_segment_emitted_ := false |}.

(** The options of the reader and of the speculation's worker. *)
Definition direct_options : Options :=
  {| first_segment_min_chars := 24; first_segment_word_cut_chars := 48; max_segment_chars := 300 |}.
Definition speculation_options : Options :=
  {| first_segment_min_chars := 40; first_segment_word_cut_chars := 64; max_segment_chars := 300 |}.

(** A reply cut off by the token ceiling ends mid-thought and is not spoken. *)
Definition truncated_tail (reason rest : bytes) : bool :=
  bool_decide (reason = str "length") && negb (ends_with_sentence_terminal (strip_speech_markup rest)).

Definition last_sentence (reason rest : bytes) : list ChatEvent :=
  match rest with [] => [] | _ => if truncated_tail reason rest then [] else [Sentence rest] end.

(** * The speculation buffer *)

Inductive AudioState := AudioNone | AudioRunning | AudioDone | AudioFailed.

#[export] Instance AudioState_eq_dec : EqDecision AudioState.
Proof. solve_decision. Defined.

Section reply.
Context {Double : Type} (minus_one : Double) (nonnegative : Double → bool)
  (json_parse : bytes → outcome (Json.Value Double)).

Notation ChatResult := (@ChatResult Double).

Record ChatSpeculation := {
  text : bytes;
  sentences : list bytes;
  rest : bytes;
  settled : option ChatResult;      (* [llm_done], with what is stored along with it *)
  audio_state : AudioState;
  first_audio_chunks : list bytes;
}.

#[export] Instance ChatSpeculation_settable : Settable ChatSpeculation := λ s,
  {| text := text s; sentences := sentences s; rest := rest s; settled := settled s;
     audio_state := audio_state s; first_audio_chunks := first_audio_chunks s |}.

Definition fresh_speculation : ChatSpeculation :=
  {| text := []; sentences := []; rest := []; settled := None; audio_state := AudioNone; first_audio_chunks := [] |}.

(** * The stream read directly *)

(** The locals of the reader thread, the events it has pushed, and what its loads
    of [abort] will give (false from the end of the list on). *)
Record reader := {
  segmenter : SentenceSegmenter;
  scrubber : StreamScrubber;
  pushed : list ChatEvent;
  aborts : list bool;
}.

#[export] Instance reader_settable : Settable reader := λ r,
  {| segmenter := segmenter r; scrubber := scrubber r; pushed := pushed r; aborts := aborts r |}.

Definition start_reader (o : Options) (aborts : list bool) : reader :=
  {| segmenter := segmenter_of o; scrubber := fresh_scrubber; pushed := []; aborts := aborts |}.

(** [emit] of [chat_orchestrate]. *)
Definition emit (clean : bytes) (r : reader) : reader :=
  match clean with
  | [] => r
  | _ =>
      let '(s, new) := feed_segmenter (segmenter r) clean in
      r <| segmenter := s |> <| pushed := pushed r ++ Token clean :: map Sentence new |>
  end.

Definition on_delta (delta : bytes) (r : reader) : bool * reader :=
  let '(s, clean) := Scrubber.feed (scrubber r) delta in
  let r := emit clean (r <| scrubber := s |>) in
  (match aborts r with a :: _ => negb a | [] => true end, r <| aborts := tail (aborts r) |>).

(** What follows the stream. *)
Definition finish_reader (result : ChatResult) (r : reader) : list ChatEvent :=
  let '(s, clean) := Scrubber.flush (scrubber r) in
  let r := emit clean (r <| scrubber := s |>) in
  pushed r ++ last_sentence (finish_reason result) (Segmenter.flush (segmenter r)).2 ++
  [LlmDone (finish_reason result) (ok result) (error result)].

Definition read_reply (o : Options) (aborts : list bool) (c : connection) (host : bytes) (port : Z) (body : bytes) :
    list ChatEvent * ChatResult :=
  let '(result, r, _) := stream_chat minus_one nonnegative json_parse on_delta c host port body (start_reader o aborts) in
  (finish_reader result r, result).

(** * The speculation's worker *)

(** What the worker does to the outside: its two kinds of critical sections on
    the buffer, and the calls of [synthesize_first] with their settle time. *)
Inductive worker_step :=
| Append (clean : bytes) (new : list bytes)
| Settle (tail : bytes) (result : ChatResult)
| Synthesize (sentence : bytes) (settle_ms : Z).

Definition step_sentences (step : worker_step) : list bytes :=
  match step with Append _ new => new | _ => [] end.

(** The front of [spec->sentences], which only the worker appends to. *)
Definition front_sentence (steps : list worker_step) : option bytes := head (concat (map step_sentences steps)).

Record worker := {
  w_segmenter : SentenceSegmenter;
  w_scrubber : StreamScrubber;
  early_tts_started : bool;
  steps : list worker_step;
  w_aborts : list bool;
}.

#[export] Instance worker_settable : Settable worker := λ w,
  {| w_segmenter := w_segmenter w; w_scrubber := w_scrubber w; early_tts_started := early_tts_started w;
     steps := steps w; w_aborts := w_aborts w |}.

Definition start_worker (aborts : list bool) : worker :=
  {| w_segmenter := segmenter_of speculation_options; w_scrubber := fresh_scrubber; early_tts_started := false;
     steps := []; w_aborts := aborts |}.

(** [emit] of [start_chat_speculation]; an empty first sentence starts nothing. *)
Definition worker_emit (early_tts : bool) (clean : bytes) (w : worker) : worker :=
  match clean with
  | [] => w
  | _ =>
      let '(s, new) := feed_segmenter (w_segmenter w) clean in
      let w := w <| w_segmenter := s |> <| steps := steps w ++ [Append clean new] |> in
      if early_tts && negb (early_tts_started w) then
        match front_sentence (steps w) with
        | Some ((_ :: _) as first) => w <| early_tts_started := true |> <| steps := steps w ++ [Synthesize first 400] |>
        | _ => w
        end
      else w
  end.

Definition worker_on_delta (early_tts : bool) (delta : bytes) (w : worker) : bool * worker :=
  let '(s, clean) := Scrubber.feed (w_scrubber w) delta in
  let w := worker_emit early_tts clean (w <| w_scrubber := s |>) in
  (match w_aborts w with a :: _ => negb a | [] => true end, w <| w_aborts := tail (w_aborts w) |>).

(** The sentence of the last call of [synthesize_first]: empty when there is none. *)
Definition first_sentence (steps : list worker_step) (tail : bytes) : bytes := default tail (front_sentence steps).

(** What follows the stream; the last load of [abort] decides about the audio. *)
Definition finish_worker (early_tts : bool) (result : ChatResult) (w : worker) : list worker_step :=
  let '(s, clean) := Scrubber.flush (w_scrubber w) in
  let w := worker_emit early_tts clean (w <| w_scrubber := s |>) in
  let tail := (Segmenter.flush (w_segmenter w)).2 in
  let aborted := match w_aborts w with a :: _ => a | [] => false end in
  steps w ++ Settle tail result ::
  (if negb (ok result) || aborted then [] else [Synthesize (first_sentence (steps w) tail) 300]).

Definition speculate (early_tts : bool) (aborts : list bool) (c : connection) (host : bytes) (port : Z) (body : bytes) :
    list worker_step * ChatResult :=
  let '(result, w, _) := stream_chat minus_one nonnegative json_parse (worker_on_delta early_tts) c host port body (start_worker aborts) in
  (finish_worker early_tts result w, result).

(** What the buffer becomes. *)
Definition apply_step (step : worker_step) (b : ChatSpeculation) : ChatSpeculation :=
  match step with
  | Append clean new => b <| text := text b ++ clean |> <| sentences := sentences b ++ new |>
  | Settle tail result => b <| rest := tail |> <| settled := Some result |>
  | Synthesize _ _ => b
  end.

Definition apply_steps (steps : list worker_step) (b : ChatSpeculation) : ChatSpeculation :=
  foldl (λ b step, apply_step step b) b steps.

(** * The reader that attaches *)

Record follower := { text_pos : nat; sentence_pos : nat; replayed : list ChatEvent; returned : bool }.

Definition start_follower : follower := {| text_pos := 0; sentence_pos := 0; replayed := []; returned := false |}.

(** One pass of its loop over the buffer it finds: the wait ends after [250] ms
    whatever has come. [ok] and [error] are read under the lock again; they do not
    change any more. *)
Definition poll (b : ChatSpeculation) (f : follower) : follower :=
  let new_text := drop (text_pos f) (text b) in
  let new := drop (sentence_pos f) (sentences b) in
  let events := (match new_text with [] => [] | _ => [Token new_text] end) ++ map Sentence new in
  let '(ending, returned) :=
    match settled b with
    | Some result =>
        (last_sentence (finish_reason result) (rest b) ++
         [LlmDone (finish_reason result) (ok result) (error result)], true)
    | None => ([], false)
    end in
  {| text_pos := length (text b); sentence_pos := length (sentences b);
     replayed := replayed f ++ events ++ ending; returned := returned |}.

End reply.

(** * Callbacks that answer alike *)

Section relation.
Context {Double : Type} (minus_one : Double) (nonnegative : Double → bool)
  (json_parse : bytes → outcome (Json.Value Double)).
Context {T U : Type} (f : bytes → T → bool * T) (g : bytes → U → bool * U) (R : T → U → Prop).
Hypothesis alike : ∀ delta t u, R t u → (f delta t).1 = (g delta u).1 ∧ R (f delta t).2 (g delta u).2.

Notation consume_with h := (LlmClient.consume minus_one nonnegative json_parse h).
Notation read_with h := (read_loop minus_one nonnegative json_parse h).

Lemma consume_events_alike events result t u :
  R t u →
  (consume_events nonnegative f events result t).1 = (consume_events nonnegative g events result u).1 ∧
  R (consume_events nonnegative f events result t).2 (consume_events nonnegative g events result u).2.
Proof.
  revert result t u. induction events as [|e events IH]; intros result t u H; cbn [consume_events]; [done|].
  destruct (event_error e); [|done]. destruct (LlmClient.done e); [done|].
  destruct (delta e) as [|c d]; [by apply IH|].
  destruct (alike (c :: d) t u H) as [E HR].
  destruct (f (c :: d) t) as [go t'], (g (c :: d) u) as [go' u']. cbn in E, HR. subst go'.
  destruct go; [by apply IH|done].
Qed.

Lemma consume_alike chunked data d p result t u :
  R t u → (consume_with f chunked data d p result t).1 = (consume_with g chunked data d p result u).1 ∧
          R (consume_with f chunked data d p result t).2 (consume_with g chunked data d p result u).2.
Proof.
  intros H. unfold LlmClient.consume.
  destruct (if chunked then _ else _) as [[d' payload] final].
  destruct (parser_feed minus_one json_parse payload p) as [p' events].
  destruct (consume_events_alike events result t u H) as [E HR].
  destruct (consume_events nonnegative f events result t) as [[ran r] t'],
    (consume_events nonnegative g events result u) as [[ran' r'] u'].
  cbn in *. by simplify_eq.
Qed.

Lemma read_loop_alike chunked keep net d p result t u :
  R t u → (read_with f chunked keep net d p result t).1 = (read_with g chunked keep net d p result u).1 ∧
          R (read_with f chunked keep net d p result t).2 (read_with g chunked keep net d p result u).2.
Proof.
  revert keep d p result t u. induction net as [|b net IH]; intros keep d p result t u H; cbn [read_loop];
    destruct keep; try done. destruct b as [|c b]; [done|].
  destruct (consume_alike chunked (c :: b) d p result t u H) as [E HR].
  destruct (consume_with f _ _ _ _ _ t) as [[[[k d'] p'] r] t'], (consume_with g _ _ _ _ _ u) as [[[[k' d''] p''] r'] u'].
  cbn in E, HR. simplify_eq. by apply IH.
Qed.

(** A chat request has one result for all callbacks that answer alike, and leaves
    their states related. *)
Lemma stream_chat_alike c host port body t u :
  R t u →
  let '(result, t', sent) := stream_chat minus_one nonnegative json_parse f c host port body t in
  let '(result', u', sent') := stream_chat minus_one nonnegative json_parse g c host port body u in
  result = result' ∧ R t' u' ∧ sent = sent'.
Proof.
  intros H. unfold stream_chat.
  destruct (negb (socket_created c)); [done|]. destruct (negb (address_valid c)); [done|].
  destruct (negb (connected c)); [done|]. destruct (client_send _ _ _) as [[|] sent]; [|done].
  unfold receive_chat. destruct (read_headers (received c) []) as [e|[headers net]]; [done|].
  destruct (bool_decide _); [|done].
  set (chunked := match find_sub _ _ with Some _ => _ | None => _ end).
  set (carry := drop _ headers).
  destruct (consume_alike chunked carry make_decoder make_parser (make_result minus_one) t u H) as [E HR].
  destruct (consume_with f _ _ _ _ _ t) as [[[[k d] p] r] t'], (consume_with g _ _ _ _ _ u) as [[[[k' d'] p'] r'] u'].
  cbn in E, HR. simplify_eq.
  destruct (read_loop_alike chunked k' net d' p' r' t' u' HR) as [E' HR'].
  destruct (read_with f _ _ _ _ _ _ t') as [r1 t1], (read_with g _ _ _ _ _ _ u') as [r2 u1].
  cbn in E', HR'. by simplify_eq.
Qed.

End relation.

(** * What a run comes to *)

(** The recorder of the deltas; it answers like the readers. *)
Definition record_delta (delta : bytes) (s : list bool * list bytes) : bool * (list bool * list bytes) :=
  (match s.1 with a :: _ => negb a | [] => true end, (tail s.1, s.2 ++ [delta])).

(** The clean pieces of the deltas, the flush of the scrubber last. *)
Fixpoint cleaned (s : StreamScrubber) (ds : list bytes) : list bytes :=
  match ds with
  | [] => [(Scrubber.flush s).2]
  | d :: ds => (Scrubber.feed s d).2 :: cleaned (Scrubber.feed s d).1 ds
  end.

(** The sentences cut from pieces. *)
Fixpoint cut (s : SentenceSegmenter) (pieces : list bytes) : SentenceSegmenter * list bytes :=
  match pieces with
  | [] => (s, [])
  | [] :: pieces => cut s pieces
  | p :: pieces =>
      let '(s, new) := feed_segmenter s p in
      let '(s, more) := cut s pieces in (s, new ++ more)
  end.

(** The text shown and the sentences to speak of a list of events. *)
Definition token_text (events : list ChatEvent) : bytes :=
  concat (map (λ e, match e with Token t => t | _ => [] end) events).
Definition to_speak (events : list ChatEvent) : list bytes :=
  concat (map (λ e, match e with Sentence t => [t] | _ => [] end) events).

Lemma token_text_app a b : token_text (a ++ b) = token_text a ++ token_text b.
Proof. unfold token_text. by rewrite map_app, concat_app. Qed.

Lemma to_speak_app a b : to_speak (a ++ b) = to_speak a ++ to_speak b.
Proof. unfold to_speak. by rewrite map_app, concat_app. Qed.

Lemma token_text_sentences new : token_text (map Sentence new) = [].
Proof. unfold token_text. by induction new. Qed.

Lemma to_speak_sentences new : to_speak (map Sentence new) = new.
Proof. unfold to_speak. induction new as [|a new IH]; cbn in *; [done|by f_equal]. Qed.

Create HintDb chat.
#[export] Hint Rewrite token_text_app to_speak_app token_text_sentences to_speak_sentences @app_nil_r : chat.

Lemma concat_cleaned s ds : concat (cleaned s ds) = scrub_all s ds.
Proof.
  revert s. induction ds as [|d ds IH]; intros s; cbn [cleaned concat scrub_all]; [by rewrite app_nil_r|].
  rewrite IH. by destruct (Scrubber.feed s d).
Qed.

(** No sentence is announced before its text is shown. *)
Definition shown_first (events : list ChatEvent) : Prop :=
  ∀ l, l `prefix_of` events → solid (concat (to_speak l)) `prefix_of` solid (token_text l).

Lemma feed_segmenter_spec s clean :
  0 < max_segment_chars (options_ s) →
  let '(s', new) := feed_segmenter s clean in
  options_ s' = options_ s ∧ Forall segment_ok new ∧
  solid (concat new) ++ solid (Segmenter.pending_ s') = solid (Segmenter.pending_ s) ++ solid clean.
Proof.
  intros H. unfold feed_segmenter. destruct (feed_spec s clean H) as (s' & new & -> & Ho & _ & Hok & E). done.
Qed.

Lemma cut_spec s pieces :
  0 < max_segment_chars (options_ s) →
  options_ (cut s pieces).1 = options_ s ∧ Forall segment_ok (cut s pieces).2 ∧
  solid (concat (cut s pieces).2) ++ solid (Segmenter.pending_ (cut s pieces).1) =
  solid (Segmenter.pending_ s) ++ solid (concat pieces).
Proof.
  revert s. induction pieces as [|p pieces IH]; intros s H; cbn [cut concat].
  { split_and!; [done|done|]. cbn. by rewrite app_nil_r. }
  destruct p as [|c p]; [by apply IH|].
  pose proof (feed_segmenter_spec s (c :: p) H) as Hf. destruct (feed_segmenter s (c :: p)) as [s' new].
  destruct Hf as (Ho & Hok & E). destruct (IH s') as (Ho' & Hok' & E'); [by rewrite Ho|].
  destruct (cut s' pieces) as [s'' more]. cbn [fst snd] in *. split_and!; [congruence|by apply Forall_app|].
  by rewrite concat_app, (solid_app (concat new)), <- app_assoc, E', (solid_app (c :: p)), !app_assoc, E.
Qed.

Lemma cut_app s ps qs : cut s (ps ++ qs) = ((cut (cut s ps).1 qs).1, (cut s ps).2 ++ (cut (cut s ps).1 qs).2).
Proof.
  revert s. induction ps as [|p ps IH]; intros s; cbn [app cut fst snd]; [by destruct (cut s qs)|].
  destruct p as [|c p]; [apply IH|]. destruct (feed_segmenter s (c :: p)) as [s' new]. rewrite IH.
  destruct (cut s' ps) as [s2 more]. cbn. by rewrite app_assoc.
Qed.

(** The pieces a scrubber has given so far. *)
Fixpoint fed (s : StreamScrubber) (ds : list bytes) : StreamScrubber * list bytes :=
  match ds with
  | [] => (s, [])
  | d :: ds => let '(s1, c) := Scrubber.feed s d in let '(s2, cs) := fed s1 ds in (s2, c :: cs)
  end.

Lemma fed_snoc s ds d :
  fed s (ds ++ [d]) = ((Scrubber.feed (fed s ds).1 d).1, (fed s ds).2 ++ [(Scrubber.feed (fed s ds).1 d).2]).
Proof.
  revert s. induction ds as [|a ds IH]; intros s; cbn [app fed fst snd]; [by destruct (Scrubber.feed s d)|].
  destruct (Scrubber.feed s a) as [s1 c]. rewrite IH. by destruct (fed s1 ds).
Qed.

Lemma cleaned_fed s ds : cleaned s ds = (fed s ds).2 ++ [(Scrubber.flush (fed s ds).1).2].
Proof.
  revert s. induction ds as [|d ds IH]; intros s; cbn [cleaned fed]; [done|].
  destruct (Scrubber.feed s d) as [s1 c]. cbn. rewrite IH. by destruct (fed s1 ds).
Qed.

(** * The reader's events *)

Section facts.
Context {Double : Type} (minus_one : Double) (nonnegative : Double → bool)
  (json_parse : bytes → outcome (Json.Value Double)).

Notation ChatResult := (@LlmClient.ChatResult Double).

(** A step that shows some text and then sentences of it. *)
Lemma shown_first_app events t new :
  shown_first events → solid (concat (to_speak events ++ new)) `prefix_of` solid (token_text events ++ t) →
  shown_first (events ++ (match t with [] => [] | _ => [Token t] end) ++ map Sentence new).
Proof.
  intros He Hn l Hl. assert (∀ l', l' `prefix_of` map Sentence new →
    solid (concat (to_speak events ++ to_speak l')) `prefix_of` solid (token_text events ++ t) ∧ token_text l' = []) as Hs.
  { intros l' [k Hk]. assert (map Sentence new = l' ++ k) as E by done.
    apply map_eq_app in E as (n1 & n2 & -> & <- & <-). autorewrite with chat. split; [|done].
    etransitivity; [|exact Hn]. rewrite app_assoc, (concat_app (_ ++ _)), (solid_app (concat (_ ++ _))). by apply prefix_app_r. }
  set (tok := match t with [] => [] | _ => [Token t] end) in *.
  assert (token_text tok = t ∧ to_speak tok = []) as [Et Es].
  { destruct t; cbn; [done|]. split; [|done]. unfold token_text. cbn. by rewrite app_nil_r. }
  assert (l `prefix_of` events ∨ ∃ l', l = events ++ tok ++ l' ∧ l' `prefix_of` map Sentence new) as [H|(l' & -> & H)].
  { destruct Hl as [k Hk]. apply app_eq_inv in Hk as [(m & -> & Hm)|(m & -> & Hm)]; [left; by exists m|].
    destruct t as [|c t]; cbn [tok app] in *; [right; exists m; split; [done|by exists k]|].
    destruct m as [|e m]; [left; by rewrite app_nil_r|]. injection Hm as <- Hm. right. exists m. split; [done|by exists k]. }
  - by apply He.
  - destruct (Hs l' H) as [Hp Ht]. autorewrite with chat. rewrite Et, Es, Ht, app_nil_r. by destruct l'.
Qed.

(** The reader [r] has emitted the pieces [ps]. *)
Definition reads (o : Options) (ps : list bytes) (r : reader) : Prop :=
  segmenter r = (cut (segmenter_of o) ps).1 ∧ token_text (pushed r) = concat ps ∧
  to_speak (pushed r) = (cut (segmenter_of o) ps).2 ∧ shown_first (pushed r).

(** What is pending after some pieces is the part of their text not cut off yet. *)
Lemma cut_fresh o ps :
  0 < max_segment_chars o →
  options_ (cut (segmenter_of o) ps).1 = o ∧
  solid (concat (cut (segmenter_of o) ps).2) ++ solid (Segmenter.pending_ (cut (segmenter_of o) ps).1) = solid (concat ps).
Proof. intros Ho. by destruct (cut_spec (segmenter_of o) ps Ho) as (? & _ & ?). Qed.

Lemma cut_snoc o ps c cs :
  0 < max_segment_chars o →
  ∃ s' new, feed_segmenter (cut (segmenter_of o) ps).1 (c :: cs) = (s', new) ∧
    cut (segmenter_of o) (ps ++ [c :: cs]) = (s', (cut (segmenter_of o) ps).2 ++ new) ∧
    solid (concat ((cut (segmenter_of o) ps).2 ++ new)) `prefix_of` solid (concat ps ++ c :: cs).
Proof.
  intros Ho. rewrite cut_app. cbn [cut]. destruct (cut_fresh o ps Ho) as [Hopt E].
  pose proof (feed_segmenter_spec (cut (segmenter_of o) ps).1 (c :: cs)) as Hf.
  destruct (feed_segmenter _ _) as [s' new]. destruct Hf as (_ & _ & Ef); [by rewrite Hopt|].
  exists s', new. split_and!; [done|by rewrite app_nil_r|].
  rewrite concat_app, !solid_app, <- E, <- app_assoc, <- Ef. by apply prefix_app, prefix_app_r.
Qed.

Lemma emit_reads o ps c r : 0 < max_segment_chars o → reads o ps r → reads o (ps ++ [c]) (emit c r).
Proof.
  intros Ho (Es & Et & Ew & Hs). unfold emit. destruct c as [|c cs].
  { unfold reads. rewrite cut_app, concat_app. cbn. rewrite !app_nil_r. done. }
  destruct (cut_snoc o ps c cs Ho) as (s' & new & Ef & Ec & Hp). rewrite Es, Ef.
  match goal with |- reads _ _ ?q =>
    assert (segmenter q = s' ∧ pushed q = pushed r ++ [Token (c :: cs)] ++ map Sentence new) as [E1 E2] by done;
    generalize dependent q end.
  intros q E1 E2. unfold reads. rewrite E1, E2, Ec. split_and!; [done|..].
  - autorewrite with chat. rewrite Et, concat_app. unfold token_text at 1. cbn. by rewrite !app_nil_r.
  - autorewrite with chat. by rewrite Ew.
  - apply (shown_first_app _ (c :: cs)); [done|]. by rewrite Ew, Et.
Qed.

Lemma emit_keeps c (r : reader) : scrubber (emit c r) = scrubber r ∧ aborts (emit c r) = aborts r.
Proof. unfold emit. destruct c; [done|]. by destruct (feed_segmenter _ _). Qed.

(** The state of a reader after the deltas the recorder has seen. *)
Definition reader_after (o : Options) (s : list bool * list bytes) (r : reader) : Prop :=
  reads o (fed fresh_scrubber s.2).2 r ∧ scrubber r = (fed fresh_scrubber s.2).1 ∧ aborts r = s.1.

Lemma shown_first_nil : shown_first [].
Proof. intros l Hl. apply prefix_nil_inv in Hl as ->. by apply prefix_nil. Qed.

Lemma on_delta_after o d (s : list bool * list bytes) r :
  0 < max_segment_chars o → reader_after o s r →
  (record_delta d s).1 = (on_delta d r).1 ∧ reader_after o (record_delta d s).2 (on_delta d r).2.
Proof.
  intros Ho (Hr & Ec & Ea). unfold on_delta. destruct (Scrubber.feed (scrubber r) d) as [sc c] eqn:E.
  assert (∃ r0, r0 = r <| scrubber := sc |> ∧ reads o (fed fresh_scrubber s.2).2 r0 ∧ scrubber r0 = sc ∧ aborts r0 = aborts r)
    as (r0 & Er & Hr0 & Hs0 & Ha0) by (by eexists).
  rewrite <- Er. destruct (emit_keeps c r0) as [Hk1 Hk2]. pose proof (emit_reads o _ c r0 Ho Hr0) as Hr'.
  rewrite Hk2, Ha0, Ea. cbn [fst snd record_delta]. split; [done|].
  unfold reader_after. cbn [fst snd]. rewrite fed_snoc, <- Ec, E. cbn [fst snd].
  split_and!; [exact Hr'|by rewrite <- Hs0|done].
Qed.

(** The part of a run the readers and the worker share: which deltas the server
    sent before the stream ended or was aborted. *)
Definition received_deltas (aborts : list bool) (c : connection) (host : bytes) (port : Z) (body : bytes) :
    ChatResult * list bytes :=
  let '(result, s, _) := stream_chat minus_one nonnegative json_parse record_delta c host port body (aborts, []) in
  (result, s.2).

(** The tail the segmenter gives up at the end. *)
Definition tail_of (o : Options) (ds : list bytes) : bytes :=
  (Segmenter.flush (cut (segmenter_of o) (cleaned fresh_scrubber ds)).1).2.

Lemma shown_first_ending events reason tail result :
  shown_first events → solid (concat (to_speak events ++ [tail])) = solid (token_text events) →
  shown_first (events ++ last_sentence reason tail ++ [LlmDone reason (ok (Double := Double) result) (error result)]).
Proof.
  intros He E. set (fin := LlmDone _ _ _). assert (∀ x, shown_first x → shown_first (x ++ [fin])) as Hf.
  { intros x Hx l [k Hk]. destruct k as [|e k _] using rev_ind.
    - rewrite app_nil_r in Hk. subst l. autorewrite with chat. by apply Hx.
    - rewrite app_assoc in Hk. apply app_inj_tail in Hk as [-> _]. apply Hx. by exists k. }
  rewrite app_assoc. apply Hf. assert (shown_first (events ++ [])) as H0 by by rewrite app_nil_r.
  unfold last_sentence. destruct tail as [|c tail]; [done|]. destruct (truncated_tail _ _); [done|].
  apply (shown_first_app events [] [c :: tail]); [done|]. by rewrite E, app_nil_r.
Qed.

(** The events of a reply read directly. *)
Lemma read_reply_events o aborts c host port body :
  0 < max_segment_chars o →
  let '(result, ds) := received_deltas aborts c host port body in
  ∃ shown, read_reply minus_one nonnegative json_parse o aborts c host port body =
    (shown ++ last_sentence (finish_reason result) (tail_of o ds) ++
       [LlmDone (finish_reason result) (ok result) (error result)], result) ∧
    token_text shown = scrub_all fresh_scrubber ds ∧
    to_speak shown = (cut (segmenter_of o) (cleaned fresh_scrubber ds)).2 ∧ shown_first shown.
Proof.
  intros Ho. unfold received_deltas, read_reply.
  pose proof (stream_chat_alike minus_one nonnegative json_parse record_delta on_delta (λ s r, reader_after o s r)
    (λ d s r, on_delta_after o d s r Ho) c host port body (aborts, []) (start_reader o aborts)) as H.
  destruct (stream_chat _ _ _ record_delta _ _ _ _ _) as [[result s] sent].
  destruct (stream_chat _ _ _ on_delta _ _ _ _ _) as [[result' r] sent'].
  destruct H as (<- & HR & _); [by split_and!; [split_and!; [..|apply shown_first_nil]|..]|].
  destruct HR as (Hr & Ec & _). cbn [fst snd]. unfold finish_reader.
  destruct (Scrubber.flush (scrubber r)) as [sc cl] eqn:E.
  assert (∃ r0, r0 = r <| scrubber := sc |> ∧ reads o (fed fresh_scrubber s.2).2 r0) as (r0 & Er & Hr0) by (by eexists).
  rewrite <- Er. destruct (emit_reads o _ cl r0 Ho Hr0) as (Es & Et & Ew & Hs). exists (pushed (emit cl r0)).
  assert ((fed fresh_scrubber s.2).2 ++ [cl] = cleaned fresh_scrubber s.2) as Ep by (by rewrite cleaned_fed, <- Ec, E).
  rewrite Ep in *. unfold tail_of. rewrite <- Es. split_and!; [done|by rewrite Et, concat_cleaned|done|done].
Qed.

(** * The worker's steps *)

Notation worker_step := (@worker_step Double).

Definition step_text (ss : list worker_step) : bytes :=
  concat (map (λ step, match step with Append clean _ => clean | _ => [] end) ss).
Definition all_sentences (ss : list worker_step) : list bytes := concat (map step_sentences ss).

Definition is_settle (step : worker_step) : bool := match step with Settle _ _ => true | _ => false end.

Lemma step_text_app a b : step_text (a ++ b) = step_text a ++ step_text b.
Proof. unfold step_text. by rewrite map_app, concat_app. Qed.

Lemma all_sentences_app a b : all_sentences (a ++ b) = all_sentences a ++ all_sentences b.
Proof. unfold all_sentences. by rewrite map_app, concat_app. Qed.

(** In every state of the buffer the sentences are part of the text. *)
Definition buffered_first (ss : list worker_step) : Prop :=
  ∀ n, solid (concat (all_sentences (take n ss))) `prefix_of` solid (step_text (take n ss)).

Lemma buffered_first_snoc ss step :
  buffered_first ss → solid (concat (all_sentences (ss ++ [step]))) `prefix_of` solid (step_text (ss ++ [step])) →
  buffered_first (ss ++ [step]).
Proof.
  intros Hs He n. destruct (decide (n <= length ss)); [by rewrite take_app_le|].
  rewrite take_ge by (rewrite length_app; cbn; lia). done.
Qed.

(** The audio is made of the first sentence. *)
Definition synthesizes_front (ss : list worker_step) : Prop :=
  ∀ sentence ms, Synthesize sentence ms ∈ ss → front_sentence ss = Some sentence.

Lemma no_steps_first : buffered_first [] ∧ synthesizes_front [].
Proof. split; [intros n; by rewrite take_nil|intros ?? H; by apply not_elem_of_nil in H]. Qed.

(** The worker has emitted the pieces [ps]. *)
Definition works (ps : list bytes) (w : worker (Double := Double)) : Prop :=
  w_segmenter w = (cut (segmenter_of speculation_options) ps).1 ∧ step_text (steps w) = concat ps ∧
  all_sentences (steps w) = (cut (segmenter_of speculation_options) ps).2 ∧
  Forall (λ step, is_settle step = false) (steps w) ∧ buffered_first (steps w) ∧ synthesizes_front (steps w).

Lemma front_sentence_app (a b : list worker_step) sentence :
  front_sentence a = Some sentence → front_sentence (a ++ b) = Some sentence.
Proof.
  unfold front_sentence. rewrite map_app, concat_app. by destruct (concat (map step_sentences a)).
Qed.

Lemma works_snoc ps w step w' :
  works ps w → steps w' = steps w ++ [step] → w_segmenter w' = w_segmenter w → step_text [step] = [] →
  step_sentences step = [] → is_settle step = false →
  (∀ sentence ms, step = Synthesize sentence ms → front_sentence (steps w) = Some sentence) → works ps w'.
Proof.
  intros (Es & Et & Ew & Hn & Hb & Hf) E Es' Ht Hw Hi Hy.
  assert (all_sentences [step] = []) as Ha by (unfold all_sentences; cbn; by rewrite Hw).
  unfold works. rewrite E, Es', step_text_app, all_sentences_app, Ht, Ha, !app_nil_r. split_and!; try done.
  - apply Forall_app_2; [done|by apply Forall_singleton].
  - apply buffered_first_snoc; [done|]. rewrite step_text_app, all_sentences_app, Ht, Ha, !app_nil_r.
    specialize (Hb (length (steps w))). by rewrite firstn_all in Hb.
  - intros sentence ms [H|H%list_elem_of_singleton]%elem_of_app; apply front_sentence_app; [by eapply Hf|by eapply Hy].
Qed.

Lemma worker_emit_works early ps c w : works ps w → works (ps ++ [c]) (worker_emit early c w).
Proof.
  intros Hw. pose proof Hw as (Es & Et & Ew & Hn & Hb & Hf). unfold worker_emit. destruct c as [|c cs].
  { unfold works. rewrite cut_app, concat_app. cbn. rewrite !app_nil_r. done. }
  destruct (cut_snoc speculation_options ps c cs) as (s' & new & Ef & Ec & Hp); [cbn; lia|]. rewrite Es, Ef.
  assert (∃ w1, w1 = w <| w_segmenter := s' |> <| steps := steps w ++ [Append (c :: cs) new] |> ∧
    w_segmenter w1 = s' ∧ steps w1 = steps w ++ [Append (c :: cs) new]) as (w1 & <- & E1 & E2) by (by eexists).
  assert (works (ps ++ [c :: cs]) w1) as Hw1.
  { unfold works. rewrite E1, E2, Ec, step_text_app, all_sentences_app, Et, Ew, concat_app.
    unfold step_text at 1, all_sentences at 1. cbn [map concat app step_sentences]. rewrite !app_nil_r. split_and!; try done.
    - apply Forall_app_2; [done|by apply Forall_singleton].
    - apply buffered_first_snoc; [done|]. rewrite step_text_app, all_sentences_app, Et, Ew.
      unfold step_text, all_sentences. cbn. by rewrite !app_nil_r.
    - intros sentence ms [H|H%list_elem_of_singleton]%elem_of_app; [|done]. apply front_sentence_app. by eapply Hf. }
  destruct (early && negb (early_tts_started w1)); [|done].
  destruct (front_sentence (steps w1)) as [[|a first]|] eqn:Efr; try done.
  eapply works_snoc; [exact Hw1|done..|]. by intros sentence ms [= <- _].
Qed.

Lemma worker_emit_keeps early c (w : worker (Double := Double)) :
  w_scrubber (worker_emit early c w) = w_scrubber w ∧ w_aborts (worker_emit early c w) = w_aborts w.
Proof.
  unfold worker_emit. destruct c; [done|]. destruct (feed_segmenter _ _). destruct (_ && _); [|done]. by repeat case_match.
Qed.

Definition worker_after (s : list bool * list bytes) (w : worker) : Prop :=
  works (fed fresh_scrubber s.2).2 w ∧ w_scrubber w = (fed fresh_scrubber s.2).1 ∧ w_aborts w = s.1.

Lemma worker_on_delta_after early d (s : list bool * list bytes) w :
  worker_after s w →
  (record_delta d s).1 = (worker_on_delta early d w).1 ∧ worker_after (record_delta d s).2 (worker_on_delta early d w).2.
Proof.
  intros (Hr & Ec & Ea). unfold worker_on_delta. destruct (Scrubber.feed (w_scrubber w) d) as [sc c] eqn:E.
  assert (∃ w0, w0 = w <| w_scrubber := sc |> ∧ works (fed fresh_scrubber s.2).2 w0 ∧ w_scrubber w0 = sc ∧ w_aborts w0 = w_aborts w)
    as (w0 & Er & Hr0 & Hs0 & Ha0) by (by eexists).
  rewrite <- Er. destruct (worker_emit_keeps early c w0) as [Hk1 Hk2]. pose proof (worker_emit_works early _ c w0 Hr0) as Hr'.
  rewrite Hk2, Ha0, Ea. cbn [fst snd record_delta]. split; [done|].
  unfold worker_after. cbn [fst snd]. rewrite fed_snoc, <- Ec, E. cbn [fst snd].
  split_and!; [exact Hr'|by rewrite <- Hs0|done].
Qed.

(** The steps of a speculation. *)
Lemma speculate_steps early aborts c host port body :
  let '(result, ds) := received_deltas aborts c host port body in
  ∃ shown more, speculate minus_one nonnegative json_parse early aborts c host port body =
    (shown ++ Settle (tail_of speculation_options ds) result :: more, result) ∧
    step_text shown = scrub_all fresh_scrubber ds ∧
    all_sentences shown = (cut (segmenter_of speculation_options) (cleaned fresh_scrubber ds)).2 ∧
    Forall (λ step, is_settle step = false) shown ∧ buffered_first shown ∧ synthesizes_front shown ∧
    (more = [] ∨ ok result = true ∧ more = [Synthesize (first_sentence shown (tail_of speculation_options ds)) 300]).
Proof.
  unfold received_deltas, speculate.
  pose proof (stream_chat_alike minus_one nonnegative json_parse record_delta (worker_on_delta early) worker_after
    (worker_on_delta_after early) c host port body (aborts, []) (start_worker aborts)) as H.
  destruct (stream_chat _ _ _ record_delta _ _ _ _ _) as [[result s] sent].
  destruct (stream_chat _ _ _ (worker_on_delta early) _ _ _ _ _) as [[result' w] sent'].
  destruct H as (<- & HR & _).
  { split_and!; [split_and!; try done; apply no_steps_first|done|done]. }
  destruct HR as (Hr & Ec & _). cbn [fst snd]. unfold finish_worker.
  destruct (Scrubber.flush (w_scrubber w)) as [sc cl] eqn:E.
  assert (∃ w0, w0 = w <| w_scrubber := sc |> ∧ works (fed fresh_scrubber s.2).2 w0) as (w0 & Er & Hr0) by (by eexists).
  rewrite <- Er. destruct (worker_emit_works early _ cl w0 Hr0) as (Es & Et & Ew & Hn & Hb & Hf).
  exists (steps (worker_emit early cl w0)).
  assert ((fed fresh_scrubber s.2).2 ++ [cl] = cleaned fresh_scrubber s.2) as Ep by (by rewrite cleaned_fed, <- Ec, E).
  rewrite Ep in *. unfold tail_of. rewrite <- Es. eexists. split; [done|]. rewrite <- concat_cleaned.
  split_and!; try done. destruct (ok result); cbn [negb orb]; [|by left]. case_match; [by left|by right].
Qed.

(** * The replay *)

Lemma apply_steps_shown (ss : list worker_step) b :
  text (apply_steps ss b) = text b ++ step_text ss ∧ sentences (apply_steps ss b) = sentences b ++ all_sentences ss ∧
  (Forall (λ step, is_settle step = false) ss → settled (apply_steps ss b) = settled b ∧ rest (apply_steps ss b) = rest b).
Proof.
  revert b. induction ss as [|step ss IH]; intros b; cbn [apply_steps foldl].
  { unfold step_text, all_sentences. cbn. by rewrite !app_nil_r. }
  destruct (IH (apply_step step b)) as (Et & Ew & Hs). unfold apply_steps in *. rewrite Et, Ew.
  unfold step_text, all_sentences. cbn [map concat]. rewrite !app_assoc.
  split_and!; [destruct step; cbn; by rewrite ?app_nil_r..|].
  intros [Hi Hss]%Forall_cons. destruct (Hs Hss) as [-> ->]. by destruct step.
Qed.

(** The passes of the attached reader, each over the buffer after so many of the
    worker's steps. *)
Definition replay (ss : list worker_step) (polls : list nat) : follower :=
  foldl (λ f n, if returned f then f else poll (apply_steps (take n ss) fresh_speculation) f) start_follower polls.

(** The reader has replayed the first [n] steps. *)
Definition followed (ss : list worker_step) (n : nat) (f : follower) : Prop :=
  returned f = false ∧ text_pos f = length (step_text (take n ss)) ∧ sentence_pos f = length (all_sentences (take n ss)) ∧
  token_text (replayed f) = step_text (take n ss) ∧ to_speak (replayed f) = all_sentences (take n ss) ∧ shown_first (replayed f).

Lemma take_le_app {A} (n m : nat) (l : list A) : n <= m → ∃ k, take m l = take n l ++ k.
Proof. intros H. exists (drop n (take m l)). rewrite <- (take_drop n (take m l)) at 1. by rewrite take_take, Nat.min_l. Qed.

Lemma poll_followed (ss : list worker_step) n m f :
  buffered_first (take m ss) → followed ss n f → n <= m →
  let b := apply_steps (take m ss) fresh_speculation in
  ∃ events, replayed (poll b f) = replayed f ++ events ++
      match settled b with
      | Some result => last_sentence (finish_reason result) (rest b) ++ [LlmDone (finish_reason result) (ok result) (error result)]
      | None => []
      end ∧
    token_text (replayed f ++ events) = step_text (take m ss) ∧ to_speak (replayed f ++ events) = all_sentences (take m ss) ∧
    shown_first (replayed f ++ events) ∧ (settled b = None → followed ss m (poll b f)) ∧
    (returned (poll b f) = true ↔ settled b ≠ None).
Proof.
  intros Hb (Hr & Htp & Hsp & Et & Ew & Hs) Hle b. destruct (take_le_app n m ss Hle) as [k Ek].
  destruct (apply_steps_shown (take m ss) fresh_speculation) as (Eb & Es & _). fold b in Eb, Es. cbn in Eb, Es.
  rewrite Ek, step_text_app in Eb. rewrite Ek, all_sentences_app in Es.
  assert (drop (text_pos f) (text b) = step_text k) as Ed by (by rewrite Htp, Eb, drop_app_length).
  assert (drop (sentence_pos f) (sentences b) = all_sentences k) as Ed' by (by rewrite Hsp, Es, drop_app_length).
  exists ((match step_text k with [] => [] | _ => [Token (step_text k)] end) ++ map Sentence (all_sentences k)).
  set (events := _ ++ map Sentence _).
  assert (token_text events = step_text k ∧ to_speak events = all_sentences k) as [Ee Ee'].
  { unfold events. autorewrite with chat. split; destruct (step_text k) eqn:E; rewrite <- ?E; unfold token_text; cbn; by rewrite ?app_nil_r. }
  assert (token_text (replayed f ++ events) = step_text (take m ss)) as E1
    by (by rewrite token_text_app, Et, Ee, Ek, step_text_app).
  assert (to_speak (replayed f ++ events) = all_sentences (take m ss)) as E2
    by (by rewrite to_speak_app, Ew, Ee', Ek, all_sentences_app).
  assert (shown_first (replayed f ++ events)) as E3.
  { apply shown_first_app; [done|]. rewrite Ew, Et, <- all_sentences_app, <- step_text_app, <- Ek.
    specialize (Hb m). by rewrite take_take, Nat.min_id in Hb. }
  unfold poll. rewrite Ed, Ed'. fold events. destruct (settled b) as [result|] eqn:Eset; cbn [replayed returned].
  - by split_and!.
  - split_and!; try done. intros _. rewrite app_nil_r. split_and!; cbn [text_pos sentence_pos replayed returned]; try done.
    + by rewrite Eb, Ek, step_text_app.
    + by rewrite Es, Ek, all_sentences_app.
Qed.

Lemma silent_steps (shown more : list worker_step) :
  buffered_first shown → step_text more = [] → all_sentences more = [] → buffered_first (shown ++ more).
Proof.
  intros Hb Ht Hw n. rewrite take_app. set (k := take (n - length shown) more).
  assert (step_text k = [] ∧ all_sentences k = []) as [Ek Ek'].
  { unfold k. split; [rewrite <- (take_drop (n - length shown) more), step_text_app in Ht
                     |rewrite <- (take_drop (n - length shown) more), all_sentences_app in Hw];
    by (apply app_eq_nil in Ht as [? _] || apply app_eq_nil in Hw as [? _]). }
  rewrite step_text_app, all_sentences_app, Ek, Ek', !app_nil_r. apply Hb.
Qed.

Section settled_run.
Context (shown more : list worker_step) (final_tail : bytes) (result : ChatResult).
Hypothesis unsettled : Forall (λ step, is_settle step = false) shown.
Hypothesis in_order : buffered_first shown.
Hypothesis silent : ∃ synth, more = map (λ x : bytes * Z, Synthesize x.1 x.2) synth.

Notation ss := (shown ++ Settle final_tail result :: more).
Notation ending := (last_sentence (finish_reason result) final_tail ++
  [LlmDone (finish_reason result) (ok result) (error result)]).

Lemma more_silent k : step_text (take k (Settle final_tail result :: more)) = [] ∧
  all_sentences (take k (Settle final_tail result :: more)) = [] ∧ ∀ b : ChatSpeculation,
  settled (apply_steps (take k more) b) = settled b ∧ rest (apply_steps (take k more) b) = rest b.
Proof.
  destruct silent as [synth ->].
  assert (∀ l : list (bytes * Z), step_text (map (λ x, Synthesize x.1 x.2) l) = [] ∧
    all_sentences (map (λ x, Synthesize (Double := Double) x.1 x.2) l) = [] ∧
    Forall (λ step, is_settle step = false) (map (λ x, Synthesize (Double := Double) x.1 x.2) l)) as H.
  { induction l as [|x l (E1 & E2 & E3)]; [done|]. unfold step_text, all_sentences in *. cbn. by rewrite E1, E2; repeat constructor. }
  split_and!.
  - destruct k; [done|]. unfold step_text in *. cbn [take map concat app]. rewrite firstn_map. apply H.
  - destruct k; [done|]. unfold all_sentences in *. cbn [take map concat app step_sentences]. rewrite firstn_map. apply H.
  - intros b. rewrite firstn_map. by apply apply_steps_shown, H.
Qed.

(** The buffer after [n] steps is settled from the worker's [Settle] on. *)
Lemma settled_after n :
  let b := apply_steps (take n ss) fresh_speculation in
  step_text (take n ss) = step_text (take n shown) ∧ all_sentences (take n ss) = all_sentences (take n shown) ∧
  (n <= length shown → settled b = None) ∧ (length shown < n → settled b = Some result ∧ rest b = final_tail).
Proof.
  intros b. unfold b. rewrite take_app.
  destruct (more_silent (n - length shown)) as (E1 & E2 & _). rewrite step_text_app, all_sentences_app, E1, E2, !app_nil_r.
  unfold apply_steps. rewrite foldl_app. fold (apply_steps (take n shown) fresh_speculation).
  destruct (apply_steps_shown (take n shown) fresh_speculation) as (_ & _ & Hs).
  destruct Hs as [Hs _]; [by apply Forall_take|]. split_and!; [done|done|..].
  - intros Hn. replace (n - length shown) with 0 by lia. done.
  - intros Hn. destruct (n - length shown) as [|k] eqn:Ek; [lia|]. cbn [take foldl].
    destruct (more_silent k) as (_ & _ & Hm). fold (apply_steps (take k more)
      (apply_step (Settle final_tail result) (apply_steps (take n shown) fresh_speculation))).
    by destruct (Hm (apply_step (Settle final_tail result) (apply_steps (take n shown) fresh_speculation))) as [-> ->].
Qed.

(** Passes over ever later buffers: nothing but the end is missing until the
    first that finds the buffer settled. *)
Lemma replay_from polls n f :
  followed ss n f → n <= length shown → StronglySorted le (n :: polls) →
  let f' := foldl (λ f n, if returned f then f else poll (apply_steps (take n ss) fresh_speculation) f) f polls in
  if existsb (λ m, length shown <? m) polls
  then returned f' = true ∧ ∃ events, replayed f' = events ++ ending ∧
       token_text events = step_text shown ∧ to_speak events = all_sentences shown ∧ shown_first events
  else ∃ m, m <= length shown ∧ followed ss m f'.
Proof.
  revert n f. induction polls as [|m polls IH]; intros n f Hf Hn Hsort; cbn [foldl existsb]; [by exists n|].
  apply StronglySorted_inv in Hsort as [Hsort [Hnm Hle]%Forall_cons].
  assert (buffered_first (take m ss)) as Hb.
  { intros k. rewrite take_take. destruct (more_silent (length ss)) as (E1 & E2 & _).
    rewrite take_ge in E1, E2 by (rewrite length_app; lia). by apply silent_steps. }
  destruct (poll_followed ss n m f Hb Hf Hnm) as (events & Er & Et & Ew & Hs & Hnext & Hret).
  destruct (settled_after m) as (E1 & E2 & Hbefore & Hafter).
  rewrite (proj1 Hf). destruct (Nat.ltb_spec (length shown) m) as [Hm|Hm]; cbn [orb].
  - destruct (Hafter Hm) as [Hset Hrest]. rewrite Hset, Hrest in Er.
    assert (returned (poll (apply_steps (take m ss) fresh_speculation) f) = true) as Hdone by (apply Hret; by rewrite Hset).
    set (f1 := poll _ f) in *. assert (∀ l, foldl (λ f n, if returned f then f else poll (apply_steps (take n ss) fresh_speculation) f) f1 l = f1) as ->.
    { induction l as [|a l IHl]; cbn [foldl]; [done|]. by rewrite Hdone. }
    split; [done|]. exists (replayed f ++ events). rewrite Er, app_assoc. split_and!; [done|..|done].
    + by rewrite Et, E1, take_ge by lia.
    + by rewrite Ew, E2, take_ge by lia.
  - apply (IH m); [by apply Hnext, Hbefore|done|done].
Qed.
End settled_run.

End facts.

(** * Properties *)

Section properties.
Context {Double : Type} (minus_one : Double) (nonnegative : Double → bool)
  (json_parse : bytes → outcome (Json.Value Double)).

Notation received := (received_deltas minus_one nonnegative json_parse).

(** What the deltas of a reply come to, whichever way they are read. *)
Lemma tail_conserves o ds sentences :
  0 < max_segment_chars o → sentences = (cut (segmenter_of o) (cleaned fresh_scrubber ds)).2 →
  Forall segment_ok sentences ∧ solid (concat (sentences ++ [tail_of o ds])) = solid (scrub_all fresh_scrubber ds).
Proof.
  intros Ho ->. destruct (cut_spec (segmenter_of o) (cleaned fresh_scrubber ds) Ho) as (_ & Hok & E). split; [done|].
  unfold tail_of, Segmenter.flush. cbn [snd]. rewrite concat_app, solid_app. cbn [concat]. rewrite app_nil_r, solid_trim, E.
  cbn [segmenter_of Segmenter.pending_]. by rewrite concat_cleaned.
Qed.

(** A reply read directly is pushed as the scrubbed text of the deltas the
    server sent, piece by piece, and its sentences: non-empty, trimmed, together
    all of the text but white space, none before its text, and the closing event
    last. Only the tail of a reply that ran into the token ceiling is not spoken. *)
Theorem reply_read_whole o aborts c host port body :
  0 < max_segment_chars o →
  let '(result, ds) := received aborts c host port body in
  let events := (read_reply minus_one nonnegative json_parse o aborts c host port body).1 in
  ∃ shown, events = shown ++ last_sentence (finish_reason result) (tail_of o ds) ++
                      [LlmDone (finish_reason result) (ok result) (error result)] ∧
    token_text shown = scrub_all fresh_scrubber ds ∧ Forall segment_ok (to_speak shown) ∧
    solid (concat (to_speak shown ++ [tail_of o ds])) = solid (token_text shown) ∧ shown_first events.
Proof.
  intros Ho. pose proof (read_reply_events minus_one nonnegative json_parse o aborts c host port body Ho) as H.
  destruct (received aborts c host port body) as [result ds]. destruct H as (shown & -> & Et & Ew & Hs). cbn [fst].
  destruct (tail_conserves o ds (to_speak shown) Ho Ew) as [Hok E]. exists shown.
  rewrite Et. split_and!; try done. apply shown_first_ending; [done|]. by rewrite Et.
Qed.

(** What a reader makes of the deltas: the text, the closing event, and the sentences as its
    options cut them, which say all of the text unless the reply ran into the ceiling. *)
Lemma read_reply_cuts o aborts c host port body :
  0 < max_segment_chars o →
  let '(result, ds) := received aborts c host port body in
  let r := read_reply minus_one nonnegative json_parse o aborts c host port body in
  r.2 = result ∧ token_text r.1 = scrub_all fresh_scrubber ds ∧ last r.1 = Some (LlmDone (finish_reason result) (ok result) (error result)) ∧
  to_speak r.1 = (cut (segmenter_of o) (cleaned fresh_scrubber ds)).2 ++ to_speak (last_sentence (finish_reason result) (tail_of o ds)) ∧
  (finish_reason result ≠ str "length" → solid (concat (to_speak r.1)) = solid (token_text r.1)).
Proof.
  intros Ho. pose proof (read_reply_events minus_one nonnegative json_parse o aborts c host port body Ho) as H.
  destruct (received aborts c host port body) as [result ds]. destruct H as (shown & -> & Et & Ew & Hs). cbn [fst snd].
  destruct (tail_conserves o ds (to_speak shown) Ho Ew) as [_ E].
  assert (token_text (last_sentence (finish_reason result) (tail_of o ds)) = []) as Hl
    by (unfold last_sentence; destruct (tail_of o ds); [done|]; by destruct (truncated_tail _ _)).
  rewrite (app_assoc shown), last_snoc, !token_text_app, !to_speak_app, Hl, Et, Ew.
  assert (∀ r k e, token_text [LlmDone r k e] = [] ∧ to_speak [LlmDone r k e] = []) as Hd by done.
  destruct (Hd (finish_reason result) (ok result) (error result)) as [-> ->]. rewrite !app_nil_r.
  split_and!; try done. intros Hreason. rewrite <- Ew, <- E, !concat_app.
  unfold last_sentence, truncated_tail. rewrite bool_decide_false by done. by destruct (tail_of o ds).
Qed.

(** The passes of an attached reader against a direct one. *)
Lemma replay_alike early aborts c host port body polls :
  StronglySorted le polls →
  let events := (read_reply minus_one nonnegative json_parse speculation_options aborts c host port body).1 in
  let ss := (speculate minus_one nonnegative json_parse early aborts c host port body).1 in
  let f := replay ss polls in
  (returned f = true → token_text (replayed f) = token_text events ∧ to_speak (replayed f) = to_speak events ∧
     last (replayed f) = last events ∧ shown_first (replayed f)) ∧
  ((∃ n, n ∈ polls ∧ length ss <= n) → returned f = true).
Proof.
  intros Hsort. assert (0 < max_segment_chars speculation_options) as Ho by (cbn; lia).
  pose proof (read_reply_events minus_one nonnegative json_parse speculation_options aborts c host port body Ho) as H.
  pose proof (speculate_steps minus_one nonnegative json_parse early aborts c host port body) as H'.
  destruct (received aborts c host port body) as [result ds].
  destruct H as (shown & -> & Et & Ew & Hs), H' as (ss & more & -> & Et' & Ew' & Hn & Hb & _ & Hmore). cbn [fst].
  assert (∃ synth, more = map (λ x : bytes * Z, Synthesize x.1 x.2) synth) as Hm.
  { destruct Hmore as [->|(_ & ->)]; [by exists []|]. by eexists [(_, _)]. }
  assert (∀ ps, StronglySorted le ps → StronglySorted le (0 :: ps)) as H0.
  { intros ps H. constructor; [done|]. apply Forall_forall. intros; lia. }
  pose proof (replay_from ss more (tail_of speculation_options ds) result Hn Hb Hm polls 0 start_follower) as Hr.
  cbn zeta in Hr. fold (replay (ss ++ Settle (tail_of speculation_options ds) result :: more) polls) in Hr.
  destruct (existsb (λ m, length ss <? m) polls) eqn:Ex.
  - destruct Hr as (Hret & events & -> & Ee & Ee' & Hse); [by split_and!; try apply shown_first_nil|lia|by apply H0|].
    split; [|done]. intros _. rewrite !token_text_app, !to_speak_app, !app_assoc, !last_snoc.
    rewrite Ee, Ee', Et, Ew, Et', Ew'. split_and!; [done..|]. rewrite <- app_assoc.
    apply shown_first_ending; [done|]. rewrite Ee, Ee', Et', Ew'. by apply tail_conserves.
  - assert (returned (replay (ss ++ Settle (tail_of speculation_options ds) result :: more) polls) = false) as Hret.
    { destruct Hr as (m & _ & Hf & _); [by split_and!; try apply shown_first_nil|lia|by apply H0|exact Hf]. }
    rewrite Hret. split; [done|]. intros (n & Hin & Hlen). exfalso.
    apply not_true_iff_false in Ex. apply Ex, existsb_exists. exists n. split; [by apply list_elem_of_In|].
    apply Nat.ltb_lt. rewrite length_app in Hlen. cbn in Hlen. lia.
Qed.

(** Attaching to a speculation loses nothing of the reply: whatever the
    instants at which the reader looks into the buffer, before, while or after the
    worker fills it, what it replays has the text, the sentences and the closing
    event of the same generation read at once with the worker's options, with every
    sentence behind its text; and it returns exactly when it has seen the settled buffer. *)
Theorem replay_equals_direct early aborts c host port body polls :
  StronglySorted le polls →
  let events := (read_reply minus_one nonnegative json_parse speculation_options aborts c host port body).1 in
  let ss := (speculate minus_one nonnegative json_parse early aborts c host port body).1 in
  let f := replay ss polls in
  (returned f = true → token_text (replayed f) = token_text events ∧ to_speak (replayed f) = to_speak events ∧
     last (replayed f) = last events ∧ shown_first (replayed f)) ∧
  ((∃ n, n ∈ polls ∧ length ss <= n) → returned f = true).
Proof. apply replay_alike. Qed.

(** No sentence but the first of the reply is ever synthesized ahead, and its
    audio is asked for at most twice: early, when the first sentence is there, and
    once more at the end of a reply that came to a good end. *)
Theorem speculation_speaks_first early aborts c host port body :
  let '(result, ds) := received aborts c host port body in
  let ss := (speculate minus_one nonnegative json_parse early aborts c host port body).1 in
  ∀ sentence ms, Synthesize sentence ms ∈ ss →
    sentence = first_sentence ss (tail_of speculation_options ds).
Proof.
  pose proof (speculate_steps minus_one nonnegative json_parse early aborts c host port body) as H'.
  destruct (received aborts c host port body) as [result ds].
  destruct H' as (ss & more & -> & _ & _ & _ & _ & Hf & Hmore). cbn [fst]. intros sentence ms Hin.
  unfold first_sentence. assert (front_sentence (ss ++ Settle (tail_of speculation_options ds) result :: more) = front_sentence ss) as ->.
  { unfold front_sentence. rewrite map_app, concat_app. destruct Hmore as [->|(_ & ->)]; cbn; by rewrite app_nil_r. }
  apply elem_of_app in Hin as [Hin|Hin]; [by rewrite (Hf _ _ Hin)|].
  apply elem_of_cons in Hin as [|Hin]; [done|]. destruct Hmore as [->|(_ & ->)]; [by apply not_elem_of_nil in Hin|].
  apply list_elem_of_singleton in Hin as [= -> _]. done.
Qed.
End properties.

(** * A concrete reply *)

Module Replied.

Notation sidecar := {| socket_created := true; address_valid := true; connected := true; sends := [1000%Z];
                       received := Collector.net |}.
Notation direct o := (read_reply (-1)%Z (Z.leb 0) Collector.parse o [] sidecar (str "127.0.0.1") 8080 (str "{}")).
Notation worker_steps := (speculate (-1)%Z (Z.leb 0) Collector.parse true [] sidecar (str "127.0.0.1") 8080 (str "{}")).1.

Example direct_events : (direct direct_options).1 =
  [Token (str "Hel"); Token (str "lo"); Sentence (str "Hello"); LlmDone [] true []].
Proof. vm_compute. reflexivity. Qed.

Lemma read_whole_witness :
  let '(result, ds) := received_deltas (-1)%Z (Z.leb 0) Collector.parse [] sidecar (str "127.0.0.1") 8080 (str "{}") in
  ∃ shown, (direct direct_options).1 = shown ++ last_sentence (finish_reason result) (tail_of direct_options ds) ++
                      [LlmDone (finish_reason result) (ok result) (error result)] ∧
    token_text shown = scrub_all fresh_scrubber ds ∧ Forall segment_ok (to_speak shown) ∧
    solid (concat (to_speak shown ++ [tail_of direct_options ds])) = solid (token_text shown) ∧
    shown_first (direct direct_options).1.
Proof.
  apply (reply_read_whole (-1)%Z (Z.leb 0) Collector.parse direct_options [] sidecar (str "127.0.0.1") 8080 (str "{}")).
  cbn. lia.
Defined.

Lemma replay_witness :
  let f := replay worker_steps [1; 1; 2; 9] in
  returned f = true ∧ replayed f = [Token (str "Hel"); Token (str "lo"); Sentence (str "Hello"); LlmDone [] true []] ∧
  token_text (replayed f) = token_text (direct speculation_options).1.
Proof.
  split; [|split]; [vm_compute; reflexivity..|].
  apply (replay_equals_direct (-1)%Z (Z.leb 0) Collector.parse true [] sidecar (str "127.0.0.1") 8080 (str "{}") [1; 1; 2; 9]).
  - repeat constructor.
  - vm_compute. reflexivity.
Defined.

End Replied.
