(* ===== verification/ChatVoice.v ===== *)
(** Speaking one sentence of a reply (app/server/runtime.cpp): the name as it is
    written, the bytes of the audio, and the synthesis of a sentence by
    [chat_orchestrate], where a short line is held back until its voice is known
    to be the character's and made once more if it is not. *)

From S2P Require Import Prelude Segmenter AudioStream Wav.

(** * Text to speak *)

Definition utf8_codepoints (text : bytes) : Z :=
  Z.of_nat (length (List.filter (λ ch, negb (Z.land ch 0xC0 =b 0x80)) text)).

(** [names >> token]: the words between white space. *)
Fixpoint words_loop (text word : bytes) : list bytes :=
  match text with
  | [] => match word with [] => [] | _ => [word] end
  | c :: text =>
      if is_space c then match word with [] => words_loop text [] | _ => word :: words_loop text [] end
      else words_loop text (word ++ [c])
  end.

Definition words (text : bytes) : list bytes := words_loop text [].

Definition is_word_char (c : Z) : bool := is_alnum c || (c =b ch "'").

(** The three tests at one position. *)
Definition name_at (token text : bytes) (pos : nat) : bool :=
  bool_decide (map to_lower token = map to_lower (substr text pos (length token))) &&
  ((pos =? 0) || negb (is_word_char (text_at text (pos - 1)))) &&
  ((pos + length token =? length text) || negb (is_word_char (text_at text (pos + length token)))).

(** [while (pos + token.size() <= text.size())]. *)
Fixpoint rename_loop (fuel : nat) (token text : bytes) (pos : nat) : bytes :=
  match fuel with
  | O => text
  | S fuel =>
      if pos + length token <=? length text then
        if name_at token text pos
        then rename_loop fuel token (take pos text ++ token ++ drop (pos + length token) text) (pos + length token)
        else rename_loop fuel token text (S pos)
      else text
  end.

Definition rename (text token : bytes) : bytes :=
  if (length token <? 3) || negb (forallb is_alpha token) then text
  else rename_loop (S (length text)) token text 0.

Definition speak_name_as_written (text name : bytes) : bytes := foldl rename text (words name).

(** What is said for a sentence. *)
Definition spoken_form (name sentence : bytes) : bytes := speak_name_as_written (strip_speech_markup sentence) name.

(** * Synthesis of a sentence *)

Section speech.
(** [float]: the 16-bit sample, the samples of [0.55] s, the similarity of some
    audio to the character's reference, and its comparisons. *)
Context {Float : Type} (quantize : Float → Z) (enough : Z → nat) (similarity : list Float → Z → Float)
  (identity_floor zero : Float) (at_least below : Float → Float → bool).

Notation AudioBuffer := (@AudioBuffer Float).

Definition encode_pcm16_samples (audio : AudioBuffer) : outcome bytes :=
  if (buffer_rate audio <=? 0)%Z then Throw (str "audio output sample rate must be positive")
  else if (buffer_channels audio <=? 0)%Z then Throw (str "audio output channel count must be positive")
  else if negb (Z.of_nat (length (buffer_samples audio)) mod buffer_channels audio =b 0) then
    Throw (str "audio output sample count must be divisible by channel count")
  else Ok (concat (map (λ sample, le_bytes 2 (quantize sample)) (buffer_samples audio))).

(** The audio fields of a [StreamEvent]. *)
Record SpeechEvent := { audio_output : option AudioBuffer; named_audio_outputs : list AudioBuffer }.

Definition event_buffers (e : SpeechEvent) : list AudioBuffer := option_list (audio_output e) ++ named_audio_outputs e.

(** What the writer does while a sentence is spoken. *)
Inductive op :=
| Drain                       (* [drain_tokens()] *)
| Emit (pcm : bytes)          (* an audio event *)
| Pace                        (* the realtime pacing at the end of the sink *)
| Raise (message : bytes).    (* an exception of the model *)

(** The locals of [synthesize]. *)
Record take_state := { held : list bytes; held_samples : list Float; held_rate : Z; voice_cleared : bool }.

Definition on_buffer (verify_voice : bool) (audio : AudioBuffer) (t : take_state) : list op * outcome take_state :=
  match encode_pcm16_samples audio with
  | Throw e => ([], Throw e)
  | Ok [] => ([], Ok t)
  | Ok pcm =>
      if verify_voice && negb (voice_cleared t) then
        let held := held t ++ [pcm] in
        let held_samples := held_samples t ++ buffer_samples audio in
        let held_rate := if (0 <? buffer_rate audio)%Z then buffer_rate audio else held_rate t in
        if (enough held_rate <=? length held_samples) && at_least (similarity held_samples held_rate) identity_floor
        then (map Emit held, Ok {| held := []; held_samples := held_samples; held_rate := held_rate; voice_cleared := true |})
        else ([], Ok {| held := held; held_samples := held_samples; held_rate := held_rate; voice_cleared := false |})
      else ([Emit pcm], Ok t)
  end.

Fixpoint on_buffers (verify_voice : bool) (buffers : list AudioBuffer) (t : take_state) : list op * outcome take_state :=
  match buffers with
  | [] => ([], Ok t)
  | audio :: buffers =>
      match on_buffer verify_voice audio t with
      | (ops, Ok t) => let '(more, r) := on_buffers verify_voice buffers t in (ops ++ more, r)
      | (ops, Throw e) => (ops, Throw e)
      end
  end.

(** The sink over the events of a run. *)
Fixpoint on_events (verify_voice : bool) (events : list SpeechEvent) (t : take_state) : list op * outcome take_state :=
  match events with
  | [] => ([], Ok t)
  | e :: events =>
      match on_buffers verify_voice (event_buffers e) t with
      | (ops, Ok t) => let '(more, r) := on_events verify_voice events t in (Drain :: ops ++ Pace :: more, r)
      | (ops, Throw e) => (Drain :: ops, Throw e)
      end
  end.

(** [build_speech_request] and [run_streaming_model] for a text, a seed and the
    bound on the tokens: the events it hands to the sink, and how it ends. *)
Context (run_speech : bytes → Z → Z → list SpeechEvent * outcome ()).

Definition speech_max_tokens (spoken : bytes) : Z := Z.min 720 (48 + 4 * utf8_codepoints spoken).

(** [synthesize(seed)]; [held_rate] is kept from one attempt to the next. *)
Definition synthesize (verify_voice : bool) (spoken : bytes) (seed rate : Z) : list op * outcome take_state :=
  let '(events, fate) := run_speech spoken seed (speech_max_tokens spoken) in
  let '(ops, r) := on_events verify_voice events {| held := []; held_samples := []; held_rate := rate; voice_cleared := false |} in
  (ops, t ← r; fate;; Ok t).

Definition emit_held (pcms : list bytes) : list op := concat (map (λ pcm, [Drain; Emit pcm]) pcms).

Definition base_seed (tts_seed : Z) : Z := if (0 <=? tts_seed)%Z then tts_seed else 777.

(** Whether the line is short enough to be checked; [has_reference] is that there
    is a reference profile. *)
Definition must_verify (has_reference : bool) (spoken : bytes) : bool := (utf8_codepoints spoken <=? 48)%Z && has_reference.

(** From the audio of a sentence on to the end of its turn. *)
Definition speak (has_reference : bool) (tts_seed : Z) (spoken : bytes) : list op :=
  let verify_voice := must_verify has_reference spoken in
  match synthesize verify_voice spoken (base_seed tts_seed) 24000 with
  | (ops, Throw e) => ops ++ [Raise e]
  | (ops, Ok t) =>
      if verify_voice && negb (voice_cleared t) then
        let like_them := similarity (held_samples t) (held_rate t) in
        if at_least like_them zero && below like_them identity_floor then
          match synthesize verify_voice spoken (base_seed tts_seed + 1) (held_rate t) with
          | (ops', Throw e) => ops ++ ops' ++ [Raise e]
          | (ops', Ok t') =>
              let retry_like := similarity (held_samples t') (held_rate t') in
              ops ++ ops' ++ emit_held (if below retry_like like_them then held t else held t')
          end
        else ops ++ emit_held (held t)
      else ops
  end.

(** * Facts *)

Definition sent (ops : list op) : list bytes := concat (map (λ o, match o with Emit pcm => [pcm] | _ => [] end) ops).

Lemma sent_app a b : sent (a ++ b) = sent a ++ sent b.
Proof. unfold sent. by rewrite map_app, concat_app. Qed.

Lemma sent_emits pcms : sent (map Emit pcms) = pcms.
Proof. unfold sent. induction pcms as [|p pcms IH]; cbn in *; [done|by f_equal]. Qed.

Lemma sent_held pcms : sent (emit_held pcms) = pcms.
Proof. unfold sent, emit_held. induction pcms as [|p pcms IH]; cbn in *; [done|by f_equal]. Qed.

(** The chunks of some audio: those of the buffers that hold any. *)
Definition chunk_of (audio : AudioBuffer) : list bytes :=
  match encode_pcm16_samples audio with Ok (c :: pcm) => [c :: pcm] | _ => [] end.

Definition chunks_of (buffers : list AudioBuffer) : list bytes := concat (map chunk_of buffers).

Definition take_chunks (spoken : bytes) (seed : Z) : list bytes :=
  chunks_of (concat (map event_buffers (run_speech spoken seed (speech_max_tokens spoken)).1)).

Lemma chunks_of_app a b : chunks_of (a ++ b) = chunks_of a ++ chunks_of b.
Proof. unfold chunks_of. by rewrite map_app, concat_app. Qed.

(** A cleared take has nothing held back, and was cleared by what it has heard. *)
Definition take_ok (verify_voice : bool) (t : take_state) : Prop :=
  if voice_cleared t
  then held t = [] ∧ at_least (similarity (held_samples t) (held_rate t)) identity_floor = true
  else verify_voice = false → held t = [].

Lemma on_buffer_keeps verify audio t :
  take_ok verify t →
  match on_buffer verify audio t with
  | (ops, Ok t') => take_ok verify t' ∧ sent ops ++ held t' = held t ++ chunk_of audio ∧
      (verify && negb (voice_cleared t') = true → sent ops = [])
  | (ops, Throw _) => True
  end.
Proof.
  intros Ht. unfold on_buffer, chunk_of. destruct (encode_pcm16_samples audio) as [[|c pcm]|e]; [|..|done].
  { rewrite app_nil_r. done. }
  destruct (verify && negb (voice_cleared t)) eqn:E.
  - apply andb_true_iff in E as [-> Hc]. apply negb_true_iff in Hc.
    destruct ((enough _ <=? _) && _) eqn:E'; cbn [held].
    + apply andb_true_iff in E' as [_ Hl]. rewrite sent_emits, app_nil_r. split; [by split|done].
    + unfold take_ok. cbn [voice_cleared]. by split_and!.
  - assert (held t = []) as Hn.
    { unfold take_ok in Ht. destruct (voice_cleared t); [apply Ht|]. apply Ht. destruct verify; [done|done]. }
    unfold sent. cbn. rewrite Hn, E. by split_and!.
Qed.

Lemma on_buffers_keeps verify buffers t :
  take_ok verify t →
  match on_buffers verify buffers t with
  | (ops, Ok t') => take_ok verify t' ∧ sent ops ++ held t' = held t ++ chunks_of buffers ∧
      (verify && negb (voice_cleared t') = true → sent ops = [] ∧ verify && negb (voice_cleared t) = true)
  | (ops, Throw _) => True
  end.
Proof.
  revert t. induction buffers as [|audio buffers IH]; intros t Ht; cbn [on_buffers].
  { unfold chunks_of. cbn. rewrite app_nil_r. by split_and!. }
  pose proof (on_buffer_keeps verify audio t Ht) as H. destruct (on_buffer verify audio t) as [ops [t1|e]] eqn:E; [|done].
  destruct H as (H1 & E1 & Hs1). specialize (IH t1 H1). destruct (on_buffers verify buffers t1) as [more [t2|e]]; [|done].
  destruct IH as (H2 & E2 & Hs2). unfold chunks_of in *. cbn [map concat]. split_and!; [done|..].
  - by rewrite sent_app, <- app_assoc, E2, !app_assoc, E1.
  - intros Hv. destruct (Hs2 Hv) as [Hn Hv1]. rewrite sent_app, (Hs1 Hv1), Hn. split; [done|].
    destruct verify; [|done]. destruct (voice_cleared t) eqn:Ec; [|done]. exfalso.
    unfold on_buffer in E. rewrite Ec in E. repeat case_match; simplify_eq/=; by rewrite Ec in Hv1.
Qed.

Lemma on_events_keeps verify events t :
  take_ok verify t →
  match on_events verify events t with
  | (ops, Ok t') => take_ok verify t' ∧ sent ops ++ held t' = held t ++ chunks_of (concat (map event_buffers events)) ∧
      (verify && negb (voice_cleared t') = true → sent ops = [] ∧ verify && negb (voice_cleared t) = true)
  | (ops, Throw _) => True
  end.
Proof.
  revert t. induction events as [|e events IH]; intros t Ht; cbn [on_events].
  { unfold chunks_of. cbn. rewrite app_nil_r. by split_and!. }
  pose proof (on_buffers_keeps verify (event_buffers e) t Ht) as H.
  destruct (on_buffers verify (event_buffers e) t) as [ops [t1|x]]; [|done].
  destruct H as (H1 & E1 & Hs1). specialize (IH t1 H1). destruct (on_events verify events t1) as [more [t2|x]]; [|done].
  destruct IH as (H2 & E2 & Hs2). cbn [map concat]. rewrite chunks_of_app.
  assert (sent (Drain :: ops ++ Pace :: more) = sent ops ++ sent more) as Es by (unfold sent; cbn [map concat app]; by rewrite map_app, concat_app).
  rewrite Es. split_and!; [done|by rewrite <- app_assoc, E2, !app_assoc, E1|].
  intros Hv. destruct (Hs2 Hv) as [Hn Hv1]. destruct (Hs1 Hv1) as [-> Hv0]. by rewrite Hn.
Qed.

Lemma synthesize_keeps verify spoken seed rate ops t :
  synthesize verify spoken seed rate = (ops, Ok t) →
  take_ok verify t ∧ sent ops ++ held t = take_chunks spoken seed ∧
  (verify && negb (voice_cleared t) = true → sent ops = []).
Proof.
  unfold synthesize, take_chunks. destruct (run_speech spoken seed _) as [events fate]. cbn [fst].
  set (t0 := {| held := []; held_samples := []; held_rate := rate; voice_cleared := false |}).
  pose proof (on_events_keeps verify events t0) as H. destruct (on_events verify events t0) as [ops' [t'|e]]; [|done].
  intros [= <- Hr]. destruct fate; [|done]. cbn in Hr. injection Hr as <-.
  destruct H as (H1 & H2 & H3); [done|]. split_and!; [done|done|]. intros Hv. by apply H3.
Qed.

End speech.

(** * Properties *)

Section one_take.
Context {Float : Type} (quantize : Float → Z) (enough : Z → nat) (similarity : list Float → Z → Float)
  (identity_floor zero : Float) (at_least below : Float → Float → bool)
  (run_speech : bytes → Z → Z → list (@SpeechEvent Float) * outcome ()).

(** The order of similarities: what is not below the floor is not below anything
    that is below the floor. *)
Hypothesis order : ∀ a b c, at_least a b = true → below c b = true → below a c = false.

(** A sentence is heard in one take: the audio sent for it is all of the first
    take or, only for a short line whose first take is not the character's voice,
    all of the second - never parts of both and never the two of them. *)
Theorem one_take has_reference tts_seed spoken :
  let ops := speak quantize enough similarity identity_floor zero at_least below run_speech has_reference tts_seed spoken in
  let chunks := take_chunks quantize run_speech spoken in
  (∀ message, Raise message ∉ ops) →
  sent ops = chunks (base_seed tts_seed) ∨
  (must_verify has_reference spoken = true ∧ sent ops = chunks (base_seed tts_seed + 1)%Z).
Proof.
  unfold speak. cbn zeta. set (verify := must_verify has_reference spoken).
  set (synth := synthesize _ _ _ _ _ _ verify spoken).
  destruct (synth (base_seed tts_seed) 24000%Z) as [ops [t|e]] eqn:E1; intros Hok.
  2: { exfalso. apply (Hok e), elem_of_app. right. by apply list_elem_of_singleton. }
  apply synthesize_keeps in E1 as (Ht & Es & Hn).
  destruct (verify && negb (voice_cleared t)) eqn:Ev.
  - specialize (Hn eq_refl). rewrite Hn in Es. cbn in Es.
    destruct (at_least _ zero && below _ identity_floor) eqn:El.
    + destruct (synth (base_seed tts_seed + 1)%Z _) as [ops' [t'|e]] eqn:E2.
      2: { exfalso. apply (Hok e), elem_of_app. right. apply elem_of_app. right. by apply list_elem_of_singleton. }
      apply synthesize_keeps in E2 as (Ht' & Es' & Hn'). rewrite !sent_app, Hn, sent_held. cbn [app].
      apply andb_true_iff in Ev as [Ev _]. apply andb_true_iff in El as [_ Hbelow].
      destruct (voice_cleared t') eqn:Ec.
      * unfold take_ok in Ht'. rewrite Ec in Ht'. destruct Ht' as [Hheld Hlike].
        rewrite (order _ _ _ Hlike Hbelow), Es'. by right.
      * rewrite Ev in Hn'. rewrite (Hn' eq_refl) in *. cbn [app] in *. destruct (below (similarity (held_samples t') _) _); [left; exact Es|right; split; [done|exact Es']].
    + left. by rewrite sent_app, Hn, sent_held, Es.
  - left. assert (held t = []) as Hh.
    { unfold take_ok in Ht. destruct (voice_cleared t); [apply Ht|]. apply Ht. by destruct verify. }
    by rewrite Hh, app_nil_r in Es.
Qed.
End one_take.

(** ** Names *)

Lemma substr_split (text : bytes) pos n :
  pos + n <= length text → text = take pos text ++ substr text pos n ++ drop (pos + n) text.
Proof. intros H. unfold substr. by rewrite <- (drop_drop text n pos), !take_drop. Qed.

(** Renaming changes nothing but the case of letters. *)
Lemma rename_loop_case fuel token text pos :
  map to_lower (rename_loop fuel token text pos) = map to_lower text.
Proof.
  revert text pos. induction fuel as [|fuel IH]; intros text pos; cbn [rename_loop]; [done|].
  destruct (Nat.leb_spec (pos + length token) (length text)); [|done].
  destruct (name_at token text pos) eqn:E; rewrite IH; [|done].
  unfold name_at in E. apply andb_true_iff in E as [[E%bool_decide_eq_true _]%andb_true_iff _].
  rewrite (substr_split text pos (length token)) at 3 by done. by rewrite !map_app, E.
Qed.

Theorem speak_name_case text name : map to_lower (speak_name_as_written text name) = map to_lower text.
Proof.
  unfold speak_name_as_written. generalize (words name). intros l. revert text.
  induction l as [|token l IH]; intros text; cbn [foldl]; [done|]. rewrite IH. unfold rename.
  destruct (_ || _); [done|]. apply rename_loop_case.
Qed.

Example hal : speak_name_as_written (str "I am HAL, not hall; hal's fine") (str "Hal 9000") = str "I am Hal, not hall; hal's fine".
Proof. vm_compute. reflexivity. Qed.

(** * A concrete voice *)

Module Clip.

(** Samples are numbers; a take sounds like the character when its first sample is
    at least that of the floor. *)
Definition sound (samples : list Z) (rate : Z) : Z := default (-1)%Z (head samples).

Definition run (spoken : bytes) (seed tokens : Z) : list (@SpeechEvent Z) * outcome () :=
  ([{| audio_output := Some {| buffer_rate := 10; buffer_channels := 1; buffer_samples := [seed; 2]%Z |}; named_audio_outputs := [] |};
    {| audio_output := Some {| buffer_rate := 10; buffer_channels := 1; buffer_samples := [3; 4]%Z |}; named_audio_outputs := [] |}], Ok tt).

Notation line := (speak id (λ _, 3) sound 8%Z 0%Z (λ a b, b <=? a)%Z Z.ltb run true 7 (str "Hi")).

Lemma line_ops : line = [Drain; Pace; Drain; Pace; Drain; Pace; Drain; Emit (le_bytes 2 8 ++ le_bytes 2 2);
  Emit (le_bytes 2 3 ++ le_bytes 2 4); Pace].
Proof. vm_compute. reflexivity. Qed.

Lemma one_take_witness :
  sent line = take_chunks id run (str "Hi") (base_seed 7) ∨
  (must_verify true (str "Hi") = true ∧ sent line = take_chunks id run (str "Hi") (base_seed 7 + 1)%Z).
Proof.
  apply (one_take id (λ _, 3) sound 8%Z 0%Z (λ a b, b <=? a)%Z Z.ltb run).
  - intros a b c H1 H2. apply Z.leb_le in H1. apply Z.ltb_lt in H2. apply Z.ltb_ge. lia.
  - intros message H. rewrite line_ops in H. repeat (apply elem_of_cons in H as [|H]; [done|]). by apply not_elem_of_nil in H.
Defined.

End Clip.
