(* ===== verification/ChatTurn.v ===== *)
(** One turn of the conversation (app/server/runtime.cpp, [chat_orchestrate]): the
    reader thread and the writer thread of a request over their queue, with the
    worker of a speculation and its synthesis over the shared buffer. A step of a
    thread is a critical section with the code up to the next one; a wait with a
    time limit may end at any time. An event of the stream is a value. *)

From S2P Require Import Prelude Segmenter Scrubber LlmClient ChatReply ChatVoice.

(** * The stream to the client *)

(** The numbers of the last event, in milliseconds; [None] is the [-1] of a mark
    that was not reached. *)
Record Stats := {
  first_token_ms : option Z; first_sentence_ms : option Z; first_audio_ms : option Z;
  wall_ms : Z; audio_bytes : nat; speculative_hit : bool;
}.

Inductive SseEvent :=
| StartEvent (reserve : bool)
| TokenEvent (text : bytes)
| SentenceEvent (text : bytes)
| AudioEvent (pcm : bytes)
| LlmDoneEvent
| ErrorEvent (message : bytes)
| DoneEvent (stats : Stats)
| EndOfStream.                          (* [write_sse_done] *)

Definition silent_failure : bytes := str "the language model returned nothing (it may be reloading); please retry".

(** * Threads *)

Section turn.
Context {Double : Type}.

(** What is said for a sentence, how it is spoken, and the chunks a speculative
    synthesis of what is said stores, with whether it failed after them. *)
Context (say : bytes → bytes) (speak_line : bytes → list op) (store : bytes → list bytes * bool).

(** Whether the client is told to hold more audio; whether so many bytes of audio
    are more than [2.5] s ahead of playback after so many milliseconds; the text
    of a re-prime of the cache for a reply. *)
Context (slow_pace : bool) (far_ahead : nat → Z → bool) (warm_body : bytes → option bytes).

(** The reader thread: the events it is about to push, and where it follows a
    speculation. *)
Record producer := { following : option follower; ahead : list ChatEvent; ended : bool }.

(** A call of [synthesize_first]: in its settle time, about to take the audio
    slot, storing chunks, over. *)
Inductive synth :=
| Settling (sentence : bytes)
| Claiming (spoken : bytes)
| Storing (chunks : list bytes) (failed : bool)
| Over.

(** The writer thread. *)
Inductive writer :=
| Starting
| Waiting
| Deciding (spoken : bytes)
| Following (spoken : bytes) (chunk_pos : nat)
| Playing (spoken : bytes) (chunk_pos : nat) (chunks : list bytes) (last : bool)
| Checking (spoken : bytes)
| Speaking (ops : list op)
| Finished
| Unwound.

Record turn := {
  buffer : option (@ChatSpeculation Double);
  spec_abort : bool;
  worker_ahead : list (@worker_step Double);
  synths : list synth;
  reader : producer;
  queue : list ChatEvent;
  pc : writer;
  token_at : option Z;
  sentence_at : option Z;
  audio_at : option Z;
  bytes_sent : nat;
  llm_finished : bool;
  llm_ok : bool;
  llm_error : bytes;
  reply_text : bytes;
  abort : bool;
  gone : bool;                           (* the client has left *)
  out : list SseEvent;
  warmed : list bytes;                   (* calls of [queue_llm_warm] *)
}.

#[export] Instance turn_settable : Settable turn := λ s,
  {| buffer := buffer s; spec_abort := spec_abort s; worker_ahead := worker_ahead s; synths := synths s; reader := reader s;
     queue := queue s; pc := pc s; token_at := token_at s; sentence_at := sentence_at s; audio_at := audio_at s;
     bytes_sent := bytes_sent s; llm_finished := llm_finished s; llm_ok := llm_ok s; llm_error := llm_error s;
     reply_text := reply_text s; abort := abort s; gone := gone s; out := out s; warmed := warmed s |}.

(** A request that reads the stream itself, and one that attaches to a speculation
    whose worker has the given steps to do. *)
Definition start_turn (b : option ChatSpeculation) (worker : list worker_step) (f : option follower) (events : list ChatEvent) : turn :=
  {| buffer := b; spec_abort := false; worker_ahead := worker; synths := [];
     reader := {| following := f; ahead := events; ended := false |};
     queue := []; pc := Starting; token_at := None; sentence_at := None; audio_at := None; bytes_sent := 0;
     llm_finished := false; llm_ok := true; llm_error := []; reply_text := []; abort := false; gone := false;
     out := []; warmed := [] |}.

Definition direct_turn (events : list ChatEvent) : turn := start_turn None [] None events.

Definition attached_turn (worker : list worker_step) : turn :=
  start_turn (Some fresh_speculation) worker (Some start_follower) [].

(** ** The reader thread *)

Definition push_event (s : turn) : option turn :=
  let p := reader s in
  if ended p then None
  else
    match ahead p with
    | e :: ahead => Some (s <| queue := queue s ++ [e] |> <| reader := {| following := following p; ahead := ahead; ended := false |} |>)
    | [] =>
        match following p, buffer s with
        | Some f, Some b =>
            if returned f then Some (s <| reader := {| following := Some f; ahead := []; ended := true |} |>)
            else if abort s then
              Some (s <| spec_abort := true |> <| reader := {| following := Some f; ahead := []; ended := true |} |>)
            else
              let f' := poll b f in
              Some (s <| reader := {| following := Some f'; ahead := drop (length (replayed f)) (replayed f'); ended := false |} |>)
        | _, _ => Some (s <| reader := {| following := following p; ahead := []; ended := true |} |>)
        end
    end.

(** ** The speculation *)

Definition worker_acts (s : turn) : option turn :=
  match worker_ahead s, buffer s with
  | step :: rest, Some b =>
      let s := s <| worker_ahead := rest |> <| buffer := Some (apply_step step b) |> in
      Some (match step with Synthesize sentence _ => s <| synths := synths s ++ [Settling sentence] |> | _ => s end)
  | _, _ => None
  end.

Definition synth_acts (i : nat) (s : turn) : option turn :=
  let goto p := s <| synths := <[i := p]> (synths s) |> in
  match synths s !! i, buffer s with
  | Some (Settling sentence), Some _ =>
      Some (goto (if spec_abort s then Over else match say sentence with [] => Over | spoken => Claiming spoken end))
  | Some (Claiming spoken), Some b =>
      if bool_decide (audio_state b = AudioNone) then
        let '(chunks, failed) := store spoken in
        Some (goto (Storing chunks failed) <| buffer := Some (b <| audio_state := AudioRunning |>) |>)
      else Some (goto Over)
  | Some (Storing (c :: chunks) failed), Some b =>
      Some (goto (Storing chunks failed) <| buffer := Some (b <| first_audio_chunks := first_audio_chunks b ++ [c] |>) |>)
  | Some (Storing [] false), Some b => Some (goto Over <| buffer := Some (b <| audio_state := AudioDone |>) |>)
  | Some (Storing [] true), Some b =>
      Some (goto Over <| buffer := Some (b <| audio_state := AudioFailed |> <| first_audio_chunks := [] |>) |>)
  | _, _ => None
  end.

(** ** The writer thread *)

Definition unwind (s : turn) : turn := s <| abort := true |> <| pc := Unwound |>.

(** [write_sse], then [k]; it throws when the client has left. *)
Definition write (e : SseEvent) (k : turn → turn) (s : turn) : turn :=
  if gone s then unwind s else k (s <| out := out s ++ [e] |>).

Definition mark (at_ : option Z) (now : Z) : option Z := match at_ with None => Some now | _ => at_ end.

Definition write_token (now : Z) (text : bytes) (k : turn → turn) (s : turn) : turn :=
  write (TokenEvent text) k (s <| token_at := mark (token_at s) now |> <| reply_text := reply_text s ++ text |>).

(** The tokens at the front of a queue. *)
Fixpoint front_tokens (q : list ChatEvent) : list bytes * list ChatEvent :=
  match q with
  | Token t :: q => let '(ts, q) := front_tokens q in (t :: ts, q)
  | _ => ([], q)
  end.

Fixpoint write_tokens (now : Z) (texts : list bytes) (k : turn → turn) (s : turn) : turn :=
  match texts with
  | [] => k s
  | t :: texts => write_token now t (write_tokens now texts k) s
  end.

Definition drain_tokens (now : Z) (k : turn → turn) (s : turn) : turn :=
  let '(texts, q) := front_tokens (queue s) in write_tokens now texts k (s <| queue := q |>).

Definition emit_pcm (now : Z) (pcm : bytes) (k : turn → turn) (s : turn) : turn :=
  write (AudioEvent pcm) k (s <| audio_at := mark (audio_at s) now |> <| bytes_sent := bytes_sent s + length pcm |>).

Definition goto (p : writer) (s : turn) : turn := s <| pc := p |>.

(** One event off the queue. *)
Definition take_event (now : Z) (e : ChatEvent) (s : turn) : turn :=
  match e with
  | Token t => write_token now t (goto Waiting) s
  | Sentence t => match say t with [] => goto Waiting s | spoken => goto (Deciding spoken) s end
  | LlmDone _ ok error =>
      write LlmDoneEvent
        (λ s, goto Waiting
          (match warm_body (reply_text s) with
           | Some body => if ok && negb (bool_decide (reply_text s = [])) then s <| warmed := warmed s ++ [body] |> else s
           | None => s
           end))
        (s <| llm_finished := true |> <| llm_ok := ok |> <| llm_error := error |>)
  end.

Definition stats_of (now : Z) (s : turn) : Stats :=
  {| first_token_ms := token_at s; first_sentence_ms := sentence_at s; first_audio_ms := audio_at s; wall_ms := now;
     audio_bytes := bytes_sent s; speculative_hit := if buffer s then true else false |}.

(** After the loop. *)
Definition close_stream (now : Z) (s : turn) : turn :=
  let finish := λ s, write (DoneEvent (stats_of now s)) (write EndOfStream (λ s, s <| abort := true |> <| pc := Finished |>)) s in
  if llm_ok s then finish s
  else write (ErrorEvent (match llm_error s with [] => silent_failure | e => e end)) finish s.

(** [use_spec_audio] with what it does to the buffer. *)
Definition use_spec_audio (s : turn) : bool * option ChatSpeculation :=
  match sentence_at s, buffer s with
  | None, Some b =>
      match audio_state b with
      | AudioNone => (false, Some (b <| audio_state := AudioFailed |>))
      | AudioRunning | AudioDone => (true, Some b)
      | AudioFailed => (false, Some b)
      end
  | _, b => (false, b)
  end.

Definition decide_audio (now : Z) (spoken : bytes) (s : turn) : turn :=
  let '(use, b) := use_spec_audio s in
  write (SentenceEvent spoken)
    (goto (if use then Following spoken 0 else Speaking (speak_line spoken)))
    (s <| buffer := b |> <| sentence_at := mark (sentence_at s) now |>).

(** One look at the stored audio. *)
Definition follow_audio (spoken : bytes) (chunk_pos : nat) (b : @ChatSpeculation Double) : writer :=
  let failed := bool_decide (audio_state b = AudioFailed) in
  Playing spoken (length (first_audio_chunks b)) (if failed then [] else drop chunk_pos (first_audio_chunks b))
    (failed || negb (bool_decide (audio_state b = AudioRunning))).

Definition had_audio (b : @ChatSpeculation Double) : bool :=
  negb (bool_decide (first_audio_chunks b = [])) && bool_decide (audio_state b = AudioDone).

Definition speak_op (now : Z) (o : op) (k : turn → turn) (s : turn) : turn :=
  match o with
  | Drain => drain_tokens now k s
  | Emit pcm => emit_pcm now pcm k s
  | Pace =>
      match audio_at s with
      | Some first => if negb (llm_finished s) && far_ahead (bytes_sent s) (now - first) then drain_tokens now k s else k s
      | None => k s
      end
  | Raise _ => unwind s
  end.

Definition writer_acts (now : Z) (s : turn) : option turn :=
  match pc s with
  | Starting => Some (write (StartEvent slow_pace) (goto Waiting) s)
  | Waiting =>
      match queue s with
      | e :: q => Some (take_event now e (s <| queue := q |>))
      | [] => if llm_finished s then Some (close_stream now s) else None
      end
  | Deciding spoken => Some (decide_audio now spoken s)
  | Following spoken chunk_pos => (λ b, goto (follow_audio spoken chunk_pos b) s) <$> buffer s
  | Playing spoken chunk_pos (pcm :: chunks) last =>
      Some (drain_tokens now (emit_pcm now pcm (goto (Playing spoken chunk_pos chunks last))) s)
  | Playing spoken chunk_pos [] last => Some (goto (if last then Checking spoken else Following spoken chunk_pos) s)
  | Checking spoken => (λ b, goto (if had_audio b then Waiting else Speaking (speak_line spoken)) s) <$> buffer s
  | Speaking (o :: ops) => Some (speak_op now o (goto (Speaking ops)) s)
  | Speaking [] => Some (goto Waiting s)
  | Finished | Unwound => None
  end.

(** ** Steps *)

Inductive label := Worker | Synth (i : nat) | Reader | Writer (now : Z) | Leave.

Definition step (l : label) (s : turn) : option turn :=
  match l with
  | Worker => worker_acts s
  | Synth i => synth_acts i s
  | Reader => push_event s
  | Writer now => writer_acts now s
  | Leave => Some (s <| gone := true |>)
  end.

Definition run (ls : list label) (s : turn) : option turn := foldl (λ s l, s ≫= step l) (Some s) ls.

Inductive reachable (s0 : turn) : turn → Prop :=
| reach_start : reachable s0 s0
| reach_step l s s' : reachable s0 s → step l s = Some s' → reachable s0 s'.

End turn.

(** * Writing *)

Section writing.
Context {Double : Type}.
Notation turn := (@turn Double).

(** The state after the tokens [texts] are written. *)
Definition with_tokens (now : Z) (texts : list bytes) (s : turn) : turn :=
  foldl (λ s t, s <| token_at := mark (token_at s) now |> <| reply_text := reply_text s ++ t |> <| out := out s ++ [TokenEvent t] |>) s texts.

(** Everything but the stream and what is remembered of the tokens. *)
Record same_but_tokens (s s' : turn) : Prop := {
  same_buffer : buffer s' = buffer s;
  same_abort : spec_abort s' = spec_abort s;
  same_ahead : worker_ahead s' = worker_ahead s;
  same_synths : synths s' = synths s;
  same_reader : reader s' = reader s;
  same_queue : queue s' = queue s;
  same_pc : pc s' = pc s;
  same_sentence_at : sentence_at s' = sentence_at s;
  same_audio_at : audio_at s' = audio_at s;
  same_bytes : bytes_sent s' = bytes_sent s;
  same_finished : llm_finished s' = llm_finished s;
  same_ok : llm_ok s' = llm_ok s;
  same_error : llm_error s' = llm_error s;
  same_over : abort s' = abort s;
  same_gone : gone s' = gone s;
  same_warmed : warmed s' = warmed s;
}.

Lemma with_tokens_spec now texts s :
  same_but_tokens s (with_tokens now texts s) ∧ out (with_tokens now texts s) = out s ++ map TokenEvent texts ∧
  reply_text (with_tokens now texts s) = reply_text s ++ concat texts.
Proof.
  revert s. induction texts as [|t texts IH]; intros s; cbn [with_tokens foldl map concat].
  { rewrite !app_nil_r. by repeat split. }
  destruct (IH (s <| token_at := mark (token_at s) now |> <| reply_text := reply_text s ++ t |> <| out := out s ++ [TokenEvent t] |>))
    as ([] & Ho & Hr).
  unfold with_tokens in *. split_and!.
  - split; etransitivity; eauto.
  - rewrite Ho. cbn. by rewrite <- app_assoc.
  - rewrite Hr. cbn. by rewrite <- app_assoc.
Qed.

(** What holds after a write: of the state the exception leaves, or of the rest. *)
Lemma write_wp (Q : turn → Prop) e k s :
  (∀ s', pc s' = Unwound → Q s') → (gone s = false → Q (k (s <| out := out s ++ [e] |>))) → Q (write e k s).
Proof. intros Hu Hk. unfold write. destruct (gone s); [by apply Hu|by apply Hk]. Qed.

Lemma write_tokens_wp (Q : turn → Prop) now texts k s :
  (∀ s', pc s' = Unwound → Q s') → ((gone s = true → texts = []) → Q (k (with_tokens now texts s))) →
  Q (write_tokens now texts k s).
Proof.
  intros Hu. revert s. induction texts as [|t texts IH]; intros s Hk; cbn [write_tokens]; [by apply Hk|].
  unfold write_token. apply write_wp; [done|]. intros Hg. apply IH. intros _. apply Hk. cbn in Hg. congruence.
Qed.

Lemma drain_wp (Q : turn → Prop) now k s :
  (∀ s', pc s' = Unwound → Q s') →
  (∀ texts q, queue s = map Token texts ++ q → Q (k (with_tokens now texts (s <| queue := q |>)))) →
  Q (drain_tokens now k s).
Proof.
  intros Hu Hk. unfold drain_tokens. destruct (front_tokens (queue s)) as [texts q] eqn:E.
  apply write_tokens_wp; [done|]. intros _. apply Hk. clear Hk. revert texts q E.
  induction (queue s) as [|e l IH]; cbn [front_tokens]; intros texts q E; [by simplify_eq|].
  destruct e; try by simplify_eq. destruct (front_tokens l) as [ts q0]. simplify_eq. cbn. f_equal. by apply IH.
Qed.

End writing.

(** * The stream follows the reply *)

Section order.
Context {Double : Type} (say : bytes → bytes) (speak_line : bytes → list op) (store : bytes → list bytes * bool)
  (slow_pace : bool) (far_ahead : nat → Z → bool) (warm_body : bytes → option bytes).
Notation turn := (@turn Double).
Notation step := (step say speak_line store slow_pace far_ahead warm_body).

(** The stream without its audio, and what a list of events puts into it. *)
Definition texts (es : list SseEvent) : list SseEvent :=
  List.filter (λ e, match e with AudioEvent _ => false | _ => true end) es.

Definition script_of (e : ChatEvent) : list SseEvent :=
  match e with
  | Token t => [TokenEvent t]
  | Sentence t => match say t with [] => [] | spoken => [SentenceEvent spoken] end
  | LlmDone _ _ _ => [LlmDoneEvent]
  end.

Definition script (events : list ChatEvent) : list SseEvent := concat (map script_of events).

(** The last closing event of a list. *)
Definition verdict (events : list ChatEvent) : option (bool * bytes) :=
  foldl (λ v e, match e with LlmDone _ ok error => Some (ok, error) | _ => v end) None events.

Definition complaint (v : option (bool * bytes)) : list SseEvent :=
  match v with
  | Some (false, error) => [ErrorEvent (match error with [] => silent_failure | e => e end)]
  | _ => []
  end.

(** Everything the reader has produced: for a direct turn the given events. *)
Definition produced (events : list ChatEvent) (s : turn) : list ChatEvent :=
  match following (reader s) with Some f => replayed f | None => events end.

(** What the writer has written, by where it is; [done] are the events it has
    taken off the queue. *)
Definition written (s : turn) (done : list ChatEvent) : Prop :=
  match pc s with
  | Starting => done = [] ∧ out s = []
  | Deciding spoken => ∃ d t, done = d ++ [Sentence t] ∧ say t = spoken ∧ spoken ≠ [] ∧
      texts (out s) = StartEvent slow_pace :: script d
  | Finished => llm_finished s = true ∧ ∃ stats, texts (out s) = StartEvent slow_pace :: script done ++ complaint (verdict done) ++ [DoneEvent stats; EndOfStream]
  | Unwound => True
  | _ => texts (out s) = StartEvent slow_pace :: script done
  end.

Definition ordered (events : list ChatEvent) (s : turn) : Prop :=
  pc s ≠ Unwound → ∃ done, produced events s = done ++ queue s ++ ahead (reader s) ∧ written s done ∧
    reply_text s = token_text done ∧ llm_finished s = bool_decide (is_Some (verdict done)) ∧
    (llm_ok s, llm_error s) = default (true, []) (verdict done).

Lemma stream_texts_app a b : texts (a ++ b) = texts a ++ texts b.
Proof. apply List.filter_app. Qed.

Lemma script_app a b : script (a ++ b) = script a ++ script b.
Proof. unfold script. by rewrite map_app, concat_app. Qed.

Lemma script_tokens ts : script (map Token ts) = map TokenEvent ts.
Proof. unfold script. induction ts as [|t ts IH]; cbn in *; [done|by f_equal]. Qed.

Lemma texts_tokens ts : texts (map TokenEvent ts) = map TokenEvent ts.
Proof. unfold texts. induction ts as [|t ts IH]; cbn in *; [done|by f_equal]. Qed.

Lemma token_text_tokens ts : token_text (map Token ts) = concat ts.
Proof. unfold token_text. induction ts as [|t ts IH]; cbn in *; [done|by rewrite IH]. Qed.

Lemma verdict_app a b : verdict (a ++ b) = match verdict b with None => verdict a | v => v end.
Proof.
  unfold verdict. rewrite foldl_app. generalize (foldl (λ v e, match e with LlmDone _ ok error => Some (ok, error) | _ => v end) None a).
  induction b as [|e b IH] using rev_ind; intros v; [done|]. rewrite !foldl_app. cbn [foldl]. destruct e; [apply IH|apply IH|done].
Qed.

Lemma verdict_tokens ts : verdict (map Token ts) = None.
Proof. unfold verdict. generalize (@None (bool * bytes)). by induction ts. Qed.

Lemma ordered_unwound events s : pc s = Unwound → ordered events s.
Proof. intros H. by unfold ordered. Qed.

Lemma poll_extends (b : @ChatSpeculation Double) f : replayed (poll b f) = replayed f ++ drop (length (replayed f)) (replayed (poll b f)).
Proof. unfold poll. destruct (settled b); cbn [replayed]; by rewrite drop_app_length. Qed.

Lemma reader_ordered events s s' : push_event s = Some s' → ordered events s → ordered events s'.
Proof.
  unfold push_event. intros E H. destruct (ended (reader s)); [done|].
  destruct (ahead (reader s)) as [|e rest] eqn:Ea.
  - assert (∀ p, following p = following (reader s) → ahead p = [] → ordered events (s <| reader := p |>)) as Hp.
    { intros p Hf Hn Hu. destruct (H Hu) as (done & E1 & E2). exists done. split; [|exact E2].
      unfold produced in *. cbn. rewrite Hf, Hn. by rewrite Ea in E1. }
    destruct (following (reader s)) as [f|] eqn:Ef; [|simplify_eq; by apply Hp].
    destruct (buffer s) as [b|]; [|simplify_eq; by apply Hp].
    destruct (returned f); [simplify_eq; by apply Hp|]. destruct (abort s); simplify_eq.
    + intros Hu. destruct (H Hu) as (done & E1 & E2). exists done. split; [|exact E2].
      unfold produced in *. cbn. by rewrite Ef, Ea in E1.
    + intros Hu. destruct (H Hu) as (done & E1 & E2). exists done. split; [|exact E2].
      unfold produced in *. rewrite Ef, Ea, app_nil_r in E1. cbn [reader following ahead].
      change (replayed (poll b f) = done ++ queue s ++ drop (length (replayed f)) (replayed (poll b f))).
      etransitivity; [apply poll_extends|]. by rewrite E1, <- app_assoc.
  - injection E as <-. intros Hu. destruct (H Hu) as (done & E1 & E2). exists done. split; [|exact E2].
    unfold produced in *. rewrite Ea in E1. cbn. by rewrite <- app_assoc.
Qed.

(** The writer, at the head of its loop or within a sentence. *)
Definition plain_pc (p : writer) : bool :=
  match p with Waiting | Following _ _ | Playing _ _ _ _ | Checking _ | Speaking _ => true | _ => false end.

(** What a step of the writer may change besides the stream. *)
Definition in_order (events : list ChatEvent) (s : turn) (done : list ChatEvent) : Prop :=
  produced events s = done ++ queue s ++ ahead (reader s) ∧ texts (out s) = StartEvent slow_pace :: script done ∧
  reply_text s = token_text done ∧ llm_finished s = bool_decide (is_Some (verdict done)) ∧
  (llm_ok s, llm_error s) = default (true, []) (verdict done).

Lemma in_order_ordered events s done : in_order events s done → plain_pc (pc s) = true → ordered events s.
Proof.
  intros (H1 & H2 & H3) Hp _. exists done. split_and!; [done| |apply H3..]. unfold written. by destruct (pc s).
Qed.

Lemma ordered_in_order events s : ordered events s → plain_pc (pc s) = true → ∃ done, in_order events s done.
Proof.
  intros H Hp. destruct H as (done & H1 & H2 & H3); [by destruct (pc s)|]. exists done. split_and!; [done| |apply H3..].
  unfold written in H2. by destruct (pc s).
Qed.

(** Draining, an audio event, and a step that leaves the stream alone. *)
Lemma drain_in_order events now k s done (Q : turn → Prop) :
  in_order events s done → (∀ s', pc s' = Unwound → Q s') →
  (∀ s' done', in_order events s' done' → same_but_tokens s (s' <| queue := queue s |>) → Q (k s')) →
  Q (drain_tokens now k s).
Proof.
  intros (H1 & H2 & H3 & H4 & H5) Hu Hk. apply drain_wp; [done|]. intros ts q Eq.
  destruct (with_tokens_spec now ts (s <| queue := q |>)) as ([] & Ho & Hr).
  eapply (Hk _ (done ++ map Token ts)); [|by split].
  unfold in_order, produced in *. rewrite same_reader0, same_queue0, same_finished0, same_ok0, same_error0, Ho, Hr.
  change (reader (s <| queue := q |>)) with (reader s). change (queue (s <| queue := q |>)) with q.
  change (out (s <| queue := q |>)) with (out s). change (reply_text (s <| queue := q |>)) with (reply_text s).
  change (llm_finished (s <| queue := q |>)) with (llm_finished s). change (llm_ok (s <| queue := q |>)) with (llm_ok s).
  change (llm_error (s <| queue := q |>)) with (llm_error s).
  split_and!.
  - rewrite H1, Eq. by rewrite <- !app_assoc.
  - by rewrite stream_texts_app, texts_tokens, script_app, script_tokens, H2.
  - by rewrite token_text_app, token_text_tokens, H3.
  - by rewrite verdict_app, verdict_tokens.
  - by rewrite verdict_app, verdict_tokens.
Qed.
Lemma emit_in_order events now pcm k s done (Q : turn → Prop) :
  in_order events s done → (∀ s', pc s' = Unwound → Q s') →
  (gone s = false → in_order events (s <| audio_at := mark (audio_at s) now |> <| bytes_sent := bytes_sent s + length pcm |>
                       <| out := out s ++ [AudioEvent pcm] |>) done →
   Q (k (s <| audio_at := mark (audio_at s) now |> <| bytes_sent := bytes_sent s + length pcm |> <| out := out s ++ [AudioEvent pcm] |>))) →
  Q (emit_pcm now pcm k s).
Proof.
  intros (H1 & H2 & H3) Hu Hk. unfold emit_pcm. apply write_wp; [done|]. intros Hg. apply Hk; [done|].
  split_and!; [done| |apply H3..].
  change (texts (out s ++ [AudioEvent pcm]) = StartEvent slow_pace :: script done). by rewrite stream_texts_app, H2, app_nil_r.
Qed.

Lemma take_event_ordered events now e q s :
  pc s = Waiting → queue s = e :: q → ordered events s → ordered events (take_event say warm_body now e (s <| queue := q |>)).
Proof.
  intros Hpc Hq H. destruct (ordered_in_order events s H) as (done & H1 & H2 & H3 & H4 & H5); [by rewrite Hpc|].
  assert (produced events s = (done ++ [e]) ++ q ++ ahead (reader s)) as H1' by (by rewrite H1, Hq, <- app_assoc).
  destruct e as [t|t|reason ok0 error0]; cbn [take_event].
  - unfold write_token. apply write_wp; [apply ordered_unwound|]. intros _. apply (in_order_ordered _ _ (done ++ [Token t])); [|done].
    split_and!; [exact H1'| | |rewrite verdict_app; exact H4|rewrite verdict_app; exact H5].
    + cbn. rewrite stream_texts_app, script_app, H2. done.
    + cbn. rewrite H3, token_text_app. unfold token_text at 3. cbn. by rewrite app_nil_r.
  - assert (token_text (done ++ [Sentence t]) = token_text done) as Et by (by rewrite token_text_app, app_nil_r).
    destruct (say t) as [|c spoken] eqn:Es.
    + apply (in_order_ordered _ _ (done ++ [Sentence t])); [|done].
      split_and!; [exact H1'| |by rewrite Et|rewrite verdict_app; exact H4|rewrite verdict_app; exact H5].
      rewrite script_app. unfold script at 2. cbn. by rewrite Es, app_nil_r.
    + intros _. exists (done ++ [Sentence t]). split; [exact H1'|]. split; [by exists done, t|].
      rewrite Et, verdict_app. by split_and!.
  - apply write_wp; [apply ordered_unwound|]. intros _.
    match goal with |- ordered _ (goto Waiting ?s1) => set (s1' := s1) end.
    assert (produced events s1' = produced events s ∧ queue s1' = q ∧ reader s1' = reader s ∧ out s1' = out s ++ [LlmDoneEvent] ∧
      reply_text s1' = reply_text s ∧ llm_finished s1' = true ∧ llm_ok s1' = ok0 ∧ llm_error s1' = error0) as (E1 & E2 & E3 & E4 & E5 & E6 & E7 & E8).
    { unfold s1'. destruct (warm_body _); [|done]. by destruct (ok0 && _). }
    apply (in_order_ordered _ _ (done ++ [LlmDone reason ok0 error0])); [|done].
    change (in_order events s1' (done ++ [LlmDone reason ok0 error0])). unfold in_order.
    rewrite E1, E2, E3, E4, E5, E6, E7, E8, verdict_app, stream_texts_app, script_app, token_text_app. cbn [verdict foldl].
    split_and!; [exact H1'|by rewrite H2|by rewrite H3, app_nil_r|done|done].
Qed.

Lemma close_stream_ordered events now s :
  pc s = Waiting → llm_finished s = true → ordered events s → ordered events (close_stream now s).
Proof.
  intros Hpc Hl H. destruct (ordered_in_order events s H) as (done & H1 & H2 & H3 & H4 & H5); [by rewrite Hpc|].
  rewrite Hl in H4. symmetry in H4. apply bool_decide_eq_true in H4 as [[v error] Ev]. rewrite Ev in H5. cbn in H5.
  injection H5 as Hv He. unfold close_stream. rewrite Hv.
  assert (∀ s', produced events s' = produced events s → queue s' = queue s → reader s' = reader s →
    reply_text s' = reply_text s → llm_finished s' = true → llm_ok s' = v → llm_error s' = error →
    texts (out s') = StartEvent slow_pace :: script done ++ complaint (Some (v, error)) →
    ordered events (write (DoneEvent (stats_of now s')) (write EndOfStream (λ s, s <| abort := true |> <| pc := Finished |>)) s')) as Hfin.
  { intros s' E1 E2 E3 E4 E5 E6 E7 E8. apply write_wp; [apply ordered_unwound|]. intros _.
    apply write_wp; [apply ordered_unwound|]. intros _. intros _. exists done. cbn. rewrite E3, E2, E4, E5, E6, E7, Ev.
    split_and!; [by rewrite <- H1, <- E1|done| |done|done|done]. exists (stats_of now s').
    fold (texts ((out s' ++ [DoneEvent (stats_of now s')]) ++ [EndOfStream])).
    rewrite !stream_texts_app, E8. cbn. by rewrite <- !app_assoc. }
  destruct v.
  - apply Hfin; try done. rewrite H2. cbn. by rewrite app_nil_r.
  - apply write_wp; [apply ordered_unwound|]. intros _. apply Hfin; try done. cbn [complaint].
    change (texts (out s ++ [ErrorEvent (match llm_error s with [] => silent_failure | e => e end)]) =
      StartEvent slow_pace :: script done ++ [ErrorEvent (match error with [] => silent_failure | e => e end)]).
    rewrite stream_texts_app, H2, He. by destruct error.
Qed.

Lemma decide_ordered events now spoken s :
  pc s = Deciding spoken → ordered events s → ordered events (decide_audio speak_line now spoken s).
Proof.
  intros Hpc H. destruct (H ltac:(by rewrite Hpc)) as (done & H1 & H2 & H3 & H4 & H5).
  unfold written in H2. rewrite Hpc in H2. destruct H2 as (d & t & -> & Et & Hne & H2).
  unfold decide_audio. destruct (use_spec_audio s) as [use b]. apply write_wp; [apply ordered_unwound|]. intros _.
  apply (in_order_ordered _ _ (d ++ [Sentence t])); [|by destruct use].
  split_and!; [exact H1| |exact H3|exact H4|exact H5].
  cbn. rewrite stream_texts_app, script_app, H2. unfold script at 3. cbn. rewrite Et. by destruct spoken.
Qed.

Lemma writer_ordered events now s s' :
  writer_acts say speak_line slow_pace far_ahead warm_body now s = Some s' → ordered events s → ordered events s'.
Proof.
  intros E H. unfold writer_acts in E. destruct (pc s) eqn:Hpc.
  - injection E as <-. apply write_wp; [apply ordered_unwound|]. intros _.
    destruct (H ltac:(by rewrite Hpc)) as (done & H1 & H2 & H3 & H4 & H5). unfold written in H2. rewrite Hpc in H2.
    destruct H2 as [-> Ho]. apply (in_order_ordered _ _ []); [|done]. split_and!; [exact H1| |exact H3|exact H4|exact H5].
    cbn. by rewrite Ho.
  - destruct (queue s) as [|e q] eqn:Hq.
    + destruct (llm_finished s) eqn:Hl; [|done]. injection E as <-. by apply close_stream_ordered.
    + injection E as <-. by apply take_event_ordered.
  - injection E as <-. by apply decide_ordered.
  - destruct (buffer s); [|done]. injection E as <-. destruct (ordered_in_order events s H) as (done & Hd); [by rewrite Hpc|].
    by apply (in_order_ordered _ _ done).
  - destruct (ordered_in_order events s H) as (done & Hd); [by rewrite Hpc|].
    destruct chunks as [|pcm chunks]; injection E as <-.
    + apply (in_order_ordered _ _ done); [exact Hd|]. cbn. by case_match.
    + eapply drain_in_order; [exact Hd|apply ordered_unwound|]. intros s1 done1 H1 _.
      eapply emit_in_order; [exact H1|apply ordered_unwound|]. intros _ H2. by apply (in_order_ordered _ _ done1).
  - destruct (buffer s); [|done]. injection E as <-. destruct (ordered_in_order events s H) as (done & Hd); [by rewrite Hpc|].
    apply (in_order_ordered _ _ done); [exact Hd|]. by destruct (had_audio _).
  - destruct (ordered_in_order events s H) as (done & Hd); [by rewrite Hpc|].
    destruct ops as [|o ops]; injection E as <-; [by apply (in_order_ordered _ _ done)|].
    assert (∀ s1 done1, in_order events s1 done1 → ordered events (goto (Speaking ops) s1)) as Hk
      by (intros s1 done1 H1; by apply (in_order_ordered _ _ done1)).
    assert (ordered events (drain_tokens now (goto (Speaking ops)) s)) as Hdrain
      by (eapply drain_in_order; [exact Hd|apply ordered_unwound|]; intros s1 done1 H1 _; by eapply Hk).
    destruct o; cbn [speak_op]; [done| | |by apply ordered_unwound].
    + eapply emit_in_order; [exact Hd|apply ordered_unwound|]. intros _ H2. by eapply Hk.
    + destruct (audio_at s); [|by eapply Hk]. destruct (_ && _); [done|by eapply Hk].
  - done.
  - done.
Qed.

Lemma step_ordered events l s s' : step l s = Some s' → ordered events s → ordered events s'.
Proof.
  destruct l as [|i| |now|]; cbn [ChatTurn.step].
  - unfold worker_acts. intros E H. repeat case_match; simplify_eq; exact H.
  - unfold synth_acts. intros E H. repeat case_match; simplify_eq; exact H.
  - apply reader_ordered.
  - apply writer_ordered.
  - intros [= <-] H. exact H.
Qed.

Lemma start_ordered events b worker f :
  (∀ g, f = Some g → replayed g = events) → ordered events (start_turn b worker f events).
Proof.
  intros Hf _. exists []. unfold produced. cbn. split_and!; try done. destruct f as [g|]; [by apply Hf|done].
Qed.

(** ** Runs *)

Notation run := (run say speak_line store slow_pace far_ahead warm_body).
Notation reachable := (reachable say speak_line store slow_pace far_ahead warm_body).

Lemma run_turn_app ls ls' (s : turn) : run (ls ++ ls') s = run ls s ≫= run ls'.
Proof.
  unfold ChatTurn.run. rewrite foldl_app. destruct (foldl _ (Some s) ls) as [s1|]; [done|]. cbn. by induction ls'.
Qed.

Lemma run_reachable (s0 s : turn) ls s' : reachable s0 s → run ls s = Some s' → reachable s0 s'.
Proof.
  revert s. induction ls as [|l ls IH]; intros s H E; [by injection E as <-|].
  change (l :: ls) with ([l] ++ ls) in E. rewrite run_turn_app in E. cbn in E. destruct (step l s) as [s1|] eqn:E1; [|done].
  apply (IH s1); [|done]. by eapply reach_step.
Qed.

End order.
