(* ===== verification/ChatStream.v ===== *)
(** What the client of a turn of the conversation gets to see and to hear
    (app/server/runtime.cpp, [chat_orchestrate], with [start_chat_speculation]):
    the theorems about the threads of [ChatTurn], for a turn that reads the
    language model itself and for one that attaches to a speculation. *)

From S2P Require Import Prelude Segmenter Scrubber LlmClient ChatReply ChatVoice ChatTurn.

(** * The closing event *)

Lemma verdict_prefix a b : verdict (a ++ b) = None → verdict a = None.
Proof. rewrite verdict_app. by destruct (verdict b). Qed.

Lemma verdict_sentences l : verdict (map Sentence l) = None.
Proof. unfold verdict. generalize (@None (bool * bytes)). by induction l. Qed.

Lemma verdict_token t : verdict (match t with [] => [] | _ => [Token t] end) = None.
Proof. by destruct t. Qed.

Lemma verdict_last_sentence reason rest : verdict (last_sentence reason rest) = None.
Proof. unfold last_sentence. destruct rest; [done|]. by destruct (truncated_tail _ _). Qed.

Create HintDb verdicts.
#[export] Hint Rewrite verdict_app verdict_sentences verdict_token verdict_last_sentence : verdicts.

(** A list of events whose closing event is the last and the only one. *)
Definition closed (events : list ChatEvent) (ok0 : bool) (error0 : bytes) : Prop :=
  ∃ shown reason, events = shown ++ [LlmDone reason ok0 error0] ∧ verdict shown = None.

Lemma closed_verdict events ok0 error0 : closed events ok0 error0 → verdict events = Some (ok0, error0).
Proof. intros (shown & reason & -> & H). by rewrite verdict_app. Qed.

(** What precedes the closing event has none. *)
Lemma closed_whole events ok0 error0 a b :
  closed events ok0 error0 → events = a ++ b → is_Some (verdict a) → b = [].
Proof.
  intros (shown & reason & -> & H) E Ha. destruct b as [|e b _] using rev_ind; [done|].
  rewrite app_assoc in E. apply app_inj_tail in E as [-> _]. apply verdict_prefix in H. rewrite H in Ha. by destruct Ha.
Qed.

Section direct.
Context {Double : Type} (minus_one : Double) (nonnegative : Double → bool)
  (json_parse : bytes → outcome (Json.Value Double)).

Lemma emit_verdict c r : verdict (pushed r) = None → verdict (pushed (emit c r)) = None.
Proof.
  intros H. unfold emit. destruct c as [|c cs]; [done|]. destruct (feed_segmenter _ _) as [s new].
  change (verdict (pushed r ++ Token (c :: cs) :: map Sentence new) = None).
  rewrite (app_assoc _ [_] (map _ _) : pushed r ++ Token (c :: cs) :: map Sentence new = _). by autorewrite with verdicts.
Qed.

Lemma read_reply_closed o aborts c host port body :
  let '(events, result) := read_reply minus_one nonnegative json_parse o aborts c host port body in
  closed events (ok result) (error result).
Proof.
  unfold read_reply.
  pose proof (stream_chat_alike minus_one nonnegative json_parse on_delta on_delta (λ r r', r = r' ∧ verdict (pushed r) = None)
    ltac:(intros d t u [<- H]; split; [done|]; split; [done|]; unfold on_delta; destruct (Scrubber.feed _ _) as [sc cl];
          apply (emit_verdict cl (t <| scrubber := sc |>)); exact H) c host port body (start_reader o aborts) (start_reader o aborts)) as H.
  destruct (stream_chat _ _ _ on_delta _ _ _ _ _) as [[result r] sent]. destruct H as (_ & [_ H] & _); [done|].
  unfold finish_reader. destruct (Scrubber.flush (scrubber r)) as [sc cl].
  exists (pushed (emit cl (r <| scrubber := sc |>)) ++ last_sentence (finish_reason result)
    (Segmenter.flush (segmenter (emit cl (r <| scrubber := sc |>)))).2), (finish_reason result).
  split; [by rewrite <- app_assoc|]. rewrite verdict_app, verdict_last_sentence. by apply emit_verdict.
Qed.
End direct.

(** * The reader that attaches *)

Section attached.
Context {Double : Type}.
Notation turn := (@turn Double).
Notation worker_step := (@worker_step Double).
Notation ChatResult := (@LlmClient.ChatResult Double).

(** What a worker does, up to the audio of its first sentence ([speculate_steps]). *)
Record worker_script (ss : list worker_step) (first : bytes) (result : ChatResult) : Prop := {
  script_shown : list worker_step;
  script_tail : bytes;
  script_more : list worker_step;
  script_steps : ss = script_shown ++ Settle script_tail result :: script_more;
  script_unsettled : Forall (λ step, is_settle step = false) script_shown;
  script_buffered : buffered_first script_shown;
  script_front : synthesizes_front script_shown;
  script_first : first = first_sentence script_shown script_tail;
  script_end : script_more = [] ∨ script_more = [Synthesize first 300];
}.

(** What a reader looks at. *)
Definition seen (b : @ChatSpeculation Double) : bytes * list bytes * bytes * option ChatResult :=
  (text b, sentences b, rest b, settled b).

Lemma poll_seen b b' f : seen b = seen b' → poll b f = poll b' f.
Proof. unfold seen, poll. by intros [= -> -> -> ->]. Qed.

Lemma apply_step_seen step b b' : seen b = seen b' → seen (apply_step step b) = seen (apply_step step b').
Proof. unfold seen. intros [= E1 E2 E3 E4]. destruct step; cbn; by rewrite ?E1, ?E2, ?E3, ?E4. Qed.

(** The reader of the turn has come to where some passes over the buffer bring it. *)
Definition replaying (ss : list worker_step) (s : turn) : Prop :=
  ∃ n polls b f, worker_ahead s = drop n ss ∧ n <= length ss ∧ buffer s = Some b ∧
    seen b = seen (apply_steps (take n ss) fresh_speculation) ∧ following (reader s) = Some f ∧
    f = replay ss polls ∧ StronglySorted le polls ∧ Forall (λ m, m <= n) polls.

Context (say : bytes → bytes) (speak_line : bytes → list op) (store : bytes → list bytes * bool)
  (slow_pace : bool) (far_ahead : nat → Z → bool) (warm_body : bytes → option bytes).

Notation step := (step say speak_line store slow_pace far_ahead warm_body).
Notation writer_acts := (writer_acts say speak_line slow_pace far_ahead warm_body).
Notation reachable := (reachable say speak_line store slow_pace far_ahead warm_body).

(** What the writer may do to the buffer. *)
Definition claimed (b b' : option (@ChatSpeculation Double)) : Prop :=
  b' = b ∨ ∃ b0, b = Some b0 ∧ audio_state b0 = AudioNone ∧ b' = Some (b0 <| audio_state := AudioFailed |>).

Lemma claimed_seen b b' : claimed b b' → seen <$> b' = seen <$> b.
Proof. by intros [->|(b0 & -> & _ & ->)]. Qed.

(** The parts of the state the writer leaves alone. *)
Definition framed (s s' : turn) : Prop :=
  worker_ahead s' = worker_ahead s ∧ synths s' = synths s ∧ reader s' = reader s ∧ claimed (buffer s) (buffer s') ∧
  (abort s' = abort s ∨ pc s' = Finished) ∧ length (queue s') <= length (queue s).

Lemma framed_tokens now ts s q s1 :
  length q <= length (queue s) →
  (∀ s0, same_but_tokens (s <| queue := q |>) s0 → worker_ahead (s1 s0) = worker_ahead s0 ∧ synths (s1 s0) = synths s0 ∧
     reader (s1 s0) = reader s0 ∧ buffer (s1 s0) = buffer s0 ∧ abort (s1 s0) = abort s0 ∧ queue (s1 s0) = queue s0) →
  framed s (s1 (with_tokens now ts (s <| queue := q |>))).
Proof.
  intros Hq H. destruct (with_tokens_spec now ts (s <| queue := q |>)) as (Hs & _).
  destruct (H _ Hs) as (E1 & E2 & E3 & E4 & E5 & E6). destruct Hs. unfold framed.
  rewrite E1, E2, E3, E4, E5, E6, same_queue. split_and!; try done; [rewrite same_buffer|]; by left.
Qed.

Lemma writer_framed now s s' : writer_acts now s = Some s' → pc s' = Unwound ∨ framed s s'.
Proof.
  set (Q := λ s', pc s' = Unwound ∨ framed s s').
  assert (∀ s', pc s' = Unwound → Q s') as Hu by by left.
  assert (∀ s1, framed s s1 → Q s1) as Hf by by right.
  assert (∀ s1, worker_ahead s1 = worker_ahead s ∧ synths s1 = synths s ∧ reader s1 = reader s ∧ buffer s1 = buffer s ∧
    abort s1 = abort s ∧ length (queue s1) <= length (queue s) → Q s1) as Hk.
  { intros s1 (E1 & E2 & E3 & E4 & E5 & E6). apply Hf. unfold framed. rewrite E1, E2, E3, E4, E5. by split_and!; try left. }
  assert (∀ ops : list op, Q (drain_tokens now (goto (Speaking ops)) s)) as Hd.
  { intros ops. apply drain_wp; [done|]. intros ts q Eq. apply Hf. apply (framed_tokens now ts s q (goto _)); [|done].
    rewrite Eq, length_app. lia. }
  intros E. unfold ChatTurn.writer_acts in E. change (Q s'). destruct (pc s) eqn:Hpc; try done.
  - injection E as <-. apply write_wp; [done|]. intros _. by apply Hk.
  - destruct (queue s) as [|e q] eqn:Eq; [destruct (llm_finished s); [|done]|]; injection E as <-.
    + unfold close_stream. assert (∀ s1, framed s s1 → Q (write (DoneEvent (stats_of now s1)) (write EndOfStream
        (λ s, s <| abort := true |> <| pc := Finished |>)) s1)) as Hend.
      { intros s1 (H1 & H2 & H3 & H4 & H5 & H6). do 2 (apply write_wp; [done|]; intros _). apply Hf. split_and!; try done. by right. }
      destruct (llm_ok s); [|apply write_wp; [done|]; intros _]; (apply Hend; by split_and!; try left).
    + assert (length q <= length (queue s)) as Hq by (rewrite Eq; cbn; lia). rewrite <- Eq in Hk. destruct e; cbn [take_event].
      * unfold write_token. apply write_wp; [done|]. intros _. by apply Hk.
      * by destruct (say _); apply Hk.
      * apply write_wp; [done|]. intros _. apply Hk. destruct (warm_body _); [|done]. by destruct (_ && _).
  - injection E as <-. unfold decide_audio. destruct (use_spec_audio s) as [use b] eqn:Eu.
    apply write_wp; [done|]. intros _. apply Hf. split_and!; try done; [|by left].
    change (claimed (buffer s) b). unfold use_spec_audio in Eu.
    destruct (sentence_at s), (buffer s) as [b0|]; try destruct (audio_state b0) eqn:Ea; injection Eu as _ <-; try by left.
    right. by exists b0.
  - apply fmap_Some in E as (b & _ & ->). by apply Hk.
  - destruct chunks as [|pcm chunks]; injection E as <-; [by apply Hk|].
    apply drain_wp; [done|]. intros ts q Eq. unfold emit_pcm. apply write_wp; [done|]. intros _.
    apply Hf. apply (framed_tokens now ts s q (λ s, goto (Playing _ _ _ _) (s <| audio_at := mark (audio_at s) now |> <| bytes_sent := bytes_sent s + length pcm |>
      <| out := out s ++ [AudioEvent pcm] |>))); [|done]. rewrite Eq, length_app. lia.
  - apply fmap_Some in E as (b & _ & ->). by apply Hk.
  - destruct ops as [|o ops]; injection E as <-; [by apply Hk|]. destruct o; cbn [speak_op].
    + done.
    + unfold emit_pcm. apply write_wp; [done|]. intros _. by apply Hk.
    + destruct (audio_at s); [|by apply Hk]. destruct (_ && _); [done|by apply Hk].
    + by left.
Qed.

Lemma replay_snoc (ss : list worker_step) polls n :
  replay ss (polls ++ [n]) =
  if returned (replay ss polls) then replay ss polls else poll (apply_steps (take n ss) fresh_speculation) (replay ss polls).
Proof. unfold replay. by rewrite foldl_app. Qed.

Lemma sorted_snoc polls n : StronglySorted le polls → Forall (λ m, m <= n) polls → StronglySorted le (polls ++ [n]).
Proof.
  induction 1 as [|a polls H IH Ha]; intros Hn; cbn [app]; [repeat constructor|].
  apply Forall_cons in Hn as [Han Hn]. constructor; [by apply IH|]. apply Forall_app_2; [done|by apply Forall_singleton].
Qed.

(** What keeps the reader where it is. *)
Lemma replaying_same ss s s' :
  worker_ahead s' = worker_ahead s → reader s' = reader s → seen <$> buffer s' = seen <$> buffer s →
  replaying ss s → replaying ss s'.
Proof.
  intros E1 E2 E3 (n & polls & b & f & H1 & H2 & H3 & H4 & H5). rewrite H3 in E3. apply fmap_Some in E3 as (b' & Hb & E).
  exists n, polls, b', f. rewrite E1, E2, Hb, <- E. split_and!; try done; apply H5.
Qed.

Lemma synth_seen i s s' :
  synth_acts say store i s = Some s' →
  worker_ahead s' = worker_ahead s ∧ reader s' = reader s ∧ seen <$> buffer s' = seen <$> buffer s ∧ pc s' = pc s ∧
  out s' = out s ∧ sentence_at s' = sentence_at s.
Proof.
  unfold synth_acts. intros E. destruct (synths s !! i) as [y|]; [|done].
  destruct (buffer s) as [b|] eqn:Eb; [|by destruct y as [| |[|] []|]].
  destruct y as [sentence|spoken|[|c chunks] []|]; [|case_bool_decide; [destruct (store spoken)|]|..]; simplify_eq; cbn; by rewrite ?Eb.
Qed.

Lemma replaying_step ss l s s' :
  step l s = Some s' → (pc s ≠ Unwound → replaying ss s) → pc s' ≠ Unwound → replaying ss s'.
Proof.
  intros E H Hu. destruct l as [|i| |now|]; cbn [ChatTurn.step] in E.
  - unfold worker_acts in E. destruct (worker_ahead s) as [|st rest] eqn:Ea; [done|].
    destruct (buffer s) as [b|] eqn:Eb; [|done].
    assert (pc s' = pc s ∧ worker_ahead s' = rest ∧ buffer s' = Some (apply_step st b) ∧ reader s' = reader s) as (E0 & E1 & E2 & E3)
      by (destruct st; by simplify_eq).
    destruct H as (n & polls & b' & f & H1 & H2 & H3 & H4 & H5 & H6 & H7 & H8); [congruence|]. rewrite Eb in H3. injection H3 as <-.
    assert (ss !! n = Some st) as Hn by (by rewrite <- (Nat.add_0_r n), <- lookup_drop, <- H1, Ea).
    exists (S n), polls, (apply_step st b), f. rewrite E1, E2, E3. split_and!; try done.
    + by rewrite <- Nat.add_1_r, <- drop_drop, <- H1, Ea.
    + apply lookup_lt_Some in Hn. lia.
    + rewrite (take_S_r _ _ _ Hn). unfold apply_steps. rewrite foldl_app. by apply apply_step_seen.
    + eapply Forall_impl; [exact H8|]. cbn. lia.
  - destruct (synth_seen i s s' E) as (E1 & E2 & E3 & E4 & _). apply (replaying_same ss s); try done. apply H. congruence.
  - unfold push_event in E. destruct (ended (reader s)); [done|].
    destruct H as (n & polls & b' & f & H1 & H2 & H3 & H4 & H5 & H6 & H7 & H8); [intros ?; apply Hu; by repeat case_match; simplify_eq|].
    rewrite H5, H3 in E. destruct (ahead (reader s)) as [|e rest].
    + destruct (returned f) eqn:Er; [|destruct (abort s)]; injection E as <-; [exists n, polls, b', f; by split_and!..|].
      exists n, (polls ++ [n]), b', (poll b' f). rewrite replay_snoc, <- H6, Er. split_and!; try done.
      * by apply poll_seen.
      * by apply sorted_snoc.
      * apply Forall_app_2; [done|by apply Forall_singleton].
    + injection E as <-. by exists n, polls, b', f.
  - destruct (writer_framed now s s' E) as [|(E1 & E2 & E3 & E4%claimed_seen & _)]; [done|]. apply (replaying_same ss s); try done.
    apply H. intros Hp. unfold ChatTurn.writer_acts in E. by rewrite Hp in E.
  - injection E as <-. by apply (replaying_same ss s); [..|apply H].
Qed.

(** ** What a replay comes to *)

Lemma poll_closed (b : @ChatSpeculation Double) f :
  verdict (replayed f) = None →
  match settled b with
  | Some result => returned (poll b f) = true ∧ closed (replayed (poll b f)) (ok result) (error result)
  | None => returned (poll b f) = false ∧ verdict (replayed (poll b f)) = None
  end.
Proof.
  intros H. unfold poll. destruct (settled b) as [result|]; cbn [returned replayed].
  - split; [done|]. set (new := match drop (text_pos f) (text b) with [] => [] | _ => _ end ++ _).
    exists (replayed f ++ new ++ last_sentence (finish_reason result) (rest b)), (finish_reason result).
    unfold new. split; [by rewrite <- !app_assoc|]. by autorewrite with verdicts.
  - split; [done|]. by autorewrite with verdicts.
Qed.

Section script.
Context (ss : list worker_step) (first : bytes) (result : ChatResult).
Hypothesis script : worker_script ss first result.

Lemma script_settled n : settled (apply_steps (take n ss) fresh_speculation) = None ∨
  settled (apply_steps (take n ss) fresh_speculation) = Some result.
Proof.
  destruct script as [shown tail more -> Hn Hb Hf Ef Hmore].
  assert (∃ synth, more = map (λ x : bytes * Z, Synthesize x.1 x.2) synth) as Hm
    by (destruct Hmore as [->| ->]; [by exists []|by eexists [(_, _)]]).
  destruct (settled_after shown more tail result Hn Hm n) as (_ & _ & H1 & H2).
  destruct (decide (n <= length shown)); [left; by apply H1|right; apply H2; lia].
Qed.

Lemma replay_closed polls :
  if returned (replay ss polls) then closed (replayed (replay ss polls)) (ok result) (error result)
  else verdict (replayed (replay ss polls)) = None.
Proof.
  induction polls as [|n polls IH] using rev_ind; [done|]. rewrite replay_snoc.
  destruct (returned (replay ss polls)) eqn:Er; [by rewrite Er|]. pose proof (poll_closed (apply_steps (take n ss) fresh_speculation) _ IH) as H.
  destruct (script_settled n) as [E|E]; rewrite E in H; by destruct H as [-> H].
Qed.

(** The first sentence replayed is the one that is synthesized. *)
Lemma replay_first polls :
  StronglySorted le polls → to_speak (replayed (replay ss polls)) = [] ∨ head (to_speak (replayed (replay ss polls))) = Some first.
Proof.
  intros Hsort. destruct script as [shown tail more -> Hn Hb Hf Ef Hmore].
  assert (∃ synth, more = map (λ x : bytes * Z, Synthesize x.1 x.2) synth) as Hm
    by (destruct Hmore as [->| ->]; [by exists []|by eexists [(_, _)]]).
  pose proof (replay_from shown more tail result Hn Hb Hm polls 0 start_follower) as Hr. cbn zeta in Hr.
  fold (replay (shown ++ Settle tail result :: more) polls) in Hr.
  assert (∀ x l, all_sentences shown = x :: l → first = x) as Hfirst.
  { intros x l E. rewrite Ef. unfold first_sentence, front_sentence. fold (all_sentences shown). by rewrite E. }
  assert (∀ k l, all_sentences (take k shown) = l → l = [] ∨ head l = Some first) as Hk.
  { intros k [|x l] E; [by left|]. right. rewrite (Hfirst x (l ++ all_sentences (drop k shown))); [done|].
    rewrite <- (take_drop k shown) at 1. by rewrite all_sentences_app, E. }
  destruct (existsb (λ m, length shown <? m) polls).
  - destruct Hr as (_ & events & -> & _ & Ee & _);
      [by split_and!; try apply shown_first_nil|lia|by constructor; [|apply Forall_true; lia]|].
    rewrite !to_speak_app, Ee. destruct (all_sentences shown) as [|x l] eqn:E; [|right; by rewrite (Hfirst x l)].
    unfold last_sentence. destruct tail as [|c tail]; [by left|]. destruct (truncated_tail _ _); [by left|]. right.
    rewrite Ef. unfold first_sentence, front_sentence. fold (all_sentences shown). by rewrite E.
  - destruct Hr as (m & Hm' & _ & _ & _ & _ & Hr & _);
      [by split_and!; try apply shown_first_nil|lia|by constructor; [|apply Forall_true; lia]|].
    apply (Hk m). by rewrite Hr, take_app_le by lia.
Qed.
End script.

(** ** The finished stream *)

(** The stream of a reply, but for the audio. *)
Definition transcript (events : list ChatEvent) (stats : Stats) : list SseEvent :=
  StartEvent slow_pace :: ChatTurn.script say events ++ complaint (verdict events) ++ [DoneEvent stats; EndOfStream].

Notation ordered := (ordered say slow_pace).

Lemma finished_stream events (s : turn) ok0 error0 :
  ordered events s → pc s = Finished → (is_Some (verdict (produced events s)) → closed (produced events s) ok0 error0) →
  ∃ stats, texts (out s) = transcript (produced events s) stats ∧ reply_text s = token_text (produced events s) ∧
    closed (produced events s) ok0 error0.
Proof.
  intros H Hpc Hc. destruct H as (done & E & Hw & Hr & Hf & _); [by rewrite Hpc|]. unfold written in Hw. rewrite Hpc in Hw.
  destruct Hw as (Hl & stats & Ho). rewrite Hl in Hf. symmetry in Hf. apply bool_decide_eq_true in Hf.
  assert (is_Some (verdict (produced events s))) as Hp by (rewrite E, verdict_app; by destruct (verdict (queue s ++ _))).
  specialize (Hc Hp). pose proof (closed_whole _ _ _ _ _ Hc E Hf) as Hn. rewrite Hn, app_nil_r in E. rewrite <- E in Ho, Hr.
  by exists stats.
Qed.

Lemma reachable_ordered events b worker f (s : turn) :
  (∀ g, f = Some g → replayed g = events) → reachable (start_turn b worker f events) s → ordered events s.
Proof.
  intros Hf. induction 1 as [|l s s' _ IH E]; [by apply start_ordered|]. by eapply step_ordered.
Qed.

Lemma reachable_replaying ss s : reachable (attached_turn ss) s → pc s ≠ Unwound → replaying ss s.
Proof.
  induction 1 as [|l s s' _ IH E]; [|by eapply replaying_step].
  intros _. exists 0, [], fresh_speculation, start_follower. split_and!; try done; [lia|constructor].
Qed.

(** The reader of a direct turn keeps to its events. *)
Lemma push_direct (s s' : turn) : push_event s = Some s' → following (reader s) = None → following (reader s') = None.
Proof.
  unfold push_event. intros E H. rewrite H in E. destruct (ended (reader s)); [done|].
  destruct (ahead (reader s)); by injection E as <-.
Qed.

Lemma direct_reader l (s s' : turn) :
  step l s = Some s' → (pc s ≠ Unwound → following (reader s) = None ∧ buffer s = None) → pc s' ≠ Unwound →
  following (reader s') = None ∧ buffer s' = None.
Proof.
  intros E H Hu. destruct l as [|i| |now|]; cbn [ChatTurn.step] in E.
  - unfold worker_acts in E. destruct H as [_ Hb]; [|rewrite Hb in E; by destruct (worker_ahead s)].
    intros Hp. apply Hu. destruct (worker_ahead s), (buffer s); try done. injection E as <-. by case_match.
  - destruct (synth_seen i s s' E) as (_ & E2 & E3 & E4 & _). rewrite E4 in Hu. destruct (H Hu) as [Hf Hb].
    rewrite E2, Hb in *. split; [done|]. by destruct (buffer s').
  - assert (pc s' = pc s ∧ buffer s' = buffer s) as [E1 E2] by (unfold push_event in E; by repeat case_match; simplify_eq).
    rewrite E1 in Hu. destruct (H Hu). split; [by eapply push_direct|congruence].
  - destruct (writer_framed now s s' E) as [|(_ & _ & E3 & E4%claimed_seen & _)]; [done|]. destruct H as [Hf Hb].
    { intros Hp. unfold ChatTurn.writer_acts in E. by rewrite Hp in E. }
    rewrite E3, Hb in *. split; [done|]. by destruct (buffer s').
  - injection E as <-. by apply H.
Qed.

Lemma reachable_direct events (s : turn) :
  reachable (direct_turn events) s → pc s ≠ Unwound → following (reader s) = None ∧ buffer s = None.
Proof. induction 1 as [|l s s' _ IH E]; [done|]. by apply (direct_reader l s s'). Qed.

Lemma direct_stream events ok0 error0 (s : turn) :
  closed events ok0 error0 → reachable (direct_turn events) s → pc s = Finished →
  ∃ stats, texts (out s) = transcript events stats ∧ reply_text s = token_text events.
Proof.
  intros Hc Hr Hpc. destruct (reachable_direct events s Hr) as [Hf _]; [by rewrite Hpc|].
  assert (produced events s = events) as E by (unfold produced; by rewrite Hf).
  destruct (finished_stream events s ok0 error0) as (stats & H1 & H2 & _); [by apply (reachable_ordered events None [] None)|done|by rewrite E|].
  rewrite E in *. by exists stats.
Qed.

Lemma attached_stream ss first result s :
  worker_script ss first result → reachable (attached_turn ss) s → pc s = Finished →
  ∃ polls stats, StronglySorted le polls ∧ returned (replay ss polls) = true ∧
    texts (out s) = transcript (replayed (replay ss polls)) stats ∧ reply_text s = token_text (replayed (replay ss polls)).
Proof.
  intros Hs Hr Hpc. destruct (reachable_replaying ss s Hr) as (n & polls & b & f & _ & _ & _ & _ & Ef & -> & Hsort & _); [by rewrite Hpc|].
  assert (produced [] s = replayed (replay ss polls)) as E by (unfold produced; by rewrite Ef).
  pose proof (replay_closed ss first result Hs polls) as Hc.
  destruct (finished_stream [] s (ok result) (error result)) as (stats & H1 & H2 & H3).
  - apply (reachable_ordered [] (Some fresh_speculation) ss (Some start_follower)); [by intros g [= <-]|done].
  - done.
  - rewrite E. destruct (returned _); [done|]. rewrite Hc. by intros [].
  - rewrite E in *. exists polls, stats. split_and!; try done.
    destruct (returned _); [done|]. apply closed_verdict in H3. by rewrite Hc in H3.
Qed.

(** * The stored audio *)

(** What the audio state and the calls of [synthesize_first] say of each other
    when [line] is what is said for the first sentence. *)
Definition storing (s : turn) : list (list bytes * bool) :=
  omap (λ y, match y with Storing chunks failed => Some (chunks, failed) | _ => None end) (synths s).

Definition synth_of (line : bytes) (y : synth) : Prop :=
  match y with
  | Settling sentence => say sentence = line
  | Claiming spoken => spoken = line ∧ line ≠ []
  | _ => True
  end.

Definition audio_ok (line : bytes) (b : @ChatSpeculation Double) (now : list (list bytes * bool)) : Prop :=
  match audio_state b with
  | AudioRunning => line ≠ [] ∧ ∃ rest, now = [(rest, (store line).2)] ∧ first_audio_chunks b ++ rest = (store line).1
  | AudioDone => line ≠ [] ∧ store line = (first_audio_chunks b, false) ∧ now = []
  | AudioNone | AudioFailed => first_audio_chunks b = [] ∧ now = []
  end.

Definition stored_audio (line : bytes) (s : turn) : Prop :=
  Forall (synth_of line) (synths s) ∧ ∃ b, buffer s = Some b ∧ audio_ok line b (storing s).

Lemma audio_ok_running line b l1 c failed l2 :
  audio_ok line b (l1 ++ [(c, failed)] ++ l2) →
  audio_state b = AudioRunning ∧ line ≠ [] ∧ l1 = [] ∧ l2 = [] ∧ failed = (store line).2 ∧ first_audio_chunks b ++ c = (store line).1.
Proof.
  unfold audio_ok. destruct (audio_state b); [by intros [_ ?]; destruct l1| |by intros (_ & _ & ?); destruct l1|by intros [_ ?]; destruct l1].
  intros (Hne & rest & E & Ec). destruct l1 as [|? l1]; [|by destruct l1]. destruct l2; [|done]. by injection E as -> ->.
Qed.

(** How the audio of the buffer may move while the writer does nothing. *)
Definition audio_moves (line : bytes) (b b' : @ChatSpeculation Double) : Prop :=
  audio_state b' = audio_state b ∧ first_audio_chunks b' = first_audio_chunks b ∨
  match audio_state b, audio_state b' with
  | AudioNone, AudioRunning | AudioRunning, AudioRunning | AudioRunning, AudioDone =>
      first_audio_chunks b `prefix_of` first_audio_chunks b'
  | AudioRunning, AudioFailed => (store line).2 = true
  | _, _ => False
  end.

Definition storing_of (y : synth) : list (list bytes * bool) := match y with Storing c f => [(c, f)] | _ => [] end.

Lemma storing_insert (s s' : turn) i y y' :
  synths s !! i = Some y → synths s' = <[i := y']> (synths s) →
  ∃ l1 l2, storing s = l1 ++ storing_of y ++ l2 ∧ storing s' = l1 ++ storing_of y' ++ l2.
Proof.
  intros H E. unfold storing. rewrite E, insert_take_drop by (by eapply lookup_lt_Some).
  set (g := λ y, match y with Storing chunks failed => Some (chunks, failed) | _ => None end).
  exists (omap g (take i (synths s))), (omap g (drop (S i) (synths s))).
  rewrite <- (take_drop_middle (synths s) i y H) at 1. rewrite !omap_app. cbn [omap list_omap]. unfold g.
  split; f_equal; [by destruct y|by destruct y'].
Qed.

Lemma synth_stored line i s s' :
  synth_acts say store i s = Some s' → stored_audio line s →
  stored_audio line s' ∧ ∃ b b', buffer s = Some b ∧ buffer s' = Some b' ∧ audio_moves line b b'.
Proof.
  unfold synth_acts. intros E (Hy & b & Hb & H). rewrite Hb in E.
  destruct (synths s !! i) as [y|] eqn:Ei; [|done].
  assert (∀ y' b', synth_of line y' → buffer s' = Some b' → synths s' = <[i := y']> (synths s) → audio_moves line b b' →
    (∀ l1 l2, audio_ok line b (l1 ++ storing_of y ++ l2) → audio_ok line b' (l1 ++ storing_of y' ++ l2)) →
    stored_audio line s' ∧ ∃ b b', buffer s = Some b ∧ buffer s' = Some b' ∧ audio_moves line b b') as Hgo.
  { intros y' b' Hy' Hb' Es Hm Hst. destruct (storing_insert s s' i y y' Ei Es) as (l1 & l2 & E1 & E2). split; [|by exists b, b'].
    split; [rewrite Es; by apply Forall_insert|]. exists b'. split; [done|]. rewrite E2. apply Hst. by rewrite <- E1. }
  pose proof (Forall_lookup_1 _ _ _ _ Hy Ei) as Hyi.
  destruct y as [sentence|spoken|chunks failed|]; cbn [synth_of] in Hyi; [| | |done].
  - injection E as <-.
    apply (Hgo (if spec_abort s then Over else match say sentence with [] => Over | spoken => Claiming spoken end) b); try done.
    + destruct (spec_abort s); [done|]. destruct (say sentence) eqn:Es; [done|]. by rewrite <- Hyi.
    + by left.
    + intros l1 l2. destruct (spec_abort s); [done|]. by destruct (say sentence).
  - destruct Hyi as [-> Hne]. case_bool_decide as Ha; [|by injection E as <-; apply (Hgo Over b); try left].
    destruct (store line) as [chunks failed] eqn:Es. injection E as <-. eapply (Hgo (Storing chunks failed)); [done..| |].
    + right. cbn. by rewrite Ha.
    + unfold audio_ok. rewrite Ha. intros l1 l2 [Hc H0]. apply app_eq_nil in H0 as [-> [_ ->]%app_eq_nil].
      cbn. split; [done|]. exists chunks. by rewrite Es, Hc.
  - destruct (storing_insert s s i (Storing chunks failed) (Storing chunks failed) Ei) as (l1 & l2 & E1 & _); [by rewrite list_insert_id|].
    rewrite E1 in H. apply audio_ok_running in H as (Ha & Hne & _ & _ & Hf & Hc).
    destruct chunks as [|c chunks]; [destruct failed|]; injection E as <-.
    + eapply (Hgo Over); [done..|right; cbn; by rewrite Ha|].
      by intros l1' l2' (_ & _ & -> & -> & _)%audio_ok_running.
    + eapply (Hgo Over); [done..|right; cbn; by rewrite Ha|].
      intros l1' l2' (_ & _ & -> & -> & _)%audio_ok_running. rewrite app_nil_r in Hc.
      split; [done|]. split; [|done]. cbn. rewrite Hc, Hf. by destruct (store line).
    + eapply (Hgo (Storing chunks failed)); [done..| |].
      * right. cbn. rewrite Ha. by apply prefix_app_r.
      * intros l1' l2' (_ & _ & -> & -> & _)%audio_ok_running. unfold audio_ok. cbn. rewrite Ha, <- Hf. split; [done|].
        exists chunks. by rewrite <- app_assoc.
Qed.

(** * What is heard *)

(** The sentences of the stream and the audio behind each. *)
Definition heard (es : list SseEvent) : list SseEvent :=
  List.filter (λ e, match e with SentenceEvent _ | AudioEvent _ => true | _ => false end) es.

Definition line_events (l : bytes * list bytes) : list SseEvent := SentenceEvent l.1 :: map AudioEvent l.2.

Definition lines (past : list (bytes * list bytes)) : list SseEvent := concat (map line_events past).

Definition emitted (ops : list op) : list bytes := omap (λ o, match o with Emit pcm => Some pcm | _ => None end) ops.

Definition fluent (ops : list op) : Prop := Forall (λ o, match o with Raise _ => False | _ => True end) ops.

(** A sentence heard as it is synthesized for the turn, and one heard from the
    buffer: what was stored of it when the storing came to a good end, and else
    the part that had been heard when it failed, with all of the sentence again. *)
Definition spoken_whole (l : bytes * list bytes) : Prop := fluent (speak_line l.1) ∧ l.2 = emitted (speak_line l.1).

Definition stored_whole (l : bytes * list bytes) : Prop :=
  if (store l.1).2
  then fluent (speak_line l.1) ∧ ∃ part, part `prefix_of` (store l.1).1 ∧ l.2 = part ++ emitted (speak_line l.1)
  else l.2 = (store l.1).1.

Definition all_whole (line : option bytes) (past : list (bytes * list bytes)) : Prop :=
  match past with
  | [] => True
  | l :: past => (spoken_whole l ∨ line = Some l.1 ∧ stored_whole l) ∧ Forall spoken_whole past
  end.

(** The part [t] of the stored audio of [sp] has been heard and is being followed
    from position [k] on, or is all that will be heard of it. *)
Definition taken (sp : bytes) (b : @ChatSpeculation Double) (t : list bytes) (k : nat) : Prop :=
  t `prefix_of` (store sp).1 ∧ k = length t ∧
  match audio_state b with
  | AudioNone => False
  | AudioFailed => (store sp).2 = true
  | _ => t `prefix_of` first_audio_chunks b
  end.

Definition taken_all (sp : bytes) (b : @ChatSpeculation Double) (t : list bytes) : Prop :=
  audio_state b = AudioDone ∧ t = (store sp).1 ∨
  audio_state b = AudioFailed ∧ (store sp).2 = true ∧ t `prefix_of` (store sp).1.

Definition voice_at (line : option bytes) (b : option (@ChatSpeculation Double)) (p : writer) (past : list (bytes * list bytes)) : Prop :=
  match p with
  | Following sp k => ∃ b0 t, line = Some sp ∧ b = Some b0 ∧ past = [(sp, t)] ∧ taken sp b0 t k
  | Playing sp k chunks last =>
      ∃ b0 t, line = Some sp ∧ b = Some b0 ∧ past = [(sp, t)] ∧
        if last then taken_all sp b0 (t ++ chunks) else taken sp b0 (t ++ chunks) k
  | Checking sp => ∃ b0 t, line = Some sp ∧ b = Some b0 ∧ past = [(sp, t)] ∧ taken_all sp b0 t
  | Speaking ops => ∃ before sp t, past = before ++ [(sp, t)] ∧ (fluent ops → all_whole line (before ++ [(sp, t ++ emitted ops)]))
  | Unwound => True
  | _ => all_whole line past
  end.

Definition voiced (line : option bytes) (s : turn) : Prop :=
  pc s ≠ Unwound → ∃ past, heard (out s) = lines past ∧ (sentence_at s = None → past = []) ∧ voice_at line (buffer s) (pc s) past.

Lemma voiced_unwound line s : pc s = Unwound → voiced line s.
Proof. intros H. by unfold voiced. Qed.

Lemma heard_app a b : heard (a ++ b) = heard a ++ heard b.
Proof. apply List.filter_app. Qed.

Lemma heard_tokens ts : heard (map TokenEvent ts) = [].
Proof. unfold heard. by induction ts. Qed.

Lemma lines_snoc past sp t pcm : lines (past ++ [(sp, t)]) ++ [AudioEvent pcm] = lines (past ++ [(sp, t ++ [pcm])]).
Proof.
  unfold lines. rewrite !map_app, !concat_app. cbn. by rewrite !app_nil_r, map_app, <- app_assoc, <- app_comm_cons.
Qed.

Lemma all_whole_snoc line past l : all_whole line past → spoken_whole l → all_whole line (past ++ [l]).
Proof. destruct past as [|a past]; cbn; [by auto|]. intros [H1 H2] Hl. split; [done|]. apply Forall_app_2; [done|by constructor]. Qed.

(** The buffer moves under the writer. *)
Lemma voice_at_moves line b b' p past :
  audio_moves (default [] line) b b' → voice_at line (Some b) p past → voice_at line (Some b') p past.
Proof.
  intros Hm. assert (∀ sp t k, line = Some sp → taken sp b t k → taken sp b' t k) as Ht.
  { intros sp t k -> (H1 & H2 & H3). split_and!; [done..|]. destruct Hm as [[-> ->]|Hm]; [done|]. cbn in Hm.
    destruct (audio_state b), (audio_state b'); try done; by etransitivity. }
  assert (∀ sp t, line = Some sp → taken_all sp b t → taken_all sp b' t) as Ha.
  { intros sp t -> H. unfold taken_all in *. destruct Hm as [[-> _]|Hm]; [done|].
    destruct (audio_state b); [by destruct H as [[]|[]]|by destruct H as [[]|[]]|by destruct (audio_state b')|by destruct (audio_state b')]. }
  destruct p as [| | |sp k|sp k chunks last|sp| | |]; cbn [voice_at]; try done.
  - intros (b0 & t & -> & [= <-] & -> & H). exists b', t. split_and!; try done. by apply Ht.
  - intros (b0 & t & -> & [= <-] & -> & H). exists b', t. split_and!; try done. destruct last; [by apply Ha|by apply Ht].
  - intros (b0 & t & -> & [= <-] & -> & H). exists b', t. split_and!; try done. by apply Ha.
Qed.

(** ** The writer *)

Lemma voiced_at line (s : turn) past p :
  heard (out s) = lines past → (sentence_at s = None → past = []) → pc s = p → voice_at line (buffer s) p past → voiced line s.
Proof. intros H1 H2 <- H3 _. by exists past. Qed.

Lemma take_event_voiced line now e s :
  pc s = Waiting → voiced line s → voiced line (take_event say warm_body now e s).
Proof.
  intros Hpc H. destruct (H ltac:(by rewrite Hpc)) as (past & H1 & H2 & H3). rewrite Hpc in H3. destruct e as [t|t|reason ok0 error0]; cbn [take_event].
  - unfold write_token. apply write_wp; [apply voiced_unwound|]. intros _. apply (voiced_at line _ past Waiting); try done.
    cbn. by rewrite heard_app, H1, app_nil_r.
  - destruct (say t) as [|c sp]; [by apply (voiced_at line _ past Waiting)|by apply (voiced_at line _ past (Deciding (c :: sp)))].
  - apply write_wp; [apply voiced_unwound|]. intros _. match goal with |- voiced _ (goto Waiting ?s1) => set (s1' := s1) end.
    assert (out s1' = out s ++ [LlmDoneEvent] ∧ sentence_at s1' = sentence_at s ∧ buffer s1' = buffer s) as (E1 & E2 & E3)
      by (unfold s1'; destruct (warm_body _); [|done]; by destruct (ok0 && _)).
    apply (voiced_at line _ past Waiting); [|by rewrite <- E2 in H2|done|done].
    change (heard (out s1') = lines past). by rewrite E1, heard_app, H1, app_nil_r.
Qed.

Lemma close_stream_voiced line now s : pc s = Waiting → voiced line s → voiced line (close_stream now s).
Proof.
  intros Hpc H. destruct (H ltac:(by rewrite Hpc)) as (past & H1 & H2 & H3). rewrite Hpc in H3.
  assert (∀ s1 : turn, heard (out s1) = lines past → sentence_at s1 = sentence_at s → voiced line (write (DoneEvent (stats_of now s1))
    (write EndOfStream (λ s, s <| abort := true |> <| pc := Finished |>)) s1)) as Hend.
  { intros s1 E1 E2. do 2 (apply write_wp; [apply voiced_unwound|]; intros _). apply (voiced_at line _ past Finished); [|by rewrite <- E2 in H2|done|done].
    change (heard ((out s1 ++ [DoneEvent (stats_of now s1)]) ++ [EndOfStream]) = lines past). by rewrite !heard_app, E1, !app_nil_r. }
  unfold close_stream. destruct (llm_ok s); [by apply Hend|]. apply write_wp; [apply voiced_unwound|]. intros _. apply Hend; [|done].
  cbn. by rewrite heard_app, H1, app_nil_r.
Qed.

Lemma decide_voiced line now sp s :
  pc s = Deciding sp →
  (∀ b, sentence_at s = None → buffer s = Some b → audio_state b = AudioRunning ∨ audio_state b = AudioDone → line = Some sp) →
  voiced line s → voiced line (decide_audio speak_line now sp s).
Proof.
  intros Hpc Hl H. destruct (H ltac:(by rewrite Hpc)) as (past & H1 & H2 & H3). rewrite Hpc in H3. cbn [voice_at] in H3.
  unfold decide_audio. destruct (use_spec_audio s) as [use b] eqn:Eu. apply write_wp; [apply voiced_unwound|]. intros _.
  assert (∀ s1 : turn, out s1 = out s ++ [SentenceEvent sp] → heard (out s1) = lines (past ++ [(sp, [])])) as Hh.
  { intros s1 ->. rewrite heard_app, H1. unfold lines. by rewrite map_app, concat_app. }
  assert (∀ s1 : turn, sentence_at s1 = mark (sentence_at s) now → (sentence_at s1 = None → past ++ [(sp, [])] = [])) as Hm
    by (intros s1 ->; by destruct (sentence_at s)).
  destruct use.
  - assert (sentence_at s = None ∧ ∃ b0, buffer s = Some b0 ∧ b = Some b0 ∧ (audio_state b0 = AudioRunning ∨ audio_state b0 = AudioDone)) as (En & b0 & Eb & -> & Ha).
    { unfold use_spec_audio in Eu. destruct (sentence_at s); [done|]. destruct (buffer s) as [b0|]; [|done]. split; [done|]. exists b0.
      destruct (audio_state b0); simplify_eq; by auto. }
    apply (voiced_at line _ (past ++ [(sp, [])]) (Following sp 0)); [by apply Hh|by apply Hm|done|].
    rewrite (H2 En). exists b0, []. split_and!; try done; [by eapply Hl|]. split_and!; [apply prefix_nil|done|].
    destruct Ha as [-> | ->]; apply prefix_nil.
  - apply (voiced_at line _ (past ++ [(sp, [])]) (Speaking (speak_line sp))); [by apply Hh|by apply Hm|done|].
    exists past, sp, []. split; [done|]. intros Hf. by apply all_whole_snoc.
Qed.

(** One look at the buffer. *)
Lemma follow_voice sp k b now past :
  audio_ok sp b now → voice_at (Some sp) (Some b) (Following sp k) past →
  voice_at (Some sp) (Some b) (follow_audio sp k b) past.
Proof.
  intros Hok (b0 & t & _ & [= <-] & -> & Hp & -> & H). exists b, t. split_and!; try done.
  unfold audio_ok in Hok. destruct (audio_state b) eqn:Ha; cbn; [done|..].
  - destruct H as [r Hr]. rewrite Hr, drop_app_length. destruct Hok as (_ & rest & _ & E). split_and!; [|done|].
    + exists rest. by rewrite <- E, Hr.
    + by rewrite Ha, Hr.
  - left. split; [done|]. destruct Hok as (_ & -> & _). destruct H as [r Hr]. cbn. by rewrite Hr, drop_app_length.
  - right. rewrite app_nil_r. by split_and!.
Qed.

Lemma checked_voice sp b now past :
  audio_ok sp b now → voice_at (Some sp) (Some b) (Checking sp) past →
  voice_at (Some sp) (Some b) (if had_audio b then Waiting else Speaking (speak_line sp)) past.
Proof.
  intros Hok (b0 & t & _ & [= <-] & -> & H). unfold had_audio, audio_ok in *.
  destruct H as [[Ha ->]|(Ha & Hf & Hp)]; rewrite Ha in *; cbn [bool_decide]; rewrite ?andb_false_r, ?andb_true_r.
  - destruct Hok as (_ & E & _). rewrite E. cbn [fst]. case_bool_decide as Hc; cbn [negb].
    + rewrite Hc. exists [], sp, []. split; [done|]. intros Hf. cbn. split; [|done]. by left.
    + cbn. split; [|done]. right. split; [done|]. unfold stored_whole. cbn. by rewrite E.
  - exists [], sp, t. split; [done|]. intros Hfl. cbn. split; [|done]. right. split; [done|]. unfold stored_whole. cbn.
    rewrite Hf. split; [done|]. by exists t.
Qed.

Lemma drain_voiced line now k s past p :
  heard (out s) = lines past → (sentence_at s = None → past = []) → voice_at line (buffer s) p past →
  (∀ s1, heard (out s1) = lines past → (sentence_at s1 = None → past = []) → voice_at line (buffer s1) p past → voiced line (k s1)) →
  voiced line (drain_tokens now k s).
Proof.
  intros H1 H2 H3 Hk. apply drain_wp; [apply voiced_unwound|]. intros ts q _.
  destruct (with_tokens_spec now ts (s <| queue := q |>)) as ([] & Ho & _).
  apply Hk; [|by rewrite same_sentence_at|by rewrite same_buffer].
  rewrite Ho, heard_app, heard_tokens, app_nil_r. exact H1.
Qed.

Lemma emit_voiced line now pcm p s before sp t :
  heard (out s) = lines (before ++ [(sp, t)]) → (sentence_at s = None → before ++ [(sp, t)] = []) →
  voice_at line (buffer s) p (before ++ [(sp, t ++ [pcm])]) → voiced line (emit_pcm now pcm (goto p) s).
Proof.
  intros H1 H2 H3. unfold emit_pcm. apply write_wp; [apply voiced_unwound|]. intros _.
  apply (voiced_at line _ (before ++ [(sp, t ++ [pcm])]) p); [|by intros E; destruct before; apply H2 in E|done|done].
  cbn [out goto]. change (heard (out s ++ [AudioEvent pcm]) = lines (before ++ [(sp, t ++ [pcm])])).
  by rewrite heard_app, H1, <- lines_snoc.
Qed.

Lemma writer_voiced line now s s' :
  writer_acts now s = Some s' →
  (∀ sp b, pc s = Deciding sp → sentence_at s = None → buffer s = Some b →
     audio_state b = AudioRunning ∨ audio_state b = AudioDone → line = Some sp) →
  (∀ l b, line = Some l → buffer s = Some b → audio_ok l b (storing s)) → voiced line s → voiced line s'.
Proof.
  intros E Hd Hb H. assert (pc s ≠ Unwound) as Hp by (intros Hp; unfold ChatTurn.writer_acts in E; by rewrite Hp in E).
  destruct (H Hp) as (past & H1 & H2 & H3). unfold ChatTurn.writer_acts in E. destruct (pc s) as [| |sp|sp k|sp k chunks last|sp|ops| |] eqn:Hpc; try done.
  - injection E as <-. apply write_wp; [apply voiced_unwound|]. intros _. apply (voiced_at line _ past Waiting); try done.
    cbn. by rewrite heard_app, H1, app_nil_r.
  - destruct (queue s) as [|e q]; [destruct (llm_finished s); [|done]|]; injection E as <-; [by apply close_stream_voiced|].
    apply take_event_voiced; [done|]. by apply (voiced_at line _ past Waiting).
  - injection E as <-. apply decide_voiced; [done| |done]. intros b. by apply Hd.
  - apply fmap_Some in E as (b & Eb & ->). apply (voiced_at line _ past (follow_audio sp k b)); try done.
    pose proof H3 as (_ & _ & El & _). subst line. specialize (Hb sp b eq_refl Eb). change (buffer (goto _ s)) with (buffer s).
    rewrite Eb in *. by eapply follow_voice.
  - destruct chunks as [|pcm chunks]; injection E as <-.
    + destruct H3 as (b & t & El & Eb & -> & H3). rewrite app_nil_r in H3.
      apply (voiced_at line _ [(sp, t)] (if last then Checking sp else Following sp k)); [done|done|done|].
      destruct last; by exists b, t.
    + apply (drain_voiced line now _ s past (Playing sp k (pcm :: chunks) last)); try done.
      intros s1 H1' H2' (b & t & El & Eb & -> & H3'). apply (emit_voiced line now pcm _ s1 [] sp t); try done.
      exists b, (t ++ [pcm]). split_and!; try done. by rewrite <- app_assoc.
  - apply fmap_Some in E as (b & Eb & ->). apply (voiced_at line _ past (if had_audio b then Waiting else Speaking (speak_line sp))); try done.
    pose proof H3 as (_ & _ & El & _). subst line. specialize (Hb sp b eq_refl Eb). change (buffer (goto _ s)) with (buffer s).
    rewrite Eb in *. by eapply checked_voice.
  - destruct ops as [|o ops]; injection E as <-.
    + destruct H3 as (before & sp & t & -> & H3). apply (voiced_at line _ (before ++ [(sp, t)]) Waiting); try done.
      specialize (H3 (Forall_nil_2 _)). by rewrite app_nil_r in H3.
    + destruct H3 as (before & sp & t & -> & H3).
      assert (∀ t', t' ++ emitted ops = t ++ emitted (o :: ops) → (match o with Raise _ => False | _ => True end) →
        ∀ b, voice_at line b (Speaking ops) (before ++ [(sp, t')])) as Hgo.
      { intros t' Et Ho b. exists before, sp, t'. split; [done|]. intros Hf. rewrite Et. apply H3. by constructor. }
      assert (o ≠ Raise [] → match o with Emit _ | Raise _ => True | _ => voiced line (drain_tokens now (goto (Speaking ops)) s) ∧ voiced line (goto (Speaking ops) s) end) as Hq.
      { intros _. destruct o; try done; (split; [|by apply (voiced_at line _ (before ++ [(sp, t)]) (Speaking ops)); try done; apply Hgo]);
          (apply (drain_voiced line now _ s (before ++ [(sp, t)]) (Speaking ops)); [done|done|by apply Hgo|];
           intros s1 H1' H2' H3'; by apply (voiced_at line _ (before ++ [(sp, t)]) (Speaking ops))). }
      destruct o; cbn [speak_op].
      * by apply Hq.
      * apply (emit_voiced line now pcm _ s before sp t); try done. apply Hgo; [|done]. by rewrite <- app_assoc.
      * destruct (audio_at s); [|by apply Hq]. destruct (_ && _); by apply Hq.
      * by apply voiced_unwound.
Qed.

(** ** All threads *)

Lemma script_synthesizes ss first result sentence ms :
  worker_script ss first result → Synthesize sentence ms ∈ ss → sentence = first.
Proof.
  intros [shown tail more -> Hn Hb Hf -> Hmore] Hin. apply elem_of_app in Hin as [Hin|[|Hin]%elem_of_cons]; [|done|].
  - unfold first_sentence. by rewrite (Hf _ _ Hin).
  - destruct Hmore as [->| ->]; [by apply not_elem_of_nil in Hin|]. by apply list_elem_of_singleton in Hin as [= -> _].
Qed.

Lemma storing_snoc (s s' : turn) y : synths s' = synths s ++ [y] → storing_of y = [] → storing s' = storing s.
Proof. intros E Hy. unfold storing. rewrite E, omap_app. destruct y; try done; cbn; by rewrite app_nil_r. Qed.

Lemma audio_ok_step line step b now : audio_ok line b now → audio_ok line (apply_step step b) now.
Proof. by destruct step. Qed.

Lemma worker_stored ss first result s s' :
  worker_script ss first result → (∀ st rest, worker_ahead s = st :: rest → st ∈ ss) →
  worker_acts s = Some s' → stored_audio (say first) s →
  stored_audio (say first) s' ∧ ∃ b b', buffer s = Some b ∧ buffer s' = Some b' ∧ first_audio_chunks b' = first_audio_chunks b ∧
    audio_state b' = audio_state b ∧ out s' = out s ∧ pc s' = pc s ∧ sentence_at s' = sentence_at s.
Proof.
  unfold worker_acts. intros Hs Hin E (Hy & b & Eb & Hok). rewrite Eb in E. destruct (worker_ahead s) as [|st rest]; [done|].
  specialize (Hin st rest eq_refl). assert (audio_ok (say first) (apply_step st b) (storing s)) as Hok' by by apply audio_ok_step.
  assert (∀ s0 : turn, synths s0 = synths s → storing s0 = storing s) as Hst by (intros s0 E0; unfold storing; by rewrite E0).
  destruct st as [clean new|tail r|sentence ms]; injection E as <-; (split; [|by eexists b, _]).
  - split; [done|]. by eexists.
  - split; [done|]. by eexists.
  - pose proof (script_synthesizes _ _ _ _ _ Hs Hin) as ->. split.
    + apply Forall_app_2; [done|]. by apply Forall_singleton.
    + exists b. split; [done|]. by erewrite storing_snoc.
Qed.

Lemma claimed_stored line s s' :
  synths s' = synths s → claimed (buffer s) (buffer s') → stored_audio line s → stored_audio line s'.
Proof.
  intros E Hc (Hy & b & Eb & H). assert (storing s' = storing s) as Est by (unfold storing; by rewrite E).
  split; [by rewrite E|]. destruct Hc as [->|(b0 & Eb0 & Ha & ->)]; [exists b; by rewrite Est|].
  rewrite Eb in Eb0. injection Eb0 as <-. eexists. split; [done|]. unfold audio_ok in *. rewrite Ha in H. by rewrite Est.
Qed.

(** The sentence about to be spoken is the stored one when nothing was heard yet
    and the buffer has audio. *)
Lemma first_spoken line d t :
  head (to_speak (d ++ [Sentence t])) = Some line → say line ≠ [] → heard (ChatTurn.script say d) = [] → t = line.
Proof.
  intros Hh Hne Hn. assert (∀ e, e ∈ d → heard (script_of say e) = []) as Hd.
  { intros e Hin. apply list_elem_of_split in Hin as (d1 & d2 & ->). rewrite script_app, heard_app in Hn.
    apply app_eq_nil in Hn as [_ Hn]. change (e :: d2) with ([e] ++ d2) in Hn. rewrite script_app, heard_app in Hn.
    apply app_eq_nil in Hn as [Hn _]. unfold ChatTurn.script in Hn. cbn in Hn. by rewrite app_nil_r in Hn. }
  clear Hn. induction d as [|e d IH]; [by injection Hh|].
  destruct e as [x|x|]; [apply IH; [done|intros e Hin; apply Hd; by right]| |apply IH; [done|intros e Hin; apply Hd; by right]].
  specialize (Hd (Sentence x) ltac:(by left)). injection Hh as ->. cbn [script_of] in Hd. by destruct (say line).
Qed.

Lemma heard_texts es : heard es = [] → heard (texts es) = [].
Proof. unfold heard, texts. induction es as [|[] es IH]; cbn; intros H; by auto. Qed.

Definition turn_inv (ss : list worker_step) (first : bytes) (s : turn) : Prop :=
  replaying ss s ∧ ordered [] s ∧ stored_audio (say first) s ∧ voiced (Some (say first)) s.

Lemma deciding_first ss first result s sp b :
  worker_script ss first result → turn_inv ss first s → pc s = Deciding sp → sentence_at s = None → buffer s = Some b →
  audio_state b = AudioRunning ∨ audio_state b = AudioDone → say first = sp.
Proof.
  intros Hs (Hr & Ho & (_ & b' & Eb' & Hok) & Hv) Hpc Hn Eb Ha. rewrite Eb in Eb'. injection Eb' as <-.
  assert (say first ≠ []) as Hne by (unfold audio_ok in Hok; destruct Ha as [Ha|Ha]; rewrite Ha in Hok; apply Hok).
  destruct Ho as (done & E1 & Hw & _); [by rewrite Hpc|]. unfold written in Hw. rewrite Hpc in Hw.
  destruct Hw as (d & t & -> & <- & _ & Hout). f_equal. symmetry.
  destruct Hr as (n & polls & b0 & f & _ & _ & _ & _ & Ef & -> & Hsort & _).
  assert (produced [] s = replayed (replay ss polls)) as Ep by (unfold produced; by rewrite Ef).
  destruct Hv as (past & Hh & Hnil & _); [by rewrite Hpc|]. rewrite (Hnil Hn) in Hh.
  apply (first_spoken first d); [|done|].
  - pose proof (replay_first ss first result Hs polls Hsort) as Hf. rewrite <- Ep, E1, to_speak_app in Hf.
    destruct (to_speak (d ++ [Sentence t])) as [|x l] eqn:Ed; [|by destruct Hf].
    rewrite to_speak_app in Ed. by apply app_eq_nil in Ed as [_ ?].
  - apply heard_texts in Hh. by rewrite Hout in Hh.
Qed.

Lemma turn_inv_step ss first result l s s' :
  worker_script ss first result → step l s = Some s' → (pc s ≠ Unwound → turn_inv ss first s) → pc s' ≠ Unwound →
  turn_inv ss first s'.
Proof.
  intros Hs E H Hu. assert (pc s ≠ Unwound) as Hp.
  { intros Hp. apply Hu. destruct l as [|i| |now|]; cbn [ChatTurn.step] in E.
    - unfold worker_acts in E. by repeat case_match; simplify_eq.
    - apply synth_seen in E as (_ & _ & _ & -> & _). done.
    - unfold push_event in E. by repeat case_match; simplify_eq.
    - unfold ChatTurn.writer_acts in E. by rewrite Hp in E.
    - by injection E as <-. }
  pose proof (H Hp) as Hinv. pose proof Hinv as (Hr & Ho & Ha & Hv).
  split; [by eapply replaying_step|]. split; [by eapply step_ordered|].
  destruct l as [|i| |now|]; cbn [ChatTurn.step] in E.
  - destruct (worker_stored ss first result s s' Hs) as (Ha' & b & b' & Eb & Eb' & Ec & Es & Eo & Epc & Esa); [|done..|].
    { intros st rest Ew. destruct Hr as (n & _ & _ & _ & Hn & _). rewrite Ew in Hn. apply (list_elem_of_lookup_2 _ n).
      by rewrite <- (Nat.add_0_r n), <- lookup_drop, <- Hn. }
    split; [done|]. destruct (Hv Hp) as (past & H1 & H2 & H3). intros _. exists past. rewrite Eo, Esa, Epc, Eb'. rewrite Eb in H3.
    split_and!; [done..|]. eapply voice_at_moves; [|done]. by left.
  - destruct (synth_stored _ i s s' E Ha) as (Ha' & b & b' & Eb & Eb' & Hm). split; [done|].
    destruct (synth_seen i s s' E) as (_ & _ & _ & Epc & Eo & Esa).
    destruct (Hv Hp) as (past & H1 & H2 & H3). intros _. exists past. rewrite Eo, Esa, Epc, Eb'. rewrite Eb in H3.
    split_and!; [done..|]. by eapply voice_at_moves.
  - assert (synths s' = synths s ∧ buffer s' = buffer s ∧ out s' = out s ∧ sentence_at s' = sentence_at s ∧ pc s' = pc s) as (E1 & E2 & E3 & E4 & E5)
      by (unfold push_event in E; by repeat case_match; simplify_eq).
    split; [apply (claimed_stored _ s); [done|by left|done]|]. intros _. destruct (Hv Hp) as (past & H1 & H2 & H3).
    exists past. by rewrite E2, E3, E4, E5.
  - destruct (writer_framed now s s' E) as [|(_ & E2 & _ & E4 & _)]; [done|]. split; [by eapply claimed_stored|].
    eapply writer_voiced; [exact E|..|done].
    + intros sp b Hpc Hn Eb Hst. f_equal. by eapply deciding_first.
    + intros l b [= <-] Eb. destruct Ha as (_ & b' & Eb' & Hok). by simplify_eq.
  - injection E as <-. done.
Qed.

Lemma reachable_inv ss first result s :
  worker_script ss first result → reachable (attached_turn ss) s → pc s ≠ Unwound → turn_inv ss first s.
Proof.
  intros Hs. induction 1 as [|l s s' Hr IH E]; [intros _|by eapply turn_inv_step].
  split; [by apply reachable_replaying; [constructor|]|]. split; [|split].
  - apply (reachable_ordered [] (Some fresh_speculation) ss (Some start_follower)); [by intros g [= <-]|constructor].
  - split; [constructor|]. by exists fresh_speculation.
  - by apply (voiced_at _ _ [] Starting).
Qed.

Lemma reachable_voiced events s : reachable (direct_turn events) s → voiced None s.
Proof.
  induction 1 as [|l s s' Hr IH E]; [by apply (voiced_at _ _ [] Starting)|].
  destruct l as [|i| |now|]; cbn [ChatTurn.step] in E.
  - intros Hu. assert (pc s' = pc s) as Ep by (unfold worker_acts in E; by repeat case_match; simplify_eq).
    destruct (reachable_direct events s Hr) as [_ Hb]; [congruence|]. unfold worker_acts in E. rewrite Hb in E. by destruct (worker_ahead s).
  - destruct (synth_seen i s s' E) as (_ & _ & Eb & Ep & Eo & Es). intros Hu. rewrite Ep in Hu.
    destruct (reachable_direct events s Hr Hu) as [_ Hb]. rewrite Hb in Eb.
    destruct (IH Hu) as (past & H). exists past. rewrite Ep, Eo, Es. destruct (buffer s'); [done|]. by rewrite Hb in H.
  - assert (buffer s' = buffer s ∧ out s' = out s ∧ sentence_at s' = sentence_at s ∧ pc s' = pc s) as (E2 & E3 & E4 & E5)
      by (unfold push_event in E; by repeat case_match; simplify_eq).
    intros Hu. rewrite E5 in Hu. destruct (IH Hu) as (past & H). exists past. by rewrite E2, E3, E4, E5.
  - eapply writer_voiced; [exact E|..|done]; [|done].
    intros sp b Hpc _ Eb. destruct (reachable_direct events s Hr) as [_ Hb]; [by rewrite Hpc|]. by rewrite Hb in Eb.
  - by injection E as <-.
Qed.

(** ** Sentences of the stream *)

Definition said (es : list SseEvent) : list bytes := omap (λ e, match e with SentenceEvent t => Some t | _ => None end) es.

(** What is said for the sentences of a reply. *)
Definition to_say (events : list ChatEvent) : list bytes := List.filter (λ t, negb (bool_decide (t = []))) (map say (to_speak events)).

Lemma said_texts es : said (texts es) = said es.
Proof. unfold said, texts. induction es as [|[] es IH]; cbn in *; congruence. Qed.

Lemma said_heard es : said (heard es) = said es.
Proof. unfold said, heard. induction es as [|[] es IH]; cbn in *; congruence. Qed.

Lemma said_app a b : said (a ++ b) = said a ++ said b.
Proof. apply omap_app. Qed.

Lemma said_lines past : said (lines past) = map fst past.
Proof.
  unfold lines. induction past as [|[sp t] past IH]; [done|]. cbn [map concat]. rewrite said_app, IH. unfold line_events. cbn. f_equal.
  by induction t.
Qed.

Lemma said_script events : said (ChatTurn.script say events) = to_say events.
Proof.
  unfold to_say. induction events as [|e events IH]; [done|]. change (e :: events) with ([e] ++ events).
  rewrite script_app, said_app, to_speak_app, map_app, List.filter_app, IH. f_equal. destruct e as [t|t|]; [done| |done].
  unfold ChatTurn.script, said, to_speak. cbn. by destruct (say t).
Qed.

Lemma said_transcript events stats : said (transcript events stats) = to_say events.
Proof.
  unfold transcript. change (StartEvent slow_pace :: ?x) with ([StartEvent slow_pace] ++ x). rewrite !said_app, said_script.
  unfold complaint. cbn. destruct (verdict events) as [[[] e]|]; cbn; by rewrite app_nil_r.
Qed.

(** The lines of a finished turn are those of its reply. *)
Lemma finished_lines line s events stats :
  voiced line s → pc s = Finished → texts (out s) = transcript events stats →
  ∃ past, heard (out s) = lines past ∧ map fst past = to_say events ∧ all_whole line past.
Proof.
  intros Hv Hpc Ho. destruct Hv as (past & H1 & _ & H3); [by rewrite Hpc|]. rewrite Hpc in H3. exists past. split_and!; [done| |done].
  by rewrite <- said_lines, <- H1, said_heard, <- said_texts, Ho, said_transcript.
Qed.

End attached.

(** * Properties *)

Section properties.
Context {Double : Type} (minus_one : Double) (nonnegative : Double → bool)
  (json_parse : bytes → outcome (Json.Value Double)).
Context (say : bytes → bytes) (speak_line : bytes → list op) (store : bytes → list bytes * bool)
  (slow_pace : bool) (far_ahead : nat → Z → bool) (warm_body : bytes → option bytes).

Notation reachable := (reachable say speak_line store slow_pace far_ahead warm_body (Double := Double)).
Notation transcript := (transcript say slow_pace).

(** The sentence that is synthesized ahead is the first of the reply. *)
Lemma speculate_script early aborts c host port body :
  ∃ first result, worker_script (speculate minus_one nonnegative json_parse early aborts c host port body).1 first result ∧
    ∀ sentence, head (to_speak (read_reply minus_one nonnegative json_parse speculation_options aborts c host port body).1) = Some sentence → first = sentence.
Proof.
  pose proof (speculate_steps minus_one nonnegative json_parse early aborts c host port body) as H.
  pose proof (read_reply_cuts minus_one nonnegative json_parse speculation_options aborts c host port body ltac:(cbn; lia)) as Hc.
  destruct (received_deltas _ _ _ _ _ _ _ _) as [result ds]. destruct H as (shown & more & -> & _ & Ew & Hn & Hb & Hf & Hmore).
  destruct Hc as (_ & _ & _ & Hcut & _). rewrite <- Ew in Hcut.
  exists (first_sentence shown (tail_of speculation_options ds)), result.
  split; [eapply (Build_worker_script _ _ _ shown _ more); [done..|]; by destruct Hmore as [->|[_ ->]]; [left|right]|].
  rewrite Hcut. unfold first_sentence, front_sentence. fold (all_sentences shown). intros sentence.
  destruct (all_sentences shown); cbn [app head default]; [|by intros [= ->]].
  unfold last_sentence. destruct (tail_of speculation_options ds) eqn:Et; [done|]. destruct (truncated_tail _ _); [done|]. by intros [= <-].
Qed.

(** C26. Whatever the interleaving of the reader thread, the writer thread and the
    client, a turn that comes to its end has sent the client every token and every
    sentence of the reply in the order of the reply, the closing event, a complaint
    exactly when the model failed, the numbers and the end of the stream; behind
    every sentence, and before the next one, the audio of just this sentence; and
    the reply it remembers is the text it has sent. *)
Theorem direct_turn_heard o aborts c host port body s :
  let events := (read_reply minus_one nonnegative json_parse o aborts c host port body).1 in
  let result := (read_reply minus_one nonnegative json_parse o aborts c host port body).2 in
  reachable (direct_turn events) s → pc s = Finished →
  ∃ stats past, texts (out s) = transcript events stats ∧ verdict events = Some (ok result, error result) ∧
    reply_text s = token_text events ∧
    heard (out s) = lines past ∧ map fst past = to_say say events ∧
    Forall (λ l, fluent (speak_line l.1) ∧ l.2 = emitted (speak_line l.1)) past.
Proof.
  pose proof (read_reply_closed minus_one nonnegative json_parse o aborts c host port body) as Hc.
  destruct (read_reply _ _ _ _ _ _ _ _ _) as [events result]. intros events' result' Hr Hpc. cbn in events', result'. subst events' result'.
  destruct (direct_stream _ _ _ _ _ _ events _ _ s Hc Hr Hpc) as (stats & Ht & Hp).
  destruct (finished_lines say speak_line store slow_pace None s events stats) as (past & Hh & Hf & Ha); [by eapply reachable_voiced|done..|].
  exists stats, past. split_and!; try done; [by apply closed_verdict|].
  destruct past as [|l past]; [done|]. destruct Ha as [[Hl|[? _]] Ha]; [|done]. by constructor.
Qed.

(** C30. Attaching to a speculation costs the client nothing of the reply: whatever the
    interleaving of the worker, its synthesis, the reader and the writer, a turn that comes to
    its end has sent the text and the closing event that the same generation gives when it is
    read directly. Its sentences are those of the worker's limits, which are longer than a
    direct reader's; but unless the reply ran into the token ceiling they say the same but for
    white space. Behind every sentence comes its own audio; only that of the first sentence may
    come from the buffer instead: all that was stored of it, or, when the storing failed in
    the middle, the part already heard and then all of the sentence again. *)
Theorem attached_turn_heard early aborts c host port body s :
  let direct := read_reply minus_one nonnegative json_parse direct_options aborts c host port body in
  let events := (read_reply minus_one nonnegative json_parse speculation_options aborts c host port body).1 in
  let ss := (speculate minus_one nonnegative json_parse early aborts c host port body).1 in
  reachable (attached_turn ss) s → pc s = Finished →
  ∃ replayed stats first past, texts (out s) = transcript replayed stats ∧
    token_text replayed = token_text direct.1 ∧ last replayed = last direct.1 ∧ reply_text s = token_text direct.1 ∧
    to_speak replayed = to_speak events ∧ shown_first replayed ∧
    (finish_reason direct.2 ≠ str "length" → solid (concat (to_speak replayed)) = solid (concat (to_speak direct.1))) ∧
    heard (out s) = lines past ∧ map fst past = to_say say replayed ∧
    (∀ sentence, head (to_speak replayed) = Some sentence → first = sentence) ∧ all_whole speak_line store (Some (say first)) past.
Proof.
  intros direct events ss Hr Hpc. destruct (speculate_script early aborts c host port body) as (first & result & Hs & Hfirst). fold ss in Hs. fold events in Hfirst.
  destruct (attached_stream _ _ _ _ _ _ ss first result s Hs Hr Hpc) as (polls & stats & Hsort & Hret & Ht & Hp).
  destruct (replay_alike minus_one nonnegative json_parse early aborts c host port body polls Hsort) as [Hsame _].
  destruct (Hsame Hret) as (E1 & E2 & E3 & E4). fold ss events in E1, E2, E3, E4.
  destruct (reachable_inv _ _ _ _ _ _ ss first result s Hs Hr) as (_ & _ & _ & Hv); [by rewrite Hpc|].
  destruct (finished_lines say speak_line store slow_pace _ s _ stats Hv Hpc Ht) as (past & Hh & Hf & Ha).
  pose proof (read_reply_cuts minus_one nonnegative json_parse direct_options aborts c host port body ltac:(cbn; lia)) as Hd.
  pose proof (read_reply_cuts minus_one nonnegative json_parse speculation_options aborts c host port body ltac:(cbn; lia)) as Hc.
  fold direct in Hd. destruct (received_deltas _ _ _ _ _ _ _ _) as [r ds]. destruct Hd as (D1 & D2 & D3 & _ & D5), Hc as (C1 & C2 & C3 & _ & C5).
  fold events in C2, C3, C5. exists (replayed (replay ss polls)), stats, first, past.
  assert (token_text events = token_text direct.1) as Et by (by rewrite C2, D2).
  split_and!; [done|by rewrite E1|by rewrite E3, C3, D3|by rewrite Hp, E1|done|done| |done|done|by rewrite E2|done].
  intros Hreason. rewrite D1 in Hreason. by rewrite E2, C5, D5, Et by (by rewrite ?D1).
Qed.

End properties.

(** * A concrete turn *)

Module Heard.
Import Replied.

Notation worker_steps := (speculate (-1)%Z (Z.leb 0) Collector.parse true [] sidecar (str "127.0.0.1") 8080 (str "{}")).1.
Notation reply := (read_reply (-1)%Z (Z.leb 0) Collector.parse direct_options [] sidecar (str "127.0.0.1") 8080 (str "{}")).
Notation spoken_reply := (read_reply (-1)%Z (Z.leb 0) Collector.parse speculation_options [] sidecar (str "127.0.0.1") 8080 (str "{}")).
Notation speech := (λ _ : bytes, [Drain; Emit [1; 2]%Z; Drain; Emit [3; 4]%Z; Pace]).
Notation runs store labels s s' := (run strip_speech_markup speech store false (λ _ _, false) (λ _, None) labels s = Some s').
Notation after store labels s := (default s (run strip_speech_markup speech store false (λ _ _, false) (λ _, None) labels s)).

(** A direct turn, the reader ahead of the writer or behind it. *)
Notation direct_labels := ([Writer 5; Reader; Writer 6; Reader; Reader; Writer 7; Writer 8; Writer 9; Reader; Writer 10; Writer 11; Writer 12; Writer 13;
  Writer 14; Writer 15; Writer 16; Reader; Writer 17]).
Notation direct_end := (after (λ _, ([], false)) direct_labels (direct_turn (Double := Z) reply.1)).


(** A turn that attaches before the worker begins; the storing of the first
    sentence fails after a chunk of it was heard. *)
Notation attached_labels := ([Writer 5; Reader; Worker; Reader; Reader; Writer 6; Worker; Worker; Worker; Synth 0; Synth 0; Reader; Reader; Reader; Reader;
  Writer 7; Writer 8; Writer 9; Synth 0; Writer 10; Writer 11; Synth 0; Writer 12; Writer 13; Writer 14; Writer 15; Writer 16; Writer 17;
  Writer 18; Writer 19; Writer 20; Writer 21; Writer 22; Reader; Writer 23]).
Notation failing := (λ _, ([[7]%Z], true)).
Notation attached_end := (after failing attached_labels (attached_turn (Double := Z) worker_steps)).

Notation reachable store := (reachable strip_speech_markup speech store false (λ _ _, false) (λ _, None)).

Example direct_out : texts (out direct_end) =
  [StartEvent false; TokenEvent (str "Hel"); TokenEvent (str "lo"); SentenceEvent (str "Hello"); LlmDoneEvent;
   DoneEvent {| first_token_ms := Some 6%Z; first_sentence_ms := Some 9%Z; first_audio_ms := Some 11%Z; wall_ms := 17;
                audio_bytes := 4; speculative_hit := false |}; EndOfStream] ∧
  heard (out direct_end) = [SentenceEvent (str "Hello"); AudioEvent [1; 2]%Z; AudioEvent [3; 4]%Z].
Proof. split; vm_compute; reflexivity. Qed.

(** A speculative synthesis that fails half way is heard twice from its beginning. *)
Example heard_twice : heard (out attached_end) =
  [SentenceEvent (str "Hello"); AudioEvent [7]%Z; AudioEvent [1; 2]%Z; AudioEvent [3; 4]%Z].
Proof. vm_compute. reflexivity. Qed.

Lemma direct_turn_witness :
  pc direct_end = Finished ∧
  ∃ stats past, texts (out direct_end) = transcript strip_speech_markup false reply.1 stats ∧
    verdict reply.1 = Some (ok reply.2, error reply.2) ∧ reply_text direct_end = token_text reply.1 ∧
    heard (out direct_end) = lines past ∧ map fst past = to_say strip_speech_markup reply.1 ∧
    Forall (λ l, fluent (speech l.1) ∧ l.2 = emitted (speech l.1)) past.
Proof.
  split; [vm_compute; reflexivity|].
  pose proof (direct_turn_heard (-1)%Z (Z.leb 0) Collector.parse strip_speech_markup speech (λ _, ([], false)) false
    (λ _ _, false) (λ _, None) direct_options [] sidecar (str "127.0.0.1") 8080 (str "{}") direct_end) as H.
  apply H; [|vm_compute; reflexivity].
  apply (run_reachable strip_speech_markup speech (λ _, ([], false)) false (λ _ _, false) (λ _, None) _ (direct_turn reply.1) direct_labels);
    [constructor|]. vm_compute. reflexivity.
Defined.

Lemma attached_turn_witness :
  pc attached_end = Finished ∧
  ∃ replayed stats first past, texts (out attached_end) = transcript strip_speech_markup false replayed stats ∧
    token_text replayed = token_text reply.1 ∧ last replayed = last reply.1 ∧ reply_text attached_end = token_text reply.1 ∧
    to_speak replayed = to_speak spoken_reply.1 ∧ shown_first replayed ∧
    (finish_reason reply.2 ≠ str "length" → solid (concat (to_speak replayed)) = solid (concat (to_speak reply.1))) ∧
    heard (out attached_end) = lines past ∧ map fst past = to_say strip_speech_markup replayed ∧
    (∀ sentence, head (to_speak replayed) = Some sentence → first = sentence) ∧ all_whole speech failing (Some (strip_speech_markup first)) past.
Proof.
  split; [vm_compute; reflexivity|].
  apply (attached_turn_heard (-1)%Z (Z.leb 0) Collector.parse strip_speech_markup speech failing false
    (λ _ _, false) (λ _, None) true [] sidecar (str "127.0.0.1") 8080 (str "{}") attached_end); [|vm_compute; reflexivity].
  apply (run_reachable strip_speech_markup speech failing false (λ _ _, false) (λ _, None) _ (attached_turn worker_steps) attached_labels);
    [constructor|]. vm_compute. reflexivity.
Defined.

(** The limits differ, and so may the sentences. *)
Example cut_apart :
  let text := [str "Well honestly I guess so, and we do"; str ", you know it well. Yes"] in
  (cut (segmenter_of direct_options) text).2 = [str "Well honestly I guess so,"; str "and we do, you know it well."] ∧
  (cut (segmenter_of speculation_options) text).2 = [str "Well honestly I guess so, and we do, you know it well."].
Proof. split; vm_compute; reflexivity. Qed.

End Heard.
