(* ===== verification/ChatLive.v ===== *)
(** A turn of the conversation always can come to its end (app/server/runtime.cpp,
    [chat_orchestrate]): from every state its threads can get into there are steps
    of them, without the client leaving, after which the writer has closed the
    stream or unwound; no thread waits for ever. *)

From S2P Require Import Prelude Segmenter Scrubber LlmClient ChatReply ChatVoice ChatTurn ChatStream.

Section live.
Context {Double : Type}.
Notation turn := (@turn Double).
Notation worker_step := (@worker_step Double).
Context (say : bytes → bytes) (speak_line : bytes → list op) (store : bytes → list bytes * bool)
  (slow_pace : bool) (far_ahead : nat → Z → bool) (warm_body : bytes → option bytes).

Notation step := (step say speak_line store slow_pace far_ahead warm_body).
Notation run := (run say speak_line store slow_pace far_ahead warm_body).
Notation writer_acts := (writer_acts say speak_line slow_pace far_ahead warm_body).
Notation reachable := (reachable say speak_line store slow_pace far_ahead warm_body).

(** Steps that reach a state, the client staying. *)
Definition reaches (s s' : turn) : Prop := ∃ ls, Leave ∉ ls ∧ run ls s = Some s'.

Lemma reaches_refl s : reaches s s.
Proof. exists []. split; [apply not_elem_of_nil|done]. Qed.

Lemma reaches_trans s1 s2 s3 : reaches s1 s2 → reaches s2 s3 → reaches s1 s3.
Proof.
  intros (l1 & N1 & E1) (l2 & N2 & E2). exists (l1 ++ l2). split; [by intros [|]%elem_of_app|]. by rewrite run_turn_app, E1.
Qed.

Lemma reaches_step l s s' : l ≠ Leave → step l s = Some s' → reaches s s'.
Proof. intros Hl E. exists [l]. split; [by intros ?%list_elem_of_singleton|]. cbn. exact E. Qed.

Lemma reachable_reaches s0 s s' : reachable s0 s → reaches s s' → reachable s0 s'.
Proof. intros H (ls & _ & E). by eapply run_reachable. Qed.

Definition over (s : turn) : Prop := pc s = Finished ∨ pc s = Unwound.

(** ** The writer *)

Section writing.
Context (s0 : turn) (line : option bytes) (events : list ChatEvent).
Hypothesis known : ∀ s, reachable s0 s → voiced speak_line store line s ∧ ordered say slow_pace events s.

(** The other threads are through. *)
Definition quiet (s : turn) : Prop :=
  reachable s0 s ∧ ended (reader s) = true ∧ ahead (reader s) = [] ∧ is_Some (verdict (produced events s)) ∧
  ∀ b, buffer s = Some b → audio_state b ≠ AudioRunning.

Lemma quiet_step now s s' : quiet s → writer_acts now s = Some s' → pc s' = Unwound ∨ quiet s'.
Proof.
  intros (Hr & He & Ha & Hv & Hb) E. destruct (writer_framed _ _ _ _ _ now s s' E) as [|(_ & _ & E3 & E4 & _)]; [by left|right].
  split; [by eapply (reach_step _ _ _ _ _ _ s0 (Writer now) s)|]. unfold produced. rewrite E3. split_and!; [done..|].
  intros b Eb. rewrite Eb in E4. destruct E4 as [E4|(b0 & _ & _ & [= ->])]; [by apply Hb|done].
Qed.

(** The writer moves on from where it is. *)
Definition moves_to (P : turn → Prop) (s : turn) : Prop := ∃ s', reaches s s' ∧ (over s' ∨ quiet s' ∧ P s').

Lemma moves_step now (P : turn → Prop) s s' :
  quiet s → writer_acts now s = Some s' → (quiet s' → pc s' ≠ Unwound → moves_to P s') → moves_to P s.
Proof.
  intros Hq E Hk. assert (reaches s s') as Hs by by apply (reaches_step (Writer now)).
  destruct (quiet_step now s s' Hq E) as [Hu|Hq']; [exists s'; by split; [|left; right]|].
  assert (pc s' = Unwound ∨ pc s' ≠ Unwound) as [Hu|Hu] by (destruct (pc s'); auto); [exists s'; by split; [|left; right]|].
  destruct (Hk Hq' Hu) as (s2 & H2 & H). exists s2. split; [by eapply reaches_trans|done].
Qed.

Lemma moves_here (P : turn → Prop) s : quiet s → P s → moves_to P s.
Proof. intros Hq HP. exists s. split; [apply reaches_refl|by right]. Qed.

Lemma moves_mono (P Q : turn → Prop) s : (∀ s', P s' → Q s') → moves_to P s → moves_to Q s.
Proof. intros H (s' & Hs & [Ho|[Hq Hp]]); exists s'; (split; [done|]); [by left|right]; by auto. Qed.

Lemma moves_trans (P Q : turn → Prop) s : moves_to P s → (∀ s', quiet s' → P s' → moves_to Q s') → moves_to Q s.
Proof.
  intros (s' & Hs & [Ho|[Hq Hp]]) Hk; [exists s'; by split; [|left]|].
  destruct (Hk s' Hq Hp) as (s2 & H2 & H). exists s2. split; [by eapply reaches_trans|done].
Qed.

(** Back at the head of its loop, with no more in the queue than [n]. *)
Definition waiting (n : nat) (s : turn) : Prop := pc s = Waiting ∧ length (queue s) <= n.

Lemma moves_framed now n (p : writer) s s' :
  quiet s → length (queue s) <= n → writer_acts now s = Some s' → (pc s' = Unwound ∨ pc s' = p) →
  (∀ s1, quiet s1 → length (queue s1) <= n → pc s1 = p → moves_to (waiting n) s1) → moves_to (waiting n) s.
Proof.
  intros Hq Hn E Hp Hk. apply (moves_step now _ s s'); [done..|]. intros Hq' Hu. destruct Hp as [|Hp]; [done|].
  apply Hk; [done| |done]. destruct (writer_framed _ _ _ _ _ now s s' E) as [|(_ & _ & _ & _ & _ & H)]; [done|lia].
Qed.

Lemma drain_pc now p (s : turn) : pc (drain_tokens now (goto p) s) = Unwound ∨ pc (drain_tokens now (goto p) s) = p.
Proof. apply drain_wp; [by left|]. intros. by right. Qed.

Lemma speaking_moves ops n s :
  quiet s → length (queue s) <= n → pc s = Speaking ops → moves_to (waiting n) s.
Proof.
  revert s. induction ops as [|o ops IH]; intros s Hq Hn Hpc.
  - apply (moves_framed 0 n Waiting s (goto Waiting s)); [done..| |by right|].
    + unfold ChatTurn.writer_acts. by rewrite Hpc.
    + intros s1 H1 Hn1 Hp1. by apply moves_here.
  - apply (moves_framed 0 n (Speaking ops) s (speak_op far_ahead 0 o (goto (Speaking ops)) s)); [done..| | |done].
    + unfold ChatTurn.writer_acts. by rewrite Hpc.
    + destruct o; cbn [speak_op]; [apply drain_pc| | |by left].
      * unfold emit_pcm. apply write_wp; [by left|by right].
      * destruct (audio_at s); [|by right]. destruct (_ && _); [apply drain_pc|by right].
Qed.

Lemma buffer_there sp s :
  quiet s → pc s = Checking sp ∨ (∃ k, pc s = Following sp k) → ∃ b, buffer s = Some b.
Proof.
  intros (Hr & _) Hpc. destruct (known s Hr) as [Hv _]. destruct Hv as (past & _ & _ & H); [by destruct Hpc as [->|[k ->]]|].
  destruct Hpc as [Hpc|[k Hpc]]; rewrite Hpc in H; destruct H as (b & t & _ & Hb & _); by exists b.
Qed.

Lemma checking_moves sp n s : quiet s → length (queue s) <= n → pc s = Checking sp → moves_to (waiting n) s.
Proof.
  intros Hq Hn Hpc. destruct (buffer_there sp s Hq) as [b Hb]; [by left|].
  apply (moves_framed 0 n (if had_audio b then Waiting else Speaking (speak_line sp)) s
    (goto (if had_audio b then Waiting else Speaking (speak_line sp)) s)); [done..| |by right|].
  - unfold ChatTurn.writer_acts. by rewrite Hpc, Hb.
  - intros s1 H1 Hn1 Hp1. destruct (had_audio b); [by apply moves_here|by eapply speaking_moves].
Qed.

(** What is found in the buffer now is all there will be. *)
Lemma playing_moves sp k chunks n s :
  quiet s → length (queue s) <= n → pc s = Playing sp k chunks true → moves_to (waiting n) s.
Proof.
  revert s. induction chunks as [|pcm chunks IH]; intros s Hq Hn Hpc.
  - apply (moves_framed 0 n (Checking sp) s (goto (Checking sp) s)); [done..| |by right|].
    + unfold ChatTurn.writer_acts. by rewrite Hpc.
    + intros s1 H1 Hn1 Hp1. by eapply checking_moves.
  - apply (moves_framed 0 n (Playing sp k chunks true) s
      (drain_tokens 0 (emit_pcm 0 pcm (goto (Playing sp k chunks true))) s)); [done..| | |done].
    + unfold ChatTurn.writer_acts. by rewrite Hpc.
    + apply drain_wp; [by left|]. intros. unfold emit_pcm. apply write_wp; [by left|by right].
Qed.

Lemma following_moves sp k n s : quiet s → length (queue s) <= n → pc s = Following sp k → moves_to (waiting n) s.
Proof.
  intros Hq Hn Hpc. destruct (buffer_there sp s Hq) as [b Hb]; [right; by exists k|].
  pose proof Hq as (_ & _ & _ & _ & Ha). specialize (Ha b Hb).
  apply (moves_framed 0 n (follow_audio sp k b) s (goto (follow_audio sp k b) s)); [done..| |by right|].
  - unfold ChatTurn.writer_acts. by rewrite Hpc, Hb.
  - intros s1 H1 Hn1 Hp1. unfold follow_audio in Hp1. rewrite (bool_decide_eq_false_2 (audio_state b = AudioRunning)) in Hp1 by done.
    rewrite orb_true_r in Hp1. by eapply playing_moves.
Qed.

Lemma playing_on_moves sp k chunks n s :
  quiet s → length (queue s) <= n → pc s = Playing sp k chunks false → moves_to (waiting n) s.
Proof.
  revert s. induction chunks as [|pcm chunks IH]; intros s Hq Hn Hpc.
  - apply (moves_framed 0 n (Following sp k) s (goto (Following sp k) s)); [done..| |by right|].
    + unfold ChatTurn.writer_acts. by rewrite Hpc.
    + intros s1 H1 Hn1 Hp1. by eapply following_moves.
  - apply (moves_framed 0 n (Playing sp k chunks false) s
      (drain_tokens 0 (emit_pcm 0 pcm (goto (Playing sp k chunks false))) s)); [done..| | |done].
    + unfold ChatTurn.writer_acts. by rewrite Hpc.
    + apply drain_wp; [by left|]. intros. unfold emit_pcm. apply write_wp; [by left|by right].
Qed.

Lemma deciding_moves sp n s : quiet s → length (queue s) <= n → pc s = Deciding sp → moves_to (waiting n) s.
Proof.
  intros Hq Hn Hpc. set (p := if (use_spec_audio s).1 then Following sp 0 else Speaking (speak_line sp)).
  apply (moves_framed 0 n p s (decide_audio speak_line 0 sp s)); [done..| | |].
  - unfold ChatTurn.writer_acts. by rewrite Hpc.
  - unfold decide_audio, p. destruct (use_spec_audio s) as [use b]. apply write_wp; [by left|by right].
  - intros s1 H1 Hn1 Hp1. unfold p in Hp1. destruct (use_spec_audio s).1; [by eapply following_moves|by eapply speaking_moves].
Qed.

Lemma back_to_waiting n s : quiet s → length (queue s) <= n → moves_to (waiting n) s.
Proof.
  intros Hq Hn. destruct (pc s) as [| |sp|sp k|sp k chunks last|sp|ops| |] eqn:Hpc.
  - apply (moves_framed 0 n Waiting s (write (StartEvent slow_pace) (goto Waiting) s)); [done..| | |].
    + unfold ChatTurn.writer_acts. by rewrite Hpc.
    + apply write_wp; [by left|by right].
    + intros s1 H1 Hn1 Hp1. by apply moves_here.
  - by apply moves_here.
  - by eapply deciding_moves.
  - by eapply following_moves.
  - destruct last; [by eapply playing_moves|by eapply playing_on_moves].
  - by eapply checking_moves.
  - by eapply speaking_moves.
  - exists s. split; [apply reaches_refl|]. left. by left.
  - exists s. split; [apply reaches_refl|]. left. by right.
Qed.

Lemma take_event_queue now e (s : turn) :
  pc (take_event say warm_body now e s) = Unwound ∨ queue (take_event say warm_body now e s) = queue s.
Proof.
  destruct e; cbn [take_event].
  - unfold write_token. apply write_wp; [by left|by right].
  - right. by destruct (say _).
  - apply write_wp; [by left|]. intros _. right. destruct (warm_body _); [|done]. by destruct (_ && _).
Qed.

Lemma close_stream_over now (s : turn) : over (close_stream now s).
Proof.
  unfold close_stream. assert (∀ s1 : turn, over (write (DoneEvent (stats_of now s1)) (write EndOfStream
    (λ s, s <| abort := true |> <| pc := Finished |>)) s1)) as H.
  { intros s1. do 2 (apply write_wp; [by right|]; intros _). by left. }
  destruct (llm_ok s); [apply H|]. apply write_wp; [by right|]. intros _. apply H.
Qed.

(** With the other threads through, the writer comes to its end. *)
Lemma writer_ends s : quiet s → ∃ s', reaches s s' ∧ over s'.
Proof.
  intros Hq. assert (moves_to (λ _, False) s) as (s' & Hs & [Ho|[_ []]]); [|by exists s'].
  remember (length (queue s)) as n eqn:En. assert (length (queue s) <= n) as Hn by lia. clear En. revert s Hq Hn.
  induction n as [|n IH]; intros s Hq Hn; (eapply moves_trans; [by eapply back_to_waiting|]); intros s1 Hq1 [Hpc Hn1].
  - apply Nat.le_0_r, nil_length_inv in Hn1. pose proof Hq1 as (Hr & _ & Ha & Hv & _).
    destruct (known s1 Hr) as [_ Ho]. destruct Ho as (done & E & _ & _ & Hf & _); [by rewrite Hpc|].
    rewrite Hn1, Ha, app_nil_r in E. rewrite <- E, bool_decide_eq_true_2 in Hf by done.
    exists (close_stream 0 s1). split; [|left; apply close_stream_over]. apply (reaches_step (Writer 0)); [done|].
    cbn. unfold ChatTurn.writer_acts. by rewrite Hpc, Hn1, Hf.
  - destruct (queue s1) as [|e q] eqn:Eq; [apply IH; [done|rewrite Eq; cbn; lia]|].
    apply (moves_step 0 _ s1 (take_event say warm_body 0 e (s1 <| queue := q |>))); [done| |].
    + unfold ChatTurn.writer_acts. by rewrite Hpc, Eq.
    + intros Hq2 Hu. apply IH; [done|]. destruct (take_event_queue 0 e (s1 <| queue := q |>)) as [|E]; [done|].
      rewrite E. rewrite ?Eq in Hn1. cbn in Hn1 |- *. lia.
Qed.

End writing.

(** ** The other threads *)

Lemma worker_ends (s : turn) :
  (∃ b, buffer s = Some b) →
  ∃ s', reaches s s' ∧ worker_ahead s' = [] ∧ pc s' = pc s.
Proof.
  remember (worker_ahead s) as l eqn:El. revert s El. induction l as [|st l IH]; intros s El [b Hb].
  { exists s. by split; [apply reaches_refl|]. }
  assert (∃ s1, worker_acts s = Some s1 ∧ worker_ahead s1 = l ∧ pc s1 = pc s ∧ buffer s1 = Some (apply_step st b)) as (s1 & E & E1 & E2 & E3).
  { unfold worker_acts. rewrite <- El, Hb. eexists. split; [done|]. by destruct st. }
  destruct (IH s1) as (s' & H1 & H2 & H3); [done|by eexists|]. exists s'. split_and!; [|done|congruence].
  eapply reaches_trans; [by apply (reaches_step Worker)|done].
Qed.

(** The steps a call of [synthesize_first] may still take. *)
Definition synth_left (y : synth) : nat :=
  match y with
  | Settling sentence => 3 + length (store (say sentence)).1
  | Claiming spoken => 2 + length (store spoken).1
  | Storing chunks _ => 1 + length chunks
  | Over => 0
  end.

Lemma synth_steps i y (s : turn) :
  synths s !! i = Some y → y ≠ Over → (∃ b, buffer s = Some b) →
  ∃ s' y', synth_acts say store i s = Some s' ∧ synths s' = <[i := y']> (synths s) ∧ synth_left y' < synth_left y ∧
    (∃ b, buffer s' = Some b) ∧ worker_ahead s' = worker_ahead s.
Proof.
  intros Hi Hy [b Hb]. unfold synth_acts. rewrite Hi, Hb. destruct y as [sentence|spoken|chunks failed|]; [| | |done].
  - eexists _, _. split; [done|]. split; [done|]. split_and!; [|by exists b|done].
    cbn [synth_left]. destruct (spec_abort s); [cbn; lia|]. destruct (say sentence); cbn; lia.
  - case_bool_decide.
    + destruct (store spoken) as [chunks failed] eqn:Es. eexists _, (Storing chunks failed). split; [done|]. split; [done|].
      cbn. rewrite Es. cbn. split_and!; [lia|by eexists|done].
    + eexists _, Over. split; [done|]. split; [done|]. cbn. split_and!; [lia|by exists b|done].
  - destruct chunks as [|c chunks]; [destruct failed|];
      (eexists _, _; split; [done|]; split; [done|]; cbn; split_and!; [lia|by eexists|done]).
Qed.

Lemma sum_insert (g : synth → nat) l i y y' :
  l !! i = Some y → sum_list (map g (<[i := y']> l)) + g y = sum_list (map g l) + g y'.
Proof.
  revert i. induction l as [|x l IH]; intros [|i] H; try done; cbn in *; [injection H as ->; lia|]. rewrite <- !Nat.add_assoc. f_equal. by apply IH.
Qed.

Lemma synths_end (s : turn) :
  (∃ b, buffer s = Some b) → ∃ s', reaches s s' ∧ worker_ahead s' = worker_ahead s ∧ Forall (λ y, y = Over) (synths s').
Proof.
  remember (sum_list (map synth_left (synths s))) as n eqn:En. revert s En. induction n as [n IH] using lt_wf_ind. intros s -> Hb.
  destruct (decide (Exists (λ y, synth_left y ≠ 0) (synths s))) as [He|Hn].
  - apply Exists_exists in He as (y & [i Hi]%list_elem_of_lookup & Hy).
    destruct (synth_steps i y s Hi) as (s1 & y' & E & E1 & Hlt & Hb1 & E2); [by intros ->|done|].
    destruct (IH (sum_list (map synth_left (synths s1)))) with (s := s1) as (s' & H1 & H2 & H3); [|done..|].
    { rewrite E1. pose proof (sum_insert synth_left (synths s) i y y' Hi). lia. }
    exists s'. split_and!; [|congruence|done]. eapply reaches_trans; [by apply (reaches_step (Synth i))|done].
  - exists s. split_and!; [apply reaches_refl|done|]. apply not_Exists_Forall in Hn; [|by apply _].
    eapply Forall_impl; [exact Hn|]. intros [] H; try done; cbn in H; lia.
Qed.

(** The reader has ended only when there is nothing left to push. *)
Definition reader_sound (s : turn) : Prop :=
  ¬ over s → abort s = false ∧
  (ended (reader s) = true → ahead (reader s) = [] ∧ ∀ f, following (reader s) = Some f → is_Some (buffer s) → returned f = true).

Lemma over_stays l s s' : step l s = Some s' → over s → pc s' = pc s.
Proof.
  intros E Ho. destruct l as [|i| |now|]; cbn [ChatTurn.step] in E.
  - unfold worker_acts in E. by repeat case_match; simplify_eq.
  - by destruct (synth_seen _ _ _ _ _ E) as (_ & _ & _ & -> & _).
  - unfold push_event in E. by repeat case_match; simplify_eq.
  - unfold ChatTurn.writer_acts in E. by destruct Ho as [Ho|Ho]; rewrite Ho in E.
  - by injection E as <-.
Qed.

Lemma reader_sound_step l s s' : step l s = Some s' → reader_sound s → reader_sound s'.
Proof.
  intros E H Hn. assert (¬ over s) as Hn' by (intros Ho; apply Hn; unfold over; by rewrite (over_stays l s s')).
  destruct (H Hn') as [Ha He].
  assert (reader s' = reader s → abort s' = abort s → (is_Some (buffer s') → is_Some (buffer s)) →
    abort s' = false ∧ (ended (reader s') = true → ahead (reader s') = [] ∧ ∀ f, following (reader s') = Some f → is_Some (buffer s') → returned f = true)) as Hsame.
  { intros -> -> Hb. split; [done|]. intros E1. destruct (He E1) as [E2 E3]. split; [done|]. intros f Ef Eb. by apply E3, Hb. }
  destruct l as [|i| |now|]; cbn [ChatTurn.step] in E.
  - unfold worker_acts in E. destruct (worker_ahead s); [done|]. destruct (buffer s) eqn:Eb; [|done]. injection E as <-. by apply Hsame; case_match.
  - unfold synth_acts in E. destruct (buffer s) eqn:Eb; [|by repeat case_match]. repeat case_match; simplify_eq; by apply Hsame.
  - unfold push_event in E. rewrite Ha in E. destruct (ended (reader s)); [done|].
    destruct (ahead (reader s)); [|by injection E as <-].
    destruct (following (reader s)) as [f|] eqn:Ef; [destruct (buffer s) eqn:Eb; [destruct (returned f) eqn:Er|]|]; injection E as <-; split; try done;
      cbn; intros _; (split; [done|]); try done.
    + by intros g [= <-].
    + intros g _ []. congruence.
  - destruct (writer_framed _ _ _ _ _ now s s' E) as [Hu|(_ & _ & E3 & E4 & [E5|E5] & _)];
      [by destruct Hn; right| |by destruct Hn; left].
    apply Hsame; [done..|]. intros [b Eb]. rewrite Eb in E4. destruct E4 as [E4|(b0 & E4 & _)]; rewrite ?E4; by eexists.
  - by injection E as <-.
Qed.

(** The reader pushes all it holds. *)
Lemma pushes_all (s : turn) :
  ended (reader s) = false →
  ∃ s', reaches s s' ∧ reader s' = {| following := following (reader s); ahead := []; ended := false |} ∧
    buffer s' = buffer s ∧ synths s' = synths s ∧ worker_ahead s' = worker_ahead s ∧ abort s' = abort s ∧ pc s' = pc s.
Proof.
  destruct (reader s) as [f l e] eqn:Er. cbn. intros ->. revert s Er. induction l as [|x l IH]; intros s Er.
  { exists s. by split; [apply reaches_refl|]. }
  set (s1 := s <| queue := queue s ++ [x] |> <| reader := {| following := f; ahead := l; ended := false |} |>).
  destruct (IH s1 eq_refl) as (s' & H1 & H2 & H3). exists s'. split; [|done].
  eapply reaches_trans; [|done]. apply (reaches_step Reader); [done|]. cbn. unfold push_event. by rewrite Er.
Qed.

Lemma reachable_sound s0 s : reachable s0 s → reader_sound s0 → reader_sound s.
Proof. induction 1 as [|l s s' _ IH E]; [done|]. intros H. by eapply reader_sound_step; [|apply IH]. Qed.

(** ** Turns *)

Section turns.
Context (ss : list worker_step) (first : bytes) (result : LlmClient.ChatResult (Double := Double)).
Hypothesis script : worker_script ss first result.

Lemma script_settles : settled (apply_steps ss fresh_speculation) = Some result.
Proof.
  destruct script as [shown tail more -> Hn Hb Hf Ef Hmore].
  assert (∃ synth, more = map (λ x : bytes * Z, Synthesize x.1 x.2) synth) as Hm
    by (destruct Hmore as [->| ->]; [by exists []|by eexists [(_, _)]]).
  destruct (settled_after shown more tail result Hn Hm (length (shown ++ Settle tail result :: more))) as (_ & _ & _ & H).
  rewrite firstn_all in H. apply H. rewrite length_app. cbn. lia.
Qed.

(** With nothing left for the worker, the reader of an attached turn comes to the
    end of the reply. *)
Lemma attached_reader_ends s :
  reachable (attached_turn ss) s → worker_ahead s = [] → ¬ over s →
  ∃ s', reaches s s' ∧ ended (reader s') = true ∧ ahead (reader s') = [] ∧ synths s' = synths s ∧ pc s' = pc s.
Proof.
  intros Hr Hw Hn. destruct (reachable_sound _ s Hr ltac:(done) Hn) as [Ha He].
  destruct (ended (reader s)) eqn:Een; [exists s; split_and!; try done; [apply reaches_refl|by apply He]|].
  destruct (pushes_all s Een) as (s1 & R1 & E1 & E2 & E3 & E4 & E5 & E6).
  destruct (reachable_replaying say speak_line store slow_pace far_ahead warm_body ss s1) as (n & polls & b & f & Hd & Hle & Eb & Es & Ef & _);
    [by eapply reachable_reaches|intros Hu; apply Hn; right; congruence|].
  rewrite E1 in Ef. cbn in Ef. rewrite E4, Hw in Hd. symmetry in Hd. apply (f_equal length) in Hd. rewrite length_drop in Hd. cbn in Hd.
  rewrite take_ge in Es by lia.
  assert (settled b = Some result) as Eset by (unfold seen in Es; rewrite script_settles in Es; by injection Es).
  assert (∀ s2 f, reaches s s2 → reader s2 = {| following := Some f; ahead := []; ended := false |} → buffer s2 = Some b →
    returned f = true → synths s2 = synths s → pc s2 = pc s →
    ∃ s', reaches s s' ∧ ended (reader s') = true ∧ ahead (reader s') = [] ∧ synths s' = synths s ∧ pc s' = pc s) as Hend.
  { intros s2 g R2 Er Eb2 Hret Hsy Hpc. eexists. split; [eapply reaches_trans; [exact R2|apply (reaches_step Reader); [done|]]|].
    - cbn. unfold push_event. rewrite Er, Eb2. cbn. by rewrite Hret.
    - done. }
  destruct (returned f) eqn:Hret; [apply (Hend s1 f); try done; by rewrite E1, Ef|].
  set (s2 := s1 <| reader := {| following := Some (poll b f); ahead := drop (length (replayed f)) (replayed (poll b f)); ended := false |} |>).
  assert (reaches s1 s2) as R2.
  { apply (reaches_step Reader); [done|]. cbn. unfold push_event. rewrite E1, Ef. cbn. by rewrite Eb, Hret, E5, Ha. }
  destruct (pushes_all s2 eq_refl) as (s3 & R3 & F1 & F2 & F3 & F4 & F5 & F6).
  apply (Hend s3 (poll b f)); [|by rewrite F1|by rewrite F2| |by rewrite F3|by rewrite F6].
  - by eapply reaches_trans, reaches_trans.
  - unfold poll. by rewrite Eset.
Qed.
Lemma attached_known s : reachable (attached_turn ss) s → voiced speak_line store (Some (say first)) s ∧ ordered say slow_pace [] s.
Proof.
  intros Hr. split; [intros Hp|].
  2: { apply (reachable_ordered say speak_line store slow_pace far_ahead warm_body [] (Some fresh_speculation) ss (Some start_follower)); [|done].
       by intros g [= <-]. }
  by apply (reachable_inv say speak_line store slow_pace far_ahead warm_body ss first result s).
Qed.

Lemma attached_buffer s : reachable (attached_turn ss) s → ¬ over s → ∃ b, buffer s = Some b.
Proof.
  intros Hr Hn. destruct (reachable_replaying say speak_line store slow_pace far_ahead warm_body ss s) as (_ & _ & b & _ & _ & _ & Eb & _);
    [done|intros Hu; apply Hn; by right|by exists b].
Qed.

Lemma attached_quiet s :
  reachable (attached_turn ss) s → ¬ over s → ended (reader s) = true → ahead (reader s) = [] → Forall (λ y, y = Over) (synths s) →
  quiet (attached_turn ss) [] s.
Proof.
  intros Hr Hn He Ha Hsy. split_and!; [done..| |].
  - destruct (attached_buffer s Hr Hn) as [b Eb].
    destruct (reachable_sound _ s Hr ltac:(done) Hn) as [_ Hs]. destruct (Hs He) as [_ Hret].
    destruct (reachable_replaying say speak_line store slow_pace far_ahead warm_body ss s) as (n & polls & b' & f & _ & _ & _ & _ & Ef & -> & _);
      [done|intros Hu; apply Hn; by right|].
    specialize (Hret _ Ef ltac:(by rewrite Eb)). pose proof (replay_closed ss first result script polls) as Hc. rewrite Hret in Hc.
    unfold produced. rewrite Ef. apply closed_verdict in Hc. by rewrite Hc.
  - intros b Eb Hrun. destruct (reachable_inv say speak_line store slow_pace far_ahead warm_body ss first result s script Hr) as (_ & _ & (_ & b' & Eb' & Hok) & _).
    { intros Hu; apply Hn; by right. }
    rewrite Eb in Eb'. injection Eb' as <-. unfold audio_ok in Hok. rewrite Hrun in Hok. destruct Hok as (_ & rest & Hst & _).
    assert (storing s = []) as E; [|by rewrite E in Hst]. unfold storing.
    clear -Hsy. induction Hsy as [|y l -> _ IH]; [done|exact IH].
Qed.

Lemma attached_ends s : reachable (attached_turn ss) s → ∃ s', reaches s s' ∧ over s'.
Proof.
  intros Hr. assert (∀ s, over s ∨ ¬ over s) as Hdec by (intros s1; unfold over; destruct (pc s1); auto; right; by intros []).
  destruct (Hdec s) as [Ho|Hn]; [exists s; by split; [apply reaches_refl|]|].
  destruct (worker_ends s) as (s1 & R1 & Hw & Hp1); [by apply attached_buffer|].
  assert (reachable (attached_turn ss) s1) as Hr1 by by eapply reachable_reaches.
  assert (¬ over s1) as Hn1 by (unfold over; by rewrite Hp1).
  destruct (synths_end s1) as (s2 & R2 & Hw2 & Hsy); [by apply attached_buffer|].
  assert (reachable (attached_turn ss) s2) as Hr2 by by eapply reachable_reaches.
  destruct (Hdec s2) as [Ho|Hn2]; [exists s2; split; [by eapply reaches_trans|done]|].
  destruct (attached_reader_ends s2) as (s3 & R3 & He & Ha & Hsy3 & Hp3); [done|congruence|done|].
  assert (reachable (attached_turn ss) s3) as Hr3 by by eapply reachable_reaches.
  destruct (writer_ends (attached_turn ss) (Some (say first)) [] attached_known s3) as (s4 & R4 & Ho).
  { apply attached_quiet; try done; [unfold over; by rewrite Hp3|by rewrite Hsy3]. }
  exists s4. split; [|done]. by eapply reaches_trans, reaches_trans, reaches_trans.
Qed.
End turns.

(** A turn that reads the reply itself. *)
Lemma direct_ends events ok0 error0 (s : turn) :
  closed events ok0 error0 → reachable (direct_turn events) s → ∃ s', reaches s s' ∧ over s'.
Proof.
  intros Hc Hr. assert (over s ∨ ¬ over s) as [Ho|Hn] by (unfold over; destruct (pc s); auto; right; by intros []);
    [exists s; by split; [apply reaches_refl|]|].
  assert (∃ s1, reaches s s1 ∧ ended (reader s1) = true ∧ ahead (reader s1) = [] ∧ pc s1 = pc s) as (s1 & R1 & He & Ha & Hp).
  { destruct (reachable_sound _ s Hr ltac:(done) Hn) as [_ Hs].
    destruct (ended (reader s)) eqn:E; [exists s; split_and!; try done; [apply reaches_refl|by apply Hs]|].
    destruct (pushes_all s E) as (s1 & R1 & E1 & E2 & _ & _ & _ & E6). destruct (reachable_direct say speak_line store slow_pace far_ahead warm_body events s Hr) as [Hf _].
    { intros Hu. apply Hn. by right. }
    eexists. split; [eapply reaches_trans; [exact R1|apply (reaches_step Reader); [done|]]|].
    - cbn. unfold push_event. rewrite E1, Hf. cbn. done.
    - by split_and!. }
  assert (reachable (direct_turn events) s1) as Hr1 by by eapply reachable_reaches.
  destruct (reachable_direct say speak_line store slow_pace far_ahead warm_body events s1 Hr1) as [Hf Hb].
  { rewrite Hp. intros Hu. apply Hn. by right. }
  destruct (writer_ends (direct_turn events) None events) with (s := s1) as (s2 & R2 & Ho); [|split_and!; try done|].
  - intros s2 H2. split; [by eapply reachable_voiced|by apply (reachable_ordered say speak_line store slow_pace far_ahead warm_body events None [] None s2)].
  - unfold produced. rewrite Hf. apply closed_verdict in Hc. by rewrite Hc.
  - intros b Eb. by rewrite Hb in Eb.
  - exists s2. split; [by eapply reaches_trans|done].
Qed.

End live.

(** * Properties *)

Section properties.
Context {Double : Type} (minus_one : Double) (nonnegative : Double → bool)
  (json_parse : bytes → outcome (Json.Value Double)).
Context (say : bytes → bytes) (speak_line : bytes → list op) (store : bytes → list bytes * bool)
  (slow_pace : bool) (far_ahead : nat → Z → bool) (warm_body : bytes → option bytes).

Notation reachable := (reachable say speak_line store slow_pace far_ahead warm_body (Double := Double)).
Notation reaches := (reaches say speak_line store slow_pace far_ahead warm_body).

(** C31. No turn hangs: from every state that the interleaving of its threads can
    bring it to, whatever the client did, there are further steps of its threads
    that close the stream, or that unwind because the client has left or the model
    has failed; for a turn that reads the language model and for one that attaches
    to a speculation whose worker and synthesis may be anywhere in their work. *)
Theorem turn_can_end o early aborts c host port body s :
  reachable (direct_turn (read_reply minus_one nonnegative json_parse o aborts c host port body).1) s ∨
  reachable (attached_turn (speculate minus_one nonnegative json_parse early aborts c host port body).1) s →
  ∃ s', reaches s s' ∧ over s'.
Proof.
  intros [Hr|Hr].
  - pose proof (read_reply_closed minus_one nonnegative json_parse o aborts c host port body) as Hc.
    destruct (read_reply _ _ _ _ _ _ _ _ _) as [events result]. by eapply direct_ends.
  - destruct (speculate_script minus_one nonnegative json_parse early aborts c host port body) as (first & result & Hs & _).
    by eapply attached_ends.
Qed.

End properties.

(** * A concrete turn *)

Module Ending.
Import Replied Heard.

(** The synthesis has begun and the writer follows it. *)
Notation midway := (after failing (take 18 attached_labels) (attached_turn (Double := Z) worker_steps)).

Lemma turn_can_end_witness :
  pc midway = Following (str "Hello") 0 ∧
  ∃ s', reaches strip_speech_markup speech failing false (λ _ _, false) (λ _, None) midway s' ∧ over s'.
Proof.
  split; [vm_compute; reflexivity|].
  apply (turn_can_end (-1)%Z (Z.leb 0) Collector.parse strip_speech_markup speech failing false (λ _ _, false) (λ _, None)
    direct_options true [] sidecar (str "127.0.0.1") 8080 (str "{}") midway). right.
  apply (run_reachable strip_speech_markup speech failing false (λ _ _, false) (λ _, None) _ (attached_turn worker_steps) (take 18 attached_labels));
    [constructor|]. vm_compute. reflexivity.
Defined.

End Ending.
