(* ===== verification/WarmQueue.v ===== *)
(** The queue of prompt-cache warm-ups (app/server/runtime.cpp, [queue_llm_warm],
    [begin_llm_generation], [end_llm_generation]): the worker thread over the
    pending body, the number of generations and the condition variable, as a state
    machine whose steps are the critical sections of [llm_warm_mutex_]. *)

From S2P Require Import Prelude.

(** * The state *)

(** A worker thread: about to take the mutex at the head of its loop; in
    [llm_warm_cv_.wait], not notified yet; in the settle time of [300] ms, without
    the mutex; posting a body, without the mutex; returned. *)
Inductive warm_worker :=
| Looking
| Asleep
| Settling
| Posting (body : bytes)
| Returned.

(** What has happened, in the order of the critical sections. *)
Inductive warm_event :=
| Queued (body : bytes)
| Began
| Ended
| Posted (body : bytes).

Record WarmQueue := {
  llm_warm_pending_ : bytes;
  llm_warm_worker_running_ : bool;
  llm_generations_active_ : Z;
  notifying : nat;                       (* [end_llm_generation] between the mutex and [notify_all] *)
  warm_workers : list warm_worker;
  history : list warm_event;
}.

#[export] Instance WarmQueue_settable : Settable WarmQueue := λ q,
  {| llm_warm_pending_ := llm_warm_pending_ q; llm_warm_worker_running_ := llm_warm_worker_running_ q;
     llm_generations_active_ := llm_generations_active_ q; notifying := notifying q; warm_workers := warm_workers q;
     history := history q |}.

Definition idle_queue : WarmQueue :=
  {| llm_warm_pending_ := []; llm_warm_worker_running_ := false; llm_generations_active_ := 0; notifying := 0;
     warm_workers := []; history := [] |}.

Definition wake (w : warm_worker) : warm_worker := match w with Asleep => Looking | _ => w end.

(** [llm_warm_cv_.notify_all()]. *)
Definition notify_all (q : WarmQueue) : WarmQueue := q <| warm_workers := map wake (warm_workers q) |>.

(** * Operations *)

Definition queue_llm_warm (body : bytes) (q : WarmQueue) : WarmQueue :=
  let q := notify_all (q <| llm_warm_pending_ := body |> <| history := history q ++ [Queued body] |>) in
  if llm_warm_worker_running_ q then q
  else q <| llm_warm_worker_running_ := true |> <| warm_workers := warm_workers q ++ [Looking] |>.

Definition begin_llm_generation (q : WarmQueue) : WarmQueue :=
  q <| llm_generations_active_ := (llm_generations_active_ q + 1)%Z |> <| history := history q ++ [Began] |>.

(** Up to the [notify_all]. *)
Definition end_llm_generation (q : WarmQueue) : WarmQueue :=
  q <| llm_generations_active_ := (llm_generations_active_ q - 1)%Z |> <| notifying := S (notifying q) |>
    <| history := history q ++ [Ended] |>.

Definition notify_end (q : WarmQueue) : option WarmQueue :=
  match notifying q with
  | O => None
  | S n => Some (notify_all (q <| notifying := n |>))
  end.

Definition become (i : nat) (w : warm_worker) (q : WarmQueue) : WarmQueue := q <| warm_workers := <[i := w]> (warm_workers q) |>.

(** The head of the loop of worker [i], which has the mutex. *)
Definition loop_head (i : nat) (q : WarmQueue) : WarmQueue :=
  match llm_warm_pending_ q with
  | [] => become i Returned (q <| llm_warm_worker_running_ := false |>)
  | _ => become i (if (0 <? llm_generations_active_ q)%Z then Asleep else Settling) q
  end.

(** A worker up to the next point where it has not got the mutex. *)
Definition work (i : nat) (q : WarmQueue) : option WarmQueue :=
  match warm_workers q !! i with
  | Some Looking | Some (Posting _) => Some (loop_head i q)
  | Some Settling =>
      match llm_warm_pending_ q with
      | [] => Some (loop_head i q)
      | body =>
          if (0 <? llm_generations_active_ q)%Z then Some (loop_head i q)
          else Some (become i (Posting body) (q <| llm_warm_pending_ := [] |> <| history := history q ++ [Posted body] |>))
      end
  | _ => None
  end.

(** * Steps *)

Inductive action :=
| Queue (body : bytes)
| Begin
| End_
| Notify
| Work (i : nat)
| Spurious (i : nat).                    (* a wake-up without a notification *)

(** A generation ends only when it has begun. *)
Definition step (a : action) (q : WarmQueue) : option WarmQueue :=
  match a with
  | Queue body => Some (queue_llm_warm body q)
  | Begin => Some (begin_llm_generation q)
  | End_ => if (0 <? llm_generations_active_ q)%Z then Some (end_llm_generation q) else None
  | Notify => notify_end q
  | Work i => work i q
  | Spurious i => match warm_workers q !! i with Some Asleep => Some (become i Looking q) | _ => None end
  end.

Definition run (actions : list action) (q : WarmQueue) : option WarmQueue :=
  foldl (λ q a, q ≫= step a) (Some q) actions.

Inductive reachable : WarmQueue → Prop :=
| reach_idle : reachable idle_queue
| reach_step a q q' : reachable q → step a q = Some q' → reachable q'.

(** * What a history comes to *)

(** The newest body, when it has not been posted yet. *)
Definition unposted (l : list warm_event) : bytes :=
  foldl (λ p e, match e with Queued body => body | Posted _ => [] | _ => p end) [] l.

(** The generations that have begun and not ended. *)
Definition generating (l : list warm_event) : Z :=
  foldl (λ n e, match e with Began => n + 1 | Ended => n - 1 | _ => n end)%Z 0%Z l.

(** Every post carried the newest body, which had not been posted before, and began
    while nothing was generated. *)
Definition posts_well (l : list warm_event) : Prop :=
  ∀ l1 body l2, l = l1 ++ Posted body :: l2 → body ≠ [] ∧ unposted l1 = body ∧ generating l1 = 0%Z.

Definition live (q : WarmQueue) : list warm_worker := List.filter (λ w, match w with Returned => false | _ => true end) (warm_workers q).

(** * The invariant *)

Record warm_inv (q : WarmQueue) : Prop := {
  inv_pending : llm_warm_pending_ q = unposted (history q);
  inv_active : llm_generations_active_ q = generating (history q);
  inv_positive : (0 <= llm_generations_active_ q)%Z;
  inv_posts : posts_well (history q);
  inv_one : length (live q) = if llm_warm_worker_running_ q then 1 else 0;
  inv_kept : llm_warm_pending_ q ≠ [] → llm_warm_worker_running_ q = true;
  inv_asleep : Asleep ∈ warm_workers q → (0 < llm_generations_active_ q)%Z ∨ 0 < notifying q;
}.

Lemma unposted_snoc l e : unposted (l ++ [e]) = match e with Queued body => body | Posted _ => [] | _ => unposted l end.
Proof. unfold unposted. by rewrite foldl_app. Qed.

Lemma generating_snoc l e :
  generating (l ++ [e]) = match e with Began => generating l + 1 | Ended => generating l - 1 | _ => generating l end%Z.
Proof. unfold generating. by rewrite foldl_app. Qed.

Lemma posts_well_snoc l e :
  posts_well l → match e with Posted body => body ≠ [] ∧ unposted l = body ∧ generating l = 0%Z | _ => True end →
  posts_well (l ++ [e]).
Proof.
  intros H He l1 body l2 E. destruct l2 as [|e2 l2 _] using rev_ind.
  - apply app_inj_tail in E as [<- ->]. done.
  - rewrite app_comm_cons, app_assoc in E. apply app_inj_tail in E as [-> _]. by eapply H.
Qed.

Lemma live_wake (l : list warm_worker) :
  length (List.filter (λ w, match w with Returned => false | _ => true end) (map wake l)) =
  length (List.filter (λ w, match w with Returned => false | _ => true end) l).
Proof. induction l as [|[] l IH]; cbn; auto. Qed.

Lemma no_sleeper (l : list warm_worker) : Asleep ∉ map wake l.
Proof. intros (w & H & _)%list_elem_of_fmap. by destruct w. Qed.

(** The effect of a step of worker [i] on the workers that have not returned. *)
Lemma live_become i w w' (q q' : WarmQueue) :
  warm_workers q !! i = Some w → warm_workers q' = <[i := w']> (warm_workers q) → w ≠ Returned →
  length (live q') + (match w' with Returned => 1 | _ => 0 end) = length (live q).
Proof.
  intros H E Hw. unfold live. rewrite E, insert_take_drop by (by eapply lookup_lt_Some).
  rewrite <- (take_drop_middle (warm_workers q) i w H) at 3. rewrite !List.filter_app, !length_app. cbn [List.filter].
  destruct w, w'; cbn [length]; try done; lia.
Qed.

Lemma live_same i w w' (q q' : WarmQueue) :
  warm_workers q !! i = Some w → warm_workers q' = <[i := w']> (warm_workers q) → w ≠ Returned → w' ≠ Returned →
  length (live q') = length (live q).
Proof. intros Hi E Hw Hw'. rewrite <- (live_become i w w' q q' Hi E Hw). destruct w'; try done; cbv iota; lia. Qed.

Lemma asleep_become i w (q : WarmQueue) : Asleep ∈ <[i := w]> (warm_workers q) → w ≠ Asleep → Asleep ∈ warm_workers q.
Proof. intros [j Hj]%list_elem_of_lookup Hw. apply list_lookup_insert_Some in Hj as [(_ & -> & _)|[_ Hj]]; [done|]. by eapply list_elem_of_lookup_2. Qed.

Lemma loop_head_inv i w q : warm_workers q !! i = Some w → w ≠ Returned → warm_inv q → warm_inv (loop_head i q).
Proof.
  intros Hi Hw [H1 H2 H3 H4 H5 H6 H7]. unfold loop_head. destruct (llm_warm_pending_ q) as [|c p] eqn:Ep.
  - assert (∀ q1, warm_workers q1 = <[i := Returned]> (warm_workers q) → length (live q1) = 0) as Hl.
    { intros q1 E. pose proof (live_become i w Returned q q1 Hi E Hw) as Hl. rewrite H5 in Hl.
      destruct (llm_warm_worker_running_ q); cbv iota in Hl; lia. }
    split; cbn; try done.
    + by rewrite Ep.
    + by apply (Hl (become i Returned q)).
    + intros Ha. apply H7. by eapply asleep_become.
  - set (w' := if (0 <? llm_generations_active_ q)%Z then Asleep else Settling).
    assert (length (live (become i w' q)) = length (live q)) as El
      by (apply (live_same i w w'); [done..|]; unfold w'; by destruct (0 <? _)%Z).
    split; cbn; try done; [by rewrite Ep|exact (eq_trans El H5)|by rewrite Ep|]. intros Ha. unfold w' in Ha.
    destruct (Z.ltb_spec 0 (llm_generations_active_ q)); [by left|]. apply H7. by eapply asleep_become.
Qed.

Lemma warm_step_inv a q q' : step a q = Some q' → warm_inv q → warm_inv q'.
Proof.
  intros E Hq. pose proof Hq as [H1 H2 H3 H4 H5 H6 H7]. destruct a as [body| | | |i|i]; cbn [step] in E.
  - injection E as <-. unfold queue_llm_warm.
    set (q1 := notify_all _). assert (length (live q1) = length (live q)) as El by apply live_wake.
    assert (llm_warm_worker_running_ q1 = llm_warm_worker_running_ q) as -> by done.
    destruct (llm_warm_worker_running_ q) eqn:Er.
    + split; cbn; try done; [by rewrite unposted_snoc|by rewrite generating_snoc|by apply posts_well_snoc|rewrite Er; exact (eq_trans El H5)|].
      by intros []%no_sleeper.
    + split; cbn; try done; [by rewrite unposted_snoc|by rewrite generating_snoc|by apply posts_well_snoc| |].
      * unfold live in *. cbn. rewrite List.filter_app, length_app. cbn. rewrite live_wake, H5. done.
      * by intros [[]%no_sleeper|?%list_elem_of_singleton]%elem_of_app.
  - injection E as <-. split; cbn; try done; [by rewrite unposted_snoc|by rewrite generating_snoc, H2|lia|by apply posts_well_snoc|].
    intros Ha. left. lia.
  - destruct (Z.ltb_spec 0 (llm_generations_active_ q)) as [Hp|]; [|done]. injection E as <-.
    split; cbn; try done; [by rewrite unposted_snoc|by rewrite generating_snoc, H2|lia|by apply posts_well_snoc|]. intros _. right. lia.
  - unfold notify_end in E. destruct (notifying q) as [|n]; [done|]. injection E as <-.
    split; cbn; try done; [|by intros []%no_sleeper]. unfold live in *. cbn. by rewrite live_wake.
  - unfold work in E. destruct (warm_workers q !! i) as [w|] eqn:Hi; [|done].
    destruct w; try done; [by injection E as <-; eapply loop_head_inv| |by injection E as <-; eapply loop_head_inv].
    destruct (llm_warm_pending_ q) as [|c p] eqn:Ep; [by injection E as <-; eapply loop_head_inv|].
    destruct (Z.ltb_spec 0 (llm_generations_active_ q)); [by injection E as <-; eapply loop_head_inv|].
    injection E as <-. set (q' := become _ _ _). pose proof (live_same i Settling (Posting (c :: p)) q q' Hi eq_refl) as Hl.
    split; cbn; try done.
    + by rewrite unposted_snoc.
    + by rewrite generating_snoc.
    + apply posts_well_snoc; [done|]. split_and!; [done|by rewrite <- H1|lia].
    + by rewrite <- H5, <- Hl.
    + intros Ha. apply H7. by eapply asleep_become.
  - destruct (warm_workers q !! i) as [[]|] eqn:Hi; try done. injection E as <-.
    pose proof (live_same i Asleep Looking q (become i Looking q) Hi eq_refl) as Hl.
    split; cbn; try done.
    + by rewrite <- H5, <- Hl.
    + intros Ha. apply H7. by eapply asleep_become.
Qed.

Lemma reachable_warm q : reachable q → warm_inv q.
Proof.
  induction 1 as [|a q q' _ IH E]; [|by eapply warm_step_inv]. split; cbn; try done; try lia; [|by intros ?%not_elem_of_nil].
  intros l1 body l2 E. by destruct l1.
Qed.

(** * The worker on its own *)

(** The steps that are no call of the outside: the worker's, and the notification
    that an ended generation owes. *)
Definition own_step (a : action) : bool := match a with Notify | Work _ => true | _ => false end.

(** A bound on the own steps to come while nothing is generated. *)
Definition weight (pending : bytes) (w : warm_worker) : nat :=
  match w, pending with
  | Returned, _ => 0
  | (Looking | Settling), [] => 1
  | Posting _, [] => 3
  | Asleep, [] => 4
  | Settling, _ => 5
  | Looking, _ => 6
  | Posting _, _ => 7
  | Asleep, _ => 8
  end.

Definition weigh (q : WarmQueue) : nat := notifying q + list_sum (map (weight (llm_warm_pending_ q)) (warm_workers q)).

Lemma sum_lowered (f g : warm_worker → nat) l i w w' :
  l !! i = Some w → (∀ w, g w <= f w) → g w' < f w → list_sum (map g (<[i := w']> l)) < list_sum (map f l).
Proof.
  intros H Hle Hlt. rewrite insert_take_drop by (by eapply lookup_lt_Some).
  rewrite <- (take_drop_middle l i w H) at 3. rewrite !map_app, !list_sum_app. cbn [map list_sum fold_right].
  assert (∀ k, list_sum (map g k) <= list_sum (map f k)) as Hk.
  { induction k as [|a k IH]; [done|]. cbn. specialize (Hle a). unfold list_sum in IH. lia. }
  pose proof (Hk (take i l)) as H1. pose proof (Hk (drop (S i) l)) as H2. unfold list_sum in *. lia.
Qed.

Lemma sum_woken p l : list_sum (map (weight p) (map wake l)) <= list_sum (map (weight p) l).
Proof. induction l as [|w l IH]; [done|]. cbn in *. destruct w, p; cbn; unfold list_sum in *; lia. Qed.

(** What an own step leaves of the pending body and the history. *)
Definition carried (q q' : WarmQueue) : Prop :=
  llm_generations_active_ q' = llm_generations_active_ q ∧
  (llm_warm_pending_ q' = llm_warm_pending_ q ∧ history q' = history q ∨
   llm_warm_pending_ q ≠ [] ∧ llm_warm_pending_ q' = [] ∧ history q' = history q ++ [Posted (llm_warm_pending_ q)]).

Lemma loop_head_lighter i w q :
  warm_workers q !! i = Some w → (w = Looking ∨ (∃ body, w = Posting body) ∨ w = Settling ∧ llm_warm_pending_ q = []) →
  llm_generations_active_ q = 0%Z → carried q (loop_head i q) ∧ weigh (loop_head i q) < weigh q.
Proof.
  intros Hi Hw Ha. unfold loop_head, weigh. destruct (llm_warm_pending_ q) as [|c p] eqn:Ep.
  - split; [split; [done|by left]|]. cbn [llm_warm_pending_ become warm_workers notifying].
    change (notifying q + list_sum (map (weight (llm_warm_pending_ q)) (<[i := Returned]> (warm_workers q))) <
            notifying q + list_sum (map (weight []) (warm_workers q))). rewrite Ep.
    apply Nat.add_lt_mono_l, (sum_lowered _ _ _ i w); [done|done|]. destruct Hw as [->|[[b ->]|[-> _]]]; cbn; lia.
  - rewrite Ha. cbv beta iota. change (0 <? 0)%Z with false. cbv iota. split; [split; [done|by left]|].
    change (notifying q + list_sum (map (weight (llm_warm_pending_ q)) (<[i := Settling]> (warm_workers q))) <
            notifying q + list_sum (map (weight (c :: p)) (warm_workers q))). rewrite Ep.
    apply Nat.add_lt_mono_l, (sum_lowered _ _ _ i w); [done|done|]. destruct Hw as [->|[[b ->]|[_ ?]]]; cbn; [lia|lia|done].
Qed.

Lemma own_step_lighter a q q' :
  own_step a = true → llm_generations_active_ q = 0%Z → step a q = Some q' → carried q q' ∧ weigh q' < weigh q.
Proof.
  intros Ho Ha E. destruct a as [body| | | |i|i]; try done; cbn [step] in E.
  - unfold notify_end in E. destruct (notifying q) as [|n] eqn:En; [done|]. injection E as <-. split; [split; [done|by left]|].
    unfold weigh. rewrite En.
    change (n + list_sum (map (weight (llm_warm_pending_ q)) (map wake (warm_workers q))) <
            S n + list_sum (map (weight (llm_warm_pending_ q)) (warm_workers q))).
    pose proof (sum_woken (llm_warm_pending_ q) (warm_workers q)). lia.
  - unfold work in E. destruct (warm_workers q !! i) as [w|] eqn:Hi; [|done].
    destruct w as [| | |body|]; try done.
    + injection E as <-. eapply loop_head_lighter; eauto.
    + destruct (llm_warm_pending_ q) as [|c p] eqn:Ep; [injection E as <-; eapply loop_head_lighter; eauto|].
      rewrite Ha in E. injection E as <-. split; [split; [done|right; by rewrite Ep]|]. unfold weigh. rewrite Ep.
      change (notifying q + list_sum (map (weight []) (<[i := Posting (c :: p)]> (warm_workers q))) <
              notifying q + list_sum (map (weight (c :: p)) (warm_workers q))).
      apply Nat.add_lt_mono_l, (sum_lowered _ _ _ i Settling); [done| |cbn; lia]. intros []; cbn; lia.
    + injection E as <-. eapply loop_head_lighter; eauto.
Qed.

Lemma carried_trans q1 q2 q3 : carried q1 q2 → carried q2 q3 → carried q1 q3.
Proof.
  intros [A1 H1] [A2 H2]. split; [congruence|].
  destruct H1 as [[P1 E1]|(N1 & P1 & E1)], H2 as [[P2 E2]|(N2 & P2 & E2)]; [left|right|right|done];
    split_and?; rewrite ?P2, ?P1, ?E2, ?E1; auto; by rewrite <- P1.
Qed.

Lemma warm_run_cons a actions q : run (a :: actions) q = step a q ≫= run actions.
Proof. unfold run. cbn [foldl]. change (Some q ≫= step a) with (step a q). destruct (step a q); [done|]. cbn. by induction actions. Qed.

Lemma own_run actions q q' :
  Forall (λ a, own_step a = true) actions → llm_generations_active_ q = 0%Z → run actions q = Some q' →
  carried q q' ∧ weigh q' + length actions <= weigh q.
Proof.
  revert q. induction actions as [|a actions IH]; intros q Ho Ha E.
  { injection E as <-. split; [split; [done|by left]|]. cbn. lia. }
  apply Forall_cons in Ho as [Ho1 Ho]. rewrite warm_run_cons in E. apply bind_Some in E as (q1 & E1 & E).
  destruct (own_step_lighter a q q1 Ho1 Ha E1) as [Hc Hw].
  destruct (IH q1 Ho) as [Hc' Hw']; [destruct Hc; congruence|done|]. split; [by eapply carried_trans|]. cbn. lia.
Qed.

Lemma warm_run_reaches actions q q' : reachable q → run actions q = Some q' → reachable q'.
Proof.
  revert q. induction actions as [|a actions IH]; intros q H E; [by injection E as <-|].
  rewrite warm_run_cons in E. apply bind_Some in E as (q1 & E1 & E). apply (IH q1); [by eapply reach_step|done].
Qed.

(** With no own step left and nothing being generated, there is no worker. *)
Lemma stuck_idle q :
  warm_inv q → llm_generations_active_ q = 0%Z → (∀ a, own_step a = true → step a q = None) →
  llm_warm_pending_ q = [] ∧ live q = [].
Proof.
  intros [H1 H2 H3 H4 H5 H6 H7] Ha Hs.
  assert (notifying q = 0) as Hn by (specialize (Hs Notify eq_refl); cbn in Hs; unfold notify_end in Hs; by destruct (notifying q)).
  assert (live q = []) as Hl.
  { destruct (live q) as [|w l] eqn:El; [done|]. exfalso. assert (In w (live q)) as Hin by (rewrite El; by left).
    unfold live in Hin. apply List.filter_In in Hin as [Hin Hw]. apply list_elem_of_In in Hin.
    pose proof Hin as [i Hi]%list_elem_of_lookup. specialize (Hs (Work i) eq_refl). cbn in Hs. unfold work in Hs. rewrite Hi in Hs.
    destruct w; try done.
    - destruct (H7 Hin); lia.
    - destruct (llm_warm_pending_ q); [done|]. by rewrite Ha in Hs. }
  split; [|done]. rewrite Hl in H5. destruct (llm_warm_worker_running_ q); [done|].
  destruct (llm_warm_pending_ q); [done|]. by specialize (H6 ltac:(done)).
Qed.

(** * Properties *)

(** C32. However the calls that queue a body, begin and end a generation interleave
    with the worker, there is never more than one worker, and so one post, at a
    time; and every post carried the newest body queued so far, one that had not
    been posted before, and was begun while no generation was running. *)
Theorem warm_queue_safe q :
  reachable q → length (live q) <= 1 ∧ posts_well (history q) ∧ llm_generations_active_ q = generating (history q).
Proof.
  intros H%reachable_warm. split_and!; [|apply H..]. rewrite (inv_one q H). destruct (llm_warm_worker_running_ q); lia.
Qed.

(** No wake-up is lost: while nothing is generated, the worker's own steps are
    bounded in number, and when there is none left, without any spurious wake-up,
    the body that was pending has been posted, nothing else has been, and the
    worker has returned. *)
Theorem warm_queue_delivers q actions q' :
  reachable q → llm_generations_active_ q = 0%Z → Forall (λ a, own_step a = true) actions → run actions q = Some q' →
  length actions <= weigh q ∧
  ((∀ a, own_step a = true → step a q' = None) →
   live q' = [] ∧ llm_warm_pending_ q' = [] ∧
   history q' = history q ++ match llm_warm_pending_ q with [] => [] | body => [Posted body] end).
Proof.
  intros Hr Ha Ho E. destruct (own_run actions q q' Ho Ha E) as [[Ha' Hc] Hw]. split; [lia|]. intros Hs.
  destruct (stuck_idle q') as [Hp Hl]; [by eapply reachable_warm, warm_run_reaches|congruence|done|]. split_and!; [done..|].
  destruct Hc as [[Hp' ->]|(Hn & _ & ->)].
  - rewrite <- Hp', Hp. by rewrite app_nil_r.
  - by destruct (llm_warm_pending_ q).
Qed.

(** * A concrete run *)

Module Warmed.

(** Two drafts are queued while a reply is generated; the worker falls asleep and
    the end of the generation wakes it. *)
Notation before := [Begin; Queue (str "wh"); Work 0; Queue (str "what"); Work 0; End_].
Notation own := [Notify; Work 0; Work 0; Work 0].
Notation after actions q := (default q (run actions q)).
Notation waiting := (after before idle_queue).
Notation finished := (after own waiting).

Example asleep_then_posted :
  warm_workers waiting = [Asleep] ∧ history finished = [Began; Queued (str "wh"); Queued (str "what"); Ended; Posted (str "what")] ∧
  warm_workers finished = [Returned].
Proof. by vm_compute. Qed.

Lemma waiting_reachable : reachable waiting.
Proof. apply (warm_run_reaches before idle_queue); [constructor|]. vm_compute. reflexivity. Qed.

Lemma warm_queue_safe_witness : length (live waiting) = 1 ∧ length (live waiting) <= 1 ∧ posts_well (history waiting) ∧
  llm_generations_active_ waiting = generating (history waiting).
Proof. split; [vm_compute; reflexivity|]. apply warm_queue_safe, waiting_reachable. Defined.

Lemma warm_queue_delivers_witness :
  length own <= weigh waiting ∧
  ((∀ a, own_step a = true → step a finished = None) →
   live finished = [] ∧ llm_warm_pending_ finished = [] ∧
   history finished = history waiting ++ [Posted (str "what")]).
Proof.
  apply (warm_queue_delivers waiting own finished waiting_reachable).
  - vm_compute. reflexivity.
  - repeat constructor.
  - vm_compute. reflexivity.
Defined.

End Warmed.
