(* ===== verification/Speculation.v ===== *)
(** Which speculation a request gets (app/server/runtime.cpp): the key of a
    conversation, and the slot of the current speculation with the threads that
    use it, as a state machine over the critical sections of
    [chat_speculation_mutex_] and the stream mutex. *)

From S2P Require Import Prelude.

(** * The key of a conversation *)

Definition ellipsis : bytes := [0xe2; 0x80; 0xa6]%Z.
Definition cjk_stop : bytes := [0xe3; 0x80; 0x82]%Z.
Definition wide_bang : bytes := [0xef; 0xbc; 0x81]%Z.
Definition wide_question : bytes := [0xef; 0xbc; 0x9f]%Z.
Definition wide_tilde : bytes := [0xef; 0xbd; 0x9e]%Z.

Definition tails : list bytes :=
  [[32]; [9]; [10]; [46]; [33]; [63]; [126]]%Z ++ [ellipsis; cjk_stop; wide_bang; wide_question; wide_tilde].

Definition has_suffix (tail text : bytes) : bool := is_prefix (rev tail) (rev text).

(** One pass of the loop: the first tail that fits goes. *)
Fixpoint strip_one (ts : list bytes) (text : bytes) : option bytes :=
  match ts with
  | [] => None
  | t :: ts => if has_suffix t text then Some (take (length text - length t) text) else strip_one ts text
  end.

Fixpoint strip_loop (fuel : nat) (text : bytes) : bytes :=
  match fuel with
  | O => text
  | S fuel => match strip_one tails text with Some text => strip_loop fuel text | None => text end
  end.

(** Every pass takes a byte away. *)
Definition strip_terminal_tail (text : bytes) : bytes := strip_loop (length text) text.

Record Message := { role : bytes; content : bytes }.

Definition key_of_message (last_user : bool) (m : Message) : bytes :=
  role m ++ [31]%Z ++ (if last_user then strip_terminal_tail (content m) else content m) ++ [30]%Z.

Definition speculation_key (messages : list Message) (last_user_index : nat) : bytes :=
  concat (imap (λ i m, key_of_message (i =? last_user_index) m) messages).

(** The index the handler passes: of the newest message of the user, or past the end. *)
Fixpoint last_user_from (i : nat) (messages : list Message) (found : nat) : nat :=
  match messages with
  | [] => found
  | m :: messages => last_user_from (S i) messages (if bool_decide (role m = str "user") then i else found)
  end.

Definition last_user_index (messages : list Message) : nat := last_user_from 0 messages (length messages).

(** * The slot *)

(** The worker of a speculation: waiting for the stream mutex; streaming; through
    with the stream, before it settles its buffer; settled; returned without
    streaming. *)
Inductive phase :=
| Queueing
| Streaming
| Streamed (ok : bool)
| Settled (ok : bool)
| Dropped.

Record speculation := { key : bytes; abort : bool; at_ : phase }.

#[export] Instance speculation_settable : Settable speculation := λ p, {| key := key p; abort := abort p; at_ := at_ p |}.

(** A request to speak: its key, and, when it has asked, what it was given. *)
Record request := { wanted : bytes; given : option (option nat) }.

Record slot := {
  specs : list speculation;                (* all that were ever started *)
  chat_speculation_ : option nat;
  llm_last_send_key_ : bytes;
  llm_last_send_at_ : Z;
  stream_owner : option nat;               (* of [llm_spec_stream_mutex_] *)
  requests : list request;
  now : Z;                                 (* milliseconds *)
}.

#[export] Instance slot_settable : Settable slot := λ s,
  {| specs := specs s; chat_speculation_ := chat_speculation_ s; llm_last_send_key_ := llm_last_send_key_ s;
     llm_last_send_at_ := llm_last_send_at_ s; stream_owner := stream_owner s; requests := requests s; now := now s |}.

(** The clock counts from the epoch of the default time point. *)
Definition empty_slot (t0 : Z) : slot :=
  {| specs := []; chat_speculation_ := None; llm_last_send_key_ := []; llm_last_send_at_ := 0; stream_owner := None;
     requests := []; now := t0 |}.

Definition abort_spec (i : nat) (s : slot) : slot := s <| specs := alter (λ p, p <| abort := true |>) i (specs s) |>.

Definition enter_phase (i : nat) (f : phase) (s : slot) : slot := s <| specs := alter (λ p, p <| at_ := f |>) i (specs s) |>.

Definition key_at (s : slot) (i : nat) : bytes := match specs s !! i with Some p => key p | None => [] end.
Definition aborted_at (s : slot) (i : nat) : bool := match specs s !! i with Some p => abort p | None => false end.
Definition failed_at (s : slot) (i : nat) : bool := match specs s !! i with Some {| at_ := Settled false |} => true | _ => false end.

(** [start_chat_speculation], up to the start of the worker. *)
Definition start_chat_speculation (k : bytes) (s : slot) : slot :=
  if bool_decide (k = llm_last_send_key_ s) && (now s - llm_last_send_at_ s <? 30000)%Z then s
  else
    let start s := s <| chat_speculation_ := Some (length (specs s)) |> <| specs := specs s ++ [{| key := k; abort := false; at_ := Queueing |}] |> in
    match chat_speculation_ s with
    | Some i => if bool_decide (key_at s i = k) then s else start (abort_spec i s)
    | None => start s
    end.

(** A prewarm for another draft ends the current speculation. *)
Definition prewarm (k : bytes) (s : slot) : slot :=
  match chat_speculation_ s with
  | Some i => if bool_decide (key_at s i = k) then s else abort_spec i s <| chat_speculation_ := None |>
  | None => s
  end.

Definition remember_send (k : bytes) (s : slot) : slot :=
  s <| llm_last_send_key_ := k |> <| llm_last_send_at_ := now s |>.

Definition take_matching_speculation (k : bytes) (s : slot) : option nat * slot :=
  match chat_speculation_ s with
  | None => (None, s)
  | Some i =>
      let s := s <| chat_speculation_ := None |> in
      if negb (bool_decide (key_at s i = k)) || aborted_at s i then (None, abort_spec i s)
      else if failed_at s i then (None, s)
      else (Some i, s)
  end.

(** * Steps *)

Inductive action :=
| Speculate (k : bytes)
| Prewarm (k : bytes)
| Send (k : bytes)
| Take (r : nat)
| Lock (i : nat)                           (* the worker gets the stream mutex *)
| EndStream (i : nat) (ok : bool)
| Settle (i : nat)
| Leave (r : nat)                          (* the turn that was given a speculation lets go of it *)
| Elapse (d : Z).

Definition step (a : action) (s : slot) : option slot :=
  match a with
  | Speculate k => Some (start_chat_speculation k s)
  | Prewarm k => Some (prewarm k s)
  | Send k => Some (remember_send k s <| requests := requests s ++ [{| wanted := k; given := None |}] |>)
  | Take r =>
      match requests s !! r with
      | Some {| wanted := k; given := None |} =>
          let '(g, s) := take_matching_speculation k s in
          Some (s <| requests := <[r := {| wanted := k; given := Some g |}]> (requests s) |>)
      | _ => None
      end
  | Lock i =>
      match specs s !! i, stream_owner s with
      | Some {| at_ := Queueing; abort := true |}, None => Some (enter_phase i Dropped s)
      | Some {| at_ := Queueing; abort := false |}, None => Some (enter_phase i Streaming s <| stream_owner := Some i |>)
      | _, _ => None
      end
  | EndStream i ok =>
      match specs s !! i with
      | Some {| at_ := Streaming |} => Some (enter_phase i (Streamed ok) s <| stream_owner := None |>)
      | _ => None
      end
  | Settle i =>
      match specs s !! i with
      | Some {| at_ := Streamed ok |} => Some (enter_phase i (Settled ok) s)
      | _ => None
      end
  | Leave r =>
      match requests s !! r with
      | Some {| given := Some (Some i) |} => Some (abort_spec i s)
      | _ => None
      end
  | Elapse d => if (0 <=? d)%Z then Some (s <| now := (now s + d)%Z |>) else None
  end.

Inductive reachable (t0 : Z) : slot → Prop :=
| reach_empty : reachable t0 (empty_slot t0)
| reach_step a s s' : reachable t0 s → step a s = Some s' → reachable t0 s'.

(** * The invariant of the slot *)

Definition given_to (s : slot) (i r : nat) : Prop := ∃ k, requests s !! r = Some {| wanted := k; given := Some (Some i) |}.

Record slot_inv (s : slot) : Prop := {
  inv_current i : chat_speculation_ s = Some i → ∃ p, specs s !! i = Some p ∧ abort p = false ∧ ∀ r, ¬ given_to s i r;
  inv_given i r k : requests s !! r = Some {| wanted := k; given := Some (Some i) |} → ∃ p, specs s !! i = Some p ∧ key p = k;
  inv_once i r r' : given_to s i r → given_to s i r' → r = r';
  inv_wanted i p : specs s !! i = Some p → abort p = false →
    chat_speculation_ s = Some i ∨ (∃ r, given_to s i r) ∨ at_ p = Settled false;
  inv_stream i p : specs s !! i = Some p → (at_ p = Streaming ↔ stream_owner s = Some i);
}.

Lemma lookup_altered {A} (f : A → A) i (l : list A) j : alter f i l !! j = (if bool_decide (i = j) then f else id) <$> l !! j.
Proof. rewrite list_lookup_alter. case_bool_decide; case_decide; try done; [by subst|by destruct (l !! j)]. Qed.

(** A step that leaves the slot and the requests alone and moves workers on, may
    abort some of them, and keeps their keys. *)
Lemma slot_inv_specs s s' :
  slot_inv s → chat_speculation_ s' = chat_speculation_ s → requests s' = requests s →
  (∀ i p', specs s' !! i = Some p' → ∃ p, specs s !! i = Some p ∧ key p' = key p ∧
     (abort p' = false → abort p = false ∧ (at_ p = Settled false → at_ p' = Settled false)) ∧
     (at_ p' = Streaming ↔ stream_owner s' = Some i)) →
  (∀ i p, specs s !! i = Some p → ∃ p', specs s' !! i = Some p' ∧ key p' = key p ∧
     (chat_speculation_ s = Some i → abort p' = abort p)) →
  slot_inv s'.
Proof.
  intros [H1 H2 H3 H4 H5] Ec Er Hb Hf.
  assert (∀ i r, given_to s' i r ↔ given_to s i r) as Hg by (intros i r; unfold given_to; by rewrite Er).
  split.
  - intros i Hi. rewrite Ec in Hi. destruct (H1 i Hi) as (p & Hp & Ha & Hr). destruct (Hf i p Hp) as (p' & Hp' & _ & Ha').
    exists p'. split_and!; [done|rewrite Ha'; done|]. intros r. by rewrite Hg.
  - intros i r k Hr. rewrite Er in Hr. destruct (H2 i r k Hr) as (p & Hp & Hk). destruct (Hf i p Hp) as (p' & Hp' & Hk' & _).
    exists p'. split; [done|congruence].
  - intros i r r'. rewrite !Hg. apply H3.
  - intros i p' Hp' Ha'. destruct (Hb i p' Hp') as (p & Hp & _ & Ha & _). destruct (Ha Ha') as [Hab Hset]. rewrite Ec.
    destruct (H4 i p Hp Hab) as [|[[r Hr]|]]; [by left|right; left; exists r; by rewrite Hg|right; right; by apply Hset].
  - intros i p' Hp'. by destruct (Hb i p' Hp') as (p & _ & _ & _ & H).
Qed.

(** Letting go of the current speculation, when it is aborted or has failed. *)
Lemma slot_inv_clear s i :
  slot_inv s → chat_speculation_ s = Some i → aborted_at s i = true ∨ failed_at s i = true → slot_inv (s <| chat_speculation_ := None |>).
Proof.
  intros [H1 H2 H3 H4 H5] Hi Hd. split; cbn; [done|exact H2|exact H3| |exact H5].
  intros j p Hp Ha. destruct (H4 j p Hp Ha) as [Hj|H]; [|by right]. rewrite Hi in Hj. injection Hj as <-. right. right.
  unfold aborted_at, failed_at in Hd. rewrite Hp in Hd. destruct Hd as [Hd|Hd]; [congruence|]. by destruct p as [? ? [| |[]|[]|]].
Qed.


Lemma slot_inv_abort s i : slot_inv s → chat_speculation_ s ≠ Some i → slot_inv (abort_spec i s).
Proof.
  intros H Hi. pose proof (inv_stream s H) as H5. apply (slot_inv_specs s); try done.
  - intros j p'. cbn. rewrite lookup_altered. destruct (specs s !! j) as [p|] eqn:Hp; [|done]. intros [= <-]. exists p.
    case_bool_decide; cbn; (split_and!; [done..| |]); try done; by apply H5.
  - intros j p Hp. cbn. rewrite lookup_altered, Hp. eexists. split; [done|]. case_bool_decide; [subst|done]. by split.
Qed.

Lemma slot_inv_replace s i : slot_inv s → chat_speculation_ s = Some i → slot_inv (abort_spec i s <| chat_speculation_ := None |>).
Proof.
  intros [H1 H2 H3 H4 H5] Hi. split; cbn; [done| |exact H3| |].
  - intros j r k Hr. destruct (H2 j r k Hr) as (p & Hp & Hk). rewrite lookup_altered, Hp. eexists. split; [done|]. by case_bool_decide.
  - intros j p'. rewrite lookup_altered. destruct (specs s !! j) as [p|] eqn:Hp; [|done]. intros [= <-] Ha.
    case_bool_decide as E; [done|]. destruct (H4 j p Hp Ha) as [Hj|H]; [congruence|by right].
  - intros j p'. rewrite lookup_altered. destruct (specs s !! j) as [p|] eqn:Hp; [|done]. intros [= <-].
    case_bool_decide; cbn; by apply H5.
Qed.

Lemma slot_inv_start s k :
  slot_inv s → chat_speculation_ s = None → (∀ i, stream_owner s = Some i → i < length (specs s)) →
  slot_inv (s <| chat_speculation_ := Some (length (specs s)) |> <| specs := specs s ++ [{| key := k; abort := false; at_ := Queueing |}] |>).
Proof.
  intros [H1 H2 H3 H4 H5] Hc Ho.
  assert (∀ i r, given_to s i r → i < length (specs s)) as Hlt.
  { intros i r (k' & Hr). destruct (H2 i r k' Hr) as (p & Hp & _). by eapply lookup_lt_Some. }
  split; cbn.
  - intros i [= <-]. eexists. split; [by apply list_lookup_middle|]. split; [done|]. intros r Hr. apply Hlt in Hr. lia.
  - intros i r k' Hr. destruct (H2 i r k' Hr) as (p & Hp & Hk). exists p. split; [by apply lookup_app_l_Some|done].
  - exact H3.
  - intros i p Hp Ha. apply lookup_snoc_Some in Hp as [[Hi Hp]|[Hi Ep]]; [|left; by subst].
    destruct (H4 i p Hp Ha) as [|H]; [congruence|by right].
  - intros i p Hp. apply lookup_snoc_Some in Hp as [[Hi Hp]|[Hi Ep]]; [by apply H5|subst i p].
    split; [done|]. intros E. apply Ho in E. lia.
Qed.

Definition owner_exists (s : slot) : Prop := ∀ i, stream_owner s = Some i → ∃ p, specs s !! i = Some p.

(** A request that has got no speculation. *)
Lemma slot_inv_requests s rs :
  slot_inv s → (∀ i r k, rs !! r = Some {| wanted := k; given := Some (Some i) |} ↔ requests s !! r = Some {| wanted := k; given := Some (Some i) |}) →
  slot_inv (s <| requests := rs |>).
Proof.
  intros [H1 H2 H3 H4 H5] Hg. assert (∀ i r, given_to (s <| requests := rs |>) i r ↔ given_to s i r) as Hg'.
  { intros i r. unfold given_to. cbn. by split; intros (k & H); exists k; apply Hg. }
  split; cbn; [| | | |exact H5].
  - intros i Hi. destruct (H1 i Hi) as (p & Hp & Ha & Hr). exists p. split_and!; [done..|]. intros r. by rewrite Hg'.
  - intros i r k Hr. apply Hg in Hr. by eapply H2.
  - intros i r r'. rewrite !Hg'. apply H3.
  - intros i p Hp Ha. destruct (H4 i p Hp Ha) as [|[[r Hr]|]]; [by left|right; left; exists r; by rewrite Hg'|right; by right].
Qed.

(** The current speculation is given to a request that has none. *)
Lemma slot_inv_give s i r k :
  slot_inv s → chat_speculation_ s = Some i → key_at s i = k → requests s !! r = Some {| wanted := k; given := None |} →
  slot_inv (s <| chat_speculation_ := None |> <| requests := <[r := {| wanted := k; given := Some (Some i) |}]> (requests s) |>).
Proof.
  intros [H1 H2 H3 H4 H5] Hi Hk Hr. destruct (H1 i Hi) as (p & Hp & Ha & Hn).
  set (s' := s <| chat_speculation_ := None |> <| requests := _ |>).
  assert (∀ j q, given_to s' j q ↔ (q = r ∧ j = i ∨ given_to s j q)) as Hg.
  { intros j q. unfold given_to, s'. cbn. split.
    - intros (k' & [(-> & [= <- <-] & _)|[_ H]]%list_lookup_insert_Some); [by left|right; by exists k'].
    - intros [[-> ->]|[k' H]]; [exists k; rewrite list_lookup_insert_eq; [done|by eapply lookup_lt_Some]|].
      exists k'. rewrite list_lookup_insert_ne; [done|]. intros <-. congruence. }
  split; cbn; [done| | | |exact H5].
  - intros j q k' Hq. assert (given_to s' j q) as [[-> ->]|Hq']%Hg by by exists k'.
    + exists p. split; [done|]. apply list_lookup_insert_Some in Hq as [(_ & [= <-] & _)|[Hq _]]; [|done].
      rewrite <- Hk. unfold key_at. by rewrite Hp.
    + destruct Hq' as [k2 Hq']. assert (k2 = k') as -> by (apply list_lookup_insert_Some in Hq as [(<- & _ & _)|[_ Hq]]; congruence).
      by eapply H2.
  - intros j q q'. rewrite !Hg. intros [[-> ->]|H] [[-> E]|H']; [done|by apply Hn in H'|subst; by apply Hn in H|by eapply H3].
  - intros j pj Hj Hja. right. destruct (H4 j pj Hj Hja) as [E|[[q Hq]|]]; [|left; exists q; apply Hg; by right|by right].
    rewrite Hi in E. injection E as <-. left. exists r. apply Hg. by left.
Qed.

Lemma owner_lt s : owner_exists s → ∀ i, stream_owner s = Some i → i < length (specs s).
Proof. intros H i Hi. destruct (H i Hi) as [p Hp]. by eapply lookup_lt_Some. Qed.

Lemma speculate_inv k s : slot_inv s → owner_exists s → slot_inv (start_chat_speculation k s).
Proof.
  intros H Ho. unfold start_chat_speculation. destruct (_ && _); [done|].
  destruct (chat_speculation_ s) as [i|] eqn:Hi; [|by apply slot_inv_start; [..|by apply owner_lt]].
  case_bool_decide; [done|].
  refine (slot_inv_start (abort_spec i s <| chat_speculation_ := None |>) k _ eq_refl _); [by apply slot_inv_replace|].
  cbn. intros j Hj. rewrite length_alter. by apply (owner_lt s).
Qed.

Lemma take_inv r k s :
  slot_inv s → requests s !! r = Some {| wanted := k; given := None |} →
  slot_inv ((take_matching_speculation k s).2 <| requests := <[r := {| wanted := k; given := Some (take_matching_speculation k s).1 |}]> (requests s) |>).
Proof.
  intros H Hr. assert (∀ s1, slot_inv s1 → requests s1 = requests s → slot_inv (s1 <| requests := <[r := {| wanted := k; given := Some None |}]> (requests s) |>)) as Hnone.
  { intros s1 H1 Er. apply slot_inv_requests; [done|]. intros i q k'. rewrite list_lookup_insert_Some, Er. split; [by intros [(_ & ? & _)|[_ ?]]|].
    intros Hq. right. split; [intros <-; congruence|done]. }
  unfold take_matching_speculation. destruct (chat_speculation_ s) as [i|] eqn:Hi; [|by apply Hnone].
  destruct (negb _ || _) eqn:Ek; [|destruct (failed_at _ i) eqn:Ef]; cbn [fst snd].
  - apply Hnone; [|done]. by apply (slot_inv_replace s i).
  - apply Hnone; [|done]. apply (slot_inv_clear s i); [done..|by right].
  - apply slot_inv_give; try done. apply orb_false_iff in Ek as [Ek _]. apply negb_false_iff, bool_decide_eq_true in Ek. exact Ek.
Qed.

(** A worker moves on; nobody else owns the stream mutex when it is taken. *)
Lemma worker_inv i f o s p :
  slot_inv s → specs s !! i = Some p → at_ p ≠ Settled false →
  (∀ j q, j ≠ i → specs s !! j = Some q → (at_ q = Streaming ↔ o = Some j)) → (f = Streaming ↔ o = Some i) →
  slot_inv (enter_phase i f s <| stream_owner := o |>).
Proof.
  intros H Hp Hs Ho Hf. apply (slot_inv_specs s); try done.
  - intros j p'. cbn. rewrite lookup_altered. destruct (specs s !! j) as [q|] eqn:Hq; [|done]. intros [= <-]. exists q.
    case_bool_decide as E; [subst j|]; cbn; (split_and!; [done..| |]); try done; [|by apply Ho].
    rewrite Hp in Hq. injection Hq as <-. done.
  - intros j q Hq. cbn. rewrite lookup_altered, Hq. eexists. split; [done|]. by case_bool_decide.
Qed.

Lemma slot_step_inv a s s' : step a s = Some s' → slot_inv s → owner_exists s → slot_inv s' ∧ owner_exists s'.
Proof.
  assert (∀ i s, owner_exists s → owner_exists (abort_spec i s)) as Hab.
  { intros i s1 Ho j Hj. destruct (Ho j Hj) as [p Hp]. cbn. rewrite lookup_altered, Hp. by eexists. }
  intros E H Ho. pose proof (inv_stream s H) as H5. destruct a as [k|k|k|r|i|i ok|i|r|d]; cbn [step] in E.
  - injection E as <-. split; [by apply speculate_inv|]. unfold start_chat_speculation. destruct (_ && _); [done|].
    assert (∀ s1 x, owner_exists s1 → owner_exists (s1 <| chat_speculation_ := Some (length (specs s1)) |> <| specs := specs s1 ++ [x] |>)) as Hst.
    { intros s1 x Ho1 j Hj. destruct (Ho1 j Hj) as [p Hp]. exists p. cbn. by apply lookup_app_l_Some. }
    destruct (chat_speculation_ s) as [i|]; [|by apply Hst]. case_bool_decide; [done|]. by apply Hst, Hab.
  - injection E as <-. unfold prewarm. destruct (chat_speculation_ s) as [i|] eqn:Hi; [|done]. case_bool_decide; [done|].
    split; [by apply slot_inv_replace|]. by apply Hab.
  - injection E as <-. split; [|done]. apply (slot_inv_requests (remember_send k s)).
    + destruct H as [H1 H2 H3 H4 _]. by split.
    + intros i r k'. cbn. rewrite lookup_snoc_Some. split; [|by intros Hr; left; split; [by eapply lookup_lt_Some|]].
      by intros [[_ ?]|[_ ?]].
  - destruct (requests s !! r) as [[k [g|]]|] eqn:Hr; [done| |done].
    destruct (take_matching_speculation k s) as [g s1] eqn:Et. injection E as <-.
    assert (requests s1 = requests s) as Er.
    { unfold take_matching_speculation in Et. by repeat case_match; simplify_eq. }
    pose proof (take_inv r k s H Hr) as Hi. rewrite Et in Hi. cbn [fst snd] in Hi. rewrite Er. split; [done|].
    unfold take_matching_speculation in Et. assert (owner_exists s1) as Ho1; [|done].
    destruct (chat_speculation_ s) as [i|]; [|by injection Et as _ <-].
    destruct (negb _ || _); [|destruct (failed_at _ i)]; injection Et as _ <-; [by apply (Hab i (s <| chat_speculation_ := None |>))|done..].
  - destruct (specs s !! i) as [[k ab ph]|] eqn:Hp; [|done]. destruct ph; [|by destruct ab..].
    destruct (stream_owner s) eqn:Eo; [by destruct ab|].
    destruct ab; injection E as <-.
    + assert (enter_phase i Dropped s = enter_phase i Dropped s <| stream_owner := None |>) as -> by (unfold enter_phase; rewrite <- Eo; by destruct s).
      split; [|done]. eapply worker_inv; [done|done|done| |done]. intros j q _ Hq. by apply H5.
    + split.
      * eapply worker_inv; [done|done|done| |by split]. intros j q Hj Hq. rewrite (H5 j q Hq). split; [done|congruence].
      * intros j [= <-]. cbn. rewrite lookup_altered, Hp. by eexists.
  - destruct (specs s !! i) as [[k ab ph]|] eqn:Hp; [|done]. destruct ph; try done. injection E as <-. split; [|done].
    assert (stream_owner s = Some i) as Eo by by eapply H5.
    eapply worker_inv; [done|done|done| |done]. intros j q Hj Hq. rewrite (H5 j q Hq), Eo. split; [congruence|done].
  - destruct (specs s !! i) as [[k ab ph]|] eqn:Hp; [|done]. destruct ph; try done. injection E as <-.
    assert (stream_owner s ≠ Some i) as Eo by by intros Eo%(H5 i _ Hp).
    assert (enter_phase i (Settled ok) s = enter_phase i (Settled ok) s <| stream_owner := stream_owner s |>) as -> by (by destruct s).
    split.
    + eapply worker_inv; [done|done|done| |done]. intros j q _ Hq. by apply H5.
    + intros j Hj. cbn in Hj. destruct (Ho j Hj) as [p Hpj]. cbn. rewrite lookup_altered, Hpj. by eexists.
  - destruct (requests s !! r) as [[k [[i|]|]]|] eqn:Hr; try done. injection E as <-. split; [|by apply Hab].
    apply slot_inv_abort; [done|]. intros Hi. destruct (inv_current s H i Hi) as (p & _ & _ & Hn). apply (Hn r). by exists k.
  - destruct (0 <=? d)%Z; [|done]. injection E as <-. split; [|done]. destruct H as [H1 H2 H3 H4 _]. by split.
Qed.

Lemma reachable_slot t0 s : reachable t0 s → slot_inv s ∧ owner_exists s.
Proof.
  induction 1 as [|a s s' _ [IH1 IH2] E]; [|by eapply slot_step_inv].
  split; [split; cbn|]; try done. intros i r r' [k Hk]. done.
Qed.

(** * The key *)

Lemma has_suffix_spec t text : has_suffix t text = true → ∃ body, text = body ++ t.
Proof.
  unfold has_suffix. intros [r H]%is_prefix_spec. exists (rev r). by rewrite <- (rev_involutive text), H, rev_app_distr, rev_involutive.
Qed.

Lemma strip_one_spec ts text text' : strip_one ts text = Some text' → ∃ t, t ∈ ts ∧ text = text' ++ t.
Proof.
  induction ts as [|t ts IH]; cbn [strip_one]; [done|]. destruct (has_suffix t text) eqn:E.
  - intros [= <-]. apply has_suffix_spec in E as [body ->]. exists t. split; [by left|].
    by rewrite length_app, Nat.add_sub, take_app_length.
  - intros (t' & Hin & Ht)%IH. exists t'. split; [by right|done].
Qed.

Lemma tails_nonempty : Forall (λ t : bytes, t ≠ []) tails.
Proof. repeat constructor; done. Qed.

(** What is stripped is made of tails, and none is left. *)
Lemma strip_terminal_spec text :
  (∃ ts, Forall (λ t, t ∈ tails) ts ∧ text = strip_terminal_tail text ++ concat ts) ∧ strip_one tails (strip_terminal_tail text) = None.
Proof.
  unfold strip_terminal_tail. assert (length text <= length text) as H by done. revert H. generalize (length text) at 2 3 4 as fuel.
  intros fuel. revert text. induction fuel as [|fuel IH]; intros text H; cbn [strip_loop].
  { apply Nat.le_0_r, nil_length_inv in H as ->. split; [|done]. by exists []. }
  destruct (strip_one tails text) as [text'|] eqn:E; [|split; [by exists []; rewrite app_nil_r|done]].
  destruct (strip_one_spec tails text text' E) as (t & Hin & ->).
  assert (t ≠ []) as Ht by exact (proj1 (Forall_forall _ _) tails_nonempty t Hin).
  destruct (IH text') as ((ts & Hts & Et) & Hn).
  { rewrite length_app in H. destruct t; [done|]. cbn in H. lia. }
  split; [|done]. exists (ts ++ [t]). split; [by apply Forall_app_2; [|apply Forall_singleton]|].
  rewrite concat_app. cbn. by rewrite app_nil_r, app_assoc, <- Et.
Qed.

Definition unseparated (m : Message) : Prop := 31%Z ∉ role m ∧ 30%Z ∉ content m.

Lemma split_at_first (x : Z) a b r s : x ∉ a → x ∉ b → a ++ x :: r = b ++ x :: s → a = b ∧ r = s.
Proof.
  revert b. induction a as [|c a IH]; intros [|d b] Ha Hb E; cbn in E.
  - by injection E.
  - injection E as -> _. exfalso. apply Hb. by left.
  - injection E as -> _. exfalso. apply Ha. by left.
  - injection E as -> E. apply not_elem_of_cons in Ha as [_ Ha], Hb as [_ Hb]. by destruct (IH b Ha Hb E) as [-> ->].
Qed.

Definition keyed (last_user : bool) (m : Message) : bytes := if last_user then strip_terminal_tail (content m) else content m.

Lemma keyed_unseparated l m : unseparated m → 30%Z ∉ keyed l m.
Proof.
  intros [_ H]. destruct l; [|done]. cbn. destruct (strip_terminal_spec (content m)) as ((ts & _ & E) & _).
  rewrite E in H. intros Hin. apply H, elem_of_app. by left.
Qed.

Lemma keys_equal (f g : nat → bool) ms ns :
  Forall unseparated ms → Forall unseparated ns →
  concat (imap (λ i, key_of_message (f i)) ms) = concat (imap (λ i, key_of_message (g i)) ns) ↔
  map role ms = map role ns ∧ ∀ i m n, ms !! i = Some m → ns !! i = Some n → keyed (f i) m = keyed (g i) n.
Proof.
  intros Hms. revert f g ns. induction Hms as [|m ms Hm Hms IH]; intros f g ns Hns.
  { destruct ns as [|n ns]; [split; [by split|done]|]. split; [|by intros [? _]].
    rewrite imap_cons. cbn. unfold key_of_message. by destruct (role n). }
  destruct ns as [|n ns].
  { split; [|by intros [? _]]. rewrite imap_cons. cbn. unfold key_of_message. by destruct (role m). }
  apply Forall_cons in Hns as [Hn Hns]. rewrite !imap_cons. cbn [concat map]. unfold key_of_message at 1 3.
  fold (keyed (f 0) m) (keyed (g 0) n). rewrite <- !app_assoc. cbn [app].
  specialize (IH (f ∘ S) (g ∘ S) ns Hns). split.
  - intros E. apply split_at_first in E as [Er E]; [|apply Hm|apply Hn].
    apply split_at_first in E as [Ec E]; [|by apply keyed_unseparated..].
    destruct (proj1 IH E) as [E1 E2]. split; [by rewrite Er, E1|].
    intros [|i] m' n' Hm' Hn'; cbn in Hm', Hn'; [by simplify_eq|by apply (E2 i)].
  - intros [Er Ec]. injection Er as Er Ers. rewrite Er. f_equal. f_equal. rewrite (Ec 0 m n eq_refl eq_refl). f_equal. f_equal.
    apply IH. split; [done|]. intros i m' n' Hm' Hn'. by apply (Ec (S i)).
Qed.

Lemma last_user_roles ms ns : map role ms = map role ns → last_user_index ms = last_user_index ns.
Proof.
  intros E. unfold last_user_index. assert (length ms = length ns) as <- by (by rewrite <- (length_map role ms), E, length_map).
  generalize (length ms) as found. generalize 0 as i. revert ns E.
  induction ms as [|m ms IH]; intros [|n ns] E i found; try done. injection E as Er E. cbn. rewrite Er. by apply IH.
Qed.

(** * Properties *)

(** However requests to speculate, to warm and to speak, the workers and the
    turns interleave: at most one reply is generated ahead at a time; a generation
    that is not told to stop is the current speculation, or feeds exactly one
    request, or has failed; what a request was given has its key, and was given to
    no other. *)
Theorem speculation_slot_safe t0 s :
  reachable t0 s →
  (∀ i j p q, specs s !! i = Some p → specs s !! j = Some q → at_ p = Streaming → at_ q = Streaming → i = j) ∧
  (∀ i p, specs s !! i = Some p → abort p = false →
     chat_speculation_ s = Some i ∧ (∀ r, ¬ given_to s i r) ∨ (∃ r, given_to s i r ∧ ∀ r', given_to s i r' → r' = r) ∨ at_ p = Settled false) ∧
  (∀ i r k, requests s !! r = Some {| wanted := k; given := Some (Some i) |} → ∃ p, specs s !! i = Some p ∧ key p = k).
Proof.
  intros [[H1 H2 H3 H4 H5] _]%reachable_slot. split_and!; [| |done].
  - intros i j p q Hi Hj Hp%(H5 i p Hi) Hq%(H5 j q Hj). congruence.
  - intros i p Hi Ha. destruct (H4 i p Hi Ha) as [Hc|[[r Hr]|]]; [left|right; left|right; by right].
    + split; [done|]. by destruct (H1 i Hc) as (_ & _ & _ & ?).
    + exists r. split; [done|]. intros r' Hr'. by eapply H3.
Qed.

(** A request attaches exactly when it can: it is given the current speculation
    if that has its key and has not failed, and nothing else ever; in both cases the
    slot is empty afterwards, and a speculation of another key is told to stop. *)
Theorem take_matching t0 s k :
  reachable t0 s →
  let '(g, s') := take_matching_speculation k s in
  chat_speculation_ s' = None ∧
  (∀ i, g = Some i ↔ chat_speculation_ s = Some i ∧ key_at s i = k ∧ failed_at s i = false) ∧
  (∀ i, chat_speculation_ s = Some i → key_at s i ≠ k → aborted_at s' i = true).
Proof.
  intros [[H1 _ _ _ _] _]%reachable_slot. unfold take_matching_speculation.
  destruct (chat_speculation_ s) as [i|] eqn:Hi; [|split_and!; [done|intros i; split; [done|by intros [? _]]|done]].
  destruct (H1 i eq_refl) as (p & Hp & Ha & _).
  assert (aborted_at (s <| chat_speculation_ := None |>) i = false) as Hab by (unfold aborted_at; cbn; by rewrite Hp).
  rewrite Hab, orb_false_r. change (key_at (s <| chat_speculation_ := None |>) i) with (key_at s i).
  change (failed_at (s <| chat_speculation_ := None |>) i) with (failed_at s i).
  case_bool_decide as Hk; cbn [negb]; [destruct (failed_at s i) eqn:Hf|].
  - split_and!; [done| |by intros j [= <-] []]. intros j. split; [done|]. intros ([= <-] & _ & Hf'). congruence.
  - split_and!; [done| |by intros j [= <-] []]. intros j. split; [intros [= <-]; done|]. by intros ([= <-] & _ & _).
  - split_and!; [done| |].
    + intros j. split; [done|]. by intros ([= <-] & Hk' & _).
    + intros j [= <-] _. unfold aborted_at. cbn. by rewrite lookup_altered, Hp, bool_decide_eq_true_2.
Qed.

(** A speculation attaches to the very conversation it was made for: two
    conversations whose texts do not hold the separator bytes have the same key
    exactly when they have the same roles and the same texts, but for white space
    and final punctuation at the end of the newest message of the user. *)
Theorem speculation_key_spec ms ns :
  Forall unseparated ms → Forall unseparated ns →
  speculation_key ms (last_user_index ms) = speculation_key ns (last_user_index ns) ↔
  map role ms = map role ns ∧
  ∀ i m n, ms !! i = Some m → ns !! i = Some n →
    if i =? last_user_index ms then strip_terminal_tail (content m) = strip_terminal_tail (content n) else content m = content n.
Proof.
  intros Hm Hn. unfold speculation_key. rewrite (keys_equal (λ i, i =? last_user_index ms) (λ i, i =? last_user_index ns) ms ns Hm Hn).
  split; intros [E H]; (split; [done|]); intros i m n Hi Hj; specialize (H i m n Hi Hj); rewrite (last_user_roles ms ns E) in *;
    unfold keyed in *; by destruct (i =? last_user_index ns).
Qed.

(** * Concrete drafts *)

Module Drafts.

Notation user text := {| role := str "user"; content := text |}.

Example question_mark_ignored :
  strip_terminal_tail (str "what should i cook tonight?! " ++ ellipsis) = str "what should i cook tonight".
Proof. vm_compute. reflexivity. Qed.

(** With the separator bytes in a text two conversations can have one key. *)
Example separators_collide :
  let one := [user (str "a" ++ [30]%Z ++ str "user" ++ [31]%Z ++ str "b")] in
  let two := [user (str "a"); user (str "b")] in
  speculation_key one (last_user_index one) = speculation_key two (last_user_index two).
Proof. vm_compute. reflexivity. Qed.

Lemma speculation_key_witness :
  let ms := [user (str "hi"); {| role := str "assistant"; content := str "hey." |}; user (str "tonight")] in
  let ns := [user (str "hi"); {| role := str "assistant"; content := str "hey." |}; user (str "tonight?")] in
  speculation_key ms (last_user_index ms) = speculation_key ns (last_user_index ns).
Proof.
  apply speculation_key_spec.
  - repeat constructor; cbn; intros H; repeat (apply elem_of_cons in H as [H|H]; [done|]); by apply not_elem_of_nil in H.
  - repeat constructor; cbn; intros H; repeat (apply elem_of_cons in H as [H|H]; [done|]); by apply not_elem_of_nil in H.
  - split; [done|]. intros [|[|[|i]]] m n Hm Hn; try done; injection Hm as <-; injection Hn as <-; vm_compute; reflexivity.
Defined.

(** A draft is taken up while its reply is generated; a later one is told to stop. *)
Notation ask := (str "k").
Notation steps := [Speculate ask; Lock 0; Send ask; Speculate ask; Take 0; Speculate (str "other"); Speculate (str "third")].
Notation after actions s0 := (foldl (λ s a, default s (step a s)) s0 actions).
Notation taken := (after steps (empty_slot 100000)).

Example one_attached : requests taken = [{| wanted := ask; given := Some (Some 0) |}] ∧
  chat_speculation_ taken = Some 2 ∧ map abort (specs taken) = [false; true; false].
Proof. by vm_compute. Qed.

Lemma slot_reachable actions s :
  reachable 100000 s → reachable 100000 (after actions s).
Proof.
  revert s. induction actions as [|a actions IH]; intros s H; [done|]. cbn. apply IH.
  destruct (step a s) as [s'|] eqn:E; [by eapply reach_step|done].
Qed.

Lemma speculation_slot_witness :
  (∀ i j p q, specs taken !! i = Some p → specs taken !! j = Some q → at_ p = Streaming → at_ q = Streaming → i = j) ∧
  given_to taken 0 0.
Proof.
  split; [|by exists ask].
  apply (speculation_slot_safe 100000 taken), slot_reachable. constructor.
Defined.

Lemma take_matching_witness :
  let '(g, s') := take_matching_speculation (str "third") taken in chat_speculation_ s' = None ∧ g = Some 2.
Proof.
  pose proof (take_matching 100000 taken (str "third") (slot_reachable steps _ (reach_empty _))) as H.
  destruct (take_matching_speculation (str "third") taken) as [g s']. destruct H as (H1 & H2 & _).
  split; [exact H1|]. apply H2. by vm_compute.
Defined.

End Drafts.
