(* ===== verification/FileTree.v ===== *)
(** The file system as the server's stores use it (std::filesystem, ifstream and
    ofstream): a tree of directories and files under paths that are compared
    element by element. A write or a copy fails where the tree does not allow
    it; the hardware does not fail. *)

From S2P Require Import Prelude.
From stdpp Require Import gmap.

(** The elements of a path, ["/"] first when it is absolute. *)
Notation path := (list bytes).

Definition elements_of (s : bytes) : path := List.filter (λ e, negb (bool_decide (e = []))) (split_on (ch "/") s).

(** [path(s)] and [p / s]. *)
Definition path_of (s : bytes) : path :=
  match s with c :: _ => if c =b ch "/" then str "/" :: elements_of s else elements_of s | [] => [] end.

Definition path_join (p : path) (s : bytes) : path :=
  match s with c :: _ => if c =b ch "/" then path_of s else p ++ elements_of s | [] => p end.

(** [p.string()]. *)
Fixpoint relative_string (p : path) : bytes :=
  match p with [] => [] | [e] => e | e :: p => e ++ str "/" ++ relative_string p end.

Definition path_string (p : path) : bytes :=
  match p with e :: rest => if bool_decide (e = str "/") then str "/" ++ relative_string rest else relative_string p | [] => [] end.

(** One file name, which is one element of a path. *)
Definition file_name (s : bytes) : Prop := s ≠ [] ∧ Forall (λ c, c ≠ ch "/") s.

(** * The tree *)

Record tree := { files : gmap path bytes; dirs : gset path }.

#[export] Instance tree_settable : Settable tree := fun r => {| files := files r; dirs := dirs r |}.

Definition is_file (t : tree) (p : path) : bool := bool_decide (is_Some (files t !! p)).
Definition is_directory (t : tree) (p : path) : bool := bool_decide (p ∈ dirs t).
Definition exists_ (t : tree) (p : path) : bool := is_file t p || is_directory t p.

(** [ifstream in(p)] and [in.rdbuf()]: a directory opens, and reads as nothing. *)
Definition read_file (t : tree) (p : path) : option bytes :=
  match files t !! p with
  | Some contents => Some contents
  | None => if is_directory t p then Some [] else None
  end.

Definition parent (p : path) : path := take (pred (length p)) p.

(** [ofstream out(p, trunc)] and the contents; [None] when it does not open. *)
Definition write_file (t : tree) (p : path) (contents : bytes) : option tree :=
  if is_directory t p || negb (is_directory t (parent p)) then None
  else Some (t <| files := <[p := contents]> (files t) |>).

(** The path and the directories above it. *)
Definition prefixes (p : path) : list path := map (λ n, take n p) (seq 0 (S (length p))).

Definition create_directories (t : tree) (p : path) : option tree :=
  if existsb (is_file t) (prefixes p) then None
  else Some (t <| dirs := list_to_set (prefixes p) ∪ dirs t |>).

(** [copy_file] with [overwrite_existing]. *)
Definition copy_file (t : tree) (from to : path) : option tree :=
  match files t !! from with
  | None => None
  | Some contents => if bool_decide (from = to) then None else write_file t to contents
  end.

Definition below (p q : path) : bool := bool_decide (take (length p) q = p).

Definition remove_all (t : tree) (p : path) : tree :=
  {| files := filter (λ f, below p f.1 = false) (files t); dirs := filter (λ q, below p q = false) (dirs t) |}.

(** * Facts *)

(** Nothing is both a file and a directory, and what exists lies in directories. *)
Record tree_ok (t : tree) : Prop := {
  ok_kinds p : p ∈ dirs t → files t !! p = None;
  ok_files p : is_Some (files t !! p) → p ≠ [] ∧ parent p ∈ dirs t;
  ok_dirs p : p ∈ dirs t → p ≠ [] → parent p ∈ dirs t;
}.

Lemma elements_of_name s : file_name s → elements_of s = [s].
Proof.
  intros [Hne Hs]. unfold elements_of.
  assert (split_on (ch "/") s = [s]) as ->.
  { clear Hne. induction Hs as [|c s Hc _ IH]; [done|]. cbn [split_on]. rewrite IH. by rewrite (proj2 (Z.eqb_neq _ _)). }
  cbn. by rewrite bool_decide_eq_false_2.
Qed.

Lemma join_name p s : file_name s → path_join p s = p ++ [s].
Proof.
  intros Hs. pose proof (elements_of_name s Hs) as He. destruct Hs as [Hne Hs]. unfold path_join.
  destruct s as [|c s]; [done|]. apply Forall_cons in Hs as [Hc _].
  by rewrite (proj2 (Z.eqb_neq _ _)), He.
Qed.

Lemma parent_snoc p s : parent (p ++ [s]) = p.
Proof. unfold parent. rewrite length_app. cbn [length]. rewrite Nat.add_1_r. cbn [pred]. by rewrite take_app_length. Qed.

Lemma elem_of_prefixes p q : q ∈ prefixes p ↔ ∃ n, n ≤ length p ∧ q = take n p.
Proof.
  unfold prefixes. rewrite list_elem_of_fmap. split.
  - intros (n & -> & Hn%elem_of_seq). exists n. split; [lia|done].
  - intros (n & Hn & ->). exists n. split; [done|]. apply elem_of_seq. lia.
Qed.

Lemma parent_take n (p : path) : n ≤ length p → parent (take n p) = take (pred n) p.
Proof. intros Hn. unfold parent. rewrite length_take_le, take_take by done. f_equal. lia. Qed.

(** ** What the operations do to the files *)

Lemma write_file_Some t p contents t' :
  write_file t p contents = Some t' →
  t' = {| files := <[p := contents]> (files t); dirs := dirs t |} ∧ p ∉ dirs t ∧ parent p ∈ dirs t.
Proof.
  unfold write_file, is_directory. destruct (_ || _) eqn:E; [done|]. intros [= <-].
  apply orb_false_iff in E as [E1%bool_decide_eq_false E2%negb_false_iff%bool_decide_eq_true]. done.
Qed.

Lemma write_file_lookup t p contents t' :
  write_file t p contents = Some t' →
  ∀ q, files t' !! q = if decide (q = p) then Some contents else files t !! q.
Proof.
  intros (-> & _ & _)%write_file_Some q. cbn [files]. rewrite lookup_insert. by destruct (decide _), (decide _); subst.
Qed.

Lemma write_file_dirs t p contents t' : write_file t p contents = Some t' → dirs t' = dirs t.
Proof. by intros (-> & _)%write_file_Some. Qed.

Lemma create_directories_Some t p t' :
  create_directories t p = Some t' →
  t' = {| files := files t; dirs := list_to_set (prefixes p) ∪ dirs t |} ∧ Forall (λ q, files t !! q = None) (prefixes p).
Proof.
  unfold create_directories. destruct (existsb _ _) eqn:E; [done|]. intros [= <-]. split; [done|].
  apply List.Forall_forall. intros q Hq. destruct (files t !! q) eqn:Hf; [|done].
  assert (existsb (is_file t) (prefixes p) = true); [|congruence].
  apply existsb_exists. exists q. split; [done|]. unfold is_file. by rewrite Hf.
Qed.
