(* ===== verification/FlatJson.v ===== *)
(** The texts the stores of characters and settings write: JSON objects of
    strings, numbers and flags. What their theorems ask of the JSON parser is the
    class [ReadsFlatObjects]; a small reader is an instance of it. *)

From S2P Require Import Prelude.
From S2P Require Json VoiceText.

(** * Texts *)

Section texts.
Context {Double : Type} (show_double : Double → bytes).

Inductive scalar : Type :=
| Text (s : bytes)
| Integer (z : Z)
| Decimal (x : Double)
| Flag (b : bool).

Definition member_text (m : bytes * scalar) : bytes :=
  [34%Z] ++ m.1 ++ str (String.String (Ascii.ascii_of_nat 34) ":") ++
  match m.2 with
  | Text s => [34%Z] ++ VoiceText.json_escape s ++ [34%Z]
  | Integer z => to_string z
  | Decimal x => show_double x
  | Flag b => if b then str "true" else str "false"
  end.

(** A first member and the members behind it. *)
Definition object_text (m : bytes * scalar) (rest : list (bytes * scalar)) : bytes :=
  str "{" ++ member_text m ++ concat (map (λ m, str "," ++ member_text m) rest) ++ str "}".

(** * What is asked of the parser *)

(** A whole number as a double, which whole numbers a double holds exactly, and
    the double a printed one is read as. *)
Context (of_Z : Z → Double) (whole : Z → Prop) (reread : Double → Double) (finite : Double → Prop).

Definition node_of (v : scalar) : Json.cJSON Double :=
  match v with
  | Text s => Json.cString (Some s)
  | Integer z => Json.cNumber (of_Z z)
  | Decimal x => Json.cNumber (reread x)
  | Flag b => Json.cBool b
  end.

Definition value_of (v : scalar) : Json.Value Double :=
  match v with
  | Text s => Json.String s
  | Integer z => Json.Number (of_Z z)
  | Decimal x => Json.Number (reread x)
  | Flag b => Json.Bool b
  end.

Definition key_ok (key : bytes) : Prop := Forall (λ c, is_lower c || (c =b ch "_") = true) key.

(** A text that is kept exactly: C's strings end at a NUL. *)
Definition storable_text (s : bytes) : Prop := wf_bytes s ∧ Json.no_nul s.

Definition scalar_ok (v : scalar) : Prop :=
  match v with
  | Text s => storable_text s
  | Integer z => (0 <= z)%Z ∧ whole z
  | Decimal x => finite x
  | Flag _ => True
  end.

Definition member_ok (m : bytes * scalar) : Prop := key_ok m.1 ∧ scalar_ok m.2.

Definition tree_of (members : list (bytes * scalar)) : Json.cJSON Double :=
  Json.cObject (map (λ m, (Some m.1, node_of m.2)) members).

Class ReadsFlatObjects (cjson_parse : bytes → Json.cJSON Double * nat + Z) : Prop :=
  parse_flat m rest :
    Forall member_ok (m :: rest) →
    cjson_parse (object_text m rest) = inl (tree_of (m :: rest), length (object_text m rest)).

(** The strings a parser returns are C strings of bytes. *)
Class ReadsCStrings (cjson_parse : bytes → Json.cJSON Double * nat + Z) : Prop :=
  parse_text text fields key s :
    Json.parse cjson_parse text = Ok (Json.Object fields) →
    Json.find_field fields key = Some (Json.String s) → storable_text s.

Lemma convert_flat members :
  NoDup (members.*1) →
  Json.convert_cjson (tree_of members) = Ok (Json.Object (map (λ m, (m.1, value_of m.2)) members)).
Proof.
  intros Hnd. unfold tree_of. cbn [Json.convert_cjson].
  match goal with |- context [?f (map _ members) []] => set (loop := f) end.
  enough (∀ out, NoDup (out.*1 ++ members.*1) →
            loop (map (λ m, (Some m.1, node_of m.2)) members) out =
            Ok (out ++ map (λ m, (m.1, value_of m.2)) members)) as H.
  { by rewrite (H [] Hnd). }
  clear Hnd. induction members as [|[k v] members IH]; intros out Hnd; cbn [map]; [by rewrite app_nil_r|].
  cbn [loop]. fold loop. unfold Json.add_field. cbn [fst snd].
  assert (Json.find_field out k = None) as ->.
  { apply Json.find_field_None. apply NoDup_app in Hnd as (_ & Hd & _). intros Hin. eapply Hd; [exact Hin|]. by left. }
  assert (Json.convert_cjson (node_of v) = Ok (value_of v)) as -> by by destruct v.
  cbn [mbind outcome_bind]. rewrite IH; [by rewrite <- app_assoc|].
  by rewrite fmap_app, <- app_assoc.
Qed.

Lemma parse_object cjson_parse `{!ReadsFlatObjects cjson_parse} m rest :
  Forall member_ok (m :: rest) → NoDup ((m :: rest).*1) →
  Json.parse cjson_parse (object_text m rest) = Ok (Json.Object (map (λ m, (m.1, value_of m.2)) (m :: rest))).
Proof.
  intros Hok Hnd. unfold Json.parse. rewrite parse_flat by done. rewrite drop_all. cbn [forallb].
  by apply convert_flat.
Qed.

End texts.
Arguments scalar : clear implicits.

Lemma storable_app s t : storable_text (s ++ t) ↔ storable_text s ∧ storable_text t.
Proof. unfold storable_text, wf_bytes, Json.no_nul. rewrite !Forall_app. naive_solver. Qed.

Lemma storable_nil : storable_text [].
Proof. split; apply Forall_nil_2. Qed.

Lemma storable_trim s : storable_text s → storable_text (trim s).
Proof. destruct (trim_split s) as (a & b & E & _ & _). rewrite E at 1. rewrite !storable_app. naive_solver. Qed.

(** * A reader *)

Module Reader.

Definition text_char (c : Z) : bool := (1 <=? c)%Z && (c <? 256)%Z.

Definition read_value (s : bytes) : option (Json.cJSON Z * bytes) :=
  match s with
  | [] => None
  | c :: rest =>
      if c =b 34 then
        match VoiceText.scan_string rest with
        | Some (text, rest) => if forallb text_char text then Some (Json.cString (Some text), rest) else None
        | None => None
        end
      else if is_prefix (str "true") s then Some (Json.cBool true, drop 4 s)
      else if is_prefix (str "false") s then Some (Json.cBool false, drop 5 s)
      else match leading_digits s with
           | [] => None
           | ds => Some (Json.cNumber (be_value 10 (map (λ c, c - 48) ds))%Z, drop (length ds) s)
           end
  end.

Definition read_member (s : bytes) : option (option bytes * Json.cJSON Z * bytes) :=
  match s with
  | c :: s =>
      if negb (c =b 34) then None
      else match VoiceText.scan_string s with
           | Some (key, c :: s) => if c =b ch ":" then (λ r, (Some key, r.1, r.2)) <$> read_value s else None
           | _ => None
           end
  | [] => None
  end.

Fixpoint read_members (fuel : nat) (s : bytes) : option (list (option bytes * Json.cJSON Z) * bytes) :=
  match fuel with
  | O => None
  | S fuel =>
      match read_member s with
      | Some (m, c :: s) =>
          if c =b ch "," then (λ r, (m :: r.1, r.2)) <$> read_members fuel s
          else if c =b ch "}" then Some ([m], s) else None
      | _ => None
      end
  end.

Definition read_object (s : bytes) : Json.cJSON Z * nat + Z :=
  match s with
  | c :: rest =>
      if c =b ch "{" then
        match read_members (length s) rest with
        | Some (members, rest) => inl (Json.cObject members, length s - length rest)
        | None => inr 0%Z
        end
      else inr 0%Z
  | [] => inr 0%Z
  end.

#[local] Notation of_Z := (λ z : Z, z).
#[local] Notation finite := (λ z : Z, (0 <= z)%Z).
#[local] Notation node := (node_of of_Z of_Z).
#[local] Notation text := (member_text to_string).
#[local] Notation whole := (λ z : Z, True).
#[local] Notation ok := (member_ok whole finite).

Lemma leading_digits_app ds c rest :
  Forall (λ d, 0 <= d < 10)%Z ds → is_digit c = false →
  leading_digits (map (λ d, 48 + d)%Z ds ++ c :: rest) = map (λ d, 48 + d)%Z ds.
Proof.
  intros Hds Hc. induction Hds as [|d ds Hd _ IH]; cbn [map app leading_digits]; [by rewrite Hc|].
  rewrite IH. assert (is_digit (48 + d) = true) as -> by (unfold is_digit; lia). done.
Qed.

Lemma undigits ds : map (λ c, c - 48)%Z (map (λ d, 48 + d)%Z ds) = ds.
Proof. rewrite map_map. rewrite <- (map_id ds) at 2. apply map_ext. lia. Qed.

Lemma read_number z c rest :
  (0 <= z)%Z → is_digit c = false → read_value (to_string z ++ c :: rest) = Some (Json.cNumber z, c :: rest).
Proof.
  intros Hz Hc. destruct (to_string_spec z Hz) as (ds & -> & Hne & Hds & Hv).
  pose proof (leading_digits_app ds c rest Hds Hc) as Hl. destruct ds as [|d ds]; [done|].
  cbn [map app] in *. apply Forall_cons in Hds as [Hd Hds].
  unfold read_value. rewrite (proj2 (Z.eqb_neq _ _)) by lia.
  assert (∀ w a, 57 < a → is_prefix (a :: w) ((48 + d)%Z :: map (λ d, 48 + d)%Z ds ++ c :: rest) = false)%Z as Hp.
  { intros w a Ha. cbn [is_prefix]. by rewrite (proj2 (Z.eqb_neq _ _)) by lia. }
  change (str "true") with (116 :: str "rue")%Z. change (str "false") with (102 :: str "alse")%Z.
  rewrite !Hp by lia. rewrite Hl. f_equal. f_equal.
  - f_equal. rewrite <- Hv. f_equal. exact (undigits (d :: ds)).
  - cbn [length drop]. by rewrite drop_app_length.
Qed.

Lemma text_chars s : forallb text_char s = true ↔ storable_text s.
Proof.
  unfold storable_text, wf_bytes, Json.no_nul, is_byte. rewrite forallb_forall, !List.Forall_forall.
  unfold text_char. split.
  - intros H. split; intros c Hc; specialize (H c Hc); lia.
  - intros [H1 H2] c Hc. specialize (H1 c Hc). specialize (H2 c Hc). lia.
Qed.

Lemma read_scalar v c rest :
  scalar_ok whole finite v → is_digit c = false →
  read_value (match v with
              | Text s => [34%Z] ++ VoiceText.json_escape s ++ [34%Z]
              | Integer z => to_string z
              | Decimal x => to_string x
              | Flag b => if b then str "true" else str "false"
              end ++ c :: rest) = Some (node v, c :: rest).
Proof.
  intros Hv Hc. destruct v as [s|z|x|b]; cbn [scalar_ok node_of] in *.
  - destruct Hv as [Hs Hn]. rewrite <- !app_assoc. cbn [app read_value]. rewrite VoiceText.json_escape_exact by done.
    by rewrite (proj2 (text_chars s)).
  - apply read_number; [lia|done].
  - by apply read_number.
  - by destruct b.
Qed.

Lemma escape_key k : key_ok k → VoiceText.json_escape k = k ∧ wf_bytes k.
Proof.
  induction 1 as [|c k Hc _ [IH Hw]]; [split; [done|apply Forall_nil_2]|].
  assert (95 <= c < 128)%Z as Hr by (revert Hc; eval_ch; unfold is_lower; lia).
  split; [|apply Forall_cons; split; [unfold is_byte; lia|done]].
  unfold VoiceText.json_escape in *. cbn [map concat]. rewrite IH. unfold VoiceText.escape_char.
  rewrite !(proj2 (Z.eqb_neq _ _)) by lia. rewrite (proj2 (Z.ltb_ge _ _)) by lia. done.
Qed.

Lemma read_text m c rest :
  ok m → is_digit c = false → read_member (text m ++ c :: rest) = Some (Some m.1, node m.2, c :: rest).
Proof.
  intros [Hk Hv] Hc. destruct m as [k v]. cbn [fst snd] in *. destruct (escape_key k Hk) as [Hk' Hw].
  unfold member_text. cbn [fst snd].
  pose proof (read_scalar v c rest Hv Hc) as Hr.
  match type of Hr with read_value (?body ++ _) = _ => set (value := body) in *; clearbody value end.
  rewrite <- !app_assoc. cbn [app].
  unfold read_member. change (34 =b 34) with true. cbn [negb].
  change (str (String.String (Ascii.ascii_of_nat 34) ":")) with [34; 58]%Z.
  cbn [app]. rewrite <- Hk' at 1. rewrite VoiceText.json_escape_exact by done.
  change (58 =b ch ":") with true. by rewrite Hr.
Qed.

Lemma read_rest fuel m members rest :
  Forall ok (m :: members) → length members < fuel →
  read_members fuel (text m ++ concat (map (λ m, str "," ++ text m) members) ++ str "}" ++ rest) =
  Some (map (λ m, (Some m.1, node m.2)) (m :: members), rest).
Proof.
  revert fuel m. induction members as [|m' members IH]; intros [|fuel] m Hok Hf; try (cbn in Hf; lia);
    apply Forall_cons in Hok as [Hm Hok]; cbn [read_members map concat app].
  - change (str "}") with [125%Z]. cbn [app]. by rewrite read_text.
  - rewrite <- !app_assoc. change (str ",") with [44%Z]. cbn [app]. rewrite read_text by done.
    change (44 =b ch ",") with true. cbn iota.
    change [44%Z] with (str ","). rewrite IH; [done|done|cbn in Hf; lia].
Qed.

#[export] Instance read_object_flat : ReadsFlatObjects to_string of_Z whole of_Z finite read_object.
Proof.
  intros m members Hok. unfold object_text. change (str "{") with [123%Z]. cbn [app].
  unfold read_object. change (123 =b ch "{") with true. cbn iota.
  match goal with |- context [read_members ?n ?s] =>
    pose proof (read_rest n m members [] Hok) as Hr; set (len := n) in * end.
  rewrite app_nil_r in Hr. rewrite Hr.
  - cbn [length]. by rewrite Nat.sub_0_r.
  - subst len. cbn [length]. rewrite !length_app.
    assert (length members ≤ length (concat (map (λ m, str "," ++ text m) members))) as H; [|lia].
    clear. induction members as [|m' members IH]; cbn [map concat]; [done|]. rewrite !length_app. cbn [length]. change (length (str ",")) with 1. lia.
Qed.

Definition plain_node (node : Json.cJSON Z) : Prop :=
  ∀ text, Json.convert_cjson node = Ok (Json.String text) → storable_text text.

Lemma read_value_plain s node rest : read_value s = Some (node, rest) → plain_node node.
Proof.
  unfold read_value, plain_node. repeat (case_match; try done); intros [= <- _] text; cbn; intros [= <-].
  by apply text_chars.
Qed.

Lemma read_members_plain fuel s members rest :
  read_members fuel s = Some (members, rest) → Forall (λ m, plain_node m.2) members.
Proof.
  assert (∀ s m rest, read_member s = Some (m, rest) → plain_node m.2) as Hm.
  { clear. intros s m rest. unfold read_member. repeat (case_match; try done).
    intros (r & H' & [= -> ->])%fmap_Some. cbn. destruct r as [node s']. by eapply read_value_plain. }
  revert s members. induction fuel as [|fuel IH]; intros s members; cbn [read_members]; [done|].
  destruct (read_member s) as [[m [|c s']]|] eqn:E; [done| |done].
  destruct (c =b ch ","); [|destruct (c =b ch "}"); [|done]].
  - intros ([ms r] & Hr & [= -> ->])%fmap_Some. apply Forall_cons. split; [by eapply Hm|by eapply IH].
  - intros [= <- _]. apply Forall_singleton. by eapply Hm.
Qed.

Lemma convert_fields_plain members fields key text :
  Forall (λ m, plain_node m.2) members →
  Json.convert_cjson (Json.cObject members) = Ok (Json.Object fields) →
  Json.find_field fields key = Some (Json.String text) → storable_text text.
Proof.
  intros Hm. cbn [Json.convert_cjson].
  match goal with |- context [?f members []] => set (loop := f) end.
  enough (∀ out, (∀ k t, Json.find_field out k = Some (Json.String t) → storable_text t) →
            ∀ fields, loop members out = Ok fields →
            ∀ k t, Json.find_field fields k = Some (Json.String t) → storable_text t) as H.
  { destruct (loop members []) as [fs|] eqn:E; [|done]. intros [= ->]. by eapply H; [|exact E]. }
  induction Hm as [|[k node] members Hn _ IH]; intros out Ho fs; cbn [loop]; [by intros [= ->]|]. fold loop.
  unfold Json.add_field. destruct k as [k|]; [|done]. destruct (Json.find_field out k) eqn:Ek; [done|].
  destruct (Json.convert_cjson node) as [v|] eqn:Ev; [|done]. cbn [mbind outcome_bind]. intros Hl.
  eapply IH; [|exact Hl]. intros k' t. rewrite Json.find_field_app. destruct (Json.find_field out k') eqn:Ek'.
  - intros [= ->]. by eapply Ho.
  - cbn. case_bool_decide; [|done]. intros [= ->]. by apply Hn.
Qed.

#[export] Instance read_object_c_strings : ReadsCStrings read_object.
Proof.
  intros text fields key s. unfold Json.parse. destruct (read_object text) as [[root n]|] eqn:E; [|done].
  destruct (forallb is_space (drop n text)); [|done]. revert E. unfold read_object.
  destruct text as [|c rest]; [done|]. destruct (c =b ch "{"); [|done].
  destruct (read_members _ rest) as [[members r]|] eqn:Em; [|done]. intros [= <- _].
  apply convert_fields_plain. by eapply read_members_plain.
Qed.

End Reader.
