(* ===== verification/Character.v ===== *)
(** Characters (app/server/character.cpp): their files, the ids and the library of
    saved characters. *)

From S2P Require Import Prelude FileTree FlatJson.
From S2P Require Json VoiceText ChunkedBody.
From stdpp Require Import gmap sorting.

(** * Characters *)

Record CharacterConfig := {
  name : bytes;
  preset : bytes;
  voice_file : bytes;
  transcript : bytes;
  persona : bytes;
  tts_seed : Z;
}.

#[export] Instance CharacterConfig_settable : Settable CharacterConfig := fun r =>
  {| name := name r; preset := preset r; voice_file := voice_file r; transcript := transcript r;
     persona := persona r; tts_seed := tts_seed r |}.

(** [CharacterConfig character;] *)
Definition new_character : CharacterConfig :=
  {| name := str "F"; preset := []; voice_file := []; transcript := []; persona := []; tts_seed := -1 |}.

Definition is_custom (c : CharacterConfig) : bool := negb (bool_decide (voice_file c = [])).

Definition default_character : CharacterConfig := new_character <| name := str "F" |> <| preset := str "demo_3_woman" |>.

Definition kCharacterFile : bytes := str "character.json".
Definition kMaxNameLength : nat := 64.

Definition sanitize_character_name (name : bytes) : outcome bytes :=
  let trimmed := trim name in
  if bool_decide (trimmed = []) then Throw (str "character name must not be empty")
  else if kMaxNameLength <? length trimmed then
    Throw (str "character name must be at most " ++ to_string (Z.of_nat kMaxNameLength) ++ str " characters")
  else Ok trimmed.

(** One turn of the loop of [json_escape] is that of the voice events. *)
Definition json_escape (value : bytes) : bytes := concat (map VoiceText.escape_char value).

Definition quote : bytes := [34]%Z.

(** A member that is written only when its text is not empty. *)
Definition text_member (key value : bytes) : bytes :=
  if bool_decide (value = []) then []
  else str "," ++ quote ++ key ++ quote ++ str ":" ++ quote ++ json_escape value ++ quote.

Definition character_text (c : CharacterConfig) : bytes :=
  str "{" ++ quote ++ str "name" ++ quote ++ str ":" ++ quote ++ json_escape (name c) ++ quote ++
  text_member (str "preset") (preset c) ++
  text_member (str "voice_file") (voice_file c) ++
  text_member (str "transcript") (transcript c) ++
  text_member (str "persona") (persona c) ++
  (if (0 <=? tts_seed c)%Z then str "," ++ quote ++ str "tts_seed" ++ quote ++ str ":" ++ to_string (tts_seed c) else []) ++
  str "}".

Section stores.
(** [double] with its conversions, the parser of cJSON, and what the exceptions
    of std::filesystem say. *)
Context {Double : Type} (integral : Double → bool) (to_i64 : Double → Z).
Context (cjson_parse : bytes → Json.cJSON Double * nat + Z) (filesystem_error : bytes → path → bytes).

Definition create_dirs (t : tree) (p : path) : outcome tree :=
  match create_directories t p with
  | Some t => Ok t
  | None => Throw (filesystem_error (str "cannot create directories") p)
  end.

Lemma create_dirs_files t p t' : create_dirs t p = Ok t' → files t' = files t.
Proof. unfold create_dirs. destruct (create_directories t p) eqn:E; [|done]. intros [= <-]. by apply create_directories_Some in E as [-> _]. Qed.

Definition save_character (t : tree) (directory : path) (c : CharacterConfig) : outcome tree :=
  t ← create_dirs t directory;
  let file := path_join directory kCharacterFile in
  match write_file t file (character_text c) with
  | Some t => Ok t
  | None => Throw (str "could not write character store: " ++ path_string file)
  end.

(** What [read_character_file] takes from the parsed file. *)
Definition character_of (value : Json.Value Double) : outcome CharacterConfig :=
  written ← Json.require_string value (str "name");
  name ← sanitize_character_name written;
  tts_seed ← Json.optional_i64 integral to_i64 value (str "tts_seed") (-1);
  Ok {| name := name;
        preset := Json.optional_string value (str "preset") [];
        voice_file := Json.optional_string value (str "voice_file") [];
        transcript := Json.optional_string value (str "transcript") [];
        persona := Json.optional_string value (str "persona") [];
        tts_seed := tts_seed |}.

Definition read_character_file (t : tree) (directory : path) : outcome CharacterConfig :=
  let file := path_join directory kCharacterFile in
  match read_file t file with
  | None => Throw (str "character store missing: " ++ path_string file)
  | Some buffer =>
      value ← Json.parse cjson_parse buffer;
      character ← character_of value;
      if bool_decide (preset character = []) && bool_decide (voice_file character = []) then
        Throw (str "character store " ++ path_string file ++ str " names neither a preset nor a voice_file")
      else if is_custom character && negb (exists_ t (path_join directory (voice_file character))) then
        Throw (str "character recording missing: " ++ path_string (path_join directory (voice_file character)))
      else Ok character
  end.

Definition load_character (t : tree) (directory : path) : outcome CharacterConfig :=
  if negb (exists_ t (path_join directory kCharacterFile)) then Ok default_character
  else match read_character_file t directory with
  | Ok character => Ok character
  | Throw what =>
      match find_sub (str "recording missing") what with
      | Some _ => Ok default_character
      | None => Throw what
      end
  end.

End stores.

(** * The library *)

(** One turn of the loop of [character_slug]: the slug and [pending_dash]. *)
Definition slug_step (state : bytes * bool) (c : Z) : bytes * bool :=
  let '(slug, pending_dash) := state in
  if is_alnum c && (c <? 128)%Z then
    ((if pending_dash && negb (bool_decide (slug = [])) then slug ++ [ch "-"] else slug) ++ [to_lower c], false)
  else (slug, true).

(** The 64-bit FNV-1a hash of the bytes. *)
Definition hash_step (hash c : Z) : Z := uwrap 64 (Z.lxor hash c * 1099511628211).

(** [%08x] of a 32-bit value. *)
Fixpoint hex_digits (n : nat) (value : Z) : bytes :=
  match n with
  | O => []
  | S n => hex_digits n (value / 16) ++ [ChunkedBody.hex_digit (value mod 16)]
  end.

Definition character_slug (name : bytes) : bytes :=
  let '(slug, _) := foldl slug_step ([], false) name in
  if negb (bool_decide (slug = [])) then slug
  else
    let hash := foldl hash_step 1469598103934665603%Z name in
    str "c-" ++ hex_digits 8 (Z.land hash 4294967295).

Definition is_valid_character_id (id : bytes) : bool :=
  if bool_decide (id = []) || (80 <? length id) then false
  else forallb (λ c, negb (negb (is_alnum c) && negb (c =b ch "-")) && negb ((128 <=? c)%Z || is_upper c)) id.

Record SavedCharacter := { id : bytes; config : CharacterConfig }.

(** [a.config.name < b.config.name] as the sort uses it. *)
Fixpoint bytes_leb (a b : bytes) : bool :=
  match a, b with
  | [], _ => true
  | _ :: _, [] => false
  | x :: a, y :: b => if (x <? y)%Z then true else if (y <? x)%Z then false else bytes_leb a b
  end.

Definition name_le (a b : SavedCharacter) : Prop := bytes_leb (name (config a)) (name (config b)) = true.

#[export] Instance name_le_dec a b : Decision (name_le a b) := decide (bytes_leb _ _ = true).

Section library.
Context {Double : Type} (integral : Double → bool) (to_i64 : Double → Z).
Context (cjson_parse : bytes → Json.cJSON Double * nat + Z).

(** One turn of the loop over the directory. *)
Definition library_entry (t : tree) (library : path) (filename : bytes) : option SavedCharacter :=
  let entry := path_join library filename in
  if negb (is_directory t entry) then None
  else if negb (is_valid_character_id filename) then None
  else if negb (exists_ t (path_join entry kCharacterFile)) then None
  else match read_character_file integral to_i64 cjson_parse t entry with
  | Ok config => Some {| id := filename; config := config |}
  | Throw _ => None
  end.

(** [order] lists what [directory_iterator] yields, in whatever order. *)
Definition list_character_library (t : tree) (root : path) (order : list bytes) : list SavedCharacter :=
  merge_sort name_le (omap (library_entry t (path_join root (str "library"))) order).

End library.

(** * Round trips *)

Section round_trips.
Context {Double : Type} (integral : Double → bool) (to_i64 : Double → Z) (show_double : Double → bytes).
Context (of_Z : Z → Double) (whole : Z → Prop) (reread : Double → Double) (finite : Double → Prop).
Context (cjson_parse : bytes → Json.cJSON Double * nat + Z).
Context `{!ReadsFlatObjects show_double of_Z whole reread finite cjson_parse}.

(** The whole numbers a double holds exactly: those up to [2^53] and those that
    are read out of one. *)
Class WholeDoubles : Prop := {
  whole_integral z : (0 <= z)%Z → whole z → integral (of_Z z) = true;
  whole_i64 z : (0 <= z)%Z → whole z → to_i64 (of_Z z) = z;
  whole_small z : (0 <= z <= 2 ^ 53)%Z → whole z;
  whole_read x : integral x = true → (0 <= to_i64 x)%Z → whole (to_i64 x);
}.
Context `{!WholeDoubles}.

Notation value_of := (value_of of_Z reread).
Notation fields_of := (map (λ m : bytes * scalar Double, (m.1, value_of m.2))).

(** What a store keeps exactly. *)
Record storable (c : CharacterConfig) : Prop := {
  storable_name : sanitize_character_name (name c) = Ok (name c);
  storable_voice : preset c ≠ [] ∨ voice_file c ≠ [];
  storable_texts : Forall storable_text [name c; preset c; voice_file c; transcript c; persona c];
  storable_seed : (0 <= tts_seed c)%Z → whole (tts_seed c);
}.

(** A negative seed is not written: it stands for the default. *)
Definition reloaded (c : CharacterConfig) : CharacterConfig := c <| tts_seed := Z.max (-1) (tts_seed c) |>.

Definition text_field (key value : bytes) : list (bytes * scalar Double) :=
  if bool_decide (value = []) then [] else [(key, Text value)].

Definition seed_field (c : CharacterConfig) : list (bytes * scalar Double) :=
  if (0 <=? tts_seed c)%Z then [(str "tts_seed", Integer (tts_seed c))] else [].

Definition more_fields (c : CharacterConfig) : list (bytes * scalar Double) :=
  text_field (str "preset") (preset c) ++ text_field (str "voice_file") (voice_file c) ++
  text_field (str "transcript") (transcript c) ++ text_field (str "persona") (persona c) ++ seed_field c.

Lemma text_member_text key value :
  member_text show_double (key, Text value) = quote ++ key ++ quote ++ str ":" ++ quote ++ json_escape value ++ quote.
Proof. done. Qed.

Lemma text_member_field key value :
  text_member key value = concat (map (λ m, str "," ++ member_text show_double m) (text_field key value)).
Proof.
  unfold text_member, text_field. case_bool_decide; [done|]. cbn [map concat].
  by rewrite text_member_text, app_nil_r.
Qed.

Lemma seed_member_field c :
  (if (0 <=? tts_seed c)%Z then str "," ++ quote ++ str "tts_seed" ++ quote ++ str ":" ++ to_string (tts_seed c) else []) =
  concat (map (λ m, str "," ++ member_text show_double m) (seed_field c)).
Proof. unfold seed_field. destruct (0 <=? tts_seed c)%Z; [|done]. cbn [map concat]. by rewrite app_nil_r. Qed.

Lemma character_text_flat c :
  character_text c = object_text show_double (str "name", Text (name c)) (more_fields c).
Proof.
  unfold character_text, object_text, more_fields.
  rewrite !text_member_field, seed_member_field, !map_app, !concat_app, text_member_text. by rewrite <- !app_assoc.
Qed.

Lemma find_text k s key :
  Json.find_field (fields_of (text_field k s)) key =
  if bool_decide (k = key) && negb (bool_decide (s = [])) then Some (Json.String s) else None.
Proof. unfold text_field. case_bool_decide; cbn; [by rewrite andb_false_r|]. by case_bool_decide. Qed.

Lemma find_seed c key :
  Json.find_field (fields_of (seed_field c)) key =
  if bool_decide (str "tts_seed" = key) && (0 <=? tts_seed c)%Z then Some (Json.Number (of_Z (tts_seed c))) else None.
Proof. unfold seed_field. destruct (0 <=? tts_seed c)%Z; cbn; [by case_bool_decide|by rewrite andb_false_r]. Qed.

Lemma field_or_empty (s : bytes) :
  match (if negb (bool_decide (s = [])) then Some (Json.String (Double := Double) s) else None) with
  | Some (Json.String s) => s | _ => [] end = s.
Proof. by case_bool_decide. Qed.

Notation object_of c := (Json.Object (fields_of ((str "name", Text (name c)) :: more_fields c))).

Ltac find_member :=
  unfold Json.optional_string, Json.find, more_fields;
  cbn [map Json.find_field fst snd]; rewrite ?map_app;
  rewrite bool_decide_eq_false_2 by done;
  rewrite !Json.find_field_app, !find_text, ?find_seed;
  repeat match goal with |- context [bool_decide (str ?a = str ?b)] =>
    let r := eval vm_compute in (bool_decide (str a = str b)) in
    change (bool_decide (str a = str b)) with r end;
  cbn [andb].

Lemma read_preset c : Json.optional_string (object_of c) (str "preset") [] = preset c.
Proof. find_member. case_bool_decide; done. Qed.

Lemma read_voice_file c : Json.optional_string (object_of c) (str "voice_file") [] = voice_file c.
Proof. find_member. case_bool_decide; done. Qed.

Lemma read_transcript c : Json.optional_string (object_of c) (str "transcript") [] = transcript c.
Proof. find_member. case_bool_decide; done. Qed.

Lemma read_persona c : Json.optional_string (object_of c) (str "persona") [] = persona c.
Proof. find_member. case_bool_decide; done. Qed.

Lemma read_seed c :
  ((0 <= tts_seed c)%Z → whole (tts_seed c)) →
  Json.optional_i64 integral to_i64 (object_of c) (str "tts_seed") (-1) = Ok (Z.max (-1) (tts_seed c)).
Proof.
  intros Hs. rewrite Json.optional_i64_spec. find_member. destruct (Z.leb_spec 0 (tts_seed c)).
  - rewrite whole_integral, whole_i64 by auto. f_equal. lia.
  - f_equal. lia.
Qed.

Lemma character_of_object c :
  sanitize_character_name (name c) = Ok (name c) → ((0 <= tts_seed c)%Z → whole (tts_seed c)) →
  character_of integral to_i64 (object_of c) = Ok (reloaded c).
Proof.
  intros Hn Hs. unfold character_of.
  change (Json.require_string (object_of c) (str "name")) with (Ok (name c)). cbn [mbind outcome_bind].
  rewrite Hn. cbn [mbind outcome_bind]. rewrite read_seed by done. cbn [mbind outcome_bind].
  by rewrite read_preset, read_voice_file, read_transcript, read_persona.
Qed.

Lemma key_ok_text (s : bytes) : forallb (λ c, is_lower c || (c =b ch "_")) s = true → key_ok s.
Proof. intros Hs. unfold key_ok. apply List.Forall_forall. by apply forallb_forall. Qed.

Lemma text_field_ok key value :
  key_ok key → storable_text value → Forall (member_ok whole finite) (text_field key value).
Proof.
  intros Hk Hv. unfold text_field. case_bool_decide; [by apply Forall_nil_2|].
  apply Forall_cons. split; [by split|by apply Forall_nil_2].
Qed.

Lemma character_members_ok c : storable c → Forall (member_ok whole finite) ((str "name", Text (name c)) :: more_fields c).
Proof.
  intros [_ _ Ht Hs]. rewrite !Forall_cons in Ht. destruct Ht as (Hn & Hp & Hv & Htr & Hpe & _).
  apply Forall_cons. split; [split; [by apply key_ok_text|done]|]. unfold more_fields.
  repeat (apply Forall_app_2; [by apply text_field_ok; [apply key_ok_text|]|]).
  unfold seed_field. destruct (Z.leb_spec 0 (tts_seed c)); [|by apply Forall_nil_2].
  apply Forall_cons. split; [split; [by apply key_ok_text|cbn; auto]|by apply Forall_nil_2].
Qed.

Lemma text_field_keys key value : (text_field key value).*1 `sublist_of` [key].
Proof. unfold text_field. case_bool_decide; [apply sublist_nil_l|done]. Qed.

Lemma character_keys_unique c : NoDup (((str "name", Text (name c)) :: more_fields c).*1).
Proof.
  assert (((str "name", Text (name c)) :: more_fields c).*1 `sublist_of`
          [str "name"; str "preset"; str "voice_file"; str "transcript"; str "persona"; str "tts_seed"]) as Hs.
  { cbn [fmap list_fmap fst]. apply sublist_skip. unfold more_fields. rewrite !fmap_app.
    repeat (apply (sublist_app _ [_]); [apply text_field_keys|]).
    unfold seed_field. destruct (0 <=? tts_seed c)%Z; [done|apply sublist_nil_l]. }
  eapply sublist_NoDup; [|exact Hs]. apply (bool_decide_unpack _). by vm_compute.
Qed.

Lemma parse_character c :
  storable c → Json.parse cjson_parse (character_text c) = Ok (object_of c).
Proof.
  intros Hc. rewrite character_text_flat.
  apply (parse_object show_double of_Z whole reread finite); [done|by apply character_members_ok|apply character_keys_unique].
Qed.

(** A store that holds the text of a character holds this character. *)
Lemma read_character_text t directory c :
  files t !! path_join directory kCharacterFile = Some (character_text c) → storable c →
  (is_custom c = true → exists_ t (path_join directory (voice_file c)) = true) →
  read_character_file integral to_i64 cjson_parse t directory = Ok (reloaded c).
Proof.
  intros Hf Hc Hr. unfold read_character_file, read_file. rewrite Hf, parse_character by done. cbn [mbind outcome_bind].
  pose proof Hc as [Hn Hv _ Hs]. rewrite character_of_object by done. cbn [mbind outcome_bind].
  change (preset (reloaded c)) with (preset c). change (voice_file (reloaded c)) with (voice_file c).
  assert (bool_decide (preset c = []) && bool_decide (voice_file c = []) = false) as ->.
  { apply andb_false_iff. destruct Hv; [left|right]; by apply bool_decide_eq_false_2. }
  change (is_custom (reloaded c)) with (is_custom c). destruct (is_custom c); cbn [andb]; [|done].
  by rewrite Hr.
Qed.

Lemma load_character_text t directory c :
  files t !! path_join directory kCharacterFile = Some (character_text c) → storable c →
  (is_custom c = true → exists_ t (path_join directory (voice_file c)) = true) →
  load_character integral to_i64 cjson_parse t directory = Ok (reloaded c).
Proof.
  intros Hf Hc Hr. unfold load_character. rewrite (read_character_text t directory c) by done.
  assert (exists_ t (path_join directory kCharacterFile) = true) as ->; [|done].
  unfold exists_, is_file. by rewrite Hf.
Qed.

(** ** What is read can be stored *)

Context `{!ReadsCStrings cjson_parse}.

Lemma sanitize_Ok written n : sanitize_character_name written = Ok n → n = trim written ∧ sanitize_character_name n = Ok n.
Proof.
  unfold sanitize_character_name. case_bool_decide; [done|]. destruct (Nat.ltb_spec kMaxNameLength (length (trim written))); [done|].
  intros [= <-]. split; [done|]. rewrite trim_idempotent. rewrite bool_decide_eq_false_2 by done.
  by rewrite (proj2 (Nat.ltb_ge _ _)).
Qed.

Lemma parsed_text text fields key :
  Json.parse cjson_parse text = Ok (Json.Object fields) → storable_text (Json.optional_string (Json.Object fields) key []).
Proof.
  intros Hp. unfold Json.optional_string, Json.find.
  destruct (Json.find_field fields key) as [[]|] eqn:E; try apply storable_nil. by eapply parse_text.
Qed.

Lemma parsed_number v key d n :
  Json.optional_i64 integral to_i64 v key d = Ok n → n = d ∨ ((0 <= n)%Z → whole n).
Proof.
  rewrite Json.optional_i64_spec. destruct (Json.find v key) as [[]|]; try (intros [= <-]; by left).
  destruct (integral x) eqn:E; [|done]. intros [= <-]. right. by apply whole_read.
Qed.

Lemma read_character_storable t directory c :
  read_character_file integral to_i64 cjson_parse t directory = Ok c → storable c.
Proof.
  unfold read_character_file. destruct (read_file t _) as [buffer|]; [|done].
  destruct (Json.parse cjson_parse buffer) as [value|] eqn:Ep; [|done]. cbn [mbind outcome_bind].
  unfold character_of, Json.require_string, Json.require.
  destruct (Json.find value (str "name")) as [nv|] eqn:En; [|done]. cbn [mbind outcome_bind].
  destruct value as [| | | | |fields]; try done. cbn [Json.find] in En.
  destruct nv as [| | |written| |]; try done. cbn [Json.as_string mbind outcome_bind].
  destruct (sanitize_character_name written) as [n|] eqn:Es; [|done]. cbn [mbind outcome_bind].
  destruct (Json.optional_i64 _ _ _ _ _) as [seed|] eqn:Ei; [|done]. cbn [mbind outcome_bind].
  match goal with |- context [if ?b then Throw _ else _] => destruct b eqn:Eb end; [done|].
  match goal with |- context [if ?b then Throw _ else _] => destruct b end; [done|]. intros [= <-].
  apply sanitize_Ok in Es as [-> Hn]. cbn [preset voice_file] in Eb. split; cbn.
  - done.
  - apply andb_false_iff in Eb as [?%bool_decide_eq_false|?%bool_decide_eq_false]; [by left|by right].
  - repeat (apply Forall_cons; split; [|]); try apply Forall_nil_2; try by eapply parsed_text.
    apply storable_trim. by eapply parse_text.
  - apply parsed_number in Ei as [->|?]; [lia|done].
Qed.

Lemma default_storable : storable default_character.
Proof.
  assert (∀ s, forallb Reader.text_char s = true → storable_text s) as Hs by (intros s; apply Reader.text_chars).
  split; [done|by left| |done]. repeat (apply Forall_cons; split; [by apply Hs|]). apply Forall_nil_2.
Qed.

Lemma load_character_storable t directory c :
  load_character integral to_i64 cjson_parse t directory = Ok c → storable c.
Proof.
  unfold load_character. destruct (negb _); [intros [= <-]; apply default_storable|].
  destruct (read_character_file _ _ _ t directory) as [c'|what] eqn:E; [intros [= <-]; by eapply read_character_storable|].
  destruct (find_sub _ what); [|done]. intros [= <-]. apply default_storable.
Qed.

End round_trips.

(** * Ids *)

(** The pieces between the bytes that are no ASCII letter or digit. *)
Fixpoint pieces (s : bytes) : list bytes :=
  match s with
  | [] => [[]]
  | c :: s =>
      if is_alnum c && (c <? 128)%Z then
        match pieces s with p :: ps => (c :: p) :: ps | [] => [[c]] end
      else [] :: pieces s
  end.

Definition words (name : bytes) : list bytes :=
  map (map to_lower) (List.filter (λ w, negb (bool_decide (w = []))) (pieces name)).

Fixpoint dashed (ws : list bytes) : bytes :=
  match ws with [] => [] | [w] => w | w :: ws => w ++ ch "-" :: dashed ws end.

(** The slug behind one more piece. *)
Definition add_piece (slug w : bytes) : bytes :=
  if bool_decide (w = []) then slug
  else (if bool_decide (slug = []) then [] else slug ++ [ch "-"]) ++ map to_lower w.

Lemma slug_fold name slug pending :
  ∃ p ps, pieces name = p :: ps ∧
    (foldl slug_step (slug, pending) name).1 =
    foldl add_piece (if pending then add_piece slug p else slug ++ map to_lower p) ps.
Proof.
  revert slug pending. induction name as [|c name IH]; intros slug pending; cbn [foldl pieces].
  - exists [], []. split; [done|]. destruct pending; cbn; by rewrite ?app_nil_r.
  - unfold slug_step at 2. destruct (is_alnum c && (c <? 128)%Z).
    + edestruct IH as (p & ps & -> & ->). exists (c :: p), ps. split; [done|]. f_equal. cbn [map].
      destruct pending; cbn [andb]; [|by rewrite <- app_assoc].
      unfold add_piece. rewrite (bool_decide_eq_false_2 (c :: p = [])) by done.
      case_bool_decide as Hs; cbn [negb]; [by subst slug|by rewrite <- !app_assoc].
    + edestruct (IH slug true) as (p & ps & -> & ->). exists [], (p :: ps). split; [done|].
      destruct pending; cbn [foldl map]; by rewrite ?app_nil_r.
Qed.

Lemma dashed_snoc ws w : ws ≠ [] → dashed (ws ++ [w]) = dashed ws ++ ch "-" :: w.
Proof.
  induction ws as [|v [|v' ws] IH]; intros Hne; [done|done|]. cbn [app dashed] in *.
  rewrite IH by done. by rewrite <- app_assoc.
Qed.

Lemma add_pieces ps ws :
  Forall (λ w, w ≠ []) ws →
  foldl add_piece (dashed ws) ps = dashed (ws ++ map (map to_lower) (List.filter (λ w, negb (bool_decide (w = []))) ps)).
Proof.
  revert ws. induction ps as [|p ps IH]; intros ws Hws; cbn [foldl List.filter map]; [by rewrite app_nil_r|].
  unfold add_piece at 2. case_bool_decide as Hp; cbn [negb]; [by apply IH|].
  assert (dashed ws = [] ↔ ws = []) as Hd.
  { split; [|by intros ->]. destruct Hws as [|w [|v vs] Hw _]; [done|by cbn; intros ->|]. cbn [dashed]. by destruct w. }
  cbn [map]. rewrite (app_assoc ws [_] _ : ws ++ map to_lower p :: _ = (ws ++ [map to_lower p]) ++ _).
  rewrite <- IH.
  - f_equal. destruct (decide (ws = [])) as [->|Hne]; [done|].
    rewrite bool_decide_eq_false_2 by by rewrite Hd. rewrite dashed_snoc by done. by rewrite <- app_assoc.
  - apply Forall_app_2; [done|]. apply Forall_singleton. destruct p; done.
Qed.

Lemma slug_words name : (foldl slug_step ([], false) name).1 = dashed (words name).
Proof.
  destruct (slug_fold name [] false) as (p & ps & Hp & ->). unfold words. rewrite Hp. cbn [app List.filter].
  case_bool_decide as He; cbn [negb].
  - subst p. exact (add_pieces ps [] (Forall_nil_2 _)).
  - apply (add_pieces ps [map to_lower p]). apply Forall_singleton. by destruct p.
Qed.

(** ** Which names share an id *)

Lemma piece_chars name : Forall (Forall (λ c, is_alnum c = true)) (pieces name).
Proof.
  induction name as [|c name IH]; cbn [pieces]; [by apply Forall_singleton|].
  destruct (is_alnum c && (c <? 128)%Z) eqn:Hc; [|by apply Forall_cons].
  apply andb_true_iff in Hc as [Hc _].
  destruct (pieces name) as [|p ps]; [by apply Forall_singleton, Forall_singleton|].
  apply Forall_cons in IH as [Hp Hps]. by repeat (apply Forall_cons; split).
Qed.

(** The characters of an id. *)
Definition id_char (c : Z) : Prop := is_lower c || is_digit c = true.

Lemma to_lower_id c : is_alnum c = true → id_char (to_lower c).
Proof. unfold is_alnum, is_alpha, id_char, to_lower, is_upper, is_lower, is_digit. case_match; lia. Qed.

Lemma word_chars name : Forall (λ w, w ≠ [] ∧ Forall id_char w) (words name).
Proof.
  unfold words. apply Forall_map. apply List.Forall_forall. intros w [Hin Hne]%filter_In.
  pose proof (proj1 (List.Forall_forall _ _) (piece_chars name) w Hin) as Hw. split; [by destruct w|].
  apply Forall_map. eapply Forall_impl; [exact Hw|]. apply to_lower_id.
Qed.

Lemma split_dashed w ws :
  Forall (λ w, w ≠ [] ∧ Forall id_char w) (w :: ws) → split_on (ch "-") (dashed (w :: ws)) = w :: ws.
Proof.
  assert (∀ v, Forall id_char v → split_on (ch "-") v = [v]) as Hv.
  { induction 1 as [|c v Hc _ IH]; [done|]. cbn [split_on]. rewrite IH. rewrite (proj2 (Z.eqb_neq _ _)); [done|].
    revert Hc. unfold id_char, is_lower, is_digit. eval_ch. lia. }
  revert w. induction ws as [|v ws IH]; intros w [[Hne Hw] Hws]%Forall_cons; [by apply Hv|].
  change (dashed (w :: v :: ws)) with (w ++ ch "-" :: dashed (v :: ws)). rewrite split_on_app, Hv, IH by done. done.
Qed.

Lemma dashed_chars ws :
  Forall (λ w, w ≠ [] ∧ Forall id_char w) ws → Forall (λ c, id_char c ∨ c = ch "-") (dashed ws).
Proof.
  assert (∀ v, Forall id_char v → Forall (λ c, id_char c ∨ c = ch "-") v) as Hv.
  { intros v H. eapply Forall_impl; [exact H|]. by left. }
  induction 1 as [|w [|v ws] [_ Hw] _ IH]; [apply Forall_nil_2|by apply Hv|].
  apply Forall_app_2; [by apply Hv|]. apply Forall_cons. split; [by right|exact IH].
Qed.

Lemma slug_length name slug pending :
  length (foldl slug_step (slug, pending) name).1 ≤ length slug + (if pending : bool then 1 else 0) + length name.
Proof.
  revert slug pending. induction name as [|c name IH]; intros slug pending; cbn [foldl length]; [cbn; lia|].
  unfold slug_step at 2. destruct (is_alnum c && (c <? 128)%Z).
  - etrans; [apply IH|]. rewrite length_app. destruct pending; cbn [andb]; [case_bool_decide; cbn [negb]|];
      rewrite ?length_app; cbn [length]; lia.
  - etrans; [apply IH|]. destruct pending; lia.
Qed.

Lemma slug_of_words name : words name ≠ [] → character_slug name = dashed (words name).
Proof.
  intros Hne. unfold character_slug. pose proof (slug_words name) as Hs.
  destruct (foldl slug_step ([], false) name) as [slug pending]. cbn [fst] in Hs. rewrite Hs.
  rewrite bool_decide_eq_false_2; [done|]. pose proof (word_chars name) as Hw.
  destruct (words name) as [|w [|v ws]]; [done| |]; apply Forall_cons in Hw as [[Hw _] _]; cbn [dashed]; by destruct w.
Qed.

Lemma valid_id_intro id :
  id ≠ [] → length id ≤ 80 → Forall (λ c, id_char c ∨ c = ch "-") id → is_valid_character_id id = true.
Proof.
  intros Hne Hl Hc. unfold is_valid_character_id. rewrite bool_decide_eq_false_2, (proj2 (Nat.ltb_ge _ _)) by done.
  cbn [orb]. apply forallb_forall. intros c Hin. pose proof (proj1 (List.Forall_forall _ _) Hc c Hin) as H. cbn in H.
  revert H. unfold id_char, is_alnum, is_alpha, is_lower, is_upper, is_digit. eval_ch. lia.
Qed.

Lemma hex_digits_chars n v : length (hex_digits n v) = n ∧ Forall id_char (hex_digits n v).
Proof.
  revert v. induction n as [|n IH]; intros v; cbn [hex_digits]; [split; [done|apply Forall_nil_2]|].
  destruct (IH (v / 16)%Z) as [Hl Hc]. split; [rewrite length_app, Hl; cbn; lia|].
  apply Forall_app_2; [done|]. apply Forall_singleton. unfold id_char, ChunkedBody.hex_digit, is_lower, is_digit. eval_ch.
  pose proof (Z.mod_pos_bound v 16 eq_refl). case_match; lia.
Qed.

Lemma slug_valid name : length name ≤ 80 → is_valid_character_id (character_slug name) = true.
Proof.
  intros Hl. destruct (decide (words name = [])) as [He|Hne].
  - unfold character_slug. pose proof (slug_words name) as Hs. rewrite He in Hs.
    destruct (foldl slug_step ([], false) name) as [slug pending]. cbn [fst dashed] in Hs. subst slug.
    match goal with |- context [hex_digits 8 ?v] => destruct (hex_digits_chars 8 v) as [Hh Hc] end.
    cbn [negb]. rewrite bool_decide_eq_true_2 by done. cbn [negb].
    apply valid_id_intro; [done|rewrite length_app, Hh; cbn; lia|].
    apply Forall_app_2; [|eapply Forall_impl; [exact Hc|by left]].
    apply Forall_cons. split; [by left|]. apply Forall_singleton. by right.
  - pose proof (word_chars name) as Hw. rewrite slug_of_words by done. apply valid_id_intro.
    + destruct (words name) as [|w [|v ws]]; [done| |]; apply Forall_cons in Hw as [[Hw _] _]; cbn [dashed]; by destruct w.
    + pose proof (slug_length name [] false) as Hs. rewrite slug_words in Hs. cbn [length] in Hs. lia.
    + by apply dashed_chars.
Qed.

Lemma valid_file_name id : is_valid_character_id id = true → file_name id.
Proof.
  unfold is_valid_character_id. destruct (bool_decide (id = []) || _) eqn:E; [done|]. intros H.
  apply orb_false_iff in E as [E%bool_decide_eq_false _]. split; [done|].
  apply List.Forall_forall. intros c Hin. rewrite forallb_forall in H. specialize (H c Hin).
  revert H. unfold is_alnum, is_alpha, is_lower, is_upper, is_digit. eval_ch. lia.
Qed.

(** The id of a name with a letter or digit of ASCII is its words, in lower
    case and joined by dashes: two such names share an entry of the library
    exactly when their words agree but for case. Every name that passes
    [sanitize_character_name] has a valid id, which is one element of a path. *)
Theorem character_slug_spec name :
  (words name ≠ [] → ∀ other, words other ≠ [] →
     character_slug name = character_slug other ↔ words name = words other) ∧
  (length name ≤ 80 → is_valid_character_id (character_slug name) = true ∧ file_name (character_slug name)).
Proof.
  split; [|intros Hl; split; [by apply slug_valid|by apply valid_file_name, slug_valid]].
  intros Hn other Ho. rewrite !slug_of_words by done. split; [|by intros ->].
  intros Hd. pose proof (word_chars name) as Hwn. pose proof (word_chars other) as Hwo.
  destruct (words name) as [|w ws]; [done|]. destruct (words other) as [|v vs]; [done|].
  by rewrite <- (split_dashed w ws), <- (split_dashed v vs), Hd.
Qed.

Module Ids.

Lemma character_slug_witness :
  character_slug (str "Ann-Marie  O'Hara") = character_slug (str "ann marie o/hara") ∧
  character_slug (str "Ann") ≠ character_slug (str "Anna") ∧
  is_valid_character_id (character_slug (str "Ann-Marie  O'Hara")) = true.
Proof.
  destruct (character_slug_spec (str "Ann-Marie  O'Hara")) as [H1 H2].
  destruct (character_slug_spec (str "Ann")) as [H3 _].
  split; [apply H1; by vm_compute|]. split; [|apply H2; apply (bool_decide_unpack _); by vm_compute].
  intros H%H3; revert H; by vm_compute.
Defined.

(** A name without a letter or digit of ASCII, and ids no name has. *)
Example foreign_name : character_slug [230; 152; 165]%Z = str "c-a5aa81c0".
Proof. by vm_compute. Qed.

Example ids_of_no_name : is_valid_character_id (str "-a") = true ∧ is_valid_character_id (str "a--b") = true.
Proof. done. Qed.

End Ids.
