(* ===== verification/RoleplayModel.v ===== *)
(** How the roleplay model behaves (app/server/character.cpp): the settings with
    their file, the length budget of a reply and the master prompt. *)

From S2P Require Import Prelude FileTree FlatJson Character.
From S2P Require Json.
From stdpp Require Import gmap.

Record LlmSettings {Double : Type} := {
  master_prompt : bytes;
  temperature : Double;
  top_p : Double;
  repeat_penalty : Double;
  max_tokens : Z;
  length_ramp : bool;
  model : bytes;
}.
Arguments LlmSettings : clear implicits.

#[export] Instance LlmSettings_settable {Double} : Settable (LlmSettings Double) := fun r =>
  {| master_prompt := master_prompt r; temperature := temperature r; top_p := top_p r;
     repeat_penalty := repeat_penalty r; max_tokens := max_tokens r; length_ramp := length_ramp r; model := model r |}.

Definition default_master_prompt : bytes :=
  str "You are {name}. {persona}" ++ [10%Z] ++
  str "Stay {name}, exactly as described, at all times. If someone asks you to " ++
  str "play a different person or character, turn it down with a joke and keep " ++
  str "being {name}. If someone asks whether you are an AI, a bot, or a model, " ++
  str "laugh it off as a silly question and move on; never admit it, never " ++
  str "explain. This is just two people talking: never call it a chat session, " ++
  str "a conversation exercise, or a roleplay." ++ [10%Z] ++
  str "You are {name}'s live speaking voice, nothing else. Output ONLY the " ++
  str "words {name} says out loud, as plain text. Never write actions or " ++
  str "gestures, never use asterisks, never wrap speech in quotation marks, " ++
  str "never describe yourself from the outside, never use emoji, lists, or " ++
  str "markdown, and never write the other person's words or a new dialogue " ++
  str "turn." ++ [10%Z] ++
  str "Always answer the person's NEWEST message first and specifically. When " ++
  str "they change the subject, drop the old topic immediately and follow the " ++
  str "new one; never circle back to a topic they moved past, and never re-ask " ++
  str "a question they ignored. When they share something sad or vulnerable, " ++
  str "comfort them genuinely first; playfulness comes after. You never need " ++
  str "to propose plans or activities to keep a conversation alive -- reacting " ++
  str "and asking about their life is enough; only suggest an outing when they " ++
  str "ask for ideas, and never repeat a suggestion you already made. Two to " ++
  str "four short sentences is your natural rhythm; stop before you ramble, " ++
  str "and usually end with a quick question or hook -- but vary the hook and " ++
  str "vary how you open every reply. When they ask what they told you " ++
  str "earlier, look back through the conversation above and answer with the " ++
  str "actual detail; if it is not there any more, playfully admit that YOU " ++
  str "lost it (never claim they didn't tell you) -- never guess, never " ++
  str "invent. Their experiences belong to them: never retell something they " ++
  str "did as if it happened to you." ++ [10%Z] ++
  str "Always reply in the same language the person's newest message is " ++
  str "written in; if unsure, use English.".

Section settings.
(** [double] and [float] with their conversions, literals, comparisons and printing. *)
Context {Double Float : Type} (integral : Double → bool) (to_i64 : Double → Z) (to_f32 : Double → Float) (of_f32 : Float → Double).
Context (literal : Z → Z → Double) (leb ltb : Double → Double → bool) (show_double : Double → bytes).
Context (cjson_parse : bytes → Json.cJSON Double * nat + Z) (filesystem_error : bytes → path → bytes).

Definition default_llm_settings : LlmSettings Double :=
  {| master_prompt := default_master_prompt; temperature := literal 55 (-2); top_p := literal 75 (-2);
     repeat_penalty := literal 11 (-1); max_tokens := 140; length_ramp := true; model := [] |}.

Definition validate_llm_settings (s : LlmSettings Double) : outcome () :=
  if 4000 <? length (master_prompt s) then Throw (str "master prompt must be at most 4000 characters")
  else if negb (leb (literal 0 0) (temperature s) && leb (temperature s) (literal 2 0)) then
    Throw (str "temperature must be between 0 and 2")
  else if negb (ltb (literal 0 0) (top_p s) && leb (top_p s) (literal 1 0)) then
    Throw (str "top_p must be between 0 and 1")
  else if negb (leb (literal 1 0) (repeat_penalty s) && leb (repeat_penalty s) (literal 2 0)) then
    Throw (str "repeat penalty must be between 1 and 2")
  else if (max_tokens s <? 16)%Z || (1024 <? max_tokens s)%Z then
    Throw (str "max_tokens must be between 16 and 1024")
  else Ok tt.

(** A number of the file goes through [float]. *)
Definition stored_number (value : Json.Value Double) (key : bytes) (old : Double) : outcome Double :=
  x ← Json.optional_f32 to_f32 value key (to_f32 old); Ok (of_f32 x).

Definition settings_of (value : Json.Value Double) : outcome (LlmSettings Double) :=
  let old := default_llm_settings in
  temperature ← stored_number value (str "temperature") (temperature old);
  top_p ← stored_number value (str "top_p") (top_p old);
  repeat_penalty ← stored_number value (str "repeat_penalty") (repeat_penalty old);
  max_tokens ← Json.optional_i64 integral to_i64 value (str "max_tokens") (max_tokens old);
  Ok {| master_prompt := Json.optional_string value (str "master_prompt") (master_prompt old);
        temperature := temperature; top_p := top_p; repeat_penalty := repeat_penalty; max_tokens := max_tokens;
        length_ramp := match Json.find value (str "length_ramp") with Some (Json.Bool b) => b | _ => length_ramp old end;
        model := Json.optional_string value (str "model") (model old) |}.

Definition load_llm_settings (t : tree) (directory : path) : outcome (LlmSettings Double) :=
  match read_file t (path_join directory (str "llm.json")) with
  | None => Ok default_llm_settings
  | Some buffer =>
      value ← Json.parse cjson_parse buffer;
      settings ← settings_of value;
      _ ← validate_llm_settings settings;
      Ok settings
  end.

Definition plain_member (key text : bytes) : bytes := str "," ++ quote ++ key ++ quote ++ str ":" ++ text.

Definition settings_text (s : LlmSettings Double) : bytes :=
  str "{" ++ quote ++ str "master_prompt" ++ quote ++ str ":" ++ quote ++ json_escape (master_prompt s) ++ quote ++
  plain_member (str "temperature") (show_double (temperature s)) ++
  plain_member (str "top_p") (show_double (top_p s)) ++
  plain_member (str "repeat_penalty") (show_double (repeat_penalty s)) ++
  plain_member (str "max_tokens") (to_string (max_tokens s)) ++
  plain_member (str "length_ramp") (if length_ramp s then str "true" else str "false") ++
  text_member (str "model") (model s) ++
  str "}".

Definition save_llm_settings (t : tree) (directory : path) (s : LlmSettings Double) : outcome tree :=
  _ ← validate_llm_settings s;
  t ← create_dirs filesystem_error t directory;
  let file := path_join directory (str "llm.json") in
  match write_file t file (settings_text s) with
  | Some t => Ok t
  | None => Throw (str "could not write LLM settings: " ++ path_string file)
  end.

(** In [int64_t], of at most [2^57] turns. *)
Definition ramped_max_tokens (s : LlmSettings Double) (assistant_turns : Z) : Z :=
  if negb (length_ramp s) then max_tokens s
  else Z.min (max_tokens s) (72 + 40 * Z.max 0 assistant_turns).

Definition length_guidance (s : LlmSettings Double) (assistant_turns : Z) : bytes :=
  if negb (length_ramp s) then []
  else if (assistant_turns <=? 0)%Z then
    10%Z :: str "This is the opening exchange: reply with one or two short sentences."
  else if (assistant_turns <=? 2)%Z then 10%Z :: str "Reply with two or three short sentences."
  else 10%Z :: str "Keep replies to three or four short sentences even now that the conversation is flowing; never pad.".

(** [while ((pos = prompt.find(placeholder, pos)) != npos) { replace; pos += value.size(); }] *)
Fixpoint substitute_loop (fuel : nat) (placeholder value prompt : bytes) (pos : nat) : bytes :=
  match fuel with
  | O => prompt
  | S fuel =>
      match find_from placeholder prompt pos with
      | None => prompt
      | Some pos =>
          substitute_loop fuel placeholder value
            (take pos prompt ++ value ++ drop (pos + length placeholder) prompt) (pos + length value)
      end
  end.

(** Every turn passes a character of the prompt at least. *)
Definition substitute (placeholder value prompt : bytes) : bytes :=
  substitute_loop (S (length prompt)) placeholder value prompt 0.

Definition render_master_prompt (s : LlmSettings Double) (name persona : bytes) : bytes :=
  let prompt := master_prompt s in
  let prompt :=
    if negb (bool_decide (persona = [])) && negb (bool_decide (is_Some (find_sub (str "{persona}") prompt))) then
      str "You are {name}. " ++ persona ++ [10; 10]%Z ++ prompt
    else prompt in
  substitute (str "{persona}") persona (substitute (str "{name}") name prompt).

End settings.

(** * Round trip of the settings *)

Section round_trip.
Context {Double Float : Type} (integral : Double → bool) (to_i64 : Double → Z) (to_f32 : Double → Float) (of_f32 : Float → Double).
Context (literal : Z → Z → Double) (leb ltb : Double → Double → bool) (show_double : Double → bytes).
Context (of_Z : Z → Double) (whole : Z → Prop) (reread : Double → Double) (finite : Double → Prop).
Context (cjson_parse : bytes → Json.cJSON Double * nat + Z) (filesystem_error : bytes → path → bytes).
Context `{!ReadsFlatObjects show_double of_Z whole reread finite cjson_parse} `{!WholeDoubles integral to_i64 of_Z whole}.

Notation default_llm_settings := (default_llm_settings literal).
Notation validate := (validate_llm_settings literal leb ltb).

(** A number of the file: printed, read, and through [float]. *)
Definition stored (x : Double) : Double := of_f32 (to_f32 (reread x)).

Definition reloaded_settings (s : LlmSettings Double) : LlmSettings Double :=
  s <| temperature := stored (temperature s) |> <| top_p := stored (top_p s) |> <| repeat_penalty := stored (repeat_penalty s) |>.

Definition settings_fields (s : LlmSettings Double) : list (bytes * scalar Double) :=
  [(str "temperature", Decimal (temperature s)); (str "top_p", Decimal (top_p s));
   (str "repeat_penalty", Decimal (repeat_penalty s)); (str "max_tokens", Integer (max_tokens s));
   (str "length_ramp", Flag (length_ramp s))] ++ text_field (str "model") (model s).

Lemma settings_text_flat s :
  settings_text show_double s = object_text show_double (str "master_prompt", Text (master_prompt s)) (settings_fields s).
Proof.
  unfold settings_text, object_text, settings_fields. rewrite map_app, concat_app, (text_member_field show_double), text_member_text.
  cbn [map concat]. rewrite app_nil_r. unfold plain_member, member_text. cbn [fst snd]. unfold quote.
  change (str (String.String (Ascii.ascii_of_nat 34) ":")) with [34; 58]%Z. change (str ":") with [58%Z].
  rewrite <- !app_assoc. cbn [app]. by destruct (length_ramp s).
Qed.

Record settings_ok (s : LlmSettings Double) : Prop := {
  settings_valid : validate s = Ok tt;
  settings_numbers : Forall finite [temperature s; top_p s; repeat_penalty s];
  settings_texts : storable_text (master_prompt s) ∧ storable_text (model s);
}.

Lemma valid_tokens s : validate s = Ok tt → (16 <= max_tokens s <= 1024)%Z.
Proof.
  unfold validate_llm_settings. repeat case_match; try done. intros _.
  match goal with H : _ || _ = false |- _ => apply orb_false_iff in H as [?%Z.ltb_ge ?%Z.ltb_ge] end. lia.
Qed.

Notation object_of s :=
  (Json.Object (map (λ m : bytes * scalar Double, (m.1, value_of of_Z reread m.2))
     ((str "master_prompt", Text (master_prompt s)) :: settings_fields s))).

Lemma parse_settings s : settings_ok s → Json.parse cjson_parse (settings_text show_double s) = Ok (object_of s).
Proof.
  intros [Hv Hn [Hp Hm]]. pose proof (valid_tokens s Hv) as Ht. rewrite !Forall_cons in Hn. destruct Hn as (H1 & H2 & H3 & _).
  rewrite settings_text_flat. apply (parse_object show_double of_Z whole reread finite); [done| |].
  - unfold settings_fields. repeat (apply Forall_cons; split; [split; [by apply key_ok_text|cbn [scalar_ok snd]; (done || (split; [lia|apply (whole_small integral to_i64 of_Z whole); lia]))]|]).
    by apply text_field_ok; [apply key_ok_text|].
  - unfold settings_fields, text_field. case_bool_decide; apply (bool_decide_unpack _); by vm_compute.
Qed.

Lemma settings_of_object s :
  validate s = Ok tt → settings_of integral to_i64 to_f32 of_f32 literal (object_of s) = Ok (reloaded_settings s).
Proof.
  intros Hv. pose proof (valid_tokens s Hv) as Ht. unfold settings_of.
  change (stored_number to_f32 of_f32 (object_of s) (str "temperature") _) with (Ok (stored (temperature s))).
  change (stored_number to_f32 of_f32 (object_of s) (str "top_p") _) with (Ok (stored (top_p s))).
  change (stored_number to_f32 of_f32 (object_of s) (str "repeat_penalty") _) with (Ok (stored (repeat_penalty s))).
  cbn [mbind outcome_bind]. rewrite Json.optional_i64_spec.
  change (Json.find (object_of s) (str "max_tokens")) with (Some (Json.Number (of_Z (max_tokens s)))). cbn iota.
  pose proof (whole_small integral to_i64 of_Z whole (max_tokens s)) as Hw.
  rewrite (whole_integral integral to_i64 of_Z whole _), (whole_i64 integral to_i64 of_Z whole _) by (lia || apply Hw; lia). cbn [mbind outcome_bind].
  change (Json.find (object_of s) (str "length_ramp")) with (Some (Json.Bool (Double := Double) (length_ramp s))). cbn iota.
  assert (Json.optional_string (object_of s) (str "model") (model default_llm_settings) = model s) as ->; [|by destruct s].
  unfold settings_fields. unfold text_field. case_bool_decide as Hm; [|done]. by rewrite Hm.
Qed.

(** Settings that were saved are loaded as they are, their numbers as the
    file holds them: printed with [ostream]'s digits and read through [float];
    that is refused exactly when the rounded numbers are out of range. *)
Theorem settings_reload t t' directory s :
  settings_ok s →
  save_llm_settings literal leb ltb show_double filesystem_error t directory s = Ok t' →
  load_llm_settings integral to_i64 to_f32 of_f32 literal leb ltb cjson_parse t' directory =
    (_ ← validate (reloaded_settings s); Ok (reloaded_settings s)) ∧
  (∀ p, p ≠ path_join directory (str "llm.json") → files t' !! p = files t !! p).
Proof.
  intros Hok. pose proof (settings_valid _ Hok) as Hv. unfold save_llm_settings. rewrite Hv. cbn [mbind outcome_bind].
  destruct (create_dirs filesystem_error t directory) as [t1|] eqn:Hd; [|done]. cbn [mbind outcome_bind].
  destruct (write_file t1 _ _) as [t2|] eqn:Hw; [|done]. intros [= <-].
  pose proof (write_file_lookup _ _ _ _ Hw) as Hf. split.
  - unfold load_llm_settings, read_file. rewrite Hf, decide_True by done.
    rewrite parse_settings by done. cbn [mbind outcome_bind]. by rewrite settings_of_object.
  - intros p Hp. rewrite Hf, decide_False by done. f_equal. by eapply create_dirs_files.
Qed.

End round_trip.

(** * The master prompt *)

(** A template as it is written: texts without braces and the two placeholders. *)
Inductive piece := Words (s : bytes) | NameHere | PersonaHere.

Definition no_brace (s : bytes) : Prop := Forall (λ c, c ≠ ch "{") s.

Definition piece_ok (p : piece) : Prop := match p with Words s => no_brace s | _ => True end.

Definition fill (name persona : bytes) (p : piece) : bytes :=
  match p with Words s => s | NameHere => name | PersonaHere => persona end.

Definition filled (name persona : bytes) (ps : list piece) : bytes := concat (map (fill name persona) ps).

Definition template (ps : list piece) : bytes := filled (str "{name}") (str "{persona}") ps.

(** What is put in front of a template that does not mention the persona. *)
Definition introduction : list piece := [Words (str "You are "); NameHere; Words (str ". "); PersonaHere; Words [10; 10]%Z].

Definition mentions_persona (ps : list piece) : bool := existsb (λ p, match p with PersonaHere => true | _ => false end) ps.

Definition introduced (persona : bytes) (ps : list piece) : list piece :=
  if bool_decide (persona = []) || mentions_persona ps then ps else introduction ++ ps.

Section substitution.
Context (placeholder value : bytes).

(** A text no occurrence of the placeholder begins in, whatever follows it. *)
Definition skips (s : bytes) : Prop := ∀ t, find_sub placeholder (s ++ t) = (λ i, length s + i) <$> find_sub placeholder t.

Lemma skips_nil : skips [].
Proof. intros t. cbn. by destruct (find_sub placeholder t). Qed.

Lemma skips_app s1 s2 : skips s1 → skips s2 → skips (s1 ++ s2).
Proof.
  intros H1 H2 t. rewrite <- app_assoc, H1, H2, length_app.
  destruct (find_sub placeholder t); cbn; [|done]. f_equal. lia.
Qed.

(** Texts to skip, and holes. *)
Definition text_of (hole : bytes) (segments : list (option bytes)) : bytes := concat (map (default hole) segments).

Definition skippable (o : option bytes) : Prop := match o with Some s => skips s | None => True end.

Context (Hne : placeholder ≠ []).

Lemma find_here t : find_sub placeholder (placeholder ++ t) = Some 0.
Proof.
  clear value. destruct placeholder as [|c p] eqn:E; [done|]. rewrite <- E. cbn [app].
  assert (is_prefix placeholder (placeholder ++ t) = true) as H by apply is_prefix_app.
  destruct (placeholder ++ t) eqn:E2; [by rewrite E in E2|]. cbn [find_sub]. by rewrite H.
Qed.

Lemma find_nothing : find_sub placeholder [] = None.
Proof. by destruct placeholder. Qed.

Lemma find_from_length before s : find_from placeholder (before ++ s) (length before) = Nat.add (length before) <$> find_sub placeholder s.
Proof. unfold find_from. rewrite length_app, (proj2 (Nat.leb_le _ _)) by lia. by rewrite drop_app_length. Qed.

Lemma splice (d r : bytes) :
  take (length d) (d ++ placeholder ++ r) ++ value ++ drop (length d + length placeholder) (d ++ placeholder ++ r) =
  (d ++ value) ++ r.
Proof. by rewrite take_app_length, (app_assoc d placeholder), <- length_app, drop_app_length, <- app_assoc. Qed.

Lemma substitute_segments segments : ∀ fuel before lit,
  skips lit → Forall skippable segments → length (text_of placeholder segments) < fuel →
  substitute_loop fuel placeholder value (before ++ lit ++ text_of placeholder segments) (length before) =
  before ++ lit ++ text_of value segments.
Proof.
  induction segments as [|[s|] segments IH]; intros fuel before lit Hl Hs Hf;
    destruct fuel as [|fuel]; try lia.
  - unfold text_of. cbn [map concat substitute_loop]. by rewrite find_from_length, Hl, find_nothing.
  - apply Forall_cons in Hs as [Hs Hss]. unfold text_of in *. cbn [map concat default] in *.
    rewrite !(app_assoc lit). apply IH; [by apply skips_app|done|]. rewrite length_app in Hf. lia.
  - apply Forall_cons in Hs as [_ Hss]. unfold text_of in *. cbn [map concat default] in *.
    cbn [substitute_loop]. rewrite find_from_length, Hl, find_here. cbn [fmap option_fmap option_map].
    rewrite Nat.add_0_r.
    rewrite <- length_app, (app_assoc before lit), splice, <- length_app.
    change (concat (map (default placeholder) segments)) with ([] ++ concat (map (default placeholder) segments)).
    rewrite IH; [by rewrite <- !app_assoc|apply skips_nil|done|].
    rewrite length_app in Hf. destruct placeholder; [done|]. cbn [length] in *. lia.
Qed.

Lemma substitute_text segments :
  Forall skippable segments → substitute placeholder value (text_of placeholder segments) = text_of value segments.
Proof.
  intros Hs. unfold substitute. apply (substitute_segments segments _ [] []); [apply skips_nil|done|lia].
Qed.

Lemma find_text_of segments :
  Forall skippable segments → is_Some (find_sub placeholder (text_of placeholder segments)) ↔ None ∈ segments.
Proof.
  induction 1 as [|[s|] segments Hs _ IH]; unfold text_of in *; cbn [map concat default].
  - rewrite find_nothing. split; [by intros []|intros H; by apply not_elem_of_nil in H].
  - rewrite Hs, fmap_is_Some, IH, elem_of_cons. naive_solver.
  - rewrite find_here, elem_of_cons. split; [by left|done].
Qed.

End substitution.

Lemma skips_no_brace p s : no_brace s → skips (ch "{" :: p) s.
Proof.
  intros Hs. induction Hs as [|c s Hc _ IH]; [apply skips_nil|]. intros t. cbn [app find_sub is_prefix].
  rewrite (proj2 (Z.eqb_neq _ _)) by congruence. cbn [andb]. rewrite IH.
  by destruct (find_sub (ch "{" :: p) t).
Qed.

Lemma skips_persona : skips (str "{name}") (str "{persona}").
Proof. intros t. cbn. by destruct (find_sub _ t). Qed.

Definition name_segment (p : piece) : option bytes :=
  match p with Words s => Some s | NameHere => None | PersonaHere => Some (str "{persona}") end.

Definition persona_segment (name : bytes) (p : piece) : option bytes :=
  match p with Words s => Some s | NameHere => Some name | PersonaHere => None end.

Lemma segments_text hole f (g : piece → bytes) ps :
  (∀ p, default hole (f p) = g p) → text_of hole (map f ps) = concat (map g ps).
Proof. intros H. unfold text_of. rewrite map_map. f_equal. by apply map_ext. Qed.

Lemma substitute_name name ps :
  Forall piece_ok ps → substitute (str "{name}") name (template ps) = filled name (str "{persona}") ps.
Proof.
  intros Hps. unfold template, filled.
  rewrite <- (segments_text (str "{name}") name_segment) by by intros [].
  rewrite substitute_text; [by apply segments_text; intros []|done|].
  apply Forall_map. eapply Forall_impl; [exact Hps|]. intros [s| |]; cbn; [apply skips_no_brace|done|].
  intros _. apply skips_persona.
Qed.

Lemma skippable_persona name ps :
  Forall piece_ok ps → no_brace name → Forall (skippable (str "{persona}")) (map (persona_segment name) ps).
Proof.
  intros Hps Hn. apply Forall_map. eapply Forall_impl; [exact Hps|].
  intros [s| |]; cbn; [apply skips_no_brace|intros _; by apply skips_no_brace|done].
Qed.

Lemma substitute_persona name persona ps :
  Forall piece_ok ps → no_brace name →
  substitute (str "{persona}") persona (filled name (str "{persona}") ps) = filled name persona ps.
Proof.
  intros Hps Hn. unfold filled.
  rewrite <- (segments_text (str "{persona}") (persona_segment name)) by by intros [].
  rewrite substitute_text; [by apply segments_text; intros []|done|by apply skippable_persona].
Qed.

Lemma template_mentions ps :
  Forall piece_ok ps → bool_decide (is_Some (find_sub (str "{persona}") (template ps))) = mentions_persona ps.
Proof.
  intros Hps. apply eq_bool_prop_intro. rewrite bool_decide_spec.
  assert (template ps = text_of (str "{persona}")
            (map (λ p, match p with NameHere => Some (str "{name}") | _ => persona_segment [] p end) ps)) as ->.
  { symmetry. unfold template. apply segments_text. by intros []. }
  rewrite find_text_of; [|done|].
  - unfold mentions_persona. rewrite Is_true_true, existsb_exists, list_elem_of_fmap.
    setoid_rewrite list_elem_of_In. split; intros (p & H1 & H2); exists p; by destruct p.
  - apply Forall_map. eapply Forall_impl; [exact Hps|]. intros [s| |]; cbn; [apply skips_no_brace| |done].
    intros _ t. cbn. by destruct (find_sub _ t).
Qed.

(** The prompt a character is played with is the template with the name
    and the persona in the places of their placeholders; a template that does not
    mention the persona is introduced with it, so that the model is always told
    who it plays. The persona's own text is not searched for placeholders,
    unless the introduction puts it into the template. *)
Theorem render_template {Double} (s : LlmSettings Double) ps name persona :
  master_prompt s = template ps → Forall piece_ok ps → no_brace name →
  (mentions_persona ps = false → no_brace persona) →
  render_master_prompt s name persona = filled name persona (introduced persona ps).
Proof.
  intros Hs Hps Hn Hp. unfold render_master_prompt, introduced. rewrite Hs, template_mentions by done.
  destruct (mentions_persona ps) eqn:Hm; cbn [negb].
  - rewrite andb_false_r, orb_true_r. by rewrite substitute_name, substitute_persona.
  - rewrite andb_true_r, orb_false_r. case_bool_decide as He; cbn [negb].
    { by rewrite substitute_name, substitute_persona. }
    specialize (Hp eq_refl). set (ps' := [Words (str "You are "); NameHere; Words (str ". "); Words persona; Words [10; 10]%Z] ++ ps).
    assert (str "You are {name}. " ++ persona ++ [10; 10]%Z ++ template ps = template ps') as ->.
    { unfold template, filled, ps'. rewrite map_app, concat_app. cbn. by rewrite <- !app_assoc. }
    assert (∀ w, Forall (λ c, negb (c =b ch "{") = true) w → no_brace w) as Hw.
    { intros w H. eapply Forall_impl; [exact H|]. intros c Hc. by apply Z.eqb_neq, negb_true_iff. }
    assert (Forall piece_ok ps') as Hps'.
    { apply Forall_app_2; [|done]. repeat (apply Forall_cons; split; [|]); try apply Forall_nil_2; try done.
      all: apply Hw; repeat (apply Forall_cons; split; [done|]); apply Forall_nil_2. }
    rewrite substitute_name, substitute_persona by done. unfold filled, ps', introduction.
    by rewrite !map_app, !concat_app.
Qed.

(** The pieces of a text, character by character. *)
Fixpoint pieces_of (fuel : nat) (s : bytes) : list piece :=
  match fuel, s with
  | S fuel, c :: rest =>
      if is_prefix (str "{name}") s then NameHere :: pieces_of fuel (drop 6 s)
      else if is_prefix (str "{persona}") s then PersonaHere :: pieces_of fuel (drop 9 s)
      else Words [c] :: pieces_of fuel rest
  | _, _ => []
  end.

Example default_prompt_is_template :
  let ps := pieces_of (length default_master_prompt) default_master_prompt in
  default_master_prompt = template ps ∧ Forall piece_ok ps ∧ mentions_persona ps = true.
Proof.
  split_and!; [by vm_compute| |by vm_compute].
  assert (forallb (λ p, match p with Words s => forallb (λ c, negb (c =b ch "{")) s | _ => true end)
            (pieces_of (length default_master_prompt) default_master_prompt) = true) as H by by vm_compute.
  apply List.Forall_forall. intros p Hp. rewrite forallb_forall in H. specialize (H p Hp). destruct p as [s| |]; [|done..].
  apply List.Forall_forall. intros c Hc. rewrite forallb_forall in H. by apply Z.eqb_neq, negb_true_iff, H.
Qed.

Lemma render_template_witness :
  render_master_prompt {| master_prompt := str "Speak as {name} would."; temperature := 0%Z; top_p := 1%Z;
    repeat_penalty := 1%Z; max_tokens := 140; length_ramp := true; model := [] |} (str "Ada") (str "You count.") =
  str "You are Ada. You count." ++ [10; 10]%Z ++ str "Speak as Ada would.".
Proof.
  cbn zeta. rewrite (render_template _ [Words (str "Speak as "); NameHere; Words (str " would.")]); try done.
  - repeat (apply Forall_cons; split; [|]); try apply Forall_nil_2; try done; repeat (apply Forall_cons; split; [done|]); apply Forall_nil_2.
  - repeat (apply Forall_cons; split; [done|]); apply Forall_nil_2.
  - intros _. repeat (apply Forall_cons; split; [done|]); apply Forall_nil_2.
Defined.
