(* ===== verification/CharacterStore.v ===== *)
(** The characters of a running server (app/server/runtime.cpp): which one is
    active, its voice in the model that speaks, its files and the library, and the
    requests that read and change them. One request is served at a time. *)

From S2P Require Import Prelude FileTree FlatJson Character RoleplayModel.
From S2P Require Json HttpRequest Multipart.
From stdpp Require Import gmap sorting.

(** * State *)

Section types.
Context {Audio : Type}.

Record RuntimeVoicePreset := {
  voice_id : option bytes;
  audio : option Audio;
  reference_text : option bytes;
}.

(** Of [LoadedModel] what gives the character a voice. *)
Record LoadedModel := {
  task : bytes;
  voice_presets : gmap bytes RuntimeVoicePreset;
  default_voice_preset : option RuntimeVoicePreset;
}.
End types.
Arguments RuntimeVoicePreset : clear implicits.
Arguments LoadedModel : clear implicits.

#[export] Instance LoadedModel_settable {Audio} : Settable (LoadedModel Audio) := fun r =>
  {| task := task r; voice_presets := voice_presets r; default_voice_preset := default_voice_preset r |}.

(** Of [ServerState] the files below it, [character_], [llm_settings_] and the
    models; [warmed] lists the bodies whose prewarming was requested. *)
Record ServerState {Audio Double : Type} := {
  disk : tree;
  character_ : CharacterConfig;
  llm_settings_ : LlmSettings Double;
  models_ : list (LoadedModel Audio);
  warmed : list bytes;
}.
Arguments ServerState : clear implicits.

#[export] Instance ServerState_settable {Audio Double} : Settable (ServerState Audio Double) := fun r =>
  {| disk := disk r; character_ := character_ r; llm_settings_ := llm_settings_ r; models_ := models_ r; warmed := warmed r |}.

Definition kNoteRule : bytes :=
  10%Z :: str "Some user messages end with a bracketed note like [reply in English]. " ++
  str "That note is stage direction for you alone: follow it exactly, never " ++
  str "mention it, never quote it, and never write bracketed notes yourself.".

(** [std::filesystem::path(s).extension()]. *)
Definition extension (s : bytes) : bytes :=
  let file := match rfind_char (ch "/") s with Some i => drop (S i) s | None => s end in
  if bool_decide (file = str ".") || bool_decide (file = str "..") then []
  else match rfind_char (ch ".") file with
  | None | Some O => []
  | Some i => drop i file
  end.

Definition is_wav_upload_filename (filename : bytes) : bool :=
  let ext := map to_lower (extension filename) in
  bool_decide (ext = []) || bool_decide (ext = str ".wav").

Section server.
(** [double], the parser and printer of JSON strings, the exceptions of
    std::filesystem, the order its directory iterator keeps, the reader of a
    recording (with its conversion to 24 kHz mono), and the configuration. *)
Context {Double Audio : Type} (integral : Double → bool) (to_i64 : Double → Z).
Context (cjson_parse : bytes → Json.cJSON Double * nat + Z) (json_quote : bytes → bytes).
Context (filesystem_error : bytes → path → bytes) (order : tree → path → list bytes).
Context (read_audio : path → option bytes → outcome Audio).
Context (character_dir : path) (llm_port : Z).

Notation app := (ServerState Audio Double).
Notation parse := (Json.parse cjson_parse).
Notation error_response := (HttpRequest.error_response json_quote).
Notation load_character := (load_character integral to_i64 cjson_parse).
Notation save_character := (save_character filesystem_error).
Notation json_response body := (HttpRequest.json_response body 200).

Definition io_throw {A} (what : bytes) : io app A := io_lift (Throw what).

Definition set_disk (t : tree) : io app () := io_modify (λ s, s <| disk := t |>).

(** [find_speech_model], as an index. *)
Fixpoint find_speech_model (models : list (LoadedModel Audio)) : option nat :=
  match models with
  | [] => None
  | m :: models => if bool_decide (task m = str "tts") then Some 0 else S <$> find_speech_model models
  end.

(** The voice of a character in a model. *)
Definition voice_of (t : tree) (model : LoadedModel Audio) (character : CharacterConfig) : outcome (RuntimeVoicePreset Audio) :=
  if is_custom character then
    let file := path_join character_dir (voice_file character) in
    audio ← read_audio file (read_file t file);
    Ok {| voice_id := None; audio := Some audio;
          reference_text := if bool_decide (transcript character = []) then None else Some (transcript character) |}
  else
    match voice_presets model !! preset character with
    | Some preset => Ok preset
    | None => Throw (str "character preset '" ++ preset character ++ str "' is not a configured voice preset")
    end.

Definition set_default (preset : RuntimeVoicePreset Audio) (model : LoadedModel Audio) : LoadedModel Audio :=
  model <| default_voice_preset := Some preset |>.

Definition apply_character (index : nat) (character : CharacterConfig) : io app () :=
  s ← io_get;
  match models_ s !! index with
  | None => mret tt
  | Some model =>
      preset ← io_lift (voice_of (disk s) model character);
      io_modify (λ s, s <| models_ := alter (set_default preset) index (models_ s) |>)
  end.

(** [fresh_llm_warm_body] and [warm_llm_system_prompt]. *)
Definition fresh_llm_warm_body (s : app) : bytes :=
  let system :=
    render_master_prompt (llm_settings_ s) (name (character_ s)) (persona (character_ s)) ++ kNoteRule ++
    length_guidance (llm_settings_ s) 0 in
  str "{" ++ quote ++ str "stream" ++ quote ++ str ":false," ++ quote ++ str "cache_prompt" ++ quote ++ str ":true," ++
  quote ++ str "max_tokens" ++ quote ++ str ":1," ++ quote ++ str "messages" ++ quote ++ str ":[{" ++
  quote ++ str "role" ++ quote ++ str ":" ++ quote ++ str "system" ++ quote ++ str "," ++ quote ++ str "content" ++ quote ++ str ":" ++
  json_quote system ++ str "},{" ++
  quote ++ str "role" ++ quote ++ str ":" ++ quote ++ str "user" ++ quote ++ str "," ++ quote ++ str "content" ++ quote ++ str ":" ++
  quote ++ str " " ++ quote ++ str "}]}".

Definition warm_llm_system_prompt : io app () :=
  if (llm_port <=? 0)%Z then mret tt
  else io_modify (λ s, s <| warmed := warmed s ++ [fresh_llm_warm_body s] |>).

(** ** Reading *)

Definition json_member (key value : bytes) : bytes := quote ++ key ++ quote ++ str ":" ++ value.

Definition quoted_list (items : list bytes) : bytes :=
  match map json_quote items with
  | [] => str "[]"
  | item :: items => str "[" ++ item ++ concat (map (λ item, str "," ++ item) items) ++ str "]"
  end.

Definition bytes_le (a b : bytes) : Prop := bytes_leb a b = true.
#[local] Instance bytes_le_dec a b : Decision (bytes_le a b) := decide (bytes_leb a b = true).

Definition preset_names (s : app) : list bytes :=
  match find_speech_model (models_ s) with
  | Some index =>
      match models_ s !! index with
      | Some model => merge_sort bytes_le (elements (dom (voice_presets model)))
      | None => []
      end
  | None => []
  end.

Definition source_of (c : CharacterConfig) : bytes := quote ++ (if is_custom c then str "custom" else str "preset") ++ quote.

Definition handle_character_get (s : app) : HttpRequest.HttpResponse :=
  let character := character_ s in
  json_response
    (str "{" ++ json_member (str "name") (json_quote (name character)) ++
     str "," ++ json_member (str "source") (source_of character) ++
     (if is_custom character then [] else str "," ++ json_member (str "preset") (json_quote (preset character))) ++
     (if bool_decide (transcript character = []) then [] else str "," ++ json_member (str "transcript") (json_quote (transcript character))) ++
     (if bool_decide (persona character = []) then [] else str "," ++ json_member (str "persona") (json_quote (persona character))) ++
     (if (0 <=? tts_seed character)%Z then str "," ++ json_member (str "tts_seed") (to_string (tts_seed character)) else []) ++
     str "," ++ json_member (str "available_presets") (quoted_list (preset_names s)) ++ str "}").

Definition handle_character_voice (s : app) : HttpRequest.HttpResponse :=
  let current := character_ s in
  if negb (is_custom current) then
    error_response 404 (str "the active character uses a bundled voice preset") (str "not_found")
  else
    match read_file (disk s) (path_join character_dir (voice_file current)) with
    | None => error_response 404 (str "the character recording is missing") (str "not_found")
    | Some contents =>
        {| HttpRequest.status := 200; HttpRequest.content_type := str "audio/wav"; HttpRequest.response_body := contents;
           HttpRequest.response_headers := [(str "Cache-Control", str "no-store")]; HttpRequest.stream_body := None |}
    end.

Definition library : path := path_join character_dir (str "library").

Definition library_entries (s : app) : list SavedCharacter :=
  list_character_library integral to_i64 cjson_parse (disk s) character_dir (order (disk s) library).

Definition entry_text (active_id : bytes) (entry : SavedCharacter) : bytes :=
  str "{" ++ json_member (str "id") (json_quote (id entry)) ++
  str "," ++ json_member (str "name") (json_quote (name (config entry))) ++
  str "," ++ json_member (str "source") (source_of (config entry)) ++
  (if is_custom (config entry) then [] else str "," ++ json_member (str "preset") (json_quote (preset (config entry)))) ++
  str "," ++ json_member (str "active") (if bool_decide (id entry = active_id) then str "true" else str "false") ++ str "}".

Definition handle_characters_list (s : app) : HttpRequest.HttpResponse :=
  let active_id := character_slug (name (character_ s)) in
  let entries :=
    match map (entry_text active_id) (library_entries s) with
    | [] => []
    | entry :: entries => entry ++ concat (map (λ entry, str "," ++ entry) entries)
    end in
  json_response
    (str "{" ++ json_member (str "active_id") (json_quote active_id) ++ str "," ++
     json_member (str "characters") (str "[" ++ entries ++ str "]}")).

(** ** Changing the character *)

Definition write_recording (file : path) (contents : bytes) : io app () :=
  s ← io_get;
  match write_file (disk s) file contents with
  | Some t => set_disk t
  | None => io_throw (str "could not write " ++ path_string file)
  end.

Definition make_directories (p : path) : io app () :=
  s ← io_get;
  t ← io_lift (create_dirs filesystem_error (disk s) p);
  set_disk t.

Definition save (directory : path) (character : CharacterConfig) : io app () :=
  s ← io_get;
  t ← io_lift (save_character (disk s) directory character);
  set_disk t.

Definition copy (from to : path) : io app () :=
  s ← io_get;
  match copy_file (disk s) from to with
  | Some t => set_disk t
  | None => io_throw (filesystem_error (str "cannot copy file") from)
  end.

(** One turn of the loop over the parts of the form. *)
Definition form_part (form : CharacterConfig * option Multipart.MultipartPart) (part : Multipart.MultipartPart) :
    CharacterConfig * option Multipart.MultipartPart :=
  let '(character, file_part) := form in
  let named (key : String.string) := bool_decide (Multipart.name part = str key) in
  let data := Multipart.data part in
  if named "file"%string || named "voice"%string then (character, Some part)
  else if named "name"%string then (character <| name := data |>, file_part)
  else if named "transcript"%string || named "reference_text"%string then (character <| transcript := data |>, file_part)
  else if named "persona"%string then (character <| persona := data |>, file_part)
  else if named "tts_seed"%string then
    (character <| tts_seed := match stoll data with Ok seed => seed | Throw _ => (-1)%Z end |>, file_part)
  else (character, file_part).

(** The branch of an uploaded recording. *)
Definition uploaded_character (request : HttpRequest.HttpRequest) (boundary : bytes) : io app CharacterConfig :=
  s ← io_get;
  let '(character, file_part) :=
    foldl form_part (new_character <| persona := persona (character_ s) |>, None)
      (Multipart.parse_multipart_body (HttpRequest.body request) boundary) in
  match file_part with
  | None => io_throw (str "a custom character voice requires a non-empty 'file' upload")
  | Some part =>
      if bool_decide (Multipart.data part = []) then
        io_throw (str "a custom character voice requires a non-empty 'file' upload")
      else if negb (is_wav_upload_filename (Multipart.filename part)) then
        io_throw (str "only WAV uploads are supported for the character voice")
      else
        sanitized ← io_lift (sanitize_character_name (name character));
        _ ← make_directories character_dir;
        _ ← write_recording (path_join character_dir (str "voice.wav")) (Multipart.data part);
        mret (character <| name := sanitized |> <| voice_file := str "voice.wav" |>)
  end.

(** The branch of a JSON body: the edits of the active character. *)
Definition edit_voice (body : Json.Value Double) (character : CharacterConfig) : CharacterConfig :=
  let edit_transcript :=
    match Json.find body (str "transcript") with
    | Some (Json.String text) => if is_custom character then character <| transcript := text |> else character
    | _ => character
    end in
  match Json.find body (str "preset") with
  | Some (Json.String p) =>
      if bool_decide (p = []) then edit_transcript
      else character <| preset := p |> <| voice_file := [] |> <| transcript := [] |>
  | _ => edit_transcript
  end.

Definition edit_persona (body : Json.Value Double) (character : CharacterConfig) : CharacterConfig :=
  match Json.find body (str "persona") with
  | Some (Json.String text) => character <| persona := text |>
  | _ => character
  end.

Definition edit_seed (body : Json.Value Double) (character : CharacterConfig) : outcome CharacterConfig :=
  match Json.find body (str "tts_seed") with
  | Some (Json.Number x) => seed ← Json.as_i64 integral to_i64 (Json.Number x); Ok (character <| tts_seed := seed |>)
  | _ => Ok character
  end.

Definition edited_character (text : bytes) (active : CharacterConfig) : outcome CharacterConfig :=
  body ← parse text;
  written ← Json.require_string body (str "name");
  sanitized ← sanitize_character_name written;
  character ← edit_seed body (edit_persona body (edit_voice body (active <| name := sanitized |>)));
  if bool_decide (preset character = []) && negb (is_custom character) then
    Throw (str "the character needs a voice: name a 'preset' or upload a recording")
  else Ok character.

Definition new_active (request : HttpRequest.HttpRequest) : io app CharacterConfig :=
  let content_type := default [] (HttpRequest.headers request !! str "content-type") in
  match Multipart.extract_multipart_boundary content_type with
  | Some boundary => uploaded_character request boundary
  | None => s ← io_get; io_lift (edited_character (HttpRequest.body request) (character_ s))
  end.

Definition store_character_in_library (character : CharacterConfig) : io app () :=
  let entry_dir := path_join library (character_slug (name character)) in
  _ ← make_directories entry_dir;
  if is_custom character then
    _ ← copy (path_join character_dir (voice_file character)) (path_join entry_dir (str "voice.wav"));
    save entry_dir (character <| voice_file := str "voice.wav" |>)
  else save entry_dir character.

Definition set_character (character : CharacterConfig) : io app () := io_modify (λ s, s <| character_ := character |>).

(** [try { ... } catch (const std::exception & ex) { return 400; }] *)
Definition attempt (m : io app CharacterConfig) : io app (CharacterConfig + HttpRequest.HttpResponse) :=
  io_catch (character ← m; mret (inl character))
    (λ what, mret (inr (error_response 400 what (str "invalid_request_error")))).

Definition no_speech_model : HttpRequest.HttpResponse :=
  error_response 400 (str "no TTS model is configured to give the character a voice") (str "invalid_request_error").

Definition handle_character_set (request : HttpRequest.HttpRequest) : io app HttpRequest.HttpResponse :=
  s ← io_get;
  match find_speech_model (models_ s) with
  | None => mret no_speech_model
  | Some index =>
      result ← attempt (character ← new_active request; _ ← apply_character index character; mret character);
      match result with
      | inr response => mret response
      | inl character =>
          _ ← save character_dir character;
          _ ← store_character_in_library character;
          _ ← set_character character;
          _ ← warm_llm_system_prompt;
          s ← io_get; mret (handle_character_get s)
      end
  end.

Definition body_id (body_text : bytes) : outcome bytes := body ← parse body_text; Json.require_string body (str "id").

Definition invalid_request (message : bytes) : HttpRequest.HttpResponse := error_response 400 message (str "invalid_request_error").

Definition missing_entry (id : bytes) : HttpRequest.HttpResponse := invalid_request (str "no saved character with id '" ++ id ++ str "'").

(** The branch that reads the entry and copies its recording. *)
Definition activated_character (entry_dir : path) : io app CharacterConfig :=
  s ← io_get;
  character ← io_lift (load_character (disk s) entry_dir);
  if is_custom character then
    _ ← copy (path_join entry_dir (voice_file character)) (path_join character_dir (str "voice.wav"));
    mret (character <| voice_file := str "voice.wav" |>)
  else mret character.

Definition handle_character_activate (body_text : bytes) : io app HttpRequest.HttpResponse :=
  s ← io_get;
  match find_speech_model (models_ s) with
  | None => mret no_speech_model
  | Some index =>
      id ← io_lift (body_id body_text);
      if negb (is_valid_character_id id) then mret (invalid_request (str "invalid character id"))
      else
        let entry_dir := path_join library id in
        if negb (exists_ (disk s) (path_join entry_dir kCharacterFile)) then mret (missing_entry id)
        else
          result ← attempt (character ← activated_character entry_dir; _ ← apply_character index character; mret character);
          match result with
          | inr response => mret response
          | inl character =>
              _ ← save character_dir character;
              _ ← set_character character;
              _ ← warm_llm_system_prompt;
              s ← io_get; mret (handle_character_get s)
          end
  end.

Definition handle_character_delete (body_text : bytes) : io app HttpRequest.HttpResponse :=
  id ← io_lift (body_id body_text);
  if negb (is_valid_character_id id) then mret (invalid_request (str "invalid character id"))
  else
    let entry_dir := path_join library id in
    s ← io_get;
    if negb (exists_ (disk s) entry_dir) then mret (missing_entry id)
    else
      _ ← set_disk (remove_all (disk s) entry_dir);
      s ← io_get; mret (handle_characters_list s).

(** ** Starting *)

(** The part of the constructor that brings the characters up: from the files
    and the models as they are loaded. *)
Definition loaded_or_default (t : tree) : CharacterConfig :=
  match load_character t character_dir with Ok character => character | Throw _ => default_character end.

Definition apply_or_default (index : nat) : io app () :=
  s ← io_get;
  io_catch (apply_character index (character_ s))
    (λ _, _ ← set_character default_character; apply_character index default_character).

Definition seed_library : io app () :=
  s ← io_get;
  io_catch (_ ← save character_dir (character_ s); store_character_in_library (character_ s)) (λ _, mret tt).

Definition start_characters : io app () :=
  _ ← io_modify (λ s, s <| character_ := loaded_or_default (disk s) |>);
  _ ← warm_llm_system_prompt;
  s ← io_get;
  match find_speech_model (models_ s) with
  | None => mret tt
  | Some index => _ ← apply_or_default index; seed_library
  end.

End server.
