(* ===== verification/ActiveCharacter.v ===== *)
(** What the requests of CharacterStore keep: a refused request changes nothing
    but possibly the recording, the active character survives a restart, and
    every character that was set can be activated again. *)

From S2P Require Import Prelude FileTree FlatJson Character RoleplayModel CharacterStore.
From S2P Require Json HttpRequest Multipart.
From stdpp Require Import gmap.

Section life.
Context {Double Audio : Type} (integral : Double → bool) (to_i64 : Double → Z).
Context (cjson_parse : bytes → Json.cJSON Double * nat + Z) (json_quote : bytes → bytes).
Context (filesystem_error : bytes → path → bytes) (order : tree → path → list bytes).
Context (read_audio : path → option bytes → outcome Audio).
Context (character_dir : path) (llm_port : Z).

Context (show_double : Double → bytes) (of_Z : Z → Double) (whole : Z → Prop) (reread : Double → Double) (finite : Double → Prop).
Context `{!ReadsFlatObjects show_double of_Z whole reread finite cjson_parse} `{!ReadsCStrings cjson_parse}.
Context `{!WholeDoubles integral to_i64 of_Z whole}.

(** A recording that is not there is not read. *)
Context (read_audio_missing : ∀ p, is_ok (read_audio p None) = false).

Notation app := (ServerState Audio Double).
Notation root := character_dir.
Notation library := (library character_dir).
Notation voice_of := (voice_of read_audio character_dir).
Notation storable := (storable whole).
Notation apply_character := (apply_character read_audio character_dir).
Notation save := (save filesystem_error).
Notation warm := (warm_llm_system_prompt json_quote llm_port).
Notation new_active := (new_active integral to_i64 cjson_parse filesystem_error character_dir).
Notation uploaded_character := (uploaded_character filesystem_error character_dir).
Notation handle_character_set := (handle_character_set integral to_i64 cjson_parse json_quote filesystem_error read_audio character_dir llm_port).
Notation handle_character_activate := (handle_character_activate integral to_i64 cjson_parse json_quote filesystem_error read_audio character_dir llm_port).
Notation handle_character_delete := (handle_character_delete integral to_i64 cjson_parse json_quote order character_dir).
Notation load_character := (load_character integral to_i64 cjson_parse).

(** * The paths of the store *)

Definition kVoiceFile : bytes := str "voice.wav".

Definition entry (id : bytes) : path := root ++ [str "library"; id].
Definition recording : path := root ++ [kVoiceFile].
Definition store_text : path := root ++ [kCharacterFile].

Definition store_dir (d : path) : Prop := d = root ∨ ∃ id, d = entry id.
Definition store_file (p : path) : Prop := ∃ d f, store_dir d ∧ f ∈ [kCharacterFile; kVoiceFile] ∧ p = d ++ [f].

(** The directories of the store are no files and its files no directories. *)
Record paths_ok (t : tree) : Prop := {
  no_file_above d q : store_dir d → q ∈ prefixes d → files t !! q = None;
  no_dir_there p : store_file p → p ∉ dirs t;
}.

Lemma not_above p d : store_file p → store_dir d → p ∉ prefixes d.
Proof.
  intros (d' & f & Hd' & Hf & ->) Hd (n & Hn & E)%elem_of_prefixes.
  assert (∃ rest, d' ++ f :: rest = d) as [rest Hr].
  { exists (drop n d). rewrite <- (take_drop_eq n d) at 2. rewrite <- E, <- app_assoc. done. }
  clear E Hn. apply elem_of_cons in Hf.
  assert (f ≠ str "library") as Hl by (destruct Hf as [->| ->%list_elem_of_singleton]; done).
  destruct Hd' as [->|[id' ->]], Hd as [->|[id ->]]; unfold entry in Hr.
  - apply (f_equal length) in Hr. rewrite length_app in Hr. cbn in Hr. lia.
  - apply app_inv_head in Hr. congruence.
  - apply (f_equal length) in Hr. rewrite !length_app in Hr. cbn in Hr. lia.
  - apply (f_equal length) in Hr. rewrite !length_app in Hr. cbn in Hr. lia.
Qed.

Lemma file_in d f : store_dir d → f ∈ [kCharacterFile; kVoiceFile] → store_file (d ++ [f]).
Proof. intros. by exists d, f. Qed.

Lemma root_dir : store_dir root.
Proof. by left. Qed.

Lemma entry_dir id : store_dir (entry id).
Proof. right. by exists id. Qed.

Lemma is_character_file : kCharacterFile ∈ [kCharacterFile; kVoiceFile].
Proof. by left. Qed.

Lemma is_voice_file : kVoiceFile ∈ [kCharacterFile; kVoiceFile].
Proof. right. by left. Qed.

#[local] Hint Resolve file_in root_dir entry_dir is_character_file is_voice_file : core.

Lemma join_character d : path_join d kCharacterFile = d ++ [kCharacterFile].
Proof. apply join_name. split; [done|]. apply (bool_decide_unpack _). by vm_compute. Qed.

Lemma join_voice d : path_join d kVoiceFile = d ++ [kVoiceFile].
Proof. apply join_name. split; [done|]. apply (bool_decide_unpack _). by vm_compute. Qed.

Lemma join_entry id : file_name id → path_join library id = entry id.
Proof.
  intros Hid. rewrite join_name by done. unfold CharacterStore.library.
  rewrite join_name; [by rewrite <- app_assoc|]. split; [done|]. apply (bool_decide_unpack _). by vm_compute.
Qed.

(** ** Directories and files of the store *)

Lemma store_create t d :
  paths_ok t → store_dir d →
  ∃ t', create_dirs filesystem_error t d = Ok t' ∧ files t' = files t ∧ paths_ok t' ∧ d ∈ dirs t' ∧ dirs t ⊆ dirs t'.
Proof.
  intros [Hf Hd] Hsd. unfold create_dirs. destruct (create_directories t d) as [t'|] eqn:E.
  - apply create_directories_Some in E as [-> _]. eexists. split_and!; [done|done| | |]; cbn [dirs].
    + split; [done|]. intros p Hp. cbn [dirs]. rewrite elem_of_union, elem_of_list_to_set.
      intros [Hin|Hin]; [by eapply not_above|by eapply Hd].
    + apply elem_of_union_l, elem_of_list_to_set, elem_of_prefixes. exists (length d). split; [lia|]. by rewrite firstn_all.
    + apply union_subseteq_r.
  - unfold create_directories in E. destruct (existsb (is_file t) (prefixes d)) eqn:Ex; [|done].
    apply existsb_exists in Ex as (q & Hq & Hfq). unfold is_file in Hfq. apply bool_decide_eq_true in Hfq.
    rewrite (Hf d q Hsd) in Hfq; [by destruct Hfq|by apply list_elem_of_In].
Qed.

Lemma store_write t d f contents :
  paths_ok t → store_dir d → f ∈ [kCharacterFile; kVoiceFile] → d ∈ dirs t →
  ∃ t', write_file t (d ++ [f]) contents = Some t' ∧ files t' = <[d ++ [f] := contents]> (files t) ∧
        paths_ok t' ∧ dirs t' = dirs t.
Proof.
  intros [Hf Hd] Hsd Hin Hp. destruct (write_file t (d ++ [f]) contents) as [t'|] eqn:E.
  - apply write_file_Some in E as (-> & _ & _). eexists. split_and!; [done|done| |done].
    split; [|done]. intros d' q Hd' Hq. cbn [files].
    rewrite lookup_insert_ne; [by eapply Hf|]. intros <-. exact (not_above _ _ (file_in d f Hsd Hin) Hd' Hq).
  - unfold write_file, is_directory in E. rewrite bool_decide_eq_false_2 in E by by apply Hd, file_in.
    rewrite parent_snoc, bool_decide_eq_true_2 in E by done. done.
Qed.

Lemma store_copy t d f from contents :
  paths_ok t → store_dir d → f ∈ [kCharacterFile; kVoiceFile] → d ∈ dirs t →
  files t !! from = Some contents → from ≠ d ++ [f] →
  ∃ t', copy_file t from (d ++ [f]) = Some t' ∧ files t' = <[d ++ [f] := contents]> (files t) ∧
        paths_ok t' ∧ dirs t' = dirs t.
Proof.
  intros Ht Hd Hf Hin Hc Hne. unfold copy_file. rewrite Hc, bool_decide_eq_false_2 by done. by apply store_write.
Qed.

Lemma store_save t d c :
  paths_ok t → store_dir d →
  ∃ t', save_character filesystem_error t d c = Ok t' ∧
        files t' = <[d ++ [kCharacterFile] := character_text c]> (files t) ∧ paths_ok t' ∧ d ∈ dirs t' ∧ dirs t ⊆ dirs t'.
Proof.
  intros Ht Hd. destruct (store_create t d Ht Hd) as (t1 & E1 & Hf1 & Ht1 & Hin1 & Hs1).
  destruct (store_write t1 d kCharacterFile (character_text c)) as (t2 & E2 & Hf2 & Ht2 & Hs2); [done..|].
  exists t2. unfold save_character. rewrite E1. cbn [mbind outcome_bind]. rewrite join_character, E2.
  split_and!; [done|by rewrite Hf2, Hf1|done|by rewrite Hs2|by rewrite Hs2].
Qed.

Lemma store_read t p : paths_ok t → store_file p → read_file t p = files t !! p.
Proof.
  intros Ht Hp. unfold read_file, is_directory. rewrite bool_decide_eq_false_2 by by apply (no_dir_there t Ht).
  by destruct (files t !! p).
Qed.

(** ** The steps of the handlers *)

Definition with_disk (s : app) (t : tree) : app := s <| disk := t |>.

Lemma make_directories_run s d :
  paths_ok (disk s) → store_dir d →
  ∃ t, make_directories filesystem_error d s = (Ok tt, with_disk s t) ∧ files t = files (disk s) ∧ paths_ok t ∧
       d ∈ dirs t ∧ dirs (disk s) ⊆ dirs t.
Proof.
  intros Ht Hd. destruct (store_create (disk s) d Ht Hd) as (t & E & H). exists t. split; [|done].
  unfold make_directories. by rewrite io_bind_get, E.
Qed.

Lemma save_run s d c :
  paths_ok (disk s) → store_dir d →
  ∃ t, save d c s = (Ok tt, with_disk s t) ∧ files t = <[d ++ [kCharacterFile] := character_text c]> (files (disk s)) ∧
       paths_ok t ∧ d ∈ dirs t ∧ dirs (disk s) ⊆ dirs t.
Proof.
  intros Ht Hd. destruct (store_save (disk s) d c Ht Hd) as (t & E & H). exists t. split; [|done].
  unfold CharacterStore.save. by rewrite io_bind_get, E.
Qed.

Lemma copy_run s d f from contents :
  paths_ok (disk s) → store_dir d → f ∈ [kCharacterFile; kVoiceFile] → d ∈ dirs (disk s) →
  files (disk s) !! from = Some contents → from ≠ d ++ [f] →
  ∃ t, copy filesystem_error from (d ++ [f]) s = (Ok tt, with_disk s t) ∧
       files t = <[d ++ [f] := contents]> (files (disk s)) ∧ paths_ok t ∧ dirs t = dirs (disk s).
Proof.
  intros Ht Hd Hf Hin Hc Hne. destruct (store_copy (disk s) d f from contents) as (t & E & H); [done..|].
  exists t. split; [|done]. unfold copy. by rewrite io_bind_get, E.
Qed.

(** ** Characters the store keeps *)

Definition own_recording (c : CharacterConfig) : Prop := voice_file c = [] ∨ voice_file c = kVoiceFile.

(** What every request sees to: a name that is clean, a voice, and the recording the server
    writes. *)
Record kept (c : CharacterConfig) : Prop := {
  kept_name : sanitize_character_name (name c) = Ok (name c);
  kept_voice : preset c ≠ [] ∨ voice_file c ≠ [];
  kept_recording : own_recording c;
}.

(** What no request sees to: whether the texts of a character and its seed are the same when
    they are read again. Texts come back up to their first NUL, and a seed as the double that
    is nearest to it. *)
Record rereadable (c : CharacterConfig) : Prop := {
  rereadable_texts : Forall storable_text [name c; preset c; voice_file c; transcript c; persona c];
  rereadable_seed : (0 <= tts_seed c)%Z → whole (tts_seed c);
}.

Lemma kept_storable c : kept c → rereadable c → storable c.
Proof. intros [H1 H2 _] [H3 H4]. by split. Qed.

Lemma custom_recording c : own_recording c → is_custom c = true → path_join root (voice_file c) = recording.
Proof. intros [Hv|Hv]; unfold is_custom; rewrite Hv; [done|]. intros _. by apply join_voice. Qed.

Lemma sanitize_length written n : sanitize_character_name written = Ok n → length n ≤ kMaxNameLength.
Proof.
  unfold sanitize_character_name. case_bool_decide; [done|].
  destruct (Nat.ltb_spec kMaxNameLength (length (trim written))); [done|]. intros [= <-]. lia.
Qed.

Lemma kept_slug c : kept c → file_name (character_slug (name c)).
Proof.
  intros [Hn _ _]. apply valid_file_name, slug_valid. apply sanitize_length in Hn. unfold kMaxNameLength in *. lia.
Qed.

Lemma entry_not_root id f g : entry id ++ [f] ≠ root ++ [g].
Proof. unfold entry. rewrite <- app_assoc. intros H%app_inv_head. done. Qed.

Lemma entry_inj id1 f1 id2 f2 : entry id1 ++ [f1] = entry id2 ++ [f2] → id1 = id2 ∧ f1 = f2.
Proof. unfold entry. rewrite <- !app_assoc. intros H%app_inv_head. by simplify_eq. Qed.

(** The voice of a character depends on the recording alone. *)
Lemma voice_of_same t t' m c :
  paths_ok t → paths_ok t' → own_recording c → files t !! recording = files t' !! recording →
  voice_of t m c = voice_of t' m c.
Proof.
  intros Ht Ht' Hc Hf. unfold CharacterStore.voice_of. destruct (is_custom c) eqn:E; [|done].
  rewrite custom_recording by done. unfold recording in *. by rewrite !store_read, Hf by auto.
Qed.

Lemma voice_of_recorded t m c v :
  paths_ok t → own_recording c → is_custom c = true → voice_of t m c = Ok v →
  ∃ data, files t !! recording = Some data.
Proof.
  intros Ht Hc E. unfold CharacterStore.voice_of. rewrite E, custom_recording by done. unfold recording.
  rewrite store_read by auto. destruct (files t !! _) as [data|]; [by eexists|].
  pose proof (read_audio_missing (root ++ [kVoiceFile])) as Hm. by destruct (read_audio _ None).
Qed.

(** What is stored for a character under an id. *)
Record entry_holds (t : tree) (id : bytes) (c : CharacterConfig) (data : option bytes) : Prop := {
  entry_text : files t !! (entry id ++ [kCharacterFile]) = Some (character_text c);
  entry_voice : is_custom c = true → is_Some data ∧ files t !! (entry id ++ [kVoiceFile]) = data;
}.

(** ** Storing in the library *)

Lemma store_in_library_run s c :
  paths_ok (disk s) → kept c → (is_custom c = true → is_Some (files (disk s) !! recording)) →
  ∃ t, store_character_in_library filesystem_error character_dir c s = (Ok tt, with_disk s t) ∧
       paths_ok t ∧ dirs (disk s) ⊆ dirs t ∧
       entry_holds t (character_slug (name c)) c (files (disk s) !! recording) ∧
       (∀ f, files t !! (root ++ [f]) = files (disk s) !! (root ++ [f])) ∧
       (∀ id f, id ≠ character_slug (name c) → files t !! (entry id ++ [f]) = files (disk s) !! (entry id ++ [f])).
Proof.
  intros Ht Hk Hr. pose proof (kept_slug c Hk) as Hid. set (slug := character_slug (name c)) in *.
  destruct (make_directories_run s (entry slug)) as (t1 & E1 & Hf1 & Ht1 & Hin1 & Hs1); [done..|by auto|].
  unfold store_character_in_library. fold slug. rewrite join_entry by done. rewrite (io_bind_Ok _ _ _ _ _ E1).
  destruct Hk as [_ _ Ho]. destruct (is_custom c) eqn:Ec.
  - destruct (Hr eq_refl) as [data Hdata]. rewrite custom_recording by done.
    change (path_join (entry slug) (str "voice.wav")) with (path_join (entry slug) kVoiceFile). rewrite join_voice.
    destruct (copy_run (with_disk s t1) (entry slug) kVoiceFile recording data) as (t2 & E2 & Hf2 & Ht2 & Hs2); auto.
    { change (files t1 !! recording = Some data). by rewrite Hf1. }
    { intros H. symmetry in H. by eapply entry_not_root. }
    rewrite (io_bind_Ok _ _ _ _ _ E2). assert (c <| voice_file := str "voice.wav" |> = c) as ->.
    { destruct Ho as [Hv|Hv]; [unfold is_custom in Ec; by rewrite Hv in Ec|]. destruct c. cbn in Hv. by subst. }
    destruct (save_run (with_disk (with_disk s t1) t2) (entry slug) c) as (t3 & E3 & Hf3 & Ht3 & _ & Hs3); auto.
    change (disk (with_disk _ t2)) with t2 in *. change (disk (with_disk s t1)) with t1 in *.
    exists t3. rewrite E3. split_and!; [done|done| | | |].
    + etrans; [exact Hs1|]. by rewrite <- Hs2.
    + split; [by rewrite Hf3, lookup_insert_eq|]. intros _. rewrite Hdata. split; [by eexists|].
      rewrite Hf3, lookup_insert_ne; [by rewrite Hf2, lookup_insert_eq|]. by intros [_ H]%entry_inj.
    + intros f. rewrite Hf3, lookup_insert_ne by apply entry_not_root.
      rewrite Hf2, lookup_insert_ne by apply entry_not_root. by rewrite Hf1.
    + intros id f Hne. rewrite Hf3, lookup_insert_ne by by intros [? _]%entry_inj.
      rewrite Hf2, lookup_insert_ne by by intros [? _]%entry_inj. by rewrite Hf1.
  - destruct (save_run (with_disk s t1) (entry slug) c) as (t3 & E3 & Hf3 & Ht3 & _ & Hs3); auto.
    change (disk (with_disk s t1)) with t1 in *. exists t3. rewrite E3. split_and!; [done|done| | | |].
    + by etrans; [exact Hs1|].
    + split; [by rewrite Hf3, lookup_insert_eq|by rewrite Ec].
    + intros f. rewrite Hf3, lookup_insert_ne by apply entry_not_root. by rewrite Hf1.
    + intros id f Hne. rewrite Hf3, lookup_insert_ne by by intros [? _]%entry_inj. by rewrite Hf1.
Qed.

(** ** A running server *)

Record running (s : app) : Prop := {
  run_paths : paths_ok (disk s);
  run_root : root ∈ dirs (disk s);
  run_kept : kept (character_ s);
  run_model : is_Some (find_speech_model (models_ s));
}.

(** What proposing a character does to the files: at most the recording is replaced. *)
Record touched (t t' : tree) (data : option bytes) : Prop := {
  touched_paths : paths_ok t';
  touched_dirs : dirs t ⊆ dirs t';
  touched_files : files t' = match data with Some data => <[recording := data]> (files t) | None => files t end;
}.

(** A program that proposes a character, or fails before it replaces the recording. *)
Definition proposes (m : io app CharacterConfig) (s : app) : Prop :=
  ∃ o t data, m s = (o, with_disk s t) ∧ touched (disk s) t data ∧
    match o with
    | Ok c => kept c ∧ (is_Some data → is_custom c = true)
    | Throw _ => data = None
    end.

Lemma touched_same t : paths_ok t → touched t t None.
Proof. by split. Qed.

Lemma with_disk_same (s : app) : with_disk s (disk s) = s.
Proof. by destruct s. Qed.

Lemma proposes_pure (m : io app CharacterConfig) s o :
  paths_ok (disk s) → m s = (o, s) → (∀ c, o = Ok c → kept c) → proposes m s.
Proof.
  intros Hp E Hk. exists o, (disk s), None. rewrite with_disk_same. split_and!; [done|by apply touched_same|].
  destruct o; [|done]. split; [by apply Hk|]. by intros [? [=]].
Qed.

Lemma find_model_lookup (models : list (LoadedModel Audio)) i : find_speech_model models = Some i → ∃ m, models !! i = Some m.
Proof.
  revert i. induction models as [|m models IH]; intros i; cbn [find_speech_model]; [done|].
  case_bool_decide; [intros [= <-]; by exists m|]. intros (j & Hj & ->)%fmap_Some. exact (IH j Hj).
Qed.

Lemma find_model_alter (f : LoadedModel Audio → LoadedModel Audio) i models :
  (∀ m, task (f m) = task m) → find_speech_model (alter f i models) = find_speech_model models.
Proof.
  intros Hf. revert i. induction models as [|m models IH]; intros [|i]; cbn [alter list_alter find_speech_model]; [done|done| |].
  - by rewrite Hf.
  - case_bool_decide; [done|]. f_equal. apply IH.
Qed.

Definition with_voice (s : app) (i : nat) (v : RuntimeVoicePreset Audio) : app :=
  s <| models_ := alter (set_default v) i (models_ s) |>.

Lemma apply_run s i m c :
  models_ s !! i = Some m →
  apply_character i c s =
  match voice_of (disk s) m c with Ok v => (Ok tt, with_voice s i v) | Throw what => (Throw what, s) end.
Proof.
  intros Hm. unfold CharacterStore.apply_character. rewrite io_bind_get, Hm. by destruct (voice_of (disk s) m c).
Qed.

(** Trying a proposal: it is accepted with its voice, or refused; the recording
    is replaced for a refused one only by data the audio reader refused. *)
Lemma attempt_run m s i model :
  proposes m s → models_ s !! i = Some model →
  (∃ c t data v,
     attempt json_quote (c ← m; _ ← apply_character i c; mret c) s = (Ok (inl c), with_voice (with_disk s t) i v) ∧
     touched (disk s) t data ∧ (is_Some data → is_custom c = true) ∧ kept c ∧ voice_of t model c = Ok v) ∨
  (∃ response t data,
     attempt json_quote (c ← m; _ ← apply_character i c; mret c) s = (Ok (inr response), with_disk s t) ∧
     touched (disk s) t data ∧ HttpRequest.status response = 400%Z ∧
     (∀ d, data = Some d → ∃ what, read_audio recording (Some d) = Throw what)).
Proof.
  intros (o & t & data & Em & Ht & Ho) Hm. unfold attempt, io_catch. destruct o as [c|what].
  - destruct Ho as [Hk Hd].
    pose proof (apply_run (with_disk s t) i model c Hm) as Ha. change (disk (with_disk s t)) with t in Ha.
    destruct (voice_of t model c) as [v|what] eqn:Ev.
    + left. exists c, t, data, v. split_and!; [|done..].
      unfold mbind, io_bind. rewrite Em, Ha. done.
    + right. eexists _, t, data. split_and!; [unfold mbind, io_bind; rewrite Em, Ha; done|done|done|].
      intros d ->. specialize (Hd (mk_is_Some _ _ eq_refl)). destruct Ht as [Hp _ Hf].
      unfold CharacterStore.voice_of in Ev. rewrite Hd, custom_recording in Ev by (apply Hk || done).
      unfold recording in *. rewrite store_read, Hf, lookup_insert_eq in Ev by auto.
      destruct (read_audio _ _) as [a|what']; [done|]. by exists what'.
  - right. eexists _, t, data. split_and!; [unfold mbind, io_bind; rewrite Em; done|done|done|]. by subst data.
Qed.

(** ** Proposals *)

Lemma edit_voice_kept (body : Json.Value Double) c :
  own_recording c → own_recording (edit_voice body c) ∧ name (edit_voice body c) = name c.
Proof.
  intros Ho. unfold edit_voice. destruct (Json.find body (str "preset")) as [[| | |p| |]|]; try case_bool_decide;
    try (split; [by left|done]); (destruct (Json.find body (str "transcript")) as [[]|]; try done; by destruct (is_custom c)).
Qed.

Lemma edited_kept text active c :
  kept active → edited_character integral to_i64 cjson_parse text active = Ok c → kept c.
Proof.
  intros [_ _ Ho]. unfold edited_character.
  destruct (Json.parse cjson_parse text) as [body|] eqn:Ep; [|done]. cbn [mbind outcome_bind].
  destruct (Json.require_string body (str "name")) as [written|]; [|done]. cbn [mbind outcome_bind].
  destruct (sanitize_character_name written) as [n|] eqn:Es; [|done]. cbn [mbind outcome_bind]. apply sanitize_Ok in Es as [_ Hn].
  set (c0 := active <| name := n |>). destruct (edit_voice_kept body c0 Ho) as [Ho1 Hn1]. set (c1 := edit_voice body c0) in *.
  assert (own_recording (edit_persona body c1) ∧ name (edit_persona body c1) = n) as [Ho2 Hn2]
    by (unfold edit_persona; destruct (Json.find body (str "persona")) as [[]|]; exact (conj Ho1 Hn1)).
  set (c2 := edit_persona body c1) in *. destruct (edit_seed integral to_i64 body c2) as [c3|] eqn:E3; [|done]. cbn [mbind outcome_bind].
  assert (own_recording c3 ∧ name c3 = n) as [Ho3 Hn3].
  { revert E3. unfold edit_seed. destruct (Json.find body (str "tts_seed")) as [[| |x| | |]|];
      try (intros [= <-]; exact (conj Ho2 Hn2)).
    destruct (Json.as_i64 _ _ _); [|done]. intros [= <-]. exact (conj Ho2 Hn2). }
  destruct (bool_decide (preset c3 = []) && negb (is_custom c3)) eqn:Eb; [done|]. intros [= <-]. split; [by rewrite Hn3| |done].
  unfold is_custom in Eb. apply andb_false_iff in Eb as [?%bool_decide_eq_false|H]; [by left|right].
  by apply negb_false_iff, negb_true_iff, bool_decide_eq_false in H.
Qed.

Lemma uploaded_proposes s request boundary :
  running s → proposes (uploaded_character request boundary) s.
Proof.
  intros [Hp Hr _ _]. unfold CharacterStore.uploaded_character.
  unfold proposes. rewrite io_bind_get. destruct (foldl form_part _ _) as [c file].
  assert (∀ o : outcome CharacterConfig, is_ok o = false → ∃ t data, (o, s) = (o, with_disk s t) ∧ touched (disk s) t data ∧
            match o with Ok c => kept c ∧ (is_Some data → is_custom c = true) | Throw _ => data = None end) as Hfail.
  { intros [|w] Ho; [done|]. exists (disk s), None. rewrite with_disk_same. split_and!; [done|by apply touched_same|done]. }
  destruct file as [part|]; [|by eexists; apply Hfail].
  case_bool_decide; [by eexists; apply Hfail|]. destruct (negb _); [by eexists; apply Hfail|].
  destruct (sanitize_character_name (name c)) as [n|] eqn:Es; [|by eexists; apply Hfail]. rewrite io_bind_lift.
  destruct (make_directories_run s root) as (t1 & E1 & Hf1 & Hp1 & Hin1 & Hs1); [done|by auto|].
  rewrite (io_bind_Ok _ _ _ _ _ E1). change (path_join root (str "voice.wav")) with (path_join root kVoiceFile).
  rewrite join_voice.
  destruct (store_write t1 root kVoiceFile (Multipart.data part)) as (t2 & E2 & Hf2 & Hp2 & Hs2); [auto..|].
  assert (write_recording (root ++ [kVoiceFile]) (Multipart.data part) (with_disk s t1) = (Ok tt, with_disk s t2)) as Ew.
  { unfold write_recording. rewrite io_bind_get. change (disk (with_disk s t1)) with t1. rewrite E2. done. }
  rewrite (io_bind_Ok _ _ _ _ _ Ew). eexists _, t2, (Some _). split_and!; [done| |].
  - split; [done|by rewrite Hs2|by rewrite Hf2, Hf1].
  - apply sanitize_Ok in Es as [_ Hn]. split; [|done]. split; [done|by right|by right].
Qed.

Lemma new_active_proposes s request : running s → proposes (new_active request) s.
Proof.
  intros Hs. unfold CharacterStore.new_active. destruct (Multipart.extract_multipart_boundary _) as [b|] eqn:E.
  - by apply uploaded_proposes.
  - eapply proposes_pure; [apply Hs|done|]. intros c Hc. eapply edited_kept; [apply Hs|exact Hc].
Qed.

Notation activated_character := (activated_character integral to_i64 cjson_parse filesystem_error character_dir).

Lemma activated_proposes s id : running s → file_name id → proposes (activated_character (entry id)) s.
Proof.
  intros [Hp Hr Hk _] Hid. unfold CharacterStore.activated_character, proposes. rewrite io_bind_get.
  destruct (load_character (disk s) (entry id)) as [c|what] eqn:El.
  2: { exists (Throw what), (disk s), None. rewrite with_disk_same. split_and!; [done|by apply touched_same|done]. }
  rewrite io_bind_lift. pose proof (load_character_storable integral to_i64 of_Z whole cjson_parse _ _ _ El) as Hc.
  destruct (is_custom c) eqn:Ec.
  - change (path_join root (str "voice.wav")) with (path_join root kVoiceFile). rewrite join_voice.
    destruct (copy_file (disk s) (path_join (entry id) (voice_file c)) (root ++ [kVoiceFile])) as [t|] eqn:Ecp.
    + assert (∃ data, touched (disk s) t (Some data)) as [data Ht].
      { unfold copy_file in Ecp. destruct (files (disk s) !! _) as [data|]; [|done]. case_bool_decide; [done|].
        destruct (store_write (disk s) root kVoiceFile data) as (t' & E & Hf & Hp' & Hd'); [auto..|].
        rewrite Ecp in E. injection E as ->. exists data. split; [done|by rewrite Hd'|done]. }
      eexists _, t, (Some data). split_and!; [|done|].
      { rewrite (io_bind_Ok _ _ _ tt (with_disk s t)); [reflexivity|]. unfold copy. by rewrite io_bind_get, Ecp. }
      destruct Hc as [Hn _ _ _]. split; [|done]. split; [done|by right|by right].
    + eexists (Throw _), (disk s), None. rewrite with_disk_same. split_and!; [|by apply touched_same|done].
      rewrite (io_bind_Throw _ _ _ (filesystem_error (str "cannot copy file") (path_join (entry id) (voice_file c))) s); [reflexivity|].
      unfold copy. by rewrite io_bind_get, Ecp.
  - eexists (Ok c), (disk s), None. rewrite with_disk_same. split_and!; [done|by apply touched_same| |by intros [? [=]]].
    destruct Hc as [Hn Hv _ _]. split; [done|done|]. left. unfold is_custom in Ec. by apply negb_false_iff, bool_decide_eq_true in Ec.
Qed.

(** * Serving a request *)

Inductive call :=
| Set_character (request : HttpRequest.HttpRequest)
| Activate (body : bytes)
| Delete (body : bytes).

Definition serve (c : call) : io app HttpRequest.HttpResponse :=
  match c with
  | Set_character request => handle_character_set request
  | Activate body => handle_character_activate body
  | Delete body => handle_character_delete body
  end.

(** A refused request: nothing but the files changes, and of these at most the
    recording, into data the audio reader refuses. *)
Definition refused (s s' : app) (data : option bytes) : Prop :=
  ∃ t, s' = with_disk s t ∧ touched (disk s) t data ∧
  ∀ d, data = Some d → ∃ what, read_audio recording (Some d) = Throw what.

(** An accepted character [c], which is also stored in the library or not. *)
Record accepted (stored : bool) (s : app) (c : CharacterConfig) (s' : app) : Prop := {
  acc_character : character_ s' = c;
  acc_kept : kept c;
  acc_text : files (disk s') !! store_text = Some (character_text c);
  acc_paths : paths_ok (disk s');
  acc_root : root ∈ dirs (disk s');
  acc_voice : ∃ i m v, find_speech_model (models_ s) = Some i ∧ models_ s !! i = Some m ∧ voice_of (disk s') m c = Ok v ∧
                models_ s' = alter (set_default v) i (models_ s);
  acc_settings : llm_settings_ s' = llm_settings_ s;
  acc_entry : stored = true → entry_holds (disk s') (character_slug (name c)) c (files (disk s') !! recording);
  acc_others id f : (stored = true → id ≠ character_slug (name c)) →
    files (disk s') !! (entry id ++ [f]) = files (disk s) !! (entry id ++ [f]);
}.

Lemma warm_run (s : app) :
  ∃ s', warm s = (Ok tt, s') ∧ disk s' = disk s ∧ character_ s' = character_ s ∧ models_ s' = models_ s ∧
        llm_settings_ s' = llm_settings_ s.
Proof. unfold warm_llm_system_prompt. destruct (llm_port <=? 0)%Z; by eexists. Qed.

Notation get := (handle_character_get json_quote).
Notation store_in_library := (store_character_in_library filesystem_error character_dir).

(** What follows on an accepted proposal. *)
Definition settle (stored : bool) (c : CharacterConfig) : io app HttpRequest.HttpResponse :=
  _ ← save root c;
  _ ← (if stored then store_in_library c else mret tt);
  _ ← set_character c;
  _ ← warm;
  s ← io_get; mret (get s).

Lemma settled (s1 : app) t c :
  character_ s1 = c → disk s1 = t → ∃ s', (_ ← warm; s ← io_get; mret (get s) : io app _) s1 = (Ok (get s'), s') ∧
    disk s' = t ∧ character_ s' = c ∧ models_ s' = models_ s1 ∧ llm_settings_ s' = llm_settings_ s1.
Proof.
  intros Hc Ht. destruct (warm_run s1) as (s' & E & Hd & Hc' & Hm & Hl). exists s'.
  rewrite (io_bind_Ok _ _ _ _ _ E). split_and!; [done|by rewrite Hd|by rewrite Hc'|done|done].
Qed.

Lemma root_files_differ : kCharacterFile ≠ kVoiceFile.
Proof. apply (bool_decide_unpack _). by vm_compute. Qed.

Lemma settle_run stored s t data i m v c :
  running s → touched (disk s) t data → kept c → find_speech_model (models_ s) = Some i → models_ s !! i = Some m →
  voice_of t m c = Ok v →
  ∃ s', settle stored c (with_voice (with_disk s t) i v) = (Ok (get s'), s') ∧ accepted stored s c s' ∧
        models_ s' = alter (set_default v) i (models_ s).
Proof.
  intros [_ Hroot _ _] [Hp Hd Hf] Hk Hi Hm Hv. set (s1 := with_voice (with_disk s t) i v).
  assert (Hrec : is_custom c = true → is_Some (files t !! recording)).
  { intros Hc. destruct (voice_of_recorded t m c v Hp (kept_recording c Hk) Hc Hv) as [d Hd']. by exists d. }
  assert (∀ id f, files t !! (entry id ++ [f]) = files (disk s) !! (entry id ++ [f])) as Hother.
  { intros id f. rewrite Hf. destruct data; [|done]. rewrite lookup_insert_ne; [done|].
    intros E. symmetry in E. by eapply entry_not_root. }
  destruct (save_run s1 root c) as (t2 & E2 & Hf2 & Hp2 & Hin2 & Hs2); [done|by auto|].
  change (disk s1) with t in *.
  assert (files t2 !! recording = files t !! recording) as Hr2.
  { rewrite Hf2, lookup_insert_ne; [done|]. unfold recording. intros E%app_inv_head. apply root_files_differ. congruence. }
  assert (∀ id f, files t2 !! (entry id ++ [f]) = files (disk s) !! (entry id ++ [f])) as Hother2.
  { intros id f. rewrite Hf2, lookup_insert_ne; [apply Hother|]. intros E. symmetry in E. by eapply entry_not_root. }
  unfold settle. rewrite (io_bind_Ok _ _ _ _ _ E2).
  assert (∃ t3, (if stored then store_in_library c else mret tt) (with_disk s1 t2) = (Ok tt, with_disk s1 t3) ∧
            paths_ok t3 ∧ dirs t2 ⊆ dirs t3 ∧ (∀ f, files t3 !! (root ++ [f]) = files t2 !! (root ++ [f])) ∧
            (stored = true → entry_holds t3 (character_slug (name c)) c (files t2 !! recording)) ∧
            ∀ id f, (stored = true → id ≠ character_slug (name c)) → files t3 !! (entry id ++ [f]) = files t2 !! (entry id ++ [f]))
    as (t3 & E3 & Hp3 & Hs3 & Hr3 & He3 & Ho3).
  { destruct stored.
    - destruct (store_in_library_run (with_disk s1 t2) c) as (t3 & E3 & Hp3 & Hs3 & He3 & Hr3 & Ho3); [done|done| |].
      { intros Hc. change (is_Some (files t2 !! recording)). rewrite Hr2. by apply Hrec. }
      exists t3. split_and!; try done. intros id f Hid. apply Ho3. by apply Hid.
    - exists t2. by split_and!. }
  rewrite (io_bind_Ok _ _ _ _ _ E3).
  set (s4 := with_disk s1 t3 <| character_ := c |>).
  rewrite (io_bind_Ok _ (set_character c) _ tt s4) by done.
  destruct (settled s4 t3 c eq_refl eq_refl) as (s' & E' & Hd' & Hc' & Hm' & Hl'). exists s'. split_and!; [exact E'| |done].
  split; rewrite ?Hd'; try done.
  - unfold store_text. by rewrite Hr3, Hf2, lookup_insert_eq.
  - by apply Hs3.
  - exists i, m, v. split_and!; try done. rewrite <- Hv. symmetry. apply voice_of_same; [done|done|apply Hk|].
    unfold recording in *. by rewrite Hr3.
  - intros Hst. unfold recording in *. rewrite Hr3. by apply He3.
  - intros id f Hid. rewrite Ho3 by done. apply Hother2.
Qed.

Lemma set_run s request :
  running s →
  ∃ response s', handle_character_set request s = (Ok response, s') ∧
    ((HttpRequest.status response = 400%Z ∧ ∃ data, refused s s' data) ∨ (response = get s' ∧ ∃ c, accepted true s c s')).
Proof.
  intros Hs. pose proof (run_model s Hs) as [i Hi]. destruct (find_model_lookup _ _ Hi) as [m Hm].
  unfold CharacterStore.handle_character_set. rewrite io_bind_get, Hi.
  destruct (attempt_run _ s i m (new_active_proposes s request Hs) Hm)
    as [(c & t & data & v & E & Ht & _ & Hk & Hv)|(resp & t & data & E & Ht & Hst & Hd)].
  - rewrite (io_bind_Ok _ _ _ _ _ E). destruct (settle_run true s t data i m v c) as (s' & E' & Ha & _); [done..|].
    exists (get s'), s'. split; [exact E'|]. right. split; [done|]. by exists c.
  - rewrite (io_bind_Ok _ _ _ _ _ E). exists resp, (with_disk s t). split; [done|]. left. split; [done|].
    exists data, t. by split_and!.
Qed.

Lemma refused_nothing s : paths_ok (disk s) → refused s s None.
Proof. intros Hp. exists (disk s). rewrite with_disk_same. split_and!; [done|by apply touched_same|done]. Qed.

Lemma activate_run s body :
  running s →
  match handle_character_activate body s with
  | (Ok response, s') =>
      (HttpRequest.status response = 400%Z ∧ ∃ data, refused s s' data) ∨
      (response = get s' ∧ ∃ id c, body_id cjson_parse body = Ok id ∧ accepted false s c s')
  | (Throw _, s') => s' = s
  end.
Proof.
  intros Hs. pose proof (run_model s Hs) as [i Hi]. destruct (find_model_lookup _ _ Hi) as [m Hm].
  unfold CharacterStore.handle_character_activate. rewrite io_bind_get, Hi.
  destruct (body_id cjson_parse body) as [id|what] eqn:Eb; [|done]. rewrite io_bind_lift.
  destruct (is_valid_character_id id) eqn:Ev; cbn [negb].
  2: { left. split; [done|]. eexists. by apply refused_nothing, run_paths. }
  pose proof (valid_file_name id Ev) as Hid. rewrite join_entry by done.
  destruct (negb (exists_ (disk s) _)).
  { left. split; [done|]. eexists. by apply refused_nothing, run_paths. }
  destruct (attempt_run _ s i m (activated_proposes s id Hs Hid) Hm)
    as [(c & t & data & v & E & Ht & _ & Hk & Hv)|(resp & t & data & E & Ht & Hst & Hd)].
  - rewrite (io_bind_Ok _ _ _ _ _ E). destruct (settle_run false s t data i m v c) as (s' & E' & Ha & _); [done..|].
    change (settle false c (with_voice (with_disk s t) i v)) with
      ((_ ← save root c; _ ← set_character c; _ ← warm; s ← io_get; mret (get s) : io app _) (with_voice (with_disk s t) i v)) in E'.
    rewrite E'. right. split; [done|]. by exists id, c.
  - rewrite (io_bind_Ok _ _ _ _ _ E). left. split; [done|]. exists data, t. by split_and!.
Qed.

(** ** Deleting *)

Lemma remove_entry_paths t id : paths_ok t → paths_ok (remove_all t (entry id)).
Proof.
  intros [Hf Hd]. split; unfold remove_all; cbn [files dirs].
  - intros d q Hsd Hq. apply map_lookup_filter_None_2. left. by eapply Hf.
  - intros p Hp. rewrite elem_of_filter. intros [_ Hin]. by eapply Hd.
Qed.

Lemma below_entry id p : below (entry id) p = true → ∃ rest, p = root ++ str "library" :: id :: rest.
Proof.
  unfold below. intros E%bool_decide_eq_true. exists (drop (length (entry id)) p).
  rewrite <- (take_drop_eq (length (entry id)) p) at 1. rewrite E. unfold entry. by rewrite <- app_assoc.
Qed.

Lemma remove_entry_files t id p :
  (∀ rest, p ≠ root ++ str "library" :: id :: rest) → files (remove_all t (entry id)) !! p = files t !! p.
Proof.
  intros Hp. unfold remove_all. cbn [files]. rewrite map_lookup_filter.
  destruct (files t !! p); [|done]. cbn. rewrite option_guard_True; [done|]. cbn.
  destruct (below (entry id) p) eqn:E; [|done]. apply below_entry in E as [rest ->]. by destruct (Hp rest).
Qed.

Lemma remove_entry_root t id : root ∈ dirs t → root ∈ dirs (remove_all t (entry id)).
Proof.
  intros Hr. unfold remove_all. cbn [dirs]. apply elem_of_filter. split; [|done].
  destruct (below (entry id) root) eqn:E; [|done]. apply below_entry in E as [rest E].
  apply (f_equal length) in E. rewrite length_app in E. cbn in E. lia.
Qed.

Lemma root_file_other f id rest : f ≠ str "library" → root ++ [f] ≠ root ++ str "library" :: id :: rest.
Proof. intros Hne H%app_inv_head. congruence. Qed.

Lemma delete_run s body :
  paths_ok (disk s) →
  match handle_character_delete body s with
  | (Ok response, s') =>
      (HttpRequest.status response = 400%Z ∧ refused s s' None) ∨
      (HttpRequest.status response = 200%Z ∧ ∃ id, body_id cjson_parse body = Ok id ∧ s' = with_disk s (remove_all (disk s) (entry id)))
  | (Throw _, s') => s' = s
  end.
Proof.
  intros Hp. unfold CharacterStore.handle_character_delete.
  destruct (body_id cjson_parse body) as [id|what]; [|done]. rewrite io_bind_lift.
  destruct (is_valid_character_id id) eqn:Ev; cbn [negb]; [|left; split; [done|by apply refused_nothing]].
  rewrite join_entry by by apply valid_file_name. rewrite io_bind_get.
  destruct (negb (exists_ (disk s) (entry id))); [left; split; [done|by apply refused_nothing]|].
  right. split; [done|]. by exists id.
Qed.

(** * The active character *)

(** The model that speaks and the voice it speaks with. *)
Definition speaking_voice (s : app) : option (RuntimeVoicePreset Audio) :=
  i ← find_speech_model (models_ s); m ← models_ s !! i; default_voice_preset m.

(** The active character is the one in the files, and it speaks. *)
Record settled_in (s : app) : Prop := {
  in_running : running s;
  in_text : files (disk s) !! store_text = Some (character_text (character_ s));
  in_voice : ∃ i m v, find_speech_model (models_ s) = Some i ∧ models_ s !! i = Some m ∧
               default_voice_preset m = Some v ∧ voice_of (disk s) m (character_ s) = Ok v;
}.

Lemma accepted_settled stored s c s' : accepted stored s c s' → settled_in s'.
Proof.
  intros [Hc Hk Ht Hp Hr (i & m & v & Hi & Hm & Hv & Hm') Hl He Ho]. split.
  - split; [done|done|by rewrite Hc|]. rewrite Hm', find_model_alter by done. by exists i.
  - by rewrite Ht, Hc.
  - exists i, (set_default v m), v. rewrite Hm', find_model_alter by done. split_and!; [done| |done|by rewrite Hc].
    rewrite list_lookup_alter. by rewrite decide_True, Hm.
Qed.

Lemma accepted_running stored s c s' : accepted stored s c s' → running s'.
Proof. intros H. by apply accepted_settled in H as []. Qed.

Lemma refused_running s s' data : running s → refused s s' data → running s'.
Proof. intros [Hp Hr Hk Hm] (t & -> & [Hp' Hd Hf] & _). split; [done|by apply Hd|done|done]. Qed.

Lemma refused_settled s s' data :
  settled_in s → refused s s' data → files (disk s') !! recording = files (disk s) !! recording → settled_in s'.
Proof.
  intros [Hr Ht (i & m & v & Hi & Hm & Hd & Hv)] Href Hrec. pose proof (refused_running _ _ _ Hr Href) as Hr'.
  destruct Href as (t & -> & [Hp' Hs Hf] & _). change (disk (with_disk s t)) with t in *. split; [done| |].
  - change (files t !! store_text = Some (character_text (character_ s))). rewrite Hf, <- Ht. destruct data; [|done].
    rewrite lookup_insert_ne; [done|]. unfold recording, store_text. intros E%app_inv_head. apply root_files_differ. congruence.
  - exists i, m, v. split_and!; try done. change (voice_of t m (character_ s) = Ok v). rewrite <- Hv.
    apply voice_of_same; [done|apply Hr|apply Hr|done].
Qed.

Lemma delete_keeps s id :
  (running s → running (with_disk s (remove_all (disk s) (entry id)))) ∧
  (settled_in s → settled_in (with_disk s (remove_all (disk s) (entry id)))).
Proof.
  assert (∀ f, f ∈ [kCharacterFile; kVoiceFile] →
            files (remove_all (disk s) (entry id)) !! (root ++ [f]) = files (disk s) !! (root ++ [f])) as Hf.
  { intros f Hin. apply remove_entry_files. intros rest. apply root_file_other.
    apply elem_of_cons in Hin as [->| ->%list_elem_of_singleton]; by apply (bool_decide_unpack _); vm_compute. }
  assert (running s → running (with_disk s (remove_all (disk s) (entry id)))) as Hrun.
  { intros [Hp Hr Hk Hm]. split; [by apply remove_entry_paths|by apply remove_entry_root|done|done]. }
  split; [done|]. intros [Hr Ht (i & m & v & Hi & Hm & Hd & Hv)]. split; [by apply Hrun| |].
  - transitivity (files (disk s) !! store_text); [by apply Hf|exact Ht].
  - exists i, m, v. split_and!; try done. rewrite <- Hv.
    apply voice_of_same; [by apply remove_entry_paths, Hr|apply Hr|apply Hr|]. by apply Hf.
Qed.

(** ** One request *)

(** What a request does to a running server. *)
Inductive effect (c : call) (s s' : app) : outcome HttpRequest.HttpResponse → Prop :=
| eff_refused response data : HttpRequest.status response = 400%Z → refused s s' data → effect c s s' (Ok response)
| eff_set response request ch :
    c = Set_character request → HttpRequest.status response = 200%Z → accepted true s ch s' → effect c s s' (Ok response)
| eff_activate response body id ch :
    c = Activate body → HttpRequest.status response = 200%Z → body_id cjson_parse body = Ok id → accepted false s ch s' →
    effect c s s' (Ok response)
| eff_delete response body id :
    c = Delete body → HttpRequest.status response = 200%Z → body_id cjson_parse body = Ok id →
    s' = with_disk s (remove_all (disk s) (entry id)) → effect c s s' (Ok response)
| eff_malformed what : s' = s → effect c s s' (Throw what).

Lemma serve_effect c s r s' : running s → serve c s = (r, s') → effect c s s' r.
Proof.
  intros Hs. destruct c as [request|body|body]; cbn [serve].
  - destruct (set_run s request Hs) as (response & s1 & E & [[Hst [data Hr]]|[-> [ch Ha]]]); rewrite E; intros [= <- <-].
    + eapply eff_refused; [exact Hst|exact Hr].
    + eapply eff_set; [reflexivity|reflexivity|exact Ha].
  - pose proof (activate_run s body Hs) as H. destruct (handle_character_activate body s) as [[response|what] s1]; intros [= <- <-].
    + destruct H as [[Hst [data Hr]]|(-> & id & ch & Hb & Ha)]; [eapply eff_refused; [exact Hst|exact Hr]|eapply eff_activate; [reflexivity|reflexivity|exact Hb|exact Ha]].
    + by apply eff_malformed.
  - pose proof (delete_run s body (run_paths s Hs)) as H.
    destruct (handle_character_delete body s) as [[response|what] s1]; intros [= <- <-].
    + destruct H as [[Hst Hr]|(Hst & id & Hb & ->)]; [eapply eff_refused; [exact Hst|exact Hr]|eapply eff_delete; [reflexivity|exact Hst|exact Hb|reflexivity]].
    + by apply eff_malformed.
Qed.

Lemma effect_running c s s' r : running s → effect c s s' r → running s'.
Proof.
  intros Hs H. destruct H as [response data _ Hr|response request ch _ _ Ha|response body id ch _ _ _ Ha|response body id _ _ _ ->|what ->].
  - exact (refused_running _ _ _ Hs Hr).
  - exact (accepted_running _ _ _ _ Ha).
  - exact (accepted_running _ _ _ _ Ha).
  - by apply (proj1 (delete_keeps s id)).
  - done.
Qed.

(** C29. A request about characters that is answered with 400 leaves the active
    character, its voice, the settings and every file as they were, but for the
    recording of the active character: an upload or an activation that is
    refused because the audio reader rejects the new recording has already put
    it in the place of the old one. *)
Theorem refused_changes_nothing c s response s' :
  running s → serve c s = (Ok response, s') → HttpRequest.status response = 400%Z →
  character_ s' = character_ s ∧ models_ s' = models_ s ∧ llm_settings_ s' = llm_settings_ s ∧ warmed s' = warmed s ∧
  (∀ p, p ≠ recording → files (disk s') !! p = files (disk s) !! p) ∧
  (files (disk s') !! recording = files (disk s) !! recording ∨
   ∃ data what, files (disk s') !! recording = Some data ∧ read_audio recording (Some data) = Throw what).
Proof.
  intros Hs E Hst. pose proof (serve_effect _ _ _ _ Hs E) as He. inversion He; subst; try congruence.
  match goal with H : refused s s' _ |- _ => destruct H as (t & -> & [Hp Hd Hf] & Hbad) end.
  change (disk (with_disk s t)) with t. split_and!; try done.
  - intros p Hne. rewrite Hf. destruct data; [|done]. by rewrite lookup_insert_ne.
  - rewrite Hf. destruct data as [d|]; [|by left]. right. destruct (Hbad d eq_refl) as [what Hw].
    exists d, what. by rewrite lookup_insert_eq.
Qed.

(** ** Starting *)

Notation start := (start_characters integral to_i64 cjson_parse json_quote filesystem_error read_audio character_dir llm_port).
Notation initial t := (loaded_or_default integral to_i64 cjson_parse character_dir t).

(** Files the server can start on: those of the store are files, and the
    recording is the one the server writes. *)
Record startable (s : app) : Prop := {
  start_paths : paths_ok (disk s);
  start_recording : own_recording (initial (disk s));
  start_model : is_Some (find_speech_model (models_ s));
}.

Lemma initial_kept t : own_recording (initial t) → kept (initial t).
Proof.
  intros Ho. assert (storable (initial t)) as [H1 H2 _ _]; [|by split]. unfold loaded_or_default in *.
  destruct (load_character t root) as [c|what] eqn:E; [by eapply load_character_storable|apply default_storable].
Qed.

(** The library is seeded with a character that speaks. *)
Lemma seed_run s i m v c :
  paths_ok (disk s) → kept c → character_ s = c → find_speech_model (models_ s) = Some i → models_ s !! i = Some m →
  default_voice_preset m = Some v → voice_of (disk s) m c = Ok v →
  ∃ s', seed_library filesystem_error character_dir s = (Ok tt, s') ∧ settled_in s' ∧ character_ s' = c ∧
        speaking_voice s' = Some v ∧ llm_settings_ s' = llm_settings_ s.
Proof.
  intros Hp Hk Hc Hi Hm Hd Hv.
  destruct (save_run s root c) as (t2 & E2 & Hf2 & Hp2 & Hin2 & _); [done|by auto|].
  assert (files t2 !! recording = files (disk s) !! recording) as Hr2.
  { rewrite Hf2, lookup_insert_ne; [done|]. unfold recording. intros E%app_inv_head. apply root_files_differ. congruence. }
  destruct (store_in_library_run (with_disk s t2) c) as (t3 & E3 & Hp3 & Hs3 & _ & Hr3 & _); [done|done| |].
  { intros Hcu. change (is_Some (files t2 !! recording)). rewrite Hr2.
    destruct (voice_of_recorded (disk s) m c v Hp (kept_recording c Hk) Hcu Hv) as [d Hd']. by exists d. }
  exists (with_disk s t3). split_and!; [| |done| |done].
  - unfold seed_library. rewrite io_bind_get, Hc. unfold io_catch. rewrite (io_bind_Ok _ _ _ _ _ E2). by rewrite E3.
  - split.
    + split; [done|by apply Hs3|by change (kept (character_ s)); rewrite Hc|by exists i].
    + change (files t3 !! store_text = Some (character_text (character_ s))). unfold store_text.
      rewrite Hr3, Hc. change (disk (with_disk s t2)) with t2. by rewrite Hf2, lookup_insert_eq.
    + exists i, m, v. split_and!; try done. change (voice_of t3 m (character_ s) = Ok v). rewrite Hc, <- Hv.
      apply voice_of_same; [done|done|apply Hk|]. unfold recording in *. by rewrite Hr3.
  - unfold speaking_voice. change (models_ (with_disk s t3)) with (models_ s). by rewrite Hi; cbn; rewrite Hm.
Qed.

Lemma start_from (s0 : app) :
  ∃ s1, (_ ← io_modify (λ s : app, s <| character_ := initial (disk s) |>); warm) s0 = (Ok tt, s1) ∧
        disk s1 = disk s0 ∧ character_ s1 = initial (disk s0) ∧ models_ s1 = models_ s0 ∧ llm_settings_ s1 = llm_settings_ s0.
Proof.
  destruct (warm_run (s0 <| character_ := initial (disk s0) |>)) as (s1 & E & H). exists s1.
  rewrite (io_bind_Ok _ _ _ tt (s0 <| character_ := initial (disk s0) |>)) by done. done.
Qed.

Lemma apply_voice s i m v c :
  paths_ok (disk s) → kept c → find_speech_model (models_ s) = Some i → models_ s !! i = Some m → voice_of (disk s) m c = Ok v →
  character_ s = c →
  ∃ s', seed_library filesystem_error character_dir (with_voice s i v) = (Ok tt, s') ∧ settled_in s' ∧ character_ s' = c ∧
        speaking_voice s' = Some v ∧ llm_settings_ s' = llm_settings_ s.
Proof.
  intros Hp Hk Hi Hm Hv Hc. apply (seed_run (with_voice s i v) i (set_default v m) v c); try done.
  - change (find_speech_model (alter (set_default v) i (models_ s)) = Some i). by rewrite find_model_alter.
  - change (alter (set_default v) i (models_ s) !! i = Some (set_default v m)). rewrite list_lookup_alter. by rewrite decide_True, Hm.
Qed.

(** Starting brings up the saved character when its voice can be had, and the
    default one otherwise. *)
Lemma start_run s0 i m :
  startable s0 → find_speech_model (models_ s0) = Some i → models_ s0 !! i = Some m →
  (∀ v, voice_of (disk s0) m (initial (disk s0)) = Ok v →
     ∃ s', start s0 = (Ok tt, s') ∧ settled_in s' ∧ character_ s' = initial (disk s0) ∧ speaking_voice s' = Some v) ∧
  (∀ s', start s0 = (Ok tt, s') → settled_in s').
Proof.
  intros [Hp Ho _] Hi Hm. pose proof (initial_kept _ Ho) as Hk.
  destruct (start_from s0) as (s1 & E1 & Hd1 & Hc1 & Hm1 & _).
  assert (∀ s', start s0 = s' ↔ (_ ← apply_or_default read_audio character_dir i; seed_library filesystem_error character_dir) s1 = s') as Hstart.
  { intros s'. unfold start_characters.
    assert (∀ (k : io app ()), ((_ ← io_modify (λ s : app, s <| character_ := initial (disk s) |>); _ ← warm; k) : io app ()) s0 = k s1) as Hk'.
    { intros k. destruct (io_bind_inv _ _ _ _ _ E1) as ([] & s2 & Ea & Eb). rewrite (io_bind_Ok _ _ _ _ _ Ea).
      by rewrite (io_bind_Ok _ _ _ _ _ Eb). }
    rewrite Hk', io_bind_get, Hm1, Hi. done. }
  assert (∀ v, voice_of (disk s0) m (initial (disk s0)) = Ok v →
            ∃ s', start s0 = (Ok tt, s') ∧ settled_in s' ∧ character_ s' = initial (disk s0) ∧ speaking_voice s' = Some v) as Hgood.
  { intros v Hv. destruct (apply_voice s1 i m v (initial (disk s0))) as (s' & E & Hin & Hc & Hsv & _); rewrite ?Hd1, ?Hm1; try done.
    exists s'. split_and!; try done. apply Hstart.
    rewrite (io_bind_Ok _ _ _ tt (with_voice s1 i v)); [done|]. unfold apply_or_default. rewrite io_bind_get, Hc1.
    unfold io_catch. rewrite (apply_run s1 i m) by by rewrite Hm1. by rewrite Hd1, Hv. }
  split; [done|]. intros s' E. destruct (voice_of (disk s0) m (initial (disk s0))) as [v|what] eqn:Ev.
  { destruct (Hgood v eq_refl) as (s2 & E2 & Hin & _). congruence. }
  apply Hstart in E. apply io_bind_inv in E as ([] & s2 & Ea & Eb).
  unfold apply_or_default in Ea. rewrite io_bind_get, Hc1 in Ea. unfold io_catch in Ea.
  rewrite (apply_run s1 i m), Hd1, Ev in Ea by by rewrite Hm1.
  set (s1' := s1 <| character_ := default_character |>).
  rewrite (io_bind_Ok _ (set_character default_character) _ tt s1') in Ea by done.
  rewrite (apply_run s1' i m) in Ea by (change (models_ s1' !! i = Some m) with (models_ s1 !! i = Some m); by rewrite Hm1).
  destruct (voice_of (disk s1') m default_character) as [v|] eqn:Ev'; [|done]. injection Ea as <-.
  destruct (apply_voice s1' i m v default_character) as (s3 & E3 & Hin & _);
    [change (disk s1') with (disk s1); by rewrite Hd1|by split; [|left|left]|
     change (models_ s1') with (models_ s1); by rewrite Hm1|change (models_ s1') with (models_ s1); by rewrite Hm1|done|done|].
  congruence.
Qed.

(** ** Restarts *)

(** No request of the server's life was refused with its recording in place. *)
Inductive lives : app → Prop :=
| lives_started s0 s : startable s0 → start s0 = (Ok tt, s) → lives s
| lives_served s c r s' :
    lives s → serve c s = (r, s') →
    (∀ response, r = Ok response → HttpRequest.status response = 400%Z →
       files (disk s') !! recording = files (disk s) !! recording) →
    lives s'.

Lemma lives_settled s : lives s → settled_in s.
Proof.
  induction 1 as [s0 s Hs E|s c r s' _ IH E Hrec].
  - destruct (start_model s0 Hs) as [i Hi]. destruct (find_model_lookup _ _ Hi) as [m Hm].
    by apply (proj2 (start_run s0 i m Hs Hi Hm)).
  - pose proof (serve_effect _ _ _ _ (in_running _ IH) E) as He.
    destruct He as [response data Hst Hr|response request ch _ _ Ha|response body id ch _ _ _ Ha|response body id _ _ _ Es|what Es].
    + exact (refused_settled _ _ _ IH Hr (Hrec _ eq_refl Hst)).
    + exact (accepted_settled _ _ _ _ Ha).
    + exact (accepted_settled _ _ _ _ Ha).
    + rewrite Es. by apply (proj2 (delete_keeps s id)).
    + by rewrite Es.
Qed.

(** The process that starts on the files another one left: the models are
    loaded anew. *)
Definition restarted (s : app) : app :=
  s <| models_ := map (λ m : LoadedModel Audio, m <| default_voice_preset := None |>) (models_ s) |>
    <| character_ := new_character |> <| warmed := [] |>.

Lemma find_model_map (f : LoadedModel Audio → LoadedModel Audio) models :
  (∀ m, task (f m) = task m) → find_speech_model (map f models) = find_speech_model models.
Proof.
  intros Hf. induction models as [|m models IH]; cbn [map find_speech_model]; [done|]. by rewrite Hf, IH.
Qed.

Lemma settled_load s :
  settled_in s → rereadable (character_ s) → load_character (disk s) root = Ok (reloaded (character_ s)).
Proof.
  intros [[Hp _ Hk _] Ht (i & m & v & _ & _ & _ & Hv)] Hread. pose proof (kept_recording _ Hk) as Ho.
  apply (load_character_text integral to_i64 show_double of_Z whole reread finite cjson_parse); [by rewrite join_character|by apply kept_storable|].
  intros Hc. destruct (voice_of_recorded _ _ _ _ Hp Ho Hc Hv) as [d Hd].
  rewrite custom_recording by done. unfold exists_, is_file. by rewrite Hd.
Qed.

(** C27. The active character survives restarts: whatever requests were served
    since the server came up, without an upload or activation being refused with
    its recording already in place, a server started on the same files brings up
    the same character, speaking with the same voice; only a negative seed
    becomes -1. The texts of the active character must be C strings and its seed
    exact in a double: the requests take others, but they do not come back. *)
Theorem active_survives_restart s :
  lives s → rereadable (character_ s) →
  ∃ s', start (restarted s) = (Ok tt, s') ∧ character_ s' = reloaded (character_ s) ∧
        is_Some (speaking_voice s) ∧ speaking_voice s' = speaking_voice s.
Proof.
  intros Hl Hread. pose proof (lives_settled s Hl) as Hs. pose proof (settled_load s Hs Hread) as Hload.
  destruct Hs as [[Hp _ [_ _ Ho] _] Ht (i & m & v & Hi & Hm & Hd & Hv)].
  assert (initial (disk s) = reloaded (character_ s)) as Hinit by by unfold loaded_or_default; rewrite Hload.
  set (m' := m <| default_voice_preset := None |>).
  assert (find_speech_model (models_ (restarted s)) = Some i) as Hi'.
  { unfold restarted. cbn. rewrite <- Hi. by apply find_model_map. }
  assert (models_ (restarted s) !! i = Some m') as Hm'.
  { change (map (λ m : LoadedModel Audio, m <| default_voice_preset := None |>) (models_ s) !! i = Some m').
    by rewrite list_lookup_fmap, Hm. }
  destruct (proj1 (start_run (restarted s) i m' ltac:(split; [done|change (own_recording (initial (disk s))); by rewrite Hinit|by exists i]) Hi' Hm') v)
    as (s' & E & _ & Hc & Hsv).
  { change (voice_of (disk s) m' (initial (disk s)) = Ok v). rewrite Hinit. exact Hv. }
  exists s'. split_and!; [done|by rewrite Hc| |].
  - exists v. unfold speaking_voice. rewrite Hi. cbn. by rewrite Hm.
  - rewrite Hsv. unfold speaking_voice. rewrite Hi. cbn. by rewrite Hm.
Qed.

(** ** Activating a character that was set *)

(** A request that leaves the entry of an id: it does not store another
    character under it, nor delete it. *)
Definition leaves (id : bytes) (c : call) (s s' : app) (r : outcome HttpRequest.HttpResponse) : Prop :=
  match c with
  | Set_character _ => (∃ response, r = Ok response ∧ HttpRequest.status response = 200%Z) → character_slug (name (character_ s')) ≠ id
  | Delete body => body_id cjson_parse body ≠ Ok id
  | Activate _ => True
  end.

Inductive visits (id : bytes) : app → app → Prop :=
| visits_here s : visits id s s
| visits_next s c r s' s'' :
    serve c s = (r, s') → leaves id c s s' r → visits id s' s'' → visits id s s''.

(** The files of an entry as one. *)
Definition same_entry (id : bytes) (t t' : tree) : Prop := ∀ f, files t' !! (entry id ++ [f]) = files t !! (entry id ++ [f]).

(** Up to the voice in use. *)
Definition same_models (s s' : app) : Prop :=
  find_speech_model (models_ s') = find_speech_model (models_ s) ∧
  ∀ i m, models_ s !! i = Some m → ∃ m', models_ s' !! i = Some m' ∧ voice_presets m' = voice_presets m.

Lemma same_models_trans s s' s'' : same_models s s' → same_models s' s'' → same_models s s''.
Proof.
  intros [H1 H2] [H3 H4]. split; [by rewrite H3|]. intros i m Hm. destruct (H2 i m Hm) as (m' & Hm' & E).
  destruct (H4 i m' Hm') as (m'' & Hm'' & E'). exists m''. by rewrite E'.
Qed.

Lemma same_models_refl s s' : models_ s' = models_ s → same_models s s'.
Proof. intros E. split; [by rewrite E|]. intros i m Hm. exists m. by rewrite E. Qed.

Lemma same_models_alter s s' i v : models_ s' = alter (set_default v) i (models_ s) → same_models s s'.
Proof.
  intros E. split; [by rewrite E, find_model_alter|]. intros j m Hm. rewrite E, list_lookup_alter.
  destruct (decide (i = j)) as [->|]; rewrite Hm; by eexists.
Qed.

Lemma effect_same id c s s' r :
  effect c s s' r → leaves id c s s' r → same_entry id (disk s) (disk s') ∧ same_models s s'.
Proof.
  intros H Hl. destruct H as [response data Hst (t & -> & [_ _ Hf] & _)|response request ch -> Hst Ha|response body id' ch -> Hst Hb Ha|response body id' -> Hst Hb ->|what ->].
  - split; [|by apply same_models_refl]. intros f. change (disk (with_disk s t)) with t. rewrite Hf. destruct data; [|done].
    rewrite lookup_insert_ne; [done|]. intros E. symmetry in E. by eapply entry_not_root.
  - split; [|destruct (acc_voice _ _ _ _ Ha) as (i & m & v & _ & _ & _ & Hm); by eapply same_models_alter].
    intros f. apply (acc_others _ _ _ _ Ha). intros _ ->. apply Hl; [by exists response|]. by rewrite (acc_character _ _ _ _ Ha).
  - split; [|destruct (acc_voice _ _ _ _ Ha) as (i & m & v & _ & _ & _ & Hm); by eapply same_models_alter].
    intros f. by apply (acc_others _ _ _ _ Ha).
  - split; [|by apply same_models_refl]. intros f. apply remove_entry_files. intros rest. unfold entry. rewrite <- app_assoc.
    intros E%app_inv_head. apply Hl. cbn [Datatypes.app] in E. rewrite Hb. congruence.
  - split; [done|by apply same_models_refl].
Qed.

Lemma visits_same id s s' :
  running s → visits id s s' → running s' ∧ same_entry id (disk s) (disk s') ∧ same_models s s'.
Proof.
  intros Hs H. induction H as [s|s c r s' s'' E Hl _ IH].
  - split_and!; [done|done|by apply same_models_refl].
  - pose proof (serve_effect _ _ _ _ Hs E) as He. destruct (effect_same id _ _ _ _ He Hl) as [H1 H2].
    destruct IH as (Hr & H3 & H4); [exact (effect_running _ _ _ _ Hs He)|].
    split_and!; [done|intros f; by rewrite H3|by eapply same_models_trans].
Qed.

(** An entry with its recording is proposed as it is. *)
Lemma known_proposes s id c data :
  running s → file_name id → kept c → rereadable c → entry_holds (disk s) id c data →
  ∃ t, activated_character (entry id) s = (Ok (reloaded c), with_disk s t) ∧
       touched (disk s) t (if is_custom c then data else None).
Proof.
  intros [Hp Hr _ _] Hid Hk Hread [Ht Hv]. pose proof (kept_recording _ Hk) as Ho.
  assert (load_character (disk s) (entry id) = Ok (reloaded c)) as El.
  { apply (load_character_text integral to_i64 show_double of_Z whole reread finite cjson_parse); [by rewrite join_character|by apply kept_storable|].
    intros Hc. destruct (Hv Hc) as [[d ->] Hf]. destruct Ho as [Hn|Hn]; [unfold is_custom in Hc; by rewrite Hn in Hc|].
    rewrite Hn, join_voice. unfold exists_, is_file. by rewrite Hf. }
  unfold CharacterStore.activated_character. rewrite io_bind_get, El, io_bind_lift.
  change (is_custom (reloaded c)) with (is_custom c). change (voice_file (reloaded c)) with (voice_file c).
  destruct (is_custom c) eqn:Ec.
  - destruct (Hv eq_refl) as [[d Hd] Hf]. rewrite Hd in *.
    destruct Ho as [Hn|Hn]; [unfold is_custom in Ec; by rewrite Hn in Ec|]. rewrite Hn.
    change (path_join root (str "voice.wav")) with (path_join root kVoiceFile). rewrite !join_voice.
    destruct (copy_run s root kVoiceFile (entry id ++ [kVoiceFile]) d) as (t & E & Hft & Hpt & Hst); auto.
    { apply entry_not_root. }
    exists t. rewrite (io_bind_Ok _ _ _ _ _ E). split; [|split; [done|by rewrite Hst|done]].
    f_equal. f_equal. unfold reloaded. destruct c. cbn in Hn. by subst.
  - exists (disk s). rewrite with_disk_same. split; [done|by apply touched_same].
Qed.

Lemma kept_id c : kept c → is_valid_character_id (character_slug (name c)) = true.
Proof. intros [Hn _ _]. apply slug_valid. apply sanitize_length in Hn. unfold kMaxNameLength in *. lia. Qed.

Lemma kept_reloaded c : kept c → kept (reloaded c).
Proof. intros [H1 H2 H3]. by split. Qed.

(** Activating an id whose entry holds a character whose voice can be had. *)
Lemma activate_known s c data i m v body :
  running s → kept c → rereadable c → entry_holds (disk s) (character_slug (name c)) c data →
  find_speech_model (models_ s) = Some i → models_ s !! i = Some m →
  (∀ t, paths_ok t → (is_custom c = true → files t !! recording = data) → voice_of t m c = Ok v) →
  body_id cjson_parse body = Ok (character_slug (name c)) →
  ∃ s3, serve (Activate body) s = (Ok (get s3), s3) ∧ character_ s3 = reloaded c ∧
        models_ s3 = alter (set_default v) i (models_ s).
Proof.
  intros Hs Hk Hread Hold Hi Hm Hv Hb. pose proof (kept_slug c Hk) as Hid.
  destruct (known_proposes s _ c data Hs Hid Hk Hread Hold) as (t & Ea & Ht).
  assert (voice_of t m (reloaded c) = Ok v) as Hv2.
  { apply Hv; [apply Ht|]. intros Hc. destruct Hold as [_ Hvo]. destruct (Hvo Hc) as [[d ->] _].
    destruct Ht as [_ _ Hf]. rewrite Hc in Hf. by rewrite Hf, lookup_insert_eq. }
  destruct (settle_run false s t _ i m v (reloaded c) Hs Ht (kept_reloaded c Hk) Hi Hm Hv2) as (s3 & E3 & Ha3 & Hm3).
  exists s3. split_and!; [|exact (acc_character _ _ _ _ Ha3)|exact Hm3].
  cbn [serve]. unfold CharacterStore.handle_character_activate. rewrite io_bind_get, Hi, Hb, io_bind_lift, kept_id by done.
  cbn [negb]. rewrite join_entry, join_character by done.
  assert (exists_ (disk s) (entry (character_slug (name c)) ++ [kCharacterFile]) = true) as ->.
  { unfold exists_, is_file. by rewrite (entry_text _ _ _ _ Hold). }
  cbn [negb].
  assert (attempt json_quote (c ← activated_character (entry (character_slug (name c))); _ ← apply_character i c; mret c) s =
            (Ok (inl (reloaded c)), with_voice (with_disk s t) i v)) as Eat.
  { unfold attempt, io_catch. rewrite (io_bind_Ok _ _ _ (reloaded c) (with_voice (with_disk s t) i v)); [done|].
    rewrite (io_bind_Ok _ _ _ _ _ Ea). rewrite (io_bind_Ok _ _ _ tt (with_voice (with_disk s t) i v)); [done|].
    rewrite (apply_run _ i m) by done. change (disk (with_disk s t)) with t. by rewrite Hv2. }
  rewrite (io_bind_Ok _ _ _ _ _ Eat). exact E3.
Qed.

Lemma voice_by_recording t t' m m' c v data :
  paths_ok t → paths_ok t' → own_recording c → voice_presets m' = voice_presets m → voice_of t m c = Ok v →
  files t !! recording = data → (is_custom c = true → files t' !! recording = data) → voice_of t' m' c = Ok v.
Proof.
  intros Ht Ht' Ho Hm <- Hd Hd'. unfold CharacterStore.voice_of. rewrite Hm. destruct (is_custom c) eqn:Ec; [|done].
  rewrite custom_recording by done. unfold recording in *. rewrite !store_read by auto. by rewrite Hd', Hd.
Qed.

(** C28. Switching away from a character is always reversible: after a request
    that set a character, and any requests that neither store another one under
    its id nor delete it -- not even refused ones that spoil the active
    recording --, activating its id answers with this character, speaking with
    the voice it had. The texts of this character must be C strings and its seed
    exact in a double; nothing is asked of the requests in between. *)
Theorem activate_reverts s request response s1 s2 body :
  running s → serve (Set_character request) s = (Ok response, s1) → HttpRequest.status response = 200%Z → rereadable (character_ s1) →
  visits (character_slug (name (character_ s1))) s1 s2 →
  body_id cjson_parse body = Ok (character_slug (name (character_ s1))) →
  ∃ s3, serve (Activate body) s2 = (Ok (get s3), s3) ∧ character_ s3 = reloaded (character_ s1) ∧
        is_Some (speaking_voice s1) ∧ speaking_voice s3 = speaking_voice s1.
Proof.
  intros Hs E Hst Hread Hv Hb. cbn [serve] in E.
  destruct (set_run s request Hs) as (r & s1' & E' & [[Hst' _]|[_ [c Ha]]]); rewrite E in E'; injection E' as -> <-; [congruence|].
  pose proof (accepted_settled _ _ _ _ Ha) as [Hr1 _ (i & m & v & Hi & Hm & Hd & Hv1)].
  rewrite (acc_character _ _ _ _ Ha) in *. pose proof (acc_kept _ _ _ _ Ha) as Hk.
  destruct (visits_same _ _ _ Hr1 Hv) as (Hr2 & Hsame & Hmod & Hmod').
  destruct (Hmod' i m Hm) as (m2 & Hm2 & Hpre).
  pose proof (acc_entry _ _ _ _ Ha eq_refl) as [Het Hev].
  destruct (activate_known s2 c (files (disk s1) !! recording) i m2 v body) as (s3 & E3 & Hc3 & Hm3); try done.
  - split; [by rewrite Hsame|]. intros Hcu. destruct (Hev Hcu) as [Hsome Hf]. split; [done|]. by rewrite Hsame.
  - by rewrite Hmod.
  - intros t Ht Hrec. by eapply (voice_by_recording (disk s1)); [apply Hr1|..]; try apply Hk.
  - exists s3. split_and!; [done|done| |].
    + exists v. unfold speaking_voice. rewrite Hi. cbn. by rewrite Hm.
    + unfold speaking_voice. rewrite Hm3, find_model_alter, Hmod, Hi by done. cbn.
      rewrite list_lookup_alter, decide_True, Hm2, Hm by done. by cbn.
Qed.

End life.

(** * A server with one model *)

Module Sample.

Import FlatJson.Reader.

#[export] Instance whole_Z : WholeDoubles (λ _, true) (λ z : Z, z) (λ z : Z, z) (λ _, True).
Proof. by split. Qed.

(** A recording begins with the letter R. *)
Definition read_audio (p : path) (contents : option bytes) : outcome bytes :=
  match contents with
  | Some (c :: samples) => if c =b ch "R" then Ok samples else Throw (str "not a recording")
  | _ => Throw (str "no recording")
  end.

Definition dir : path := [str "store"].
Definition fs_error (what : bytes) (p : path) : bytes := what.
Definition json_quote (s : bytes) : bytes := quote ++ VoiceText.json_escape s ++ quote.
Definition order (t : tree) (p : path) : list bytes := [].

Definition speaker : LoadedModel bytes :=
  {| task := str "tts";
     voice_presets := {[ str "demo_3_woman" := {| voice_id := Some (str "demo"); audio := None; reference_text := None |} ]};
     default_voice_preset := None |}.

Definition settings : LlmSettings Z :=
  {| master_prompt := str "You are {name}. {persona}"; temperature := 0%Z; top_p := 1%Z; repeat_penalty := 1%Z;
     max_tokens := 140; length_ramp := true; model := [] |}.

Definition empty_server : ServerState bytes Z :=
  {| disk := {| files := ∅; dirs := {[ [] ]} |}; character_ := new_character; llm_settings_ := settings;
     models_ := [speaker]; warmed := [] |}.

Notation start := (start_characters (λ _, true) (λ z : Z, z) Reader.read_object json_quote fs_error read_audio dir 0%Z).
Notation serve := (serve (λ _, true) (λ z : Z, z) Reader.read_object json_quote fs_error order read_audio dir 0%Z).

Lemma missing_unread p : is_ok (read_audio p None) = false.
Proof. done. Qed.

Definition fresh : ServerState bytes Z := (start empty_server).2.

Lemma empty_startable : startable (λ _, true) (λ z : Z, z) Reader.read_object dir empty_server.
Proof.
  split; [split| |].
  - intros d q _ _. apply lookup_empty.
  - intros p (d & f & _ & _ & ->). cbn [empty_server disk dirs]. intros Hin%elem_of_singleton. by apply app_nil in Hin as [_ ?].
  - left. by vm_compute.
  - by exists 0.
Qed.

Lemma started : start empty_server = (Ok tt, fresh).
Proof.
  assert ((start empty_server).1 = Ok tt) as H by by vm_compute. unfold fresh. rewrite <- H. apply surjective_pairing.
Qed.

(** The status a request is answered with, 0 for an exception. *)
Definition status_of (c : call) (s : ServerState bytes Z) : Z :=
  match (serve c s).1 with Ok response => HttpRequest.status response | Throw _ => 0 end.

Lemma served_status c s n :
  status_of c s = n → n ≠ 0%Z →
  ∃ response, serve c s = (Ok response, (serve c s).2) ∧ HttpRequest.status response = n.
Proof. unfold status_of. destruct (serve c s) as [[response|] s']; cbn; [|congruence]. intros <- _. by exists response. Qed.

Definition upload (name persona recording : bytes) : HttpRequest.HttpRequest :=
  let part name data := {| Multipart.name := name; Multipart.filename := []; Multipart.data := data |} in
  {| HttpRequest.method := str "POST"; HttpRequest.path := str "/v1/character"; HttpRequest.query := [];
     HttpRequest.headers := {[ str "content-type" := str "multipart/form-data; boundary=XX" ]};
     HttpRequest.body := Multipart.form_body (str "XX")
       [part (str "name") name; part (str "persona") persona; part (str "file") recording] |}.

Definition ann : HttpRequest.HttpRequest := upload (str "Ann") (str "You sing.") (str "R123").
Definition broken : HttpRequest.HttpRequest := upload (str "Ann") (str "You sing.") (str "MP3").

Definition with_ann : ServerState bytes Z := (serve (Set_character ann) fresh).2.
Definition spoiled : ServerState bytes Z := (serve (Set_character broken) with_ann).2.

Lemma fresh_lives : lives (λ _, true) (λ z : Z, z) Reader.read_object json_quote fs_error order read_audio dir 0%Z fresh.
Proof. eapply lives_started; [apply empty_startable|apply started]. Qed.

Lemma fresh_settled : settled_in read_audio dir fresh.
Proof. exact (lives_settled _ _ _ _ _ _ _ _ _ (λ z, z) _ missing_unread _ fresh_lives). Qed.

Lemma fresh_running : running dir fresh.
Proof. exact (in_running _ _ _ fresh_settled). Qed.

Lemma with_ann_lives :
  lives (λ _, true) (λ z : Z, z) Reader.read_object json_quote fs_error order read_audio dir 0%Z with_ann.
Proof.
  eapply (lives_served _ _ _ _ _ _ _ _ _ fresh (Set_character ann)); [apply fresh_lives|by apply surjective_pairing|].
  destruct (served_status (Set_character ann) fresh 200) as (r & E & Hst); [by vm_compute|done|].
  rewrite E. intros response [= <-] H. congruence.
Qed.

Lemma with_ann_running : running dir with_ann.
Proof. exact (in_running _ _ _ (lives_settled _ _ _ _ _ _ _ _ _ (λ z, z) _ missing_unread _ with_ann_lives)). Qed.

Lemma with_ann_rereadable : rereadable (λ _, True) (character_ with_ann).
Proof.
  split; [|done]. apply Forall_forall. intros text Ht. apply Reader.text_chars.
  assert (forallb (forallb Reader.text_char)
    [name (character_ with_ann); preset (character_ with_ann); voice_file (character_ with_ann);
     transcript (character_ with_ann); persona (character_ with_ann)] = true) as H by by vm_compute.
  rewrite forallb_forall in H. by apply H, list_elem_of_In.
Qed.

(** A second upload that is refused: the recording of the first is gone. *)
Lemma refused_changes_nothing_witness :
  files (disk with_ann) !! recording dir = Some (str "R123") ∧
  character_ spoiled = character_ with_ann ∧
  ∃ data what, files (disk spoiled) !! recording dir = Some data ∧ read_audio (recording dir) (Some data) = Throw what.
Proof.
  split; [by vm_compute|].
  destruct (served_status (Set_character broken) with_ann 400) as (response & E & Hst); [by vm_compute|done|].
  destruct (refused_changes_nothing (λ _, true) (λ z : Z, z) Reader.read_object json_quote fs_error order read_audio dir 0%Z
    (λ z, z) (λ _, True) missing_unread (Set_character broken) with_ann response spoiled with_ann_running E Hst)
    as (Hc & _ & _ & _ & _ & Hrec).
  split; [exact Hc|]. destruct Hrec as [Hsame|Hbad]; [|exact Hbad].
  exfalso. revert Hsame. by vm_compute.
Defined.

(** ... and a restart brings up the default character instead. *)
Example spoiled_lost_on_restart :
  name (character_ spoiled) = str "Ann" ∧ name (character_ (start (restarted spoiled)).2) = str "F" ∧
  name (character_ (start (restarted with_ann)).2) = str "Ann".
Proof. split_and!; by vm_compute. Qed.

Lemma active_survives_restart_witness :
  ∃ s', start (restarted with_ann) = (Ok tt, s') ∧ character_ s' = reloaded (character_ with_ann) ∧
        is_Some (speaking_voice with_ann) ∧ speaking_voice s' = speaking_voice with_ann.
Proof.
  exact (active_survives_restart (λ _, true) (λ z : Z, z) Reader.read_object json_quote fs_error order read_audio dir 0%Z
    to_string (λ z, z) (λ _, True) (λ z, z) (λ z, 0 <= z)%Z missing_unread with_ann with_ann_lives with_ann_rereadable).
Defined.

Definition bob : HttpRequest.HttpRequest := upload (str "Bob") [] (str "R9").
Definition ann_id : bytes := str "{" ++ quote ++ str "id" ++ quote ++ str ":" ++ quote ++ str "ann" ++ quote ++ str "}".
Definition with_bob : ServerState bytes Z := (serve (Set_character bob) spoiled).2.

(** Ann again, after a refused upload and another character. *)
Lemma activate_reverts_witness :
  ∃ s3, serve (Activate ann_id) with_bob = (Ok (handle_character_get json_quote s3), s3) ∧
        character_ s3 = reloaded (character_ with_ann) ∧
        is_Some (speaking_voice with_ann) ∧ speaking_voice s3 = speaking_voice with_ann.
Proof.
  destruct (served_status (Set_character ann) fresh 200) as (response & E & Hst); [by vm_compute|done|].
  apply (activate_reverts (λ _, true) (λ z : Z, z) Reader.read_object json_quote fs_error order read_audio dir 0%Z
    to_string (λ z, z) (λ _, True) (λ z, z) (λ z, 0 <= z)%Z missing_unread fresh ann response with_ann with_bob ann_id
    fresh_running E Hst with_ann_rereadable); [|by vm_compute].
  eapply (visits_next _ _ _ _ _ _ _ _ _ _ _ (Set_character broken)); [apply surjective_pairing| |].
  { destruct (served_status (Set_character broken) with_ann 400) as (r' & E' & Hst'); [by vm_compute|done|].
    intros (r & Er & Hr). rewrite E' in Er. injection Er as <-. congruence. }
  eapply (visits_next _ _ _ _ _ _ _ _ _ _ _ (Set_character bob)); [apply surjective_pairing| |].
  { intros _. by vm_compute. }
  apply visits_here.
Defined.

(** The condition on the seed: numbers between 2^53 and 2^54 as doubles, the ties to even. A
    seed of a form is read as an integer and kept; it is read again through a double. *)
Definition to_53_bits (z : Z) : Z :=
  if (2 ^ 53 <? z)%Z && (z <? 2 ^ 54)%Z && Z.odd z then (if Z.odd (z / 2) then z + 1 else z - 1)%Z else z.

Definition seeded : HttpRequest.HttpRequest :=
  let part name data := {| Multipart.name := name; Multipart.filename := []; Multipart.data := data |} in
  {| HttpRequest.method := str "POST"; HttpRequest.path := str "/v1/character"; HttpRequest.query := [];
     HttpRequest.headers := {[ str "content-type" := str "multipart/form-data; boundary=XX" ]};
     HttpRequest.body := Multipart.form_body (str "XX")
       [part (str "name") (str "Cal"); part (str "tts_seed") (str "9007199254740993"); part (str "file") (str "R1")] |}.

Definition with_seed : ServerState bytes Z := (serve (Set_character seeded) fresh).2.

Example seed_rounded :
  tts_seed (character_ with_seed) = 9007199254740993%Z ∧
  tts_seed (character_ (start_characters (λ _, true) to_53_bits Reader.read_object json_quote fs_error read_audio dir 0%Z
    (restarted with_seed)).2) = 9007199254740992%Z.
Proof. split; by vm_compute. Qed.

(** The condition on the texts: a name of one NUL is taken, and its text does not say a name,
    neither on activation nor on a restart. *)
Definition nameless : HttpRequest.HttpRequest := upload [0%Z] [] (str "R1").

Definition nameless_id : bytes :=
  str "{" ++ quote ++ str "id" ++ quote ++ str ":" ++ quote ++ character_slug [0%Z] ++ quote ++ str "}".

Example nul_name_lost :
  status_of (Set_character nameless) fresh = 200%Z ∧
  status_of (Activate nameless_id) (serve (Set_character nameless) fresh).2 = 400%Z ∧
  name (character_ (serve (Set_character nameless) fresh).2) = [0%Z] ∧
  name (character_ (start (restarted (serve (Set_character nameless) fresh).2)).2) = str "F".
Proof. split_and!; by vm_compute. Qed.

End Sample.
