(* ===== verification/LlmManager.v ===== *)
(** The process of the language model (app/server/llm_manager.cpp): launching,
    waiting until it answers and stopping it, the Windows command line, and
    switching from one model to another (runtime.cpp). *)

From S2P Require Import Prelude.

(** * The command line *)

Record LlmModelSpec := {
  spec_id : bytes;
  spec_name : bytes;
  spec_path : bytes;
  extra_args : list bytes;
  cache_rollback : bool;
}.

Definition launch_args (server_exe host : bytes) (port : Z) (spec : LlmModelSpec) : list bytes :=
  [server_exe; str "-m"; spec_path spec; str "--host"; host; str "--port"; to_string port; str "-ngl"; str "99";
   str "-c"; str "8192"; str "--jinja"; str "--no-webui"; str "--cache-reuse"; str "256"; str "--parallel"; str "1";
   str "-t"; str "6"; str "--load-mode"; str "mlock"; str "-fa"; str "on"; str "-ctk"; str "q8_0"; str "-ctv"; str "q8_0"] ++
  extra_args spec.

(** [std::wstring wide(arg.begin(), arg.end())]: a [char] is signed. *)
Definition wide (c : Z) : Z := if (c <? 128)%Z then c else (65536 - 256 + c)%Z.

Definition needs_quotes (arg : bytes) : bool := existsb (λ c, (c =b 32) || (c =b 34)) arg.

Definition quoted_char (c : Z) : list Z := if c =b 34 then [92; 34]%Z else [c].

Definition quote_arg (arg : bytes) : list Z :=
  if needs_quotes arg then [34%Z] ++ concat (map quoted_char (map wide arg)) ++ [34%Z] else map wide arg.

(** One turn of the loop over the arguments. *)
Definition add_arg (line : list Z) (arg : bytes) : list Z :=
  (if bool_decide (line = []) then [] else line ++ [32%Z]) ++ quote_arg arg.

Definition command_line (args : list bytes) : list Z := foldl add_arg [] args.

(** * The process *)

(** What happened to the sidecar, in order. *)
Inductive event := Launched (id : bytes) | Stopped.

(** [process_handle_] is the process, with whether it has exited; [launches]
    counts the calls that create one. *)
Record LlmManager := {
  current_id_ : bytes;
  process_handle_ : option bool;
  launches : nat;
  history : list event;
}.

#[export] Instance LlmManager_settable : Settable LlmManager := fun r =>
  {| current_id_ := current_id_ r; process_handle_ := process_handle_ r; launches := launches r; history := history r |}.

Definition new_manager : LlmManager := {| current_id_ := []; process_handle_ := None; launches := 0; history := [] |}.

Section manager.
(** The platform, which files exist, the error of the n-th launch if it has one,
    and what the polls of the n-th process see before the deadline: whether it
    has exited, and the status of its health request. *)
Context (posix : bool) (server_exe : bytes) (installed : bytes → bool) (spawn_error : nat → option Z) (polls : nat → list (bool * Z)).

Definition start (spec : LlmModelSpec) (m : LlmManager) : option bytes * LlmManager :=
  if bool_decide (is_Some (process_handle_ m)) then (Some (str "a sidecar is already running; stop it first"), m)
  else if negb (installed server_exe) then (Some (str "llama-server not found at " ++ server_exe), m)
  else if negb (installed (spec_path spec)) then (Some (str "model file not found: " ++ spec_path spec), m)
  else
    match spawn_error (launches m) with
    | Some error =>
        (Some (str "could not start llama-server (" ++ (if posix then str "errno " else str "error ") ++ to_string error ++ str ")"),
         m <| launches := S (launches m) |>)
    | None =>
        (None, m <| launches := S (launches m) |> <| process_handle_ := Some false |> <| current_id_ := spec_id spec |>
                 <| history := history m ++ [Launched (spec_id spec)] |>)
    end.

(** On POSIX a child that exited is never waited for here, and a signal still
    reaches it. *)
Definition process_running (m : LlmManager) : bool :=
  match process_handle_ m with None => false | Some exited => if posix then true else negb exited end.

Fixpoint wait_loop (seen : list (bool * Z)) (m : LlmManager) : option bytes * LlmManager :=
  match seen with
  | [] => (Some (str "llama-server did not become healthy in " ++ to_string 300 ++ str " s"), m)
  | (exited, health) :: seen =>
      let m := m <| process_handle_ := (λ was, was || exited) <$> process_handle_ m |> in
      if negb (process_running m) then (Some (str "llama-server exited during model load; see llama_server.stderr.log"), m)
      else if health =b 200 then (None, m) else wait_loop seen m
  end.

(** [wait_ready(300, error)]: the polls of the latest launch. *)
Definition wait_ready (m : LlmManager) : option bytes * LlmManager := wait_loop (polls (pred (launches m))) m.

Definition stop (m : LlmManager) : LlmManager :=
  match process_handle_ m with
  | None => m
  | Some _ => m <| process_handle_ := None |> <| current_id_ := [] |> <| history := history m ++ [Stopped] |>
  end.

Definition current_model_id (m : LlmManager) : bytes := current_id_ m.

(** ** Switching *)

Context (llm_models : list LlmModelSpec).

Definition find_llm_spec (id : bytes) : option LlmModelSpec :=
  if bool_decide (id = []) then None else List.find (λ spec, bool_decide (spec_id spec = id)) llm_models.

Definition active_llm_cache_rollback (llm_manager : option LlmManager) : bool :=
  match llm_manager with
  | None => true
  | Some m => match find_llm_spec (current_model_id m) with Some spec => cache_rollback spec | None => true end
  end.

(** [start(spec, error) && wait_ready(300, error)]. *)
Definition bring_up (spec : LlmModelSpec) (m : LlmManager) : option bytes * LlmManager :=
  match start spec m with (None, m) => wait_ready m | failed => failed end.

(** The manager, and whether the decode rate was forgotten. *)
Definition switch_manager (spec : LlmModelSpec) (m : LlmManager) : outcome () * LlmManager * bool :=
  let previous := current_model_id m in
  if bool_decide (previous = spec_id spec) && process_running m then (Ok tt, m, false)
  else
    match bring_up spec (stop m) with
    | (None, m) => (Ok tt, m, true)
    | (Some error, m) =>
        let m := stop m in
        let m := match find_llm_spec previous with Some fallback => (bring_up fallback m).2 | None => m end in
        (Throw (str "could not switch to " ++ spec_name spec ++ str ": " ++ error), m, true)
    end.

Definition switch_llm_model (spec : LlmModelSpec) (llm_manager : option LlmManager) : outcome () * option LlmManager * bool :=
  match llm_manager with
  | None => (Throw (str "this server does not manage the LLM sidecar"), None, false)
  | Some m => let '(result, m, forgotten) := switch_manager spec m in (result, Some m, forgotten)
  end.

(** * One sidecar at a time *)

(** The model that runs after a history, [None] when one is launched while
    another runs, or stopped while none does. *)
Definition replay_event (running : option (option bytes)) (e : event) : option (option bytes) :=
  match running, e with
  | Some None, Launched id => Some (Some id)
  | Some (Some _), Stopped => Some None
  | _, _ => None
  end.

Definition replay (h : list event) : option (option bytes) := foldl replay_event (Some None) h.

Record manager_ok (m : LlmManager) : Prop := {
  ok_history : replay (history m) = Some ((λ _, current_id_ m) <$> process_handle_ m);
  ok_idle : process_handle_ m = None → current_id_ m = [];
}.

Lemma history_snoc h e : replay (h ++ [e]) = replay_event (replay h) e.
Proof. unfold replay. by rewrite foldl_app. Qed.

Lemma new_manager_ok : manager_ok new_manager.
Proof. by split. Qed.

Lemma start_ok spec m :
  manager_ok m →
  manager_ok (start spec m).2 ∧
  ((start spec m).1 = None → process_handle_ (start spec m).2 = Some false ∧ current_id_ (start spec m).2 = spec_id spec ∧
     launches (start spec m).2 = S (launches m)) ∧
  ((start spec m).1 ≠ None → process_handle_ (start spec m).2 = process_handle_ m ∧ current_id_ (start spec m).2 = current_id_ m).
Proof.
  intros Hm. pose proof Hm as [Hh Hi]. unfold start. case_bool_decide as Hp; [cbn [fst snd]; by split_and!|].
  assert (process_handle_ m = None) as Hn by (destruct (process_handle_ m); [by destruct Hp|done]).
  destruct (negb _); [cbn [fst snd]; by split_and!|]. destruct (negb _); [cbn [fst snd]; by split_and!|].
  destruct (spawn_error (launches m)); cbn [fst snd]; [by split_and!|]. split_and!; [|done|done].
  split; [|done]. change (replay (history m ++ [Launched (spec_id spec)]) = Some (Some (spec_id spec))).
  by rewrite history_snoc, Hh, Hn.
Qed.

Lemma wait_loop_ok seen m :
  manager_ok m → is_Some (process_handle_ m) →
  manager_ok (wait_loop seen m).2 ∧ current_id_ (wait_loop seen m).2 = current_id_ m ∧
  launches (wait_loop seen m).2 = launches m ∧ is_Some (process_handle_ (wait_loop seen m).2) ∧
  ((wait_loop seen m).1 = None → process_running (wait_loop seen m).2 = true ∧ ∃ exited, (exited, 200%Z) ∈ seen).
Proof.
  revert m. induction seen as [|[exited health] seen IH]; intros m Hm [was Hp]; cbn [wait_loop]; [by split_and!|].
  set (m1 := m <| process_handle_ := (λ was, was || exited) <$> process_handle_ m |>).
  assert (manager_ok m1 ∧ is_Some (process_handle_ m1) ∧ current_id_ m1 = current_id_ m ∧ launches m1 = launches m)
    as (Hm1 & Hp1 & Hc1 & Hl1).
  { destruct Hm as [Hh Hi]. unfold m1. rewrite Hp. split_and!; [|by eexists|done|done].
    split; [|done]. change (replay (history m) = Some (Some (current_id_ m))). by rewrite Hh, Hp. }
  destruct (process_running m1) eqn:Er; cbn [negb]; [|by split_and!].
  destruct (Z.eqb_spec health 200) as [->|].
  - split_and!; try done. intros _. split; [done|]. exists exited. by left.
  - destruct (IH m1 Hm1 Hp1) as (H1 & H2 & H3 & H4 & H5). split_and!; [done|by rewrite H2|by rewrite H3|done|].
    intros H. destruct (H5 H) as (Hr & e & Hin). split; [done|]. exists e. by right.
Qed.

Lemma bring_up_ok spec m :
  manager_ok m → process_handle_ m = None →
  let r := bring_up spec m in
  manager_ok r.2 ∧ (process_handle_ r.2 ≠ None → current_id_ r.2 = spec_id spec) ∧
  (r.1 = None → process_running r.2 = true ∧ current_id_ r.2 = spec_id spec ∧
     ∃ exited, (exited, 200%Z) ∈ polls (pred (launches r.2))).
Proof.
  intros Hm Hn. unfold bring_up. pose proof (start_ok spec m Hm) as (H1 & H2 & H3).
  destruct (start spec m) as [[error|] m1]; cbn [fst snd] in *.
  - destruct (H3 ltac:(done)) as [Hp _]. split_and!; [done|by rewrite Hp|done].
  - destruct (H2 eq_refl) as (Hp & Hc & Hl). unfold wait_ready.
    destruct (wait_loop_ok (polls (pred (launches m1))) m1 H1) as (H4 & H5 & H6 & H7 & H8); [by exists false|].
    split_and!; [done|by rewrite H5|]. intros H. destruct (H8 H) as (Hr & Hex). by rewrite H5, H6.
Qed.

Lemma stop_ok m : manager_ok m → manager_ok (stop m) ∧ process_handle_ (stop m) = None.
Proof.
  intros Hm. pose proof Hm as [Hh Hi]. unfold stop. destruct (process_handle_ m) as [p|] eqn:Hp; [|by split].
  split; [|done]. split; [|done]. change (replay (history m ++ [Stopped]) = Some None). by rewrite history_snoc, Hh.
Qed.

Lemma find_spec_id id spec : find_llm_spec id = Some spec → spec_id spec = id.
Proof.
  unfold find_llm_spec. case_bool_decide; [done|]. intros Hf. apply find_some in Hf as [_ Hf]. by apply bool_decide_eq_true in Hf.
Qed.

Lemma switch_ok spec m result m' forgotten :
  manager_ok m → switch_manager spec m = (result, m', forgotten) →
  manager_ok m' ∧
  match result with
  | Ok _ => current_model_id m' = spec_id spec ∧ process_running m' = true ∧
            (m' = m ∨ ∃ exited, (exited, 200%Z) ∈ polls (pred (launches m')))
  | Throw _ => current_model_id m' = current_model_id m ∨ process_handle_ m' = None
  end.
Proof.
  intros Hm. unfold switch_manager. destruct (stop_ok m Hm) as [Hs Hn].
  destruct (bool_decide (current_model_id m = spec_id spec) && process_running m) eqn:E.
  { intros [= <- <- _]. apply andb_true_iff in E as [->%bool_decide_eq_true Hr]. split_and!; [done|done|done|by left]. }
  pose proof (bring_up_ok spec (stop m) Hs Hn) as (H1 & H2 & H3). cbn zeta in *.
  destruct (bring_up spec (stop m)) as [[error|] m1]; cbn [fst snd] in *.
  - intros [= <- <- _]. destruct (stop_ok m1 H1) as [Hs1 Hn1].
    destruct (find_llm_spec (current_model_id m)) as [fallback|] eqn:Ef; [|split; [done|by right]].
    pose proof (bring_up_ok fallback (stop m1) Hs1 Hn1) as (H4 & H5 & _). cbn zeta in *. split; [done|].
    destruct (process_handle_ (bring_up fallback (stop m1)).2) eqn:Ep; [|by right]. left.
    unfold current_model_id at 1. rewrite H5 by done. by apply find_spec_id.
  - intros [= <- <- _]. split; [done|]. destruct (H3 eq_refl) as (Hr & Hc & He). split_and!; [done|done|by right].
Qed.

(** The manager after a sequence of switches. *)
Definition switched (specs : list LlmModelSpec) (m : LlmManager) : LlmManager :=
  foldl (λ m spec, (switch_manager spec m).1.2) m specs.

Lemma switched_ok specs m : manager_ok m → manager_ok (switched specs m).
Proof.
  revert m. induction specs as [|spec specs IH]; intros m Hm; [done|]. apply IH.
  destruct (switch_manager spec m) as [[result m'] forgotten] eqn:E. by destruct (switch_ok _ _ _ _ _ Hm E).
Qed.

(** However often the chat model is switched, two models never run at a time:
    each launch follows a stop. When a switch succeeds the requested model runs:
    it ran before, or has answered its health request. When it fails, the model
    that ran before is running again or none is. *)
Theorem switch_spec specs spec result m' forgotten :
  let m := switched specs new_manager in
  switch_manager spec m = (result, m', forgotten) →
  replay (history m') = Some ((λ _, current_model_id m') <$> process_handle_ m') ∧
  match result with
  | Ok _ => current_model_id m' = spec_id spec ∧ process_running m' = true ∧
            (m' = m ∨ ∃ exited, (exited, 200%Z) ∈ polls (pred (launches m')))
  | Throw _ => current_model_id m' = current_model_id m ∨ process_handle_ m' = None
  end.
Proof.
  intros m E. destruct (switch_ok spec m result m' forgotten) as [[Hh _] Hr]; [|exact E|by split].
  apply switched_ok, new_manager_ok.
Qed.

End manager.

(** * The arguments the process gets *)

(** How Windows splits a command line: the program up to a space, or between
    quotes; behind it an argument ends at white space outside quotes, a quote
    behind an odd number of backslashes is a character, and 2n backslashes in
    front of a quote stand for n. *)
Definition backslashes (n : nat) : list Z := replicate n 92%Z.

Definition flush (arg : option (list Z)) (slashes : nat) : list (list Z) :=
  match arg, slashes with None, O => [] | _, _ => [default [] arg ++ backslashes slashes] end.

Fixpoint split_args (arg : option (list Z)) (quoted : bool) (slashes : nat) (line : list Z) : list (list Z) :=
  match line with
  | [] => flush arg slashes
  | c :: line =>
      if c =b 92 then split_args arg quoted (S slashes) line
      else if c =b 34 then
        let text := default [] arg ++ backslashes (slashes / 2) in
        if Nat.odd slashes then split_args (Some (text ++ [34%Z])) quoted 0 line
        else split_args (Some text) (negb quoted) 0 line
      else if ((c =b 32) || (c =b 9)) && negb quoted then flush arg slashes ++ split_args None false 0 line
      else split_args (Some (default [] arg ++ backslashes slashes ++ [c])) quoted 0 line
  end.

Fixpoint until (stop : Z → bool) (line : list Z) : list Z * list Z :=
  match line with
  | [] => ([], [])
  | c :: line => if stop c then ([], line) else let '(s, rest) := until stop line in (c :: s, rest)
  end.

Definition argv (line : list Z) : list (list Z) :=
  match line with
  | 34%Z :: line => let '(program, rest) := until (Z.eqb 34) line in program :: split_args None false 0 rest
  | _ => let '(program, rest) := until (λ c, (c =b 32) || (c =b 9)) line in program :: split_args None false 0 rest
  end.

(** Arguments of ASCII without tabs in which no backslash stands in front of a
    quote, or at the end of an argument that is put in quotes. *)
Fixpoint slash_safe (quotes : bool) (arg : bytes) : bool :=
  match arg with
  | [] => true
  | c :: rest =>
      (if c =b 92 then negb (bool_decide (head rest = Some 34%Z)) && negb (quotes && bool_decide (rest = [])) else true) && slash_safe quotes rest
  end.

Definition plain_char (c : Z) : bool := (0 <? c)%Z && (c <? 128)%Z && negb (c =b 9).

Definition arg_ok (arg : bytes) : Prop :=
  arg ≠ [] ∧ Forall (λ c, plain_char c = true) arg ∧ slash_safe (needs_quotes arg) arg = true.

Definition program_ok (arg : bytes) : Prop := arg_ok arg ∧ Forall (λ c, c ≠ 34%Z) arg.

Definition holds (arg : option (list Z)) (slashes : nat) (text : list Z) : Prop :=
  default [] arg ++ backslashes slashes = text.

Lemma backslashes_S n : backslashes (S n) = backslashes n ++ [92%Z].
Proof. unfold backslashes. replace (S n) with (n + 1) by lia. by rewrite replicate_add. Qed.

Lemma flush_holds arg slashes text : holds arg slashes text → text ≠ [] → flush arg slashes = [text].
Proof. unfold holds, flush. intros <-. destruct arg, slashes; done. Qed.

Lemma split_slash arg quoted slashes line : split_args arg quoted slashes (92%Z :: line) = split_args arg quoted (S slashes) line.
Proof. done. Qed.

Lemma split_plain arg quoted slashes text c line :
  holds arg slashes text → c ≠ 92%Z → c ≠ 34%Z → (quoted = true ∨ c ≠ 32 ∧ c ≠ 9)%Z →
  split_args arg quoted slashes (c :: line) = split_args (Some (text ++ [c])) quoted 0 line.
Proof.
  intros Hh H1 H2 H3. cbn [split_args]. rewrite (proj2 (Z.eqb_neq _ _) H1), (proj2 (Z.eqb_neq _ _) H2).
  assert (((c =b 32) || (c =b 9)) && negb quoted = false) as ->.
  { destruct H3 as [->|[? ?]]; [by rewrite andb_false_r|]. by rewrite !(proj2 (Z.eqb_neq _ _)). }
  unfold holds in Hh. rewrite app_assoc, Hh. done.
Qed.

Lemma plain_char_spec c : plain_char c = true → (0 < c < 128 ∧ c ≠ 9)%Z.
Proof. unfold plain_char. lia. Qed.

Lemma wide_plain arg : Forall (λ c, plain_char c = true) arg → map wide arg = arg.
Proof.
  induction 1 as [|c arg Hc _ IH]; [done|]. cbn [map]. apply plain_char_spec in Hc. rewrite IH. unfold wide.
  by rewrite (proj2 (Z.ltb_lt _ _)) by lia.
Qed.

(** Inside quotes. *)
Lemma split_quoted s : ∀ arg slashes text tail,
  holds arg slashes text → Forall (λ c, plain_char c = true) s → slash_safe true s = true →
  (head s = Some 34%Z ∨ s = [] → slashes = 0) →
  split_args arg true slashes (concat (map quoted_char s) ++ 34%Z :: tail) = split_args (Some (text ++ s)) false 0 tail.
Proof.
  induction s as [|c s IH]; intros arg slashes text tail Hh Hs Hsafe Hk.
  - rewrite (Hk (or_intror eq_refl)) in *. cbn [map concat app split_args]. change (34 =b 92) with false. cbn [Z.eqb Pos.eqb Nat.odd negb].
    change (Nat.odd 0) with false. change (0 / 2) with 0. cbn iota. unfold holds in Hh. by rewrite Hh, app_nil_r.
  - apply Forall_cons in Hs as [Hc Hs]. cbn [slash_safe] in Hsafe. apply andb_true_iff in Hsafe as [Hc92 Hsafe].
    cbn [map concat]. unfold quoted_char at 1. destruct (Z.eqb_spec c 34) as [->|Hq].
    + rewrite (Hk (or_introl eq_refl)) in *. cbn [app]. rewrite split_slash. cbn [split_args].
      change (34 =b 92) with false. change (34 =b 34) with true. change (Nat.odd 1) with true. change (1 / 2) with 0. cbn iota.
      unfold holds in Hh. rewrite Hh. rewrite (IH _ _ (text ++ [34%Z])); [by rewrite <- app_assoc| |done|done|done].
      unfold holds. cbn. by rewrite app_nil_r.
    + cbn [app]. destruct (Z.eqb_spec c 92) as [->|Hb].
      * rewrite split_slash. rewrite (IH _ _ (text ++ [92%Z])); [by rewrite <- app_assoc| |done|done|].
        -- unfold holds in *. by rewrite backslashes_S, app_assoc, Hh.
        -- apply andb_true_iff in Hc92 as [Hn1%negb_true_iff%bool_decide_eq_false Hn2%negb_true_iff%bool_decide_eq_false]. tauto.
      * rewrite (split_plain _ _ _ text) by (try done; by left).
        rewrite (IH _ _ (text ++ [c])); [by rewrite <- app_assoc| |done|done|done].
        unfold holds. cbn. by rewrite app_nil_r.
Qed.

(** Outside quotes. *)
Lemma split_unquoted s : ∀ arg slashes text tail,
  holds arg slashes text → Forall (λ c, plain_char c = true) s → needs_quotes s = false →
  ∃ arg' slashes', holds arg' slashes' (text ++ s) ∧
    split_args arg false slashes (s ++ tail) = split_args arg' false slashes' tail.
Proof.
  induction s as [|c s IH]; intros arg slashes text tail Hh Hs Hq.
  - exists arg, slashes. by rewrite app_nil_r.
  - apply Forall_cons in Hs as [Hc%plain_char_spec Hs]. cbn [needs_quotes existsb] in Hq. apply orb_false_iff in Hq as [Hq Hqs].
    apply orb_false_iff in Hq as [H32%Z.eqb_neq H34%Z.eqb_neq]. cbn [app]. destruct (decide (c = 92)%Z) as [->|Hb].
    + rewrite split_slash. destruct (IH arg (S slashes) (text ++ [92%Z]) tail) as (arg' & k' & Hh' & E); [|done|done|].
      { unfold holds in *. by rewrite backslashes_S, app_assoc, Hh. }
      exists arg', k'. by rewrite <- app_assoc in Hh'.
    + rewrite (split_plain _ _ _ text _ _ Hh Hb H34 (or_intror (conj H32 (proj2 Hc)))).
      destruct (IH (Some (text ++ [c])) 0 (text ++ [c]) tail) as (arg' & k' & Hh' & E); [|done|done|].
      { unfold holds. cbn. by rewrite app_nil_r. }
      exists arg', k'. by rewrite <- app_assoc in Hh'.
Qed.

Definition ends (tail : list Z) : Prop := tail = [] ∨ ∃ rest, tail = 32%Z :: rest.

Lemma split_end arg slashes text tail :
  holds arg slashes text → (text ≠ [] ∨ arg ≠ None) → ends tail →
  split_args arg false slashes tail = text :: split_args None false 0 (tl tail).
Proof.
  intros Hh Hne He. assert (flush arg slashes = [text]) as Hf.
  { unfold holds in Hh. unfold flush. destruct Hne; destruct arg, slashes; by subst. }
  destruct He as [->|[rest ->]]; cbn [split_args tl]; [by rewrite Hf|].
  change (32 =b 92) with false. change (32 =b 34) with false. change (32 =b 32) with true. cbn [orb andb negb]. by rewrite Hf.
Qed.

Lemma split_arg arg tail :
  arg_ok arg → ends tail →
  split_args None false 0 (quote_arg arg ++ tail) = arg :: split_args None false 0 (tl tail).
Proof.
  intros (Hne & Hp & Hs) He. unfold quote_arg. rewrite (wide_plain arg Hp). destruct (needs_quotes arg) eqn:Eq.
  - rewrite <- !app_assoc. cbn [app split_args]. change (34 =b 92) with false. change (34 =b 34) with true. cbn iota.
    change (Nat.odd 0) with false. change (0 / 2) with 0. cbn [negb default app backslashes replicate].
    rewrite (split_quoted arg (Some []) 0 [] tail); [|done|done|done|done]. cbn [app].
    apply split_end; [by unfold holds; cbn; rewrite app_nil_r|by left|done].
  - destruct (split_unquoted arg None 0 [] tail) as (a & k & Hh & ->); [done|done|done|].
    apply split_end; [done|by left|done].
Qed.

Lemma quote_arg_ne arg : arg_ok arg → quote_arg arg ≠ [].
Proof. intros (Hne & Hp & _). unfold quote_arg. rewrite (wide_plain arg Hp). by destruct (needs_quotes arg), arg. Qed.

Lemma command_line_cons line args :
  line ≠ [] → foldl add_arg line args = line ++ concat (map (λ arg, 32%Z :: quote_arg arg) args).
Proof.
  revert line. induction args as [|arg args IH]; intros line Hne; cbn [foldl map concat]; [by rewrite app_nil_r|].
  unfold add_arg at 2. rewrite bool_decide_eq_false_2, <- app_assoc by done. rewrite IH; [by rewrite <- !app_assoc|].
  by destruct line.
Qed.

Lemma split_tail args :
  Forall arg_ok args → split_args None false 0 (tl (concat (map (λ arg, 32%Z :: quote_arg arg) args))) = args.
Proof.
  induction 1 as [|arg args Ha Hargs IH]; [done|]. cbn [map concat app tl]. rewrite split_arg; [by f_equal|done|].
  destruct args; [by left|right; by eexists].
Qed.

Lemma until_stop stop s c tail :
  Forall (λ c, stop c = false) s → stop c = true → until stop (s ++ c :: tail) = (s, tail).
Proof. intros Hs Hc. induction Hs as [|d s Hd _ IH]; cbn [app until]; [by rewrite Hc|]. by rewrite Hd, IH. Qed.

Lemma until_end stop s : Forall (λ c, stop c = false) s → until stop s = (s, []).
Proof. induction 1 as [|d s Hd _ IH]; cbn [until]; [done|]. by rewrite Hd, IH. Qed.

(** The process is started with the arguments that were meant: Windows
    splits the command line back into exactly these, also with spaces and quotes
    in them, as long as they are of ASCII, without tabs, and no backslash stands
    where it would escape a quote. *)
Theorem command_line_split program args :
  program_ok program → Forall arg_ok args → argv (command_line (program :: args)) = program :: args.
Proof.
  intros [Hp Hnq] Ha. unfold command_line. cbn [foldl]. unfold add_arg at 2. rewrite bool_decide_eq_true_2 by done. cbn [app].
  rewrite command_line_cons by by apply quote_arg_ne. destruct Hp as (Hne & Hplain & _).
  pose proof (split_tail args Ha) as Htail. assert (Hends : ends (concat (map (λ arg, 32%Z :: quote_arg arg) args))).
  { destruct args; [by left|right; by eexists]. }
  set (rest := concat (map (λ arg, 32%Z :: quote_arg arg) args)) in *.
  unfold quote_arg. rewrite (wide_plain program Hplain). destruct (needs_quotes program) eqn:Eq.
  - assert (concat (map quoted_char program) = program) as ->.
    { clear -Hnq. induction Hnq as [|c s Hc _ IH]; [done|]. cbn [map concat]. unfold quoted_char at 1. rewrite IH.
      by rewrite (proj2 (Z.eqb_neq _ _)). }
    rewrite <- !app_assoc. cbn [app argv]. rewrite until_stop; [|by eapply Forall_impl; [exact Hnq|]; intros c Hc; apply Z.eqb_neq|done].
    f_equal. rewrite <- Htail. by destruct Hends as [->|[r ->]].
  - assert (Forall (λ c, (c =b 32) || (c =b 9) = false) program) as Hst.
    { apply List.Forall_forall. intros c Hc. pose proof (proj1 (List.Forall_forall _ _) Hplain c Hc) as H%plain_char_spec.
      unfold needs_quotes in Eq. rewrite <- not_true_iff_false, existsb_exists in Eq.
      destruct (Z.eqb_spec c 32) as [->|]; [destruct Eq; exists 32%Z; by split|]. cbn. apply Z.eqb_neq. lia. }
    assert (argv (program ++ rest) =
              let '(p, rest) := until (λ c, (c =b 32) || (c =b 9)) (program ++ rest) in p :: split_args None false 0 rest) as ->.
    { destruct program as [|c program]; [done|]. apply Forall_cons in Hnq as [Hc _]. cbn [app]. unfold argv.
      repeat case_match; done. }
    rewrite <- Htail. destruct Hends as [->|[r ->]]; [rewrite app_nil_r, until_end by done|rewrite until_stop by done]; done.
Qed.

(** * Examples *)

Module Launching.

(** [{"enable_thinking": false}] as an argument. *)
Definition thinking : bytes := str "{" ++ [34%Z] ++ str "enable_thinking" ++ [34%Z] ++ str ": false}".

Lemma command_line_split_witness :
  argv (command_line [str "C:\llama\llama server.exe"; str "--chat-template-kwargs"; thinking; str "-c"]) =
  [str "C:\llama\llama server.exe"; str "--chat-template-kwargs"; thinking; str "-c"].
Proof.
  assert (∀ arg, negb (bool_decide (arg = [])) && forallb plain_char arg && slash_safe (needs_quotes arg) arg = true → arg_ok arg) as Hok.
  { intros arg [[H1%negb_true_iff%bool_decide_eq_false H2]%andb_true_iff H3]%andb_true_iff. split_and!; [done| |done].
    apply List.Forall_forall. by apply forallb_forall. }
  apply command_line_split.
  - split; [by apply Hok; vm_compute|]. apply (bool_decide_unpack _). by vm_compute.
  - repeat (apply Forall_cons; split; [by apply Hok; vm_compute|]). apply Forall_nil_2.
Defined.

(** A string that holds an escaped quote does not arrive, ... *)
Example escaped_quote_lost :
  let arg := [34; 92; 34; 32; 34]%Z in
  argv (command_line [str "llama"; arg; str "-c"]) ≠ [str "llama"; arg; str "-c"].
Proof. by vm_compute. Qed.

(** ... and neither does a path with a letter outside ASCII. *)
Example foreign_path_lost :
  let path := [67; 58; 92; 195; 169]%Z in argv (command_line [str "llama"; path]) ≠ [str "llama"; path].
Proof. by vm_compute. Qed.

Definition small : LlmModelSpec := {| spec_id := str "small"; spec_name := str "Small"; spec_path := str "s.gguf"; extra_args := []; cache_rollback := true |}.
Definition large : LlmModelSpec := {| spec_id := str "large"; spec_name := str "Large"; spec_path := str "l.gguf"; extra_args := []; cache_rollback := false |}.

(** The second process exits while it loads. *)
Definition polls (n : nat) : list (bool * Z) := if n =? 1 then [(false, 503%Z); (true, 0%Z); (true, 0%Z)] else [(false, 503%Z); (false, 200%Z)].

Definition switch (posix : bool) := switch_manager posix (str "llama") (λ _, true) (λ _, None) polls [small; large].
Definition switched_to (posix : bool) := switched posix (str "llama") (λ _, true) (λ _, None) polls [small; large].
Definition running_small (posix : bool) : LlmManager := switched_to posix [small] new_manager.

(** A switch that fails goes back to the model that ran. *)
Lemma switch_spec_witness :
  let '(result, m', _) := switch false large (running_small false) in
  is_ok result = false ∧ current_model_id m' = str "small" ∧ replay (history m') = Some (Some (str "small")) ∧
  history m' = [Launched (str "small"); Stopped; Launched (str "large"); Stopped; Launched (str "small")].
Proof.
  destruct (switch false large (running_small false)) as [[result m'] forgotten] eqn:E.
  pose proof (switch_spec false (str "llama") (λ _, true) (λ _, None) polls [small; large] [small] large result m' forgotten E) as [Hh _].
  revert E Hh. vm_compute (switch false large (running_small false)). intros [= <- <- _] Hh. by split_and!.
Defined.

(** On POSIX the exit is not noticed: the switch waits until its deadline. *)
Example exit_unnoticed :
  (switch true large (running_small true)).1.1 =
    Throw (str "could not switch to Large: llama-server did not become healthy in 300 s") ∧
  (switch false large (running_small false)).1.1 =
    Throw (str "could not switch to Large: llama-server exited during model load; see llama_server.stderr.log").
Proof. by vm_compute. Qed.

End Launching.
