(* ===== verification/SettingsStore.v ===== *)
(** The requests that read and change the roleplay settings, with the switch of
    the chat model that may come with them, the log of typing episodes and the
    summary of the reference voice (app/server/runtime.cpp). *)

From S2P Require Import Prelude FileTree FlatJson Character RoleplayModel CharacterStore LlmManager.
From S2P Require Json HttpRequest.
From stdpp Require Import gmap.

(** The server with the sidecar it owns and the decode rate it has measured. *)
Record settings_state {Audio Double : Type} := {
  server : ServerState Audio Double;
  llm_manager_ : option LlmManager;
  llm_decode_tps_ema_ : Double;
}.
Arguments settings_state : clear implicits.

#[export] Instance settings_state_settable {Audio Double} : Settable (settings_state Audio Double) := fun r =>
  {| server := server r; llm_manager_ := llm_manager_ r; llm_decode_tps_ema_ := llm_decode_tps_ema_ r |}.

Section settings.
Context {Double Float Audio : Type} (integral : Double → bool) (to_i64 : Double → Z).
Context (literal : Z → Z → Double) (leb ltb : Double → Double → bool) (show_double : Double → bytes).
Context (cjson_parse : bytes → Json.cJSON Double * nat + Z) (json_quote : bytes → bytes) (filesystem_error : bytes → path → bytes).
Context (character_dir : path) (llm_port : Z).
(** The sidecar: see LlmManager. *)
Context (posix : bool) (server_exe : bytes) (spawn_error : nat → option Z) (polls : nat → list (bool * Z)) (llm_models : list LlmModelSpec).

Notation app := (settings_state Audio Double).
Notation error_response := (HttpRequest.error_response json_quote).
Notation json_response body := (HttpRequest.json_response body 200).
Notation find_llm_spec := (find_llm_spec llm_models).

Definition model_installed (s : app) (file : bytes) : bool := exists_ (disk (server s)) (path_of file).

Definition bool_text (b : bool) : bytes := if b then str "true" else str "false".

Definition spec_text (s : app) (spec : LlmModelSpec) : bytes :=
  str "{" ++ json_member (str "id") (json_quote (spec_id spec)) ++ str "," ++ json_member (str "name") (json_quote (spec_name spec)) ++
  str "," ++ json_member (str "installed") (bool_text (model_installed s (spec_path spec))) ++ str "}".

Definition llm_settings_json (s : app) : bytes :=
  let settings := llm_settings_ (server s) in
  let current := match llm_manager_ s with Some m => current_model_id m | None => [] end in
  let specs :=
    match map (spec_text s) llm_models with
    | [] => []
    | spec :: specs => spec ++ concat (map (λ spec, str "," ++ spec) specs)
    end in
  str "{" ++ json_member (str "master_prompt") (json_quote (master_prompt settings)) ++
  str "," ++ json_member (str "temperature") (show_double (temperature settings)) ++
  str "," ++ json_member (str "top_p") (show_double (top_p settings)) ++
  str "," ++ json_member (str "repeat_penalty") (show_double (repeat_penalty settings)) ++
  str "," ++ json_member (str "max_tokens") (to_string (max_tokens settings)) ++
  str "," ++ json_member (str "length_ramp") (bool_text (length_ramp settings)) ++
  str "," ++ json_member (str "cache_rollback") (bool_text (active_llm_cache_rollback llm_models (llm_manager_ s))) ++
  str "," ++ json_member (str "model") (json_quote current) ++
  str "," ++ json_member (str "models") (str "[" ++ specs ++ str "]}").

Definition handle_llm_settings_get (s : app) : HttpRequest.HttpResponse := json_response (llm_settings_json s).

(** The settings the body asks for, but for the model. *)
Definition number_edit (body : Json.Value Double) (key : bytes) (old : Double) : Double :=
  match Json.find body key with Some (Json.Number x) => x | _ => old end.

Definition edited_settings (body : Json.Value Double) (old : LlmSettings Double) : outcome (LlmSettings Double) :=
  match Json.find body (str "reset") with
  | Some (Json.Bool true) => Ok (default_llm_settings literal)
  | _ =>
      max_tokens ← Json.optional_i64 integral to_i64 body (str "max_tokens") (max_tokens old);
      Ok {| master_prompt := Json.optional_string body (str "master_prompt") (master_prompt old);
            temperature := number_edit body (str "temperature") (temperature old);
            top_p := number_edit body (str "top_p") (top_p old);
            repeat_penalty := number_edit body (str "repeat_penalty") (repeat_penalty old);
            max_tokens := max_tokens;
            length_ramp := Json.optional_bool body (str "length_ramp") (length_ramp old);
            model := model old |}
  end.

(** The model the body asks for: none, one to switch to, or a refusal. *)
Definition requested_model (s : app) (body : Json.Value Double) : option LlmModelSpec + HttpRequest.HttpResponse :=
  match Json.find body (str "model") with
  | Some (Json.String requested) =>
      if bool_decide (requested = []) then inl None
      else match find_llm_spec requested with
      | None => inr (error_response 400 (str "unknown chat model: " ++ requested) (str "invalid_request_error"))
      | Some spec =>
          if negb (model_installed s (spec_path spec)) then
            inr (error_response 400 (spec_name spec ++ str " is not installed yet") (str "invalid_request_error"))
          else inl (Some spec)
      end
  | _ => inl None
  end.

(** [switch_llm_model] on the server. *)
Definition switch_to (spec : LlmModelSpec) : io app () := λ s,
  let '(result, manager, forgotten) :=
    switch_llm_model posix server_exe (model_installed s) spawn_error polls llm_models spec (llm_manager_ s) in
  (result, s <| llm_manager_ := manager |> <| llm_decode_tps_ema_ := if forgotten : bool then literal 0 0 else llm_decode_tps_ema_ s |>).

Definition set_server (f : ServerState Audio Double → ServerState Audio Double) : io app () := io_modify (λ s, s <| server := f (server s) |>).

Definition save_settings (settings : LlmSettings Double) : io app () :=
  s ← io_get;
  t ← io_lift (save_llm_settings literal leb ltb show_double filesystem_error (disk (server s)) character_dir settings);
  set_server (λ srv, srv <| disk := t |>).

Definition warm_settings : io app () :=
  s ← io_get; set_server (λ srv, (warm_llm_system_prompt json_quote llm_port srv).2).

(** A failure as a response. *)
Definition or_respond (m : io app ()) (respond : bytes → HttpRequest.HttpResponse) : io app (option HttpRequest.HttpResponse) :=
  io_catch (_ ← m; mret None) (λ what, mret (Some (respond what))).

Definition handle_llm_settings_set (body_text : bytes) : io app HttpRequest.HttpResponse :=
  body ← io_lift (Json.parse cjson_parse body_text);
  s ← io_get;
  settings ← io_lift (edited_settings body (llm_settings_ (server s)));
  match requested_model s body with
  | inr response => mret response
  | inl switch =>
      let settings := match switch with Some spec => settings <| model := spec_id spec |> | None => settings end in
      failed ← match switch with
               | Some spec => or_respond (switch_to spec) (λ what, error_response 500 what (str "llm_unavailable"))
               | None => mret None
               end;
      match failed with
      | Some response => mret response
      | None =>
          failed ← or_respond (save_settings settings) (λ what, error_response 400 what (str "invalid_request_error"));
          match failed with
          | Some response => mret response
          | None =>
              _ ← set_server (λ srv, srv <| llm_settings_ := settings |>);
              _ ← warm_settings;
              s ← io_get; mret (handle_llm_settings_get s)
          end
      end
  end.

(** * What a request answers and does *)

Notation validate := (validate_llm_settings literal leb ltb).
Notation settings_file := (path_join character_dir (str "llm.json")).

Record settings_changed (s : app) (settings : LlmSettings Double) (s' : app) : Prop := {
  changed_settings : llm_settings_ (server s') = settings;
  changed_valid : validate settings = Ok tt;
  changed_file : files (disk (server s')) !! settings_file = Some (settings_text show_double settings);
  changed_others p : p ≠ settings_file → files (disk (server s')) !! p = files (disk (server s)) !! p;
  changed_character : character_ (server s') = character_ (server s) ∧ models_ (server s') = models_ (server s);
}.

Lemma save_settings_run s settings :
  match save_settings settings s with
  | (Ok _, s') =>
      validate settings = Ok tt ∧ ∃ t, s' = s <| server := server s <| disk := t |> |> ∧
        files t = <[settings_file := settings_text show_double settings]> (files (disk (server s)))
  | (Throw _, s') => s' = s
  end.
Proof.
  unfold save_settings. unfold mbind, io_bind, io_get, io_lift. cbn [fst snd].
  destruct (save_llm_settings _ _ _ _ _ _ _ _) as [t|what] eqn:E; [|done]. cbn.
  revert E. unfold save_llm_settings. destruct (validate settings) as [[]|] eqn:Ev; [|done]. cbn [mbind outcome_bind].
  destruct (create_dirs filesystem_error _ _) as [t1|] eqn:Ed; [|done]. cbn [mbind outcome_bind].
  destruct (write_file t1 _ _) as [t2|] eqn:Ew; [|done]. intros [= <-]. split; [done|]. exists t2. split; [done|].
  apply write_file_Some in Ew as (-> & _ & _). cbn [files]. by rewrite (create_dirs_files _ _ _ _ Ed).
Qed.

Definition asked_model (body : Json.Value Double) : option bytes :=
  match Json.find body (str "model") with
  | Some (Json.String requested) => if bool_decide (requested = []) then None else Some requested
  | _ => None
  end.

(** The sidecar, if there is one, is as it should be. *)
Definition sidecar_ok (s : app) : Prop := ∀ m, llm_manager_ s = Some m → manager_ok m.

Definition runs (s : app) (id : bytes) : Prop :=
  ∃ m, llm_manager_ s = Some m ∧ current_model_id m = id ∧ process_running posix m = true.

Lemma switch_to_run s spec result s' :
  sidecar_ok s → switch_to spec s = (result, s') →
  server s' = server s ∧ sidecar_ok s' ∧ (result = Ok tt → runs s' (spec_id spec)).
Proof.
  intros Hok. unfold switch_to, switch_llm_model. destruct (llm_manager_ s) as [m|] eqn:Em.
  - destruct (switch_manager _ _ _ _ _ _ _ _) as [[r m'] forgotten] eqn:E. intros [= <- <-].
    destruct (switch_ok _ _ _ _ _ _ _ _ _ _ _ (Hok m Em) E) as [Hm' Hr]. split; [done|]. split.
    + by intros ? [= <-].
    + intros ->. destruct Hr as (Hc & Hp & _). by exists m'.
  - intros [= <- <-]. split; [done|]. split; [|done]. intros m' [=].
Qed.

Lemma warm_settings_run s :
  ∃ s', warm_settings s = (Ok tt, s') ∧ disk (server s') = disk (server s) ∧ llm_settings_ (server s') = llm_settings_ (server s) ∧
    character_ (server s') = character_ (server s) ∧ models_ (server s') = models_ (server s) ∧ llm_manager_ s' = llm_manager_ s.
Proof.
  eexists. split; [reflexivity|]. unfold warm_llm_system_prompt. by destruct (llm_port <=? 0)%Z.
Qed.

Lemma settings_changed_from s1 s settings s' :
  server s1 = server s → settings_changed s1 settings s' → settings_changed s settings s'.
Proof. intros E [H1 H2 H3 H4 H5]. rewrite E in H4, H5. by split. Qed.

Lemma requested_model_asked s body :
  match requested_model s body with
  | inl (Some spec) => asked_model body = Some (spec_id spec)
  | inl None => asked_model body = None
  | inr response => HttpRequest.status response = 400%Z
  end.
Proof.
  unfold requested_model, asked_model. destruct (Json.find body (str "model")) as [v|]; [|done].
  destruct v; try done. case_bool_decide; [done|]. destruct (find_llm_spec _) as [spec|] eqn:Ef; [|done].
  destruct (negb _); [done|]. by rewrite (find_spec_id _ _ _ Ef).
Qed.

(** What follows on a switch. *)
Definition store_settings (settings : LlmSettings Double) : io app HttpRequest.HttpResponse :=
  failed ← or_respond (save_settings settings) (λ what, error_response 400 what (str "invalid_request_error"));
  match failed with
  | Some response => mret response
  | None =>
      _ ← set_server (λ srv, srv <| llm_settings_ := settings |>);
      _ ← warm_settings;
      s ← io_get; mret (handle_llm_settings_get s)
  end.

Lemma store_settings_run s settings :
  ∃ response s', store_settings settings s = (Ok response, s') ∧ llm_manager_ s' = llm_manager_ s ∧
    if (HttpRequest.status response =? 200)%Z then settings_changed s settings s' ∧ response = handle_llm_settings_get s'
    else server s' = server s.
Proof.
  pose proof (save_settings_run s settings) as Hsave. unfold store_settings.
  destruct (save_settings settings s) as [[[]|what] s1] eqn:E.
  - destruct Hsave as (Hv & t & -> & Ht).
    erewrite io_bind_Ok; [|by unfold or_respond, io_catch; erewrite io_bind_Ok by exact E].
    set (s2 := s <| server := (server s <| disk := t |>) <| llm_settings_ := settings |> |>).
    destruct (warm_settings_run s2) as (s3 & Ew & Hd & Hs & Hc & Hm & Hl).
    erewrite io_bind_Ok by reflexivity. erewrite io_bind_Ok by exact Ew. rewrite io_bind_get.
    eexists _, s3. split; [done|]. split; [done|]. cbn [HttpRequest.status]. split; [|done].
    split; [done|done| | |done].
    + rewrite Hd. cbn. rewrite Ht. apply lookup_insert_eq.
    + intros p Hp. rewrite Hd. cbn. rewrite Ht. by apply lookup_insert_ne.
  - subst s1. erewrite io_bind_Ok; [|by unfold or_respond, io_catch; erewrite io_bind_Throw by exact E].
    by eexists _, s.
Qed.

(** A request that changes the settings is answered with 200 exactly when it
    took effect: the settings in use are valid and are what the file of the
    settings holds, no other file changed, and the model the request asks for
    runs. Every other answer leaves the server as it was, and without a model in
    the request the sidecar too; a failed request never leaves two models. *)
Theorem settings_answered body_text s result s' :
  sidecar_ok s → handle_llm_settings_set body_text s = (result, s') →
  sidecar_ok s' ∧
  match result with
  | Throw _ => s' = s
  | Ok response =>
      ∃ body, Json.parse cjson_parse body_text = Ok body ∧
      (asked_model body = None → llm_manager_ s' = llm_manager_ s) ∧
      if (HttpRequest.status response =? 200)%Z then
        ∃ settings, settings_changed s settings s' ∧ response = handle_llm_settings_get s' ∧
          ∀ id, asked_model body = Some id → runs s' id ∧ model settings = id
      else server s' = server s
  end.
Proof.
  intros Hok. unfold handle_llm_settings_set.
  destruct (Json.parse cjson_parse body_text) as [body|what] eqn:Ep; [|by intros [= <- <-]].
  rewrite io_bind_lift, io_bind_get.
  destruct (edited_settings body _) as [edited|what]; [|by intros [= <- <-]]. rewrite io_bind_lift.
  pose proof (requested_model_asked s body) as Hreq.
  destruct (requested_model s body) as [[spec|]|response].
  - destruct (switch_to spec s) as [r s1] eqn:Es. destruct (switch_to_run s spec r s1 Hok Es) as (Hsrv & Hok1 & Hruns).
    destruct r as [[]|what].
    + erewrite io_bind_Ok; [|by unfold or_respond, io_catch; erewrite io_bind_Ok by exact Es]. cbn iota.
      fold (store_settings (edited <| model := spec_id spec |>)).
      destruct (store_settings_run s1 (edited <| model := spec_id spec |>)) as (response & s2 & -> & Hl & Hr). intros [= <- <-].
      split; [intros m; rewrite Hl; apply Hok1|]. exists body. split; [done|]. split; [congruence|].
      destruct (HttpRequest.status response =? 200)%Z; [|by rewrite Hr].
      destruct Hr as [Hc ->]. eexists. split; [by eapply settings_changed_from|]. split; [done|].
      intros id [= <-]%(eq_trans (eq_sym Hreq)). split; [|done]. destruct (Hruns eq_refl) as (m & Hm & H). exists m. by rewrite Hl.
    + erewrite io_bind_Ok; [|by unfold or_respond, io_catch; erewrite io_bind_Throw by exact Es]. cbn iota.
      intros [= <- <-]. split; [done|]. exists body. split; [done|]. split; [congruence|done].
  - erewrite io_bind_Ok by reflexivity. cbn iota. fold (store_settings edited).
    destruct (store_settings_run s edited) as (response & s2 & -> & Hl & Hr). intros [= <- <-].
    split; [intros m; rewrite Hl; apply Hok|]. exists body. split; [done|]. split; [done|].
    destruct (HttpRequest.status response =? 200)%Z; [|done]. destruct Hr as [Hc ->]. eexists. split; [done|]. split; [done|].
    intros id. by rewrite Hreq.
  - intros [= <- <-]. split; [done|]. exists body. split; [done|]. split; [done|].
    by rewrite Hreq.
Qed.

End settings.

(** * The log of typing episodes *)

Section typing.
Context {Double : Type} (cjson_parse : bytes → Json.cJSON Double * nat + Z) (json_quote : bytes → bytes).

Notation error_response := (HttpRequest.error_response json_quote).

Definition typing_log : path := [str "data"; str "typing_episodes.jsonl"].

(** [std::ofstream(file, std::ios::app)] and one write. *)
Definition append_file (t : tree) (p : path) (text : bytes) : option tree :=
  write_file t p (default [] (read_file t p) ++ text).

Definition episode_line (received_unix_ms : Z) (body_text : bytes) : bytes :=
  str "{" ++ quote ++ str "received_unix_ms" ++ quote ++ str ":" ++ to_string received_unix_ms ++ str "," ++
  quote ++ str "episode" ++ quote ++ str ":" ++ body_text ++ str "}" ++ [10%Z].

(** [exists] and [file_size]: of a directory the latter fails, with the largest size. *)
Definition log_full (t : tree) : bool :=
  match files t !! typing_log with
  | Some log => (256 * 1024 * 1024 <? Z.of_nat (length log))%Z
  | None => is_directory t typing_log
  end.

Definition handle_typing_telemetry (received_unix_ms : Z) (body_text : bytes) : io tree HttpRequest.HttpResponse := λ t,
  if (512 * 1024 <? Z.of_nat (length body_text))%Z then
    (Ok (error_response 400 (str "typing episode is too large") (str "invalid_request_error")), t)
  else
    match Json.parse cjson_parse body_text with
    | Throw what => (Throw what, t)
    | Ok body =>
        match Json.find body (str "events") with
        | Some (Json.Array (_ :: _)) =>
            match Json.find body (str "outcome") with
            | Some (Json.String _) =>
                let t := default t (create_directories t (parent typing_log)) in
                if log_full t then
                  (Ok (error_response 507 (str "typing log is full; archive data/typing_episodes.jsonl") (str "storage_full")), t)
                else
                  match append_file t typing_log (episode_line received_unix_ms body_text) with
                  | None => (Ok (error_response 500 (str "could not open the typing log") (str "internal_error")), t)
                  | Some t =>
                      (Ok (HttpRequest.json_response (str "{" ++ quote ++ str "status" ++ quote ++ str ":" ++ quote ++ str "recorded" ++ quote ++ str "}") 200), t)
                  end
            | _ => (Ok (error_response 400 (str "a typing episode needs an 'outcome' string") (str "invalid_request_error")), t)
            end
        | _ => (Ok (error_response 400 (str "a typing episode needs a non-empty 'events' array") (str "invalid_request_error")), t)
        end
    end.

(** What is logged stays: an accepted episode is appended as one record, any
    other request leaves every file as it was, and a log beyond its limit does
    not grow. *)
Lemma typing_log_grows now body_text t result t' :
  handle_typing_telemetry now body_text t = (result, t') →
  match result with
  | Ok response =>
      if (HttpRequest.status response =? 200)%Z then
        let log := default [] (files t !! typing_log) in
        files t' = <[typing_log := log ++ episode_line now body_text]> (files t) ∧
        (Z.of_nat (length log) ≤ 256 * 1024 * 1024)%Z ∧ (Z.of_nat (length body_text) ≤ 512 * 1024)%Z
      else files t' = files t
  | Throw _ => t' = t
  end.
Proof.
  unfold handle_typing_telemetry. destruct (Z.ltb_spec (512 * 1024) (Z.of_nat (length body_text))); [by intros [= <- <-]|].
  destruct (Json.parse cjson_parse body_text) as [body|what]; [|by intros [= <- <-]].
  destruct (Json.find body (str "events")) as [[| | | |[|event events]|]|]; try (by intros [= <- <-]).
  destruct (Json.find body (str "outcome")) as [[]|]; try (by intros [= <- <-]).
  set (t1 := default t (create_directories t (parent typing_log))).
  assert (files t1 = files t) as Hf.
  { unfold t1. destruct (create_directories t _) as [t2|] eqn:E; [|done]. by apply create_directories_Some in E as [-> _]. }
  destruct (log_full t1) eqn:Hfull; [by intros [= <- <-]|]. unfold append_file.
  destruct (write_file t1 typing_log _) as [t2|] eqn:Ew; [|by intros [= <- <-]].
  intros [= <- <-]. cbn [HttpRequest.status HttpRequest.json_response]. cbn zeta.
  apply write_file_Some in Ew as (-> & _ & _). cbn [files]. rewrite <- Hf. revert Hfull. unfold log_full, read_file.
  destruct (files t1 !! typing_log) as [log|].
  - intros Hl%Z.ltb_ge. by split_and!.
  - intros ->. by split_and!.
Qed.

End typing.

(** * The summary of the reference voice *)

Section reference.
Context {Audio Double VoiceProfile : Type} (no_profile : VoiceProfile) (voice_profile : Audio → VoiceProfile).

Record voice_summary := { reference_voice_key_ : bytes; reference_voice_profile_ : VoiceProfile }.

Definition voice_key (c : CharacterConfig) : bytes :=
  (if bool_decide (voice_file c = []) then preset c else voice_file c) ++ str "|" ++ name c.

(** The recording the speech model speaks with. *)
Definition default_voice (s : ServerState Audio Double) : option Audio :=
  i ← find_speech_model (models_ s); model ← models_ s !! i; preset ← default_voice_preset model; audio preset.

Definition reference_voice_profile (s : ServerState Audio Double) (summary : voice_summary) : voice_summary :=
  let current := voice_key (character_ s) in
  if bool_decide (current = reference_voice_key_ summary) then summary
  else
    {| reference_voice_key_ := current;
       reference_voice_profile_ := match default_voice s with Some audio => voice_profile audio | None => no_profile end |}.

End reference.

(** * Examples *)

Module Editing.

Import FlatJson.Reader.

Definition literal (m e : Z) : Z := (m * 10 ^ e)%Z.
Definition json_quote (s : bytes) : bytes := quote ++ VoiceText.json_escape s ++ quote.
Definition fs_error (what : bytes) (p : path) : bytes := what.
Definition dir : path := [str "store"].

Definition small : LlmModelSpec := {| spec_id := str "small"; spec_name := str "Small"; spec_path := str "small.gguf"; extra_args := []; cache_rollback := true |}.
Definition large : LlmModelSpec := {| spec_id := str "large"; spec_name := str "Large"; spec_path := str "large.gguf"; extra_args := []; cache_rollback := false |}.
Definition polls (n : nat) : list (bool * Z) := [(false, 503%Z); (false, 200%Z)].

Definition models_on_disk : tree :=
  {| files := {[ [str "small.gguf"] := []; [str "large.gguf"] := []; [str "llama"] := [] ]}; dirs := {[ []; dir ]} |}.

Definition settings : LlmSettings Z :=
  {| master_prompt := str "You are {name}."; temperature := 1%Z; top_p := 1%Z; repeat_penalty := 1%Z;
     max_tokens := 140; length_ramp := true; model := [] |}.

Definition server_at_start : ServerState bytes Z :=
  {| disk := models_on_disk; character_ := new_character; llm_settings_ := settings; models_ := []; warmed := [] |}.

Definition sidecar : LlmManager := (start true (str "llama") (λ _, true) (λ _, None) small new_manager).2.

Definition at_start : settings_state bytes Z := {| server := server_at_start; llm_manager_ := Some sidecar; llm_decode_tps_ema_ := 30%Z |}.

Notation set := (handle_llm_settings_set (λ _, true) (λ z : Z, z) literal Z.leb Z.ltb to_string read_object json_quote fs_error dir 8081
                   true (str "llama") (λ _, None) polls [small; large]).

Definition member (key value : bytes) : bytes := quote ++ key ++ quote ++ str ":" ++ value.

(** [{"temperature": 2, "model": "large"}] *)
Definition warmer_large (temperature : bytes) : bytes :=
  str "{" ++ member (str "temperature") temperature ++ str "," ++ member (str "model") (json_quote (str "large")) ++ str "}".

Definition status_of (r : outcome HttpRequest.HttpResponse) : Z :=
  match r with Ok response => HttpRequest.status response | Throw _ => 0 end.

Lemma sidecar_started : sidecar_ok at_start.
Proof.
  intros m [= <-].
  exact (proj1 (start_ok true (str "llama") (λ _, true) (λ _, None) small new_manager new_manager_ok)).
Qed.

Lemma settings_answered_witness :
  let '(result, s') := set (warmer_large (str "2")) at_start in
  status_of result = 200%Z ∧ runs true s' (str "large") ∧ temperature (llm_settings_ (server s')) = 2%Z ∧
  files (disk (server s')) !! path_join dir (str "llm.json") = Some (settings_text to_string (llm_settings_ (server s'))).
Proof.
  destruct (set (warmer_large (str "2")) at_start) as [result s'] eqn:E.
  destruct (settings_answered _ _ _ _ _ _ _ _ _ _ _ _ _ _ _ _ _ _ _ _ sidecar_started E) as [_ Hr].
  assert (status_of result = 200%Z) as Hs.
  { change (status_of (result, s').1 = 200%Z). rewrite <- E. by vm_compute. }
  assert (temperature (llm_settings_ (server s')) = 2%Z) as Ht.
  { change (temperature (llm_settings_ (server (result, s').2)) = 2%Z). rewrite <- E. by vm_compute. }
  destruct result as [response|what]; [|done]. destruct Hr as (body & Hb & _ & Hr). cbn [status_of] in Hs. rewrite Hs in Hr.
  change ((200 =? 200)%Z) with true in Hr. destruct Hr as (new & [<- _ Hf _ _] & _ & Hm). split_and!; [done| |done|done].
  apply Hm. revert Hb. vm_compute (Json.parse _ _). by intros [= <-].
Defined.

(** The model is switched before the values are checked: the answer is 400, and
    another model runs. *)
Example refused_after_switch :
  let '(result, s') := set (warmer_large (str "9")) at_start in
  (status_of result, option_map current_model_id (llm_manager_ s')) = (400%Z, Some (str "large")).
Proof. by vm_compute. Qed.

(** A body of several lines is one record of several lines. *)
Example record_of_two_lines :
  List.length (split_on 10%Z (episode_line 1 (str "{" ++ [10%Z] ++ member (str "outcome") (json_quote (str "sent")) ++ str "}"))) = 3%nat.
Proof. by vm_compute. Qed.

(** A recording is summarised once per file name: a second one of the same name is
    not looked at. *)
Definition speaking (samples : bytes) : ServerState bytes Z :=
  {| disk := models_on_disk; character_ := new_character <| voice_file := str "voice.wav" |>; llm_settings_ := settings;
     models_ := [{| task := str "tts"; voice_presets := ∅;
                    default_voice_preset := Some {| voice_id := None; audio := Some samples; reference_text := None |} |}];
     warmed := [] |}.

Example second_recording_unseen :
  let profile s := reference_voice_profile None Some (speaking s) in
  reference_voice_profile_ (profile (str "new") (profile (str "old") {| reference_voice_key_ := []; reference_voice_profile_ := None |})) =
  Some (str "old").
Proof. by vm_compute. Qed.

End Editing.
