(* ===== verification/VoiceSessions.v ===== *)
(** The voice sessions of the browser (app/server/runtime.cpp): audio that arrives
    in requests, the runner thread that reads it, and the events that leave on
    another connection. One session is a state machine whose steps are the critical
    sections of its mutex; the server keeps sessions by id and sweeps them. *)

From S2P Require Import Prelude AudioStream.
From S2P Require HttpRequest.
From stdpp Require Import gmap.

(** * One session *)

(** The runner's audio thread: anywhere in [VoiceLiveRunner::run] without the
    mutex; in [stream.read] about to take it; in its [cv.wait]; past the last
    read; [done] is set and [notify_all] owed; returned. *)
Inductive runner_pc :=
| Working
| Reading (max_samples : Z)
| Waiting (max_samples : Z)
| Ending
| Finishing
| Exited.

(** A connection that takes events: about to take the mutex; in [wait_for];
    writing a batch, without the mutex; written to the end; broken. *)
Inductive reader_pc :=
| Looking
| Sleeping
| Writing (batch : list bytes) (finished : bool)
| Complete
| Gone.

Record reader := { reader_at : reader_pc; written : list bytes }.

#[export] Instance reader_settable : Settable reader := λ r, {| reader_at := reader_at r; written := written r |}.

(** [max_queued_audio] is 30 s. *)
Definition max_queued_audio : nat := Z.to_nat (16000 * 30).
Definition max_queued_events : nat := 512.

Record VoiceBrowserSession {Float : Type} := {
  audio : list Float;
  closed : bool;
  events : list bytes;
  done : bool;
  created : Z;
  notifying : nat;                       (* threads between the mutex and [notify_all] *)
  runner : runner_pc;
  readers : list reader;
  taken : list (Float * bool);           (* samples that left the queue, with whether the runner got them *)
  given : list (bytes * option nat);     (* events that left the queue, with the reader that got them *)
}.
Arguments VoiceBrowserSession : clear implicits.

#[export] Instance VoiceBrowserSession_settable {Float} : Settable (VoiceBrowserSession Float) := λ s,
  {| audio := audio s; closed := closed s; events := events s; done := done s; created := created s; notifying := notifying s;
     runner := runner s; readers := readers s; taken := taken s; given := given s |}.

(** [for (i = 0; i + 1 < size; i += 2)] *)
Fixpoint pcm_samples {Float} (scale_s16 : Z → Float) (body : bytes) : list Float :=
  match body with
  | lo :: hi :: rest => scale_s16 (int16_of (Z.lor lo (Z.shiftl hi 8))) :: pcm_samples scale_s16 rest
  | _ => []
  end.

Section session.
Context {Float : Type}.

Notation session := (VoiceBrowserSession Float).
Implicit Types s : session.

Definition new_session (now : Z) : session :=
  {| audio := []; closed := false; events := []; done := false; created := now; notifying := 0; runner := Working;
     readers := []; taken := []; given := [] |}.

Definition owe_notify s : session := s <| notifying := S (notifying s) |>.

(** [while (audio.size() > limit) audio.pop_front()] *)
Definition cap_audio s : session :=
  let excess := length (audio s) - max_queued_audio in
  s <| audio := drop excess (audio s) |> <| taken := taken s ++ map (λ x, (x, false)) (take excess (audio s)) |>.

(** The critical section of [handle_voice_session_audio], unless the session is
    closed. *)
Definition queue_audio (samples : list Float) s : option session :=
  if closed s then None else Some (owe_notify (cap_audio (s <| audio := audio s ++ samples |>))).

Definition close s : session := owe_notify (s <| closed := true |>).

(** [hooks.emit] *)
Definition push_event (json : bytes) s : session :=
  let queue := events s ++ [json] in
  owe_notify
    (if max_queued_events <? length queue then
       s <| events := tl queue |> <| given := given s ++ map (λ e, (e, None)) (take 1 queue) |>
     else s <| events := queue |>).

(** [hooks.aborted] *)
Definition aborted s : bool := closed s && bool_decide (audio s = []).

(** [stream.read] once it has the mutex: it waits, takes samples, or is over. *)
Definition read_audio (max_samples : Z) s : session :=
  if negb (closed s || negb (bool_decide (audio s = []))) then s <| runner := Waiting max_samples |>
  else if bool_decide (audio s = []) then s <| runner := Ending |>
  else
    let take_ := Nat.min (Z.to_nat (Z.max 1 max_samples)) (length (audio s)) in
    s <| runner := Working |> <| audio := drop take_ (audio s) |>
      <| taken := taken s ++ map (λ x, (x, true)) (take take_ (audio s)) |>.

Definition wake_runner (r : runner_pc) : runner_pc := match r with Waiting max_samples => Reading max_samples | r => r end.
Definition wake_reader (r : reader) : reader := match reader_at r with Sleeping => r <| reader_at := Looking |> | _ => r end.

Definition notify_all s : session := s <| runner := wake_runner (runner s) |> <| readers := map wake_reader (readers s) |>.

Definition set_reader (i : nat) (at_ : reader_pc) s : session :=
  s <| readers := alter (λ r, r <| reader_at := at_ |>) i (readers s) |>.

(** The rest of a reader's critical section, the wait over. *)
Definition collect (i : nat) s : session :=
  set_reader i (Writing (events s) (done s))
    (s <| events := [] |> <| given := given s ++ map (λ e, (e, Some i)) (events s) |>).

(** ** Steps *)

Inductive label :=
| Post (samples : list Float)            (* a request with audio *)
| Stop                                   (* a request to stop, or the sweep *)
| Open                                   (* a request for the events *)
| Notify                                 (* the [notify_all] behind a critical section *)
| Spurious                               (* wake-ups without a notification *)
| Emit (json : bytes)                    (* the runner, by either of its threads *)
| Read (max_samples : Z)                 (* the runner calls [stream.read] *)
| Take_                                  (* [stream.read] has the mutex *)
| Abort                                  (* the runner asks [aborted] *)
| Fail                                   (* the runner throws *)
| Finish                                 (* [run] has returned: [done] is set *)
| Exit
| Look (i : nat)                         (* reader i has the mutex *)
| Timeout (i : nat)                      (* the 15 s of [wait_for] are over *)
| Write (i : nat)                        (* reader i writes its next event, a ping or the end *)
| Lose (i : nat).                        (* ... which fails: the browser is gone *)

Definition step (l : label) s : option session :=
  match l with
  | Post samples => queue_audio samples s
  | Stop => Some (close s)
  | Open => Some (s <| readers := readers s ++ [{| reader_at := Looking; written := [] |}] |>)
  | Notify => match notifying s with O => None | S n => Some (notify_all (s <| notifying := n |>)) end
  | Spurious => Some (notify_all s)
  | Emit json =>
      match runner s with
      | Finishing | Exited => None
      | _ => Some (push_event json s)
      end
  | Read max_samples => match runner s with Working => Some (s <| runner := Reading max_samples |>) | _ => None end
  | Take_ => match runner s with Reading max_samples => Some (read_audio max_samples s) | _ => None end
  | Abort => match runner s with Working => if aborted s then Some (s <| runner := Ending |>) else None | _ => None end
  | Fail => match runner s with Working => Some (s <| runner := Ending |>) | _ => None end
  | Finish => match runner s with Ending => Some (s <| runner := Finishing |> <| done := true |>) | _ => None end
  | Exit => match runner s with Finishing => Some (notify_all (s <| runner := Exited |>)) | _ => None end
  | Look i =>
      match reader_at <$> readers s !! i with
      | Some Looking => Some (if done s || negb (bool_decide (events s = [])) then collect i s else set_reader i Sleeping s)
      | _ => None
      end
  | Timeout i => match reader_at <$> readers s !! i with Some Sleeping => Some (collect i s) | _ => None end
  | Write i =>
      match reader_at <$> readers s !! i with
      | Some (Writing (event :: batch) finished) =>
          Some (s <| readers := alter (λ r, {| reader_at := Writing batch finished; written := written r ++ [event] |}) i (readers s) |>)
      | Some (Writing [] finished) => Some (set_reader i (if finished then Complete else Looking) s)
      | _ => None
      end
  | Lose i =>
      match reader_at <$> readers s !! i with
      | Some (Writing _ _) => Some (close (set_reader i Gone s))
      | _ => None
      end
  end.

Definition run (ls : list label) s : option session := foldl (λ q l, q ≫= step l) (Some s) ls.

Lemma run_snoc ls l s : run (ls ++ [l]) s = run ls s ≫= step l.
Proof. unfold run. by rewrite foldl_app. Qed.

(** * Audio *)

(** What the requests that were accepted have brought. *)
Definition posted_by (l : label) : list Float := match l with Post samples => samples | _ => [] end.
Definition posts (ls : list label) : list Float := concat (map posted_by ls).

(** What the runner has read. *)
Definition heard s : list Float := map fst (List.filter snd (taken s)).

Record audio_ok (posted : list Float) s : Prop := {
  audio_all : map fst (taken s) ++ audio s = posted;
  audio_bounded : length (audio s) <= max_queued_audio;
  audio_lost l1 x l2 : taken s = l1 ++ (x, false) :: l2 → max_queued_audio <= length l2 + length (audio s);
}.

(** Moving the front of a queue to what has left it, with a mark. *)
Lemma lost_app {A B} (lost b : B) n (q : list A) (t : list (A * B)) kept :
  (∀ l1 x l2, t = l1 ++ (x, lost) :: l2 → kept <= length l2 + length q) →
  (b = lost → n = 0 ∨ kept <= length (drop n q)) →
  ∀ l1 x l2, t ++ map (λ x, (x, b)) (take n q) = l1 ++ (x, lost) :: l2 → kept <= length l2 + length (drop n q).
Proof.
  intros Ht Hb l1 x l2 E.
  assert (∀ k, map (λ x, (x, b)) (take n q) = k ++ (x, lost) :: l2 → kept <= length (drop n q)) as Hnew.
  { intros k Ek. assert ((x, lost) ∈ map (λ x, (x, b)) (take n q)) as (y & [= _ ->] & Hy)%list_elem_of_fmap.
    { rewrite Ek. apply elem_of_app. right. by left. }
    destruct (Hb eq_refl) as [->|]; [|done]. by apply not_elem_of_nil in Hy. }
  apply app_eq_inv in E as [(k & Et & E)|(k & -> & E)]; [|pose proof (Hnew k E); lia].
  destruct k as [|y k]; cbn [app] in E; [pose proof (Hnew [] (eq_sym E)); lia|]. injection E as <- ->.
  pose proof (Ht l1 x k Et). rewrite length_app, length_map, length_take, length_drop. lia.
Qed.

Lemma app_moved {A B} (b : B) n (q : list A) (t : list (A * B)) :
  map fst (t ++ map (λ x, (x, b)) (take n q)) ++ drop n q = map fst t ++ q.
Proof. rewrite map_app, map_map, map_id, <- app_assoc. by rewrite take_drop. Qed.

Lemma audio_ok_same posted s s' : audio_ok posted s → audio s' = audio s → taken s' = taken s → audio_ok posted s'.
Proof. intros [H1 H2 H3] Ea Et. by split; rewrite ?Ea, ?Et. Qed.

Lemma cap_audio_ok posted s :
  map fst (taken s) ++ audio s = posted →
  (∀ l1 x l2, taken s = l1 ++ (x, false) :: l2 → max_queued_audio <= length l2 + length (audio s)) →
  audio_ok posted (cap_audio s).
Proof.
  intros H1 H2. unfold cap_audio. set (excess := length (audio s) - max_queued_audio). split; cbn [audio taken].
  - rewrite <- H1. apply app_moved.
  - change (length (drop excess (audio s)) <= max_queued_audio). rewrite length_drop. lia.
  - apply lost_app; [done|]. intros _. rewrite length_drop. lia.
Qed.

Lemma read_audio_ok posted max_samples s : audio_ok posted s → audio_ok posted (read_audio max_samples s).
Proof.
  intros H. unfold read_audio. destruct (negb _); [by eapply audio_ok_same|]. destruct (bool_decide _); [by eapply audio_ok_same|].
  destruct H as [H1 H2 H3]. set (n := Nat.min _ _). split.
  - rewrite <- H1. apply app_moved.
  - change (length (drop n (audio s)) <= max_queued_audio). rewrite length_drop. lia.
  - by apply lost_app.
Qed.

Lemma step_audio posted l s s' : step l s = Some s' → audio_ok posted s → audio_ok (posted ++ posted_by l) s'.
Proof.
  intros E H. destruct l; cbn [step posted_by] in *; rewrite ?app_nil_r;
    try (repeat case_match; simplify_eq; by eapply audio_ok_same).
  - unfold queue_audio in E. destruct (closed s); [done|]. injection E as <-.
    eapply (audio_ok_same _ (cap_audio (s <| audio := audio s ++ samples |>))); [|done|done].
    destruct H as [H1 H2 H3]. apply cap_audio_ok; cbn.
    + by rewrite app_assoc, H1.
    + intros l1 x l2 E. specialize (H3 l1 x l2 E). rewrite length_app. lia.
  - assert (∀ s2 : session, audio (push_event json s2) = audio s2 ∧ taken (push_event json s2) = taken s2) as Hp.
    { intros s2. unfold push_event. by destruct (_ <? _). }
    destruct (Hp s). repeat case_match; simplify_eq; by eapply audio_ok_same.
  - destruct (runner s); try done. injection E as <-. by apply read_audio_ok.
Qed.

(** C23. What the browser sends reaches the recognizer in the order it was sent: the
    samples the runner has read, those dropped and those still queued are exactly
    the samples of the accepted requests. At most 30 s are queued, and a sample is
    dropped only when 30 s of newer audio have come behind it before it was read. *)
Theorem session_audio ls now s :
  run ls (new_session now) = Some s →
  map fst (taken s) ++ audio s = posts ls ∧ length (audio s) <= max_queued_audio ∧
  (∀ l1 x l2, taken s = l1 ++ (x, false) :: l2 → max_queued_audio <= length l2 + length (audio s)) ∧
  (length (posts ls) <= max_queued_audio → heard s ++ audio s = posts ls).
Proof.
  intros E. assert (audio_ok (posts ls) s) as [H1 H2 H3].
  { revert s E. induction ls as [|l ls IH] using rev_ind; intros s E.
    - injection E as <-. split; [done|cbn; lia|]. intros l1 x l2 ?. by destruct l1.
    - rewrite run_snoc in E. destruct (run ls _) as [s1|] eqn:E1; [|done]. unfold posts. rewrite map_app, concat_app.
      cbn [map concat]. rewrite app_nil_r. eapply step_audio; [exact E|]. by apply IH. }
  split_and!; [done|done|done|]. intros Hl. rewrite <- H1. f_equal. unfold heard.
  assert (∀ t : list (Float * bool), (∀ x, (x, false) ∉ t) → List.filter snd t = t) as Hall.
  { induction t as [|[x []] t IH]; intros Ht; cbn; [done| |].
    - rewrite IH; [done|]. intros y Hy. apply (Ht y). by right.
    - destruct (Ht x). by left. }
  rewrite Hall; [done|]. intros x (l1 & l2 & Ht)%list_elem_of_split. pose proof (H3 l1 x l2 Ht).
  rewrite <- H1, Ht, length_app, length_map, length_app in Hl. cbn in Hl. lia.
Qed.

(** * Events *)

Definition emitted_by (l : label) : list bytes := match l with Emit json => [json] | _ => [] end.
Definition emits (ls : list label) : list bytes := concat (map emitted_by ls).

(** The events reader i got. *)
Definition part (i : nat) (given : list (bytes * option nat)) : list bytes :=
  map fst (List.filter (λ e, bool_decide (e.2 = Some i)) given).

(** The events of a reader that it has not written yet. *)
Definition unwritten (r : reader) : list bytes := match reader_at r with Writing batch _ => batch | _ => [] end.

(** The reader has seen the session finished. *)
Definition at_end (r : reader) : bool := match reader_at r with Writing _ finished => finished | Complete => true | _ => false end.

Record reader_ok s (i : nat) (r : reader) : Prop := {
  reader_written : reader_at r ≠ Gone → written r ++ unwritten r = part i (given s);
  reader_lost : written r `prefix_of` part i (given s);
  reader_end : at_end r = true → done s = true ∧ events s = [];
}.

Record events_ok (emitted : list bytes) s : Prop := {
  events_all : map fst (given s) ++ events s = emitted;
  events_bounded : length (events s) <= max_queued_events;
  events_lost l1 e l2 : given s = l1 ++ (e, None) :: l2 → max_queued_events <= length l2 + length (events s);
  events_readers i r : readers s !! i = Some r → reader_ok s i r;
  events_given e i : (e, Some i) ∈ given s → i < length (readers s);
  events_done : done s = true ↔ runner s = Finishing ∨ runner s = Exited;
}.

Lemma part_app i l1 l2 : part i (l1 ++ l2) = part i l1 ++ part i l2.
Proof. unfold part. by rewrite List.filter_app, map_app. Qed.

Lemma part_none i (l : list bytes) : part i (map (λ e, (e, None)) l) = [].
Proof. unfold part. induction l as [|e l IH]; [done|]. cbn. done. Qed.

Lemma part_own i (l : list bytes) : part i (map (λ e, (e, Some i)) l) = l.
Proof. unfold part. induction l as [|e l IH]; [done|]. cbn. rewrite bool_decide_eq_true_2 by done. cbn. by rewrite IH. Qed.

Lemma part_other i j (l : list bytes) : i ≠ j → part i (map (λ e, (e, Some j)) l) = [].
Proof.
  intros Hij. unfold part. induction l as [|e l IH]; [done|]. cbn. rewrite bool_decide_eq_false_2 by congruence. done.
Qed.

Lemma part_fresh i l : (∀ e, (e, Some i) ∉ l) → part i l = [].
Proof.
  unfold part. induction l as [|[e o] l IH]; intros H; [done|]. cbn. case_bool_decide as Ho.
  - subst o. destruct (H e). by left.
  - apply IH. intros e' ?. apply (H e'). by right.
Qed.

(** ** Steps that leave the readers' business alone *)

Record events_same s s' : Prop := {
  same_events : events s' = events s;
  same_given : given s' = given s;
  same_readers : readers s' = readers s ∨ readers s' = map wake_reader (readers s);
  same_done : done s' = done s;
  same_runner : done s' = true ↔ runner s' = Finishing ∨ runner s' = Exited;
}.

Lemma reader_ok_wake s i r : reader_ok s i r → reader_ok s i (wake_reader r).
Proof. intros H. unfold wake_reader. destruct (reader_at r) eqn:E; [done| |done..]. destruct H as [H1 H2 H3].
  split; [intros _|done|done]. rewrite <- H1 by congruence. unfold unwritten. by rewrite E.
Qed.

Lemma reader_ok_same s s' i r :
  given s' = given s → events s' = events s → done s' = done s → reader_ok s i r → reader_ok s' i r.
Proof. intros Hg He Hd [H1 H2 H3]. by split; rewrite ?Hg, ?He, ?Hd. Qed.

Lemma events_ok_same emitted s s' : events_same s s' → events_ok emitted s → events_ok emitted s'.
Proof.
  intros [He Hg Hr Hd Hrun] [H1 H2 H3 H4 H5 H6]. split; rewrite ?He, ?Hg; try done.
  - intros i r Hi. apply (reader_ok_same s); [done..|]. destruct Hr as [Hr|Hr]; rewrite Hr in Hi; [by apply H4|].
    apply list_lookup_fmap_Some_1 in Hi as (r0 & -> & Hi). by apply reader_ok_wake, H4.
  - intros e i Hi. destruct Hr as [-> | ->]; [|rewrite length_map]; by eapply H5.
Qed.

Lemma alter_readers (f : reader → reader) i (l : list reader) r : l !! i = Some r → alter f i l = alter (λ _, f r) i l.
Proof. intros Hi. apply list_alter_ext; [|done]. intros y Hy. congruence. Qed.

(** A reader moves on. *)
Lemma events_ok_reader emitted s s' i r r' :
  events_ok emitted s → readers s !! i = Some r → reader_ok s i r' →
  readers s' = alter (λ _, r') i (readers s) → events s' = events s → given s' = given s → done s' = done s → runner s' = runner s →
  events_ok emitted s'.
Proof.
  intros [H1 H2 H3 H4 H5 H6] Hi Hr' Hr He Hg Hd Hrun. split; rewrite ?He, ?Hg, ?Hd, ?Hrun; try done.
  - intros j rj Hj. apply (reader_ok_same s); [done..|]. rewrite Hr in Hj. destruct (decide (j = i)) as [->|Hne].
    + rewrite list_lookup_alter_eq, Hi in Hj. by injection Hj as <-.
    + rewrite list_lookup_alter_ne in Hj by done. by apply H4.
  - intros e j Hj. rewrite Hr, length_alter. by eapply H5.
Qed.

(** ** Steps of the readers *)

Lemma collect_ok emitted s i r :
  events_ok emitted s → readers s !! i = Some r → (reader_at r = Looking ∨ reader_at r = Sleeping) →
  events_ok emitted (collect i s).
Proof.
  intros [H1 H2 H3 H4 H5 H6] Hi Hat. split; cbn.
  - by rewrite map_app, map_map, map_id, app_nil_r.
  - lia.
  - intros l1 e l2 E. pose proof (lost_app None (Some i) (length (events s)) (events s) (given s) max_queued_events) as Hl.
    rewrite firstn_all, drop_all in Hl. by eapply Hl.
  - intros j rj Hj. change (list_alter _ i (readers s)) with (alter (λ r, r <| reader_at := Writing (events s) (done s) |>) i (readers s)) in Hj.
    destruct (decide (j = i)) as [->|Hne].
    + rewrite list_lookup_alter_eq, Hi in Hj. injection Hj as <-. destruct (H4 i r Hi) as [W1 W2 W3].
      assert (part i (given (collect i s)) = written r ++ events s) as Hp.
      { change (given (collect i s)) with (given s ++ map (λ e, (e, Some i)) (events s)). rewrite part_app, part_own. f_equal. rewrite <- W1 by (by destruct Hat as [-> | ->]).
        unfold unwritten. destruct Hat as [-> | ->]; apply app_nil_r. }
      split; rewrite ?Hp; cbn; [done|by apply prefix_app_r|by intros ->].
    + rewrite list_lookup_alter_ne in Hj by done. destruct (H4 j rj Hj) as [W1 W2 W3].
      assert (part j (given (collect i s)) = part j (given s)) as Hp.
      { change (given (collect i s)) with (given s ++ map (λ e, (e, Some i)) (events s)). by rewrite part_app, part_other, app_nil_r. }
      split; rewrite ?Hp; [done|done|]. intros Hend. by destruct (W3 Hend).
  - intros e j. rewrite length_alter, elem_of_app. intros [Hin|(y & [= _ ->] & _)%list_elem_of_fmap]; [by eapply H5|].
    by eapply lookup_lt_Some.
  - done.
Qed.

Lemma push_event_ok emitted s json :
  events_ok emitted s → done s = false → events_ok (emitted ++ [json]) (push_event json s).
Proof.
  intros [H1 H2 H3 H4 H5 H6] Hd. unfold push_event.
  assert (∀ i r, readers s !! i = Some r → at_end r = false) as Hend.
  { intros i r Hi. destruct (at_end r) eqn:E; [|done]. destruct (reader_end _ _ _ (H4 i r Hi) E). congruence. }
  assert (∀ s', readers s' = readers s → (∀ i, part i (given s') = part i (given s)) →
            ∀ i r, readers s' !! i = Some r → reader_ok s' i r) as Hreaders.
  { intros s' Hr Hp i r Hi. rewrite Hr in Hi. destruct (H4 i r Hi) as [W1 W2 W3]. split; rewrite ?Hp; [done|done|].
    rewrite (Hend i r Hi). done. }
  destruct (Nat.ltb_spec max_queued_events (length (events s ++ [json]))) as [Hlen|Hlen].
  - set (q := events s ++ [json]) in *. assert (drop 1 q = tl q) as Htl by (by destruct q).
    split; cbn [events given done runner readers owe_notify].
    + transitivity (map fst (given s ++ map (λ e, (e, @None nat)) (take 1 q)) ++ drop 1 q); [by rewrite Htl|].
      rewrite app_moved. unfold q. by rewrite app_assoc, H1.
    + change (length (tl q) <= max_queued_events). unfold q in *. rewrite length_app in Hlen. destruct (events s); cbn in *; rewrite ?length_app; cbn; lia.
    + change (∀ l1 e l2, given s ++ map (λ e, (e, None)) (take 1 q) = l1 ++ (e, None) :: l2 → max_queued_events <= length l2 + length (tl q)).
      rewrite <- Htl. apply lost_app.
      * intros l1 x l2 E. pose proof (H3 l1 x l2 E). unfold q. rewrite length_app. lia.
      * intros _. right. rewrite length_drop. lia.
    + apply Hreaders; [done|]. intros i. change (part i (given s ++ map (λ e, (e, None)) (take 1 q)) = part i (given s)).
      by rewrite part_app, part_none, app_nil_r.
    + intros e i. change ((e, Some i) ∈ given s ++ map (λ e, (e, None)) (take 1 q) → i < length (readers s)). rewrite elem_of_app. intros [Hin|(y & [=] & _)%list_elem_of_fmap]. by eapply H5.
    + done.
  - split; cbn [events given done runner readers owe_notify]; try done.
    + change (map fst (given s) ++ events s ++ [json] = emitted ++ [json]). by rewrite app_assoc, H1.
    + intros l1 e l2 E. pose proof (H3 l1 e l2 E). change (max_queued_events <= length l2 + length (events s ++ [json])).
      rewrite length_app. lia.
    + by apply Hreaders.
Qed.

Lemma events_ok_open emitted s :
  events_ok emitted s → events_ok emitted (s <| readers := readers s ++ [{| reader_at := Looking; written := [] |}] |>).
Proof.
  intros [H1 H2 H3 H4 H5 H6]. split; try done.
  - intros i r. cbn. rewrite lookup_snoc_Some. intros [[_ Hi]|[-> <-]].
    + by apply (reader_ok_same s), H4.
    + assert (part (length (readers s)) (given s) = []) as Hp.
      { apply part_fresh. intros e Hin%H5. lia. }
      split; [intros _; exact (eq_sym Hp)|apply prefix_nil|done].
  - intros e i Hin. cbn. rewrite length_app. pose proof (H5 e i Hin). lia.
Qed.

Lemma events_ok_finish emitted s :
  events_ok emitted s → events_ok emitted (s <| runner := Finishing |> <| done := true |>).
Proof.
  intros [H1 H2 H3 H4 H5 H6]. split; try done.
  - intros i r Hi. destruct (H4 i r Hi) as [W1 W2 W3]. split; [done|done|]. intros Hend. by destruct (W3 Hend).
  - cbn. split; [by left|done].
Qed.

Lemma events_same_runner s s' :
  events s' = events s → given s' = given s → readers s' = readers s → done s' = done s →
  (runner s = Finishing ∨ runner s = Exited ↔ runner s' = Finishing ∨ runner s' = Exited) →
  (done s = true ↔ runner s = Finishing ∨ runner s = Exited) → events_same s s'.
Proof. intros He Hg Hr Hd Hrun H. split; [done|done|by left|done|]. rewrite Hd, H. done. Qed.

Lemma step_events emitted l s s' : step l s = Some s' → events_ok emitted s → events_ok (emitted ++ emitted_by l) s'.
Proof.
  intros E H. pose proof (events_done _ _ H) as Hd.
  assert (∀ s', events s' = events s → given s' = given s → readers s' = readers s → done s' = done s →
            (runner s = Finishing ∨ runner s = Exited ↔ runner s' = Finishing ∨ runner s' = Exited) → events_ok emitted s') as Hsame.
  { intros. eapply events_ok_same; [by apply events_same_runner|done]. }
  destruct l; cbn [step emitted_by] in *; rewrite ?app_nil_r.
  - unfold queue_audio in E. destruct (closed s); [done|]. injection E as <-. by apply Hsame.
  - injection E as <-. by apply Hsame.
  - injection E as <-. by apply events_ok_open.
  - destruct (notifying s) as [|n]; [done|]. injection E as <-. eapply events_ok_same; [|done]. split; [done|done|by right|done|].
    change (done s = true ↔ wake_runner (runner s) = Finishing ∨ wake_runner (runner s) = Exited). rewrite Hd. destruct (runner s); cbn; naive_solver.
  - injection E as <-. eapply events_ok_same; [|done]. split; [done|done|by right|done|].
    change (done s = true ↔ wake_runner (runner s) = Finishing ∨ wake_runner (runner s) = Exited). rewrite Hd. destruct (runner s); cbn; naive_solver.
  - assert (runner s ≠ Finishing ∧ runner s ≠ Exited ∧ s' = push_event json s) as (H1 & H2 & ->) by (destruct (runner s); by simplify_eq).
    apply push_event_ok; [done|]. apply not_true_iff_false. tauto.
  - destruct (runner s) eqn:Er; try done. injection E as <-. apply Hsame; try done; cbn; naive_solver.
  - destruct (runner s) as [|m| | | |] eqn:Er; try done. injection E as <-. unfold read_audio.
    destruct (negb _); [|destruct (bool_decide _)]; apply Hsame; try done; cbn; naive_solver.
  - destruct (runner s) eqn:Er; try done. destruct (aborted s); [|done]. injection E as <-. apply Hsame; try done; cbn; naive_solver.
  - destruct (runner s) eqn:Er; try done. injection E as <-. apply Hsame; try done; cbn; naive_solver.
  - destruct (runner s) eqn:Er; try done. injection E as <-. by apply events_ok_finish.
  - destruct (runner s) eqn:Er; try done. injection E as <-. eapply events_ok_same; [|done]. split; [done|done|by right|done|].
    split; [by right|]. intros _. apply Hd. by left.
  - destruct (readers s !! i) as [r|] eqn:Hi; [|done]. cbn in E. destruct (reader_at r) eqn:Er; try done. injection E as <-.
    destruct (_ || _); [eapply collect_ok; eauto|].
    eapply (events_ok_reader _ s _ i r (r <| reader_at := Sleeping |>)); try done.
    + destruct (events_readers _ _ H i r Hi) as [W1 W2 W3]. split; [intros _|done|done]. cbn. rewrite <- W1 by congruence. unfold unwritten. by rewrite Er.
    + by apply alter_readers.
  - destruct (readers s !! i) as [r|] eqn:Hi; [|done]. cbn in E. destruct (reader_at r) eqn:Er; try done. injection E as <-.
    eapply collect_ok; eauto.
  - destruct (readers s !! i) as [r|] eqn:Hi; [|done]. cbn in E. destruct (reader_at r) as [| |[|e batch] fin| |] eqn:Er; try done; injection E as <-;
      pose proof (events_readers _ _ H i r Hi) as [W1 W2 W3]; unfold unwritten, at_end in *; rewrite Er in *; specialize (W1 ltac:(done)).
    + eapply (events_ok_reader _ s _ i r (r <| reader_at := if fin then Complete else Looking |>)); try done; [|by apply alter_readers].
      destruct fin; split; cbn; try done.
    + eapply (events_ok_reader _ s _ i r {| reader_at := Writing batch fin; written := written r ++ [e] |}); try done;
        [|exact (alter_readers (λ r, {| reader_at := Writing batch fin; written := written r ++ [e] |}) i (readers s) r Hi)].
      split; cbn; [intros _; by rewrite <- app_assoc| |done]. rewrite <- W1. exists batch. by rewrite <- app_assoc.
  - destruct (readers s !! i) as [r|] eqn:Hi; [|done]. cbn in E. destruct (reader_at r) eqn:Er; try done. injection E as <-.
    eapply (events_ok_reader _ s _ i r (r <| reader_at := Gone |>)); try done; [|by apply alter_readers].
    destruct (events_readers _ _ H i r Hi) as [W1 W2 W3]. split; cbn; done.
Qed.

(** What the runner tells reaches the browser: the events taken by the
    connections, those dropped and those still queued are exactly the emitted ones,
    in order; a connection has written a prefix of the events it took, all of them
    when it is complete, and it completes only when the runner is done and nothing
    is left to take. At most 512 events are queued, and one is dropped only when 512
    newer ones have come behind it. *)
Theorem session_events ls now s :
  run ls (new_session now) = Some s →
  map fst (given s) ++ events s = emits ls ∧ length (events s) <= max_queued_events ∧
  (∀ l1 e l2, given s = l1 ++ (e, None) :: l2 → max_queued_events <= length l2 + length (events s)) ∧
  ∀ i r, readers s !! i = Some r →
    written r `prefix_of` part i (given s) ∧
    (reader_at r = Complete → done s = true ∧ events s = [] ∧ written r = part i (given s)).
Proof.
  intros E. assert (events_ok (emits ls) s) as [H1 H2 H3 H4 _ _].
  { revert s E. induction ls as [|l ls IH] using rev_ind; intros s E.
    - injection E as <-. split; try done; [cbn; lia| |by intros e i ?%not_elem_of_nil|].
      + intros l1 e l2 ?. by destruct l1.
      + cbn. naive_solver.
    - rewrite run_snoc in E. destruct (run ls _) as [s1|] eqn:E1; [|done]. unfold emits. rewrite map_app, concat_app.
      cbn [map concat]. rewrite app_nil_r. eapply step_events; [exact E|]. by apply IH. }
  split_and!; [done..|]. intros i r Hi. destruct (H4 i r Hi) as [W1 W2 W3]. split; [done|]. intros Hc.
  destruct W3 as [Hd He]; [unfold at_end; by rewrite Hc|]. split_and!; [done|done|]. rewrite <- W1 by congruence.
  unfold unwritten. by rewrite Hc, app_nil_r.
Qed.

(** * A session that is closed ends *)

(** A runner that waits has nothing to do, or is about to be woken up. *)
Definition wake_ok s : Prop :=
  ∀ max_samples, runner s = Waiting max_samples → closed s = false ∧ audio s = [] ∨ 0 < notifying s.

Lemma wake_ok_owed s : 0 < notifying s → wake_ok s.
Proof. intros H m _. by right. Qed.

Lemma wake_ok_not s : (∀ max_samples, runner s ≠ Waiting max_samples) → wake_ok s.
Proof. intros H m E. by destruct (H m). Qed.

Lemma wake_ok_same s s' :
  runner s' = runner s → closed s' = closed s → audio s' = audio s → notifying s' = notifying s → wake_ok s → wake_ok s'.
Proof. intros Hr Hc Ha Hn H m. rewrite Hr, Hc, Ha, Hn. apply H. Qed.

Lemma notify_all_wakes s : wake_ok (notify_all s).
Proof. apply wake_ok_not. intros m. change (wake_runner (runner s) ≠ Waiting m). by destruct (runner s). Qed.

Lemma step_wake l s s' : step l s = Some s' → wake_ok s → wake_ok s'.
Proof.
  intros E H. destruct l; cbn [step] in E.
  - unfold queue_audio in E. destruct (closed s); [done|]. injection E as <-. apply wake_ok_owed. cbn. lia.
  - injection E as <-. apply wake_ok_owed. cbn. lia.
  - injection E as <-. by eapply wake_ok_same.
  - destruct (notifying s) as [|n]; [done|]. injection E as <-. apply notify_all_wakes.
  - injection E as <-. apply notify_all_wakes.
  - assert (s' = push_event json s) as -> by (by repeat case_match; simplify_eq). apply wake_ok_owed. unfold push_event. cbn. lia.
  - repeat case_match; simplify_eq. by apply wake_ok_not.
  - destruct (runner s) as [|m| | | |] eqn:Er; try done. injection E as <-. unfold read_audio. destruct (closed s) eqn:Ec; cbn [orb negb].
    + destruct (bool_decide _); by apply wake_ok_not.
    + case_bool_decide as Ha; cbn [negb]; [|by apply wake_ok_not]. intros m' _. left. by split.
  - repeat case_match; simplify_eq. by apply wake_ok_not.
  - repeat case_match; simplify_eq. by apply wake_ok_not.
  - repeat case_match; simplify_eq. by apply wake_ok_not.
  - repeat case_match; simplify_eq. apply notify_all_wakes.
  - repeat case_match; simplify_eq; by eapply wake_ok_same.
  - repeat case_match; simplify_eq; by eapply wake_ok_same.
  - repeat case_match; simplify_eq; by eapply wake_ok_same.
  - repeat case_match; simplify_eq. apply wake_ok_owed. cbn. lia.
Qed.

Lemma run_wake ls now s : run ls (new_session now) = Some s → wake_ok s.
Proof.
  revert s. induction ls as [|l ls IH] using rev_ind; intros s E.
  - injection E as <-. by apply wake_ok_not.
  - rewrite run_snoc in E. destruct (run ls _) as [s1|] eqn:E1; [|done]. eapply step_wake; [exact E|]. by apply IH.
Qed.

(** The steps of the runner's audio thread, and the notifications that are owed. *)
Definition own_step (l : label) : bool := match l with Notify | Read _ | Take_ | Abort | Finish | Exit => true | _ => false end.

(** A session reaches another by own steps. *)
Definition leads s s' : Prop := ∃ ls, forallb own_step ls = true ∧ run ls s = Some s'.

Lemma leads_refl s : leads s s.
Proof. by exists []. Qed.

Lemma session_run_app ls1 ls2 s : run (ls1 ++ ls2) s = run ls1 s ≫= run ls2.
Proof.
  unfold run. rewrite foldl_app. destruct (foldl _ _ ls1); cbn; [done|]. by induction ls2.
Qed.

Lemma leads_trans s1 s2 s3 : leads s1 s2 → leads s2 s3 → leads s1 s3.
Proof.
  intros (l1 & O1 & R1) (l2 & O2 & R2). exists (l1 ++ l2). rewrite forallb_app, O1, O2, session_run_app, R1. by split.
Qed.

Lemma leads_step l s s' s'' : own_step l = true → step l s = Some s' → leads s' s'' → leads s s''.
Proof. intros Ho Hs Hl. eapply leads_trans; [|exact Hl]. exists [l]. cbn. by rewrite Ho, Hs. Qed.

Definition still_reading s : bool := match runner s with Working | Reading _ | Waiting _ => true | _ => false end.

Lemma heard_more t s : taken s = t → ∀ k, heard (s <| taken := t ++ map (λ x, (x, true)) k |>) = heard s ++ k.
Proof.
  intros <- k. unfold heard. cbn. rewrite List.filter_app, map_app. f_equal. induction k as [|x k IH]; [done|]. cbn. by rewrite IH.
Qed.

Lemma drained s m :
  audio s = [] → closed s = true → runner s = Reading m →
  ∃ s', leads s s' ∧ runner s' = Ending ∧ heard s' = heard s ++ audio s.
Proof.
  intros Ea Hc Hr. exists (s <| runner := Ending |>). split_and!; [|done|by rewrite Ea, app_nil_r].
  eapply (leads_step Take_); [done| |apply leads_refl]. cbn [step]. rewrite Hr. unfold read_audio. by rewrite Hc, Ea.
Qed.

(** The runner drains the queue of a closed session. *)
Lemma drain n s m :
  length (audio s) <= n → closed s = true → runner s = Reading m →
  ∃ s', leads s s' ∧ runner s' = Ending ∧ heard s' = heard s ++ audio s.
Proof.
  revert s m. induction n as [|n IH]; intros s m Hn Hc Hr; (destruct (decide (audio s = [])) as [Ea|Ea]; [by eapply drained|]).
  - destruct (audio s); [done|cbn in Hn; lia].
  - assert (0 < length (audio s)) as Hpos by (destruct (audio s); [done|cbn; lia]).
    set (k := Nat.min (Z.to_nat (Z.max 1 m)) (length (audio s))).
    set (s1 := s <| runner := Working |> <| audio := drop k (audio s) |> <| taken := taken s ++ map (λ x, (x, true)) (take k (audio s)) |>).
    assert (step Take_ s = Some s1) as H1.
    { cbn [step]. rewrite Hr. unfold read_audio. rewrite Hc. cbn [orb negb]. by rewrite bool_decide_eq_false_2. }
    set (s2 := s1 <| runner := Reading 320 |>).
    destruct (IH s2 320%Z) as (s' & Hl & Hs' & Hh); [|done|done|].
    { change (length (drop k (audio s)) <= n). rewrite length_drop. unfold k. lia. }
    exists s'. split_and!; [|done|].
    + eapply (leads_step Take_); [done|exact H1|]. by eapply (leads_step (Read 320)).
    + rewrite Hh. change (audio s2) with (drop k (audio s)). rewrite <- (take_drop k (audio s)) at 2. rewrite app_assoc. f_equal.
      exact (heard_more _ s eq_refl (take k (audio s))).
Qed.

Lemma closed_ends s :
  wake_ok s → closed s = true →
  ∃ s', leads s s' ∧ runner s' = Exited ∧ (still_reading s = true → heard s' = heard s ++ audio s).
Proof.
  intros Hw Hc.
  assert (∀ s1, runner s1 = Ending → ∃ s', leads s1 s' ∧ runner s' = Exited ∧ heard s' = heard s1) as Hend.
  { intros s1 H1. eexists. split.
    - eapply (leads_step Finish); [done|cbn [step]; by rewrite H1|]. eapply (leads_step Exit); [done|done|apply leads_refl].
    - done. }
  assert (∀ s1 m, runner s1 = Reading m → closed s1 = true →
            ∃ s', leads s1 s' ∧ runner s' = Exited ∧ heard s' = heard s1 ++ audio s1) as Hread.
  { intros s1 m H1 H2. destruct (drain (length (audio s1)) s1 m) as (s2 & L2 & E2 & T2); [done..|].
    destruct (Hend s2 E2) as (s3 & L3 & E3 & T3). exists s3. split_and!; [by eapply leads_trans|done|congruence]. }
  unfold still_reading. destruct (runner s) as [|m|m| | |] eqn:Er.
  - destruct (Hread (s <| runner := Reading 320 |>) 320%Z) as (s3 & L3 & E3 & T3); [done..|]. exists s3. split_and!; [|done|done].
    eapply (leads_step (Read 320)); [done|cbn [step]; by rewrite Er|done].
  - destruct (Hread s m) as (s3 & L3 & E3 & T3); [done..|]. by exists s3.
  - destruct (Hw m Er) as [[? _]|Hn]; [congruence|]. destruct (notifying s) as [|k] eqn:En; [lia|].
    destruct (Hread (notify_all (s <| notifying := k |>)) m) as (s3 & L3 & E3 & T3); [|done|].
    { change (wake_runner (runner s) = Reading m). by rewrite Er. }
    exists s3. split_and!; [|done|done]. eapply (leads_step Notify); [done|cbn [step]; by rewrite En|done].
  - destruct (Hend s Er) as (s3 & L3 & E3 & _). by exists s3.
  - eexists. split_and!; [eapply (leads_step Exit); [done|cbn [step]; by rewrite Er|apply leads_refl]|done|done].
  - exists s. by split_and!; [apply leads_refl| |].
Qed.

(** Stopping a session ends it: from every state of a closed session the
    runner's own steps and the notifications that are owed, without any further
    request, bring its thread to return, and a runner that still reads reads all the
    audio that was queued. *)
Theorem stopped_session_ends ls now s :
  run ls (new_session now) = Some s → closed s = true →
  ∃ s', leads s s' ∧ runner s' = Exited ∧ (still_reading s = true → heard s' = heard s ++ audio s).
Proof. intros E. apply closed_ends. by eapply run_wake. Qed.

End session.

(** * The sessions of the server *)

(** A request to create a session, which holds [voice_sessions_mutex_] while it
    sweeps: it looks at the sessions one after the other, closes an expired one and
    joins its thread before it forgets it. *)
Inductive sweep_phase := Checking | Closing (id : bytes) | Joining (id : bytes).

Record sweeper := { unchecked : gset bytes; phase : sweep_phase }.

Record voice_server {Float : Type} := {
  sessions : list (VoiceBrowserSession Float);     (* every session ever created *)
  voice_sessions_ : gmap bytes nat;
  voice_session_counter_ : Z;
  sweep : option sweeper;                          (* the mutex is held *)
  found : gset nat;                                (* the sessions requests have got hold of *)
}.
Arguments voice_server : clear implicits.

#[export] Instance voice_server_settable {Float} : Settable (voice_server Float) := λ s,
  {| sessions := sessions s; voice_sessions_ := voice_sessions_ s; voice_session_counter_ := voice_session_counter_ s;
     sweep := sweep s; found := found s |}.

Section server.
Context {Float : Type}.

Notation session := (VoiceBrowserSession Float).
Notation server := (voice_server Float).

Definition no_sessions : server :=
  {| sessions := []; voice_sessions_ := ∅; voice_session_counter_ := 0; sweep := None; found := ∅ |}.

(** ** Requests *)

(** [parse_query_params]: the last value of a key counts. *)
Definition add_param (out : gmap bytes bytes) (pair : bytes) : gmap bytes bytes :=
  match find_sub (str "=") pair with
  | Some eq => <[take eq pair := drop (S eq) pair]> out
  | None => out
  end.

Definition parse_query_params (query : bytes) : gmap bytes bytes := foldl add_param ∅ (split_on (ch "&") query).

Definition id_of (query : bytes) : bytes := default [] (parse_query_params query !! str "id").

(** ** Creating and sweeping *)

Definition expired (now : Z) (s : session) : bool :=
  (done s && bool_decide (events s = [])) || (30 * 60 * 1000 <? now - created s)%Z.

Definition session_id (counter : Z) : bytes := str "v" ++ to_string counter.

Definition with_session (i : nat) (f : session → option session) (v : server) : option server :=
  s ← sessions v !! i; s' ← f s; Some (v <| sessions := <[i := s']> (sessions v) |>).

Definition set_phase (w : sweeper) (p : sweep_phase) (v : server) : server :=
  v <| sweep := Some {| unchecked := unchecked w; phase := p |} |>.

Definition checked (w : sweeper) (id : bytes) (v : server) : server :=
  v <| sweep := Some {| unchecked := unchecked w ∖ {[id]}; phase := Checking |} |>.

(** The loop looks at session [id] next. *)
Definition check_session (now : Z) (id : bytes) (w : sweeper) (v : server) : option server :=
  if bool_decide (id ∈ unchecked w) then
    i ← voice_sessions_ v !! id; s ← sessions v !! i;
    Some (if expired now s then set_phase w (Closing id) v else checked w id v)
  else None.

(** [close_voice_session] up to the join, and [erase] behind it. *)
Definition close_expired (id : bytes) (w : sweeper) (v : server) : option server :=
  i ← voice_sessions_ v !! id;
  with_session i (λ s, Some (close s)) (set_phase w (Joining id) v).

Definition join_expired (id : bytes) (w : sweeper) (v : server) : option server :=
  i ← voice_sessions_ v !! id; s ← sessions v !! i;
  match runner s with
  | Exited => Some (checked w id v <| voice_sessions_ := delete id (voice_sessions_ v) |>)
  | _ => None
  end.

Definition insert_session (now : Z) (v : server) : server :=
  let counter := uwrap 64 (voice_session_counter_ v + 1) in
  v <| sessions := sessions v ++ [new_session now] |> <| voice_session_counter_ := counter |>
    <| voice_sessions_ := <[session_id counter := length (sessions v)]> (voice_sessions_ v) |> <| sweep := None |>.

(** ** Steps *)

Inductive server_label :=
| Create
| Check_ (now : Z) (id : bytes)
| Close_
| Join_
| Insert_ (now : Z)
| Find (id : bytes)                      (* a request looks its session up *)
| Request (i : nat) (l : @label Float)   (* ... and acts on it *)
| Own (i : nat) (l : @label Float).

Definition is_request (l : @label Float) : bool := match l with Post _ | Stop | Open => true | _ => false end.

Definition server_step (l : server_label) (v : server) : option server :=
  match l with
  | Create =>
      match sweep v with
      | None => Some (v <| sweep := Some {| unchecked := dom (voice_sessions_ v); phase := Checking |} |>)
      | Some _ => None
      end
  | Check_ now id => w ← sweep v; match phase w with Checking => check_session now id w v | _ => None end
  | Close_ => w ← sweep v; match phase w with Closing id => close_expired id w v | _ => None end
  | Join_ => w ← sweep v; match phase w with Joining id => join_expired id w v | _ => None end
  | Insert_ now =>
      w ← sweep v;
      match phase w with Checking => if bool_decide (unchecked w = ∅) then Some (insert_session now v) else None | _ => None end
  | Find id =>
      match sweep v with
      | None => i ← voice_sessions_ v !! id; Some (v <| found := {[i]} ∪ found v |>)
      | Some _ => None
      end
  | Request i l => if is_request l && bool_decide (i ∈ found v) then with_session i (step l) v else None
  | Own i l => if is_request l then None else with_session i (step l) v
  end.

Definition server_run (ls : list server_label) (v : server) : option server := foldl (λ q l, q ≫= server_step l) (Some v) ls.

Lemma server_run_snoc ls l v : server_run (ls ++ [l]) v = server_run ls v ≫= server_step l.
Proof. unfold server_run. by rewrite foldl_app. Qed.

(** ** The invariant *)

Lemma to_string_inj a b : (0 <= a)%Z → (0 <= b)%Z → to_string a = to_string b → a = b.
Proof.
  intros (da & Ea & _ & _ & <-)%to_string_spec (db & Eb & _ & _ & <-)%to_string_spec E. rewrite Ea, Eb in E. f_equal.
  apply (list_fmap_eq_inj (λ d, 48 + d)%Z) in E; [done|]. intros x y. lia.
Qed.

Notation own_id i := (session_id (Z.of_nat (S i))).

Lemma own_id_inj i j : own_id i = own_id j → i = j.
Proof. intros [= E]. apply to_string_inj in E; lia. Qed.

Lemma stays_closed l (s s' : session) : step l s = Some s' → closed s = true → closed s' = true.
Proof.
  intros E Hc. destruct l; cbn [step] in E; unfold queue_audio, push_event, read_audio in *; rewrite ?Hc in E;
    repeat case_match; simplify_eq; done.
Qed.

Lemma step_exited l (s s' : session) : step l s = Some s' → runner s = Exited → runner s' = Exited.
Proof.
  intros E Hr. destruct l; cbn [step] in E; unfold queue_audio in *; rewrite ?Hr in E;
    repeat case_match; simplify_eq; try done; cbn; by rewrite Hr.
Qed.

Definition sweep_ok (v : server) (w : sweeper) : Prop :=
  unchecked w ⊆ dom (voice_sessions_ v) ∧
  match phase w with
  | Checking => True
  | Closing id => id ∈ unchecked w
  | Joining id => id ∈ unchecked w ∧ ∃ i s, voice_sessions_ v !! id = Some i ∧ sessions v !! i = Some s ∧ closed s = true
  end.

Record server_ok (v : server) : Prop := {
  so_counter : voice_session_counter_ v = Z.of_nat (length (sessions v));
  so_ids id i : voice_sessions_ v !! id = Some i → i < length (sessions v) ∧ id = own_id i;
  so_owned i s : sessions v !! i = Some s → runner s ≠ Exited → voice_sessions_ v !! own_id i = Some i;
  so_reached i s : sessions v !! i = Some s → ∃ ls now, run ls (new_session now) = Some s;
  so_sweep w : sweep v = Some w → sweep_ok v w;
}.

Lemma no_sessions_ok : server_ok no_sessions.
Proof. by split. Qed.

Lemma with_session_Some i f (v v' : server) :
  with_session i f v = Some v' ↔ ∃ s s', sessions v !! i = Some s ∧ f s = Some s' ∧ v' = v <| sessions := <[i := s']> (sessions v) |>.
Proof.
  unfold with_session. destruct (sessions v !! i) as [s|]; [|naive_solver]. cbn. destruct (f s) as [s'|] eqn:E; cbn; naive_solver.
Qed.

Lemma ok_with_session i l (v v' : server) :
  server_ok v → with_session i (step l) v = Some v' → server_ok v'.
Proof.
  intros [H1 H2 H3 H4 H5] (s & s' & Hi & Hs & ->)%with_session_Some.
  assert (∀ j sj, <[i := s']> (sessions v) !! j = Some sj → j = i ∧ sj = s' ∨ j ≠ i ∧ sessions v !! j = Some sj) as Hj.
  { intros j sj Hj. apply list_lookup_insert_Some in Hj. naive_solver. }
  split.
  - cbn. by rewrite length_insert.
  - intros id j. cbn. rewrite length_insert. apply H2.
  - intros j sj [[-> ->]|[_ Hjs]]%Hj Hr; [|by eapply H3]. apply (H3 i s Hi). intros Hex. by destruct Hr, (step_exited l s s').
  - intros j sj [[-> ->]|[_ Hjs]]%Hj; [|by eapply H4]. destruct (H4 i s Hi) as (ls & now & Hrun). exists (ls ++ [l]), now.
    by rewrite run_snoc, Hrun.
  - intros w Hw. destruct (H5 w Hw) as [Hu Hp]. split; [done|]. destruct (phase w) as [| |id]; [done|done|].
    destruct Hp as (Hin & j & sj & Hm & Hjs & Hc). split; [done|]. exists j. cbn. destruct (decide (j = i)) as [->|Hne].
    + exists s'. rewrite list_lookup_insert_eq by by eapply lookup_lt_Some. split_and!; [done|done|].
      eapply stays_closed; [exact Hs|]. congruence.
    + exists sj. by rewrite list_lookup_insert_ne.
Qed.

(** Only what the sweep holds changes. *)
Lemma ok_sweep (v v' : server) :
  server_ok v → sessions v' = sessions v → voice_sessions_ v' = voice_sessions_ v →
  voice_session_counter_ v' = voice_session_counter_ v → (∀ w, sweep v' = Some w → sweep_ok v' w) → server_ok v'.
Proof. intros [H1 H2 H3 H4 H5] Es Em Ec Hw. by split; rewrite ?Es, ?Em, ?Ec. Qed.

Lemma ok_checked id w (v : server) : server_ok v → sweep_ok v w → server_ok (checked w id v).
Proof.
  intros Hv [Hu _]. eapply ok_sweep; [exact Hv|done..|]. intros w' [= <-]. split; [|done]. cbn.
  transitivity (unchecked w); [|done]. apply subseteq_difference_l, reflexivity.
Qed.

Lemma ok_insert now (v : server) :
  server_ok v → (Z.of_nat (length (sessions v)) + 1 < 2 ^ 64)%Z → server_ok (insert_session now v).
Proof.
  intros [H1 H2 H3 H4 H5] Hb. set (n := length (sessions v)) in *.
  assert (uwrap 64 (voice_session_counter_ v + 1) = Z.of_nat (S n)) as Hc.
  { rewrite H1. unfold uwrap. rewrite Z.mod_small by lia. lia. }
  unfold insert_session. rewrite Hc. split.
  - cbn. rewrite length_app. cbn. unfold n. lia.
  - intros id i. cbn [voice_sessions_ sessions]. cbn. rewrite length_app, lookup_insert_Some. cbn. intros [[<- <-]|[_ Hi]]; [unfold n; split; [lia|done]|].
    destruct (H2 id i Hi). split; [lia|done].
  - intros i s. cbn. rewrite lookup_snoc_Some. intros [[Hlt Hi]|[-> <-]] Hr; [|by rewrite lookup_insert_eq].
    rewrite lookup_insert_ne; [by eapply H3|]. intros E%own_id_inj. unfold n in E. lia.
  - intros i s. cbn. rewrite lookup_snoc_Some. intros [[Hlt Hi]|[-> <-]]; [by eapply H4|]. by exists [], now.
  - done.
Qed.

Lemma ok_join id w (v v' : server) :
  server_ok v → sweep_ok v w → join_expired id w v = Some v' → server_ok v'.
Proof.
  intros Hv Hw E. unfold join_expired in E. destruct (voice_sessions_ v !! id) as [i|] eqn:Hm; [|done]. cbn [mbind option_bind] in E.
  destruct (sessions v !! i) as [s|] eqn:Hi; [|done]. cbn [mbind option_bind] in E.
  assert (runner s = Exited ∧ v' = checked w id v <| voice_sessions_ := delete id (voice_sessions_ v) |>) as [Hr ->]
    by (destruct (runner s); by simplify_eq).
  destruct Hv as [H1 H2 H3 H4 H5]. destruct (H2 id i Hm) as [_ ->]. split.
  - done.
  - intros id' j. cbn. rewrite lookup_delete_Some. intros [_ Hj]. by apply H2.
  - intros j sj Hj Hrj. cbn. rewrite lookup_delete_ne; [by eapply H3|]. intros E'%own_id_inj. subst j. cbn in Hj. congruence.
  - done.
  - intros w' [= <-]. destruct Hw as [Hu _]. split; [|done]. cbn. intros x [Hx Hne]%elem_of_difference.
    rewrite elem_of_dom, lookup_delete_ne; [by apply elem_of_dom, Hu|]. intros <-. apply Hne. by apply elem_of_singleton.
Qed.

Lemma server_step_ok l (v v' : server) :
  server_step l v = Some v' → (Z.of_nat (length (sessions v')) < 2 ^ 64)%Z → server_ok v → server_ok v'.
Proof.
  intros E Hb Hv. destruct l as [|now id| | |now|id|i l|i l]; cbn [server_step] in E.
  - destruct (sweep v); [done|]. injection E as <-. eapply ok_sweep; [exact Hv|done..|]. by intros w [= <-].
  - destruct (sweep v) as [w|] eqn:Ew; [|done]. cbn in E. pose proof (so_sweep _ Hv w Ew) as Hw. destruct (phase w) eqn:Ep; try done.
    unfold check_session in E. case_bool_decide as Hin; [|done].
    destruct (voice_sessions_ v !! id) as [i|]; [|done]. cbn in E. destruct (sessions v !! i) as [s|]; [|done]. cbn in E.
    destruct (expired now s); injection E as <-; [|by apply ok_checked].
    eapply ok_sweep; [exact Hv|done..|]. intros w' [= <-]. split; [exact (proj1 Hw)|exact Hin].
  - destruct (sweep v) as [w|] eqn:Ew; [|done]. cbn in E. pose proof (so_sweep _ Hv w Ew) as Hw. destruct (phase w) as [|id|] eqn:Ep; try done.
    unfold close_expired in E. destruct (voice_sessions_ v !! id) as [i|] eqn:Hm; [|done]. cbn in E.
    assert (server_ok (v <| sweep := Some {| unchecked := unchecked w; phase := Closing id |} |>)) as Hv1.
    { eapply ok_sweep; [exact Hv|done..|]. intros w' [= <-]. split; [exact (proj1 Hw)|]. unfold sweep_ok in Hw. rewrite Ep in Hw. exact (proj2 Hw). }
    apply with_session_Some in E as (s & s' & Hi & [= <-] & ->).
    assert (server_ok (v <| sweep := Some {| unchecked := unchecked w; phase := Closing id |} |> <| sessions := <[i := close s]> (sessions v) |>)) as Hv2.
    { apply (ok_with_session i Stop _ _ Hv1). apply with_session_Some. exists s, (close s). by split_and!. }
    eapply ok_sweep; [exact Hv2|done..|]. intros w' [= <-]. split; [exact (proj1 Hw)|]. unfold sweep_ok in Hw. rewrite Ep in Hw.
    split; [exact (proj2 Hw)|]. exists i, (close s). split_and!; [exact Hm| |done].
    cbn. by rewrite list_lookup_insert_eq by by eapply lookup_lt_Some.
  - destruct (sweep v) as [w|] eqn:Ew; [|done]. cbn in E. pose proof (so_sweep _ Hv w Ew) as Hw. destruct (phase w) eqn:Ep; try done.
    by eapply ok_join.
  - destruct (sweep v) as [w|] eqn:Ew; [|done]. cbn in E. destruct (phase w) eqn:Ep; try done. case_bool_decide; [|done].
    injection E as <-. apply ok_insert; [done|]. cbn in Hb. rewrite length_app in Hb. cbn in Hb. lia.
  - destruct (sweep v) eqn:Ew; [done|]. destruct (voice_sessions_ v !! id); [|done]. injection E as <-.
    eapply ok_sweep; [exact Hv|done..|]. intros w. cbn. by rewrite Ew.
  - destruct (_ && _); [|done]. by eapply ok_with_session.
  - destruct (is_request l); [done|]. by eapply ok_with_session.
Qed.

(** Sessions are never forgotten by the model. *)
Lemma server_step_grows l (v v' : server) : server_step l v = Some v' → length (sessions v) <= length (sessions v').
Proof.
  intros E.
  destruct l; cbn [server_step] in E;
    unfold check_session, join_expired, close_expired, with_session, set_phase, checked, insert_session in E;
    repeat (case_match || (apply bind_Some in E as (? & ? & E))); simplify_eq; cbn; rewrite ?length_app, ?length_insert; lia.
Qed.

Lemma server_run_from ls (v v' : server) :
  server_run ls v = Some v' → (Z.of_nat (length (sessions v')) < 2 ^ 64)%Z → server_ok v → server_ok v'.
Proof.
  revert v'. induction ls as [|l ls IH] using rev_ind; intros v' E Hb Hv; [by injection E as <-|].
  rewrite server_run_snoc in E. destruct (server_run ls v) as [v1|] eqn:E1; [|done].
  pose proof (server_step_grows _ _ _ E). eapply server_step_ok; [exact E|done|]. apply IH; [done|lia|done].
Qed.

Lemma server_run_ok ls (v : server) :
  server_run ls no_sessions = Some v → (Z.of_nat (length (sessions v)) < 2 ^ 64)%Z → server_ok v.
Proof. intros E Hb. eapply server_run_from; [exact E|done|apply no_sessions_ok]. Qed.

(** C24. The server never loses a voice session: with less than 2^64 sessions each
    gets an id of its own, that of no other session before or after it; every
    session whose thread has not returned is in the table under its id, so that its
    thread can still be joined, and the sweep forgets a session only after the join. *)
Theorem voice_sessions_owned ls (v : server) :
  server_run ls no_sessions = Some v → (Z.of_nat (length (sessions v)) < 2 ^ 64)%Z →
  (∀ i s, sessions v !! i = Some s → runner s ≠ Exited → voice_sessions_ v !! own_id i = Some i) ∧
  (∀ id i, voice_sessions_ v !! id = Some i → id = own_id i ∧ is_Some (sessions v !! i)) ∧
  (∀ now v', server_step (Insert_ now) v = Some v' → (Z.of_nat (length (sessions v')) < 2 ^ 64)%Z →
     let i := length (sessions v) in
     voice_sessions_ v' = <[own_id i := i]> (voice_sessions_ v) ∧ voice_sessions_ v !! own_id i = None).
Proof.
  intros E Hb. destruct (server_run_ok ls v E Hb) as [H1 H2 H3 H4 H5]. split; [done|]. split.
  - intros id i Hi. destruct (H2 id i Hi). split; [done|]. by apply lookup_lt_is_Some.
  - intros now v' E' Hb'. assert (v' = insert_session now v) as -> by (cbn [server_step] in E'; repeat (case_match || (apply bind_Some in E' as (? & ? & E'))); by simplify_eq).
    cbn in Hb' |- *. rewrite length_app in Hb'. cbn in Hb'. split.
    + rewrite H1. unfold uwrap. rewrite Z.mod_small by lia. by rewrite Z.add_1_r, <- Nat2Z.inj_succ.
    + destruct (voice_sessions_ v !! own_id (length (sessions v))) as [j|] eqn:Ej; [|done]. destruct (H2 _ _ Ej) as [Hlt E2%own_id_inj]. lia.
Qed.

(** ** A sweep ends *)

Definition eventually (P : server → Prop) (v : server) : Prop := ∃ ls v', server_run ls v = Some v' ∧ P v'.

Lemma server_run_app ls1 ls2 (v : server) : server_run (ls1 ++ ls2) v = server_run ls1 v ≫= server_run ls2.
Proof. unfold server_run. rewrite foldl_app. destruct (foldl _ _ ls1); cbn; [done|]. by induction ls2. Qed.

Lemma eventually_run ls P (v v' : server) : server_run ls v = Some v' → eventually P v' → eventually P v.
Proof. intros E (ls2 & v2 & R & H). exists (ls ++ ls2), v2. split; [|done]. by rewrite server_run_app, E. Qed.

Lemma eventually_step l P (v v' : server) : server_step l v = Some v' → eventually P v' → eventually P v.
Proof. intros E. by apply (eventually_run [l]). Qed.

(** Own steps of a session are steps of the server. *)
Lemma leads_server i (s s' : session) (v : server) :
  leads s s' → sessions v !! i = Some s →
  ∃ ls, server_run ls v = Some (v <| sessions := <[i := s']> (sessions v) |>).
Proof.
  intros (ls & Ho & R). revert s v Ho R. induction ls as [|l ls IH]; intros s v Ho R Hi.
  - injection R as <-. exists []. cbn. rewrite list_insert_id by done. by destruct v.
  - cbn [forallb] in Ho. apply andb_true_iff in Ho as [Hl Ho]. rewrite (session_run_app [l] ls) in R.
    destruct (run [l] s) as [s1|] eqn:E1; [|done]. cbn in R, E1.
    set (v1 := v <| sessions := <[i := s1]> (sessions v) |>).
    destruct (IH s1 v1 Ho R) as [ls2 R2].
    { cbn. apply list_lookup_insert_eq. by eapply lookup_lt_Some. }
    exists (Own i l :: ls2). rewrite (server_run_app [Own i l] ls2).
    assert (server_run [Own i l] v = Some v1) as ->.
    { cbn. assert (is_request l = false) as -> by by destruct l. apply with_session_Some. by exists s, s1. }
    cbn [mbind option_bind]. rewrite R2. f_equal. cbn. by rewrite list_insert_insert_eq.
Qed.

(** An expired session is closed, joined and forgotten. *)
Lemma sweep_joins (v : server) w i :
  server_ok v → sweep v = Some w → phase w = Closing (own_id i) → voice_sessions_ v !! own_id i = Some i →
  (Z.of_nat (length (sessions v)) < 2 ^ 64)%Z →
  ∃ ls v', server_run ls v = Some v' ∧ server_ok v' ∧ length (sessions v') = length (sessions v) ∧
    sweep v' = Some {| unchecked := unchecked w ∖ {[own_id i]}; phase := Checking |}.
Proof.
  intros Hv Hw Hp Hm Hb. destruct (so_ids _ Hv _ i Hm) as [Hlt _]. destruct (lookup_lt_is_Some_2 _ _ Hlt) as [s Hi].
  set (w' := {| unchecked := unchecked w; phase := Joining (own_id i) |}).
  set (v1 := v <| sweep := Some w' |> <| sessions := <[i := close s]> (sessions v) |>).
  assert (server_step Close_ v = Some v1) as H1.
  { cbn [server_step]. rewrite Hw. cbn [mbind option_bind]. rewrite Hp. unfold close_expired. rewrite Hm. cbn [mbind option_bind]. apply with_session_Some. by exists s, (close s). }
  destruct (closed_ends (close s)) as (s2 & Hl & Hr & _); [by apply wake_ok_owed; cbn; lia|done|].
  destruct (leads_server i _ s2 v1 Hl) as [ls R]; [by apply list_lookup_insert_eq|].
  set (v2 := v1 <| sessions := <[i := s2]> (sessions v1) |>) in *.
  set (v3 := checked w' (own_id i) v2 <| voice_sessions_ := delete (own_id i) (voice_sessions_ v2) |>).
  assert (server_step Join_ v2 = Some v3) as H3.
  { unfold server_step. change (sweep v2) with (Some w'). cbn [mbind option_bind]. cbn [phase w']. unfold join_expired.
    change (voice_sessions_ v2) with (voice_sessions_ v). rewrite Hm. cbn [mbind option_bind].
    assert (sessions v2 !! i = Some s2) as -> by (apply list_lookup_insert_eq; cbn; by rewrite length_insert).
    cbn [mbind option_bind]. by rewrite Hr. }
  assert (server_run ([Close_] ++ ls ++ [Join_]) v = Some v3) as Hrun.
  { rewrite server_run_app. assert (server_run [Close_] v = Some v1) as -> by exact H1. cbn [mbind option_bind].
    by rewrite server_run_snoc, R. }
  assert (length (sessions v3) = length (sessions v)) as Hlen by (cbn; by rewrite !length_insert).
  exists ([Close_] ++ ls ++ [Join_]), v3. split_and!; [done| |done|done]. eapply server_run_from; [exact Hrun|by rewrite Hlen|done].
Qed.

(** A sweep that has n sessions left to look at. *)
Lemma sweep_checks n (now : Z) (v : server) w :
  server_ok v → sweep v = Some w → phase w = Checking → size (unchecked w) <= n →
  (Z.of_nat (length (sessions v)) < 2 ^ 64)%Z → eventually (λ v', sweep v' = None) v.
Proof.
  revert v w. induction n as [|n IH]; intros v w Hv Hw Hp Hn Hb; (destruct (decide (unchecked w = ∅)) as [He|He];
    [eapply (eventually_step (Insert_ now)); [|by exists [], (insert_session now v)];
     cbn [server_step]; rewrite Hw; cbn; by rewrite Hp, bool_decide_eq_true_2|]).
  { destruct He. apply leibniz_equiv, size_empty_inv. lia. }
  apply set_choose_L in He as [id Hid]. destruct (so_sweep _ Hv w Hw) as [Hu _].
  pose proof (Hu id Hid) as [i Hm]%elem_of_dom. destruct (so_ids _ Hv id i Hm) as [Hlt ->].
  destruct (lookup_lt_is_Some_2 _ _ Hlt) as [s Hi].
  assert (size (unchecked w ∖ {[own_id i]}) <= n) as Hsz.
  { rewrite size_difference by set_solver. rewrite size_singleton. lia. }
  assert (server_step (Check_ now (own_id i)) v = Some (if expired now s then set_phase w (Closing (own_id i)) v else checked w (own_id i) v)) as Hc.
  { cbn [server_step]. rewrite Hw. cbn [mbind option_bind]. rewrite Hp. unfold check_session. rewrite bool_decide_eq_true_2 by done. rewrite Hm. cbn [mbind option_bind]. by rewrite Hi. }
  eapply eventually_step; [exact Hc|]. assert (Hok1 := server_step_ok _ _ _ Hc). destruct (expired now s).
  - specialize (Hok1 Hb Hv). destruct (sweep_joins _ {| unchecked := unchecked w; phase := Closing (own_id i) |} i Hok1) as (ls & v' & R & Hv' & Hlen & Hw'); [done..|].
    eapply eventually_run; [exact R|]. eapply IH; [exact Hv'|exact Hw'|done|done|]. rewrite Hlen. exact Hb.
  - eapply (IH _ {| unchecked := unchecked w ∖ {[own_id i]}; phase := Checking |}); [by apply Hok1|done..].
Qed.

(** A request for a session is never blocked for good: whatever the server is
    doing, the sweep in progress can be completed - the threads of the sessions it
    closes return by their own steps - and the mutex is free again. *)
Theorem sweep_ends ls (v : server) :
  server_run ls no_sessions = Some v → (Z.of_nat (length (sessions v)) < 2 ^ 64)%Z → eventually (λ v', sweep v' = None) v.
Proof.
  intros E Hb. pose proof (server_run_ok ls v E Hb) as Hv. destruct (sweep v) as [w|] eqn:Hw; [|by exists [], v].
  destruct (phase w) as [|id|id] eqn:Hp.
  - by eapply (sweep_checks _ 0 v w).
  - destruct (so_sweep _ Hv w Hw) as [Hu Hin]. rewrite Hp in Hin. pose proof (Hu id Hin) as [i Hm]%elem_of_dom.
    destruct (so_ids _ Hv id i Hm) as [_ ->]. destruct (sweep_joins v w i Hv Hw Hp Hm Hb) as (ls2 & v' & R & Hv' & Hlen & Hw').
    eapply eventually_run; [exact R|]. eapply (sweep_checks _ 0 v'); [done|exact Hw'|done|done|by rewrite Hlen].
  - destruct (so_sweep _ Hv w Hw) as [Hu Hin]. rewrite Hp in Hin. destruct Hin as (Hin & i & s & Hm & Hi & Hc).
    destruct (so_ids _ Hv id i Hm) as [_ ->]. destruct (so_reached _ Hv i s Hi) as (l0 & now & R0).
    destruct (closed_ends s) as (s2 & Hl & Hr & _); [by eapply run_wake|done|]. destruct (leads_server i s s2 v Hl Hi) as [ls1 R1].
    eapply eventually_run; [exact R1|]. set (v1 := v <| sessions := <[i := s2]> (sessions v) |>) in *.
    assert (server_step Join_ v1 = Some (checked w (own_id i) v1 <| voice_sessions_ := delete (own_id i) (voice_sessions_ v1) |>)) as HJ.
    { unfold server_step. change (sweep v1) with (sweep v). rewrite Hw. cbn [mbind option_bind]. rewrite Hp. unfold join_expired.
      change (voice_sessions_ v1) with (voice_sessions_ v). rewrite Hm. cbn [mbind option_bind].
      assert (sessions v1 !! i = Some s2) as -> by (apply list_lookup_insert_eq; by eapply lookup_lt_Some).
      cbn [mbind option_bind]. by rewrite Hr. }
    eapply eventually_step; [exact HJ|]. assert (server_ok v1) as Hv1 by (eapply server_run_from; [exact R1| |done]; cbn; by rewrite length_insert).
    eapply (sweep_checks _ 0 _ {| unchecked := unchecked w ∖ {[own_id i]}; phase := Checking |}); [|done|done|done|cbn; by rewrite length_insert].
    eapply server_step_ok; [exact HJ|cbn; by rewrite length_insert|done].
Qed.

End server.

(** ** Requests and steps *)

Section requests.
Context {Float : Type} (scale_s16 float_of_bits : Z → Float) (json_quote : bytes → bytes).

Notation session := (VoiceBrowserSession Float).
Notation server := (voice_server Float).
Notation quote := HttpRequest.quote.
Notation error_response := (HttpRequest.error_response json_quote).
Notation json_response body := (HttpRequest.json_response body 200).

Definition unknown_session (id : bytes) : HttpRequest.HttpResponse :=
  error_response 404 (str "unknown voice session: " ++ id) (str "not_found").

Definition ok_body : bytes := str "{" ++ quote ++ str "ok" ++ quote ++ str ":true}".

(** The critical sections of a request on the session it found. *)
Definition audio_request (body : bytes) (s : session) : HttpRequest.HttpResponse * session :=
  match queue_audio (pcm_samples scale_s16 body) s with
  | None => (error_response 409 (str "voice session is closed") (str "invalid_request_error"), s)
  | Some s => (json_response ok_body, s)
  end.

Definition stop_request (s : session) : HttpRequest.HttpResponse * session := (json_response ok_body, close s).

(** A request without others in between. *)
Definition on_session (request : session → HttpRequest.HttpResponse * session) (query : bytes) (v : server) :
    HttpRequest.HttpResponse * server :=
  let id := id_of query in
  match (voice_sessions_ v !! id) ≫= (λ i, (i,.) <$> sessions v !! i) with
  | None => (unknown_session id, v)
  | Some (i, s) => let '(response, s) := request s in (response, v <| sessions := <[i := s]> (sessions v) |>)
  end.

Definition handle_voice_session_audio (query body : bytes) : server → HttpRequest.HttpResponse * server :=
  on_session (audio_request body) query.

Definition handle_voice_session_stop (query : bytes) : server → HttpRequest.HttpResponse * server :=
  on_session stop_request query.


(** The browser's audio is decoded like that of a stream of raw samples. *)
Lemma pcm_samples_spec body :
  Forall (λ c, 0 <= c < 256)%Z body →
  pcm_samples scale_s16 body = decode_samples scale_s16 float_of_bits S16LE (length body / 2) body.
Proof.
  intros H.
  remember (length body) as n eqn:Hn. revert body Hn H. induction (lt_wf n) as [n _ IH]. intros [|lo [|hi body]] Hn H.
  - by subst.
  - by subst.
  - cbn [length] in Hn. replace (n / 2) with (S (length body / 2))
      by (subst n; apply (Nat.div_unique _ 2 _ (length body mod 2)); pose proof (Nat.div_mod_eq (length body) 2); pose proof (Nat.mod_upper_bound (length body) 2); lia).
    cbn [pcm_samples decode_samples]. apply Forall_cons in H as [Hlo [Hhi Hb]%Forall_cons]. rewrite <- (IH (length body)); [|lia|done|done].
    f_equal. unfold AudioStream.decode, decode_s16le, byte_at.
    change (default 0%Z ((lo :: hi :: body) !! 0)) with lo. change (default 0%Z ((lo :: hi :: body) !! 1)) with hi.
    unfold uwrap. rewrite Z.mod_small; [done|]. rewrite Z.lor_comm, lor_shiftl_add by lia. change (2 ^ 8)%Z with 256%Z. change (2 ^ 16)%Z with 65536%Z. lia.
Qed.

(** A request without others in between is its two steps. *)
Lemma audio_request_steps query body (v v' : voice_server Float) response :
  sweep v = None → handle_voice_session_audio query body v = (response, v') →
  HttpRequest.status response = 200%Z →
  ∃ i, voice_sessions_ v !! id_of query = Some i ∧
    server_run [Find (id_of query); Request i (Post (pcm_samples scale_s16 body))] v = Some (v' <| found := {[i]} ∪ found v |>).
Proof.
  intros Hw. unfold handle_voice_session_audio, on_session.
  destruct (voice_sessions_ v !! id_of query) as [i|] eqn:Hm; cbn [mbind option_bind]; [|intros [= <- <-]; discriminate].
  destruct (sessions v !! i) as [s|] eqn:Hi; cbn [fmap option_fmap option_map]; [|intros [= <- <-]; discriminate].
  unfold audio_request. destruct (queue_audio _ s) as [s'|] eqn:Eq; [|intros [= <- <-]; discriminate].
  intros [= <- <-] _. exists i. split; [done|]. cbn -[queue_audio]. rewrite Hw, Hm. cbn -[queue_audio].
  rewrite bool_decide_eq_true_2 by set_solver. unfold with_session. cbn -[queue_audio]. rewrite Hi. cbn -[queue_audio]. by rewrite Eq.
Qed.

End requests.

(** * Examples *)

Module Browser.

(** Samples, events and a complete session. *)
Definition one_turn : list (@label Z) :=
  [Open; Look 0; Post [1; 2; 3]; Notify; Read 2; Take_; Emit (str "partial"); Look 0; Write 0; Write 0; Stop;
   Read 320; Take_; Emit (str "final"); Abort; Finish; Exit; Look 0; Write 0; Write 0]%Z.

Definition ended : VoiceBrowserSession Z := default (new_session 0) (run one_turn (new_session 0)).

Lemma one_turn_runs : run one_turn (new_session 0) = Some ended.
Proof. by vm_compute. Qed.

Lemma session_audio_witness : heard ended ++ audio ended = [1; 2; 3]%Z ∧ length (audio ended) <= max_queued_audio.
Proof.
  destruct (session_audio one_turn 0 ended one_turn_runs) as (_ & Hb & _ & Hall). split; [|done].
  change ([1; 2; 3]%Z) with (posts one_turn). apply Hall. apply Nat.leb_le. by vm_compute.
Defined.

Lemma session_events_witness :
  exists r, readers ended !! 0 = Some r ∧ reader_at r = Complete ∧ written r = [str "partial"; str "final"].
Proof.
  destruct (session_events one_turn 0 ended one_turn_runs) as (_ & _ & _ & Hr).
  destruct (readers ended !! 0) as [r|] eqn:E; [|by vm_compute in E]. exists r. split; [done|].
  assert (reader_at r = Complete) as Hc by by (revert E; vm_compute; intros [= <-]).
  split; [done|]. destruct (Hr 0 r E) as [_ Hw]. destruct (Hw Hc) as (_ & _ & ->). by vm_compute.
Defined.

(** Stopped while it waits for audio. *)
Definition stopped : list (@label Z) := [Read 320; Take_; Post [7]; Stop]%Z.
Definition waiting : VoiceBrowserSession Z := default (new_session 0) (run stopped (new_session 0)).

Lemma stopped_session_ends_witness : ∃ s', leads waiting s' ∧ runner s' = Exited ∧ heard s' = [7]%Z.
Proof.
  destruct (stopped_session_ends stopped 0 waiting) as (s' & Hl & Hr & Hh); [by vm_compute..|].
  exists s'. split_and!; [done|done|]. by rewrite Hh.
Defined.

(** Two sessions; the third request, 31 minutes after the first, sweeps it. *)
Definition v (n : Z) : bytes := session_id n.
Definition late : Z := 31 * 60 * 1000.
Definition swept : list server_label :=
  [Create; Insert_ 0; Create; Check_ 5 (v 1); Insert_ 5; Find (v 1); Request 0 (Post [1]); Own 0 (Read 320); Own 0 Take_;
   Create; Check_ late (v 1); Close_]%Z.
Definition sweeping : voice_server Z := default no_sessions (server_run swept no_sessions).

Lemma sweeping_run : server_run swept no_sessions = Some sweeping.
Proof. unfold sweeping. by destruct (server_run swept no_sessions) eqn:E; [|vm_compute in E]. Qed.

Lemma two_sessions : length (sessions sweeping) = 2.
Proof. by vm_compute. Qed.

Lemma voice_sessions_owned_witness : voice_sessions_ sweeping !! v 2 = Some 1.
Proof.
  destruct (voice_sessions_owned swept sweeping sweeping_run) as (Hown & _); [by rewrite two_sessions|].
  destruct (sessions sweeping !! 1) as [s|] eqn:Es; [|by vm_compute in Es]. apply (Hown 1 s Es).
  revert Es. vm_compute. by intros [= <-].
Defined.

Lemma sweep_ends_witness : eventually (λ v', sweep v' = None) sweeping.
Proof. apply (sweep_ends swept); [exact sweeping_run|by rewrite two_sessions]. Defined.

(** The session swept is not abandoned: its runner is reading what has just been
    sent. *)
Example talking_swept :
  (λ s : VoiceBrowserSession Z, (runner s, closed s, heard s)) <$> sessions sweeping !! 0 = Some (Working, true, [1]%Z).
Proof. by vm_compute. Qed.

End Browser.
