(* ===== verification/TorchRandom.v ===== *)
(** Random tensors as PyTorch makes them on CUDA (framework/sampling/torch_random.cpp):
    the Philox generator, the layout of its counters over the elements of a tensor,
    and the rounding to bfloat16. *)

From S2P Require Import Prelude.
From stdpp Require Import list.

#[local] Open Scope Z_scope.

(** Arithmetic of [uint32_t] and [uint64_t]. *)
Notation u32 := (uwrap 32).
Notation u64 := (uwrap 64).

(** * Philox *)

Definition kPhiloxM0 : Z := 0xD2511F53.
Definition kPhiloxM1 : Z := 0xCD9E8D57.
Definition kPhiloxW0 : Z := 0x9E3779B9.
Definition kPhiloxW1 : Z := 0xBB67AE85.

Record Philox4 := { px : Z; py : Z; pz : Z; pw : Z }.

(** [hi] and [lo]. *)
Definition mul_hi_lo (lhs rhs : Z) : Z * Z :=
  let product := lhs * rhs in (u32 (Z.shiftr product 32), u32 product).

Definition philox_round (counter : Philox4) (key0 key1 : Z) : Philox4 :=
  let '(hi0, lo0) := mul_hi_lo kPhiloxM0 (px counter) in
  let '(hi1, lo1) := mul_hi_lo kPhiloxM1 (pz counter) in
  {| px := Z.lxor (Z.lxor hi1 (py counter)) key0; py := lo1; pz := Z.lxor (Z.lxor hi0 (pw counter)) key1; pw := lo0 |}.

Fixpoint philox_rounds (rounds : nat) (counter : Philox4) (key0 key1 : Z) : Philox4 :=
  match rounds with
  | O => counter
  | S rounds => philox_rounds rounds (philox_round counter key0 key1) (u32 (key0 + kPhiloxW0)) (u32 (key1 + kPhiloxW1))
  end.

Definition philox_4x32_10 (counter : Philox4) (seed : Z) : Philox4 :=
  philox_rounds 10 counter (u32 seed) (u32 (Z.shiftr seed 32)).

(** The halves of two 64-bit words. *)
Definition counter_of (low high : Z) : Philox4 :=
  {| px := u32 low; py := u32 (Z.shiftr low 32); pz := u32 high; pw := u32 (Z.shiftr high 32) |}.

(** * Layout *)

Record TorchCudaSamplingPolicy := {
  multiprocessor_count : Z;
  max_threads_per_multiprocessor : Z;
  cuda_fast_path : bool;
  cuda_device_index : Z;
}.

Definition default_policy : TorchCudaSamplingPolicy :=
  {| multiprocessor_count := 1; max_threads_per_multiprocessor := 256; cuda_fast_path := false; cuda_device_index := 0 |}.

Inductive TorchRandnPrecision := Float32 | BFloat16.

Definition block_size : Z := 256.
Definition unroll_factor : Z := 4.

(** The lines shared by [torch_cuda_tensor_iterator_stride] and its two copies. *)
Definition grid_stride (total_elements : Z) (policy : TorchCudaSamplingPolicy) : Z :=
  let grid := u64 (total_elements + block_size - 1) / block_size in
  let blocks_per_sm := max_threads_per_multiprocessor policy / block_size in
  let blocks_per_sm := if blocks_per_sm =? 0 then 1 else blocks_per_sm in
  let grid_cap := u64 (multiprocessor_count policy * blocks_per_sm) in
  let grid := Z.max 1 (Z.min grid_cap grid) in
  u64 (block_size * grid).

Definition has_device (policy : TorchCudaSamplingPolicy) : bool :=
  negb ((multiprocessor_count policy <=? 0) || (max_threads_per_multiprocessor policy <=? 0)).

Definition torch_cuda_tensor_iterator_stride (total_elements : Z) (policy : TorchCudaSamplingPolicy) : outcome Z :=
  if negb (has_device policy) then Throw (str "torch CUDA TensorIterator randn requires CUDA device properties")
  else Ok (grid_stride total_elements policy).

Definition torch_cuda_tensor_iterator_offset_blocks (total_elements : Z) (policy : TorchCudaSamplingPolicy) : outcome Z :=
  if total_elements =? 0 then Throw (str "torch CUDA TensorIterator offset requires elements")
  else if negb (has_device policy) then Throw (str "torch CUDA TensorIterator offset requires CUDA device properties")
  else Ok (u64 ((total_elements - 1) / u64 (grid_stride total_elements policy * unroll_factor) + 1)).

(** ** The policy *)

(** [pinned_policy_from_env] on the value of ENGINE_TORCH_SAMPLING_POLICY. *)
Definition pinned_policy_from_env (value : option bytes) : outcome (option TorchCudaSamplingPolicy) :=
  match value with
  | None | Some [] => Ok None
  | Some text =>
      if bool_decide (text = str "default") then Ok (Some default_policy)
      else
        let expected := str "ENGINE_TORCH_SAMPLING_POLICY must be " ++ [34] ++ str "default" ++ [34] ++ str " or " ++ [34] ++ str "<sm>x<threads>" ++ [34] ++
                        str ", got: " ++ text in
        match find_sub (str "x") text with
        | None => Throw expected
        | Some cross =>
            match stoll (take cross text), stoll (drop (S cross) text) with
            | Ok multiprocessors, Ok threads =>
                if (multiprocessors <=? 0) || (threads <=? 0) then
                  Throw (str "ENGINE_TORCH_SAMPLING_POLICY values must be positive: " ++ text)
                else Ok (Some {| multiprocessor_count := multiprocessors; max_threads_per_multiprocessor := threads;
                                 cuda_fast_path := false; cuda_device_index := 0 |})
            | _, _ => Throw expected
            end
        end
  end.

Inductive TorchCudaSamplingPolicyFailureMode := StrictCuda | FallbackToDefault.

(** What the CUDA driver says. *)
Inductive cuda_probe := DriverNotFound | SymbolsNotResolved | Attributes (ok : bool) (multiprocessors threads : Z).

Definition resolve_torch_cuda_sampling_policy (env : option bytes) (is_cuda : bool) (device_index : Z) (probe : cuda_probe)
    (model_name : bytes) (failure_mode : TorchCudaSamplingPolicyFailureMode) : outcome TorchCudaSamplingPolicy :=
  let failed why :=
    match failure_mode with
    | FallbackToDefault => Ok default_policy
    | StrictCuda => Throw (model_name ++ str " CUDA sampling policy probe failed: " ++ why)
    end in
  pinned ← pinned_policy_from_env env;
  match pinned with
  | Some policy => Ok policy
  | None =>
      if negb is_cuda then Ok default_policy
      else match probe with
      | DriverNotFound => failed (str "CUDA driver library was not found")
      | SymbolsNotResolved => failed (str "CUDA driver symbols were not resolved")
      | Attributes ok multiprocessors threads =>
          if negb ok || (multiprocessors <=? 0) || (threads <=? 0) then failed (str "CUDA device attributes are invalid")
          else Ok {| multiprocessor_count := multiprocessors; max_threads_per_multiprocessor := threads;
                     cuda_fast_path := true; cuda_device_index := device_index |}
      end
  end.

(** * Rounding *)

(** [round_to_bfloat16] on the bits of a float. *)
Definition round_bits (bits : Z) : Z :=
  let bits := u32 (bits + u32 (0x7FFF + Z.land (Z.shiftr bits 16) 1)) in
  Z.land bits 0xFFFF0000.

Section floats.
(** [float]: conversion, arithmetic, [libm] and the bits. *)
Context {Float : Type} (of_u32 : Z → Float) (mul add : Float → Float → Float) (sqrt_ log_ sin_ cos_ : Float → Float).
Context (kInvTwoPow32 kInvTwoPow32TwoPi half minus_two : Float) (neg : Float → Float).
Context (bits_of : Float → Z) (of_bits : Z → Float).

Definition box_muller (uniform0 uniform1 : Z) : Float * Float :=
  let radius_input := add (mul (of_u32 uniform0) kInvTwoPow32) (mul kInvTwoPow32 half) in
  let angle := add (mul (of_u32 uniform1) kInvTwoPow32TwoPi) (mul kInvTwoPow32TwoPi half) in
  let radius := sqrt_ (mul minus_two (log_ radius_input)) in
  (mul radius (sin_ angle), mul radius (cos_ angle)).

Definition to_uniform (value : Z) : Float := add (mul (of_u32 value) kInvTwoPow32) (mul kInvTwoPow32 half).

Definition torch_cuda_randn_element (seed index : Z) : Float :=
  let random := philox_4x32_10 {| px := 0; py := 0; pz := u32 index; pw := u32 (Z.shiftr index 32) |} seed in
  (box_muller (px random) (py random)).1.

Definition torch_cuda_uniform_element (seed index : Z) : Float :=
  let random := philox_4x32_10 {| px := 0; py := 0; pz := u32 index; pw := u32 (Z.shiftr index 32) |} seed in
  to_uniform (px random).

Definition component_of (random : Philox4) (component : Z) : outcome Z :=
  if component =? 0 then Ok (px random) else if component =? 1 then Ok (py random)
  else if component =? 2 then Ok (pz random) else if component =? 3 then Ok (pw random)
  else Throw (str "torch CUDA TensorIterator uniform component is invalid").

Definition torch_cuda_uniform_tensor_iterator_element (seed sequence offset_blocks component : Z) : outcome Float :=
  to_uniform <$> component_of (philox_4x32_10 (counter_of offset_blocks sequence) seed) component.

Definition round_to_bfloat16 (value : Float) : Float := of_bits (round_bits (bits_of value)).

Definition rounded (precision : TorchRandnPrecision) (value : Float) : Float :=
  match precision with Float32 => value | BFloat16 => round_to_bfloat16 value end.

Definition fill_torch_cuda_randn (count : nat) (seed : Z) (precision : TorchRandnPrecision) (start_index : Z) : list Float :=
  map (λ index, rounded precision (torch_cuda_randn_element seed (u64 (start_index + Z.of_nat index)))) (seq 0 count).

Definition fill_torch_cuda_uniform (count : nat) (seed start_index : Z) : list Float :=
  map (λ index, torch_cuda_uniform_element seed (u64 (start_index + Z.of_nat index))) (seq 0 count).

(** ** Filling a tensor *)

(** The writes of one turn of the inner loop: an index and a value each. *)
Definition loop_writes (seed offset_blocks total stride : Z) (precision : TorchRandnPrecision) (sequence loop_index : Z) : list (Z * Float) :=
  let first_index := u64 (loop_index * unroll_factor * stride + sequence) in
  if total <=? first_index then []
  else
    let random := philox_4x32_10 (counter_of (u64 (offset_blocks + loop_index)) sequence) seed in
    let '(normal0, normal1) := box_muller (px random) (py random) in
    let '(normal2, normal3) := box_muller (pz random) (pw random) in
    let second_index := u64 (first_index + stride) in
    let third_index := u64 (second_index + stride) in
    let fourth_index := u64 (third_index + stride) in
    [(first_index, rounded precision normal0)] ++
    (if second_index <? total then [(second_index, rounded precision normal1)] else []) ++
    (if third_index <? total then [(third_index, rounded precision normal2)] else []) ++
    (if fourth_index <? total then [(fourth_index, rounded precision normal3)] else []).

Definition loop_count (total stride : Z) : Z := u64 (total + stride * unroll_factor - 1) / u64 (stride * unroll_factor).

(** The writes of one turn of the parallel loop. *)
Definition sequence_writes (seed offset_blocks total stride : Z) (precision : TorchRandnPrecision) (sequence : Z) : list (Z * Float) :=
  concat (map (loop_writes seed offset_blocks total stride precision sequence) (seqZ 0 (loop_count total stride))).

Definition store (output : list Float) (write : Z * Float) : list Float := <[Z.to_nat write.1 := write.2]> output.

(** Without the CUDA runtime, the turns in order. *)
Definition fill_torch_cuda_tensor_iterator_randn (output : list Float) (seed offset_blocks : Z) (policy : TorchCudaSamplingPolicy)
    (precision : TorchRandnPrecision) : outcome (list Float) :=
  let total := Z.of_nat (length output) in
  if total =? 0 then Ok output
  else if cuda_fast_path policy then
    Throw (str "torch CUDA TensorIterator randn fast path was requested but CUDA runtime was not built")
  else
    stride ← torch_cuda_tensor_iterator_stride total policy;
    Ok (foldl store output (concat (map (sequence_writes seed offset_blocks total stride precision) (seqZ 0 stride)))).

Definition torch_cuda_tensor_iterator_exponential_element_at_offset
    (seed total_elements element_index offset_blocks : Z) (policy : TorchCudaSamplingPolicy) : outcome Float :=
  if (total_elements =? 0) || (total_elements <=? element_index) then
    Throw (str "torch CUDA TensorIterator exponential element index is out of range")
  else if negb (has_device policy) then Throw (str "torch CUDA TensorIterator exponential requires CUDA device properties")
  else
    let stride := grid_stride total_elements policy in
    let chunk := element_index / stride in
    let component := chunk mod unroll_factor in
    let loop_index := chunk / unroll_factor in
    let sequence := element_index mod stride in
    uniform ← torch_cuda_uniform_tensor_iterator_element seed sequence (u64 (offset_blocks + loop_index)) component;
    Ok (neg (log_ uniform)).

Definition torch_cuda_tensor_iterator_exponential_element
    (seed total_elements element_index call_index : Z) (policy : TorchCudaSamplingPolicy) : outcome Float :=
  blocks ← torch_cuda_tensor_iterator_offset_blocks total_elements policy;
  torch_cuda_tensor_iterator_exponential_element_at_offset seed total_elements element_index (u64 (call_index * blocks)) policy.

End floats.

(** * No counter gives the words of another *)

Definition word (x : Z) : Prop := 0 <= x < 2 ^ 32.

Record words (c : Philox4) : Prop := { word_x : word (px c); word_y : word (py c); word_z : word (pz c); word_w : word (pw c) }.

Lemma u32_word x : word (u32 x).
Proof. apply Z.mod_pos_bound. lia. Qed.

(** The multipliers are odd. *)
Definition inverse0 : Z := 2568649947.
Definition inverse1 : Z := 1836887655.

Lemma unmultiply m i x : (m * i) mod 2 ^ 32 = 1 → word x → u32 (i * u32 (m * x)) = x.
Proof.
  intros Hi Hx. unfold uwrap. rewrite Z.mul_mod_idemp_r by lia. replace (i * (m * x)) with (m * i * x) by lia.
  rewrite <- Z.mul_mod_idemp_l by lia. rewrite Hi, Z.mul_1_l. by apply Z.mod_small.
Qed.

Definition philox_unround (c : Philox4) (key0 key1 : Z) : Philox4 :=
  let x := u32 (inverse0 * pw c) in
  let z := u32 (inverse1 * py c) in
  {| px := x; py := Z.lxor (Z.lxor (px c) key0) (mul_hi_lo kPhiloxM1 z).1; pz := z;
     pw := Z.lxor (Z.lxor (pz c) key1) (mul_hi_lo kPhiloxM0 x).1 |}.

Lemma lxor_cancel a b k : Z.lxor (Z.lxor (Z.lxor (Z.lxor a b) k) k) a = b.
Proof. rewrite (Z.lxor_assoc _ k k), Z.lxor_nilpotent, Z.lxor_0_r, (Z.lxor_comm a b), Z.lxor_assoc, Z.lxor_nilpotent. apply Z.lxor_0_r. Qed.

Lemma philox_unround_round c key0 key1 : words c → philox_unround (philox_round c key0 key1) key0 key1 = c.
Proof.
  intros [Hx Hy Hz Hw]. unfold philox_unround, philox_round. cbn [mul_hi_lo px py pz pw fst snd].
  rewrite (unmultiply kPhiloxM0 inverse0 (px c)), (unmultiply kPhiloxM1 inverse1 (pz c)) by done.
  rewrite !lxor_cancel. by destruct c.
Qed.

Lemma word_lxor a b : word a → word b → word (Z.lxor a b).
Proof.
  intros [Ha1 Ha2] [Hb1 Hb2]. assert (0 <= Z.lxor a b) as H0 by (apply Z.lxor_nonneg; tauto). split; [done|].
  destruct (Z.eq_dec (Z.lxor a b) 0) as [->|Hne]; [lia|].
  apply Z.log2_lt_pow2; [lia|]. eapply Z.le_lt_trans; [by apply Z.log2_lxor|].
  apply Z.max_lub_lt; (match goal with |- Z.log2 ?x < _ => destruct (Z.eq_dec x 0) as [->|]; [cbn; lia|apply Z.log2_lt_pow2; lia] end).
Qed.

Lemma philox_round_words c key0 key1 : words c → word key0 → word key1 → words (philox_round c key0 key1).
Proof.
  intros [Hx Hy Hz Hw] H0 H1. unfold philox_round. cbn [mul_hi_lo].
  split; cbn [px py pz pw]; repeat apply word_lxor; auto using u32_word.
Qed.

Lemma philox_rounds_inj rounds c c' key0 key1 :
  words c → words c' → word key0 → word key1 → philox_rounds rounds c key0 key1 = philox_rounds rounds c' key0 key1 → c = c'.
Proof.
  revert c c' key0 key1. induction rounds as [|rounds IH]; intros c c' key0 key1 Hc Hc' H0 H1 E; [done|].
  apply IH in E; [|by apply philox_round_words..|apply u32_word|apply u32_word].
  by rewrite <- (philox_unround_round c key0 key1), E, philox_unround_round.
Qed.

(** The generator never gives two counters the same four words: for every seed
    it is injective on counters. *)
Theorem philox_injective c c' seed : words c → words c' → philox_4x32_10 c seed = philox_4x32_10 c' seed → c = c'.
Proof. intros Hc Hc'. apply philox_rounds_inj; auto using u32_word. Qed.

(** * The layout *)

(** No tensor has more elements. *)
Definition max_elements : Z := 2 ^ 60.

Lemma u64_small x : 0 <= x < 2 ^ 64 → u64 x = x.
Proof. apply Z.mod_small. Qed.

Lemma grid_stride_bounds total policy :
  0 < total <= max_elements → 256 <= grid_stride total policy <= total + 255.
Proof.
  unfold max_elements. intros Ht. unfold grid_stride, block_size. cbv zeta.
  rewrite (u64_small (total + 256 - 1)) by lia.
  set (cap := u64 (multiprocessor_count policy * _)). set (g := Z.max 1 (Z.min cap ((total + 256 - 1) / 256))).
  assert (1 <= (total + 256 - 1) / 256) by (apply Z.div_le_lower_bound; lia).
  pose proof (Z.mul_div_le (total + 256 - 1) 256). rewrite u64_small; unfold g; lia.
Qed.

Section layout.
Context (total stride offset_blocks : Z).
Context (Htotal : 0 < total <= max_elements) (Hstride : 0 < stride <= total + 255).

Notation loops := (loop_count total stride).

Lemma loop_count_small : loops = (total + 4 * stride - 1) / (4 * stride).
Proof.
  unfold loop_count, unroll_factor, max_elements in *. rewrite !u64_small by lia. by rewrite (Z.mul_comm stride).
Qed.

Lemma loops_bound : 4 * stride * loops < total + 4 * stride.
Proof. rewrite loop_count_small. pose proof (Z.mul_div_le (total + 4 * stride - 1) (4 * stride)). lia. Qed.

Lemma loop_first loop : 0 <= loop < loops → 4 * stride * loop < total.
Proof. intros [_ Hl]. pose proof loops_bound. nia. Qed.

(** Where an element's value comes from. *)
Definition sequence_of (e : Z) : Z := e mod stride.
Definition loop_of (e : Z) : Z := e / stride / unroll_factor.
Definition part_of (e : Z) : Z := (e / stride) mod unroll_factor.

Lemma index_split loop part sequence :
  0 <= loop → 0 <= part < 4 → 0 <= sequence < stride →
  let e := (loop * 4 + part) * stride + sequence in
  sequence_of e = sequence ∧ part_of e = part ∧ loop_of e = loop.
Proof.
  intros Hl Hp Hs e. unfold sequence_of, loop_of, part_of, unroll_factor.
  assert (e / stride = loop * 4 + part) as -> by (symmetry; apply (Z.div_unique_pos _ _ _ sequence); unfold e; lia).
  split_and!.
  - symmetry. apply (Z.mod_unique_pos _ _ (loop * 4 + part)); unfold e; lia.
  - symmetry. apply (Z.mod_unique_pos _ _ loop); lia.
  - symmetry. apply (Z.div_unique_pos _ _ _ part); lia.
Qed.

Lemma split_index e :
  0 <= e < total →
  e = (loop_of e * 4 + part_of e) * stride + sequence_of e ∧ 0 <= loop_of e < loops ∧ 0 <= part_of e < 4 ∧ 0 <= sequence_of e < stride.
Proof.
  intros He. unfold sequence_of, loop_of, part_of, unroll_factor.
  pose proof (Z.div_mod e stride). pose proof (Z.mod_pos_bound e stride). pose proof (Z.div_mod (e / stride) 4).
  pose proof (Z.mod_pos_bound (e / stride) 4). assert (0 <= e / stride) by (apply Z.div_pos; lia).
  assert (0 <= e / stride / 4) by (apply Z.div_pos; lia). split_and!; try lia.
  rewrite loop_count_small. rewrite Z.div_div by lia. rewrite (Z.mul_comm stride 4).
  apply (Z.lt_le_trans _ ((e / (4 * stride)) + 1)); [lia|]. rewrite <- Z.div_add by lia. apply Z.div_le_mono; lia.
Qed.

(** The words of an element, and the number in them. *)
Definition element_counter (e : Z) : Philox4 := counter_of (u64 (offset_blocks + loop_of e)) (sequence_of e).

End layout.

Section fill.
Context {Float : Type} (of_u32 : Z → Float) (mul add : Float → Float → Float) (sqrt_ log_ sin_ cos_ : Float → Float).
Context (kInvTwoPow32 kInvTwoPow32TwoPi half minus_two : Float).
Context (bits_of : Float → Z) (of_bits : Z → Float).

Notation box_muller := (box_muller of_u32 mul add sqrt_ log_ sin_ cos_ kInvTwoPow32 kInvTwoPow32TwoPi half minus_two).
Notation rounded := (rounded bits_of of_bits).
Notation loop_writes := (loop_writes of_u32 mul add sqrt_ log_ sin_ cos_ kInvTwoPow32 kInvTwoPow32TwoPi half minus_two bits_of of_bits).
Notation sequence_writes := (sequence_writes of_u32 mul add sqrt_ log_ sin_ cos_ kInvTwoPow32 kInvTwoPow32TwoPi half minus_two bits_of of_bits).
Notation fill := (fill_torch_cuda_tensor_iterator_randn of_u32 mul add sqrt_ log_ sin_ cos_ kInvTwoPow32 kInvTwoPow32TwoPi half minus_two bits_of of_bits).

(** The normal of one part of four words. *)
Definition normal_of (random : Philox4) (part : Z) : Float :=
  if part =? 0 then (box_muller (px random) (py random)).1
  else if part =? 1 then (box_muller (px random) (py random)).2
  else if part =? 2 then (box_muller (pz random) (pw random)).1
  else (box_muller (pz random) (pw random)).2.

(** The value of element [e], on its own. *)
Definition element (seed offset_blocks stride : Z) (precision : TorchRandnPrecision) (e : Z) : Float :=
  rounded precision (normal_of (philox_4x32_10 (element_counter stride offset_blocks e) seed) (part_of stride e)).

Lemma elem_of_option {A} (b : bool) (x y : A) : y ∈ (if b then [x] else []) ↔ b = true ∧ y = x.
Proof. destruct b; rewrite ?list_elem_of_singleton, ?elem_of_nil; naive_solver. Qed.

Lemma loop_writes_spec seed offset_blocks total stride precision sequence loop i v :
  0 < total <= max_elements → 0 < stride <= total + 255 → 0 <= sequence < stride → 0 <= loop < loop_count total stride →
  (i, v) ∈ loop_writes seed offset_blocks total stride precision sequence loop ↔
  ∃ part, 0 <= part < 4 ∧ i = (loop * 4 + part) * stride + sequence ∧ i < total ∧
    v = rounded precision (normal_of (philox_4x32_10 (counter_of (u64 (offset_blocks + loop)) sequence) seed) part).
Proof.
  intros Ht Hs Hseq Hl. pose proof (loop_first total stride Ht Hs loop Hl) as Hf. unfold max_elements in Ht.
  assert (loop * 4 * stride = 4 * stride * loop) as Em by lia. assert (0 <= loop * 4 * stride) by nia.
  unfold TorchRandom.loop_writes, unroll_factor. rewrite (u64_small (loop * 4 * stride + sequence)) by lia.
  set (first := loop * 4 * stride + sequence). assert (0 <= first < total + stride) by (unfold first; lia).
  rewrite (u64_small (first + stride)) by lia. rewrite (u64_small (first + stride + stride)) by lia.
  rewrite (u64_small (first + stride + stride + stride)) by lia. cbv zeta.
  set (random := philox_4x32_10 _ seed).
  assert (∀ part, (loop * 4 + part) * stride + sequence = first + part * stride) as Ei by (intros; unfold first; lia).
  destruct (Z.leb_spec total first) as [Hge|Hlt].
  { split; [by intros ?%not_elem_of_nil|]. intros (part & Hp & -> & Hi & _). rewrite Ei in Hi. nia. }
  destruct (box_muller (px random) (py random)) as [n0 n1] eqn:E1. destruct (box_muller (pz random) (pw random)) as [n2 n3] eqn:E2.
  assert (normal_of random 0 = n0 ∧ normal_of random 1 = n1 ∧ normal_of random 2 = n2 ∧ normal_of random 3 = n3) as (N0 & N1 & N2 & N3).
  { unfold normal_of. cbn [Z.eqb Pos.eqb]. by rewrite E1, E2. }
  rewrite !elem_of_app, list_elem_of_singleton, !elem_of_option, !Z.ltb_lt. split.
  - intros [[= -> ->]|[[H1 [= -> ->]]|[[H1 [= -> ->]]|[H1 [= -> ->]]]]];
      [exists 0; rewrite Ei, N0|exists 1; rewrite Ei, N1|exists 2; rewrite Ei, N2|exists 3; rewrite Ei, N3]; split_and!; (done || lia).
  - intros (part & Hp & -> & Hi & ->). rewrite Ei in Hi |- *.
    assert (part = 0 ∨ part = 1 ∨ part = 2 ∨ part = 3) as [->|[->|[->| ->]]] by lia;
      rewrite ?N0, ?N1, ?N2, ?N3; [left|right; left|right; right; left|right; right; right]; split_and?; try lia; f_equal; lia.
Qed.

Lemma sequence_writes_spec seed offset_blocks total stride precision sequence i v :
  0 < total <= max_elements → 0 < stride <= total + 255 → 0 <= sequence < stride →
  (i, v) ∈ sequence_writes seed offset_blocks total stride precision sequence ↔
  0 <= i < total ∧ sequence_of stride i = sequence ∧ v = element seed offset_blocks stride precision i.
Proof.
  intros Ht Hs Hseq. unfold TorchRandom.sequence_writes. rewrite list_elem_of_In, in_concat. split.
  - intros (ws & (loop & <- & Hl%list_elem_of_In%elem_of_seqZ)%in_map_iff & Hin%list_elem_of_In).
    apply loop_writes_spec in Hin as (part & Hp & -> & Hi & ->); [|done|done|done|lia].
    destruct (index_split stride loop part sequence) as (E1 & E2 & E3); [lia..|]. cbn zeta in *.
    split_and!; [nia|done|done|]. unfold element, element_counter. by rewrite E1, E2, E3.
  - intros (Hi & Hsq & ->). destruct (split_index total stride Ht Hs i Hi) as (E & Hl & Hp & _).
    exists (loop_writes seed offset_blocks total stride precision sequence (loop_of stride i)). split.
    + apply in_map_iff. exists (loop_of stride i). split; [done|]. apply list_elem_of_In, elem_of_seqZ. lia.
    + apply list_elem_of_In. apply loop_writes_spec; [done..|]. exists (part_of stride i). split_and!; [lia|lia|congruence|lia|].
      unfold element, element_counter. by rewrite Hsq.
Qed.

(** ** Writes in any order *)

Lemma store_length ws (output : list Float) : length (foldl store output ws) = length output.
Proof. revert output. induction ws as [|w ws IH]; intros output; [done|]. cbn. rewrite IH. apply length_insert. Qed.

Lemma store_lookup ws (f : Z → Float) (output : list Float) j :
  (∀ i v, (i, v) ∈ ws → 0 <= i ∧ v = f i) → (j < length output)%nat →
  (Z.of_nat j, f (Z.of_nat j)) ∈ ws → foldl store output ws !! j = Some (f (Z.of_nat j)).
Proof.
  induction ws as [|[i v] ws IH] using rev_ind; intros Hf Hj Hin; [by apply not_elem_of_nil in Hin|].
  rewrite foldl_app. cbn [foldl]. unfold store at 1. cbn [fst snd].
  destruct (Hf i v) as [Hi ->]; [apply elem_of_app; right; by left|].
  destruct (decide (Z.to_nat i = j)) as [<-|Hne].
  - rewrite Z2Nat.id by done. apply list_lookup_insert_eq. by rewrite store_length.
  - rewrite list_lookup_insert_ne by done. apply IH; [|done|].
    + intros i' v' H. apply Hf, elem_of_app. by left.
    + apply elem_of_app in Hin as [|[= E _]%list_elem_of_singleton]; [done|]. subst i. by rewrite Nat2Z.id in Hne.
Qed.

Lemma store_all ws (f : Z → Float) (output : list Float) :
  (∀ i v, (i, v) ∈ ws → 0 <= i ∧ v = f i) →
  (∀ i, 0 <= i < Z.of_nat (length output) → (i, f i) ∈ ws) →
  foldl store output ws = map f (seqZ 0 (Z.of_nat (length output))).
Proof.
  intros Hf Hall. apply list_eq. intros j. destruct (decide (j < length output)%nat) as [Hj|Hj].
  - rewrite (store_lookup ws f); [|done|done|apply Hall; lia]. rewrite list_lookup_fmap, lookup_seqZ_lt by lia. cbn. by rewrite Z.add_0_l.
  - rewrite !lookup_ge_None_2; [done| |rewrite store_length; lia]. rewrite length_map, length_seqZ. lia.
Qed.

Lemma all_writes_spec seed offset_blocks total stride precision i v :
  0 < total <= max_elements → 0 < stride <= total + 255 →
  (i, v) ∈ concat (map (sequence_writes seed offset_blocks total stride precision) (seqZ 0 stride)) ↔
  0 <= i < total ∧ v = element seed offset_blocks stride precision i.
Proof.
  intros Ht Hs. rewrite list_elem_of_In, in_concat. split.
  - intros (ws & (s & <- & Hl%list_elem_of_In%elem_of_seqZ)%in_map_iff & Hin%list_elem_of_In).
    apply sequence_writes_spec in Hin as (Hi & _ & Hv); [done|done|done|lia].
  - intros [Hi ->]. exists (sequence_writes seed offset_blocks total stride precision (sequence_of stride i)).
    pose proof (Z.mod_pos_bound i stride ltac:(lia)) as Hb. split.
    + apply in_map_iff. eexists. split; [done|]. apply list_elem_of_In, elem_of_seqZ. unfold sequence_of. lia.
    + apply list_elem_of_In, sequence_writes_spec; [done..|by unfold sequence_of].
Qed.

(** C38. A random tensor is filled completely, each element with its own formula: in
    whatever order the parallel loop makes its writes, element [e] becomes the
    normal of part [e / stride mod 4] of the words of counter
    [(offset + e / stride / 4, e mod stride)], and no element is written by two
    turns of the parallel loop. *)
Theorem tensor_iterator_fill (output : list Float) seed offset_blocks policy precision :
  let total := Z.of_nat (length output) in
  let stride := grid_stride total policy in
  let writes := sequence_writes seed offset_blocks total stride precision in
  let filled := map (element seed offset_blocks stride precision) (seqZ 0 total) in
  0 < total <= max_elements → has_device policy = true → cuda_fast_path policy = false →
  fill output seed offset_blocks policy precision = Ok filled ∧
  (∀ ws, ws ≡ₚ concat (map writes (seqZ 0 stride)) → foldl store output ws = filled) ∧
  (∀ s s' i v v', 0 <= s < stride → 0 <= s' < stride → (i, v) ∈ writes s → (i, v') ∈ writes s' → s = s').
Proof.
  intros total stride writes filled Ht Hd Hc. pose proof (grid_stride_bounds total policy Ht) as Hs. fold stride in Hs.
  assert (∀ ws, ws ≡ₚ concat (map writes (seqZ 0 stride)) → foldl store output ws = filled) as Hany.
  { intros ws Hp. apply store_all.
    - intros i v. rewrite Hp. unfold writes. rewrite all_writes_spec by lia. naive_solver.
    - intros i Hi. rewrite Hp. unfold writes. by apply all_writes_spec; [lia|lia|]. }
  split_and!; [|done|].
  - unfold fill_torch_cuda_tensor_iterator_randn. fold total. rewrite (proj2 (Z.eqb_neq total 0)) by lia. rewrite Hc.
    unfold torch_cuda_tensor_iterator_stride. rewrite Hd. cbn [negb mbind outcome_bind]. f_equal. by apply Hany.
  - intros s s' i v v' Hs1 Hs2 H1 H2. unfold writes in H1, H2.
    apply sequence_writes_spec in H1 as (_ & <- & _); [|lia..]. by apply sequence_writes_spec in H2 as (_ & -> & _); [|lia..].
Qed.

End fill.

(** * Calls *)

Lemma counter_of_words low high : words (counter_of low high).
Proof. split; apply u32_word. Qed.

Lemma halves_inj a b : 0 <= a < 2 ^ 64 → 0 <= b < 2 ^ 64 → u32 a = u32 b → u32 (Z.shiftr a 32) = u32 (Z.shiftr b 32) → a = b.
Proof.
  intros Ha Hb E1 E2. rewrite !Z.shiftr_div_pow2 in E2 by lia. unfold uwrap in *.
  rewrite (Z.mod_small (a / 2 ^ 32)), (Z.mod_small (b / 2 ^ 32)) in E2
    by (split; [apply Z.div_pos; lia|apply Z.div_lt_upper_bound; lia]).
  rewrite (Z.div_mod a (2 ^ 32)), (Z.div_mod b (2 ^ 32)) by lia. congruence.
Qed.

Lemma counter_of_inj l h l' h' :
  0 <= l < 2 ^ 64 → 0 <= h < 2 ^ 64 → 0 <= l' < 2 ^ 64 → 0 <= h' < 2 ^ 64 → counter_of l h = counter_of l' h' → l = l' ∧ h = h'.
Proof. intros Hl Hh Hl' Hh' [= E1 E2 E3 E4]. split; by apply halves_inj. Qed.

Lemma offset_blocks_loops total policy :
  0 < total <= max_elements → has_device policy = true →
  torch_cuda_tensor_iterator_offset_blocks total policy = Ok (loop_count total (grid_stride total policy)).
Proof.
  intros Ht Hd. pose proof (grid_stride_bounds total policy Ht) as Hs. unfold max_elements in Ht.
  unfold torch_cuda_tensor_iterator_offset_blocks. rewrite (proj2 (Z.eqb_neq total 0)) by lia. rewrite Hd. cbn [negb]. f_equal.
  rewrite loop_count_small by (unfold max_elements; lia). set (s := grid_stride total policy) in *. unfold unroll_factor.
  rewrite (u64_small (s * 4)) by lia. rewrite (Z.mul_comm s 4).
  assert ((total - 1) / (4 * s) + 1 = (total + 4 * s - 1) / (4 * s)) as ->.
  { rewrite <- Z.div_add by lia. f_equal. lia. }
  apply u64_small. split; [apply Z.div_pos; lia|]. apply Z.div_lt_upper_bound; nia.
Qed.

(** Random numbers are never used twice: when each call starts its offset behind
    the blocks of the calls before it, two draws from the same part of the same
    words are the same element of the same call, as long as the offsets fit 64
    bits. *)
Theorem calls_disjoint total policy blocks seed k k' e e' :
  let stride := grid_stride total policy in
  0 < total <= max_elements → torch_cuda_tensor_iterator_offset_blocks total policy = Ok blocks →
  0 <= k → 0 <= k' → (k + 1) * blocks <= 2 ^ 64 → (k' + 1) * blocks <= 2 ^ 64 → 0 <= e < total → 0 <= e' < total →
  philox_4x32_10 (element_counter stride (k * blocks) e) seed = philox_4x32_10 (element_counter stride (k' * blocks) e') seed →
  part_of stride e = part_of stride e' → k = k' ∧ e = e'.
Proof.
  intros stride Ht Hb Hk Hk' Hf Hf' He He' E Ep.
  assert (has_device policy = true) as Hd.
  { unfold torch_cuda_tensor_iterator_offset_blocks in Hb. destruct (total =? 0); [done|]. by destruct (has_device policy). }
  rewrite offset_blocks_loops in Hb by done. injection Hb as <-. fold stride in Hf, Hf', E.
  pose proof (grid_stride_bounds total policy Ht) as Hs. fold stride in Hs. assert (0 < stride <= total + 255) as Hs' by lia.
  destruct (split_index total stride Ht Hs' e He) as (E1 & L1 & P1 & S1).
  destruct (split_index total stride Ht Hs' e' He') as (E2 & L2 & P2 & S2).
  set (b := loop_count total stride) in *. apply philox_injective in E; [|apply counter_of_words..].
  assert (0 <= k * b + loop_of stride e < 2 ^ 64) by nia. assert (0 <= k' * b + loop_of stride e' < 2 ^ 64) by nia.
  unfold max_elements in Ht. unfold element_counter in E. rewrite !u64_small in E by done.
  apply counter_of_inj in E as [Ec Es]; [|lia..].
  assert (k = k') as ->.
  { rewrite (Z.div_unique_pos (k * b + loop_of stride e) b k (loop_of stride e)) by lia.
    rewrite (Z.div_unique_pos (k' * b + loop_of stride e') b k' (loop_of stride e')) by lia. by rewrite Ec. }
  assert (loop_of stride e = loop_of stride e') as El by lia. split; [done|]. rewrite E1, E2, Es, Ep, El. reflexivity.
Qed.

(** An exponential is drawn from the part that a normal of the same element uses. *)
Lemma exponential_element_spec {Float} (of_u32 : Z → Float) mul add log_ kInvTwoPow32 half neg total e seed offset_blocks policy :
  0 < total <= max_elements → 0 <= e < total → has_device policy = true →
  let stride := grid_stride total policy in
  torch_cuda_tensor_iterator_exponential_element_at_offset of_u32 mul add log_ kInvTwoPow32 half neg seed total e offset_blocks policy =
  (λ value, neg (log_ (to_uniform of_u32 mul add kInvTwoPow32 half value))) <$>
    component_of (philox_4x32_10 (element_counter stride offset_blocks e) seed) (part_of stride e).
Proof.
  intros Ht He Hd stride. unfold torch_cuda_tensor_iterator_exponential_element_at_offset.
  rewrite (proj2 (Z.eqb_neq total 0)), (proj2 (Z.leb_gt total e)), Hd by lia. cbn [orb negb].
  unfold torch_cuda_uniform_tensor_iterator_element, element_counter, part_of, loop_of, sequence_of. cbv zeta. fold stride.
  generalize (philox_4x32_10 (counter_of (u64 (offset_blocks + e / stride / unroll_factor)) (e mod stride)) seed). intros random.
  destruct (component_of random _); reflexivity.
Qed.

Lemma pinned_has_device env policy : pinned_policy_from_env env = Ok (Some policy) → has_device policy = true.
Proof.
  unfold pinned_policy_from_env. destruct env as [[|c text]|]; [done| |done]. destruct (bool_decide _); [by intros [= <-]|].
  destruct (find_sub _ _); [|done]. destruct (stoll _) as [m|]; [|done]. destruct (stoll _) as [t|]; [|done].
  destruct ((m <=? 0) || (t <=? 0)) eqn:E; [done|]. intros [= <-]. unfold has_device. cbn. by rewrite E.
Qed.

(** Every policy that is resolved can be used. *)
Lemma resolved_has_device env is_cuda device probe name mode policy :
  resolve_torch_cuda_sampling_policy env is_cuda device probe name mode = Ok policy → has_device policy = true.
Proof.
  unfold resolve_torch_cuda_sampling_policy.
  destruct (pinned_policy_from_env env) as [[pinned|]|] eqn:Ep; [|cbn [mbind outcome_bind]|done].
  { intros [= <-]. by eapply pinned_has_device. }
  destruct is_cuda; [cbn [negb]|by intros [= <-]].
  destruct probe as [| |ok m t]; [by destruct mode; intros [= <-]..|].
  destruct (negb ok || (m <=? 0) || (t <=? 0)) eqn:E; [by destruct mode; intros [= <-]|]. intros [= <-].
  rewrite <- orb_assoc in E. apply orb_false_iff in E as [_ E]. unfold has_device. cbn. by rewrite E.
Qed.

(** * Rounding *)

Lemma land_high x : 0 <= x < 2 ^ 32 → Z.land x 0xFFFF0000 = x / 2 ^ 16 * 2 ^ 16.
Proof.
  intros Hx. change 0xFFFF0000 with (Z.shiftl (Z.ones 16) 16). rewrite <- Z.shiftl_mul_pow2, <- Z.shiftr_div_pow2 by lia.
  apply Z.bits_inj'. intros n Hn. rewrite Z.land_spec. destruct (Z.ltb_spec n 16) as [H|H].
  - by rewrite !Z.shiftl_spec_low, andb_false_r.
  - rewrite !Z.shiftl_spec_high, Z.shiftr_spec by lia. replace (n - 16 + 16) with n by lia.
    destruct (Z.ltb_spec n 32) as [H2|H2].
    + rewrite Z.ones_spec_low by lia. apply andb_true_r.
    + rewrite (Z.bits_above_log2 x n); [done|lia|]. destruct (Z.eq_dec x 0) as [->|]; [cbn; lia|].
      apply Z.lt_le_trans with 32; [apply Z.log2_lt_pow2; lia|lia].
Qed.

(** The rounding to bfloat16 is to nearest, ties to even: for the bits of every
    number and infinity the result has no bits below bit 16, keeps the sign, is at
    most half a step away, and even where it is exactly half a step away. *)
Theorem round_bits_nearest bits :
  0 <= bits < 2 ^ 32 → bits mod 2 ^ 31 <= 0x7F800000 →
  let r := round_bits bits in
  r mod 2 ^ 16 = 0 ∧ r / 2 ^ 31 = bits / 2 ^ 31 ∧ Z.abs (r - bits) <= 2 ^ 15 ∧
  (Z.abs (r - bits) = 2 ^ 15 → (r / 2 ^ 16) mod 2 = 0) ∧ (bits mod 2 ^ 16 = 0 → r = bits).
Proof.
  intros Hb Hn r.
  assert (Z.land (Z.shiftr bits 16) 1 = (bits / 2 ^ 16) mod 2) as El.
  { change 1 with (Z.ones 1). by rewrite Z.land_ones, Z.shiftr_div_pow2. }
  assert (bits = bits / 2 ^ 31 * 2 ^ 31 + bits mod 2 ^ 31) as Es by (pose proof (Z.div_mod bits (2 ^ 31)); lia).
  assert (0 <= bits / 2 ^ 31 <= 1) as Hsign by (split; [apply Z.div_pos; lia|apply Z.lt_succ_r, Z.div_lt_upper_bound; lia]).
  unfold r, round_bits. rewrite El. unfold uwrap.
  set (odd := (bits / 2 ^ 16) mod 2). assert (0 <= odd <= 1) by (pose proof (Z.mod_pos_bound (bits / 2 ^ 16) 2); lia).
  rewrite (Z.mod_small (0x7FFF + odd)) by lia. rewrite (Z.mod_small (bits + (0x7FFF + odd))) by lia.
  rewrite land_high by lia. assert (odd = (bits / 2 ^ 16) mod 2) as Eo by done. clearbody odd.
  change (2 ^ 16) with 65536 in *. change (2 ^ 15) with 32768 in *. change (2 ^ 31) with 2147483648 in *. change (2 ^ 32) with 4294967296 in *.
  Z.to_euclidean_division_equations. lia.
Qed.

(** * Examples *)

Module Draws.

(** The published test vectors of Philox4x32-10. *)
Example vector_zero :
  philox_4x32_10 (counter_of 0 0) 0 = {| px := 0x6627e8d5; py := 0xe169c58d; pz := 0xbc57ac4c; pw := 0x9b00dbd8 |}.
Proof. by vm_compute. Qed.

Example vector_ones :
  philox_4x32_10 (counter_of (2 ^ 64 - 1) (2 ^ 64 - 1)) (2 ^ 64 - 1) =
  {| px := 0x408f276d; py := 0x41c83b0e; pz := 0xa20bc7c6; pw := 0x6d5451fd |}.
Proof. by vm_compute. Qed.

Lemma philox_injective_witness :
  philox_4x32_10 (counter_of 1 0) 7 ≠ philox_4x32_10 (counter_of 0 1) 7.
Proof. intros E. apply philox_injective in E; [discriminate E|apply counter_of_words..]. Defined.

(** Floats that remember how they were made. *)
Definition pick (a b : Z) : Z := a.

Definition filled (count : nat) : outcome (list Z) :=
  fill_torch_cuda_tensor_iterator_randn id pick pick id id id id 0 0 0 0 id id (replicate count 0) 5 0 default_policy Float32.

Lemma tensor_iterator_fill_witness :
  filled 300 = Ok (map (element id pick pick id id id id 0 0 0 0 id id 5 0 256 Float32) (seqZ 0 300)).
Proof.
  destruct (tensor_iterator_fill id pick pick id id id id 0 0 0 0 id id (replicate 300 0) 5 0 default_policy Float32) as [H _];
    [by vm_compute|done|done|exact H].
Defined.

Lemma calls_disjoint_witness :
  element_counter 256 0 3 = element_counter 256 0 259 ∧ part_of 256 3 ≠ part_of 256 259 ∧
  philox_4x32_10 (element_counter 256 0 3) 5 ≠ philox_4x32_10 (element_counter 256 1 3) 5.
Proof.
  split_and!; [by vm_compute|by vm_compute|]. intros E.
  pose proof (calls_disjoint 300 default_policy 1 5 0 1 3 3) as Hc. cbv zeta in Hc.
  assert (grid_stride 300 default_policy = 256) as Hg by by vm_compute. rewrite Hg, Z.mul_0_l, Z.mul_1_l in Hc.
  assert (0 < 300 <= max_elements) as Ht by (unfold max_elements; lia).
  destruct (Hc Ht) as [H _]; [by vm_compute|lia|lia|lia|lia|lia|lia|exact E|reflexivity|discriminate H].
Defined.

(** 1.00390625 is half a step above 1, and 1 is even; the next one is odd. *)
Lemma round_bits_nearest_witness :
  (round_bits 0x3F808000 = 0x3F800000) ∧ (round_bits 0x3F818000 = 0x3F820000) ∧ Z.abs (round_bits 0x3F808001 - 0x3F808001) <= 2 ^ 15.
Proof. split_and!; [by vm_compute|by vm_compute|]. apply round_bits_nearest; [lia|by vm_compute]. Defined.

(** A NaN may become zero. *)
Example nan_lost : round_bits 0x7FFFFFFF = 0x80000000.
Proof. by vm_compute. Qed.

End Draws.
