(* ===== verification/StdSort.v ===== *)
(** The sort of the C++ standard library as the program uses it: what is relied on,
    and insertion sort as an instance. *)

From stdpp Require Import sorting sets.
From S2P Require Import Prelude.

(** [std::sort] with a strict weak order: some ordered permutation. *)
Class StdSort (sort : ∀ A, (A → A → bool) → list A → list A) := {
  sort_permutation : ∀ A less (l : list A), sort A less l ≡ₚ l;
  sort_ordered : ∀ A less (l : list A),
    (∀ x y, x ∈ l → y ∈ l → less x y = true → less y x = false) →
    (∀ x y z, x ∈ l → y ∈ l → z ∈ l → less y x = false → less z y = false → less z x = false) →
    StronglySorted (λ x y, less y x = false) (sort A less l);
}.

Lemma sorted_weaken {A} (R R' : A → A → Prop) (l : list A) : (∀ a b, R a b → R' a b) → StronglySorted R l → StronglySorted R' l.
Proof. intros HR. induction 1 as [|a l _ IH Ha]; constructor; [done|]. eapply Forall_impl; [exact Ha|apply HR]. Qed.

Lemma sorted_permutation {A} (R : A → A → Prop) (l l' : list A) : (∀ a b, R a b → R b a) → l ≡ₚ l' → StronglySorted R l → StronglySorted R l'.
Proof.
  intros HR. induction 1 as [|a l l' E IH|a b l|l1 l2 l3 _ IH1 _ IH2]; [done| | |auto].
  - intros [H1 H2]%StronglySorted_inv. constructor; [auto|]. by rewrite <- E.
  - intros [[H1 H2]%StronglySorted_inv [H3 H4]%Forall_cons]%StronglySorted_inv. repeat constructor; auto.
Qed.

Lemma sorted_rev {A} (R : A → A → Prop) (l : list A) : StronglySorted R l → StronglySorted (λ a b, R b a) (rev l).
Proof.
  induction 1 as [|a l _ IH Ha]; cbn; [constructor|]. apply StronglySorted_app_2; [|done|by repeat constructor].
  rewrite Forall_forall in Ha. intros x y Hx%list_elem_of_In%in_rev Hy. apply list_elem_of_singleton in Hy as ->. apply Ha. by apply list_elem_of_In.
Qed.

(** Insertion from the right. *)
Fixpoint insert_by {A} (less : A → A → bool) (x : A) (l : list A) : list A :=
  match l with
  | [] => [x]
  | y :: l => if less y x then y :: insert_by less x l else x :: y :: l
  end.

Definition insertion_sort A (less : A → A → bool) (l : list A) : list A := foldr (insert_by less) [] l.

Lemma insert_by_permutation {A} less (x : A) l : insert_by less x l ≡ₚ x :: l.
Proof. induction l as [|y l IH]; cbn; [done|]. destruct (less y x); [|done]. rewrite IH. constructor. Qed.

Lemma insertion_permutation A less (l : list A) : insertion_sort A less l ≡ₚ l.
Proof. induction l as [|x l IH]; cbn; [done|]. rewrite insert_by_permutation. by constructor. Qed.

Lemma insert_by_ordered {A} less (x : A) l :
  (∀ a b, a ∈ x :: l → b ∈ x :: l → less a b = true → less b a = false) →
  (∀ a b c, a ∈ x :: l → b ∈ x :: l → c ∈ x :: l → less b a = false → less c b = false → less c a = false) →
  StronglySorted (λ a b, less b a = false) l → StronglySorted (λ a b, less b a = false) (insert_by less x l).
Proof.
  intros Hasym Htrans. induction l as [|y l IH]; intros Hs; cbn [insert_by]; [by repeat constructor|].
  apply StronglySorted_inv in Hs as [Hs Hy]. rewrite Forall_forall in Hy. destruct (less y x) eqn:E.
  - constructor.
    + apply IH; [|intros a b c Ha Hb Hc; apply Htrans; set_solver|done]. intros a b Ha Hb. apply Hasym; set_solver.
    + apply Forall_forall. intros z. rewrite insert_by_permutation. intros [->|Hz]%elem_of_cons; [|by apply Hy].
      apply Hasym; [set_solver..|done].
  - constructor; [by constructor; [|apply Forall_forall]|]. apply Forall_forall. intros z [->|Hz]%elem_of_cons; [done|].
    apply (Htrans x y z); [set_solver..|done|by apply Hy].
Qed.

#[export] Instance insertion_sorts : StdSort insertion_sort.
Proof.
  split; [apply insertion_permutation|]. intros A less l. induction l as [|x l IH]; intros Hasym Htrans; cbn; [constructor|].
  assert (∀ z, z ∈ x :: insertion_sort A less l → z ∈ x :: l) as Hsub by (intros z; by rewrite insertion_permutation).
  apply insert_by_ordered.
  - intros a b Ha%Hsub Hb%Hsub. by apply Hasym.
  - intros a b c Ha%Hsub Hb%Hsub Hc%Hsub. by apply Htrans.
  - apply IH; [intros a b Ha Hb; apply Hasym; by right|intros a b c Ha Hb Hc; apply Htrans; by right].
Qed.
