(* ===== verification/TalkerPrompt.v ===== *)
(** The prompt of the speech model (library, models/qwen3_tts/talker.cpp): the rows
    of embeddings a request becomes, with the reference side of a cloned voice
    computed once per voice, and the cache of both. *)

From stdpp Require Import gmap.
From S2P Require Import Prelude FlowCache SpeechDecoder.

#[local] Open Scope Z_scope.

(** * Data *)

(** The part of the configuration that prompts use. *)
Record Qwen3TTSTalkerConfig := {
  hidden_size : Z;
  text_hidden_size : Z;
  num_code_groups : Z;
  vocab_size : Z;
  codec_bos_id : Z;
  codec_eos_token_id : Z;
  codec_think_id : Z;
  codec_nothink_id : Z;
  codec_pad_id : Z;
  codec_think_bos_id : Z;
  codec_think_eos_id : Z;
  codec_language_id : gmap bytes Z;
  speaker_id : gmap bytes Z;
  speaker_dialect : gmap bytes (option bytes);
}.

Record Qwen3TTSConfig := {
  talker : Qwen3TTSTalkerConfig;
  tts_bos_token_id : Z;
  tts_eos_token_id : Z;
  tts_pad_token_id : Z;
}.

(** A tensor of the model file: [shape.rank], [shape.dims] and its bytes. *)
Record TensorData := { rank : Z; dims0 : Z; dims1 : Z; element_type : ggml_type; contents : bytes }.

Inductive Qwen3TalkerPromptMode := VoiceClone | VoiceDesign | CustomVoice.

#[export] Instance prompt_mode_eq_dec : EqDecision Qwen3TalkerPromptMode.
Proof. solve_decision. Defined.

Definition ascii_lower (value : bytes) : bytes := map to_lower value.

Section prompt.
(** [float] with its arithmetic; the size of a row of a ggml type and its conversion. *)
Context {Float : Type} (zero one : Float) (add mul div : Float → Float → Float) (neg exp_ : Float → Float).
Context (feqb : Float → Float → bool).
Context (ggml_row_size : ggml_type → Z → Z) (row_to_f32 : ggml_type → bytes → Z → list Float).

Record Qwen3SpeakerEmbedding := { values : list Float; dims : Z }.

Record Qwen3TalkerPrefill := {
  prompt_mode : Qwen3TalkerPromptMode;
  input_ids : list Z;
  instruct_ids : list Z;
  reference_ids : list Z;
  reference_codes : option Qwen3SpeechCodes;
  speaker_embedding : option Qwen3SpeakerEmbedding;
  speaker : bytes;
  language : bytes;
  icl_mode : bool;
  x_vector_only_mode : bool;
}.

Record LinearTensorWeights := {
  weight : TensorData;
  bias : option TensorData;
  host_weight_values : list Float;
  host_bias_values : list Float;
}.

Record Qwen3TalkerWeights := {
  codec_embedding : TensorData;
  code_predictor_embeddings : list TensorData;
  text_embedding : TensorData;
  text_projection_fc1 : LinearTensorWeights;
  text_projection_fc2 : LinearTensorWeights;
}.

Record PromptEmbeddingState := { prompt : list Float; trailing_text : list Float; tts_pad : list Float }.

(** * Rows *)

Definition silu (value : Float) : Float := div value (add one (exp_ (neg value))).

(** [values[i]] where the code has checked the size. *)
Definition at_ (l : list Float) (i : nat) : Float := nth i l zero.

Definition linear_value (input : list Float) (in_features out_features : nat) (weights : LinearTensorWeights) (index : nat) : Float :=
  let row := (index / out_features)%nat in
  let out := (index mod out_features)%nat in
  foldl (λ sum in_, add sum (mul (at_ (host_weight_values weights) (out * in_features + in_)) (at_ input (row * in_features + in_))))
        (match bias weights with Some _ => at_ (host_bias_values weights) out | None => zero end) (seq 0 in_features).

Definition linear_host (input : list Float) (rows in_features : Z) (weights : LinearTensorWeights) : outcome (list Float) :=
  if (dims0 (weight weights) <=? 0) || negb (dims1 (weight weights) =? in_features) then
    Throw (str "Qwen3 talker host linear weight shape mismatch")
  else
    let out_features := dims0 (weight weights) in
    if negb (Z.of_nat (length (host_weight_values weights)) =? out_features * in_features) then
      Throw (str "Qwen3 talker host linear weight cache shape mismatch")
    else if match bias weights with
            | Some _ => negb (Z.of_nat (length (host_bias_values weights)) =? out_features)
            | None => false
            end then Throw (str "Qwen3 talker host linear bias cache shape mismatch")
    else Ok (map (linear_value input (Z.to_nat in_features) (Z.to_nat out_features) weights) (seq 0 (Z.to_nat (rows * out_features)))).

Definition text_project_host (text_hidden : list Float) (rows : Z) (weights : Qwen3TalkerWeights) (config : Qwen3TTSTalkerConfig) :
    outcome (list Float) :=
  hidden ← linear_host text_hidden rows (text_hidden_size config) (text_projection_fc1 weights);
  linear_host (map silu hidden) rows (text_hidden_size config) (text_projection_fc2 weights).

Definition lookup_row (table : TensorData) (dim id : Z) : outcome (list Float) :=
  let row_bytes := ggml_row_size (element_type table) dim in
  if (id <? 0) || (dims0 table <=? id) then Throw (str "Qwen3 talker embedding id out of range")
  else
    let src := substr (contents table) (Z.to_nat (id * row_bytes)) (Z.to_nat row_bytes) in
    match element_type table with
    | GGML_TYPE_F32 | GGML_TYPE_F16 | GGML_TYPE_BF16 => Ok (row_to_f32 (element_type table) src dim)
    | _ => Throw (str "Qwen3 talker embedding table must be f32, f16, or bf16")
    end.

Definition lookup_rows (table : TensorData) (dim : Z) (ids : list Z) : outcome (list Float) :=
  if negb (rank table =? 2) || negb (dims1 table =? dim) then Throw (str "Qwen3 talker embedding table shape mismatch")
  else if negb (Z.of_nat (length (contents table)) =? uwrap 64 (dims0 table * ggml_row_size (element_type table) dim)) then
    Throw (str "Qwen3 talker embedding table byte size mismatch")
  else rows ← mapM (lookup_row table dim) ids; Ok (concat rows).

Definition row_at (rows : list Float) (row dim : Z) : list Float := take (Z.to_nat dim) (drop (Z.to_nat (row * dim)) rows).

Definition add_rows (lhs rhs : list Float) : outcome (list Float) :=
  if negb (length lhs =? length rhs)%nat then Throw (str "Qwen3 talker add_rows shape mismatch") else Ok (zip_with add lhs rhs).

Definition repeat_row (row : list Float) (repeats : Z) : list Float := concat (replicate (Z.to_nat repeats) row).

Definition row_count (rows : list Float) (dim : Z) : Z := Z.quot (Z.of_nat (length rows)) dim.

(** [std::vector(ids.begin() + front, ids.end() - back)]: a reversed range is a size
    that libstdc++ refuses. *)
Definition middle (front back : nat) (ids : list Z) : outcome (list Z) :=
  if (length ids <? front + back)%nat then Throw (str "cannot create std::vector larger than max_size()")
  else Ok (take (length ids - front - back) (drop front ids)).

(** * The prompt *)

Definition validate_qwen3_talker_voice_clone_prefill (prefill : Qwen3TalkerPrefill) (hidden_size : Z) : outcome () :=
  if match speaker_embedding prefill with Some e => negb (dims e =? hidden_size) | None => true end then
    Throw (str "Qwen3 talker voice clone prefill requires speaker embedding")
  else if Bool.eqb (icl_mode prefill) (x_vector_only_mode prefill) then
    Throw (str "Qwen3 talker voice clone prefill requires exactly one prompt mode")
  else if icl_mode prefill && (bool_decide (reference_codes prefill = None) || bool_decide (reference_ids prefill = [])) then
    Throw (str "Qwen3 talker ICL prefill requires reference ids and codes")
  else Ok tt.

Definition special_ids (root_config : Qwen3TTSConfig) : list Z :=
  [i32 (tts_bos_token_id root_config); i32 (tts_eos_token_id root_config); i32 (tts_pad_token_id root_config)].

(** Projected text. *)
Definition text_rows_of (weights : Qwen3TalkerWeights) (config : Qwen3TTSTalkerConfig) (ids : list Z) : outcome (list Float) :=
  hidden ← lookup_rows (text_embedding weights) (text_hidden_size config) ids;
  text_project_host hidden (Z.of_nat (length ids)) weights config.

(** [codec_prefix] for a language in lower case; [original] is what the message names. *)
Definition codec_prefix_of (config : Qwen3TTSTalkerConfig) (lowered original : bytes) : outcome (list Z) :=
  if bool_decide (lowered = str "auto") then
    Ok [i32 (codec_nothink_id config); i32 (codec_think_bos_id config); i32 (codec_think_eos_id config)]
  else match codec_language_id config !! lowered with
  | None => Throw (str "Qwen3 talker unsupported language: " ++ original)
  | Some id => Ok [i32 (codec_think_id config); i32 (codec_think_bos_id config); i32 id; i32 (codec_think_eos_id config)]
  end.

(** The language of a built-in voice, which may have a dialect, and its embedding. *)
Definition custom_voice (prefill : Qwen3TalkerPrefill) (weights : Qwen3TalkerWeights) (config : Qwen3TTSTalkerConfig) :
    outcome (bytes * list Float) :=
  let language := ascii_lower (language prefill) in
  let name := ascii_lower (speaker prefill) in
  match speaker_id config !! name with
  | None => Throw (str "Qwen3 custom voice unsupported speaker: " ++ speaker prefill)
  | Some id =>
      match speaker_dialect config !! name with
      | None => Throw (str "Qwen3 custom voice missing dialect entry for speaker: " ++ speaker prefill)
      | Some dialect =>
          let language := if bool_decide (language = str "chinese") || bool_decide (language = str "auto")
                          then default language dialect else language in
          embed ← lookup_rows (codec_embedding weights) (hidden_size config) [i32 id];
          Ok (language, embed)
      end
  end.

(** The rows of the codec side before the text: prefix, voice, pad, begin. *)
Definition codec_rows_of (weights : Qwen3TalkerWeights) (config : Qwen3TTSTalkerConfig) (codec_prefix : list Z) (voice : list Float) :
    outcome (list Float) :=
  prefix ← lookup_rows (codec_embedding weights) (hidden_size config) codec_prefix;
  marks ← lookup_rows (codec_embedding weights) (hidden_size config) [i32 (codec_pad_id config); i32 (codec_bos_id config)];
  Ok (prefix ++ voice ++ marks).

(** All codec rows but the last, fused with padding and the begin mark of the text. *)
Definition fused_prefix (config : Qwen3TTSTalkerConfig) (codec_embed tts_bos tts_pad : list Float) : outcome (list Float) :=
  let codec_rows := row_count codec_embed (hidden_size config) in
  pads ← add_rows (repeat_row tts_pad (codec_rows - 2)) (take (Z.to_nat ((codec_rows - 2) * hidden_size config)) codec_embed);
  bos ← add_rows tts_bos (row_at codec_embed (codec_rows - 2) (hidden_size config));
  Ok (pads ++ bos).

(** All the text in the prompt: fused with padding, then the begin mark of the codec. *)
Definition text_in_prompt (weights : Qwen3TalkerWeights) (config : Qwen3TTSTalkerConfig) (text_ids : list Z)
    (codec_embed tts_eos tts_pad : list Float) : outcome (list Float) :=
  let codec_rows := row_count codec_embed (hidden_size config) in
  text_embed ← text_rows_of weights config text_ids;
  pads ← lookup_rows (codec_embedding weights) (hidden_size config) (replicate (length text_ids + 1) (i32 (codec_pad_id config)));
  fused ← add_rows (text_embed ++ tts_eos) pads;
  last ← add_rows tts_pad (row_at codec_embed (codec_rows - 1) (hidden_size config));
  Ok (fused ++ last).

Definition group_row (weights : Qwen3TalkerWeights) (config : Qwen3TTSTalkerConfig) (group : nat) (code : Z) : outcome (list Float) :=
  match group with
  | O => lookup_rows (codec_embedding weights) (hidden_size config) [code]
  | S group =>
      match code_predictor_embeddings weights !! group with
      | Some table => lookup_rows table (hidden_size config) [code]
      | None => Throw (str "vector::_M_range_check")
      end
  end.

(** One frame: the sum of the embeddings of its codes. *)
Fixpoint sum_groups (weights : Qwen3TalkerWeights) (config : Qwen3TTSTalkerConfig) (summed : list Float) (group : nat) (codes : list Z) :
    outcome (list Float) :=
  match codes with
  | [] => Ok summed
  | code :: codes =>
      row ← group_row weights config group code;
      sum_groups weights config (zip_with add summed row) (S group) codes
  end.

(** The codes of one frame of [codes]. *)
Definition frame_codes (ref_codes : Qwen3SpeechCodes) (frame : nat) : list Z :=
  map (λ group, nth (frame * Z.to_nat (code_groups ref_codes) + group) (codes ref_codes) 0) (seq 0 (Z.to_nat (code_groups ref_codes))).

Definition ref_codec_of (weights : Qwen3TalkerWeights) (config : Qwen3TTSTalkerConfig) (ref_codes : Qwen3SpeechCodes) : outcome (list Float) :=
  bos ← lookup_rows (codec_embedding weights) (hidden_size config) [i32 (codec_bos_id config)];
  rows ← mapM (λ frame, sum_groups weights config (replicate (Z.to_nat (hidden_size config)) zero) 0 (frame_codes ref_codes frame))
              (seq 0 (Z.to_nat (frames ref_codes)));
  Ok (bos ++ concat rows).

(** The rows of text and codec side by side; text that is longer trails. *)
Definition fuse (config : Qwen3TTSTalkerConfig) (header text_embed ref_codec tts_pad : list Float) : outcome PromptEmbeddingState :=
  let text_rows := row_count text_embed (hidden_size config) in
  let ref_codec_rows := row_count ref_codec (hidden_size config) in
  if ref_codec_rows <? text_rows then
    fused ← add_rows (take (length ref_codec) text_embed) ref_codec;
    Ok {| prompt := header ++ fused; trailing_text := drop (length ref_codec) text_embed; tts_pad := tts_pad |}
  else
    fused ← add_rows (text_embed ++ repeat_row tts_pad (ref_codec_rows - text_rows)) ref_codec;
    Ok {| prompt := header ++ fused; trailing_text := tts_pad; tts_pad := tts_pad |}.

(** The prompt of a described or a built-in voice. *)
Definition built_voice_state (prefill : Qwen3TalkerPrefill) (weights : Qwen3TalkerWeights) (config : Qwen3TTSTalkerConfig)
    (codec_prefix : list Z) (custom_voice_speaker_embed tts_bos tts_eos tts_pad : list Float) : outcome PromptEmbeddingState :=
  instruct ← (match instruct_ids prefill with [] => Ok [] | ids => text_rows_of weights config ids end);
  role ← text_rows_of weights config (take 3 (input_ids prefill));
  codec_embed ← codec_rows_of weights config codec_prefix custom_voice_speaker_embed;
  prefix ← fused_prefix config codec_embed tts_bos tts_pad;
  text_ids ← middle 3 5 (input_ids prefill);
  text ← text_in_prompt weights config text_ids codec_embed tts_eos tts_pad;
  Ok {| prompt := instruct ++ role ++ prefix ++ text; trailing_text := tts_pad; tts_pad := tts_pad |}.

(** The prompt of a cloned voice. *)
Definition cloned_voice_state (prefill : Qwen3TalkerPrefill) (weights : Qwen3TalkerWeights) (config : Qwen3TTSTalkerConfig)
    (codec_prefix : list Z) (tts_bos tts_eos tts_pad : list Float) : outcome PromptEmbeddingState :=
  validate_qwen3_talker_voice_clone_prefill prefill (hidden_size config);;
  role ← text_rows_of weights config (take 3 (input_ids prefill));
  codec_embed ← codec_rows_of weights config codec_prefix (from_option values [] (speaker_embedding prefill));
  prefix ← fused_prefix config codec_embed tts_bos tts_pad;
  text_ids ← middle 3 5 (input_ids prefill);
  if x_vector_only_mode prefill then
    text ← text_in_prompt weights config text_ids codec_embed tts_eos tts_pad;
    Ok {| prompt := role ++ prefix ++ text; trailing_text := tts_pad; tts_pad := tts_pad |}
  else
    ref_text_ids ← middle 3 2 (reference_ids prefill);
    text_embed ← text_rows_of weights config (ref_text_ids ++ text_ids);
    ref_codec ← ref_codec_of weights config (default {| codes := []; frames := 0; code_groups := 0 |} (reference_codes prefill));
    fuse config (role ++ prefix) (text_embed ++ tts_eos) ref_codec tts_pad.

Definition build_prompt_state (prefill : Qwen3TalkerPrefill) (root_config : Qwen3TTSConfig) (weights : Qwen3TalkerWeights) :
    outcome PromptEmbeddingState :=
  let config := talker root_config in
  let hidden := hidden_size config in
  if (length (input_ids prefill) <? 8)%nat then Throw (str "Qwen3 talker prefill input ids are too short")
  else
    tts_special ← text_rows_of weights config (special_ids root_config);
    let tts_bos := row_at tts_special 0 hidden in
    let tts_eos := row_at tts_special 1 hidden in
    let tts_pad := row_at tts_special 2 hidden in
    custom ← (match prompt_mode prefill with
              | CustomVoice => custom_voice prefill weights config
              | _ => Ok (ascii_lower (language prefill), [])
              end);
    codec_prefix ← codec_prefix_of config custom.1 (language prefill);
    match prompt_mode prefill with
    | VoiceDesign | CustomVoice => built_voice_state prefill weights config codec_prefix custom.2 tts_bos tts_eos tts_pad
    | VoiceClone => cloned_voice_state prefill weights config codec_prefix tts_bos tts_eos tts_pad
    end.

(** * The reference side *)

Record VoicePromptParts := {
  parts_bos : list Float;
  parts_eos : list Float;
  parts_pad : list Float;
  header : list Float;
  ref_text_embed : list Float;
  ref_codec : list Float;
}.

Definition voice_parts_usable (prefill : Qwen3TalkerPrefill) : bool :=
  bool_decide (prompt_mode prefill = VoiceClone) && negb (x_vector_only_mode prefill) &&
  negb (bool_decide (reference_codes prefill = None)) && (5 <=? length (reference_ids prefill))%nat && (8 <=? length (input_ids prefill))%nat.

Definition speech_codes_equal (lhs rhs : Qwen3SpeechCodes) : bool :=
  (frames lhs =? frames rhs) && (code_groups lhs =? code_groups rhs) && bool_decide (codes lhs = codes rhs).

(** [==] of vectors of [float]. *)
Fixpoint floats_equal (lhs rhs : list Float) : bool :=
  match lhs, rhs with
  | [], [] => true
  | x :: lhs, y :: rhs => feqb x y && floats_equal lhs rhs
  | _, _ => false
  end.

Definition speaker_embedding_equal (lhs rhs : Qwen3SpeakerEmbedding) : bool :=
  (dims lhs =? dims rhs) && floats_equal (values lhs) (values rhs).

(** Two [std::optional]s that have a value both or neither, and then equal ones. *)
Definition option_equal {A} (equal : A → A → bool) (lhs rhs : option A) : bool :=
  match lhs, rhs with
  | Some x, Some y => equal x y
  | None, None => true
  | _, _ => false
  end.

Definition talker_prefill_equal (lhs rhs : Qwen3TalkerPrefill) : bool :=
  bool_decide (prompt_mode lhs = prompt_mode rhs) && bool_decide (input_ids lhs = input_ids rhs) &&
  bool_decide (instruct_ids lhs = instruct_ids rhs) && bool_decide (reference_ids lhs = reference_ids rhs) &&
  bool_decide (speaker lhs = speaker rhs) && bool_decide (language lhs = language rhs) &&
  Bool.eqb (icl_mode lhs) (icl_mode rhs) && Bool.eqb (x_vector_only_mode lhs) (x_vector_only_mode rhs) &&
  option_equal speech_codes_equal (reference_codes lhs) (reference_codes rhs) &&
  option_equal speaker_embedding_equal (speaker_embedding lhs) (speaker_embedding rhs).

Definition voice_parts_reusable (lhs rhs : Qwen3TalkerPrefill) : bool :=
  bool_decide (prompt_mode lhs = prompt_mode rhs) && bool_decide (instruct_ids lhs = instruct_ids rhs) &&
  bool_decide (reference_ids lhs = reference_ids rhs) &&
  bool_decide (speaker lhs = speaker rhs) && bool_decide (language lhs = language rhs) &&
  Bool.eqb (icl_mode lhs) (icl_mode rhs) && Bool.eqb (x_vector_only_mode lhs) (x_vector_only_mode rhs) &&
  (3 <=? length (input_ids lhs))%nat && (3 <=? length (input_ids rhs))%nat &&
  bool_decide (take 3 (input_ids lhs) = take 3 (input_ids rhs)) &&
  option_equal speech_codes_equal (reference_codes lhs) (reference_codes rhs) &&
  option_equal speaker_embedding_equal (speaker_embedding lhs) (speaker_embedding rhs).

Definition build_voice_parts (prefill : Qwen3TalkerPrefill) (root_config : Qwen3TTSConfig) (weights : Qwen3TalkerWeights) :
    outcome VoicePromptParts :=
  let config := talker root_config in
  let hidden := hidden_size config in
  validate_qwen3_talker_voice_clone_prefill prefill hidden;;
  tts_special ← text_rows_of weights config (special_ids root_config);
  let tts_bos := row_at tts_special 0 hidden in
  let tts_eos := row_at tts_special 1 hidden in
  let tts_pad := row_at tts_special 2 hidden in
  codec_prefix ← codec_prefix_of config (ascii_lower (language prefill)) (language prefill);
  role ← text_rows_of weights config (take 3 (input_ids prefill));
  codec_embed ← codec_rows_of weights config codec_prefix (from_option values [] (speaker_embedding prefill));
  prefix ← fused_prefix config codec_embed tts_bos tts_pad;
  ref_text_ids ← middle 3 2 (reference_ids prefill);
  ref_text_embed ← text_rows_of weights config ref_text_ids;
  ref_codec ← ref_codec_of weights config (default {| codes := []; frames := 0; code_groups := 0 |} (reference_codes prefill));
  Ok {| parts_bos := tts_bos; parts_eos := tts_eos; parts_pad := tts_pad; header := role ++ prefix;
        ref_text_embed := ref_text_embed; ref_codec := ref_codec |}.

Definition build_prompt_state_from_parts (prefill : Qwen3TalkerPrefill) (parts : VoicePromptParts) (root_config : Qwen3TTSConfig)
    (weights : Qwen3TalkerWeights) : outcome PromptEmbeddingState :=
  let config := talker root_config in
  text_ids ← middle 3 5 (input_ids prefill);
  text ← text_rows_of weights config text_ids;
  fuse config (header parts) (ref_text_embed parts ++ text ++ parts_eos parts) (ref_codec parts) (parts_pad parts).

(** * The cache *)

(** The members of [Impl] that remember prompts; [Prefilled] is what the first network makes of one. *)
Context {Prefilled : Type}.

Record PromptCache := {
  cached_prompt_prefill_ : option Qwen3TalkerPrefill;
  cached_prompt_state_ : option PromptEmbeddingState;
  cached_voice_parts_prefill_ : option Qwen3TalkerPrefill;
  cached_voice_parts_ : option VoicePromptParts;
  cached_prefill_output_ : option Prefilled;
  prompt_content_tag_ : Z;
  next_content_tag_ : Z;
}.

#[export] Instance eta_cache : Settable PromptCache := λ c,
  {| cached_prompt_prefill_ := cached_prompt_prefill_ c; cached_prompt_state_ := cached_prompt_state_ c;
     cached_voice_parts_prefill_ := cached_voice_parts_prefill_ c; cached_voice_parts_ := cached_voice_parts_ c;
     cached_prefill_output_ := cached_prefill_output_ c; prompt_content_tag_ := prompt_content_tag_ c;
     next_content_tag_ := next_content_tag_ c |}.

Definition empty_cache : PromptCache :=
  {| cached_prompt_prefill_ := None; cached_prompt_state_ := None; cached_voice_parts_prefill_ := None; cached_voice_parts_ := None;
     cached_prefill_output_ := None; prompt_content_tag_ := 0; next_content_tag_ := 1 |}.

Context (root_config : Qwen3TTSConfig) (weights : Qwen3TalkerWeights).

Definition same_prompt (request : Qwen3TalkerPrefill) (c : PromptCache) : bool :=
  match cached_prompt_state_ c, cached_prompt_prefill_ c with
  | Some _, Some cached => talker_prefill_equal cached request
  | _, _ => false
  end.

Definition same_voice (request : Qwen3TalkerPrefill) (c : PromptCache) : bool :=
  match cached_voice_parts_ c, cached_voice_parts_prefill_ c with
  | Some _, Some cached => voice_parts_reusable cached request
  | _, _ => false
  end.

Definition ensure_voice_parts (request : Qwen3TalkerPrefill) : io PromptCache () :=
  c ← io_get;
  if same_voice request c then mret tt
  else
    parts ← io_lift (build_voice_parts request root_config weights);
    io_modify (λ c, c <| cached_voice_parts_ := Some parts |> <| cached_voice_parts_prefill_ := Some request |>).

(** The beginning of [generate]: afterwards [cached_prompt_state_] is the prompt. *)
Definition ensure_prompt_state (request : Qwen3TalkerPrefill) : io PromptCache () :=
  c ← io_get;
  if same_prompt request c then mret tt
  else
    (if voice_parts_usable request then
       ensure_voice_parts request;;
       c ← io_get;
       match cached_voice_parts_ c with
       | Some parts =>
           state ← io_lift (build_prompt_state_from_parts request parts root_config weights);
           io_modify (λ c, c <| cached_prompt_state_ := Some state |>)
       | None => io_lift (Throw (str "bad optional access"))
       end
     else
       state ← io_lift (build_prompt_state request root_config weights);
       io_modify (λ c, c <| cached_prompt_state_ := Some state |>));;
    io_modify (λ c, c <| cached_prompt_prefill_ := Some request |> <| cached_prefill_output_ := None |>
                      <| prompt_content_tag_ := next_content_tag_ c |> <| next_content_tag_ := uwrap 64 (next_content_tag_ c + 1) |>).

End prompt.

(** * Results up to the message of an exception *)

Section agrees.
Context {A B : Type}.

Definition agrees (m n : outcome A) : Prop :=
  match m, n with
  | Ok a, Ok b => a = b
  | Throw _, Throw _ => True
  | _, _ => False
  end.

#[export] Instance agrees_equivalence : Equivalence agrees.
Proof.
  split; [by intros []|by intros [] []|].
  intros [a|e] [b|e'] [c|e'']; cbn; intros; by subst.
Qed.
End agrees.

#[export] Instance agrees_bind A B :
  Proper (pointwise_relation A agrees ==> agrees ==> agrees) (@mbind outcome _ A B).
Proof. intros k k' Hk [a|e] [b|e'] H; cbn in *; [subst; apply Hk|done..]. Qed.

Lemma agrees_Ok {A} (m : outcome A) a : agrees m (Ok a) → m = Ok a.
Proof. destruct m; cbn; [by intros ->|done]. Qed.

(** Independent steps may change places. *)
Lemma agrees_swap {A B C} (m : outcome A) (n : outcome B) (k : A → B → outcome C) :
  agrees (a ← m; b ← n; k a b) (b ← n; a ← m; k a b).
Proof. destruct m, n; cbn; done. Qed.

Lemma outcome_bind_assoc {A B C} (m : outcome A) (f : A → outcome B) (g : B → outcome C) :
  (b ← (a ← m; f a); g b) = (a ← m; b ← f a; g b).
Proof. by destruct m. Qed.

Lemma outcome_mapM_app {A B} (f : A → outcome B) l k :
  mapM f (l ++ k) = (x ← mapM f l; y ← mapM f k; Ok (x ++ y)).
Proof.
  induction l as [|a l IH]; cbn; [by destruct (mapM f k)|].
  destruct (f a); cbn; [|done]. rewrite IH. destruct (mapM f l); cbn; [|done]. by destruct (mapM f k).
Qed.

Lemma outcome_mapM_length {A B} (f : A → outcome B) l bs : mapM f l = Ok bs → length bs = length l.
Proof.
  revert bs. induction l as [|a l IH]; intros bs; cbn; [by intros [= <-]|].
  destruct (f a); cbn; [|done]. destruct (mapM f l) as [x|]; cbn; [|done]. intros [= <-]. cbn. by rewrite (IH x).
Qed.

Lemma outcome_mapM_Forall {A B} (f : A → outcome B) (P : B → Prop) l bs :
  (∀ a b, f a = Ok b → P b) → mapM f l = Ok bs → Forall P bs.
Proof.
  intros Hf. revert bs. induction l as [|a l IH]; intros bs; cbn; [intros [= <-]; constructor|].
  destruct (f a) eqn:E; cbn; [|done]. destruct (mapM f l) as [x|]; cbn; [|done]. intros [= <-]. constructor; eauto.
Qed.

(** Splits on the result of the first step that is not known. *)
Ltac step :=
  match goal with
  | |- context [mbind _ (?m : outcome _)] =>
      lazymatch m with
      | mbind _ _ => fail
      | Ok _ => fail
      | Throw _ => fail
      | _ => let E := fresh "E" in destruct m as [?|?] eqn:E; cbn [mbind outcome_bind]
      end
  end.

(** * Rows are computed one by one *)

Lemma foldl_ext_in {A} (f g : A → nat → A) init start n :
  (∀ a i, (start <= i < start + n)%nat → f a i = g a i) → foldl f init (seq start n) = foldl g init (seq start n).
Proof.
  revert start init. induction n as [|n IH]; intros start init H; cbn; [done|]. rewrite H by lia. apply IH. intros a i Hi. apply H. lia.
Qed.

Section rows.
Context {Float : Type} (zero one : Float) (add mul div : Float → Float → Float) (neg exp_ : Float → Float).
Context (ggml_row_size : ggml_type → Z → Z) (row_to_f32 : ggml_type → bytes → Z → list Float).

(** A conversion fills the row. *)
Context (row_length : ∀ t src dim, length (row_to_f32 t src dim) = Z.to_nat dim).

Notation lookup_rows := (lookup_rows ggml_row_size row_to_f32).
Notation linear_host := (linear_host zero add mul).
Notation linear_value := (linear_value zero add mul).
Notation text_project_host := (text_project_host zero one add mul div neg exp_).
Notation text_rows_of := (text_rows_of zero one add mul div neg exp_ ggml_row_size row_to_f32).

(** What [load_talker_weights] has checked of a projection. *)
Record linear_ok (out_features in_features : Z) (w : LinearTensorWeights) : Prop := {
  linear_out : dims0 (weight w) = out_features;
  linear_in : dims1 (weight w) = in_features;
  linear_weights : Z.of_nat (length (@host_weight_values Float w)) = out_features * in_features;
  linear_bias : bias w ≠ None → Z.of_nat (length (host_bias_values w)) = out_features;
}.

Record weights_ok (config : Qwen3TTSTalkerConfig) (w : @Qwen3TalkerWeights Float) : Prop := {
  text_positive : 0 < text_hidden_size config;
  hidden_positive : 0 < hidden_size config;
  fc1_ok : linear_ok (text_hidden_size config) (text_hidden_size config) (text_projection_fc1 w);
  fc2_ok : linear_ok (hidden_size config) (text_hidden_size config) (text_projection_fc2 w);
}.

Lemma linear_host_Ok out in_ input rows w :
  0 < out → linear_ok out in_ w →
  linear_host input rows in_ w = Ok (map (linear_value input (Z.to_nat in_) (Z.to_nat out) w) (seq 0 (Z.to_nat (rows * out)))).
Proof.
  intros Hout [H0 H1 Hw Hb]. unfold TalkerPrompt.linear_host. rewrite H0, H1, Hw, !Z.eqb_refl, (proj2 (Z.leb_gt _ _)) by done.
  cbn [negb orb]. destruct (bias w); [|done]. by rewrite Hb, Z.eqb_refl.
Qed.

Lemma linear_value_left a b in_ out w index :
  (index / out < length a / in_)%nat → linear_value (a ++ b) in_ out w index = linear_value a in_ out w index.
Proof.
  intros Hr. unfold TalkerPrompt.linear_value. apply foldl_ext_in. intros sum j Hj.
  pose proof (Nat.Div0.mul_div_le (length a) in_). unfold at_. by rewrite app_nth1 by nia.
Qed.

Lemma linear_value_right a b in_ out w ra index :
  length a = (ra * in_)%nat → out ≠ 0%nat → linear_value (a ++ b) in_ out w (ra * out + index) = linear_value b in_ out w index.
Proof.
  intros Ha Hout. unfold TalkerPrompt.linear_value.
  rewrite Nat.add_comm, Nat.div_add, Nat.Div0.mod_add by done. apply foldl_ext_in. intros sum j Hj.
  unfold at_. rewrite app_nth2 by nia. do 4 f_equal. nia.
Qed.

(** What a projection computes of [rows] rows. *)
Definition projected (out in_ : Z) (w : LinearTensorWeights) (input : list Float) (rows : nat) : list Float :=
  map (linear_value input (Z.to_nat in_) (Z.to_nat out) w) (seq 0 (rows * Z.to_nat out)).

Lemma linear_host_projected out in_ input (rows : nat) w :
  0 < out → linear_ok out in_ w → linear_host input (Z.of_nat rows) in_ w = Ok (projected out in_ w input rows).
Proof. intros Hout Hw. rewrite (linear_host_Ok out) by done. unfold projected. do 3 f_equal. lia. Qed.

Lemma projected_length out in_ w input rows : length (projected out in_ w input rows) = (rows * Z.to_nat out)%nat.
Proof. unfold projected. by rewrite length_map, length_seq. Qed.

Lemma projected_app out in_ w a b ra rb :
  0 < out → 0 < in_ → length a = (ra * Z.to_nat in_)%nat →
  projected out in_ w (a ++ b) (ra + rb) = projected out in_ w a ra ++ projected out in_ w b rb.
Proof.
  intros Hout Hin Ha. unfold projected. rewrite Nat.mul_add_distr_r, seq_app, map_app. f_equal.
  - apply map_ext_in. intros i [_ Hi]%in_seq. apply linear_value_left. rewrite Ha, Nat.div_mul by lia.
    apply Nat.Div0.div_lt_upper_bound. lia.
  - rewrite Nat.add_comm, <- fmap_add_seq.
    change (Nat.add (ra * Z.to_nat out) <$> seq 0 (rb * Z.to_nat out)) with (map (Nat.add (ra * Z.to_nat out)) (seq 0 (rb * Z.to_nat out))).
    rewrite map_map. apply map_ext. intros i. apply linear_value_right; [done|lia].
Qed.

Lemma lookup_rows_app table dim a b :
  lookup_rows table dim (a ++ b) = (x ← lookup_rows table dim a; y ← lookup_rows table dim b; Ok (x ++ y)).
Proof.
  unfold TalkerPrompt.lookup_rows. destruct (_ || _); [done|]. destruct (negb _); [done|].
  rewrite outcome_mapM_app. destruct (mapM _ a); cbn; [|done]. destruct (mapM _ b); cbn; [|done]. by rewrite concat_app.
Qed.

Lemma lookup_row_length table dim id row : lookup_row ggml_row_size row_to_f32 table dim id = Ok row → length row = Z.to_nat dim.
Proof. unfold lookup_row. destruct (_ || _); [done|]. by destruct (element_type table); intros [= <-]. Qed.

Lemma concat_length_rows {A} (rows : list (list A)) n : Forall (λ r, length r = n) rows → length (concat rows) = (length rows * n)%nat.
Proof. induction 1 as [|r rows H _ IH]; cbn; [done|]. rewrite length_app, H, IH. lia. Qed.

Lemma lookup_rows_length table dim ids rows :
  lookup_rows table dim ids = Ok rows → length rows = (length ids * Z.to_nat dim)%nat.
Proof.
  unfold TalkerPrompt.lookup_rows. destruct (_ || _); [done|]. destruct (negb _); [done|].
  destruct (mapM _ ids) as [x|] eqn:E; cbn; [|done]. intros [= <-].
  rewrite (concat_length_rows x (Z.to_nat dim)), (outcome_mapM_length _ _ _ E); [done|].
  by eapply outcome_mapM_Forall, E; apply lookup_row_length.
Qed.

(** Text rows are projected independently of each other. *)
Definition project (config : Qwen3TTSTalkerConfig) (w : Qwen3TalkerWeights) (hidden : list Float) (rows : nat) : list Float :=
  projected (hidden_size config) (text_hidden_size config) (text_projection_fc2 w)
    (map (silu one add div neg exp_) (projected (text_hidden_size config) (text_hidden_size config) (text_projection_fc1 w) hidden rows)) rows.

Lemma text_project_host_Ok config w hidden (rows : nat) :
  weights_ok config w → text_project_host hidden (Z.of_nat rows) w config = Ok (project config w hidden rows).
Proof.
  intros [Ht Hh H1 H2]. unfold TalkerPrompt.text_project_host.
  rewrite (linear_host_projected (text_hidden_size config)) by done. cbn [mbind outcome_bind].
  by rewrite (linear_host_projected (hidden_size config)).
Qed.

Lemma project_length config w hidden rows : length (project config w hidden rows) = (rows * Z.to_nat (hidden_size config))%nat.
Proof. apply projected_length. Qed.

Lemma project_app config w a b ra rb :
  weights_ok config w → length a = (ra * Z.to_nat (text_hidden_size config))%nat →
  project config w (a ++ b) (ra + rb) = project config w a ra ++ project config w b rb.
Proof.
  intros [Ht Hh H1 H2] Ha. unfold project. rewrite projected_app, map_app by done.
  rewrite projected_app; [done|done|done|]. by rewrite length_map, projected_length.
Qed.

Lemma text_rows_project config w ids :
  weights_ok config w →
  text_rows_of w config ids =
  (hidden ← lookup_rows (text_embedding w) (text_hidden_size config) ids; Ok (project config w hidden (length ids))).
Proof.
  intros Hw. unfold TalkerPrompt.text_rows_of. destruct (lookup_rows _ _ ids); cbn; [|done]. by apply text_project_host_Ok.
Qed.

Lemma text_rows_app config w a b :
  weights_ok config w →
  text_rows_of w config (a ++ b) = (x ← text_rows_of w config a; y ← text_rows_of w config b; Ok (x ++ y)).
Proof.
  intros Hw. rewrite !text_rows_project, lookup_rows_app, length_app by done.
  destruct (lookup_rows _ _ a) as [x|] eqn:Ea; cbn; [|done]. destruct (lookup_rows _ _ b); cbn; [|done].
  by rewrite project_app by (try apply lookup_rows_length in Ea; done).
Qed.

Lemma text_rows_length config w ids rows :
  weights_ok config w → text_rows_of w config ids = Ok rows → length rows = (length ids * Z.to_nat (hidden_size config))%nat.
Proof.
  intros Hw. rewrite text_rows_project by done. destruct (lookup_rows _ _ ids); cbn; [|done]. intros [= <-]. apply project_length.
Qed.
End rows.

(** * A prompt from the parts of its voice is the prompt *)

Section parts.
Context {Float : Type} (zero one : Float) (add mul div : Float → Float → Float) (neg exp_ : Float → Float) (feqb : Float → Float → bool).
Context (ggml_row_size : ggml_type → Z → Z) (row_to_f32 : ggml_type → bytes → Z → list Float).
Context (row_length : ∀ t src dim, length (row_to_f32 t src dim) = Z.to_nat dim).
Context (root_config : Qwen3TTSConfig) (w : @Qwen3TalkerWeights Float).
Context (loaded : weights_ok (talker root_config) w).

Notation build_prompt_state := (build_prompt_state zero one add mul div neg exp_ ggml_row_size row_to_f32).
Notation build_voice_parts := (build_voice_parts zero one add mul div neg exp_ ggml_row_size row_to_f32).
Notation build_prompt_state_from_parts := (build_prompt_state_from_parts zero one add mul div neg exp_ ggml_row_size row_to_f32).
Notation reusable := (voice_parts_reusable feqb).

(** Embeddings that compare equal are equal: they do not differ in the sign of a zero. *)
Definition same_embedding (p q : @Qwen3TalkerPrefill Float) : Prop :=
  option_equal (speaker_embedding_equal feqb) (speaker_embedding p) (speaker_embedding q) = true → speaker_embedding p = speaker_embedding q.

Lemma speech_codes_equal_eq a b : speech_codes_equal a b = true → a = b.
Proof.
  unfold speech_codes_equal. intros [[Hf%Z.eqb_eq Hg%Z.eqb_eq]%andb_prop Hc%bool_decide_eq_true]%andb_prop.
  destruct a, b; cbn in *; congruence.
Qed.

Lemma option_codes_equal a b : option_equal speech_codes_equal a b = true → a = b.
Proof. destruct a, b; cbn; [intros ->%speech_codes_equal_eq|..]; done. Qed.

Lemma prefill_equal_eq p q : same_embedding p q → talker_prefill_equal feqb p q = true → p = q.
Proof.
  unfold talker_prefill_equal. intros Hs H. repeat apply andb_prop in H as [H ?].
  repeat match goal with
  | H : bool_decide _ = true |- _ => apply bool_decide_eq_true in H
  | H : Bool.eqb _ _ = true |- _ => apply Bool.eqb_prop in H
  | H : option_equal speech_codes_equal _ _ = true |- _ => apply option_codes_equal in H
  | H : option_equal _ _ _ = true |- _ => apply Hs in H
  end.
  destruct p, q; cbn in *; congruence.
Qed.

Lemma reusable_parts p q :
  same_embedding p q → reusable p q = true → build_voice_parts p root_config w = build_voice_parts q root_config w.
Proof.
  unfold voice_parts_reusable. intros Hs H. repeat apply andb_prop in H as [H ?].
  repeat match goal with
  | H : bool_decide _ = true |- _ => apply bool_decide_eq_true in H
  | H : Bool.eqb _ _ = true |- _ => apply Bool.eqb_prop in H
  | H : option_equal speech_codes_equal _ _ = true |- _ => apply option_codes_equal in H
  | H : option_equal _ _ _ = true |- _ => apply Hs in H
  end.
  destruct p, q; cbn in *. subst. unfold TalkerPrompt.build_voice_parts. unfold validate_qwen3_talker_voice_clone_prefill. cbn.
  match goal with H : take 3 _ = take 3 _ |- _ => rewrite H end. done.
Qed.

Lemma middle_Ok front back ids : (front + back <= length ids)%nat → ∃ l, middle front back ids = Ok l.
Proof. intros H. unfold middle. rewrite (proj2 (Nat.ltb_ge _ _)) by done. eauto. Qed.

Lemma parts_agree q :
  voice_parts_usable q = true →
  agrees (parts ← build_voice_parts q root_config w; build_prompt_state_from_parts q parts root_config w)
         (build_prompt_state q root_config w).
Proof.
  unfold voice_parts_usable. intros H. repeat apply andb_prop in H as [H ?].
  apply bool_decide_eq_true in H.
  match goal with H : (8 <=? _)%nat = true |- _ => apply Nat.leb_le in H; rename H into H8 end.
  match goal with H : (5 <=? _)%nat = true |- _ => apply Nat.leb_le in H; rename H into H5 end.
  match goal with H : negb (x_vector_only_mode q) = true |- _ => apply negb_true_iff in H; rename H into Hx end.
  unfold TalkerPrompt.build_voice_parts, TalkerPrompt.build_prompt_state, TalkerPrompt.build_prompt_state_from_parts.
  unfold cloned_voice_state. rewrite H, Hx, (proj2 (Nat.ltb_ge _ _)) by lia. cbv zeta. cbn [mbind outcome_bind fst].
  destruct (middle_Ok 3 5 (input_ids q)) as [text_ids ->]; [lia|]. destruct (middle_Ok 3 2 (reference_ids q)) as [ref_ids ->]; [lia|].
  set (specials := text_rows_of _ _ _ _ _ _ _ _ _ _ _ (special_ids root_config)). clearbody specials.
  destruct (validate_qwen3_talker_voice_clone_prefill q _) as [[]|] eqn:Ev; cbn [mbind outcome_bind].
  2: { destruct specials; cbn [mbind outcome_bind]; [|done]. by destruct (codec_prefix_of _ _ _). }
  rewrite (text_rows_app _ _ _ _ _ _ _ _ _ row_length) by done.
  repeat step; try done. cbn [header ref_text_embed parts_eos ref_codec parts_pad]. by rewrite app_assoc.
Qed.

Lemma from_parts_agrees p q :
  same_embedding p q → voice_parts_usable q = true → reusable p q = true →
  agrees (parts ← build_voice_parts p root_config w; build_prompt_state_from_parts q parts root_config w)
         (build_prompt_state q root_config w).
Proof. intros Hs Hq Hr. rewrite (reusable_parts p q) by done. by apply parts_agree. Qed.

(** * The cache is transparent *)

Context {Prefilled : Type}.

Notation ensure_prompt_state :=
  (ensure_prompt_state zero one add mul div neg exp_ feqb ggml_row_size row_to_f32 (Prefilled := Prefilled) root_config w).
Notation PromptCache := (@PromptCache Float Prefilled).

(** What is remembered belongs to the requests of [past] it is remembered with. *)
Record coherent (past : list Qwen3TalkerPrefill) (c : PromptCache) : Prop := {
  prompt_coherent : ∀ p state, cached_prompt_prefill_ c = Some p → cached_prompt_state_ c = Some state →
    p ∈ past ∧ build_prompt_state p root_config w = Ok state;
  parts_coherent : ∀ p parts, cached_voice_parts_prefill_ c = Some p → cached_voice_parts_ c = Some parts →
    p ∈ past ∧ build_voice_parts p root_config w = Ok parts;
}.

(** The prompt a request gets. *)
Definition answer (request : Qwen3TalkerPrefill) (c : PromptCache) : outcome PromptEmbeddingState :=
  match ensure_prompt_state request c with
  | (Ok _, c') => from_option Ok (Throw []) (cached_prompt_state_ c')
  | (Throw e, _) => Throw e
  end.

Lemma empty_coherent : coherent [] empty_cache.
Proof. by split. Qed.

Lemma coherent_more past past' c : past ⊆ past' → coherent past c → coherent past' c.
Proof. intros Hp [H1 H2]. split; intros p x E1 E2; [destruct (H1 _ _ E1 E2)|destruct (H2 _ _ E1 E2)]; auto. Qed.

Notation ensure_voice_parts :=
  (ensure_voice_parts zero one add mul div neg exp_ feqb ggml_row_size row_to_f32 (Prefilled := Prefilled) root_config w).

(** The members that tell prompts apart. *)
Definition content (c : PromptCache) := (cached_prompt_prefill_ c, cached_prompt_state_ c, cached_prefill_output_ c, prompt_content_tag_ c, next_content_tag_ c).

Lemma ensure_voice_parts_spec past request c :
  coherent past c → (∀ p, p ∈ past → same_embedding p request) →
  match ensure_voice_parts request c with
  | (Ok _, c') => coherent (request :: past) c' ∧ content c' = content c ∧
      ∃ parts, cached_voice_parts_ c' = Some parts ∧ build_voice_parts request root_config w = Ok parts
  | (Throw e, c') => c' = c ∧ build_voice_parts request root_config w = Throw e
  end.
Proof.
  intros Hc Hs. pose proof (coherent_more past (request :: past) c ltac:(set_solver) Hc) as Hc'.
  unfold TalkerPrompt.ensure_voice_parts. rewrite io_bind_get. destruct (same_voice feqb request c) eqn:E; cbn [mret io_ret].
  - unfold same_voice in E. destruct (cached_voice_parts_ c) as [parts|] eqn:Ep; [|done].
    destruct (cached_voice_parts_prefill_ c) as [p|] eqn:Ec; [|done].
    destruct (parts_coherent past c Hc p parts Ec Ep) as [Hin Hb].
    split_and!; [done|done|]. exists parts. split; [done|]. rewrite <- (reusable_parts p request); auto.
  - destruct (build_voice_parts request root_config w) as [parts|e] eqn:Eb; [|done].
    rewrite io_bind_lift. cbn. split_and!; [|done|by eauto]. destruct Hc' as [H1 H2]. split; cbn; [done|].
    intros p parts' [= <-] [= <-]. split; [by left|done].
Qed.

(** The assignments at the end. *)
Definition remember (request : Qwen3TalkerPrefill) (state : PromptEmbeddingState) (c : PromptCache) : PromptCache :=
  c <| cached_prompt_state_ := Some state |> <| cached_prompt_prefill_ := Some request |> <| cached_prefill_output_ := None |>
    <| prompt_content_tag_ := next_content_tag_ c |> <| next_content_tag_ := uwrap 64 (next_content_tag_ c + 1) |>.

Lemma remember_coherent past request state c :
  coherent past c → request ∈ past → build_prompt_state request root_config w = Ok state → coherent past (remember request state c).
Proof.
  intros [H1 H2] Hin Hb. split; cbn; [|done]. intros p state' [= <-] [= <-]. done.
Qed.

Lemma ensure_prompt_spec past request c :
  coherent past c → (∀ p, p ∈ past → same_embedding p request) →
  match ensure_prompt_state request c with
  | (Ok _, c') => coherent (request :: past) c' ∧ ∃ state, cached_prompt_state_ c' = Some state ∧
      build_prompt_state request root_config w = Ok state ∧
      (content c' = content c ∨
       content c' = (Some request, Some state, None, next_content_tag_ c, uwrap 64 (next_content_tag_ c + 1)))
  | (Throw _, c') => coherent (request :: past) c' ∧ content c' = content c ∧ ∃ e, build_prompt_state request root_config w = Throw e
  end.
Proof.
  intros Hc Hs. pose proof (coherent_more past (request :: past) c ltac:(set_solver) Hc) as Hc'.
  unfold TalkerPrompt.ensure_prompt_state. rewrite io_bind_get. destruct (same_prompt feqb request c) eqn:E; cbn [mret io_ret].
  { unfold same_prompt in E. destruct (cached_prompt_state_ c) as [state|] eqn:Es; [|done].
    destruct (cached_prompt_prefill_ c) as [p|] eqn:Ep; [|done].
    destruct (prompt_coherent past c Hc p state Ep Es) as [Hin Hb].
    split; [done|]. exists state. split_and!; [done| |by left]. rewrite <- (prefill_equal_eq p request); auto. }
  destruct (voice_parts_usable request) eqn:Eu.
  - pose proof (ensure_voice_parts_spec past request c Hc Hs) as Hv. pose proof (parts_agree request Eu) as Ha.
    destruct (ensure_voice_parts request c) as [[[]|e] c1] eqn:Ev.
    + destruct Hv as (Hc1 & Hsame & parts & Hp & Hb). rewrite Hb in Ha. cbn [mbind outcome_bind] in Ha.
      destruct (build_prompt_state_from_parts request parts root_config w) as [state|e] eqn:Ef.
      * symmetry in Ha. apply agrees_Ok in Ha.
        rewrite (io_bind_Ok _ _ _ tt (c1 <| cached_prompt_state_ := Some state |>));
          [|rewrite (io_bind_Ok _ _ _ _ _ Ev), io_bind_get, Hp, Ef; done].
        split; [by apply (remember_coherent _ _ state c1); [|left|]|]. exists state. split_and!; [done..|right].
        unfold content in *. cbn. injection Hsame as _ _ _ _ ->. done.
      * rewrite (io_bind_Throw _ _ _ e c1) by (rewrite (io_bind_Ok _ _ _ _ _ Ev), io_bind_get, Hp, Ef; done).
        split_and!; [done..|]. destruct (build_prompt_state request root_config w); [done|by eauto].
    + destruct Hv as [-> Hb]. rewrite Hb in Ha.
      rewrite (io_bind_Throw _ _ _ e c) by (by apply io_bind_Throw).
      split_and!; [done..|]. destruct (build_prompt_state request root_config w); [done|by eauto].
  - destruct (build_prompt_state request root_config w) as [state|e] eqn:Eb.
    + rewrite (io_bind_Ok _ _ _ tt (c <| cached_prompt_state_ := Some state |>)) by (by rewrite io_bind_lift).
      split; [by apply (remember_coherent _ _ state c); [|left|]|]. exists state. split_and!; [done..|by right].
    + rewrite (io_bind_Throw _ _ _ e c) by done. split_and!; eauto.
Qed.
(** What a request gets after the ones before it. *)
Fixpoint answers (requests : list Qwen3TalkerPrefill) (c : PromptCache) : list (outcome PromptEmbeddingState) :=
  match requests with
  | [] => []
  | request :: requests => answer request c :: answers requests (ensure_prompt_state request c).2
  end.

Lemma answer_spec past request c :
  coherent past c → (∀ p, p ∈ past → same_embedding p request) →
  coherent (request :: past) (ensure_prompt_state request c).2 ∧ agrees (answer request c) (build_prompt_state request root_config w).
Proof.
  intros Hc Hs. pose proof (ensure_prompt_spec past request c Hc Hs) as H. unfold answer.
  destruct (ensure_prompt_state request c) as [[[]|e] c'].
  - destruct H as (Hc' & state & Es & Hb & _). by rewrite Es, Hb.
  - destruct H as (Hc' & _ & e' & ->). done.
Qed.

Lemma answers_agree past requests c :
  coherent past c → (∀ p q, p ∈ past ++ requests → q ∈ requests → same_embedding p q) →
  Forall2 agrees (answers requests c) (map (λ request, build_prompt_state request root_config w) requests).
Proof.
  revert past c. induction requests as [|request requests IH]; intros past c Hc Hs; cbn [answers map]; [constructor|].
  destruct (answer_spec past request c Hc) as [Hc' Ha]; [intros p Hp; apply Hs; set_solver|].
  constructor; [done|]. apply (IH (request :: past)); [done|]. intros p q Hp Hq. apply Hs; set_solver.
Qed.

(** C12. Remembering prompts and the reference side of voices changes no prompt:
    whatever requests came before, a request gets the rows that building its
    prompt from nothing gives, or fails as that would. *)
Theorem prompts_transparent requests :
  (∀ p q, p ∈ requests → q ∈ requests → same_embedding p q) →
  Forall2 agrees (answers requests empty_cache) (map (λ request, build_prompt_state request root_config w) requests).
Proof. intros Hs. apply (answers_agree []); [apply empty_coherent|done]. Qed.
End parts.

(** * Prompts are whole rows *)

Section layout.
Context {Float : Type} (zero one : Float) (add mul div : Float → Float → Float) (neg exp_ : Float → Float).
Context (ggml_row_size : ggml_type → Z → Z) (row_to_f32 : ggml_type → bytes → Z → list Float).
Context (row_length : ∀ t src dim, length (row_to_f32 t src dim) = Z.to_nat dim).
Context (root_config : Qwen3TTSConfig) (w : @Qwen3TalkerWeights Float).
Context (loaded : weights_ok (talker root_config) w).

Notation config := (talker root_config).
Notation build_prompt_state := (build_prompt_state zero one add mul div neg exp_ ggml_row_size row_to_f32).
Notation text_rows_of := (text_rows_of zero one add mul div neg exp_ ggml_row_size row_to_f32 w config).
Notation lookup_rows := (lookup_rows ggml_row_size row_to_f32).
Notation h := (Z.to_nat (hidden_size config)).

Definition rows (n : nat) (l : list Float) : Prop := length l = (n * h)%nat.

Lemma rows_app n m a b : rows n a → rows m b → rows (n + m) (a ++ b).
Proof. unfold rows. intros Ha Hb. rewrite length_app. lia. Qed.

Lemma rows_nil : rows 0 [].
Proof. done. Qed.

Lemma h_positive : (0 < h)%nat.
Proof. destruct loaded. lia. Qed.

Lemma row_count_rows n l : rows n l → row_count l (hidden_size config) = Z.of_nat n.
Proof.
  unfold rows, row_count. intros ->. pose proof (hidden_positive _ _ loaded). 
  rewrite Nat2Z.inj_mul, Z2Nat.id by lia. apply Z.quot_mul. lia.
Qed.

Lemma lookup_rows_rows table ids l : lookup_rows table (hidden_size config) ids = Ok l → rows (length ids) l.
Proof. by apply lookup_rows_length. Qed.

Lemma text_rows_rows ids l : text_rows_of ids = Ok l → rows (length ids) l.
Proof. by apply text_rows_length. Qed.

Lemma row_at_rows l n (i : nat) : rows n l → (i < n)%nat → rows 1 (row_at l (Z.of_nat i) (hidden_size config)).
Proof.
  unfold rows, row_at. intros Hl Hi. pose proof (hidden_positive _ _ loaded).
  rewrite length_take, length_drop, Hl, Z2Nat.inj_mul, Nat2Z.id by lia. nia.
Qed.

Lemma add_rows_Ok a b c : add_rows add a b = Ok c → length a = length b ∧ length c = length b.
Proof.
  unfold add_rows. destruct (Nat.eqb_spec (length a) (length b)) as [E|]; [|done]. intros [= <-].
  rewrite length_zip_with. lia.
Qed.

Lemma repeat_row_rows l (n : nat) : rows 1 l → rows n (repeat_row l (Z.of_nat n)).
Proof.
  unfold rows, repeat_row. intros Hl. rewrite Nat2Z.id.
  rewrite (concat_length_rows _ h); [by rewrite length_replicate|]. apply Forall_replicate. lia.
Qed.

Lemma take_whole_rows n m l : rows n l → (m <= n)%nat → rows m (take (m * h) l).
Proof. unfold rows. intros Hl Hm. rewrite length_take, Hl. nia. Qed.

Lemma fused_prefix_rows n codec_embed tts_bos tts_pad out :
  rows (n + 2) codec_embed → fused_prefix add config codec_embed tts_bos tts_pad = Ok out → rows (n + 1) out.
Proof.
  intros Hc. unfold fused_prefix. rewrite (row_count_rows (n + 2)) by done.
  replace (Z.of_nat (n + 2) - 2) with (Z.of_nat n) by lia.
  destruct (add_rows add (repeat_row _ _) _) as [pads|] eqn:E1; cbn [mbind outcome_bind]; [|done].
  destruct (add_rows add tts_bos _) as [bos|] eqn:E2; cbn [mbind outcome_bind]; [|done]. intros [= <-].
  apply add_rows_Ok in E1 as [_ E1]. apply add_rows_Ok in E2 as [_ E2]. pose proof (hidden_positive _ _ loaded). apply rows_app.
  - unfold rows. rewrite E1, Z2Nat.inj_mul, Nat2Z.id by lia. apply (take_whole_rows (n + 2)); [done|lia].
  - unfold rows. rewrite E2. apply (row_at_rows _ (n + 2)); [done|lia].
Qed.

Lemma text_in_prompt_rows n text_ids codec_embed tts_eos tts_pad out :
  rows (n + 1) codec_embed →
  text_in_prompt zero one add mul div neg exp_ ggml_row_size row_to_f32 w config text_ids codec_embed tts_eos tts_pad = Ok out →
  rows (length text_ids + 2) out.
Proof.
  intros Hc. unfold text_in_prompt. rewrite (row_count_rows (n + 1)) by done. replace (Z.of_nat (n + 1) - 1) with (Z.of_nat n) by lia.
  destruct (text_rows_of text_ids); cbn [mbind outcome_bind]; [|done].
  destruct (lookup_rows _ _ _) as [pads|] eqn:E; cbn [mbind outcome_bind]; [|done]. apply lookup_rows_rows in E. rewrite length_replicate in E.
  destruct (add_rows _ _ pads) as [fused|] eqn:E1; cbn [mbind outcome_bind]; [|done].
  destruct (add_rows _ tts_pad _) as [last|] eqn:E2; cbn [mbind outcome_bind]; [|done]. intros [= <-].
  apply add_rows_Ok in E1 as [_ E1]. apply add_rows_Ok in E2 as [_ E2].
  replace (length text_ids + 2)%nat with (length text_ids + 1 + 1)%nat by lia. apply rows_app; unfold rows; [by rewrite E1|].
  rewrite E2. apply (row_at_rows _ (n + 1)); [done|lia].
Qed.

Lemma group_row_rows group code l : group_row ggml_row_size row_to_f32 w config group code = Ok l → rows 1 l.
Proof.
  unfold group_row. destruct group as [|group]; [apply lookup_rows_rows|].
  destruct (code_predictor_embeddings w !! group); [apply lookup_rows_rows|done].
Qed.

Lemma sum_groups_rows summed group frame out :
  rows 1 summed → sum_groups add ggml_row_size row_to_f32 w config summed group frame = Ok out → rows 1 out.
Proof.
  revert summed group. induction frame as [|code frame IH]; intros summed group Hs; cbn [sum_groups]; [by intros [= <-]|].
  destruct (group_row _ _ _ _ _ _) as [row|] eqn:E; cbn [mbind outcome_bind]; [|done]. apply group_row_rows in E.
  apply IH. unfold rows in *. rewrite length_zip_with. lia.
Qed.

Lemma ref_codec_rows ref out :
  ref_codec_of zero add ggml_row_size row_to_f32 w config ref = Ok out → rows (Z.to_nat (frames ref) + 1) out.
Proof.
  unfold ref_codec_of. destruct (lookup_rows _ _ _) as [bos|] eqn:E; cbn [mbind outcome_bind]; [|done]. apply lookup_rows_rows in E.
  destruct (mapM _ _) as [l|] eqn:Em; cbn [mbind outcome_bind]; [|done]. intros [= <-]. rewrite Nat.add_comm. apply rows_app; [done|].
  pose proof (outcome_mapM_length _ _ _ Em) as Hl. rewrite length_seq in Hl. unfold rows. rewrite <- Hl. apply concat_length_rows.
  eapply Forall_impl; [eapply (outcome_mapM_Forall _ (rows 1)), Em|].
  - intros frame b. apply sum_groups_rows. unfold rows. rewrite length_replicate. lia.
  - unfold rows. intros. lia.
Qed.

Lemma fuse_rows n t c header text_embed ref tts_pad state :
  rows n header → rows t text_embed → rows c ref → rows 1 tts_pad →
  fuse add config header text_embed ref tts_pad = Ok state →
  rows (n + c) (prompt state) ∧ rows (Nat.max 1 (t - c)) (trailing_text state) ∧ TalkerPrompt.tts_pad state = tts_pad.
Proof.
  intros Hn Ht Hc Hp. unfold fuse. rewrite (row_count_rows t text_embed), (row_count_rows c ref) by done.
  destruct (Z.ltb_spec (Z.of_nat c) (Z.of_nat t)) as [Hlt|Hge].
  - destruct (add_rows _ _ _) as [fused|] eqn:E; cbn [mbind outcome_bind]; [|done]. intros [= <-]. cbn. apply add_rows_Ok in E as [_ E].
    split_and!; [apply rows_app; [done|]; unfold rows; by rewrite E| |done].
    rewrite Nat.max_r by lia. unfold rows in *. rewrite length_drop, Nat.mul_sub_distr_r. lia.
  - destruct (add_rows _ _ _) as [fused|] eqn:E; cbn [mbind outcome_bind]; [|done]. intros [= <-]. cbn. apply add_rows_Ok in E as [_ E].
    split_and!; [apply rows_app; [done|]; unfold rows; by rewrite E| |done]. by rewrite Nat.max_l by lia.
Qed.

Lemma middle_length front back ids l : middle front back ids = Ok l → length l = (length ids - front - back)%nat.
Proof. unfold middle. destruct (_ <? _)%nat; [done|]. intros [= <-]. rewrite length_take, length_drop. lia. Qed.

(** The rows of the prompt and of the text that trails it. *)
Definition expected_rows (p : @Qwen3TalkerPrefill Float) (prefix : nat) : nat * nat :=
  let text := (length (input_ids p) - 8)%nat in
  match prompt_mode p with
  | VoiceDesign => (length (instruct_ids p) + 3 + (prefix + 1) + (text + 2), 1)
  | CustomVoice => (length (instruct_ids p) + 3 + (prefix + 2) + (text + 2), 1)
  | VoiceClone =>
      if x_vector_only_mode p then (3 + (prefix + 2) + (text + 2), 1)
      else
        let frames := Z.to_nat (from_option frames 0%Z (reference_codes p)) in
        (3 + (prefix + 2) + (frames + 1), Nat.max 1 (length (reference_ids p) - 5 + text + 1 - (frames + 1)))
  end%nat.
Lemma codec_prefix_length lowered original prefix : codec_prefix_of config lowered original = Ok prefix → length prefix = 3%nat ∨ length prefix = 4%nat.
Proof.
  unfold codec_prefix_of. destruct (bool_decide _); [intros [= <-]; by left|].
  destruct (_ !! _); [intros [= <-]; by right|done].
Qed.

Lemma codec_rows_rows prefix voice n out :
  rows n voice → codec_rows_of ggml_row_size row_to_f32 w config prefix voice = Ok out → rows (length prefix + n + 2) out.
Proof.
  intros Hv. unfold codec_rows_of. destruct (lookup_rows _ _ prefix) as [a|] eqn:Ea; cbn [mbind outcome_bind]; [|done].
  apply lookup_rows_rows in Ea. destruct (lookup_rows _ _ _) as [b|] eqn:Eb; cbn [mbind outcome_bind]; [|done]. intros [= <-].
  apply lookup_rows_rows in Eb. rewrite app_assoc. apply rows_app; [by apply rows_app|done].
Qed.

Lemma custom_voice_rows p language voice : custom_voice ggml_row_size row_to_f32 p w config = Ok (language, voice) → rows 1 voice.
Proof.
  unfold custom_voice. destruct (speaker_id config !! _); [|done]. destruct (speaker_dialect config !! _); [|done].
  destruct (lookup_rows _ _ _) as [a|] eqn:Ea; cbn [mbind outcome_bind]; [|done]. intros [= _ <-]. by apply lookup_rows_rows in Ea.
Qed.

(** The embedding of a cloned voice has as many values as it says. *)
Definition whole_voice (p : @Qwen3TalkerPrefill Float) : Prop :=
  ∀ e, speaker_embedding p = Some e → Z.of_nat (length (values e)) = dims e.

Lemma cloned_rows p codec_prefix tts_bos tts_eos tts_pad state :
  whole_voice p → prompt_mode p = VoiceClone → rows 1 tts_eos → rows 1 tts_pad →
  cloned_voice_state zero one add mul div neg exp_ ggml_row_size row_to_f32 p w config codec_prefix tts_bos tts_eos tts_pad = Ok state →
  rows (expected_rows p (length codec_prefix)).1 (prompt state) ∧ rows (expected_rows p (length codec_prefix)).2 (trailing_text state) ∧
  TalkerPrompt.tts_pad state = tts_pad.
Proof.
  intros Hv Hm Heos Hpad. unfold cloned_voice_state.
  destruct (validate_qwen3_talker_voice_clone_prefill p _) as [[]|] eqn:Eval; cbn [mbind outcome_bind]; [|done].
  assert (rows 1 (from_option values [] (speaker_embedding p))) as Hvoice.
  { unfold validate_qwen3_talker_voice_clone_prefill in Eval. destruct (speaker_embedding p) as [e|] eqn:Ee; [|done].
    destruct (Z.eqb_spec (dims e) (hidden_size config)) as [Ed|]; [|done]. unfold rows. cbn. pose proof (Hv e Ee). lia. }
  destruct (text_rows_of (take 3 _)) as [role|] eqn:Er; cbn [mbind outcome_bind]; [|done]. apply text_rows_rows in Er.
  destruct (codec_rows_of _ _ _ _ _ _) as [ce|] eqn:Ec; cbn [mbind outcome_bind]; [|done]. eapply codec_rows_rows in Ec; [|done].
  destruct (fused_prefix _ _ _ _ _) as [prefix|] eqn:Ef; cbn [mbind outcome_bind]; [|done]. eapply fused_prefix_rows in Ef; [|done].
  destruct (middle 3 5 _) as [text_ids|] eqn:Et; cbn [mbind outcome_bind]; [|done].
  assert (length (take 3 (input_ids p)) = 3%nat) as H3.
  { unfold middle in Et. destruct (Nat.ltb_spec (length (input_ids p)) (3 + 5)); [done|]. rewrite length_take. lia. }
  rewrite H3 in Er. apply middle_length in Et. unfold expected_rows. rewrite Hm. destruct (x_vector_only_mode p).
  - destruct (text_in_prompt _ _ _ _ _ _ _ _ _ _ _ _ _ _ _) as [text|] eqn:Ex; cbn [mbind outcome_bind]; [|done]. intros [= <-].
    eapply (text_in_prompt_rows (length codec_prefix + 1 + 1)) in Ex; [|by rewrite <- Nat.add_assoc]. cbn [fst snd prompt trailing_text].
    split_and!; [|done|done]. replace (_ + _ + _)%nat with (3 + ((length codec_prefix + 1 + 1) + (length text_ids + 2)))%nat by lia.
    by repeat apply rows_app.
  - destruct (middle 3 2 _) as [ref_ids|] eqn:Em; cbn [mbind outcome_bind]; [|done]. apply middle_length in Em.
    destruct (text_rows_of _) as [text|] eqn:Ex; cbn [mbind outcome_bind]; [|done]. apply text_rows_rows in Ex. rewrite length_app in Ex.
    destruct (ref_codec_of _ _ _ _ _ _ _) as [ref|] eqn:Ee; cbn [mbind outcome_bind]; [|done]. apply ref_codec_rows in Ee.
    intros Hf. eapply fuse_rows in Hf; [|by apply rows_app|by apply rows_app|done|done]. cbn [fst snd].
    replace (from_option frames 0 (reference_codes p)) with
      (frames (default {| codes := []; frames := 0; code_groups := 0 |} (reference_codes p))) by by destruct (reference_codes p).
    destruct Hf as (H1 & H2 & H4). split_and!; [| |done]; (eapply eq_trans; [done|]; f_equal; lia).
Qed.

Lemma built_rows p codec_prefix voice n tts_bos tts_eos tts_pad state :
  rows n voice → rows 1 tts_pad →
  built_voice_state zero one add mul div neg exp_ ggml_row_size row_to_f32 p w config codec_prefix voice tts_bos tts_eos tts_pad = Ok state →
  rows (length (instruct_ids p) + 3 + (length codec_prefix + n + 1) + (length (input_ids p) - 8 + 2)) (prompt state) ∧
  trailing_text state = tts_pad ∧ TalkerPrompt.tts_pad state = tts_pad.
Proof.
  intros Hvoice Hpad. unfold built_voice_state.
  assert (∀ i, (match instruct_ids p with [] => Ok [] | ids => text_rows_of ids end) = Ok i → rows (length (instruct_ids p)) i) as Hi.
  { destruct (instruct_ids p); [by intros i [= <-]|intros i; apply text_rows_rows]. }
  destruct (match instruct_ids p with [] => _ | _ => _ end) as [instruct|]; cbn [mbind outcome_bind]; [|done]. specialize (Hi _ eq_refl).
  destruct (text_rows_of (take 3 _)) as [role|] eqn:Er; cbn [mbind outcome_bind]; [|done]. apply text_rows_rows in Er.
  destruct (codec_rows_of _ _ _ _ _ _) as [ce|] eqn:Ec; cbn [mbind outcome_bind]; [|done]. eapply codec_rows_rows in Ec; [|done].
  destruct (fused_prefix _ _ _ _ _) as [prefix|] eqn:Ef; cbn [mbind outcome_bind]; [|done]. eapply fused_prefix_rows in Ef; [|done].
  destruct (middle 3 5 _) as [text_ids|] eqn:Et; cbn [mbind outcome_bind]; [|done].
  assert (length (take 3 (input_ids p)) = 3%nat) as H3.
  { unfold middle in Et. destruct (Nat.ltb_spec (length (input_ids p)) (3 + 5)); [done|]. rewrite length_take. lia. }
  rewrite H3 in Er. apply middle_length in Et.
  destruct (text_in_prompt _ _ _ _ _ _ _ _ _ _ _ _ _ _ _) as [text|] eqn:Ex; cbn [mbind outcome_bind]; [|done]. intros [= <-].
  eapply (text_in_prompt_rows (length codec_prefix + n + 1)) in Ex; [|by rewrite <- Nat.add_assoc]. cbn [prompt trailing_text].
  split_and!; [|done|done].
  replace (_ + _ + _ + _)%nat with (length (instruct_ids p) + (3 + ((length codec_prefix + n + 1) + (length text_ids + 2))))%nat by lia.
  by repeat apply rows_app.
Qed.

(** Prompts are made of whole rows, and of how many: the prompt of a voice
    cloned with its transcript does not grow with the text spoken, which trails it
    and is never empty; every other prompt holds all its text and is trailed by
    one row of padding. *)
Theorem prompt_layout p state :
  whole_voice p → build_prompt_state p root_config w = Ok state →
  ∃ prefix, (prefix = 3 ∨ prefix = 4)%nat ∧
    rows (expected_rows p prefix).1 (prompt state) ∧ rows (expected_rows p prefix).2 (trailing_text state) ∧ rows 1 (tts_pad state).
Proof.
  intros Hv. unfold TalkerPrompt.build_prompt_state. cbv zeta.
  destruct (Nat.ltb_spec (length (input_ids p)) 8) as [|H8]; [done|].
  destruct (text_rows_of (special_ids root_config)) as [sp|] eqn:Es; cbn [mbind outcome_bind]; [|done]. apply text_rows_rows in Es.
  assert (∀ i : nat, (i < 3)%nat → rows 1 (row_at sp (Z.of_nat i) (hidden_size config))) as Hsp by (intros; by eapply row_at_rows).
  pose proof (Hsp 1%nat ltac:(lia)) as Heos. pose proof (Hsp 2%nat ltac:(lia)) as Hpad.
  change (Z.of_nat 1) with 1 in Heos. change (Z.of_nat 2) with 2 in Hpad.
  destruct (match prompt_mode p with CustomVoice => _ | _ => _ end) as [[lowered voice]|] eqn:Eu; cbn [mbind outcome_bind fst snd]; [|done].
  destruct (codec_prefix_of _ _ _) as [prefix|] eqn:Ep; cbn [mbind outcome_bind]; [|done]. apply codec_prefix_length in Ep.
  intros H. exists (length prefix). split; [done|]. destruct (prompt_mode p) eqn:Em.
  - apply cloned_rows in H as (H1 & H2 & H3); [|done..]. by rewrite H3.
  - injection Eu as <- <-. apply (built_rows _ _ [] 0) in H as (H1 & -> & ->); [|done..]. unfold expected_rows. rewrite Em.
    split_and!; [|done|done]. by rewrite Nat.add_0_r in H1.
  - apply custom_voice_rows in Eu. apply (built_rows _ _ voice 1) in H as (H1 & -> & ->); [|done..]. unfold expected_rows. rewrite Em.
    split_and!; [|done|done]. cbn [fst]. eapply eq_trans; [done|]. f_equal; lia.
Qed.
End layout.

(** * Examples *)

Module Prompts.

(** Integers for floats, one byte for a value. *)
Definition row_size (t : ggml_type) (dim : Z) : Z := dim.
Definition to_row (t : ggml_type) (src : bytes) (dim : Z) : list Z := take (Z.to_nat dim) (src ++ replicate (Z.to_nat dim) 0).

Lemma to_row_length t src dim : length (to_row t src dim) = Z.to_nat dim.
Proof. unfold to_row. rewrite length_take, length_app, length_replicate. lia. Qed.

Definition table (rows_ : nat) : TensorData :=
  {| rank := 2; dims0 := Z.of_nat rows_; dims1 := 2; element_type := GGML_TYPE_F32; contents := map Z.of_nat (seq 0 (2 * rows_)) |}.

Definition projection : @LinearTensorWeights Z :=
  {| weight := table 2; bias := None; host_weight_values := [1; 2; 3; 4]; host_bias_values := [] |}.

Definition small_weights : Qwen3TalkerWeights :=
  {| codec_embedding := table 16; code_predictor_embeddings := [table 8]; text_embedding := table 32;
     text_projection_fc1 := projection; text_projection_fc2 := projection |}.

Definition small_config : Qwen3TTSConfig :=
  {| talker := {| hidden_size := 2; text_hidden_size := 2; num_code_groups := 2; vocab_size := 16; codec_bos_id := 1; codec_eos_token_id := 2;
                  codec_think_id := 3; codec_nothink_id := 4; codec_pad_id := 5; codec_think_bos_id := 6; codec_think_eos_id := 7;
                  codec_language_id := {[str "english" := 8]}; speaker_id := ∅; speaker_dialect := ∅ |};
     tts_bos_token_id := 20; tts_eos_token_id := 21; tts_pad_token_id := 22 |}.

Lemma small_loaded : weights_ok (talker small_config) small_weights.
Proof. split; [done|done|split; done..]. Qed.

Definition cloned (text : list Z) (reference : list Z) : @Qwen3TalkerPrefill Z :=
  {| prompt_mode := VoiceClone; input_ids := [10; 11; 12] ++ text ++ [13; 14; 15; 16; 17]; instruct_ids := []; reference_ids := reference;
     reference_codes := Some {| codes := [3; 4; 5; 6]; frames := 2; code_groups := 2 |};
     speaker_embedding := Some {| values := [7; 8]; dims := 2 |}; speaker := []; language := str "English"; icl_mode := true;
     x_vector_only_mode := false |}.

Definition one_reference : list Z := [10; 11; 12; 18; 13; 14].

Definition prompts : list (@Qwen3TalkerPrefill Z) := [cloned [1; 2] one_reference; cloned [3] one_reference; cloned [3; 4; 5] one_reference].

Notation built p := (build_prompt_state 0 1 Z.add Z.mul Z.div Z.opp id row_size to_row p small_config small_weights).
Notation answered ps := (answers 0 1 Z.add Z.mul Z.div Z.opp id Z.eqb row_size to_row small_config small_weights (Prefilled := ()) ps empty_cache).

Lemma prompts_transparent_witness :
  Forall2 agrees (answered prompts) (map (λ p, built p) prompts) ∧ forallb is_ok (answered prompts) = true.
Proof.
  split; [|by vm_compute]. apply prompts_transparent; [exact to_row_length|exact small_loaded|].
  intros p q Hp Hq _.
  repeat (apply elem_of_cons in Hp as [->|Hp]); [| | |by apply not_elem_of_nil in Hp];
    (repeat (apply elem_of_cons in Hq as [->|Hq]); [done..|by apply not_elem_of_nil in Hq]).
Defined.

Lemma prompt_layout_witness :
  ∃ state, built (cloned [3; 4; 5] one_reference) = Ok state ∧ length (prompt state) = 24%nat ∧ length (trailing_text state) = 4%nat ∧
  ∃ prefix, (prefix = 3 ∨ prefix = 4)%nat ∧ rows small_config (expected_rows (cloned [3; 4; 5] one_reference) prefix).1 (prompt state).
Proof.
  eexists. split; [vm_compute; reflexivity|]. split; [done|]. split; [done|].
  edestruct (prompt_layout 0 1 Z.add Z.mul Z.div Z.opp id row_size to_row to_row_length small_config small_weights small_loaded
               (cloned [3; 4; 5] one_reference)) as (prefix & Hp & Hr & _); [by intros e [= <-]|vm_compute; reflexivity|eauto].
Defined.

(** A transcript of one to four tokens passes the validation and makes a reversed range. *)
Example short_reference :
  validate_qwen3_talker_voice_clone_prefill (cloned [1] [10; 11]) 2 = Ok tt ∧
  built (cloned [1] [10; 11]) = Throw (str "cannot create std::vector larger than max_size()").
Proof. by split; vm_compute. Qed.

(** Another language than the model has. *)
Example unknown_language :
  built {| prompt_mode := VoiceDesign; input_ids := [10; 11; 12; 13; 14; 15; 16; 17]; instruct_ids := []; reference_ids := []; reference_codes := None;
           speaker_embedding := None; speaker := []; language := str "Latin"; icl_mode := false; x_vector_only_mode := false |} =
  Throw (str "Qwen3 talker unsupported language: Latin").
Proof. by vm_compute. Qed.

End Prompts.
