(* ===== verification/TalkerSampler.v ===== *)
(** How the speech model chooses codes (library, models/qwen3_tts/talker.cpp): what is
    done to the logits of the first code of a frame, the greedy choice, and sampling
    from the best logits with the generator of the host or of the device. *)

From stdpp Require Import gmap sorting.
From S2P Require Import Prelude TorchRandom TalkerPrompt StdSort.

#[local] Open Scope Z_scope.

Section sampler.
(** [float], [double], [std::mt19937] and [std::discrete_distribution]. *)
Context {Float Double Rng : Type}.
Context (fltb feqb : Float → Float → bool) (is_finite : Float → bool) (fzero fone neg_inf : Float) (fmul fdiv fsub : Float → Float → Float).
Context (to_double : Float → Double) (dexp : Double → Double) (dadd ddiv : Double → Double → Double) (dltb deqb : Double → Double → bool)
        (dzero dneg_inf : Double).
Context (sort : ∀ A, (A → A → bool) → list A → list A).
Context (distribution : list Double → Rng → nat * Rng).
(** What the exponentials of the device are made with (see TorchRandom). *)
Context (of_u32 : Z → Float) (fadd : Float → Float → Float) (log_ neg : Float → Float) (kInvTwoPow32 half : Float).

Notation exponential := (torch_cuda_tensor_iterator_exponential_element of_u32 fmul fadd log_ kInvTwoPow32 half neg).

(** [<=] of numbers that may be unordered. *)
Definition fle (x y : Float) : bool := fltb x y || feqb x y.
Definition dle (x y : Double) : bool := dltb x y || deqb x y.

Definition logit (logits : list Float) (i : Z) : Float := nth (Z.to_nat i) logits fzero.

(** [best] over the indices from [i]. *)
Fixpoint argmax_loop (values : list Float) (i best : nat) (rest : list Float) : nat :=
  match rest with
  | [] => best
  | value :: rest => argmax_loop values (S i) (if fltb (nth best values fzero) value then i else best) rest
  end.

Definition argmax_index (values : list Float) : outcome Z :=
  match values with
  | [] => Throw (str "Qwen3 talker cannot select from empty logits")
  | _ :: rest => Ok (Z.of_nat (argmax_loop values 1 0 rest))
  end.

Definition finite_indices (logits : list Float) : list Z :=
  List.filter (λ i, is_finite (logit logits i)) (seqZ 0 (Z.of_nat (length logits))).

(** The comparator of the sort. *)
Definition better (logits : list Float) (lhs rhs : Z) : bool := fltb (logit logits rhs) (logit logits lhs).

Definition keep_top_k (top_k : Z) (indices : list Z) : list Z :=
  if (0 <? top_k) && (top_k <? Z.of_nat (length indices)) then take (Z.to_nat top_k) indices else indices.

Definition weights_of (logits : list Float) (temperature : Float) (indices : list Z) : list Double :=
  let max_logit := fdiv (logit logits (hd 0 indices)) temperature in
  map (λ index, dexp (to_double (fsub (fdiv (logit logits index) temperature) max_logit))) indices.

(** The first prefix whose share reaches [top_p], else everything. *)
Fixpoint nucleus (weights : list Double) (total top_p cumulative : Double) (i : nat) (keep : nat) : nat :=
  match weights with
  | [] => keep
  | weight :: weights =>
      let cumulative := dadd cumulative (ddiv weight total) in
      if dle top_p cumulative then S i else nucleus weights total top_p cumulative (S i) keep
  end.

(** The race of the device: the token with the largest weight over its exponential. *)
Fixpoint race (seed count call_index : Z) (policy : TorchCudaSamplingPolicy) (choices : list (Z * Double)) (best_rank : Double) (best_token : Z) :
    outcome Z :=
  match choices with
  | [] => if best_token <? 0 then Throw (str "Qwen3 CUDA sampler failed to select a token") else Ok best_token
  | (index, weight) :: choices =>
      e ← exponential seed count index call_index policy;
      let rank := ddiv weight (to_double e) in
      if dltb best_rank rank then race seed count call_index policy choices rank index
      else race seed count call_index policy choices best_rank best_token
  end.

Definition sample_index (logits : list Float) (top_k : Z) (top_p temperature : Float) (rng : Rng) (policy : TorchCudaSamplingPolicy)
    (seed call_index : Z) : outcome (Z * Rng) :=
  if fle temperature fzero then Throw (str "Qwen3 sampler temperature must be positive")
  else
    let indices := finite_indices logits in
    if bool_decide (indices = []) then Throw (str "Qwen3 sampler has no finite logits")
    else
      let indices := keep_top_k top_k (sort Z (better logits) indices) in
      let weights := weights_of logits temperature indices in
      let total := foldl dadd dzero weights in
      let keep := if fltb fzero top_p && fltb top_p fone then nucleus weights total (to_double top_p) dzero 0 (length weights)
                  else length weights in
      let indices := take keep indices in
      let weights := take keep weights in
      if cuda_fast_path policy then
        (λ token, (token, rng)) <$> race seed (Z.of_nat (length logits)) call_index policy (zip indices weights) dneg_inf (-1)
      else
        let '(i, rng) := distribution weights rng in
        Ok (nth i indices 0, rng).

(** * The first code of a frame *)

Definition suppress (logits : list Float) (token : Z) : list Float := <[Z.to_nat token := neg_inf]> logits.

Definition penalize (repetition_penalty value : Float) : Float :=
  if fltb value fzero then fmul value repetition_penalty else fdiv value repetition_penalty.

Fixpoint penalize_seen (logits : list Float) (vocab : Z) (repetition_penalty : Float) (seen_tokens : gset Z) (codes : list Z) : list Float :=
  match codes with
  | [] => logits
  | token :: codes =>
      if (token <? 0) || (vocab <=? token) then penalize_seen logits vocab repetition_penalty seen_tokens codes
      else if bool_decide (token ∈ seen_tokens) then penalize_seen logits vocab repetition_penalty seen_tokens codes
      else penalize_seen (alter (penalize repetition_penalty) (Z.to_nat token) logits) vocab repetition_penalty ({[token]} ∪ seen_tokens) codes
  end.

Definition apply_main_talker_processors (logits : list Float) (config : Qwen3TTSTalkerConfig) (generated_first_codes : list Z) (step : Z)
    (repetition_penalty : Float) : outcome (list Float) :=
  let vocab := vocab_size config in
  let eos := codec_eos_token_id config in
  if negb (Z.of_nat (length logits) =? vocab) then Throw (str "Qwen3 talker logits size mismatch")
  else
    let logits := if (step <? 2) && (0 <=? eos) && (eos <? vocab) then suppress logits eos else logits in
    let suppress_start := Z.max 0 (vocab - 1024) in
    let logits := foldl (λ logits token, if token =? eos then logits else suppress logits token) logits
                        (seqZ suppress_start (vocab - suppress_start)) in
    if feqb repetition_penalty fone then Ok logits
    else if fle repetition_penalty fzero then Throw (str "Qwen3 talker repetition penalty must be positive")
    else Ok (penalize_seen logits vocab repetition_penalty ∅ generated_first_codes).

End sampler.

(** * What is chosen *)

Section facts.
Context {Float Double Rng : Type}.
Context (fltb feqb : Float → Float → bool) (is_finite : Float → bool) (fzero fone neg_inf : Float) (fmul fdiv fsub : Float → Float → Float).
Context (to_double : Float → Double) (dexp : Double → Double) (dadd ddiv : Double → Double → Double) (dltb deqb : Double → Double → bool)
        (dzero dneg_inf : Double).
Context (sort : ∀ A, (A → A → bool) → list A → list A) {sorts : StdSort sort}.
Context (distribution : list Double → Rng → nat * Rng).
Context (of_u32 : Z → Float) (fadd : Float → Float → Float) (log_ neg : Float → Float) (kInvTwoPow32 half : Float).

Notation sample_index :=
  (sample_index fltb feqb is_finite fzero fone fmul fdiv fsub to_double dexp dadd ddiv dltb deqb dzero dneg_inf sort distribution
     of_u32 fadd log_ neg kInvTwoPow32 half).
Notation race := (race fmul to_double ddiv dltb of_u32 fadd log_ neg kInvTwoPow32 half).
Notation logit := (logit fzero).
Notation finite_indices := (finite_indices is_finite fzero).
Notation better := (better fltb fzero).

(** Finite numbers are ordered. *)
Context (lt_asym : ∀ x y, is_finite x = true → is_finite y = true → fltb x y = true → fltb y x = false).
Context (lt_negtrans : ∀ x y z, is_finite x = true → is_finite y = true → is_finite z = true →
           fltb x y = false → fltb y z = false → fltb x z = false).
(** A draw from a distribution of some weights is one of their positions. *)
Context (draw_in_range : ∀ weights rng, weights ≠ [] → ((distribution weights rng).1 < length weights)%nat).

Lemma lt_irrefl x : is_finite x = true → fltb x x = false.
Proof using lt_asym. intros Hx. destruct (fltb x x) eqn:E; [|done]. by rewrite (lt_asym x x Hx Hx E) in E. Qed.

Lemma finite_indices_spec logits i :
  i ∈ finite_indices logits ↔ 0 <= i < Z.of_nat (length logits) ∧ is_finite (logit logits i) = true.
Proof.
  unfold TalkerSampler.finite_indices. rewrite list_elem_of_In, filter_In, <- list_elem_of_In, elem_of_seqZ. by rewrite Z.add_0_l.
Qed.

Lemma sorted_finite logits :
  let sorted := sort Z (better logits) (finite_indices logits) in
  sorted ≡ₚ finite_indices logits ∧ StronglySorted (λ x y, fltb (logit logits x) (logit logits y) = false) sorted.
Proof.
  split; [apply sort_permutation|]. apply (sort_ordered Z (better logits)).
  - intros x y [_ Hx]%finite_indices_spec [_ Hy]%finite_indices_spec. by apply lt_asym.
  - intros x y z [_ Hx]%finite_indices_spec [_ Hy]%finite_indices_spec [_ Hz]%finite_indices_spec H1 H2. unfold TalkerSampler.better in *.
    by apply (lt_negtrans _ (logit logits y)).
Qed.

(** An element near the front has few strictly greater ones. *)
Lemma few_greater (f : Z → Float) (l : list Z) k c :
  StronglySorted (λ x y, fltb (f x) (f y) = false) l → c ∈ take k l → fltb (f c) (f c) = false →
  (length (List.filter (λ j, fltb (f c) (f j)) l) < k)%nat.
Proof.
  intros Hs Hc Hi. apply list_elem_of_lookup in Hc as [m Hm]. apply lookup_take_Some in Hm as [Hm Hk].
  apply list_elem_of_split_length in Hm as (l1 & l2 & -> & Hl1).
  rewrite List.filter_app. cbn [List.filter]. rewrite Hi.
  assert (List.filter (λ j, fltb (f c) (f j)) l2 = []) as ->.
  { assert (Forall (λ y, fltb (f c) (f y) = false) l2) as Hf.
    { clear Hk Hl1. induction l1 as [|x l1 IH]; cbn in Hs; apply StronglySorted_inv in Hs as [Hs Hx]; auto. }
    clear -Hf. induction Hf as [|y l2 Hy _ IH]; cbn; [done|]. by rewrite Hy. }
  rewrite app_nil_r. pose proof (filter_length_le (λ j, fltb (f c) (f j)) l1). lia.
Qed.

Lemma race_in seed count call_index policy choices best_rank best_token token :
  race seed count call_index policy choices best_rank best_token = Ok token →
  0 <= token ∧ (token = best_token ∨ token ∈ map fst choices).
Proof.
  revert best_rank best_token. induction choices as [|[i w] choices IH]; intros best_rank best_token; cbn [TalkerSampler.race].
  - destruct (Z.ltb_spec best_token 0); [done|]. intros [= <-]. split; [done|by left].
  - destruct (torch_cuda_tensor_iterator_exponential_element _ _ _ _ _ _ _ _ _ _ _ _) as [e|]; cbn [mbind outcome_bind]; [|done].
    destruct (dltb _ _); intros [H0 [->|H]]%IH; (split; [done|]); cbn [map fst]; [right; left|right; by right|by left|right; by right].
Qed.

Lemma nucleus_bounds ws total top_p cumulative i keep :
  (i + length ws <= keep)%nat → (0 < keep)%nat → (0 < nucleus dadd ddiv dltb deqb ws total top_p cumulative i keep <= keep)%nat.
Proof.
  revert cumulative i. induction ws as [|w ws IH]; intros cumulative i; cbn [nucleus length]; [lia|].
  intros Hi Hk. destruct (dle _ _ _ _); [lia|]. apply IH; lia.
Qed.
Lemma keep_top_k_take top_k l :
  ∃ k, keep_top_k top_k l = take k l ∧ (l ≠ [] → 0 < k)%nat ∧ (0 < top_k → (k <= Z.to_nat top_k)%nat).
Proof.
  unfold keep_top_k. destruct (Z.ltb_spec 0 top_k), (Z.ltb_spec top_k (Z.of_nat (length l))); cbn [andb].
  - exists (Z.to_nat top_k). split_and!; [done|lia|lia].
  - exists (length l). rewrite take_ge by lia. split_and!; [done| |lia]. destruct l; cbn; [done|lia].
  - exists (length l). rewrite take_ge by lia. split_and!; [done| |lia]. destruct l; cbn; [done|lia].
  - exists (length l). rewrite take_ge by lia. split_and!; [done| |lia]. destruct l; cbn; [done|lia].
Qed.

(** The candidates of a choice: a prefix of the sorted finite indices. *)
Lemma candidates logits top_k keep c k sorted :
  sorted = sort Z (better logits) (finite_indices logits) → (0 < top_k → (k <= Z.to_nat top_k)%nat) → c ∈ take keep (take k sorted) →
  0 <= c < Z.of_nat (length logits) ∧ is_finite (logit logits c) = true ∧
  (0 < top_k → Z.of_nat (length (List.filter (λ j, fltb (logit logits c) (logit logits j)) (finite_indices logits))) < top_k).
Proof.
  intros -> Hk Hc. destruct (sorted_finite logits) as [Hp Hs].
  assert (c ∈ take k (sort Z (better logits) (finite_indices logits))) as Hc' by (by eapply subseteq_take).
  assert (c ∈ finite_indices logits) as Hf by (rewrite <- Hp; by eapply (subseteq_take k)).
  apply finite_indices_spec in Hf as [Hr Hfin]. split_and!; [lia|lia|done|]. intros Ht.
  pose proof (few_greater (logit logits) _ k c Hs Hc' (lt_irrefl _ Hfin)) as Hn.
  assert (∀ l l' : list Z, l ≡ₚ l' → length (List.filter (λ j, fltb (logit logits c) (logit logits j)) l) =
            length (List.filter (λ j, fltb (logit logits c) (logit logits j)) l')) as Hperm.
  { induction 1 as [|x l l' _ IH|x y l|l l' l'' _ IH1 _ IH2]; cbn; [done| | |congruence].
    - destruct (fltb _ _); cbn; lia.
    - destruct (fltb _ (logit logits x)), (fltb _ (logit logits y)); done. }
  rewrite (Hperm _ _ Hp) in Hn. specialize (Hk Ht). lia.
Qed.

Lemma sample_index_spec logits top_k top_p temperature rng policy seed call_index :
  (∀ code rng', sample_index logits top_k top_p temperature rng policy seed call_index = Ok (code, rng') →
     0 <= code < Z.of_nat (length logits) ∧ is_finite (logit logits code) = true ∧
     (0 < top_k → Z.of_nat (length (List.filter (λ j, fltb (logit logits code) (logit logits j)) (finite_indices logits))) < top_k)) ∧
  (fle fltb feqb temperature fzero = false → finite_indices logits ≠ [] → cuda_fast_path policy = false →
     ∃ code rng', sample_index logits top_k top_p temperature rng policy seed call_index = Ok (code, rng')).
Proof.
  unfold TalkerSampler.sample_index. destruct (fle _ _ temperature fzero); [by split|].
  destruct (bool_decide_reflect (finite_indices logits = [])) as [E|E]; [by split|].
  destruct (keep_top_k_take top_k (sort Z (better logits) (finite_indices logits))) as (k & -> & Hk0 & Hk).
  remember (sort Z (better logits) (finite_indices logits)) as sorted eqn:Es.
  assert (sorted ≠ []) as Hne.
  { destruct (sorted_finite logits) as [Hp _]. rewrite <- Es in Hp. intros ->. by apply Permutation_nil_l in Hp. }
  specialize (Hk0 Hne). set (ws := weights_of _ _ _ _ _ _ _ (take k sorted)).
  assert (length ws = length (take k sorted)) as Hlen by apply length_map.
  assert (0 < length (take k sorted))%nat as Hpos by (destruct sorted; [done|]; rewrite length_take; cbn; lia).
  set (keep := if _ && _ then _ else _).
  assert (0 < keep <= length ws)%nat as Hkeep.
  { unfold keep. destruct (_ && _); [apply nucleus_bounds|]; lia. }
  clearbody keep ws. cbv zeta. destruct (cuda_fast_path policy).
  - split; [|done]. intros code rng'. destruct (race _ _ _ _ _ _ _) as [token|] eqn:Er; cbn; [|done]. intros [= <- <-].
    apply race_in in Er as [H0 [H|H]]; [lia|]. apply (candidates _ _ keep _ k _ Es Hk).
    apply list_elem_of_In, in_map_iff in H as ([i w] & <- & Hin). apply in_combine_l in Hin. by apply list_elem_of_In.
  - pose proof (draw_in_range (take keep ws) rng) as Hd. destruct (distribution (take keep ws) rng) as [i rng''] eqn:Ed.
    split; [|by eauto]. intros code rng' [= <- <-]. apply (candidates _ _ keep _ k _ Es Hk).
    cbn [fst] in Hd. rewrite length_take in Hd.
    assert (i < keep `min` length ws)%nat by (apply Hd; destruct ws; [cbn in *; lia|]; destruct keep; [lia|done]).
    apply list_elem_of_In, nth_In. rewrite length_take. lia.
Qed.

Lemma sample_index_parts logits top_k top_p temperature rng policy seed call_index code rng' :
  sample_index logits top_k top_p temperature rng policy seed call_index = Ok (code, rng') →
  0 <= code < Z.of_nat (length logits) ∧ is_finite (logit logits code) = true ∧
  (0 < top_k → Z.of_nat (length (List.filter (λ j, fltb (logit logits code) (logit logits j)) (finite_indices logits))) < top_k).
Proof. apply sample_index_spec. Qed.

(** C14. Sampling chooses a code whose logit is finite, and fewer than [top_k] codes
    have a greater one; on the host it always chooses when some logit is finite,
    and on the device it chooses or fails, for every generator and seed. *)
Theorem sample_index_best logits top_k top_p temperature rng policy seed call_index :
  (∀ code rng', sample_index logits top_k top_p temperature rng policy seed call_index = Ok (code, rng') →
     0 <= code < Z.of_nat (length logits) ∧ is_finite (logit logits code) = true ∧
     (0 < top_k → Z.of_nat (length (List.filter (λ j, fltb (logit logits code) (logit logits j)) (finite_indices logits))) < top_k)) ∧
  (fle fltb feqb temperature fzero = false → finite_indices logits ≠ [] → cuda_fast_path policy = false →
     ∃ code rng', sample_index logits top_k top_p temperature rng policy seed call_index = Ok (code, rng')).
Proof. apply sample_index_spec. Qed.
End facts.

(** * What is done to the logits *)

Section processors.
Context {Float : Type} (fltb feqb : Float → Float → bool) (fzero fone neg_inf : Float) (fmul fdiv : Float → Float → Float).

Notation logit := (logit fzero).
Notation suppress := (suppress neg_inf).
Notation penalize := (penalize fltb fzero fmul fdiv).
Notation penalize_seen := (penalize_seen fltb fzero fmul fdiv).
Notation apply_main_talker_processors := (apply_main_talker_processors fltb feqb fzero fone neg_inf fmul fdiv).

Lemma suppress_logit logits t i :
  0 <= t < Z.of_nat (length logits) → 0 <= i → logit (suppress logits t) i = if i =? t then neg_inf else logit logits i.
Proof.
  intros Ht Hi. unfold TalkerSampler.logit, TalkerSampler.suppress. rewrite !nth_lookup. destruct (Z.eqb_spec i t) as [->|Hne].
  - by rewrite list_lookup_insert_eq by lia.
  - by rewrite list_lookup_insert_ne by lia.
Qed.
Lemma suppress_all eos ts logits i :
  Forall (λ t, 0 <= t < Z.of_nat (length logits)) ts → 0 <= i →
  length (foldl (λ logits token, if token =? eos then logits else suppress logits token) logits ts) = length logits ∧
  logit (foldl (λ logits token, if token =? eos then logits else suppress logits token) logits ts) i =
    if bool_decide (i ∈ ts) && negb (i =? eos) then neg_inf else logit logits i.
Proof.
  revert logits. induction ts as [|t ts IH]; intros logits Ht Hi; cbn [foldl]; [done|]. apply Forall_cons in Ht as [Ht Hts].
  destruct (IH (if t =? eos then logits else suppress logits t)) as [-> ->]; [|done|].
  { destruct (t =? eos); [done|]. unfold TalkerSampler.suppress. by rewrite length_insert. }
  clear IH. destruct (Z.eqb_spec t eos) as [Heq|Hne].
  - split; [done|]. destruct (Z.eqb_spec i eos) as [Hie|Hie]; [by rewrite !andb_false_r|].
    rewrite !andb_true_r. erewrite bool_decide_ext; [done|]. set_solver.
  - split; [apply length_insert|]. rewrite suppress_logit by done. destruct (Z.eqb_spec i t) as [Hit|Hit].
    + rewrite Hit. rewrite (bool_decide_eq_true_2 (t ∈ t :: ts)) by by left. rewrite (proj2 (Z.eqb_neq _ _)) by done. cbn. by destruct (bool_decide _).
    + erewrite (bool_decide_ext (i ∈ t :: ts)); [done|]. set_solver.
Qed.

Lemma alter_logit f logits t i :
  0 <= t < Z.of_nat (length logits) → 0 <= i →
  logit (alter f (Z.to_nat t) logits) i = if i =? t then f (logit logits t) else logit logits i.
Proof.
  intros Ht Hi. unfold TalkerSampler.logit. rewrite !nth_lookup. destruct (Z.eqb_spec i t) as [->|Hne].
  - rewrite list_lookup_alter_eq. destruct (lookup_lt_is_Some_2 logits (Z.to_nat t)) as [x Hx]; [lia|]. by rewrite Hx.
  - by rewrite list_lookup_alter_ne by lia.
Qed.

Lemma penalize_seen_length rp vocab codes logits seen : length (penalize_seen logits vocab rp seen codes) = length logits.
Proof.
  revert logits seen. induction codes as [|t codes IH]; intros logits seen; cbn [TalkerSampler.penalize_seen]; [done|].
  destruct (_ || _); [done|]. destruct (bool_decide _); [done|]. rewrite IH. apply length_alter.
Qed.

Lemma penalize_seen_logit rp codes logits seen i :
  0 <= i < Z.of_nat (length logits) →
  logit (penalize_seen logits (Z.of_nat (length logits)) rp seen codes) i =
    if bool_decide (i ∈ codes) && negb (bool_decide (i ∈ seen)) then penalize rp (logit logits i) else logit logits i.
Proof.
  revert logits seen. induction codes as [|t codes IH]; intros logits seen Hi; cbn [TalkerSampler.penalize_seen]; [done|].
  destruct ((t <? 0) || (Z.of_nat (length logits) <=? t)) eqn:Er.
  { rewrite (IH logits seen Hi). erewrite (bool_decide_ext (i ∈ t :: codes)); [done|]. set_solver by lia. }
  apply orb_false_iff in Er as [H1%Z.ltb_ge H2%Z.leb_gt]. destruct (bool_decide_reflect (t ∈ seen)) as [Hs|Hs].
  { rewrite (IH logits seen Hi). destruct (decide (i = t)) as [->|Hne].
    - rewrite (bool_decide_eq_true_2 (t ∈ seen)) by done. by rewrite !andb_false_r.
    - erewrite (bool_decide_ext (i ∈ t :: codes)); [done|]. set_solver. }
  set (logits' := alter _ _ logits). assert (length logits' = length logits) as Hl by apply length_alter. rewrite <- Hl.
  rewrite (IH logits' ({[t]} ∪ seen)) by lia. unfold logits'. rewrite alter_logit by lia.
  destruct (Z.eqb_spec i t) as [->|Hne].
  - rewrite (bool_decide_eq_true_2 (t ∈ {[t]} ∪ seen)), (bool_decide_eq_true_2 (t ∈ t :: codes)), (bool_decide_eq_false_2 (t ∈ seen)) by set_solver.
    by rewrite andb_false_r.
  - erewrite (bool_decide_ext (i ∈ {[t]} ∪ seen) (i ∈ seen)) by set_solver. erewrite (bool_decide_ext (i ∈ t :: codes)); [done|]. set_solver.
Qed.

(** Codes that may not be chosen: the special ones, and the end in the first two steps. *)
Definition suppressed (config : Qwen3TTSTalkerConfig) (step token : Z) : bool :=
  if token =? codec_eos_token_id config then step <? 2 else vocab_size config - 1024 <=? token.

Definition processed (logits : list Float) (config : Qwen3TTSTalkerConfig) (codes : list Z) (step : Z) (rp : Float) (token : Z) : Float :=
  let value := if suppressed config step token then neg_inf else logit logits token in
  if feqb rp fone then value else if bool_decide (token ∈ codes) then penalize rp value else value.

Lemma list_of_logits (f : Z → Float) (l : list Float) n :
  Z.of_nat (length l) = n → (∀ i, 0 <= i < n → logit l i = f i) → l = map f (seqZ 0 n).
Proof.
  intros <- H. apply list_eq. intros i. destruct (decide (i < length l)%nat) as [Hi|Hi].
  - destruct (lookup_lt_is_Some_2 l i Hi) as [x Hx]. rewrite list_lookup_fmap, lookup_seqZ_lt by lia. cbn. rewrite Hx. f_equal.
    rewrite <- H by lia. unfold TalkerSampler.logit. rewrite nth_lookup, Z.add_0_l, Nat2Z.id, Hx. done.
  - rewrite !lookup_ge_None_2; [done| |lia]. rewrite length_map, length_seqZ. lia.
Qed.

(** What becomes of each logit: special codes, and the end of speech in the
    first two steps, are suppressed; a code that was spoken before, however often,
    is penalized once; every other logit is as the network gave it. *)
Theorem processors_spec logits config codes step rp :
  Z.of_nat (length logits) = vocab_size config → (feqb rp fone = true ∨ fle fltb feqb rp fzero = false) →
  apply_main_talker_processors logits config codes step rp =
  Ok (map (processed logits config codes step rp) (seqZ 0 (vocab_size config))).
Proof.
  intros Hv Hrp. unfold TalkerSampler.apply_main_talker_processors. rewrite Hv, Z.eqb_refl. cbn [negb].
  set (vocab := vocab_size config) in *. set (eos := codec_eos_token_id config).
  set (first := if _ && _ then _ else logits). set (start := Z.max 0 (vocab - 1024)).
  assert (length first = length logits ∧ ∀ i, 0 <= i < vocab → logit first i = if (i =? eos) && (step <? 2) then neg_inf else logit logits i) as [Hl1 H1].
  { unfold first. destruct ((step <? 2) && (0 <=? eos) && (eos <? vocab)) eqn:Ec.
    - apply andb_prop in Ec as [[Es Hz%Z.leb_le]%andb_prop Hlt%Z.ltb_lt]. rewrite Es.
      split; [apply length_insert|]. intros i Hi. rewrite suppress_logit, andb_true_r by lia. done.
    - split; [done|]. intros i Hi. destruct (Z.eqb_spec i eos) as [->|]; [|done].
      destruct (step <? 2); [|done]. rewrite (proj2 (Z.leb_le _ _)), (proj2 (Z.ltb_lt _ _)) in Ec by lia. done. }
  set (second := foldl _ first _).
  assert (length second = length logits ∧ ∀ i, 0 <= i < vocab → logit second i = if suppressed config step i then neg_inf else logit logits i) as [Hl2 H2].
  { unfold second. assert (Forall (λ t, 0 <= t < Z.of_nat (length first)) (seqZ start (vocab - start))) as Ht.
    { apply Forall_forall. intros t Ht%elem_of_seqZ. lia. }
    split; [destruct (suppress_all eos _ first 0 Ht ltac:(lia)) as [-> _]; done|]. intros i Hi.
    destruct (suppress_all eos _ first i Ht ltac:(lia)) as [_ ->]. rewrite H1 by done. unfold suppressed. fold eos vocab.
    destruct (Z.eqb_spec i eos) as [->|Hne]; [by rewrite andb_false_r|]. rewrite andb_true_r. cbn [andb].
    erewrite (bool_decide_ext _ (vocab - 1024 <= i)) by (rewrite elem_of_seqZ; lia). by destruct (bool_decide_reflect (vocab - 1024 <= i)) as [H|H], (Z.leb_spec (vocab - 1024) i); try lia. }
  clearbody second. unfold processed. destruct (feqb rp fone) eqn:E1.
  - f_equal. by apply list_of_logits; [lia|].
  - destruct Hrp as [Hrp|Hrp]; [done|]. rewrite Hrp. assert (vocab = Z.of_nat (length second)) as Ev by lia. f_equal.
    apply list_of_logits; [by rewrite penalize_seen_length|]. intros i Hi. rewrite Ev, penalize_seen_logit by lia.
    rewrite (bool_decide_eq_false_2 (i ∈ ∅)), andb_true_r by set_solver. by rewrite H2.
Qed.
End processors.

(** * The greedy choice *)

Section greedy.
Context {Float : Type} (fltb : Float → Float → bool) (fzero : Float).
Notation logit := (logit fzero).

(** The loop keeps a position that nothing before it exceeds. *)
Lemma argmax_loop_spec (values : list Float) rest i best :
  (∀ x y z, x ∈ values → y ∈ values → z ∈ values → fltb x y = false → fltb y z = false → fltb x z = false) →
  (∀ x y, x ∈ values → y ∈ values → fltb x y = true → fltb y x = false) →
  drop i values = rest → (best < i)%nat → (i <= length values)%nat →
  (∀ j, (j < i)%nat → fltb (nth best values fzero) (nth j values fzero) = false) →
  let best' := argmax_loop fltb fzero values i best rest in
  (best' < length values)%nat ∧ ∀ j, (j < length values)%nat → fltb (nth best' values fzero) (nth j values fzero) = false.
Proof.
  intros Htrans Hasym. revert i best. induction rest as [|value rest IH]; intros i best Hd Hb Hi Hbest; cbn [argmax_loop].
  - apply (f_equal length) in Hd. rewrite length_drop in Hd. cbn in Hd. split; [lia|]. intros j Hj. apply Hbest. lia.
  - assert (nth i values fzero = value ∧ (i < length values)%nat) as [Hv Hlt].
    { pose proof (f_equal length Hd) as Hl. rewrite length_drop in Hl. cbn in Hl. split; [|lia].
      rewrite <- (take_drop i values), Hd, app_nth2; rewrite length_take_le by lia; [|lia]. by rewrite Nat.sub_diag. }
    assert (∀ j, (j < length values)%nat → nth j values fzero ∈ values) as Hin by (intros; apply list_elem_of_In, nth_In; lia).
    assert (drop (S i) values = rest) as Hd' by (rewrite <- Nat.add_1_r, <- drop_drop, Hd; done).
    apply IH; [done|destruct (fltb _ _); lia|lia|]. intros j Hj.
    destruct (fltb (nth best values fzero) value) eqn:E.
    + destruct (decide (j = i)) as [->|Hne].
      * destruct (fltb (nth i values fzero) (nth i values fzero)) eqn:Ei; [|done]. by rewrite (Hasym _ _ (Hin i Hlt) (Hin i Hlt) Ei) in Ei.
      * rewrite <- Hv in E. apply (Htrans _ (nth best values fzero)); [apply Hin; lia..| |apply Hbest; lia].
        apply Hasym; [apply Hin; lia..|done].
    + destruct (decide (j = i)) as [->|Hne]; [by rewrite Hv|apply Hbest; lia].
Qed.

(** The greedy choice is a code that no other exceeds. *)
Lemma argmax_index_best (values : list Float) :
  (∀ x y z, x ∈ values → y ∈ values → z ∈ values → fltb x y = false → fltb y z = false → fltb x z = false) →
  (∀ x y, x ∈ values → y ∈ values → fltb x y = true → fltb y x = false) → values ≠ [] →
  ∃ code, argmax_index fltb fzero values = Ok code ∧ 0 <= code < Z.of_nat (length values) ∧
    ∀ j, 0 <= j < Z.of_nat (length values) → fltb (logit values code) (logit values j) = false.
Proof.
  intros Htrans Hasym Hne. destruct values as [|v rest]; [done|]. cbn [argmax_index]. eexists. split; [done|].
  destruct (argmax_loop_spec (v :: rest) rest 1 0 Htrans Hasym) as [H1 H2]; [done|lia|cbn; lia| |].
  - intros j Hj. assert (j = 0)%nat as -> by lia. cbn [nth]. destruct (fltb v v) eqn:E; [|done].
    by rewrite (Hasym v v (list_elem_of_here _ _) (list_elem_of_here _ _) E) in E.
  - split; [lia|]. intros j Hj. unfold TalkerSampler.logit. rewrite Nat2Z.id. apply H2. lia.
Qed.
End greedy.

(** * The first code of a frame *)

Section first_code.
Context {Float Double Rng : Type}.
Context (fltb feqb : Float → Float → bool) (is_finite : Float → bool) (fzero fone neg_inf : Float) (fmul fdiv fsub : Float → Float → Float).
Context (to_double : Float → Double) (dexp : Double → Double) (dadd ddiv : Double → Double → Double) (dltb deqb : Double → Double → bool)
        (dzero dneg_inf : Double).
Context (sort : ∀ A, (A → A → bool) → list A → list A) {sorts : StdSort sort}.
Context (distribution : list Double → Rng → nat * Rng).
Context (of_u32 : Z → Float) (fadd : Float → Float → Float) (log_ neg : Float → Float) (kInvTwoPow32 half : Float).
Context (lt_asym : ∀ x y, is_finite x = true → is_finite y = true → fltb x y = true → fltb y x = false).
Context (lt_negtrans : ∀ x y z, is_finite x = true → is_finite y = true → is_finite z = true →
           fltb x y = false → fltb y z = false → fltb x z = false).
Context (draw_in_range : ∀ weights rng, weights ≠ [] → ((distribution weights rng).1 < length weights)%nat).
(** Infinities and NaNs stay what they are under multiplication and division. *)
Context (inf_not_finite : is_finite neg_inf = false).
Context (mul_finite : ∀ x y, is_finite (fmul x y) = true → is_finite x = true).
Context (div_finite : ∀ x y, is_finite (fdiv x y) = true → is_finite x = true).

Lemma processed_finite logits config codes step rp token :
  is_finite (processed fltb feqb fzero fone neg_inf fmul fdiv logits config codes step rp token) = true → suppressed config step token = false.
Proof.
  unfold processed. destruct (suppressed config step token); [|done]. destruct (feqb rp fone); [by rewrite inf_not_finite|].
  destruct (bool_decide _); [|by rewrite inf_not_finite]. unfold penalize.
  destruct (fltb _ _); [intros H%mul_finite|intros H%div_finite]; by rewrite inf_not_finite in H.
Qed.

(** C13. A sampled first code is a code of the codec or the end of speech, and never
    the end in the first two steps, whatever the network answers. *)
Theorem first_code_allowed logits config codes step rp top_k top_p temperature rng policy seed call_index processed_logits code rng' :
  apply_main_talker_processors fltb feqb fzero fone neg_inf fmul fdiv logits config codes step rp = Ok processed_logits →
  sample_index fltb feqb is_finite fzero fone fmul fdiv fsub to_double dexp dadd ddiv dltb deqb dzero dneg_inf sort distribution
     of_u32 fadd log_ neg kInvTwoPow32 half processed_logits top_k top_p temperature rng policy seed call_index = Ok (code, rng') →
  0 <= code < vocab_size config ∧ (code = codec_eos_token_id config ∨ code < vocab_size config - 1024) ∧
  (step < 2 → code ≠ codec_eos_token_id config).
Proof.
  intros Hp Hs. assert (Z.of_nat (length logits) = vocab_size config ∧ (feqb rp fone = true ∨ fle fltb feqb rp fzero = false)) as [Hv Hrp].
  { unfold apply_main_talker_processors in Hp. destruct (Z.eqb_spec (Z.of_nat (length logits)) (vocab_size config)); [|done].
    split; [done|]. cbn [negb] in Hp. destruct (feqb rp fone); [by left|]. destruct (fle _ _ _ _); [done|by right]. }
  rewrite processors_spec in Hp by done. injection Hp as <-.
  apply (sample_index_parts fltb feqb is_finite fzero fone fmul fdiv fsub to_double dexp dadd ddiv dltb deqb dzero dneg_inf sort distribution
     of_u32 fadd log_ neg kInvTwoPow32 half lt_asym lt_negtrans draw_in_range) in Hs as (Hr & Hf & _).
  rewrite length_map, length_seqZ in Hr. assert (0 <= code < vocab_size config) as Hc by lia. split; [done|].
  unfold logit in Hf. rewrite nth_lookup, list_lookup_fmap, lookup_seqZ_lt in Hf by lia. cbn in Hf.
  rewrite Z2Nat.id, Z.add_0_l in Hf by lia. apply processed_finite in Hf. unfold suppressed in Hf.
  destruct (Z.eqb_spec code (codec_eos_token_id config)) as [He|He].
  - apply Z.ltb_ge in Hf. split; [by left|lia].
  - apply Z.leb_gt in Hf. split; [by right|done].
Qed.
End first_code.

(** * Examples *)

Module Choices.

(** Integers for numbers, with an infinity below all. *)
Definition lowest : Z := -1000000.
Definition finite (x : Z) : bool := lowest <? x.
Definition times (x y : Z) : Z := if finite x then Z.max lowest (x * y) else lowest.
Definition over (x y : Z) : Z := if finite x then Z.max lowest (x / y) else lowest.

Definition first_of (weights : list Z) (rng : nat) : nat * nat := (rng mod length weights, S rng)%nat.

Definition config : Qwen3TTSTalkerConfig :=
  {| hidden_size := 2; text_hidden_size := 2; num_code_groups := 2; vocab_size := 1028; codec_bos_id := 1025; codec_eos_token_id := 1026;
     codec_think_id := 0; codec_nothink_id := 0; codec_pad_id := 0; codec_think_bos_id := 0; codec_think_eos_id := 0;
     codec_language_id := ∅; speaker_id := ∅; speaker_dialect := ∅ |}.

Notation processors := (apply_main_talker_processors Z.ltb Z.eqb 0 1 lowest times over).
Notation sample := (sample_index Z.ltb Z.eqb finite 0 1 times over Z.sub id (λ x, x + 1000) Z.add Z.div Z.ltb Z.eqb 0 lowest insertion_sort first_of
                      id Z.add id id 1 0).

(** Four codes of the codec and 1024 special ones; the end is the most likely. *)
Definition logits : list Z := [5; 9; 8; 9] ++ replicate 1024 100.

Lemma processors_spec_witness :
  processors logits config [1; 1] 0 2 = Ok ([5; 4; 8; 9] ++ replicate 1024 lowest).
Proof.
  rewrite (processors_spec Z.ltb Z.eqb 0 1 lowest times over logits config [1; 1] 0 2); [|by vm_compute|by right].
  by vm_compute.
Defined.

Lemma lawful_draws weights rng : weights ≠ [] → ((first_of weights rng).1 < length weights)%nat.
Proof. destruct weights; [done|]. intros _. apply Nat.mod_upper_bound. discriminate. Qed.

Lemma sample_index_best_witness :
  sample [5; 9; 8; 9] 2 1 1 3%nat default_policy 7 0 = Ok (3, 4%nat) ∧
  Z.of_nat (length (List.filter (λ j, 9 <? logit 0 [5; 9; 8; 9] j) (finite_indices finite 0 [5; 9; 8; 9]))) < 2.
Proof.
  split; [by vm_compute|].
  destruct (sample_index_best Z.ltb Z.eqb finite 0 1 times over Z.sub id (λ x, x + 1000) Z.add Z.div Z.ltb Z.eqb 0 lowest insertion_sort first_of
              id Z.add id id 1 0 ltac:(lia) ltac:(lia) lawful_draws [5; 9; 8; 9] 2 1 1 3%nat default_policy 7 0) as [H _].
  destruct (H 3 4%nat) as (_ & _ & Hk); [by vm_compute|]. by apply Hk.
Defined.

Lemma finite_lowest : finite lowest = false.
Proof. done. Qed.

Lemma times_finite x y : finite (times x y) = true → finite x = true.
Proof. unfold times. destruct (finite x) eqn:E; [done|by rewrite finite_lowest]. Qed.

Lemma over_finite x y : finite (over x y) = true → finite x = true.
Proof. unfold over. destruct (finite x) eqn:E; [done|by rewrite finite_lowest]. Qed.

(** In the first step the end is not chosen though it is the most likely. *)
Lemma first_code_allowed_witness :
  ∃ processed_logits code rng',
    processors logits config [] 0 2 = Ok processed_logits ∧ sample processed_logits 50 1 1 2%nat default_policy 7 0 = Ok (code, rng') ∧
    code ≠ codec_eos_token_id config.
Proof.
  do 3 eexists. split; [vm_compute; reflexivity|]. split; [vm_compute; reflexivity|].
  eapply (first_code_allowed Z.ltb Z.eqb finite 0 1 lowest times over Z.sub id (λ x, x + 1000) Z.add Z.div Z.ltb Z.eqb 0 lowest insertion_sort first_of
            id Z.add id id 1 0 ltac:(lia) ltac:(lia) lawful_draws finite_lowest times_finite over_finite
            logits config [] 0 2 50 1 1 2%nat default_policy 7 0); [vm_compute; reflexivity|vm_compute; reflexivity|lia].
Defined.

Example greedy : argmax_index Z.ltb 0 [5; 9; 8; 9] = Ok 1.
Proof. done. Qed.

End Choices.
