(* ===== verification/TalkerCache.v ===== *)
(** The key/value rows of the speech model on the device: what the graphs write into
    the tensors of a [TransformerKVCache] (KVCache), and the growth of the cache
    through the host, in terms of the rows the cache holds. *)

From stdpp Require Import gmap.
From S2P Require Import Prelude FlowCache KVCache.

#[local] Open Scope Z_scope.

Section step_cache.
Context {Float : Type} (zero : Float) (stored : ggml_type → Float → Float).

Notation device := (gmap nat (list Float)).

(** Keys and values of each layer. *)
Notation KV := (list (list Float * list Float)).

(** * What graphs write *)

(** The tensors of a cache in a buffer of their own: key and value of each layer in turn. *)
Definition cache_tensor (elems : Z) (buffer : nat) : TensorValue :=
  {| buffer := buffer; tensor_name := []; num_elements := elems; tensor_type := GGML_TYPE_F32 |}.

Definition cleared (layers : nat) (elems : Z) : device :=
  list_to_map (map (λ i, (i, replicate (Z.to_nat elems) zero)) (seq 0 (2 * layers))).

(** A new cache of [cache_steps] rows, its buffer cleared. *)
Definition make_step_cache (layers : nat) (step_elems cache_steps : Z) : outcome TransformerKVCache :=
  let elems := cache_steps * step_elems in
  make_cache zero cache_steps step_elems
    (map (λ i, cache_tensor elems (2 * i)) (seq 0 layers)) (map (λ i, cache_tensor elems (2 * i + 1)) (seq 0 layers))
    {| allow_f16_storage := false; allow_bf16_storage := false |} (cleared layers elems).

Definition patch (offset : nat) (data old : list Float) : list Float :=
  take offset old ++ data ++ drop (offset + length data) old.

(** A copy into a view of a tensor. *)
Definition write_view (t : TensorValue) (offset : nat) (data : list Float) (d : device) : device :=
  <[buffer t := patch offset data (read_tensor t d)]> d.

Fixpoint write_layers (ts : list (TensorValue * TensorValue)) (offset : nat) (rows : KV) (d : device) : device :=
  match ts, rows with
  | (k, v) :: ts, (key, value) :: rows => write_layers ts offset rows (write_view v offset value (write_view k offset key d))
  | _, _ => d
  end.

Definition with_memory (c : TransformerKVCache) (d : device) : TransformerKVCache :=
  {| cache_steps_ := cache_steps_ c; step_elems_ := step_elems_ c; valid_steps_ := valid_steps_ c; current_end_ := current_end_ c;
     options_ := options_ c; layers_ := layers_ c; memory := d |}.

Definition write_rows (offset : Z) (rows : KV) (c : TransformerKVCache) : TransformerKVCache :=
  with_memory c (write_layers (tensors (layers_ c)) (Z.to_nat offset) rows (memory c)).

(** The rows that the mask shows. *)
Definition visible (c : TransformerKVCache) : KV :=
  let n := Z.to_nat (valid_steps_ c * step_elems_ c) in
  map (λ kv, (take n (read_tensor kv.1 (memory c)), take n (read_tensor kv.2 (memory c)))) (tensors (layers_ c)).

(** * What the cache holds *)

(** Every layer has [n] elements. *)
Definition sized (layers n : nat) (kv : KV) : Prop := length kv = layers ∧ Forall (λ r, length r.1 = n ∧ length r.2 = n) kv.

Definition append_rows (kv rows : KV) : KV := zip_with (λ a b, (a.1 ++ b.1, a.2 ++ b.2)) kv rows.

Definition contents (ts : list (TensorValue * TensorValue)) (d : device) : KV :=
  map (λ kv, (read_tensor kv.1 d, read_tensor kv.2 d)) ts.

Record step_cache (layers : nat) (step_elems cache_steps : Z) (c : TransformerKVCache) : Prop := {
  cache_well_formed : well_formed c;
  cache_f32 : Forall (λ kv, tensor_type kv.1 = GGML_TYPE_F32 ∧ tensor_type kv.2 = GGML_TYPE_F32) (tensors (layers_ c));
  cache_steps_eq : cache_steps_ c = cache_steps;
  cache_elems_eq : step_elems_ c = step_elems;
  cache_positive : 0 < cache_steps ∧ (0 < layers)%nat;
  cache_sized : sized layers (Z.to_nat (cache_steps * step_elems)) (contents (tensors (layers_ c)) (memory c));
  cache_valid : 0 <= valid_steps_ c <= cache_steps;
  cache_end : current_end_ c = valid_steps_ c;
}.

Lemma write_layers_other ts offset rows (d : device) b : b ∉ buffers ts → write_layers ts offset rows d !! b = d !! b.
Proof.
  revert rows d. induction ts as [|[k v] ts IH]; intros [|[key value] rows] d Hb; cbn [write_layers]; try done.
  cbn in Hb. rewrite !not_elem_of_cons in Hb. destruct Hb as (H1 & H2 & H3). rewrite IH by done. unfold write_view.
  by rewrite !lookup_insert_ne by done.
Qed.

Lemma read_other t (d d' : device) : d' !! buffer t = d !! buffer t → read_tensor t d' = read_tensor t d.
Proof. unfold read_tensor. by intros ->. Qed.

Lemma read_write_view t offset data d : read_tensor t (write_view t offset data d) = patch offset data (read_tensor t d).
Proof. unfold write_view. unfold read_tensor at 1. by rewrite lookup_insert_eq. Qed.

Lemma contents_other ts (d d' : device) : (∀ b, b ∈ buffers ts → d' !! b = d !! b) → contents ts d' = contents ts d.
Proof.
  intros H. unfold contents. apply map_ext_in. intros [k v] Hin%list_elem_of_In.
  assert (buffer k ∈ buffers ts ∧ buffer v ∈ buffers ts) as [Hk Hv].
  { unfold buffers. rewrite !list_elem_of_In, !in_concat. split; exists [buffer k; buffer v];
      (split; [apply in_map_iff; exists (k, v); by rewrite <- list_elem_of_In|cbn; tauto]). }
  cbn. by rewrite !(read_other _ d d') by auto.
Qed.

Lemma contents_write ts offset rows d :
  NoDup (buffers ts) → length rows = length ts →
  contents ts (write_layers ts offset rows d) = zip_with (λ old new, (patch offset new.1 old.1, patch offset new.2 old.2)) (contents ts d) rows.
Proof.
  revert rows d. induction ts as [|[k v] ts IH]; intros [|[key value] rows] d Hnd Hl; try done.
  cbn in Hnd. rewrite !NoDup_cons, not_elem_of_cons in Hnd. destruct Hnd as ((Hkv & Hk) & Hv & Hnd).
  cbn [write_layers contents map zip_with fst snd]. fold (contents ts). f_equal.
  - f_equal; (rewrite (read_other _ (write_view v offset value (write_view k offset key d))); [|by apply write_layers_other]).
    + rewrite (read_other _ (write_view k offset key d)); [apply read_write_view|]. unfold write_view at 1. by rewrite lookup_insert_ne by done.
    + rewrite read_write_view. f_equal. apply read_other. unfold write_view. by rewrite lookup_insert_ne by done.
  - cbn in Hl. etrans; [apply IH; [done|lia]|]. f_equal. apply contents_other. intros b Hb. unfold write_view.
    by rewrite !lookup_insert_ne by (intros <-; done).
Qed.

Lemma patch_length offset data old : (offset + length data <= length old)%nat → length (patch offset data old) = length old.
Proof. intros H. unfold patch. rewrite !length_app, length_take, length_drop. lia. Qed.

Lemma visible_contents c :
  visible c = map (λ r, (take (Z.to_nat (valid_steps_ c * step_elems_ c)) r.1, take (Z.to_nat (valid_steps_ c * step_elems_ c)) r.2))
                (contents (tensors (layers_ c)) (memory c)).
Proof. unfold visible, contents. by rewrite map_map. Qed.

Lemma visible_sized layers e s c : step_cache layers e s c → sized layers (Z.to_nat (valid_steps_ c * e)) (visible c).
Proof.
  intros [Hwf _ Hs He Hp [Hl Hf] Hv _]. rewrite visible_contents. split; [by rewrite length_map|].
  destruct Hwf as (el & _ & _ & _ & Hpos & _).
  apply Forall_map. eapply Forall_impl; [exact Hf|]. intros r [H1 H2]. cbn. rewrite !length_take, He in *. nia.
Qed.

Lemma take_patch offset data old :
  (offset <= length old)%nat → take (offset + length data) (patch offset data old) = take offset old ++ data.
Proof.
  intros H. unfold patch. rewrite app_assoc. apply take_app_length'. rewrite length_app, length_take. lia.
Qed.

Lemma map_zip_with_eq {A B C D} (f : C → D) (g : A → B → C) (h : A → B → D) l k :
  (∀ i a b, l !! i = Some a → k !! i = Some b → f (g a b) = h a b) → map f (zip_with g l k) = zip_with h l k.
Proof.
  revert k. induction l as [|a l IH]; intros [|b k] H; cbn; try done. f_equal; [by apply (H 0%nat)|].
  apply IH. intros i. apply (H (S i)).
Qed.

(** Writing rows and moving the counters. *)
Lemma write_rows_step layers e s c offset rows n m :
  step_cache layers e s c → 0 <= m → 0 <= offset → offset + m <= s → sized layers (Z.to_nat (m * e)) rows → n = offset + m →
  ∀ c', c' = {| cache_steps_ := cache_steps_ c; step_elems_ := step_elems_ c; valid_steps_ := n; current_end_ := n; options_ := options_ c;
                layers_ := layers_ c; memory := write_layers (tensors (layers_ c)) (Z.to_nat (offset * e)) rows (memory c) |} →
  step_cache layers e s c' ∧
  visible c' = zip_with (λ old new, (take (Z.to_nat (offset * e)) old.1 ++ new.1, take (Z.to_nat (offset * e)) old.2 ++ new.2))
                 (contents (tensors (layers_ c)) (memory c)) rows.
Proof.
  intros [Hwf H32 Hs He Hp [Hl Hf] Hv Hend] Hm Ho Hle [Hrl Hrf] -> c' ->.
  pose proof Hwf as (el & Hel & Hlt & H0 & Hpos & Hnd & Hfit & Hscr). rewrite He in Hpos.
  assert (length rows = length (tensors (layers_ c))) as Hlen by (unfold contents in Hl; rewrite length_map in Hl; lia).
  rewrite Forall_lookup in Hf, Hrf.
  assert (∀ i old new, contents (tensors (layers_ c)) (memory c) !! i = Some old → rows !! i = Some new →
            (Z.to_nat (offset * e) + length new.1 <= length old.1)%nat ∧ (Z.to_nat (offset * e) + length new.2 <= length old.2)%nat ∧
            length new.1 = Z.to_nat (m * e) ∧ length new.2 = Z.to_nat (m * e)) as Hsize.
  { intros i old new Hold Hnew. destruct (Hf _ _ Hold) as [-> ->]. destruct (Hrf _ _ Hnew) as [-> ->].
    rewrite <- Z2Nat.inj_add by nia. split_and!; try done; apply Z2Nat.inj_le; nia. }
  split.
  - split; cbn [cache_steps_ step_elems_ valid_steps_ current_end_ options_ layers_ memory]; try done; [|lia].
    rewrite contents_write by done. split; [rewrite length_zip_with; lia|].
    apply Forall_lookup. intros i r Hr. apply lookup_zip_with_Some in Hr as (old & new & -> & Hold & Hnew). cbn [fst snd].
    destruct (Hsize _ _ _ Hold Hnew) as (H1 & H2 & _). rewrite !patch_length by done. by apply (Hf i).
  - rewrite visible_contents. cbn [valid_steps_ step_elems_ layers_ memory]. rewrite contents_write by done.
    apply map_zip_with_eq. intros i old new Hold Hnew. destruct (Hsize _ _ _ Hold Hnew) as (H1 & H2 & L1 & L2). cbn [fst snd].
    rewrite He, Z.mul_add_distr_r, Z2Nat.inj_add by nia. rewrite <- L1 at 1. rewrite take_patch by lia. rewrite <- L2, take_patch by lia. done.
Qed.

(** Copying the rows of a prompt and marking them valid. *)
Lemma transfer_step layers e s c steps rows :
  step_cache layers e s c → 0 <= steps <= s → sized layers (Z.to_nat (steps * e)) rows →
  ∃ c', mark_device_import steps (write_rows 0 rows c) = (Ok tt, c') ∧ step_cache layers e s c' ∧ visible c' = rows ∧ valid_steps_ c' = steps.
Proof.
  intros Hc Hs Hr. pose proof (cache_steps_eq _ _ _ _ Hc) as Es. unfold mark_device_import. rewrite io_bind_get. cbn [write_rows with_memory cache_steps_].
  rewrite Es, (proj2 (Z.ltb_ge steps 0)), (proj2 (Z.ltb_ge s steps)) by lia. cbn [orb]. eexists. split; [done|].
  edestruct (write_rows_step layers e s c 0 rows steps steps) as [H1 H2]; [done|lia|lia|lia|done|lia|reflexivity|].
  split_and!; [exact H1| |done]. etrans; [exact H2|]. destruct Hc as [_ _ _ _ _ [Hl _] _ _]. destruct Hr as [Hr _].
  rewrite <- Hr in Hl. clear -Hl. revert Hl. generalize (contents (tensors (layers_ c)) (memory c)). change (Z.to_nat (0 * e)) with 0%nat.
  induction rows as [|[k v] rows IH]; intros [|r l] Hl; cbn in *; try done. f_equal. apply IH. lia.
Qed.

Lemma set_counters layers e s c n :
  step_cache layers e s c → 0 <= n <= s →
  step_cache layers e s {| cache_steps_ := cache_steps_ c; step_elems_ := step_elems_ c; valid_steps_ := n; current_end_ := n;
                           options_ := options_ c; layers_ := layers_ c; memory := memory c |}.
Proof. intros [Hwf H32 Hs He Hp Hsz Hv Hend] Hn. by split. Qed.

(** A row behind the valid ones that is not counted. *)
Lemma spare_row layers e s c row :
  step_cache layers e s c → valid_steps_ c < s → sized layers (Z.to_nat e) row →
  step_cache layers e s (write_rows (valid_steps_ c * e) row c).
Proof.
  intros Hc Hlt Hr. pose proof (cache_valid _ _ _ _ Hc) as Hv. pose proof (cache_end _ _ _ _ Hc) as Hend.
  edestruct (write_rows_step layers e s c (valid_steps_ c) row (valid_steps_ c + 1) 1) as [H1 _];
    [done|lia|lia|lia|by rewrite Z.mul_1_l|lia|reflexivity|].
  apply (set_counters _ _ _ _ (valid_steps_ c)) in H1; [|lia]. cbn in H1. unfold write_rows, with_memory. by rewrite Hend.
Qed.

(** One step: its row behind the valid ones, then the advance. *)
Lemma append_step layers e s c row :
  step_cache layers e s c → valid_steps_ c < s → sized layers (Z.to_nat e) row →
  ∃ c', advance_after_direct_append 1 (write_rows (valid_steps_ c * e) row c) = (Ok tt, c') ∧ step_cache layers e s c' ∧
    visible c' = append_rows (visible c) row ∧ valid_steps_ c' = valid_steps_ c + 1.
Proof.
  intros Hc Hlt Hr. pose proof (cache_steps_eq _ _ _ _ Hc) as Es. pose proof (cache_valid _ _ _ _ Hc) as Hv.
  pose proof (cache_end _ _ _ _ Hc) as He. pose proof (cache_elems_eq _ _ _ _ Hc) as Ee.
  unfold advance_after_direct_append. cbn [Z.leb Z.compare]. rewrite io_bind_get. cbn [write_rows with_memory cache_steps_ valid_steps_ current_end_].
  rewrite Es, He, (proj2 (Z.ltb_ge s _)) by lia. eexists. split; [done|].
  edestruct (write_rows_step layers e s c (valid_steps_ c) row (valid_steps_ c + 1) 1) as [H1 H2];
    [done|lia|lia|lia|by rewrite Z.mul_1_l|lia|reflexivity|].
  split_and!; [exact H1| |done]. etrans; [exact H2|]. unfold append_rows. rewrite visible_contents, Ee.
  generalize (contents (tensors (layers_ c)) (memory c)). clear. induction row as [|r row IH]; intros [|x l]; cbn; try done. f_equal. apply IH.
Qed.

(** The host copy of the valid rows. *)
Definition exported (c : TransformerKVCache) : TransformerKVState :=
  {| current_end := current_end_ c;
     layers := map (λ r, {| valid_steps := valid_steps_ c; key := r.1; value := r.2 |}) (visible c) |}.

Lemma step_cache_export layers e s c : step_cache layers e s c → export_state c = Ok (exported c).
Proof.
  intros [Hwf H32 Hs He Hp [Hl Hf] Hv Hend]. destruct Hwf as (el & Hel & Hlt & H0 & Hpos & Hnd & Hfit & Hscr).
  unfold export_state, exported, visible. rewrite !map_map.
  rewrite (traverse_ok _ _ (map (λ l, {| valid_steps := valid_steps_ c;
    key := take (Z.to_nat (valid_steps_ c * step_elems_ c)) (read_tensor (key_tensor l) (memory c));
    value := take (Z.to_nat (valid_steps_ c * step_elems_ c)) (read_tensor (value_tensor l) (memory c)) |}) (layers_ c))).
  { cbn [mbind outcome_bind]. do 2 f_equal. unfold tensors. by rewrite map_map. }
  apply Forall2_same_length_lookup_2; [by rewrite length_map|]. intros i l out Hli Hout.
  apply (list_lookup_fmap_Some_1 _ (layers_ c)) in Hout as (l' & -> & Hl'). assert (l' = l) as -> by congruence.
  unfold export_layer. assert (uwrap 64 (valid_steps_ c * step_elems_ c) = valid_steps_ c * step_elems_ c) as ->.
  { unfold uwrap. apply Z.mod_small. nia. }
  destruct (Z.eqb_spec (valid_steps_ c * step_elems_ c) 0) as [->|Hne]; [done|].
  rewrite Forall_lookup in Hfit. pose proof (Hfit _ _ (lookup_tensors _ _ _ Hli)) as Hfi.
  unfold read_cache_tensor. destruct (Hfi (key_tensor l) (or_introl eq_refl)) as [_ ->].
  destruct (Hfi (value_tensor l) (or_intror eq_refl)) as [_ ->]. done.
Qed.

(** Rows on the host, [steps] in each layer. *)
Definition rows_state (steps : Z) (kv : KV) : TransformerKVState :=
  {| current_end := steps; layers := map (λ r, {| valid_steps := steps; key := r.1; value := r.2 |}) kv |}.

(** A cache takes over rows from the host. *)
Lemma import_step layers e s' steps kv fresh :
  (∀ x, stored GGML_TYPE_F32 x = x) →
  sized layers (Z.to_nat (steps * e)) kv → step_cache layers e s' fresh → 0 <= steps <= s' →
  ∃ c', import_state zero stored (rows_state steps kv) fresh = (Ok tt, c') ∧ step_cache layers e s' c' ∧ visible c' = kv ∧
    valid_steps_ c' = steps.
Proof.
  intros Hst [Hvl Hvf] Hf Hle.
  destruct Hf as [Hwf H32 Hs He Hp [Hl Hfull] Hvf' Hend'].
  assert (0 < e) as He0 by (destruct Hwf as (el & _ & _ & _ & Hpos & _); lia).
  assert (length (layers_ fresh) = layers) as Hlf by (unfold contents, tensors in Hl; by rewrite !length_map in Hl).
  destruct (import_ok zero stored fresh (rows_state steps kv)) as (c' & n & E & Hwf' & Hn & Hce & Hnr & Hcs & Hse & Ho & Ht & Hg & Himp).
  { exact Hwf. }
  { unfold valid_state, rows_state. cbn [KVCache.layers]. rewrite length_map, Hvl. split; [lia|]. exists steps. split; [lia|].
    apply Forall_map. eapply Forall_impl; [exact Hvf|]. intros r [H1 H2]. unfold good_layer. cbn. rewrite He. split_and!; [done|lia|lia]. }
  assert (n = steps) as ->.
  { unfold rows_state in Hg. cbn [KVCache.layers] in Hg. destruct kv as [|r l]; [cbn in Hvl; lia|].
    by apply Forall_cons in Hg as [(? & _) _]. }
  rewrite Hs, He in Himp. specialize (Himp (proj1 Hp)).
  assert (∀ j r, contents (tensors (layers_ fresh)) (memory c') !! j = Some r → ∃ x, kv !! j = Some x ∧
            r = (x.1 ++ replicate (Z.to_nat (s' * e) - length x.1) zero, x.2 ++ replicate (Z.to_nat (s' * e) - length x.2) zero)) as Hread.
  { intros j r Hr. apply (list_lookup_fmap_Some_1 _ (tensors (layers_ fresh))) in Hr as ([k v] & -> & Hkv).
    destruct (lookup_lt_is_Some_2 kv j) as [x Hx]; [apply lookup_lt_Some in Hkv; unfold tensors in Hkv; rewrite length_map in Hkv; lia|].
    exists x. split; [done|]. destruct (Himp j {| valid_steps := steps; key := x.1; value := x.2 |} k v) as [Hk1 Hv1]; [|done|].
    { unfold rows_state. cbn [KVCache.layers]. change (map ?f kv) with (f <$> kv). by rewrite list_lookup_fmap, Hx. }
    unfold imported in Hk1, Hv1. cbn [key value] in *. rewrite Forall_lookup in H32. destruct (H32 _ _ Hkv) as [Hk32 Hv32]. cbn [fst snd] in *.
    rewrite Hk32 in Hk1. rewrite Hv32 in Hv1. unfold read_tensor. cbn [fst snd]. rewrite Hk1, Hv1. cbn [default from_option].
    assert (∀ l, map (stored GGML_TYPE_F32) l = l) as Hid by (intros l; rewrite (map_ext _ id) by done; apply map_id). by rewrite !Hid. }
  rewrite Forall_lookup in Hvf. exists c'. split; [done|].
  assert (length (contents (tensors (layers_ fresh)) (memory c')) = layers) as Hlc by (unfold contents, tensors; by rewrite !length_map).
  assert (∀ m, 0 <= m <= s' → (Z.to_nat (m * e) <= Z.to_nat (s' * e))%nat) as Hmono by (intros; apply Z2Nat.inj_le; nia).
  split_and!; [| |done].
  - split; rewrite ?Ht, ?Hcs, ?Hse, ?Hce, ?Hn; try done. split; [done|]. apply Forall_lookup. intros j r Hr.
    destruct (Hread j r Hr) as (x & Hx & ->). destruct (Hvf _ _ Hx) as [-> ->]. cbn [fst snd]. rewrite !length_app, !length_replicate.
    destruct (Hvf _ _ Hx) as [-> ->]. pose proof (Hmono steps). lia.
  - rewrite (visible_contents c'), Ht, Hn, Hse, He. apply list_eq. intros j. change (map ?f ?l) with (f <$> l). rewrite list_lookup_fmap.
    destruct (contents (tensors (layers_ fresh)) (memory c') !! j) as [r|] eqn:Er; cbn [fmap option_fmap option_map].
    + destruct (Hread j r Er) as (x & Hx & ->). destruct (Hvf _ _ Hx) as [L1 L2]. rewrite Hx. cbn [fst snd].
      rewrite <- L1 at 1. rewrite take_app_length. rewrite <- L2. rewrite take_app_length. by destruct x.
    + apply lookup_ge_None in Er. symmetry. apply lookup_ge_None. lia.
Qed.

(** A cache takes over the rows of a smaller one. *)
Lemma grow_step layers e s s' c fresh :
  (∀ x, stored GGML_TYPE_F32 x = x) →
  step_cache layers e s c → step_cache layers e s' fresh → valid_steps_ c <= s' →
  ∃ c', import_state zero stored (exported c) fresh = (Ok tt, c') ∧ step_cache layers e s' c' ∧ visible c' = visible c ∧
    valid_steps_ c' = valid_steps_ c.
Proof.
  intros Hst Hc Hf Hle. unfold exported. rewrite (cache_end _ _ _ _ Hc). pose proof (cache_valid _ _ _ _ Hc).
  apply (import_step layers e s'); [done|by apply visible_sized with s|done|lia].
Qed.

(** A new graph's cache is empty and ready. *)
Lemma make_layers_eq elems options ks vs :
  Forall (λ t, validate_cache_tensor t options = Ok tt) ks → Forall (λ t, validate_cache_tensor t options = Ok tt) vs →
  make_layers zero elems options ks vs =
  Ok (zip_with (λ k v, {| key_tensor := k; value_tensor := v; import_key_scratch := replicate (Z.to_nat elems) zero;
                          import_value_scratch := replicate (Z.to_nat elems) zero |}) ks vs).
Proof.
  intros Hk. revert vs. induction Hk as [|k ks Ek _ IH]; intros vs Hv; [done|]. destruct Hv as [|v vs Ev Hv]; [done|].
  cbn [make_layers]. rewrite Ek, Ev. cbn [mbind outcome_bind]. by rewrite IH.
Qed.

Lemma cleared_lookup layers elems i :
  (i < 2 * layers)%nat → cleared layers elems !! i = Some (replicate (Z.to_nat elems) zero).
Proof.
  intros Hi. unfold cleared. apply elem_of_list_to_map_1.
  - change (map ?f ?l) with (f <$> l). rewrite <- list_fmap_compose. apply NoDup_fmap_2; [by intros a b|apply NoDup_seq].
  - apply list_elem_of_In, in_map_iff. exists i. split; [done|]. apply in_seq. lia.
Qed.

Lemma fresh_tensors elems (scratch : list Float) l :
  tensors (zip_with (λ k v, {| key_tensor := k; value_tensor := v; import_key_scratch := scratch; import_value_scratch := scratch |})
    (map (λ i, cache_tensor elems (2 * i)) l) (map (λ i, cache_tensor elems (2 * i + 1)) l)) =
  map (λ i, (cache_tensor elems (2 * i), cache_tensor elems (2 * i + 1))) l.
Proof. induction l as [|i l IH]; [done|]. cbn [map zip_with tensors key_tensor value_tensor]. f_equal. exact IH. Qed.

Lemma fresh_buffers elems start n :
  buffers (map (λ i, (cache_tensor elems (2 * i), cache_tensor elems (2 * i + 1))) (seq start n)) = seq (2 * start) (2 * n).
Proof.
  revert start. induction n as [|n IH]; intros start; [done|]. replace (2 * S n)%nat with (S (S (2 * n))) by lia.
  cbn [seq map]. unfold buffers in *. cbn [map concat fst snd buffer cache_tensor app]. rewrite IH.
  do 2 f_equal; [lia|]. f_equal. lia.
Qed.

Lemma fresh_step layers e s :
  (0 < layers)%nat → 0 < e → 0 < s → s * e < 2 ^ 64 →
  ∃ c, make_step_cache layers e s = Ok c ∧ step_cache layers e s c ∧ valid_steps_ c = 0.
Proof.
  intros HL He Hs Hlt. unfold make_step_cache, make_cache. rewrite !Z.max_r, (proj2 (Z.leb_gt e 0)), !length_map, Nat.eqb_refl by lia. cbn [negb].
  rewrite make_layers_eq; [|by apply Forall_map, Forall_true..]. cbn [mbind outcome_bind].
  assert (uwrap 64 (s * e) = s * e) as -> by (unfold uwrap; apply Z.mod_small; nia).
  eexists. split; [done|]. split; [|done]. split; cbn [cache_steps_ step_elems_ valid_steps_ current_end_ options_ layers_ memory]; try done; [| | |lia].
  - exists (Z.to_nat (s * e)). cbn [cache_steps_ step_elems_ valid_steps_ current_end_ options_ layers_ memory]. rewrite fresh_tensors, fresh_buffers.
    split_and!; try lia; [apply NoDup_seq| |].
    + apply Forall_map, Forall_true. intros i t [-> | ->]; (split; [cbn; lia|done]).
    + apply Forall_lookup. intros i l (k & v & -> & _)%lookup_zip_with_Some. cbn. by rewrite !length_replicate.
  - rewrite fresh_tensors. by apply Forall_map, Forall_true.
  - rewrite fresh_tensors. split; [unfold contents; by rewrite !length_map, length_seq|]. unfold contents. apply Forall_map, Forall_map.
    apply Forall_forall. intros i Hi%elem_of_seq. cbn [fst snd]. unfold read_tensor. cbn [buffer cache_tensor].
    rewrite !cleared_lookup by lia. cbn. by rewrite !length_replicate.
Qed.
End step_cache.
