(* ===== verification/Talker.v ===== *)
(** The generation of speech codes (library, models/qwen3_tts/talker.cpp): the code
    predictor, the graphs of prompt and step with the caches between requests, and
    the loop over frames; shown to compute what the networks compute with no cache
    at all. *)

From stdpp Require Import gmap.
From S2P Require Import Prelude FlowCache KVCache CacheSlots SpeechDecoder TorchRandom StdSort TalkerPrompt TalkerSampler TalkerCache.

#[local] Open Scope Z_scope.

(** * Parameters *)

(** [float] and [double], the C and C++ libraries and ggml, as far as they are used. *)
Class Numbers (Float Double Rng : Type) := {
  fltb : Float → Float → bool; feqb : Float → Float → bool; is_finite : Float → bool;
  fzero : Float; fone : Float; neg_inf : Float; half : Float; kInvTwoPow32 : Float;
  fadd : Float → Float → Float; fmul : Float → Float → Float; fdiv : Float → Float → Float; fsub : Float → Float → Float;
  fneg : Float → Float; fexp : Float → Float; flog : Float → Float; of_u32 : Z → Float;
  to_double : Float → Double; dexp : Double → Double; dadd : Double → Double → Double; ddiv : Double → Double → Double;
  dltb : Double → Double → bool; deqb : Double → Double → bool; dzero : Double; dneg_inf : Double;
  sort_ : ∀ A, (A → A → bool) → list A → list A;
  distribution_ : list Double → Rng → nat * Rng;
  mt19937 : Z → Rng;
  ggml_row_size : ggml_type → Z → Z;
  row_to_f32 : ggml_type → bytes → Z → list Float;
  stored : ggml_type → Float → Float;
}.

Record Qwen3TalkerPrefillResult {Float} := { logits : list Float; last_hidden : @Qwen3SpeakerEmbedding Float }.
Arguments Qwen3TalkerPrefillResult : clear implicits.

(** Keys and values of each layer, a row or several. *)
Notation KV Float := (list (list Float * list Float)).

(** What the graphs compute, and what they leave in their outputs when the backend
    reports a failure. [Row] is a row of the predictor's caches. *)
Class Networks (Float Row : Type) := {
  prefill_network : list Float → outcome (Qwen3TalkerPrefillResult Float) * KV Float;
  step_network : KV Float → Z → list Float → outcome (Qwen3TalkerPrefillResult Float) * KV Float;
  predictor_prefill : list Float → outcome (list Float) * (Row * Row);
  predictor_step : nat → list Row → Z → list Float → outcome (list Float) * Row;
}.

Record Qwen3TTSGenerationOptions {Float} := {
  max_new_tokens : Z;
  do_sample : bool; top_k : Z; top_p : Float; temperature : Float;
  subtalker_do_sample : bool; subtalker_top_k : Z; subtalker_top_p : Float; subtalker_temperature : Float;
  seed : Z;
}.
Arguments Qwen3TTSGenerationOptions : clear implicits.

Section talker.
Context {Float Double Rng Row : Type} `{!Numbers Float Double Rng} `{!Networks Float Row}.
Context (no_row : Row).
(** The weights runtime. *)
Context (root_config : Qwen3TTSConfig) (weights : @Qwen3TalkerWeights Float) (sampling_policy : TorchCudaSamplingPolicy).
Context (num_hidden_layers : nat) (row_elems : Z).

Notation config := (talker root_config).
Notation Result := (Qwen3TalkerPrefillResult Float).
Notation Options := (Qwen3TTSGenerationOptions Float).
Notation lookup_rows := (lookup_rows ggml_row_size row_to_f32).
Notation Request := (@Qwen3TalkerPrefill Float).

(** [sample_index] or [argmax_index], with the count of calls that sampled. *)
Definition choose (sampled : bool) (values : list Float) (top_k : Z) (top_p temperature : Float) (seed : Z) (rng : Rng) (sample_call_index : Z) :
    outcome (Z * Rng * Z) :=
  if sampled then
    choice ← sample_index fltb feqb is_finite fzero fone fmul fdiv fsub to_double dexp dadd ddiv dltb deqb dzero dneg_inf sort_ distribution_
               of_u32 fadd flog fneg kInvTwoPow32 half values top_k top_p temperature rng sampling_policy seed sample_call_index;
    Ok (choice, uwrap 64 (sample_call_index + 1))
  else
    code ← argmax_index fltb fzero values;
    Ok (code, rng, sample_call_index).

(** * The code predictor *)

Record CodePredictorGraph := { predictor_valid_steps_ : Z; predictor_current_end_ : Z; predictor_rows : list Row }.

Definition make_predictor : outcome CodePredictorGraph :=
  if num_code_groups config <=? 1 then Throw (str "Qwen3 code predictor requires multiple code groups")
  else Ok {| predictor_valid_steps_ := 0; predictor_current_end_ := 0; predictor_rows := replicate (Z.to_nat (num_code_groups config)) no_row |}.

Definition make_prefill_embeddings (talker_hidden : @Qwen3SpeakerEmbedding Float) (first_code : Z) : outcome (list Float) :=
  if negb (dims talker_hidden =? hidden_size config) || negb (Z.of_nat (length (values talker_hidden)) =? hidden_size config) then
    Throw (str "Qwen3 code predictor talker hidden shape mismatch")
  else if (first_code <? 0) || (vocab_size config <=? first_code) then Throw (str "Qwen3 code predictor first code out of range")
  else
    code_embed ← lookup_rows (codec_embedding weights) (hidden_size config) [first_code];
    Ok (values talker_hidden ++ code_embed).

Definition run_prefill (embeddings : list Float) : io CodePredictorGraph (list Float) := λ p,
  if negb (Z.of_nat (length embeddings) =? 2 * hidden_size config) then
    (Throw (str "Qwen3 code predictor prefill embedding size mismatch"), p)
  else
    let '(status, (row0, row1)) := predictor_prefill embeddings in
    let rows := <[1%nat := row1]> (<[0%nat := row0]> (predictor_rows p)) in
    match status with
    | Throw e => (Throw e, {| predictor_valid_steps_ := predictor_valid_steps_ p; predictor_current_end_ := predictor_current_end_ p; predictor_rows := rows |})
    | Ok values => (Ok values, {| predictor_valid_steps_ := 2; predictor_current_end_ := 2; predictor_rows := rows |})
    end.

(** The mask shows the valid rows; the row of the step is written behind them. *)
Definition predictor_run_step (group : Z) (embedding : list Float) : io CodePredictorGraph (list Float) := λ p,
  let valid := predictor_valid_steps_ p in
  if (group <=? 0) || (num_code_groups config - 1 <=? group) then (Throw (str "Qwen3 code predictor step group out of range"), p)
  else if negb (Z.of_nat (length embedding) =? hidden_size config) then (Throw (str "Qwen3 code predictor step embedding size mismatch"), p)
  else if (valid <=? 0) || (num_code_groups config <=? valid) then (Throw (str "Qwen3 code predictor cache state is invalid for step"), p)
  else
    let '(status, row) := predictor_step (Z.to_nat (group - 1)) (take (Z.to_nat valid) (predictor_rows p)) (i32 (predictor_current_end_ p)) embedding in
    let rows := <[Z.to_nat valid := row]> (predictor_rows p) in
    match status with
    | Throw e => (Throw e, {| predictor_valid_steps_ := valid; predictor_current_end_ := predictor_current_end_ p; predictor_rows := rows |})
    | Ok values => (Ok values, {| predictor_valid_steps_ := valid + 1; predictor_current_end_ := predictor_current_end_ p + 1; predictor_rows := rows |})
    end.

(** [for (group = 1; group < code_groups_ - 1; ++group)], over the groups left. *)
Fixpoint predictor_loop (fuel : nat) (options : Options) (group code : Z) (codes : list Z) (rng : Rng) (sample_call_index : Z) :
    io CodePredictorGraph (list Z * Rng * Z) :=
  match fuel with
  | O => mret (codes, rng, sample_call_index)
  | S fuel =>
      row ← io_lift (match code_predictor_embeddings weights !! Z.to_nat (group - 1) with
                     | Some table => lookup_rows table (hidden_size config) [code]
                     | None => Throw (str "vector::_M_range_check")
                     end);
      values ← predictor_run_step group row;
      choice ← io_lift (choose (subtalker_do_sample options) values (subtalker_top_k options) (subtalker_top_p options)
                          (subtalker_temperature options) (seed options) rng sample_call_index);
      predictor_loop fuel options (group + 1) choice.1.1 (codes ++ [choice.1.1]) choice.1.2 choice.2
  end.

Definition predictor_generate (options : Options) (talker_hidden : @Qwen3SpeakerEmbedding Float) (first_code : Z) (rng : Rng) (sample_call_index : Z) :
    io CodePredictorGraph (list Z * Rng * Z) :=
  embeddings ← io_lift (make_prefill_embeddings talker_hidden first_code);
  values ← run_prefill embeddings;
  choice ← io_lift (choose (subtalker_do_sample options) values (subtalker_top_k options) (subtalker_top_p options)
                      (subtalker_temperature options) (seed options) rng sample_call_index);
  predictor_loop (Z.to_nat (num_code_groups config - 2)) options 1 choice.1.1 [first_code; choice.1.1] choice.1.2 choice.2.

(** * Frames *)

Definition frame_embedding (frame : list Z) (text_hidden : list Float) : outcome (list Float) :=
  if negb (Z.of_nat (length frame) =? num_code_groups config) then Throw (str "Qwen3 talker frame code group count mismatch")
  else if negb (Z.of_nat (length text_hidden) =? hidden_size config) then Throw (str "Qwen3 talker frame text hidden size mismatch")
  else sum_groups fadd ggml_row_size row_to_f32 weights config text_hidden 0 frame.

(** The loop of [generate], over whatever predicts a frame and advances the talker:
    the frames, each delivered before the next step is computed. *)
Section loop.
Context {S : Type} (predict : Options → @Qwen3SpeakerEmbedding Float → Z → Rng → Z → io S (list Z * Rng * Z)).
Context (advance : Z → list Float → io S Result).
(** The answers of the caller: cancelled before a step, and enough with these frames. *)
Context (cancelled : Z → bool) (on_frame : list (list Z) → bool).
Context (options : Options) (repetition_penalty : Float) (state : @PromptEmbeddingState Float).

Definition text_hidden_at (step : Z) : list Float :=
  if step <? row_count (trailing_text state) (hidden_size config) then row_at (trailing_text state) step (hidden_size config) else tts_pad state.

Fixpoint generate_loop (fuel : nat) (step : Z) (current : Result) (generated_first_codes : list Z) (frames : list (list Z))
    (rng : Rng) (sample_call_index : Z) : io S (list (list Z)) :=
  match fuel with
  | O => mret frames
  | Datatypes.S fuel =>
      if cancelled step then mret frames
      else
        values ← io_lift (apply_main_talker_processors fltb feqb fzero fone neg_inf fmul fdiv (logits current) config generated_first_codes step
                            repetition_penalty);
        choice ← io_lift (choose (do_sample options) values (top_k options) (top_p options) (temperature options) (seed options) rng sample_call_index);
        let first_code := choice.1.1 in
        if first_code =? codec_eos_token_id config then mret frames
        else if max_new_tokens options <=? step + 1 then mret frames
        else
          predicted ← predict options (last_hidden current) first_code choice.1.2 choice.2;
          let frame := predicted.1.1 in
          let frames := frames ++ [frame] in
          if negb (on_frame frames) then mret frames
          else
            embed ← io_lift (frame_embedding frame (text_hidden_at step));
            next ← (if step + 1 <? max_new_tokens options then advance (Z.of_nat (length frames)) embed else mret current);
            generate_loop fuel (step + 1) next (generated_first_codes ++ [first_code]) frames predicted.1.2 predicted.2
  end.
End loop.

(** * The graphs *)

Record TalkerPrefillGraph := { prefill_prompt_capacity : Z; content_tag : Z; prefill_kv : KV Float }.

Record TalkerCachedStepGraph := { step_serial : Z; step_cache_ : @TransformerKVCache Float }.

Record Impl := {
  prompt_capacity_ : Z;
  generation_capacity_ : Z;
  (** By length, the serial number of a graph; the graphs by serial number. *)
  prefill_graphs_ : @CacheSlots Z Z;
  prefill_store : gmap Z TalkerPrefillGraph;
  cached_step_graph_ : option TalkerCachedStepGraph;
  code_predictor_graph_ : option CodePredictorGraph;
  prompts_ : @PromptCache Float Result;
  (** The graphs between which the copy was built. *)
  transfer_graph_ : option (Z * Z);
  transfer_src_serial_ : Z;
  transfer_dst_serial_ : Z;
  (** The counters behind [next_serial]. *)
  prefill_serials : Z;
  step_serials : Z;
}.

#[export] Instance eta_impl : Settable Impl := λ s,
  {| prompt_capacity_ := prompt_capacity_ s; generation_capacity_ := generation_capacity_ s; prefill_graphs_ := prefill_graphs_ s;
     prefill_store := prefill_store s; cached_step_graph_ := cached_step_graph_ s; code_predictor_graph_ := code_predictor_graph_ s;
     prompts_ := prompts_ s; transfer_graph_ := transfer_graph_ s; transfer_src_serial_ := transfer_src_serial_ s;
     transfer_dst_serial_ := transfer_dst_serial_ s; prefill_serials := prefill_serials s; step_serials := step_serials s |}.

Definition make_impl (prompt_capacity generation_capacity : Z) (prefill_graph_cache_slots : nat) : outcome Impl :=
  if (prompt_capacity <=? 0) || (generation_capacity <=? 0) then Throw (str "Qwen3 talker step runtime requires positive capacities")
  else if (prefill_graph_cache_slots =? 0)%nat then Throw (str "Qwen3 talker step runtime requires at least one prefill graph cache slot")
  else Ok {| prompt_capacity_ := prompt_capacity; generation_capacity_ := generation_capacity;
             prefill_graphs_ := make_slots prefill_graph_cache_slots; prefill_store := ∅; cached_step_graph_ := None;
             code_predictor_graph_ := None; prompts_ := empty_cache; transfer_graph_ := None; transfer_src_serial_ := 0;
             transfer_dst_serial_ := 0; prefill_serials := 0; step_serials := 0 |}.

(** A program on a part of the state. *)
Definition on_prompts {A} (m : io (@PromptCache Float Result) A) : io Impl A := λ s,
  let '(r, c) := m (prompts_ s) in (r, s <| prompts_ := c |>).

Definition on_predictor {A} (m : io CodePredictorGraph A) : io Impl A := λ s,
  match code_predictor_graph_ s with
  | Some p => let '(r, p) := m p in (r, s <| code_predictor_graph_ := Some p |>)
  | None => (Throw (str "null code predictor graph"), s)
  end.

Definition on_step_cache {A} (m : io (@TransformerKVCache Float) A) : io Impl A := λ s,
  match cached_step_graph_ s with
  | Some g => let '(r, c) := m (step_cache_ g) in (r, s <| cached_step_graph_ := Some {| step_serial := step_serial g; step_cache_ := c |} |>)
  | None => (Throw (str "null step graph"), s)
  end.

Definition find_prefill_graph (prompt_steps : Z) : io Impl (option Z) := λ s,
  let '(found, slots) := find Z.eqb prompt_steps (prefill_graphs_ s) in (Ok found, s <| prefill_graphs_ := slots |>).

Definition matches (s : Impl) (found : option Z) (prompt_steps : Z) : bool :=
  match found with
  | Some serial => match prefill_store s !! serial with Some g => prefill_prompt_capacity g =? prompt_steps | None => false end
  | None => false
  end.

(** [next_serial], and a new graph in its slot. *)
Definition put_prefill_graph (prompt_steps : Z) : io Impl () :=
  s ← io_get;
  if prompt_steps <=? 0 then io_lift (Throw (str "Qwen3 talker prefill graph requires positive prompt capacity"))
  else
    let serial := uwrap 64 (prefill_serials s + 1) in
    io_modify (λ s, s <| prefill_serials := serial |>
      <| prefill_store := <[serial := {| prefill_prompt_capacity := prompt_steps; content_tag := 0; prefill_kv := [] |}]> (prefill_store s) |>
      <| prefill_graphs_ := put Z.eqb prompt_steps serial (prefill_graphs_ s) |>).

Definition ensure_prefill_graph (prompt_steps : Z) : io Impl Z :=
  s ← io_get;
  if prompt_capacity_ s <? prompt_steps then io_lift (Throw (str "Qwen3 talker prompt exceeds step runtime capacity"))
  else
    found ← find_prefill_graph prompt_steps;
    s ← io_get;
    graph ← (if matches s found prompt_steps then mret found
             else put_prefill_graph prompt_steps;; find_prefill_graph prompt_steps);
    match graph with
    | Some serial => mret serial
    | None => io_lift (Throw (str "Qwen3 talker prefill graph cache insertion failed"))
    end.

Definition run_compute_result (serial : Z) (embeddings : list Float) : io Impl Result := λ s,
  match prefill_store s !! serial with
  | None => (Throw (str "null prefill graph"), s)
  | Some g =>
      if negb (Z.of_nat (length embeddings) =? prefill_prompt_capacity g * hidden_size config) then
        (Throw (str "Qwen3 talker prefill embedding size mismatch"), s)
      else
        let '(status, kv) := prefill_network embeddings in
        (status, s <| prefill_store := <[serial := {| prefill_prompt_capacity := prefill_prompt_capacity g; content_tag := content_tag g;
                                                      prefill_kv := kv |}]> (prefill_store s) |>)
  end.

Definition set_content_tag (serial tag : Z) (s : Impl) : Impl :=
  s <| prefill_store := alter (λ g, {| prefill_prompt_capacity := prefill_prompt_capacity g; content_tag := tag; prefill_kv := prefill_kv g |})
                              serial (prefill_store s) |>.

(** The result of the first network for the current prompt: remembered, if the graph
    still holds what it computed for it. *)
Definition prefill_result (serial : Z) (state : @PromptEmbeddingState Float) : io Impl Result :=
  s ← io_get;
  let prefill_cache_hit :=
    match cached_prefill_output_ (prompts_ s), prefill_store s !! serial with
    | Some _, Some g => content_tag g =? prompt_content_tag_ (prompts_ s)
    | _, _ => false
    end in
  (if prefill_cache_hit then mret tt
   else
     output ← run_compute_result serial (prompt state);
     io_modify (λ s, set_content_tag serial (prompt_content_tag_ (prompts_ s)) (s <| prompts_ := prompts_ s <| cached_prefill_output_ := Some output |> |>)));;
  s ← io_get;
  match cached_prefill_output_ (prompts_ s) with
  | Some output => mret output
  | None => io_lift (Throw (str "bad optional access"))
  end.

Definition kInitialGeneratedStepCacheFrames : Z := 128.

(** The step graph is built anew; an exported state is imported into it. *)
Definition rebuild_step_graph (cache_steps : Z) (exported : option (@TransformerKVState Float)) : io Impl () :=
  io_modify (λ s, s <| cached_step_graph_ := None |>);;
  (if cache_steps <=? 0 then io_lift (Throw (str "Qwen3 talker cached step graph requires positive cache capacity")) else mret tt);;
  cache ← io_lift (make_step_cache fzero num_hidden_layers row_elems cache_steps);
  io_modify (λ s, let serial := uwrap 64 (step_serials s + 1) in
    s <| step_serials := serial |> <| cached_step_graph_ := Some {| step_serial := serial; step_cache_ := cache |} |>);;
  match exported with
  | Some state => on_step_cache (import_state fzero stored state)
  | None => mret tt
  end.

(** A step graph of at least [required_capacity] rows, with the rows of the one before. *)
Definition ensure_cached_step_capacity (prompt_steps max_new_tokens required_capacity : Z) : io Impl () :=
  s ← io_get;
  if match cached_step_graph_ s with Some g => required_capacity <=? cache_steps_ (step_cache_ g) | None => false end then mret tt
  else
    exported ← (match cached_step_graph_ s with
                | Some g => if 0 <? valid_steps_ (step_cache_ g) then state ← io_lift (export_state (step_cache_ g)); mret (Some state) else mret None
                | None => mret None
                end);
    let old_generated_capacity := match cached_step_graph_ s with None => 0 | Some g => Z.max 1 (cache_steps_ (step_cache_ g) - prompt_steps) end in
    let required_generated_capacity := Z.max 1 (required_capacity - prompt_steps) in
    let next_generated_capacity :=
      Z.min max_new_tokens (Z.max required_generated_capacity
        (if 0 <? old_generated_capacity then old_generated_capacity * 2 else kInitialGeneratedStepCacheFrames)) in
    rebuild_step_graph (prompt_steps + next_generated_capacity) exported.

(** The copy of the keys and values of the prompt: built for two graphs, and run. That the
    device fails to run it is not modelled. *)
Definition transfer_prefill_state (serial steps : Z) : io Impl () :=
  s ← io_get;
  match prefill_store s !! serial, cached_step_graph_ s with
  | Some prefill, Some step =>
      if negb (prefill_prompt_capacity prefill =? steps) then io_lift (Throw (str "Qwen3 talker transfer steps do not match prefill graph"))
      else if cache_steps_ (step_cache_ step) <? steps then io_lift (Throw (str "Qwen3 talker transfer exceeds step cache capacity"))
      else
        (if bool_decide (transfer_graph_ s = None) || negb (transfer_src_serial_ s =? serial) || negb (transfer_dst_serial_ s =? step_serial step) then
           io_modify (λ s, s <| transfer_graph_ := Some (serial, step_serial step) |> <| transfer_src_serial_ := serial |>
                             <| transfer_dst_serial_ := step_serial step |>)
         else mret tt);;
        s ← io_get;
        match transfer_graph_ s with
        | Some (source, target) =>
            match prefill_store s !! source with
            | Some g =>
                if target =? step_serial step then
                  on_step_cache (io_modify (write_rows 0 (prefill_kv g));; mark_device_import steps)
                else io_lift (Throw (str "stale transfer target"))
            | None => io_lift (Throw (str "stale transfer source"))
            end
        | None => io_lift (Throw (str "null transfer graph"))
        end
  | _, _ => io_lift (Throw (str "null graph"))
  end.

(** [TalkerCachedStepGraph::run_step]. *)
Definition run_step (embedding : list Float) : io (@TransformerKVCache Float) Result := λ c,
  if negb (Z.of_nat (length embedding) =? hidden_size config) then (Throw (str "Qwen3 talker cached step embedding size mismatch"), c)
  else if cache_steps_ c <=? valid_steps_ c then (Throw (str "Qwen3 talker cached step exceeds cache capacity"), c)
  else
    let '(status, row) := step_network (visible c) (i32 (current_end_ c)) embedding in
    let c := write_rows (i32 (valid_steps_ c) * row_elems) row c in
    match status with
    | Throw e => (Throw e, c)
    | Ok output => (advance_after_direct_append 1;; mret output) c
    end.

Definition advance_talker (prompt_steps max_new_tokens generated_frames : Z) (embed : list Float) : io Impl Result :=
  ensure_cached_step_capacity prompt_steps max_new_tokens (prompt_steps + generated_frames);;
  on_step_cache (run_step embed).

Definition ensure_predictor : io Impl () :=
  s ← io_get;
  match code_predictor_graph_ s with
  | Some _ => mret tt
  | None => p ← io_lift make_predictor; io_modify (λ s, s <| code_predictor_graph_ := Some p |>)
  end.

Definition predict_frame (options : Options) (talker_hidden : @Qwen3SpeakerEmbedding Float) (first_code : Z) (rng : Rng) (sample_call_index : Z) :
    io Impl (list Z * Rng * Z) := on_predictor (predictor_generate options talker_hidden first_code rng sample_call_index).

Notation ensure_prompt_state :=
  (ensure_prompt_state fzero fone fadd fmul fdiv fneg fexp feqb ggml_row_size row_to_f32 root_config weights).

(** [Impl::generate] up to the codes it puts together: the frames. *)
Definition generate (request : Request) (options : Options) (repetition_penalty : Float) (cancelled : Z → bool) (on_frame : list (list Z) → bool) :
    io Impl (list (list Z)) :=
  s ← io_get;
  if (max_new_tokens options <=? 0) || (generation_capacity_ s <? max_new_tokens options) then
    io_lift (Throw (str "Qwen3 talker generation token count exceeds capacity"))
  else
    let rng := mt19937 (seed options) in
    on_prompts (ensure_prompt_state request);;
    s ← io_get;
    match cached_prompt_state_ (prompts_ s) with
    | None => io_lift (Throw (str "bad optional access"))
    | Some state =>
        let prompt_steps := row_count (prompt state) (hidden_size config) in
        if (prompt_steps <=? 0) || (prompt_capacity_ s <? prompt_steps) then
          io_lift (Throw (str "Qwen3 talker prompt exceeds step runtime capacity"))
        else
          prefill_graph ← ensure_prefill_graph prompt_steps;
          current ← prefill_result prefill_graph state;
          ensure_predictor;;
          ensure_cached_step_capacity prompt_steps (max_new_tokens options) (prompt_steps + 1);;
          transfer_prefill_state prefill_graph prompt_steps;;
          generate_loop predict_frame (advance_talker prompt_steps (max_new_tokens options)) cancelled on_frame options repetition_penalty state
            (Z.to_nat (max_new_tokens options)) 0 current [] [] rng 0
    end.

Record Qwen3TalkerCodes := { generated_codes : Qwen3SpeechCodes; decoder_input_codes : Qwen3SpeechCodes }.

(** What [generate] returns, with the frames collected or not. *)
Definition collect (request : Request) (collect_output_codes : bool) (frames_ : list (list Z)) : Qwen3TalkerCodes :=
  let groups := num_code_groups config in
  if collect_output_codes then
    let generated := {| codes := concat frames_; frames := Z.of_nat (length frames_); code_groups := groups |} in
    {| generated_codes := generated;
       decoder_input_codes := {| codes := from_option codes [] (reference_codes request) ++ codes generated;
                                 frames := from_option frames 0 (reference_codes request) + frames generated; code_groups := groups |} |}
  else
    {| generated_codes := {| codes := []; frames := 0; code_groups := groups |};
       decoder_input_codes := {| codes := []; frames := 0; code_groups := groups |} |}.

(** [Qwen3TalkerStepRuntime::generate]. *)
Definition generate_codes (request : Request) (options : Options) (repetition_penalty : Float) : io Impl Qwen3TalkerCodes :=
  frames_ ← generate request options repetition_penalty (λ _, false) (λ _, true);
  mret (collect request true frames_).

(** [Qwen3TalkerStepRuntime::generate_streaming]: the frames went to [on_frame]. *)
Definition generate_streaming (request : Request) (options : Options) (repetition_penalty : Float) (on_frame : list (list Z) → bool)
    (cancelled : Z → bool) : io Impl Qwen3TalkerCodes :=
  frames_ ← generate request options repetition_penalty cancelled on_frame;
  mret (collect request false frames_).

Definition release_cached_step_graph : io Impl Z :=
  s ← io_get;
  io_modify (λ s, s <| cached_step_graph_ := None |>);;
  mret (match cached_step_graph_ s with Some g => cache_steps_ (step_cache_ g) | None => 0 end).

(** * The specification: no caches *)

(** The rows so far, as a list; the predictor starts anew with each frame. *)
Definition advance_rows (generated_frames : Z) (embed : list Float) : io (KV Float * Z) Result := λ s,
  if negb (Z.of_nat (length embed) =? hidden_size config) then (Throw (str "Qwen3 talker cached step embedding size mismatch"), s)
  else
    let '(status, row) := step_network s.1 s.2 embed in
    match status with
    | Throw e => (Throw e, s)
    | Ok output => (Ok output, (append_rows s.1 row, s.2 + 1))
    end.

Definition predict_anew (options : Options) (talker_hidden : @Qwen3SpeakerEmbedding Float) (first_code : Z) (rng : Rng) (sample_call_index : Z) :
    io (KV Float * Z) (list Z * Rng * Z) := λ s,
  (p ← make_predictor; (predictor_generate options talker_hidden first_code rng sample_call_index p).1, s).

Definition compute_prompt (state : @PromptEmbeddingState Float) : outcome Result * KV Float :=
  if negb (Z.of_nat (length (prompt state)) =? row_count (prompt state) (hidden_size config) * hidden_size config) then
    (Throw (str "Qwen3 talker prefill embedding size mismatch"), [])
  else prefill_network (prompt state).

Definition speak (prompt_capacity generation_capacity : Z) (request : Request) (options : Options) (repetition_penalty : Float)
    (cancelled : Z → bool) (on_frame : list (list Z) → bool) : outcome (list (list Z)) :=
  if (max_new_tokens options <=? 0) || (generation_capacity <? max_new_tokens options) then
    Throw (str "Qwen3 talker generation token count exceeds capacity")
  else
    state ← build_prompt_state fzero fone fadd fmul fdiv fneg fexp ggml_row_size row_to_f32 request root_config weights;
    let prompt_steps := row_count (prompt state) (hidden_size config) in
    if (prompt_steps <=? 0) || (prompt_capacity <? prompt_steps) then Throw (str "Qwen3 talker prompt exceeds step runtime capacity")
    else
      let '(status, kv) := compute_prompt state in
      current ← status;
      make_predictor;;
      (generate_loop predict_anew advance_rows cancelled on_frame options repetition_penalty state
         (Z.to_nat (max_new_tokens options)) 0 current [] [] (mt19937 (seed options)) 0 (kv, prompt_steps)).1.

(** * Services *)

(** What the session asks of [Impl], in any order; the answers are the frames. *)
Inductive Call :=
  | Generate (request : Request) (options : Options) (repetition_penalty : Float) (cancelled : Z → bool) (on_frame : list (list Z) → bool)
  | Release.

Fixpoint serve (calls : list Call) (s : Impl) : list (outcome (list (list Z))) :=
  match calls with
  | [] => []
  | Generate request options repetition_penalty cancelled on_frame :: calls =>
      let '(r, s) := generate request options repetition_penalty cancelled on_frame s in r :: serve calls s
  | Release :: calls => serve calls (release_cached_step_graph s).2
  end.

Definition requests (calls : list Call) : list Request :=
  omap (λ c, match c with Generate request _ _ _ _ => Some request | Release => None end) calls.

(** Each answer by itself. *)
Definition spoken (prompt_capacity generation_capacity : Z) (calls : list Call) : list (outcome (list (list Z))) :=
  omap (λ c, match c with
             | Generate request options repetition_penalty cancelled on_frame =>
                 Some (speak prompt_capacity generation_capacity request options repetition_penalty cancelled on_frame)
             | Release => None
             end) calls.
End talker.

(** * The predictor starts anew with each frame *)

Section facts.
Context {Float Double Rng Row : Type} `{!Numbers Float Double Rng} `{!Networks Float Row}.
Context (no_row : Row).
Context (root_config : Qwen3TTSConfig) (weights : @Qwen3TalkerWeights Float) (sampling_policy : TorchCudaSamplingPolicy).

Notation config := (talker root_config).
Notation predictor_generate := (predictor_generate (Row := Row) root_config weights sampling_policy).
Notation predictor_loop := (predictor_loop (Row := Row) root_config weights sampling_policy).
Notation predictor_run_step := (predictor_run_step (Row := Row) root_config).
Notation run_prefill := (run_prefill (Row := Row) root_config).
Notation CodePredictorGraph := (@CodePredictorGraph Row).

(** The caches of the predictor have room for every group. *)
Definition predictor_ready (p : CodePredictorGraph) : Prop := length (predictor_rows p) = Z.to_nat (num_code_groups config).

(** Nothing that is read differs. *)
Record same_view (p q : CodePredictorGraph) : Prop := {
  view_ready : predictor_ready p ∧ predictor_ready q;
  view_valid : predictor_valid_steps_ p = predictor_valid_steps_ q;
  view_end : predictor_current_end_ p = predictor_current_end_ q;
  view_bounds : 0 <= predictor_valid_steps_ p <= num_code_groups config;
  view_rows : take (Z.to_nat (predictor_valid_steps_ p)) (predictor_rows p) = take (Z.to_nat (predictor_valid_steps_ q)) (predictor_rows q);
}.

Definition both_ready (p q : CodePredictorGraph) : Prop := predictor_ready p ∧ predictor_ready q.

Lemma same_view_ready p q : same_view p q → both_ready p q.
Proof. by intros []. Qed.

Lemma take_insert_grow {A} (l : list A) n x : (n < length l)%nat → take (S n) (<[n := x]> l) = take n l ++ [x].
Proof.
  intros H. rewrite (take_S_r _ _ x) by (by apply list_lookup_insert_eq). by rewrite take_insert_ge by lia.
Qed.

Lemma run_step_same group embedding : runs same_view same_view both_ready (predictor_run_step group embedding) (predictor_run_step group embedding).
Proof.
  intros p q [[Hp Hq] Hv He Hb Hr]. unfold Talker.predictor_run_step. rewrite <- Hv, <- He.
  assert (both_ready p q) as Hready by done.
  destruct (_ || _); [done|]. destruct (negb _); [done|].
  destruct ((predictor_valid_steps_ p <=? 0) || (num_code_groups config <=? predictor_valid_steps_ p)) eqn:Eb; [done|].
  apply orb_false_iff in Eb as [H1%Z.leb_gt H2%Z.leb_gt]. rewrite <- Hv in Hr. rewrite Hr.
  destruct (predictor_step _ _ _ _) as [[values|e] row]; cbn [fst snd is_ok].
  - split; [done|]. unfold predictor_ready in *. split; unfold predictor_ready; cbn [predictor_valid_steps_ predictor_current_end_ predictor_rows];
      rewrite ?length_insert; [done|done|done|lia|].
    rewrite Z2Nat.inj_add by lia. change (Z.to_nat 1) with 1%nat. rewrite Nat.add_1_r, !take_insert_grow by lia. by rewrite Hr.
  - split; [done|]. unfold both_ready, predictor_ready in *. cbn. by rewrite !length_insert.
Qed.

Lemma predictor_loop_same fuel options group code codes rng call :
  runs same_view same_view both_ready (predictor_loop fuel options group code codes rng call) (predictor_loop fuel options group code codes rng call).
Proof.
  revert group code codes rng call. induction fuel as [|fuel IH]; intros; cbn [Talker.predictor_loop]; [apply runs_ret|].
  apply (runs_bind _ same_view); [apply runs_lift, same_view_ready|]. intros row.
  apply (runs_bind _ same_view); [apply run_step_same|]. intros values.
  apply (runs_bind _ same_view); [apply runs_lift, same_view_ready|]. intros choice. apply IH.
Qed.

Lemma run_prefill_same embeddings : 1 < num_code_groups config → runs both_ready same_view both_ready (run_prefill embeddings) (run_prefill embeddings).
Proof.
  intros Hg p q [Hp Hq]. assert (both_ready p q) as Hready by done. unfold Talker.run_prefill. destruct (negb _); [done|].
  destruct (predictor_prefill embeddings) as [[values|e] [row0 row1]]; cbn [fst snd is_ok]; (split; [done|]); unfold predictor_ready in *.
  - split; unfold predictor_ready; cbn [predictor_valid_steps_ predictor_current_end_ predictor_rows]; rewrite ?length_insert; [done|done|done|lia|].
    change (Z.to_nat 2) with 2%nat. 
    destruct (predictor_rows p) as [|a [|b l]], (predictor_rows q) as [|a' [|b' l']]; cbn in *; try lia. done.
  - unfold both_ready, predictor_ready. cbn. by rewrite !length_insert.
Qed.

(** A frame does not depend on the frames before it. *)
Lemma predictor_generate_same options hidden first_code rng call p q :
  1 < num_code_groups config → both_ready p q →
  (predictor_generate options hidden first_code rng call p).1 = (predictor_generate options hidden first_code rng call q).1 ∧
  both_ready (predictor_generate options hidden first_code rng call p).2 (predictor_generate options hidden first_code rng call q).2.
Proof.
  intros Hg Hpq.
  assert (runs both_ready same_view both_ready (predictor_generate options hidden first_code rng call) (predictor_generate options hidden first_code rng call)) as H.
  { unfold Talker.predictor_generate. apply (runs_bind _ both_ready); [by apply runs_lift|]. intros embeddings.
    apply (runs_bind _ same_view); [by apply run_prefill_same|]. intros values.
    apply (runs_bind _ same_view); [apply runs_lift, same_view_ready|]. intros choice. apply predictor_loop_same. }
  destruct (H p q Hpq) as [H1 H2]. split; [done|]. destruct (is_ok _); [by apply same_view_ready|done].
Qed.
End facts.

(** * The loop, on related states *)

Section loops.
Context {Float Double Rng Row : Type} `{!Numbers Float Double Rng} `{!Networks Float Row}.
Context (root_config : Qwen3TTSConfig) (weights : @Qwen3TalkerWeights Float) (sampling_policy : TorchCudaSamplingPolicy).
Context {S T : Type} (R : Z → S → T → Prop) (E : S → T → Prop).
Context (predict : Qwen3TTSGenerationOptions Float → @Qwen3SpeakerEmbedding Float → Z → Rng → Z → io S (list Z * Rng * Z)).
Context (predict' : Qwen3TTSGenerationOptions Float → @Qwen3SpeakerEmbedding Float → Z → Rng → Z → io T (list Z * Rng * Z)).
Context (advance : Z → list Float → io S (Qwen3TalkerPrefillResult Float)) (advance' : Z → list Float → io T (Qwen3TalkerPrefillResult Float)).
Context (cancelled : Z → bool) (on_frame : list (list Z) → bool).
Context (options : Qwen3TTSGenerationOptions Float) (repetition_penalty : Float) (state : @PromptEmbeddingState Float).

Context (R_E : ∀ k s t, R k s t → E s t).
Context (predict_same : ∀ k hidden first_code rng call,
           runs (R k) (R k) E (predict options hidden first_code rng call) (predict' options hidden first_code rng call)).
Context (advance_same : ∀ k embed, 0 <= k → k + 1 < max_new_tokens options → runs (R k) (R (k + 1)) E (advance (k + 1) embed) (advance' (k + 1) embed)).

Lemma generate_loop_same fuel step current codes frames rng call :
  step = Z.of_nat (length frames) →
  runs (R step) E E
    (generate_loop root_config weights sampling_policy predict advance cancelled on_frame options repetition_penalty state fuel step current codes frames rng call)
    (generate_loop root_config weights sampling_policy predict' advance' cancelled on_frame options repetition_penalty state fuel step current codes frames rng call).
Proof.
  assert (∀ k A (a : A), runs (R k) E E (mret a) (mret a)) as Hret by (intros k A a s t HR; split; [done|by eapply R_E]).
  revert step current codes frames rng call. induction fuel as [|fuel IH]; intros step current codes frames rng call Hstep;
    cbn [generate_loop]; [apply Hret|]. destruct (cancelled step); [apply Hret|].
  apply (runs_bind _ (R step)); [apply runs_lift, R_E|]. intros values.
  apply (runs_bind _ (R step)); [apply runs_lift, R_E|]. intros choice.
  destruct (choice.1.1 =? _); [apply Hret|]. destruct (Z.leb_spec (max_new_tokens options) (step + 1)) as [|Hmax]; [apply Hret|].
  apply (runs_bind _ (R step)); [apply predict_same|]. intros predicted. cbv zeta.
  destruct (negb _); [apply Hret|]. apply (runs_bind _ (R step)); [apply runs_lift, R_E|]. intros embed.
  assert (Z.of_nat (length (frames ++ [predicted.1.1])) = step + 1) as Hlen by (rewrite length_app; cbn; lia).
  rewrite (proj2 (Z.ltb_lt _ _)), Hlen by done. apply (runs_bind _ (R (step + 1))); [apply advance_same; lia|]. intros next. by apply IH.
Qed.
End loops.

(** * The caches between requests *)

Section caches.
Context {Float Double Rng Row : Type} `{!Numbers Float Double Rng} `{!Networks Float Row}.
Context (no_row : Row).
Context (root_config : Qwen3TTSConfig) (weights : @Qwen3TalkerWeights Float) (sampling_policy : TorchCudaSamplingPolicy).
Context (num_hidden_layers : nat) (row_elems : Z).
Context (P G : Z).

Context (layers_positive : (0 < num_hidden_layers)%nat) (row_positive : 0 < row_elems).
Context (capacity_positive : 0 < P ∧ 0 < G) (positions_fit : P + G < 2 ^ 31) (elements_fit : (P + G) * row_elems < 2 ^ 64).
(** A tensor of 32-bit numbers stores what is written. *)
Context (stored_f32 : ∀ x : Float, stored GGML_TYPE_F32 x = x).

Notation Impl := (@Impl Float Row).
Notation ensure_capacity := (ensure_cached_step_capacity (Row := Row) num_hidden_layers row_elems).
Notation step_cache := (step_cache num_hidden_layers row_elems).

(** A step graph with its cache; [c] steps of capacity. *)
Definition step_graph (s : Impl) (c : Z) (g : TalkerCachedStepGraph) : Prop :=
  cached_step_graph_ s = Some g ∧ step_cache c (step_cache_ g) ∧ c <= P + G.

Definition step_ready (s : Impl) : Prop := ∀ g, cached_step_graph_ s = Some g → ∃ c, step_graph s c g.

(** Everything but the step graph. *)
Definition same_but_step (s s' : Impl) : Prop :=
  ∃ g n, s' = s <| cached_step_graph_ := g |> <| step_serials := n |>.

Lemma make_cache_fits c : 0 < c → c <= P + G → ∃ k, make_step_cache fzero num_hidden_layers row_elems c = Ok k ∧ step_cache c k ∧ valid_steps_ k = 0.
Proof. intros H1 H2. apply fresh_step; [done|done|done|]. nia. Qed.

Lemma rebuild_spec s c exported :
  0 < c → c <= P + G →
  match exported with
  | None => ∃ s' g', rebuild_step_graph num_hidden_layers row_elems c None s = (Ok tt, s') ∧ same_but_step s s' ∧ step_graph s' c g' ∧
      valid_steps_ (step_cache_ g') = 0
  | Some (old, c0) => step_cache c0 old → valid_steps_ old <= c →
      ∃ s' g', rebuild_step_graph num_hidden_layers row_elems c (Some (TalkerCache.exported old)) s = (Ok tt, s') ∧ same_but_step s s' ∧
        step_graph s' c g' ∧ visible (step_cache_ g') = visible old ∧ valid_steps_ (step_cache_ g') = valid_steps_ old
  end.
Proof.
  intros H0 Hle. destruct (make_cache_fits c H0 Hle) as (k & Ek & Hk & Hv).
  assert (∀ (f : option (@TransformerKVState Float)), rebuild_step_graph num_hidden_layers row_elems c f s =
    (match f with Some state => on_step_cache (import_state fzero stored state) | None => mret tt end)
      (s <| cached_step_graph_ := None |> <| step_serials := uwrap 64 (step_serials s + 1) |>
         <| cached_step_graph_ := Some {| step_serial := uwrap 64 (step_serials s + 1); step_cache_ := k |} |>)) as Hf.
  { intros f. unfold rebuild_step_graph. rewrite (proj2 (Z.leb_gt c 0)), Ek by done. reflexivity. }
  destruct exported as [[old c0]|]; [intros Hold Hvo|]; rewrite Hf; clear Hf.
  - destruct (grow_step fzero stored num_hidden_layers row_elems c0 c old k stored_f32 Hold Hk Hvo) as (k' & Ei & Hk' & Hvis & Hv').
    unfold on_step_cache. cbn [cached_step_graph_]. 
    match goal with |- context [match cached_step_graph_ ?x with _ => _ end] => change (cached_step_graph_ x) with (Some {| step_serial := uwrap 64 (step_serials s + 1); step_cache_ := k |}) end.
    cbn [step_cache_ step_serial]. rewrite Ei. do 2 eexists. split; [reflexivity|]. split; [by eexists _, (uwrap 64 (step_serials s + 1))|].
    split; [split; [reflexivity|]; by split|]. done.
  - do 2 eexists. split; [reflexivity|]. split; [by eexists _, (uwrap 64 (step_serials s + 1))|]. split; [split; [reflexivity|]; by split|]. done.
Qed.

Lemma visible_empty c (k : @TransformerKVCache Float) : step_cache c k → valid_steps_ k = 0 → visible k = replicate num_hidden_layers ([] : list Float, [] : list Float).
Proof.
  intros Hc Hv. destruct (visible_sized _ _ _ _ Hc) as [Hl Hf]. rewrite Hv in Hf. change (Z.to_nat (0 * row_elems)) with 0%nat in Hf. rewrite <- Hl.
  clear -Hf. induction Hf as [|[a b] l [H1 H2] _ IH]; cbn in *; [done|]. apply nil_length_inv in H1, H2. subst. by f_equal.
Qed.

(** There is always a step graph that is large enough, and growing keeps its rows. *)
Lemma ensure_capacity_spec s steps limit required :
  step_ready s → 0 < steps <= P → 0 < limit <= G → steps < required <= steps + limit →
  ∃ s' g' c', ensure_capacity steps limit required s = (Ok tt, s') ∧ same_but_step s s' ∧ step_graph s' c' g' ∧ required <= c' ∧
    (∀ g, cached_step_graph_ s = Some g → visible (step_cache_ g') = visible (step_cache_ g) ∧ valid_steps_ (step_cache_ g') = valid_steps_ (step_cache_ g)).
Proof.
  intros Hready Hsteps Hlimit Hreq. unfold ensure_cached_step_capacity. rewrite io_bind_get.
  destruct (cached_step_graph_ s) as [g|] eqn:Eg.
  - destruct (Hready g Eg) as (c & _ & Hc & Hcap). rewrite (cache_steps_eq _ _ _ _ Hc). destruct (Z.leb_spec required c) as [Hle|Hlt].
    { exists s, g, c. split; [done|]. split; [exists (cached_step_graph_ s), (step_serials s); by destruct s|]. split; [done|]. split; [done|].
      intros g' [= <-]. done. }
    pose proof (cache_valid _ _ _ _ Hc) as Hv. cbv zeta. rewrite (proj2 (Z.ltb_lt 0 (Z.max 1 (c - steps)))) by lia.
    set (next := steps + _). assert (required <= next <= P + G) as Hnext by (unfold next; lia). clearbody next.
    destruct (Z.ltb_spec 0 (valid_steps_ (step_cache_ g))) as [Hpos|Hzero].
    + rewrite (step_cache_export _ _ _ _ Hc). rewrite (io_bind_Ok _ _ _ (Some (TalkerCache.exported (step_cache_ g))) s) by done.
      pose proof (rebuild_spec s next (Some (step_cache_ g, c)) ltac:(lia) ltac:(lia)) as Hr. cbv beta iota in Hr. specialize (Hr Hc ltac:(lia)).
      destruct Hr as (s' & g' & E & Hsame & Hg & Hvis & Hval).
      exists s', g', next. split_and!; [done|done|exact Hg|lia|]. by intros g0 [= <-].
    + rewrite (io_bind_Ok _ _ _ None s) by done. destruct (rebuild_spec s next None ltac:(lia) ltac:(lia)) as (s' & g' & E & Hsame & Hg & Hval).
      exists s', g', next. split_and!; [done|done|exact Hg|lia|]. intros g0 [= <-]. destruct Hg as (_ & Hg & _).
      split; [|lia]. rewrite (visible_empty next), (visible_empty c); [done|done|lia|done..].
  - rewrite (io_bind_Ok _ _ _ None s) by done. cbv zeta. cbn [Z.ltb Z.compare]. set (next := steps + _).
    assert (required <= next <= P + G) as Hnext by (unfold next, kInitialGeneratedStepCacheFrames; lia). clearbody next.
    destruct (rebuild_spec s next None ltac:(lia) ltac:(lia)) as (s' & g' & E & Hsame & Hg & Hval).
    exists s', g', next. split_and!; [done|done|exact Hg|lia|done].
Qed.

Context (step_sized : ∀ kv position embed, sized num_hidden_layers (Z.to_nat row_elems) (step_network kv position embed).2).

(** The state apart from the step graph and the predictor. *)
Definition rest (s : Impl) :=
  (prompt_capacity_ s, generation_capacity_ s, prefill_graphs_ s, prefill_store s, prompts_ s,
   (transfer_graph_ s, transfer_src_serial_ s, transfer_dst_serial_ s, prefill_serials s)).

Definition predictors_ready (s : Impl) : Prop := ∀ p, code_predictor_graph_ s = Some p → predictor_ready root_config p ∧ 1 < num_code_groups (talker root_config).

(** During a generation, after [k] frames: the step graph holds the rows of the specification. *)
Definition generating (s0 : Impl) (steps k : Z) (s : Impl) (t : KV Float * Z) : Prop :=
  rest s = rest s0 ∧ predictors_ready s ∧ code_predictor_graph_ s ≠ None ∧
  ∃ g c, step_graph s c g ∧ visible (step_cache_ g) = t.1 ∧ valid_steps_ (step_cache_ g) = steps + k ∧ t.2 = steps + k.

Definition stopped (s0 : Impl) (s : Impl) (t : KV Float * Z) : Prop :=
  rest s = rest s0 ∧ predictors_ready s ∧ step_ready s.

Lemma generating_stopped s0 steps k s t : generating s0 steps k s t → stopped s0 s t.
Proof.
  intros (H1 & H2 & _ & g & c & Hg & _). split_and!; [done..|]. intros g' Hg'. exists c. destruct Hg as (E & Hg & Hc).
  assert (g' = g) as -> by congruence. by split.
Qed.

Lemma run_step_spec c g embed t steps :
  step_cache c g → visible g = t.1 → valid_steps_ g = steps → t.2 = steps → steps < c → c <= P + G →
  (run_step root_config row_elems embed g).1 = (advance_rows root_config 0 embed t).1 ∧
  step_cache c (run_step root_config row_elems embed g).2 ∧
  (is_ok (run_step root_config row_elems embed g).1 = true →
     visible (run_step root_config row_elems embed g).2 = (advance_rows root_config 0 embed t).2.1 ∧
     valid_steps_ (run_step root_config row_elems embed g).2 = steps + 1 ∧ (advance_rows root_config 0 embed t).2.2 = steps + 1).
Proof.
  intros Hg Hvis Hval Ht Hlt Hcap. unfold run_step, advance_rows. destruct (negb _); [done|].
  pose proof (cache_steps_eq _ _ _ _ Hg) as Ecs. pose proof (cache_end _ _ _ _ Hg) as Hend. pose proof (cache_valid _ _ _ _ Hg) as Hv.
  rewrite Ecs, Hend, Hval, (proj2 (Z.leb_gt c steps)), !i32_small, Hvis, Ht by lia.
  pose proof (step_sized t.1 steps embed) as Hs. destruct (step_network t.1 steps embed) as [[output|e] row]; cbn [fst snd] in *.
  - destruct (append_step num_hidden_layers row_elems c g row Hg ltac:(lia) Hs) as (g' & E & Hg' & Hvis' & Hval').
    rewrite Hval in E. rewrite (io_bind_Ok _ _ _ _ _ E). cbn [mret io_ret fst snd]. split_and!; [done|done|]. intros _.
    split_and!; [by rewrite Hvis', Hvis|lia|done].
  - split; [done|]. split; [|done]. rewrite <- Hval. apply spare_row; [done|lia|done].
Qed.

(** Running a program on the step graph's cache. *)
Lemma on_step_cache_run {A} (m : io (@TransformerKVCache Float) A) s c g :
  step_graph s c g → step_cache c (m (step_cache_ g)).2 →
  ∃ s' g', on_step_cache m s = ((m (step_cache_ g)).1, s') ∧ step_graph s' c g' ∧ step_cache_ g' = (m (step_cache_ g)).2 ∧ rest s' = rest s ∧
    code_predictor_graph_ s' = code_predictor_graph_ s ∧ step_serial g' = step_serial g.
Proof.
  intros (Eg & _ & Hc) Hm. unfold on_step_cache. rewrite Eg. destruct (m (step_cache_ g)) as [r k]. cbn in *.
  do 2 eexists. split; [reflexivity|]. split; [split; [reflexivity|by split]|]. done.
Qed.

Lemma same_but_step_rest s s' : same_but_step s s' → rest s' = rest s ∧ code_predictor_graph_ s' = code_predictor_graph_ s.
Proof. by intros (g & n & ->). Qed.

Lemma advance_same s0 steps limit k embed :
  0 < steps <= P → 0 < limit <= G → 0 <= k → k + 1 < limit →
  runs (generating s0 steps k) (generating s0 steps (k + 1)) (stopped s0)
    (advance_talker root_config num_hidden_layers row_elems steps limit (k + 1) embed) (advance_rows root_config (k + 1) embed).
Proof.
  intros Hsteps Hlimit Hk Hk1 s t Hgen. pose proof (generating_stopped _ _ _ _ _ Hgen) as (_ & _ & Hready).
  destruct Hgen as (Hrest & Hp & Hsome & g & c & Hg & Hvis & Hval & Ht).
  destruct (ensure_capacity_spec s steps limit (steps + (k + 1)) Hready) as (s1 & g1 & c1 & E1 & Hsame & Hg1 & Hc1 & Hkeep); [lia..|].
  destruct (Hkeep g (proj1 Hg)) as [Hvis1 Hval1]. apply same_but_step_rest in Hsame as [Hr1 Hp1]. unfold advance_talker.
  rewrite (io_bind_Ok _ _ _ _ _ E1). change (advance_rows root_config (k + 1) embed t) with (advance_rows root_config 0 embed t).
  destruct (run_step_spec c1 (step_cache_ g1) embed t (steps + k)) as (H1 & H2 & H3); [apply Hg1|congruence|lia|done|lia|apply Hg1|].
  destruct (on_step_cache_run (run_step root_config row_elems embed) s1 c1 g1 Hg1 H2) as (s2 & g2 & E2 & Hg2 & Hc2 & Hr2 & Hp2 & _).
  rewrite E2. cbn [fst snd]. split; [done|].
  assert (predictors_ready s2) as Hready2 by (intros p'; rewrite Hp2, Hp1; apply Hp). destruct (is_ok _) eqn:Eok.
  - specialize (H3 eq_refl) as (H3 & H4 & H5). split_and!; [congruence|done|by rewrite Hp2, Hp1|].
    exists g2, c1. rewrite Hc2. split_and!; [done|done|lia|lia].
  - split_and!; [congruence|done|]. intros g' Hg'. exists c1. 
    assert (g' = g2) as -> by (destruct Hg2 as [? _]; congruence). done.
Qed.

Lemma predict_same s0 steps k options hidden first_code rng call :
  1 < num_code_groups (talker root_config) →
  runs (generating s0 steps k) (generating s0 steps k) (stopped s0)
    (predict_frame root_config weights sampling_policy options hidden first_code rng call)
    (predict_anew no_row root_config weights sampling_policy options hidden first_code rng call).
Proof.
  intros Hgroups s t Hgen. pose proof (generating_stopped _ _ _ _ _ Hgen) as (_ & _ & Hready).
  destruct Hgen as (Hrest & Hp & Hsome & g & c & Hg & Hvis & Hval & Ht).
  unfold predict_frame, predict_anew, on_predictor. destruct (code_predictor_graph_ s) as [p|] eqn:Ep; [|done].
  unfold make_predictor. rewrite (proj2 (Z.leb_gt _ 1)) by done. cbn [mbind outcome_bind].
  match goal with |- context [predictor_generate root_config weights sampling_policy options hidden first_code rng call {| predictor_valid_steps_ := 0; predictor_current_end_ := ?e; predictor_rows := ?r |}] =>
    destruct (predictor_generate_same root_config weights sampling_policy options hidden first_code rng call p
      {| predictor_valid_steps_ := 0; predictor_current_end_ := e; predictor_rows := r |} Hgroups) as [H1 [H2 _]] end.
  { split; [by apply Hp|]. unfold predictor_ready. cbn. apply length_replicate. }
  destruct (predictor_generate root_config weights sampling_policy options hidden first_code rng call p) as [r p']. cbn [fst snd] in *.
  split; [done|]. assert (predictors_ready (s <| code_predictor_graph_ := Some p' |>)) as Hp' by (intros q [= <-]; by split).
  destruct (is_ok r).
  - split_and!; [done|done|done|]. exists g, c. split_and!; [exact Hg|done|done|done].
  - split_and!; [done|done|exact Hready].
Qed.

(** * Between requests *)

Context (row_length : ∀ t src dim, length (row_to_f32 t src dim) = Z.to_nat dim).
Context (loaded : weights_ok (talker root_config) weights).

Notation coherent := (coherent fzero fone fadd fmul fdiv fneg fexp ggml_row_size row_to_f32 root_config weights).
Notation build := (build_prompt_state fzero fone fadd fmul fdiv fneg fexp ggml_row_size row_to_f32).

#[local] Instance Zeqb_equivalence : Equivalence (λ x y, (x =? y) = true).
Proof. split; repeat intros ?; rewrite ?Z.eqb_eq in *; congruence. Qed.

(** The slots as a recency list of lengths and serial numbers. *)
Notation slots_hold := (@lru_holds Z Z (CacheSlots Z Z) Z.eqb (slots_lru Z.eqb)).
Notation slots_capacity := (@lru_capacity Z Z (CacheSlots Z Z) Z.eqb (slots_lru Z.eqb)).

(** What the graphs and the members remember belongs to the prompt they remember; [n]
    more prompts and [m] more graphs fit the counters. *)
Record kept (n m : nat) (past : list (@Qwen3TalkerPrefill Float)) (s : Impl) : Prop := {
  kept_capacities : prompt_capacity_ s = P ∧ generation_capacity_ s = G;
  kept_prompts : coherent past (prompts_ s);
  kept_tags : 0 <= prompt_content_tag_ (prompts_ s) < next_content_tag_ (prompts_ s) ∧ next_content_tag_ (prompts_ s) + Z.of_nat n < 2 ^ 64;
  kept_tagged : cached_prompt_state_ (prompts_ s) ≠ None → 0 < prompt_content_tag_ (prompts_ s);
  kept_store : ∀ serial g, prefill_store s !! serial = Some g →
    serial <= prefill_serials s ∧ 0 <= content_tag g <= prompt_content_tag_ (prompts_ s);
  kept_serials : 0 <= prefill_serials s ∧ prefill_serials s + Z.of_nat m < 2 ^ 64;
  kept_slots : ∃ l, slots_hold (3 * m) (prefill_graphs_ s) l ∧ (0 < slots_capacity (prefill_graphs_ s))%nat ∧
    Forall (λ kv : Z * Z, ∃ g, prefill_store s !! kv.2 = Some g ∧ prefill_prompt_capacity g = kv.1) l;
  kept_output : ∀ st out, cached_prompt_state_ (prompts_ s) = Some st → cached_prefill_output_ (prompts_ s) = Some out →
    (compute_prompt root_config st).1 = Ok out;
  kept_content : ∀ st serial g, cached_prompt_state_ (prompts_ s) = Some st → prefill_store s !! serial = Some g →
    content_tag g = prompt_content_tag_ (prompts_ s) →
    cached_prefill_output_ (prompts_ s) ≠ None ∧ prefill_kv g = (compute_prompt root_config st).2;
  kept_transfer : ∀ a b, transfer_graph_ s = Some (a, b) → a = transfer_src_serial_ s ∧ b = transfer_dst_serial_ s;
}.

Definition ready (n m : nat) past (s : Impl) : Prop := kept n m past s ∧ step_ready s ∧ predictors_ready s.

Lemma kept_rest n m past s s' : rest s' = rest s → kept n m past s → kept n m past s'.
Proof.
  intros [= E1 E2 E3 E4 E5 E6 E7 E8 E9] [H1 H2 H3 H4 H5 H6 H7 H8 H9 H10].
  split; rewrite ?E1, ?E2, ?E3, ?E4, ?E5, ?E6, ?E7, ?E8, ?E9; done.
Qed.

Notation ensure_prompt_state :=
  (ensure_prompt_state fzero fone fadd fmul fdiv fneg fexp feqb ggml_row_size row_to_f32 root_config weights).

Lemma kept_same_content n n' m past past' s c :
  kept n m past s → (n' <= n)%nat → content c = content (prompts_ s) → coherent past' c → kept n' m past' (s <| prompts_ := c |>).
Proof.
  intros [H1 H2 H3 H4 H5 H6 H7 H8 H9 H10] Hn Hc Hc'. injection Hc as E1 E2 E3 E4 E5.
  split; cbn; rewrite ?E1, ?E2, ?E3, ?E4, ?E5; try done. lia.
Qed.

(** A new prompt gets a tag that no graph has. *)
Lemma kept_new_content n m past past' s c request state :
  kept (S n) m past s → coherent past' c →
  content c = (Some request, Some state, None, next_content_tag_ (prompts_ s), uwrap 64 (next_content_tag_ (prompts_ s) + 1)) →
  kept n m past' (s <| prompts_ := c |>).
Proof.
  intros [H1 H2 H3 H4 H5 H6 H7 H8 H9 H10] Hc' Hc. injection Hc as E1 E2 E3 E4 E5.
  assert (uwrap 64 (next_content_tag_ (prompts_ s) + 1) = next_content_tag_ (prompts_ s) + 1) as Eu by (unfold uwrap; apply Z.mod_small; lia).
  split; cbn; rewrite ?E1, ?E2, ?E3, ?E4, ?E5, ?Eu; try done; [lia|lia| |].
  - intros serial g Hg. destruct (H5 serial g Hg). lia.
  - intros st serial g _ Hg Ht. destruct (H5 serial g Hg). lia.
Qed.

Lemma ensure_prompt_ready n m past request s :
  ready (S n) m past s → (∀ p, p ∈ past → same_embedding feqb p request) →
  match on_prompts (ensure_prompt_state request) s with
  | (Ok _, s') => ready n m (request :: past) s' ∧ ∃ state, cached_prompt_state_ (prompts_ s') = Some state ∧ build request root_config weights = Ok state
  | (Throw _, s') => ready n m (request :: past) s' ∧ ∃ e, build request root_config weights = Throw e
  end.
Proof.
  intros (Hk & Hstep & Hpred) Hs. unfold on_prompts.
  pose proof (ensure_prompt_spec fzero fone fadd fmul fdiv fneg fexp feqb ggml_row_size row_to_f32 row_length root_config weights loaded
                past request (prompts_ s) (kept_prompts _ _ _ _ Hk) Hs) as H.
  destruct (ensure_prompt_state request (prompts_ s)) as [[[]|e] c].
  - destruct H as (Hc & state & Est & Hb & Hcontent). split; [|by exists state]. split; [|by split].
    destruct Hcontent as [Hsame|Hnew]; [by eapply kept_same_content; [|apply Nat.le_succ_diag_r|..]|by eapply kept_new_content].
  - destruct H as (Hc & Hsame & Hb). split; [|done]. split; [|by split]. by eapply kept_same_content; [|apply Nat.le_succ_diag_r|..].
Qed.

(** The graph for a prompt's length. *)
Lemma recall_Zeqb (k : Z) (l : list (Z * Z)) kv : recall Z.eqb k l = Some kv → kv ∈ l ∧ kv.1 = k.
Proof.
  induction l as [|x l IH]; cbn; [done|]. destruct (Z.eqb_spec x.1 k) as [E|E]; [intros [= <-]; split; [by left|done]|].
  intros [H1 H2]%IH. split; [by right|done].
Qed.

Lemma others_Forall (Q : Z * Z → Prop) k l : Forall Q l → Forall Q (others Z.eqb k l).
Proof. intros H. unfold others. apply List.Forall_forall. intros x [Hx _]%filter_In. by eapply List.Forall_forall in H. Qed.

Lemma refresh_Forall (Q : Z * Z → Prop) k l : Forall Q l → Forall Q (refresh Z.eqb k l).
Proof.
  intros H. unfold refresh. destruct (recall Z.eqb k l) as [kv|] eqn:E; [|done]. apply recall_Zeqb in E as [E _].
  constructor; [by eapply Forall_forall in H|by apply others_Forall].
Qed.

Lemma remember_Forall (Q : Z * Z → Prop) cap (k v : Z) l : Q (k, v) → Forall Q l → Forall Q (CacheSlots.remember Z.eqb cap k v l).
Proof. intros H1 H2. apply Forall_take. constructor; [done|by apply others_Forall]. Qed.

Lemma remember_recall cap (k v : Z) l : (0 < cap)%nat → recall Z.eqb k (CacheSlots.remember Z.eqb cap k v l) = Some (k, v).
Proof. intros H. unfold CacheSlots.remember. destruct cap; [lia|]. cbn. by rewrite Z.eqb_refl. Qed.

Lemma find_graph_run b (s : Impl) steps l :
  slots_hold (S b) (prefill_graphs_ s) l →
  ∃ slots, find_prefill_graph steps s = (Ok (snd <$> recall Z.eqb steps l), s <| prefill_graphs_ := slots |>) ∧
    slots_hold b slots (refresh Z.eqb steps l) ∧ slots_capacity slots = slots_capacity (prefill_graphs_ s).
Proof.
  intros Hl. destruct (lru_find_spec b steps (prefill_graphs_ s) l Hl) as (H1 & H2 & H3). cbn [lru_find slots_lru] in *.
  unfold find_prefill_graph. destruct (find Z.eqb steps (prefill_graphs_ s)) as [found slots]. cbn [fst snd] in *. exists slots. by subst.
Qed.

(** The slots changed. *)
Lemma kept_slots_change n m m' past s slots l :
  kept n m past s → (m' <= m)%nat → slots_hold (3 * m') slots l → (0 < slots_capacity slots)%nat →
  Forall (λ kv : Z * Z, ∃ g, prefill_store s !! kv.2 = Some g ∧ prefill_prompt_capacity g = kv.1) l →
  kept n m' past (s <| prefill_graphs_ := slots |>).
Proof. intros [H1 H2 H3 H4 H5 H6 H7 H8 H9 H10] Hm Hl Hc Hf. split; cbn; try done; [lia|]. by exists l. Qed.

(** A new graph, in no slot yet. *)
Lemma kept_new_graph n m past s steps :
  kept n m past s → prefill_serials s + 1 + Z.of_nat m < 2 ^ 64 →
  let serial := prefill_serials s + 1 in
  prefill_store s !! serial = None ∧ uwrap 64 serial = serial ∧
  kept n m past (s <| prefill_serials := serial |>
    <| prefill_store := <[serial := {| prefill_prompt_capacity := steps; content_tag := 0; prefill_kv := [] |}]> (prefill_store s) |>).
Proof.
  intros [H1 H2 H3 H4 H5 H6 (l & Hl & Hcap & Hf) H8 H9 H10] Hm serial.
  assert (prefill_store s !! serial = None) as Hnew.
  { destruct (prefill_store s !! serial) as [g|] eqn:Eg; [|done]. destruct (H5 _ _ Eg). unfold serial in *. lia. }
  assert (uwrap 64 serial = serial) as Hu by (unfold uwrap, serial; apply Z.mod_small; lia).
  split; [done|]. split; [done|]. split; cbn; try done.
  - intros x g Hg. destruct (decide (x = serial)) as [->|Hne]; [rewrite lookup_insert_eq in Hg; injection Hg as <-; cbn; unfold serial; lia|].
    rewrite lookup_insert_ne in Hg by done. destruct (H5 _ _ Hg). unfold serial. lia.
  - unfold serial. lia.
  - exists l. split; [done|]. split; [done|]. eapply Forall_impl; [exact Hf|].
    intros kv (g & Hg & Hcg). exists g. split; [|done]. rewrite lookup_insert_ne; [done|]. intros E. rewrite <- E in Hg. congruence.
  - intros st x g Hst Hg Ht. destruct (decide (x = serial)) as [->|Hne].
    + rewrite lookup_insert_eq in Hg. injection Hg as <-. cbn in Ht. specialize (H4 ltac:(by rewrite Hst)). lia.
    + rewrite lookup_insert_ne in Hg by done. by eapply H9.
Qed.

Lemma ensure_prefill_ready n m past s steps :
  kept n (S m) past s → 0 < steps <= P →
  ∃ s' serial g, ensure_prefill_graph steps s = (Ok serial, s') ∧ kept n m past s' ∧ prompts_ s' = prompts_ s ∧
    prefill_store s' !! serial = Some g ∧ prefill_prompt_capacity g = steps ∧ cached_step_graph_ s' = cached_step_graph_ s ∧
    code_predictor_graph_ s' = code_predictor_graph_ s.
Proof.
  intros Hk Hsteps. pose proof (kept_slots _ _ _ _ Hk) as (l & Hl & Hcap & Hf). pose proof (kept_capacities _ _ _ _ Hk) as [HP _].
  unfold ensure_prefill_graph. rewrite io_bind_get, HP, (proj2 (Z.ltb_ge P steps)) by lia.
  replace (3 * S m)%nat with (S (S (S (3 * m)))) in Hl by lia.
  destruct (find_graph_run _ s steps l Hl) as (slots & E1 & Hl1 & Hc1). rewrite (io_bind_Ok _ _ _ _ _ E1), io_bind_get.
  set (s1 := s <| prefill_graphs_ := slots |>).
  assert (Forall (λ kv : Z * Z, ∃ g, prefill_store s1 !! kv.2 = Some g ∧ prefill_prompt_capacity g = kv.1) (refresh Z.eqb steps l)) as Hf1
    by (by apply refresh_Forall).
  destruct (recall Z.eqb steps l) as [[k serial]|] eqn:Er.
  - pose proof Er as Er'. apply recall_Zeqb in Er' as [Hin Hk0]. cbn in Hk0. subst k.
    rewrite Forall_forall in Hf. destruct (Hf _ Hin) as (g & Hg & Hcg). cbn [snd fst] in *.
    assert (matches s1 (snd <$> Some (steps, serial)) steps = true) as ->.
    { unfold matches. cbn. change (prefill_store s1) with (prefill_store s). rewrite Hg, Hcg. apply Z.eqb_refl. }
    exists s1, serial, g. split; [reflexivity|]. split; [|done].
    eapply kept_slots_change; [done|lia| |by rewrite Hc1|done]. eapply lru_weaken; [|exact Hl1]; lia.
  - cbn [fmap option_fmap option_map matches]. pose proof (kept_serials _ _ _ _ Hk) as Hser.
    assert (kept n m past s1) as Hk1 by (eapply kept_slots_change; [done|lia| |by rewrite Hc1|done]; eapply lru_weaken; [|exact Hl1]; lia).
    destruct (kept_new_graph n m past s1 steps Hk1) as (Hnew & Hu & Hk2); [cbn; lia|].
    set (serial := prefill_serials s1 + 1) in *. set (g := {| prefill_prompt_capacity := steps; content_tag := 0; prefill_kv := [] |}) in *.
    set (s2 := s1 <| prefill_serials := serial |> <| prefill_store := <[serial := g]> (prefill_store s1) |>) in *.
    destruct (lru_put_spec (S (3 * m)) steps serial slots (refresh Z.eqb steps l) Hl1) as [Hpc Hp]. cbn [lru_put slots_lru] in Hpc, Hp.
    set (l2 := CacheSlots.remember _ _ _ _ _) in Hp. set (s3 := s2 <| prefill_graphs_ := put Z.eqb steps serial slots |>).
    assert (Forall (λ kv : Z * Z, ∃ g, prefill_store s2 !! kv.2 = Some g ∧ prefill_prompt_capacity g = kv.1) l2) as Hf2.
    { apply remember_Forall; [exists g; split; [apply lookup_insert_eq|done]|]. eapply Forall_impl; [exact Hf1|].
      intros kv (g' & Hg' & Hcg). exists g'. split; [|done]. cbn. rewrite lookup_insert_ne; [done|]. intros E. rewrite <- E in Hg'. congruence. }
    destruct (find_graph_run (3 * m) s3 steps l2 Hp) as (slots4 & E4 & Hl4 & Hc4).
    assert (recall Z.eqb steps l2 = Some (steps, serial)) as Hrec by (apply remember_recall; cbn in *; lia).
    exists (s3 <| prefill_graphs_ := slots4 |>), serial, g. rewrite Hrec in E4.
    split.
    { rewrite (io_bind_Ok _ _ _ (Some serial) (s3 <| prefill_graphs_ := slots4 |>)); [done|].
      rewrite (io_bind_Ok _ _ _ tt s3); [exact E4|]. unfold put_prefill_graph. rewrite io_bind_get, (proj2 (Z.leb_gt steps 0)) by lia.
      unfold io_modify. change (prefill_serials s1 + 1) with serial. rewrite Hu. reflexivity. }
    split; [|split_and!; [done|apply lookup_insert_eq|done..]].
    apply (kept_slots_change n m m past s2 slots4 (refresh Z.eqb steps l2) Hk2); [lia|done| |by apply refresh_Forall].
    rewrite Hc4. cbn in *. lia.
Qed.

(** A graph was computed again, or its tag set. *)
Lemma kept_store_change n m past s (store : gmap Z (@TalkerPrefillGraph Float)) c :
  kept n m past s → content c = content (prompts_ s) ∨ (∃ st out, cached_prompt_state_ (prompts_ s) = Some st ∧
    (compute_prompt root_config st).1 = Ok out ∧ c = prompts_ s <| cached_prefill_output_ := Some out |>) → coherent past c →
  (∀ serial g, store !! serial = Some g → ∃ g', prefill_store s !! serial = Some g' ∧ prefill_prompt_capacity g = prefill_prompt_capacity g' ∧
     0 <= content_tag g <= prompt_content_tag_ c) →
  (∀ serial g, prefill_store s !! serial = Some g → ∃ g', store !! serial = Some g' ∧ prefill_prompt_capacity g' = prefill_prompt_capacity g) →
  (∀ st serial g, cached_prompt_state_ c = Some st → store !! serial = Some g → content_tag g = prompt_content_tag_ c →
     cached_prefill_output_ c ≠ None ∧ prefill_kv g = (compute_prompt root_config st).2) →
  kept n m past (s <| prefill_store := store |> <| prompts_ := c |>).
Proof.
  intros [H1 H2 H3 H4 H5 H6 (l & Hl & Hcap & Hf) H8 H9 H10] Hc Hcoh Hback Hforth Hcontent.
  assert (prompt_content_tag_ c = prompt_content_tag_ (prompts_ s) ∧ next_content_tag_ c = next_content_tag_ (prompts_ s) ∧
          cached_prompt_state_ c = cached_prompt_state_ (prompts_ s)) as (E1 & E2 & E3).
  { destruct Hc as [[= E1 E2 E3 E4 E5]|(st & out & _ & _ & ->)]; done. }
  split; cbn; rewrite ?E1, ?E2, ?E3 in *; try done.
  - intros serial g Hg. destruct (Hback _ _ Hg) as (g' & Hg' & _ & Ht). destruct (H5 _ _ Hg'). by split.
  - exists l. split_and!; [done..|]. eapply Forall_impl; [exact Hf|]. intros kv (g & Hg & Hcg). destruct (Hforth _ _ Hg) as (g' & Hg' & Hcap').
    exists g'. split; [done|congruence].
  - intros st out Hst Hout. destruct Hc as [[= F1 F2 F3 F4 F5]|(st' & out' & Hst' & Hout' & ->)]; [rewrite F3 in Hout; by apply (H8 st)|].
    cbn in Hout. congruence.
Qed.

Lemma run_compute_run n m past s serial st g :
  kept n m past s → cached_prompt_state_ (prompts_ s) = Some st → prefill_store s !! serial = Some g →
  prefill_prompt_capacity g = row_count (prompt st) (hidden_size (talker root_config)) → content_tag g ≠ prompt_content_tag_ (prompts_ s) →
  ∃ kv, kept n m past (s <| prefill_store := <[serial := {| prefill_prompt_capacity := prefill_prompt_capacity g; content_tag := content_tag g; prefill_kv := kv |}]> (prefill_store s) |>) ∧
    run_compute_result root_config serial (prompt st) s =
      ((compute_prompt root_config st).1,
       s <| prefill_store := <[serial := {| prefill_prompt_capacity := prefill_prompt_capacity g; content_tag := content_tag g; prefill_kv := kv |}]> (prefill_store s) |>) ∧
    (is_ok (compute_prompt root_config st).1 = true → kv = (compute_prompt root_config st).2).
Proof.
  intros Hk Hst Hg Hcap Hne.
  assert (∀ kv, kept n m past (s <| prefill_store := <[serial := {| prefill_prompt_capacity := prefill_prompt_capacity g; content_tag := content_tag g; prefill_kv := kv |}]> (prefill_store s) |>)) as Hkept.
  { intros kv. destruct (kept_store _ _ _ _ Hk _ _ Hg) as [_ Ht]. set (new := {| prefill_kv := kv |}). set (store := insert _ _ _).
    assert (store !! serial = Some new) as Hnew by apply lookup_insert_eq.
    assert (∀ x, x ≠ serial → store !! x = prefill_store s !! x) as Hother by (intros x Hx; by apply lookup_insert_ne).
    clearbody store. refine (kept_store_change n m past s store (prompts_ s) Hk (or_introl eq_refl) (kept_prompts _ _ _ _ Hk) _ _ _).
    - intros x g' Hx. destruct (decide (x = serial)) as [->|Hxs].
      + rewrite Hnew in Hx. injection Hx as <-. by exists g.
      + rewrite Hother in Hx by done. exists g'. split_and!; [done..| |]; destruct (kept_store _ _ _ _ Hk _ _ Hx); lia.
    - intros x g' Hx. destruct (decide (x = serial)) as [->|Hxs].
      + exists new. split; [done|]. cbn. congruence.
      + exists g'. by rewrite Hother.
    - intros st' x g' Hst' Hx Htag. destruct (decide (x = serial)) as [->|Hxs].
      + rewrite Hnew in Hx. injection Hx as <-. by cbn in Htag.
      + rewrite Hother in Hx by done. by eapply (kept_content _ _ _ _ Hk). }
  unfold run_compute_result, compute_prompt. rewrite Hg, <- Hcap. destruct (negb _).
  - exists (prefill_kv g). split; [done|]. split; [|done]. f_equal.
    rewrite insert_id; [by destruct s|]. rewrite Hg. by destruct g.
  - destruct (prefill_network (prompt st)) as [status kv]. exists kv. by split.
Qed.

Lemma prefill_ready n m past s serial st g :
  kept n m past s → cached_prompt_state_ (prompts_ s) = Some st → prefill_store s !! serial = Some g →
  prefill_prompt_capacity g = row_count (prompt st) (hidden_size (talker root_config)) →
  let '(r, s') := prefill_result root_config serial st s in
  kept n m past s' ∧ cached_step_graph_ s' = cached_step_graph_ s ∧ code_predictor_graph_ s' = code_predictor_graph_ s ∧
  r = (compute_prompt root_config st).1 ∧
  (is_ok r = true → ∃ g', prefill_store s' !! serial = Some g' ∧ prefill_prompt_capacity g' = prefill_prompt_capacity g ∧
     prefill_kv g' = (compute_prompt root_config st).2).
Proof.
  intros Hk Hst Hg Hcap. unfold prefill_result. rewrite io_bind_get, Hg.
  destruct (match cached_prefill_output_ (prompts_ s) with Some _ => _ | None => _ end) eqn:Ehit.
  - destruct (cached_prefill_output_ (prompts_ s)) as [out|] eqn:Eout; [|done]. apply Z.eqb_eq in Ehit.
    rewrite (io_bind_Ok _ _ _ tt s), io_bind_get, Eout by done. cbn [mret io_ret].
    split_and!; [done..| |]; [symmetry; by apply (kept_output _ _ _ _ Hk)|]. intros _. exists g. split_and!; [done..|].
    by apply (kept_content _ _ _ _ Hk st serial g).
  - assert (content_tag g ≠ prompt_content_tag_ (prompts_ s)) as Hne.
    { intros Et. destruct (kept_content _ _ _ _ Hk st serial g Hst Hg Et) as [Ho _]. destruct (cached_prefill_output_ (prompts_ s)); [|done].
      by apply Z.eqb_neq in Ehit. }
    destruct (run_compute_run n m past s serial st g Hk Hst Hg Hcap Hne) as (kv & Hk1 & E1 & Hkv).
    set (s1 := s <| prefill_store := _ |>) in *. destruct (compute_prompt root_config st).1 as [out|e] eqn:Ec.
    2: { rewrite (io_bind_Throw _ _ _ e s1) by (by apply io_bind_Throw). by split_and!. }
    set (s2 := set_content_tag serial (prompt_content_tag_ (prompts_ s1)) (s1 <| prompts_ := prompts_ s1 <| cached_prefill_output_ := Some out |> |>)).
    rewrite (io_bind_Ok _ _ _ tt s2) by (by rewrite (io_bind_Ok _ _ _ _ _ E1)). rewrite io_bind_get.
    change (cached_prefill_output_ (prompts_ s2)) with (Some out). cbn [mret io_ret is_ok].
    assert (prefill_store s2 !! serial = Some {| prefill_prompt_capacity := prefill_prompt_capacity g; content_tag := prompt_content_tag_ (prompts_ s); prefill_kv := kv |}) as Hs2.
    { unfold s2, set_content_tag, s1. cbn. by rewrite lookup_alter_eq, lookup_insert_eq. }
    assert (∀ x, x ≠ serial → prefill_store s2 !! x = prefill_store s !! x) as Hother.
    { intros x Hx. unfold s2, set_content_tag, s1. cbn. by rewrite lookup_alter_ne, lookup_insert_ne. }
    split_and!; [|done..|].
    + pose proof (kept_tags _ _ _ _ Hk) as Htags.
      refine (kept_store_change n m past s (prefill_store s2) (prompts_ s <| cached_prefill_output_ := Some out |>) Hk _ _ _ _ _).
      * right. by exists st, out.
      * destruct (kept_prompts _ _ _ _ Hk) as [C1 C2]. by split.
      * intros x g' Hx. destruct (decide (x = serial)) as [->|Hxs].
        -- rewrite Hs2 in Hx. injection Hx as <-. exists g. split_and!; [done..| |]; cbn; lia.
        -- rewrite Hother in Hx by done. exists g'. split_and!; [done..| |]; destruct (kept_store _ _ _ _ Hk _ _ Hx); cbn; lia.
      * intros x g' Hx. destruct (decide (x = serial)) as [->|Hxs]; [eexists; split; [exact Hs2|cbn; congruence]|].
        exists g'. by rewrite Hother.
      * intros st' x g' Hst' Hx Htag. split; [done|]. cbn in Hst', Htag. assert (st' = st) as -> by congruence.
        destruct (decide (x = serial)) as [->|Hxs]; [rewrite Hs2 in Hx; injection Hx as <-; by apply Hkv|].
        rewrite Hother in Hx by done. by apply (kept_content _ _ _ _ Hk st x g' Hst Hx).
    + intros _. eexists. split; [exact Hs2|]. split; [done|]. by apply Hkv.
Qed.

(** The copy goes from the graph of the prompt to the graph of the steps. *)
Lemma transfer_ready n m past s serial steps g gs c :
  kept n m past s → prefill_store s !! serial = Some g → prefill_prompt_capacity g = steps → 0 <= steps <= c →
  sized num_hidden_layers (Z.to_nat (steps * row_elems)) (prefill_kv g) → step_graph s c gs →
  ∃ s' g', transfer_prefill_state serial steps s = (Ok tt, s') ∧ kept n m past s' ∧ code_predictor_graph_ s' = code_predictor_graph_ s ∧
    step_graph s' c g' ∧ visible (step_cache_ g') = prefill_kv g ∧ valid_steps_ (step_cache_ g') = steps.
Proof.
  intros Hk Hg Hcap Hsteps Hsized Hgs. pose proof Hgs as (Egs & Hcs & Hc). unfold transfer_prefill_state.
  rewrite io_bind_get, Hg, Egs, Hcap, Z.eqb_refl, (cache_steps_eq _ _ _ _ Hcs), (proj2 (Z.ltb_ge c steps)) by lia. cbn [negb].
  set (s1 := s <| transfer_graph_ := Some (serial, step_serial gs) |> <| transfer_src_serial_ := serial |> <| transfer_dst_serial_ := step_serial gs |>).
  assert (kept n m past s1) as Hk1.
  { destruct Hk as [H1 H2 H3 H4 H5 H6 H7 H8 H9 H10]. split; cbn; try done. by intros a b [= <- <-]. }
  assert (∃ s2, (if bool_decide (transfer_graph_ s = None) || negb (transfer_src_serial_ s =? serial) || negb (transfer_dst_serial_ s =? step_serial gs)
                 then io_modify (λ s, s <| transfer_graph_ := Some (serial, step_serial gs) |> <| transfer_src_serial_ := serial |>
                                        <| transfer_dst_serial_ := step_serial gs |>) else mret tt) s = (Ok tt, s2) ∧
            kept n m past s2 ∧ transfer_graph_ s2 = Some (serial, step_serial gs) ∧ prefill_store s2 = prefill_store s ∧
            step_graph s2 c gs ∧ code_predictor_graph_ s2 = code_predictor_graph_ s) as (s2 & E2 & Hk2 & Ht2 & Hst2 & Hg2 & Hp2).
  { destruct (_ || _) eqn:Eb; [by exists s1|]. exists s. split; [done|]. split; [done|]. split; [|done].
    apply orb_false_iff in Eb as [[Eb1%bool_decide_eq_false Eb2%negb_false_iff]%orb_false_iff Eb3%negb_false_iff].
    apply Z.eqb_eq in Eb2, Eb3. destruct (transfer_graph_ s) as [[a b]|] eqn:Et; [|done].
    destruct (kept_transfer _ _ _ _ Hk a b Et) as [-> ->]. by rewrite Eb2, Eb3. }
  rewrite (io_bind_Ok _ _ _ _ _ E2), io_bind_get, Ht2, Hst2, Hg, Z.eqb_refl.
  destruct (transfer_step num_hidden_layers row_elems c (step_cache_ gs) steps (prefill_kv g) Hcs Hsteps Hsized) as (k & Ek & Hk' & Hvis & Hval).
  destruct (on_step_cache_run (io_modify (write_rows 0 (prefill_kv g));; mark_device_import steps) s2 c gs Hg2) as (s3 & g3 & E3 & Hg3 & Hc3 & Hr3 & Hp3 & _).
  { unfold mbind, io_bind, io_modify. by rewrite Ek. }
  unfold mbind, io_bind, io_modify in E3, Hc3. rewrite Ek in E3, Hc3. cbn [fst snd] in *.
  exists s3, g3. split; [exact E3|]. split; [by eapply kept_rest|]. split; [congruence|]. split; [done|]. by rewrite Hc3.
Qed.

Context (prefill_sized : ∀ embeddings out, (prefill_network embeddings).1 = Ok out →
           sized num_hidden_layers (Z.to_nat (row_count embeddings (hidden_size (talker root_config)) * row_elems)) (prefill_network embeddings).2).

Lemma compute_prompt_sized st out :
  (compute_prompt root_config st).1 = Ok out →
  sized num_hidden_layers (Z.to_nat (row_count (prompt st) (hidden_size (talker root_config)) * row_elems)) (compute_prompt root_config st).2.
Proof. unfold compute_prompt. destruct (negb _); [done|]. apply prefill_sized. Qed.

Notation generate := (generate no_row root_config weights sampling_policy num_hidden_layers row_elems).
Notation speak := (speak no_row root_config weights sampling_policy P G).

(** The predictor is made once, if the model has several groups. *)
Lemma ensure_predictor_spec s :
  predictors_ready s →
  match ensure_predictor no_row root_config s with
  | (Ok _, s') => rest s' = rest s ∧ cached_step_graph_ s' = cached_step_graph_ s ∧ predictors_ready s' ∧ code_predictor_graph_ s' ≠ None ∧
      1 < num_code_groups (talker root_config)
  | (Throw e, s') => s' = s ∧ make_predictor no_row root_config = Throw e
  end.
Proof.
  intros Hp. unfold ensure_predictor. rewrite io_bind_get. destruct (code_predictor_graph_ s) as [p|] eqn:E.
  - cbn [mret io_ret]. destruct (Hp p E) as [_ Hg]. split_and!; [done..|by rewrite E|done].
  - unfold make_predictor. destruct (Z.leb_spec (num_code_groups (talker root_config)) 1) as [Hle|Hgt]; [done|].
    rewrite io_bind_lift. cbn [io_modify]. split_and!; [done|done| |done|done].
    intros p [= <-]. split; [|done]. unfold predictor_ready. cbn. apply length_replicate.
Qed.

Lemma ready_more n n' m m' past past' s : ready n m past s → (n' <= n)%nat → (m' <= m)%nat → past ⊆ past' → ready n' m' past' s.
Proof.
  intros ([H1 H2 H3 H4 H5 H6 (l & Hl & Hcap & Hf) H8 H9 H10] & Hs & Hp) Hn Hm Hpast. split; [|by split].
  split; try done; [by eapply coherent_more|lia|lia|]. exists l. split; [eapply lru_weaken; [|exact Hl]; lia|done].
Qed.

Lemma kept_fewer n n' m m' past s : kept n m past s → (n' <= n)%nat → (m' <= m)%nat → kept n' m' past s.
Proof.
  intros [H1 H2 H3 H4 H5 H6 (l & Hl & Hcap & Hf) H8 H9 H10] Hn Hm.
  split; try done; [lia|lia|]. exists l. split; [eapply lru_weaken; [|exact Hl]; lia|done].
Qed.

(** From the prompt in its graph to the frames. *)
Lemma generate_tail n m past s serial g st current kv options rp cancelled on_frame :
  let steps := row_count (prompt st) (hidden_size (talker root_config)) in
  kept n m past s → step_ready s → predictors_ready s → code_predictor_graph_ s ≠ None → 1 < num_code_groups (talker root_config) →
  0 < max_new_tokens options <= G → 0 < steps <= P → prefill_store s !! serial = Some g → prefill_prompt_capacity g = steps →
  compute_prompt root_config st = (Ok current, kv) → prefill_kv g = kv →
  let '(r, s') :=
    (ensure_capacity steps (max_new_tokens options) (steps + 1);; transfer_prefill_state serial steps;;
     generate_loop root_config weights sampling_policy (predict_frame root_config weights sampling_policy)
       (advance_talker root_config num_hidden_layers row_elems steps (max_new_tokens options)) cancelled on_frame options rp st
       (Z.to_nat (max_new_tokens options)) 0 current [] [] (mt19937 (seed options)) 0) s in
  ready n m past s' ∧
  r = (generate_loop root_config weights sampling_policy (predict_anew no_row root_config weights sampling_policy) (advance_rows root_config)
         cancelled on_frame options rp st (Z.to_nat (max_new_tokens options)) 0 current [] [] (mt19937 (seed options)) 0 (kv, steps)).1.
Proof.
  intros steps Hk Hstep Hpred Hsome Hgroups Hmax Hsteps Hg Hcap Ec Hkv.
  destruct (ensure_capacity_spec s steps (max_new_tokens options) (steps + 1) Hstep) as (s5 & g5 & c5 & E5 & Hsame & Hg5 & Hc5 & _); [lia..|].
  apply same_but_step_rest in Hsame as [Hr5 Hp5]. pose proof (kept_rest _ _ _ _ _ Hr5 Hk) as Hk5.
  assert (prefill_store s5 !! serial = Some g) as Hg' by (injection Hr5 as _ _ _ -> _ _ _ _ _; done).
  pose proof (compute_prompt_sized st current ltac:(by rewrite Ec)) as Hsz. rewrite Ec in Hsz. cbn [snd] in Hsz.
  destruct (transfer_ready n m past s5 serial steps g g5 c5 Hk5 Hg' Hcap) as (s6 & g6 & E6 & Hk6 & Hp6 & Hg6 & Hvis6 & Hval6); [lia|by rewrite Hkv|done|].
  rewrite (io_bind_Ok _ _ _ _ _ E5), (io_bind_Ok _ _ _ _ _ E6).
  assert (generating s6 steps 0 s6 (kv, steps)) as Hgen.
  { split; [done|]. split; [intros p; rewrite Hp6, Hp5; apply Hpred|]. split; [by rewrite Hp6, Hp5|].
    exists g6, c5. cbn [fst snd]. split_and!; [done|congruence|lia|lia]. }
  pose proof (generate_loop_same root_config weights sampling_policy (generating s6 steps) (stopped s6)
    (predict_frame root_config weights sampling_policy) (predict_anew no_row root_config weights sampling_policy)
    (advance_talker root_config num_hidden_layers row_elems steps (max_new_tokens options)) (advance_rows root_config)
    cancelled on_frame options rp st (generating_stopped s6 steps)
    (λ k hidden code rng call, predict_same s6 steps k options hidden code rng call Hgroups)
    (λ k embed, advance_same s6 steps (max_new_tokens options) k embed Hsteps Hmax)
    (Z.to_nat (max_new_tokens options)) 0 current [] [] (mt19937 (seed options)) 0 eq_refl s6 (kv, steps) Hgen) as [Hres Hend].
  destruct (generate_loop root_config weights sampling_policy (predict_frame root_config weights sampling_policy) _ _ _ _ _ _ _ _ _ _ _ _ _ s6) as [r s7].
  cbn [fst snd] in *. assert (stopped s6 s7 (generate_loop root_config weights sampling_policy (predict_anew no_row root_config weights sampling_policy)
    (advance_rows root_config) cancelled on_frame options rp st (Z.to_nat (max_new_tokens options)) 0 current [] [] (mt19937 (seed options)) 0 (kv, steps)).2)
    as (Hr7 & Hp7 & Hs7) by (by destruct (is_ok r)).
  split; [|done]. split; [by eapply kept_rest|by split].
Qed.

(** A generation gives what the networks give without any cache, and leaves the caches in order. *)
Lemma generate_spec n m past request options rp cancelled on_frame s :
  ready (S n) (S m) past s → (∀ p, p ∈ past → same_embedding feqb p request) →
  let '(r, s') := generate request options rp cancelled on_frame s in
  ready n m (request :: past) s' ∧ agrees r (speak request options rp cancelled on_frame).
Proof.
  intros Hready Hs. pose proof (kept_capacities _ _ _ _ (proj1 Hready)) as [HP HG]. unfold Talker.generate, Talker.speak. rewrite io_bind_get, HG.
  destruct (_ || _) eqn:Elim; [split; [eapply ready_more; [done|lia|lia|set_solver]|done]|].
  apply orb_false_iff in Elim as [Hmax1%Z.leb_gt Hmax2%Z.ltb_ge].
  pose proof (ensure_prompt_ready n (S m) past request s Hready Hs) as Hprompt.
  destruct (on_prompts (ensure_prompt_state request) s) as [[[]|e] s1] eqn:E1.
  2: { rewrite (io_bind_Throw _ _ _ _ _ E1). destruct Hprompt as [H1 [e' ->]]. split; [by eapply ready_more; [exact H1|lia|lia|]|done]. }
  rewrite (io_bind_Ok _ _ _ _ _ E1), io_bind_get. destruct Hprompt as [Hready1 (st & Est & Hb)]. rewrite Est, Hb. cbn [mbind outcome_bind].
  pose proof (kept_capacities _ _ _ _ (proj1 Hready1)) as [HP1 _]. rewrite HP1. set (steps := row_count (prompt st) _).
  destruct ((steps <=? 0) || (P <? steps)) eqn:Esteps; [split; [by eapply ready_more; [exact Hready1|lia|lia|]|done]|].
  apply orb_false_iff in Esteps as [Hst1%Z.leb_gt Hst2%Z.ltb_ge].
  destruct Hready1 as (Hk1 & Hstep1 & Hpred1).
  destruct (ensure_prefill_ready n m (request :: past) s1 steps Hk1 ltac:(lia)) as (s2 & serial & g & E2 & Hk2 & Hpr2 & Hg2 & Hcap2 & Hgs2 & Hp2).
  rewrite (io_bind_Ok _ _ _ _ _ E2).
  pose proof (prefill_ready n m _ s2 serial st g Hk2 ltac:(by rewrite Hpr2) Hg2 Hcap2) as H3.
  destruct (prefill_result root_config serial st s2) as [r s3] eqn:E3. destruct H3 as (Hk3 & Hgs3 & Hp3 & Hr3 & Hkv3).
  assert (step_ready s3) as Hstep3 by (intros x; unfold step_graph; rewrite Hgs3, Hgs2; apply Hstep1).
  assert (predictors_ready s3) as Hpred3 by (intros x; rewrite Hp3, Hp2; apply Hpred1).
  destruct (compute_prompt root_config st) as [status kv] eqn:Ec. cbn [fst snd] in *. subst r.
  destruct status as [current|e]; [|rewrite (io_bind_Throw _ _ _ _ _ E3); split; [by split|done]].
  rewrite (io_bind_Ok _ _ _ _ _ E3). cbn [mbind outcome_bind]. destruct (Hkv3 eq_refl) as (g3 & Hg3 & Hcap3 & Hkv).
  pose proof (ensure_predictor_spec s3 Hpred3) as H4. destruct (ensure_predictor no_row root_config s3) as [[[]|e] s4] eqn:E4.
  2: { rewrite (io_bind_Throw _ _ _ _ _ E4). destruct H4 as [-> ->]. split; [by split|done]. }
  rewrite (io_bind_Ok _ _ _ _ _ E4). destruct H4 as (Hr4 & Hgs4 & Hpred4 & Hsome4 & Hgroups).
  assert (∃ p, make_predictor no_row root_config = Ok p) as [p ->].
  { unfold make_predictor. rewrite (proj2 (Z.leb_gt _ 1)) by done. eauto. }
  cbn [mbind outcome_bind].
  assert (step_ready s4) as Hstep4 by (intros x; unfold step_graph; rewrite Hgs4; apply Hstep3).
  pose proof (generate_tail n m (request :: past) s4 serial g3 st current kv options rp cancelled on_frame) as Ht. cbv zeta in Ht. fold steps in Ht.
  specialize (Ht (kept_rest _ _ _ _ _ Hr4 Hk3) Hstep4 Hpred4 Hsome4 Hgroups ltac:(lia) ltac:(lia)).
  assert (prefill_store s4 !! serial = Some g3) as Hg4 by (injection Hr4 as _ _ _ -> _ _ _ _ _; done).
  specialize (Ht Hg4 ltac:(congruence) Ec Hkv).
  destruct ((ensure_capacity steps (max_new_tokens options) (steps + 1) ≫= _) s4) as [r s7]. destruct Ht as [Ht1 ->]. by split.
Qed.

(** * Any sequence of requests *)

Lemma make_impl_ready n m slots s :
  make_impl (Float := Float) (Row := Row) P G slots = Ok s → Z.of_nat n + 1 < 2 ^ 64 → Z.of_nat (3 * m) < 2 ^ 64 → ready n m [] s.
Proof.
  intros E Hn Hm. unfold make_impl in E. rewrite (proj2 (Z.leb_gt P 0)), (proj2 (Z.leb_gt G 0)) in E by lia. cbn [orb] in E.
  destruct (Nat.eqb_spec slots 0) as [|Hslots]; [done|]. injection E as <-. split; [|by split].
  split; cbn; try done; [lia|lia|]. exists []. split; [|split; [lia|constructor]]. by apply make_represents.
Qed.

Lemma release_ready n m past s : ready n m past s → ready n m past (release_cached_step_graph s).2.
Proof. intros (Hk & _ & Hp). split; [|by split]. by eapply kept_rest; [|exact Hk]. Qed.

Lemma serve_spec calls : ∀ past s,
  ready (length calls) (length calls) past s →
  (∀ p q, p ∈ requests calls ++ past → q ∈ requests calls ++ past → same_embedding feqb p q) →
  Forall2 agrees (serve no_row root_config weights sampling_policy num_hidden_layers row_elems calls s)
    (spoken no_row root_config weights sampling_policy P G calls).
Proof.
  induction calls as [|[request options rp cancelled on_frame|] calls IH]; intros past s Hready Hs; cbn [serve spoken omap list_omap length] in *; [constructor|..].
  - pose proof (generate_spec _ _ past request options rp cancelled on_frame s Hready) as H.
    cbn [requests omap list_omap] in Hs. destruct (generate _ _ _ _ _ _) as [r s']. destruct H as [Hr Ha].
    { intros p Hp. apply Hs; set_solver. }
    constructor; [done|]. apply (IH (request :: past)); [done|]. intros p q Hp Hq. apply Hs; unfold requests in *; set_solver.
  - apply (IH past); [|done]. apply release_ready. eapply ready_more; [done|lia|lia|done].
Qed.
End caches.

(** * The frames *)

Section frames.
Context {Float Double Rng Row : Type} `{!Numbers Float Double Rng} `{!Networks Float Row}.
Context (no_row : Row).
Context (root_config : Qwen3TTSConfig) (weights : @Qwen3TalkerWeights Float) (sampling_policy : TorchCudaSamplingPolicy).
Context (num_hidden_layers : nat) (row_elems : Z).

Notation groups := (num_code_groups (talker root_config)).

Lemma predictor_loop_yields fuel options group code codes rng call :
  yields (λ r : list Z * Rng * Z, ∃ more, r.1.1 = codes ++ more ∧ length more = fuel)
    (predictor_loop (Row := Row) root_config weights sampling_policy fuel options group code codes rng call).
Proof.
  revert group code codes rng call. induction fuel as [|fuel IH]; intros group code codes rng call; cbn [predictor_loop].
  - apply yields_ret. exists []. by rewrite app_nil_r.
  - do 3 (eapply yields_bind; [apply yields_any|]; intros ? _). intros s r s' (more & E & Hl)%IH.
    exists (a1.1.1 :: more). rewrite E, <- app_assoc. split; [done|]. cbn. by rewrite Hl.
Qed.

Lemma predictor_generate_yields options hidden first_code rng call :
  1 < groups →
  yields (λ r : list Z * Rng * Z, ∃ more, r.1.1 = first_code :: more ∧ Z.of_nat (length r.1.1) = groups)
    (predictor_generate (Row := Row) root_config weights sampling_policy options hidden first_code rng call).
Proof.
  intros Hg. unfold predictor_generate. do 3 (eapply yields_bind; [apply yields_any|]; intros ? _).
  intros s r s' (more & E & Hl)%predictor_loop_yields. rewrite E. exists (a1.1.1 :: more). split; [done|].
  rewrite length_app, Hl. cbn [length]. lia.
Qed.

Lemma predict_frame_yields options hidden first_code rng call :
  1 < groups →
  yields (λ r : list Z * Rng * Z, ∃ more, r.1.1 = first_code :: more ∧ Z.of_nat (length r.1.1) = groups)
    (predict_frame (Row := Row) root_config weights sampling_policy options hidden first_code rng call).
Proof.
  intros Hg s r s'. unfold predict_frame, on_predictor. destruct (code_predictor_graph_ s) as [p|]; [|done].
  destruct (predictor_generate _ _ _ _ _ _ _ _ p) as [r' p'] eqn:E. intros [= -> _].
  by eapply predictor_generate_yields.
Qed.

(** The frame begins with another code than the end of speech. *)
Definition complete (frame : list Z) : Prop :=
  ∃ first_code more, frame = first_code :: more ∧ first_code ≠ codec_eos_token_id (talker root_config) ∧ Z.of_nat (length frame) = groups.

Lemma generate_loop_yields advance cancelled on_frame options rp state fuel step current codes frames rng call :
  1 < groups → step = Z.of_nat (length frames) → (length frames + fuel = Z.to_nat (max_new_tokens options))%nat → 0 < max_new_tokens options →
  Z.of_nat (length frames) < max_new_tokens options → Forall complete frames →
  yields (λ r, Forall complete r ∧ Z.of_nat (length r) < max_new_tokens options ∧ ∃ more, r = frames ++ more)
    (generate_loop root_config weights sampling_policy (predict_frame (Row := Row) root_config weights sampling_policy) advance
       cancelled on_frame options rp state fuel step current codes frames rng call).
Proof.
  intros Hg. revert step current codes frames rng call. induction fuel as [|fuel IH]; intros step current codes frames rng call Hstep Hfuel Hmax Hlt Hf;
    assert (Forall complete frames ∧ Z.of_nat (length frames) < max_new_tokens options ∧ ∃ more, frames = frames ++ more) as Hdone
      by (split_and!; [done..|exists []; by rewrite app_nil_r]); cbn [generate_loop]; [by apply yields_ret|].
  destruct (cancelled step); [by apply yields_ret|].
  do 2 (eapply yields_bind; [apply yields_any|]; intros ? _).
  destruct (Z.eqb_spec a0.1.1 (codec_eos_token_id (talker root_config))) as [|Hend]; [by apply yields_ret|].
  destruct (Z.leb_spec (max_new_tokens options) (step + 1)) as [|Hnext]; [by apply yields_ret|].
  eapply yields_bind; [by apply predict_frame_yields|]. intros predicted (more & E & Hl). cbv zeta.
  assert (Forall complete (frames ++ [predicted.1.1])) as Hf' by (apply Forall_app; split; [done|]; repeat constructor; eexists _, more; by split_and!).
  assert (length (frames ++ [predicted.1.1]) = S (length frames)) as Hlen by (rewrite length_app; cbn; lia).
  destruct (negb _).
  - apply yields_ret. split_and!; [done|lia|by eexists].
  - do 2 (eapply yields_bind; [apply yields_any|]; intros ? _).
    intros s r s' Hr. apply IH in Hr as (H1 & H2 & more' & H3); [|lia..|done].
    split_and!; [done..|]. exists (predicted.1.1 :: more'). rewrite H3, <- app_assoc. done.
Qed.

Lemma generate_yields request options rp cancelled on_frame :
  1 < groups →
  yields (λ fs, Forall complete fs ∧ Z.of_nat (length fs) < max_new_tokens options)
    (generate (Row := Row) no_row root_config weights sampling_policy num_hidden_layers row_elems request options rp cancelled on_frame).
Proof.
  intros Hg. unfold generate. eapply yields_bind; [apply yields_any|]. intros s0 _.
  destruct (_ || _) eqn:Emax; [by intros s a s'|]. apply orb_false_iff in Emax as [Hmax%Z.leb_gt _]. cbv zeta.
  do 2 (eapply yields_bind; [apply yields_any|]; intros ? _). destruct (cached_prompt_state_ _) as [state|]; [|by intros s a' s'].
  destruct (_ || _); [by intros s a' s'|]. do 5 (eapply yields_bind; [apply yields_any|]; intros ? _).
  intros s r s' Hr. apply generate_loop_yields in Hr as (H1 & H2 & _); [by split|done|done| |done|done|constructor]. cbn. lia.
Qed.

Lemma concat_complete fs : Forall complete fs → Z.of_nat (length (concat fs)) = Z.of_nat (length fs) * groups.
Proof.
  induction 1 as [|f fs (c & more & _ & _ & Hl) _ IH]; cbn [concat length]; [lia|]. rewrite length_app. lia.
Qed.

(** C8. Speech codes come in whole frames: a request that is served gives fewer frames
    than the limit, each of them a code other than the end of speech and one code for
    every other group; and the codes for the decoder are those of the reference,
    followed by those of the frames. *)
Theorem frames_whole request options rp s (out : Qwen3TalkerCodes) s' :
  1 < groups → generate_codes no_row root_config weights sampling_policy num_hidden_layers row_elems request options rp s = (Ok out, s') →
  ∃ fs, Forall complete fs ∧ Z.of_nat (length fs) < max_new_tokens options ∧
    codes (generated_codes out) = concat fs ∧ frames (generated_codes out) = Z.of_nat (length fs) ∧
    Z.of_nat (length (codes (generated_codes out))) = frames (generated_codes out) * code_groups (generated_codes out) ∧
    codes (decoder_input_codes out) = from_option codes [] (reference_codes request) ++ concat fs ∧
    frames (decoder_input_codes out) = from_option frames 0 (reference_codes request) + Z.of_nat (length fs).
Proof.
  intros Hg H. unfold generate_codes in H. destruct (generate no_row root_config weights sampling_policy num_hidden_layers row_elems request options rp (λ _, false) (λ _, true) s) as [[fs|e] t] eqn:E;
    [rewrite (io_bind_Ok _ _ _ _ _ E) in H|by rewrite (io_bind_Throw _ _ _ _ _ E) in H].
  injection H as <- _. destruct (generate_yields _ _ _ _ _ Hg _ _ _ E) as [H1 H2]. exists fs. cbn.
  split_and!; try done. by apply concat_complete.
Qed.
End frames.

(** * What is served *)

Section served.
Context {Float Double Rng Row : Type} `{!Numbers Float Double Rng} `{!Networks Float Row}.
Context (no_row : Row) (root_config : Qwen3TTSConfig) (weights : @Qwen3TalkerWeights Float) (sampling_policy : TorchCudaSamplingPolicy).
Context (num_hidden_layers : nat) (row_elems : Z).

(** What is relied on: a row of a table has as many values as asked for, a tensor of
    32-bit numbers stores what is written, the networks answer with keys and values of
    the sizes their graphs have; and the model was loaded. *)
Record networks_ok : Prop := {
  rows_ok : ∀ t src dim, length (row_to_f32 t src dim) = Z.to_nat dim;
  stored_ok : ∀ x : Float, stored GGML_TYPE_F32 x = x;
  step_ok : ∀ kv position embed, sized num_hidden_layers (Z.to_nat row_elems) (step_network kv position embed).2;
  prefill_ok : ∀ embeddings out, (prefill_network embeddings).1 = Ok out →
    sized num_hidden_layers (Z.to_nat (row_count embeddings (hidden_size (talker root_config)) * row_elems)) (prefill_network embeddings).2;
  loaded_ok : weights_ok (talker root_config) weights;
  layers_ok : (0 < num_hidden_layers)%nat ∧ 0 < row_elems;
}.

(** C7. The runtime answers as if it had no caches: whatever is asked of it, in whatever
    order, and whenever the step graph is released, every request is answered with the
    frames (or refused as) the networks give for it alone, with the keys and values in
    a plain list and a new code predictor for every frame. *)
Theorem generation_transparent P G slots calls s :
  networks_ok → P + G < 2 ^ 31 → (P + G) * row_elems < 2 ^ 64 → 3 * Z.of_nat (length calls) + 1 < 2 ^ 64 →
  (∀ p q, p ∈ requests calls → q ∈ requests calls → same_embedding feqb p q) →
  make_impl P G slots = Ok s →
  Forall2 agrees (serve no_row root_config weights sampling_policy num_hidden_layers row_elems calls s)
    (spoken no_row root_config weights sampling_policy P G calls).
Proof.
  intros [H1 H2 H3 H4 H5 [H6 H7]] HP He Hn Hs E.
  assert (0 < P ∧ 0 < G) as Hpos by (unfold make_impl in E; destruct (Z.leb_spec P 0), (Z.leb_spec G 0); done).
  eapply (serve_spec no_row root_config weights sampling_policy num_hidden_layers row_elems P G) with (past := []); try done.
  - eapply make_impl_ready; [done..|lia|lia].
  - intros p q Hp Hq. rewrite app_nil_r in Hp, Hq. by apply Hs.
Qed.
End served.

(** * Examples *)

Module Speech.
Import TalkerPrompt.Prompts.
Import TalkerSampler.Choices(lowest, finite, first_of).

#[export] Instance numbers : Numbers Z Z nat := {|
  fltb := Z.ltb; feqb := Z.eqb; is_finite := finite; fzero := 0; fone := 1; neg_inf := lowest; half := 0; kInvTwoPow32 := 1;
  fadd := Z.add; fmul := Z.mul; fdiv := Z.div; fsub := Z.sub; fneg := Z.opp; fexp := λ _, 0; flog := id; of_u32 := id;
  to_double := id; dexp := λ x, x + 1000; dadd := Z.add; ddiv := Z.div; dltb := Z.ltb; deqb := Z.eqb; dzero := 0; dneg_inf := lowest;
  sort_ := insertion_sort; distribution_ := first_of; mt19937 := Z.to_nat;
  ggml_row_size := row_size; row_to_f32 := to_row; stored := λ _ x, x;
|}.

(** Logits that depend on all a network has seen; the end of speech now and then. *)
Definition scores (seen : Z) : list Z := (λ j, if j =? seen mod 7 then 10 else if (j =? 1026) && (seen mod 5 =? 0) then 20 else 0) <$> seqZ 0 1028.
Definition sum (l : list Z) : Z := foldr (λ x total, (x + 3 * total) mod 1009) 0 l.
Definition answer (seen : Z) : Qwen3TalkerPrefillResult Z := {| logits := scores seen; last_hidden := {| values := [seen mod 11; 1]; dims := 2 |} |}.
Definition sum_rows (kv : list (list Z * list Z)) : Z := sum (map (λ r, sum r.1 + 2 * sum r.2) kv).

#[export] Instance networks : Networks Z Z := {|
  prefill_network e := let keys := take (length e / 2)%nat e in (Ok (answer (sum e)), [(keys, keys); (keys, keys)]);
  step_network kv position e := let seen := sum_rows kv + position + sum e in (Ok (answer seen), [([seen mod 13], [seen mod 3]); ([position], [sum e mod 17])]);
  predictor_prefill e := (Ok ((λ j, (sum e * j) mod 5) <$> seqZ 0 8), (sum e, 1));
  predictor_step group rows position e := (Ok ((λ j, (sum rows * (j + Z.of_nat group)) mod 7) <$> seqZ 0 8), sum e + position);
|}.

Definition speech_config : Qwen3TTSConfig :=
  {| talker := {| hidden_size := 2; text_hidden_size := 2; num_code_groups := 3; vocab_size := 1028; codec_bos_id := 1; codec_eos_token_id := 1026;
                  codec_think_id := 3; codec_nothink_id := 4; codec_pad_id := 5; codec_think_bos_id := 6; codec_think_eos_id := 7;
                  codec_language_id := {[str "english" := 8]}; speaker_id := ∅; speaker_dialect := ∅ |};
     tts_bos_token_id := 20; tts_eos_token_id := 21; tts_pad_token_id := 22 |}.

Definition speech_weights : @Qwen3TalkerWeights Z :=
  {| codec_embedding := table 1028; code_predictor_embeddings := [table 8; table 8]; text_embedding := table 32;
     text_projection_fc1 := projection; text_projection_fc2 := projection |}.

Definition said (text : list Z) : @Qwen3TalkerPrefill Z :=
  {| prompt_mode := VoiceClone; input_ids := [10; 11; 12] ++ text ++ [13; 14; 15; 16; 17]; instruct_ids := []; reference_ids := one_reference;
     reference_codes := Some {| codes := [3; 4; 5; 6; 3; 4]; frames := 2; code_groups := 3 |};
     speaker_embedding := Some {| values := [7; 8]; dims := 2 |}; speaker := []; language := str "English"; icl_mode := true;
     x_vector_only_mode := false |}.

Definition with_limit (limit : Z) (sampled : bool) : Qwen3TTSGenerationOptions Z :=
  {| max_new_tokens := limit; do_sample := sampled; top_k := 4; top_p := 1; temperature := 1;
     subtalker_do_sample := sampled; subtalker_top_k := 3; subtalker_top_p := 1; subtalker_temperature := 1; seed := 5 |}.

Definition never (step : Z) : bool := false.
Definition all_frames (frames_ : list (list Z)) : bool := true.
Definition two_frames (frames_ : list (list Z)) : bool := (length frames_ <? 2)%nat.

(** The same text again; a longer one, after the graph was released and not; one that is
    stopped; one that asks for too much. *)
Definition dialogue : list (@Call Z) :=
  [Generate (said [1; 2]) (with_limit 6 false) 2 never all_frames; Generate (said [1; 2]) (with_limit 6 true) 2 never all_frames;
   Release; Generate (said [3]) (with_limit 6 false) 2 never two_frames; Generate (said [3; 4; 5]) (with_limit 8 false) 1 never all_frames;
   Generate (said [1; 2]) (with_limit 6 false) 2 never all_frames; Generate (said [1; 2]) (with_limit 9 false) 2 never all_frames].

Definition started : outcome (@Impl Z Z) := make_impl 64 8 2.

Notation served calls s := (serve 0 speech_config speech_weights default_policy 2 1 calls s).

Lemma speech_ok : networks_ok speech_config speech_weights 2 1.
Proof.
  split; [exact to_row_length|done| | |by split; [done|done|split; done..]|lia].
  - intros kv position embed. split; [done|]. by repeat constructor.
  - intros embeddings out _. split; [done|]. unfold row_count. cbn [networks prefill_network].
    change (hidden_size _) with 2. rewrite Z.mul_1_r, Z.quot_div_nonneg, <- (Nat2Z.inj_div _ 2), Nat2Z.id by lia.
    assert (length (take (length embeddings / 2) embeddings) = (length embeddings / 2)%nat) as H
      by (rewrite length_take, Nat.min_l; [done|]; apply Nat.Div0.div_le_upper_bound; lia).
    by repeat constructor.
Qed.

Lemma generation_transparent_witness :
  ∃ s, started = Ok s ∧ Forall2 agrees (served dialogue s) (spoken 0 speech_config speech_weights default_policy 64 8 dialogue) ∧
    map (λ r : outcome (list (list Z)), match r with Ok fs => fs | Throw _ => [] end) (served dialogue s) =
    [[[3; 2; 2]; [2; 2; 2]; [3; 3; 1]; [2; 0; 6]; [1; 2; 2]]; [[0; 4; 3]; [2; 2; 4]; [3; 3; 3]; [1; 1; 1]; [1; 2; 1]]; [[0; 4; 1]; [0; 4; 5]]; [[2; 2; 4]; [0; 0; 4]; [2; 1; 4]; [0; 1; 0]]; [[3; 2; 2]; [2; 2; 2]; [3; 3; 1]; [2; 0; 6]; [1; 2; 2]]; []].
Proof.
  eexists. split; [reflexivity|]. split; [|by vm_compute].
  eapply (generation_transparent 0 speech_config speech_weights default_policy 2 1 64 8 2); [exact speech_ok|lia|lia|cbn; lia| |reflexivity].
  intros p q Hp Hq _.
  repeat (apply elem_of_cons in Hp as [->|Hp]); [..|by apply not_elem_of_nil in Hp];
    (repeat (apply elem_of_cons in Hq as [->|Hq]); [done..|by apply not_elem_of_nil in Hq]).
Defined.

Lemma with_rest {A B} (p : A * B) a : p.1 = a → p = (a, p.2).
Proof. intros <-. by destruct p. Qed.

Lemma frames_whole_witness :
  ∃ s out, started = Ok s ∧
    (generate_codes 0 speech_config speech_weights default_policy 2 1 (said [1; 2]) (with_limit 6 false) 2 s).1 = Ok out ∧
    ∃ fs, codes (decoder_input_codes out) = [3; 4; 5; 6; 3; 4] ++ concat fs ∧ frames (decoder_input_codes out) = 2 + Z.of_nat (length fs) ∧
          Z.of_nat (length fs) < 6.
Proof.
  eexists _, _. split; [reflexivity|]. match goal with |- context [generate_codes _ _ _ _ _ _ _ _ _ ?s] =>
    pose proof (frames_whole 0 speech_config speech_weights default_policy 2 1 (said [1; 2]) (with_limit 6 false) 2 s) as H end.
  split; [vm_compute; reflexivity|].
  edestruct H as (fs & _ & H2 & _ & _ & _ & H3 & H4); [done| |by exists fs].
  apply with_rest. vm_compute. reflexivity.
Defined.

End Speech.
