(* ===== verification/AudioChunking.v ===== *)
(** Recordings cut into chunks (framework/audio/chunking.cpp): chunks of a fixed
    length, around detected speech and at quiet places, the audio of a chunk, and
    the timestamps of a chunk put back into those of the recording. *)

From stdpp Require Import gmap sorting.
From S2P Require Import Prelude TextChunking Options StdSort Session.

#[local] Open Scope Z_scope.

Record TimeSpan := { start_sample : Z; end_sample : Z }.

Definition require_positive (value : Z) (name : bytes) : outcome () :=
  if value <=? 0 then Throw (str "Audio chunker requires positive " ++ name) else Ok tt.

(** * Chunks of a fixed length *)

Inductive AudioChunkPadMode := Zero | Reflect.
Inductive AudioChunkTailAlignment := Start | Center.

Record AudioChunkSpec := {
  chunk_samples : Z;
  hop_samples : Z;
  pad_mode : AudioChunkPadMode;
  tail_alignment : AudioChunkTailAlignment;
  reflect_min_valid_samples : Z;
}.

Record AudioChunkSpan := {
  index : Z;
  output_start_sample : Z;
  valid_samples : Z;
  copy_start_sample : Z;
  valid_start_in_chunk : Z;
}.

Definition chunk_span (spec : AudioChunkSpec) (input_samples index start : Z) : AudioChunkSpan :=
  let valid := Z.min (chunk_samples spec) (input_samples - start) in
  let copy_start :=
    if valid <? chunk_samples spec then
      match tail_alignment spec with Center => start - (chunk_samples spec - valid) ÷ 2 | Start => start end
    else start in
  {| index := index; output_start_sample := start; valid_samples := valid; copy_start_sample := copy_start;
     valid_start_in_chunk := start - copy_start |}.

(** [while (start < input_samples)]. *)
Fixpoint plan_loop (fuel : nat) (spec : AudioChunkSpec) (input_samples start index : Z) (spans : list AudioChunkSpan) : outcome (list AudioChunkSpan) :=
  match fuel with
  | O => Ok spans
  | S fuel =>
      if start <? input_samples then
        let span := chunk_span spec input_samples index start in
        if (valid_start_in_chunk span <? 0) || (chunk_samples spec <? valid_start_in_chunk span + valid_samples span) then
          Throw (str "Audio chunker planned invalid chunk span")
        else plan_loop fuel spec input_samples (start + hop_samples spec) (index + 1) (spans ++ [span])
      else Ok spans
  end.

Definition plan_audio_chunks (input_samples : Z) (spec : AudioChunkSpec) : outcome (list AudioChunkSpan) :=
  require_positive input_samples (str "input samples");;
  require_positive (chunk_samples spec) (str "chunk samples");;
  require_positive (hop_samples spec) (str "hop samples");;
  if chunk_samples spec <? hop_samples spec then Throw (str "Audio chunker hop_samples must be <= chunk_samples")
  else plan_loop (Z.to_nat input_samples) spec input_samples 0 0 [].

(** * Chunks around speech *)

Record VadAudioChunkOptions := { max_chunk_samples : Z; merge_gap_samples : Z; padding_samples : Z }.

Definition require_valid_time_span (span : TimeSpan) (audio_samples : Z) (label : bytes) : outcome () :=
  if (start_sample span <? 0) || (end_sample span <=? start_sample span) || (audio_samples <? end_sample span) then
    Throw (label ++ str " span is outside audio bounds")
  else Ok tt.

Definition padded_span (span : TimeSpan) (audio_samples padding_samples : Z) : TimeSpan :=
  {| start_sample := Z.max 0 (start_sample span - padding_samples); end_sample := Z.min audio_samples (end_sample span + padding_samples) |}.

Record WorkSpan := { padded : TimeSpan; speech : TimeSpan }.
Record ChunkState := { span : TimeSpan; speech_end_sample : Z }.

Fixpoint work_spans (segments : list TimeSpan) (audio_samples : Z) (options : VadAudioChunkOptions) : outcome (list WorkSpan) :=
  match segments with
  | [] => Ok []
  | segment :: segments =>
      require_valid_time_span segment audio_samples (str "Audio VAD chunker speech segment");;
      spans ← work_spans segments audio_samples options;
      Ok ({| padded := padded_span segment audio_samples (padding_samples options); speech := segment |} :: spans)
  end.

(** The comparison of [std::sort]. *)
Definition earlier (a b : WorkSpan) : bool :=
  if start_sample (padded a) =? start_sample (padded b) then end_sample (padded a) <? end_sample (padded b)
  else start_sample (padded a) <? start_sample (padded b).

(** The rest of a padded span from [start], the last state first. *)
Definition start_chunk (options : VadAudioChunkOptions) (speech : TimeSpan) (start end_ : Z) (states : list ChunkState) : Z * list ChunkState :=
  let chunk_end := Z.min end_ (start + max_chunk_samples options) in
  let speech_end := if start_sample speech <? chunk_end then Z.min (end_sample speech) chunk_end else start in
  (chunk_end, {| span := {| start_sample := start; end_sample := chunk_end |}; speech_end_sample := speech_end |} :: states).

(** One turn of [while (span.start_sample < span.end_sample)]: the start that is left
    and the states, or the states after a [break]. *)
Definition chunk_turn (options : VadAudioChunkOptions) (speech : TimeSpan) (start end_ : Z) (states : list ChunkState) :
    (Z * list ChunkState) + list ChunkState :=
  match states with
  | [] => inl (start_chunk options speech start end_ states)
  | current :: older =>
      let current_start := start_sample (span current) in
      let current_end := end_sample (span current) in
      let with_end e speech_end := {| span := {| start_sample := current_start; end_sample := e |}; speech_end_sample := speech_end |} in
      let later_speech := Z.max (speech_end_sample current) (end_sample speech) in
      if end_ <=? current_end then inr (with_end current_end later_speech :: older)
      else if start <=? current_end then
        let capacity_end := current_start + max_chunk_samples options in
        if end_ <=? capacity_end then inr (with_end end_ later_speech :: older)
        else
          let boundary := Z.min current_end (start_sample speech) in
          if (speech_end_sample current <? start_sample speech) && (current_start <? speech_end_sample current) &&
             (speech_end_sample current <=? boundary) && (current_start <? boundary) then
            inl (start_chunk options speech boundary end_ (with_end boundary (speech_end_sample current) :: older))
          else if current_end <? capacity_end then
            let e := Z.min end_ capacity_end in
            let speech_end :=
              if start_sample speech <? e then Z.max (speech_end_sample current) (Z.min (end_sample speech) e) else speech_end_sample current in
            inl (e, with_end e speech_end :: older)
          else inl (start_chunk options speech start end_ states)
      else if (start - current_end <=? merge_gap_samples options) && (end_ - current_start <=? max_chunk_samples options) then
        inr (with_end end_ later_speech :: older)
      else inl (start_chunk options speech start end_ states)
  end.

Fixpoint chunk_item (fuel : nat) (options : VadAudioChunkOptions) (speech : TimeSpan) (start end_ : Z) (states : list ChunkState) : list ChunkState :=
  match fuel with
  | O => states
  | S fuel =>
      if start <? end_ then
        match chunk_turn options speech start end_ states with
        | inl (start, states) => chunk_item fuel options speech start end_ states
        | inr states => states
        end
      else states
  end.

(** Each turn moves the start forward. *)
Definition chunk_work (options : VadAudioChunkOptions) (states : list ChunkState) (item : WorkSpan) : list ChunkState :=
  let start := start_sample (padded item) in
  let end_ := end_sample (padded item) in
  chunk_item (Z.to_nat (end_ - start)) options (speech item) start end_ states.

Section vad.
(** [std::sort]. *)
Context (sort : ∀ A, (A → A → bool) → list A → list A).

Definition plan_vad_audio_chunks (segments : list TimeSpan) (audio_samples : Z) (options : VadAudioChunkOptions) : outcome (list TimeSpan) :=
  require_positive audio_samples (str "audio samples");;
  require_positive (max_chunk_samples options) (str "max VAD chunk samples");;
  if merge_gap_samples options <? 0 then Throw (str "Audio VAD chunker merge_gap_samples must be non-negative")
  else if padding_samples options <? 0 then Throw (str "Audio VAD chunker padding_samples must be non-negative")
  else
    match segments with
    | [] => Ok []
    | _ =>
        spans ← work_spans segments audio_samples options;
        Ok (map span (rev (foldl (chunk_work options) [] (sort _ earlier spans))))
    end.
End vad.

(** * Chunks at quiet places *)

Section quiet.
(** [float] and [double]. *)
Context {Float Double : Type} (fltb : Float → Float → bool) (infinity : Float) (fsqrt : Float → Float).
Context (to_double : Float → Double) (of_double : Double → Float) (dzero : Double) (dadd dmul ddiv : Double → Double → Double) (dof_int : Z → Double).

Record QuietEnergyAudioChunkOptions := { quiet_chunk_samples : Z; boundary_context_samples : Z; min_energy_window_samples : Z }.

Definition window_energy (mono_samples : list Float) (start window : Z) : Float :=
  let sum := foldl (λ sum value, dadd sum (dmul (to_double value) (to_double value))) dzero
               (take (Z.to_nat window) (drop (Z.to_nat start) mono_samples)) in
  fsqrt (of_double (ddiv sum (dof_int window))).

(** [for (i = 0; i < upper; i += window)], over the turns left. *)
Fixpoint quietest (fuel : nat) (mono_samples : list Float) (search_start upper window i : Z) (min_energy : Float) (split : Z) : Z :=
  match fuel with
  | O => split
  | S fuel =>
      if i <? upper then
        let energy := window_energy mono_samples (search_start + i) window in
        if fltb energy min_energy then quietest fuel mono_samples search_start upper window (i + window) energy (search_start + i)
        else quietest fuel mono_samples search_start upper window (i + window) min_energy split
      else split
  end.

Definition quiet_split (mono_samples : list Float) (options : QuietEnergyAudioChunkOptions) (total index : Z) : Z :=
  let chunk := quiet_chunk_samples options in
  let search_start := Z.max index (index + chunk - boundary_context_samples options) in
  let search_end := Z.min (index + chunk) total in
  let split :=
    if search_start <? search_end then
      if search_end - search_start <=? min_energy_window_samples options then (search_start + search_end) ÷ 2
      else
        let upper := search_end - search_start - min_energy_window_samples options in
        quietest (Z.to_nat upper) mono_samples search_start upper (min_energy_window_samples options) 0 infinity (index + chunk)
    else index + chunk in
  Z.max (index + 1) (Z.min split total).

Fixpoint quiet_loop (fuel : nat) (mono_samples : list Float) (options : QuietEnergyAudioChunkOptions) (total index : Z) (chunks : list TimeSpan) : list TimeSpan :=
  match fuel with
  | O => chunks
  | S fuel =>
      if index <? total then
        if total <=? index + quiet_chunk_samples options then chunks ++ [{| start_sample := index; end_sample := total |}]
        else
          let split := quiet_split mono_samples options total index in
          quiet_loop fuel mono_samples options total split (chunks ++ [{| start_sample := index; end_sample := split |}])
      else chunks
  end.

Definition plan_quiet_energy_audio_chunks (mono_samples : list Float) (options : QuietEnergyAudioChunkOptions) : outcome (list TimeSpan) :=
  let total := Z.of_nat (length mono_samples) in
  require_positive total (str "quiet-energy input samples");;
  require_positive (quiet_chunk_samples options) (str "quiet-energy chunk samples");;
  require_positive (boundary_context_samples options) (str "quiet-energy boundary context samples");;
  require_positive (min_energy_window_samples options) (str "quiet-energy min energy window samples");;
  Ok (quiet_loop (length mono_samples) mono_samples options total 0 []).

(** * The audio of a chunk *)

Definition slice_audio_buffer (audio : @AudioBuffer Float) (span : TimeSpan) : outcome (@AudioBuffer Float) :=
  if sample_rate audio <=? 0 then Throw (str "Audio chunker slice requires a positive sample rate")
  else
    require_positive (channels audio) (str "audio channels");;
    let size := Z.of_nat (length (samples audio)) in
    if size =? 0 then Throw (str "Audio chunker slice requires non-empty audio")
    else if negb (size `mod` channels audio =? 0) then Throw (str "Audio chunker slice input size is not divisible by channel count")
    else
      require_valid_time_span span (size `div` channels audio) (str "Audio chunker slice");;
      let begin := start_sample span * channels audio in
      let end_ := end_sample span * channels audio in
      Ok {| sample_rate := sample_rate audio; channels := channels audio;
            samples := take (Z.to_nat (end_ - begin)) (drop (Z.to_nat begin) (samples audio)) |}.

(** * Timestamps of a chunk in the recording *)

Record WordTimestamp := { word_span : TimeSpan; word : bytes; confidence : Float }.

(** [std::llround] of a product and a quotient of doubles. *)
Context (llround_scaled : Z → Z → Z → Z).

Definition rescale_sample_index (sample source_rate target_rate : Z) : outcome Z :=
  require_positive source_rate (str "source sample rate");;
  require_positive target_rate (str "timestamp sample rate");;
  if source_rate =? target_rate then Ok sample else Ok (llround_scaled sample target_rate source_rate).

Definition rescale_time_span (span : TimeSpan) (source_rate target_rate : Z) : outcome TimeSpan :=
  start ← rescale_sample_index (start_sample span) source_rate target_rate;
  end_ ← rescale_sample_index (end_sample span) source_rate target_rate;
  Ok {| start_sample := start; end_sample := end_ |}.

Definition valid_merge_span (span : TimeSpan) : bool := (0 <=? start_sample span) && (start_sample span <=? end_sample span).

Definition validate_merge_spans (source_span keep_span : TimeSpan) (label : bytes) : outcome () :=
  if negb (valid_merge_span source_span) then Throw (str "Audio chunker " ++ label ++ str " merge requires a valid source span")
  else if negb (valid_merge_span keep_span) || (start_sample keep_span <? start_sample source_span) || (end_sample source_span <? end_sample keep_span) then
    Throw (str "Audio chunker " ++ label ++ str " merge requires keep span inside source span")
  else Ok tt.

(** One word: refused, dropped or moved. *)
Definition merge_word (source keep : TimeSpan) (w : WordTimestamp) : outcome (option WordTimestamp) :=
  if end_sample (word_span w) <? start_sample (word_span w) then Throw (str "Audio chunker word merge requires ordered word timestamps")
  else
    let local_start := Z.max (start_sample (word_span w)) 0 in
    let local_end := Z.min (end_sample (word_span w)) (end_sample source - start_sample source) in
    if local_end <=? local_start then Ok None
    else
      let global_start := start_sample source + local_start in
      if (global_start <? start_sample keep) || (end_sample keep <=? global_start) then Ok None
      else Ok (Some {| word_span := {| start_sample := global_start; end_sample := start_sample source + local_end |}; word := word w; confidence := confidence w |}).

Fixpoint merge_words (source keep : TimeSpan) (chunk_words output : list WordTimestamp) : outcome (list WordTimestamp) :=
  match chunk_words with
  | [] => Ok output
  | w :: chunk_words =>
      merged ← merge_word source keep w;
      merge_words source keep chunk_words (output ++ option_list merged)
  end.

Definition append_chunk_word_timestamps (output chunk_words : list WordTimestamp) (source_span keep_span : TimeSpan)
    (source_sample_rate timestamp_sample_rate : Z) : outcome (list WordTimestamp) :=
  validate_merge_spans source_span keep_span (str "word");;
  source ← rescale_time_span source_span source_sample_rate timestamp_sample_rate;
  keep ← rescale_time_span keep_span source_sample_rate timestamp_sample_rate;
  merge_words source keep chunk_words output.
End quiet.

(** [AudioChunkMode] and the option that chooses it. *)
Inductive AudioChunkMode := Auto | Fixed | QuietEnergy | Vad | None_.

Definition parse_audio_chunk_mode (options : gmap bytes bytes) : outcome AudioChunkMode :=
  mode ← find_option options [str "audio_chunk_mode"];
  match mode with
  | None => Ok Auto
  | Some mode =>
      if bool_decide (mode = str "auto") then Ok Auto
      else if bool_decide (mode = str "fixed") then Ok Fixed
      else if bool_decide (mode = str "quiet_energy") then Ok QuietEnergy
      else if bool_decide (mode = str "vad") then Ok Vad
      else if bool_decide (mode = str "none") then Ok None_
      else Throw (str "audio_chunk_mode must be auto, fixed, quiet_energy, vad, or none")
  end.

(** * The fixed plan *)

(** How many chunks begin before the end. *)
Definition chunk_count (spec : AudioChunkSpec) (input_samples : Z) : Z := (input_samples + hop_samples spec - 1) / hop_samples spec.

Definition chunk_at (spec : AudioChunkSpec) (input_samples i : Z) : AudioChunkSpan := chunk_span spec input_samples i (i * hop_samples spec).

Definition spec_ok (spec : AudioChunkSpec) : Prop := 0 < chunk_samples spec ∧ 0 < hop_samples spec <= chunk_samples spec.

Lemma before_end spec n i : 0 < hop_samples spec → (i * hop_samples spec < n ↔ i < chunk_count spec n).
Proof.
  intros H. unfold chunk_count. set (h := hop_samples spec) in *.
  pose proof (Z.div_mod (n + h - 1) h ltac:(lia)). pose proof (Z.mod_pos_bound (n + h - 1) h H). split; intros; nia.
Qed.

(** A chunk is placed inside the buffer for it. *)
Lemma chunk_span_placed spec n i start :
  spec_ok spec → start < n →
  let s := chunk_span spec n i start in
  0 <= valid_start_in_chunk s ∧ valid_start_in_chunk s + valid_samples s <= chunk_samples spec ∧ 0 < valid_samples s ∧
  output_start_sample s = start ∧ start + valid_samples s = Z.min n (start + chunk_samples spec) ∧
  copy_start_sample s + valid_start_in_chunk s = start.
Proof.
  intros [Hc Hh] Hs s. unfold s, chunk_span. cbn. destruct (Z.ltb_spec (Z.min (chunk_samples spec) (n - start)) (chunk_samples spec)); [|lia].
  destruct (tail_alignment spec); [lia|]. rewrite Z.quot_div_nonneg by lia.
  pose proof (Z.div_mod (chunk_samples spec - Z.min (chunk_samples spec) (n - start)) 2 ltac:(lia)).
  pose proof (Z.mod_pos_bound (chunk_samples spec - Z.min (chunk_samples spec) (n - start)) 2 ltac:(lia)). lia.
Qed.

Lemma plan_loop_spec spec n fuel i spans :
  spec_ok spec → 0 <= i → (Z.to_nat (n - i * hop_samples spec) <= fuel)%nat →
  plan_loop fuel spec n (i * hop_samples spec) i spans =
  Ok (spans ++ map (chunk_at spec n) (seqZ i (chunk_count spec n - i))).
Proof.
  intros Hok. pose proof Hok as [Hc Hh]. revert i spans. induction fuel as [|fuel IH]; intros i spans Hi Hfuel; cbn [plan_loop].
  - rewrite seqZ_nil; [by rewrite app_nil_r|]. pose proof (before_end spec n i ltac:(lia)). lia.
  - pose proof (before_end spec n i ltac:(lia)) as Hb. destruct (Z.ltb_spec (i * hop_samples spec) n) as [Hlt|Hge].
    + destruct (chunk_span_placed spec n i (i * hop_samples spec) Hok Hlt) as (H1 & H2 & _).
      rewrite (proj2 (Z.ltb_ge _ _) H1), (proj2 (Z.ltb_ge _ _) H2). cbn [orb].
      replace (i * hop_samples spec + hop_samples spec) with ((i + 1) * hop_samples spec) by lia.
      rewrite IH by lia. rewrite <- app_assoc. f_equal. f_equal. rewrite (seqZ_cons i) by lia. cbn.
      do 3 f_equal; lia.
    + rewrite seqZ_nil by lia. by rewrite app_nil_r.
Qed.

(** Fixed chunks: a plan is refused exactly when the recording is empty or the
    lengths make no sense; otherwise it has a chunk for every multiple of the hop
    inside the recording, the chunk begins there and holds what is left up to its
    length, placed inside its buffer, and every sample is in the chunk of its hop. *)
Theorem audio_chunks_tile input_samples spec :
  match plan_audio_chunks input_samples spec with
  | Throw _ => ¬ (0 < input_samples ∧ spec_ok spec)
  | Ok spans =>
      0 < input_samples ∧ Z.of_nat (length spans) = chunk_count spec input_samples ∧
      (∀ (i : nat) s, spans !! i = Some s →
         index s = Z.of_nat i ∧ output_start_sample s = Z.of_nat i * hop_samples spec ∧
         output_start_sample s + valid_samples s = Z.min input_samples (output_start_sample s + chunk_samples spec) ∧
         0 <= valid_start_in_chunk s ∧ valid_start_in_chunk s + valid_samples s <= chunk_samples spec ∧ 0 < valid_samples s ∧
         copy_start_sample s + valid_start_in_chunk s = output_start_sample s) ∧
      (∀ x, 0 <= x < input_samples → ∃ s, spans !! Z.to_nat (x / hop_samples spec) = Some s ∧
         output_start_sample s <= x < output_start_sample s + valid_samples s)
  end.
Proof.
  unfold plan_audio_chunks, require_positive, spec_ok.
  destruct (Z.leb_spec input_samples 0); cbn; [lia|]. destruct (Z.leb_spec (chunk_samples spec) 0); cbn; [lia|].
  destruct (Z.leb_spec (hop_samples spec) 0); cbn; [lia|]. destruct (Z.ltb_spec (chunk_samples spec) (hop_samples spec)); cbn; [lia|].
  assert (spec_ok spec) as Hok by (split; lia).
  pose proof (plan_loop_spec spec input_samples (Z.to_nat input_samples) 0 [] Hok) as E. rewrite Z.mul_0_l in E. rewrite E by lia. cbn [app].
  rewrite Z.sub_0_r. pose proof (before_end spec input_samples) as Hb.
  assert (0 <= chunk_count spec input_samples) as Hcount by (apply Z.div_pos; lia).
  assert (∀ (i : nat) s, map (chunk_at spec input_samples) (seqZ 0 (chunk_count spec input_samples)) !! i = Some s →
            Z.of_nat i < chunk_count spec input_samples ∧ s = chunk_at spec input_samples (Z.of_nat i)) as Hat.
  { intros i s. change (map ?f ?l) with (f <$> l). rewrite list_lookup_fmap. intros (j & Hj & ->)%fmap_Some.
    apply lookup_seqZ in Hj as [-> Hi]. split; [lia|]. f_equal; lia. }
  split; [lia|]. split; [rewrite length_map, length_seqZ; lia|]. split.
  - intros i s Hs. destruct (Hat i s Hs) as [Hi ->]. apply Hb in Hi; [|lia].
    destruct (chunk_span_placed spec input_samples (Z.of_nat i) _ Hok Hi) as (H5 & H6 & H7 & H8 & H9 & H10). unfold chunk_at. rewrite H8. done.
  - intros x Hx. set (i := x / hop_samples spec).
    pose proof (Z.div_mod x (hop_samples spec) ltac:(lia)) as Hdm. pose proof (Z.mod_pos_bound x (hop_samples spec) ltac:(lia)). fold i in Hdm.
    assert (0 <= i) by (apply Z.div_pos; lia). assert (i * hop_samples spec < input_samples) as Hlt by lia.
    exists (chunk_at spec input_samples i). split.
    + change (map ?f ?l) with (f <$> l). rewrite list_lookup_fmap, lookup_seqZ_lt; [cbn; f_equal; f_equal; lia|]. apply Hb in Hlt; lia.
    + destruct (chunk_span_placed spec input_samples i _ Hok Hlt) as (_ & _ & _ & H8 & H9 & _). unfold chunk_at. rewrite H8. lia.
Qed.

(** * Chunks around speech *)

Section vad_facts.
Context (options : VadAudioChunkOptions) (n : Z).
Context (max_positive : 0 < max_chunk_samples options) (padding_positive : 0 <= padding_samples options).

Definition within (x : Z) (s : TimeSpan) : Prop := start_sample s <= x < end_sample s.

Definition covered (states : list ChunkState) (x : Z) : Prop := Exists (λ c, within x (span c)) states.

Definition sized_state (c : ChunkState) : Prop :=
  0 <= start_sample (span c) < end_sample (span c) ∧ end_sample (span c) <= n ∧
  end_sample (span c) - start_sample (span c) <= max_chunk_samples options.

(** Where the last chunk ends. *)
Definition reach (states : list ChunkState) : Z := match states with c :: _ => end_sample (span c) | [] => 0 end.

Lemma covered_cons c states x : covered (c :: states) x ↔ within x (span c) ∨ covered states x.
Proof. apply Exists_cons. Qed.

(** While an item that begins at [p] is cut: what lies between [p] and the chunks' end,
    and before what is left of the item, is covered. *)
Record cutting (p start end_ : Z) (states : list ChunkState) : Prop := {
  cut_sized : Forall sized_state states;
  cut_start : 0 <= p <= start;
  cut_end : start <= end_ <= n;
  cut_before : ∀ x, p <= x < start → covered states x;
  cut_reach : ∀ x, p <= x < reach states → covered states x;
}.

(** Nothing that is covered or left is lost. *)
Definition keeps (start end_ : Z) (states : list ChunkState) (start' : Z) (states' : list ChunkState) : Prop :=
  ∀ x, covered states x ∨ start <= x < end_ → covered states' x ∨ start' <= x < end_.

Lemma start_chunk_cutting speech p start end_ states :
  cutting p start end_ states → start < end_ →
  let '(start', states') := start_chunk options speech start end_ states in
  cutting p start' end_ states' ∧ start < start' ∧ keeps start end_ states start' states' ∧ reach states' = start'.
Proof.
  intros [H1 H2 H3 H4 H5] Hlt. cbn. set (chunk_end := Z.min _ _). assert (start < chunk_end <= end_) as Hce by lia.
  assert (∀ x, p <= x < chunk_end → covered ({| span := {| start_sample := start; end_sample := chunk_end |};
      speech_end_sample := if start_sample speech <? chunk_end then Z.min (end_sample speech) chunk_end else start |} :: states) x) as Hcov.
  { intros x Hx. apply covered_cons. destruct (decide (x < start)); [right; apply H4; lia|left; unfold within; cbn; lia]. }
  split; [split|split; [lia|]].
  - constructor; [|done]. split; cbn; lia.
  - lia.
  - lia.
  - done.
  - done.
  - split; [|done]. intros x [Hx|Hx]; [left; apply covered_cons; by right|]. destruct (decide (x < chunk_end)); [|right; lia].
    left. apply covered_cons. left. unfold within. cbn. lia.
Qed.

(** The last chunk is given another end. *)
Lemma covered_longer c older e speech_end x :
  end_sample (span c) <= e →
  covered (c :: older) x ∨ start_sample (span c) <= x < e →
  covered ({| span := {| start_sample := start_sample (span c); end_sample := e |}; speech_end_sample := speech_end |} :: older) x.
Proof.
  rewrite !covered_cons. unfold within. cbn. intros He [[Hx|Hx]|Hx]; [left; lia|by right|by left].
Qed.

Lemma chunk_turn_spec speech p start end_ states :
  cutting p start end_ states → start < end_ → p <= start_sample speech →
  match chunk_turn options speech start end_ states with
  | inl (start', states') => cutting p start' end_ states' ∧ start < start' ∧ keeps start end_ states start' states' ∧ reach states' = start'
  | inr states' => Forall sized_state states' ∧ (∀ x, covered states x ∨ start <= x < end_ → covered states' x) ∧
                   end_ <= reach states' ∧ (∀ x, p <= x < reach states' → covered states' x)
  end.
Proof.
  intros Hc Hlt Hsp. pose proof Hc as [H1 H2 H3 H4 H5]. unfold chunk_turn. destruct states as [|c older].
  { by apply (start_chunk_cutting speech). }
  inversion H1 as [|? ? Hcs Holder]; subst. pose proof Hcs as (Hc1 & Hc2 & Hc3). cbn [reach] in H5. cbv zeta.
  destruct (Z.leb_spec end_ (end_sample (span c))) as [Hin|Hout].
  { split; [by constructor|]. split; [|split].
    - intros x Hx. apply (covered_longer c older); [lia|]. destruct Hx as [Hx|Hx]; [by left|]. left. apply H5. lia.
    - done.
    - cbn [reach span end_sample]. intros x Hx. apply (covered_longer c older); [lia|]. left. by apply H5. }
  destruct (Z.leb_spec start (end_sample (span c))) as [Htouch|Hgap].
  2: { destruct (_ && _) eqn:Eb; [|by apply (start_chunk_cutting speech)].
    apply andb_true_iff in Eb as [_ Eb%Z.leb_le]. split; [constructor; [split; cbn; lia|done]|]. split; [|split].
    - intros x Hx. apply (covered_longer c older); [lia|]. destruct Hx as [Hx|Hx]; [by left|]. right. lia.
    - done.
    - cbn [reach span end_sample]. intros x Hx. apply (covered_longer c older); [lia|].
      destruct (decide (x < end_sample (span c))); [left; apply H5; lia|right; lia]. }
  destruct (Z.leb_spec end_ (start_sample (span c) + max_chunk_samples options)) as [Hfit|Hnofit].
  { split; [constructor; [split; cbn; lia|done]|]. split; [|split].
    - intros x Hx. apply (covered_longer c older); [lia|]. destruct Hx as [Hx|Hx]; [by left|].
      destruct (decide (x < end_sample (span c))); [left; apply H5; lia|right; lia].
    - done.
    - cbn [reach span end_sample]. intros x Hx. apply (covered_longer c older); [lia|].
      destruct (decide (x < end_sample (span c))); [left; apply H5; lia|right; lia]. }
  destruct (_ && _) eqn:Eb.
  { apply andb_true_iff in Eb as [[[Eb1%Z.ltb_lt Eb2%Z.ltb_lt]%andb_true_iff Eb3%Z.leb_le]%andb_true_iff Eb4%Z.ltb_lt].
    set (boundary := Z.min _ _) in *. set (cut := {| span := {| start_sample := start_sample (span c); end_sample := boundary |}; speech_end_sample := speech_end_sample c |}).
    assert (∀ x, covered (c :: older) x → covered (cut :: older) x ∨ boundary <= x < end_) as Hcut.
    { intros x. rewrite !covered_cons. unfold within. cbn. intros [Hx|Hx]; [|by left; right].
      destruct (decide (x < boundary)); [left; left; lia|right; lia]. }
    assert (∀ x, p <= x < boundary → covered (cut :: older) x) as Hb.
    { intros x Hx. destruct (Hcut x) as [|]; [apply H5; lia|done|lia]. }
    assert (cutting p boundary end_ (cut :: older)) as Hcc by (split; [constructor; [split; cbn; lia|done]|lia|lia|done|done]).
    pose proof (start_chunk_cutting speech p boundary end_ (cut :: older) Hcc ltac:(lia)) as Hs. cbn [start_chunk] in *.
    destruct Hs as (Hs1 & Hs2 & Hs3 & Hs4). split_and!; [done|lia| |done].
    intros x Hx. apply Hs3. destruct Hx as [Hx|Hx]; [by apply Hcut|]. destruct (decide (x < boundary)); [left; apply Hb; lia|right; lia]. }
  destruct (Z.ltb_spec (end_sample (span c)) (start_sample (span c) + max_chunk_samples options)) as [Hroom|Hfull];
    [|by apply (start_chunk_cutting speech)].
  set (e := Z.min _ _). set (speech_end := if start_sample speech <? e then (_ : Z) else _).
  assert (∀ x, covered (c :: older) x ∨ start_sample (span c) <= x < e →
            covered ({| span := {| start_sample := start_sample (span c); end_sample := e |}; speech_end_sample := speech_end |} :: older) x) as Hlong
    by (intros x; apply covered_longer; lia).
  assert (∀ x, p <= x < e → covered ({| span := {| start_sample := start_sample (span c); end_sample := e |}; speech_end_sample := speech_end |} :: older) x) as Hpe.
  { intros x Hx. apply Hlong. destruct (decide (x < end_sample (span c))); [left; apply H5; lia|right; lia]. }
  split; [split|split; [lia|split; [|done]]].
  - constructor; [split; cbn; lia|done].
  - lia.
  - lia.
  - done.
  - done.
  - intros x [Hx|Hx]; [left; apply Hlong; by left|]. destruct (decide (x < e)); [left; apply Hpe; lia|right; lia].
Qed.

(** Enough fuel: each turn moves the start. *)
Lemma chunk_item_spec speech p end_ fuel : ∀ start states,
  cutting p start end_ states → start <= end_ → (start = end_ → end_ <= reach states) → p <= start_sample speech → (Z.to_nat (end_ - start) <= fuel)%nat →
  let states' := chunk_item fuel options speech start end_ states in
  Forall sized_state states' ∧ (∀ x, covered states x ∨ start <= x < end_ → covered states' x) ∧
  end_ <= reach states' ∧ (∀ x, p <= x < reach states' → covered states' x).
Proof.
  induction fuel as [|fuel IH]; intros start states Hc Hle Hend Hsp Hfuel; cbn [chunk_item].
  - assert (start = end_) as -> by lia. destruct Hc as [H1 H2 H3 H4 H5]. split_and!; [done| |by apply Hend|done]. intros x [Hx|Hx]; [done|lia].
  - destruct (Z.ltb_spec start end_) as [Hlt|Hge].
    2: { assert (start = end_) as -> by lia. destruct Hc as [H1 H2 H3 H4 H5]. split_and!; [done| |by apply Hend|done]. intros x [Hx|Hx]; [done|lia]. }
    pose proof (chunk_turn_spec speech p start end_ states Hc Hlt Hsp) as Ht.
    destruct (chunk_turn options speech start end_ states) as [[start' states']|states']; [|done].
    destruct Ht as (Hc' & Hs & Hk & Hr). assert (start' <= end_) as Hle' by apply Hc'.
    destruct (IH start' states' Hc' Hle' ltac:(lia) Hsp ltac:(lia)) as (H1 & H2 & H3 & H4). split_and!; [done| |done|done].
    intros x Hx. by apply H2, Hk.
Qed.

(** An item: a padded span around speech, inside the recording. *)
Definition item_ok (item : WorkSpan) : Prop :=
  0 <= start_sample (padded item) <= start_sample (speech item) ∧ start_sample (speech item) < end_sample (speech item) <= end_sample (padded item) ∧
  end_sample (padded item) <= n ∧ end_sample (padded item) <= end_sample (speech item) + padding_samples options.

Lemma chunk_work_spec item states :
  item_ok item → Forall sized_state states → (∀ x, start_sample (padded item) <= x < reach states → covered states x) →
  let states' := chunk_work options states item in
  Forall sized_state states' ∧ (∀ x, covered states x ∨ within x (padded item) → covered states' x) ∧
  end_sample (padded item) <= reach states' ∧ (∀ x, start_sample (padded item) <= x < reach states' → covered states' x).
Proof.
  intros (H1 & H2 & H3 & _) Hs Hr. apply (chunk_item_spec (speech item) (start_sample (padded item))); try lia.
  split; [done|lia|lia|lia|done].
Qed.

Lemma chunk_works_spec work : ∀ q states,
  Forall item_ok work → StronglySorted (λ a b, start_sample (padded a) <= start_sample (padded b)) work →
  Forall (λ item, q <= start_sample (padded item)) work → Forall sized_state states → (∀ x, q <= x < reach states → covered states x) →
  let states' := foldl (chunk_work options) states work in
  Forall sized_state states' ∧ (∀ x, covered states x ∨ Exists (λ item, within x (padded item)) work → covered states' x).
Proof.
  induction work as [|item work IH]; intros q states Hok Hsorted Hq Hs Hr; cbn [foldl].
  - split; [done|]. intros x [Hx|Hx]; [done|by apply Exists_nil in Hx].
  - inversion Hok; inversion Hsorted; inversion Hq; subst.
    destruct (chunk_work_spec item states) as (H1' & H2' & H3' & H4'); [done|done|intros x Hx; apply Hr; lia|].
    destruct (IH (start_sample (padded item)) (chunk_work options states item)) as [IH1 IH2]; [done..|].
    split; [done|]. intros x Hx. apply IH2. rewrite Exists_cons in Hx. destruct Hx as [Hx|[Hx|Hx]]; [left; apply H2'; by left|left; apply H2'; by right|by right].
Qed.
End vad_facts.

Section vad_plan.
Context (sort : ∀ A, (A → A → bool) → list A → list A) {sorts : StdSort sort}.

Definition inside (audio_samples : Z) (s : TimeSpan) : Prop := 0 <= start_sample s < end_sample s ∧ end_sample s <= audio_samples.

Definition options_ok (options : VadAudioChunkOptions) : Prop :=
  0 < max_chunk_samples options ∧ 0 <= merge_gap_samples options ∧ 0 <= padding_samples options.

Lemma work_spans_spec segments n options :
  match work_spans segments n options with
  | Ok work => work = map (λ s, {| padded := padded_span s n (padding_samples options); speech := s |}) segments ∧ Forall (inside n) segments
  | Throw _ => ¬ Forall (inside n) segments
  end.
Proof.
  induction segments as [|s segments IH]; cbn; [done|]. unfold require_valid_time_span.
  destruct (_ || _) eqn:E; cbn.
  - intros [[H1 H2] _]%Forall_cons. apply orb_true_iff in E as [[E|E]%orb_true_iff|E]; [apply Z.ltb_lt in E|apply Z.leb_le in E|apply Z.ltb_lt in E]; lia.
  - apply orb_false_iff in E as [[E1%Z.ltb_ge E2%Z.leb_gt]%orb_false_iff E3%Z.ltb_ge].
    destruct (work_spans segments n options); cbn.
    + destruct IH as [-> IH]. split; [done|]. constructor; [split; lia|done].
    + by intros [_ H]%Forall_cons.
Qed.

Lemma earlier_sorted work : StronglySorted (λ a b, earlier b a = false) (sort _ earlier work).
Proof.
  apply sort_ordered; unfold earlier.
  - intros x y _ _. repeat match goal with |- context [?a =? ?b] => destruct (Z.eqb_spec a b) end; rewrite Z.ltb_lt, Z.ltb_ge; lia.
  - intros x y z _ _ _. repeat match goal with |- context [?a =? ?b] => destruct (Z.eqb_spec a b) end; rewrite !Z.ltb_ge; lia.
Qed.

Lemma earlier_starts a b : earlier b a = false → start_sample (padded a) <= start_sample (padded b).
Proof. unfold earlier. destruct (Z.eqb_spec (start_sample (padded b)) (start_sample (padded a))); rewrite Z.ltb_ge; lia. Qed.

Lemma work_item_ok options n s : options_ok options → inside n s → item_ok options n {| padded := padded_span s n (padding_samples options); speech := s |}.
Proof. intros (H1 & H2 & H3) (H4 & H5). unfold item_ok. cbn. lia. Qed.

(** C15. Chunks around speech: a plan is refused when a length makes no sense or speech
    lies outside the recording, and only then; otherwise every chunk is a non-empty part of
    the recording no longer than the limit, and every sample of speech, and of the
    padding around it, is in a chunk. *)
Theorem vad_chunks_cover segments audio_samples options :
  match plan_vad_audio_chunks sort segments audio_samples options with
  | Throw _ => ¬ (0 < audio_samples ∧ options_ok options ∧ Forall (inside audio_samples) segments)
  | Ok chunks =>
      (0 < audio_samples ∧ options_ok options ∧ Forall (inside audio_samples) segments) ∧
      Forall (λ c, inside audio_samples c ∧ end_sample c - start_sample c <= max_chunk_samples options) chunks ∧
      (∀ s x, s ∈ segments → within x (padded_span s audio_samples (padding_samples options)) → Exists (within x) chunks)
  end.
Proof.
  unfold plan_vad_audio_chunks, require_positive, options_ok.
  destruct (Z.leb_spec audio_samples 0); cbn; [lia|]. destruct (Z.leb_spec (max_chunk_samples options) 0); cbn; [lia|].
  destruct (Z.ltb_spec (merge_gap_samples options) 0); [lia|]. destruct (Z.ltb_spec (padding_samples options) 0); [lia|].
  destruct segments as [|s0 segments']; [split_and!; [done..|constructor|constructor|intros s x []%elem_of_nil]|]. set (segments := s0 :: segments'). clearbody segments.
  pose proof (work_spans_spec segments audio_samples options) as Hw. destruct (work_spans segments audio_samples options) as [work|e]; cbn; [|naive_solver].
  destruct Hw as [-> Hin]. set (work := map _ segments).
  assert (options_ok options) as Hopt by (split_and!; lia).
  destruct (chunk_works_spec options audio_samples ltac:(lia) (sort _ earlier work) 0 []) as [Hs Hc].
  - rewrite sort_permutation. apply Forall_map. eapply Forall_impl; [exact Hin|]. intros s Hs. by apply work_item_ok.
  - eapply sorted_weaken; [apply earlier_starts|apply earlier_sorted].
  - rewrite sort_permutation. apply Forall_map, Forall_true. intros s. cbn. lia.
  - constructor.
  - cbn. lia.
  - split; [by split_and!|]. split.
    + apply Forall_map, Forall_rev. eapply Forall_impl; [exact Hs|]. by intros c (H1' & H2' & H3').
    + intros s x Hsin Hx. destruct (proj1 (Exists_exists _ _) (Hc x ltac:(right; rewrite sort_permutation; apply Exists_exists;
        exists {| padded := padded_span s audio_samples (padding_samples options); speech := s |}; split; [|exact Hx];
        apply list_elem_of_In, in_map_iff; exists s; split; [done|by apply list_elem_of_In]))) as (c & Hc1 & Hc2).
      apply Exists_exists. exists (span c). split; [|done]. apply list_elem_of_In, in_map, in_rev. rewrite rev_involutive. by apply list_elem_of_In.
Qed.
End vad_plan.

Section vad_apart.
Context (options : VadAudioChunkOptions) (n : Z).
Context (max_positive : 0 < max_chunk_samples options) (padding_small : 0 <= padding_samples options < max_chunk_samples options).

(** The chunks follow one another, the last first. *)
Definition tiled (states : list ChunkState) : Prop :=
  Forall (sized_state options n) states ∧ StronglySorted (λ newer older, end_sample (span older) <= start_sample (span newer)) states.

Lemma tiled_longer c older e speech_end :
  tiled (c :: older) → start_sample (span c) < e <= n → e - start_sample (span c) <= max_chunk_samples options →
  tiled ({| span := {| start_sample := start_sample (span c); end_sample := e |}; speech_end_sample := speech_end |} :: older).
Proof.
  intros [[(H1 & H2 & H3) Hf]%Forall_cons [Hs Ho]%StronglySorted_inv] He Hm. split; constructor; try done. split; cbn; lia.
Qed.

Lemma tiled_new states start e speech_end :
  tiled states → reach states <= start → 0 <= start < e → e <= n → e - start <= max_chunk_samples options →
  tiled ({| span := {| start_sample := start; end_sample := e |}; speech_end_sample := speech_end |} :: states).
Proof.
  intros [Hf Hs] Hr H1 H2 H3. split; constructor; try done. destruct states as [|c older]; [constructor|]. cbn in Hr.
  apply Forall_cons in Hf as [(H4 & H5 & H6) Hf]. apply StronglySorted_inv in Hs as [Hs Ho]. constructor; [cbn; lia|].
  eapply Forall_impl; [exact Ho|]. cbn. lia.
Qed.

(** Between items: the last speech ends in the last chunk, and the chunk soon after it. *)
Definition at_rest (m : Z) (states : list ChunkState) : Prop :=
  tiled states ∧ match states with [] => True | c :: _ => speech_end_sample c = m ∧ m <= end_sample (span c) <= m + padding_samples options end.

(** Inside an item that is cut: the chunks reach what is left. *)
Definition amid (s : TimeSpan) (start : Z) (states : list ChunkState) : Prop :=
  tiled states ∧ match states with
                 | [] => False
                 | c :: _ => end_sample (span c) = start ∧ speech_end_sample c <= start ∧
                             (start_sample s < start → speech_end_sample c = Z.min (end_sample s) start)
                 end.

Section item.
Context (s : TimeSpan) (p end_ : Z).
Context (item_speech : 0 <= p <= start_sample s ∧ start_sample s < end_sample s <= end_ ∧ end_ <= end_sample s + padding_samples options ∧ end_ <= n).

Lemma start_chunk_amid start states :
  tiled states → reach states <= start → p <= start < end_ →
  let '(start', states') := start_chunk options s start end_ states in amid s start' states' ∧ start < start' <= end_.
Proof.
  intros Ht Hr Hs. cbn. set (chunk_end := Z.min _ _). assert (start < chunk_end <= end_) by lia.
  split; [split; [apply tiled_new; try done; lia|]|done]. cbn. destruct (Z.ltb_spec (start_sample s) chunk_end); split_and!; try done; lia.
Qed.

Lemma turn_amid start states :
  amid s start states → p <= start < end_ →
  match chunk_turn options s start end_ states with
  | inl (start', states') => amid s start' states' ∧ start < start' <= end_
  | inr states' => at_rest (end_sample s) states' ∧ end_ <= reach states'
  end.
Proof.
  intros [Ht Hc] Hs. destruct states as [|c older]; [done|]. destruct Hc as (He & Hse & Hsp). unfold chunk_turn. cbv zeta.
  pose proof Ht as [[(H1 & H2 & H3) Hf]%Forall_cons _].
  rewrite He, (proj2 (Z.leb_gt end_ start)), Z.leb_refl by lia.
  destruct (Z.leb_spec end_ (start_sample (span c) + max_chunk_samples options)) as [Hfit|Hnofit].
  { split; [split; [apply tiled_longer; [done|lia|lia]|]|cbn; lia]. cbn. destruct (decide (start_sample s < start)) as [Hlt|Hge]; [rewrite Hsp by done|]; lia. }
  destruct (_ && _) eqn:Eb.
  { apply andb_true_iff in Eb as [[[Eb1%Z.ltb_lt Eb2%Z.ltb_lt]%andb_true_iff Eb3%Z.leb_le]%andb_true_iff Eb4%Z.ltb_lt].
    assert (start <= start_sample s) by (destruct (decide (start_sample s < start)) as [Hlt|]; [rewrite Hsp in Eb1 by done|]; lia).
    rewrite (Z.min_l start) in * by lia. apply start_chunk_amid; [apply tiled_longer; [done|lia|lia]|cbn; lia|lia]. }
  destruct (Z.ltb_spec start (start_sample (span c) + max_chunk_samples options)) as [Hroom|Hfull].
  - set (e := Z.min _ _). assert (start < e <= end_) by lia. split; [split; [apply tiled_longer; [done|lia|lia]|]|done]. cbn.
    destruct (Z.ltb_spec (start_sample s) e); (destruct (decide (start_sample s < start)) as [Hlt|Hge]; [rewrite Hsp by done|]); split_and!; try done; lia.
  - apply start_chunk_amid; [done|cbn; lia|lia].
Qed.

Lemma turn_at_rest m states :
  at_rest m states → m < start_sample s → reach states < end_ → p < end_ →
  match chunk_turn options s p end_ states with
  | inl (start', states') => amid s start' states' ∧ p < start' <= end_
  | inr states' => at_rest (end_sample s) states' ∧ end_ <= reach states'
  end.
Proof.
  intros [Ht Hc] Hm Hr Hp. unfold chunk_turn. destruct states as [|c older]; [apply start_chunk_amid; [done|cbn; lia|lia]|].
  destruct Hc as (Hse & Hce). cbn in Hr. cbv zeta. pose proof Ht as [[(H1 & H2 & H3) Hf]%Forall_cons _].
  rewrite (proj2 (Z.leb_gt end_ _)), Hse by done.
  destruct (Z.leb_spec p (end_sample (span c))) as [Htouch|Hgap].
  2: { destruct (_ && _) eqn:Eb; [|apply start_chunk_amid; [done|cbn; lia|lia]]. apply andb_true_iff in Eb as [_ Eb%Z.leb_le].
       split; [split; [apply tiled_longer; [done|lia|lia]|]|cbn; lia]. cbn. lia. }
  destruct (Z.leb_spec end_ (start_sample (span c) + max_chunk_samples options)) as [Hfit|Hnofit].
  { split; [split; [apply tiled_longer; [done|lia|lia]|]|cbn; lia]. cbn. lia. }
  rewrite (proj2 (Z.ltb_lt m _)), (proj2 (Z.leb_le m (Z.min _ _))) by lia. cbn [andb].
  destruct (Z.ltb_spec (start_sample (span c)) m) as [Hin|Hout].
  - rewrite (proj2 (Z.ltb_lt (start_sample (span c)) (Z.min _ _))) by lia. cbn [andb].
    pose proof (start_chunk_amid (Z.min (end_sample (span c)) (start_sample s))
      ({| span := {| start_sample := start_sample (span c); end_sample := Z.min (end_sample (span c)) (start_sample s) |}; speech_end_sample := m |} :: older)) as Hsc.
    cbn [start_chunk] in *. destruct Hsc as [Ha Hb]; [apply tiled_longer; [done|lia|lia]|cbn; lia|lia|]. split; [done|]. lia.
  - cbn [andb]. rewrite (proj2 (Z.ltb_lt (end_sample (span c)) _)) by lia. set (e := Z.min _ _). assert (p < e <= end_) by lia.
    split; [split; [apply tiled_longer; [done|lia|lia]|]|done]. cbn.
    destruct (Z.ltb_spec (start_sample s) e); split_and!; try done; lia.
Qed.

Lemma item_amid fuel : ∀ start states,
  amid s start states → p <= start <= end_ → (Z.to_nat (end_ - start) <= fuel)%nat →
  at_rest (end_sample s) (chunk_item fuel options s start end_ states) ∧ end_ <= reach (chunk_item fuel options s start end_ states).
Proof.
  assert (∀ states, amid s end_ states → at_rest (end_sample s) states ∧ end_ <= reach states) as Hend.
  { intros [|c older] [Ht Hc]; [done|]. destruct Hc as (H1 & H2 & H3). split; [split; [done|]|cbn; lia]. rewrite H3; lia. }
  induction fuel as [|fuel IH]; intros start states Ha Hs Hfuel; cbn [chunk_item].
  - assert (start = end_) as -> by lia. by apply Hend.
  - destruct (Z.ltb_spec start end_) as [Hlt|Hge]; [|assert (start = end_) as -> by lia; by apply Hend].
    pose proof (turn_amid start states Ha ltac:(lia)) as Ht. destruct (chunk_turn options s start end_ states) as [[start' states']|states']; [|done].
    apply IH; [apply Ht|lia|lia].
Qed.

Lemma item_at_rest m states :
  at_rest m states → m < start_sample s → reach states < end_ →
  at_rest (end_sample s) (chunk_item (Z.to_nat (end_ - p)) options s p end_ states) ∧ end_ <= reach (chunk_item (Z.to_nat (end_ - p)) options s p end_ states).
Proof.
  intros Ha Hm Hr. destruct (Z.to_nat (end_ - p)) as [|fuel] eqn:Efuel; [lia|]. cbn [chunk_item]. rewrite (proj2 (Z.ltb_lt p end_)) by lia.
  pose proof (turn_at_rest m states Ha Hm Hr ltac:(lia)) as Ht. destruct (chunk_turn options s p end_ states) as [[start' states']|states']; [|done].
  apply item_amid; [apply Ht|lia|lia].
Qed.

(** An item inside what is covered changes nothing but the speech that is known. *)
Lemma item_inside m states :
  at_rest m states → end_ <= reach states → states ≠ [] →
  at_rest (Z.max m (end_sample s)) (chunk_item (Z.to_nat (end_ - p)) options s p end_ states) ∧
  reach (chunk_item (Z.to_nat (end_ - p)) options s p end_ states) = reach states.
Proof.
  intros [Ht Hc] Hr Hne. destruct states as [|c older]; [done|]. destruct Hc as [Hse Hce]. cbn in Hr.
  destruct (Z.to_nat (end_ - p)) as [|fuel] eqn:Efuel; [lia|]. cbn [chunk_item]. rewrite (proj2 (Z.ltb_lt p end_)) by lia.
  unfold chunk_turn. cbv zeta. rewrite (proj2 (Z.leb_le end_ _)) by done. split; [|done]. split; [|cbn; lia].
  destruct Ht as [[(H1 & H2 & H3) Hf]%Forall_cons Hs]. apply (tiled_longer c); [by split; [constructor|]|lia|lia].
Qed.
End item.

Definition item_of (s : TimeSpan) : WorkSpan := {| padded := padded_span s n (padding_samples options); speech := s |}.

Definition apart (s t : TimeSpan) : Prop := end_sample s < start_sample t ∨ end_sample t < start_sample s.

(** The last speech known, and what may still come. *)
Definition before (states : list ChunkState) (m : Z) (work : list WorkSpan) : Prop :=
  states ≠ [] → ∃ last, inside n last ∧ m = end_sample last ∧ end_sample (padded (item_of last)) <= reach states ∧
    Forall (λ item, earlier item (item_of last) = false ∧ apart last (speech item)) work.

Lemma works_apart work : ∀ m states,
  Forall (λ item, item = item_of (speech item) ∧ inside n (speech item)) work →
  StronglySorted (λ a b, earlier b a = false) work → StronglySorted (λ a b, apart (speech a) (speech b)) work →
  at_rest m states → before states m work → tiled (foldl (chunk_work options) states work).
Proof.
  induction work as [|item work IH]; intros m states Hok Hsort Hapart Hrest Hbefore; cbn [foldl]; [apply Hrest|].
  apply Forall_cons in Hok as [[Ei Hi] Hok]. apply StronglySorted_inv in Hsort as [Hsort Hearlier]. apply StronglySorted_inv in Hapart as [Hapart Ha].
  assert (Forall (λ later, earlier later (item_of (speech item)) = false ∧ apart (speech item) (speech later)) work) as Hnext
    by (rewrite <- Ei; rewrite Forall_forall in *; auto).
  set (s := speech item) in *. clearbody s. subst item. unfold chunk_work. cbn [padded speech item_of].
  set (p := start_sample _). set (end_ := end_sample _).
  assert (0 <= p <= start_sample s ∧ start_sample s < end_sample s <= end_ ∧ end_ <= end_sample s + padding_samples options ∧ end_ <= n) as Hspeech
    by (destruct Hi; unfold p, end_; cbn; lia).
  assert (∀ m' states', at_rest m' states' → end_ <= reach states' → m' = end_sample s → tiled (foldl (chunk_work options) states' work)) as Hgo.
  { intros m' states' Hr' Hre Hm'. apply (IH m'); try done. intros _. by exists s. }
  destruct (decide (states = [])) as [->|Hne].
  { destruct (item_at_rest s p end_ Hspeech (start_sample s - 1) []) as [H1 H2]; [split; [by split; constructor|done]|lia|cbn; lia|]. by eapply Hgo. }
  destruct (Hbefore Hne) as (last & Hlast & -> & Hreach & [[He Hap] Hrem]%Forall_cons).
  destruct (Z.le_gt_cases end_ (reach states)) as [Hin|Hout].
  - destruct (item_inside s p end_ Hspeech _ states Hrest Hin Hne) as [H1 H2].
    destruct (Z.le_gt_cases (end_sample last) (end_sample s)) as [Hle|Hgt].
    + eapply Hgo; [exact H1|by rewrite H2|lia].
    + apply (IH _ _ Hok Hsort Hapart H1). intros _. exists last. rewrite H2. split_and!; [done|lia|done|done].
  - destruct Hap as [Hap|Hap].
    + destruct (item_at_rest s p end_ Hspeech _ states Hrest) as [H1 H2]; [done|lia|]. by eapply Hgo.
    + exfalso. unfold earlier in He. cbn in He, Hreach. unfold end_, p in *. cbn in *. destruct Hi, Hlast.
      destruct (Z.eqb_spec (Z.max 0 (start_sample s - padding_samples options)) (Z.max 0 (start_sample last - padding_samples options)));
        apply Z.ltb_ge in He; lia.
Qed.
End vad_apart.

(** C16. Chunks around speech that is apart do not overlap: when the segments come in
    order with at least a sample between them, and the padding is shorter than the
    longest chunk, every chunk ends before the next one begins. *)
Theorem vad_chunks_apart (sort : ∀ A, (A → A → bool) → list A → list A) {sorts : StdSort sort} segments audio_samples options chunks :
  StronglySorted (λ s t, end_sample s < start_sample t) segments → padding_samples options < max_chunk_samples options →
  plan_vad_audio_chunks sort segments audio_samples options = Ok chunks →
  StronglySorted (λ c d, end_sample c <= start_sample d) chunks.
Proof.
  intros Hsep Hpad. unfold plan_vad_audio_chunks, require_positive.
  destruct (Z.leb_spec audio_samples 0); cbn; [done|]. destruct (Z.leb_spec (max_chunk_samples options) 0); cbn; [done|].
  destruct (Z.ltb_spec (merge_gap_samples options) 0); [done|]. destruct (Z.ltb_spec (padding_samples options) 0); [done|].
  destruct segments as [|s0 segments']; [intros [= <-]; constructor|]. set (segments := s0 :: segments') in *. clearbody segments.
  pose proof (work_spans_spec segments audio_samples options) as Hw. destruct (work_spans segments audio_samples options) as [work|e]; cbn; [|done].
  destruct Hw as [-> Hin]. change (map _ segments) with (map (item_of options audio_samples) segments). intros [= <-].
  assert (sort _ earlier (map (item_of options audio_samples) segments) ≡ₚ map (item_of options audio_samples) segments) as Hperm by apply sort_permutation.
  destruct (works_apart options audio_samples ltac:(lia) ltac:(lia) (sort _ earlier (map (item_of options audio_samples) segments)) 0 []) as [_ Hs].
  - rewrite Hperm. apply Forall_map. eapply Forall_impl; [exact Hin|]. done.
  - by apply earlier_sorted.
  - eapply sorted_permutation; [|symmetry; exact Hperm|].
    + intros a b [Hab|Hab]; [by right|by left].
    + clear -Hsep. induction Hsep as [|s l _ IH Hs]; cbn; constructor; [done|]. apply Forall_map. eapply Forall_impl; [exact Hs|]. intros t Ht. by left.
  - split; [by split; constructor|done].
  - by intros [].
  - apply sorted_rev in Hs. revert Hs. generalize (rev (foldl (chunk_work options) [] (sort _ earlier (map (item_of options audio_samples) segments)))).
    intros l. induction 1 as [|c l _ IH Hc]; cbn; constructor; [done|]. by apply Forall_map.
Qed.

(** * Chunks that follow one another *)

Fixpoint tiles (from to : Z) (chunks : list TimeSpan) : Prop :=
  match chunks with
  | [] => from = to
  | c :: chunks => start_sample c = from ∧ from < end_sample c ∧ tiles (end_sample c) to chunks
  end.

Lemma tiles_le from to chunks : tiles from to chunks → from <= to.
Proof. revert from. induction chunks as [|c chunks IH]; cbn; intros from H; [lia|]. destruct H as (_ & H1 & H2%IH). lia. Qed.

Section quiet_facts.
Context {Float Double : Type} (fltb : Float → Float → bool) (infinity : Float) (fsqrt : Float → Float).
Context (to_double : Float → Double) (of_double : Double → Float) (dzero : Double) (dadd dmul ddiv : Double → Double → Double) (dof_int : Z → Double).

Notation quietest := (quietest fltb fsqrt to_double of_double dzero dadd dmul ddiv dof_int).
Notation quiet_split := (quiet_split fltb infinity fsqrt to_double of_double dzero dadd dmul ddiv dof_int).
Notation quiet_loop := (quiet_loop fltb infinity fsqrt to_double of_double dzero dadd dmul ddiv dof_int).
Notation plan := (plan_quiet_energy_audio_chunks fltb infinity fsqrt to_double of_double dzero dadd dmul ddiv dof_int).

Lemma quietest_bound fuel mono search_start upper window hi : ∀ i min_energy split,
  0 <= i → 0 < window → search_start + upper <= hi → split <= hi → quietest fuel mono search_start upper window i min_energy split <= hi.
Proof.
  induction fuel as [|fuel IH]; intros i min_energy split Hi Hw Hu Hs; cbn [AudioChunking.quietest]; [done|].
  destruct (Z.ltb_spec i upper); [|done]. destruct (fltb _ _); apply IH; lia.
Qed.

Lemma quiet_split_bound mono options total index :
  0 <= index → 0 < quiet_chunk_samples options → 0 < min_energy_window_samples options → index + quiet_chunk_samples options < total →
  index < quiet_split mono options total index <= index + quiet_chunk_samples options.
Proof.
  intros Hi Hc Hw Ht. unfold AudioChunking.quiet_split. cbv zeta. rewrite (Z.min_l (index + _) total) by lia.
  set (search_start := Z.max index _). set (hi := index + quiet_chunk_samples options) in *.
  assert (∀ split, split <= hi → index < Z.max (index + 1) (Z.min split total) <= hi) as Hclamp by (intros split; lia).
  apply Hclamp. destruct (Z.ltb_spec search_start hi); [|done]. destruct (Z.leb_spec (hi - search_start) (min_energy_window_samples options)).
  - rewrite Z.quot_div_nonneg by lia. apply Z.div_le_upper_bound; lia.
  - apply quietest_bound; lia.
Qed.

Lemma quiet_loop_spec mono options total fuel : ∀ index chunks,
  0 < quiet_chunk_samples options → 0 < min_energy_window_samples options → 0 <= index <= total → (Z.to_nat (total - index) <= fuel)%nat →
  ∃ l, quiet_loop fuel mono options total index chunks = chunks ++ l ∧ tiles index total l ∧
       Forall (λ c, end_sample c - start_sample c <= quiet_chunk_samples options) l.
Proof.
  induction fuel as [|fuel IH]; intros index chunks Hc Hw Hi Hfuel; cbn [AudioChunking.quiet_loop].
  - exists []. rewrite app_nil_r. split_and!; [done|cbn; lia|constructor].
  - destruct (Z.ltb_spec index total) as [Hlt|Hge]; [|exists []; rewrite app_nil_r; split_and!; [done|cbn; lia|constructor]].
    destruct (Z.leb_spec total (index + quiet_chunk_samples options)) as [Hlast|Hmore].
    + eexists. split; [reflexivity|]. split; [done|]. repeat constructor. cbn. lia.
    + pose proof (quiet_split_bound mono options total index ltac:(lia) Hc Hw Hmore) as Hs. cbv zeta. set (split := quiet_split _ _ _ _) in *. clearbody split.
      destruct (IH split (chunks ++ [{| start_sample := index; end_sample := split |}]) Hc Hw ltac:(lia) ltac:(lia)) as (l & E & Ht & Hf).
      exists ({| start_sample := index; end_sample := split |} :: l). rewrite E, <- app_assoc. split; [done|].
      split; [cbn; split_and!; [done|lia|done]|]. constructor; [cbn; lia|done].
Qed.

Definition quiet_ok (options : QuietEnergyAudioChunkOptions) : Prop :=
  0 < quiet_chunk_samples options ∧ 0 < boundary_context_samples options ∧ 0 < min_energy_window_samples options.

(** Chunks cut at quiet places: a plan is refused exactly when the recording is empty
    or a length is not positive; otherwise the chunks follow one another from the
    beginning of the recording to its end, none empty and none longer than the limit,
    whatever the samples are. *)
Theorem quiet_chunks_tile mono options :
  match plan mono options with
  | Throw _ => ¬ (mono ≠ [] ∧ quiet_ok options)
  | Ok chunks => tiles 0 (Z.of_nat (length mono)) chunks ∧ Forall (λ c, end_sample c - start_sample c <= quiet_chunk_samples options) chunks
  end.
Proof.
  unfold plan_quiet_energy_audio_chunks, require_positive, quiet_ok. destruct mono as [|x mono]; [cbn; naive_solver|].
  rewrite (proj2 (Z.leb_gt (Z.of_nat (length (x :: mono))) 0)) by (cbn; lia). cbn [mbind outcome_bind].
  destruct (Z.leb_spec (quiet_chunk_samples options) 0); cbn [mbind outcome_bind]; [lia|].
  destruct (Z.leb_spec (boundary_context_samples options) 0); cbn [mbind outcome_bind]; [lia|].
  destruct (Z.leb_spec (min_energy_window_samples options) 0); cbn [mbind outcome_bind]; [lia|].
  destruct (quiet_loop_spec (x :: mono) options (Z.of_nat (length (x :: mono))) (length (x :: mono)) 0 []) as (l & -> & Ht & Hf); [done|done|lia|lia|done].
Qed.

(** * Slices *)

Definition audio_ok (audio : @AudioBuffer Float) (frames : Z) : Prop :=
  0 < sample_rate audio ∧ 0 < channels audio ∧ 0 < frames ∧ Z.of_nat (length (samples audio)) = frames * channels audio.

Lemma slice_inside audio frames c :
  audio_ok audio frames → inside frames c →
  slice_audio_buffer audio c =
  Ok {| sample_rate := sample_rate audio; channels := channels audio;
        samples := take (Z.to_nat ((end_sample c - start_sample c) * channels audio)) (drop (Z.to_nat (start_sample c * channels audio)) (samples audio)) |}.
Proof.
  intros (Hr & Hc & Hf & Hl) [H1 H2]. unfold slice_audio_buffer, require_positive, require_valid_time_span.
  rewrite (proj2 (Z.leb_gt _ _) Hr), (proj2 (Z.leb_gt _ _) Hc). cbn [mbind outcome_bind]. rewrite Hl.
  rewrite (proj2 (Z.eqb_neq (frames * channels audio) 0)), Z.mod_mul, Z.div_mul, Z.eqb_refl by nia. cbn [negb].
  rewrite (proj2 (Z.ltb_ge (start_sample c) 0)), (proj2 (Z.leb_gt (end_sample c) (start_sample c))), (proj2 (Z.ltb_ge frames (end_sample c))) by lia.
  cbn [orb mbind outcome_bind]. by rewrite <- Z.mul_sub_distr_r.
Qed.

Lemma slices_from audio frames chunks : ∀ from,
  audio_ok audio frames → 0 <= from → tiles from frames chunks →
  ∃ slices, Forall2 (λ c s, slice_audio_buffer audio c = Ok s ∧ sample_rate s = sample_rate audio ∧ channels s = channels audio) chunks slices ∧
    concat (map samples slices) = drop (Z.to_nat (from * channels audio)) (samples audio).
Proof.
  induction chunks as [|c chunks IH]; intros from Ha Hf Ht; cbn in Ht.
  - subst from. exists []. split; [constructor|]. destruct Ha as (_ & Hc & _ & Hl). cbn. rewrite drop_ge; [done|]. nia.
  - destruct Ht as (Hs & Hlt & Ht). pose proof (tiles_le _ _ _ Ht). destruct (IH (end_sample c) Ha ltac:(lia) Ht) as (slices & H1 & H2).
    rewrite <- Hs in Hf, Hlt. eexists (_ :: slices). split; [constructor; [split; [apply (slice_inside audio frames c); [done|split; lia]|done]|done]|].
    cbn [map concat samples]. rewrite H2, <- Hs. destruct Ha as (_ & Hc & _ & Hl).
    rewrite <- (take_drop (Z.to_nat ((end_sample c - start_sample c) * channels audio)) (drop (Z.to_nat (start_sample c * channels audio)) (samples audio))) at 2.
    rewrite drop_drop. do 2 f_equal. rewrite <- Z2Nat.inj_add by nia. f_equal. lia.
Qed.

(** Nothing is lost between chunks that follow one another: each has its audio, of the
    same format, and the pieces put together are the recording. *)
Theorem slices_join audio frames chunks :
  audio_ok audio frames → tiles 0 frames chunks →
  ∃ slices, Forall2 (λ c s, slice_audio_buffer audio c = Ok s ∧ sample_rate s = sample_rate audio ∧ channels s = channels audio) chunks slices ∧
    concat (map samples slices) = samples audio.
Proof. intros Ha Ht. destruct (slices_from audio frames chunks 0 Ha ltac:(lia) Ht) as (slices & H1 & H2). by exists slices. Qed.

End quiet_facts.

(** * Examples *)

Module Recordings.
Notation span_ a b := {| start_sample := a; end_sample := b |}.
Notation planned segments options := (plan_vad_audio_chunks insertion_sort segments 1000 options).

Definition mixed : list TimeSpan := [span_ 950 990; span_ 120 200; span_ 500 900; span_ 180 260; span_ 420 520; span_ 0 30].
Definition mixed_options : VadAudioChunkOptions := {| max_chunk_samples := 250; merge_gap_samples := 50; padding_samples := 10 |}.

Example mixed_chunks : planned mixed mixed_options = Ok [span_ 0 40; span_ 110 270; span_ 410 660; span_ 660 910; span_ 940 1000].
Proof. by vm_compute. Qed.

Lemma vad_chunks_cover_witness :
  ∃ chunks, planned mixed mixed_options = Ok chunks ∧ Exists (within 415) chunks.
Proof.
  eexists. split; [vm_compute; reflexivity|]. pose proof (vad_chunks_cover insertion_sort mixed 1000 mixed_options) as H.
  vm_compute plan_vad_audio_chunks in H. destruct H as (_ & _ & H). apply (H (span_ 420 520) 415); [unfold mixed; set_solver|unfold within; cbn; lia].
Defined.

Definition apart_speech : list TimeSpan := [span_ 0 190; span_ 191 400; span_ 500 560].
Definition apart_options : VadAudioChunkOptions := {| max_chunk_samples := 200; merge_gap_samples := 20; padding_samples := 10 |}.

Lemma vad_chunks_apart_witness :
  ∃ chunks, planned apart_speech apart_options = Ok chunks ∧ StronglySorted (λ c d, end_sample c <= start_sample d) chunks ∧ length chunks = 4%nat.
Proof.
  eexists. split; [vm_compute; reflexivity|]. split; [|done].
  apply (vad_chunks_apart insertion_sort apart_speech 1000 apart_options); [repeat constructor; cbn; lia|cbn; lia|vm_compute; reflexivity].
Defined.

(** Segments that touch: a full chunk is not shortened, and the next one begins in the padding. *)
Example touching_overlap :
  planned [span_ 0 190; span_ 190 400] apart_options = Ok [span_ 0 200; span_ 180 380; span_ 380 410].
Proof. by vm_compute. Qed.

Definition stereo : @AudioBuffer Z := {| sample_rate := 16000; channels := 2; samples := [1; 2; 3; 4; 5; 6; 7; 8] |}.

Lemma slices_join_witness :
  ∃ slices, Forall2 (λ c s, slice_audio_buffer stereo c = Ok s ∧ sample_rate s = 16000 ∧ channels s = 2) [span_ 0 1; span_ 1 3; span_ 3 4] slices ∧
    concat (map samples slices) = [1; 2; 3; 4; 5; 6; 7; 8].
Proof. apply (slices_join stereo 4); [split_and!; done|cbn; split_and!; lia]. Defined.
End Recordings.
