(* ===== verification/Thinker.v ===== *)
(** The recognizer's language model (models/qwen3_asr/thinker.cpp): the graphs kept
    between requests, the import of the prompt's keys and values, the greedy loop over
    tokens, and the classification of a prompt; shown to answer as the networks alone. *)

From stdpp Require Import gmap.
From S2P Require Import Prelude FlowCache KVCache TalkerCache.

#[local] Open Scope Z_scope.

Record Qwen3ASRTextDecoderConfig := { hidden_size : Z; max_position_embeddings : Z; eos_token_ids : list Z; audio_token_id : Z; pad_token_id : Z }.

Record Qwen3ASRPrompt := { input_ids : list Z; audio_token_positions : list Z; attention_mask : list Z }.

Record Qwen3ASRGenerationOptions := { max_new_tokens : Z; return_timestamps : bool }.

Record Qwen3ASRAudioEmbeddings {Float} := { values : list Float; tokens : Z; embedding_size : Z }.
Arguments Qwen3ASRAudioEmbeddings : clear implicits.

(** Keys and values of each layer, a row or several. *)
Notation KV Float := (list (list Float * list Float)).

(** What the graphs compute, and whether one for a prompt fits the device's memory. *)
Class ThinkerNetworks (Float : Type) := {
  prefill_network : list Z → list Float → list Z → outcome (list Float) * KV Float;
  decode_network : KV Float → Z → Z → outcome (list Float) * KV Float;
  classification_network : list Z → list Float → list Z → outcome (list Z);
  prefill_fits : Z → Z → bool;
}.

Section thinker.
Context {Float : Type} `{!ThinkerNetworks Float} (fltb : Float → Float → bool) (fzero : Float) (stored : ggml_type → Float → Float).
Context (config : Qwen3ASRTextDecoderConfig) (num_hidden_layers : nat) (row_elems : Z).

Notation Embeddings := (Qwen3ASRAudioEmbeddings Float).

(** [for (i = 1; i < values.size(); ++i)], over the values left. *)
Fixpoint best_loop (values : list Float) (i best : Z) (best_value : Float) : Z :=
  match values with
  | [] => best
  | v :: values => if fltb best_value v then best_loop values (i + 1) i v else best_loop values (i + 1) best best_value
  end.

Definition argmax_index (values : list Float) : outcome Z :=
  match values with
  | [] => Throw (str "Qwen3 ASR thinker cannot select from empty logits")
  | v :: values => Ok (i32 (best_loop values 1 0 v))
  end.

Definition is_eos (token : Z) : bool := bool_decide (token ∈ eos_token_ids config).

(** * The graphs *)

Record ThinkerImpl := {
  (** Steps of the prompt and tokens of audio. *)
  prefill_graph : option (Z * Z);
  decode_graph : option (@TransformerKVCache Float);
  classification_graph : option (Z * Z);
}.

#[export] Instance eta_thinker : Settable ThinkerImpl := λ s,
  {| prefill_graph := prefill_graph s; decode_graph := decode_graph s; classification_graph := classification_graph s |}.

Definition make_thinker : ThinkerImpl := {| prefill_graph := None; decode_graph := None; classification_graph := None |}.

Definition make_prefill_graph (prompt_steps audio_tokens : Z) : outcome (Z * Z) :=
  if prompt_steps <=? 0 then Throw (str "Qwen3 ASR thinker prefill requires positive prompt length")
  else if (audio_tokens <? 0) || (prompt_steps <? audio_tokens) then Throw (str "Qwen3 ASR thinker prefill audio token count is invalid")
  else if negb (prefill_fits prompt_steps audio_tokens) then
    Throw (str "Qwen3 ASR prefill graph does not fit in device memory at this size (" ++ to_string prompt_steps ++
           str " prompt steps, of which " ++ to_string audio_tokens ++ str " are audio tokens); shorten the transcription prompt or the audio")
  else Ok (prompt_steps, audio_tokens).

Definition prefill_run (graph : Z * Z) (token_ids : list Z) (audio_embeddings : list Float) (audio_positions : list Z) :
    outcome (list Float * @TransformerKVState Float) :=
  if negb (Z.of_nat (length token_ids) =? graph.1) then Throw (str "Qwen3 ASR thinker prefill token id count mismatch")
  else if negb (Z.of_nat (length audio_embeddings) =? graph.2 * hidden_size config) then Throw (str "Qwen3 ASR thinker prefill audio embedding size mismatch")
  else if negb (Z.of_nat (length audio_positions) =? graph.2) then Throw (str "Qwen3 ASR thinker prefill audio position count mismatch")
  else
    let '(logits, kv) := prefill_network token_ids audio_embeddings audio_positions in
    logits ← logits; Ok (logits, rows_state graph.1 kv).

Definition make_classification_graph (prompt_steps audio_tokens : Z) : outcome (Z * Z) :=
  if prompt_steps <=? 0 then Throw (str "Qwen3 ASR thinker classification requires positive prompt length")
  else if (audio_tokens <? 0) || (prompt_steps <? audio_tokens) then Throw (str "Qwen3 ASR thinker classification audio token count is invalid")
  else Ok (prompt_steps, audio_tokens).

Definition classification_run (graph : Z * Z) (token_ids : list Z) (audio_embeddings : list Float) (audio_positions : list Z) : outcome (list Z) :=
  if negb (Z.of_nat (length token_ids) =? graph.1) then Throw (str "Qwen3 ASR thinker classification token id count mismatch")
  else if negb (Z.of_nat (length audio_embeddings) =? graph.2 * hidden_size config) then
    Throw (str "Qwen3 ASR thinker classification audio embedding size mismatch")
  else if negb (Z.of_nat (length audio_positions) =? graph.2) then Throw (str "Qwen3 ASR thinker classification audio position count mismatch")
  else classification_network token_ids audio_embeddings audio_positions.

(** The buffer is not cleared; [import_state] writes all of it before a step is run, so
    that it starts as zeros here as well. *)
Definition make_decode_graph (cache_steps : Z) : outcome (@TransformerKVCache Float) :=
  if cache_steps <=? 0 then Throw (str "Qwen3 ASR thinker decode requires positive cache length")
  else make_step_cache fzero num_hidden_layers row_elems cache_steps.

(** [DecodeGraph::run_step]. *)
Definition run_step (token : Z) : io (@TransformerKVCache Float) (list Float) := λ c,
  if cache_steps_ c <=? valid_steps_ c then (Throw (str "Qwen3 ASR thinker decode cache exhausted"), c)
  else
    let '(status, row) := decode_network (visible c) (i32 (current_end_ c)) token in
    let c := write_rows (i32 (valid_steps_ c) * row_elems) row c in
    match status with
    | Throw e => (Throw e, c)
    | Ok logits => (advance_after_direct_append 1;; mret logits) c
    end.

(** * Requests *)

Fixpoint positions_inside (size : Z) (positions : list Z) : outcome () :=
  match positions with
  | [] => Ok tt
  | position :: positions =>
      if (position <? 0) || (i32 size <=? position) then Throw (str "Qwen3 ASR audio placeholder position out of range")
      else positions_inside size positions
  end.

Definition validate_prompt_audio (prompt : Qwen3ASRPrompt) (audio_embeddings : Embeddings) : outcome () :=
  if negb (embedding_size audio_embeddings =? hidden_size config) then Throw (str "Qwen3 ASR audio embedding hidden size mismatch")
  else if negb (tokens audio_embeddings =? Z.of_nat (length (audio_token_positions prompt))) then
    Throw (str "Qwen3 ASR audio embedding token count does not match prompt placeholders")
  else if negb (Z.of_nat (length (values audio_embeddings)) =? tokens audio_embeddings * hidden_size config) then
    Throw (str "Qwen3 ASR audio embedding value count mismatch")
  else positions_inside (Z.of_nat (length (input_ids prompt))) (audio_token_positions prompt).

(** A graph of the sizes, the one that is kept if it has them. *)
Definition ensure_graph (graph : option (Z * Z)) (make : Z → Z → outcome (Z * Z)) (prompt_steps audio_tokens : Z) : outcome (Z * Z) :=
  match graph with
  | Some g => if bool_decide (g = (prompt_steps, audio_tokens)) then Ok g else make prompt_steps audio_tokens
  | None => make prompt_steps audio_tokens
  end.

Definition ensure_decode_graph (required_cache_steps : Z) : io ThinkerImpl () :=
  s ← io_get;
  match decode_graph s with
  | Some c => if required_cache_steps <=? cache_steps_ c then mret tt
              else c ← io_lift (make_decode_graph required_cache_steps); io_modify (λ s, s <| decode_graph := Some c |>)
  | None => c ← io_lift (make_decode_graph required_cache_steps); io_modify (λ s, s <| decode_graph := Some c |>)
  end.

Definition on_decode {A} (m : io (@TransformerKVCache Float) A) : io ThinkerImpl A := λ s,
  match decode_graph s with
  | Some c => let '(r, c) := m c in (r, s <| decode_graph := Some c |>)
  | None => (Throw (str "null decode graph"), s)
  end.

(** [for (step = 0; step < options.max_new_tokens; ++step)], over what runs a step. *)
Section loop.
Context {S : Type} (step : Z → io S (list Float)).
Fixpoint decode_loop (fuel : nat) (logits : list Float) (token_ids : list Z) : io S (list Z) :=
  match fuel with
  | O => mret token_ids
  | Datatypes.S fuel =>
      token ← io_lift (argmax_index logits);
      if is_eos token then mret token_ids
      else
        logits ← step token;
        decode_loop fuel logits (token_ids ++ [token])
  end.
End loop.

(** [Impl::generate]. *)
Definition generate_tokens (prompt : Qwen3ASRPrompt) (audio_embeddings : Embeddings) (options : Qwen3ASRGenerationOptions) : io ThinkerImpl (list Z) :=
  match input_ids prompt with
  | [] => io_lift (Throw (str "Qwen3 ASR thinker prompt is empty"))
  | _ =>
      if max_new_tokens options <=? 0 then io_lift (Throw (str "Qwen3 ASR max_new_tokens must be positive"))
      else
        let prompt_steps := Z.of_nat (length (input_ids prompt)) in
        if max_position_embeddings config <? prompt_steps + max_new_tokens options then
          io_lift (Throw (str "Qwen3 ASR thinker request exceeds max_position_embeddings"))
        else
          io_lift (validate_prompt_audio prompt audio_embeddings);;
          s ← io_get;
          graph ← io_lift (ensure_graph (prefill_graph s) make_prefill_graph prompt_steps (tokens audio_embeddings));
          io_modify (λ s, s <| prefill_graph := Some graph |>);;
          prefill ← io_lift (prefill_run graph (input_ids prompt) (values audio_embeddings) (audio_token_positions prompt));
          ensure_decode_graph (prompt_steps + max_new_tokens options);;
          on_decode (import_state fzero stored prefill.2);;
          decode_loop (λ token, on_decode (run_step token)) (Z.to_nat (max_new_tokens options)) prefill.1 []
  end.

(** [Impl::classify_prompt]. *)
Definition classify_prompt (prompt : Qwen3ASRPrompt) (audio_embeddings : Embeddings) : io ThinkerImpl (list Z) :=
  match input_ids prompt with
  | [] => io_lift (Throw (str "Qwen3 ASR thinker classification prompt is empty"))
  | _ =>
      let prompt_steps := Z.of_nat (length (input_ids prompt)) in
      if max_position_embeddings config <? prompt_steps then
        io_lift (Throw (str "Qwen3 ASR thinker classification request exceeds max_position_embeddings"))
      else
        io_lift (validate_prompt_audio prompt audio_embeddings);;
        s ← io_get;
        graph ← io_lift (ensure_graph (classification_graph s) make_classification_graph prompt_steps (tokens audio_embeddings));
        io_modify (λ s, s <| classification_graph := Some graph |>);;
        io_lift (classification_run graph (input_ids prompt) (values audio_embeddings) (audio_token_positions prompt))
  end.

(** * The specification: no graphs are kept *)

Definition decode_rows (token : Z) : io (KV Float * Z) (list Float) := λ s,
  let '(status, row) := decode_network s.1 s.2 token in
  match status with
  | Throw e => (Throw e, s)
  | Ok logits => (Ok logits, (append_rows s.1 row, s.2 + 1))
  end.

Definition transcribe (prompt : Qwen3ASRPrompt) (audio_embeddings : Embeddings) (options : Qwen3ASRGenerationOptions) : outcome (list Z) :=
  match input_ids prompt with
  | [] => Throw (str "Qwen3 ASR thinker prompt is empty")
  | _ =>
      if max_new_tokens options <=? 0 then Throw (str "Qwen3 ASR max_new_tokens must be positive")
      else
        let prompt_steps := Z.of_nat (length (input_ids prompt)) in
        if max_position_embeddings config <? prompt_steps + max_new_tokens options then
          Throw (str "Qwen3 ASR thinker request exceeds max_position_embeddings")
        else
          validate_prompt_audio prompt audio_embeddings;;
          make_prefill_graph prompt_steps (tokens audio_embeddings);;
          let '(logits, kv) := prefill_network (input_ids prompt) (values audio_embeddings) (audio_token_positions prompt) in
          logits ← logits;
          (decode_loop decode_rows (Z.to_nat (max_new_tokens options)) logits [] (kv, prompt_steps)).1
  end.

Definition classify (prompt : Qwen3ASRPrompt) (audio_embeddings : Embeddings) : outcome (list Z) :=
  match input_ids prompt with
  | [] => Throw (str "Qwen3 ASR thinker classification prompt is empty")
  | _ =>
      let prompt_steps := Z.of_nat (length (input_ids prompt)) in
      if max_position_embeddings config <? prompt_steps then Throw (str "Qwen3 ASR thinker classification request exceeds max_position_embeddings")
      else
        validate_prompt_audio prompt audio_embeddings;;
        make_classification_graph prompt_steps (tokens audio_embeddings);;
        classification_network (input_ids prompt) (values audio_embeddings) (audio_token_positions prompt)
  end.

Inductive Call := Generate (prompt : Qwen3ASRPrompt) (audio_embeddings : Embeddings) (options : Qwen3ASRGenerationOptions) | Classify (prompt : Qwen3ASRPrompt) (audio_embeddings : Embeddings).

Definition call (c : Call) : io ThinkerImpl (list Z) :=
  match c with Generate p e o => generate_tokens p e o | Classify p e => classify_prompt p e end.

Fixpoint calls (cs : list Call) (s : ThinkerImpl) : list (outcome (list Z)) :=
  match cs with [] => [] | c :: cs => let '(r, s) := call c s in r :: calls cs s end.

Definition alone (c : Call) : outcome (list Z) :=
  match c with Generate p e o => transcribe p e o | Classify p e => classify p e end.
End thinker.

(** * Facts *)

Section facts.
Context {Float : Type} `{!ThinkerNetworks Float} (fltb : Float → Float → bool) (fzero : Float) (stored : ggml_type → Float → Float).
Context (config : Qwen3ASRTextDecoderConfig) (num_hidden_layers : nat) (row_elems : Z).

Notation step_cache := (step_cache num_hidden_layers row_elems).
Notation ThinkerImpl := (@ThinkerImpl Float).
Notation run_step := (run_step row_elems).
Notation make_prefill_graph := (make_prefill_graph (Float := Float)).

(** What is relied on: a tensor of 32-bit numbers stores what is written, and the networks
    answer with keys and values of the sizes their graphs have. *)
Record thinker_networks_ok : Prop := {
  stored_ok : ∀ x : Float, stored GGML_TYPE_F32 x = x;
  decode_ok : ∀ kv position token, sized num_hidden_layers (Z.to_nat row_elems) (decode_network kv position token).2;
  prefill_ok : ∀ ids embeddings positions logits, (prefill_network ids embeddings positions).1 = Ok logits →
    sized num_hidden_layers (Z.to_nat (Z.of_nat (length ids) * row_elems)) (prefill_network ids embeddings positions).2;
  layers_ok : (0 < num_hidden_layers)%nat ∧ 0 < row_elems;
  positions_ok : max_position_embeddings config < 2 ^ 31 ∧ max_position_embeddings config * row_elems < 2 ^ 64;
}.

Context (networks_ok : thinker_networks_ok).

Definition kept_graph (make : Z → Z → outcome (Z * Z)) (graph : option (Z * Z)) : Prop := ∀ g, graph = Some g → make g.1 g.2 = Ok g.

Record thinker_ready (s : ThinkerImpl) : Prop := {
  ready_prefill : kept_graph make_prefill_graph (prefill_graph s);
  ready_classification : kept_graph make_classification_graph (classification_graph s);
  ready_decode : ∀ c, decode_graph s = Some c → ∃ n, step_cache n c ∧ n <= max_position_embeddings config;
}.

Lemma ensure_graph_kept make graph a b :
  kept_graph make graph → ensure_graph graph make a b = make a b.
Proof.
  intros Hk. unfold ensure_graph. destruct graph as [g|]; [|done]. destruct (bool_decide_reflect (g = (a, b))) as [->|]; [|done].
  symmetry. by apply (Hk (a, b)).
Qed.

Lemma prefill_graph_sizes a b g : make_prefill_graph a b = Ok g → g = (a, b).
Proof. unfold Thinker.make_prefill_graph. destruct (_ <=? _); [done|]. destruct (_ || _); [done|]. destruct (negb _); [done|]. by intros [= <-]. Qed.

Lemma classification_graph_sizes a b g : make_classification_graph a b = Ok g → g = (a, b).
Proof. unfold make_classification_graph. destruct (_ <=? _); [done|]. destruct (_ || _); [done|]. by intros [= <-]. Qed.

Lemma kept_made (make : Z → Z → outcome (Z * Z)) a b g : (∀ g, make a b = Ok g → g = (a, b)) → make a b = Ok g → kept_graph make (Some g).
Proof. intros Hs E g' [= <-]. pose proof (Hs g E) as ->. exact E. Qed.

Lemma validated prompt (e : Qwen3ASRAudioEmbeddings Float) :
  validate_prompt_audio config prompt e = Ok tt →
  tokens e = Z.of_nat (length (audio_token_positions prompt)) ∧ Z.of_nat (length (values e)) = tokens e * hidden_size config.
Proof.
  unfold validate_prompt_audio. destruct (negb _); [done|]. destruct (Z.eqb_spec (tokens e) (Z.of_nat (length (audio_token_positions prompt)))) as [E1|]; [|done].
  cbn [negb]. destruct (Z.eqb_spec (Z.of_nat (length (values e))) (tokens e * hidden_size config)) as [E2|]; [|done]. done.
Qed.

(** There is a decode graph with the rows asked for. *)
Lemma ensure_decode_ready s required :
  thinker_ready s → 0 < required <= max_position_embeddings config →
  ∃ s' c n, ensure_decode_graph fzero num_hidden_layers row_elems required s = (Ok tt, s') ∧ decode_graph s' = Some c ∧ step_cache n c ∧
    required <= n <= max_position_embeddings config ∧ prefill_graph s' = prefill_graph s ∧ classification_graph s' = classification_graph s.
Proof.
  intros Hs Hreq. destruct networks_ok as [_ _ _ [Hl Hr] [Hp1 Hp2]].
  assert (∃ c, make_decode_graph fzero num_hidden_layers row_elems required = Ok c ∧ step_cache required c) as (c & Ec & Hc).
  { unfold make_decode_graph. rewrite (proj2 (Z.leb_gt _ _)) by lia. destruct (fresh_step fzero num_hidden_layers row_elems required) as (c & E & Hc & _); [done|done|lia|nia|].
    by exists c. }
  unfold ensure_decode_graph. rewrite io_bind_get. destruct (decode_graph s) as [d|] eqn:Ed.
  - destruct (ready_decode s Hs d Ed) as (n & Hd & Hn). rewrite (cache_steps_eq _ _ _ _ Hd). destruct (Z.leb_spec required n).
    + exists s, d, n. by split_and!.
    + rewrite Ec, io_bind_lift. eexists _, c, required. split; [reflexivity|]. split_and!; try done; lia.
  - rewrite Ec, io_bind_lift. eexists _, c, required. split; [reflexivity|]. split_and!; try done; lia.
Qed.

Lemma on_decode_run {A} (m : io (@TransformerKVCache Float) A) s c :
  decode_graph s = Some c → on_decode m s = ((m c).1, s <| decode_graph := Some (m c).2 |>).
Proof. intros E. unfold on_decode. rewrite E. by destruct (m c). Qed.

(** While tokens are decoded: the cache holds the rows of the specification. *)
Section decoding.
Context (s0 : ThinkerImpl) (steps limit n : Z) (room : 0 < steps ∧ steps + limit <= n <= max_position_embeddings config).

Definition same_graphs (s : ThinkerImpl) : Prop := prefill_graph s = prefill_graph s0 ∧ classification_graph s = classification_graph s0.

Definition decoding (k : Z) (s : ThinkerImpl) (t : KV Float * Z) : Prop :=
  same_graphs s ∧ ∃ c, decode_graph s = Some c ∧ step_cache n c ∧ visible c = t.1 ∧ valid_steps_ c = steps + k ∧ t.2 = steps + k.

Definition decoded (s : ThinkerImpl) (t : KV Float * Z) : Prop := same_graphs s ∧ ∃ c, decode_graph s = Some c ∧ step_cache n c.

Lemma decoding_decoded k s t : decoding k s t → decoded s t.
Proof. intros (H1 & c & H2 & H3 & _). split; [done|by exists c]. Qed.

Lemma step_same k token : 0 <= k < limit → runs (decoding k) (decoding (k + 1)) decoded (on_decode (run_step token)) (decode_rows token).
Proof.
  intros Hk s t (Hg & c & Ec & Hc & Hvis & Hval & Ht). rewrite (on_decode_run _ s c Ec). destruct networks_ok as [_ Hdec _ _ [Hp1 Hp2]].
  pose proof (cache_steps_eq _ _ _ _ Hc) as Ecs. pose proof (cache_end _ _ _ _ Hc) as Hend.
  unfold Thinker.run_step, decode_rows. rewrite Ecs, Hend, Hval, (proj2 (Z.leb_gt n _)), !i32_small, Hvis, Ht by lia.
  pose proof (Hdec t.1 (steps + k) token) as Hs. destruct (decode_network t.1 (steps + k) token) as [[logits|e] row]; cbn [fst snd] in *.
  - destruct (append_step num_hidden_layers row_elems n c row Hc ltac:(lia) Hs) as (c' & E & Hc' & Hvis' & Hval').
    rewrite Hval in E. rewrite (io_bind_Ok _ _ _ _ _ E). cbn [mret io_ret fst snd is_ok]. split; [done|].
    split; [exact Hg|]. exists c'. split_and!; [done|done|by rewrite Hvis', Hvis|rewrite Hval', Hval; ring|cbn [snd]; ring].
  - split; [done|]. cbn [is_ok]. split; [exact Hg|]. eexists. split; [reflexivity|]. rewrite <- Hval. apply spare_row; [done|lia|done].
Qed.

Lemma decode_loop_same fuel : ∀ k logits token_ids,
  0 <= k → k + Z.of_nat fuel <= limit →
  runs (decoding k) decoded decoded (decode_loop fltb config (λ token, on_decode (run_step token)) fuel logits token_ids)
    (decode_loop fltb config decode_rows fuel logits token_ids).
Proof.
  assert (∀ k A (a : A), runs (decoding k) decoded decoded (mret a) (mret a)) as Hret by (intros k A a s t H; split; [done|by eapply decoding_decoded]).
  induction fuel as [|fuel IH]; intros k logits token_ids Hk Hf; cbn [decode_loop]; [apply Hret|].
  apply (runs_bind _ (decoding k)); [apply runs_lift, decoding_decoded|]. intros token. destruct (is_eos config token); [apply Hret|].
  apply (runs_bind _ (decoding (k + 1))); [apply step_same; lia|]. intros logits'. apply IH; lia.
Qed.
End decoding.

Notation generate_tokens := (generate_tokens fltb fzero stored config num_hidden_layers row_elems).
Notation transcribe := (transcribe fltb config).

Lemma generate_tokens_spec prompt e options s :
  thinker_ready s →
  let '(r, s') := generate_tokens prompt e options s in thinker_ready s' ∧ r = transcribe prompt e options.
Proof.
  intros Hs. unfold Thinker.generate_tokens, Thinker.transcribe. destruct (input_ids prompt) as [|id ids] eqn:Eids; [done|]. rewrite <- Eids. clear id ids Eids.
  destruct (Z.leb_spec (max_new_tokens options) 0) as [|Hmax]; [done|]. set (steps := Z.of_nat (length (input_ids prompt))).
  destruct (Z.ltb_spec (max_position_embeddings config) (steps + max_new_tokens options)) as [|Hpos]; [done|].
  destruct (validate_prompt_audio config prompt e) as [[]|err] eqn:Ev; [|done]. rewrite io_bind_lift. cbn [mbind outcome_bind]. rewrite io_bind_get.
  destruct (validated _ _ Ev) as [Htok Hval]. rewrite (ensure_graph_kept _ _ _ _ (ready_prefill s Hs)).
  destruct (make_prefill_graph steps (tokens e)) as [g|err] eqn:Eg; [|done]. rewrite io_bind_lift. cbn [mbind outcome_bind].
  pose proof (prefill_graph_sizes _ _ _ Eg) as ->.
  set (s1 := s <| prefill_graph := Some (steps, tokens e) |>).
  assert (thinker_ready s1) as Hs1.
  { split; [by eapply kept_made; [apply prefill_graph_sizes|]|apply Hs|apply Hs]. }
  rewrite (io_bind_Ok _ _ _ tt s1) by done. unfold prefill_run. cbn [fst snd]. unfold steps at 1. rewrite Z.eqb_refl, Hval, Z.eqb_refl, <- Htok, Z.eqb_refl.
  cbn [negb]. pose proof (prefill_ok networks_ok (input_ids prompt) (values e) (audio_token_positions prompt)) as Hpre.
  destruct (prefill_network (input_ids prompt) (values e) (audio_token_positions prompt)) as [[logits|err] kv]; [|done].
  specialize (Hpre logits eq_refl). cbn [mbind outcome_bind fst snd] in *. rewrite io_bind_lift. cbn [fst snd]. fold steps in Hpre.
  assert (0 < steps) as Hsteps.
  { unfold Thinker.make_prefill_graph in Eg. by destruct (Z.leb_spec steps 0). }
  destruct (ensure_decode_ready s1 (steps + max_new_tokens options) Hs1 ltac:(lia)) as (s2 & c & n & E2 & Ec & Hc & Hn & Hp2 & Hc2).
  rewrite (io_bind_Ok _ _ _ _ _ E2).
  destruct (import_step fzero stored num_hidden_layers row_elems n steps kv c (stored_ok networks_ok) Hpre Hc ltac:(lia)) as (c' & Ei & Hc' & Hvis & Hval').
  set (s3 := s2 <| decode_graph := Some c' |>).
  rewrite (io_bind_Ok _ _ _ tt s3) by (rewrite (on_decode_run _ s2 c Ec), Ei; done).
  destruct (decode_loop_same s3 steps (max_new_tokens options) n ltac:(lia) (Z.to_nat (max_new_tokens options)) 0 logits [] ltac:(lia) ltac:(lia) s3 (kv, steps)) as [Hr Hend].
  { split; [done|]. exists c'. split_and!; [done|done|done|lia|cbn; lia]. }
  destruct (decode_loop fltb config _ _ _ _ s3) as [r s4]. cbn [fst snd] in *. split; [|done].
  assert (same_graphs s3 s4 ∧ ∃ c, decode_graph s4 = Some c ∧ step_cache n c) as ([Hp4 Hc4] & d & Hd & Hd') by (by destruct (is_ok r)).
  split.
  - rewrite Hp4. unfold s3. change (prefill_graph _) with (prefill_graph s2). rewrite Hp2. apply Hs1.
  - rewrite Hc4. unfold s3. change (classification_graph _) with (classification_graph s2). rewrite Hc2. apply Hs1.
  - intros c0 Hc0. assert (c0 = d) as -> by congruence. exists n. split; [done|lia].
Qed.

Lemma classify_spec prompt (e : Qwen3ASRAudioEmbeddings Float) s :
  thinker_ready s →
  let '(r, s') := classify_prompt config prompt e s in thinker_ready s' ∧ r = classify config prompt e.
Proof.
  intros Hs. unfold classify_prompt, classify. destruct (input_ids prompt) as [|id ids] eqn:Eids; [done|]. rewrite <- Eids. clear id ids Eids.
  set (steps := Z.of_nat (length (input_ids prompt))). destruct (Z.ltb_spec (max_position_embeddings config) steps); [done|].
  destruct (validate_prompt_audio config prompt e) as [[]|err] eqn:Ev; [|done]. rewrite io_bind_lift. cbn [mbind outcome_bind]. rewrite io_bind_get.
  destruct (validated _ _ Ev) as [Htok Hval]. rewrite (ensure_graph_kept _ _ _ _ (ready_classification s Hs)).
  destruct (make_classification_graph steps (tokens e)) as [g|err] eqn:Eg; [|done]. rewrite io_bind_lift. cbn [mbind outcome_bind].
  pose proof (classification_graph_sizes _ _ _ Eg) as ->.
  rewrite (io_bind_Ok _ _ _ tt (s <| classification_graph := Some (steps, tokens e) |>)) by done. cbn [io_lift].
  split; [split; [apply Hs|by eapply kept_made; [apply classification_graph_sizes|]|apply Hs]|].
  unfold classification_run. cbn [fst snd]. unfold steps at 1. by rewrite Z.eqb_refl, Hval, Z.eqb_refl, <- Htok, Z.eqb_refl.
Qed.

Lemma calls_spec cs : ∀ s, thinker_ready s → calls fltb fzero stored config num_hidden_layers row_elems cs s = map (alone fltb config) cs.
Proof.
  induction cs as [|[prompt e options|prompt e] cs IH]; intros s Hs; cbn [calls call map alone]; [done|..].
  - pose proof (generate_tokens_spec prompt e options s Hs) as H. destruct (generate_tokens prompt e options s) as [r s']. destruct H as [H ->]. f_equal. by apply IH.
  - pose proof (classify_spec prompt e s Hs) as H. destruct (classify_prompt config prompt e s) as [r s']. destruct H as [H ->]. f_equal. by apply IH.
Qed.
End facts.

(** * What the recognizer promises *)

Section recognizer.
Context {Float : Type} `{!ThinkerNetworks Float} (fltb : Float → Float → bool) (fzero : Float) (stored : ggml_type → Float → Float).
Context (config : Qwen3ASRTextDecoderConfig) (num_hidden_layers : nat) (row_elems : Z).

(** C9. Whatever was asked before, with whatever prompt lengths, limits, failures and kinds
    of request, each request is answered as the networks alone answer it: the graphs and the
    cache that are kept between requests never show. *)
Theorem thinker_transparent cs :
  thinker_networks_ok stored config num_hidden_layers row_elems →
  calls fltb fzero stored config num_hidden_layers row_elems cs make_thinker = map (alone fltb config) cs.
Proof. intros Hn. by apply calls_spec; [|split]. Qed.

Lemma decode_loop_yields {S} (step : Z → io S (list Float)) fuel : ∀ logits token_ids,
  Forall (λ t, is_eos config t = false) token_ids →
  yields (λ r, Forall (λ t, is_eos config t = false) r ∧ (length token_ids <= length r <= length token_ids + fuel)%nat)
    (decode_loop fltb config step fuel logits token_ids).
Proof.
  induction fuel as [|fuel IH]; intros logits token_ids Ht; cbn [decode_loop]; [apply yields_ret; split; [done|lia]|].
  eapply yields_bind; [apply yields_any|]. intros token _. destruct (is_eos config token) eqn:E; [apply yields_ret; split; [done|lia]|].
  eapply yields_bind; [apply yields_any|]. intros logits' _ s r s' [H1 H2]%IH.
  - rewrite length_app in H2. cbn in H2. split; [done|lia].
  - apply Forall_app; split; [done|by repeat constructor].
Qed.

Lemma generate_tokens_yields prompt e options :
  yields (λ r, Forall (λ t, is_eos config t = false) r ∧ Z.of_nat (length r) <= max_new_tokens options)
    (generate_tokens fltb fzero stored config num_hidden_layers row_elems prompt e options).
Proof.
  unfold generate_tokens. destruct (input_ids prompt) as [|id ids]; [by intros s r s'|].
  destruct (Z.leb_spec (max_new_tokens options) 0); [by intros s r s'|]. cbv zeta. destruct (_ <? _); [by intros s r s'|].
  do 7 (eapply yields_bind; [apply yields_any|]; intros ? _).
  intros s r s' [H1 H2]%decode_loop_yields; [|constructor]. split; [done|]. cbn [length] in H2. lia.
Qed.

(** A transcript has no token that ends it and is not longer than asked for. *)
Theorem transcript_tokens prompt e options s token_ids s' :
  generate_tokens fltb fzero stored config num_hidden_layers row_elems prompt e options s = (Ok token_ids, s') →
  Forall (λ t, t ∉ eos_token_ids config) token_ids ∧ Z.of_nat (length token_ids) <= max_new_tokens options.
Proof.
  intros [H ?]%generate_tokens_yields. split; [|done]. eapply Forall_impl; [exact H|]. intros t Ht. by apply bool_decide_eq_false in Ht.
Qed.
End recognizer.

Module Transcripts.

(** Logits that depend on all a network has seen; now and then the end. *)
Definition scores (seen : Z) : list Z := (λ j, if j =? seen mod 7 then 10 else if (j =? 7) && (seen mod 5 =? 0) then 20 else j) <$> seqZ 0 9.
Definition sum (l : list Z) : Z := foldr (λ x total, (x + 3 * total) mod 1009) 0 l.
Definition sum_rows (kv : KV Z) : Z := fold_right (λ r total, sum r.1 + 2 * sum r.2 + total) 0 kv.

#[export] Instance networks : ThinkerNetworks Z := {|
  prefill_network ids embeddings positions :=
    let keys := map (λ id, id + sum embeddings) ids in (Ok (scores (sum keys + sum positions)), [(keys, ids); (ids, keys)]);
  decode_network kv position token := let seen := sum_rows kv + position + token in (Ok (scores seen), [([seen mod 13], [position]); ([token], [seen mod 3])]);
  classification_network ids embeddings positions := Ok (map (λ id, (id + sum embeddings) mod 5) ids);
  prefill_fits steps audio := steps + audio <=? 9;
|}.

Definition small_config : Qwen3ASRTextDecoderConfig :=
  {| hidden_size := 2; max_position_embeddings := 16; eos_token_ids := [7]; audio_token_id := 3; pad_token_id := 0 |}.

Definition heard (before after : list Z) : Qwen3ASRPrompt :=
  let ids := before ++ [3; 3] ++ after in
  {| input_ids := ids; audio_token_positions := [Z.of_nat (length before); Z.of_nat (length before) + 1]; attention_mask := map (λ _, 1) ids |}.

Definition sound (a b c d : Z) : Qwen3ASRAudioEmbeddings Z := {| values := [a; b; c; d]; tokens := 2; embedding_size := 2 |}.
Definition at_most (n : Z) : Qwen3ASRGenerationOptions := {| max_new_tokens := n; return_timestamps := false |}.

(** The same prompt with other audio, a longer limit, a longer and a shorter prompt, one
    that is too long for the device, one for more positions than there are, one whose audio
    is missing; words to align in between. *)
Definition requests : list (@Call Z) :=
  [Generate (heard [1; 2] [4]) (sound 1 2 3 4) (at_most 4); Generate (heard [1; 2] [4]) (sound 5 2 3 4) (at_most 8);
   Classify (heard [1] [5; 6]) (sound 4 4 4 4); Generate (heard [1] [5; 6; 5]) (sound 1 1 1 1) (at_most 3);
   Generate (heard [1] [5; 6; 5; 6; 5]) (sound 1 1 1 1) (at_most 3); Generate (heard [1] [5]) (sound 1 1 1 1) (at_most 13);
   Classify {| input_ids := [1; 2]; audio_token_positions := []; attention_mask := [1; 1] |} (sound 1 1 1 1);
   Generate (heard [1; 2] [4]) (sound 1 2 3 4) (at_most 4)].

Lemma small_ok : thinker_networks_ok (λ _ x, x) small_config 2 1.
Proof.
  split; [done| | |by split; [lia|]|done].
  - intros kv position token. split; [done|]. by repeat constructor.
  - intros ids embeddings positions logits _. rewrite Z.mul_1_r, Nat2Z.id. cbn. split; [done|].
    repeat constructor; cbn; by rewrite ?length_map.
Qed.

Notation answered cs := (calls Z.ltb 0 (λ _ x, x) small_config 2 1 cs make_thinker).

Lemma thinker_transparent_witness :
  answered requests = map (alone Z.ltb small_config) requests ∧
  map (λ r : outcome (list Z), match r with Ok ids => ids | Throw _ => [] end) (answered requests) =
    [[3; 6; 2]; [4; 3; 0; 0; 5]; [1; 3; 3; 0; 1]; [2; 2; 3]; []; []; []; [3; 6; 2]].
Proof. split; [exact (thinker_transparent Z.ltb 0 (λ _ x, x) small_config 2 1 requests small_ok)|by vm_compute]. Defined.

Lemma transcript_tokens_witness :
  ∃ s', generate_tokens Z.ltb 0 (λ _ x, x) small_config 2 1 (heard [1; 2] [4]) (sound 1 2 3 4) (at_most 4) make_thinker = (Ok [3; 6; 2], s') ∧
    Forall (λ t, t ∉ [7]) [3; 6; 2] ∧ 3 <= 4.
Proof. eexists. split; [vm_compute; reflexivity|]. eapply (transcript_tokens Z.ltb 0 (λ _ x, x) small_config 2 1 (heard [1; 2] [4]) (sound 1 2 3 4) (at_most 4) make_thinker). vm_compute. reflexivity. Defined.

End Transcripts.
