(* ===== verification/AsrEncoder.v ===== *)
(** The recognizer's view of audio (models/qwen3_asr/types.h, frontend_whisper.cpp,
    audio_encoder.cpp): how many tokens the frames of a recording become, the chunks and
    windows they are laid out in, and the graph that is kept for a number of frames. *)

From stdpp Require Import gmap.
From S2P Require Import Prelude Session Thinker.

#[local] Open Scope Z_scope.

(** * Frames and tokens *)

Definition qwen3_asr_floor_div (numerator denominator : Z) : Z :=
  let quotient := Z.quot numerator denominator in
  let remainder := Z.rem numerator denominator in
  if negb (remainder =? 0) && negb (Bool.eqb (remainder <? 0) (denominator <? 0)) then quotient - 1 else quotient.

Definition qwen3_asr_audio_encoder_token_count (input_frames : Z) : outcome Z :=
  if input_frames <=? 0 then Throw (str "Qwen3 ASR requires positive feature frame count")
  else
    let input_lengths_leave := Z.rem input_frames 100 in
    let feat_lengths := qwen3_asr_floor_div (input_lengths_leave - 1) 2 + 1 in
    Ok (qwen3_asr_floor_div (qwen3_asr_floor_div (feat_lengths - 1) 2 + 1 - 1) 2 + 1 + Z.quot input_frames 100 * 13).

(** The pieces of at most [step], from [offset]. *)
Fixpoint lengths_loop (fuel : nat) (total step offset : Z) : list Z :=
  match fuel with
  | O => []
  | S fuel => if offset <? total then Z.min step (total - offset) :: lengths_loop fuel total step (offset + step) else []
  end.

Definition audio_chunk_lengths (input_frames chunk_frames : Z) : outcome (list Z) :=
  if (input_frames <=? 0) || (chunk_frames <=? 0) then Throw (str "Qwen3 ASR audio chunk lengths require positive sizes")
  else Ok (lengths_loop (Z.to_nat input_frames) input_frames chunk_frames 0).

Definition audio_attention_window_lengths (tokens window_tokens : Z) : outcome (list Z) :=
  if (tokens <=? 0) || (window_tokens <=? 0) then Throw (str "Qwen3 ASR audio attention window lengths require positive sizes")
  else Ok (lengths_loop (Z.to_nat tokens) tokens window_tokens 0).

Definition max_value (values : list Z) : outcome Z :=
  match values with
  | [] => Throw (str "Qwen3 ASR expected a non-empty length list")
  | v :: values => Ok (foldl Z.max v values)
  end.

Definition sum_values (values : list Z) : Z := foldl Z.add 0 values.

(** The size a convolution of width 3, stride 2 and padding 1 leaves. *)
Definition conv2d_output_dim (input : Z) : Z := Z.quot (input + 2 * 1 - 1 * (3 - 1) - 1) 2 + 1.

Record Qwen3ASRAudioEncoderConfig := { num_mel_bins : Z; max_source_positions : Z; n_window : Z; n_window_infer : Z; output_dim : Z }.
Record Qwen3ASRFrontendConfig := { frontend_rate : Z; feature_size : Z; hop_length : Z; n_fft : Z }.

Record Qwen3ASRAudioFeatures {Float} := { feature_values : list Float; mel_bins : Z; frames : Z; encoder_tokens : Z }.
Arguments Qwen3ASRAudioFeatures : clear implicits.

(** What the signal processing and the network compute, and whether a graph for a number of
    frames fits the device's memory. *)
Class EncoderNetwork (Float : Type) := {
  log_mel : @AudioBuffer Float → outcome (list Float * Z * Z);
  encoder_network : Z → list Z → list Float → list Float → outcome (list Float);
  encoder_fits : Z → bool;
}.

Section encoder.
Context {Float : Type} `{!EncoderNetwork Float} (fzero neg_inf : Float).

Notation Embeddings := (Qwen3ASRAudioEmbeddings Float).
Notation Features := (Qwen3ASRAudioFeatures Float).

Definition validate_audio_input (audio : @AudioBuffer Float) : outcome () :=
  if sample_rate audio <=? 0 then Throw (str "Qwen3 ASR audio sample_rate must be positive")
  else if channels audio <=? 0 then Throw (str "Qwen3 ASR audio channels must be positive")
  else if (length (samples audio) =? 0)%nat then Throw (str "Qwen3 ASR audio is empty")
  else if negb (Z.of_nat (length (samples audio)) mod channels audio =? 0) then
    Throw (str "Qwen3 ASR interleaved audio size is not divisible by channel count")
  else Ok tt.

(** [Qwen3ASRWhisperFrontend::extract]; resampling and the spectrogram are [log_mel]. *)
Definition extract (config : Qwen3ASRFrontendConfig) (audio : @AudioBuffer Float) : outcome Features :=
  if (frontend_rate config <=? 0) || (feature_size config <=? 0) || (hop_length config <=? 0) || (n_fft config <=? 0) then
    Throw (str "Qwen3 ASR Whisper frontend config is invalid")
  else
    validate_audio_input audio;;
    '(values, mel_bins, frames) ← log_mel audio;
    tokens ← qwen3_asr_audio_encoder_token_count frames;
    Ok {| feature_values := values; mel_bins := mel_bins; frames := frames; encoder_tokens := tokens |}.

(** * What attends to what *)

Definition mask_window (tokens offset length : Z) (values : list Float) : list Float :=
  foldl (λ values row, foldl (λ values col, <[Z.to_nat ((offset + row) * tokens + offset + col) := fzero]> values) values (seqZ 0 length))
    values (seqZ 0 length).

Fixpoint mask_windows (tokens offset : Z) (window_lengths : list Z) (values : list Float) : Z * list Float :=
  match window_lengths with
  | [] => (offset, values)
  | length :: window_lengths => mask_windows tokens (offset + length) window_lengths (mask_window tokens offset length values)
  end.

Definition audio_attention_mask (tokens : Z) (window_lengths : list Z) : outcome (list Float) :=
  let '(offset, values) := mask_windows tokens 0 window_lengths (replicate (Z.to_nat (tokens * tokens)) neg_inf) in
  if negb (offset =? tokens) then Throw (str "Qwen3 ASR audio attention windows do not cover all tokens") else Ok values.

(** * The graph for a number of frames *)

Record EncoderGraph := {
  frames_ : Z;
  chunk_lengths_ : list Z;
  chunk_frames_ : Z;
  chunk_token_lengths_ : list Z;
  attention_mask_values : list Float;
  output_tokens_ : Z;
  output_dim_ : Z;
}.

Fixpoint token_lengths (chunk_lengths : list Z) : outcome (list Z) :=
  match chunk_lengths with
  | [] => Ok []
  | chunk_length :: chunk_lengths =>
      tokens ← qwen3_asr_audio_encoder_token_count chunk_length;
      rest ← token_lengths chunk_lengths;
      Ok (tokens :: rest)
  end.

(** What is left of the tokens of each chunk, put one after another. *)
Definition compacted_tokens (tokens : Z) (chunk_token_lengths : list Z) : Z :=
  sum_values (map (λ valid_tokens, if valid_tokens <? tokens then valid_tokens else tokens) chunk_token_lengths).

Definition make_encoder_graph (config : Qwen3ASRAudioEncoderConfig) (frames : Z) : outcome EncoderGraph :=
  if frames <=? 0 then Throw (str "Qwen3 ASR audio encoder graph requires positive frame count")
  else
    let chunk_frame_limit := n_window config * 2 in
    chunk_lengths ← audio_chunk_lengths frames chunk_frame_limit;
    chunk_frames ← max_value chunk_lengths;
    chunk_token_lengths ← token_lengths chunk_lengths;
    let output_tokens := sum_values chunk_token_lengths in
    max_chunk_tokens ← max_value chunk_token_lengths;
    let attention_window_tokens := max_chunk_tokens * Z.quot (n_window_infer config) chunk_frame_limit in
    if max_source_positions config <? output_tokens then Throw (str "Qwen3 ASR audio encoder token count exceeds max_source_positions")
    else
      window_lengths ← audio_attention_window_lengths output_tokens attention_window_tokens;
      mask ← audio_attention_mask output_tokens window_lengths;
      let tokens := conv2d_output_dim (conv2d_output_dim (conv2d_output_dim chunk_frames)) in
      if negb (encoder_fits frames) then Throw (str "failed to allocate Qwen3 ASR audio encoder graph")
      else
        Ok {| frames_ := frames; chunk_lengths_ := chunk_lengths; chunk_frames_ := chunk_frames; chunk_token_lengths_ := chunk_token_lengths;
              attention_mask_values := mask; output_tokens_ := compacted_tokens tokens chunk_token_lengths; output_dim_ := output_dim config |}.

(** [std::copy_n] between vectors, from and to an index. *)
Definition copy_n (source : list Float) (src n : Z) (target : list Float) (dst : Z) : list Float :=
  take (Z.to_nat dst) target ++ take (Z.to_nat n) (drop (Z.to_nat src) source) ++ drop (Z.to_nat (dst + n)) target.

Definition pad_chunk (config : Qwen3ASRAudioEncoderConfig) (graph : EncoderGraph) (values : list Float)
    (chunk source_frame chunk_length : Z) (padded : list Float) : list Float :=
  foldl (λ padded mel, copy_n values (mel * frames_ graph + source_frame) chunk_length padded ((chunk * num_mel_bins config + mel) * chunk_frames_ graph))
    padded (seqZ 0 (num_mel_bins config)).

Fixpoint pad_chunks (config : Qwen3ASRAudioEncoderConfig) (graph : EncoderGraph) (values : list Float)
    (chunk source_frame : Z) (chunk_lengths : list Z) (padded : list Float) : list Float :=
  match chunk_lengths with
  | [] => padded
  | chunk_length :: chunk_lengths =>
      pad_chunks config graph values (chunk + 1) (source_frame + chunk_length) chunk_lengths
        (pad_chunk config graph values chunk source_frame chunk_length padded)
  end.

Definition padded_features (config : Qwen3ASRAudioEncoderConfig) (graph : EncoderGraph) (values : list Float) : list Float :=
  pad_chunks config graph values 0 0 (chunk_lengths_ graph)
    (replicate (Z.to_nat (Z.of_nat (length (chunk_lengths_ graph)) * num_mel_bins config * chunk_frames_ graph)) fzero).

Definition encoder_run (config : Qwen3ASRAudioEncoderConfig) (graph : EncoderGraph) (features : Features) : outcome Embeddings :=
  if negb (mel_bins features =? num_mel_bins config) || negb (frames features =? frames_ graph) then
    Throw (str "Qwen3 ASR audio encoder feature shape mismatch")
  else if negb (Z.of_nat (length (feature_values features)) =? num_mel_bins config * frames_ graph) then
    Throw (str "Qwen3 ASR audio encoder feature value count mismatch")
  else
    values ← encoder_network (chunk_frames_ graph) (chunk_token_lengths_ graph) (attention_mask_values graph)
               (padded_features config graph (feature_values features));
    Ok {| values := values; tokens := output_tokens_ graph; embedding_size := output_dim_ graph |}.

(** [Qwen3ASRAudioEncoderRuntime::encode]. *)
Definition encode_audio (config : Qwen3ASRAudioEncoderConfig) (features : Features) : io (option EncoderGraph) Embeddings :=
  count ← io_lift (qwen3_asr_audio_encoder_token_count (frames features));
  if negb (encoder_tokens features =? count) then io_lift (Throw (str "Qwen3 ASR audio encoder token count mismatch"))
  else
    kept ← io_get;
    graph ← io_lift (match kept with
                     | Some g => if frames_ g =? frames features then Ok g else make_encoder_graph config (frames features)
                     | None => make_encoder_graph config (frames features)
                     end);
    io_modify (λ _, Some graph);;
    out ← io_lift (encoder_run config graph features);
    if negb (tokens out =? encoder_tokens features) then io_lift (Throw (str "Qwen3 ASR audio encoder output token count mismatch"))
    else mret out.
End encoder.

(** * Facts *)

(** What a convolution of stride 2 leaves of [x] steps. *)
Definition half (x : Z) : Z := (x + 1) / 2.
Definition eighth (x : Z) : Z := half (half (half x)).

(** Tokens of [x] frames: of the full chunks of 100 and of the rest. *)
Definition tokens_of (x : Z) : Z := eighth (x mod 100) + 13 * (x / 100).

Ltac euclid := Z.to_euclidean_division_equations; lia.

Lemma floor_div_spec n d : 0 < d → qwen3_asr_floor_div n d = n / d.
Proof.
  intros Hd. unfold qwen3_asr_floor_div. rewrite (proj2 (Z.ltb_ge d 0)) by lia.
  pose proof (Z.quot_rem' n d) as E. pose proof (Z.rem_bound_abs n d ltac:(lia)) as B.
  destruct (Z.eqb_spec (Z.rem n d) 0), (Z.ltb_spec (Z.rem n d) 0); cbn [negb Bool.eqb andb]; try lia.
  - apply (Z.div_unique_pos _ _ _ 0); lia.
  - apply (Z.div_unique_pos _ _ _ (Z.rem n d + d)); lia.
  - apply (Z.div_unique_pos _ _ _ (Z.rem n d)); lia.
Qed.

Lemma half_floor x : (x - 1) / 2 + 1 = half x.
Proof. unfold half. euclid. Qed.

Lemma half_mono x y : x <= y → half x <= half y.
Proof. unfold half. intros. apply Z.div_le_mono; lia. Qed.

Lemma half_positive x : 0 < x → 0 < half x.
Proof. unfold half. euclid. Qed.

Lemma eighth_mono x y : x <= y → eighth x <= eighth y.
Proof. intros. unfold eighth. by repeat apply half_mono. Qed.

Lemma eighth_positive x : 0 < x → 0 < eighth x.
Proof. intros. unfold eighth. by repeat apply half_positive. Qed.

Lemma conv_half x : 0 < x → conv2d_output_dim x = half x.
Proof. intros. unfold conv2d_output_dim, half. euclid. Qed.

Lemma conv_eighth x : 0 < x → conv2d_output_dim (conv2d_output_dim (conv2d_output_dim x)) = eighth x.
Proof. intros. unfold eighth. rewrite (conv_half x), (conv_half (half x)), conv_half; auto using half_positive. Qed.

Lemma count_spec n : 0 < n → qwen3_asr_audio_encoder_token_count n = Ok (tokens_of n).
Proof.
  intros Hn. unfold qwen3_asr_audio_encoder_token_count. rewrite (proj2 (Z.leb_gt _ _)) by lia.
  rewrite Z.rem_mod_nonneg, Z.quot_div_nonneg, !floor_div_spec by lia. unfold tokens_of, eighth. rewrite <- !half_floor. f_equal. lia.
Qed.

Lemma tokens_chunk x : 0 < x <= 100 → tokens_of x = eighth x.
Proof.
  intros Hx. destruct (decide (x = 100)) as [->|]; [reflexivity|]. unfold tokens_of. rewrite Z.mod_small, Z.div_small by lia. lia.
Qed.

Lemma tokens_positive x : 0 < x → 0 < tokens_of x.
Proof.
  intros Hx. unfold tokens_of. destruct (decide (x mod 100 = 0)) as [E|].
  - rewrite E. change (eighth 0) with 0. euclid.
  - assert (0 < x mod 100) by (pose proof (Z.mod_pos_bound x 100); lia). pose proof (eighth_positive (x mod 100)). pose proof (Z.div_pos x 100). lia.
Qed.

Lemma tokens_next x : tokens_of (x + 100) = 13 + tokens_of x.
Proof. unfold tokens_of. replace (x + 100) with (x + 1 * 100) by lia. rewrite Z.mod_add, Z.div_add by lia. lia. Qed.

(** ** Pieces *)

Section pieces.
Context (total step : Z) (step_positive : 0 < step).

Lemma lengths_lookup fuel : ∀ offset k, total - offset <= Z.of_nat fuel →
  lengths_loop fuel total step offset !! k = if offset + Z.of_nat k * step <? total then Some (Z.min step (total - (offset + Z.of_nat k * step))) else None.
Proof.
  induction fuel as [|fuel IH]; intros offset k Hf; cbn [lengths_loop].
  - rewrite (proj2 (Z.ltb_ge _ _)) by nia. done.
  - destruct (Z.ltb_spec offset total) as [Ho|Ho]; [|by rewrite (proj2 (Z.ltb_ge _ _)) by nia].
    destruct k as [|k]; cbn [lookup list_lookup].
    + rewrite Z.mul_0_l, Z.add_0_r. by rewrite (proj2 (Z.ltb_lt _ _)).
    + rewrite IH by lia. by replace (offset + step + Z.of_nat k * step) with (offset + Z.of_nat (S k) * step) by lia.
Qed.

Lemma lengths_bound fuel offset : total - offset <= Z.of_nat fuel → Forall (λ l, 0 < l <= step) (lengths_loop fuel total step offset).
Proof.
  intros Hf. apply Forall_lookup. intros k l. rewrite lengths_lookup by done. destruct (Z.ltb_spec (offset + Z.of_nat k * step) total); [|done]. intros [= <-]. lia.
Qed.
End pieces.

Lemma sum_from a l : foldl Z.add a l = a + sum_values l.
Proof. unfold sum_values. revert a. induction l as [|x l IH]; intros a; cbn; [lia|]. rewrite IH, (IH (0 + x)). lia. Qed.

Lemma sum_cons x l : sum_values (x :: l) = x + sum_values l.
Proof. unfold sum_values at 1. cbn. rewrite sum_from. lia. Qed.

Lemma token_lengths_spec ls : Forall (λ l, 0 < l) ls → token_lengths ls = Ok (map tokens_of ls).
Proof. induction 1 as [|l ls Hl _ IH]; [done|]. cbn [token_lengths map]. by rewrite count_spec, IH. Qed.

Lemma tokens_add fuel total offset :
  0 <= total - offset <= Z.of_nat fuel → sum_values (map tokens_of (lengths_loop fuel total 100 offset)) = tokens_of (total - offset).
Proof.
  revert offset. induction fuel as [|fuel IH]; intros offset Hf; cbn [lengths_loop].
  - replace (total - offset) with 0 by lia. done.
  - destruct (Z.ltb_spec offset total) as [Ho|Ho]; [|by replace (total - offset) with 0 by lia].
    cbn [map]. rewrite sum_cons. destruct (Z.le_gt_cases 100 (total - offset)).
    + rewrite Z.min_l, IH by lia. change (tokens_of 100) with 13. replace (tokens_of (total - offset)) with (tokens_of (total - (offset + 100) + 100)) by (f_equal; lia). by rewrite tokens_next.
    + rewrite Z.min_r by lia. destruct fuel as [|fuel]; [cbn; lia|]. cbn [lengths_loop]. rewrite (proj2 (Z.ltb_ge _ _)) by lia. cbn. lia.
Qed.

Lemma foldl_max_le a l x : x ∈ a :: l → x <= foldl Z.max a l.
Proof.
  revert a x. induction l as [|y l IH]; intros a x; cbn [foldl].
  - rewrite list_elem_of_singleton. lia.
  - pose proof (IH (Z.max a y) (Z.max a y) ltac:(left)) as Hm.
    intros [->|[->|H]%elem_of_cons]%elem_of_cons; [lia..|]. apply IH. by right.
Qed.

Lemma foldl_max_in a l : foldl Z.max a l ∈ a :: l.
Proof.
  revert a. induction l as [|y l IH]; intros a; cbn [foldl]; [by left|].
  pose proof (IH (Z.max a y)) as [E|H]%elem_of_cons; [|by do 2 right].
  rewrite E. destruct (Z.max_spec a y) as [[_ ->]|[_ ->]]; [do 2 constructor|constructor].
Qed.

Lemma max_value_spec l : l ≠ [] → ∃ m, max_value l = Ok m ∧ m ∈ l ∧ Forall (λ x, x <= m) l.
Proof.
  destruct l as [|a l]; [done|]. intros _. eexists. split; [done|]. split; [apply foldl_max_in|].
  apply Forall_forall. intros x. apply foldl_max_le.
Qed.

(** ** Blocks of rows *)

Lemma same_cell n a b c d : 0 <= b < n → 0 <= d < n → a * n + b = c * n + d → a = c ∧ b = d.
Proof. intros. assert (a = c) by nia. nia. Qed.

Section layout.
Context {Float : Type} (fzero : Float).

Definition fill (cells : list nat) (values : list Float) : list Float := foldl (λ values i, <[i := fzero]> values) values cells.

Lemma fill_length cells values : length (fill cells values) = length values.
Proof. revert values. induction cells as [|c cells IH]; intros values; [done|]. unfold fill in *. cbn. by rewrite IH, length_insert. Qed.

Lemma fill_lookup cells i : ∀ values, (i < length values)%nat → fill cells values !! i = if decide (i ∈ cells) then Some fzero else values !! i.
Proof.
  induction cells as [|c cells IH]; intros values Hi; [done|]. change (fill (c :: cells) values) with (fill cells (<[c := fzero]> values)).
  rewrite IH by (by rewrite length_insert). destruct (decide (i ∈ cells)); [by rewrite decide_True by (by right)|].
  destruct (decide (i = c)) as [->|]; [rewrite list_lookup_insert_eq by done; by rewrite decide_True by left|].
  rewrite list_lookup_insert_ne by done. by rewrite decide_False by (rewrite elem_of_cons; naive_solver).
Qed.

Lemma fill_nested {A} (f : A → list nat) (rows : list A) : ∀ values, foldl (λ values row, fill (f row) values) values rows = fill (rows ≫= f) values.
Proof. induction rows as [|r rows IH]; intros values; [done|]. cbn [foldl mbind list_bind]. rewrite IH. unfold fill at 3. by rewrite foldl_app. Qed.

Lemma fill_map {A} (f : A → nat) (l : list A) : ∀ values, foldl (λ values a, <[f a := fzero]> values) values l = fill (f <$> l) values.
Proof. induction l as [|a l IH]; intros values; [done|]. cbn. apply IH. Qed.

Lemma mask_window_fill tokens offset length values :
  mask_window fzero tokens offset length values =
  fill (row ← seqZ 0 length; (λ col, Z.to_nat ((offset + row) * tokens + offset + col)) <$> seqZ 0 length) values.
Proof.
  unfold mask_window. rewrite <- fill_nested. set (l := seqZ 0 length) at 2 4. clearbody l. revert values. induction l as [|r l IH]; intros values; [done|].
  cbn [foldl]. by rewrite fill_map, IH.
Qed.

(** A cell of a square of [tokens] rows. *)
Definition cell (tokens r c : Z) : nat := Z.to_nat (r * tokens + c).

Lemma mask_window_lookup tokens offset n values r c :
  0 <= offset → offset + n <= tokens → 0 <= r < tokens → 0 <= c < tokens → length values = Z.to_nat (tokens * tokens) →
  mask_window fzero tokens offset n values !! cell tokens r c =
  if decide (offset <= r < offset + n ∧ offset <= c < offset + n) then Some fzero else values !! cell tokens r c.
Proof.
  intros Ho Hn Hr Hc Hl. rewrite mask_window_fill, fill_lookup by (unfold cell; nia).
  apply decide_ext. rewrite list_elem_of_bind. unfold cell. split.
  - intros (row & (col & E & Hcol%elem_of_seqZ)%list_elem_of_fmap & Hrow%elem_of_seqZ).
    apply Z2Nat.inj in E; [|nia..]. destruct (same_cell tokens r c (offset + row) (offset + col)) as [-> ->]; lia.
  - intros [H1 H2]. exists (r - offset). split; [|apply elem_of_seqZ; lia]. apply list_elem_of_fmap. exists (c - offset).
    split; [f_equal; lia|apply elem_of_seqZ; lia].
Qed.

Section windows.
Context (tokens w : Z) (w_positive : 0 < w).

(** Only tokens of one window see each other. *)
Lemma mask_windows_spec fuel : ∀ k values, 
  0 <= k → k * w < tokens → tokens - k * w <= Z.of_nat fuel → length values = Z.to_nat (tokens * tokens) →
  ∃ mask, mask_windows fzero tokens (k * w) (lengths_loop fuel tokens w (k * w)) values = (tokens, mask) ∧ length mask = length values ∧
    ∀ r c, 0 <= r < tokens → 0 <= c < tokens →
      mask !! cell tokens r c = if decide (k <= r / w ∧ r / w = c / w) then Some fzero else values !! cell tokens r c.
Proof.
  induction fuel as [|fuel IH]; intros k values Hk Hin Hf Hl; [lia|]. cbn [lengths_loop]. rewrite (proj2 (Z.ltb_lt _ _)) by done. cbn [mask_windows].
  set (n := Z.min w (tokens - k * w)). set (values' := mask_window fzero tokens (k * w) n values).
  assert (length values' = Z.to_nat (tokens * tokens)) as Hl' by (unfold values'; by rewrite mask_window_fill, fill_length).
  assert (∀ r c, 0 <= r < tokens → 0 <= c < tokens → values' !! cell tokens r c = if decide (r / w = k ∧ c / w = k) then Some fzero else values !! cell tokens r c) as Hcell.
  { intros r c Hr Hc. unfold values'. rewrite mask_window_lookup by (unfold n; lia). apply decide_ext.
    assert (∀ x, 0 <= x < tokens → k * w <= x < k * w + n ↔ x / w = k) as Hx by (intros x Hx; unfold n; pose proof (Z.div_mod x w ltac:(lia)); pose proof (Z.mod_pos_bound x w w_positive); nia).
    by rewrite !Hx. }
  destruct (Z.lt_ge_cases ((k + 1) * w) tokens) as [Hnext|Hend].
  - replace (k * w + n) with ((k + 1) * w) by lia. replace (k * w + w) with ((k + 1) * w) by lia.
    destruct (IH (k + 1) values' ltac:(lia) ltac:(done) ltac:(lia) Hl') as (mask & E & Hm & Hlook). exists mask. split; [done|]. split; [congruence|].
    intros r c Hr Hc. rewrite Hlook, Hcell by done. repeat case_decide; done || lia.
  - exists values'. assert (lengths_loop fuel tokens w (k * w + w) = []) as -> by (destruct fuel as [|f]; [done|]; cbn [lengths_loop]; by rewrite (proj2 (Z.ltb_ge _ _)) by lia).
    cbn [mask_windows]. split; [f_equal; lia|]. split; [congruence|]. intros r c Hr Hc. rewrite Hcell by done.
    assert (∀ x, 0 <= x < tokens → x / w <= k) as Hx by (intros x Hx; apply Z.lt_succ_r, Z.div_lt_upper_bound; lia).
    pose proof (Hx r Hr). pose proof (Hx c Hc). repeat case_decide; done || lia.
Qed.
End windows.
End layout.

Section padding.
Context {Float : Type} (fzero : Float).

Lemma copy_n_lookup (source target : list Float) src n j cf q f :
  0 <= src → 0 <= n <= cf → src + n <= Z.of_nat (length source) → 0 <= j → 0 <= q → 0 <= f < cf → (j + 1) * cf <= Z.of_nat (length target) →
  copy_n source src n target (j * cf) !! Z.to_nat (q * cf + f) =
  if decide (q = j ∧ f < n) then source !! Z.to_nat (src + f) else target !! Z.to_nat (q * cf + f).
Proof.
  intros Hs Hn Hsn Hj Hq Hf Ht. assert (0 <= j * cf ∧ 0 <= q * cf ∧ j * cf + cf <= Z.of_nat (length target)) as (Hjc & Hqc & Htc) by nia.
  assert (q < j → q * cf + cf <= j * cf) as Hlt' by nia. assert (j < q → j * cf + cf <= q * cf) as Hgt' by nia. clear Ht.
  unfold copy_n. set (i := Z.to_nat (q * cf + f)).
  assert (length (take (Z.to_nat (j * cf)) target) = Z.to_nat (j * cf)) as H1 by (rewrite length_take; lia).
  assert (length (take (Z.to_nat n) (drop (Z.to_nat src) source)) = Z.to_nat n) as H2 by (rewrite length_take, length_drop; lia).
  case_decide as Hd.
  - destruct Hd as [-> Hfn]. rewrite lookup_app_r, lookup_app_l, lookup_take_lt, lookup_drop by (rewrite ?H1, ?H2; unfold i; lia).
    f_equal. rewrite H1. unfold i. lia.
  - assert (q < j ∨ q = j ∧ n <= f ∨ j < q) as [Hlt|Hge] by lia.
    + rewrite lookup_app_l, lookup_take_lt by (rewrite ?H1; unfold i; lia). done.
    + assert (j * cf + n <= q * cf + f) by (destruct Hge as [[-> ?]|?]; lia).
      rewrite lookup_app_r, lookup_app_r, lookup_drop by (rewrite ?H1, ?H2; unfold i; lia). f_equal. rewrite H1, H2. unfold i. lia.
Qed.

Lemma copy_n_length (source target : list Float) src n dst :
  0 <= src → 0 <= n → 0 <= dst → src + n <= Z.of_nat (length source) → dst + n <= Z.of_nat (length target) → length (copy_n source src n target dst) = length target.
Proof. intros. unfold copy_n. rewrite !length_app, !length_take, !length_drop. lia. Qed.

Context (config : Qwen3ASRAudioEncoderConfig) (graph : @EncoderGraph Float) (features : list Float).

Notation bins := (num_mel_bins config).
Notation cf := (chunk_frames_ graph).
Notation frames := (frames_ graph).

Section chunk.
Context (bins_positive : 0 < bins) (features_length : Z.of_nat (length features) = bins * frames) (frames_positive : 0 < frames).
Context (count : Z).

Lemma pad_mels chunk source_frame n mels : ∀ padded,
  Forall (λ m, 0 <= m < bins) mels → 0 <= chunk < count → 0 <= source_frame → 0 <= n <= cf → source_frame + n <= frames → Z.of_nat (length padded) = count * bins * cf →
  let padded' := foldl (λ padded mel, copy_n features (mel * frames + source_frame) n padded ((chunk * bins + mel) * cf)) padded mels in
  length padded' = length padded ∧
  ∀ k mel f, 0 <= k → 0 <= mel < bins → 0 <= f < cf →
    padded' !! Z.to_nat ((k * bins + mel) * cf + f) =
    if decide (k = chunk ∧ mel ∈ mels ∧ f < n) then features !! Z.to_nat (mel * frames + source_frame + f) else padded !! Z.to_nat ((k * bins + mel) * cf + f).
Proof.
  induction mels as [|m mels IH]; intros padded Hm Hk Hs Hn Hsn Hl; cbn [foldl].
  { split; [done|]. intros. rewrite decide_False; [done|]. by intros (_ & ?%elem_of_nil & _). }
  apply Forall_cons in Hm as [Hm Hms]. assert ((chunk * bins + m + 1) * cf <= count * bins * cf) as Hfit by (apply Z.mul_le_mono_nonneg_r; nia).
  assert (0 <= m * frames /\ m * frames + frames <= bins * frames) as Hsrc by nia.
  assert (0 <= (chunk * bins + m) * cf) as Hdst by (apply Z.mul_nonneg_nonneg; nia). assert (0 <= chunk * bins) as Hcb by nia.
  set (p := copy_n features (m * frames + source_frame) n padded ((chunk * bins + m) * cf)).
  assert (length p = length padded) as Hp by (unfold p; apply copy_n_length; lia).
  destruct (IH p Hms Hk Hs Hn Hsn ltac:(congruence)) as [IH1 IH2]. split; [congruence|]. intros k mel f Hk' Hmel Hf. rewrite IH2 by done. unfold p.
  assert (0 <= k * bins) by nia. rewrite copy_n_lookup by lia.
  assert (k * bins + mel = chunk * bins + m ↔ k = chunk ∧ mel = m) as Hsame by (split; [apply same_cell; lia|intros [-> ->]; done]).
  destruct (decide (k = chunk ∧ mel ∈ mels ∧ f < n)) as [(?&?&?)|H1].
  - rewrite decide_True; [done|]. split_and!; [done|by right|done].
  - destruct (decide _) as [[H2 ?]|H2].
    + apply Hsame in H2 as [-> ->]. rewrite decide_True; [done|]. split_and!; [done|by left|done].
    + rewrite decide_False; [done|]. intros (-> & [->|?]%elem_of_cons & ?); [apply H2; by rewrite Hsame|by apply H1].
Qed.

(** Each frame of each band is put in its chunk. *)
Lemma pad_chunks_spec limit fuel : ∀ chunk padded,
  0 < limit → cf <= limit → (frames < limit → cf = frames) → (limit <= frames → cf = limit) → 
  0 <= chunk → frames - chunk * limit <= Z.of_nat fuel → (∀ k, 0 <= k → k * limit < frames → k < count) → Z.of_nat (length padded) = count * bins * cf →
  ∀ k mel f, 0 <= k → 0 <= mel < bins → 0 <= f < cf →
    pad_chunks config graph features chunk (chunk * limit) (lengths_loop fuel frames limit (chunk * limit)) padded !! Z.to_nat ((k * bins + mel) * cf + f) =
    if decide (chunk <= k ∧ k * limit + f < frames) then features !! Z.to_nat (mel * frames + k * limit + f) else padded !! Z.to_nat ((k * bins + mel) * cf + f).
Proof.
  induction fuel as [|fuel IH]; intros chunk padded Hlim Hcf Hsmall Hbig Hc Hf Hcount Hl k mel f Hk Hmel Hff; cbn [lengths_loop].
  { cbn [pad_chunks]. rewrite decide_False by nia. done. }
  destruct (Z.ltb_spec (chunk * limit) frames) as [Hin|Hend]; [|cbn [pad_chunks]; rewrite decide_False by nia; done].
  cbn [pad_chunks]. set (n := Z.min limit (frames - chunk * limit)).
  assert (0 <= n <= cf) as Hn by (unfold n; destruct (Z.lt_ge_cases frames limit) as [H0|H0]; [rewrite (Hsmall H0)|rewrite (Hbig H0)]; nia).
  assert (Forall (λ m, 0 <= m < bins) (seqZ 0 bins)) as Hmels by (apply Forall_forall; intros m Hm%elem_of_seqZ; lia).
  destruct (pad_mels chunk (chunk * limit) n (seqZ 0 bins) padded Hmels) as [Hl' Hlook]; [|nia|done|unfold n; lia|done|]; [pose proof (Hcount chunk); lia|].
  change (foldl _ padded (seqZ 0 bins)) with (pad_chunk config graph features chunk (chunk * limit) n padded) in *.
  set (padded' := pad_chunk config graph features chunk (chunk * limit) n padded) in *.
  specialize (Hlook k mel f Hk Hmel Hff).
  assert (padded' !! Z.to_nat ((k * bins + mel) * cf + f) = if decide (k = chunk ∧ k * limit + f < frames) then features !! Z.to_nat (mel * frames + k * limit + f) else padded !! Z.to_nat ((k * bins + mel) * cf + f)) as Hthis.
  { rewrite Hlook. assert (mel ∈ seqZ 0 bins) by (apply elem_of_seqZ; lia).
    destruct (decide (k = chunk ∧ k * limit + f < frames)) as [[-> Hin']|Hout]; [rewrite decide_True; [done|split_and!; [done|done|unfold n; lia]]|].
    rewrite decide_False; [done|]. intros (-> & _ & Hfn). apply Hout. split; [done|]. unfold n in Hfn. lia. }
  destruct (Z.lt_ge_cases ((chunk + 1) * limit) frames) as [Hnext|Hlast].
  - replace (chunk * limit + n) with ((chunk + 1) * limit) by lia. replace (chunk * limit + limit) with ((chunk + 1) * limit) by lia.
    rewrite IH by (done || lia || congruence). rewrite Hthis. repeat case_decide; done || lia.
  - assert (lengths_loop fuel frames limit (chunk * limit + limit) = []) as -> by (destruct fuel as [|fu]; [done|]; cbn [lengths_loop]; by rewrite (proj2 (Z.ltb_ge _ _)) by lia).
    cbn [pad_chunks]. rewrite Hthis. assert (chunk <= k → k * limit + f < frames → k = chunk) by nia. repeat case_decide; done || lia.
Qed.
End chunk.
End padding.

(** ** The graph *)

Section graph.
Context {Float : Type} `{!EncoderNetwork Float} (fzero neg_inf : Float).
Context (config : Qwen3ASRAudioEncoderConfig).

Notation make_graph := (make_encoder_graph fzero neg_inf config).
Notation window frames := (eighth (Z.min 100 frames) * (n_window_infer config / 100)).

(** What the recognizer's models are configured to, and recordings that are short enough. *)
Record encoder_accepts (frames : Z) : Prop := {
  accepts_window : n_window config = 50;
  accepts_infer : 100 <= n_window_infer config;
  accepts_bins : 0 < num_mel_bins config;
  accepts_frames : 0 < frames;
  accepts_tokens : tokens_of frames <= max_source_positions config;
  accepts_fits : encoder_fits frames = true;
}.

(** What the network is shown of a recording. *)
Record encoder_layout (frames : Z) (g : EncoderGraph) : Prop := {
  layout_frames : frames_ g = frames;
  layout_chunks : ∀ k, chunk_lengths_ g !! k = if Z.of_nat k * 100 <? frames then Some (Z.min 100 (frames - Z.of_nat k * 100)) else None;
  layout_loop : chunk_lengths_ g = lengths_loop (Z.to_nat frames) frames 100 0;
  layout_chunk_frames : chunk_frames_ g = Z.min 100 frames;
  layout_chunk_tokens : chunk_token_lengths_ g = map eighth (chunk_lengths_ g);
  layout_tokens : output_tokens_ g = tokens_of frames;
  layout_dim : output_dim_ g = output_dim config;
  layout_mask : ∀ r c, 0 <= r < tokens_of frames → 0 <= c < tokens_of frames →
    attention_mask_values g !! cell (tokens_of frames) r c = Some (if r / window frames =? c / window frames then fzero else neg_inf);
}.

Lemma first_longest frames : 0 < frames → ∃ ls, lengths_loop (Z.to_nat frames) frames 100 0 = Z.min 100 frames :: ls ∧ Forall (λ l, 0 < l <= Z.min 100 frames) (Z.min 100 frames :: ls).
Proof.
  intros Hf. assert (∀ l, l ∈ lengths_loop (Z.to_nat frames) frames 100 0 → 0 < l <= Z.min 100 frames) as Hb.
  { intros l [k Hk]%list_elem_of_lookup. rewrite lengths_lookup in Hk by lia. destruct (Z.ltb_spec (0 + Z.of_nat k * 100) frames); [|done]. injection Hk as <-. lia. }
  destruct (Z.to_nat frames) as [|n] eqn:E; [lia|]. cbn [lengths_loop] in *. rewrite (proj2 (Z.ltb_lt _ _)), Z.sub_0_r in * by lia.
  eexists. split; [done|]. by apply Forall_forall.
Qed.

Lemma longest a l : Forall (λ x, x <= a) (a :: l) → max_value (a :: l) = Ok a.
Proof.
  intros H. destruct (max_value_spec (a :: l)) as (m & -> & Hm & Hl); [done|]. f_equal. rewrite !Forall_forall in *.
  pose proof (H m Hm). pose proof (Hl a ltac:(left)). lia.
Qed.

Lemma make_graph_layout frames : encoder_accepts frames → ∃ g, make_graph frames = Ok g ∧ encoder_layout frames g.
Proof.
  intros [Hw Hi _ Hf Ht Hfit]. unfold make_encoder_graph. rewrite (proj2 (Z.leb_gt _ _)), Hw by lia. change (50 * 2) with 100. unfold audio_chunk_lengths.
  rewrite (proj2 (Z.leb_gt frames 0)) by lia. cbn [orb Z.leb Z.compare mbind outcome_bind].
  destruct (first_longest frames Hf) as (ls & E & Hls). set (loop := lengths_loop (Z.to_nat frames) frames 100 0) in *.
  rewrite E, longest by (eapply Forall_impl; [exact Hls|]; cbn; lia). cbn [mbind outcome_bind].
  rewrite token_lengths_spec by (eapply Forall_impl; [exact Hls|]; cbn; lia). cbn [mbind outcome_bind].
  assert (map tokens_of (Z.min 100 frames :: ls) = map eighth (Z.min 100 frames :: ls)) as Etok.
  { apply map_ext_in. intros l Hl%list_elem_of_In. rewrite Forall_forall in Hls. apply tokens_chunk. specialize (Hls l Hl). lia. }
  assert (sum_values (map tokens_of (Z.min 100 frames :: ls)) = tokens_of frames) as Esum.
  { rewrite <- E. unfold loop. rewrite tokens_add by lia. by rewrite Z.sub_0_r. }
  assert (max_value (map tokens_of (Z.min 100 frames :: ls)) = Ok (eighth (Z.min 100 frames))) as ->.
  { rewrite Etok. apply longest. change (Forall (λ x, x <= eighth (Z.min 100 frames)) (map eighth (Z.min 100 frames :: ls))).
    apply Forall_forall. intros x (l & <- & Hl%list_elem_of_In)%list_elem_of_In%in_map_iff. rewrite Forall_forall in Hls. apply eighth_mono, (Hls l Hl). }
  cbn [mbind outcome_bind]. rewrite Esum, (proj2 (Z.ltb_ge _ _)) by done. rewrite Z.quot_div_nonneg by lia.
  assert (0 < n_window_infer config / 100) by (apply Z.div_str_pos; lia). assert (0 < eighth (Z.min 100 frames)) by (apply eighth_positive; lia).
  assert (0 < tokens_of frames) as Htok by (by apply tokens_positive). assert (0 < window frames) as Hwin by nia.
  unfold audio_attention_window_lengths. rewrite !(proj2 (Z.leb_gt _ _)) by lia. cbn [orb mbind outcome_bind]. unfold audio_attention_mask.
  destruct (mask_windows_spec fzero (tokens_of frames) (window frames) Hwin (Z.to_nat (tokens_of frames)) 0 (replicate (Z.to_nat (tokens_of frames * tokens_of frames)) neg_inf)) as (mask & Em & Hm & Hlook); [lia..|by rewrite length_replicate|].
  rewrite Z.mul_0_l in Em. rewrite Em, Z.eqb_refl. cbn [negb mbind outcome_bind]. rewrite Hfit. cbn [negb].
  eexists. split; [done|]. split; cbn [frames_ chunk_lengths_ chunk_frames_ chunk_token_lengths_ output_tokens_ output_dim_ attention_mask_values]; try done.
  - intros k. rewrite <- E. unfold loop. rewrite lengths_lookup, Z.add_0_l by lia. done.
  - unfold compacted_tokens. rewrite conv_eighth, <- Esum by lia. f_equal. rewrite Etok. rewrite <- (map_id (map eighth _)) at 2.
    apply map_ext_in. intros x (l & <- & Hl%list_elem_of_In)%in_map_iff. rewrite Forall_forall in Hls. pose proof (eighth_mono l _ (proj2 (Hls l Hl))).
    destruct (Z.ltb_spec (eighth l) (eighth (Z.min 100 frames))); lia.
  - intros r c Hr Hc. rewrite Hlook by done. assert (0 <= r / window frames) by (apply Z.div_pos; lia).
    destruct (Z.eqb_spec (r / window frames) (c / window frames)); [by rewrite decide_True|]. rewrite decide_False by naive_solver.
    rewrite lookup_replicate_2; [done|]. unfold cell. nia.
Qed.

(** Features as [extract] makes them. *)
Record features_ok (features : Qwen3ASRAudioFeatures Float) : Prop := {
  features_bins : mel_bins features = num_mel_bins config;
  features_size : Z.of_nat (length (feature_values features)) = num_mel_bins config * frames features;
  features_tokens : qwen3_asr_audio_encoder_token_count (frames features) = Ok (encoder_tokens features);
}.

Definition kept_encoder (s : option EncoderGraph) : Prop := ∀ g, s = Some g → make_graph (frames_ g) = Ok g.

Lemma padded_layout features g : encoder_accepts (frames features) → encoder_layout (frames features) g → features_ok features →
  ∀ k mel f, 0 <= k → k * 100 < frames features → 0 <= mel < num_mel_bins config → 0 <= f < Z.min 100 (frames features) →
    padded_features fzero config g (feature_values features) !! Z.to_nat ((k * num_mel_bins config + mel) * Z.min 100 (frames features) + f) =
    if k * 100 + f <? frames features then feature_values features !! Z.to_nat (mel * frames features + k * 100 + f) else Some fzero.
Proof.
  intros [Hw Hi Hb Hf Ht Hfit] [Lf Lc Ll Lcf _ _ _ _] [Fb Fs _] k mel f Hk Hkf Hmel Hff. unfold padded_features.
  set (count := Z.of_nat (length (chunk_lengths_ g))). set (cells := replicate _ fzero).
  assert (∀ k, 0 <= k → k * 100 < frames features → k < count) as Hcount.
  { intros j Hj Hjf. pose proof (Lc (Z.to_nat j)) as Hl. rewrite Z2Nat.id, (proj2 (Z.ltb_lt _ _)) in Hl by lia. apply lookup_lt_Some in Hl. unfold count. lia. }
  assert (0 <= count * num_mel_bins config * chunk_frames_ g) as Hsize by (rewrite Lcf; unfold count; nia).
  assert (Z.of_nat (length cells) = count * num_mel_bins config * chunk_frames_ g) as Hcells by (unfold cells; rewrite length_replicate; lia).
  rewrite Ll, <- Lcf in *. rewrite <- Lf at 1.
  pose proof (pad_chunks_spec config g (feature_values features) Hb ltac:(by rewrite Lf) ltac:(by rewrite Lf) count 100 (Z.to_nat (frames features)) 0 cells) as H.
  rewrite Lf in *. rewrite Z.mul_0_l in H. rewrite H by (done || lia). clear H.
  destruct (Z.ltb_spec (k * 100 + f) (frames features)); [by rewrite decide_True by lia|]. rewrite decide_False by lia. apply lookup_replicate_2.
  assert (k < count) by auto. assert ((k * num_mel_bins config + mel + 1) * chunk_frames_ g <= count * num_mel_bins config * chunk_frames_ g) by (apply Z.mul_le_mono_nonneg_r; nia).
  nia.
Qed.

(** The graph kept from another recording does not show. *)
Lemma encode_audio_eq features s g :
  features_ok features → make_graph (frames features) = Ok g → encoder_layout (frames features) g → kept_encoder s →
  encode_audio fzero neg_inf config features s =
  (values ← encoder_network (chunk_frames_ g) (chunk_token_lengths_ g) (attention_mask_values g) (padded_features fzero config g (feature_values features));
   Ok {| values := values; tokens := encoder_tokens features; embedding_size := output_dim config |}, Some g).
Proof.
  intros [Fb Fs Ft] Hg Hl Hs. unfold encode_audio. rewrite Ft, io_bind_lift, Z.eqb_refl. cbn [negb]. rewrite io_bind_get.
  assert (match s with Some g => if frames_ g =? frames features then Ok g else make_graph (frames features) | None => make_graph (frames features) end = Ok g) as ->.
  { destruct s as [g'|]; [|done]. destruct (Z.eqb_spec (frames_ g') (frames features)) as [E|]; [|done]. pose proof (Hs g' eq_refl) as H. congruence. }
  rewrite io_bind_lift, (io_bind_Ok _ _ _ tt (Some g)) by done. unfold encoder_run. rewrite Fb, (layout_frames _ _ Hl), !Z.eqb_refl, Fs, Z.eqb_refl. cbn [negb orb].
  destruct (encoder_network _ _ _ _) as [v|e]; cbn [mbind outcome_bind]; [|done]. rewrite io_bind_lift. cbn [tokens].
  assert (output_tokens_ g = encoder_tokens features) as ->; [|by rewrite Z.eqb_refl, (layout_dim _ _ Hl)].
  rewrite (layout_tokens _ _ Hl). unfold qwen3_asr_audio_encoder_token_count in Ft. destruct (Z.leb_spec (frames features) 0) as [|Hp]; [done|].
  pose proof (count_spec _ Hp) as H. unfold qwen3_asr_audio_encoder_token_count in H. rewrite (proj2 (Z.leb_gt _ _)) in H by lia. congruence.
Qed.

Lemma make_graph_frames n g : make_graph n = Ok g → frames_ g = n.
Proof.
  unfold make_encoder_graph. destruct (_ <=? _); [done|]. do 4 (intros (? & _ & H)%outcome_bind_ok; revert H). destruct (_ <? _); [done|].
  do 2 (intros (? & _ & H)%outcome_bind_ok; revert H). destruct (negb _); [done|]. by intros [= <-].
Qed.

Lemma encode_kept features s : kept_encoder s → kept_encoder (encode_audio fzero neg_inf config features s).2.
Proof.
  intros Hs. unfold encode_audio. destruct (qwen3_asr_audio_encoder_token_count _) as [count|]; [|done]. rewrite io_bind_lift. destruct (negb _); [done|].
  rewrite io_bind_get. set (made := match s with Some g => _ | None => _ end).
  assert (∀ g, made = Ok g → make_graph (frames_ g) = Ok g) as Hm.
  { intros g. unfold made. destruct s as [g'|]; [destruct (_ =? _); [intros [= <-]; by apply Hs|]|]; intros E; by rewrite (make_graph_frames _ _ E). }
  destruct made as [g|e]; [|done]. rewrite io_bind_lift, (io_bind_Ok _ _ _ tt (Some g)) by done.
  assert (kept_encoder (Some g)) by (intros ? [= <-]; by apply Hm).
  destruct (encoder_run _ _ _ _) as [out|e]; [|done]. rewrite io_bind_lift. by destruct (negb _).
Qed.

(** C10. A recording whose graph fits is encoded whatever was encoded before: the network is
    shown each frame of each band once, in chunks of a hundred, the last one filled up with
    zeros; a token attends to the tokens of its window; and as many tokens come out as the
    prompt was told. *)
Theorem audio_encoded features s :
  encoder_accepts (frames features) → features_ok features → kept_encoder s →
  ∃ g, encoder_layout (frames features) g ∧
    (∀ k mel f, 0 <= k → k * 100 < frames features → 0 <= mel < num_mel_bins config → 0 <= f < Z.min 100 (frames features) →
      padded_features fzero config g (feature_values features) !! Z.to_nat ((k * num_mel_bins config + mel) * Z.min 100 (frames features) + f) =
      if k * 100 + f <? frames features then feature_values features !! Z.to_nat (mel * frames features + k * 100 + f) else Some fzero) ∧
    encode_audio fzero neg_inf config features s =
    (values ← encoder_network (chunk_frames_ g) (chunk_token_lengths_ g) (attention_mask_values g) (padded_features fzero config g (feature_values features));
     Ok {| values := values; tokens := encoder_tokens features; embedding_size := output_dim config |}, Some g).
Proof.
  intros Ha Hf Hs. destruct (make_graph_layout _ Ha) as (g & Hg & Hl). exists g. split; [done|]. split; [by apply padded_layout|by apply encode_audio_eq].
Qed.
End graph.

Module Sounds.

(** A network that answers with sums of what each token sees. *)
#[export] Instance network : EncoderNetwork Z := {|
  log_mel audio := Ok (samples audio ++ samples audio, 2, Z.of_nat (length (samples audio)));
  encoder_network chunk_frames token_lengths mask padded := Ok [chunk_frames; sum_values token_lengths; sum_values mask; sum_values padded];
  encoder_fits frames := frames <=? 1000;
|}.

Definition sound_config : Qwen3ASRAudioEncoderConfig := {| num_mel_bins := 2; max_source_positions := 60; n_window := 50; n_window_infer := 100; output_dim := 3 |}.

Definition sound_features (n : Z) : Qwen3ASRAudioFeatures Z :=
  {| feature_values := seqZ 0 (2 * n); mel_bins := 2; frames := n; encoder_tokens := tokens_of n |}.

Definition encode_all (config : Qwen3ASRAudioEncoderConfig) (n : Z) := encode_audio 0 (-1) config (sound_features n).

Lemma audio_encoded_witness :
  (encode_all sound_config 130 (encode_all sound_config 40 None).2).1 = Ok {| values := [100; 17; -104; 33670]; tokens := 17; embedding_size := 3 |} ∧
  ∃ g, encoder_layout 0 (-1) sound_config 130 g ∧ (encode_all sound_config 130 (encode_all sound_config 40 None).2).2 = Some g.
Proof.
  split; [by vm_compute|].
  assert (kept_encoder 0 (-1) sound_config (encode_all sound_config 40 None).2) as Hk by by apply encode_kept.
  destruct (audio_encoded 0 (-1) sound_config (sound_features 130) (encode_all sound_config 40 None).2) as (g & Hl & _ & E); [by split; vm_compute|by split|exact Hk|].
  exists g. split; [exact Hl|]. unfold encode_all at 1. by rewrite E.
Defined.

(** With the window that the configuration has by default the tokens of a recording are
    counted in chunks of 100 frames and made in chunks of 200. *)
Definition default_config : Qwen3ASRAudioEncoderConfig := {| num_mel_bins := 2; max_source_positions := 60; n_window := 100; n_window_infer := 400; output_dim := 3 |}.

Example default_window_counts :
  option_map output_tokens_ (encode_all default_config 200 None).2 = Some 25 ∧ qwen3_asr_audio_encoder_token_count 200 = Ok 26 ∧
  is_ok (encode_all default_config 200 None).1 = false.
Proof. by vm_compute. Qed.

End Sounds.
