(* ===== verification/AsrText.v ===== *)
(** The recognizer's text (models/qwen3_asr/tokenizer_text.cpp, prompt_asr.cpp,
    postprocess.cpp): the prompt with a placeholder for each token of audio, and what is
    read from the tokens of the answer. *)

From S2P Require Import Prelude Session Thinker.

#[local] Open Scope Z_scope.

Record Qwen3ASRRequest {Float : Type} := {
  asr_audio : @AudioBuffer Float;
  asr_context : bytes;
  asr_language : bytes;
  asr_generation : Qwen3ASRGenerationOptions;
}.
Arguments Qwen3ASRRequest : clear implicits.

Record Qwen3ASRResult := { result_text : bytes; result_language : bytes }.

Section text.
(** The tokenizer: a text to tokens, tokens to a text, and the tokens that are not text. *)
Context (encode : bytes → outcome (list Z)) (decode_ids : list Z → outcome bytes) (is_control_token_id : Z → bool).
Context (config : Qwen3ASRTextDecoderConfig).

Definition newline : bytes := [10].

Definition default_chat_prompt (context : bytes) : bytes :=
  str "<|im_start|>system" ++ newline ++ context ++
  str "<|im_end|>" ++ newline ++ str "<|im_start|>user" ++ newline ++ str "<|audio_start|><|audio_pad|><|audio_end|><|im_end|>" ++ newline ++
  str "<|im_start|>assistant" ++ newline.

(** [for (const int32_t id : ids)]: the tokens written so far and the positions of audio. *)
Fixpoint expand (audio_token audio_feature_tokens : Z) (ids expanded positions : list Z) : list Z * list Z :=
  match ids with
  | [] => (expanded, positions)
  | id :: ids =>
      if id =? audio_token then
        expand audio_token audio_feature_tokens ids (expanded ++ replicate (Z.to_nat audio_feature_tokens) id)
          (positions ++ map i32 (seqZ (Z.of_nat (length expanded)) audio_feature_tokens))
      else expand audio_token audio_feature_tokens ids (expanded ++ [id]) positions
  end.

Definition build_raw_audio_prompt (text : bytes) (audio_feature_tokens : Z) : outcome Qwen3ASRPrompt :=
  if audio_feature_tokens <=? 0 then Throw (str "Qwen3 ASR prompt requires positive audio feature token count")
  else
    ids ← encode text;
    let '(expanded, positions) := expand (i32 (audio_token_id config)) audio_feature_tokens ids [] [] in
    Ok {| input_ids := expanded; audio_token_positions := positions; attention_mask := replicate (length expanded) 1 |}.

Definition build_prompt (context language : bytes) (audio_feature_tokens : Z) : outcome Qwen3ASRPrompt :=
  let prompt := default_chat_prompt context in
  let prompt :=
    if bool_decide (language ≠ [] ∧ language ≠ str "Auto") then prompt ++ str "language " ++ language ++ str "<asr_text>" else prompt in
  build_raw_audio_prompt prompt audio_feature_tokens.

(** [Qwen3ASRPromptBuilder::build]. *)
Definition build {Float} (request : Qwen3ASRRequest Float) (audio_feature_tokens : Z) : outcome Qwen3ASRPrompt :=
  build_prompt (asr_context request) (asr_language request) audio_feature_tokens.

Definition filtered (id : Z) : bool := (id =? pad_token_id config) || is_eos config id || is_control_token_id id.

Definition decode_text (token_ids : list Z) : outcome bytes := decode_ids (List.filter (λ id, negb (filtered id)) token_ids).

Definition starts_with_language (value : bytes) : bool := is_prefix (str "language ") (map to_lower value).

(** [Qwen3ASRPostprocessor::decode]. *)
Definition decode_answer {Float} (token_ids : list Z) (request : Qwen3ASRRequest Float) : outcome Qwen3ASRResult :=
  raw ← decode_text token_ids;
  let raw := trim raw in
  match asr_language request with
  | _ :: _ => Ok {| result_text := raw; result_language := asr_language request |}
  | [] =>
      match find_sub (str "<asr_text>") raw with
      | None => Ok {| result_text := raw; result_language := [] |}
      | Some tag =>
          let meta := trim (take tag raw) in
          let text := trim (drop (tag + length (str "<asr_text>")) raw) in
          if starts_with_language meta then
            let language := trim (drop (length (str "language ")) meta) in
            if bool_decide (language = str "None") then Ok {| result_text := text; result_language := [] |}
            else Ok {| result_text := text; result_language := language |}
          else Ok {| result_text := text; result_language := [] |}
      end
  end.
End text.

(** * Facts *)

Section prompt_facts.
Context (audio n : Z) (n_positive : 0 < n).

(** How often a token occurs. *)
Definition occurrences (id : Z) (ids : list Z) : Z := Z.of_nat (length (List.filter (Z.eqb id) ids)).

Lemma occurrences_app id a b : occurrences id (a ++ b) = occurrences id a + occurrences id b.
Proof. unfold occurrences. rewrite List.filter_app, length_app. lia. Qed.

Lemma occurrences_cons id x ids : occurrences id (x :: ids) = (if id =? x then 1 else 0) + occurrences id ids.
Proof. unfold occurrences. cbn [List.filter]. destruct (id =? x); cbn [length]; lia. Qed.

Lemma occurrences_replicate id k x : occurrences id (replicate k x) = if id =? x then Z.of_nat k else 0.
Proof.
  unfold occurrences. induction k as [|k IH]; [by destruct (_ =? _)|]. cbn [replicate List.filter].
  destruct (id =? x); cbn [length]; lia.
Qed.

(** The positions of a token in what comes from [i] on. *)
Fixpoint positions_of (i : Z) (ids : list Z) : list Z :=
  match ids with [] => [] | id :: ids => if id =? audio then i :: positions_of (i + 1) ids else positions_of (i + 1) ids end.

Lemma positions_app a b : ∀ i, positions_of i (a ++ b) = positions_of i a ++ positions_of (i + Z.of_nat (length a)) b.
Proof.
  induction a as [|x a IH]; intros i; cbn [positions_of app length]; [by rewrite Z.add_0_r|].
  rewrite IH. replace (i + 1 + Z.of_nat (length a)) with (i + Z.of_nat (S (length a))) by lia. by destruct (x =? audio).
Qed.

Lemma positions_replicate k : ∀ i, positions_of i (replicate k audio) = seqZ i (Z.of_nat k).
Proof.
  induction k as [|k IH]; intros i; [done|]. cbn [replicate positions_of]. rewrite Z.eqb_refl, IH, (seqZ_cons i (Z.of_nat (S k))) by lia.
  by rewrite Nat2Z.inj_succ, Z.pred_succ.
Qed.

Lemma positions_length ids : ∀ i, Z.of_nat (length (positions_of i ids)) = occurrences audio ids.
Proof.
  unfold occurrences. induction ids as [|x ids IH]; intros i; [done|]. cbn [positions_of List.filter]. rewrite Z.eqb_sym.
  destruct (audio =? x); cbn [length]; rewrite ?Nat2Z.inj_succ, IH; lia.
Qed.

Lemma positions_spec ids : ∀ i p, p ∈ positions_of i ids ↔ ∃ k : nat, p = i + Z.of_nat k ∧ ids !! k = Some audio.
Proof.
  induction ids as [|x ids IH]; intros i p; cbn [positions_of]; [split; [by intros ?%elem_of_nil|by intros (? & _ & ?)]|].
  assert (p ∈ positions_of (i + 1) ids ↔ ∃ k : nat, p = i + Z.of_nat (S k) ∧ (x :: ids) !! S k = Some audio) as Hrest.
  { rewrite IH. cbn. split; intros (k & -> & H); exists k; (split; [lia|done]). }
  destruct (Z.eqb_spec x audio) as [->|Hx].
  - rewrite elem_of_cons, Hrest. split.
    + intros [->|(k & -> & H)]; [exists O; split; [lia|done]|by exists (S k)].
    + intros ([|k] & -> & H); [left; lia|right; by exists k].
  - rewrite Hrest. split; [intros (k & -> & H); by exists (S k)|]. intros ([|k] & -> & H); [naive_solver|by exists k].
Qed.

(** What [expand] leaves: each placeholder [n] times. *)
Definition expanded_ids (ids : list Z) : list Z := ids ≫= λ id, if id =? audio then replicate (Z.to_nat n) id else [id].

Lemma expanded_length ids : Z.of_nat (length (expanded_ids ids)) = Z.of_nat (length ids) + (n - 1) * occurrences audio ids.
Proof.
  unfold expanded_ids, occurrences. induction ids as [|x ids IH]; [cbn; lia|]. cbn [mbind list_bind List.filter length]. rewrite length_app.
  rewrite Z.eqb_sym. destruct (audio =? x); cbn [length]; rewrite ?length_replicate; lia.
Qed.

Lemma expand_spec ids : ∀ expanded positions,
  Z.of_nat (length expanded) + Z.of_nat (length (expanded_ids ids)) < 2 ^ 31 →
  expand audio n ids expanded positions = (expanded ++ expanded_ids ids, positions ++ positions_of (Z.of_nat (length expanded)) (expanded_ids ids)).
Proof.
  induction ids as [|x ids IH]; intros expanded positions Hb; cbn [expand]; [by rewrite !app_nil_r|]. unfold expanded_ids in *. cbn [mbind list_bind] in *.
  rewrite length_app in Hb. destruct (Z.eqb_spec x audio) as [->|Hx].
  - rewrite length_replicate in Hb. rewrite IH by (rewrite length_app, length_replicate; lia). rewrite <- !app_assoc, positions_app, positions_replicate, length_app, length_replicate, Z2Nat.id by lia.
    f_equal. f_equal. f_equal; [|f_equal; lia]. rewrite <- (map_id (seqZ _ _)) at 2. apply map_ext_in. intros y Hy%list_elem_of_In%elem_of_seqZ. apply i32_small. lia.
  - cbn [length app] in *. rewrite IH by (rewrite length_app; cbn; lia). rewrite <- app_assoc. cbn [app positions_of].
    rewrite (proj2 (Z.eqb_neq _ _)) by done. rewrite length_app. cbn [length]. do 3 f_equal. lia.
Qed.
End prompt_facts.

Section answers.
Context (encode : bytes → outcome (list Z)) (decode_ids : list Z → outcome bytes) (is_control_token_id : Z → bool).
Context (config : Qwen3ASRTextDecoderConfig).

(** The prompt of a text whose tokens are known. *)
Lemma raw_prompt_eq text n ids :
  encode text = Ok ids → 0 < n → 0 <= audio_token_id config < 2 ^ 31 → Z.of_nat (length (expanded_ids (audio_token_id config) n ids)) < 2 ^ 31 →
  build_raw_audio_prompt encode config text n =
  Ok {| input_ids := expanded_ids (audio_token_id config) n ids; audio_token_positions := positions_of (audio_token_id config) 0 (expanded_ids (audio_token_id config) n ids);
        attention_mask := replicate (length (expanded_ids (audio_token_id config) n ids)) 1 |}.
Proof.
  intros E Hn Ha Hb. unfold build_raw_audio_prompt. rewrite (proj2 (Z.leb_gt _ _)), E by lia. cbn [mbind outcome_bind].
  rewrite i32_small, expand_spec by (done || cbn; lia). done.
Qed.

Lemma expanded_occurrences n ids : 0 < n → occurrences (audio_token_id config) (expanded_ids (audio_token_id config) n ids) = n * occurrences (audio_token_id config) ids.
Proof.
  intros Hn. unfold expanded_ids. induction ids as [|x ids IH]; [cbn [mbind list_bind]; change (occurrences _ []) with 0; lia|]. cbn [mbind list_bind]. rewrite occurrences_app, IH, (occurrences_cons _ x).
  destruct (Z.eqb_spec x (audio_token_id config)) as [->|Hx].
  - rewrite occurrences_replicate, Z.eqb_refl. lia.
  - rewrite occurrences_cons. rewrite (proj2 (Z.eqb_neq _ _)) by done. change (occurrences _ []) with 0. lia.
Qed.

(** The prompt of a request has a placeholder for each token of audio wherever the text
    has the audio token, its positions are exactly those of the placeholders, and the rest of
    the text is kept in order. *)
Theorem placeholders_exact text n ids :
  encode text = Ok ids → 0 < n → 0 <= audio_token_id config < 2 ^ 31 → Z.of_nat (length ids) + n * occurrences (audio_token_id config) ids < 2 ^ 31 →
  ∃ p, build_raw_audio_prompt encode config text n = Ok p ∧
    Z.of_nat (length (audio_token_positions p)) = n * occurrences (audio_token_id config) ids ∧
    (∀ q, q ∈ audio_token_positions p ↔ 0 <= q ∧ input_ids p !! Z.to_nat q = Some (audio_token_id config)) ∧
    List.filter (λ id, negb (id =? audio_token_id config)) (input_ids p) = List.filter (λ id, negb (id =? audio_token_id config)) ids ∧
    length (attention_mask p) = length (input_ids p).
Proof.
  intros E Hn Ha Hb. assert (0 <= occurrences (audio_token_id config) ids) by (unfold occurrences; lia).
  eexists. split; [apply raw_prompt_eq; [exact E|done|done|rewrite expanded_length; lia]|]. cbn [audio_token_positions input_ids attention_mask].
  split_and!.
  - rewrite positions_length. by apply expanded_occurrences.
  - intros q. rewrite positions_spec. split; [intros (k & -> & H'); split; [lia|by rewrite Z.add_0_l, Nat2Z.id]|].
    intros [Hq H']. exists (Z.to_nat q). split; [lia|done].
  - unfold expanded_ids. clear. induction ids as [|x ids IH]; [done|]. cbn [mbind list_bind List.filter]. rewrite List.filter_app, IH.
    destruct (Z.eqb_spec x (audio_token_id config)) as [->|Hx]; cbn [negb].
    + clear IH. induction (Z.to_nat n) as [|k IHk]; [done|]. cbn [replicate List.filter]. rewrite Z.eqb_refl. exact IHk.
    + cbn [List.filter app]. by rewrite (proj2 (Z.eqb_neq _ _)).
  - by rewrite length_replicate.
Qed.

(** ** Answers *)

(** An answer that names its language in front of the tag is read as that language and
    the text behind the tag, without space around them; "None" is no language. *)
Theorem answer_read {Float} tokens (request : Qwen3ASRRequest Float) raw language text :
  asr_language request = [] → decode_text decode_ids is_control_token_id config tokens = Ok raw →
  trim raw = str "language " ++ language ++ str "<asr_text>" ++ text → language ≠ [] → trimmed language → Forall (λ c, c ≠ 60) language →
  decode_answer decode_ids is_control_token_id config tokens request =
  Ok {| result_text := trim text; result_language := if bool_decide (language = str "None") then [] else language |}.
Proof.
  intros Hr Hraw Et Hne Hl Hf. unfold decode_answer. rewrite Hraw, Hr. cbn [mbind outcome_bind]. rewrite Et.
  set (meta := str "language " ++ language).
  replace (str "language " ++ language ++ str "<asr_text>" ++ text) with ((meta ++ str "<asr_text>") ++ text) by (unfold meta; by rewrite <- !app_assoc).
  assert (Forall (λ c, c ≠ 60) meta) as Hm by (apply Forall_app; split; [by repeat constructor|done]).
  assert (find_sub (str "<asr_text>") (meta ++ str "<asr_text>") = Some (length meta)) as Hfind by exact (find_sub_first 60 (str "asr_text>") meta Hm).
  rewrite (find_sub_app _ _ text _ Hfind), drop_app_ge, length_app, Nat.sub_diag by (rewrite length_app; lia). cbn [drop].
  rewrite <- app_assoc, take_app_length.
  assert (trim meta = meta) as ->.
  { apply trim_ends; [by intros c [= <-]|]. intros c Hc. apply (proj2 Hl). unfold meta in Hc. clear -Hc Hne. induction language as [|x l _] using rev_ind; [done|]. by rewrite app_assoc, last_snoc in Hc; rewrite last_snoc. }
  assert (starts_with_language meta = true) as -> by (unfold starts_with_language, meta; rewrite map_app; exact (is_prefix_app (str "language ") (map to_lower language))).
  assert (drop (length (str "language ")) meta = language) as -> by apply drop_app_length. destruct Hl as [H1 H2]. rewrite (trim_ends language) by done. by case_bool_decide.
Qed.
End answers.

Module Answers.

(** Each byte a token; 300 stands for the placeholder of audio, 301 for the end. *)
Definition opener : bytes := str "<|audio_pad|>".
Fixpoint encode (fuel : nat) (text : bytes) : list Z :=
  match fuel, text with
  | S fuel, c :: rest => if is_prefix opener text then 300 :: encode fuel (drop (length opener) text) else c :: encode fuel rest
  | _, _ => []
  end.
Definition encode_text (text : bytes) : outcome (list Z) := Ok (encode (length text) text).

Definition text_config : Qwen3ASRTextDecoderConfig :=
  {| hidden_size := 2; max_position_embeddings := 500; eos_token_ids := [301]; audio_token_id := 300; pad_token_id := 302 |}.

Notation prompt context n := (build_prompt encode_text text_config context [] n).

Lemma placeholders_exact_witness :
  ∃ p, build_raw_audio_prompt encode_text text_config (str "a<|audio_pad|>b") 3 = Ok p ∧ input_ids p = [97; 300; 300; 300; 98] ∧ audio_token_positions p = [1; 2; 3] ∧
    Z.of_nat (length (audio_token_positions p)) = 3 * 1.
Proof.
  destruct (placeholders_exact encode_text text_config (str "a<|audio_pad|>b") 3 [97; 300; 98]) as (p & E & Hl & _); [by vm_compute..|].
  exists p. split; [exact E|]. assert (p = {| input_ids := [97; 300; 300; 300; 98]; audio_token_positions := [1; 2; 3]; attention_mask := [1; 1; 1; 1; 1] |}) as ->.
  { vm_compute in E. congruence. }
  split_and!; [done|done|exact Hl].
Defined.

(** A context that holds the placeholder makes more placeholders than there is audio. *)
Example context_with_placeholder :
  option_map (λ p, length (audio_token_positions p)) (match prompt (str "names: <|audio_pad|>") 3 with Ok p => Some p | Throw _ => None end) = Some 6%nat.
Proof. by vm_compute. Qed.

Definition heard (language : bytes) : Qwen3ASRRequest Z :=
  {| asr_audio := {| sample_rate := 16000; channels := 1; samples := [] |}; asr_context := []; asr_language := language;
     asr_generation := {| max_new_tokens := 5; return_timestamps := false |} |}.

Notation read tokens language := (decode_answer Ok (λ _, false) text_config tokens (heard language)).

Lemma answer_read_witness :
  read (str " language German<asr_text> Guten Tag " ++ [301; 302]) [] = Ok {| result_text := str "Guten Tag"; result_language := str "German" |}.
Proof.
  refine (answer_read Ok (λ _, false) text_config (str " language German<asr_text> Guten Tag " ++ [301; 302]) (heard []) (str " language German<asr_text> Guten Tag ") (str "German") (str " Guten Tag") _ _ _ _ _ _);
    [done|by vm_compute|by vm_compute|done|by split; vm_compute; intros c [= <-]|by repeat constructor].
Defined.

(** With the language "Auto" the prompt leaves the language to the model, but what the model
    says of it stays in the text. *)
Example auto_is_not_read :
  build_prompt encode_text text_config [] (str "Auto") 3 = prompt [] 3 ∧
  read (str "language German<asr_text>Guten Tag") (str "Auto") = Ok {| result_text := str "language German<asr_text>Guten Tag"; result_language := str "Auto" |}.
Proof. by vm_compute. Qed.

End Answers.
