(* ===== verification/AlignerSession.v ===== *)
(** Sessions of the recognizer and the aligner share what is here: the graphs a session
    keeps, and what a request is answered without them. Then the forced aligner's session
    (models/qwen3_forced_aligner/session.cpp) and its prompt (processor.cpp). *)

From stdpp Require Import gmap.
From S2P Require Import Prelude FlowCache KVCache ForcedAligner Options Session Thinker AsrEncoder AsrText AudioChunking.

#[local] Open Scope Z_scope.

Record Qwen3ASRConfig := {
  config_sample_rate : Z;
  config_max_new_tokens : Z;
  timestamp_token_id : Z;
  timestamp_segment_time_ms : Z;
  frontend : Qwen3ASRFrontendConfig;
  audio_encoder : Qwen3ASRAudioEncoderConfig;
  text_decoder : Qwen3ASRTextDecoderConfig;
}.

(** The fields of a result that these sessions set. *)
Record TaskResult {Float : Type} := { text_output : option Transcript; result_words : list (@WordTimestamp Float) }.
Arguments TaskResult : clear implicits.

(** * The graphs a session keeps *)

Section runtime.
Context {Float : Type} `{!ThinkerNetworks Float} `{!EncoderNetwork Float} (fltb : Float → Float → bool) (fzero neg_inf : Float) (stored : ggml_type → Float → Float).
Context (config : Qwen3ASRConfig) (num_hidden_layers : nat) (row_elems : Z).

Record Runtime := { encoder_ : option (@EncoderGraph Float); thinker_ : @ThinkerImpl Float }.

#[export] Instance eta_runtime : Settable Runtime := λ s, {| encoder_ := encoder_ s; thinker_ := thinker_ s |}.

Definition make_runtime : Runtime := {| encoder_ := None; thinker_ := make_thinker |}.

Definition on_encoder {A} (m : io (option (@EncoderGraph Float)) A) : io Runtime A := λ s,
  let '(r, e) := m (encoder_ s) in (r, s <| encoder_ := e |>).

Definition on_thinker {A} (m : io (@ThinkerImpl Float) A) : io Runtime A := λ s,
  let '(r, t) := m (thinker_ s) in (r, s <| thinker_ := t |>).

Definition encode_features (features : Qwen3ASRAudioFeatures Float) : io Runtime (Qwen3ASRAudioEmbeddings Float) :=
  on_encoder (encode_audio fzero neg_inf (audio_encoder config) features).

Definition generate_text prompt embeddings options : io Runtime (list Z) :=
  on_thinker (generate_tokens fltb fzero stored (text_decoder config) num_hidden_layers row_elems prompt embeddings options).

Definition classify_text prompt embeddings : io Runtime (list Z) := on_thinker (classify_prompt (text_decoder config) prompt embeddings).

(** Without graphs: what the networks alone answer. *)
Definition encoded (features : Qwen3ASRAudioFeatures Float) : outcome (Qwen3ASRAudioEmbeddings Float) :=
  (encode_audio fzero neg_inf (audio_encoder config) features None).1.

Record runtime_ready (s : Runtime) : Prop := {
  ready_encoder : kept_encoder fzero neg_inf (audio_encoder config) (encoder_ s);
  ready_thinker : thinker_ready (text_decoder config) num_hidden_layers row_elems (thinker_ s);
}.

(** A program that answers [r] and leaves the session ready. *)
Definition answers {A} (m : io Runtime A) (r : outcome A) : Prop := ∀ s, runtime_ready s → (m s).1 = r ∧ runtime_ready (m s).2.

Lemma make_runtime_ready : runtime_ready make_runtime.
Proof. by split. Qed.

Lemma answers_lift {A} (r : outcome A) : answers (io_lift r) r.
Proof. by intros s Hs. Qed.

Lemma answers_ret {A} (a : A) : answers (mret a) (Ok a).
Proof. by intros s Hs. Qed.

Lemma answers_bind {A B} (m : io Runtime A) r (k : A → io Runtime B) (l : A → outcome B) :
  answers m r → (∀ a, r = Ok a → answers (k a) (l a)) → answers (m ≫= k) (r ≫= l).
Proof.
  intros Hm Hk s Hs. destruct (Hm s Hs) as [E Hr]. unfold mbind at 1 3, io_bind. destruct (m s) as [[a|e] s']; cbn [fst snd] in *; subst r; [by apply Hk|done].
Qed.

Lemma encode_alone features s :
  kept_encoder fzero neg_inf (audio_encoder config) s → (encode_audio fzero neg_inf (audio_encoder config) features s).1 = encoded features.
Proof.
  intros Hs. unfold encoded, encode_audio. destruct (qwen3_asr_audio_encoder_token_count _) as [count|]; [|done]. rewrite !io_bind_lift. destruct (negb _); [done|].
  rewrite !io_bind_get.
  assert (match s with Some g => if frames_ g =? frames features then Ok g else make_encoder_graph fzero neg_inf (audio_encoder config) (frames features) | None => make_encoder_graph fzero neg_inf (audio_encoder config) (frames features) end
          = make_encoder_graph fzero neg_inf (audio_encoder config) (frames features)) as ->.
  { destruct s as [g|]; [|done]. destruct (Z.eqb_spec (frames_ g) (frames features)) as [<-|]; [|done]. symmetry. by apply Hs. }
  destruct (make_encoder_graph _ _ _ _) as [g|e]; [|done]. rewrite !io_bind_lift, !(io_bind_Ok _ _ _ tt (Some g)) by done.
  destruct (encoder_run _ _ _ _) as [out|e]; [|done]. rewrite !io_bind_lift. by destruct (negb _).
Qed.

Lemma encode_answers features : answers (encode_features features) (encoded features).
Proof.
  intros s [H1 H2]. unfold encode_features, on_encoder. pose proof (encode_alone features _ H1) as E. pose proof (encode_kept fzero neg_inf (audio_encoder config) features _ H1) as K.
  destruct (encode_audio _ _ _ _ (encoder_ s)) as [r e]. split; [done|by split].
Qed.

Context (networks_ok : thinker_networks_ok stored (text_decoder config) num_hidden_layers row_elems).

Lemma generate_answers prompt embeddings options : answers (generate_text prompt embeddings options) (transcribe fltb (text_decoder config) prompt embeddings options).
Proof.
  intros s [H1 H2]. unfold generate_text, on_thinker.
  pose proof (generate_tokens_spec fltb fzero stored (text_decoder config) num_hidden_layers row_elems networks_ok prompt embeddings options _ H2) as H.
  destruct (generate_tokens _ _ _ _ _ _ _ _ _ (thinker_ s)) as [r t]. destruct H as [Hr ->]. split; [done|by split].
Qed.

Lemma classify_answers prompt embeddings : answers (classify_text prompt embeddings) (classify (text_decoder config) prompt embeddings).
Proof.
  intros s [H1 H2]. unfold classify_text, on_thinker.
  pose proof (classify_spec (text_decoder config) num_hidden_layers row_elems prompt embeddings _ H2) as H.
  destruct (classify_prompt _ _ _ (thinker_ s)) as [r t]. destruct H as [Hr ->]. split; [done|by split].
Qed.
End runtime.

(** * The forced aligner *)

Section aligner.
Context {Float : Type} `{!ThinkerNetworks Float} `{!EncoderNetwork Float} `{arith : TimestampArith}.
Context (fltb : Float → Float → bool) (fzero neg_inf : Float) (stored : ggml_type → Float → Float).
Context (config : Qwen3ASRConfig) (num_hidden_layers : nat) (row_elems : Z) (encode : bytes → outcome (list Z)).
Context {Voice Artifact : Type}.

Notation Request := (@TaskRequest Float Voice Artifact).
Notation Result := (TaskResult Float).
Notation Runtime := (@Runtime Float).

Record ForcedAlignPrompt := { prompt : Qwen3ASRPrompt; words : list bytes; timestamp_positions : list Z }.

(** [Qwen3ForcedAlignProcessor::build_prompt]. *)
Definition build_align_prompt (text language : bytes) (audio_feature_tokens : Z) : outcome ForcedAlignPrompt :=
  words ← tokenize_alignable_words text language;
  match words with
  | [] => Throw (str "Qwen3 forced aligner requires non-empty normalized text")
  | _ =>
      let aligner_text := str "<|audio_start|><|audio_pad|><|audio_end|>" ++ concat (map (λ word, word ++ str "<timestamp><timestamp>") words) in
      prompt ← build_raw_audio_prompt encode (text_decoder config) aligner_text audio_feature_tokens;
      let timestamp_positions := map i32 (positions_of (i32 (timestamp_token_id config)) 0 (input_ids prompt)) in
      if negb (length timestamp_positions =? length words * 2)%nat then Throw (str "Qwen3 forced aligner timestamp placeholder count mismatch")
      else Ok {| prompt := prompt; words := words; timestamp_positions := timestamp_positions |}
  end.

(** [for (const int32_t position : align_prompt.timestamp_positions)]. *)
Fixpoint pick (output_ids positions : list Z) : outcome (list Z) :=
  match positions with
  | [] => Ok []
  | position :: positions =>
      if (position <? 0) || (i32 (Z.of_nat (length output_ids)) <=? position) then Throw (str "Qwen3 forced aligner timestamp position out of range")
      else ids ← pick output_ids positions; Ok (default 0 (output_ids !! Z.to_nat position) :: ids)
  end.

Definition word_of (t : ForcedAligner.WordTimestamp) : @WordTimestamp Float := {|
  word_span := {| start_sample := ForcedAligner.start_sample t; end_sample := ForcedAligner.end_sample t |};
  word := ForcedAligner.word t;
  confidence := fzero;
|}.

Definition empty_bytes (s : bytes) : bool := match s with [] => true | _ => false end.

(** [Qwen3ForcedAlignerSession::run_single]. *)
Definition align_single (request : Request) : io Runtime Result :=
  match audio_input request with
  | None => io_lift (Throw (str "Qwen3 forced aligner run() requires audio_input"))
  | Some audio =>
      match text_input request with
      | None => io_lift (Throw (str "Qwen3 forced aligner run() requires transcript text and language"))
      | Some t =>
          if empty_bytes (text t) || empty_bytes (language t) then io_lift (Throw (str "Qwen3 forced aligner run() requires transcript text and language"))
          else
            alignable ← io_lift (has_alignable_words (text t) (language t));
            if negb alignable then mret {| text_output := Some t; result_words := [] |}
            else
              features ← io_lift (extract (frontend config) audio);
              align_prompt ← io_lift (build_align_prompt (text t) (language t) (encoder_tokens features));
              audio_embeddings ← encode_features fzero neg_inf config features;
              output_ids ← classify_text config (prompt align_prompt) audio_embeddings;
              timestamp_ids ← io_lift (pick output_ids (timestamp_positions align_prompt));
              timestamps ← io_lift (parse_timestamps (timestamp_segment_time_ms config) (words align_prompt) timestamp_ids (config_sample_rate config));
              mret {| text_output := Some t; result_words := map word_of timestamps |}
      end
  end.

Record AlignerSession := { aligner_prepared : bool; aligner_runtime : Runtime }.

#[export] Instance eta_aligner : Settable AlignerSession := λ s, {| aligner_prepared := aligner_prepared s; aligner_runtime := aligner_runtime s |}.

Definition make_aligner : AlignerSession := {| aligner_prepared := false; aligner_runtime := make_runtime |}.

Definition in_aligner {A} (m : io Runtime A) : io AlignerSession A := λ s,
  let '(r, t) := m (aligner_runtime s) in (r, s <| aligner_runtime := t |>).

Definition aligner_prepare (request : @SessionPreparationRequest Voice) : io AlignerSession () :=
  match prep_audio request, prep_text request with
  | Some _, Some _ => io_modify (λ s, s <| aligner_prepared := true |>)
  | _, _ => io_lift (Throw (str "Qwen3 forced aligner prepare() requires audio and transcript contracts"))
  end.

(** The chunking that a request may ask for. *)
Definition standalone_mode (options : gmap bytes bytes) : outcome () :=
  mode ← parse_audio_chunk_mode options;
  match mode with
  | Fixed | QuietEnergy | Vad =>
      Throw (str ("Qwen3 forced aligner does not support standalone audio chunking; " ++
                  "chunk audio before ASR so each aligner request receives matching audio and transcript"))
  | _ => Ok tt
  end.

Definition aligner_run (request : Request) : io AlignerSession Result :=
  s ← io_get;
  io_lift (require_prepared (aligner_prepared s) (str "Qwen3 forced aligner run()"));;
  io_lift (standalone_mode (options request));;
  in_aligner (align_single request).

(** ** The specification: no graphs *)

Definition aligned_single (request : Request) : outcome Result :=
  match audio_input request with
  | None => Throw (str "Qwen3 forced aligner run() requires audio_input")
  | Some audio =>
      match text_input request with
      | None => Throw (str "Qwen3 forced aligner run() requires transcript text and language")
      | Some t =>
          if empty_bytes (text t) || empty_bytes (language t) then Throw (str "Qwen3 forced aligner run() requires transcript text and language")
          else
            alignable ← has_alignable_words (text t) (language t);
            if negb alignable then Ok {| text_output := Some t; result_words := [] |}
            else
              features ← extract (frontend config) audio;
              align_prompt ← build_align_prompt (text t) (language t) (encoder_tokens features);
              audio_embeddings ← encoded fzero neg_inf config features;
              output_ids ← classify (text_decoder config) (prompt align_prompt) audio_embeddings;
              timestamp_ids ← pick output_ids (timestamp_positions align_prompt);
              timestamps ← parse_timestamps (timestamp_segment_time_ms config) (words align_prompt) timestamp_ids (config_sample_rate config);
              Ok {| text_output := Some t; result_words := map word_of timestamps |}
      end
  end.

(** What is asked of a session, and what it answers. *)
Inductive AlignerCall := Prepare (request : @SessionPreparationRequest Voice) | Run (request : Request).

Fixpoint aligner_calls (cs : list AlignerCall) (s : AlignerSession) : list (outcome (option Result)) :=
  match cs with
  | [] => []
  | Prepare request :: cs => let '(r, s) := aligner_prepare request s in ((λ _, None) <$> r) :: aligner_calls cs s
  | Run request :: cs => let '(r, s) := aligner_run request s in (Some <$> r) :: aligner_calls cs s
  end.
(** Each request on its own, after a [prepare] that was accepted. *)
Fixpoint aligned_calls (prepared : bool) (cs : list AlignerCall) : list (outcome (option Result)) :=
  match cs with
  | [] => []
  | Prepare request :: cs =>
      match prep_audio request, prep_text request with
      | Some _, Some _ => Ok None :: aligned_calls true cs
      | _, _ => Throw (str "Qwen3 forced aligner prepare() requires audio and transcript contracts") :: aligned_calls prepared cs
      end
  | Run request :: cs =>
      (Some <$> (require_prepared prepared (str "Qwen3 forced aligner run()");; standalone_mode (options request);; aligned_single request)) :: aligned_calls prepared cs
  end.

(** ** Facts *)

Notation ready := (runtime_ready fzero neg_inf config num_hidden_layers row_elems).
Notation answers := (answers fzero neg_inf config num_hidden_layers row_elems).

Lemma align_answers request : answers (align_single request) (aligned_single request).
Proof.
  unfold align_single, aligned_single. destruct (audio_input request) as [audio|]; [|apply answers_lift]. destruct (text_input request) as [t|]; [|apply answers_lift].
  destruct (_ || _); [apply answers_lift|]. apply answers_bind; [apply answers_lift|]. intros alignable _. destruct (negb alignable); [apply answers_ret|].
  apply answers_bind; [apply answers_lift|]. intros features _. apply answers_bind; [apply answers_lift|]. intros align_prompt _.
  apply answers_bind; [apply encode_answers|]. intros embeddings _. apply answers_bind; [apply classify_answers|]. intros output_ids _.
  apply answers_bind; [apply answers_lift|]. intros timestamp_ids _. apply answers_bind; [apply answers_lift|]. intros timestamps _. apply answers_ret.
Qed.

Lemma aligner_run_spec request s : aligner_prepared s = true → standalone_mode (options request) = Ok tt → ready (aligner_runtime s) →
  (aligner_run request s).1 = aligned_single request ∧ ready (aligner_runtime (aligner_run request s).2).
Proof.
  intros Hp Hm Hs. unfold aligner_run. rewrite io_bind_get, Hp. cbn [require_prepared]. rewrite io_bind_lift, Hm, io_bind_lift. unfold in_aligner.
  destruct (align_answers request _ Hs) as [E Hr]. by destruct (align_single request (aligner_runtime s)).
Qed.

Lemma aligner_calls_spec cs : ∀ s, ready (aligner_runtime s) → aligner_calls cs s = aligned_calls (aligner_prepared s) cs.
Proof.
  induction cs as [|[request|request] cs IH]; intros s Hs; cbn [aligner_calls aligned_calls]; [done|..].
  - unfold aligner_prepare. destruct (prep_audio request), (prep_text request); cbn; f_equal; by apply IH.
  - unfold aligner_run. rewrite io_bind_get. destruct (aligner_prepared s) eqn:Ep; cbn [require_prepared]; [|cbn; rewrite <- Ep; f_equal; by apply IH].
    rewrite io_bind_lift. destruct (standalone_mode _) as [[]|e]; [|cbn; rewrite <- Ep; f_equal; by apply IH].
    rewrite io_bind_lift. unfold in_aligner. destruct (align_answers request _ Hs) as [E Hr]. destruct (align_single request (aligner_runtime s)) as [r t].
    cbn [fst snd] in *. subst r. cbn [mbind outcome_bind]. f_equal. rewrite <- Ep. exact (IH (s <| aligner_runtime := t |>) Hr).
Qed.

(** C11. A session of the aligner answers each request as the networks answer it alone,
    whatever it was asked before and whatever failed; and a request is refused until the
    session was prepared. *)
Theorem aligner_refines cs : aligner_calls cs make_aligner = aligned_calls false cs.
Proof. apply aligner_calls_spec, make_runtime_ready. Qed.
(** The words of an alignment are those of the transcript, in order, each with a span
    that is not empty and does not begin before the one in front of it ends. *)
Theorem alignment_words request result :
  aligned_single request = Ok result →
  ∃ t ws timestamps, text_input request = Some t ∧ text_output result = Some t ∧ tokenize_alignable_words (text t) (language t) = Ok ws ∧
    result_words result = map word_of timestamps ∧ map ForcedAligner.word timestamps = ws ∧ spans_ok 0 timestamps.
Proof.
  unfold aligned_single. destruct (audio_input request) as [audio|]; [|done]. destruct (text_input request) as [t|]; [|done]. destruct (_ || _); [done|].
  intros (alignable & Ha & H)%outcome_bind_ok. unfold has_alignable_words in Ha. apply outcome_bind_ok in Ha as (ws & Hws & Ha). injection Ha as <-. exists t, ws.
  destruct ws as [|w ws]; cbn [negb] in H; [injection H as <-; by exists []|].
  apply outcome_bind_ok in H as (features & _ & H). apply outcome_bind_ok in H as (p & Hp & H). apply outcome_bind_ok in H as (embeddings & _ & H).
  apply outcome_bind_ok in H as (ids & _ & H). apply outcome_bind_ok in H as (stamps & _ & H). apply outcome_bind_ok in H as (timestamps & Ht & H). injection H as <-.
  exists timestamps. assert (words p = w :: ws) as Hw.
  { unfold build_align_prompt in Hp. rewrite Hws in Hp. cbn [mbind outcome_bind] in Hp. apply outcome_bind_ok in Hp as (? & _ & Hp).
    destruct (negb _) in Hp; [done|]. by injection Hp as <-. }
  destruct (aligned_spans (timestamp_segment_time_ms config) (words p) stamps (config_sample_rate config)) as [_ H]. destruct (H _ Ht) as (H1 & H2 & _).
  split_and!; try done. congruence.
Qed.
End aligner.

Module Alignments.
Import AsrEncoder.Sounds ForcedAligner.Milliseconds.

(** Each byte a token, 300 the placeholder of audio, 310 that of a timestamp. *)
Definition stamp : bytes := str "<timestamp>".
Fixpoint encode (fuel : nat) (text : bytes) : list Z :=
  match fuel, text with
  | S fuel, c :: rest =>
      if is_prefix Answers.opener text then 300 :: encode fuel (drop (length Answers.opener) text)
      else if is_prefix stamp text then 310 :: encode fuel (drop (length stamp) text)
      else c :: encode fuel rest
  | _, _ => []
  end.

(** A network that hears each token two after the one before. *)
#[export] Instance steady : ThinkerNetworks Z := {|
  prefill_network ids embeddings positions := (Throw (str "not asked"), []);
  decode_network kv position token := (Throw (str "not asked"), []);
  classification_network ids embeddings positions := Ok (seqZ 0 (Z.of_nat (length ids)));
  prefill_fits steps audio := true;
|}.

Definition align_config : Qwen3ASRConfig := {|
  config_sample_rate := 16000; config_max_new_tokens := 10; timestamp_token_id := 310; timestamp_segment_time_ms := 80;
  frontend := {| frontend_rate := 16000; feature_size := 2; hop_length := 160; n_fft := 400 |};
  audio_encoder := {| num_mel_bins := 2; max_source_positions := 60; n_window := 50; n_window_infer := 100; output_dim := 1 |};
  text_decoder := {| hidden_size := 1; max_position_embeddings := 500; eos_token_ids := [301]; audio_token_id := 300; pad_token_id := 302 |};
|}.

(** An encoder with one number for each token. *)
#[export] Instance unit_network : EncoderNetwork Z := {|
  log_mel audio := Ok (samples audio ++ samples audio, 2, Z.of_nat (length (samples audio)));
  encoder_network chunk_frames token_lengths mask padded := Ok (seqZ 0 (sum_values token_lengths));
  encoder_fits frames := frames <=? 1000;
|}.

Definition spoken (text : bytes) (n : Z) : @TaskRequest Z () () := {|
  text_input := Some {| text := text; language := str "English" |};
  audio_input := Some {| sample_rate := 16000; channels := 1; samples := seqZ 0 n |};
  voice := None; input_artifacts := []; options := ∅;
|}.

Example hello_aligned :
  (λ r : TaskResult Z, map (λ w, (word w, start_sample (word_span w), end_sample (word_span w))) (result_words r)) <$>
    aligned_single 0 (-1) align_config (λ t, Ok (encode (length t) t)) (spoken (str "Hi, you!") 20) =
  Ok [(str "Hi", 42240, 43520); (str "you", 48640, 49920)].
Proof. by vm_compute. Qed.
End Alignments.
