(* ===== verification/Recognition.v ===== *)
(** Sessions of the recognizer (models/qwen3_asr/session.cpp): a request from its options,
    one recording from samples to text, long recordings in chunks, and recordings that
    arrive while they are transcribed. The aligner is behind an interface. *)

From stdpp Require Import gmap.
From S2P Require Import Prelude FlowCache KVCache ForcedAligner Options AudioStream Session Thinker AsrEncoder AsrText StdSort AudioChunking AlignerSession.

#[local] Open Scope Z_scope.

(** * What a recognizer asks of an aligner *)

Class WordAligner (Float State : Type) := align_words : @AudioBuffer Float → Transcript → io State (list (@WordTimestamp Float)).

(** It answers alike whatever it was asked before. *)
Class WordAlignerLaws (Float State : Type) `{!WordAligner Float State} := {
  aligner_ok : State → Prop;
  aligned_words : @AudioBuffer Float → Transcript → outcome (list (@WordTimestamp Float));
  align_words_spec audio t s : aligner_ok s → (align_words audio t s).1 = aligned_words audio t ∧ aligner_ok (align_words audio t s).2;
}.

(** Seconds to samples, options to seconds, and speech in a recording. *)
Class AudioPlanning (Float : Type) := {
  stof : bytes → outcome (Float * bytes);
  seconds_positive : Float → bool;
  round_samples : Float → Z → Z;
  fifteen_seconds : Float;
  thirty_seconds : Float;
  speech_segments : @AudioBuffer Float → outcome (list TimeSpan);
  sort_spans : ∀ A, (A → A → bool) → list A → list A;
  llround_scaled : Z → Z → Z → Z;
}.

(** [llround(x)] of the exact quotient. *)
Definition llround_div (n d : Z) : Z := if 0 <=? n then (2 * n + d) / (2 * d) else - ((2 * - n + d) / (2 * d)).

Section session.
Context {Float : Type} `{!ThinkerNetworks Float} `{!EncoderNetwork Float} `{!AudioPlanning Float}.
Context (fltb : Float → Float → bool) (fzero neg_inf : Float) (stored : ggml_type → Float → Float).
Context (config : Qwen3ASRConfig) (num_hidden_layers : nat) (row_elems : Z).
Context (encode : bytes → outcome (list Z)) (decode_ids : list Z → outcome bytes) (is_control_token_id : Z → bool).
Context {Aligner : Type} `{!WordAligner Float Aligner} {Voice Artifact : Type}.

Notation Audio := (@AudioBuffer Float).
Notation Request := (@TaskRequest Float Voice Artifact).
Notation Result := (TaskResult Float).
Notation Event := (@StreamEvent Transcript).

Definition empty_audio : Audio := {| sample_rate := 0; channels := 1; samples := [] |}.
Definition empty_request : Request := {| text_input := None; audio_input := None; voice := None; input_artifacts := []; options := ∅ |}.
Definition empty_result : Result := {| text_output := None; result_words := [] |}.

Record Qwen3ASRSession := {
  prepared : bool;
  runtime : @Runtime Float;
  (** [forced_aligner_session_], or [nullptr]. *)
  aligner : option Aligner;
  streaming_request_ : Request;
  streaming_result_ : Result;
  streaming_audio_ : Audio;
  streaming_audio_offset_values_ : nat;
  streaming_text_ : bytes;
  streaming_published_bytes_ : nat;
  streaming_windows_processed_ : Z;
  stream_started_ : bool;
  stream_event_sink_ : bool;
  (** What was handed to the sink. *)
  sent : list Event;
}.

#[export] Instance eta_session : Settable Qwen3ASRSession := λ s, {|
  prepared := prepared s; runtime := runtime s; aligner := aligner s; streaming_request_ := streaming_request_ s;
  streaming_result_ := streaming_result_ s; streaming_audio_ := streaming_audio_ s;
  streaming_audio_offset_values_ := streaming_audio_offset_values_ s; streaming_text_ := streaming_text_ s;
  streaming_published_bytes_ := streaming_published_bytes_ s; streaming_windows_processed_ := streaming_windows_processed_ s;
  stream_started_ := stream_started_ s; stream_event_sink_ := stream_event_sink_ s; sent := sent s |}.

Notation session := (io Qwen3ASRSession).

Definition in_runtime {A} (m : io (@Runtime Float) A) : session A := λ s, let '(r, t) := m (runtime s) in (r, s <| runtime := t |>).

Definition in_aligner_session {A} (m : io Aligner A) : session A := λ s,
  match aligner s with
  | Some a => let '(r, a) := m a in (r, s <| aligner := Some a |>)
  | None => (Throw (str "null aligner"), s)
  end.

(** * A request *)

Definition request_return_timestamps (options : gmap bytes bytes) : outcome bool :=
  value ← find_option options [str "return_timestamps"];
  match value with Some value => parse_bool_option value (str "return_timestamps") | None => Ok false end.

Definition make_request (request : Request) : outcome (Qwen3ASRRequest Float) :=
  match audio_input request with
  | None => Throw (str "Qwen3 ASR run() requires audio_input")
  | Some audio =>
      let context := match text_input request with Some t => text t | None => [] end in
      let language := match text_input request with Some t => language t | None => [] end in
      value ← find_option (options request) [str "language"];
      let language := match value with Some value => if bool_decide (value = str "Auto") then [] else value | None => language end in
      value ← parse_int_option (options request) [str "max_tokens"];
      max_new_tokens ← match value with
                       | Some value => if value <=? 0 then Throw (str "Qwen3 ASR max_tokens must be positive") else Ok value
                       | None => Ok (config_max_new_tokens config)
                       end;
      return_timestamps ← request_return_timestamps (options request);
      Ok {| asr_audio := audio; asr_context := context; asr_language := language;
            asr_generation := {| max_new_tokens := max_new_tokens; return_timestamps := return_timestamps |} |}
  end.

(** * One recording *)

Definition timestamp_words (asr_request : Qwen3ASRRequest Float) (decoded : Qwen3ASRResult) : session (list (@WordTimestamp Float)) :=
  if return_timestamps (asr_generation asr_request) then
    match result_text decoded with
    | [] => mret []
    | _ =>
        alignable ← io_lift (has_alignable_words (result_text decoded) (result_language decoded));
        if negb alignable then mret []
        else
          match result_language decoded with
          | [] => io_lift (Throw (str "Qwen3 ASR timestamp output requires a requested or detected language"))
          | _ => in_aligner_session (align_words (asr_audio asr_request) {| text := result_text decoded; language := result_language decoded |})
          end
    end
  else mret [].

Definition missing_aligner : bytes :=
  str ("Qwen3 ASR timestamp output requires --session-option " ++ "qwen3_asr.forced_aligner_model_path=<path-to-Qwen3-ForcedAligner-0.6B>").

Definition run_single (asr_request : Qwen3ASRRequest Float) : session Result :=
  s ← io_get;
  if return_timestamps (asr_generation asr_request) && negb (bool_decide (is_Some (aligner s))) then io_lift (Throw missing_aligner)
  else
    features ← io_lift (extract (frontend config) (asr_audio asr_request));
    prompt ← io_lift (build encode (text_decoder config) asr_request (encoder_tokens features));
    audio_embeddings ← in_runtime (encode_features fzero neg_inf config features);
    tokens ← in_runtime (generate_text fltb fzero stored config num_hidden_layers row_elems prompt audio_embeddings (asr_generation asr_request));
    decoded ← io_lift (decode_answer decode_ids is_control_token_id (text_decoder config) tokens asr_request);
    words ← timestamp_words asr_request decoded;
    mret {| text_output := Some {| text := result_text decoded; language := result_language decoded |}; result_words := words |}.

(** * Recordings in chunks *)

Record AudioChunkPlan := { source_span : TimeSpan; keep_span : TimeSpan }.

Definition parse_audio_chunk_seconds_override (options : gmap bytes bytes) : outcome (option Float) :=
  parse_float_option stof options
    [str "audio_chunk_duration_sec"; str "audio_chunk_seconds"; str "audio_chunk_duration_seconds"; str "audio_chunk_duration"].

Definition audio_frame_count (audio : Audio) : outcome Z :=
  if channels audio <=? 0 then Throw (str "Qwen3 ASR audio chunking requires positive audio channels")
  else if negb (Z.of_nat (length (samples audio)) mod channels audio =? 0) then Throw (str "Qwen3 ASR audio samples must be divisible by channel count")
  else Ok (Z.of_nat (length (samples audio)) / channels audio).

Definition vad_plan (options : gmap bytes bytes) (audio : Audio) (frames : Z) : outcome (list AudioChunkPlan) :=
  override ← parse_audio_chunk_seconds_override options;
  let seconds := default fifteen_seconds override in
  if negb (seconds_positive seconds) then Throw (str "Qwen3 ASR audio_chunk_seconds must be positive")
  else
    let options := {| max_chunk_samples := round_samples seconds (sample_rate audio); merge_gap_samples := llround_div (sample_rate audio) 2;
                      padding_samples := llround_div (sample_rate audio) 4 |} in
    if max_chunk_samples options <=? 0 then Throw (str "Qwen3 ASR audio_chunk_seconds produced an empty chunk")
    else
      segments ← speech_segments audio;
      spans ← plan_vad_audio_chunks sort_spans segments frames options;
      Ok (map (λ span, {| source_span := span; keep_span := span |}) spans).

Definition fixed_chunk (frames context_samples : Z) (chunk : AudioChunkSpan) : AudioChunkPlan :=
  let keep := {| start_sample := output_start_sample chunk; end_sample := output_start_sample chunk + valid_samples chunk |} in
  {| source_span := {| start_sample := Z.max 0 (start_sample keep - context_samples); end_sample := Z.min frames (end_sample keep + context_samples) |};
     keep_span := keep |}.

Definition fixed_plan (options : gmap bytes bytes) (audio : Audio) (frames : Z) (return_timestamps : bool) : outcome (list AudioChunkPlan) :=
  override ← parse_audio_chunk_seconds_override options;
  let seconds := default (if return_timestamps then fifteen_seconds else thirty_seconds) override in
  if negb (seconds_positive seconds) then Throw (str "Qwen3 ASR audio_chunk_seconds must be positive")
  else
    let samples := round_samples seconds (sample_rate audio) in
    if samples <=? 0 then Throw (str "Qwen3 ASR audio_chunk_seconds produced an empty chunk")
    else
      chunks ← plan_audio_chunks frames {| chunk_samples := samples; hop_samples := samples; pad_mode := Zero; tail_alignment := Start; reflect_min_valid_samples := 0 |};
      let context_samples := if return_timestamps then Z.min (samples ÷ 2) (llround_div (sample_rate audio) 1) else 0 in
      Ok (map (fixed_chunk frames context_samples) chunks).

Definition audio_chunk_plan (request : Request) : outcome (list AudioChunkPlan) :=
  match audio_input request with
  | None => Ok []
  | Some audio =>
      mode ← parse_audio_chunk_mode (options request);
      match mode with
      | None_ => Ok []
      | QuietEnergy => Throw (str "Qwen3 ASR does not support audio_chunk_mode=quiet_energy")
      | _ =>
          return_timestamps ← request_return_timestamps (options request);
          frames ← audio_frame_count audio;
          if match mode with Vad => true | Auto => return_timestamps | _ => false end then vad_plan (options request) audio frames
          else fixed_plan (options request) audio frames return_timestamps
      end
  end.

(** [for (const auto & chunk : chunks)]: the result so far and the text. *)
Fixpoint run_chunks (request : Request) (audio : Audio) (chunks : list AudioChunkPlan) (merged : Result) (merged_text : bytes) : session (Result * bytes) :=
  match chunks with
  | [] => mret (merged, merged_text)
  | chunk :: chunks =>
      slice ← io_lift (slice_audio_buffer audio (source_span chunk));
      asr_request ← io_lift (make_request {| text_input := text_input request; audio_input := Some slice; voice := voice request;
                                             input_artifacts := input_artifacts request; options := options request |});
      item ← run_single asr_request;
      let '(output, merged_text) :=
        match text_output item with
        | Some t =>
            match text t with
            | [] => (text_output merged, merged_text)
            | _ =>
                (Some (match text_output merged with
                       | None => {| text := []; language := language t |}
                       | Some m => match language m with [] => {| text := text m; language := language t |} | _ => m end
                       end),
                 (match merged_text with [] => [] | _ => merged_text ++ str " " end) ++ text t)
            end
        | None => (text_output merged, merged_text)
        end in
      words ← io_lift (append_chunk_word_timestamps llround_scaled (result_words merged) (result_words item) (source_span chunk) (keep_span chunk)
                         (sample_rate audio) (config_sample_rate config));
      run_chunks request audio chunks {| text_output := output; result_words := words |} merged_text
  end.

(** The words with a space between them. *)
Fixpoint join_words (words : list (@WordTimestamp Float)) (out : bytes) : bytes :=
  match words with
  | [] => out
  | w :: words => join_words words ((match out with [] => [] | _ => out ++ str " " end) ++ word w)
  end.

(** [Qwen3ASRSession::run]. *)
Definition run (mode : RunMode) (request : Request) : session Result :=
  s ← io_get;
  io_lift (require_prepared (prepared s) (str "Qwen3 ASR run()"));;
  match mode with
  | Streaming => io_lift (Throw (str "Qwen3 ASR run() requires an offline session"))
  | Offline =>
      chunks ← io_lift (audio_chunk_plan request);
      match chunks with
      | [] =>
          mode ← io_lift (parse_audio_chunk_mode (options request));
          with_timestamps ← io_lift (match audio_input request, mode with Some _, Auto => request_return_timestamps (options request) | _, _ => Ok false end);
          if match audio_input request, mode with Some _, Vad => true | Some _, Auto => with_timestamps | _, _ => false end then
            mret {| text_output := Some {| text := []; language := match text_input request with Some t => language t | None => [] end |}; result_words := [] |}
          else asr_request ← io_lift (make_request request); run_single asr_request
      | chunk :: more =>
          match audio_input request with
          | None => io_lift (Throw (str "bad optional access"))
          | Some audio =>
              match more with
              | [] =>
                  slice ← io_lift (slice_audio_buffer audio (source_span chunk));
                  asr_request ← io_lift (make_request {| text_input := text_input request; audio_input := Some slice; voice := voice request;
                                                         input_artifacts := input_artifacts request; options := options request |});
                  item ← run_single asr_request;
                  words ← io_lift (append_chunk_word_timestamps llround_scaled [] (result_words item) (source_span chunk) (keep_span chunk)
                                     (sample_rate audio) (config_sample_rate config));
                  mret {| text_output := text_output item; result_words := words |}
              | _ =>
                  '(merged, merged_text) ← run_chunks request audio chunks empty_result [];
                  match text_output merged with
                  | None => mret merged
                  | Some t =>
                      return_timestamps ← io_lift (request_return_timestamps (options request));
                      let out := if return_timestamps && negb (bool_decide (result_words merged = [])) then join_words (result_words merged) [] else merged_text in
                      mret {| text_output := Some {| text := out; language := language t |}; result_words := result_words merged |}
                  end
              end
          end
      end
  end.

(** * Recordings that arrive *)

Definition event_of_text (t : option Transcript) (is_final : bool) : Event := {|
  voice_activity := []; partial_text := t; audio_output := None; named_audio_outputs := []; speaker_turns := [];
  word_timestamps := []; output_artifacts := []; is_final := is_final |}.

Definition reset : session () :=
  s ← io_get;
  io_lift (require_prepared (prepared s) (str "Qwen3 ASR reset()"));;
  io_modify (λ s, s <| streaming_request_ := empty_request |> <| streaming_result_ := empty_result |> <| streaming_audio_ := empty_audio |>
                    <| streaming_audio_offset_values_ := 0%nat |> <| streaming_text_ := [] |> <| streaming_published_bytes_ := 0%nat |>
                    <| streaming_windows_processed_ := 0 |> <| stream_started_ := false |>).

Definition without_samples (audio : Audio) : Audio := {| sample_rate := sample_rate audio; channels := channels audio; samples := [] |}.

Definition with_audio (request : Request) (audio : option Audio) : Request :=
  {| text_input := text_input request; audio_input := audio; voice := voice request; input_artifacts := input_artifacts request; options := options request |}.

Definition start_stream (mode : RunMode) (request : Request) : session () :=
  s ← io_get;
  io_lift (require_prepared (prepared s) (str "Qwen3 ASR start_stream()"));;
  match mode with
  | Offline => io_lift (Throw (str "Qwen3 ASR start_stream() requires a streaming session"))
  | Streaming =>
      return_timestamps ← io_lift (request_return_timestamps (options request));
      if return_timestamps : bool then io_lift (Throw (str "Qwen3 ASR streaming does not support return_timestamps"))
      else
        reset;;
        io_modify (λ s, s <| streaming_request_ := with_audio request (without_samples <$> audio_input request) |> <| stream_started_ := true |>)
  end.

(** [Qwen3ASRSession::process_one_stream_chunk]. *)
Definition process_one_stream_chunk (audio : Audio) : session Event :=
  s ← io_get;
  let request := streaming_request_ s in
  let item_request := {| text_input := text_input request; audio_input := Some audio; voice := voice request; input_artifacts := input_artifacts request;
                         options := <[str "audio_chunk_mode" := str "none"]> (options request) |} in
  asr_request ← io_lift (make_request item_request);
  item ← run_single asr_request;
  match text_output item with
  | None => mret (event_of_text None false)
  | Some t =>
      match text t with
      | [] => mret (event_of_text None false)
      | _ =>
          io_modify (λ s,
            let streaming_text := streaming_text_ s ++ match streaming_text_ s with [] => text t | _ => str " " ++ text t end in
            let known := match text_output (streaming_result_ s) with
                         | None => language t
                         | Some r => match language r with [] => language t | known => known end
                         end in
            s <| streaming_text_ := streaming_text |>
              <| streaming_result_ := {| text_output := Some {| text := streaming_text; language := known |}; result_words := result_words (streaming_result_ s) |} |>);;
          s ← io_get;
          if (streaming_published_bytes_ s <? length (streaming_text_ s))%nat then
            io_modify (λ s, s <| streaming_published_bytes_ := length (streaming_text_ s) |>);;
            mret (event_of_text (Some {| text := drop (streaming_published_bytes_ s) (streaming_text_ s);
                                         language := match text_output (streaming_result_ s) with Some r => language r | None => [] end |}) false)
          else mret (event_of_text None false)
      end
  end.

(** [while (true)]: the event of the last window, and how many were processed. *)
Fixpoint windows_loop (fuel : nat) (final : bool) (window_frames : Z) (last_event : Event) (processed_chunks : Z) : session (Event * Z) :=
  match fuel with
  | O => mret (last_event, processed_chunks)
  | S fuel =>
      s ← io_get;
      let audio := streaming_audio_ s in
      let offset := streaming_audio_offset_values_ s in
      let pending_frames := Z.of_nat (length (samples audio) - offset) / channels audio in
      if (pending_frames <=? 0) || (negb final && (pending_frames <? window_frames)) then mret (last_event, processed_chunks)
      else
        let take_frames := if final then Z.min pending_frames window_frames else window_frames in
        let take_values := Z.to_nat (take_frames * channels audio) in
        io_modify (λ s, s <| streaming_audio_offset_values_ := (offset + take_values)%nat |>);;
        last_event ← process_one_stream_chunk {| sample_rate := sample_rate audio; channels := channels audio; samples := take take_values (drop offset (samples audio)) |};
        io_modify (λ s, s <| streaming_windows_processed_ := streaming_windows_processed_ s + 1 |>);;
        s ← io_get;
        last_event ← (if stream_event_sink_ s && bool_decide (is_Some (partial_text last_event)) then
                        io_modify (λ s, s <| sent := sent s ++ [last_event] |>);; mret (event_of_text None (is_final last_event))
                      else mret last_event);
        windows_loop fuel final window_frames last_event (processed_chunks + 1)
  end.

(** What is behind the offset is dropped when all is processed, or much of it. *)
Definition release_processed : session () :=
  io_modify (λ s,
    let audio := streaming_audio_ s in
    let offset := streaming_audio_offset_values_ s in
    if (offset =? length (samples audio))%nat then s <| streaming_audio_ := without_samples audio |> <| streaming_audio_offset_values_ := 0%nat |>
    else if (1 * 1024 * 1024 <? Z.of_nat offset) && (Z.of_nat (length (samples audio)) <? Z.of_nat offset * 2) then
      s <| streaming_audio_ := {| sample_rate := sample_rate audio; channels := channels audio; samples := drop offset (samples audio) |} |>
        <| streaming_audio_offset_values_ := 0%nat |>
    else s).

Definition window_frames_of (options : gmap bytes bytes) (rate : Z) : outcome Z :=
  override ← parse_audio_chunk_seconds_override options;
  let seconds := default thirty_seconds override in
  if negb (seconds_positive seconds) then Throw (str "Qwen3 ASR streaming audio_chunk_seconds must be positive")
  else
    let window_frames := round_samples seconds rate in
    if window_frames <=? 0 then Throw (str "Qwen3 ASR streaming audio_chunk_seconds produced an empty chunk") else Ok window_frames.

(** [Qwen3ASRSession::process_available_stream_chunks]. *)
Definition process_available_stream_chunks (final : bool) : session Event :=
  s ← io_get;
  let audio := streaming_audio_ s in
  let offset := streaming_audio_offset_values_ s in
  if (sample_rate audio <=? 0) || (channels audio <=? 0) then mret (event_of_text None false)
  else if (length (samples audio) <? offset)%nat then io_lift (Throw (str "Qwen3 ASR streaming pending audio offset is out of range"))
  else if negb (Z.of_nat (length (samples audio)) mod channels audio =? 0) || negb (Z.of_nat offset mod channels audio =? 0) then
    io_lift (Throw (str "Qwen3 ASR streaming pending audio has invalid channel layout"))
  else
    window_frames ← io_lift (window_frames_of (options (streaming_request_ s)) (sample_rate audio));
    '(last_event, processed_chunks) ← windows_loop (S (length (samples audio))) final window_frames (event_of_text None false) 0;
    (if 0 <? processed_chunks then release_processed else mret tt);;
    mret last_event.

Definition process_audio_chunk (mode : RunMode) (chunk : @AudioChunk Float) : session Event :=
  s ← io_get;
  io_lift (require_prepared (prepared s) (str "Qwen3 ASR process_audio_chunk()"));;
  match mode with
  | Offline => io_lift (Throw (str "Qwen3 ASR process_audio_chunk() requires a streaming session"))
  | Streaming =>
      if negb (stream_started_ s) then io_lift (Throw (str "Qwen3 ASR process_audio_chunk() requires start_stream"))
      else
        let audio := {| sample_rate := chunk_sample_rate chunk; channels := chunk_channels chunk; samples := AudioStream.samples chunk |} in
        if (channels audio <=? 0) || negb (Z.of_nat (length (samples audio)) mod channels audio =? 0) then
          io_lift (Throw (str "Qwen3 ASR streaming audio chunk has invalid channel layout"))
        else
          (if (streaming_audio_offset_values_ s =? length (samples (streaming_audio_ s)))%nat && (0 <? streaming_audio_offset_values_ s)%nat then
             io_modify (λ s, s <| streaming_audio_ := without_samples (streaming_audio_ s) |> <| streaming_audio_offset_values_ := 0%nat |>)
           else mret tt);;
          s ← io_get;
          appended ← io_lift (append_audio_buffer (streaming_audio_ s) audio);
          io_modify (λ s, s <| streaming_audio_ := appended |>);;
          process_available_stream_chunks false
  end.

(** [Qwen3ASRSession::finalize], which [finish_stream] is. *)
Definition finalize (mode : RunMode) : session Result :=
  s ← io_get;
  io_lift (require_prepared (prepared s) (str "Qwen3 ASR finalize()"));;
  match mode with
  | Offline => io_lift (Throw (str "Qwen3 ASR finalize() requires a streaming session"))
  | Streaming =>
      if negb (stream_started_ s) then io_lift (Throw (str "Qwen3 ASR finalize() requires start_stream"))
      else if (length (samples (streaming_audio_ s)) <? streaming_audio_offset_values_ s)%nat then
        io_lift (Throw (str "Qwen3 ASR streaming pending audio offset is out of range"))
      else if (streaming_audio_offset_values_ s =? length (samples (streaming_audio_ s)))%nat && (streaming_windows_processed_ s =? 0) then
        io_lift (Throw (str "Qwen3 ASR finalize() requires streamed audio"))
      else
        process_available_stream_chunks true;;
        io_modify (λ s, match text_output (streaming_result_ s) with
                        | Some _ => s
                        | None => s <| streaming_result_ := {| text_output := Some {| text := []; language := match text_input (streaming_request_ s) with Some t => language t | None => [] end |};
                                                                result_words := result_words (streaming_result_ s) |} |>
                        end);;
        io_modify (λ s, s <| stream_started_ := false |>);;
        io_modify (λ s, if stream_event_sink_ s then s <| sent := sent s ++ [event_of_text None true] |> else s);;
        s ← io_get;
        mret (streaming_result_ s)
  end.

Definition prepare (request : @SessionPreparationRequest Voice) : session () :=
  match prep_audio request with
  | None => io_lift (Throw (str "Qwen3 ASR prepare() requires an audio contract"))
  | Some _ => io_modify (λ s, s <| prepared := true |>)
  end.

Definition set_stream_event_sink (sink : bool) : session () := io_modify (λ s, s <| stream_event_sink_ := sink |>).

Definition make_session (aligner : option Aligner) : Qwen3ASRSession := {|
  prepared := false; runtime := make_runtime; aligner := aligner; streaming_request_ := empty_request; streaming_result_ := empty_result;
  streaming_audio_ := empty_audio; streaming_audio_offset_values_ := 0; streaming_text_ := []; streaming_published_bytes_ := 0;
  streaming_windows_processed_ := 0; stream_started_ := false; stream_event_sink_ := false; sent := [] |}.

(** * The specification: no graphs, and the recording at once *)

Section specification.
Context `{!WordAlignerLaws Float Aligner} (has_aligner : bool).

Definition recognized_words (asr_request : Qwen3ASRRequest Float) (decoded : Qwen3ASRResult) : outcome (list (@WordTimestamp Float)) :=
  if return_timestamps (asr_generation asr_request) then
    match result_text decoded with
    | [] => Ok []
    | _ =>
        alignable ← has_alignable_words (result_text decoded) (result_language decoded);
        if negb alignable then Ok []
        else
          match result_language decoded with
          | [] => Throw (str "Qwen3 ASR timestamp output requires a requested or detected language")
          | _ => aligned_words (asr_audio asr_request) {| text := result_text decoded; language := result_language decoded |}
          end
    end
  else Ok [].

(** One recording, from the networks alone. *)
Definition recognized (asr_request : Qwen3ASRRequest Float) : outcome Result :=
  if return_timestamps (asr_generation asr_request) && negb has_aligner then Throw missing_aligner
  else
    features ← extract (frontend config) (asr_audio asr_request);
    prompt ← build encode (text_decoder config) asr_request (encoder_tokens features);
    audio_embeddings ← encoded fzero neg_inf config features;
    tokens ← transcribe fltb (text_decoder config) prompt audio_embeddings (asr_generation asr_request);
    decoded ← decode_answer decode_ids is_control_token_id (text_decoder config) tokens asr_request;
    words ← recognized_words asr_request decoded;
    Ok {| text_output := Some {| text := result_text decoded; language := result_language decoded |}; result_words := words |}.

(** A window of a stream. *)
Definition recognized_window (request : Request) (rate channels : Z) (window : list Float) : outcome Result :=
  asr_request ← make_request {| text_input := text_input request; audio_input := Some {| sample_rate := rate; channels := channels; samples := window |};
                                voice := voice request; input_artifacts := input_artifacts request;
                                options := <[str "audio_chunk_mode" := str "none"]> (options request) |};
  recognized asr_request.

(** A chunk of a recording. *)
Definition recognized_slice (request : Request) (slice : Audio) : outcome Result :=
  asr_request ← make_request {| text_input := text_input request; audio_input := Some slice; voice := voice request;
                                input_artifacts := input_artifacts request; options := options request |};
  recognized asr_request.
End specification.

(** Pieces of [size] values, the last one shorter. *)
Fixpoint windows_of (fuel size : nat) (values : list Float) : list (list Float) :=
  match fuel, values with
  | S fuel, _ :: _ => take size values :: windows_of fuel size (drop size values)
  | _, _ => []
  end.

(** A recording that arrives in blocks. *)
Fixpoint feed (rate channels start : Z) (blocks : list (list Float)) : session () :=
  match blocks with
  | [] => mret tt
  | block :: blocks =>
      process_audio_chunk Streaming {| chunk_sample_rate := rate; chunk_channels := channels; AudioStream.start_sample := start; AudioStream.samples := block |};;
      feed rate channels (start + Z.of_nat (length block)) blocks
  end.

Definition stream_recording (request : Request) (rate channels : Z) (blocks : list (list Float)) : session Result :=
  start_stream Streaming request;; feed rate channels 0 blocks;; finalize Streaming.

(** The texts that are not empty, with a space between them. *)
Fixpoint joined (texts : list bytes) : bytes :=
  match texts with
  | [] => []
  | [] :: texts => joined texts
  | t :: texts => match joined texts with [] => t | rest => t ++ str " " ++ rest end
  end.

Definition text_of (r : Result) : bytes := match text_output r with Some t => text t | None => [] end.

(** ** Facts *)

Context `{!WordAlignerLaws Float Aligner} (networks_ok : thinker_networks_ok stored (text_decoder config) num_hidden_layers row_elems).

Record session_ok (s : Qwen3ASRSession) : Prop := {
  session_runtime : runtime_ready fzero neg_inf config num_hidden_layers row_elems (runtime s);
  session_aligner : ∀ a, aligner s = Some a → aligner_ok a;
}.

(** Nothing but the graphs and the aligner changes. *)
Definition same_stream (s s' : Qwen3ASRSession) : Prop :=
  s' = s <| runtime := runtime s' |> <| aligner := aligner s' |> ∧ bool_decide (is_Some (aligner s')) = bool_decide (is_Some (aligner s)).

Lemma same_stream_refl s : same_stream s s.
Proof. by destruct s. Qed.

Lemma same_stream_trans s t u : same_stream s t → same_stream t u → same_stream s u.
Proof. intros [E1 B1] [E2 B2]. split; [|congruence]. rewrite E2. rewrite E1. reflexivity. Qed.

Definition session_answers {A} (has_aligner : bool) (m : session A) (r : outcome A) : Prop :=
  ∀ s, session_ok s → bool_decide (is_Some (aligner s)) = has_aligner → (m s).1 = r ∧ session_ok (m s).2 ∧ same_stream s (m s).2.

Section answering.
Context (b : bool).

Lemma session_lift {A} (r : outcome A) : session_answers b (io_lift r) r.
Proof. intros s Hs _. split_and!; [done|done|apply same_stream_refl]. Qed.

Lemma session_ret {A} (a : A) : session_answers b (mret a) (Ok a).
Proof. intros s Hs _. split_and!; [done|done|apply same_stream_refl]. Qed.

Lemma session_bind {A B} (m : session A) r (k : A → session B) (l : A → outcome B) :
  session_answers b m r → (∀ a, session_answers b (k a) (l a)) → session_answers b (m ≫= k) (r ≫= l).
Proof.
  intros Hm Hk s Hs Hb. destruct (Hm s Hs Hb) as (E & H1 & H2). unfold mbind at 1 3 4, io_bind.
  destruct (m s) as [[a|e] s']; cbn [fst snd] in *; subst r; [|done].
  destruct (Hk a s' H1) as (E' & H3 & H4); [by rewrite (proj2 H2)|]. split_and!; [done|done|by eapply same_stream_trans].
Qed.

Lemma runtime_answers {A} (m : io (@Runtime Float) A) r : answers fzero neg_inf config num_hidden_layers row_elems m r → session_answers b (in_runtime m) r.
Proof.
  intros Hm s [H1 H2] _. destruct (Hm _ H1) as [E H3]. unfold in_runtime. destruct (m (runtime s)) as [r' t]; cbn [fst snd] in *.
  split_and!; [done|by split|by destruct s].
Qed.

Lemma aligner_answers audio t : b = true → session_answers b (in_aligner_session (align_words audio t)) (aligned_words audio t).
Proof.
  intros -> s [H1 H2] Hb. unfold in_aligner_session. apply bool_decide_eq_true in Hb. destruct (aligner s) as [a|] eqn:Ea; [|by destruct Hb].
  destruct (align_words_spec audio t a (H2 a eq_refl)) as [E Ha]. destruct (align_words audio t a) as [r' a']; cbn [fst snd] in *.
  split_and!; [done|split; [done|by intros ? [= <-]]|]. split; [by destruct s|by rewrite Ea].
Qed.

Lemma words_answers asr_request decoded : (return_timestamps (asr_generation asr_request) && negb b) = false → session_answers b (timestamp_words asr_request decoded) (recognized_words asr_request decoded).
Proof.
  intros Hb. unfold timestamp_words, recognized_words. destruct (return_timestamps _); [|apply session_ret]. destruct (result_text decoded) eqn:Et; [apply session_ret|]. rewrite <- Et.
  apply session_bind; [apply session_lift|]. intros alignable. destruct (negb alignable); [apply session_ret|]. destruct (result_language decoded) eqn:El; [apply session_lift|]. rewrite <- El.
  apply aligner_answers. by destruct b.
Qed.

(** What a recording is recognized as does not depend on what came before it. *)
Lemma run_single_answers asr_request : session_answers b (run_single asr_request) (recognized b asr_request).
Proof.
  intros s Hs Hb. unfold run_single. rewrite io_bind_get, Hb. unfold recognized. destruct (_ && _) eqn:Ha; [by apply session_lift|].
  refine (session_bind _ _ _ _ (session_lift _) _ s Hs Hb). intros features. apply session_bind; [apply session_lift|]. intros prompt.
  apply session_bind; [apply runtime_answers, encode_answers|]. intros embeddings. apply session_bind; [by apply runtime_answers, generate_answers|]. intros tokens.
  apply session_bind; [apply session_lift|]. intros decoded. apply session_bind; [by apply words_answers|]. intros words. apply session_ret.
Qed.
End answering.

(** ** A stream *)

(** What was heard so far: the text, the result, and the pieces that were published. *)
Record Heard := { heard_text : bytes; heard_result : option Transcript; heard_pieces : list Transcript }.

Definition nothing_heard : Heard := {| heard_text := []; heard_result := None; heard_pieces := [] |}.

Definition piece (h : Heard) (t : Transcript) : Transcript := {|
  text := match heard_text h with [] => text t | _ => str " " ++ text t end;
  language := match heard_result h with None => language t | Some r => match language r with [] => language t | known => known end end |}.

Definition piece_of (h : Heard) (r : Result) : option Transcript :=
  t ← text_output r; match text t with [] => None | _ => Some (piece h t) end.

Definition hear (h : Heard) (r : Result) : Heard :=
  match piece_of h r with
  | None => h
  | Some p => {| heard_text := heard_text h ++ text p; heard_result := Some {| text := heard_text h ++ text p; language := language p |};
                 heard_pieces := heard_pieces h ++ [p] |}
  end.

Record text_state (s : Qwen3ASRSession) (h : Heard) : Prop := {
  state_text : streaming_text_ s = heard_text h;
  state_result : streaming_result_ s = {| text_output := heard_result h; result_words := [] |};
  state_published : streaming_published_bytes_ s = length (heard_text h);
}.

Definition rest (s : Qwen3ASRSession) :=
  (prepared s, stream_started_ s, streaming_request_ s, streaming_audio_ s, streaming_audio_offset_values_ s, streaming_windows_processed_ s, stream_event_sink_ s, sent s).

Lemma same_rest s s' : same_stream s s' → rest s' = rest s.
Proof. intros [E _]. by rewrite E. Qed.

Lemma same_text s s' h : same_stream s s' → text_state s h → text_state s' h.
Proof. intros [E _] [H1 H2 H3]. split; rewrite E; done. Qed.

Section stream.
Context (b : bool) (request : Request) (rate ch : Z) (log : list Event).

Notation has s := (bool_decide (is_Some (aligner s)) = b).

Lemma process_one_spec s h window r :
  session_ok s → has s → text_state s h → streaming_request_ s = request → recognized_window b request rate ch window = Ok r →
  ∃ s', process_one_stream_chunk {| sample_rate := rate; channels := ch; samples := window |} s = (Ok (event_of_text (piece_of h r) false), s') ∧
    session_ok s' ∧ has s' ∧ text_state s' (hear h r) ∧ rest s' = rest s.
Proof.
  intros Hs Hb Ht Hr Hw. unfold process_one_stream_chunk. rewrite io_bind_get. cbv zeta. rewrite Hr. unfold recognized_window in Hw.
  apply outcome_bind_ok in Hw as (asr_request & -> & Hw). rewrite io_bind_lift. destruct (run_single_answers b asr_request s Hs Hb) as (E & Hs' & Hsame).
  rewrite Hw in E. rewrite (io_bind_Ok _ _ _ r (run_single asr_request s).2) by (rewrite <- E; by destruct (run_single asr_request s)).
  set (s1 := (run_single asr_request s).2) in *. clearbody s1. pose proof (same_rest _ _ Hsame) as Hrest. apply (same_text _ _ _ Hsame) in Ht.
  assert (has s1) as Hb1 by (by rewrite (proj2 Hsame)). clear Hsame E Hw. unfold hear, piece_of.
  destruct r as [[[t l]|] ws]; cbn [text_output text]; [|by exists s1]. destruct t as [|c t]; cbn [mbind option_bind]; [by exists s1|].
  set (tr := {| text := c :: t; language := l |}). destruct Ht as [T1 T2 T3].
  set (txt := heard_text h ++ text (piece h tr)). set (res := Some {| text := txt; language := language (piece h tr) |}).
  set (s2 := s1 <| streaming_text_ := txt |> <| streaming_result_ := {| text_output := res; result_words := [] |} |>).
  rewrite (io_bind_Ok _ _ _ tt s2) by (unfold io_modify; cbv zeta; by rewrite T1, T2).
  assert (streaming_published_bytes_ s2 = length (heard_text h)) as P2 by exact T3. assert (streaming_text_ s2 = txt) as X2 by done.
  assert (drop (length (heard_text h)) txt = text (piece h tr)) as Ed by apply drop_app_length.
  rewrite io_bind_get, P2, X2, (proj2 (Nat.ltb_lt _ _)) by (unfold txt; rewrite length_app; unfold piece, tr; cbn [text]; destruct (heard_text h); cbn; lia).
  rewrite (io_bind_Ok _ _ _ tt (s2 <| streaming_published_bytes_ := length (streaming_text_ s2) |>)) by done. rewrite Ed.
  eexists. split; [reflexivity|]. split; [by destruct Hs'|]. split; [exact Hb1|]. split; [by split|]. exact Hrest.
Qed.

Definition published (h : Heard) : list Event := map (λ p, event_of_text (Some p) false) (heard_pieces h).

Record streaming (s : Qwen3ASRSession) (h : Heard) (audio : Audio) (offset : nat) (n : Z) : Prop := {
  streaming_ok : session_ok s;
  streaming_has : has s;
  streaming_text : text_state s h;
  streaming_rest : rest s = (true, true, request, audio, offset, n, true, log ++ published h);
}.

Lemma rest_fields s h audio offset n : streaming s h audio offset n →
  prepared s = true ∧ stream_started_ s = true ∧ streaming_request_ s = request ∧ streaming_audio_ s = audio ∧ streaming_audio_offset_values_ s = offset ∧
  streaming_windows_processed_ s = n ∧ stream_event_sink_ s = true ∧ sent s = log ++ published h.
Proof. intros [_ _ _ H]. unfold rest in H. by injection H as -> -> -> -> -> -> -> ->. Qed.

Lemma rest_intro s p st rq a o n k l :
  prepared s = p → stream_started_ s = st → streaming_request_ s = rq → streaming_audio_ s = a → streaming_audio_offset_values_ s = o →
  streaming_windows_processed_ s = n → stream_event_sink_ s = k → sent s = l → rest s = (p, st, rq, a, o, n, k, l).
Proof. unfold rest. congruence. Qed.

Section format.
Context (W : Z) (W_positive : 0 < W) (ch_positive : 0 < ch).
Context (audio : Audio) (audio_rate : sample_rate audio = rate) (audio_channels : channels audio = ch).

Notation size := (Z.to_nat (W * ch)).

Lemma loop_turn fuel (final : bool) s h offset n (take_ : nat) r last count :
  streaming s h audio offset n →
  let pending := Z.of_nat (length (samples audio) - offset) / ch in
  0 < pending → (final = false → W <= pending) → take_ = Z.to_nat ((if final then Z.min pending W else W) * ch) →
  recognized_window b request rate ch (take take_ (drop offset (samples audio))) = Ok r →
  ∃ s' last', windows_loop (S fuel) final W last count s = windows_loop fuel final W last' (count + 1) s' ∧ streaming s' (hear h r) audio (offset + take_) (n + 1).
Proof.
  intros Hs pending Hp Hf Ht Hw. destruct (rest_fields _ _ _ _ _ Hs) as (R1 & R2 & R3 & R4 & R5 & R6 & R7 & R8). destruct Hs as [Hok Hb Htext _].
  cbn [windows_loop]. rewrite io_bind_get, R4, R5, audio_channels. cbv zeta. fold pending.
  assert ((pending <=? 0) || negb final && (pending <? W) = false) as ->.
  { rewrite (proj2 (Z.leb_gt _ _)) by done. destruct final; [done|]. cbn. apply Z.ltb_ge. auto. }
  rewrite <- Ht, audio_rate. set (s1 := s <| streaming_audio_offset_values_ := (offset + take_)%nat |>). rewrite (io_bind_Ok _ _ _ tt s1) by done.
  destruct (process_one_spec s1 h (take take_ (drop offset (samples audio))) r) as (s2 & E & Hok2 & Hb2 & Ht2 & Hrest2); [by destruct Hok|done|by destruct Htext|exact R3|exact Hw|].
  rewrite (io_bind_Ok _ _ _ _ _ E). set (s3 := s2 <| streaming_windows_processed_ := streaming_windows_processed_ s2 + 1 |>).
  rewrite (io_bind_Ok _ _ _ tt s3), io_bind_get by done.
  unfold rest in Hrest2. injection Hrest2 as Q1 Q2 Q3 Q4 Q5 Q6 Q7 Q8.
  assert (stream_event_sink_ s3 = true) as -> by (rewrite <- R7; exact Q7). cbn [andb].
  assert (rest s3 = (true, true, request, audio, (offset + take_)%nat, n + 1, true, log ++ published h)) as H3.
  { apply rest_intro; [by rewrite <- R1|by rewrite <- R2|by rewrite <- R3|by rewrite <- R4|exact Q5| |by rewrite <- R7|by rewrite <- R8].
    unfold s3. change (streaming_windows_processed_ s2 + 1 = n + 1). rewrite Q6, <- R6. done. }
  destruct (piece_of h r) as [p|] eqn:Ep; cbn [event_of_text partial_text].
  - rewrite bool_decide_true by by eexists. set (s4 := s3 <| sent := sent s3 ++ [event_of_text (Some p) false] |>).
    rewrite (io_bind_Ok _ _ _ (event_of_text None false) s4) by done. exists s4, (event_of_text None false). split; [done|].
    split; [by destruct Hok2|exact Hb2|by destruct Ht2|]. unfold rest in H3. injection H3 as ? ? ? ? ? ? ? Hsent. apply rest_intro; try assumption.
    change (sent s2 ++ [event_of_text (Some p) false] = log ++ published (hear h r)). rewrite Hsent. unfold published, hear. rewrite Ep. cbn [heard_pieces].
    by rewrite map_app, app_assoc.
  - rewrite bool_decide_false by by intros [? ?]. rewrite (io_bind_Ok _ _ _ (event_of_text None false) s3) by done. exists s3, (event_of_text None false). split; [done|].
    assert (hear h r = h) as Eh by (unfold hear; by rewrite Ep). rewrite Eh in *. split; [by destruct Hok2|exact Hb2|by destruct Ht2|exact H3].
Qed.

Lemma loop_stop fuel (final : bool) s h offset n last count :
  streaming s h audio offset n → Z.of_nat (length (samples audio) - offset) / ch < (if final then 1 else W) →
  windows_loop (S fuel) final W last count s = (Ok (last, count), s).
Proof.
  intros Hs Hlt. destruct (rest_fields _ _ _ _ _ Hs) as (_ & _ & _ & R4 & R5 & _). cbn [windows_loop]. rewrite io_bind_get, R4, R5, audio_channels. cbv zeta.
  destruct (_ || _) eqn:E; [done|]. apply orb_false_iff in E as [E1 E2]. apply Z.leb_gt in E1. destruct final; [lia|]. cbn in E2. apply Z.ltb_ge in E2. lia.
Qed.

(** All whole windows are taken. *)
Lemma loop_windows ws : ∀ rs fuel s h offset n pend last count,
  streaming s h audio offset n → (offset <= length (samples audio))%nat → drop offset (samples audio) = concat ws ++ pend →
  Forall (λ w, length w = size) ws → (length pend < size)%nat → Forall2 (λ w r, recognized_window b request rate ch w = Ok r) ws rs → (length ws < fuel)%nat →
  ∃ s' last', windows_loop fuel false W last count s = (Ok (last', count + Z.of_nat (length ws)), s') ∧
    streaming s' (foldl hear h rs) audio (offset + length (concat ws)) (n + Z.of_nat (length ws)).
Proof.
  induction ws as [|w ws IH]; intros rs fuel s h offset n pend last count Hs Ho Hd Hw Hp Hr Hf; (destruct fuel as [|fuel]; [cbn in Hf; lia|]);
    (assert (length (samples audio) - offset = length (drop offset (samples audio)))%nat as Hlen by (by rewrite length_drop)).
  - inversion Hr; subst rs. cbn [concat app] in Hd. exists s, last. cbn [length concat]. rewrite !Z.add_0_r, Nat.add_0_r. split; [|done].
    apply (loop_stop _ _ _ _ _ _ _ _ Hs). rewrite Hlen, Hd. apply Z.div_lt_upper_bound; lia.
  - inversion Hr as [|? r ? rs' Hr1 Hr2]; subst rs. apply Forall_cons in Hw as [Hw1 Hw2]. cbn [concat] in Hd. rewrite <- app_assoc in Hd.
    assert (W <= Z.of_nat (length (samples audio) - offset) / ch) as Hge.
    { rewrite Hlen, Hd, length_app. apply Z.div_le_lower_bound; lia. }
    destruct (loop_turn fuel false s h offset n size r last count Hs) as (s1 & last1 & E1 & Hs1); [lia|done|done|by rewrite Hd, take_app_length' by done|].
    rewrite E1. destruct (IH rs' fuel s1 (hear h r) (offset + size)%nat (n + 1) pend last1 (count + 1) Hs1) as (s2 & last2 & E2 & Hs2); [| |done|done|done|cbn in Hf; lia|].
    + apply (f_equal length) in Hd. rewrite length_drop, !length_app in Hd. unfold size in *. nia.
    + rewrite <- drop_drop, Hd. by rewrite drop_app_length' by done.
    + exists s2, last2. cbn [length concat foldl]. rewrite length_app, Hw1. rewrite E2. split; [do 3 f_equal; lia|].
      replace (offset + (size + length (concat ws)))%nat with (offset + size + length (concat ws))%nat by lia.
      by replace (n + Z.of_nat (S (length ws))) with (n + 1 + Z.of_nat (length ws)) by lia.
Qed.

(** At the end the rest is one more window. *)
Lemma loop_rest s h offset n pend r fuel last count :
  streaming s h audio offset n → (offset <= length (samples audio))%nat → drop offset (samples audio) = pend → pend ≠ [] → (length pend < size)%nat →
  (∃ k, length pend = k * Z.to_nat ch)%nat → recognized_window b request rate ch pend = Ok r →
  ∃ s' last', windows_loop (S (S fuel)) true W last count s = (Ok (last', count + 1), s') ∧ streaming s' (hear h r) audio (length (samples audio)) (n + 1).
Proof.
  intros Hs Ho Hd Hne Hp [k Hk] Hr. assert (length (samples audio) - offset = length pend)%nat as Hlen by (by rewrite <- Hd, length_drop).
  assert (k ≠ 0)%nat as Hk0 by (intros ->; by destruct pend).
  assert (Z.of_nat (length (samples audio) - offset) / ch = Z.of_nat k) as Ediv by (rewrite Hlen, Hk, Nat2Z.inj_mul, Z2Nat.id by lia; apply Z.div_mul; lia).
  destruct (loop_turn (S fuel) true s h offset n (length pend) r last count Hs) as (s1 & last1 & E1 & Hs1); [rewrite Ediv; lia|done| |by rewrite Hd, firstn_all|].
  { rewrite Ediv. rewrite Z.min_l by nia. nia. }
  exists s1, last1. rewrite E1. replace (offset + length pend)%nat with (length (samples audio)) in Hs1 by lia. split; [|done].
  apply (loop_stop _ _ _ _ _ _ _ _ Hs1). rewrite Nat.sub_diag. cbn. rewrite Z.div_0_l; lia.
Qed.
End format.

Section recording.
Context (W : Z) (W_positive : 0 < W) (ch_positive : 0 < ch) (rate_positive : 0 < rate).
Context (window_known : window_frames_of (options request) rate = Ok W).

Notation size := (Z.to_nat (W * ch)).
Notation frame := (Z.to_nat ch).
Notation heard_window := (λ w r, recognized_window b request rate ch w = Ok r).

Definition whole (l : list Float) : Prop := ∃ k, (length l = k * frame)%nat.

(** What is stored of the recording and not transcribed yet. *)
Record buffered (audio : Audio) (offset : nat) (pend : list Float) : Prop := {
  buffered_rate : sample_rate audio = rate;
  buffered_channels : channels audio = ch;
  buffered_offset : (offset <= length (samples audio))%nat;
  buffered_frames : ∃ k, (offset = k * frame)%nat;
  buffered_pending : drop offset (samples audio) = pend;
  buffered_whole : whole pend;
}.

Definition heard_at (s : Qwen3ASRSession) (h : Heard) (pend : list Float) (n : Z) : Prop :=
  ∃ audio offset, streaming s h audio offset n ∧ buffered audio offset pend.

Lemma whole_mod l : whole l → Z.of_nat (length l) mod ch = 0.
Proof. intros [k ->]. rewrite Nat2Z.inj_mul, Z2Nat.id by lia. apply Z.mod_mul. lia. Qed.

Lemma buffered_mod audio offset pend : buffered audio offset pend → Z.of_nat (length (samples audio)) mod ch = 0 ∧ Z.of_nat offset mod ch = 0.
Proof.
  intros [_ _ Ho [k Hk] Hp [j Hj]]. assert (length (samples audio) = offset + length pend)%nat as -> by (rewrite <- Hp, length_drop; lia).
  rewrite Hk, Hj, <- Nat.mul_add_distr_r, !Nat2Z.inj_mul, Z2Nat.id by lia. split; apply Z.mod_mul; lia.
Qed.

Lemma release_heard s h audio offset pend n :
  streaming s h audio offset n → buffered audio offset pend → ∃ s', release_processed s = (Ok tt, s') ∧ heard_at s' h pend n.
Proof.
  intros Hs Hb. destruct (rest_fields _ _ _ _ _ Hs) as (R1 & R2 & R3 & R4 & R5 & R6 & R7 & R8). unfold release_processed, io_modify. cbv zeta. rewrite R4, R5.
  destruct Hb as [B1 B2 B3 B4 B5 B6]. eexists. split; [reflexivity|].
  destruct Hs as [Hok Hh Ht Hr]. destruct (Nat.eqb_spec offset (length (samples audio))) as [E|E].
  - exists (without_samples audio), 0%nat. split.
    + split; [by destruct Hok|done|by destruct Ht|]. by apply rest_intro.
    + split; [exact B1|exact B2|cbn; lia|by exists 0%nat| |exact B6]. by rewrite <- B5, E, drop_all.
  - destruct (_ && _).
    + exists {| sample_rate := sample_rate audio; channels := channels audio; samples := drop offset (samples audio) |}, 0%nat. split.
      * split; [by destruct Hok|done|by destruct Ht|]. by apply rest_intro.
      * split; [exact B1|exact B2|cbn; lia|by exists 0%nat|exact B5|exact B6].
    + by exists audio, offset.
Qed.

Lemma size_positive : (0 < size)%nat.
Proof. assert (0 < W * ch) by nia. lia. Qed.

Lemma concat_windows ws : Forall (λ w : list Float, length w = size) ws → length (concat ws) = (length ws * size)%nat.
Proof. induction 1 as [|w ws Hw _ IH]; [done|]. cbn [concat length]. rewrite length_app, Hw, IH. lia. Qed.

Lemma process_starts final s h audio offset pend n :
  streaming s h audio offset n → buffered audio offset pend →
  process_available_stream_chunks final s =
  ('(last_event, processed_chunks) ← windows_loop (S (length (samples audio))) final W (event_of_text None false) 0;
   (if 0 <? processed_chunks then release_processed else mret tt);; mret last_event) s.
Proof.
  intros Hs Hb. destruct (rest_fields _ _ _ _ _ Hs) as (_ & _ & R3 & R4 & R5 & _).
  unfold process_available_stream_chunks. rewrite io_bind_get, R4, R5. cbv zeta. destruct (buffered_mod _ _ _ Hb) as [M1 M2]. destruct Hb as [B1 B2 B3 _ _ _].
  rewrite B1, B2, (proj2 (Z.leb_gt rate 0)), (proj2 (Z.leb_gt ch 0)), (proj2 (Nat.ltb_ge _ _)), M1, M2 by done. cbn [orb negb Z.eqb].
  by rewrite R3, window_known, io_bind_lift.
Qed.

(** Whole windows are transcribed, what is left of the last one waits. *)
Lemma process_whole s h ws rs pend n :
  heard_at s h (concat ws ++ pend) n → Forall (λ w, length w = size) ws → (length pend < size)%nat → Forall2 heard_window ws rs →
  ∃ s' e, process_available_stream_chunks false s = (Ok e, s') ∧ heard_at s' (foldl hear h rs) pend (n + Z.of_nat (length ws)).
Proof.
  intros (audio & offset & Hs & Hb) Hw Hp Hr. rewrite (process_starts false _ _ _ _ _ _ Hs Hb). pose proof Hb as [B1 B2 B3 B4 B5 B6].
  assert (length (concat ws ++ pend) = length (samples audio) - offset)%nat as Hlen by (by rewrite <- B5, length_drop).
  rewrite length_app, concat_windows in Hlen by done. pose proof size_positive.
  destruct (loop_windows W W_positive ch_positive audio B1 B2 ws rs (S (length (samples audio))) s h offset n pend (event_of_text None false) 0 Hs B3 B5 Hw Hp Hr) as (s1 & last & E & Hs1); [nia|].
  rewrite (io_bind_Ok _ _ _ _ _ E). rewrite concat_windows in Hs1 by done.
  assert (buffered audio (offset + length ws * size) pend) as Hb1.
  { split; [done|done|nia| | |].
    - destruct B4 as [k Hk]. exists (k + length ws * Z.to_nat W)%nat. rewrite Hk, Z2Nat.inj_mul by lia. lia.
    - rewrite <- drop_drop, B5. apply drop_app_length'. by rewrite concat_windows.
    - destruct B6 as [k Hk]. rewrite length_app, concat_windows in Hk by done. exists (k - length ws * Z.to_nat W)%nat. rewrite Z2Nat.inj_mul in Hk by lia. rewrite Nat.mul_sub_distr_r. lia. }
  cbn [fst snd]. destruct (Z.ltb_spec 0 (0 + Z.of_nat (length ws))).
  - destruct (release_heard _ _ _ _ _ _ Hs1 Hb1) as (s2 & E2 & H2). rewrite (io_bind_Ok _ _ _ _ _ E2). by exists s2, last.
  - rewrite (io_bind_Ok _ _ _ tt s1) by done. exists s1, last. split; [done|]. by exists audio, (offset + length ws * size)%nat.
Qed.

(** At the end what waits is transcribed. *)
Lemma process_last s h pend r n :
  heard_at s h pend n → pend ≠ [] → (length pend < size)%nat → heard_window pend r →
  ∃ s' e, process_available_stream_chunks true s = (Ok e, s') ∧ heard_at s' (hear h r) [] (n + 1).
Proof.
  intros (audio & offset & Hs & Hb) Hne Hp Hr. rewrite (process_starts true _ _ _ _ _ _ Hs Hb). pose proof Hb as [B1 B2 B3 B4 B5 B6].
  assert (length pend = length (samples audio) - offset)%nat as Hlen by (by rewrite <- B5, length_drop).
  assert (length pend ≠ 0%nat) by (by destruct pend). destruct (length (samples audio)) as [|len] eqn:El; [lia|].
  destruct (loop_rest W W_positive ch_positive audio B1 B2 s h offset n pend r len (event_of_text None false) 0 Hs) as (s1 & last & E & Hs1); [lia|done..|].
  rewrite (io_bind_Ok _ _ _ _ _ E). cbn [fst snd Z.ltb Z.compare Z.add].
  assert (buffered audio (length (samples audio)) []) as Hb1.
  { split; [done|done|done| |apply drop_all|by exists 0%nat]. destruct B4 as [k Hk], B6 as [j Hj]. exists (k + j)%nat. lia. }
  destruct (release_heard _ _ _ _ _ _ Hs1 Hb1) as (s2 & E2 & H2). rewrite (io_bind_Ok _ _ _ _ _ E2). by exists s2, last.
Qed.

Lemma process_nothing s h n : heard_at s h [] n → ∃ e, process_available_stream_chunks true s = (Ok e, s).
Proof.
  intros (audio & offset & Hs & Hb). rewrite (process_starts true _ _ _ _ _ _ Hs Hb). pose proof Hb as [B1 B2 B3 B4 B5 B6].
  assert (length (samples audio) - offset = 0)%nat as Hz by (by rewrite <- length_drop, B5).
  rewrite (io_bind_Ok _ _ _ _ _ (loop_stop W audio B2 (length (samples audio)) true s h offset n (event_of_text None false) 0 Hs ltac:(rewrite Hz; cbn; rewrite Z.div_0_l; lia))).
  cbn [fst snd Z.ltb Z.compare]. by eexists.
Qed.

Notation windows l := (windows_of (length l) size l).

Lemma windows_fuel fuel : ∀ l, (length l <= fuel)%nat → windows_of fuel size l = windows l.
Proof.
  pose proof size_positive. induction fuel as [fuel IH] using lt_wf_ind. intros [|x l] Hf; [by destruct fuel|]. destruct fuel as [|fuel]; [cbn in Hf; lia|].
  cbn [windows_of length]. f_equal. cbn [length] in Hf. rewrite (IH fuel), (IH (length l)); [done|lia|rewrite length_drop; cbn; lia|lia|rewrite length_drop; cbn; lia].
Qed.

Lemma windows_app ws l : Forall (λ w, length w = size) ws → windows (concat ws ++ l) = ws ++ windows l.
Proof.
  pose proof size_positive. induction 1 as [|w ws Hw _ IH]; [done|]. cbn [concat]. rewrite <- app_assoc. set (more := concat ws ++ l) in *.
  destruct w as [|x w]; [cbn in Hw; lia|]. cbn [app length windows_of]. rewrite app_comm_cons, take_app_length', drop_app_length' by done. cbn [app]. f_equal.
  rewrite windows_fuel; [done|]. rewrite length_app. lia.
Qed.

Lemma windows_short l : (length l < size)%nat → windows l = match l with [] => [] | _ => [l] end.
Proof.
  destruct l as [|x l]; [done|]. intros Hl. cbn [length windows_of]. rewrite take_ge, drop_ge by (cbn in *; lia). f_equal. by destruct (length l).
Qed.

Lemma split_windows (l : list Float) : ∃ ws pend, l = concat ws ++ pend ∧ Forall (λ w, length w = size) ws ∧ (length pend < size)%nat.
Proof.
  pose proof size_positive. induction l as [l IH] using (induction_ltof1 _ (@length Float)). destruct (Nat.lt_ge_cases (length l) size) as [Hl|Hl]; [by exists [], l|].
  destruct (IH (drop size l)) as (ws & pend & E & Hw & Hp); [unfold ltof; rewrite length_drop; lia|]. exists (take size l :: ws), pend. split_and!; [|constructor; [rewrite length_take; lia|done]|done].
  cbn [concat]. by rewrite <- app_assoc, <- E, take_drop.
Qed.

(** Before the first block the session does not know the format. *)
Definition waiting (s : Qwen3ASRSession) (h : Heard) (pend : list Float) (n : Z) : Prop :=
  heard_at s h pend n ∨ (pend = [] ∧ n = 0 ∧ streaming s h empty_audio 0 0).

Lemma with_stream_audio s h audio offset n audio' offset' :
  streaming s h audio offset n → streaming (s <| streaming_audio_ := audio' |> <| streaming_audio_offset_values_ := offset' |>) h audio' offset' n.
Proof.
  intros Hs. destruct (rest_fields _ _ _ _ _ Hs) as (R1 & R2 & R3 & R4 & R5 & R6 & R7 & R8). destruct Hs as [[]? [] _]. split; [done|done|done|]. by apply rest_intro.
Qed.

Lemma with_more_audio s h audio offset n audio' :
  streaming s h audio offset n → streaming (s <| streaming_audio_ := audio' |>) h audio' offset n.
Proof.
  intros Hs. destruct (rest_fields _ _ _ _ _ Hs) as (R1 & R2 & R3 & R4 & R5 & R6 & R7 & R8). destruct Hs as [[]? [] _]. split; [done|done|done|]. by apply rest_intro.
Qed.

Lemma append_known (audio : Audio) block : sample_rate audio = rate → channels audio = ch →
  append_audio_buffer audio {| sample_rate := rate; channels := ch; samples := block |} = Ok {| sample_rate := rate; channels := ch; samples := samples audio ++ block |}.
Proof.
  intros E1 E2. unfold append_audio_buffer. cbn [sample_rate channels samples]. rewrite (proj2 (Z.leb_gt rate 0)), (proj2 (Z.leb_gt ch 0)) by done. cbn [orb].
  rewrite E1, (proj2 (Z.eqb_neq rate 0)), E2, !Z.eqb_refl by lia. cbn. by rewrite E1, E2.
Qed.

(** A block is stored behind what waits. *)
Lemma block_stored start block s h pend n :
  waiting s h pend n → whole block →
  ∃ s', process_audio_chunk Streaming {| chunk_sample_rate := rate; chunk_channels := ch; AudioStream.start_sample := start; AudioStream.samples := block |} s =
    process_available_stream_chunks false s' ∧ heard_at s' h (pend ++ block) n.
Proof.
  intros Hwait Hblock. unfold process_audio_chunk. rewrite io_bind_get.
  assert (prepared s = true ∧ stream_started_ s = true) as [-> ->] by (destruct Hwait as [(audio & offset & Hs & _)|(_ & _ & Hs)]; destruct (rest_fields _ _ _ _ _ Hs) as (? & ? & _); done).
  cbn [require_prepared]. rewrite io_bind_lift. cbn [negb chunk_sample_rate chunk_channels AudioStream.samples]. cbv zeta. cbn [channels samples].
  rewrite (proj2 (Z.leb_gt ch 0)), (whole_mod block) by done. cbn [orb negb Z.eqb].
  destruct Hwait as [(audio & offset & Hs & [B1 B2 B3 B4 B5 B6])|(-> & -> & Hs)]; destruct (rest_fields _ _ _ _ _ Hs) as (_ & _ & _ & R4 & R5 & _); rewrite R4, R5.
  - destruct (_ && _) eqn:Eb.
    + apply andb_true_iff in Eb as [Eb _]. apply Nat.eqb_eq in Eb. pose proof (with_stream_audio _ _ _ _ _ (without_samples audio) 0%nat Hs) as Hs1.
      set (s1 := s <| streaming_audio_ := _ |> <| streaming_audio_offset_values_ := _ |>) in Hs1. rewrite (io_bind_Ok _ _ _ tt s1) by (unfold io_modify; by rewrite R4).
      destruct (rest_fields _ _ _ _ _ Hs1) as (_ & _ & _ & Q4 & _). rewrite io_bind_get, Q4, append_known, io_bind_lift by done.
      rewrite (io_bind_Ok _ _ _ tt (s1 <| streaming_audio_ := _ |>)) by reflexivity. eexists. split; [reflexivity|]. eexists _, 0%nat. split; [by eapply with_more_audio|].
      assert (pend = []) as -> by (by rewrite <- B5, Eb, drop_all). split; [done|done|cbn; lia|by exists 0%nat|done|exact Hblock].
    + rewrite (io_bind_Ok _ _ _ tt s) by done. rewrite io_bind_get, R4, append_known, io_bind_lift by done.
      rewrite (io_bind_Ok _ _ _ tt (s <| streaming_audio_ := _ |>)) by reflexivity. eexists. split; [reflexivity|]. eexists _, offset. split; [by eapply with_more_audio|].
      split; [done|done|cbn [samples]; rewrite length_app; lia|done|cbn [samples]; rewrite drop_app_le by done; by rewrite B5|].
      destruct B6 as [k Hk], Hblock as [j Hj]. exists (k + j)%nat. rewrite length_app. lia.
  - cbn [Nat.eqb length samples empty_audio andb Nat.ltb Nat.leb]. rewrite (io_bind_Ok _ _ _ tt s) by done. rewrite io_bind_get, R4.
    assert (append_audio_buffer empty_audio {| sample_rate := rate; channels := ch; samples := block |} = Ok {| sample_rate := rate; channels := ch; samples := block |}) as ->.
    { unfold append_audio_buffer. cbn [sample_rate channels samples]. by rewrite (proj2 (Z.leb_gt rate 0)), (proj2 (Z.leb_gt ch 0)). }
    rewrite io_bind_lift, (io_bind_Ok _ _ _ tt (s <| streaming_audio_ := _ |>)) by reflexivity. eexists. split; [reflexivity|]. eexists _, 0%nat. split; [by eapply with_more_audio|].
    split; [done|done|cbn; lia|by exists 0%nat|done|exact Hblock].
Qed.

Lemma feed_heard blocks : ∀ s h pend n start rs,
  waiting s h pend n → (length pend < size)%nat → 0 <= n → Forall whole blocks → Forall2 heard_window (windows (pend ++ concat blocks)) rs →
  ∃ s' pend' n' rs1 rs2, feed rate ch start blocks s = (Ok tt, s') ∧ waiting s' (foldl hear h rs1) pend' n' ∧ (length pend' < size)%nat ∧ n <= n' ∧
    (pend ++ concat blocks ≠ [] → pend' ≠ [] ∨ n < n') ∧ rs = rs1 ++ rs2 ∧ Forall2 heard_window (windows pend') rs2.
Proof.
  induction blocks as [|block blocks IH]; intros s h pend n start rs Hwait Hp Hn Hb Hr; cbn [feed concat] in *.
  - rewrite app_nil_r in *. exists s, pend, n, [], rs. split_and!; try done. auto.
  - apply Forall_cons in Hb as [Hb Hbs]. destruct (block_stored start block s h pend n Hwait Hb) as (s1 & E1 & H1).
    destruct (split_windows (pend ++ block)) as (ws & pend1 & Esplit & Hw & Hp1). rewrite app_assoc, Esplit, <- app_assoc, windows_app in Hr by done.
    apply Forall2_app_inv_l in Hr as (rs1 & rs' & Hr1 & Hr' & ->). rewrite Esplit in H1.
    destruct (process_whole s1 h ws rs1 pend1 n H1 Hw Hp1 Hr1) as (s2 & e & E2 & H2). rewrite (io_bind_Ok _ _ _ e s2) by (by rewrite E1).
    destruct (IH s2 (foldl hear h rs1) pend1 (n + Z.of_nat (length ws)) (start + Z.of_nat (length block)) rs') as (s3 & pend' & n' & rs2 & rs3 & E3 & H3 & Hp' & Hn' & Hne & -> & Hr3); [by left|done|lia|done|done|].
    exists s3, pend', n', (rs1 ++ rs2), rs3. rewrite foldl_app, <- app_assoc. split_and!; [done|done|done|lia| |done|done].
    intros Hall. destruct ws as [|w ws].
    + cbn [concat app length] in *. rewrite Z.add_0_r in Hne. apply Hne. by rewrite <- Esplit, <- app_assoc.
    + right. cbn [length] in *. lia.
Qed.

Lemma finalize_heard s h pend n rs :
  waiting s h pend n → (length pend < size)%nat → 0 <= n → (pend ≠ [] ∨ 0 < n) → Forall2 heard_window (windows pend) rs →
  ∃ s' t, finalize Streaming s = (Ok {| text_output := Some t; result_words := [] |}, s') ∧
    t = default {| text := []; language := match text_input request with Some t => language t | None => [] end |} (heard_result (foldl hear h rs)) ∧
    sent s' = log ++ published (foldl hear h rs) ++ [event_of_text None true].
Proof.
  intros [Hh|(-> & -> & _)] Hp Hn Hsome Hr; [|by destruct Hsome]. pose proof Hh as (audio & offset & Hs & [B1 B2 B3 B4 B5 B6]).
  destruct (rest_fields _ _ _ _ _ Hs) as (R1 & R2 & R3 & R4 & R5 & R6 & R7 & R8). unfold finalize. rewrite io_bind_get, R1, R2, R4, R5, R6. cbn [require_prepared negb].
  rewrite io_bind_lift, (proj2 (Nat.ltb_ge _ _)) by done.
  assert ((offset =? length (samples audio))%nat && (n =? 0) = false) as ->.
  { destruct (Nat.eqb_spec offset (length (samples audio))) as [->|]; [|done]. rewrite drop_all in B5. destruct Hsome as [?|?]; [congruence|]. apply Z.eqb_neq. lia. }
  assert (∃ s1 e n1, process_available_stream_chunks true s = (Ok e, s1) ∧ heard_at s1 (foldl hear h rs) [] n1) as (s1 & e & n1 & E1 & (audio1 & offset1 & Hs1 & _)).
  { rewrite windows_short in Hr by done. destruct pend as [|x pend].
    - inversion Hr; subst rs. destruct (process_nothing s h n Hh) as [e E]. by exists s, e, n.
    - inversion Hr as [|? r ? rs' Hr1 Hr2]; subst rs. inversion Hr2; subst rs'. destruct (process_last s h (x :: pend) r n Hh ltac:(done) Hp Hr1) as (s1 & e & E & Hat). by exists s1, e, (n + 1). }
  rewrite (io_bind_Ok _ _ _ _ _ E1). destruct (rest_fields _ _ _ _ _ Hs1) as (Q1 & Q2 & Q3 & Q4 & Q5 & Q6 & Q7 & Q8). destruct Hs1 as [_ _ [T1 T2 T3] _].
  set (hh := foldl hear h rs) in *. set (t := default _ (heard_result hh)).
  rewrite (io_bind_Ok _ _ _ tt (s1 <| streaming_result_ := {| text_output := Some t; result_words := [] |} |>)).
  2:{ unfold io_modify. rewrite T2, Q3. cbn [text_output result_words]. unfold t. destruct (heard_result hh) as [t0|]; [|done]. change (default _ (Some t0)) with t0. rewrite <- T2. by destruct s1. }
  set (s2 := s1 <| streaming_result_ := _ |>). rewrite (io_bind_Ok _ _ _ tt (s2 <| stream_started_ := false |>)) by done.
  set (s3 := s2 <| stream_started_ := false |>). rewrite (io_bind_Ok _ _ _ tt (s3 <| sent := sent s3 ++ [event_of_text None true] |>)).
  2:{ unfold io_modify. assert (stream_event_sink_ s3 = true) as -> by exact Q7. done. }
  rewrite io_bind_get. eexists _, t. split; [reflexivity|]. split; [done|]. change (sent s1 ++ [event_of_text None true] = log ++ published hh ++ [event_of_text None true]). by rewrite Q8, app_assoc.
Qed.
End recording.
End stream.

(** The text grows by its pieces and is the texts of the windows joined. *)
Lemma joined_snoc texts t : joined (texts ++ [t]) = match t with [] => joined texts | _ => match joined texts with [] => t | before => before ++ str " " ++ t end end.
Proof.
  induction texts as [|x texts IH]; cbn [app joined]; [by destruct t|]. destruct x as [|c x]; [done|]. rewrite IH. destruct t as [|d t]; [done|].
  destruct (joined texts) as [|e more]; [done|]. cbn [app]. f_equal. by rewrite <- !app_assoc.
Qed.

Lemma heard_joined rs :
  let h := foldl hear nothing_heard rs in
  heard_text h = joined (map text_of rs) ∧ concat (map text (heard_pieces h)) = heard_text h ∧
  match heard_result h with Some t => text t = heard_text h | None => heard_text h = [] end.
Proof.
  induction rs as [|r rs (H1 & H2 & H3)] using rev_ind; cbn zeta; [done|]. rewrite foldl_snoc, map_app. cbn [map]. rewrite joined_snoc.
  set (h := foldl hear nothing_heard rs) in *. unfold hear, piece_of.
  destruct r as [[[[|c t] l]|] ws]; cbn [text_of text_output text mbind option_bind]; [done| |done]. cbn [heard_text heard_result heard_pieces]. rewrite map_app, concat_app, H2. cbn [map concat].
  rewrite app_nil_r. split_and!; [|done|done]. unfold piece. cbn [text]. rewrite <- H1. by destruct (heard_text h).
Qed.

Lemma window_positive options rate W : window_frames_of options rate = Ok W → 0 < W.
Proof. unfold window_frames_of. intros (override & _ & H)%outcome_bind_ok. destruct (negb _); [done|]. cbv zeta in H. destruct (Z.leb_spec (round_samples (default thirty_seconds override) rate) 0); [done|]. by injection H as <-. Qed.

Lemma reset_spec s : prepared s = true →
  ∃ s', reset s = (Ok tt, s') ∧ runtime s' = runtime s ∧ aligner s' = aligner s ∧ text_state s' nothing_heard ∧
    rest s' = (true, false, empty_request, empty_audio, 0%nat, 0, stream_event_sink_ s, sent s).
Proof.
  intros Hp. unfold reset. rewrite io_bind_get, Hp. cbn [require_prepared]. rewrite io_bind_lift. eexists. split; [reflexivity|].
  split; [done|]. split; [done|]. split; [done|]. by apply rest_intro.
Qed.

Lemma start_stream_spec b request s :
  session_ok s → bool_decide (is_Some (aligner s)) = b → prepared s = true → stream_event_sink_ s = true → request_return_timestamps (options request) = Ok false →
  ∃ s', start_stream Streaming request s = (Ok tt, s') ∧
    streaming b (with_audio request (without_samples <$> audio_input request)) (sent s) s' nothing_heard empty_audio 0 0.
Proof.
  intros [Hs1 Hs2] Hb Hp Hk Hr. unfold start_stream. rewrite io_bind_get, Hp. cbn [require_prepared]. rewrite io_bind_lift, Hr, io_bind_lift.
  destruct (reset_spec s Hp) as (s1 & E & H1 & H2 & [T1 T2 T3] & Hrest). unfold rest in Hrest. injection Hrest as R1 R2 R3 R4 R5 R6 R7 R8.
  rewrite (io_bind_Ok _ _ _ _ _ E). eexists. split; [reflexivity|]. split.
  - split; [exact (eq_ind_r _ Hs1 H1)|]. intros a Ha. apply Hs2. rewrite <- H2. exact Ha.
  - rewrite <- Hb, <- H2. done.
  - by split.
  - apply rest_intro; [exact R1|done|done|exact R4|exact R5|exact R6|by rewrite <- Hk|]. rewrite app_nil_r. exact R8.
Qed.

(** C5. A recording that arrives in blocks of any size is transcribed in windows of a fixed
    length as if it had been there at once, each window as the networks alone answer it: the
    result has the texts of the windows in order, and the pieces that were published on the
    way, each once, are that text. *)
Theorem stream_transcript request rate ch W blocks rs s :
  session_ok s → prepared s = true → stream_event_sink_ s = true → request_return_timestamps (options request) = Ok false →
  0 < rate → 0 < ch → window_frames_of (options request) rate = Ok W →
  Forall (λ block, ∃ k, length block = k * Z.to_nat ch)%nat blocks → concat blocks ≠ [] →
  Forall2 (λ window r, recognized_window (bool_decide (is_Some (aligner s))) request rate ch window = Ok r)
    (windows_of (length (concat blocks)) (Z.to_nat (W * ch)) (concat blocks)) rs →
  ∃ t pieces s', stream_recording request rate ch blocks s = (Ok {| text_output := Some t; result_words := [] |}, s') ∧
    text t = joined (map text_of rs) ∧ concat (map text pieces) = text t ∧
    sent s' = sent s ++ map (λ p, event_of_text (Some p) false) pieces ++ [event_of_text None true].
Proof.
  intros Hs Hp Hk Ht Hrate Hch HW Hblocks Hne Hr. pose proof (window_positive _ _ _ HW) as HW0. unfold stream_recording.
  destruct (start_stream_spec _ request s Hs eq_refl Hp Hk Ht) as (s1 & E1 & H1). rewrite (io_bind_Ok _ _ _ _ _ E1).
  set (b := bool_decide (is_Some (aligner s))) in *. set (stored_request := with_audio request _) in *.
  pose proof (size_positive ch W HW0 Hch) as Hsize.
  destruct (feed_heard b stored_request rate ch (sent s) W HW0 Hch Hrate HW blocks s1 nothing_heard [] 0 0 rs) as (s2 & pend & n & rs1 & rs2 & E2 & H2 & Hpend & Hn & Hsome & -> & Hr2);
    [by right|done|done|exact Hblocks|exact Hr|]. rewrite (io_bind_Ok _ _ _ _ _ E2).
  destruct (finalize_heard b stored_request rate ch (sent s) W HW0 Hch Hrate HW s2 _ pend n rs2 H2 Hpend Hn (Hsome Hne) Hr2) as (s3 & t & E3 & Et & Esent).
  rewrite <- foldl_app in *. destruct (heard_joined (rs1 ++ rs2)) as (J1 & J2 & J3). exists t, (heard_pieces (foldl hear nothing_heard (rs1 ++ rs2))), s3.
  assert (text t = heard_text (foldl hear nothing_heard (rs1 ++ rs2))) as Etext by (subst t; destruct (heard_result _); [exact J3|by rewrite J3]).
  split_and!; [exact E3|by rewrite Etext|by rewrite Etext|exact Esent].
Qed.

Lemma tiles_from n size l : ∀ k, 0 <= k →
  (∀ i c, l !! i = Some c → start_sample c = (k + Z.of_nat i) * size ∧ end_sample c = Z.min n ((k + Z.of_nat i + 1) * size) ∧ start_sample c < end_sample c) →
  Z.min n ((k + Z.of_nat (length l)) * size) = n → tiles (Z.min n (k * size)) n l.
Proof.
  induction l as [|c l IH]; intros k Hk Hl Hn; cbn [tiles length] in *; [by rewrite Z.add_0_r in Hn|].
  destruct (Hl 0%nat c eq_refl) as (E1 & E2 & Hlt). rewrite Z.add_0_r in E1, E2. split_and!; [lia|lia|]. rewrite E2. apply IH; [lia| |].
  - intros i d Hd. destruct (Hl (S i) d Hd) as (F1 & F2 & F3). replace (k + 1 + Z.of_nat i) with (k + Z.of_nat (S i)) by lia. done.
  - by replace (k + 1 + Z.of_nat (length l)) with (k + Z.of_nat (S (length l))) by lia.
Qed.

(** The fixed plan of a recording without timestamps. *)
Lemma fixed_plan_tiles options audio frames plan :
  fixed_plan options audio frames false = Ok plan → 0 < frames ∧ map source_span plan = map keep_span plan ∧ tiles 0 frames (map keep_span plan).
Proof.
  unfold fixed_plan. intros (override & _ & H)%outcome_bind_ok. destruct (negb _) in H; [done|]. cbv zeta in H.
  set (size := round_samples _ _) in H. destruct (Z.leb_spec size 0); [done|]. apply outcome_bind_ok in H as (spans & Hspans & [= <-]).
  pose proof (audio_chunks_tile frames {| chunk_samples := size; hop_samples := size; pad_mode := Zero; tail_alignment := Start; reflect_min_valid_samples := 0 |}) as Htile.
  rewrite Hspans in Htile. cbn [chunk_samples hop_samples] in Htile. destruct Htile as (Hf & Hlen & Hat & _). split; [done|].
  assert (∀ i s, spans !! i = Some s → output_start_sample s = Z.of_nat i * size ∧ output_start_sample s + valid_samples s = Z.min frames ((Z.of_nat i + 1) * size) ∧ 0 < valid_samples s) as Hs.
  { intros i s Hi. destruct (Hat i s Hi) as (_ & E1 & E2 & _ & _ & Hv & _). split_and!; [done|rewrite E2, E1; f_equal; lia|done]. }
  split.
  - rewrite !map_map. apply map_ext_in. intros s Hin%list_elem_of_In. apply list_elem_of_lookup in Hin as [i Hi]. destruct (Hs i s Hi) as (E1 & E2 & Hv).
    unfold fixed_chunk. cbn [source_span keep_span start_sample end_sample]. f_equal; nia.
  - replace 0 with (Z.min frames (0 * size)) by lia. apply tiles_from; [lia| |].
    + intros i c. rewrite map_map. change (map ?f ?l) with (f <$> l). rewrite list_lookup_fmap. intros (s & Hi & ->)%fmap_Some. destruct (Hs i s Hi) as (E1 & E2 & Hv).
      cbn [fixed_chunk keep_span start_sample end_sample]. split_and!; [lia|rewrite E2; f_equal; lia|lia].
    + rewrite !length_map. unfold chunk_count in Hlen. cbn [hop_samples] in Hlen. rewrite Hlen. apply Z.min_l.
      pose proof (Z.div_mod (frames + size - 1) size ltac:(lia)). pose proof (Z.mod_pos_bound (frames + size - 1) size ltac:(lia)). nia.
Qed.

(** Without timestamps and speech detection a recording is cut where one chunk ends and the
    next begins: what is transcribed of each chunk is what is kept of it, and the chunks put
    together are the recording. *)
Lemma chunks_are_recording request audio plan :
  audio_input request = Some audio → 0 < sample_rate audio → parse_audio_chunk_mode (options request) ≠ Ok Vad → request_return_timestamps (options request) = Ok false →
  audio_chunk_plan request = Ok plan → plan ≠ [] →
  ∃ slices, Forall2 (λ c slice, (source_span c = keep_span c ∧ 0 <= start_sample (source_span c) <= end_sample (source_span c)) ∧ slice_audio_buffer audio (source_span c) = Ok slice) plan slices ∧
    concat (map samples slices) = samples audio.
Proof.
  intros Ha Hrate Hmode Ht Hplan Hne. unfold audio_chunk_plan in Hplan. rewrite Ha in Hplan. apply outcome_bind_ok in Hplan as (mode & Em & Hplan).
  assert (∃ frames, audio_frame_count audio = Ok frames ∧ fixed_plan (options request) audio frames false = Ok plan) as (frames & Ef & Ep).
  { rewrite Em in Hmode. destruct mode; [| |done|done|by injection Hplan as <-]; rewrite Ht in Hplan; cbn [mbind outcome_bind] in Hplan; apply outcome_bind_ok in Hplan as (frames & Ef & Hplan); by exists frames. }
  destruct (fixed_plan_tiles _ _ _ _ Ep) as (Hf & Esource & Htiles).
  destruct (slices_join audio frames (map keep_span plan)) as (slices & Hs & Hconcat); [|done|].
  - unfold audio_frame_count in Ef. destruct (Z.leb_spec (channels audio) 0); [done|]. destruct (Z.eqb_spec (Z.of_nat (length (samples audio)) mod channels audio) 0) as [Em0|]; [|done].
    injection Ef as <-. split_and!; [done|done|done|]. pose proof (Z.div_mod (Z.of_nat (length (samples audio))) (channels audio) ltac:(lia)). lia.
  - exists slices. split; [|done]. clear Ep Hplan Hne Hconcat. revert slices Hs. set (from := 0) in Htiles. assert (0 <= from) as Hfrom by done. clearbody from. revert from Hfrom Htiles.
    induction plan as [|c plan IH]; intros from Hfrom Htiles slices Hs; inversion Hs as [|? slice ? slices' (H1 & _) H2]; subst; [constructor|].
    cbn [map tiles] in *. injection Esource as Ec Eplan. destruct Htiles as (H3 & H4 & H5). constructor; [rewrite Ec; split_and!; [done|lia|lia|done]|].
    eapply IH; [done| |exact H5|done]. lia.
Qed.

(** A chunk that can be cut out is a part of the recording. *)
Lemma slice_span (audio slice : Audio) span :
  slice_audio_buffer audio span = Ok slice → 0 <= start_sample span <= end_sample span.
Proof.
  unfold slice_audio_buffer, require_positive, require_valid_time_span. destruct (sample_rate audio <=? 0); [done|].
  destruct (channels audio <=? 0); [done|]. cbn [mbind outcome_bind]. destruct (_ =? 0); [done|]. destruct (negb _); [done|].
  destruct (Z.ltb_spec (start_sample span) 0); [done|]. destruct (Z.leb_spec (end_sample span) (start_sample span)); [done|]. lia.
Qed.

(** What is transcribed of a chunk is what is kept of it. *)
Lemma plan_keeps request audio plan :
  audio_input request = Some audio → request_return_timestamps (options request) = Ok false → audio_chunk_plan request = Ok plan →
  map source_span plan = map keep_span plan.
Proof.
  intros Ha Ht Hplan. unfold audio_chunk_plan in Hplan. rewrite Ha, Ht in Hplan. apply outcome_bind_ok in Hplan as (mode & _ & Hplan).
  destruct mode; try (by injection Hplan as <-); try done; cbn [mbind outcome_bind] in Hplan; apply outcome_bind_ok in Hplan as (frames & _ & Hplan);
    try by apply fixed_plan_tiles in Hplan as (_ & ? & _).
  unfold vad_plan in Hplan. apply outcome_bind_ok in Hplan as (override & _ & Hplan). destruct (negb _); [done|]. cbv zeta in Hplan.
  destruct (_ <=? 0); [done|]. apply outcome_bind_ok in Hplan as (segments & _ & Hplan). apply outcome_bind_ok in Hplan as (spans & _ & Hplan).
  injection Hplan as <-. by rewrite !map_map.
Qed.

(** No words, nothing to merge. *)
Lemma merge_nothing (output : list (@WordTimestamp Float)) span rate target :
  0 <= start_sample span <= end_sample span → 0 < rate → 0 < target →
  append_chunk_word_timestamps llround_scaled output [] span span rate target = Ok output.
Proof.
  intros Hs Hr Ht. unfold append_chunk_word_timestamps, validate_merge_spans, valid_merge_span, rescale_time_span, rescale_sample_index, require_positive.
  rewrite (proj2 (Z.leb_le 0 (start_sample span))), (proj2 (Z.leb_le (start_sample span) (end_sample span))), !(proj2 (Z.ltb_ge _ _)) by lia.
  rewrite (proj2 (Z.leb_gt rate 0)), (proj2 (Z.leb_gt target 0)) by lia. cbn. by destruct (rate =? target).
Qed.

Lemma recognized_slice_wordless b request slice r :
  request_return_timestamps (options request) = Ok false → recognized_slice b request slice = Ok r → ∃ t, r = {| text_output := Some t; result_words := [] |}.
Proof.
  unfold recognized_slice, make_request. cbn [audio_input text_input options]. intros Ht (asr_request & Ha & H)%outcome_bind_ok.
  apply outcome_bind_ok in Ha as (l & _ & Ha). cbv zeta in Ha. apply outcome_bind_ok in Ha as (m & _ & Ha). apply outcome_bind_ok in Ha as (n & _ & Ha).
  rewrite Ht in Ha. injection Ha as <-. unfold recognized in H. cbn [asr_generation return_timestamps andb] in H.
  apply outcome_bind_ok in H as (features & _ & H). apply outcome_bind_ok in H as (p & _ & H). apply outcome_bind_ok in H as (embeddings & _ & H).
  apply outcome_bind_ok in H as (tokens & _ & H). apply outcome_bind_ok in H as (decoded & _ & H). cbn in H. injection H as <-. by eexists.
Qed.

Section chunks.
Context (b : bool) (request : Request) (audio : Audio).
Context (rate_positive : 0 < sample_rate audio) (target_positive : 0 < config_sample_rate config) (timestamps_off : request_return_timestamps (options request) = Ok false).

Definition chunk_answer (c : AudioChunkPlan) (r : Result) : Prop :=
  ∃ slice, ((source_span c = keep_span c ∧ 0 <= start_sample (source_span c) <= end_sample (source_span c)) ∧ slice_audio_buffer audio (source_span c) = Ok slice) ∧
    recognized_slice b request slice = Ok r.

(** A chunk is cut out and recognized, and its words are none. *)
Lemma chunk_program c t ws s :
  session_ok s → bool_decide (is_Some (aligner s)) = b → chunk_answer c {| text_output := t; result_words := ws |} →
  ∃ s', session_ok s' ∧ bool_decide (is_Some (aligner s')) = b ∧ is_Some t ∧ ws = [] ∧
    (∀ A (k : Result → session A), (slice ← io_lift (slice_audio_buffer audio (source_span c));
     asr_request ← io_lift (make_request {| text_input := text_input request; audio_input := Some slice; voice := voice request;
                                            input_artifacts := input_artifacts request; options := options request |});
     item ← run_single asr_request; k item) s = k {| text_output := t; result_words := ws |} s') ∧
    ∀ output, append_chunk_word_timestamps llround_scaled output ws (source_span c) (keep_span c) (sample_rate audio) (config_sample_rate config) = Ok output.
Proof.
  intros Hs Hb (slice & ((Ekeep & Hspan) & Eslice) & Hr). destruct (recognized_slice_wordless _ _ _ _ timestamps_off Hr) as [t' [= -> ->]].
  unfold recognized_slice in Hr. apply outcome_bind_ok in Hr as (asr_request & Ea & Hr).
  destruct (run_single_answers b asr_request s Hs Hb) as (E & Hs' & [_ Hb']). rewrite Hr in E. exists (run_single asr_request s).2.
  split_and!; [done|by rewrite Hb'|done|done| |].
  - intros A k. rewrite Eslice, io_bind_lift, Ea, io_bind_lift. by rewrite (io_bind_Ok _ _ _ _ (run_single asr_request s).2) by (rewrite <- E; by destruct (run_single asr_request s)).
  - intros output. rewrite <- Ekeep. by apply merge_nothing.
Qed.

(** The texts grow by those of the chunks, and there is a text when one of them is not empty. *)
Lemma run_chunks_spec plan rs : Forall2 chunk_answer plan rs → ∀ before merged s,
  session_ok s → bool_decide (is_Some (aligner s)) = b → result_words merged = [] → (text_output merged = None ↔ joined (map text_of before) = []) →
  ∃ merged' s', run_chunks request audio plan merged (joined (map text_of before)) s = (Ok (merged', joined (map text_of (before ++ rs))), s') ∧
    result_words merged' = [] ∧ (text_output merged' = None ↔ joined (map text_of (before ++ rs)) = []).
Proof.
  induction 1 as [|c r plan rs Hc _ IH]; intros before merged s Hs Hb Hw Ht; cbn [run_chunks]; [rewrite app_nil_r; by exists merged, s|].
  destruct r as [t ws]. destruct (chunk_program c t ws s) as (s' & Hs' & Hb' & [t' ->] & -> & E & Hmerge); [done..|]. rewrite E. clear E.
  replace (before ++ {| text_output := Some t'; result_words := [] |} :: rs) with ((before ++ [{| text_output := Some t'; result_words := [] |}]) ++ rs) by (by rewrite <- app_assoc).
  set (r := {| text_output := Some t'; result_words := [] |}).
  assert (joined (map text_of (before ++ [r])) = match text t' with [] => joined (map text_of before) | _ => (match joined (map text_of before) with [] => [] | _ => joined (map text_of before) ++ str " " end) ++ text t' end) as Ej.
  { rewrite map_app. cbn [map]. rewrite joined_snoc. change (text_of r) with (text t'). destruct (text t') as [|x l]; [done|]. destruct (joined (map text_of before)); [done|]. by rewrite <- app_assoc. }
  cbn [text_output r]. destruct (text t') as [|x l] eqn:Et.
  - rewrite Hmerge, io_bind_lift, <- Ej. apply IH; [done|done|by rewrite Hw|by rewrite Ej].
  - rewrite Hmerge, io_bind_lift, <- Ej. apply IH; [done|done|by rewrite Hw|]. cbn [text_output]. rewrite Ej. split; [done|]. by intros [_ ?]%app_eq_nil.
Qed.
End chunks.

(** C6. A recording for which at least one chunk is planned, without timestamps: each chunk
    is recognized as the networks alone answer it, and the text is theirs in order. There is
    a text, if an empty one, unless there are several chunks and nothing was heard in any.
    The chunks put together are the recording when they are not cut by detected speech. *)
Theorem recording_transcript request audio plan s :
  session_ok s → prepared s = true → 0 < config_sample_rate config → audio_input request = Some audio → 0 < sample_rate audio →
  request_return_timestamps (options request) = Ok false → audio_chunk_plan request = Ok plan → plan ≠ [] →
  (parse_audio_chunk_mode (options request) ≠ Ok Vad →
   ∃ slices, Forall2 (λ c slice, slice_audio_buffer audio (source_span c) = Ok slice) plan slices ∧ concat (map samples slices) = samples audio) ∧
  ∀ slices rs,
    Forall2 (λ c slice, slice_audio_buffer audio (source_span c) = Ok slice) plan slices →
    Forall2 (λ slice r, recognized_slice (bool_decide (is_Some (aligner s))) request slice = Ok r) slices rs →
    ∃ r s', run Offline request s = (Ok r, s') ∧ text_of r = joined (map text_of rs) ∧ result_words r = [] ∧
      (text_output r = None ↔ (1 < length plan)%nat ∧ text_of r = []).
Proof.
  intros Hs Hp Htarget Ha Hrate Ht Hplan Hne. split.
  { intros Hmode. destruct (chunks_are_recording request audio plan) as (slices & Hslices & Hconcat); [done..|].
    exists slices. split; [|done]. by eapply Forall2_impl; [exact Hslices|]; intros ?? [_ ?]. }
  intros slices rs Hslices Hrs.
  assert (Forall2 (chunk_answer (bool_decide (is_Some (aligner s))) request audio) plan rs) as Hanswers.
  { pose proof (plan_keeps request audio plan Ha Ht Hplan) as Hkeep. clear -Hslices Hrs Hkeep. revert rs Hrs.
    induction Hslices as [|c slice plan slices H1 _ IH]; intros rs Hrs; inversion Hrs; subst; constructor; injection Hkeep as Hk Hkeep; [|by apply IH].
    exists slice. split; [|done]. split; [|done]. split; [done|]. by eapply slice_span. }
  unfold run. rewrite io_bind_get, Hp. cbn [require_prepared]. rewrite io_bind_lift, Hplan, io_bind_lift. destruct Hanswers as [|c r plan rs Hc Hanswers]; [done|]. rewrite Ha.
  destruct Hanswers as [|c2 r2 plan rs Hc2 Hanswers].
  - destruct r as [t ws].
    destruct (chunk_program (bool_decide (is_Some (aligner s))) request audio Hrate Htarget Ht c t ws s) as (s' & Hs' & Hb' & [t' ->] & -> & E & Hmerge); [done..|].
    rewrite E, Hmerge, io_bind_lift. eexists _, s'. split; [reflexivity|]. cbn [map text_of text_output joined length]. split_and!; [by destruct (text t')|done|].
    split; [done|]. intros [? _]. lia.
  - destruct (run_chunks_spec _ request audio Hrate Htarget Ht (c :: c2 :: plan) (r :: r2 :: rs) ltac:(by repeat constructor) [] empty_result s Hs eq_refl eq_refl) as (merged & s' & E & Hw & Hnone); [done|].
    cbn [app] in E, Hnone. change (joined (map text_of [])) with (@nil Z) in E. set (joint := joined (map text_of (r :: r2 :: rs))) in *. rewrite (io_bind_Ok _ _ _ _ _ E).
    destruct merged as [[m|] ws]; cbn [text_output result_words] in *; subst ws.
    + rewrite Ht, io_bind_lift. cbn [andb]. eexists _, s'. split; [reflexivity|]. cbn [text_of text_output text result_words]. split_and!; [done|done|].
      split; [done|]. intros [_ Hj]. by apply Hnone in Hj.
    + exists {| text_output := None; result_words := [] |}, s'. split; [done|]. cbn [text_of text_output result_words length]. split_and!; [symmetry; by apply Hnone|done|].
      split; [split; [lia|done]|done].
Qed.
End session.

(** * The forced aligner behind the interface *)

Section aligner.
Context {Float : Type} `{!ThinkerNetworks Float} `{!EncoderNetwork Float} `{arith : TimestampArith}.
Context (fzero neg_inf : Float) (config : Qwen3ASRConfig) (num_hidden_layers : nat) (row_elems : Z) (encode : bytes → outcome (list Z)).

(** The call of [run_single]: the aligner's session is prepared for the request and run. *)
Definition align_request (audio : @AudioBuffer Float) (t : Transcript) : @TaskRequest Float () () := {|
  text_input := Some t; audio_input := Some audio; voice := None; input_artifacts := []; options := {[str "audio_chunk_mode" := str "none"]} |}.

#[local] Instance forced_aligner : WordAligner Float (@AlignerSession Float) := λ audio t,
  aligner_prepare (build_preparation_request (align_request audio t));;
  result ← aligner_run fzero neg_inf config encode (align_request audio t);
  mret (result_words result).

#[local] Program Instance forced_aligner_laws : WordAlignerLaws Float (@AlignerSession Float) := {|
  aligner_ok s := runtime_ready fzero neg_inf config num_hidden_layers row_elems (aligner_runtime s);
  aligned_words audio t := result ← aligned_single fzero neg_inf config encode (align_request audio t); Ok (result_words result);
|}.
Next Obligation.
  intros audio t s Hs. unfold align_words, forced_aligner, aligner_prepare. cbn [build_preparation_request prep_audio prep_text align_request text_input audio_input fmap option_fmap option_map].
  set (s1 := s <| aligner_prepared := true |>). rewrite (io_bind_Ok _ _ _ tt s1) by done.
  destruct (aligner_run_spec fzero neg_inf config num_hidden_layers row_elems encode (align_request audio t) s1) as [E Hr]; [done|by vm_compute|exact Hs|].
  unfold mbind at 1 3, io_bind. rewrite <- E. by destruct (aligner_run _ _ _ _ _ s1) as [[result|e] s2].
Qed.
End aligner.

Module Streams.

(** The likeliest token: a letter for the sum of what was heard, then the next letters up to
    one that is divisible by three; nothing for a sum divisible by five. *)
Definition only (token : Z) : list Z := map (λ j, if j =? token then 1 else 0) (seqZ 0 303).

#[export] Instance letters : ThinkerNetworks Z := {|
  prefill_network ids embeddings positions :=
    let total := foldl Z.add 0 embeddings in
    (Ok (only (if total mod 5 =? 0 then 301 else 97 + total mod 24)), [(ids, ids)]);
  decode_network kv position token := (Ok (only (if token mod 3 =? 0 then 301 else token + 1)), [([token], [position])]);
  classification_network ids embeddings positions := Ok ids;
  prefill_fits steps audio := true;
|}.

#[export] Instance sums : EncoderNetwork Z := {|
  log_mel audio := Ok (samples audio ++ samples audio, 2, Z.of_nat (length (samples audio)));
  encoder_network chunk_frames token_lengths mask padded := Ok (map (Z.add (foldl Z.add 0 padded)) (seqZ 0 (sum_values token_lengths)));
  encoder_fits frames := frames <=? 1000;
|}.

#[export] Instance planning : AudioPlanning Z := {|
  stof value := v ← stoll value; Ok (v, []);
  seconds_positive seconds := 0 <? seconds;
  round_samples seconds rate := seconds * rate;
  fifteen_seconds := 1; thirty_seconds := 2;
  speech_segments audio := Ok [];
  sort_spans := insertion_sort;
  llround_scaled sample target source := llround_div (sample * target) source;
|}.

Definition encode_text (text : bytes) : outcome (list Z) := Ok (Alignments.encode (length text) text).

(** There is no aligner: one of the empty type. *)
#[export] Instance no_aligner : WordAligner Z Empty_set := λ audio t (s : Empty_set), match s with end.
#[export] Instance no_aligner_laws : WordAlignerLaws Z Empty_set := {| aligner_ok s := True; aligned_words audio t := Ok []; align_words_spec audio t (s : Empty_set) := match s with end |}.

Definition english : @TaskRequest Z () () :=
  {| text_input := Some {| text := []; language := str "English" |}; audio_input := None; voice := None; input_artifacts := []; options := ∅ |}.

Definition ready_session : @Qwen3ASRSession Z Empty_set () () := make_session None <| prepared := true |> <| stream_event_sink_ := true |>.

Definition stored (type : ggml_type) (x : Z) : Z := x.
Notation recognize_window w := (recognized_window Z.ltb 0 (-1) Alignments.align_config encode_text Ok (λ _, false) false english 10 1 w).
Notation stream blocks := (stream_recording Z.ltb 0 (-1) stored Alignments.align_config 1 1 encode_text Ok (λ _, false) english 10 1 blocks).

Definition blocks : list (list Z) := [[5]; [4; 9; 2; 7]; seqZ 9 31; []; seqZ 37 12; [5; 3]].
Definition heard_windows : list (TaskResult Z) :=
  map (λ text, {| text_output := Some {| text := text; language := str "English" |}; result_words := [] |}) [[]; str "pqr"; str "r"].

Lemma letters_ok : thinker_networks_ok stored (text_decoder Alignments.align_config) 1 1.
Proof.
  split; [done| | |by split; [lia|]|done].
  - intros kv position token. split; [done|]. by repeat constructor.
  - intros ids embeddings positions logits _. rewrite Z.mul_1_r, Nat2Z.id. split; [done|]. by repeat constructor.
Qed.

Lemma each_answered {A B} (f : A → outcome B) l : ∀ rs, map f l = map Ok rs → Forall2 (λ a r, f a = Ok r) l rs.
Proof. induction l as [|a l IH]; intros [|r rs] [=]; constructor; auto. Qed.

Lemma each_answer {A B} (f : A → outcome B) l rs : ∀ rs', Forall2 (λ a r, f a = Ok r) l rs → map f l = map Ok rs' → rs = rs'.
Proof. intros rs' H. revert rs'. induction H as [|a r l rs Ha _ IH]; intros [|r' rs'] [=]; f_equal; [congruence|auto]. Qed.

(** Fifty samples arrive in blocks; the first window is silent. *)
Lemma stream_transcript_witness :
  ∃ t pieces s', stream blocks ready_session = (Ok {| text_output := Some t; result_words := [] |}, s') ∧
    text t = str "pqr r" ∧ concat (map text pieces) = str "pqr r" ∧
    sent s' = map (λ p, event_of_text (Some p) false) pieces ++ [event_of_text None true].
Proof.
  destruct (stream_transcript Z.ltb 0 (-1) stored Alignments.align_config 1 1 encode_text Ok (λ _, false) letters_ok english 10 1 20 blocks heard_windows ready_session)
    as (t & pieces & s' & E & Et & Ep & Es);
    [split; [apply make_runtime_ready|done]|done|done|by vm_compute|done|done|by vm_compute| |by vm_compute| |].
  - repeat constructor; eexists; symmetry; apply Nat.mul_1_r.
  - apply each_answered. by vm_compute.
  - exists t, pieces, s'. split; [exact E|]. rewrite Ep, Et. split; [by vm_compute|]. split; [by vm_compute|exact Es].
Defined.

Definition recording (values : list Z) : @AudioBuffer Z := {| sample_rate := 10; channels := 1; samples := values |}.
Definition recorded (values : list Z) : @TaskRequest Z () () := with_audio english (Some (recording values)).
Notation run_recording values := (run Z.ltb 0 (-1) stored Alignments.align_config 1 1 encode_text Ok (λ _, false) Offline (recorded values) ready_session).

Definition plan_of (ends : list (Z * Z)) : list AudioChunkPlan :=
  map (λ se, let span := {| start_sample := se.1; end_sample := se.2 |} in {| source_span := span; keep_span := span |}) ends.

(** The same samples at once. *)
Lemma recording_transcript_witness :
  ∃ r s', run_recording (concat blocks) = (Ok r, s') ∧ text_of r = str "pqr r" ∧ text_output r ≠ None.
Proof.
  destruct (recording_transcript Z.ltb 0 (-1) stored Alignments.align_config 1 1 encode_text Ok (λ _, false) letters_ok (recorded (concat blocks)) (recording (concat blocks))
    (plan_of [(0, 20); (20, 40); (40, 50)]) ready_session) as [Hpieces H];
    [split; [apply make_runtime_ready|done]|done|done|done|done|by vm_compute|by vm_compute|done|].
  destruct Hpieces as (slices & H1 & _); [by vm_compute|]. destruct (H slices heard_windows H1) as (r & s' & E & Et & _ & Hn).
  - cut (slices = map recording (windows_of 50 20 (concat blocks))); [intros ->; apply each_answered; by vm_compute|].
    apply (each_answer _ _ _ _ H1). by vm_compute.
  - exists r, s'. split; [exact E|]. rewrite Et. split; [by vm_compute|]. rewrite Hn, Et. by intros [_ ?].
Defined.

(** Nothing is heard: a short recording has an empty text, a longer one none. *)
Example silent_recordings :
  (text_output <$> (run_recording (take 20 (concat blocks))).1, text_output <$> (run_recording (take 20 (concat blocks) ++ take 20 (concat blocks))).1) =
  (Ok (Some {| text := []; language := str "English" |}), Ok None).
Proof. by vm_compute. Qed.
End Streams.
